(* ===== verification/_CoqProject ===== *)
-Q . S2P
Prelude.v
External.v
TablesData.v
Tables.v
BlockCipher.v
Kalyna.v
Stream.v
Ecb.v
Cbc.v
Ctr.v
Ofb.v
Cfb.v
Cmac.v
Poly2.v
Gf2mWide.v
Ghash.v
Gmac.v
Gcm.v
Kw.v
KwP.v
Xts.v
Ccm.v
Kupyna.v
KupynaKmac.v
StrumokData.v
Strumok.v
Randombytes.v
Secretstream.v
SecretstreamFile.v
CryptoAuth.v
CryptoStream.v
CryptoSecretbox.v
Limb.v
Modular.v
Primes.v
Fp9041.v
Edwards.v
EdwardsEval.v
Curve9041.v
Message9041.v
Encryption9041.v
BinaryCurve.v
Gf2Field.v
Gf2Eval.v
Gf4145.v
Scalar4145.v
Curve4145.v
Signature4145.v
CryptoSign.v
CryptoBox.v
CryptoPwhash.v
PassphraseFile.v
Keyfile.v
CliError.v
CliStream.v
Suggest.v
CliArgs.v
Utf8.v
PassphraseInput.v
HashCommand.v
KeyCommands.v
SignCommand.v
BoxCommand.v
HazmatCommand.v
Dispatch.v
OutputFile.v
CAbi.v
CPrimitives.v
CSecretstream.v
