(* ===== verification/Prelude.v ===== *)
(** A verified model of the cryptographic library of the repository, of the core of its command-line tool and of its C interface:
    [crates/dstu-core], the pure-Rust implementation of the Ukrainian standards DSTU 7624 (Kalyna), DSTU 7564 (Kupyna), DSTU 8845 (Strumok),
    DSTU 9041 (encryption to an Edwards curve key) and DSTU 4145 (signatures on binary curves), with the constructions built over them.

    * How the program is put together

    The lowest layer ([src/crates/dstu-core/src/hazmat/]) has the tables, the block cipher and its modes,
    the hash with its MAC and key derivation, the stream cipher, and field arithmetic.  The modes are Rust
    macros over the cipher: here they are proved once, against the class [BlockCipher] that [Kalyna.v]
    discharges for all five variants.  The upper layer ([src/crates/dstu-core/src/]) fixes one choice of
    each and adds keys, random nonces, formats and protocol state; the streaming AEAD is a pair of state
    machines over GCM and KMAC, and its file codec a state machine over those.  The command-line tool
    ([src/crates/uacrypt/src/]) drives the codec over files and pipes that deliver what they like and may
    fail at any call, and publishes its output only on success.

    * Which file models what

    - [Prelude.v]: words of a given width, byte order, arrays, Rust's [Result]; notations, tactics, the
      hint database [uacrypt] and the generic lemmas.
    - [External.v]: the contracts of the crates [subtle] and [zeroize], as classes with laws; every
      theorem that depends on them has them as a premise, and [plain_subtle] shows they can hold.
    - [TablesData.v], [Tables.v] ([hazmat/tables.rs]): S-boxes and MDS matrices with the generated lookup
      tables, and the linear layer in both resource profiles (the feature [small-tables]).
    - [BlockCipher.v] (interface), [Kalyna.v] ([hazmat/kalyna.rs]).
    - [Stream.v] (interface: XOR with a keystream at a position), with [Ctr.v], [Ofb.v] and [Strumok.v]
      as its implementations; [Ecb.v], [Cbc.v], [Cfb.v], [Cmac.v], [Xts.v], [Ccm.v], [Kw.v], [KwP.v]
      ([hazmat/kalyna_*.rs]).
    - [Poly2.v] (specification: polynomials over GF(2) as integers), [Gf2mWide.v] ([hazmat/gf2m_wide.rs]),
      [Ghash.v], [Gmac.v], [Gcm.v].
    - [Kupyna.v], [KupynaKmac.v] ([hazmat/kupyna.rs], [kupyna_kmac.rs], [kupyna_kdf.rs]).
    - [StrumokData.v], [Strumok.v] ([hazmat/strumok.rs]).
    - [Randombytes.v], [CryptoAuth.v] (with [crypto_kdf.rs]), [CryptoStream.v], [CryptoSecretbox.v],
      [Secretstream.v], [SecretstreamFile.v]: the files of the same names in [src/crates/dstu-core/src/].
    - [Limb.v] ([hazmat/limb.rs] and the loops over limbs), [Modular.v] (specification: congruence, Fermat's
      theorem, Pocklington's criterion evaluated on certificates), [Primes.v] (the certificates), [Fp9041.v]
      ([hazmat/dstu9041/fp256.rs], [fp384.rs], [fp512.rs]: one text over the size [fp]).
    - [Edwards.v] (specification: twisted Edwards curves over a prime field, with the group of the points
      whose multiple by the order is the neutral element), [EdwardsEval.v] (a ladder on big numbers that
      decides such a claim by evaluation), [Curve9041.v] ([curve256.rs], [curve384.rs], [curve512.rs]),
      [Message9041.v] ([message*.rs]), [Encryption9041.v] ([encryption*.rs]).
    - [BinaryCurve.v] (specification: the group of a curve [y^2 + xy = x^3 + a x^2 + b] over a field of
      characteristic two, the double-and-add-free ladder on the first coordinate, and the projective
      formulas), [Gf2Field.v] (specification: GF(2)[z] modulo a polynomial as a field, with inversion by an
      addition chain), [Gf2Eval.v] (a fast evaluation of that field and of the ladder, proved equal to it);
      [Gf4145.v] ([hazmat/dstu4145/gf2m163.rs], [gf2m257.rs]), [Scalar4145.v] ([scalar.rs], [scalar257.rs]),
      [Curve4145.v] ([curve163.rs], [curve257.rs]), [Signature4145.v] ([signature.rs], [signature257.rs]):
      one text over the size [fb], with a definition of its own where the two files differ.
    - [CryptoSign.v] ([crypto_sign.rs], [crypto_sign257.rs]) over [Signature4145.v] and the hash;
      [CryptoBox.v] ([crypto_box.rs], [crypto_box384.rs], [crypto_box512.rs]) over [Encryption9041.v], the
      stream codec and the key derivation.
    - [CryptoPwhash.v] ([crypto_pwhash.rs]): password hashes, key derivation, and the checks of an untrusted
      hash string; [PassphraseFile.v] ([crypto_pwhash/passphrase_file.rs]): the header in front of a stream.
      The crates [argon2] and [password-hash] are the classes [Argon2Crate] and [PhcText], with their
      documented behaviour as [Argon2Laws] and [PhcLaws]; [plain_argon2] and [plain_phc] satisfy them.
    - [Keyfile.v] ([uacrypt/src/keyfile.rs]), [CliError.v] (the error type, the exit statuses and the
      conversions of [uacrypt/src/lib.rs] and [passphrase.rs]), [CliStream.v] ([run_secretstream_encrypt],
      [run_secretstream_decrypt] and what they call in [uacrypt/src/lib.rs]).
    - [Suggest.v] (the edit distance and the suggestion for a mistyped name), [CliArgs.v] (the scanner of
      arguments, its accessors, the flag tables and the argument parser of each command), [HashCommand.v]
      (hashing a stream, lists of digests and their check): [uacrypt/src/lib.rs]; [PassphraseInput.v]
      ([uacrypt/src/passphrase.rs]) with [Utf8.v] (the validation of UTF-8 by Rust's standard library).
    - [KeyCommands.v] (key generation, public keys, the import of raw keys, and the readers that check a key),
      [SignCommand.v] ([run_sign_command], [run_verify_command]), [BoxCommand.v] ([run_box_seal_command],
      [run_box_open_command] and their forms in memory): [uacrypt/src/lib.rs].  They put the files above together:
      key lines, keys, hashing, streams and outputs.
    - [HazmatCommand.v]: the eight commands of [hazmat] in [uacrypt/src/lib.rs] ([run_block_command],
      [run_kw_command], [run_xts_command], [run_gmac_command], [run_ccm_command], [run_gcm_command],
      [run_digest_command], [run_strumok_command]); the macro in each is one definition over the variant.
    - [Dispatch.v]: the tables of commands, [run] and the functions it hands the arguments to, up to the
      parsed arguments of the command ([uacrypt/src/lib.rs], [completions.rs], [manpage.rs]).
    - [OutputFile.v]: [OutputFile] in [uacrypt/src/lib.rs] (reservation, temporary file, commit, [Drop]) with
      [create_private_new], over a file system that is a map from paths to nodes; it refines the output that
      the command files use.
    - [CAbi.v]: the boundary of the C interface ([dstu-core-capi/src/util.rs], [error.rs]): a memory of bytes at
      addresses, a heap of handles, [slice_from_raw], [overlaps], the guards around a panic, [dstu_memzero] and the
      freeing of a handle.  A call ends with a value, with a panic, or is undefined: a slice over bytes that are not
      there, a null or dangling handle, a write through a misaligned pointer, or a shared and an exclusive borrow
      of the same byte.  [total] says that a call returns and in which worlds.
    - [CPrimitives.v] ([auth.rs], [kdf.rs], [generichash.rs], [stream.rs], [secretbox.rs], [randombytes.rs]) and
      [CSecretstream.v] ([secretstream.rs]): every exported function of these files.  Texts that the source
      repeats for several handle types are one definition over the type.

    * How Rust is rendered

    A [u8], [u32] or [u64] is a [Z] with the range [word_ok w] and its wrap-around written out; an array or
    slice is a list whose length is part of the shape invariants, [array_ok n].  A method that works in
    place returns the object, the buffers it was lent and its result.  [Result] is [result]; [None] is a
    panic ([unreachable!]), and the theorems show that it does not occur.  The functions that the source
    compiles under a [cfg] in two forms are two definitions, proved equal.  A call that the operating
    system or a third-party crate answers is an argument.

    Loops over a buffer are functions of the part of the buffer that is left.  Where such a loop is not
    structural it takes fuel, which is the length of that part (plus one where a turn may consume nothing):
    every turn consumes a byte, and the theorems state the outcome of the function with the fuel it is
    really given, so running out of it is excluded by proof and never assumed away.  The retry loops that
    draw candidates (keys, ephemeral scalars, nonces) take fuel too, and their theorems say what each
    amount of it gives: enough fuel is the number of candidates up to the first usable one.

    An input of the command-line tool is the data that is left with a schedule of what the next calls of
    [read] do (deliver so many bytes, be interrupted, fail); an output carries a schedule of the failures of
    its next calls, and the file system of [OutputFile.v] one of the failures of each call, those of a
    write after some of the bytes included, and keeps the states it went through.  The theorems quantify
    over them.  A turn of the reading loop uses up a byte or an entry
    of the schedule, and a turn of a record loop at least a byte, so these are their fuel.

    * What the theorems show

    - The block cipher is a permutation for every key ([kalyna_roundtrip]); its in-place key schedule gives
      the keys of the standard ([kalyna_key_schedule]); the unrolled and fused forms of both directions
      equal the round-by-round ones ([kalyna_encrypt_unrolled], [kalyna_decrypt_fusion]).
    - Every mode computes its defining equations for all lengths and all splits into calls, and
      deciphers what it enciphers; the authenticated ones release nothing on a mismatch
      ([gcm_decrypt_correct], which gives the outcome on every input, and [ccm_open_correct]); unwrapping accepts exactly the wrapped keys
      ([kw_unwrap_exact], [kwp_unwrap_exact]).
    - Field multiplication is multiplication of polynomials modulo the reduction polynomial, on the windowed
      and on the hardware path ([gf_multiply_correct]).
    - The hash is the one of the standard, one-shot and in any sequence of updates
      ([kupyna_digest_correct], [kupyna_streaming]); its padding is injective.
    - The batched stream cipher equals the scalar one ([strumok_batched_scalar]).
    - The streaming AEAD never uses an IV twice, over any sequence of accepted and refused calls
      ([secretstream_no_iv_reuse]: each chunk that is put out is sealed under the IV and the associated data of
      its position, all distinct); its file reader accepts exactly the files of the format
      ([stream_file_open_exact]), reports every truncation ([stream_file_cut]), and fails closed
      ([decryptor_fail_closed]).
    - A prime-field operation gives the canonical representative of the residue and never leaves its
      limbs ([fp_operations], [fp_invert_correct], [fp_sqrt_correct]).  Point addition is the Edwards law and
      is total: where the law is undefined the result is the pair of zeros, which is off the curve
      ([curve_add_correct]); on the subgroup it is a commutative group ([curve_group_law]), the ladder is
      multiplication in it ([scalar_multiply_correct]) and the base point has the order of the source
      ([base_point_order], by evaluation).  A point is recovered from its coordinate exactly when it lies in
      the subgroup ([point_from_x_exact]).  Decryption inverts encryption ([encryption_roundtrip]) and accepts
      nothing that was not made by it: the first field is the coordinate of a point of the subgroup of the curve,
      and the key is that of its multiple ([decrypt_exact]).  Primality of the moduli and of the orders is a
      premise of these theorems, discharged in [Primes.v] for 256 and 384 bits; the certificates of the
      512-bit size need factorisations that are not available, and its witnesses avoid the premise.
    - A binary-field operation is the one of the field, on both paths of the product, and the inversion
      chains invert ([fb_operations]); scalar arithmetic is arithmetic modulo the order and stays reduced
      ([scalar_operations]).  Affine addition is the group law ([binary_group_law]); the constant-time ladder
      with its two corner cases is scalar multiplication ([binary_scalar_multiply_correct]); the joint
      multiplication of the verifier equals the two separate ones in either resource profile
      ([verify_combine_correct]); the base point has the order of the source ([binary_base_order], by
      evaluation).  A signature that [sign] returns is accepted by [verify] under the public key
      ([signature_roundtrip]), [sign] fails exactly in the three degenerate cases of the standard
      ([sign_outcome]), and [verify] accepts exactly the pairs that satisfy the equation of the standard
      under a key in the subgroup ([verify_exact]).  Through the encodings of keys and signatures
      ([crypto_sign_correct]) the round trip still holds.  The nonce of a signature is derived from a
      counter of one byte: [sign_digest] returns with the first usable one and loops for ever when there
      is none ([sign_digest_terminates]); key generation returns the first usable candidate of the random
      source ([generate_outcome]).  That the reduction polynomials give fields and that the
      orders are prime is evaluated or certified, not assumed.
    - A sealed box opens to the message under the recipient's key ([sealed_box_correct]) and under that key
      exactly the boxes of the format open ([box_open_exact]); every public key that [from_bytes] accepts is
      usable, so the [unreachable!] of [seal] is not reached ([seal_never_panics]).
    - [verify_password] computes a tag only for strings within its bounds, and accepts exactly the tags that
      Argon2 computes ([verify_password_exact], [pwhash_roundtrip]).  A passphrase file has one header for
      each salt ([passphrase_header_exact]) and opens to what was sealed ([passphrase_file_roundtrip]).
    - A key line is accepted exactly when it is the line of its kind and key ([key_line_exact],
      [key_file_roundtrip], [read_key_exact]); the branchless hex functions equal the table ([hex_value_spec]).
    - [encrypt] and [decrypt] are inverse over any schedule of reads ([cli_roundtrip]); [decrypt] never panics,
      publishes nothing unless the whole input is authentic under the secret it was given, and marks what
      already went to stdout as incomplete ([decrypt_all_or_nothing]).
    - The three rows of [edit_distance] compute the recursive definition of the distance with adjacent
      swaps ([edit_distance_exact]) and [suggest] gives a nearest name within the bound ([suggest_exact]).
      The scanner accepts exactly the command lines of the declared flags, each once at most
      ([scan_exact]), and the parser of the stream commands gives the settings written there
      ([stream_args_exact]).  A passphrase file is accepted exactly when it is one line of UTF-8
      ([passphrase_text_exact], [decode_utf8_exact]).  Hashing a file in pieces gives the hash of
      the whole ([hash_streamed_exact]); a check list is read line by line ([check_list_exact],
      [check_list_roundtrip]) and [hash --check] succeeds exactly when every file matches
      ([hash_check_exact]).
    - A generating command and [key-import] write only keys that the commands which use them accept, and never
      over a file; a generated key is the first string of the random source that is one ([keygen_exact],
      [key_import_exact]).  [verify] succeeds exactly when the equation of the
      standard holds for the key file, the signature file and the whole input ([verify_command_exact]), and
      accepts what [sign] publishes, under the line that [sign-pubkey] writes ([sign_verify_commands]).
      [box-open] is all or nothing ([box_open_all_or_nothing]) and opens what [box-seal] publishes to the line
      that [box-pubkey] writes ([box_commands_roundtrip]).
    - An output file is at every moment as it was, an empty placeholder, or complete; a command that fails leaves
      the files as they were unless the removal itself fails, one that succeeds replaces nothing without
      [--force], and a key file is never replaced unless the look at it fails ([output_file_atomic]).  When no call fails the output
      holds what was written ([output_file_succeeds]), and with any failures it does what the abstract output
      of the command files does ([output_file_refines]).
    - The authenticated commands of [hazmat] open what they sealed ([aead_commands_roundtrip]) and publish
      nothing else ([aead_decrypt_exact]); the others invert each other ([cipher_commands_roundtrip]) and
      compute the functions of the library over any reads ([gmac_commands_exact], [digest_command_exact],
      [strumok_command_exact]).  The outputs of one encryption are committed one after another, so a failure
      late among them leaves the first ([partial_outputs]).
    - [run] fails with a usage error or starts the command its first words name, with the arguments that its parser
      reads from the others; a request for help prints the help of that command and starts none ([dispatch_exact],
      over the table [meanings]).  Unknown words are refused, and every name suggested for them exists
      ([unknown_command_exact]).

    - [overlaps] tells exactly whether two buffers share a byte ([overlaps_exact]).  With pointers that are valid or
      null, and buffers that may overlap, the calls that seal, push, pull, authenticate and hash neither panic nor do
      anything undefined; sealing and pushing change nothing unless they succeed, and what they wrote is delivered by
      the call that opens it ([secretbox_calls_roundtrip], [stream_calls_roundtrip], [pull_call_exact],
      [auth_calls_exact], [hasher_calls_exact]).  A failing call tells its cause.  Every call of
      a file decryptor is that of the library's reader on its buffers, and the handle keeps the first error that the
      reader met ([first_error_kept]).

    * Not modelled

    - Wiping of secrets on drop and constant-time execution: they have no functional effect.  Where wiping
      changes a value that is read again (a failed open, the file decryptor), it is modelled.
    - The debug-build overflow checks of arithmetic: the theorems bound every counter instead.
    - The Argon2 function, the PHC string format, [subtle], [zeroize] and the random source of the operating
      system: third-party code, parameters with laws.
    - Of the command-line tool: the table of files removed on a signal and the permissions of new files, the
      echo of the terminal, progress lines and timings, help texts with the completion scripts and the manual
      page made from them, the wording of errors, and the refusal of network paths, which is compiled on
      Windows only.  Which paths name the same file ([check_outputs]) is an input of the command files.
    - Of the C interface: the wrappers of signatures, boxes and password hashing; the text that [last_error] points
      to, in whose place the handle keeps the error itself; the choice of addresses by the allocator, which is a counter.
    - The language bindings and the firmware smoke test, which are glue around the functions modelled here; the
      start-up self-test, which compares fixed vectors; the build helpers. *)

From Stdlib Require Export ZArith Lia Btauto.
From Stdlib Require String Ascii.
From stdpp Require Export base numbers list list_numbers.
Export (notations) String.StringSyntax.
#[global] Open Scope Z_scope.
#[global] Set Default Goal Selector "!".
#[global] Coercion Z.of_nat : nat >-> Z.

(** * Notations *)

Declare Scope uacrypt_scope.
Delimit Scope uacrypt_scope with ua.
#[global] Open Scope uacrypt_scope.

(** [x ⊕ y] is Rust's [x ^ y] on unsigned words. *)
Notation "x ⊕ y" := (Z.lxor x y) (at level 50, left associativity) : uacrypt_scope.

(** [l .[ i ]] is the read [l[i]] of an array of words.  The arrays of the program have static
    lengths; the shape invariants of the components keep every index in range. *)
Notation "l .[ i ]" := (nth i l 0) (at level 1, left associativity, format "l .[ i ]") : uacrypt_scope.

(** * Rust results *)

(** [Result<A, E>]. *)
Inductive result (A E : Type) : Type :=
| Ok (a : A)
| Err (e : E).
Arguments Ok {A E} a.
Arguments Err {A E} e.

#[global] Instance result_eq_dec {A E} `{EqDecision A, EqDecision E} : EqDecision (result A E).
Proof. solve_decision. Defined.

(** The [?] operator. *)
Definition result_bind {A B E} (r : result A E) (f : A → result B E) : result B E :=
  match r with Ok a => f a | Err e => Err e end.

(** * Words *)

(** An unsigned [w]-bit machine word. *)
Definition word_ok (w z : Z) : Prop := 0 ≤ z < 2 ^ w.
#[global] Instance word_ok_dec w z : Decision (word_ok w z).
Proof. unfold word_ok. apply _. Defined.

Abbreviation byte_ok := (word_ok 8).
Abbreviation u64_ok := (word_ok 64).
Abbreviation bytes_ok := (Forall (word_ok 8)).

(** A byte array of a static length. *)
Definition array_ok (n : nat) (l : list Z) : Prop := length l = n ∧ bytes_ok l.
#[global] Instance array_ok_dec n l : Decision (array_ok n l).
Proof. unfold array_ok. apply _. Defined.

(** The low [w] bits: the wrap-around of a [w]-bit word. *)
Definition wrap (w z : Z) : Z := Z.land z (Z.ones w).

(** [wrapping_add], [wrapping_sub], [<<] and [!] at width [w]. *)
Definition wrapping_add (w a b : Z) : Z := wrap w (a + b).
Definition wrapping_sub (w a b : Z) : Z := wrap w (a - b).
Definition shl (w a n : Z) : Z := wrap w (Z.shiftl a n).
Definition bit_not (w a : Z) : Z := wrap w (Z.lnot a).

(** * Slices and loops *)

(** [&l[i..j]]. *)
Definition slice {A} (i j : nat) (l : list A) : list A := take (j - i) (drop i l).

(** [f(&mut l[..n])]. *)
Definition on_prefix {A} (n : nat) (f : list A → list A) (l : list A) : list A :=
  f (take n l) ++ drop n l.

(** [for (x, y) in l.iter_mut().zip(k) { *x = f(x, y) }]: stops at the shorter list. *)
Fixpoint zip_mut {A B} (f : A → B → A) (l : list A) (k : list B) : list A :=
  match l, k with
  | x :: l', y :: k' => f x y :: zip_mut f l' k'
  | _, _ => l
  end.

(** [for (b, o) in buf.iter_mut().zip(other) { *b ^= *o }]. *)
Definition xor_into (buf other : list Z) : list Z := zip_mut Z.lxor buf other.

(** [l[i..i + src.len()].copy_from_slice(src)]. *)
Definition copy_at {A} (i : nat) (src l : list A) : list A :=
  take i l ++ src ++ drop (i + length src) l.

(** The first [k] chunks of [n] elements. *)
Fixpoint chunks_n {A} (k n : nat) (l : list A) : list (list A) :=
  match k with
  | O => []
  | S k => take n l :: chunks_n k n (drop n l)
  end.

(** [l.chunks_exact(n)] and its [remainder()]. *)
Definition chunks_exact {A} (n : nat) (l : list A) : list (list A) := chunks_n (length l / n) n l.
Definition remainder {A} (n : nat) (l : list A) : list A := drop (n * (length l / n)) l.

(** A loop over [l] that carries a state [s] and rewrites every element. *)
Fixpoint map_accum {S A B} (f : S → A → S * B) (s : S) (l : list A) : S * list B :=
  match l with
  | [] => (s, [])
  | x :: l => let '(s1, y) := f s x in let '(s2, ys) := map_accum f s1 l in (s2, y :: ys)
  end.

(** [for block in buf.chunks_exact_mut(n) { .. }] with a carried state: the incomplete last chunk
    is left as it is. *)
Definition chunks_exact_mut {S} (n : nat) (f : S → list Z → S * list Z) (s : S) (buf : list Z) : S * list Z :=
  let '(s', cs) := map_accum f s (chunks_exact n buf) in (s', concat cs ++ remainder n buf).

(** * Little-endian words *)

(** [uN::from_le_bytes]. *)
Fixpoint from_le_bytes (l : list Z) : Z :=
  match l with
  | [] => 0
  | b :: l => b + 256 * from_le_bytes l
  end.

(** [w.to_le_bytes()] for a word of [n] bytes. *)
Fixpoint to_le_bytes (n : nat) (w : Z) : list Z :=
  match n with
  | O => []
  | S n => Z.land w 255 :: to_le_bytes n (Z.shiftr w 8)
  end.

(** [w.to_be_bytes()] and [uN::from_be_bytes]. *)
Definition to_be_bytes (n : nat) (w : Z) : list Z := reverse (to_le_bytes n w).
Definition from_be_bytes (l : list Z) : Z := from_le_bytes (reverse l).

(** All byte values, for exhaustive checks. *)
Definition all_bytes : list Z := seqZ 0 256.

(** * Lemmas on words *)

Create HintDb uacrypt discriminated.
Create Rewrite HintDb uacrypt_len.

(** Proves an equation between bitwise expressions bit by bit. *)
Ltac bitwise :=
  apply Z.bits_inj'; intros ?i ?Hi;
  repeat (rewrite Z.lxor_spec || rewrite Z.land_spec || rewrite Z.lor_spec || rewrite Z.ldiff_spec ||
          rewrite Z.testbit_0_l);
  try btauto.

Lemma word_ok_mod w z : 0 ≤ w → word_ok w (z mod 2 ^ w).
Proof. intros Hw. unfold word_ok. apply Z.mod_pos_bound. lia. Qed.

Lemma wrap_mod w z : 0 ≤ w → wrap w z = z mod 2 ^ w.
Proof. intros. by apply Z.land_ones. Qed.

Lemma word_ok_wrap w z : 0 ≤ w → word_ok w (wrap w z).
Proof. intros. rewrite wrap_mod by done. by apply word_ok_mod. Qed.

Lemma wrap_id w z : 0 ≤ w → word_ok w z → wrap w z = z.
Proof. intros. rewrite wrap_mod by done. by apply Z.mod_small. Qed.

Lemma word_ok_nonneg w z : word_ok w z → 0 ≤ z.
Proof. unfold word_ok. lia. Qed.

Lemma word_ok_bits w z : 0 ≤ w → word_ok w z ↔ 0 ≤ z ∧ ∀ i, w ≤ i → Z.testbit z i = false.
Proof.
  intros Hw. unfold word_ok. split.
  - intros [H0 H1]. split; [done|]. intros i Hi.
    rewrite <- (Z.mod_small z (2 ^ w)) by lia. by apply Z.mod_pow2_bits_high.
  - intros [H0 Hb]. split; [done|].
    rewrite <- (Z.mod_small z (2 ^ w)); [apply Z.mod_pos_bound; lia|].
    split; [done|]. destruct (decide (z < 2 ^ w)) as [|Hge]; [done|exfalso].
    assert (0 < z) by lia.
    pose proof (Z.log2_le_pow2 z w ltac:(lia)) as [Hl _]. specialize (Hl ltac:(lia)).
    specialize (Hb (Z.log2 z) Hl). rewrite Z.bit_log2 in Hb by lia. done.
Qed.

Lemma word_ok_lxor w a b : 0 ≤ w → word_ok w a → word_ok w b → word_ok w (a ⊕ b).
Proof.
  intros Hw Ha Hb. apply word_ok_bits in Ha as [Ha Ha']; [|done].
  apply word_ok_bits in Hb as [Hb Hb']; [|done]. apply word_ok_bits; [done|]. split.
  - apply Z.lxor_nonneg. lia.
  - intros i Hi. by rewrite Z.lxor_spec, Ha', Hb'.
Qed.

Lemma word_ok_land w a b : 0 ≤ w → word_ok w a → 0 ≤ b → word_ok w (Z.land a b).
Proof.
  intros Hw Ha Hb. apply word_ok_bits in Ha as [Ha Ha']; [|done]. apply word_ok_bits; [done|].
  split; [apply Z.land_nonneg; lia|]. intros i Hi. by rewrite Z.land_spec, Ha'.
Qed.

Lemma word_ok_mono w w' z : w ≤ w' → word_ok w z → word_ok w' z.
Proof. unfold word_ok. intros ? []. split; [done|]. pose proof (Z.pow_le_mono_r 2 w w'). lia. Qed.

#[export] Hint Resolve word_ok_mod word_ok_wrap word_ok_lxor : uacrypt.
#[export] Hint Extern 1 (_ ≤ _) => lia : uacrypt.
#[export] Hint Extern 1 (_ < _) => lia : uacrypt.
#[export] Hint Extern 1 (_ ≤ _)%nat => lia : uacrypt.
#[export] Hint Extern 1 (_ < _)%nat => lia : uacrypt.

Lemma lxor_cancel_r a b : a ⊕ b ⊕ b = a.
Proof. rewrite Z.lxor_assoc, Z.lxor_nilpotent. apply Z.lxor_0_r. Qed.

Lemma wrapping_add_sub w a b : 0 ≤ w → word_ok w a → wrapping_sub w (wrapping_add w a b) b = a.
Proof.
  intros Hw Ha. unfold wrapping_sub, wrapping_add. rewrite !wrap_mod by done. rewrite Zminus_mod_idemp_l.
  replace (a + b - b) with a by lia. by apply Z.mod_small.
Qed.

Lemma wrapping_sub_add w a b : 0 ≤ w → word_ok w a → wrapping_add w (wrapping_sub w a b) b = a.
Proof.
  intros Hw Ha. unfold wrapping_sub, wrapping_add. rewrite !wrap_mod by done. rewrite Zplus_mod_idemp_l.
  replace (a - b + b) with a by lia. by apply Z.mod_small.
Qed.

(** * Lemmas on arrays *)

Lemma array_ok_length n l : array_ok n l → length l = n.
Proof. by intros []. Qed.

Lemma array_ok_app n m l k : array_ok n l → array_ok m k → array_ok (n + m) (l ++ k).
Proof. intros [] []. split; [rewrite length_app; lia|by apply Forall_app]. Qed.

Lemma array_ok_take n m l : array_ok m l → (n ≤ m)%nat → array_ok n (take n l).
Proof. intros [] ?. split; [rewrite length_take; lia|by apply Forall_take]. Qed.

Lemma array_ok_drop n m l : array_ok m l → array_ok (m - n) (drop n l).
Proof. intros [<- ?]. split; [by rewrite length_drop|by apply Forall_drop]. Qed.

Lemma byte_ok_0 : byte_ok 0.
Proof. unfold word_ok. lia. Qed.

Lemma array_ok_zeros n : array_ok n (replicate n 0).
Proof. split; [apply length_replicate|apply Forall_replicate, byte_ok_0]. Qed.

#[export] Hint Resolve array_ok_app array_ok_take array_ok_drop array_ok_zeros byte_ok_0 : uacrypt.

Lemma nth_byte_ok l i : bytes_ok l → byte_ok (l.[i]).
Proof.
  intros Hl. destruct (nth_in_or_default i l 0) as [Hin| ->]; [|apply byte_ok_0].
  rewrite Forall_forall in Hl. apply Hl. by apply list_elem_of_In.
Qed.
#[export] Hint Resolve nth_byte_ok : uacrypt.

Lemma forall_bytes (P : Z → bool) : forallb P all_bytes = true → ∀ b, byte_ok b → P b = true.
Proof.
  intros H b Hb. rewrite forallb_forall in H. apply H. apply list_elem_of_In, elem_of_seqZ.
  unfold word_ok in Hb. lia.
Qed.

Lemma length_zip_mut {A B} (f : A → B → A) l k : length (zip_mut f l k) = length l.
Proof. revert k. induction l; intros [|]; simpl; auto. Qed.

Lemma zip_mut_zip_with {A B} (f : A → B → A) l k :
  length l = length k → zip_mut f l k = zip_with f l k.
Proof. revert k. induction l; intros [|]; simpl; try done. intros. f_equal. auto. Qed.

(** Undoing an element-wise update with the same second operands. *)
Lemma zip_mut_cancel {A B} (f g : A → B → A) (P : A → Prop) (Q : B → Prop) l k :
  (∀ x y, P x → Q y → g (f x y) y = x) → Forall P l → Forall Q k →
  zip_mut g (zip_mut f l k) k = l.
Proof.
  intros Hfg Hl. revert k. induction Hl; intros k Hk; destruct Hk; simpl; try done. f_equal; auto.
Qed.

Lemma Forall_zip_mut {A B} (f : A → B → A) (P : A → Prop) (Q : B → Prop) l k :
  (∀ x y, P x → Q y → P (f x y)) → Forall P l → Forall Q k → Forall P (zip_mut f l k).
Proof.
  intros Hf Hl. revert k. induction Hl; intros k Hk; destruct Hk; simpl; try done; constructor; auto.
Qed.

Lemma length_xor_into a b : length (xor_into a b) = length a.
Proof. apply length_zip_mut. Qed.

Lemma xor_into_cancel a b : xor_into (xor_into a b) b = a.
Proof.
  apply (zip_mut_cancel _ _ (λ _, True) (λ _, True));
    [intros; apply lxor_cancel_r|by apply Forall_true..].
Qed.

Lemma xor_into_comm a b : length a = length b → xor_into a b = xor_into b a.
Proof.
  revert b. unfold xor_into. induction a as [|x a IH]; intros [|y b]; simpl; try done.
  intros [= ?]. f_equal; [apply Z.lxor_comm|by apply IH].
Qed.

Lemma array_ok_xor_into n a b : array_ok n a → bytes_ok b → array_ok n (xor_into a b).
Proof.
  intros [] ?. split; [by rewrite length_xor_into|].
  apply (Forall_zip_mut _ _ byte_ok); auto. intros. by apply word_ok_lxor.
Qed.
#[export] Hint Resolve array_ok_xor_into : uacrypt.
#[export] Hint Rewrite @length_xor_into @length_zip_mut @length_replicate @length_app @length_map
  : uacrypt_len.

Lemma on_prefix_id {A} n (l : list A) : on_prefix n id l = l.
Proof. apply take_drop. Qed.

Lemma take_on_prefix {A} n f (l : list A) :
  (∀ k, length (f k) = length k) → take n (on_prefix n f l) = f (take n l).
Proof.
  intros Hf. unfold on_prefix. destruct (decide (n ≤ length l)%nat).
  - rewrite take_app_length'; [done|]. rewrite Hf, length_take. lia.
  - rewrite drop_ge by lia. rewrite app_nil_r, take_ge; [done|]. rewrite Hf, length_take. lia.
Qed.

Lemma length_on_prefix {A} n f (l : list A) :
  (∀ k, length (f k) = length k) → length (on_prefix n f l) = length l.
Proof. intros Hf. unfold on_prefix. rewrite length_app, Hf, length_take, length_drop. lia. Qed.

(** * Chunks *)

Lemma length_chunks_n {A} k n (l : list A) : length (chunks_n k n l) = k.
Proof. revert l. induction k; simpl; auto. Qed.

Lemma concat_chunks_n {A} k n (l : list A) :
  (k * n ≤ length l)%nat → concat (chunks_n k n l) = take (k * n) l.
Proof.
  revert l. induction k as [|k IH]; simpl; intros l Hl; [done|].
  rewrite IH by (rewrite length_drop; lia). rewrite <- (take_take_drop l n (k * n)). done.
Qed.

Lemma concat_chunks_exact {A} n (l : list A) :
  concat (chunks_exact n l) ++ remainder n l = l.
Proof.
  unfold chunks_exact, remainder. destruct n as [|n]; [simpl; by rewrite drop_0|].
  pose proof (Nat.Div0.mul_div_le (length l) (S n)).
  rewrite concat_chunks_n by lia. rewrite (Nat.mul_comm (length l / S n)). apply take_drop.
Qed.

Lemma chunks_n_length_elem {A} k n (l : list A) :
  (k * n ≤ length l)%nat → Forall (λ c, length c = n) (chunks_n k n l).
Proof.
  revert l. induction k as [|k IH]; simpl; intros l Hl; constructor.
  - rewrite length_take. lia.
  - apply IH. rewrite length_drop. lia.
Qed.

Lemma chunks_n_bytes_ok k n l : bytes_ok l → Forall (Forall (word_ok 8)) (chunks_n k n l).
Proof.
  revert l. induction k as [|k IH]; simpl; intros l Hl; constructor.
  - by apply Forall_take.
  - apply IH. by apply Forall_drop.
Qed.

Lemma chunks_exact_ok n l :
  (0 < n)%nat → bytes_ok l → Forall (array_ok n) (chunks_exact n l).
Proof.
  intros Hn Hl. unfold chunks_exact.
  pose proof (chunks_n_length_elem (length l / n) n l) as H1.
  pose proof (chunks_n_bytes_ok (length l / n) n l Hl) as H2.
  rewrite Forall_forall in *. intros c Hc. split; [apply H1|apply H2]; try done.
  pose proof (Nat.Div0.mul_div_le (length l) n). lia.
Qed.

Lemma chunks_n_concat {A} n (ls : list (list A)) :
  Forall (λ c, length c = n) ls → chunks_n (length ls) n (concat ls) = ls.
Proof.
  induction 1 as [|c ls Hc Hls IH]; simpl; [done|].
  by rewrite take_app_length', drop_app_length', IH by done.
Qed.

Lemma chunks_n_lookup {A} k n (l : list A) j :
  (j < k)%nat → chunks_n k n l !! j = Some (slice (j * n) (j * n + n) l).
Proof.
  revert l j. induction k as [|k IH]; intros l j Hj; [lia|]. unfold slice. replace (j * n + n - j * n)%nat with n by lia.
  destruct j as [|j]; [done|]. cbn [chunks_n lookup list_lookup]. fold (@list_lookup (list A)).
  change (chunks_n k n (drop n l) !! j = Some (take n (drop (S j * n) l))). rewrite IH by lia. unfold slice.
  rewrite drop_drop. replace (j * n + n - j * n)%nat with n by lia. done.
Qed.

Lemma length_concat_const {A} n (ls : list (list A)) :
  Forall (λ c, length c = n) ls → length (concat ls) = (length ls * n)%nat.
Proof. induction 1; simpl; [done|]. rewrite length_app. lia. Qed.

Lemma chunks_exact_concat {A} n (ls : list (list A)) :
  (0 < n)%nat → Forall (λ c, length c = n) ls → chunks_exact n (concat ls) = ls.
Proof.
  intros Hn Hls. unfold chunks_exact. rewrite (length_concat_const n) by done.
  rewrite Nat.div_mul by lia. by apply chunks_n_concat.
Qed.

Lemma remainder_aligned {A} n (l : list A) :
  (length l mod n = 0)%nat → remainder n l = [].
Proof.
  intros Hm. unfold remainder. apply drop_ge. rewrite (Nat.div_mod_eq (length l) n) at 1. lia.
Qed.

Lemma concat_chunks_aligned {A} n (l : list A) :
  (length l mod n = 0)%nat → concat (chunks_exact n l) = l.
Proof.
  intros Hm. rewrite <- (concat_chunks_exact n l) at 2. by rewrite remainder_aligned, app_nil_r.
Qed.

Lemma chunks_n_app {A} j k n (l m : list A) :
  (length l = j * n)%nat → chunks_n (j + k) n (l ++ m) = chunks_n j n l ++ chunks_n k n m.
Proof.
  revert l. induction j as [|j IH]; intros l Hl; simpl.
  - by apply nil_length_inv in Hl as ->.
  - rewrite take_app_le, drop_app_le by lia. f_equal. apply IH. rewrite length_drop. lia.
Qed.

Lemma aligned_length {A} n (l : list A) :
  (length l mod n = 0)%nat → (length l = length l / n * n)%nat.
Proof. intros H. pose proof (Nat.div_mod_eq (length l) n). lia. Qed.

Lemma chunks_exact_app {A} n (l m : list A) :
  (0 < n)%nat → (length l mod n = 0)%nat → chunks_exact n (l ++ m) = chunks_exact n l ++ chunks_exact n m.
Proof.
  intros Hn Hl. unfold chunks_exact. pose proof (aligned_length n l Hl) as He.
  rewrite length_app, He, Nat.add_comm, Nat.div_add, Nat.div_mul, Nat.add_comm by lia. by apply chunks_n_app.
Qed.

Lemma remainder_app {A} n (l m : list A) :
  (0 < n)%nat → (length l mod n = 0)%nat → remainder n (l ++ m) = remainder n m.
Proof.
  intros Hn Hl. unfold remainder. pose proof (aligned_length n l Hl) as He.
  rewrite length_app, He, Nat.add_comm, Nat.div_add by lia.
  rewrite drop_app_ge by lia. f_equal. lia.
Qed.

(** Data that arrives after an incomplete block is joined to it. *)
Lemma chunks_exact_rem {A} n (l m : list A) :
  (0 < n)%nat →
  chunks_exact n (l ++ m) = chunks_exact n l ++ chunks_exact n (remainder n l ++ m) ∧
  remainder n (l ++ m) = remainder n (remainder n l ++ m).
Proof.
  intros Hn. assert (Forall (λ c, length c = n) (chunks_exact n l)) as Hc.
  { unfold chunks_exact. apply chunks_n_length_elem. pose proof (Nat.Div0.mul_div_le (length l) n). lia. }
  assert (length (concat (chunks_exact n l)) mod n = 0)%nat as Hm.
  { rewrite (length_concat_const n) by done. apply Nat.Div0.mod_mul. }
  rewrite <- (concat_chunks_exact n l) at 1 4. rewrite <- !app_assoc.
  rewrite chunks_exact_app, remainder_app by done. split; [|done]. by rewrite chunks_exact_concat.
Qed.

Lemma chunks_exact_cons {A} n (l : list A) :
  (0 < n)%nat → (n ≤ length l)%nat →
  chunks_exact n l = take n l :: chunks_exact n (drop n l) ∧ remainder n l = remainder n (drop n l).
Proof.
  intros Hn Hl. rewrite <- (take_drop n l) at 1 4. assert (length (take n l) = n) as Ht by (rewrite length_take; lia).
  assert (length (take n l) mod n = 0)%nat by (by rewrite Ht, Nat.Div0.mod_same).
  rewrite chunks_exact_app, remainder_app by done. split; [|done].
  unfold chunks_exact at 1. rewrite Ht, Nat.div_same by lia. simpl. by rewrite take_idemp.
Qed.

Lemma chunks_exact_short {A} n (l : list A) :
  (length l < n)%nat → chunks_exact n l = [] ∧ remainder n l = l.
Proof. intros Hl. unfold chunks_exact, remainder. rewrite Nat.div_small, Nat.mul_0_r by lia. done. Qed.

Lemma chunks_exact_nil {A} n : chunks_exact n [] = @nil (list A).
Proof. unfold chunks_exact. by rewrite Nat.Div0.div_0_l. Qed.

Lemma length_remainder {A} n (l : list A) : length (remainder n l) = (length l mod n)%nat.
Proof. unfold remainder. rewrite length_drop, (Nat.div_mod_eq (length l) n) at 1. lia. Qed.

Lemma last_cons_default {A} (x d : A) l : List.last (x :: l) d = List.last l x.
Proof.
  revert x d. induction l as [|y l IH]; intros x d; [done|].
  change (List.last (y :: l) d = List.last (y :: l) x). by rewrite !IH.
Qed.

(** * The padding of annex Б.2 *)

(** An incomplete last block is completed by [0x80] and zeros. *)
Definition pad80 (n : nat) (l : list Z) : list Z :=
  if decide (length l mod n = 0)%nat then l else l ++ 0x80 :: replicate (n - length l mod n - 1) 0.

Lemma pad80_aligned n l : (0 < n)%nat → (length (pad80 n l) mod n = 0)%nat.
Proof.
  intros Hn. unfold pad80. case_decide as Hm; [done|]. rewrite length_app. cbn [length]. rewrite length_replicate.
  pose proof (Nat.mod_upper_bound (length l) n ltac:(lia)).
  rewrite (Nat.div_mod_eq (length l) n) at 1.
  replace (n * (length l / n) + length l mod n + S (n - length l mod n - 1))%nat
    with (S (length l / n) * n)%nat by nia. apply Nat.Div0.mod_mul.
Qed.

Lemma pad80_bytes n l : bytes_ok l → bytes_ok (pad80 n l).
Proof.
  intros Hl. unfold pad80. case_decide; [done|]. apply Forall_app. split; [done|].
  constructor; [unfold word_ok; lia|]. apply Forall_replicate, byte_ok_0.
Qed.

(** The blocks of the padded data. *)
Lemma chunks_pad80 n l :
  (0 < n)%nat → chunks_exact n (pad80 n l) = chunks_exact n l ++
    (if decide (remainder n l = []) then [] else [remainder n l ++ 0x80 :: replicate (n - length (remainder n l) - 1) 0]).
Proof.
  intros Hn. unfold pad80. rewrite length_remainder. case_decide as Hm.
  { rewrite decide_True; [by rewrite app_nil_r|]. by apply remainder_aligned. }
  rewrite decide_False by (intros He; apply Hm; by rewrite <- length_remainder, He).
  assert (length (concat (chunks_exact n l)) mod n = 0)%nat as Ha.
  { pose proof (length_remainder n l) as Hr.
    pose proof (f_equal length (concat_chunks_exact n l)) as Hc. rewrite length_app, Hr in Hc.
    rewrite (Nat.div_mod_eq (length l) n) in Hc at 2. assert (length (concat (chunks_exact n l)) = length l / n * n)%nat as -> by lia.
    apply Nat.Div0.mod_mul. }
  rewrite <- (concat_chunks_exact n l) at 1. rewrite <- app_assoc, chunks_exact_app by done. f_equal.
  - apply chunks_exact_concat; [done|]. unfold chunks_exact. apply chunks_n_length_elem.
    pose proof (Nat.Div0.mul_div_le (length l) n). lia.
  - pose proof (Nat.mod_upper_bound (length l) n ltac:(lia)). pose proof (length_remainder n l) as Hr.
    set (t := remainder n l ++ _). assert (length t = n) as Ht.
    { unfold t. rewrite length_app. cbn [length]. rewrite length_replicate, Hr. lia. }
    destruct (chunks_exact_cons n t) as [-> _]; [lia..|]. rewrite take_ge, drop_ge by lia. by rewrite chunks_exact_nil.
Qed.

(** The padding is injective on messages of the same kind. *)
Lemma pad80_inj n a b :
  (0 < n)%nat → ((length a mod n = 0)%nat ↔ (length b mod n = 0)%nat) → pad80 n a = pad80 n b → a = b.
Proof.
  intros Hn Hk. unfold pad80. destruct (decide (length a mod n = 0)%nat), (decide (length b mod n = 0)%nat); try tauto.
  intros He. apply (f_equal reverse) in He. rewrite !reverse_app, !reverse_cons, !reverse_replicate in He.
  assert (∀ j k (x y : list Z), replicate j 0 ++ 0x80 :: x = replicate k 0 ++ 0x80 :: y → x = y) as H.
  { induction j as [|j IH]; intros [|k] x y; simpl; try done; [by intros [=]|]. intros [= E]. by eapply IH. }
  rewrite <- !app_assoc in He. apply H in He. by rewrite <- (reverse_involutive a), He, reverse_involutive.
Qed.

(** * Stateful loops *)

Lemma map_accum_app {S A B} (f : S → A → S * B) s l m :
  map_accum f s (l ++ m) =
  let '(s1, xs) := map_accum f s l in let '(s2, ys) := map_accum f s1 m in (s2, xs ++ ys).
Proof.
  revert s. induction l as [|x l IH]; intros s; simpl; [by destruct (map_accum f s m)|].
  destruct (f s x) as [s1 y]. rewrite IH. destruct (map_accum f s1 l) as [s2 ys].
  by destruct (map_accum f s2 m).
Qed.

Lemma length_map_accum {S A B} (f : S → A → S * B) s l : length (map_accum f s l).2 = length l.
Proof.
  revert s. induction l as [|x l IH]; intros s; simpl; [done|]. destruct (f s x) as [s1 y].
  specialize (IH s1). destruct (map_accum f s1 l). simpl in *. by f_equal.
Qed.

(** A loop that undoes another one step by step. *)
Lemma map_accum_inverse {S A B} (f : S → A → S * B) (g : S → B → S * A) (I : S → Prop) (P : A → Prop) s l :
  (∀ s x, I s → P x → let '(s', y) := f s x in I s' ∧ g s y = (s', x)) → I s → Forall P l →
  let '(s', ys) := map_accum f s l in I s' ∧ map_accum g s ys = (s', l).
Proof.
  intros Hfg Hs Hl. revert s Hs. induction Hl as [|x l Hx Hl IH]; intros s Hs; simpl; [done|].
  specialize (Hfg s x Hs Hx). destruct (f s x) as [s1 y] eqn:Hf. destruct Hfg as [H1 Hg].
  specialize (IH s1 H1). destruct (map_accum f s1 l) as [s2 ys]. destruct IH as [H2 He].
  split; [done|]. cbn [map_accum]. by rewrite Hg, He.
Qed.

Lemma map_accum_Forall {S A B} (f : S → A → S * B) (I : S → Prop) (P : A → Prop) (Q : B → Prop) s l :
  (∀ s x, I s → P x → I (f s x).1 ∧ Q (f s x).2) → I s → Forall P l →
  I (map_accum f s l).1 ∧ Forall Q (map_accum f s l).2.
Proof.
  intros Hf Hs Hl. revert s Hs. induction Hl as [|x l Hx Hl IH]; intros s Hs; simpl; [by split|].
  destruct (Hf s x Hs Hx) as [H1 H2]. destruct (f s x) as [s1 y]. specialize (IH s1 H1).
  destruct (map_accum f s1 l) as [s2 ys]. simpl in *. split; [apply IH|]. constructor; [done|apply IH].
Qed.

Section chunks_mut.
Context {S : Type} (n : nat) (f g : S → list Z → S * list Z) (I : S → Prop).
Hypothesis Hn : (0 < n)%nat.
Hypothesis Hf : ∀ s c, I s → array_ok n c → I (f s c).1 ∧ array_ok n (f s c).2.

Lemma chunks_mut_result s buf :
  I s → bytes_ok buf → (length buf mod n = 0)%nat →
  I (chunks_exact_mut n f s buf).1 ∧ array_ok (length buf) (chunks_exact_mut n f s buf).2 ∧
  chunks_exact n (chunks_exact_mut n f s buf).2 = (map_accum f s (chunks_exact n buf)).2.
Proof.
  intros Hs Hb Hm. unfold chunks_exact_mut.
  pose proof (map_accum_Forall f I (array_ok n) (array_ok n) s _ Hf Hs (chunks_exact_ok n buf Hn Hb)) as [H1 H2].
  destruct (map_accum f s (chunks_exact n buf)) as [s' cs] eqn:He. simpl in *.
  rewrite remainder_aligned, app_nil_r by done.
  assert (Forall (λ c, length c = n) cs) as Hl by (eapply Forall_impl; [exact H2|]; by intros ? []).
  assert (length cs = length (chunks_exact n buf)) as Hc.
  { by rewrite <- (length_map_accum f s (chunks_exact n buf)), He. }
  split; [done|]. split; [split|].
  - rewrite (length_concat_const n), Hc by done. unfold chunks_exact. rewrite length_chunks_n. by rewrite <- aligned_length.
  - apply Forall_concat. eapply Forall_impl; [exact H2|]. by intros ? [].
  - by apply chunks_exact_concat.
Qed.

(** Two calls in a row are one call on the concatenation. *)
Lemma chunks_mut_app s a b :
  (length a mod n = 0)%nat →
  chunks_exact_mut n f s (a ++ b) =
  let '(s1, a') := chunks_exact_mut n f s a in let '(s2, b') := chunks_exact_mut n f s1 b in (s2, a' ++ b').
Proof.
  intros Ha. unfold chunks_exact_mut.
  rewrite chunks_exact_app, map_accum_app, remainder_app, (remainder_aligned _ a) by done.
  destruct (map_accum f s (chunks_exact n a)) as [s1 x]. rewrite app_nil_r.
  destruct (map_accum f s1 (chunks_exact n b)) as [s2 y]. by rewrite concat_app, app_assoc.
Qed.

Lemma chunks_mut_inverse s buf :
  (∀ s c, I s → array_ok n c → let '(s', c') := f s c in I s' ∧ g s c' = (s', c)) →
  I s → bytes_ok buf → (length buf mod n = 0)%nat →
  chunks_exact_mut n g s (chunks_exact_mut n f s buf).2 = ((chunks_exact_mut n f s buf).1, buf).
Proof.
  intros Hfg Hs Hb Hm. destruct (chunks_mut_result s buf Hs Hb Hm) as (H1 & [H2 H2'] & H3).
  unfold chunks_exact_mut at 1. rewrite H3. rewrite remainder_aligned by (by rewrite H2).
  pose proof (map_accum_inverse f g I (array_ok n) s (chunks_exact n buf) Hfg Hs (chunks_exact_ok n buf Hn Hb)) as Hi.
  unfold chunks_exact_mut. destruct (map_accum f s (chunks_exact n buf)) as [s' cs]. simpl in *.
  destruct Hi as [_ ->]. by rewrite app_nil_r, concat_chunks_aligned.
Qed.
End chunks_mut.

(** * Lemmas on little-endian words *)

Lemma length_to_le_bytes n w : length (to_le_bytes n w) = n.
Proof. revert w. induction n; simpl; auto. Qed.

Lemma to_le_bytes_S n w : to_le_bytes (S n) w = w mod 256 :: to_le_bytes n (w / 256).
Proof.
  cbn [to_le_bytes]. change 255 with (Z.ones 8). rewrite Z.land_ones, Z.shiftr_div_pow2 by lia. done.
Qed.

Lemma to_le_bytes_ok n w : array_ok n (to_le_bytes n w).
Proof.
  split; [apply length_to_le_bytes|]. revert w.
  induction n as [|n IH]; intros w; [constructor|]. rewrite to_le_bytes_S.
  constructor; [|done]. apply (word_ok_mod 8). lia.
Qed.
#[export] Hint Resolve to_le_bytes_ok : uacrypt.

Lemma from_le_bytes_bound l : bytes_ok l → word_ok (8 * length l) (from_le_bytes l).
Proof.
  unfold word_ok. induction 1 as [|b l Hb Hl IH]; simpl length; simpl from_le_bytes; [lia|].
  replace (8 * S (length l)) with (8 + 8 * length l) by lia. rewrite Z.pow_add_r by lia. lia.
Qed.

Lemma to_from_le_bytes l : bytes_ok l → to_le_bytes (length l) (from_le_bytes l) = l.
Proof.
  induction 1 as [|b l Hb Hl IH]; cbn [length from_le_bytes]; [done|]. unfold word_ok in Hb.
  rewrite to_le_bytes_S, Z.mul_comm, Z.mod_add, Z.div_add, Z.mod_small, Z.div_small, Z.add_0_l, IH by lia. done.
Qed.

Lemma from_to_le_bytes n w : from_le_bytes (to_le_bytes n w) = w mod 2 ^ (8 * n).
Proof.
  revert w. induction n as [|n IH]; intros w.
  - by rewrite Z.mod_1_r.
  - rewrite to_le_bytes_S. cbn [from_le_bytes]. rewrite IH. replace (8 * S n) with (8 + 8 * n) by lia. rewrite Z.pow_add_r by lia.
    change (2 ^ 8) with 256. rewrite (Z.rem_mul_r w 256 (2 ^ (8 * n))) by lia. done.
Qed.

Lemma from_to_le_bytes_id (n : nat) w : word_ok (8 * n) w → from_le_bytes (to_le_bytes n w) = w.
Proof. intros. rewrite from_to_le_bytes. by apply Z.mod_small. Qed.

Lemma to_le_bytes_mod (n : nat) w : to_le_bytes n (w mod 2 ^ (8 * n)) = to_le_bytes n w.
Proof.
  rewrite <- from_to_le_bytes. rewrite <- (length_to_le_bytes n w) at 1.
  apply to_from_le_bytes. apply to_le_bytes_ok.
Qed.

Lemma from_le_bytes_inj l k :
  length l = length k → bytes_ok l → bytes_ok k → from_le_bytes l = from_le_bytes k → l = k.
Proof.
  intros Hlen Hl Hk He. rewrite <- (to_from_le_bytes l), <- (to_from_le_bytes k) by done. congruence.
Qed.

Lemma testbit_from_le_cons b x i :
  byte_ok b → Z.testbit (b + 256 * x) i = if decide (i < 8) then Z.testbit b i else Z.testbit x (i - 8).
Proof.
  intros Hb. destruct (decide (i < 0)).
  { rewrite decide_True by lia. by rewrite !Z.testbit_neg_r by lia. }
  apply word_ok_bits in Hb as [Hb0 Hb]; [|lia].
  assert (b + 256 * x = Z.lor b (Z.shiftl x 8)) as ->.
  { rewrite Z.shiftl_mul_pow2 by lia. rewrite <- Z.lxor_lor, <- Z.add_nocarry_lxor; [lia|..].
    all: apply Z.bits_inj'; intros j Hj; rewrite Z.land_spec, <- Z.shiftl_mul_pow2, Z.shiftl_spec,
      Z.testbit_0_l by lia.
    all: destruct (decide (j < 8)); [rewrite (Z.testbit_neg_r x) by lia; apply andb_false_r|
      rewrite Hb by lia; done]. }
  rewrite Z.lor_spec, Z.shiftl_spec by lia. destruct (decide (i < 8)).
  - rewrite (Z.testbit_neg_r x) by lia. apply orb_false_r.
  - by rewrite Hb by lia.
Qed.

Lemma from_le_cons_lxor a b x y :
  byte_ok a → byte_ok b → (a + 256 * x) ⊕ (b + 256 * y) = (a ⊕ b) + 256 * (x ⊕ y).
Proof.
  intros. apply Z.bits_inj'. intros i Hi.
  rewrite Z.lxor_spec, !testbit_from_le_cons by auto with uacrypt lia.
  case_decide; by rewrite Z.lxor_spec.
Qed.

Lemma from_le_bytes_xor l k :
  length l = length k → bytes_ok l → bytes_ok k →
  from_le_bytes (xor_into l k) = from_le_bytes l ⊕ from_le_bytes k.
Proof.
  intros Hlen Hl. revert k Hlen. induction Hl as [|a l Ha Hl IH]; intros [|b k]; simpl; try done.
  intros [= Hlen] Hk. apply Forall_cons in Hk as [Hb Hk].
  rewrite from_le_cons_lxor by done. f_equal. f_equal. by apply IH.
Qed.

Lemma mod_lxor w a b : 0 ≤ w → (a ⊕ b) mod 2 ^ w = a mod 2 ^ w ⊕ b mod 2 ^ w.
Proof.
  intros. rewrite <- !Z.land_ones by lia. bitwise.
Qed.

Lemma div_lxor w a b : 0 ≤ w → (a ⊕ b) / 2 ^ w = a / 2 ^ w ⊕ b / 2 ^ w.
Proof. intros. rewrite <- !Z.shiftr_div_pow2 by lia. apply Z.shiftr_lxor. Qed.

Lemma to_le_bytes_xor n a b :
  to_le_bytes n (a ⊕ b) = xor_into (to_le_bytes n a) (to_le_bytes n b).
Proof.
  unfold xor_into. revert a b. induction n as [|n IH]; intros; [done|].
  rewrite !to_le_bytes_S. cbn [zip_mut]. change 256 with (2 ^ 8). rewrite mod_lxor, div_lxor by lia. f_equal. apply IH.
Qed.

Lemma to_le_bytes_0 n : to_le_bytes n 0 = replicate n 0.
Proof. induction n as [|n IH]; [done|]. rewrite to_le_bytes_S. simpl. by f_equal. Qed.

Lemma replicate_pos {A} (x : A) n : (0 < n)%nat → replicate n x = x :: replicate (n - 1) x.
Proof. destruct n; [lia|]. intros _. simpl. by rewrite Nat.sub_0_r. Qed.

Lemma aligned_ge {A} n (l : list A) : length l ≠ 0%nat → (length l mod n = 0)%nat → (n ≤ length l)%nat.
Proof.
  intros Hl Hm. pose proof (aligned_length n l Hm) as He. destruct (length l / n)%nat; simpl in *; lia.
Qed.

Lemma chunks_split_last {A} n (l : list A) :
  (0 < n)%nat → length l ≠ 0%nat → (length l mod n = 0)%nat →
  chunks_exact n l = chunks_exact n (take (length l - n) l) ++ [drop (length l - n) l].
Proof.
  intros Hn Hl Hm. pose proof (aligned_length n l Hm) as He.
  set (q := (length l / n)%nat) in *. clearbody q. assert (q ≠ 0%nat) as Hq by (intros ->; lia).
  assert (length l - n = (q - 1) * n)%nat as Hd by (destruct q; [done|]; simpl in *; nia).
  assert (length (take (length l - n) l) = (q - 1) * n)%nat as Ht by (rewrite length_take; lia).
  assert (n ≤ length l)%nat by (destruct q; [done|]; simpl in *; lia).
  rewrite <- (take_drop (length l - n) l) at 1. rewrite chunks_exact_app; [|done|rewrite Ht; apply Nat.Div0.mod_mul].
  f_equal. destruct (chunks_exact_cons n (drop (length l - n) l)) as [-> _]; [lia|rewrite length_drop; lia|].
  rewrite take_ge, (drop_ge (drop _ _)) by (rewrite length_drop; lia). by rewrite chunks_exact_nil.
Qed.

Lemma copy_at_0 {A} (l k : list A) : (length l ≤ length k)%nat → copy_at 0 l k = l ++ drop (length l) k.
Proof. done. Qed.

Lemma take_copy_at {A} i (src l : list A) : (i ≤ length l)%nat → take (i + length src) (copy_at i src l) = take i l ++ src.
Proof.
  intros Hi. unfold copy_at. rewrite app_assoc. apply take_app_length'. rewrite length_app, length_take. lia.
Qed.

Lemma length_copy_at {A} i (src l : list A) : (i + length src ≤ length l)%nat → length (copy_at i src l) = length l.
Proof. intros Hi. unfold copy_at. rewrite !length_app, length_take, length_drop. lia. Qed.

Lemma zip_with_xor_into a b : length a = length b → zip_with Z.lxor a b = xor_into a b.
Proof. intros Hl. unfold xor_into. by rewrite zip_mut_zip_with. Qed.

Lemma aligned_length_nat n m : (m mod n = 0)%nat → (m = m / n * n)%nat.
Proof. intros H. pose proof (Nat.div_mod_eq m n). lia. Qed.

Lemma aligned_step n a b : (a mod n = 0)%nat → (b mod n = 0)%nat → (a < b)%nat → (a + n ≤ b)%nat.
Proof.
  intros Ha Hb Hlt. pose proof (aligned_length_nat n a Ha) as Ea. pose proof (aligned_length_nat n b Hb) as Eb.
  assert (a / n < b / n)%nat as Hq.
  { apply Nat.nle_gt. intros Hle. pose proof (Nat.mul_le_mono_r _ _ n Hle). lia. }
  pose proof (Nat.mul_le_mono_r (S (a / n)) (b / n) n Hq) as Hm. simpl in Hm. lia.
Qed.

(** A small word in more bytes. *)
Lemma to_le_bytes_extend (n m : nat) w :
  (n ≤ m)%nat → word_ok (8 * n) w → to_le_bytes m w = to_le_bytes n w ++ replicate (m - n) 0.
Proof.
  revert m w. induction n as [|n IH]; intros m w Hn Hw.
  - assert (w = 0) as -> by (unfold word_ok in Hw; simpl in Hw; lia). by rewrite to_le_bytes_0, Nat.sub_0_r.
  - destruct m as [|m]; [lia|]. rewrite !to_le_bytes_S. cbn [app Nat.sub]. f_equal. apply IH; [lia|].
    unfold word_ok in *. replace (8 * S n) with (8 + 8 * n) in Hw by lia. rewrite Z.pow_add_r in Hw by lia.
    change (2 ^ 8) with 256 in Hw. split; [apply Z.div_pos; lia|]. apply Z.div_lt_upper_bound; lia.
Qed.

Lemma take_to_le_bytes (n m : nat) w : (n ≤ m)%nat → take n (to_le_bytes m w) = to_le_bytes n w.
Proof.
  revert m w. induction n as [|n IH]; intros m w Hn; [done|]. destruct m as [|m]; [lia|].
  rewrite !to_le_bytes_S. cbn [take]. f_equal. apply IH. lia.
Qed.

(** * Enumerated folds *)

(** [for (i, x) in l.iter().enumerate() { acc = f(acc, i, x) }], counting from [i]. *)
Fixpoint fold_enum {A B} (f : A → nat → B → A) (i : nat) (acc : A) (l : list B) : A :=
  match l with
  | [] => acc
  | x :: l => fold_enum f (S i) (f acc i x) l
  end.

Lemma fold_enum_xor_acc {B} (f : nat → B → Z) i acc (l : list B) :
  fold_enum (λ a r b, a ⊕ f r b) i acc l = acc ⊕ fold_enum (λ a r b, a ⊕ f r b) i 0 l.
Proof.
  revert i acc. induction l as [|b l IH]; intros i acc; simpl; [by rewrite Z.lxor_0_r|].
  rewrite IH, (IH _ (0 ⊕ f i b)), Z.lxor_0_l. by rewrite Z.lxor_assoc.
Qed.

(** A check of every row [r < n] and every byte. *)
Lemma forall_rows_bytes n (P : nat → Z → bool) :
  forallb (λ r, forallb (P r) all_bytes) (seq 0 n) = true →
  ∀ r b, (r < n)%nat → byte_ok b → P r b = true.
Proof.
  intros H r b Hr Hb. rewrite forallb_forall in H. apply forall_bytes; [|done].
  apply H, in_seq. lia.
Qed.

(** Side conditions: [done], the hint database, linear arithmetic. *)
Ltac side := first [done | solve [eauto with uacrypt] | lia].

Lemma xor_into_map {A} (f g : A → Z) (l : list A) :
  xor_into (map f l) (map g l) = map (λ x, f x ⊕ g x) l.
Proof. unfold xor_into. induction l; simpl; f_equal; auto. Qed.

Lemma from_le_bytes_snoc l b : from_le_bytes (l ++ [b]) = from_le_bytes l + 2 ^ (8 * length l) * b.
Proof.
  induction l as [|x l IH]; simpl from_le_bytes; [simpl; lia|]. rewrite IH.
  simpl length. replace (8 * S (length l)) with (8 + 8 * length l) by lia.
  rewrite Z.pow_add_r by lia. change (2 ^ 8) with 256. lia.
Qed.

Lemma from_le_bytes_app l k : from_le_bytes (l ++ k) = from_le_bytes l + 2 ^ (8 * length l) * from_le_bytes k.
Proof.
  induction l as [|x l IH]; cbn [from_le_bytes app length]; [lia|]. rewrite IH.
  replace (8 * S (length l)) with (8 + 8 * length l) by lia. rewrite Z.pow_add_r by lia. change (2 ^ 8) with 256. lia.
Qed.

Lemma from_be_bytes_app l k : from_be_bytes (l ++ k) = from_be_bytes k + 2 ^ (8 * length k) * from_be_bytes l.
Proof. unfold from_be_bytes. by rewrite reverse_app, from_le_bytes_app, length_reverse. Qed.

Lemma to_be_bytes_ok n w : array_ok n (to_be_bytes n w).
Proof. destruct (to_le_bytes_ok n w) as [Hl Hb]. split; [by unfold to_be_bytes; rewrite length_reverse|by apply Forall_reverse]. Qed.

Lemma from_to_be_bytes (n : nat) w : word_ok (8 * n) w → from_be_bytes (to_be_bytes n w) = w.
Proof. intros. unfold from_be_bytes, to_be_bytes. rewrite reverse_involutive. by apply from_to_le_bytes_id. Qed.

Lemma to_from_be_bytes l : bytes_ok l → to_be_bytes (length l) (from_be_bytes l) = l.
Proof.
  intros Hl. unfold from_be_bytes, to_be_bytes. rewrite <- (length_reverse l), to_from_le_bytes by (by apply Forall_reverse).
  apply reverse_involutive.
Qed.

Lemma from_be_bytes_bound l : bytes_ok l → word_ok (8 * length l) (from_be_bytes l).
Proof. intros Hl. unfold from_be_bytes. rewrite <- (length_reverse l). by apply from_le_bytes_bound, Forall_reverse. Qed.

(** Packing bytes into a word with [|] and [<<]. *)
Lemma lor_shl_high (w b : Z) (k n : nat) :
  word_ok (8 * k) w → byte_ok b → (k < n)%nat →
  Z.lor w (shl (8 * n) b (8 * k)) = w + 2 ^ (8 * k) * b.
Proof.
  intros Hw Hb Hk. unfold shl. rewrite wrap_mod, Z.shiftl_mul_pow2 by lia.
  assert (0 ≤ b * 2 ^ (8 * k) < 2 ^ (8 * n)) as Hs.
  { replace (8 * n) with (8 * (n - k - 1)%nat + (8 + 8 * k)) by lia.
    rewrite !Z.pow_add_r by lia. unfold word_ok in *. pose proof (Z.pow_pos_nonneg 2 (8 * k)).
    pose proof (Z.pow_pos_nonneg 2 (8 * (n - k - 1)%nat)). nia. }
  rewrite Z.mod_small by done. rewrite <- Z.lxor_lor, <- Z.add_nocarry_lxor; [lia|..].
  all: apply Z.bits_inj'; intros j Hj; rewrite Z.land_spec, <- Z.shiftl_mul_pow2, Z.shiftl_spec,
    Z.testbit_0_l by lia.
  all: destruct (decide (j < 8 * k)); [rewrite (Z.testbit_neg_r b) by lia; apply andb_false_r|].
  all: apply word_ok_bits in Hw as [_ Hw]; [|lia]; by rewrite Hw by lia.
Qed.

(** * Lists of a known length *)

Lemma length_2_inv {A} (l : list A) : length l = 2%nat → ∃ a b, l = [a; b].
Proof. intros H. do 2 (destruct l as [|? l]; [done|]). destruct l; [eauto|done]. Qed.

Lemma length_4_inv {A} (l : list A) : length l = 4%nat → ∃ a b c d, l = [a; b; c; d].
Proof. intros H. do 4 (destruct l as [|? l]; [done|]). destruct l; [eauto|done]. Qed.

Lemma length_8_inv {A} (l : list A) :
  length l = 8%nat → ∃ a b c d e f g h, l = [a; b; c; d; e; f; g; h].
Proof. intros H. do 8 (destruct l as [|? l]; [done|]). destruct l; [by repeat eexists|done]. Qed.

Lemma length_16_inv {A} (l : list A) :
  length l = 16%nat → ∃ a b c d e f g h i j k m n o p q, l = [a; b; c; d; e; f; g; h; i; j; k; m; n; o; p; q].
Proof. intros H. do 16 (destruct l as [|? l]; [done|]). destruct l; [by repeat eexists|done]. Qed.

(** Replaces a list of 2, 4, 8 or 16 elements by its elements. *)
Ltac explode H :=
  first [ apply length_2_inv in H as (? & ? & ->)
        | apply length_4_inv in H as (? & ? & ? & ? & ->)
        | apply length_8_inv in H as (? & ? & ? & ? & ? & ? & ? & ? & ->)
        | apply length_16_inv in H as (? & ? & ? & ? & ? & ? & ? & ? & ? & ? & ? & ? & ? & ? & ? & ? & ->) ].

(** Splits [Forall P [x1; ..; xn]] into its instances. *)
Ltac split_Forall :=
  repeat match goal with
  | H : Forall _ (_ :: _) |- _ => apply Forall_cons in H as [? ?]
  | H : Forall _ [] |- _ => clear H
  end.

Lemma map_replicate {A B} (f : A → B) n x : map f (replicate n x) = replicate n (f x).
Proof. induction n; simpl; f_equal; auto. Qed.

Lemma map_fmap {A B} (f : A → B) (l : list A) : map f l = f <$> l.
Proof. induction l; simpl; f_equal; auto. Qed.

(** Two loops whose steps agree on the states of an invariant. *)
Lemma foldl_agree {A B} (f g : A → B → A) (P : A → Prop) (Q : B → Prop) l s :
  (∀ s x, P s → Q x → f s x = g s x ∧ P (f s x)) → Forall Q l → P s → foldl f s l = foldl g s l.
Proof.
  intros Hfg Hl. revert s. induction Hl as [|x l Hx Hl IH]; intros s Hs; simpl; [done|].
  destruct (Hfg s x Hs Hx) as [<- Hp]. by apply IH.
Qed.

Lemma foldl_map {A B C} (f : A → B → A) (g : C → B) l s :
  foldl f s (map g l) = foldl (λ s x, f s (g x)) s l.
Proof. revert s. induction l; intros; simpl; auto. Qed.

Lemma slice_map_nth {A} (d : A) i j l :
  (j ≤ length l)%nat → slice i j l = map (λ n, nth n l d) (seq i (j - i)).
Proof.
  intros Hj. unfold slice. apply list_eq. intros n. rewrite map_fmap, list_lookup_fmap.
  destruct (decide (n < j - i)%nat).
  - rewrite lookup_take_lt, lookup_drop, lookup_seq_lt by done. simpl. rewrite nth_lookup.
    destruct (lookup_lt_is_Some_2 l (i + n)) as [x ->]; [lia|done].
  - rewrite !lookup_ge_None_2; [done|rewrite length_seq; lia|rewrite length_take; lia].
Qed.

Lemma slice_app {A} (a b c : list A) n m : n = length a → m = (length a + length b)%nat → slice n m (a ++ b ++ c) = b.
Proof.
  intros -> ->. unfold slice. rewrite drop_app_length. replace (length a + length b - length a)%nat with (length b) by lia.
  apply take_app_length.
Qed.

Lemma slice_app_end {A} (a b : list A) n m : n = length a → m = (length a + length b)%nat → slice n m (a ++ b) = b.
Proof. intros -> ->. rewrite <- (app_nil_r b) at 2. by apply slice_app. Qed.

Lemma map_rev_reverse {A B} (f : A → B) l : map f (reverse l) = reverse (map f l).
Proof. rewrite !map_fmap. apply fmap_reverse. Qed.

(** Proves a closed decidable proposition by evaluating its decision procedure. *)
Ltac by_decision := apply (bool_decide_unpack _); vm_compute; exact I.

(** * Byte string literals *)

(** [b"..."]. *)
Definition ascii_bytes (s : String.string) : list Z := map (λ a, Z.of_N (Ascii.N_of_ascii a)) (String.list_ascii_of_string s).
Arguments ascii_bytes s%_string_scope.

(** [checked_add] at width [w]. *)
Definition checked_add (w a b : Z) : option Z := if Z.ltb (a + b) (2 ^ w) then Some (a + b) else None.

Lemma checked_add_spec w a b : checked_add w a b = if decide (a + b < 2 ^ w) then Some (a + b) else None.
Proof. unfold checked_add. by destruct (Z.ltb_spec (a + b) (2 ^ w)), (decide (a + b < 2 ^ w)); try lia. Qed.

Lemma elem_of_map {A B} (f : A → B) l x : x ∈ l → f x ∈ map f l.
Proof. intros Hx. apply list_elem_of_In, in_map. by apply list_elem_of_In. Qed.

(** Lists made from the positions. *)
Lemma NoDup_imap {A B} (f : nat → A → B) (l : list A) :
  (∀ i j x y, l !! i = Some x → l !! j = Some y → f i x = f j y → i = j) → NoDup (imap f l).
Proof. intros Hf. apply NoDup_alt. intros i j z (x & Hx & ->)%list_lookup_imap_Some (y & Hy & E)%list_lookup_imap_Some. by eapply Hf. Qed.

(** Overwriting the middle of an array. *)
Lemma copy_at_app {A} (a b c src : list A) i : length a = i → length b = length src → copy_at i src (a ++ b ++ c) = a ++ src ++ c.
Proof.
  intros <- Hb. unfold copy_at. rewrite take_app_length. do 2 f_equal. rewrite <- Hb, app_assoc, <- length_app. apply drop_app_length.
Qed.
