(* ===== verification/External.v ===== *)
(** The contracts of the third-party crates that the program relies on: constant-time comparison and
    selection ([subtle]) and wiping ([zeroize]).  The components are proved against the laws; a
    concrete instance shows that they can hold. *)

From S2P Require Import Prelude.

(** [Choice] is a boolean.  [ct_eq_slice] is [ConstantTimeEq] on slices, the others act on words. *)
Class Subtle : Type := {
  ct_eq_slice : list Z → list Z → bool;
  ct_eq : Z → Z → bool;
  ct_gt : Z → Z → bool;
  ct_lt : Z → Z → bool;
  conditional_select : Z → Z → bool → Z
}.

Class SubtleLaws `{Subtle} : Prop := {
  ct_eq_slice_spec a b : ct_eq_slice a b = bool_decide (a = b);
  ct_eq_spec x y : ct_eq x y = Z.eqb x y;
  ct_gt_spec x y : ct_gt x y = Z.gtb x y;
  ct_lt_spec x y : ct_lt x y = Z.ltb x y;
  conditional_select_spec a b c : conditional_select a b c = if c then b else a
}.

(** [Zeroize::zeroize] on a byte slice. *)
Class Zeroize : Type := { zeroize : list Z → list Z }.
Class ZeroizeLaws `{Zeroize} : Prop := { zeroize_spec l : zeroize l = replicate (length l) 0 }.

(** Concrete instances for the witnesses. *)
Definition plain_subtle : Subtle := {|
  ct_eq_slice := λ a b, bool_decide (a = b);
  ct_eq := Z.eqb;
  ct_gt := Z.gtb;
  ct_lt := Z.ltb;
  conditional_select := λ a b c, if c then b else a
|}.

Lemma plain_subtle_laws : @SubtleLaws plain_subtle.
Proof. by split. Qed.

Definition plain_zeroize : Zeroize := {| zeroize := λ l, replicate (length l) 0 |}.

Lemma plain_zeroize_laws : @ZeroizeLaws plain_zeroize.
Proof. by split. Qed.
