(* ===== verification/Tables.v ===== *)
(** [hazmat/tables.rs]: multiplication in GF(2^8), the linear layer in its two resource profiles
    (precomputed tables, the default; [gf_mul] on demand, the feature [small-tables]) and the fused
    S-box/MDS lookups shared by Kalyna and Kupyna.

    Definitions with the suffix [_small] are the [small-tables] variants of the functions that the
    source compiles under one name. *)

From S2P Require Import Prelude TablesData.

Definition ROWS : nat := 8.

(** A state is a list of columns of eight bytes. *)
Definition column_ok (c : list Z) : Prop := array_ok ROWS c.
Definition state_ok (nb : nat) (s : list (list Z)) : Prop := length s = nb ∧ Forall column_ok s.

#[global] Instance column_ok_dec c : Decision (column_ok c).
Proof. unfold column_ok. apply _. Defined.
#[global] Instance state_ok_dec nb s : Decision (state_ok nb s).
Proof. unfold state_ok. apply _. Defined.

(** * Definitions *)

(** One iteration of the loop of [gf_mul]. *)
Definition gf_mul_step (s : Z * Z * Z) : Z * Z * Z :=
  let '(result, x, y) := s in
  (result ⊕ Z.land x (wrapping_sub 8 0 (Z.land y 1)),
   shl 8 x 1 ⊕ Z.land 0x1D (wrapping_sub 8 0 (Z.shiftr x 7)),
   Z.shiftr y 1).

Definition gf_mul (x y : Z) : Z := (Nat.iter 8 gf_mul_step (0, x, y)).1.1.

(** [table[row][byte]]. *)
Definition table_get (table : list (list Z)) (row : nat) (byte : Z) : Z :=
  (nth row table []).[Z.to_nat byte].

(** [matrix[out_row][in_row]]. *)
Definition matrix_get (matrix : list (list Z)) (out_row in_row : nat) : Z :=
  (nth out_row matrix []).[in_row].

(** [SBOXES[row % 4][byte]] and [SBOXES_DEC[row % 4][byte]]. *)
Definition sbox (row : nat) (byte : Z) : Z := table_get SBOXES (row mod 4) byte.
Definition sbox_dec (row : nat) (byte : Z) : Z := table_get SBOXES_DEC (row mod 4) byte.

(** The word that the loops over a column accumulate. *)
Definition column_word (contribution : nat → Z → Z) (column : list Z) : Z :=
  fold_enum (λ acc in_row byte, acc ⊕ contribution in_row byte) 0 0 column.

Definition apply_matrix (state : list (list Z)) (table : list (list Z)) : list (list Z) :=
  map (λ column, to_le_bytes ROWS (column_word (table_get table) column)) state.

Definition apply_matrix_via_gf_mul (state : list (list Z)) (matrix : list (list Z)) : list (list Z) :=
  map (λ column,
        map (λ out_row,
              fold_enum (λ out_byte in_row byte, out_byte ⊕ gf_mul byte (matrix_get matrix out_row in_row))
                0 0 column)
          (seq 0 ROWS))
    state.

Definition apply_forward_matrix (state : list (list Z)) : list (list Z) := apply_matrix state MDS_TABLE.
Definition apply_forward_matrix_small (state : list (list Z)) : list (list Z) :=
  apply_matrix_via_gf_mul state MDS_MATRIX.

Definition apply_inverse_matrix (state : list (list Z)) : list (list Z) :=
  apply_matrix state MDS_INV_TABLE.
Definition apply_inverse_matrix_small (state : list (list Z)) : list (list Z) :=
  apply_matrix_via_gf_mul state MDS_INV_MATRIX.

Definition mds_column_via_gf_mul (matrix : list (list Z)) (in_row : nat) (byte : Z) : Z :=
  foldl (λ word out_row, Z.lor word (shl 64 (gf_mul byte (matrix_get matrix out_row in_row)) (8 * out_row)))
    0 (seq 0 ROWS).

Definition build_sbox_mds : list (list Z) :=
  map (λ row, map (λ byte, table_get MDS_TABLE row (table_get SBOXES (row mod 4) byte)) all_bytes)
    (seq 0 ROWS).
Definition SBOX_MDS : list (list Z) := build_sbox_mds.

Definition forward_sbox_mds (row : nat) (byte : Z) : Z := table_get SBOX_MDS row byte.
Definition forward_sbox_mds_small (row : nat) (byte : Z) : Z :=
  mds_column_via_gf_mul MDS_MATRIX row (sbox row byte).

Definition build_sbox_mds_dec : list (list Z) :=
  map (λ row, map (λ byte, table_get MDS_INV_TABLE row (table_get SBOXES_DEC (row mod 4) byte)) all_bytes)
    (seq 0 ROWS).
Definition SBOX_MDS_DEC : list (list Z) := build_sbox_mds_dec.

Definition inverse_sbox_mds (row : nat) (byte : Z) : Z := table_get SBOX_MDS_DEC row byte.
Definition inverse_sbox_mds_small (row : nat) (byte : Z) : Z :=
  mds_column_via_gf_mul MDS_INV_MATRIX row (sbox_dec row byte).

(** The oracle's branching multiplication, against which the branchless [gf_mul] is checked. *)
Definition reference_multiply_gf_step (s : Z * Z * Z) : Z * Z * Z :=
  let '(r, x, y) := s in
  let r := if Z.land y 1 =? 1 then r ⊕ x else r in
  let hbit := Z.land x 0x80 in
  let x := shl 8 x 1 in
  (r, if hbit =? 0x80 then x ⊕ 0x1D else x, Z.shiftr y 1).

Definition reference_multiply_gf (x y : Z) : Z :=
  (Nat.iter 8 reference_multiply_gf_step (0, x, y)).1.1.

#[global] Opaque SBOXES SBOXES_DEC MDS_TABLE MDS_INV_TABLE MDS_MATRIX MDS_INV_MATRIX SBOX_MDS SBOX_MDS_DEC.

(** * GF(2^8) *)

(** The new [x] of a step: multiplication by the polynomial [x]. *)
Definition xtime (x : Z) : Z := shl 8 x 1 ⊕ Z.land 0x1D (wrapping_sub 8 0 (Z.shiftr x 7)).

Lemma xtime_lxor a b : byte_ok a → byte_ok b → xtime (a ⊕ b) = xtime a ⊕ xtime b.
Proof.
  intros Ha Hb. apply Z.eqb_eq.
  apply (forall_bytes (λ b, xtime (a ⊕ b) =? xtime a ⊕ xtime b)); [|done].
  apply (forall_bytes (λ a, forallb (λ b, xtime (a ⊕ b) =? xtime a ⊕ xtime b) all_bytes)); [|done].
  vm_compute. reflexivity.
Qed.

Lemma xtime_ok x : byte_ok x → byte_ok (xtime x).
Proof.
  intros _. unfold xtime. apply word_ok_lxor; [lia|apply word_ok_wrap; lia|].
  apply word_ok_land; [lia|unfold word_ok; lia|]. by apply (word_ok_nonneg 8), word_ok_wrap.
Qed.

Lemma gf_mul_step_lxor r1 r2 x1 x2 y :
  gf_mul_step (r1 ⊕ r2, x1 ⊕ x2, y) =
    ((gf_mul_step (r1, x1, y)).1.1 ⊕ (gf_mul_step (r2, x2, y)).1.1, xtime (x1 ⊕ x2), Z.shiftr y 1).
Proof. unfold gf_mul_step. simpl. f_equal. f_equal. bitwise. Qed.

Lemma gf_mul_iter_lxor n r1 r2 x1 x2 y :
  byte_ok x1 → byte_ok x2 →
  (Nat.iter n gf_mul_step (r1 ⊕ r2, x1 ⊕ x2, y)).1.1 =
    (Nat.iter n gf_mul_step (r1, x1, y)).1.1 ⊕ (Nat.iter n gf_mul_step (r2, x2, y)).1.1.
Proof.
  revert r1 r2 x1 x2 y. induction n as [|n IH]; intros; [done|].
  rewrite !Nat.iter_succ_r, gf_mul_step_lxor, xtime_lxor by done. apply IH; by apply xtime_ok.
Qed.

Lemma gf_mul_lxor a b y : byte_ok a → byte_ok b → gf_mul (a ⊕ b) y = gf_mul a y ⊕ gf_mul b y.
Proof.
  intros. unfold gf_mul. change (0, a ⊕ b, y) with (0 ⊕ 0, a ⊕ b, y). by apply gf_mul_iter_lxor.
Qed.

Lemma gf_mul_ok x y : byte_ok x → byte_ok (gf_mul x y).
Proof.
  intros Hx. unfold gf_mul.
  assert (∀ n r x y, byte_ok r → byte_ok x → byte_ok (Nat.iter n gf_mul_step (r, x, y)).1.1) as H.
  - clear. induction n as [|n IH]; intros r x y Hr Hx; [done|].
    rewrite Nat.iter_succ_r. apply IH; [|by apply xtime_ok].
    apply word_ok_lxor; [lia|done|]. apply word_ok_land; [lia|done|].
    by apply (word_ok_nonneg 8), word_ok_wrap.
  - apply H; auto with uacrypt.
Qed.

(** * Linear contributions *)

(** A contribution function is linear in its byte on the eight rows. *)
Record linear (f : nat → Z → Z) : Prop := {
  linear_lxor r a b : (r < ROWS)%nat → byte_ok a → byte_ok b → f r (a ⊕ b) = f r a ⊕ f r b;
  linear_ok r a : (r < ROWS)%nat → byte_ok a → u64_ok (f r a)
}.

Lemma column_fold_xor f i c d :
  linear f → (i + length c ≤ ROWS)%nat → length c = length d → bytes_ok c → bytes_ok d →
  fold_enum (λ a r b, a ⊕ f r b) i 0 (xor_into c d) =
    fold_enum (λ a r b, a ⊕ f r b) i 0 c ⊕ fold_enum (λ a r b, a ⊕ f r b) i 0 d.
Proof.
  intros Hf Hi Hlen Hc. revert i Hi d Hlen.
  induction Hc as [|a c Ha Hc IH]; intros i Hi [|b d] Hlen Hd; try done.
  simpl in *. apply Forall_cons in Hd as [Hb Hd].
  rewrite (fold_enum_xor_acc f), (fold_enum_xor_acc f _ (0 ⊕ f i a)), (fold_enum_xor_acc f _ (0 ⊕ f i b)).
  fold (xor_into c d). rewrite IH by side. rewrite (linear_lxor f Hf) by side. bitwise.
Qed.

Lemma column_word_xor f c d :
  linear f → column_ok c → column_ok d →
  column_word f (xor_into c d) = column_word f c ⊕ column_word f d.
Proof.
  intros Hf [Hc ?] [Hd ?]. apply column_fold_xor; try done; rewrite Hc; [done|congruence].
Qed.

Lemma column_word_zero f : linear f → column_word f (replicate ROWS 0) = 0.
Proof.
  intros Hf. assert (column_ok (replicate ROWS 0)) as H0 by (apply array_ok_zeros).
  pose proof (column_word_xor f _ _ Hf H0 H0) as H.
  rewrite Z.lxor_nilpotent in H. exact H.
Qed.

Lemma column_word_ok f c : linear f → column_ok c → u64_ok (column_word f c).
Proof.
  intros Hf [Hl Hc]. unfold column_word.
  assert (∀ i acc, (i + length c ≤ ROWS)%nat → u64_ok acc →
    u64_ok (fold_enum (λ a r b, a ⊕ f r b) i acc c)) as H.
  - clear Hl. induction Hc as [|b c Hb Hc IH]; intros i acc Hi Hacc; simpl in *; [done|].
    apply IH; [lia|]. apply word_ok_lxor; [lia|done|]. apply (linear_ok f Hf); [lia|done].
  - apply H; [rewrite Hl; done|unfold word_ok; lia].
Qed.

(** If mixing with [g] maps the contribution of every single byte back to that byte, it inverts the
    mixing with [f]. *)
Lemma column_word_inverse f g c :
  linear f → linear g →
  (∀ r b, (r < ROWS)%nat → byte_ok b → column_word g (to_le_bytes ROWS (f r b)) = Z.shiftl b (8 * r)) →
  column_ok c →
  to_le_bytes ROWS (column_word g (to_le_bytes ROWS (column_word f c))) = c.
Proof.
  intros Hf Hg Hinv [Hlen Hc].
  assert (∀ i, (i + length c = ROWS)%nat →
    column_word g (to_le_bytes ROWS (fold_enum (λ a r b, a ⊕ f r b) i 0 c)) =
      Z.shiftl (from_le_bytes c) (8 * i)) as H.
  - clear Hlen. induction Hc as [|b c Hb Hc IH]; intros i Hi; cbn [fold_enum from_le_bytes length] in *.
    + rewrite to_le_bytes_0. rewrite (column_word_zero g Hg). by rewrite Z.shiftl_0_l.
    + rewrite fold_enum_xor_acc, Z.lxor_0_l, to_le_bytes_xor, column_word_xor by (done || apply to_le_bytes_ok).
      rewrite IH, Hinv by side.
      apply Z.bits_inj'. intros k Hk. rewrite Z.lxor_spec, !Z.shiftl_spec by lia.
      rewrite testbit_from_le_cons by done.
      replace (k - 8 * S i) with (k - 8 * i - 8) by lia.
      case_decide; [rewrite (Z.testbit_neg_r (from_le_bytes c)) by lia; apply xorb_false_r|].
      apply word_ok_bits in Hb as [_ Hb]; [|lia]. rewrite Hb by lia. apply xorb_false_l.
  - specialize (H 0%nat). rewrite Nat.add_0_l in H. unfold column_word at 2. rewrite H by done.
    rewrite Z.shiftl_0_r. rewrite <- Hlen at 1. by apply to_from_le_bytes.
Qed.

(** * The columns of a matrix *)

Lemma mds_column_bytes matrix in_row byte :
  byte_ok byte →
  mds_column_via_gf_mul matrix in_row byte =
    from_le_bytes (map (λ out_row, gf_mul byte (matrix_get matrix out_row in_row)) (seq 0 ROWS)).
Proof.
  intros Hb. unfold mds_column_via_gf_mul.
  set (h o := gf_mul byte (matrix_get matrix o in_row)).
  assert (∀ o, byte_ok (h o)) as Hh by (intros; by apply gf_mul_ok).
  assert (∀ n, (n ≤ ROWS)%nat →
    foldl (λ w (o : nat), Z.lor w (shl 64 (h o) (8 * o))) 0 (seq 0 n) =
      from_le_bytes (map h (seq 0 n))) as H; [|by apply H].
  induction n as [|n IH]; intros Hn; [done|].
  rewrite seq_S, foldl_app, map_app, IH by lia. simpl. rewrite from_le_bytes_snoc, length_map, length_seq.
  apply (lor_shl_high _ _ n 8); [|done|done].
  pose proof (from_le_bytes_bound (map h (seq 0 n))) as Hx. rewrite length_map, length_seq in Hx.
  apply Hx, Forall_forall. intros x Hx'. apply list_elem_of_In, in_map_iff in Hx' as (o & <- & _). done.
Qed.

Lemma gf_mul_bytes_ok matrix in_row byte :
  byte_ok byte →
  bytes_ok (map (λ out_row, gf_mul byte (matrix_get matrix out_row in_row)) (seq 0 ROWS)).
Proof.
  intros. apply Forall_forall. intros x Hx.
  apply list_elem_of_In, in_map_iff in Hx as (o & <- & _). by apply gf_mul_ok.
Qed.

Lemma mds_column_linear matrix : linear (mds_column_via_gf_mul matrix).
Proof.
  split.
  - intros r a b _ Ha Hb. rewrite !mds_column_bytes by side.
    rewrite <- from_le_bytes_xor, xor_into_map by (done || by apply gf_mul_bytes_ok).
    f_equal. apply map_ext. intros o. by apply gf_mul_lxor.
  - intros r a _ Ha. rewrite mds_column_bytes by done.
    pose proof (from_le_bytes_bound _ (gf_mul_bytes_ok matrix r a Ha)) as H. exact H.
Qed.

(** The accumulated column of the table-driven layer is the matrix product of the other profile. *)
Lemma matrix_product_fold matrix i acc accs c :
  bytes_ok c → to_le_bytes ROWS acc = map accs (seq 0 ROWS) →
  to_le_bytes ROWS (fold_enum (λ a r b, a ⊕ mds_column_via_gf_mul matrix r b) i acc c) =
    map (λ o, fold_enum (λ ob r b, ob ⊕ gf_mul b (matrix_get matrix o r)) i (accs o) c) (seq 0 ROWS).
Proof.
  intros Hc. revert i acc accs. induction Hc as [|b c Hb Hc IH]; intros i acc accs Hacc;
    cbn [fold_enum]; [done|].
  apply (IH _ _ (λ o, accs o ⊕ gf_mul b (matrix_get matrix o i))).
  rewrite to_le_bytes_xor, Hacc, mds_column_bytes by done. rewrite <- xor_into_map. f_equal.
  pose proof (to_from_le_bytes _ (gf_mul_bytes_ok matrix i b Hb)) as H.
  rewrite length_map, length_seq in H. exact H.
Qed.

Lemma matrix_product_column matrix c :
  column_ok c →
  map (λ out_row,
        fold_enum (λ out_byte in_row byte, out_byte ⊕ gf_mul byte (matrix_get matrix out_row in_row))
          0 0 c) (seq 0 ROWS) =
    to_le_bytes ROWS (column_word (mds_column_via_gf_mul matrix) c).
Proof.
  intros [_ Hc]. symmetry. apply (matrix_product_fold matrix 0 0 (λ _, 0)); done.
Qed.

(** * The generated tables *)

Lemma table_matches_matrix_check :
  forallb (λ r, forallb (λ b,
    (table_get MDS_TABLE r b =? mds_column_via_gf_mul MDS_MATRIX r b) &&
    (table_get MDS_INV_TABLE r b =? mds_column_via_gf_mul MDS_INV_MATRIX r b)) all_bytes)
    (seq 0 ROWS) = true.
Proof. vm_compute. reflexivity. Qed.

Lemma table_matches_matrix r b :
  (r < ROWS)%nat → byte_ok b →
  table_get MDS_TABLE r b = mds_column_via_gf_mul MDS_MATRIX r b ∧
  table_get MDS_INV_TABLE r b = mds_column_via_gf_mul MDS_INV_MATRIX r b.
Proof.
  intros Hr Hb. pose proof (forall_rows_bytes _ _ table_matches_matrix_check r b Hr Hb) as H.
  apply andb_prop in H as [H1 H2]. split; by apply Z.eqb_eq.
Qed.

Lemma linear_ext f g : (∀ r b, (r < ROWS)%nat → byte_ok b → f r b = g r b) → linear g → linear f.
Proof.
  intros He [Hx Ho]. split; intros; rewrite !He by side; auto.
Qed.

Lemma mds_table_linear : linear (table_get MDS_TABLE).
Proof.
  apply (linear_ext _ (mds_column_via_gf_mul MDS_MATRIX)); [|apply mds_column_linear].
  intros r b Hr Hb. exact (proj1 (table_matches_matrix r b Hr Hb)).
Qed.

Lemma mds_inv_table_linear : linear (table_get MDS_INV_TABLE).
Proof.
  apply (linear_ext _ (mds_column_via_gf_mul MDS_INV_MATRIX)); [|apply mds_column_linear].
  intros r b Hr Hb. exact (proj2 (table_matches_matrix r b Hr Hb)).
Qed.

Lemma tables_inverse_check :
  forallb (λ r, forallb (λ b,
    (column_word (table_get MDS_INV_TABLE) (to_le_bytes ROWS (table_get MDS_TABLE r b))
       =? Z.shiftl b (8 * r)) &&
    (column_word (table_get MDS_TABLE) (to_le_bytes ROWS (table_get MDS_INV_TABLE r b))
       =? Z.shiftl b (8 * r))) all_bytes)
    (seq 0 ROWS) = true.
Proof. vm_compute. reflexivity. Qed.

Lemma tables_inverse r b :
  (r < ROWS)%nat → byte_ok b →
  column_word (table_get MDS_INV_TABLE) (to_le_bytes ROWS (table_get MDS_TABLE r b)) = Z.shiftl b (8 * r) ∧
  column_word (table_get MDS_TABLE) (to_le_bytes ROWS (table_get MDS_INV_TABLE r b)) = Z.shiftl b (8 * r).
Proof.
  intros Hr Hb. pose proof (forall_rows_bytes _ _ tables_inverse_check r b Hr Hb) as H.
  apply andb_prop in H as [H1 H2]. split; by apply Z.eqb_eq.
Qed.

(** * The linear layer *)

Lemma column_word_ext f g c :
  (∀ r b, (r < ROWS)%nat → byte_ok b → f r b = g r b) → column_ok c → column_word f c = column_word g c.
Proof.
  intros He [Hlen Hc]. unfold column_word.
  assert (∀ i acc, (i + length c ≤ ROWS)%nat →
    fold_enum (λ a r b, a ⊕ f r b) i acc c = fold_enum (λ a r b, a ⊕ g r b) i acc c) as H.
  - clear Hlen. induction Hc as [|b c Hb Hc IH]; intros i acc Hi; simpl in *; [done|].
    rewrite He by side. apply IH. lia.
  - apply H. by rewrite Hlen.
Qed.

Lemma apply_matrix_ok nb s table : state_ok nb s → state_ok nb (apply_matrix s table).
Proof.
  intros [<- _]. split; [apply length_map|]. apply Forall_forall. intros c Hc.
  apply list_elem_of_In, in_map_iff in Hc as (d & <- & _). apply to_le_bytes_ok.
Qed.

Lemma apply_matrix_inverse nb s t1 t2 :
  linear (table_get t1) → linear (table_get t2) →
  (∀ r b, (r < ROWS)%nat → byte_ok b →
    column_word (table_get t2) (to_le_bytes ROWS (table_get t1 r b)) = Z.shiftl b (8 * r)) →
  state_ok nb s → apply_matrix (apply_matrix s t1) t2 = s.
Proof.
  intros H1 H2 Hinv [_ Hs]. unfold apply_matrix. rewrite map_map.
  induction Hs as [|c s Hc Hs IH]; simpl map; [done|]. f_equal; [|done].
  by apply column_word_inverse.
Qed.

Lemma apply_inverse_forward nb s :
  state_ok nb s → apply_inverse_matrix (apply_forward_matrix s) = s.
Proof.
  unfold apply_inverse_matrix, apply_forward_matrix. intros Hs.
  apply (apply_matrix_inverse nb); [apply mds_table_linear|apply mds_inv_table_linear| |done].
  intros r b Hr Hb. exact (proj1 (tables_inverse r b Hr Hb)).
Qed.

Lemma apply_forward_inverse nb s :
  state_ok nb s → apply_forward_matrix (apply_inverse_matrix s) = s.
Proof.
  unfold apply_inverse_matrix, apply_forward_matrix. intros Hs.
  apply (apply_matrix_inverse nb); [apply mds_inv_table_linear|apply mds_table_linear| |done].
  intros r b Hr Hb. exact (proj2 (tables_inverse r b Hr Hb)).
Qed.

(** * The S-boxes and the fused lookups *)

Lemma table_get_map g r b :
  (r < ROWS)%nat → byte_ok b →
  table_get (map (λ row, map (g row) all_bytes) (seq 0 ROWS)) r b = g r b.
Proof.
  intros Hr Hb. unfold table_get, word_ok in *.
  rewrite (nth_indep _ [] (map (g 0%nat) all_bytes)) by (rewrite length_map; done).
  rewrite (map_nth (λ row, map (g row) all_bytes) _ 0%nat), seq_nth by done.
  rewrite (nth_indep _ 0 (g r 0)) by (rewrite length_map; unfold all_bytes; rewrite length_seqZ; lia).
  change (0 + r)%nat with r. rewrite (map_nth (g r)). f_equal. unfold all_bytes.
  rewrite nth_lookup, lookup_seqZ_lt by lia. cbn [default from_option id]. lia.
Qed.

Lemma sboxes_inverse_check :
  forallb (λ r, forallb (λ b,
    (table_get SBOXES_DEC r (table_get SBOXES r b) =? b) &&
    (table_get SBOXES r (table_get SBOXES_DEC r b) =? b) &&
    bool_decide (byte_ok (table_get SBOXES r b)) &&
    bool_decide (byte_ok (table_get SBOXES_DEC r b))) all_bytes) (seq 0 4) = true.
Proof. vm_compute. reflexivity. Qed.

Lemma sboxes_inverse r b :
  byte_ok b →
  sbox_dec r (sbox r b) = b ∧ sbox r (sbox_dec r b) = b ∧ byte_ok (sbox r b) ∧ byte_ok (sbox_dec r b).
Proof.
  intros Hb. pose proof (forall_rows_bytes _ _ sboxes_inverse_check (r mod 4) b) as H.
  specialize (H (Nat.mod_upper_bound r 4 ltac:(lia)) Hb). cbv beta in H.
  apply andb_prop in H as [H H4]. apply andb_prop in H as [H H3]. apply andb_prop in H as [H1 H2].
  unfold sbox, sbox_dec. split; [by apply Z.eqb_eq|]. split; [by apply Z.eqb_eq|].
  split; by eapply bool_decide_eq_true_1.
Qed.

Lemma sbox_ok r b : byte_ok b → byte_ok (sbox r b).
Proof. intros Hb. exact (proj1 (proj2 (proj2 (sboxes_inverse r b Hb)))). Qed.

Lemma sbox_dec_ok r b : byte_ok b → byte_ok (sbox_dec r b).
Proof. intros Hb. exact (proj2 (proj2 (proj2 (sboxes_inverse r b Hb)))). Qed.

Lemma sbox_dec_sbox r b : byte_ok b → sbox_dec r (sbox r b) = b.
Proof. intros Hb. exact (proj1 (sboxes_inverse r b Hb)). Qed.

Lemma sbox_sbox_dec r b : byte_ok b → sbox r (sbox_dec r b) = b.
Proof. intros Hb. exact (proj1 (proj2 (sboxes_inverse r b Hb))). Qed.
#[export] Hint Resolve sbox_ok sbox_dec_ok gf_mul_ok : uacrypt.

Lemma forward_sbox_mds_eq r b :
  (r < ROWS)%nat → byte_ok b → forward_sbox_mds r b = table_get MDS_TABLE r (sbox r b).
Proof. intros Hr Hb. apply (table_get_map (λ r b, table_get MDS_TABLE r (sbox r b)) r b Hr Hb). Qed.

Lemma inverse_sbox_mds_eq r b :
  (r < ROWS)%nat → byte_ok b → inverse_sbox_mds r b = table_get MDS_INV_TABLE r (sbox_dec r b).
Proof.
  intros Hr Hb. apply (table_get_map (λ r b, table_get MDS_INV_TABLE r (sbox_dec r b)) r b Hr Hb).
Qed.

Lemma forward_sbox_mds_ok r b : (r < ROWS)%nat → byte_ok b → u64_ok (forward_sbox_mds r b).
Proof. intros. rewrite forward_sbox_mds_eq by done. apply mds_table_linear; side. Qed.

Lemma inverse_sbox_mds_ok r b : (r < ROWS)%nat → byte_ok b → u64_ok (inverse_sbox_mds r b).
Proof. intros. rewrite inverse_sbox_mds_eq by done. apply mds_inv_table_linear; side. Qed.

(** * The two resource profiles agree *)

Lemma forward_sbox_mds_small_eq r b :
  (r < ROWS)%nat → byte_ok b → forward_sbox_mds_small r b = forward_sbox_mds r b.
Proof.
  intros Hr Hb. rewrite forward_sbox_mds_eq by done. unfold forward_sbox_mds_small. symmetry.
  exact (proj1 (table_matches_matrix r _ Hr (sbox_ok r b Hb))).
Qed.

Lemma inverse_sbox_mds_small_eq r b :
  (r < ROWS)%nat → byte_ok b → inverse_sbox_mds_small r b = inverse_sbox_mds r b.
Proof.
  intros Hr Hb. rewrite inverse_sbox_mds_eq by done. unfold inverse_sbox_mds_small. symmetry.
  exact (proj2 (table_matches_matrix r _ Hr (sbox_dec_ok r b Hb))).
Qed.

Lemma apply_matrix_profiles nb s matrix table :
  (∀ r b, (r < ROWS)%nat → byte_ok b → table_get table r b = mds_column_via_gf_mul matrix r b) →
  state_ok nb s → apply_matrix_via_gf_mul s matrix = apply_matrix s table.
Proof.
  intros Ht [_ Hs]. induction Hs as [|c s Hc Hs IH]; [done|].
  unfold apply_matrix_via_gf_mul, apply_matrix in *. cbn [map]. f_equal; [|done].
  rewrite (column_word_ext _ _ c Ht Hc). by apply matrix_product_column.
Qed.

Lemma apply_forward_matrix_small_eq nb s :
  state_ok nb s → apply_forward_matrix_small s = apply_forward_matrix s.
Proof.
  apply apply_matrix_profiles. intros r b Hr Hb. exact (proj1 (table_matches_matrix r b Hr Hb)).
Qed.

Lemma apply_inverse_matrix_small_eq nb s :
  state_ok nb s → apply_inverse_matrix_small s = apply_inverse_matrix s.
Proof.
  apply apply_matrix_profiles. intros r b Hr Hb. exact (proj2 (table_matches_matrix r b Hr Hb)).
Qed.

(** The branchless multiplication is the oracle's. *)
Lemma gf_mul_step_reference s :
  (∃ r x y, s = (r, x, y) ∧ byte_ok x ∧ byte_ok y) → gf_mul_step s = reference_multiply_gf_step s.
Proof.
  intros (r & x & y & -> & Hx & Hy). unfold gf_mul_step, reference_multiply_gf_step.
  do 2 f_equal.
  - assert ((wrapping_sub 8 0 (Z.land y 1) =? if Z.land y 1 =? 1 then 255 else 0) = true) as Hm.
    { by apply (forall_bytes (λ y, wrapping_sub 8 0 (Z.land y 1) =? if Z.land y 1 =? 1 then 255 else 0)). }
    apply Z.eqb_eq in Hm as ->. destruct (Z.land y 1 =? 1); [|by rewrite Z.land_0_r, Z.lxor_0_r].
    f_equal. change 255 with (Z.ones 8). fold (wrap 8 x). by apply wrap_id.
  - apply Z.eqb_eq.
    by apply (forall_bytes (λ x, xtime x =? if Z.land x 0x80 =? 0x80 then shl 8 x 1 ⊕ 0x1D else shl 8 x 1)).
Qed.

Lemma gf_mul_reference_eq x y : byte_ok x → byte_ok y → gf_mul x y = reference_multiply_gf x y.
Proof.
  intros Hx Hy. unfold gf_mul, reference_multiply_gf. do 2 f_equal.
  generalize 0 as r. generalize 8%nat as n. intros n. revert x y Hx Hy.
  induction n as [|n IH]; intros x y Hx Hy r; [done|].
  rewrite !Nat.iter_succ_r. rewrite <- gf_mul_step_reference by (exists r, x, y; done).
  change (gf_mul_step (r, x, y))
    with (r ⊕ Z.land x (wrapping_sub 8 0 (Z.land y 1)), xtime x, Z.shiftr y 1).
  apply IH; [by apply xtime_ok|].
  unfold word_ok in *. rewrite Z.shiftr_div_pow2 by lia. change (2 ^ 1) with 2.
  split; [apply Z.div_pos; lia|apply Z.div_lt_upper_bound; lia].
Qed.
