(* ===== verification/BlockCipher.v ===== *)
(** The interface between the block cipher and its modes of operation: an expanded key encrypts and
    decrypts one block, and the two are inverse permutations of the blocks.  [Kalyna.v] discharges
    it for every variant of [kalyna_variant!]; the mode files are proved against it. *)

From S2P Require Import Prelude.

(** [K] is the type of expanded keys; [key_ok] holds of the keys that [expanded_new], the [new] of
    [$expanded], returns. *)
Class BlockCipher (K : Type) : Type := {
  key_bytes : nat;
  block_bytes : nat;
  expanded_new : list Z → option K;
  encrypt_block : K → list Z → list Z;
  decrypt_block : K → list Z → list Z;
  key_ok : K → Prop
}.

Arguments key_bytes K {_} : assert.
Arguments block_bytes K {_} : assert.
Arguments expanded_new K {_} _ : assert.

Class BlockCipherLaws (K : Type) `{BlockCipher K} : Prop := {
  block_bytes_valid : block_bytes K = 16%nat ∨ block_bytes K = 32%nat ∨ block_bytes K = 64%nat;
  expanded_new_ok key : array_ok (key_bytes K) key → ∃ k, expanded_new K key = Some k ∧ key_ok k;
  encrypt_block_ok k b : key_ok k → array_ok (block_bytes K) b → array_ok (block_bytes K) (encrypt_block k b);
  decrypt_block_ok k b : key_ok k → array_ok (block_bytes K) b → array_ok (block_bytes K) (decrypt_block k b);
  decrypt_encrypt_block k b : key_ok k → array_ok (block_bytes K) b → decrypt_block k (encrypt_block k b) = b;
  encrypt_decrypt_block k b : key_ok k → array_ok (block_bytes K) b → encrypt_block k (decrypt_block k b) = b
}.

#[export] Hint Resolve encrypt_block_ok decrypt_block_ok : uacrypt.

Lemma block_bytes_pos {K} `{BlockCipherLaws K} : (0 < block_bytes K)%nat.
Proof. destruct block_bytes_valid as [-> | [-> | ->]]; lia. Qed.

(** A cipher is a permutation: distinct blocks have distinct images. *)
Lemma encrypt_block_inj {K} `{BlockCipherLaws K} k a b :
  key_ok k → array_ok (block_bytes K) a → array_ok (block_bytes K) b →
  encrypt_block k a = encrypt_block k b → a = b.
Proof.
  intros Hk Ha Hb He. rewrite <- (decrypt_encrypt_block k a), <- (decrypt_encrypt_block k b) by done.
  by rewrite He.
Qed.
