(* ===== verification/Kalyna.v ===== *)
(** [hazmat/kalyna.rs]: the Kalyna block cipher (DSTU 7624:2014), its key schedule, the fused round
    functions and the restructured decryption.

    A state is the list of its columns.  The fixed-width buffers of the source ([[Column; MAX_NB]],
    [[[Column; MAX_NB]; ROUND_KEYS_LEN]]) are lists of the same width, and a function that the source
    applies to [&mut state[..nb]] is applied to that prefix. *)

From S2P Require Import Prelude TablesData Tables BlockCipher.

(** * Definitions *)

Definition MAX_NB : nat := 8.
Definition ROUND_KEYS_LEN : nat := 19.
Definition ZERO_COLUMN : list Z := replicate ROWS 0.

Abbreviation RoundKeys := (list (list (list Z))).

(** [state[col][row]], and the write [state[col][row] = v]. *)
Definition state_get (state : list (list Z)) (col row : nat) : Z := (nth col state []).[row].
Definition state_set (state : list (list Z)) (col row : nat) (v : Z) : list (list Z) :=
  alter (λ column, <[row := v]> column) col state.

Definition sub_bytes (state : list (list Z)) : list (list Z) :=
  map (λ column, imap (λ row byte, sbox row byte) column) state.

Definition inv_sub_bytes (state : list (list Z)) : list (list Z) :=
  map (λ column, imap (λ row byte, sbox_dec row byte) column) state.

Definition shift_rows (state : list (list Z)) : list (list Z) :=
  let nb := length state in
  let shifted :=
    foldl (λ shifted row,
            let shift := (row * nb / ROWS)%nat in
            foldl (λ shifted col,
                    state_set shifted ((col + shift) mod nb)%nat row (state_get state col row))
              shifted (seq 0 nb))
      (replicate MAX_NB ZERO_COLUMN) (seq 0 ROWS) in
  take nb shifted.

Definition inv_shift_rows (state : list (list Z)) : list (list Z) :=
  let nb := length state in
  let shifted :=
    foldl (λ shifted row,
            let shift := (row * nb / ROWS)%nat in
            foldl (λ shifted col,
                    state_set shifted col row (state_get state ((col + shift) mod nb)%nat row))
              shifted (seq 0 nb))
      (replicate MAX_NB ZERO_COLUMN) (seq 0 ROWS) in
  take nb shifted.

(** Per-column addition, subtraction modulo 2^64, and exclusive or. *)
Definition add_column (s k : list Z) : list Z :=
  to_le_bytes ROWS (wrapping_add 64 (from_le_bytes s) (from_le_bytes k)).
Definition sub_column (s k : list Z) : list Z :=
  to_le_bytes ROWS (wrapping_sub 64 (from_le_bytes s) (from_le_bytes k)).

Definition add_round_key (state key : list (list Z)) : list (list Z) := zip_mut add_column state key.
Definition sub_round_key (state key : list (list Z)) : list (list Z) := zip_mut sub_column state key.
Definition xor_round_key (state key : list (list Z)) : list (list Z) := zip_mut xor_into state key.

(** The runtime-[nb] rounds. *)
Definition encipher_round (state : list (list Z)) : list (list Z) :=
  let nb := length state in
  let nb_mask := (nb - 1)%nat in
  map (λ out_col,
        to_le_bytes ROWS
          (foldl (λ acc row,
                   let shift := (row * nb / ROWS)%nat in
                   let src_col := Nat.land (out_col + nb - shift) nb_mask in
                   acc ⊕ forward_sbox_mds row (state_get state src_col row))
             0 (seq 0 ROWS)))
    (seq 0 nb).

Definition fused_inv_round (state : list (list Z)) : list (list Z) :=
  let nb := length state in
  let nb_mask := (nb - 1)%nat in
  map (λ out_col,
        to_le_bytes ROWS
          (foldl (λ acc row,
                   let shift := (row * nb / ROWS)%nat in
                   let src_col := Nat.land (out_col + shift) nb_mask in
                   acc ⊕ inverse_sbox_mds row (state_get state src_col row))
             0 (seq 0 ROWS)))
    (seq 0 nb).

Definition decipher_round (state : list (list Z)) : list (list Z) :=
  inv_sub_bytes (inv_shift_rows (apply_inverse_matrix state)).

(** The const-generic rounds, [NB] columns wide; [contribution] is [forward_sbox_mds] or its
    [small-tables] variant. *)
Definition encipher_round_n_with (contribution : nat → Z → Z) (NB : nat) (state : list (list Z))
    : list (list Z) :=
  let nb_mask := (NB - 1)%nat in
  map (λ out_col,
        to_le_bytes ROWS
          (foldl (λ acc row,
                   let shift := (row * NB / ROWS)%nat in
                   let src_col := Nat.land (out_col + NB - shift) nb_mask in
                   acc ⊕ contribution row (state_get state src_col row))
             0 (seq 0 ROWS)))
    (seq 0 NB).

Definition fused_inv_round_n_with (contribution : nat → Z → Z) (NB : nat) (state : list (list Z))
    : list (list Z) :=
  let nb_mask := (NB - 1)%nat in
  map (λ out_col,
        to_le_bytes ROWS
          (foldl (λ acc row,
                   let shift := (row * NB / ROWS)%nat in
                   let src_col := Nat.land (out_col + shift) nb_mask in
                   acc ⊕ contribution row (state_get state src_col row))
             0 (seq 0 ROWS)))
    (seq 0 NB).

Definition encipher_round_n := encipher_round_n_with forward_sbox_mds.
Definition fused_inv_round_n := fused_inv_round_n_with inverse_sbox_mds.
Definition encipher_round_n_small := encipher_round_n_with forward_sbox_mds_small.
Definition fused_inv_round_n_small := fused_inv_round_n_with inverse_sbox_mds_small.

(** [round_keys[i]]. *)
Definition round_key (round_keys : RoundKeys) (i : nat) : list (list Z) := nth i round_keys [].

Definition transform_keys_for_decrypt (round_keys : RoundKeys) (nb nr : nat) : RoundKeys :=
  imap (λ i key,
         if decide (1 ≤ i < nr)%nat then on_prefix nb apply_inverse_matrix key else key)
    round_keys.

(** Widens [nb] columns to the [MAX_NB] columns of a buffer. *)
Definition pad_columns (cols : list (list Z)) : list (list Z) :=
  cols ++ replicate (MAX_NB - length cols) ZERO_COLUMN.

Definition round_key_from (base tmp : list (list Z)) : list (list Z) :=
  let state := base in
  let state := add_round_key state tmp in
  let state := encipher_round state in
  let state := xor_round_key state tmp in
  let state := encipher_round state in
  let state := add_round_key state tmp in
  pad_columns state.

Definition columns_from_bytes (bytes : list Z) (count : nat) : list (list Z) :=
  foldl (λ out c, <[c := slice (c * ROWS) ((c + 1) * ROWS) bytes]> out)
    (replicate MAX_NB ZERO_COLUMN) (seq 0 count).

Definition shift_left_words (state : list (list Z)) : list (list Z) :=
  map (λ column, to_le_bytes ROWS (shl 64 (from_le_bytes column) 1)) state.

Definition rotate_words_left (buf : list (list Z)) (count : nat) : list (list Z) :=
  if (count =? 0)%nat then buf
  else
    let first := nth 0 buf [] in
    let buf := foldl (λ buf i, <[(i - 1)%nat := nth i buf []]> buf) buf (seq 1 (count - 1)) in
    <[(count - 1)%nat := first]> buf.

Definition rotate_bytes_left (buf : list Z) (shift : nat) : list Z :=
  let len := length buf in
  map (λ i, buf.[(i + shift) mod len]) (seq 0 len).

Definition mod_add_columns (a b : list (list Z)) : list (list Z) :=
  zip_mut (λ _ xy, add_column xy.1 xy.2) (replicate MAX_NB ZERO_COLUMN) (zip a b).

Definition key_expand_kt (key : list Z) (nb nk : nat) : list (list Z) :=
  let state := replicate MAX_NB ZERO_COLUMN in
  let tmv := nb + nk + 1 in
  let state := <[0%nat := to_le_bytes ROWS tmv]> state in
  let k0 := columns_from_bytes key nb in
  let k1 := if (nk =? nb)%nat then k0 else columns_from_bytes (drop (nb * ROWS) key) nb in
  let state := on_prefix nb (λ s, add_round_key s (take nb k0)) state in
  let state := on_prefix nb encipher_round state in
  let state := on_prefix nb (λ s, xor_round_key s (take nb k1)) state in
  let state := on_prefix nb encipher_round state in
  let state := on_prefix nb (λ s, add_round_key s (take nb k0)) state in
  let state := on_prefix nb encipher_round state in
  state.

(** [round_keys[round][..nb].copy_from_slice(&k[..nb])]. *)
Definition set_round_key (round_keys : RoundKeys) (round nb : nat) (k : list (list Z)) : RoundKeys :=
  alter (λ old, take nb k ++ drop nb old) round round_keys.

(** The loop of [key_expand_even]; [None] when the fuel runs out before [round] meets [nr]. *)
Fixpoint key_expand_even_loop (fuel : nat) (kt : list (list Z)) (nb nk nr : nat)
    (initial_data tmv : list (list Z)) (round : nat) (round_keys : RoundKeys) : option RoundKeys :=
  match fuel with
  | O => None
  | S fuel =>
      let kt_round := mod_add_columns (take nb kt) (take nb tmv) in
      let key_a := round_key_from (take nb initial_data) (take nb kt_round) in
      let round_keys := set_round_key round_keys round nb key_a in
      if (round =? nr)%nat then Some round_keys
      else if negb (nk =? nb)%nat then
        let round := (round + 2)%nat in
        let tmv := on_prefix nb shift_left_words tmv in
        let kt_round := mod_add_columns (take nb kt) (take nb tmv) in
        let key_b := round_key_from (slice nb nk initial_data) (take nb kt_round) in
        let round_keys := set_round_key round_keys round nb key_b in
        if (round =? nr)%nat then Some round_keys
        else
          key_expand_even_loop fuel kt nb nk nr
            (on_prefix nk (λ d, rotate_words_left d nk) initial_data)
            (on_prefix nb shift_left_words tmv) (round + 2) round_keys
      else
        key_expand_even_loop fuel kt nb nk nr
          (on_prefix nk (λ d, rotate_words_left d nk) initial_data)
          (on_prefix nb shift_left_words tmv) (round + 2) round_keys
  end.

Definition initial_tmv (nb : nat) : list (list Z) :=
  on_prefix nb (map (λ _, to_le_bytes ROWS 0x0001000100010001)) (replicate MAX_NB ZERO_COLUMN).

Definition key_expand_even (key : list Z) (kt : list (list Z)) (nb nk nr : nat)
    (round_keys : RoundKeys) : option RoundKeys :=
  key_expand_even_loop (S nr) kt nb nk nr (columns_from_bytes key nk) (initial_tmv nb) 0 round_keys.

(** One iteration of [key_expand_odd]: [round_keys[i]] from [round_keys[i - 1]]. *)
Definition key_expand_odd_step (nb : nat) (round_keys : RoundKeys) (i : nat) : RoundKeys :=
  let previous := round_key round_keys (i - 1) in
  let round_keys := set_round_key round_keys i nb previous in
  let bytes := concat (take nb (round_key round_keys i)) in
  let bytes := rotate_bytes_left bytes (2 * nb + 3) in
  alter (λ old, map (λ c, slice (c * ROWS) ((c + 1) * ROWS) bytes) (seq 0 nb) ++ drop nb old) i round_keys.

(** [i = 1; while i < nr { ..; i += 2 }]. *)
Definition key_expand_odd (round_keys : RoundKeys) (nb nr : nat) : RoundKeys :=
  foldl (key_expand_odd_step nb) round_keys (map (λ j, 2 * j + 1)%nat (seq 0 (nr / 2))).

Definition key_expand (key : list Z) (nb nk nr : nat) : option RoundKeys :=
  let kt := key_expand_kt key nb nk in
  let round_keys := replicate ROUND_KEYS_LEN (replicate MAX_NB ZERO_COLUMN) in
  round_keys ← key_expand_even key kt nb nk nr round_keys;
  Some (key_expand_odd round_keys nb nr).

(** [unroll_rounds!]: one round and one key addition per listed index, in that order. *)
Definition unroll_rounds (round_fn : list (list Z) → list (list Z)) (keys : RoundKeys) (nb : nat)
    (idx : list nat) (state : list (list Z)) : list (list Z) :=
  foldl (λ state i, xor_round_key (round_fn state) (take nb (round_key keys i))) state idx.

(** The index lists of the [match NR]; the [const] assertion refuses any other [NR] at compile time. *)
Definition encrypt_round_indices (NR : nat) : list nat :=
  match NR with
  | 10%nat => [1; 2; 3; 4; 5; 6; 7; 8; 9]
  | 14%nat => [1; 2; 3; 4; 5; 6; 7; 8; 9; 10; 11; 12; 13]
  | 18%nat => [1; 2; 3; 4; 5; 6; 7; 8; 9; 10; 11; 12; 13; 14; 15; 16; 17]
  | _ => []
  end%nat.

Definition decrypt_round_indices (NR : nat) : list nat :=
  match NR with
  | 10%nat => [9; 8; 7; 6; 5; 4; 3; 2; 1]
  | 14%nat => [13; 12; 11; 10; 9; 8; 7; 6; 5; 4; 3; 2; 1]
  | 18%nat => [17; 16; 15; 14; 13; 12; 11; 10; 9; 8; 7; 6; 5; 4; 3; 2; 1]
  | _ => []
  end%nat.

(** The [MAX_NB * ROWS]-byte output buffer. *)
Definition bytes_from_columns (NB : nat) (state : list (list Z)) : list Z :=
  foldl (λ out c, copy_at (c * ROWS) (nth c state []) out) (replicate (MAX_NB * ROWS) 0) (seq 0 NB).

Definition encrypt_with_schedule (NB NR : nat) (round_keys : RoundKeys) (plaintext : list Z) : list Z :=
  let full_state := columns_from_bytes plaintext NB in
  let state := take NB full_state in
  let state := add_round_key state (take NB (round_key round_keys 0)) in
  let state := unroll_rounds (encipher_round_n NB) round_keys NB (encrypt_round_indices NR) state in
  let state := encipher_round_n NB state in
  let state := add_round_key state (take NB (round_key round_keys NR)) in
  bytes_from_columns NB state.

Definition decrypt_with_schedule (NB NR : nat) (round_keys dec_keys : RoundKeys) (ciphertext : list Z)
    : list Z :=
  let full_state := columns_from_bytes ciphertext NB in
  let state := take NB full_state in
  let state := sub_round_key state (take NB (round_key round_keys NR)) in
  let state := apply_inverse_matrix state in
  let state := unroll_rounds (fused_inv_round_n NB) dec_keys NB (decrypt_round_indices NR) state in
  let state := inv_shift_rows state in
  let state := inv_sub_bytes state in
  let state := sub_round_key state (take NB (round_key round_keys 0)) in
  bytes_from_columns NB state.

(** The [small-tables] profile: a loop over [round_keys[1..NR]] instead of the unrolling, and the
    table-free round functions. *)
Definition encrypt_with_schedule_small (NB NR : nat) (round_keys : RoundKeys) (plaintext : list Z)
    : list Z :=
  let full_state := columns_from_bytes plaintext NB in
  let state := take NB full_state in
  let state := add_round_key state (take NB (round_key round_keys 0)) in
  let state :=
    foldl (λ state round_key, xor_round_key (encipher_round_n_small NB state) (take NB round_key))
      state (slice 1 NR round_keys) in
  let state := encipher_round_n_small NB state in
  let state := add_round_key state (take NB (round_key round_keys NR)) in
  bytes_from_columns NB state.

Definition decrypt_with_schedule_small (NB NR : nat) (round_keys dec_keys : RoundKeys)
    (ciphertext : list Z) : list Z :=
  let full_state := columns_from_bytes ciphertext NB in
  let state := take NB full_state in
  let state := sub_round_key state (take NB (round_key round_keys NR)) in
  let state := apply_inverse_matrix_small state in
  let state :=
    foldl (λ state dec_key, xor_round_key (fused_inv_round_n_small NB state) (take NB dec_key))
      state (reverse (slice 1 NR dec_keys)) in
  let state := inv_shift_rows state in
  let state := inv_sub_bytes state in
  let state := sub_round_key state (take NB (round_key round_keys 0)) in
  bytes_from_columns NB state.

Definition encrypt_generic (NB NR : nat) (key plaintext : list Z) (nk nr : nat) : option (list Z) :=
  round_keys ← key_expand key NB nk nr;
  Some (encrypt_with_schedule NB NR round_keys plaintext).

Definition decrypt_generic (NB NR : nat) (key ciphertext : list Z) (nk nr : nat) : option (list Z) :=
  round_keys ← key_expand key NB nk nr;
  let dec_keys := transform_keys_for_decrypt round_keys NB nr in
  Some (decrypt_with_schedule NB NR round_keys dec_keys ciphertext).

(** The five instantiations of [kalyna_variant!]. *)
Inductive variant : Set :=
| Kalyna128_128
| Kalyna128_256
| Kalyna256_256
| Kalyna256_512
| Kalyna512_512.

#[global] Instance variant_eq_dec : EqDecision variant.
Proof. solve_decision. Defined.

(** [$nb], [$nk], [$nr], [$block_bytes] and [$key_bytes] of each invocation. *)
Definition nb_of (v : variant) : nat :=
  match v with Kalyna128_128 | Kalyna128_256 => 2 | Kalyna256_256 | Kalyna256_512 => 4 | Kalyna512_512 => 8 end.
Definition nk_of (v : variant) : nat :=
  match v with Kalyna128_128 => 2 | Kalyna128_256 | Kalyna256_256 => 4 | Kalyna256_512 | Kalyna512_512 => 8 end.
Definition nr_of (v : variant) : nat :=
  match v with Kalyna128_128 => 10 | Kalyna128_256 | Kalyna256_256 => 14 | Kalyna256_512 | Kalyna512_512 => 18 end.
Definition block_bytes_of (v : variant) : nat :=
  match v with Kalyna128_128 | Kalyna128_256 => 16 | Kalyna256_256 | Kalyna256_512 => 32 | Kalyna512_512 => 64 end.
Definition key_bytes_of (v : variant) : nat :=
  match v with Kalyna128_128 => 16 | Kalyna128_256 | Kalyna256_256 => 32 | Kalyna256_512 | Kalyna512_512 => 64 end.

(** [Kalyna*::encrypt] and [Kalyna*::decrypt]. *)
Definition kalyna_encrypt (v : variant) (key block : list Z) : option (list Z) :=
  out ← encrypt_generic (nb_of v) (nr_of v) key block (nk_of v) (nr_of v);
  Some (take (block_bytes_of v) out).

Definition kalyna_decrypt (v : variant) (key block : list Z) : option (list Z) :=
  out ← decrypt_generic (nb_of v) (nr_of v) key block (nk_of v) (nr_of v);
  Some (take (block_bytes_of v) out).

(** [Kalyna*ExpandedKey]. *)
Record ExpandedKey (v : variant) : Type := {
  round_keys : RoundKeys;
  dec_keys : RoundKeys
}.
Arguments round_keys {v} _.
Arguments dec_keys {v} _.

Definition expanded_key_new (v : variant) (key : list Z) : option (ExpandedKey v) :=
  rks ← key_expand key (nb_of v) (nk_of v) (nr_of v);
  let dks := transform_keys_for_decrypt rks (nb_of v) (nr_of v) in
  Some {| round_keys := rks; dec_keys := dks |}.

Definition expanded_encrypt_block {v : variant} (self : ExpandedKey v) (block : list Z) : list Z :=
  take (block_bytes_of v) (encrypt_with_schedule (nb_of v) (nr_of v) (round_keys self) block).

Definition expanded_decrypt_block {v : variant} (self : ExpandedKey v) (block : list Z) : list Z :=
  take (block_bytes_of v)
    (decrypt_with_schedule (nb_of v) (nr_of v) (round_keys self) (dec_keys self) block).

(** * Reference forms *)

(** The three-pass round and the untransformed decryption, which the fused ones are checked against. *)
Definition naive_encipher_round (state : list (list Z)) : list (list Z) :=
  apply_forward_matrix (shift_rows (sub_bytes state)).

Definition naive_encrypt_with_schedule (round_keys : RoundKeys) (plaintext : list Z) (nb nr : nat)
    : list Z :=
  let state := take nb (columns_from_bytes plaintext nb) in
  let state := add_round_key state (take nb (round_key round_keys 0)) in
  let state :=
    foldl (λ state round_key, xor_round_key (encipher_round state) (take nb round_key))
      state (slice 1 nr round_keys) in
  let state := encipher_round state in
  let state := add_round_key state (take nb (round_key round_keys nr)) in
  bytes_from_columns nb state.

Definition naive_decrypt_with_schedule (round_keys : RoundKeys) (ciphertext : list Z) (nb nr : nat)
    : list Z :=
  let state := take nb (columns_from_bytes ciphertext nb) in
  let state := sub_round_key state (take nb (round_key round_keys nr)) in
  let state :=
    foldl (λ state round_key, xor_round_key (decipher_round state) (take nb round_key))
      state (reverse (slice 1 nr round_keys)) in
  let state := decipher_round state in
  let state := sub_round_key state (take nb (round_key round_keys 0)) in
  bytes_from_columns nb state.

(** * Shapes *)

(** The block sizes, in columns, that the variants instantiate. *)
Definition valid_nb (nb : nat) : Prop := nb = 2%nat ∨ nb = 4%nat ∨ nb = 8%nat.

(** Replaces a state by its bytes. *)
Ltac explode_state :=
  match goal with
  | H : state_ok _ ?s |- _ =>
      let Hl := fresh in let Hc := fresh in
      destruct H as [Hl Hc]; explode Hl; split_Forall;
      repeat match goal with
      | H : column_ok _ |- _ =>
          let Hl := fresh in let Hb := fresh in destruct H as [Hl Hb]; explode Hl; split_Forall
      end
  end.

Ltac each_nb H := destruct H as [-> | [-> | ->]].

Lemma state_ok_map nb f s :
  (∀ c, column_ok c → column_ok (f c)) → state_ok nb s → state_ok nb (map f s).
Proof.
  intros Hf [<- Hs]. split; [apply length_map|]. induction Hs; simpl; constructor; auto.
Qed.

Lemma state_ok_zip_mut nb f s k :
  (∀ c d, column_ok c → column_ok d → column_ok (f c d)) →
  state_ok nb s → Forall column_ok k → state_ok nb (zip_mut f s k).
Proof.
  intros Hf [<- Hs] Hk. split; [apply length_zip_mut|]. by apply (Forall_zip_mut _ _ column_ok).
Qed.

Lemma column_ok_imap f c :
  (∀ r b, byte_ok b → byte_ok (f r b)) → column_ok c → column_ok (imap f c).
Proof.
  intros Hf [Hl Hc]. split; [by rewrite length_imap|].
  apply Forall_lookup. intros i x Hx. rewrite list_lookup_imap in Hx.
  destruct (c !! i) as [b|] eqn:Hb; simplify_eq/=. apply Hf. by eapply Forall_lookup in Hc.
Qed.

Lemma sub_bytes_ok nb s : state_ok nb s → state_ok nb (sub_bytes s).
Proof. apply state_ok_map. intros. apply column_ok_imap; [apply sbox_ok|done]. Qed.

Lemma inv_sub_bytes_ok nb s : state_ok nb s → state_ok nb (inv_sub_bytes s).
Proof. apply state_ok_map. intros. apply column_ok_imap; [apply sbox_dec_ok|done]. Qed.

Lemma add_round_key_ok nb s k : state_ok nb s → Forall column_ok k → state_ok nb (add_round_key s k).
Proof. apply state_ok_zip_mut. intros. apply to_le_bytes_ok. Qed.

Lemma sub_round_key_ok nb s k : state_ok nb s → Forall column_ok k → state_ok nb (sub_round_key s k).
Proof. apply state_ok_zip_mut. intros. apply to_le_bytes_ok. Qed.

Lemma xor_round_key_ok nb s k : state_ok nb s → Forall column_ok k → state_ok nb (xor_round_key s k).
Proof. apply state_ok_zip_mut. intros c d Hc [_ Hd]. by apply array_ok_xor_into. Qed.

Lemma inv_shift_rows_ok nb s : valid_nb nb → state_ok nb s → state_ok nb (inv_shift_rows s).
Proof.
  intros Hnb Hs. each_nb Hnb; explode_state; lazy -[word_ok array_ok column_ok state_ok];
    repeat first [assumption | constructor].
Qed.

Lemma shift_rows_ok nb s : valid_nb nb → state_ok nb s → state_ok nb (shift_rows s).
Proof.
  intros Hnb Hs. each_nb Hnb; explode_state; lazy -[word_ok array_ok column_ok state_ok];
    repeat first [assumption | constructor].
Qed.

(** * Inverses of the layers *)

Lemma inv_shift_rows_shift_rows nb s : valid_nb nb → state_ok nb s → inv_shift_rows (shift_rows s) = s.
Proof. intros Hnb Hs. each_nb Hnb; explode_state; lazy; reflexivity. Qed.

Lemma shift_rows_inv_shift_rows nb s : valid_nb nb → state_ok nb s → shift_rows (inv_shift_rows s) = s.
Proof. intros Hnb Hs. each_nb Hnb; explode_state; lazy; reflexivity. Qed.

Lemma map_imap_cancel (f g : nat → Z → Z) nb s :
  (∀ r b, byte_ok b → g r (f r b) = b) → state_ok nb s → map (imap g) (map (imap f) s) = s.
Proof.
  intros Hfg [_ Hs]. rewrite map_map. induction Hs as [|c s [_ Hc] Hs IH]; simpl; [done|].
  f_equal; [|done]. apply list_eq. intros i. rewrite !list_lookup_imap.
  destruct (c !! i) as [b|] eqn:Hb; simpl; [|done]. f_equal. apply Hfg. by eapply Forall_lookup in Hc.
Qed.

Lemma inv_sub_bytes_sub_bytes nb s : state_ok nb s → inv_sub_bytes (sub_bytes s) = s.
Proof. apply map_imap_cancel. intros. by apply sbox_dec_sbox. Qed.

Lemma sub_bytes_inv_sub_bytes nb s : state_ok nb s → sub_bytes (inv_sub_bytes s) = s.
Proof. apply map_imap_cancel. intros. by apply sbox_sbox_dec. Qed.

Lemma column_u64 c : column_ok c → u64_ok (from_le_bytes c).
Proof. intros [Hl Hc]. apply from_le_bytes_bound in Hc. by rewrite Hl in Hc. Qed.

Lemma to_from_column c : column_ok c → to_le_bytes ROWS (from_le_bytes c) = c.
Proof. intros [Hl Hc]. rewrite <- Hl. by apply to_from_le_bytes. Qed.

Lemma from_to_column w : u64_ok w → from_le_bytes (to_le_bytes ROWS w) = w.
Proof. intros. by apply from_to_le_bytes_id. Qed.

Lemma sub_add_round_key s k :
  Forall column_ok s → Forall column_ok k → sub_round_key (add_round_key s k) k = s.
Proof.
  apply zip_mut_cancel. intros c d Hc Hd. unfold sub_column, add_column.
  rewrite from_to_column by (apply word_ok_wrap; lia).
  rewrite wrapping_add_sub by (done || by apply column_u64). by apply to_from_column.
Qed.

Lemma add_sub_round_key s k :
  Forall column_ok s → Forall column_ok k → add_round_key (sub_round_key s k) k = s.
Proof.
  apply zip_mut_cancel. intros c d Hc Hd. unfold sub_column, add_column.
  rewrite from_to_column by (apply word_ok_wrap; lia).
  rewrite wrapping_sub_add by (done || by apply column_u64). by apply to_from_column.
Qed.

Lemma xor_xor_round_key s k : xor_round_key (xor_round_key s k) k = s.
Proof.
  apply (zip_mut_cancel _ _ (λ _, True) (λ _, True)); [|by apply Forall_true..].
  intros. apply xor_into_cancel.
Qed.

(** * The fused rounds *)

(** Gathering with a fused contribution is substituting, shifting and mixing with the table. *)
Lemma gather_forward contribution sub table nb s :
  valid_nb nb → state_ok nb s →
  (∀ r b, (r < ROWS)%nat → byte_ok b → contribution r b = table_get table r (sub r b)) →
  encipher_round_n_with contribution nb s = apply_matrix (shift_rows (map (imap sub) s)) table.
Proof.
  intros Hnb Hs He. unfold apply_matrix.
  assert (encipher_round_n_with contribution nb s =
    encipher_round_n_with (λ r b, table_get table r (sub r b)) nb s) as ->.
  - each_nb Hnb; explode_state; cbv -[Z.lxor to_le_bytes table_get word_ok];
      repeat (rewrite He; [|by repeat constructor|done]); done.
  - each_nb Hnb; explode_state; cbv -[Z.lxor to_le_bytes table_get]; reflexivity.
Qed.

Lemma gather_inverse contribution sub table nb s :
  valid_nb nb → state_ok nb s →
  (∀ r b, (r < ROWS)%nat → byte_ok b → contribution r b = table_get table r (sub r b)) →
  fused_inv_round_n_with contribution nb s = apply_matrix (inv_shift_rows (map (imap sub) s)) table.
Proof.
  intros Hnb Hs He. unfold apply_matrix.
  assert (fused_inv_round_n_with contribution nb s =
    fused_inv_round_n_with (λ r b, table_get table r (sub r b)) nb s) as ->.
  - each_nb Hnb; explode_state; cbv -[Z.lxor to_le_bytes table_get word_ok];
      repeat (rewrite He; [|by repeat constructor|done]); done.
  - each_nb Hnb; explode_state; cbv -[Z.lxor to_le_bytes table_get]; reflexivity.
Qed.

Lemma encipher_round_n_naive nb s :
  valid_nb nb → state_ok nb s → encipher_round_n nb s = naive_encipher_round s.
Proof. intros. apply (gather_forward _ sbox); [done..|]. intros. by apply forward_sbox_mds_eq. Qed.

Lemma encipher_round_n_small_naive nb s :
  valid_nb nb → state_ok nb s → encipher_round_n_small nb s = naive_encipher_round s.
Proof.
  intros. apply (gather_forward _ sbox); [done..|]. intros.
  rewrite forward_sbox_mds_small_eq by done. by apply forward_sbox_mds_eq.
Qed.

Lemma fused_inv_round_n_passes nb s :
  valid_nb nb → state_ok nb s →
  fused_inv_round_n nb s = apply_inverse_matrix (inv_shift_rows (inv_sub_bytes s)).
Proof. intros. apply (gather_inverse _ sbox_dec); [done..|]. intros. by apply inverse_sbox_mds_eq. Qed.

Lemma fused_inv_round_n_small_passes nb s :
  valid_nb nb → state_ok nb s →
  fused_inv_round_n_small nb s = apply_inverse_matrix (inv_shift_rows (inv_sub_bytes s)).
Proof.
  intros. apply (gather_inverse _ sbox_dec); [done..|]. intros.
  rewrite inverse_sbox_mds_small_eq by done. by apply inverse_sbox_mds_eq.
Qed.

Lemma encipher_round_is_n nb s : length s = nb → encipher_round s = encipher_round_n nb s.
Proof. by intros <-. Qed.

Lemma fused_inv_round_is_n nb s : length s = nb → fused_inv_round s = fused_inv_round_n nb s.
Proof. by intros <-. Qed.

Lemma encipher_round_n_ok nb s : valid_nb nb → state_ok nb s → state_ok nb (encipher_round_n nb s).
Proof.
  intros. rewrite encipher_round_n_naive by done.
  by apply apply_matrix_ok, shift_rows_ok, sub_bytes_ok.
Qed.

Lemma fused_inv_round_n_ok nb s : valid_nb nb → state_ok nb s → state_ok nb (fused_inv_round_n nb s).
Proof.
  intros. rewrite fused_inv_round_n_passes by done.
  by apply apply_matrix_ok, inv_shift_rows_ok, inv_sub_bytes_ok.
Qed.

Lemma decipher_round_ok nb s : valid_nb nb → state_ok nb s → state_ok nb (decipher_round s).
Proof. intros. by apply inv_sub_bytes_ok, inv_shift_rows_ok, apply_matrix_ok. Qed.

Lemma decipher_encipher nb s :
  valid_nb nb → state_ok nb s → decipher_round (encipher_round_n nb s) = s.
Proof.
  intros Hnb Hs. rewrite encipher_round_n_naive by done. unfold decipher_round, naive_encipher_round.
  pose proof (sub_bytes_ok nb s Hs) as Hs1. pose proof (shift_rows_ok nb _ Hnb Hs1) as Hs2.
  rewrite (apply_inverse_forward nb), (inv_shift_rows_shift_rows nb) by done.
  by apply (inv_sub_bytes_sub_bytes nb).
Qed.

Lemma encipher_decipher nb s :
  valid_nb nb → state_ok nb s → encipher_round_n nb (decipher_round s) = s.
Proof.
  intros Hnb Hs. rewrite encipher_round_n_naive by (done || by apply decipher_round_ok).
  unfold decipher_round, naive_encipher_round.
  pose proof (apply_matrix_ok nb s MDS_INV_TABLE Hs) as Hs1.
  pose proof (inv_shift_rows_ok nb _ Hnb Hs1) as Hs2.
  rewrite (sub_bytes_inv_sub_bytes nb), (shift_rows_inv_shift_rows nb) by done.
  by apply (apply_forward_inverse nb).
Qed.

Lemma inv_sub_shift_commute nb s :
  valid_nb nb → state_ok nb s →
  inv_sub_bytes (inv_shift_rows s) = inv_shift_rows (inv_sub_bytes s).
Proof. intros Hnb Hs. each_nb Hnb; explode_state; cbv -[sbox_dec]; reflexivity. Qed.

(** The inverse MDS layer distributes over the addition of a round key. *)
Lemma apply_inverse_matrix_xor nb s k :
  state_ok nb s → state_ok nb k →
  apply_inverse_matrix (xor_round_key s k) =
    xor_round_key (apply_inverse_matrix s) (apply_inverse_matrix k).
Proof.
  intros [Hl Hs] [Hl' Hk]. rewrite <- Hl in Hl'. clear Hl.
  unfold apply_inverse_matrix, apply_matrix, xor_round_key. revert k Hl' Hk.
  induction Hs as [|c s Hc Hs IH]; intros [|d k] Hl Hk; try done.
  cbn [zip_mut map]. apply Forall_cons in Hk as [Hd Hk]. injection Hl as Hl. f_equal; [|by apply IH].
  rewrite column_word_xor by (done || apply mds_inv_table_linear). apply to_le_bytes_xor.
Qed.

(** * Blocks and columns *)

Lemma columns_from_bytes_chunks bytes nb :
  (nb ≤ MAX_NB)%nat →
  take nb (columns_from_bytes bytes nb) = map (λ c, slice (c * ROWS) ((c + 1) * ROWS) bytes) (seq 0 nb).
Proof.
  intros Hnb. unfold MAX_NB in Hnb.
  do 9 (destruct nb as [|nb]; [reflexivity|]). lia.
Qed.

Lemma columns_from_bytes_state bytes nb :
  (nb ≤ MAX_NB)%nat → array_ok (nb * ROWS) bytes → state_ok nb (take nb (columns_from_bytes bytes nb)).
Proof.
  intros Hnb [Hl Hb]. rewrite columns_from_bytes_chunks by done. split; [by rewrite length_map, length_seq|].
  apply Forall_forall. intros c Hc. apply list_elem_of_In, in_map_iff in Hc as (i & <- & Hi).
  apply in_seq in Hi. unfold slice. split; [|by apply Forall_take, Forall_drop].
  rewrite length_take, length_drop. unfold ROWS in *. lia.
Qed.

Lemma concat_slices {A} (bytes : list A) n k :
  (n * k ≤ length bytes)%nat →
  concat (map (λ c, slice (c * k) ((c + 1) * k) bytes) (seq 0 n)) = take (n * k) bytes.
Proof.
  induction n as [|n IH]; intros Hl; [done|].
  rewrite seq_S, map_app, concat_app, IH by lia. simpl. rewrite app_nil_r. unfold slice.
  replace ((n + 1) * k - n * k)%nat with k by lia. rewrite take_take_drop. f_equal. lia.
Qed.

Lemma concat_columns_from_bytes bytes nb :
  (nb ≤ MAX_NB)%nat → length bytes = (nb * ROWS)%nat →
  concat (take nb (columns_from_bytes bytes nb)) = bytes.
Proof.
  intros Hnb Hl. rewrite columns_from_bytes_chunks by done. rewrite concat_slices by lia.
  apply take_ge. lia.
Qed.

Lemma take_bytes_from_columns nb s :
  valid_nb nb → state_ok nb s → take (nb * ROWS) (bytes_from_columns nb s) = concat s.
Proof. intros Hnb Hs. each_nb Hnb; explode_state; reflexivity. Qed.

Lemma columns_of_concat nb s :
  valid_nb nb → state_ok nb s → take nb (columns_from_bytes (concat s) nb) = s.
Proof. intros Hnb Hs. each_nb Hnb; explode_state; reflexivity. Qed.

Lemma concat_state_ok nb s : state_ok nb s → array_ok (nb * ROWS) (concat s).
Proof.
  intros [<- Hs]. induction Hs as [|c s Hc Hs IH]; [by split|].
  exact (array_ok_app _ _ _ _ Hc IH).
Qed.

(** * Running a schedule *)

Definition valid_nr (nr : nat) : Prop := nr = 10%nat ∨ nr = 14%nat ∨ nr = 18%nat.

(** A key schedule: every round key is a buffer of [MAX_NB] columns. *)
Definition round_keys_ok (rks : RoundKeys) : Prop :=
  length rks = ROUND_KEYS_LEN ∧ Forall (state_ok MAX_NB) rks.

#[global] Instance round_keys_ok_dec rks : Decision (round_keys_ok rks).
Proof. unfold round_keys_ok. apply _. Defined.

Lemma valid_nb_le nb : valid_nb nb → (0 < nb ≤ MAX_NB)%nat.
Proof. intros [-> | [-> | ->]]; unfold MAX_NB; lia. Qed.

Lemma state_ok_take (nb n : nat) s : state_ok n s → (nb ≤ n)%nat → state_ok nb (take nb s).
Proof. intros [<- Hs] Hle. split; [rewrite length_take; lia|by apply Forall_take]. Qed.

Lemma round_key_ok rks i nb :
  round_keys_ok rks → (i < ROUND_KEYS_LEN)%nat → (nb ≤ MAX_NB)%nat →
  state_ok nb (take nb (round_key rks i)).
Proof.
  intros [Hl Hr] Hi Hnb. apply (state_ok_take _ MAX_NB); [|done].
  unfold round_key. rewrite nth_lookup.
  destruct (lookup_lt_is_Some_2 rks i) as [k Hk]; [lia|]. rewrite Hk. by eapply Forall_lookup in Hr.
Qed.

Lemma encrypt_indices nr : valid_nr nr → encrypt_round_indices nr = seq 1 (nr - 1).
Proof. by intros [-> | [-> | ->]]. Qed.

Lemma decrypt_indices nr : valid_nr nr → decrypt_round_indices nr = reverse (seq 1 (nr - 1)).
Proof. by intros [-> | [-> | ->]]. Qed.

Section schedule.
Context (nb nr : nat) (Hnb : valid_nb nb) (Hnr : valid_nr nr).
Context (rks : RoundKeys) (Hrks : round_keys_ok rks).

Local Abbreviation key i := (take nb (round_key rks i)).

Lemma nb_le : (nb ≤ MAX_NB)%nat.
Proof using Hnb. apply valid_nb_le in Hnb. lia. Qed.

Lemma state_key_ok i : (i ≤ nr)%nat → state_ok nb (key i).
Proof using Hnb Hnr Hrks.
  intros Hi. apply round_key_ok; [done| |apply nb_le].
  unfold ROUND_KEYS_LEN. destruct Hnr as [-> | [-> | ->]]; lia.
Qed.

Lemma key_columns i : (i ≤ nr)%nat → Forall column_ok (key i).
Proof using Hnb Hnr Hrks. intros Hi. apply (state_key_ok i Hi). Qed.

(** The interior rounds of the two directions. *)
Definition forward_rounds (idx : list nat) (s : list (list Z)) : list (list Z) :=
  unroll_rounds (encipher_round_n nb) rks nb idx s.
Definition backward_rounds (idx : list nat) (s : list (list Z)) : list (list Z) :=
  foldl (λ s i, xor_round_key (decipher_round s) (key i)) s idx.

Lemma forward_rounds_cons i idx s :
  forward_rounds (i :: idx) s = forward_rounds idx (xor_round_key (encipher_round_n nb s) (key i)).
Proof using Type. done. Qed.

Lemma backward_rounds_snoc idx i s :
  backward_rounds (idx ++ [i]) s = xor_round_key (decipher_round (backward_rounds idx s)) (key i).
Proof using Type. unfold backward_rounds. by rewrite foldl_app. Qed.

Lemma forward_rounds_ok idx s :
  Forall (λ i, i ≤ nr)%nat idx → state_ok nb s → state_ok nb (forward_rounds idx s).
Proof using Hnb Hnr Hrks.
  intros Hidx. revert s. induction Hidx as [|i idx Hi Hidx IH]; intros s Hs; simpl; [done|].
  apply IH, xor_round_key_ok; [by apply encipher_round_n_ok|by apply key_columns].
Qed.

Lemma backward_rounds_ok idx s :
  Forall (λ i, i ≤ nr)%nat idx → state_ok nb s → state_ok nb (backward_rounds idx s).
Proof using Hnb Hnr Hrks.
  intros Hidx. revert s. induction Hidx as [|i idx Hi Hidx IH]; intros s Hs; simpl; [done|].
  apply IH, xor_round_key_ok; [by apply decipher_round_ok|by apply key_columns].
Qed.

Lemma indices_le : Forall (λ i, i ≤ nr)%nat (seq 1 (nr - 1)).
Proof using Type.
  apply Forall_forall. intros i Hi. apply list_elem_of_In, in_seq in Hi. lia.
Qed.

(** Backward rounds undo forward rounds, the final unkeyed round included. *)
Lemma backward_forward idx s :
  Forall (λ i, i ≤ nr)%nat idx → state_ok nb s →
  decipher_round (backward_rounds (reverse idx) (encipher_round_n nb (forward_rounds idx s))) = s.
Proof using Hnb Hnr Hrks.
  intros Hidx. revert s. induction Hidx as [|i idx Hi Hidx IH]; intros s Hs.
  - simpl. by apply decipher_encipher.
  - rewrite reverse_cons, backward_rounds_snoc, forward_rounds_cons.
    set (s1 := xor_round_key (encipher_round_n nb s) (key i)).
    assert (state_ok nb s1) as Hs1.
    { apply xor_round_key_ok; [by apply encipher_round_n_ok|by apply key_columns]. }
    rewrite (IH s1 Hs1). unfold s1. rewrite xor_xor_round_key. by apply decipher_encipher.
Qed.

Lemma forward_backward idx s :
  Forall (λ i, i ≤ nr)%nat idx → state_ok nb s →
  encipher_round_n nb (forward_rounds idx (decipher_round (backward_rounds (reverse idx) s))) = s.
Proof using Hnb Hnr Hrks.
  intros Hidx. induction Hidx as [|i idx Hi Hidx IH]; intros Hs.
  - simpl. by apply encipher_decipher.
  - rewrite reverse_cons, backward_rounds_snoc, forward_rounds_cons.
    set (s1 := backward_rounds (reverse idx) s) in *.
    assert (state_ok nb s1) as Hs1 by (apply backward_rounds_ok; [by apply Forall_reverse|done]).
    pose proof (decipher_round_ok nb s1 Hnb Hs1) as Hs2.
    rewrite encipher_decipher by (done || (apply xor_round_key_ok; [done|by apply key_columns])).
    rewrite xor_xor_round_key. by apply IH.
Qed.

(** The restructured rounds with transformed keys follow the plain ones through the inverse MDS
    layer. *)
Lemma fused_rounds_follow idx s :
  Forall (λ i, 1 ≤ i < nr)%nat idx → state_ok nb s →
  unroll_rounds (fused_inv_round_n nb) (transform_keys_for_decrypt rks nb nr) nb idx
    (apply_inverse_matrix s) =
  apply_inverse_matrix (backward_rounds idx s).
Proof using Hnb Hnr Hrks.
  intros Hidx. revert s. induction Hidx as [|i idx Hi Hidx IH]; intros s Hs; simpl; [done|].
  rewrite <- IH.
  2: { apply xor_round_key_ok; [by apply decipher_round_ok|apply key_columns; lia]. }
  f_equal. pose proof (apply_matrix_ok nb s MDS_INV_TABLE Hs) as Hm.
  rewrite (apply_inverse_matrix_xor nb) by first [by apply decipher_round_ok | apply state_key_ok; lia].
  rewrite fused_inv_round_n_passes by done. f_equal.
  - f_equal. symmetry. by apply (inv_sub_shift_commute nb).
  - unfold transform_keys_for_decrypt, round_key. rewrite !nth_lookup, list_lookup_imap.
    destruct (rks !! i) as [k|] eqn:Hk.
    + cbn [fmap option_fmap option_map default from_option id]. rewrite decide_True by lia.
      apply take_on_prefix.
      intros l. apply length_map.
    + apply lookup_ge_None in Hk. destruct Hrks as [Hl _]. rewrite Hl in Hk. unfold ROUND_KEYS_LEN in Hk.
      destruct Hnr as [-> | [-> | ->]]; lia.
Qed.
End schedule.

(** * Encryption and decryption with a schedule *)

Section schedule_theorems.
Context (nb nr : nat) (Hnb : valid_nb nb) (Hnr : valid_nr nr).
Context (rks : RoundKeys) (Hrks : round_keys_ok rks).

Local Abbreviation key i := (take nb (round_key rks i)).
Local Abbreviation dks := (transform_keys_for_decrypt rks nb nr).

(** The state transformations between the byte conversions. *)
Definition encrypt_state (s : list (list Z)) : list (list Z) :=
  add_round_key
    (encipher_round_n nb (forward_rounds nb rks (encrypt_round_indices nr) (add_round_key s (key 0))))
    (key nr).
Definition decrypt_state (s : list (list Z)) : list (list Z) :=
  sub_round_key
    (decipher_round (backward_rounds nb rks (decrypt_round_indices nr) (sub_round_key s (key nr))))
    (key 0).

Lemma key_nr_ok : state_ok nb (key nr).
Proof using Hnb Hnr Hrks. by eapply state_key_ok. Qed.
Lemma key_0_ok : state_ok nb (key 0).
Proof using Hnb Hnr Hrks. eapply state_key_ok; try done. lia. Qed.
Lemma key_nr_columns : Forall column_ok (key nr).
Proof using Hnb Hnr Hrks. apply key_nr_ok. Qed.
Lemma key_0_columns : Forall column_ok (key 0).
Proof using Hnb Hnr Hrks. apply key_0_ok. Qed.

Lemma decrypt_indices_in : Forall (λ i, 1 ≤ i < nr)%nat (decrypt_round_indices nr).
Proof using Hnr.
  rewrite decrypt_indices by done. apply Forall_reverse, Forall_forall.
  intros i Hi. apply list_elem_of_In, in_seq in Hi. lia.
Qed.

Lemma forward_state_ok s :
  state_ok nb s → state_ok nb (forward_rounds nb rks (encrypt_round_indices nr) s).
Proof using Hnb Hnr Hrks.
  intros. rewrite encrypt_indices by done. apply (forward_rounds_ok nb nr); try done.
  apply indices_le.
Qed.

Lemma backward_state_ok s :
  state_ok nb s → state_ok nb (backward_rounds nb rks (decrypt_round_indices nr) s).
Proof using Hnb Hnr Hrks.
  intros. rewrite decrypt_indices by done. apply (backward_rounds_ok nb nr); try done.
  apply Forall_reverse, indices_le.
Qed.

Lemma encrypt_state_ok s : state_ok nb s → state_ok nb (encrypt_state s).
Proof using Hnb Hnr Hrks.
  intros. apply add_round_key_ok; [|apply key_nr_columns].
  apply encipher_round_n_ok, forward_state_ok, add_round_key_ok, key_0_columns; done.
Qed.

Lemma decrypt_state_ok s : state_ok nb s → state_ok nb (decrypt_state s).
Proof using Hnb Hnr Hrks.
  intros. apply sub_round_key_ok; [|apply key_0_columns].
  apply decipher_round_ok, backward_state_ok, sub_round_key_ok, key_nr_columns; done.
Qed.

Lemma decrypt_encrypt_state s : state_ok nb s → decrypt_state (encrypt_state s) = s.
Proof using Hnb Hnr Hrks.
  intros Hs. unfold decrypt_state, encrypt_state.
  pose proof (add_round_key_ok nb s _ Hs key_0_columns) as Hs1.
  pose proof (encipher_round_n_ok nb _ Hnb (forward_state_ok _ Hs1)) as [_ Hs2].
  rewrite sub_add_round_key by (done || apply key_nr_columns).
  rewrite encrypt_indices, decrypt_indices by done.
  rewrite (backward_forward nb nr) by (done || apply indices_le).
  apply sub_add_round_key; [apply Hs|apply key_0_columns].
Qed.

Lemma encrypt_decrypt_state s : state_ok nb s → encrypt_state (decrypt_state s) = s.
Proof using Hnb Hnr Hrks.
  intros Hs. unfold decrypt_state, encrypt_state.
  pose proof (sub_round_key_ok nb s _ Hs key_nr_columns) as Hs1.
  pose proof (decipher_round_ok nb _ Hnb (backward_state_ok _ Hs1)) as [_ Hs2].
  rewrite add_sub_round_key by (done || apply key_0_columns).
  rewrite encrypt_indices, decrypt_indices by done.
  rewrite (forward_backward nb nr) by (done || apply indices_le).
  apply add_sub_round_key; [apply Hs|apply key_nr_columns].
Qed.

Lemma decrypt_with_schedule_state ciphertext :
  array_ok (nb * ROWS) ciphertext →
  decrypt_with_schedule nb nr rks dks ciphertext =
    bytes_from_columns nb (decrypt_state (take nb (columns_from_bytes ciphertext nb))).
Proof using Hnb Hnr Hrks.
  intros Hc. pose proof (columns_from_bytes_state _ nb (nb_le nb Hnb) Hc) as Hs.
  unfold decrypt_with_schedule, decrypt_state. do 2 f_equal.
  pose proof (sub_round_key_ok nb _ _ Hs key_nr_columns) as Hs1.
  rewrite (fused_rounds_follow nb nr) by (done || apply decrypt_indices_in). done.
Qed.

(** The block functions: both directions on the [nb * ROWS] bytes of a block. *)
Definition encrypt_bytes (block : list Z) : list Z :=
  take (nb * ROWS) (encrypt_with_schedule nb nr rks block).
Definition decrypt_bytes (block : list Z) : list Z :=
  take (nb * ROWS) (decrypt_with_schedule nb nr rks dks block).

Lemma encrypt_bytes_state block :
  array_ok (nb * ROWS) block →
  encrypt_bytes block = concat (encrypt_state (take nb (columns_from_bytes block nb))).
Proof using Hnb Hnr Hrks.
  intros Hb. unfold encrypt_bytes.
  change (encrypt_with_schedule nb nr rks block)
    with (bytes_from_columns nb (encrypt_state (take nb (columns_from_bytes block nb)))).
  apply take_bytes_from_columns; [done|].
  apply encrypt_state_ok, columns_from_bytes_state; [by apply nb_le|done].
Qed.

Lemma decrypt_bytes_state block :
  array_ok (nb * ROWS) block →
  decrypt_bytes block = concat (decrypt_state (take nb (columns_from_bytes block nb))).
Proof using Hnb Hnr Hrks.
  intros Hb. unfold decrypt_bytes. rewrite decrypt_with_schedule_state by done.
  apply take_bytes_from_columns; [done|].
  apply decrypt_state_ok, columns_from_bytes_state; [by apply nb_le|done].
Qed.

Lemma encrypt_bytes_ok block : array_ok (nb * ROWS) block → array_ok (nb * ROWS) (encrypt_bytes block).
Proof using Hnb Hnr Hrks.
  intros Hb. rewrite encrypt_bytes_state by done.
  apply concat_state_ok, encrypt_state_ok, columns_from_bytes_state; [by apply nb_le|done].
Qed.

Lemma decrypt_bytes_ok block : array_ok (nb * ROWS) block → array_ok (nb * ROWS) (decrypt_bytes block).
Proof using Hnb Hnr Hrks.
  intros Hb. rewrite decrypt_bytes_state by done.
  apply concat_state_ok, decrypt_state_ok, columns_from_bytes_state; [by apply nb_le|done].
Qed.

Lemma decrypt_encrypt_bytes block :
  array_ok (nb * ROWS) block → decrypt_bytes (encrypt_bytes block) = block.
Proof using Hnb Hnr Hrks.
  intros Hb. pose proof (columns_from_bytes_state _ nb (nb_le nb Hnb) Hb) as Hs.
  rewrite decrypt_bytes_state by (by apply encrypt_bytes_ok).
  rewrite encrypt_bytes_state by done.
  rewrite columns_of_concat by (done || by apply encrypt_state_ok).
  rewrite decrypt_encrypt_state by done.
  apply concat_columns_from_bytes; [by apply nb_le|apply Hb].
Qed.

Lemma encrypt_decrypt_bytes block :
  array_ok (nb * ROWS) block → encrypt_bytes (decrypt_bytes block) = block.
Proof using Hnb Hnr Hrks.
  intros Hb. pose proof (columns_from_bytes_state _ nb (nb_le nb Hnb) Hb) as Hs.
  rewrite encrypt_bytes_state by (by apply decrypt_bytes_ok).
  rewrite decrypt_bytes_state by done.
  rewrite columns_of_concat by (done || by apply decrypt_state_ok).
  rewrite encrypt_decrypt_state by done.
  apply concat_columns_from_bytes; [by apply nb_le|apply Hb].
Qed.
End schedule_theorems.

(** * The key schedule *)

(** One word rotation to the left. *)
Definition rotl (l : list (list Z)) : list (list Z) := drop 1 l ++ take 1 l.

(** The first [n] columns of a [MAX_NB] buffer hold [s], the rest is zero. *)
Definition buffer_of (s : list (list Z)) : list (list Z) := pad_columns s.

Lemma pad_columns_ok nb s : state_ok nb s → (nb ≤ MAX_NB)%nat → state_ok MAX_NB (pad_columns s).
Proof.
  intros [<- Hs] Hle. split; [unfold pad_columns; rewrite length_app, length_replicate; lia|].
  apply Forall_app. split; [done|]. apply Forall_replicate, array_ok_zeros.
Qed.

Lemma take_pad_columns nb s : length s = nb → take nb (pad_columns s) = s.
Proof. intros <-. apply take_app_length. Qed.

Lemma zero_state_ok n : state_ok n (replicate n ZERO_COLUMN).
Proof. split; [apply length_replicate|apply Forall_replicate, array_ok_zeros]. Qed.

Lemma on_prefix_ok nb n f s :
  (nb ≤ n)%nat → (∀ s, state_ok nb s → state_ok nb (f s)) → state_ok n s → state_ok n (on_prefix nb f s).
Proof.
  intros Hle Hf Hs. pose proof (state_ok_take _ _ _ Hs Hle) as Ht. apply Hf in Ht as [Hl Hc].
  destruct Hs as [<- Hs]. split.
  - unfold on_prefix. rewrite length_app, Hl, length_drop. lia.
  - apply Forall_app. split; [done|by apply Forall_drop].
Qed.

Lemma columns_from_bytes_ok bytes count :
  (count ≤ MAX_NB)%nat → bytes_ok bytes → (count * ROWS ≤ length bytes)%nat →
  state_ok MAX_NB (columns_from_bytes bytes count).
Proof.
  intros Hc Hb Hl. unfold columns_from_bytes.
  assert (∀ l out, Forall (λ c, c < count)%nat l → state_ok MAX_NB out → state_ok MAX_NB
    (foldl (λ out c, <[c := slice (c * ROWS) ((c + 1) * ROWS) bytes]> out) out l)) as H.
  - induction l as [|c l IH]; intros out Hin Hout; simpl; [done|].
    apply Forall_cons in Hin as [Hin Hl']. apply IH; [done|]. destruct Hout as [Ho Ho'].
    split; [by rewrite length_insert|]. apply Forall_insert; [done|]. split.
    + unfold slice. rewrite length_take, length_drop. unfold ROWS in *. lia.
    + apply Forall_take, Forall_drop, Hb.
  - apply H; [|apply zero_state_ok]. apply Forall_forall. intros c Hin.
    apply list_elem_of_In, in_seq in Hin. lia.
Qed.

Lemma encipher_round_ok nb s : valid_nb nb → state_ok nb s → state_ok nb (encipher_round s).
Proof. intros Hnb Hs. rewrite (encipher_round_is_n nb) by apply Hs. by apply encipher_round_n_ok. Qed.

Lemma key_expand_kt_ok key nb nk :
  valid_nb nb → bytes_ok key → (nb * ROWS ≤ length key)%nat →
  (nk ≠ nb → 2 * nb * ROWS ≤ length key)%nat →
  state_ok MAX_NB (key_expand_kt key nb nk).
Proof.
  intros Hnb Hk Hl Hl2. pose proof (valid_nb_le nb Hnb) as Hle. unfold key_expand_kt.
  assert (Forall column_ok (take nb (columns_from_bytes key nb))) as Hk0.
  { apply Forall_take, columns_from_bytes_ok; [lia|done..]. }
  assert (Forall column_ok (take nb (if (nk =? nb)%nat then columns_from_bytes key nb
    else columns_from_bytes (drop (nb * ROWS) key) nb))) as Hk1.
  { apply Forall_take. destruct (Nat.eqb_spec nk nb); apply columns_from_bytes_ok; try done; try lia.
    - by apply Forall_drop.
    - rewrite length_drop. lia. }
  do 6 (apply on_prefix_ok; [lia|intros s Hs; by first
    [apply encipher_round_ok | apply add_round_key_ok | apply xor_round_key_ok]|]).
  destruct (zero_state_ok MAX_NB) as [Hz Hz']. split; [done|].
  apply Forall_insert; [done|apply to_le_bytes_ok].
Qed.

Lemma set_round_key_ok rks i nb k :
  (nb ≤ MAX_NB)%nat → round_keys_ok rks → state_ok MAX_NB k → round_keys_ok (set_round_key rks i nb k).
Proof.
  intros Hle [Hl Hr] Hk. unfold set_round_key. split; [by rewrite length_alter|]. apply Forall_alter; [done|].
  intros old _ [Ho Ho']. destruct Hk as [Hk Hk']. split.
  - rewrite length_app, length_take, length_drop. lia.
  - apply Forall_app. split; [by apply Forall_take|by apply Forall_drop].
Qed.

Lemma round_key_from_ok nb base tmp :
  valid_nb nb → state_ok nb base → Forall column_ok tmp → state_ok MAX_NB (round_key_from base tmp).
Proof.
  intros Hnb Hb Ht. pose proof (valid_nb_le nb Hnb) as Hle. apply (pad_columns_ok nb); [|lia].
  apply add_round_key_ok; [|done]. apply encipher_round_ok; [done|].
  apply xor_round_key_ok; [|done]. apply encipher_round_ok; [done|]. by apply add_round_key_ok.
Qed.

Lemma mod_add_columns_ok a b : state_ok MAX_NB (mod_add_columns a b).
Proof.
  unfold mod_add_columns. destruct (zero_state_ok MAX_NB) as [Hl Hz].
  split; [by rewrite length_zip_mut|].
  apply (Forall_zip_mut _ _ (λ _, True)); [|done|by apply Forall_true].
  intros. apply to_le_bytes_ok.
Qed.

Lemma take_mod_add_columns a b :
  length a = length b → (length a ≤ MAX_NB)%nat →
  take (length a) (mod_add_columns a b) = add_round_key a b.
Proof.
  unfold mod_add_columns, add_round_key. generalize MAX_NB. revert b.
  induction a as [|x a IH]; intros [|y b] n Hl Hle; try done. simpl in *.
  destruct n as [|n]; [lia|]. simpl. f_equal. apply IH; lia.
Qed.

Lemma rotate_words_left_rotl nk buf :
  valid_nb nk → length buf = nk → rotate_words_left buf nk = rotl buf.
Proof. intros Hnk Hl. each_nb Hnk; explode Hl; reflexivity. Qed.

Lemma rotate_words_left_ok nk buf :
  valid_nb nk → state_ok nk buf → state_ok nk (rotate_words_left buf nk).
Proof.
  intros Hnk [Hl Hb]. rewrite rotate_words_left_rotl by done. unfold rotl. split.
  - rewrite length_app, length_drop, length_take. lia.
  - apply Forall_app. split; [by apply Forall_drop|by apply Forall_take].
Qed.

Lemma shift_left_words_ok nb s : state_ok nb s → state_ok nb (shift_left_words s).
Proof. apply state_ok_map. intros. apply to_le_bytes_ok. Qed.

Lemma initial_tmv_ok nb : (nb ≤ MAX_NB)%nat → state_ok MAX_NB (initial_tmv nb).
Proof.
  intros Hle. apply on_prefix_ok; [done| |apply zero_state_ok].
  intros s. apply state_ok_map. intros. apply to_le_bytes_ok.
Qed.

(** The key sizes, in columns, of the variants: as many words as the block, or twice as many. *)
Definition valid_nk (nb nk : nat) : Prop := valid_nb nk ∧ (nk = nb ∨ nk = 2 * nb)%nat.

Lemma take_ok nb s : (nb ≤ MAX_NB)%nat → state_ok MAX_NB s → state_ok nb (take nb s).
Proof. intros. by eapply state_ok_take. Qed.

Lemma slice_ok nb nk s :
  valid_nk nb nk → nk ≠ nb → state_ok MAX_NB s → state_ok nb (slice nb nk s).
Proof.
  intros [Hnk [-> | ->]] Hne [Hl Hs]; [done|]. apply valid_nb_le in Hnk. unfold slice. split.
  - rewrite length_take, length_drop. lia.
  - apply Forall_take, Forall_drop, Hs.
Qed.

(** The loop ends within its fuel and keeps the shape of the schedule. *)
Lemma key_expand_even_loop_ok fuel kt nb nk nr data tmv round rks :
  valid_nb nb → valid_nk nb nk → Nat.Even (nr - round) → (round ≤ nr)%nat → (nr - round < fuel)%nat →
  state_ok MAX_NB data → state_ok MAX_NB tmv → round_keys_ok rks →
  ∃ rks', key_expand_even_loop fuel kt nb nk nr data tmv round rks = Some rks' ∧ round_keys_ok rks'.
Proof.
  intros Hnb Hnk. pose proof (valid_nb_le nb Hnb) as Hle.
  pose proof (valid_nb_le nk (proj1 Hnk)) as Hlek.
  revert data tmv round rks. induction fuel as [|fuel IH]; intros data tmv round rks Hev Hr Hf Hd Ht Hk; [lia|].
  assert (∀ d t r ks, Nat.Even (nr - r) → (r ≤ nr)%nat → (nr - r < fuel)%nat →
    state_ok MAX_NB d → state_ok MAX_NB t → round_keys_ok ks →
    ∃ rks', key_expand_even_loop fuel kt nb nk nr (on_prefix nk (λ d, rotate_words_left d nk) d)
      (on_prefix nb shift_left_words t) r ks = Some rks' ∧ round_keys_ok rks') as IH'.
  { intros d t r ks ? ? ? ? ? ?. apply IH; try done; apply on_prefix_ok; try done; try lia.
    - intros. by apply rotate_words_left_ok; [apply Hnk|].
    - intros. by apply shift_left_words_ok. }
  assert (∀ base t ks i, state_ok nb base → round_keys_ok ks → round_keys_ok (set_round_key ks i nb
    (round_key_from base (take nb (mod_add_columns (take nb kt) (take nb t)))))) as Hset.
  { intros. apply set_round_key_ok; [lia|done|]. apply (round_key_from_ok nb); [done..|].
    apply Forall_take, mod_add_columns_ok. }
  assert (∀ r, Nat.Even (nr - r) → (r ≤ nr)%nat → r ≠ nr → Nat.Even (nr - (r + 2)) ∧ (r + 2 ≤ nr)%nat) as Hstep.
  { intros r [m Hm] ? ?. split; [exists (m - 1)%nat; lia|lia]. }
  cbn [key_expand_even_loop]. pose proof (take_ok nb data ltac:(lia) Hd) as Hda.
  destruct (Nat.eqb_spec round nr) as [|Hne]; [eauto|]. destruct (Hstep round Hev Hr Hne) as [Hev2 Hr2].
  destruct (Nat.eqb_spec nk nb) as [|Hnn]; simpl negb; cbn iota.
  - apply IH'; try done; [lia|]. by apply Hset.
  - destruct (Nat.eqb_spec (round + 2) nr) as [|Hne2]; [eexists; split; [done|]|].
    + apply Hset; [by apply slice_ok|by apply Hset].
    + destruct (Hstep _ Hev2 Hr2 Hne2) as [Hev4 Hr4]. apply IH'; try done; [lia|..].
      * apply on_prefix_ok; [lia| |done]. intros. by apply shift_left_words_ok.
      * apply Hset; [by apply slice_ok|by apply Hset].
Qed.

Lemma rotate_bytes_left_ok buf shift : bytes_ok buf → array_ok (length buf) (rotate_bytes_left buf shift).
Proof.
  intros Hb. unfold rotate_bytes_left. split; [by rewrite length_map, length_seq|].
  apply Forall_forall. intros x Hx. apply list_elem_of_In, in_map_iff in Hx as (i & <- & _).
  by apply nth_byte_ok.
Qed.

Lemma key_expand_odd_step_ok nb rks i :
  valid_nb nb → (i < ROUND_KEYS_LEN)%nat → round_keys_ok rks → round_keys_ok (key_expand_odd_step nb rks i).
Proof.
  intros Hnb Hi Hk. pose proof (valid_nb_le nb Hnb) as Hle. unfold key_expand_odd_step.
  assert (round_keys_ok (set_round_key rks i nb (round_key rks (i - 1)))) as Hk1.
  { apply set_round_key_ok; [lia|done|]. destruct Hk as [Hl Hk]. unfold round_key. rewrite nth_lookup.
    destruct (lookup_lt_is_Some_2 rks (i - 1)) as [k Hk']; [lia|]. rewrite Hk'. by eapply Forall_lookup in Hk. }
  pose proof (round_key_ok _ i nb Hk1 Hi ltac:(lia)) as Ht.
  apply concat_state_ok in Ht as [Htl Htb]. pose proof (rotate_bytes_left_ok _ (2 * nb + 3) Htb) as [Hbl Hbb].
  rewrite Htl in Hbl. destruct Hk1 as [Hl Hr]. split; [by rewrite length_alter|].
  apply Forall_alter; [done|]. intros old _ [Ho Ho']. split.
  - rewrite length_app, length_map, length_seq, length_drop. lia.
  - apply Forall_app. split; [|by apply Forall_drop]. apply Forall_forall. intros c Hc.
    apply list_elem_of_In, in_map_iff in Hc as (j & <- & Hj). apply in_seq in Hj. unfold slice. split.
    + rewrite length_take, length_drop. unfold ROWS in *. lia.
    + by apply Forall_take, Forall_drop.
Qed.

Lemma key_expand_odd_ok nb nr rks :
  valid_nb nb → valid_nr nr → round_keys_ok rks → round_keys_ok (key_expand_odd rks nb nr).
Proof.
  intros Hnb Hnr. unfold key_expand_odd.
  assert (Forall (λ i, i < ROUND_KEYS_LEN)%nat (map (λ j, 2 * j + 1)%nat (seq 0 (nr / 2)))) as Hin.
  { unfold ROUND_KEYS_LEN. destruct Hnr as [-> | [-> | ->]]; simpl; repeat constructor; lia. }
  revert rks. induction Hin as [|i l Hi Hl IH]; intros rks Hk; simpl; [done|].
  by apply IH, key_expand_odd_step_ok.
Qed.

(** Shape and termination of the key expansion. *)
Lemma key_expand_ok key nb nk nr :
  valid_nb nb → valid_nk nb nk → valid_nr nr → array_ok (nk * ROWS) key →
  ∃ rks, key_expand key nb nk nr = Some rks ∧ round_keys_ok rks.
Proof.
  intros Hnb Hnk Hnr [Hl Hb]. pose proof (valid_nb_le nb Hnb) as Hle.
  pose proof (valid_nb_le nk (proj1 Hnk)) as Hlek. unfold key_expand, key_expand_even.
  destruct (key_expand_even_loop_ok (S nr) (key_expand_kt key nb nk) nb nk nr (columns_from_bytes key nk)
    (initial_tmv nb) 0 (replicate ROUND_KEYS_LEN (replicate MAX_NB ZERO_COLUMN))) as (rks & He & Hk);
    try done; try lia.
  - destruct Hnr as [-> | [-> | ->]]; [exists 5%nat|exists 7%nat|exists 9%nat]; lia.
  - apply columns_from_bytes_ok; [lia|done|lia].
  - apply initial_tmv_ok. lia.
  - split; [done|]. apply Forall_replicate, zero_state_ok.
  - rewrite He. eexists. split; [done|]. by apply key_expand_odd_ok.
Qed.

(** * The round keys in closed form *)

(** The mask of the [i]-th even round key: [0x0001..0001 << i] in every column. *)
Definition spec_tmv (nb i : nat) : list (list Z) :=
  replicate nb (to_le_bytes ROWS (wrap 64 (Z.shiftl 0x0001000100010001 i))).

(** The key words the [i]-th even round key is computed from: the key rotated by one word per step,
    and, when the key is twice as long as the block, its two halves in turn. *)
Definition spec_words (nb nk : nat) (words : list (list Z)) (i : nat) : list (list Z) :=
  if (nk =? nb)%nat then Nat.iter i rotl words
  else if Nat.even i then take nb (Nat.iter (i / 2) rotl words)
  else drop nb (Nat.iter (i / 2) rotl words).

Definition spec_even_key (nb nk : nat) (kt words : list (list Z)) (i : nat) : list (list Z) :=
  let kt_round := add_round_key (take nb kt) (spec_tmv nb i) in
  take nb (round_key_from (spec_words nb nk words i) kt_round).

(** The columns of a round key, rotated by [2 * nb + 3] bytes. *)
Definition spec_odd_key (nb : nat) (even_key : list (list Z)) : list (list Z) :=
  let bytes := concat even_key in
  let rotated := drop (2 * nb + 3) bytes ++ take (2 * nb + 3) bytes in
  map (λ c, slice (c * ROWS) ((c + 1) * ROWS) rotated) (seq 0 nb).

Lemma round_key_set_eq rks i nb k :
  (i < length rks)%nat → (nb ≤ length k)%nat → take nb (round_key (set_round_key rks i nb k) i) = take nb k.
Proof.
  intros Hi Hk. unfold round_key, set_round_key. rewrite nth_lookup, list_lookup_alter_eq.
  destruct (lookup_lt_is_Some_2 rks i Hi) as [old ->]. cbn [fmap option_fmap option_map default from_option id].
  apply take_app_length'. rewrite length_take. lia.
Qed.

Lemma round_key_set_ne rks i j nb k : i ≠ j → round_key (set_round_key rks i nb k) j = round_key rks j.
Proof. intros. unfold round_key, set_round_key. by rewrite !nth_lookup, list_lookup_alter_ne. Qed.

Lemma length_set_round_key rks i nb k : length (set_round_key rks i nb k) = length rks.
Proof. unfold set_round_key. by rewrite length_alter. Qed.

Lemma spec_tmv_step nb i : shift_left_words (spec_tmv nb i) = spec_tmv nb (S i).
Proof.
  unfold shift_left_words, spec_tmv. rewrite map_replicate. f_equal. f_equal.
  rewrite from_to_column by (apply word_ok_wrap; lia). unfold shl.
  rewrite !wrap_mod, !Z.shiftl_mul_pow2 by lia. rewrite Z.mul_mod_idemp_l by lia. f_equal.
  rewrite Nat2Z.inj_succ, Z.pow_succ_r by lia. lia.
Qed.

Lemma take_initial_tmv nb : (nb ≤ MAX_NB)%nat → take nb (initial_tmv nb) = spec_tmv nb 0.
Proof.
  intros Hle. unfold initial_tmv. rewrite take_on_prefix by (intros; apply length_map).
  rewrite take_replicate, Nat.min_l by done. unfold spec_tmv. by rewrite map_replicate.
Qed.

Lemma take_shift_tmv nb i tmv :
  take nb tmv = spec_tmv nb i → take nb (on_prefix nb shift_left_words tmv) = spec_tmv nb (S i).
Proof. intros H. rewrite take_on_prefix by (intros; apply length_map). by rewrite H, spec_tmv_step. Qed.

Lemma take_rotate_words nk m words data :
  valid_nb nk → (nk ≤ length data)%nat → take nk data = Nat.iter m rotl words →
  take nk (on_prefix nk (λ d, rotate_words_left d nk) data) = Nat.iter (S m) rotl words.
Proof.
  intros Hnk Hl H. unfold on_prefix.
  assert (length (take nk data) = nk) as Ht by (rewrite length_take; lia).
  rewrite rotate_words_left_rotl by done. rewrite take_app_length'; [by rewrite H|].
  unfold rotl. rewrite length_app, length_drop, !length_take. lia.
Qed.

Lemma length_round_key_from base tmp : (MAX_NB ≤ length (round_key_from base tmp))%nat.
Proof. unfold round_key_from, pad_columns. rewrite length_app, length_replicate. lia. Qed.

Lemma length_on_prefix_rotate nk (data : list (list Z)) :
  valid_nb nk → (nk ≤ length data)%nat →
  length (on_prefix nk (λ d, rotate_words_left d nk) data) = length data.
Proof.
  intros Hnk Hl. unfold on_prefix.
  assert (length (take nk data) = nk) as Ht by (rewrite length_take; lia).
  rewrite rotate_words_left_rotl by done. unfold rotl.
  rewrite !length_app, !length_drop, !length_take. lia.
Qed.

Section even_keys.
Context (nb nk nr : nat) (Hnb : valid_nb nb) (Hnk : valid_nk nb nk).
Context (kt words : list (list Z)) (Hkt : length kt = MAX_NB).

(** How often the key buffer has been rotated when even key [i] is computed. *)
Definition rotations (i : nat) : nat := if (nk =? nb)%nat then i else (i / 2)%nat.

Lemma even_key_written data tmv i :
  take nb tmv = spec_tmv nb i → data = spec_words nb nk words i →
  take nb (round_key_from data (take nb (mod_add_columns (take nb kt) (take nb tmv)))) =
    spec_even_key nb nk kt words i.
Proof using Hnb Hkt.
  intros Ht ->. unfold spec_even_key. rewrite Ht. pose proof (valid_nb_le nb Hnb).
  assert (length (take nb kt) = nb) as Hl by (rewrite length_take; lia).
  assert (length (take nb kt) = length (spec_tmv nb i)) as Hl'.
  { unfold spec_tmv. by rewrite length_replicate. }
  rewrite <- (take_mod_add_columns _ _ Hl') by lia. by rewrite Hl.
Qed.

Lemma key_expand_even_loop_spec fuel data tmv i rks rks' :
  key_expand_even_loop fuel kt nb nk nr data tmv (2 * i) rks = Some rks' →
  (nk = nb ∨ Nat.Even i) → (2 * i ≤ nr)%nat → Nat.Even nr → (nr < length rks)%nat →
  length data = MAX_NB → take nk data = Nat.iter (rotations i) rotl words → take nb tmv = spec_tmv nb i →
  (∀ j, (j < 2 * i)%nat → round_key rks' j = round_key rks j) ∧
  (∀ j, (i ≤ j)%nat → (2 * j ≤ nr)%nat →
    take nb (round_key rks' (2 * j)) = spec_even_key nb nk kt words j).
Proof using Hnb Hnk Hkt.
  pose proof (valid_nb_le nb Hnb) as Hle. pose proof (valid_nb_le nk (proj1 Hnk)) as Hlek.
  assert (nb ≤ nk)%nat as Hbk by (destruct Hnk as [_ [-> | ->]]; lia).
  revert data tmv i rks. induction fuel as [|fuel IH]; intros data tmv i rks; [done|].
  intros He Hpar Hi Hev Hlr Hld Hdata Htmv. cbn [key_expand_even_loop] in He.
  set (key_a := round_key_from (take nb data) _) in He.
  assert (nb ≤ length key_a)%nat as Hla by (etrans; [|apply length_round_key_from]; lia).
  assert (take nb key_a = spec_even_key nb nk kt words i) as Hka.
  { apply even_key_written; [done|]. unfold spec_words, rotations in *.
    destruct (Nat.eqb_spec nk nb) as [->|Hne]; [done|].
    destruct Hpar as [|Hpar]; [done|]. apply Nat.even_spec in Hpar as ->.
    rewrite <- Hdata, take_take. by rewrite Nat.min_l by lia. }
  destruct (Nat.eqb_spec (2 * i) nr) as [Hend|Hend].
  { injection He as <-. split.
    - intros j Hj. by rewrite round_key_set_ne by lia.
    - intros j Hj Hj'. assert (j = i) as -> by lia. by rewrite round_key_set_eq by lia. }
  unfold rotations in *.
  destruct (Nat.eqb_spec nk nb) as [Hnn|Hnn]; cbn [negb] in He; cbn iota in He.
  - replace (2 * i + 2)%nat with (2 * S i)%nat in He by lia.
    apply IH in He as [H1 H2]; try done; try (by left); try (by rewrite length_set_round_key).
    + split; [intros j Hj; rewrite H1 by lia; by rewrite round_key_set_ne by lia|].
      intros j Hj Hj'. destruct (decide (j = i)) as [->|]; [|apply H2; lia].
      rewrite H1 by lia. by rewrite round_key_set_eq by lia.
    + destruct Hev as [m Hm]. lia.
    + rewrite length_on_prefix_rotate; [done|apply Hnk|lia].
    + apply take_rotate_words; [apply Hnk|lia|done].
    + by apply take_shift_tmv.
  - destruct Hpar as [|[m Hm]]; [done|]. subst i.
    assert (2 * m / 2 = m)%nat as Hdiv by (rewrite Nat.mul_comm; apply Nat.div_mul; lia).
    set (key_b := round_key_from (slice nb nk data) _) in He.
    assert (nb ≤ length key_b)%nat as Hlb by (etrans; [|apply length_round_key_from]; lia).
    assert (take nb key_b = spec_even_key nb nk kt words (S (2 * m))) as Hkb.
    { apply even_key_written; [by apply take_shift_tmv|]. unfold spec_words.
      destruct (Nat.eqb_spec nk nb) as [|_]; [done|].
      assert (Nat.even (S (2 * m)) = false) as ->.
      { rewrite Nat.even_succ, <- Nat.negb_even, Nat.even_mul. done. }
      assert (S (2 * m) / 2 = m)%nat as ->.
      { symmetry. apply (Nat.div_unique _ _ _ 1); lia. }
      rewrite Hdiv in Hdata. rewrite <- Hdata. unfold slice. by rewrite skipn_firstn_comm. }
    replace (2 * (2 * m) + 2)%nat with (2 * S (2 * m))%nat in He by lia.
    destruct (Nat.eqb_spec (2 * S (2 * m)) nr) as [Hend2|Hend2].
    { injection He as <-. split.
      - intros j Hj. by rewrite !round_key_set_ne by lia.
      - intros j Hj Hj'. assert (j = 2 * m ∨ j = S (2 * m))%nat as [-> | ->] by lia.
        + rewrite round_key_set_ne by lia. by rewrite round_key_set_eq by lia.
        + by rewrite round_key_set_eq by (rewrite ?length_set_round_key; lia). }
    replace (2 * S (2 * m) + 2)%nat with (2 * (2 * S m))%nat in He by lia.
    apply IH in He as [H1 H2]; try done; try (by rewrite !length_set_round_key).
    + split; [intros j Hj; rewrite H1 by lia; by rewrite !round_key_set_ne by lia|].
      intros j Hj Hj'. destruct (decide (2 * S m ≤ j)%nat) as [|Hlt]; [by apply H2|].
      rewrite H1 by lia. assert (j = 2 * m ∨ j = S (2 * m))%nat as [-> | ->] by lia.
      * rewrite round_key_set_ne by lia. by rewrite round_key_set_eq by lia.
      * by rewrite round_key_set_eq by (rewrite ?length_set_round_key; lia).
    + right. by exists (S m).
    + destruct Hev as [k Hk]. lia.
    + rewrite length_on_prefix_rotate; [done|apply Hnk|lia].
    + rewrite Hdiv in Hdata. replace (2 * S m / 2)%nat with (S m) by
        (rewrite Nat.mul_comm, Nat.div_mul; lia).
      apply take_rotate_words; [apply Hnk|lia|done].
    + replace (2 * S m)%nat with (S (S (2 * m))) by lia. by do 2 apply take_shift_tmv.
Qed.
End even_keys.

Lemma rotate_bytes_left_spec buf shift :
  (shift < length buf)%nat → rotate_bytes_left buf shift = drop shift buf ++ take shift buf.
Proof.
  intros Hs. unfold rotate_bytes_left. apply list_eq. intros i.
  rewrite map_fmap, list_lookup_fmap. destruct (decide (i < length buf)%nat) as [Hi|Hi].
  - rewrite lookup_seq_lt by done. simpl. rewrite nth_lookup.
    destruct (decide (i < length buf - shift)%nat) as [Hlt|Hge].
    + rewrite lookup_app_l by (rewrite length_drop; lia). rewrite lookup_drop.
      rewrite Nat.mod_small by lia. rewrite (Nat.add_comm shift).
      destruct (lookup_lt_is_Some_2 buf (i + shift)) as [x ->]; [lia|done].
    + rewrite lookup_app_r by (rewrite length_drop; lia). rewrite length_drop.
      assert ((i + shift) mod length buf = i - (length buf - shift))%nat as ->.
      { symmetry. apply (Nat.mod_unique _ _ 1); lia. }
      rewrite lookup_take_lt by lia.
      destruct (lookup_lt_is_Some_2 buf (i - (length buf - shift))) as [x ->]; [lia|done].
  - rewrite !lookup_ge_None_2; [done|..].
    + rewrite length_app, length_drop, length_take. lia.
    + rewrite length_seq. lia.
Qed.

Lemma key_expand_odd_step_other nb rks i j :
  i ≠ j → round_key (key_expand_odd_step nb rks i) j = round_key rks j.
Proof.
  intros. unfold key_expand_odd_step. unfold round_key at 1.
  rewrite nth_lookup, list_lookup_alter_ne, <- nth_lookup by done. by apply round_key_set_ne.
Qed.

Lemma key_expand_odd_step_spec nb rks i :
  valid_nb nb → (1 ≤ i < ROUND_KEYS_LEN)%nat → round_keys_ok rks →
  take nb (round_key (key_expand_odd_step nb rks i) i) = spec_odd_key nb (take nb (round_key rks (i - 1))).
Proof.
  intros Hnb Hi Hk. pose proof (valid_nb_le nb Hnb) as Hle. destruct Hk as [Hl Hr] eqn:Heq. clear Heq.
  pose proof (round_key_ok rks (i - 1) nb Hk ltac:(lia) ltac:(lia)) as Hp.
  assert (nb ≤ length (round_key rks (i - 1)))%nat as Hlen.
  { destruct Hp as [Hp _]. rewrite length_take in Hp. lia. }
  unfold key_expand_odd_step. rewrite round_key_set_eq by (rewrite ?Hl; lia).
  unfold round_key at 1. rewrite nth_lookup, list_lookup_alter_eq.
  destruct (lookup_lt_is_Some_2 (set_round_key rks i nb (round_key rks (i - 1))) i) as [old ->].
  { rewrite length_set_round_key. lia. }
  cbn [fmap option_fmap option_map default from_option id].
  rewrite take_app_length' by (by rewrite length_map, length_seq).
  unfold spec_odd_key. rewrite rotate_bytes_left_spec; [done|].
  apply concat_state_ok in Hp as [-> _]. unfold ROWS. lia.
Qed.

Lemma key_expand_odd_spec nb rks n :
  valid_nb nb → round_keys_ok rks → (2 * n < ROUND_KEYS_LEN)%nat →
  let rks' := foldl (key_expand_odd_step nb) rks (map (λ j, 2 * j + 1)%nat (seq 0 n)) in
  round_keys_ok rks' ∧
  (∀ j, round_key rks' (2 * j) = round_key rks (2 * j)) ∧
  (∀ j, (j < n)%nat → take nb (round_key rks' (2 * j + 1)) = spec_odd_key nb (take nb (round_key rks (2 * j)))).
Proof.
  intros Hnb Hk. induction n as [|n IH]; intros Hn; cbv zeta.
  - simpl. split; [done|]. split; [done|]. lia.
  - rewrite seq_S, map_app, foldl_app. simpl map. cbn [foldl].
    destruct IH as (Hk' & He & Ho); [lia|].
    set (rks' := foldl _ rks _) in *.
    split; [|split].
    + apply key_expand_odd_step_ok; [done|lia|done].
    + intros j. rewrite key_expand_odd_step_other by lia. apply He.
    + intros j Hj. destruct (decide (j = n)) as [->|].
      * rewrite key_expand_odd_step_spec by (done || lia).
        replace (2 * n + 1 - 1)%nat with (2 * n)%nat by lia. by rewrite He.
      * rewrite key_expand_odd_step_other by lia. apply Ho. lia.
Qed.

(** The round keys of a variant in closed form. *)
Record key_schedule_spec (key : list Z) (nb nk nr : nat) (rks : RoundKeys) : Prop := {
  spec_even i : (2 * i ≤ nr)%nat →
    take nb (round_key rks (2 * i)) =
      spec_even_key nb nk (key_expand_kt key nb nk) (take nk (columns_from_bytes key nk)) i;
  spec_odd i : (2 * i + 1 < nr)%nat →
    take nb (round_key rks (2 * i + 1)) = spec_odd_key nb (take nb (round_key rks (2 * i)))
}.

Lemma key_expand_spec key nb nk nr :
  valid_nb nb → valid_nk nb nk → valid_nr nr → array_ok (nk * ROWS) key →
  ∃ rks, key_expand key nb nk nr = Some rks ∧ round_keys_ok rks ∧ key_schedule_spec key nb nk nr rks.
Proof.
  intros Hnb Hnk Hnr Hkey. pose proof (valid_nb_le nb Hnb) as Hle.
  pose proof (valid_nb_le nk (proj1 Hnk)) as Hlek.
  destruct (key_expand_ok key nb nk nr Hnb Hnk Hnr Hkey) as (rks & He & Hk).
  exists rks. split; [done|]. split; [done|]. unfold key_expand, key_expand_even in He. cbv zeta in He.
  set (rks0 := replicate ROUND_KEYS_LEN _) in He.
  assert (Nat.Even nr ∧ (nr < 19)%nat) as [Hev Hnr19].
  { split; [|destruct Hnr as [-> | [-> | ->]]; lia].
    destruct Hnr as [-> | [-> | ->]]; [exists 5%nat|exists 7%nat|exists 9%nat]; lia. }
  destruct Hkey as [Hl Hb].
  assert (state_ok MAX_NB (key_expand_kt key nb nk)) as [Hkt _].
  { apply key_expand_kt_ok; try done; destruct Hnk as [_ [-> | ->]]; unfold ROWS in *; lia. }
  assert (state_ok MAX_NB (columns_from_bytes key nk)) as [Hw _] by
    (apply columns_from_bytes_ok; [lia|done|lia]).
  destruct (key_expand_even_loop_ok (S nr) (key_expand_kt key nb nk) nb nk nr (columns_from_bytes key nk)
    (initial_tmv nb) 0 rks0) as (rks1 & He1 & Hk1); try done; try lia.
  { by rewrite Nat.sub_0_r. }
  { by apply columns_from_bytes_ok; [lia|done|lia]. }
  { apply initial_tmv_ok. lia. }
  { split; [done|]. apply Forall_replicate, zero_state_ok. }
  pose proof He1 as Hspec. rewrite He1 in He. injection He as He.
  apply (key_expand_even_loop_spec nb nk nr Hnb Hnk (key_expand_kt key nb nk)
    (take nk (columns_from_bytes key nk)) Hkt _ _ _ 0) in Hspec as [_ Hev1]; try done; try lia.
  - assert (nr / 2 * 2 = nr)%nat as Hhalf.
    { destruct Hev as [m ->]. rewrite Nat.mul_comm, (Nat.mul_comm 2 m), Nat.div_mul by lia. lia. }
    destruct (key_expand_odd_spec nb rks1 (nr / 2) Hnb Hk1) as (_ & He2 & Ho2);
      [unfold ROUND_KEYS_LEN; lia|].
    unfold key_expand_odd in He. rewrite He in He2, Ho2. split.
    + intros i Hi. rewrite He2. apply Hev1; lia.
    + intros i Hi. rewrite Ho2 by lia. by rewrite He2.
  - right. by exists 0%nat.
  - unfold rotations. by destruct (nk =? nb)%nat.
  - apply take_initial_tmv. lia.
Qed.

(** * The variants *)

Lemma variant_nb v : valid_nb (nb_of v).
Proof. unfold valid_nb. destruct v; simpl; auto. Qed.
Lemma variant_nk v : valid_nk (nb_of v) (nk_of v).
Proof. unfold valid_nk, valid_nb. destruct v; simpl; auto. Qed.
Lemma variant_nr v : valid_nr (nr_of v).
Proof. unfold valid_nr. destruct v; simpl; auto. Qed.
Lemma variant_block_bytes v : block_bytes_of v = (nb_of v * ROWS)%nat.
Proof. by destruct v. Qed.
Lemma variant_key_bytes v : key_bytes_of v = (nk_of v * ROWS)%nat.
Proof. by destruct v. Qed.

(** What [ExpandedKey::new] establishes. *)
Definition expanded_key_ok {v : variant} (k : ExpandedKey v) : Prop :=
  round_keys_ok (round_keys k) ∧
  dec_keys k = transform_keys_for_decrypt (round_keys k) (nb_of v) (nr_of v).

Lemma expanded_key_new_ok v key :
  array_ok (key_bytes_of v) key → ∃ k, expanded_key_new v key = Some k ∧ expanded_key_ok k.
Proof.
  rewrite variant_key_bytes. intros Hkey.
  destruct (key_expand_ok key (nb_of v) (nk_of v) (nr_of v)) as (rks & He & Hk);
    [apply variant_nb|apply variant_nk|apply variant_nr|done|].
  unfold expanded_key_new. rewrite He. eexists. split; [done|]. by split.
Qed.

#[global] Instance kalyna_cipher v : BlockCipher (ExpandedKey v) := {
  key_bytes := key_bytes_of v;
  block_bytes := block_bytes_of v;
  expanded_new := expanded_key_new v;
  encrypt_block := expanded_encrypt_block;
  decrypt_block := expanded_decrypt_block;
  key_ok := expanded_key_ok
}.

Lemma expanded_encrypt_bytes v (k : ExpandedKey v) b :
  expanded_encrypt_block k b = encrypt_bytes (nb_of v) (nr_of v) (round_keys k) b.
Proof. unfold expanded_encrypt_block. by rewrite variant_block_bytes. Qed.

Lemma expanded_decrypt_bytes v (k : ExpandedKey v) b :
  expanded_key_ok k → expanded_decrypt_block k b = decrypt_bytes (nb_of v) (nr_of v) (round_keys k) b.
Proof. intros [_ Hd]. unfold expanded_decrypt_block. by rewrite variant_block_bytes, Hd. Qed.

#[global] Instance kalyna_cipher_laws v : BlockCipherLaws (ExpandedKey v).
Proof.
  pose proof (variant_nb v) as Hnb. pose proof (variant_nr v) as Hnr.
  split; simpl; [destruct v; auto|apply expanded_key_new_ok|..]; intros k b Hk Hb; pose proof Hk as [Hr _];
    rewrite ?expanded_encrypt_bytes, ?expanded_decrypt_bytes by done;
    rewrite variant_block_bytes in *.
  - by apply encrypt_bytes_ok.
  - by apply decrypt_bytes_ok.
  - by apply decrypt_encrypt_bytes.
  - by apply encrypt_decrypt_bytes.
Qed.

(** The one-shot functions are the cached-schedule ones. *)
Lemma kalyna_encrypt_expanded v key block k :
  expanded_key_new v key = Some k → kalyna_encrypt v key block = Some (encrypt_block k block).
Proof.
  unfold expanded_key_new, kalyna_encrypt, encrypt_generic.
  destruct (key_expand _ _ _ _); [|done]. by intros [= <-].
Qed.

Lemma kalyna_decrypt_expanded v key block k :
  expanded_key_new v key = Some k → kalyna_decrypt v key block = Some (decrypt_block k block).
Proof.
  unfold expanded_key_new, kalyna_decrypt, decrypt_generic.
  destruct (key_expand _ _ _ _); [|done]. by intros [= <-].
Qed.

Section references.
Context (nb nr : nat) (Hnb : valid_nb nb) (Hnr : valid_nr nr).
Context (rks : RoundKeys) (Hrks : round_keys_ok rks).

Lemma interior_keys ks : length ks = ROUND_KEYS_LEN → slice 1 nr ks = map (round_key ks) (seq 1 (nr - 1)).
Proof using Hnr.
  intros Hl. apply slice_map_nth. rewrite Hl. unfold ROUND_KEYS_LEN. destruct Hnr as [-> | [-> | ->]]; lia.
Qed.

(** A loop over the interior keys with any round that agrees with [encipher_round_n]. *)
Lemma interior_loop_forward round s :
  (∀ s, state_ok nb s → round s = encipher_round_n nb s) → state_ok nb s →
  foldl (λ s k, xor_round_key (round s) (take nb k)) s (slice 1 nr rks) =
    forward_rounds nb rks (encrypt_round_indices nr) s.
Proof using Hnb Hnr Hrks.
  intros Hr Hs. rewrite interior_keys by apply Hrks. rewrite foldl_map, encrypt_indices by done.
  apply (foldl_agree _ _ (state_ok nb) (λ i, i ≤ nr)%nat); [|apply indices_le|done].
  intros s' i Hs' Hi. rewrite Hr by done. split; [done|].
  apply xor_round_key_ok; [by apply encipher_round_n_ok|by eapply key_columns].
Qed.

Lemma naive_encrypt_state plaintext :
  array_ok (nb * ROWS) plaintext →
  encrypt_with_schedule nb nr rks plaintext = naive_encrypt_with_schedule rks plaintext nb nr.
Proof using Hnb Hnr Hrks.
  intros Hp. pose proof (columns_from_bytes_state _ nb (nb_le nb Hnb) Hp) as Hs.
  assert (∀ s, state_ok nb s → encipher_round s = encipher_round_n nb s) as Hr.
  { intros s [Hl _]. by apply encipher_round_is_n. }
  pose proof (add_round_key_ok nb _ _ Hs (key_0_columns nb nr Hnb Hnr rks Hrks)) as Hs1.
  unfold naive_encrypt_with_schedule, encrypt_with_schedule. cbv zeta.
  rewrite (interior_loop_forward encipher_round) by done.
  rewrite Hr by (by eapply forward_state_ok). done.
Qed.

Lemma small_encrypt plaintext :
  array_ok (nb * ROWS) plaintext →
  encrypt_with_schedule_small nb nr rks plaintext = encrypt_with_schedule nb nr rks plaintext.
Proof using Hnb Hnr Hrks.
  intros Hp. pose proof (columns_from_bytes_state _ nb (nb_le nb Hnb) Hp) as Hs.
  assert (∀ s, state_ok nb s → encipher_round_n_small nb s = encipher_round_n nb s) as Hr.
  { intros. rewrite encipher_round_n_small_naive by done. symmetry. by apply encipher_round_n_naive. }
  pose proof (add_round_key_ok nb _ _ Hs (key_0_columns nb nr Hnb Hnr rks Hrks)) as Hs1.
  unfold encrypt_with_schedule_small, encrypt_with_schedule. cbv zeta.
  rewrite (interior_loop_forward (encipher_round_n_small nb)) by done.
  rewrite Hr by (by eapply forward_state_ok). done.
Qed.

Lemma naive_decrypt_state ciphertext :
  array_ok (nb * ROWS) ciphertext →
  naive_decrypt_with_schedule rks ciphertext nb nr =
    bytes_from_columns nb (decrypt_state nb nr rks (take nb (columns_from_bytes ciphertext nb))).
Proof using Hnb Hnr Hrks.
  intros Hc. unfold naive_decrypt_with_schedule, decrypt_state. cbv zeta.
  rewrite interior_keys by apply Hrks. rewrite <- map_rev_reverse, foldl_map, decrypt_indices by done. done.
Qed.

Lemma length_transform_keys : length (transform_keys_for_decrypt rks nb nr) = length rks.
Proof using Type. apply length_imap. Qed.

Lemma transform_keys_columns i :
  (i ≤ nr)%nat → Forall column_ok (take nb (round_key (transform_keys_for_decrypt rks nb nr) i)).
Proof using Hnb Hnr Hrks.
  intros Hi. apply (round_key_ok _ i nb); [|unfold ROUND_KEYS_LEN; destruct Hnr as [-> | [-> | ->]]; lia|by apply nb_le].
  destruct Hrks as [Hl Hr]. split; [by rewrite length_transform_keys|].
  apply Forall_lookup. intros j k Hj. unfold transform_keys_for_decrypt in Hj.
  rewrite list_lookup_imap in Hj. destruct (rks !! j) as [k'|] eqn:Hk'; [|done].
  injection Hj as <-. assert (state_ok MAX_NB k') by (by eapply Forall_lookup in Hr).
  destruct (decide (1 ≤ j < nr)%nat); [|done].
  apply on_prefix_ok; [by apply nb_le| |done]. intros. by apply apply_matrix_ok.
Qed.

Lemma small_decrypt ciphertext :
  array_ok (nb * ROWS) ciphertext →
  decrypt_with_schedule_small nb nr rks (transform_keys_for_decrypt rks nb nr) ciphertext =
    decrypt_with_schedule nb nr rks (transform_keys_for_decrypt rks nb nr) ciphertext.
Proof using Hnb Hnr Hrks.
  intros Hc. pose proof (columns_from_bytes_state _ nb (nb_le nb Hnb) Hc) as Hs.
  pose proof (sub_round_key_ok nb _ _ Hs (key_nr_columns nb nr Hnb Hnr rks Hrks)) as Hs1.
  unfold decrypt_with_schedule_small, decrypt_with_schedule. cbv zeta. do 4 f_equal.
  rewrite (apply_inverse_matrix_small_eq nb) by done.
  rewrite interior_keys by (rewrite length_transform_keys; apply Hrks).
  rewrite <- map_rev_reverse, foldl_map, decrypt_indices by done.
  apply (foldl_agree _ _ (state_ok nb) (λ i, i ≤ nr)%nat);
    [|apply Forall_reverse, indices_le|by apply apply_matrix_ok].
  intros s i Hs' Hi. rewrite fused_inv_round_n_small_passes by done. split.
  - f_equal. symmetry. by apply fused_inv_round_n_passes.
  - apply xor_round_key_ok; [|by apply transform_keys_columns].
    by apply apply_matrix_ok, inv_shift_rows_ok, inv_sub_bytes_ok.
Qed.
End references.

(** * Properties *)

(** C1. For every variant, key and block, decryption under the same key returns the block that was
    encrypted, and encryption returns the block that was decrypted; both directions succeed and
    produce a block. *)
Theorem kalyna_roundtrip v key block :
  array_ok (key_bytes_of v) key → array_ok (block_bytes_of v) block →
  (∃ ct, kalyna_encrypt v key block = Some ct ∧ array_ok (block_bytes_of v) ct ∧
         kalyna_decrypt v key ct = Some block) ∧
  (∃ pt, kalyna_decrypt v key block = Some pt ∧ array_ok (block_bytes_of v) pt ∧
         kalyna_encrypt v key pt = Some block).
Proof.
  intros Hkey Hb. destruct (expanded_key_new_ok v key Hkey) as (k & Hk & Hok). split.
  - exists (encrypt_block k block). rewrite (kalyna_encrypt_expanded _ _ _ k Hk).
    rewrite (kalyna_decrypt_expanded _ _ _ k Hk), decrypt_encrypt_block by done.
    split; [done|]. split; [exact (encrypt_block_ok k block Hok Hb)|done].
  - exists (decrypt_block k block). rewrite (kalyna_decrypt_expanded _ _ _ k Hk).
    rewrite (kalyna_encrypt_expanded _ _ _ k Hk), encrypt_decrypt_block by done.
    split; [done|]. split; [exact (decrypt_block_ok k block Hok Hb)|done].
Qed.

Lemma kalyna_roundtrip_witness :
  (∃ ct, kalyna_encrypt Kalyna128_256 (seqZ 0 32) (seqZ 32 16) = Some ct ∧
         array_ok 16 ct ∧ kalyna_decrypt Kalyna128_256 (seqZ 0 32) ct = Some (seqZ 32 16)) ∧
  (∃ pt, kalyna_decrypt Kalyna128_256 (seqZ 0 32) (seqZ 32 16) = Some pt ∧
         array_ok 16 pt ∧ kalyna_encrypt Kalyna128_256 (seqZ 0 32) pt = Some (seqZ 32 16)).
Proof. apply (kalyna_roundtrip Kalyna128_256); by_decision. Defined.

(** C2. The key expansion of every variant ends within its fuel, returns a schedule of the declared
    shape, and the schedule is the closed form of the standard: even round keys come from the key
    words rotated step by step and the shifted mask, odd ones are the even key below them rotated by
    [2 * nb + 3] bytes. *)
Theorem kalyna_key_schedule v key :
  array_ok (key_bytes_of v) key →
  ∃ rks, key_expand key (nb_of v) (nk_of v) (nr_of v) = Some rks ∧ round_keys_ok rks ∧
         key_schedule_spec key (nb_of v) (nk_of v) (nr_of v) rks.
Proof.
  rewrite variant_key_bytes.
  apply key_expand_spec; [apply variant_nb|apply variant_nk|apply variant_nr].
Qed.

Lemma kalyna_key_schedule_witness :
  ∃ rks, key_expand (seqZ 0 64) 4 8 18 = Some rks ∧ round_keys_ok rks ∧
         key_schedule_spec (seqZ 0 64) 4 8 18 rks.
Proof. apply (kalyna_key_schedule Kalyna256_512). by_decision. Defined.

(** The restructured decryption - transformed interior keys, fused substitute-shift-mix rounds,
    unrolled - computes the plain inverse cipher, for any schedule and any ciphertext. *)
Theorem kalyna_decrypt_fusion v rks ciphertext :
  round_keys_ok rks → array_ok (block_bytes_of v) ciphertext →
  decrypt_with_schedule (nb_of v) (nr_of v) rks
    (transform_keys_for_decrypt rks (nb_of v) (nr_of v)) ciphertext =
  naive_decrypt_with_schedule rks ciphertext (nb_of v) (nr_of v).
Proof.
  rewrite variant_block_bytes. intros Hk Hc. pose proof (variant_nb v). pose proof (variant_nr v).
  rewrite naive_decrypt_state by done. by apply decrypt_with_schedule_state.
Qed.

Lemma kalyna_decrypt_fusion_witness :
  let rks := replicate 19 (replicate 8 (seqZ 3 8)) in
  decrypt_with_schedule 8 18 rks (transform_keys_for_decrypt rks 8 18) (seqZ 0 64) =
  naive_decrypt_with_schedule rks (seqZ 0 64) 8 18.
Proof. apply (kalyna_decrypt_fusion Kalyna512_512); by_decision. Defined.

(** The unrolled, table-fused encryption computes the loop over the runtime round, and that
    round is substitution, row shift and MDS mixing in three passes. *)
Theorem kalyna_encrypt_unrolled v rks plaintext :
  round_keys_ok rks → array_ok (block_bytes_of v) plaintext →
  encrypt_with_schedule (nb_of v) (nr_of v) rks plaintext =
    naive_encrypt_with_schedule rks plaintext (nb_of v) (nr_of v) ∧
  ∀ s, state_ok (nb_of v) s → encipher_round s = naive_encipher_round s.
Proof.
  rewrite variant_block_bytes. intros Hk Hp. pose proof (variant_nb v). pose proof (variant_nr v). split.
  - by apply naive_encrypt_state.
  - intros s Hs. rewrite (encipher_round_is_n (nb_of v)) by apply Hs. by apply encipher_round_n_naive.
Qed.

Lemma kalyna_encrypt_unrolled_witness :
  let rks := replicate 19 (replicate 8 (seqZ 3 8)) in
  encrypt_with_schedule 2 10 rks (seqZ 0 16) = naive_encrypt_with_schedule rks (seqZ 0 16) 2 10 ∧
  ∀ s, state_ok 2 s → encipher_round s = naive_encipher_round s.
Proof. apply (kalyna_encrypt_unrolled Kalyna128_128); by_decision. Defined.

(** The [small-tables] profile - no tables, plain loops - encrypts and decrypts exactly as the
    default profile. *)
Theorem kalyna_small_tables v rks block :
  round_keys_ok rks → array_ok (block_bytes_of v) block →
  let dks := transform_keys_for_decrypt rks (nb_of v) (nr_of v) in
  encrypt_with_schedule_small (nb_of v) (nr_of v) rks block =
    encrypt_with_schedule (nb_of v) (nr_of v) rks block ∧
  decrypt_with_schedule_small (nb_of v) (nr_of v) rks dks block =
    decrypt_with_schedule (nb_of v) (nr_of v) rks dks block.
Proof.
  rewrite variant_block_bytes. intros Hk Hb. pose proof (variant_nb v). pose proof (variant_nr v). split.
  - by apply small_encrypt.
  - by apply small_decrypt.
Qed.

Lemma kalyna_small_tables_witness :
  let rks := replicate 19 (replicate 8 (seqZ 3 8)) in
  let dks := transform_keys_for_decrypt rks 4 14 in
  encrypt_with_schedule_small 4 14 rks (seqZ 0 32) = encrypt_with_schedule 4 14 rks (seqZ 0 32) ∧
  decrypt_with_schedule_small 4 14 rks dks (seqZ 0 32) = decrypt_with_schedule 4 14 rks dks (seqZ 0 32).
Proof. apply (kalyna_small_tables Kalyna256_256); by_decision. Defined.

(** The designers' vector for Kalyna-128/128 (B.2.6 of the paper), both directions. *)
Example kalyna_128_128_vector :
  kalyna_encrypt Kalyna128_128 (seqZ 0 16) (seqZ 16 16) =
    Some [0x81; 0xBF; 0x1C; 0x7D; 0x77; 0x9B; 0xAC; 0x20; 0xE1; 0xC9; 0xEA; 0x39; 0xB4; 0xD2; 0xAD; 0x06] ∧
  kalyna_decrypt Kalyna128_128 (reverse (seqZ 0 16)) (reverse (seqZ 16 16)) =
    Some [0x72; 0x91; 0xEF; 0x2B; 0x47; 0x0C; 0xC7; 0x84; 0x6F; 0x09; 0xC2; 0x30; 0x39; 0x73; 0xDA; 0xD7].
Proof. split; vm_compute; reflexivity. Qed.
