(* ===== verification/Stream.v ===== *)
(** The contract of a stream cipher object: its [apply_in_place] XORs the data with the keystream
    from the current position and advances the position, whatever the sizes of the calls.  CTR, OFB
    and Strumok discharge it; chunk invariance and the round trip follow once and for all. *)

From S2P Require Import Prelude.

(** XOR with the bytes of the keystream [ks] from position [p] on. *)
Fixpoint xor_keystream (ks : nat → Z) (p : nat) (data : list Z) : list Z :=
  match data with
  | [] => []
  | b :: data => (b ⊕ ks p) :: xor_keystream ks (S p) data
  end.

(** [at_pos s p]: the object [s] stands at position [p] of its keystream [ks]; the data consists of
    elements of [P]. *)
Class StreamSpecOn {S : Type} (P : Z → Prop) (apply : S → list Z → S * list Z) (at_pos : S → nat → Prop) (ks : nat → Z) : Prop :=
  apply_at_on s p buf : at_pos s p → Forall P buf →
    at_pos (apply s buf).1 (p + length buf)%nat ∧ (apply s buf).2 = xor_keystream ks p buf.

(** The contract of the objects that do not look at the range of the data. *)
Class StreamSpec {S : Type} (apply : S → list Z → S * list Z) (at_pos : S → nat → Prop) (ks : nat → Z) : Prop :=
  apply_at s p buf : at_pos s p →
    at_pos (apply s buf).1 (p + length buf)%nat ∧ (apply s buf).2 = xor_keystream ks p buf.

#[export] Instance stream_spec_on {S} (apply : S → list Z → S * list Z) at_pos ks :
  StreamSpec apply at_pos ks → StreamSpecOn (λ _, True) apply at_pos ks.
Proof. intros H s p buf Hs _. by apply H. Qed.

Lemma xor_keystream_app ks p a b :
  xor_keystream ks p (a ++ b) = xor_keystream ks p a ++ xor_keystream ks (p + length a) b.
Proof.
  revert p. induction a as [|x a IH]; intros p; simpl; [by rewrite Nat.add_0_r|].
  rewrite IH. simpl. by rewrite Nat.add_succ_r.
Qed.

Lemma length_xor_keystream ks p l : length (xor_keystream ks p l) = length l.
Proof. revert p. induction l; simpl; auto. Qed.

Lemma xor_keystream_ok ks p l : bytes_ok l → (∀ i, byte_ok (ks i)) → bytes_ok (xor_keystream ks p l).
Proof.
  intros Hl Hk. revert p. induction Hl as [|b l Hb Hl IH]; intros p; simpl; constructor; [|done].
  by apply word_ok_lxor; [lia|..].
Qed.

Lemma xor_keystream_involutive ks p l : xor_keystream ks p (xor_keystream ks p l) = l.
Proof. revert p. induction l as [|x l IH]; intros p; simpl; [done|]. by rewrite lxor_cancel_r, IH. Qed.

Lemma xor_keystream_ext ks ks' p l :
  (∀ i, (p ≤ i < p + length l)%nat → ks i = ks' i) → xor_keystream ks p l = xor_keystream ks' p l.
Proof.
  revert p. induction l as [|x l IH]; intros p Hk; simpl; [done|]. simpl in Hk.
  rewrite Hk by lia. f_equal. apply IH. intros. apply Hk. lia.
Qed.

(** A piece of the keystream held in a buffer. *)
Lemma xor_into_keystream ks p l g :
  (length l ≤ length g)%nat → (∀ i, (i < length l)%nat → ks (p + i)%nat = g.[i]) →
  xor_into l g = xor_keystream ks p l.
Proof.
  unfold xor_into. revert p g. induction l as [|x l IH]; intros p g Hl Hk; [done|].
  destruct g as [|y g]; simpl in *; [lia|]. f_equal.
  - rewrite <- (Nat.add_0_r p), Hk by lia. done.
  - apply IH; [lia|]. intros i Hi. rewrite <- (Hk (S i)) by lia. f_equal. lia.
Qed.

Section stream_on.
Context {S : Type} (P : Z → Prop) (apply : S → list Z → S * list Z) (at_pos : S → nat → Prop) (ks : nat → Z).
Context `{!StreamSpecOn P apply at_pos ks}.

(** Any sequence of calls is one pass over the concatenated data. *)
Lemma stream_calls_on s p bufs :
  at_pos s p → Forall (Forall P) bufs →
  at_pos (map_accum apply s bufs).1 (p + length (concat bufs))%nat ∧
  map length (map_accum apply s bufs).2 = map length bufs ∧
  concat (map_accum apply s bufs).2 = xor_keystream ks p (concat bufs).
Proof.
  intros Hs Hb. revert s p Hs. induction Hb as [|b bufs Hb Hbs IH]; intros s p Hs; simpl.
  { by rewrite Nat.add_0_r. }
  destruct (apply_at_on s p b Hs Hb) as [H1 H2]. destruct (apply s b) as [s1 b1]. simpl in *.
  destruct (IH s1 _ H1) as (H3 & H4 & H5). destruct (map_accum apply s1 bufs) as [s2 bs]. simpl in *.
  rewrite length_app, Nat.add_assoc, xor_keystream_app, H4, H5, H2, length_xor_keystream. done.
Qed.

(** Two objects at the same position: what one produced in some calls, the other takes back in any
    other calls. *)
Lemma stream_roundtrip_on s s' p bufs cts :
  at_pos s p → at_pos s' p → Forall (Forall P) bufs → Forall (Forall P) cts → concat cts = concat (map_accum apply s bufs).2 →
  concat (map_accum apply s' cts).2 = concat bufs.
Proof.
  intros Hs Hs' Hb Hcb Hc. destruct (stream_calls_on s p bufs Hs Hb) as (_ & _ & He).
  destruct (stream_calls_on s' p cts Hs' Hcb) as (_ & _ & ->). rewrite Hc, He. apply xor_keystream_involutive.
Qed.
End stream_on.

Section stream.
Context {S : Type} (apply : S → list Z → S * list Z) (at_pos : S → nat → Prop) (ks : nat → Z).
Context `{!StreamSpec apply at_pos ks}.

Lemma all_true (bufs : list (list Z)) : Forall (Forall (λ _, True)) bufs.
Proof. apply Forall_true. intros. by apply Forall_true. Qed.

Lemma stream_calls s p bufs :
  at_pos s p →
  at_pos (map_accum apply s bufs).1 (p + length (concat bufs))%nat ∧
  map length (map_accum apply s bufs).2 = map length bufs ∧
  concat (map_accum apply s bufs).2 = xor_keystream ks p (concat bufs).
Proof. intros Hs. apply (stream_calls_on (λ _, True) apply at_pos ks s p bufs Hs). apply all_true. Qed.

Lemma stream_roundtrip s s' p bufs cts :
  at_pos s p → at_pos s' p → concat cts = concat (map_accum apply s bufs).2 →
  concat (map_accum apply s' cts).2 = concat bufs.
Proof. intros Hs Hs' Hc. exact (stream_roundtrip_on (λ _, True) apply at_pos ks s s' p bufs cts Hs Hs' (all_true _) (all_true _) Hc). Qed.
End stream.
