(* ===== verification/Ecb.v ===== *)
(** ECB over any block cipher of the interface ([hazmat/kalyna_ecb.rs]).  A method that works in
    place returns the new state, the new buffer and its result. *)

From S2P Require Import Prelude BlockCipher Kalyna.

Inductive InvalidLength : Type := InvalidLength_.

#[global] Instance InvalidLength_eq_dec : EqDecision InvalidLength.
Proof. solve_decision. Defined.

Section ecb.
Context {K : Type} `{BlockCipher K}.

Definition new (key : list Z) : option K := expanded_new K key.

(** The body of the loop over the blocks. *)
Definition encrypt_step (key : K) (_ : unit) (block : list Z) : unit * list Z := (tt, encrypt_block key block).
Definition decrypt_step (key : K) (_ : unit) (block : list Z) : unit * list Z := (tt, decrypt_block key block).

Definition encrypt_in_place (key : K) (buf : list Z) : list Z * result unit InvalidLength :=
  if negb (Nat.eqb (length buf mod block_bytes K) 0) then (buf, Err InvalidLength_)
  else ((chunks_exact_mut (block_bytes K) (encrypt_step key) tt buf).2, Ok tt).

Definition decrypt_in_place (key : K) (buf : list Z) : list Z * result unit InvalidLength :=
  if negb (Nat.eqb (length buf mod block_bytes K) 0) then (buf, Err InvalidLength_)
  else ((chunks_exact_mut (block_bytes K) (decrypt_step key) tt buf).2, Ok tt).
End ecb.

Lemma encrypt_eq {K} `{BlockCipher K} (key : K) buf :
  (length buf mod block_bytes K = 0)%nat →
  encrypt_in_place key buf = ((chunks_exact_mut (block_bytes K) (encrypt_step key) tt buf).2, Ok tt).
Proof. intros Hm. unfold encrypt_in_place. by rewrite Hm. Qed.

Lemma decrypt_eq {K} `{BlockCipher K} (key : K) buf :
  (length buf mod block_bytes K = 0)%nat →
  decrypt_in_place key buf = ((chunks_exact_mut (block_bytes K) (decrypt_step key) tt buf).2, Ok tt).
Proof. intros Hm. unfold decrypt_in_place. by rewrite Hm. Qed.

(** On whole blocks both directions succeed, keep the length and undo each other; the ciphertext is
    the block-wise image, so equal blocks encrypt equally; any other length is refused and the
    buffer left as it was. *)
Theorem ecb_roundtrip {K} `{BlockCipherLaws K} (key : K) (buf : list Z) :
  key_ok key → bytes_ok buf →
  if decide (length buf mod block_bytes K = 0)%nat then
    ∃ ct, encrypt_in_place key buf = (ct, Ok tt) ∧ array_ok (length buf) ct ∧
      chunks_exact (block_bytes K) ct = map (encrypt_block key) (chunks_exact (block_bytes K) buf) ∧
      decrypt_in_place key ct = (buf, Ok tt)
  else encrypt_in_place key buf = (buf, Err InvalidLength_) ∧
       decrypt_in_place key buf = (buf, Err InvalidLength_).
Proof.
  intros Hk Hb. pose proof (block_bytes_pos (K := K)) as Hn. case_decide as Hm.
  2: { unfold encrypt_in_place, decrypt_in_place. apply Nat.eqb_neq in Hm. by rewrite Hm. }
  destruct (chunks_mut_result (block_bytes K) (encrypt_step key) (λ _, True) Hn) with (s := tt) (buf := buf)
    as (_ & Hct & Hc); try done.
  { intros s c _ Hc. split; [done|]. by apply encrypt_block_ok. }
  rewrite encrypt_eq by done. eexists. split; [done|]. split; [done|]. split.
  - rewrite Hc. generalize (chunks_exact (block_bytes K) buf). intros l.
    induction l as [|x l IH]; simpl; [done|]. rewrite <- IH. by destruct (map_accum _ _ l).
  - rewrite decrypt_eq by (by rewrite (array_ok_length _ _ Hct)).
    rewrite (chunks_mut_inverse (block_bytes K) (encrypt_step key) (decrypt_step key) (λ _, True) Hn); try done.
    + intros s c _ Hc'. split; [done|]. by apply encrypt_block_ok.
    + intros [] c _ Hc'. simpl. split; [done|]. unfold decrypt_step. by rewrite decrypt_encrypt_block.
Qed.

Lemma ecb_roundtrip_witness :
  ∃ key : ExpandedKey Kalyna256_256, new (seqZ 0 32) = Some key ∧
    (∃ ct, encrypt_in_place key (seqZ 0 96) = (ct, Ok tt) ∧ array_ok 96 ct ∧
      chunks_exact 32 ct = map (encrypt_block key) (chunks_exact 32 (seqZ 0 96)) ∧
      decrypt_in_place key ct = (seqZ 0 96, Ok tt)) ∧
    encrypt_in_place key (seqZ 0 95) = (seqZ 0 95, Err InvalidLength_).
Proof.
  destruct (expanded_new_ok (K := ExpandedKey Kalyna256_256) (seqZ 0 32) ltac:(by_decision)) as (k & He & Hk).
  exists k. split; [exact He|]. split.
  - apply (ecb_roundtrip k (seqZ 0 96) Hk). by_decision.
  - apply (ecb_roundtrip k (seqZ 0 95) Hk). by_decision.
Defined.
