(* ===== verification/Cbc.v ===== *)
(** CBC over any block cipher of the interface ([hazmat/kalyna_cbc.rs]).  A method that works in
    place returns the new state, the new buffer and its result. *)

From S2P Require Import Prelude BlockCipher Kalyna.

Inductive InvalidLength : Type := InvalidLength_.

#[global] Instance InvalidLength_eq_dec : EqDecision InvalidLength.
Proof. solve_decision. Defined.

Section cbc.
Context {K : Type} `{BlockCipher K}.

Record Cbc : Type := { key : K; gamma : list Z }.

Definition new (key : list Z) (iv : list Z) : option Cbc :=
  k ← expanded_new K key; Some {| key := k; gamma := iv |}.

(** The bodies of the loops over the blocks. *)
Definition encrypt_step (key : K) (gamma block : list Z) : list Z * list Z :=
  let gamma := xor_into gamma block in
  let gamma := encrypt_block key gamma in
  (gamma, gamma).

Definition decrypt_step (key : K) (gamma block : list Z) : list Z * list Z :=
  let ciphertext_block := block in
  let decrypted := decrypt_block key ciphertext_block in
  let block := zip_mut (λ _ dg, dg) block (zip_with Z.lxor decrypted gamma) in
  (ciphertext_block, block).

Definition encrypt_in_place (self : Cbc) (buf : list Z) : Cbc * list Z * result unit InvalidLength :=
  if negb (Nat.eqb (length buf mod block_bytes K) 0) then (self, buf, Err InvalidLength_)
  else
    let '(gamma', buf') := chunks_exact_mut (block_bytes K) (encrypt_step (key self)) (gamma self) buf in
    ({| key := key self; gamma := gamma' |}, buf', Ok tt).

Definition decrypt_in_place (self : Cbc) (buf : list Z) : Cbc * list Z * result unit InvalidLength :=
  if negb (Nat.eqb (length buf mod block_bytes K) 0) then (self, buf, Err InvalidLength_)
  else
    let '(gamma', buf') := chunks_exact_mut (block_bytes K) (decrypt_step (key self)) (gamma self) buf in
    ({| key := key self; gamma := gamma' |}, buf', Ok tt).
End cbc.
Arguments Cbc K : clear implicits.

(** The invariant of the mode object. *)
Definition cbc_ok {K} `{BlockCipher K} (self : Cbc K) : Prop :=
  key_ok (key self) ∧ array_ok (block_bytes K) (gamma self).

(** A sequence of calls on one object, that has to succeed. *)
Fixpoint calls {K} (f : Cbc K → list Z → Cbc K * list Z * result unit InvalidLength) (self : Cbc K)
    (bufs : list (list Z)) : option (Cbc K * list (list Z)) :=
  match bufs with
  | [] => Some (self, [])
  | buf :: bufs =>
      match f self buf with
      | (self, buf, Ok _) => '(self, bufs) ← calls f self bufs; Some (self, buf :: bufs)
      | _ => None
      end
  end.

Section cbc_lemmas.
Context {K : Type} `{BlockCipherLaws K}.
Local Abbreviation bb := (block_bytes K).
Local Abbreviation aligned l := (length l mod bb = 0)%nat.

Lemma new_ok k iv :
  array_ok (key_bytes K) k → array_ok bb iv → ∃ self, new k iv = Some self ∧ cbc_ok self ∧ gamma self = iv.
Proof.
  intros Hk Hiv. destruct (expanded_new_ok k Hk) as (ek & He & Hek). unfold new. rewrite He. simpl.
  eexists. by split.
Qed.

Lemma encrypt_step_ok k g b :
  key_ok k → array_ok bb g → array_ok bb b →
  array_ok bb (encrypt_step k g b).1 ∧ array_ok bb (encrypt_step k g b).2.
Proof.
  intros Hk Hg [_ Hb]. unfold encrypt_step. simpl.
  assert (array_ok bb (encrypt_block k (xor_into g b))) by (apply encrypt_block_ok; [done|by apply array_ok_xor_into]). done.
Qed.

Lemma decrypt_block_xor b d g :
  length b = length d → length g = length d →
  zip_mut (λ _ dg, dg) b (zip_with Z.lxor d g) = xor_into d g.
Proof.
  revert d g. unfold xor_into. induction b as [|x b IH]; intros [|y d] [|z g]; simpl; try done.
  intros [= ?] [= ?]. f_equal. by apply IH.
Qed.

Lemma decrypt_step_inverse k g b :
  key_ok k → array_ok bb g → array_ok bb b →
  let '(g', c) := encrypt_step k g b in array_ok bb g' ∧ decrypt_step k g c = (g', b).
Proof.
  intros Hk Hg Hb. pose proof (encrypt_step_ok k g b Hk Hg Hb) as Hs. simpl in *. split; [apply Hs|].
  assert (array_ok bb (xor_into g b)) as Hx by (apply array_ok_xor_into; [done|apply Hb]).
  unfold decrypt_step. f_equal. rewrite decrypt_encrypt_block by done.
  destruct Hs as [[Hs _] _], Hg as [Hg _], Hb as [Hb _].
  rewrite decrypt_block_xor by (rewrite ?length_xor_into; lia).
  rewrite (xor_into_comm g b) by lia. apply xor_into_cancel.
Qed.

Lemma encrypt_aligned self buf :
  aligned buf →
  encrypt_in_place self buf =
  let '(g, b) := chunks_exact_mut bb (encrypt_step (key self)) (gamma self) buf in
  ({| key := key self; gamma := g |}, b, Ok tt).
Proof. intros Hm. unfold encrypt_in_place. by rewrite Hm. Qed.

Lemma decrypt_aligned self buf :
  aligned buf →
  decrypt_in_place self buf =
  let '(g, b) := chunks_exact_mut bb (decrypt_step (key self)) (gamma self) buf in
  ({| key := key self; gamma := g |}, b, Ok tt).
Proof. intros Hm. unfold decrypt_in_place. by rewrite Hm. Qed.

Lemma encrypt_roundtrip self buf :
  cbc_ok self → bytes_ok buf → aligned buf →
  ∃ self' ct, encrypt_in_place self buf = (self', ct, Ok tt) ∧ cbc_ok self' ∧
    array_ok (length buf) ct ∧ decrypt_in_place self ct = (self', buf, Ok tt).
Proof.
  intros [Hk Hg] Hb Hm.
  destruct (chunks_mut_result bb (encrypt_step (key self)) (array_ok bb) block_bytes_pos) with (s := gamma self) (buf := buf)
    as (H1 & H2 & _); try done.
  { intros. by apply encrypt_step_ok. }
  pose proof (chunks_mut_inverse bb (encrypt_step (key self)) (decrypt_step (key self)) (array_ok bb) block_bytes_pos
    (λ s c Hs Hc, encrypt_step_ok (key self) s c Hk Hs Hc) (gamma self) buf
    (λ s c Hs Hc, decrypt_step_inverse (key self) s c Hk Hs Hc) Hg Hb Hm) as Hi.
  rewrite encrypt_aligned by done.
  destruct (chunks_exact_mut bb (encrypt_step (key self)) (gamma self) buf) as [g ct].
  cbn [fst snd] in *. do 2 eexists. split; [done|]. split; [done|]. split; [done|].
  rewrite decrypt_aligned by (by rewrite (array_ok_length _ _ H2)). by rewrite Hi.
Qed.

(** Splitting the data over calls does not change the result. *)
Lemma calls_concat (f : Cbc K → list Z → _) step self bufs :
  (∀ self buf, aligned buf → f self buf =
    let '(g, b) := chunks_exact_mut bb (step (key self)) (gamma self) buf in
    ({| key := key self; gamma := g |}, b, Ok tt)) →
  Forall (λ b, aligned b) bufs →
  ∃ self' outs, calls f self bufs = Some (self', outs) ∧ f self (concat bufs) = (self', concat outs, Ok tt).
Proof.
  intros Hf Hm. revert self. induction Hm as [|a l Ha Hl IH]; intros self; simpl.
  { exists self, []. split; [done|]. rewrite Hf by (by rewrite Nat.Div0.mod_0_l). destruct self. simpl.
    unfold chunks_exact_mut, chunks_exact, remainder. simpl. by rewrite Nat.Div0.div_0_l, drop_nil. }
  assert (aligned (concat l)) as Hcl.
  { clear -Hl. induction Hl as [|x l Hx Hl IHl]; simpl; [by rewrite Nat.Div0.mod_0_l|].
    rewrite length_app, <- Nat.Div0.add_mod_idemp_l, Hx. done. }
  rewrite !Hf by first [done | rewrite length_app, <- Nat.Div0.add_mod_idemp_l, Ha; done].
  rewrite chunks_mut_app by (done || apply block_bytes_pos).
  destruct (chunks_exact_mut bb (step (key self)) (gamma self) a) as [g a'].
  destruct (IH {| key := key self; gamma := g |}) as (self' & outs & -> & He). rewrite Hf in He by done.
  simpl in He. destruct (chunks_exact_mut bb (step (key self)) g (concat l)) as [g2 b'].
  injection He as <- ->. do 2 eexists. split; [done|]. simpl. done.
Qed.
End cbc_lemmas.

(** A message encrypted by a fresh object in any number of block-aligned calls is decrypted by a
    fresh object with the same key and IV, in any other split into block-aligned calls. *)
Theorem cbc_stream_roundtrip {K} `{BlockCipherLaws K} (k iv : list Z) (bufs : list (list Z)) :
  array_ok (key_bytes K) k → array_ok (block_bytes K) iv →
  Forall bytes_ok bufs → Forall (λ b, length b mod block_bytes K = 0)%nat bufs →
  ∃ self self' cts, new k iv = Some self ∧
    calls encrypt_in_place self bufs = Some (self', cts) ∧ array_ok (length (concat bufs)) (concat cts) ∧
    ∀ cts', concat cts' = concat cts → Forall (λ b, length b mod block_bytes K = 0)%nat cts' →
      ∃ pts, calls decrypt_in_place self cts' = Some (self', pts) ∧ concat pts = concat bufs.
Proof.
  intros Hk Hiv Hb Hm. destruct (new_ok k iv Hk Hiv) as (self & Hnew & Hok & _).
  destruct (calls_concat encrypt_in_place encrypt_step self bufs encrypt_aligned Hm) as (s1 & cts & Hc & He).
  assert (length (concat bufs) mod block_bytes K = 0)%nat as Hcl.
  { clear -Hm. induction Hm as [|x l Hx Hl IHl]; simpl; [by rewrite Nat.Div0.mod_0_l|].
    rewrite length_app, <- Nat.Div0.add_mod_idemp_l, Hx. done. }
  destruct (encrypt_roundtrip self (concat bufs) Hok) as (s2 & ct & He2 & _ & Hct & Hd);
    [by apply Forall_concat|done|].
  rewrite He in He2. injection He2 as -> <-.
  exists self, s2, cts. split; [done|]. split; [done|]. split; [done|]. intros cts' Hcts Hm'.
  destruct (calls_concat decrypt_in_place decrypt_step self cts' decrypt_aligned Hm') as (s3 & pts & Hp & He3).
  rewrite Hcts, Hd in He3. injection He3 as <- Hpts. exists pts. by split.
Qed.

Lemma cbc_stream_roundtrip_witness :
  let bufs := [seqZ 0 16; []; seqZ 16 32] in
  ∃ self self' cts, new (K := ExpandedKey Kalyna128_128) (seqZ 0 16) (seqZ 16 16) = Some self ∧
    calls encrypt_in_place self bufs = Some (self', cts) ∧ array_ok 48 (concat cts) ∧
    ∀ cts', concat cts' = concat cts → Forall (λ b, length b mod 16 = 0)%nat cts' →
      ∃ pts, calls decrypt_in_place self cts' = Some (self', pts) ∧ concat pts = concat bufs.
Proof.
  refine (cbc_stream_roundtrip (K := ExpandedKey Kalyna128_128) (seqZ 0 16) (seqZ 16 16)
    [seqZ 0 16; []; seqZ 16 32] _ _ _ _); by_decision.
Defined.

(** One call is the recurrence of the standard, [C_i = E(P_i ⊕ C_(i-1))] from [C_0 = gamma], and
    leaves the last ciphertext block as the next [gamma]; a misaligned buffer is refused and leaves
    the object and the buffer unchanged. *)
Theorem cbc_recurrence {K} `{BlockCipherLaws K} (self : Cbc K) (buf : list Z) :
  cbc_ok self → bytes_ok buf →
  if decide (length buf mod block_bytes K = 0)%nat then
    ∃ self' ct, encrypt_in_place self buf = (self', ct, Ok tt) ∧ cbc_ok self' ∧
      let p := chunks_exact (block_bytes K) buf in let c := chunks_exact (block_bytes K) ct in
      length c = length p ∧
      (∀ i, (i < length p)%nat →
        nth i c [] = encrypt_block (key self) (xor_into (nth i p []) (nth i (gamma self :: c) []))) ∧
      gamma self' = List.last c (gamma self)
  else encrypt_in_place self buf = (self, buf, Err InvalidLength_) ∧
       decrypt_in_place self buf = (self, buf, Err InvalidLength_).
Proof.
  intros [Hk Hg] Hb. case_decide as Hm.
  2: { unfold encrypt_in_place, decrypt_in_place. apply Nat.eqb_neq in Hm. by rewrite Hm. }
  destruct (chunks_mut_result (block_bytes K) (encrypt_step (key self)) (array_ok (block_bytes K)) block_bytes_pos)
    with (s := gamma self) (buf := buf) as (H1 & H2 & Hc); try done.
  { intros. by apply encrypt_step_ok. }
  rewrite encrypt_aligned by done. revert H1 Hc. unfold chunks_exact_mut.
  pose proof (length_map_accum (encrypt_step (key self)) (gamma self) (chunks_exact (block_bytes K) buf)) as Hl.
  pose proof (chunks_exact_ok (block_bytes K) buf block_bytes_pos Hb) as Hcs.
  destruct (map_accum (encrypt_step (key self)) (gamma self) (chunks_exact (block_bytes K) buf)) as [g cs] eqn:He.
  simpl. intros H1 Hc. do 2 eexists. split; [done|]. split; [done|]. simpl. rewrite Hc.
  clear H2 Hc Hm H1 Hb. revert He Hl Hcs Hg. generalize (chunks_exact (block_bytes K) buf) as p.
  generalize (gamma self) as g0. intros g0 p. revert g0 g cs.
  induction p as [|b p IH]; intros g0 g cs; simpl.
  { intros [= <- <-] _ _ _. split; [done|]. split; [intros; lia|done]. }
  destruct (map_accum (encrypt_step (key self)) _ p) as [g2 ys] eqn:He. intros [= <- <-]. simpl. intros [= Hl] Hcs Hg.
  apply Forall_cons in Hcs as [Hbk Hcs].
  assert (array_ok (block_bytes K) (encrypt_block (key self) (xor_into g0 b))) as Hg'
    by (apply (encrypt_step_ok _ g0 b); done).
  destruct (IH _ _ _ He Hl Hcs Hg') as (Hl' & Hn & Hlast). split; [by f_equal|]. split.
  - intros [|i] Hi; simpl; [|by apply Hn; lia]. rewrite (xor_into_comm b); [done|].
    destruct Hbk, Hg. lia.
  - by rewrite Hlast, <- (last_cons_default _ g0).
Qed.

Lemma cbc_recurrence_witness :
  ∃ self : Cbc (ExpandedKey Kalyna128_128), new (seqZ 0 16) (seqZ 16 16) = Some self ∧
    (∃ self' ct, encrypt_in_place self (seqZ 0 32) = (self', ct, Ok tt) ∧ cbc_ok self' ∧
      let p := chunks_exact 16 (seqZ 0 32) in let c := chunks_exact 16 ct in
      length c = length p ∧
      (∀ i, (i < length p)%nat →
        nth i c [] = encrypt_block (key self) (xor_into (nth i p []) (nth i (gamma self :: c) []))) ∧
      gamma self' = List.last c (gamma self)) ∧
    encrypt_in_place self (seqZ 0 33) = (self, seqZ 0 33, Err InvalidLength_).
Proof.
  destruct (new_ok (K := ExpandedKey Kalyna128_128) (seqZ 0 16) (seqZ 16 16)) as (self & He & Hok & _);
    [by_decision..|].
  exists self. split; [exact He|]. split.
  - apply (cbc_recurrence self (seqZ 0 32) Hok). by_decision.
  - apply (cbc_recurrence self (seqZ 0 33) Hok). by_decision.
Defined.
