(* ===== verification/Ctr.v ===== *)
(** CTR over any block cipher of the interface ([hazmat/kalyna_ctr.rs]).  The loops over
    [buf[data_off..]] are functions of the data that is left; they return the bytes already done and
    the rest. *)

From S2P Require Import Prelude BlockCipher Stream Kalyna.

Section ctr.
Context {K : Type} `{BlockCipher K}.
Local Abbreviation bb := (block_bytes K).

Record Ctr : Type := { key : K; gamma : list Z; feed : list Z; used_gamma_len : nat }.

Definition new (key iv : list Z) : option Ctr :=
  key ← expanded_new K key;
  let gamma := encrypt_block key iv in
  Some {| key := key; gamma := gamma; feed := gamma; used_gamma_len := bb |}.

Fixpoint increment_counter (counter : list Z) : list Z :=
  match counter with
  | [] => []
  | byte :: rest =>
      let byte := wrapping_add 8 byte 1 in
      if negb (Z.eqb byte 0) then byte :: rest else byte :: increment_counter rest
  end.

(** [while offset < block_bytes && data_off < buf.len()]. *)
Fixpoint use_gamma (gamma : list Z) (offset : nat) (data : list Z) : list Z * nat * list Z :=
  match data with
  | [] => ([], offset, [])
  | b :: rest =>
      if Nat.ltb offset bb then
        let '(done, offset', rest') := use_gamma gamma (S offset) rest in
        ((b ⊕ gamma.[offset]) :: done, offset', rest')
      else ([], offset, data)
  end.

(** [while data_off + block_bytes <= buf.len()]. *)
Fixpoint whole_blocks (fuel : nat) (key : K) (gamma feed data : list Z) : list Z * list Z * list Z * list Z :=
  match fuel with
  | O => ([], gamma, feed, data)
  | S fuel =>
      if Nat.leb bb (length data) then
        let block := xor_into (take bb data) gamma in
        let feed := increment_counter feed in
        let gamma := encrypt_block key feed in
        let '(done, gamma, feed, rest) := whole_blocks fuel key gamma feed (drop bb data) in
        (block ++ done, gamma, feed, rest)
      else ([], gamma, feed, data)
  end.

(** [while data_off < buf.len()]. *)
Fixpoint last_bytes (gamma : list Z) (offset : nat) (data : list Z) : list Z * nat :=
  match data with
  | [] => ([], offset)
  | b :: rest =>
      let '(done, offset') := last_bytes gamma (S offset) rest in
      ((b ⊕ gamma.[offset]) :: done, offset')
  end.

(** The part of the call served by the gamma left from the one before: [if offset != 0 { .. }]. *)
Definition leftover_gamma (self : Ctr) (buf : list Z) : list Z * list Z * list Z * nat * list Z :=
  let offset := used_gamma_len self in
  if negb (Nat.eqb offset 0) then
    let '(done, offset, rest) := use_gamma (gamma self) offset buf in
    if Nat.eqb offset bb then
      let feed := increment_counter (feed self) in
      (done, encrypt_block (key self) feed, feed, O, rest)
    else (done, gamma self, feed self, offset, rest)
  else ([], gamma self, feed self, offset, buf).

Definition apply_in_place (self : Ctr) (buf : list Z) : Ctr * list Z :=
  let '(out1, gamma, feed, offset, data) := leftover_gamma self buf in
  let '(out2, gamma, feed, data) := whole_blocks (length data) (key self) gamma feed data in
  let '(out3, offset) := last_bytes gamma offset data in
  ({| key := key self; gamma := gamma; feed := feed; used_gamma_len := offset |}, out1 ++ out2 ++ out3).
End ctr.
Arguments Ctr K : clear implicits.

(** The counter block after [i] increments, and the keystream of CTR. *)
Definition counter (start : list Z) (i : nat) : list Z := Nat.iter i increment_counter start.

Section keystream.
Context {K : Type} `{BlockCipher K} (k : K) (start : list Z).

Definition ctr_keystream (p : nat) : Z :=
  (encrypt_block k (counter start (p / block_bytes K + 1))).[p mod block_bytes K].

(** [self] is the object of key [k] and start counter [start] at position [p]. *)
Definition ctr_at (self : Ctr K) (p : nat) : Prop :=
  key self = k ∧ (used_gamma_len self ≤ block_bytes K)%nat ∧
  ∃ j, feed self = counter start j ∧
    (p + block_bytes K = j * block_bytes K + used_gamma_len self)%nat ∧
    ((used_gamma_len self < block_bytes K)%nat → gamma self = encrypt_block k (counter start j)).
End keystream.

(** ** The counter *)

Lemma increment_counter_ok n c : array_ok n c → array_ok n (increment_counter c).
Proof.
  intros [<- Hc]. induction Hc as [|b c Hb Hc [IHl IHc]]; [done|]. cbn [increment_counter].
  assert (byte_ok (wrapping_add 8 b 1)) by (apply word_ok_wrap; lia).
  destruct (Z.eqb _ _); split; simpl; auto using f_equal.
Qed.

(** The counter is a little-endian number modulo [2 ^ (8 * n)]. *)
Lemma increment_counter_value c :
  bytes_ok c → from_le_bytes (increment_counter c) = (from_le_bytes c + 1) mod 2 ^ (8 * length c).
Proof.
  induction 1 as [|b c Hb Hc IH]; [done|]. cbn [increment_counter length from_le_bytes].
  pose proof (from_le_bytes_bound c Hc) as Hbd. unfold word_ok in *.
  replace (8 * S (length c)) with (8 + 8 * length c) by lia. rewrite Z.pow_add_r by lia. change (2 ^ 8) with 256 in *.
  unfold wrapping_add. rewrite wrap_mod by lia. change (2 ^ 8) with 256.
  destruct (decide (b = 255)) as [->|Hne].
  - change ((255 + 1) mod 256) with 0. simpl negb. cbn [from_le_bytes]. cbv iota. rewrite IH.
    replace (255 + 256 * from_le_bytes c + 1) with (256 * (from_le_bytes c + 1)) by lia.
    rewrite Zmult_mod_distr_l. lia.
  - rewrite (Z.mod_small (b + 1)) by lia. destruct (Z.eqb_spec (b + 1) 0); [lia|]. simpl.
    rewrite Z.mod_small; lia.
Qed.

Lemma counter_ok n start i : array_ok n start → array_ok n (counter start i).
Proof. intros. induction i; [done|]. by apply increment_counter_ok. Qed.

Lemma counter_value n start i :
  array_ok n start → from_le_bytes (counter start i) = (from_le_bytes start + i) mod 2 ^ (8 * n).
Proof.
  intros Hs. induction i as [|i IH].
  - replace (from_le_bytes start + O) with (from_le_bytes start) by lia.
    pose proof (from_le_bytes_bound start) as Hb. destruct Hs as [<- Hs]. simpl. symmetry. by apply Z.mod_small, Hb.
  - pose proof (counter_ok n start i Hs) as [Hl Hi]. change (counter start (S i)) with (increment_counter (counter start i)).
    rewrite increment_counter_value, IH, Hl by done. rewrite Zplus_mod_idemp_l. f_equal. lia.
Qed.

(** The counter blocks of one pass never repeat. *)
Lemma counter_inj n start (i j : nat) :
  array_ok n start → (i < 2 ^ (8 * n)) → (j < 2 ^ (8 * n)) → counter start i = counter start j → i = j.
Proof.
  intros Hs Hi Hj He. apply (f_equal from_le_bytes) in He. rewrite !(counter_value n) in He by done.
  apply (f_equal (λ z, (z - from_le_bytes start) mod 2 ^ (8 * n))) in He.
  rewrite !Zminus_mod_idemp_l in He.
  replace (from_le_bytes start + i - from_le_bytes start) with (Z.of_nat i) in He by lia.
  replace (from_le_bytes start + j - from_le_bytes start) with (Z.of_nat j) in He by lia.
  rewrite !Z.mod_small in He by lia. lia.
Qed.

(** ** The three loops *)

Section loops.
Context {K : Type} `{BlockCipherLaws K} (k : K) (start : list Z).
Hypothesis Hk : key_ok k.
Hypothesis Hstart : array_ok (block_bytes K) start.
Local Abbreviation bb := (block_bytes K).
Local Abbreviation ks := (ctr_keystream k start).
Local Abbreviation gamma_of j := (encrypt_block k (counter start j)).

Lemma gamma_length j : length (gamma_of j) = bb.
Proof. apply encrypt_block_ok; [done|]. by apply counter_ok. Qed.

(** The keystream inside block [j]. *)
Lemma keystream_block p j o :
  (o < bb)%nat → (p + bb = j * bb + o)%nat → ks p = (gamma_of j).[o].
Proof.
  intros Ho Hp. unfold ctr_keystream. destruct j as [|j]; [lia|].
  assert (p = o + j * bb)%nat as -> by lia.
  rewrite Nat.div_add, Nat.Div0.mod_add, Nat.div_small, Nat.mod_small by lia. do 3 f_equal. lia.
Qed.

Lemma use_gamma_spec j p o data :
  (o ≤ bb)%nat → (p + bb = j * bb + o)%nat →
  let '(done, o', rest) := use_gamma (K := K) (gamma_of j) o data in
  data = take (length done) data ++ rest ∧ (length done + length rest = length data)%nat ∧
  done = xor_keystream ks p (take (length done) data) ∧ (o' = o + length done)%nat ∧ (o' ≤ bb)%nat ∧
  (rest = [] ∨ o' = bb).
Proof.
  revert p o. induction data as [|b data IH]; intros p o Ho Hp; simpl; [repeat split; auto; lia|].
  destruct (Nat.ltb_spec o bb) as [Hlt|Hge].
  2: { simpl. repeat split; auto; try lia. }
  specialize (IH (S p) (S o) ltac:(lia) ltac:(lia)).
  destruct (use_gamma (gamma_of j) (S o) data) as [[done o'] rest]. simpl.
  destruct IH as (H1 & H2 & H3 & H4 & H5 & H6). split; [by f_equal|]. split; [lia|].
  split; [|split; [lia|by split]]. rewrite (keystream_block p j o) by done. f_equal. apply H3.
Qed.

Lemma whole_blocks_spec fuel j p data :
  (length data ≤ fuel)%nat → (p + bb = j * bb)%nat →
  ∃ done rest j', whole_blocks fuel k (gamma_of j) (counter start j) data = (done, gamma_of j', counter start j', rest) ∧
    done ++ xor_keystream ks (p + length done) rest = xor_keystream ks p data ∧
    (p + length done + bb = j' * bb)%nat ∧ (length done + length rest = length data)%nat ∧ (length rest < bb)%nat.
Proof.
  revert j p data. pose proof (block_bytes_pos (K := K)) as Hpos.
  induction fuel as [|fuel IH]; intros j p data Hf Hp; simpl.
  { exists [], data, j. destruct data; [|simpl in Hf; lia]. simpl. repeat split; lia. }
  destruct (Nat.leb_spec bb (length data)) as [Hle|Hlt].
  2: { exists [], data, j. simpl. rewrite Nat.add_0_r. repeat split; lia. }
  destruct (IH (S j) (p + bb)%nat (drop bb data)) as (done & rest & j' & He & H1 & H2 & H3 & H4);
    [rewrite length_drop; lia|lia|].
  change (increment_counter (counter start j)) with (counter start (S j)). rewrite He.
  rewrite length_drop in H3.
  exists (xor_into (take bb data) (gamma_of j) ++ done), rest, j'. split; [done|].
  assert (length (take bb data) = bb) as Hl by (rewrite length_take; lia).
  rewrite length_app, length_xor_into, Hl, <- app_assoc. split; [|repeat split; lia].
  rewrite <- (take_drop bb data) at 2. rewrite xor_keystream_app, Hl, <- H1, Nat.add_assoc. f_equal.
  apply xor_into_keystream; [rewrite gamma_length; lia|]. intros i Hi. apply keystream_block; lia.
Qed.

Lemma last_bytes_spec j p o data :
  (o + length data < bb)%nat → (p + bb = j * bb + o)%nat →
  last_bytes (gamma_of j) o data = (xor_keystream ks p data, o + length data)%nat.
Proof.
  revert p o. induction data as [|b data IH]; intros p o Ho Hp; simpl; [by rewrite Nat.add_0_r|].
  simpl in Ho. rewrite (IH (S p)) by lia. rewrite (keystream_block p j o) by lia. by rewrite Nat.add_succ_r.
Qed.

Lemma leftover_gamma_spec self p buf :
  ctr_at k start self p →
  ∃ out o data j, leftover_gamma self buf = (out, gamma_of j, counter start j, o, data) ∧
    out ++ xor_keystream ks (p + length out) data = xor_keystream ks p buf ∧
    (length out + length data = length buf)%nat ∧ (p + length out + bb = j * bb + o)%nat ∧
    (o < bb)%nat ∧ (data = [] ∨ o = O).
Proof.
  intros (Hkey & Hused & j & Hfeed & Hp & Hg). unfold leftover_gamma. rewrite Hkey, Hfeed.
  pose proof (block_bytes_pos (K := K)) as Hpos.
  destruct (Nat.eqb_spec (used_gamma_len self) 0) as [Hz|Hz]; simpl.
  { rewrite Hg by lia. exists [], (used_gamma_len self), buf, j. simpl. rewrite Nat.add_0_r. repeat split; auto; lia. }
  assert (use_gamma (K := K) (gamma self) (used_gamma_len self) buf =
    use_gamma (K := K) (gamma_of j) (used_gamma_len self) buf) as ->.
  { destruct (decide (used_gamma_len self < bb)%nat); [by rewrite Hg|].
    destruct buf; simpl; [done|]. destruct (Nat.ltb_spec (used_gamma_len self) bb); [lia|done]. }
  pose proof (use_gamma_spec j p (used_gamma_len self) buf Hused Hp) as Hu.
  destruct (use_gamma (gamma_of j) (used_gamma_len self) buf) as [[done o'] rest].
  destruct Hu as (H1 & H2 & H3 & H4 & H5 & H6).
  assert (done ++ xor_keystream ks (p + length done) rest = xor_keystream ks p buf) as Hx.
  { rewrite H1. rewrite xor_keystream_app, <- H3. do 2 f_equal. rewrite length_take. lia. }
  destruct (Nat.eqb_spec o' bb) as [->|Hne].
  - exists done, O, rest, (S j). repeat split; auto; lia.
  - rewrite Hg by lia. exists done, o', rest, j. repeat split; auto; try lia. destruct H6; [by left|done].
Qed.

#[export] Instance ctr_stream : StreamSpec apply_in_place (ctr_at k start) ks.
Proof.
  intros self p buf Hat. unfold apply_in_place. pose proof (block_bytes_pos (K := K)) as Hpos.
  destruct (leftover_gamma_spec self p buf Hat) as (out1 & o & data & j & -> & Hout & Hlen & Hpo & Ho & Hd).
  destruct Hat as (-> & _).
  destruct Hd as [-> | ->].
  - simpl. split.
    + unfold ctr_at. simpl. split; [done|]. split; [lia|]. exists j. simpl in Hlen. repeat split; lia.
    + by rewrite !app_nil_r in *.
  - destruct (whole_blocks_spec (length data) j (p + length out1) data) as (mid & rest & j2 & -> & H1 & H2 & H3 & H4);
      [done|lia|]. rewrite (last_bytes_spec j2 (p + length out1 + length mid)) by lia.
    split.
    + unfold ctr_at. simpl. split; [done|]. split; [lia|]. exists j2. repeat split; lia.
    + simpl. by rewrite H1, Hout.
Qed.
End loops.

Lemma counter_closed n start i :
  array_ok n start → counter start i = to_le_bytes n (from_le_bytes start + i).
Proof.
  intros Hs. pose proof (counter_ok n start i Hs) as [Hl Hi].
  apply from_le_bytes_inj; [by rewrite length_to_le_bytes|done|apply to_le_bytes_ok|].
  by rewrite (counter_value n), from_to_le_bytes.
Qed.

Lemma new_at {K} `{BlockCipherLaws K} key iv :
  array_ok (key_bytes K) key → array_ok (block_bytes K) iv →
  ∃ k self, expanded_new K key = Some k ∧ key_ok k ∧ new key iv = Some self ∧
    ctr_at k (encrypt_block k iv) self 0.
Proof.
  intros Hkey Hiv. destruct (expanded_new_ok key Hkey) as (k & He & Hk). exists k. eexists.
  split; [done|]. split; [done|]. split; [unfold new; by rewrite He|].
  split; [done|]. simpl. split; [lia|]. exists O. split; [done|]. split; lia.
Qed.

(** CTR is the stream cipher whose byte [p] is byte [p mod b] of [E(E(iv) + p / b + 1)], the counter
    being little-endian: any sequence of calls, of any sizes, XORs the data with it, and a fresh
    object with the same key and IV takes the result back in any other sequence of calls. *)
Theorem ctr_stream_cipher {K} `{BlockCipherLaws K} (key iv : list Z) :
  array_ok (key_bytes K) key → array_ok (block_bytes K) iv →
  ∃ k self, expanded_new K key = Some k ∧ new key iv = Some self ∧ ∀ bufs,
    let outs := (map_accum apply_in_place self bufs).2 in
    map length outs = map length bufs ∧
    concat outs = xor_keystream (λ p,
      (encrypt_block k (to_le_bytes (block_bytes K)
         (from_le_bytes (encrypt_block k iv) + (p / block_bytes K + 1)%nat))).[p mod block_bytes K])
      0 (concat bufs) ∧
    ∀ cts, concat cts = concat outs → concat (map_accum apply_in_place self cts).2 = concat bufs.
Proof.
  intros Hkey Hiv. destruct (new_at key iv Hkey Hiv) as (k & self & He & Hk & Hn & Hat).
  exists k, self. split; [done|]. split; [done|]. intros bufs. simpl.
  assert (array_ok (block_bytes K) (encrypt_block k iv)) as Hs by (by apply encrypt_block_ok).
  pose proof (ctr_stream k (encrypt_block k iv) Hk Hs) as Hspec.
  destruct (stream_calls _ _ _ self 0 bufs Hat) as (_ & Hl & Hc). split; [done|]. split.
  - rewrite Hc. apply xor_keystream_ext. intros i _. unfold ctr_keystream.
    by rewrite (counter_closed (block_bytes K)).
  - intros cts Hcts. by eapply stream_roundtrip.
Qed.

Lemma ctr_stream_cipher_witness :
  ∃ k self, expanded_new (ExpandedKey Kalyna128_128) (seqZ 0 16) = Some k ∧
    new (K := ExpandedKey Kalyna128_128) (seqZ 0 16) (seqZ 16 16) = Some self ∧ ∀ bufs,
    let outs := (map_accum apply_in_place self bufs).2 in
    map length outs = map length bufs ∧
    concat outs = xor_keystream (λ p,
      (encrypt_block k (to_le_bytes 16 (from_le_bytes (encrypt_block k (seqZ 16 16)) + (p / 16 + 1)%nat))).[p mod 16])
      0 (concat bufs) ∧
    ∀ cts, concat cts = concat outs → concat (map_accum apply_in_place self cts).2 = concat bufs.
Proof.
  refine (ctr_stream_cipher (K := ExpandedKey Kalyna128_128) (seqZ 0 16) (seqZ 16 16) _ _); by_decision.
Defined.

(** Up to [2 ^ (8 * b)] blocks, no two counter values and no two gamma blocks coincide. *)
Theorem ctr_gamma_distinct {K} `{BlockCipherLaws K} (k : K) (start : list Z) (i j : nat) :
  key_ok k → array_ok (block_bytes K) start →
  i < 2 ^ (8 * block_bytes K) → j < 2 ^ (8 * block_bytes K) → i ≠ j →
  counter start i ≠ counter start j ∧
  encrypt_block k (counter start i) ≠ encrypt_block k (counter start j).
Proof.
  intros Hk Hs Hi Hj Hne. assert (counter start i ≠ counter start j) as Hc.
  { intros He. apply Hne. by apply (counter_inj (block_bytes K) start). }
  split; [done|]. intros He. apply Hc. apply (encrypt_block_inj k); auto using counter_ok.
Qed.

Lemma ctr_gamma_distinct_witness :
  ∃ k : ExpandedKey Kalyna128_128, expanded_new (ExpandedKey Kalyna128_128) (seqZ 0 16) = Some k ∧
    counter (replicate 16 255) 0 ≠ counter (replicate 16 255) 1 ∧
    encrypt_block k (counter (replicate 16 255) 0) ≠ encrypt_block k (counter (replicate 16 255) 1).
Proof.
  destruct (expanded_new_ok (K := ExpandedKey Kalyna128_128) (seqZ 0 16) ltac:(by_decision)) as (k & He & Hk).
  exists k. split; [exact He|]. refine (ctr_gamma_distinct k (replicate 16 255) 0 1 Hk _ _ _ _); by_decision.
Defined.
