(* ===== verification/Ofb.v ===== *)
(** OFB over any block cipher of the interface ([hazmat/kalyna_ofb.rs]).  The loop over
    [buf[data_off..]] is a function of the data that is left. *)

From S2P Require Import Prelude BlockCipher Stream Kalyna.

Section ofb.
Context {K : Type} `{BlockCipher K}.
Local Abbreviation bb := (block_bytes K).

Record Ofb : Type := { key : K; gamma : list Z; used_gamma_len : nat }.

Definition new (key iv : list Z) : option Ofb :=
  key ← expanded_new K key; Some {| key := key; gamma := iv; used_gamma_len := O |}.

(** [while data_off < buf.len()]. *)
Fixpoint apply_loop (fuel : nat) (key : K) (gamma : list Z) (used : nat) (data : list Z) : list Z * list Z * nat :=
  match fuel with
  | O => ([], gamma, used)
  | S fuel =>
      if Nat.ltb 0 (length data) then
        let gamma := encrypt_block key gamma in
        let n := Nat.min bb (length data) in
        let block := xor_into (take n data) gamma in
        let '(done, gamma, used) := apply_loop fuel key gamma n (drop n data) in
        (block ++ done, gamma, used)
      else ([], gamma, used)
  end.

Definition apply_in_place (self : Ofb) (buf : list Z) : Ofb * list Z :=
  let '(out1, used, data) :=
    if negb (Nat.eqb (used_gamma_len self) 0) then
      let avail := (bb - used_gamma_len self)%nat in
      let n := Nat.min avail (length buf) in
      (xor_into (take n buf) (drop (used_gamma_len self) (gamma self)), (used_gamma_len self + n)%nat, drop n buf)
    else ([], used_gamma_len self, buf) in
  let '(out2, gamma, used) := apply_loop (length data) (key self) (gamma self) used data in
  ({| key := key self; gamma := gamma; used_gamma_len := used |}, out1 ++ out2).
End ofb.
Arguments Ofb K : clear implicits.

Section ofb_lemmas.
Context {K : Type} `{BlockCipherLaws K} (k : K) (iv : list Z).
Hypothesis Hk : key_ok k.
Hypothesis Hiv : array_ok (block_bytes K) iv.
Local Abbreviation bb := (block_bytes K).

(** The gamma after [j] encryptions and the keystream it gives. *)
Definition gamma_after (j : nat) : list Z := Nat.iter j (encrypt_block k) iv.
Definition ofb_keystream (p : nat) : Z := (gamma_after (p / bb + 1)).[p mod bb].

Definition ofb_at (self : Ofb K) (p : nat) : Prop :=
  key self = k ∧ ∃ j, gamma self = gamma_after j ∧
    ((j = O ∧ used_gamma_len self = O ∧ p = O) ∨
     (0 < used_gamma_len self ≤ bb ∧ p + bb = j * bb + used_gamma_len self)%nat).

Lemma gamma_after_ok j : array_ok bb (gamma_after j).
Proof using Hiv Hk H0. induction j; [done|]. by apply encrypt_block_ok. Qed.

Lemma ofb_keystream_block p j o :
  (o < bb)%nat → (p + bb = j * bb + o)%nat → ofb_keystream p = (gamma_after j).[o].
Proof.
  intros Ho Hp. unfold ofb_keystream. destruct j as [|j]; [lia|].
  assert (p = o + j * bb)%nat as -> by lia.
  rewrite Nat.div_add, Nat.Div0.mod_add, Nat.div_small, Nat.mod_small by lia. do 2 f_equal. lia.
Qed.

(** A piece of the current gamma block. *)
Lemma xor_gamma p j o data :
  (o + length data ≤ bb)%nat → (p + bb = j * bb + o)%nat →
  xor_into data (drop o (gamma_after j)) = xor_keystream ofb_keystream p data.
Proof using Hiv Hk H0.
  intros Ho Hp. destruct (gamma_after_ok j) as [Hl _].
  apply xor_into_keystream; [rewrite length_drop; lia|]. intros i Hi.
  rewrite (ofb_keystream_block (p + i) j (o + i)) by lia. rewrite !nth_lookup, lookup_drop. done.
Qed.

Lemma apply_loop_spec fuel j used p data :
  (length data ≤ fuel)%nat → (p = j * bb)%nat →
  let '(done, gamma, used') := apply_loop fuel k (gamma_after j) used data in
  done = xor_keystream ofb_keystream p data ∧
  ∃ j', gamma = gamma_after j' ∧ ((data = [] ∧ j' = j ∧ used' = used) ∨
    (0 < used' ≤ bb ∧ p + length data + bb = j' * bb + used')%nat).
Proof using Hiv Hk H0.
  pose proof (block_bytes_pos (K := K)) as Hpos. revert j used p data.
  induction fuel as [|fuel IH]; intros j used p data Hf Hp; simpl.
  { destruct data; [|simpl in Hf; lia]. split; [done|]. exists j. auto. }
  destruct (Nat.ltb_spec 0 (length data)) as [Hlt|Hge].
  2: { destruct data; [|simpl in Hge; lia]. split; [done|]. exists j. auto. }
  set (n := Nat.min bb (length data)).
  change (encrypt_block k (gamma_after j)) with (gamma_after (S j)).
  destruct (decide (bb ≤ length data)%nat) as [Hle|Hgt].
  - assert (n = bb) as -> by lia.
    specialize (IH (S j) bb (p + bb)%nat (drop bb data) ltac:(rewrite length_drop; lia) ltac:(lia)).
    destruct (apply_loop fuel k (gamma_after (S j)) bb (drop bb data)) as [[mid g] u]. destruct IH as [-> (j' & -> & Hj)].
    assert (length (take bb data) = bb) as Hl by (rewrite length_take; lia). split.
    + rewrite <- (take_drop bb data) at 3. rewrite xor_keystream_app, Hl. f_equal.
      rewrite <- (drop_0 (gamma_after (S j))). apply xor_gamma; lia.
    + exists j'. split; [done|]. right. rewrite length_drop in Hj.
      destruct Hj as [(Hd & -> & ->)|Hj]; [|lia]. apply (f_equal length) in Hd. rewrite length_drop in Hd. simpl in Hd. lia.
  - assert (n = length data) as -> by lia. rewrite take_ge, drop_ge by lia.
    assert (apply_loop fuel k (gamma_after (S j)) (length data) [] = ([], gamma_after (S j), length data)) as -> by (by destruct fuel).
    rewrite app_nil_r. split; [|exists (S j); split; [done|]; right; lia].
    rewrite <- (drop_0 (gamma_after (S j))). apply xor_gamma; lia.
Qed.

#[export] Instance ofb_stream : StreamSpec apply_in_place ofb_at ofb_keystream.
Proof using Hiv Hk H0.
  intros self p buf (Hkey & j & Hg & Hp). unfold apply_in_place. rewrite Hkey, Hg.
  pose proof (block_bytes_pos (K := K)) as Hpos. destruct Hp as [(-> & -> & ->)|[Hu Hp]].
  - cbn [negb Nat.eqb]. pose proof (apply_loop_spec (length buf) 0 0 0 buf ltac:(lia) eq_refl) as Hs.
    destruct (apply_loop (length buf) k (gamma_after 0) 0 buf) as [[mid g] u]. destruct Hs as [-> (j' & -> & Hj)].
    split; [|done]. split; [done|]. exists j'. simpl. split; [done|]. destruct Hj as [(-> & -> & ->)|Hj]; auto.
  - destruct (Nat.eqb_spec (used_gamma_len self) 0) as [Hz|Hz]; [lia|]. cbn [negb].
    set (n := Nat.min _ _). rewrite (xor_gamma p) by first [lia | rewrite length_take; lia].
    assert (length (take n buf) = n) as Hl by (rewrite length_take; lia).
    pose proof (length_drop buf n) as Hld.
    destruct (decide (length (drop n buf) = 0)%nat) as [Hd|Hd].
    + apply nil_length_inv in Hd as Hnil. rewrite Hnil. simpl. rewrite app_nil_r. split.
      * split; [done|]. exists j. simpl. split; [done|]. right. lia.
      * f_equal. apply take_ge. lia.
    + pose proof (apply_loop_spec (length (drop n buf)) j (used_gamma_len self + n) (p + n) (drop n buf) ltac:(lia) ltac:(lia)) as Hs.
      destruct (apply_loop _ k (gamma_after j) _ (drop n buf)) as [[mid g] u]. destruct Hs as [-> (j' & -> & Hj)].
      split.
      * split; [done|]. exists j'. simpl. split; [done|]. right. destruct Hj as [(Hnil & _)|Hj]; [by rewrite Hnil in Hd|lia].
      * simpl. rewrite <- (take_drop n buf) at 3. by rewrite xor_keystream_app, Hl.
Qed.
End ofb_lemmas.

Lemma ofb_new_at {K} `{BlockCipherLaws K} key iv :
  array_ok (key_bytes K) key →
  ∃ k self, expanded_new K key = Some k ∧ key_ok k ∧ new key iv = Some self ∧ ofb_at k iv self 0.
Proof.
  intros Hkey. destruct (expanded_new_ok key Hkey) as (k & He & Hk). exists k. eexists.
  split; [done|]. split; [done|]. split; [unfold new; by rewrite He|].
  split; [done|]. exists O. auto.
Qed.

(** OFB is the stream cipher whose block [i] is [E] iterated [i + 1] times on the IV, in any sequence
    of calls, and undoes itself in any other one. *)
Theorem ofb_stream_cipher {K} `{BlockCipherLaws K} (key iv : list Z) :
  array_ok (key_bytes K) key → array_ok (block_bytes K) iv →
  ∃ k self, expanded_new K key = Some k ∧ new key iv = Some self ∧ ∀ bufs,
    let outs := (map_accum apply_in_place self bufs).2 in
    map length outs = map length bufs ∧
    concat outs = xor_keystream (λ p,
      (Nat.iter (p / block_bytes K + 1) (encrypt_block k) iv).[p mod block_bytes K]) 0 (concat bufs) ∧
    ∀ cts, concat cts = concat outs → concat (map_accum apply_in_place self cts).2 = concat bufs.
Proof.
  intros Hkey Hiv. destruct (ofb_new_at key iv Hkey) as (k & self & He & Hk & Hn & Hat).
  exists k, self. split; [done|]. split; [done|]. intros bufs. simpl.
  pose proof (ofb_stream k iv Hk Hiv) as Hspec.
  destruct (stream_calls _ _ _ self 0 bufs Hat) as (_ & Hl & Hc). split; [done|]. split; [done|].
  intros cts Hcts. by eapply stream_roundtrip.
Qed.

Lemma ofb_stream_cipher_witness :
  ∃ k self, expanded_new (ExpandedKey Kalyna256_512) (seqZ 0 64) = Some k ∧
    new (K := ExpandedKey Kalyna256_512) (seqZ 0 64) (seqZ 16 32) = Some self ∧ ∀ bufs,
    let outs := (map_accum apply_in_place self bufs).2 in
    map length outs = map length bufs ∧
    concat outs = xor_keystream (λ p,
      (Nat.iter (p / 32 + 1) (encrypt_block k) (seqZ 16 32)).[p mod 32]) 0 (concat bufs) ∧
    ∀ cts, concat cts = concat outs → concat (map_accum apply_in_place self cts).2 = concat bufs.
Proof.
  refine (ofb_stream_cipher (K := ExpandedKey Kalyna256_512) (seqZ 0 64) (seqZ 16 32) _ _); by_decision.
Defined.
