(* ===== verification/Cfb.v ===== *)
(** CFB with feedback width [q] over any block cipher of the interface ([hazmat/kalyna_cfb.rs]).
    The loops over [buf[data_off..]] are functions of the data that is left. *)

From S2P Require Import Prelude BlockCipher Kalyna.

Inductive CfbError : Type := InvalidFeedbackWidth | NonAlignedIntermediateCall.

#[global] Instance CfbError_eq_dec : EqDecision CfbError.
Proof. solve_decision. Defined.

Section cfb.
Context {K : Type} `{BlockCipher K}.
Local Abbreviation bb := (block_bytes K).

Record Cfb : Type := { key : K; gamma : list Z; feed : list Z; q : nat; used_gamma_len : nat }.

(** [None] when the key expansion does not end; the interface excludes it. *)
Definition new (key iv : list Z) (q : nat) : option (result Cfb CfbError) :=
  if Nat.eqb q 0 || Nat.ltb bb q || negb (existsb (Nat.eqb q) [1; 8; 16; 32; 64]%nat) then
    Some (Err InvalidFeedbackWidth)
  else
    key ← expanded_new K key;
    Some (Ok {| key := key; gamma := iv; feed := iv; q := q; used_gamma_len := bb |}).

(** [while offset < q && data_off < buf.len()]: returns the bytes done, [feed], [offset], the rest. *)
Fixpoint encrypt_leading (q : nat) (gamma feed : list Z) (offset : nat) (data : list Z)
    : list Z * list Z * nat * list Z :=
  match data with
  | [] => ([], feed, offset, [])
  | b :: rest =>
      if Nat.ltb offset q then
        let b := b ⊕ gamma.[offset] in
        let feed := <[offset := b]> feed in
        let '(done, feed, offset, rest) := encrypt_leading q gamma feed (S offset) rest in
        (b :: done, feed, offset, rest)
      else ([], feed, offset, data)
  end.

Fixpoint decrypt_leading (q : nat) (gamma feed : list Z) (offset : nat) (data : list Z)
    : list Z * list Z * nat * list Z :=
  match data with
  | [] => ([], feed, offset, [])
  | ciphertext_byte :: rest =>
      if Nat.ltb offset q then
        let b := ciphertext_byte ⊕ gamma.[offset] in
        let feed := <[offset := ciphertext_byte]> feed in
        let '(done, feed, offset, rest) := decrypt_leading q gamma feed (S offset) rest in
        (b :: done, feed, offset, rest)
      else ([], feed, offset, data)
  end.

(** [while data_off + q <= buf.len()]: returns the bytes done, [gamma], [feed], the rest. *)
Fixpoint encrypt_groups (fuel : nat) (key : K) (q offset : nat) (gamma feed data : list Z)
    : list Z * list Z * list Z * list Z :=
  match fuel with
  | O => ([], gamma, feed, data)
  | S fuel =>
      if Nat.leb q (length data) then
        let group := xor_into (take q data) (slice offset (offset + q) gamma) in
        let feed := copy_at 0 gamma feed in
        let feed := copy_at offset group feed in
        let gamma := encrypt_block key feed in
        let '(done, gamma, feed, rest) := encrypt_groups fuel key q offset gamma feed (drop q data) in
        (group ++ done, gamma, feed, rest)
      else ([], gamma, feed, data)
  end.

Fixpoint decrypt_groups (fuel : nat) (key : K) (q offset : nat) (gamma feed data : list Z)
    : list Z * list Z * list Z * list Z :=
  match fuel with
  | O => ([], gamma, feed, data)
  | S fuel =>
      if Nat.leb q (length data) then
        let ciphertext_chunk := copy_at 0 (take q data) (replicate bb 0) in
        let group := xor_into (take q data) (slice offset (offset + q) gamma) in
        let feed := copy_at 0 gamma feed in
        let feed := copy_at offset (take q ciphertext_chunk) feed in
        let gamma := encrypt_block key feed in
        let '(done, gamma, feed, rest) := decrypt_groups fuel key q offset gamma feed (drop q data) in
        (group ++ done, gamma, feed, rest)
      else ([], gamma, feed, data)
  end.

(** [while data_off < buf.len()]: returns the bytes done, [feed], [offset]. *)
Fixpoint encrypt_trailing (gamma feed : list Z) (offset : nat) (data : list Z) : list Z * list Z * nat :=
  match data with
  | [] => ([], feed, offset)
  | b :: rest =>
      let b := b ⊕ gamma.[bb - length data] in
      let '(done, feed, offset) := encrypt_trailing gamma (<[offset := b]> feed) (S offset) rest in
      (b :: done, feed, offset)
  end.

Fixpoint decrypt_trailing (gamma feed : list Z) (offset : nat) (data : list Z) : list Z * list Z * nat :=
  match data with
  | [] => ([], feed, offset)
  | ciphertext_byte :: rest =>
      let b := ciphertext_byte ⊕ gamma.[bb - length data] in
      let '(done, feed, offset) := decrypt_trailing gamma (<[offset := ciphertext_byte]> feed) (S offset) rest in
      (b :: done, feed, offset)
  end.

(** [if offset == block_bytes { .. }], after the leading bytes. *)
Definition refresh (self : Cfb) (feed : list Z) (offset : nat) : list Z * nat :=
  if Nat.eqb offset bb then (encrypt_block (key self) feed, (bb - q self)%nat) else (gamma self, offset).

(** The part of [encrypt_in_place] before the loop over whole groups. *)
Definition encrypt_leftover (self : Cfb) (buf : list Z) : list Z * list Z * list Z * nat * list Z :=
  let offset := used_gamma_len self in
  if negb (Nat.eqb offset 0) then
    let '(done, feed, offset, rest) := encrypt_leading (q self) (gamma self) (feed self) offset buf in
    let '(gamma, offset) := refresh self feed offset in
    (done, gamma, feed, offset, rest)
  else ([], gamma self, feed self, offset, buf).

(** The part of [decrypt_in_place] before the loop over whole groups. *)
Definition decrypt_leftover (self : Cfb) (buf : list Z) : list Z * list Z * list Z * nat * list Z :=
  let offset := used_gamma_len self in
  if negb (Nat.eqb offset 0) then
    let '(done, feed, offset, rest) := decrypt_leading (q self) (gamma self) (feed self) offset buf in
    let '(gamma, offset) := refresh self feed offset in
    (done, gamma, feed, offset, rest)
  else ([], gamma self, feed self, offset, buf).

Definition encrypt_in_place (self : Cfb) (buf : list Z) : Cfb * list Z * result unit CfbError :=
  if negb (Nat.eqb (used_gamma_len self mod q self) 0) then (self, buf, Err NonAlignedIntermediateCall)
  else
    let '(out1, gamma, feed, offset, data) := encrypt_leftover self buf in
    let '(out2, gamma, feed, data) := encrypt_groups (length data) (key self) (q self) offset gamma feed data in
    let '(out3, feed, offset) := encrypt_trailing gamma feed offset data in
    ({| key := key self; gamma := gamma; feed := feed; q := q self; used_gamma_len := offset |},
     out1 ++ out2 ++ out3, Ok tt).

Definition decrypt_in_place (self : Cfb) (buf : list Z) : Cfb * list Z * result unit CfbError :=
  if negb (Nat.eqb (used_gamma_len self mod q self) 0) then (self, buf, Err NonAlignedIntermediateCall)
  else
    let '(out1, gamma, feed, offset, data) := decrypt_leftover self buf in
    let '(out2, gamma, feed, data) := decrypt_groups (length data) (key self) (q self) offset gamma feed data in
    let '(out3, feed, offset) := decrypt_trailing gamma feed offset data in
    ({| key := key self; gamma := gamma; feed := feed; q := q self; used_gamma_len := offset |},
     out1 ++ out2 ++ out3, Ok tt).
End cfb.
Arguments Cfb K : clear implicits.

(** The feedback widths that [new] accepts. *)
Definition width_ok (bb q : nat) : Prop := (q ≤ bb)%nat ∧ q ∈ [1; 8; 16; 32; 64]%nat.

(** The invariant of the mode object: [t] bytes of the last feedback group have been used. *)
Definition cfb_ok {K} `{BlockCipher K} (self : Cfb K) : Prop :=
  key_ok (key self) ∧ array_ok (block_bytes K) (gamma self) ∧ array_ok (block_bytes K) (feed self) ∧
  width_ok (block_bytes K) (q self) ∧
  (block_bytes K - q self ≤ used_gamma_len self ≤ block_bytes K)%nat.

(** ** The specification: groups of [q] bytes, the last [q] gamma bytes replaced by ciphertext *)

Section spec.
Context {K : Type} `{BlockCipher K} (k : K) (q : nat).
Local Abbreviation bb := (block_bytes K).

Definition group_step (gamma p : list Z) : list Z * list Z :=
  let c := xor_into p (drop (bb - q) gamma) in
  (encrypt_block k (take (bb - q) gamma ++ c), c).

(** The gamma for the next group. *)
Definition next_gamma (self : Cfb K) : list Z :=
  if decide (used_gamma_len self = bb) then encrypt_block (key self) (feed self) else gamma self.
End spec.

Section lemmas.
Context {K : Type} `{BlockCipherLaws K}.
Local Abbreviation bb := (block_bytes K).

Lemma width_divides q : width_ok bb q → (0 < q)%nat ∧ (bb mod q = 0)%nat.
Proof.
  intros [Hq Hin]. rewrite !elem_of_cons, elem_of_nil in Hin.
  destruct (block_bytes_valid (K := K)) as [E | [E | E]]; rewrite E in *; destruct_or?; subst;
    (split; [lia|]); (reflexivity || lia).
Qed.

Lemma cfb_new_ok key iv q :
  array_ok (key_bytes K) key → array_ok bb iv → width_ok bb q →
  ∃ k self, expanded_new K key = Some k ∧ new key iv q = Some (Ok self) ∧ cfb_ok self ∧
    self = {| key := k; gamma := iv; feed := iv; q := q; used_gamma_len := bb |}.
Proof.
  intros Hkey Hiv Hq. destruct (expanded_new_ok key Hkey) as (k & He & Hk).
  exists k. eexists. split; [done|]. unfold new.
  assert (existsb (Nat.eqb q) [1; 8; 16; 32; 64]%nat = true) as ->.
  { destruct Hq as [_ Hin]. apply existsb_exists. exists q. by rewrite <- list_elem_of_In, Nat.eqb_refl. }
  destruct (width_divides q Hq) as [Hpos _]. pose proof Hq as [Hle _].
  rewrite (proj2 (Nat.eqb_neq q 0)), (proj2 (Nat.ltb_ge bb q)), He by lia. simpl.
  split; [done|]. split; [|done]. split; [done|]. split; [done|]. split; [done|]. split; [done|]. simpl. lia.
Qed.

(** ** Decryption undoes every loop of encryption *)

Lemma leading_inverse q g f o data rest' :
  let '(done, f', o', rest) := encrypt_leading q g f o data in
  length rest' = length rest →
  ∃ pre, decrypt_leading q g f o (done ++ rest') = (pre, f', o', rest') ∧ data = pre ++ rest ∧ length pre = length done.
Proof.
  revert f o. induction data as [|b data IH]; intros f o; simpl.
  { intros Hl. apply nil_length_inv in Hl as ->. exists []. by split. }
  destruct (Nat.ltb o q) eqn:Ho.
  - specialize (IH (<[o := b ⊕ g.[o]]> f) (S o)).
    destruct (encrypt_leading q g (<[o := b ⊕ g.[o]]> f) (S o) data) as [[[done f'] o'] rest].
    intros Hl. destruct (IH Hl) as (pre & He & -> & Hlen). simpl. rewrite Ho, He. rewrite lxor_cancel_r.
    exists (b :: pre). simpl. by rewrite Hlen.
  - intros Hl. exists []. simpl. split; [|done]. destruct rest'; [done|]. simpl. by rewrite Ho.
Qed.

Lemma length_leading q g f o data :
  let '(done, f', o', rest) := encrypt_leading q g f o data in (length done + length rest = length data)%nat.
Proof.
  revert f o. induction data as [|b data IH]; intros f o; simpl; [done|].
  destruct (Nat.ltb o q); [|done]. specialize (IH (<[o := b ⊕ g.[o]]> f) (S o)).
  destruct (encrypt_leading q g (<[o := b ⊕ g.[o]]> f) (S o) data) as [[[done f'] o'] rest]. simpl. lia.
Qed.

Lemma groups_inverse fuel k q o g f data tail :
  (0 < q ≤ bb)%nat → (length data ≤ fuel)%nat →
  let '(done, g', f', rest) := encrypt_groups fuel k q o g f data in
  length tail = length rest →
  ∃ pre, decrypt_groups (length (done ++ tail)) k q o g f (done ++ tail) = (pre, g', f', tail) ∧
    data = pre ++ rest ∧ length pre = length done.
Proof.
  intros Hq. assert (∀ fuel' data tail', (length data ≤ fuel)%nat →
    let '(done, g', f', rest) := encrypt_groups fuel k q o g f data in
    length tail' = length rest → (length (done ++ tail') ≤ fuel')%nat →
    ∃ pre, decrypt_groups fuel' k q o g f (done ++ tail') = (pre, g', f', tail') ∧
      data = pre ++ rest ∧ length pre = length done) as Hgen.
  2: { intros Hf. specialize (Hgen (length ((encrypt_groups fuel k q o g f data).1.1.1 ++ tail)) data tail Hf).
       destruct (encrypt_groups fuel k q o g f data) as [[[done g'] f'] rest]. intros Hl. by apply Hgen. }
  clear data tail. revert g f. induction fuel as [|fuel IH]; intros g f fuel' data tail Hf; simpl.
  { intros Hl _. destruct data; [|simpl in Hf; lia]. apply nil_length_inv in Hl as ->. exists [].
    split; [|done]. destruct fuel'; [done|]. simpl. by destruct (Nat.leb_spec q 0); [lia|]. }
  destruct (Nat.leb_spec q (length data)) as [Hle|Hlt].
  2: { intros Hl Hf'. exists []. split; [|done]. simpl. destruct fuel'; [done|]. simpl. rewrite Hl.
       by destruct (Nat.leb_spec q (length data)); [lia|]. }
  set (group := xor_into (take q data) (slice o (o + q) g)).
  set (f1 := copy_at o group (copy_at 0 g f)).
  assert (length group = q) as Hg by (unfold group; rewrite length_xor_into, length_take; lia).
  assert (length (drop q data) ≤ fuel)%nat as Hfd by (rewrite length_drop; lia).
  pose proof (λ fuel' tail, IH (encrypt_block k f1) f1 fuel' (drop q data) tail Hfd) as IH'.
  destruct (encrypt_groups fuel k q o (encrypt_block k f1) f1 (drop q data)) as [[[done g'] f'] rest].
  intros Hl Hf'. rewrite !length_app in Hf'. destruct fuel' as [|fuel']; [lia|].
  destruct (IH' fuel' tail Hl) as (pre & He & Hd & Hlen); [rewrite length_app; lia|].
  cbn [decrypt_groups]. rewrite <- app_assoc, (length_app group).
  destruct (Nat.leb_spec q (length group + length (done ++ tail))); [|lia].
  rewrite (take_app_length' group), (drop_app_length' group) by done.
  assert (take q (copy_at 0 group (replicate bb 0)) = group) as ->.
  { unfold copy_at. simpl. by rewrite take_app_length'. }
  fold f1. rewrite He. exists (take q data ++ pre). split; [|split].
  - unfold group. by rewrite xor_into_cancel.
  - by rewrite <- app_assoc, <- Hd, take_drop.
  - rewrite !length_app, length_take. lia.
Qed.

Lemma trailing_inverse g f o data :
  let '(done, f', o') := encrypt_trailing (K := K) g f o data in
  decrypt_trailing (K := K) g f o done = (data, f', o') ∧ length done = length data.
Proof.
  revert f o. induction data as [|b data IH]; intros f o; [done|]. cbn [encrypt_trailing].
  set (c := b ⊕ g.[bb - length (b :: data)]). specialize (IH (<[o := c]> f) (S o)).
  destruct (encrypt_trailing g (<[o := c]> f) (S o) data) as [[done f'] o']. destruct IH as [IH Hl].
  cbn [decrypt_trailing]. rewrite IH. split; [|simpl; by f_equal]. do 2 f_equal.
  unfold c. simpl. rewrite Hl. by rewrite lxor_cancel_r.
Qed.

Lemma length_groups fuel k q o g f data :
  let '(done, g', f', rest) := encrypt_groups fuel k q o g f data in (length done + length rest = length data)%nat.
Proof.
  revert g f data. induction fuel as [|fuel IH]; intros g f data; simpl; [done|].
  destruct (Nat.leb_spec q (length data)); [|done].
  match goal with |- context [encrypt_groups fuel k q o ?g ?f ?d] =>
    specialize (IH g f d); destruct (encrypt_groups fuel k q o g f d) as [[[done g'] f'] rest] end.
  rewrite length_drop in IH. rewrite length_app, length_xor_into, length_take. lia.
Qed.

Lemma leftover_inverse self buf tail :
  let '(done, g, f, o, rest) := encrypt_leftover self buf in
  length tail = length rest →
  ∃ pre, decrypt_leftover self (done ++ tail) = (pre, g, f, o, tail) ∧ buf = pre ++ rest.
Proof.
  unfold encrypt_leftover, decrypt_leftover. destruct (negb _).
  - pose proof (leading_inverse (q self) (gamma self) (feed self) (used_gamma_len self) buf tail) as Hl.
    destruct (encrypt_leading (q self) (gamma self) (feed self) (used_gamma_len self) buf) as [[[mid f] o] rest].
    destruct (refresh self f o) as [g' o'] eqn:Hr. intros Ht. destruct (Hl Ht) as (pre & -> & -> & _).
    rewrite Hr. by exists pre.
  - intros _. by exists [].
Qed.

(** Both directions refuse the same calls; otherwise decryption from the same object state undoes
    the call and leaves the same state. *)
Lemma call_inverse self buf :
  (0 < q self ≤ bb)%nat →
  let '(self', ct, r) := encrypt_in_place self buf in decrypt_in_place self ct = (self', buf, r).
Proof.
  intros Hq. unfold encrypt_in_place, decrypt_in_place. destruct (negb _); [done|].
  destruct (encrypt_leftover self buf) as [[[[out1 g] f] o] data] eqn:H1.
  pose proof (groups_inverse (length data) (key self) (q self) o g f data) as H2.
  pose proof (length_groups (length data) (key self) (q self) o g f data) as H2'.
  destruct (encrypt_groups (length data) (key self) (q self) o g f data) as [[[out2 g'] f'] rest].
  pose proof (trailing_inverse g' f' o rest) as H3.
  destruct (encrypt_trailing g' f' o rest) as [[out3 f''] o'']. destruct H3 as [H3 Hl3].
  destruct (H2 out3 Hq ltac:(lia) Hl3) as (pre2 & Hd2 & Hdata & Hl2).
  pose proof (leftover_inverse self buf (out2 ++ out3)) as H4. rewrite H1 in H4.
  destruct H4 as (pre1 & Hd1 & Hbuf); [rewrite length_app; lia|].
  rewrite Hd1, Hd2, H3, Hbuf, Hdata. done.
Qed.

(** ** Encryption is the specification *)

(** The leading loop of an aligned call never runs: the groups fill the gamma from its end. *)
Lemma leftover_aligned self buf :
  cfb_ok self → (used_gamma_len self mod q self = 0)%nat →
  encrypt_leftover self buf = ([], next_gamma self, feed self, (bb - q self)%nat, buf).
Proof.
  intros (Hk & Hg & Hf & Hq & Hu) Hm. destruct (width_divides _ Hq) as [Hq0 Hd]. destruct Hq as [Hqle _].
  apply Nat.Div0.mod_divides in Hm as [m Hm], Hd as [d Hd].
  assert (used_gamma_len self = bb ∨ used_gamma_len self = bb - q self)%nat as Hcase.
  { assert (m ≤ d)%nat by nia. assert (d ≤ S m)%nat by nia.
    destruct (decide (m = d)) as [->|]; [left; lia|right]. assert (d = S m) as -> by lia. lia. }
  unfold encrypt_leftover, next_gamma. destruct (Nat.eqb_spec (used_gamma_len self) 0) as [Hz|Hz]; cbn [negb].
  - rewrite decide_False by lia. rewrite Hz. do 2 f_equal. lia.
  - assert (q self ≤ used_gamma_len self)%nat as Hge by (destruct m; nia).
    assert (encrypt_leading (q self) (gamma self) (feed self) (used_gamma_len self) buf =
      ([], feed self, used_gamma_len self, buf)) as ->.
    { destruct buf; [done|]. simpl. by rewrite (proj2 (Nat.ltb_ge _ _)) by lia. }
    unfold refresh. destruct Hcase as [-> | ->].
    + by rewrite Nat.eqb_refl, decide_True.
    + rewrite (proj2 (Nat.eqb_neq _ _)), decide_False by lia. done.
Qed.

Lemma group_feed_ok q g c : (q ≤ bb)%nat → array_ok bb g → array_ok q c → array_ok bb (take (bb - q) g ++ c).
Proof.
  intros Hq Hg Hc. assert (array_ok (bb - q + q) (take (bb - q) g ++ c)) as Ha.
  { apply array_ok_app; [|done]. apply (array_ok_take _ bb); [done|lia]. }
  by rewrite Nat.sub_add in Ha.
Qed.

Lemma group_step_ok k q g p :
  key_ok k → (q ≤ bb)%nat → array_ok bb g → array_ok q p →
  array_ok bb (group_step k q g p).1 ∧ array_ok q (group_step k q g p).2.
Proof.
  intros Hk Hq Hg Hp. simpl. assert (array_ok q (xor_into p (drop (bb - q) g))) as Hx.
  { apply array_ok_xor_into; [done|]. apply Forall_drop, Hg. }
  split; [|done]. apply encrypt_block_ok; [done|]. by apply group_feed_ok.
Qed.

Lemma groups_spec fuel k q g f data :
  key_ok k → (0 < q ≤ bb)%nat → array_ok bb g → array_ok bb f → bytes_ok data → (length data ≤ fuel)%nat →
  ∃ f', encrypt_groups fuel k q (bb - q) g f data =
    (concat (map_accum (group_step k q) g (chunks_exact q data)).2,
     (map_accum (group_step k q) g (chunks_exact q data)).1, f', remainder q data) ∧ array_ok bb f'.
Proof.
  intros Hk Hq. revert g f data. induction fuel as [|fuel IH]; intros g f data Hg Hf Hd Hfuel; cbn [encrypt_groups].
  { destruct (chunks_exact_short q data) as [-> ->]; [lia|]. by exists f. }
  destruct (Nat.leb_spec q (length data)) as [Hle|Hlt].
  2: { destruct (chunks_exact_short q data) as [-> ->]; [lia|]. by exists f. }
  destruct (chunks_exact_cons q data) as [-> ->]; [lia..|].
  assert (copy_at 0 g f = g) as ->.
  { unfold copy_at. simpl. destruct Hg, Hf. rewrite drop_ge, app_nil_r by lia. done. }
  assert (slice (bb - q) (bb - q + q) g = drop (bb - q) g) as ->.
  { unfold slice. apply take_ge. rewrite length_drop. destruct Hg. lia. }
  assert (array_ok q (take q data)) as Ht by (split; [rewrite length_take; lia|by apply Forall_take]).
  destruct (group_step_ok k q g (take q data) Hk (proj2 Hq) Hg Ht) as [Hg1 [Hgl Hgb]].
  cbn [map_accum group_step fst snd] in *.
  set (c := xor_into (take q data) (drop (bb - q) g)) in *.
  assert (copy_at (bb - q) c g = take (bb - q) g ++ c) as ->.
  { unfold copy_at. rewrite (drop_ge g), app_nil_r by (destruct Hg; lia). done. }
  destruct (IH (encrypt_block k (take (bb - q) g ++ c)) (take (bb - q) g ++ c) (drop q data)) as (f' & -> & Hf').
  - done.
  - apply group_feed_ok; [lia|done|by split].
  - by apply Forall_drop.
  - rewrite length_drop. lia.
  - exists f'. split; [|done]. by destruct (map_accum (group_step k q) _ (chunks_exact q (drop q data))).
Qed.

Lemma trailing_spec g f o data :
  array_ok bb g → array_ok bb f → bytes_ok data → (length data ≤ bb)%nat →
  ∃ f', encrypt_trailing g f o data = (xor_into data (drop (bb - length data) g), f', (o + length data)%nat) ∧
    array_ok bb f'.
Proof.
  intros Hg. revert f o. induction data as [|b data IH]; intros f o Hf Hd Hl; cbn [encrypt_trailing].
  { exists f. by rewrite Nat.add_0_r. }
  apply Forall_cons in Hd as [Hb Hd]. simpl in Hl.
  assert (byte_ok (b ⊕ g.[bb - length (b :: data)])) as Hx by (apply word_ok_lxor; [lia|done|apply nth_byte_ok, Hg]).
  destruct (IH (<[o := b ⊕ g.[bb - length (b :: data)]]> f) (S o)) as (f' & -> & Hf'); [|done|lia|].
  { destruct Hf as [Hf1 Hf2]. split; [by rewrite length_insert|by apply Forall_insert]. }
  exists f'. split; [|done]. f_equal; [|simpl; lia]. f_equal. unfold xor_into.
  destruct (lookup_lt_is_Some_2 g (bb - length (b :: data))) as [y Hy]; [destruct Hg; simpl; lia|].
  rewrite (drop_S _ _ _ Hy). cbn [zip_mut]. rewrite nth_lookup, Hy. do 2 f_equal.
  f_equal. simpl. lia.
Qed.

Lemma cfb_encrypt_aligned self buf :
  cfb_ok self → bytes_ok buf → (used_gamma_len self mod q self = 0)%nat →
  ∃ self', encrypt_in_place self buf =
    (self', (let '(g, cs) := map_accum (group_step (key self) (q self)) (next_gamma self) (chunks_exact (q self) buf) in
             let r := remainder (q self) buf in concat cs ++ xor_into r (drop (bb - length r) g)), Ok tt) ∧
    cfb_ok self' ∧ key self' = key self ∧ q self' = q self ∧
    used_gamma_len self' = (bb - q self + length buf mod q self)%nat ∧
    next_gamma self' = (map_accum (group_step (key self) (q self)) (next_gamma self) (chunks_exact (q self) buf)).1.
Proof.
  intros Hok Hb Hm. unfold encrypt_in_place. rewrite Hm, leftover_aligned by done. cbn [negb Nat.eqb].
  destruct Hok as (Hk & Hg & Hf & Hq & Hu). destruct (width_divides _ Hq) as [Hq0 _]. pose proof Hq as [Hqle _].
  assert (array_ok bb (next_gamma self)) as Hng by (unfold next_gamma; case_decide; [by apply encrypt_block_ok|done]).
  destruct (groups_spec (length buf) (key self) (q self) (next_gamma self) (feed self) buf) as (f' & -> & Hf'); [done|lia|done|done|done|lia|].
  destruct (map_accum_Forall (group_step (key self) (q self)) (array_ok bb) (array_ok (q self)) (array_ok (q self))
    (next_gamma self) (chunks_exact (q self) buf)) as [Hg' _]; [by intros; apply group_step_ok|done|by apply chunks_exact_ok|].
  destruct (map_accum _ (next_gamma self) _) as [g cs]. cbn [fst snd] in *.
  pose proof (length_remainder (q self) buf) as Hlr. pose proof (Nat.mod_upper_bound (length buf) (q self) ltac:(lia)).
  destruct (trailing_spec g f' (bb - q self) (remainder (q self) buf)) as (f2 & -> & Hf2);
    [done|done|by apply Forall_drop|lia|]. rewrite Hlr.
  eexists. split; [done|]. split; [|split; [done|split; [done|split; [done|]]]].
  - do 4 (split; [done|]). simpl. lia.
  - unfold next_gamma. simpl. by rewrite decide_False by lia.
Qed.
End lemmas.

(** One call of a sequence, with its result. *)
Definition call {K} (f : Cfb K → list Z → Cfb K * list Z * result unit CfbError) (self : Cfb K) (buf : list Z) :
    Cfb K * (list Z * result unit CfbError) :=
  let '(self', buf', r) := f self buf in (self', (buf', r)).

Lemma call_eq {K} f (self : Cfb K) b self' b' r : f self b = (self', b', r) → call f self b = (self', (b', r)).
Proof. unfold call. by intros ->. Qed.

Lemma calls_inverse {K} `{BlockCipherLaws K} (self : Cfb K) bufs :
  (0 < q self ≤ block_bytes K)%nat →
  let outs := map_accum (call encrypt_in_place) self bufs in
  map_accum (call decrypt_in_place) self (map fst outs.2) = (outs.1, zip bufs (map snd outs.2)).
Proof.
  cbn zeta. revert self. induction bufs as [|b bufs IH]; intros self Hq; [done|]. cbn [map_accum].
  pose proof (call_inverse self b Hq) as Hi.
  assert (q (encrypt_in_place self b).1.1 = q self) as Hq'.
  { unfold encrypt_in_place. destruct (negb _); [done|]. by repeat case_match. }
  destruct (encrypt_in_place self b) as [[s1 ct] r] eqn:He. cbn [fst] in Hq'. specialize (IH s1). rewrite Hq' in IH.
  specialize (IH Hq). rewrite (call_eq _ _ _ _ _ _ He).
  destruct (map_accum (call encrypt_in_place) s1 bufs) as [s2 outs]. cbn [fst snd map map_accum] in *.
  by rewrite (call_eq _ _ _ _ _ _ Hi), IH.
Qed.

(** A width is accepted exactly when it is 1, 8, 16, 32 or 64 and at most the block; from objects
    created alike, decryption of what any sequence of calls produced, split the same way, gives the
    data back, ends in the same state and answers every call as encryption did. *)
Theorem cfb_roundtrip {K} `{BlockCipherLaws K} (key iv : list Z) (w : nat) (bufs : list (list Z)) :
  array_ok (key_bytes K) key → array_ok (block_bytes K) iv →
  if decide (w ≤ block_bytes K ∧ w ∈ [1; 8; 16; 32; 64])%nat then
    ∃ self, new key iv w = Some (Ok self) ∧ cfb_ok self ∧
      let outs := map_accum (call encrypt_in_place) self bufs in
      map_accum (call decrypt_in_place) self (map fst outs.2) = (outs.1, zip bufs (map snd outs.2))
  else new (K := K) key iv w = Some (Err InvalidFeedbackWidth).
Proof.
  intros Hkey Hiv. case_decide as Hw.
  - destruct (cfb_new_ok key iv w Hkey Hiv Hw) as (k & self & _ & Hn & Hok & _). exists self.
    split; [done|]. split; [done|]. apply calls_inverse.
    destruct Hok as (_ & _ & _ & Hq & _). pose proof (width_divides _ Hq). destruct Hq. lia.
  - unfold new. destruct (Nat.ltb_spec (block_bytes K) w) as [|Hle]; [by rewrite orb_true_r|].
    destruct (existsb _ _) eqn:He; [|by rewrite orb_true_r]. exfalso. apply Hw. split; [done|].
    apply existsb_exists in He as (x & Hx & ->%Nat.eqb_eq). by apply list_elem_of_In.
Qed.

Lemma cfb_roundtrip_witness :
  let bufs := [seqZ 0 24; seqZ 1 3; seqZ 5 8] in
  (∃ self, new (K := ExpandedKey Kalyna128_128) (seqZ 0 16) (seqZ 16 16) 8 = Some (Ok self) ∧ cfb_ok self ∧
    let outs := map_accum (call encrypt_in_place) self bufs in
    map_accum (call decrypt_in_place) self (map fst outs.2) = (outs.1, zip bufs (map snd outs.2))) ∧
  new (K := ExpandedKey Kalyna128_128) (seqZ 0 16) (seqZ 16 16) 32 = Some (Err InvalidFeedbackWidth).
Proof.
  split.
  - refine (cfb_roundtrip (K := ExpandedKey Kalyna128_128) (seqZ 0 16) (seqZ 16 16) 8 _ _ _); by_decision.
  - refine (cfb_roundtrip (K := ExpandedKey Kalyna128_128) (seqZ 0 16) (seqZ 16 16) 32 [] _ _); by_decision.
Defined.

(** A call at a group boundary succeeds and is the recurrence of the standard on groups of [q] bytes -
    the group is XORed with the last [q] bytes of gamma, and the next gamma is the encryption of the
    gamma with those bytes replaced by the ciphertext - the incomplete last group of [t] bytes taking
    the last [t] bytes of gamma; the leading loop of the code is never entered.  After an incomplete
    group every further call is refused and changes nothing; after whole groups the next call goes on
    from the gamma reached, so the split of the data into calls does not matter. *)
Theorem cfb_recurrence {K} `{BlockCipherLaws K} (self : Cfb K) (buf : list Z) :
  cfb_ok self → bytes_ok buf → (used_gamma_len self mod q self = 0)%nat →
  let '(g, cs) := map_accum (group_step (key self) (q self)) (next_gamma self) (chunks_exact (q self) buf) in
  let r := remainder (q self) buf in
  ∃ self', encrypt_in_place self buf = (self', concat cs ++ xor_into r (drop (block_bytes K - length r) g), Ok tt) ∧
    cfb_ok self' ∧ next_gamma self' = g ∧
    if decide (r = []) then (used_gamma_len self' mod q self' = 0)%nat
    else ∀ buf', encrypt_in_place self' buf' = (self', buf', Err NonAlignedIntermediateCall) ∧
                 decrypt_in_place self' buf' = (self', buf', Err NonAlignedIntermediateCall).
Proof.
  intros Hok Hb Hm. destruct (cfb_encrypt_aligned self buf Hok Hb Hm) as (self' & He & Hok' & Hkey & Hq & Hu & Hg).
  destruct (map_accum _ (next_gamma self) _) as [g cs]. exists self'.
  split; [done|]. split; [done|]. split; [done|].
  destruct Hok as (_ & _ & _ & Hw & _). destruct (width_divides _ Hw) as [Hq0 Hd]. pose proof Hw as [Hle _].
  assert (used_gamma_len self' mod q self' = length (remainder (q self) buf))%nat as Hmod.
  { rewrite Hu, Hq, length_remainder. apply Nat.Div0.mod_divides in Hd as [d Hd]. rewrite Hd.
    replace (q self * d - q self)%nat with ((d - 1) * q self)%nat by nia.
    by rewrite Nat.add_comm, Nat.Div0.mod_add, Nat.Div0.mod_mod. }
  case_decide as Hr; rewrite ?Hr in Hmod; [done|].
  intros buf'. unfold encrypt_in_place, decrypt_in_place. rewrite Hmod.
  by destruct (remainder (q self) buf).
Qed.

Lemma cfb_recurrence_witness :
  ∃ self : Cfb (ExpandedKey Kalyna128_128), new (seqZ 0 16) (seqZ 16 16) 8 = Some (Ok self) ∧
  let '(g, cs) := map_accum (group_step (key self) (q self)) (next_gamma self) (chunks_exact (q self) (seqZ 0 27)) in
  let r := remainder (q self) (seqZ 0 27) in
  ∃ self', encrypt_in_place self (seqZ 0 27) = (self', concat cs ++ xor_into r (drop (16 - length r) g), Ok tt) ∧
    cfb_ok self' ∧ next_gamma self' = g ∧
    if decide (r = []) then (used_gamma_len self' mod q self' = 0)%nat
    else ∀ buf', encrypt_in_place self' buf' = (self', buf', Err NonAlignedIntermediateCall) ∧
                 decrypt_in_place self' buf' = (self', buf', Err NonAlignedIntermediateCall).
Proof.
  destruct (cfb_new_ok (K := ExpandedKey Kalyna128_128) (seqZ 0 16) (seqZ 16 16) 8) as (k & self & _ & Hn & Hok & Hs);
    [by_decision..|].
  exists self. split; [exact Hn|]. refine (cfb_recurrence self (seqZ 0 27) Hok _ _); [by_decision|].
  rewrite Hs. reflexivity.
Defined.
