(* ===== verification/Cmac.v ===== *)
(** CMAC over any block cipher of the interface ([hazmat/kalyna_cmac.rs]). *)

From S2P Require Import Prelude External BlockCipher Kalyna.

Inductive CmacError : Type := EmptyMessage | TagMismatch.

Section cmac.
Context {K : Type} `{BlockCipher K} `{Subtle}.
Local Abbreviation bb := (block_bytes K).

(** The loop over the blocks before the last one. *)
Definition chain_step (cipher : K) (state block : list Z) : list Z := encrypt_block cipher (xor_into state block).

Definition mac_with_cipher (cipher : K) (message : list Z) : result (list Z) CmacError :=
  if Nat.eqb (length message) 0 then Err EmptyMessage
  else
    let len := length message in
    let chain_len := (if Nat.eqb (len mod bb) 0 then len - bb else len / bb * bb)%nat in
    let tail := drop chain_len message in
    let state := foldl (chain_step cipher) (replicate bb 0) (chunks_exact bb (take chain_len message)) in
    let last_block := copy_at 0 tail (replicate bb 0) in
    let last_block := if negb (Nat.eqb (length tail mod bb) 0) then <[length tail := 0x80]> last_block else last_block in
    let rkey := <[0%nat := if negb (Nat.eqb (length tail mod bb) 0) then 1 else 0]> (replicate bb 0) in
    let rkey := encrypt_block cipher rkey in
    let state := zip_mut (λ s lr, s ⊕ lr) state (zip_with Z.lxor last_block rkey) in
    let tag_block := encrypt_block cipher state in
    Ok (take 16 tag_block).

Definition mac (key message : list Z) : option (result (list Z) CmacError) :=
  cipher ← expanded_new K key; Some (mac_with_cipher cipher message).

Definition verify_with_cipher (cipher : K) (message expected : list Z) : result unit CmacError :=
  result_bind (mac_with_cipher cipher message) (λ tag,
    if ct_eq_slice tag expected then Ok tt else Err TagMismatch).

Definition verify (key message expected : list Z) : option (result unit CmacError) :=
  cipher ← expanded_new K key; Some (verify_with_cipher cipher message expected).
End cmac.

(** ** The specification: CBC-MAC of the padded message, the last block masked by the subkey *)

Section spec.
Context {K : Type} `{BlockCipherLaws K} (cipher : K).
Local Abbreviation bb := (block_bytes K).

(** The subkey is the image of the block that says whether the message was padded. *)
Definition subkey (message : list Z) : list Z :=
  encrypt_block cipher ((if decide (length message mod bb = 0)%nat then 0 else 1) :: replicate (bb - 1) 0).

Definition cbc_mac (blocks : list (list Z)) : list Z := foldl (chain_step cipher) (replicate bb 0) blocks.

Definition cmac_spec (message : list Z) : list Z :=
  let blocks := chunks_exact bb (pad80 bb message) in
  let last := List.last blocks [] in
  take 16 (encrypt_block cipher (xor_into (cbc_mac (removelast blocks)) (xor_into last (subkey message)))).

Lemma cbc_mac_ok blocks :
  key_ok cipher → Forall (array_ok bb) blocks → array_ok bb (cbc_mac blocks).
Proof.
  intros Hk Hb. unfold cbc_mac. assert (∀ s, array_ok bb s → array_ok bb (foldl (chain_step cipher) s blocks)) as H1.
  { induction Hb as [|b l Hb Hl IH]; intros s Hs; simpl; [done|]. apply IH. unfold chain_step.
    apply encrypt_block_ok; [done|]. apply array_ok_xor_into; [done|apply Hb]. }
  apply H1, array_ok_zeros.
Qed.

Lemma subkey_ok message : key_ok cipher → array_ok bb (subkey message).
Proof.
  intros Hk. apply encrypt_block_ok; [done|]. pose proof (block_bytes_pos (K := K)).
  split; [simpl; rewrite length_replicate; lia|]. constructor; [case_decide; by_decision|].
  apply Forall_replicate, byte_ok_0.
Qed.

Lemma rkey_eq (e : bool) : <[0%nat := if e then 1 else 0]> (replicate bb 0) = (if e then 1 else 0) :: replicate (bb - 1) 0.
Proof. pose proof (block_bytes_pos (K := K)). by rewrite replicate_pos by lia. Qed.

Lemma mac_with_cipher_spec message :
  key_ok cipher → bytes_ok message →
  mac_with_cipher cipher message = if decide (message = []) then Err EmptyMessage else Ok (cmac_spec message).
Proof.
  intros Hk Hm. pose proof (block_bytes_pos (K := K)) as Hn. unfold mac_with_cipher.
  case_decide as He; [by subst|]. destruct (Nat.eqb_spec (length message) 0) as [Hz|Hz]; [by apply nil_length_inv in Hz|].
  unfold cmac_spec, subkey. destruct (Nat.eqb_spec (length message mod bb) 0) as [Ha|Ha].
  - rewrite decide_True by done. unfold pad80. rewrite decide_True by done. rewrite (chunks_split_last bb message) by done.
    rewrite removelast_last, last_last. set (tail := drop _ message).
    pose proof (aligned_ge bb message Hz Ha). assert (length tail = bb) as Ht by (unfold tail; rewrite length_drop; lia).
    rewrite Ht, Nat.Div0.mod_same. cbn [Nat.eqb negb]. rewrite (rkey_eq false), copy_at_0, drop_ge, app_nil_r by (rewrite length_replicate; lia).
    do 3 f_equal. unfold xor_into at 1. f_equal. apply zip_with_xor_into.
    pose proof (subkey_ok message Hk) as [Hsl _]. unfold subkey in Hsl. rewrite decide_True in Hsl by done. lia.
  - rewrite decide_False by done. rewrite chunks_pad80 by done.
    assert (take (length message / bb * bb) message = concat (chunks_exact bb message)) as Hc.
    { pose proof (Nat.Div0.mul_div_le (length message) bb). unfold chunks_exact. by rewrite concat_chunks_n by lia. }
    assert (drop (length message / bb * bb) message = remainder bb message) as ->
      by (unfold remainder; by rewrite Nat.mul_comm).
    pose proof (length_remainder bb message) as Hr. pose proof (Nat.mod_upper_bound (length message) bb ltac:(lia)).
    rewrite decide_False by (intros E; rewrite E in Hr; simpl in Hr; lia).
    rewrite removelast_last, last_last, Hc, chunks_exact_concat; [|done|].
    2: { unfold chunks_exact. apply chunks_n_length_elem. pose proof (Nat.Div0.mul_div_le (length message) bb). lia. }
    rewrite Nat.mod_small by lia. rewrite (proj2 (Nat.eqb_neq _ _)) by lia. cbn [negb].
    rewrite (rkey_eq true). assert (<[length (remainder bb message) := 0x80]> (copy_at 0 (remainder bb message) (replicate bb 0)) =
      remainder bb message ++ 0x80 :: replicate (bb - length (remainder bb message) - 1) 0) as ->.
    { rewrite copy_at_0 by (rewrite length_replicate; lia). rewrite insert_app_r_alt, Nat.sub_diag, drop_replicate by lia.
      by rewrite replicate_pos by lia. }
    do 3 f_equal. unfold xor_into at 1. f_equal. apply zip_with_xor_into.
    pose proof (subkey_ok message Hk) as [Hsl _]. unfold subkey in Hsl. rewrite decide_False in Hsl by done.
    rewrite Hsl, length_app. cbn [length]. rewrite length_replicate. lia.
Qed.
End spec.

(** ** Properties *)

(** The MAC of a non-empty message is the CBC-MAC of its blocks, the last one - padded with [0x80] and
    zeros when incomplete - masked by the encryption of the block that tells the two cases apart,
    cut to 16 bytes; the empty message is refused.  Verification accepts exactly the MAC. *)
Theorem cmac_is_cbc_mac {K} `{BlockCipherLaws K} `{SubtleLaws} (key message tag : list Z) :
  array_ok (key_bytes K) key → bytes_ok message →
  ∃ cipher, expanded_new K key = Some cipher ∧
    mac key message = Some (if decide (message = []) then Err EmptyMessage else Ok (cmac_spec cipher message)) ∧
    (message ≠ [] → array_ok 16 (cmac_spec cipher message)) ∧
    verify key message tag = Some (if decide (message = []) then Err EmptyMessage
      else if decide (tag = cmac_spec cipher message) then Ok tt else Err TagMismatch).
Proof.
  intros Hkey Hm. destruct (expanded_new_ok key Hkey) as (cipher & He & Hk). exists cipher.
  split; [done|]. unfold mac, verify, verify_with_cipher. rewrite He. cbn [mbind option_bind].
  rewrite mac_with_cipher_spec by done. split; [done|]. split.
  - intros Hne. unfold cmac_spec. pose proof (block_bytes_pos (K := K)) as Hn.
    pose proof (chunks_exact_ok (block_bytes K) (pad80 (block_bytes K) message) Hn (pad80_bytes _ _ Hm)) as Hb.
    destruct (exists_last (l := chunks_exact (block_bytes K) (pad80 (block_bytes K) message))) as (l & b & Hl).
    { intros E. apply (f_equal (@concat Z)) in E. rewrite concat_chunks_aligned in E by (by apply pad80_aligned).
      unfold pad80 in E. simpl in E. case_decide; [done|]. by apply app_eq_nil in E as [_ [=]]. }
    rewrite Hl in *. apply Forall_app in Hb as [Hb1 Hb2]. apply Forall_cons in Hb2 as [Hb2 _].
    rewrite removelast_last, last_last. pose proof (subkey_ok cipher message Hk) as Hs.
    apply (array_ok_take 16 (block_bytes K)); [|destruct (block_bytes_valid (K := K)) as [-> | [-> | ->]]; lia].
    apply encrypt_block_ok; [done|]. apply array_ok_xor_into; [by apply cbc_mac_ok|].
    by apply (array_ok_xor_into (block_bytes K) b); [|apply Hs].
  - case_decide as Hn; [done|]. cbn [result_bind]. rewrite ct_eq_slice_spec. case_bool_decide as Ht.
    + by rewrite decide_True.
    + rewrite decide_False; [done|]. intros ->. by apply Ht.
Qed.

Lemma cmac_is_cbc_mac_witness :
  let _ := plain_subtle in
  ∃ cipher : ExpandedKey Kalyna128_128, expanded_new (ExpandedKey Kalyna128_128) (seqZ 0 16) = Some cipher ∧
    mac (K := ExpandedKey Kalyna128_128) (seqZ 0 16) (seqZ 1 20) = Some (Ok (cmac_spec cipher (seqZ 1 20))) ∧
    (seqZ 1 20 ≠ [] → array_ok 16 (cmac_spec cipher (seqZ 1 20))) ∧
    verify (K := ExpandedKey Kalyna128_128) (seqZ 0 16) (seqZ 1 20) [] =
      Some (if decide ([] = cmac_spec cipher (seqZ 1 20)) then Ok tt else Err TagMismatch).
Proof.
  refine (@cmac_is_cbc_mac (ExpandedKey Kalyna128_128) _ _ plain_subtle plain_subtle_laws (seqZ 0 16) (seqZ 1 20) [] _ _);
    by_decision.
Defined.

(** The property that the module warns of: a zero block in front of one block makes the MAC an
    encryption of that block under the key, [MAC(0 ‖ Y) = E(Y)[..16]]. *)
Theorem cmac_encryption_oracle {K} `{BlockCipherLaws K} (key y : list Z) :
  array_ok (key_bytes K) key → array_ok (block_bytes K) y →
  ∃ cipher, expanded_new K key = Some cipher ∧
    mac key (replicate (block_bytes K) 0 ++ y) = Some (Ok (take 16 (encrypt_block cipher y))).
Proof.
  intros Hkey [Hy Hyb]. destruct (expanded_new_ok key Hkey) as (cipher & He & Hk). exists cipher.
  split; [done|]. unfold mac. rewrite He. cbn [mbind option_bind].
  pose proof (block_bytes_pos (K := K)) as Hn. set (zeros := replicate (block_bytes K) 0).
  assert (length (zeros ++ y) mod block_bytes K = 0)%nat as Hm.
  { rewrite length_app, Hy. unfold zeros. rewrite length_replicate.
    replace (block_bytes K + block_bytes K)%nat with (2 * block_bytes K)%nat by lia. apply Nat.Div0.mod_mul. }
  assert (bytes_ok (zeros ++ y)) as Hb by (apply Forall_app; split; [apply Forall_replicate, byte_ok_0|done]).
  rewrite mac_with_cipher_spec, decide_False by
    (try done; intros E; apply (f_equal length) in E; rewrite length_app in E; simpl in E; lia).
  unfold cmac_spec, subkey, pad80. rewrite !decide_True by done.
  assert (chunks_exact (block_bytes K) (zeros ++ y) = [zeros; y]) as ->.
  { rewrite <- (chunks_exact_concat (block_bytes K) [zeros; y]); [simpl; by rewrite app_nil_r|done|].
    repeat constructor; [apply length_replicate|done]. }
  cbn [removelast List.last]. unfold cbc_mac, chain_step. cbn [foldl]. fold zeros.
  assert (xor_into zeros zeros = zeros) as ->.
  { unfold zeros, xor_into. clear. induction (block_bytes K); simpl; [done|]. by f_equal. }
  rewrite <- (replicate_pos 0 (block_bytes K)) by done. fold zeros.
  assert (array_ok (block_bytes K) (encrypt_block cipher zeros)) as [Hz _] by (apply encrypt_block_ok; [done|apply array_ok_zeros]).
  rewrite (xor_into_comm y) by lia. rewrite xor_into_comm by (by rewrite length_xor_into).
  rewrite (xor_into_comm (encrypt_block cipher zeros) y) by lia. by rewrite xor_into_cancel.
Qed.

Lemma cmac_encryption_oracle_witness :
  ∃ cipher : ExpandedKey Kalyna128_128, expanded_new (ExpandedKey Kalyna128_128) (seqZ 0 16) = Some cipher ∧
    mac (K := ExpandedKey Kalyna128_128) (seqZ 0 16) (replicate 16 0 ++ seqZ 7 16) =
      Some (Ok (take 16 (encrypt_block cipher (seqZ 7 16)))).
Proof. refine (cmac_encryption_oracle (K := ExpandedKey Kalyna128_128) (seqZ 0 16) (seqZ 7 16) _ _); by_decision. Defined.
