(* ===== verification/Poly2.v ===== *)
(** Polynomials over GF(2) as non-negative integers: bit [i] is the coefficient of [x^i], addition is
    [⊕], and [clmul] is the carry-less product.  The specification that the field arithmetic of
    [Gf2mWide.v] is proved against. *)

From S2P Require Import Prelude.


Fixpoint clmul_pos (a : Z) (p : positive) : Z :=
  match p with
  | xH => a
  | xO p => Z.shiftl (clmul_pos a p) 1
  | xI p => a ⊕ Z.shiftl (clmul_pos a p) 1
  end.

(** The carry-less product: the sum of [a * x^i] over the set bits [i] of [b]. *)
Definition clmul (a b : Z) : Z :=
  match b with
  | Zpos p => clmul_pos a p
  | _ => 0
  end.

(** Induction on the bits, from the top one. *)
Lemma bit_ind (P : Z → Prop) :
  P 0 → (∀ b (e : bool), 0 ≤ b → P b → P (Z.b2z e ⊕ Z.shiftl b 1)) → ∀ b, 0 ≤ b → P b.
Proof.
  intros H0 Hs [|p|p] Hb; [done| |lia]. clear Hb.
  assert (∀ q (e : bool), (if e then Z.pos q~1 else Z.pos q~0) = Z.b2z e ⊕ Z.shiftl (Z.pos q) 1) as E by (by intros q []).
  induction p as [p IH|p IH|]; [rewrite (E p true)|rewrite (E p false)|change 1 with (Z.b2z true ⊕ Z.shiftl 0 1)];
    by apply Hs.
Qed.

Ltac bit_induction b :=
  match goal with
  | Hb : 0 ≤ b |- _ => revert b Hb; apply bit_ind; [try reflexivity|intros b e Hb IH]
  end.

Lemma clmul_0_r a : clmul a 0 = 0.
Proof. done. Qed.

Lemma clmul_bit a b (e : bool) :
  0 ≤ b → clmul a (Z.b2z e ⊕ Z.shiftl b 1) = (if e then a else 0) ⊕ Z.shiftl (clmul a b) 1.
Proof. destruct b as [|p|p]; [|by destruct e|lia]. intros _. destruct e; simpl; by rewrite ?Z.lxor_0_r. Qed.

Lemma nonneg_bit b (e : bool) : 0 ≤ b → 0 ≤ Z.b2z e ⊕ Z.shiftl b 1.
Proof. intros Hb. apply Z.lxor_nonneg. split; intros; [by apply Z.shiftl_nonneg|by destruct e]. Qed.

Lemma clmul_nonneg a b : 0 ≤ a → 0 ≤ b → 0 ≤ clmul a b.
Proof.
  intros Ha Hb. bit_induction b. rewrite clmul_bit by done.
  apply Z.lxor_nonneg. split; intros; [by apply Z.shiftl_nonneg|by destruct e].
Qed.
#[export] Hint Resolve clmul_nonneg : uacrypt.

Lemma clmul_0_l b : 0 ≤ b → clmul 0 b = 0.
Proof.
  intros Hb. bit_induction b. rewrite clmul_bit, IH by done. by destruct e.
Qed.

(** Regrouping of a sum of four terms. *)
Lemma lxor_swap a b c d : a ⊕ b ⊕ (c ⊕ d) = (a ⊕ c) ⊕ (b ⊕ d).
Proof. bitwise. Qed.

Lemma clmul_lxor_l a a' b : 0 ≤ b → clmul (a ⊕ a') b = clmul a b ⊕ clmul a' b.
Proof.
  intros Hb. bit_induction b.
  rewrite !clmul_bit, IH, Z.shiftl_lxor, lxor_swap by done. f_equal. by destruct e.
Qed.

Lemma clmul_shl1_l a b : 0 ≤ b → clmul (Z.shiftl a 1) b = Z.shiftl (clmul a b) 1.
Proof.
  intros Hb. bit_induction b.
  rewrite !clmul_bit, IH, !Z.shiftl_lxor by done. f_equal. by destruct e.
Qed.

Lemma clmul_shl1_r a b : 0 ≤ b → clmul a (Z.shiftl b 1) = Z.shiftl (clmul a b) 1.
Proof.
  intros Hb. pose proof (clmul_bit a b false Hb) as H. simpl in H. by rewrite !Z.lxor_0_l in H.
Qed.

Lemma clmul_1_l b : 0 ≤ b → clmul 1 b = b.
Proof.
  intros Hb. bit_induction b. rewrite clmul_bit, IH by done. by destruct e.
Qed.

Lemma clmul_comm a b : 0 ≤ a → 0 ≤ b → clmul a b = clmul b a.
Proof.
  intros Ha Hb. bit_induction b; [by rewrite clmul_0_l|].
  rewrite clmul_bit, clmul_lxor_l, clmul_shl1_l, IH by done. f_equal.
  destruct e; simpl; [by rewrite clmul_1_l|by rewrite clmul_0_l].
Qed.

Lemma clmul_1_r a : clmul a 1 = a.
Proof. done. Qed.

Lemma clmul_lxor_r a b b' : 0 ≤ a → 0 ≤ b → 0 ≤ b' → clmul a (b ⊕ b') = clmul a b ⊕ clmul a b'.
Proof.
  intros Ha Hb Hb'. rewrite !(clmul_comm a) by (done || by apply Z.lxor_nonneg). by apply clmul_lxor_l.
Qed.

Lemma clmul_assoc a b c : 0 ≤ a → 0 ≤ b → 0 ≤ c → clmul (clmul a b) c = clmul a (clmul b c).
Proof.
  intros Ha Hb Hc. bit_induction c.
  rewrite !clmul_bit, IH by done.
  rewrite clmul_lxor_r by first [done | by destruct e | apply Z.shiftl_nonneg; auto with uacrypt].
  rewrite clmul_shl1_r by auto with uacrypt. f_equal. by destruct e.
Qed.

Lemma shl_succ a n : 0 ≤ n → Z.shiftl a (Z.succ n) = Z.shiftl (Z.shiftl a n) 1.
Proof. intros. by rewrite Z.shiftl_shiftl by lia. Qed.

Lemma clmul_shl_l a b n : 0 ≤ b → 0 ≤ n → clmul (Z.shiftl a n) b = Z.shiftl (clmul a b) n.
Proof.
  intros Hb Hn. revert n Hn. apply natlike_ind; [by rewrite !Z.shiftl_0_r|]. intros n Hn IH.
  by rewrite !shl_succ, clmul_shl1_l, IH.
Qed.

Lemma clmul_shl_r a b n : 0 ≤ a → 0 ≤ b → 0 ≤ n → clmul a (Z.shiftl b n) = Z.shiftl (clmul a b) n.
Proof.
  intros Ha Hb Hn. rewrite !(clmul_comm a) by (done || by apply Z.shiftl_nonneg). by apply clmul_shl_l.
Qed.

Lemma clmul_pow2 a n : 0 ≤ a → 0 ≤ n → clmul a (2 ^ n) = Z.shiftl a n.
Proof. intros. rewrite <- Z.shiftl_1_l. by rewrite clmul_shl_r, clmul_1_r. Qed.

(** ** Squares *)

Lemma clmul_self_bit y (e : bool) :
  0 ≤ y → clmul (Z.b2z e ⊕ Z.shiftl y 1) (Z.b2z e ⊕ Z.shiftl y 1) = Z.b2z e ⊕ Z.shiftl (clmul y y) 2.
Proof.
  intros Hy. rewrite clmul_bit, !clmul_lxor_l, !clmul_shl1_l by done. rewrite !Z.shiftl_lxor, Z.shiftl_shiftl by lia. change (1 + 1) with 2.
  destruct e; cbn [Z.b2z]; [rewrite clmul_1_l by done|rewrite (clmul_0_l y), Z.shiftl_0_l by done]; bitwise.
Qed.

(** Squaring a polynomial spreads its bits. *)
Lemma clmul_self_testbit x i : 0 ≤ x → 0 ≤ i → Z.testbit (clmul x x) i = Z.even i && Z.testbit x (i / 2).
Proof.
  intros Hx. revert i. refine (bit_ind (λ x, ∀ i, 0 ≤ i → Z.testbit (clmul x x) i = Z.even i && Z.testbit x (i / 2)) _ _ x Hx).
  { intros i Hi. by rewrite clmul_0_r, !Z.testbit_0_l, andb_false_r. }
  intros y e Hy IH i Hi.
  rewrite clmul_self_bit by done.
  rewrite !Z.lxor_spec, !Z.shiftl_spec by (try apply Z.div_pos; lia). destruct (decide (i = 0)) as [->|H0].
  { change (0 / 2) with 0. rewrite !Z.b2z_bit0, !(Z.testbit_neg_r _ (0 - _)) by lia. done. }
  assert (∀ j, 0 < j → Z.testbit (Z.b2z e) j = false) as Hb.
  { intros j Hj. destruct e; [|apply Z.testbit_0_l]. apply (Z.bits_above_log2 1); simpl; lia. }
  rewrite (Hb i) by lia. destruct (decide (i = 1)) as [->|H1].
  { rewrite !(Z.testbit_neg_r (clmul y y)) by lia. done. }
  pose proof (Z.div_mod i 2 ltac:(lia)). pose proof (Z.mod_pos_bound i 2 ltac:(lia)).
  rewrite (Hb (i / 2)), IH by lia. replace (i - 2) with (i + (-1) * 2) by lia.
  rewrite Z.div_add by lia. change (i / 2 + -1) with (i / 2 - 1). f_equal. replace (i + (-1) * 2) with (i + 2 * (-1)) by lia. by rewrite Z.even_add_mul_2.
Qed.

(** Squaring is additive. *)
Lemma clmul_self_lxor x y : 0 ≤ x → 0 ≤ y → clmul (x ⊕ y) (x ⊕ y) = clmul x x ⊕ clmul y y.
Proof.
  intros Hx Hy. assert (0 ≤ x ⊕ y) by (by apply Z.lxor_nonneg). rewrite clmul_lxor_l, !clmul_lxor_r by done.
  rewrite (clmul_comm y x) by done. bitwise.
Qed.

Lemma clmul_self_shl x n : 0 ≤ x → 0 ≤ n → clmul (Z.shiftl x n) (Z.shiftl x n) = Z.shiftl (clmul x x) (2 * n).
Proof.
  intros Hx Hn. rewrite clmul_shl_l, clmul_shl_r, Z.shiftl_shiftl by (done || by apply Z.shiftl_nonneg). f_equal. lia.
Qed.

(** ** Degrees *)

Lemma word_ok_shl n k a : 0 ≤ n → 0 ≤ k → word_ok n a → word_ok (n + k) (Z.shiftl a k).
Proof.
  unfold word_ok. intros Hn Hk Ha. rewrite Z.shiftl_mul_pow2, Z.pow_add_r by lia.
  pose proof (Z.pow_pos_nonneg 2 k). nia.
Qed.

Lemma word_ok_shr n k a : 0 ≤ k → 0 ≤ n → word_ok (n + k) a → word_ok n (Z.shiftr a k).
Proof.
  unfold word_ok. intros Hk Hn Ha. rewrite Z.shiftr_div_pow2 by done. rewrite Z.pow_add_r in Ha by done.
  pose proof (Z.pow_pos_nonneg 2 k). split; [by apply Z.div_pos; lia|]. apply Z.div_lt_upper_bound; lia.
Qed.

Lemma low_bit b : b = Z.b2z (Z.odd b) ⊕ Z.shiftl (Z.shiftr b 1) 1.
Proof.
  apply Z.bits_inj'. intros i Hi. rewrite Z.lxor_spec, Z.shiftl_spec by done.
  destruct (decide (i = 0)) as [->|].
  - rewrite Z.bit0_odd, (Z.testbit_neg_r _ (0 - 1)), xorb_false_r by lia. by destruct (Z.odd b).
  - rewrite Z.shiftr_spec by lia. replace (i - 1 + 1) with i by lia.
    destruct (Z.odd b); simpl Z.b2z; [|by rewrite Z.testbit_0_l].
    by rewrite (Z.bits_above_log2 1) by (simpl; lia).
Qed.

Lemma word_ok_0 n : 0 ≤ n → word_ok n 0.
Proof. intros. unfold word_ok. pose proof (Z.pow_pos_nonneg 2 n). lia. Qed.

Lemma clmul_bound n k a b : 0 ≤ n → 0 ≤ k → word_ok n a → word_ok (k + 1) b → word_ok (n + k) (clmul a b).
Proof.
  intros Hn Hk Ha. revert k Hk b. apply (natlike_ind (λ k, ∀ b, word_ok (k + 1) b → word_ok (n + k) (clmul a b))).
  - intros b Hb. rewrite Z.add_0_r. change (2 ^ (0 + 1)) with 2 in Hb. unfold word_ok in Hb.
    change (2 ^ (0 + 1)) with 2 in Hb. assert (b = 0 ∨ b = 1) as [-> | ->] by lia; [by apply word_ok_0|done].
  - intros k Hk IH b Hb. assert (word_ok (k + 1) (Z.shiftr b 1)) as Hs.
    { apply word_ok_shr; [lia..|]. by replace (k + 1 + 1) with (Z.succ k + 1) by lia. }
    rewrite (low_bit b), clmul_bit by apply Hs. apply word_ok_lxor; [lia|..].
    + destruct (Z.odd b); [by apply (word_ok_mono n); [lia|]|apply word_ok_0; lia].
    + replace (n + Z.succ k) with (n + k + 1) by lia. apply word_ok_shl; [lia..|]. by apply IH.
Qed.

(** The product of a polynomial of degree [m] by a non-zero one has degree at least [m]. *)
Lemma clmul_degree m f q :
  0 ≤ m → word_ok m (f ⊕ 2 ^ m) → 0 ≤ q → word_ok m (clmul f q) → q = 0.
Proof.
  intros Hm Hf Hq Hw. destruct (decide (q = 0)) as [|Hne]; [done|exfalso].
  assert (0 < q) as Hpos by lia. clear Hne Hq.
  assert (∃ g, f = g ⊕ 2 ^ m ∧ word_ok m g) as (g & -> & Hg)
    by (exists (f ⊕ 2 ^ m); by rewrite lxor_cancel_r).
  pose proof (Z.pow_nonneg 2 m). pose proof (Z.log2_nonneg q). assert (0 ≤ g) by apply Hg.
  assert (word_ok (Z.log2 q + 1) q) as Hqw by (pose proof (Z.log2_spec q Hpos); unfold word_ok; rewrite Z.add_1_r; lia).
  pose proof (clmul_bound m (Z.log2 q) g q Hm ltac:(done) Hg Hqw) as Hb.
  rewrite clmul_lxor_l, (clmul_comm (2 ^ m)), clmul_pow2 in Hw by lia.
  apply word_ok_bits in Hw as [_ Hw]; [|done]. apply word_ok_bits in Hb as [_ Hb]; [|lia].
  specialize (Hw (m + Z.log2 q) ltac:(lia)).
  rewrite Z.lxor_spec, Hb, Z.shiftl_spec, Z.add_simpl_l, Z.bit_log2 in Hw by lia. done.
Qed.

(** ** Congruence modulo a polynomial *)

Section congruence.
Context (m f : Z).
Hypothesis Hm : 0 ≤ m.
Hypothesis Hf : word_ok m (f ⊕ 2 ^ m).

Definition poly_eq (x y : Z) : Prop := ∃ q, 0 ≤ q ∧ x ⊕ y = clmul f q.

Lemma f_nonneg : 0 ≤ f.
Proof using Hm Hf.
  assert (f = (f ⊕ 2 ^ m) ⊕ 2 ^ m) as -> by (by rewrite lxor_cancel_r).
  apply Z.lxor_nonneg. split; intros; [by apply Z.pow_nonneg|apply Hf].
Qed.

#[global] Instance poly_eq_equiv : Equivalence poly_eq.
Proof using Hm Hf.
  pose proof f_nonneg. split.
  - intros x. exists 0. split; [done|]. by rewrite Z.lxor_nilpotent.
  - intros x y (q & Hq & He). exists q. by rewrite Z.lxor_comm.
  - intros x y z (q & Hq & He) (r & Hr & He'). exists (q ⊕ r). split; [by apply Z.lxor_nonneg|].
    rewrite clmul_lxor_r, <- He, <- He' by done. rewrite Z.lxor_assoc, <- (Z.lxor_assoc y). by rewrite Z.lxor_nilpotent, Z.lxor_0_l.
Qed.

#[global] Instance poly_eq_lxor : Proper (poly_eq ==> poly_eq ==> poly_eq) Z.lxor.
Proof using Hm Hf.
  pose proof f_nonneg. intros x x' (q & Hq & He) y y' (r & Hr & He'). exists (q ⊕ r).
  split; [by apply Z.lxor_nonneg|]. by rewrite lxor_swap, clmul_lxor_r, <- He, <- He'.
Qed.

Lemma poly_eq_clmul_l x y z : 0 ≤ x → 0 ≤ y → 0 ≤ z → poly_eq x y → poly_eq (clmul x z) (clmul y z).
Proof using Hm Hf.
  pose proof f_nonneg. intros Hx Hy Hz (q & Hq & He). exists (clmul q z). split; [by apply clmul_nonneg|].
  by rewrite <- clmul_lxor_l, He, clmul_assoc.
Qed.

Lemma poly_eq_clmul_r x y z : 0 ≤ x → 0 ≤ y → 0 ≤ z → poly_eq x y → poly_eq (clmul z x) (clmul z y).
Proof using Hm Hf. intros. rewrite !(clmul_comm z) by done. by apply poly_eq_clmul_l. Qed.

Lemma poly_eq_shl x y n : 0 ≤ x → 0 ≤ y → 0 ≤ n → poly_eq x y → poly_eq (Z.shiftl x n) (Z.shiftl y n).
Proof using Hm Hf.
  intros. rewrite <- !clmul_pow2 by done. apply poly_eq_clmul_l; try done. by apply Z.pow_nonneg.
Qed.

(** [x^m] is the rest of the polynomial. *)
Lemma poly_eq_high x : 0 ≤ x → poly_eq (Z.shiftl x m) (clmul x (f ⊕ 2 ^ m)).
Proof using Hm Hf.
  intros Hx. exists x. split; [done|]. pose proof f_nonneg. pose proof (Z.pow_nonneg 2 m ltac:(lia)).
  rewrite clmul_lxor_r, clmul_pow2, Z.lxor_comm, lxor_cancel_r by done. by apply clmul_comm.
Qed.

(** Below degree [m] the representative is unique. *)
Lemma poly_eq_unique x y : word_ok m x → word_ok m y → poly_eq x y → x = y.
Proof using Hm Hf.
  intros Hx Hy (q & Hq & He). apply Z.lxor_eq. rewrite He.
  assert (q = 0) as ->; [|done]. apply (clmul_degree m f); try done. rewrite <- He. by apply word_ok_lxor.
Qed.
End congruence.
