(* ===== verification/Gf2mWide.v ===== *)
(** GF(2^128), GF(2^256) and GF(2^512) on 64-bit limbs ([hazmat/gf2m_wide.rs]), against the
    polynomials of [Poly2.v]: the windowed and the hardware product, the word-wise reduction and its
    bit-serial reference, and the doubling. *)

From S2P Require Import Prelude Poly2.

(** The instances of [gf2m_field!] and their parameters. *)
Inductive gf : Type := Gf2m128 | Gf2m256 | Gf2m512.

Definition limbs (g : gf) : nat := match g with Gf2m128 => 2 | Gf2m256 => 4 | Gf2m512 => 8 end.
Definition limbs2 (g : gf) : nat := match g with Gf2m128 => 4 | Gf2m256 => 8 | Gf2m512 => 16 end.
Definition degree (g : gf) : nat := match g with Gf2m128 => 128 | Gf2m256 => 256 | Gf2m512 => 512 end.

(** [[$f1, $f2, $f3]]. *)
Definition terms (g : gf) : list nat :=
  match g with
  | Gf2m128 => [7; 2; 1]
  | Gf2m256 => [10; 5; 2]
  | Gf2m512 => [8; 5; 2]
  end%nat.

(** [x[i] ^= t]. *)
Definition xor_at (i : nat) (t : Z) (x : list Z) : list Z := <[i := x.[i] ⊕ t]> x.

(** An element is its array of limbs. *)
Definition ZERO (g : gf) : list Z := replicate (limbs g) 0.

Definition gf_from_le_bytes (g : gf) (bytes : list Z) : list Z :=
  map (λ i, from_le_bytes (slice (i * 8) (i * 8 + 8) bytes)) (seq 0 (limbs g)).

Definition gf_to_le_bytes (self : list Z) : list Z := flat_map (to_le_bytes 8) self.

Definition gf_add (g : gf) (self other : list Z) : list Z :=
  map (λ i, self.[i] ⊕ other.[i]) (seq 0 (limbs g)).

(** ** The product *)

(** The instruction [PCLMULQDQ] ([PMULL]): the low and the high half of the carry-less product of two
    64-bit words. *)
Definition clmul64 (a b : Z) : Z * Z := (wrap 64 (clmul a b), Z.shiftr (clmul a b) 64).

Definition poly_mul_wide_hw (g : gf) (a b : list Z) : list Z :=
  foldl (λ out i,
    foldl (λ out j,
      let '(lo, hi) := clmul64 (a.[i]) (b.[j]) in
      xor_at (i + j + 1) hi (xor_at (i + j) lo out))
    out (seq 0 (limbs g)))
  (replicate (limbs2 g) 0) (seq 0 (limbs g)).

(** The loop of [shl1], [shl4] and [double]: every limb takes the bits that leave the one below. *)
Fixpoint shift_loop (s carry : Z) (x : list Z) : list Z :=
  match x with
  | [] => []
  | limb :: x => Z.lor (shl 64 limb s) carry :: shift_loop s (Z.shiftr limb (64 - s)) x
  end.

Definition shl1 (x : list Z) : list Z := shift_loop 1 0 x.
Definition shl4 (x : list Z) : list Z := shift_loop 4 0 x.

(** [rows]: the first operand shifted by 0 to 3 bits. *)
Definition mul_rows (g : gf) (a : list Z) : list (list Z) :=
  let row0 := copy_at 0 a (replicate (limbs2 g) 0) in
  let row1 := shl1 row0 in
  let row2 := shl1 row1 in
  let row3 := shl1 row2 in
  [row0; row1; row2; row3].

(** [0u64.wrapping_sub((w >> n) & 1)]. *)
Definition mask_of (w n : Z) : Z := wrapping_sub 64 0 (Z.land (Z.shiftr w n) 1).

(** [for (row, mask) in rows.iter().zip(masks) { .. }]. *)
Definition add_rows (g : gf) (acc : list Z) (rows : list (list Z)) (masks : list Z) : list Z :=
  foldl (λ acc '(row, mask), zip_mut (λ acc_w row_w, acc_w ⊕ Z.land row_w mask) acc (take (limbs g + 1) row))
    acc (zip rows masks).

(** One turn of [for _ in 0..16]. *)
Definition nibble_step (g : gf) (rows : list (list Z)) (s : list Z * Z) : list Z * Z :=
  let '(acc, w) := s in
  let acc := shl4 acc in
  let masks := [mask_of w 60; mask_of w 61; mask_of w 62; mask_of w 63] in
  (add_rows g acc rows masks, shl 64 w 4).

Definition poly_mul_wide (g : gf) (a b : list Z) : list Z :=
  let rows := mul_rows g a in
  foldl (λ acc word, (Nat.iter 16 (nibble_step g rows) (acc, word)).1) (replicate (limbs2 g) 0) (reverse b).

(** ** The reduction *)

Definition reduce_term (t : Z) (base : nat) (c : list Z) (shift : nat) : list Z :=
  let c := xor_at base (shl 64 t shift) c in
  xor_at (base + 1) (Z.shiftr t (64 - shift)) c.

Definition reduce_step (g : gf) (c : list Z) (i : nat) : list Z :=
  let t := c.[i] in
  let base := (i - limbs g)%nat in
  let c := xor_at base t c in
  foldl (reduce_term t base) c (terms g).

Definition reduce (g : gf) (c : list Z) : list Z :=
  let c := foldl (reduce_step g) c (reverse (seq (limbs g) (limbs2 g - limbs g))) in
  take (limbs g) c.

(** One turn of [while degree >= m]. *)
Definition bit_serial_step (g : gf) (c : list Z) (d : nat) : list Z :=
  let limb := (d / 64)%nat in
  let bit := (d mod 64)%nat in
  if Z.eqb (Z.land (Z.shiftr (c.[limb]) bit) 1) 1 then
    let c := xor_at limb (shl 64 1 bit) c in
    let shift := (d - degree g)%nat in
    foldl (λ c (term : nat), let d := (shift + term)%nat in xor_at (d / 64) (shl 64 1 (d mod 64)%nat) c)
      c (terms g ++ [O])
  else c.

Definition reduce_bit_serial_reference (g : gf) (c : list Z) : list Z :=
  let c := foldl (bit_serial_step g) c (reverse (seq (degree g) (limbs2 g * 64 - degree g))) in
  take (limbs g) c.

(** [feature_available]: the processor has the instruction. *)
Definition multiply (feature_available : bool) (g : gf) (self other : list Z) : list Z :=
  if feature_available then reduce g (poly_mul_wide_hw g self other)
  else reduce g (poly_mul_wide g self other).

Definition double (g : gf) (self : list Z) : list Z :=
  let top_bit := Z.land (Z.shiftr (self.[limbs g - 1]) 63) 1 in
  let out := shift_loop 1 0 self in
  let mask := wrapping_sub 64 0 top_bit in
  let out := xor_at 0 (Z.land mask 1) out in
  foldl (λ out (term : nat), xor_at (term / 64) (Z.land mask (shl 64 1 (term mod 64)%nat)) out) out (terms g).

(** ** Values *)

(** The polynomial of an array of limbs, the lowest limb first. *)
Fixpoint value (l : list Z) : Z :=
  match l with
  | [] => 0
  | w :: l => w ⊕ Z.shiftl (value l) 64
  end.

Definition elem_ok (g : gf) (e : list Z) : Prop := length e = limbs g ∧ Forall u64_ok e.
#[global] Instance elem_ok_dec g e : Decision (elem_ok g e).
Proof. unfold elem_ok. apply _. Defined.

(** The reduction polynomial [x^m + x^f1 + x^f2 + x^f3 + 1]. *)
Definition modulus_tail (g : gf) : Z := foldl (λ s (n : nat), s ⊕ 2 ^ n) 1 (terms g).
Definition modulus (g : gf) : Z := modulus_tail g ⊕ 2 ^ degree g.

Lemma value_app a b : value (a ++ b) = value a ⊕ Z.shiftl (value b) (64 * length a).
Proof.
  induction a as [|w a IH]; simpl length; simpl value; [by rewrite Z.shiftl_0_r, Z.lxor_0_l|].
  rewrite IH, Z.shiftl_lxor, Z.shiftl_shiftl, Z.lxor_assoc by lia. do 3 f_equal. lia.
Qed.

Lemma value_zeros n : value (replicate n 0) = 0.
Proof. induction n as [|n IH]; [done|]. simpl. by rewrite IH. Qed.

Lemma value_xor_at i t l : (i < length l)%nat → value (xor_at i t l) = value l ⊕ Z.shiftl t (64 * i).
Proof.
  unfold xor_at. revert i. induction l as [|w l IH]; intros i Hi; simpl in Hi; [lia|].
  destruct i as [|i]; cbn [value].
  - change (<[0%nat := (w :: l).[0] ⊕ t]> (w :: l)) with ((w ⊕ t) :: l). simpl value.
    rewrite Z.shiftl_0_r, !Z.lxor_assoc. f_equal. apply Z.lxor_comm.
  - change (<[S i := (w :: l).[S i] ⊕ t]> (w :: l)) with (w :: <[i := l.[i] ⊕ t]> l). simpl value.
    rewrite IH, Z.shiftl_lxor, Z.shiftl_shiftl, Z.lxor_assoc by lia. do 3 f_equal. lia.
Qed.

Lemma length_xor_at i t l : length (xor_at i t l) = length l.
Proof. apply length_insert. Qed.

Lemma nth_u64_ok l i : Forall u64_ok l → u64_ok (l.[i]).
Proof.
  intros Hl. rewrite nth_lookup. destruct (l !! i) eqn:He; [by apply (Forall_lookup_1 _ _ _ _ Hl He)|].
  by apply word_ok_0.
Qed.

Lemma nth_nonneg l i : Forall u64_ok l → 0 ≤ l.[i].
Proof. intros Hl. by apply (nth_u64_ok l i) in Hl as []. Qed.

Lemma xor_at_u64 i t l : u64_ok t → Forall u64_ok l → Forall u64_ok (xor_at i t l).
Proof. intros Ht Hl. apply Forall_insert; [done|]. apply word_ok_lxor; [lia|by apply nth_u64_ok|done]. Qed.

Lemma word_ok_cat n k a b : 0 ≤ n → 0 ≤ k → word_ok n a → word_ok k b → word_ok (n + k) (a ⊕ Z.shiftl b n).
Proof.
  intros Hn Hk Ha Hb. apply word_ok_lxor; [lia|apply (word_ok_mono n); [lia|done]|].
  rewrite Z.add_comm. by apply word_ok_shl.
Qed.

Lemma value_bound l : Forall u64_ok l → word_ok (64 * length l) (value l).
Proof.
  induction 1 as [|w l Hw Hl IH]; [done|]. simpl value. simpl length.
  replace (64 * S (length l)) with (64 + 64 * length l) by lia. by apply word_ok_cat; [lia..| |].
Qed.

Lemma value_nonneg l : Forall u64_ok l → 0 ≤ value l.
Proof. intros Hl. apply value_bound, Hl. Qed.
#[export] Hint Resolve value_nonneg nth_u64_ok : uacrypt.

Lemma cat_low n a b : 0 ≤ n → word_ok n a → (a ⊕ Z.shiftl b n) mod 2 ^ n = a.
Proof.
  intros Hn Ha. rewrite mod_lxor, (Z.mod_small a), Z.shiftl_mul_pow2, Z.mod_mul, Z.lxor_0_r by (done || lia). done.
Qed.

Lemma shiftr_small n a : 0 ≤ n → word_ok n a → Z.shiftr a n = 0.
Proof. intros Hn Ha. rewrite Z.shiftr_div_pow2 by done. by apply Z.div_small. Qed.

Lemma cat_high n a b : 0 ≤ n → word_ok n a → Z.shiftr (a ⊕ Z.shiftl b n) n = b.
Proof.
  intros Hn Ha. rewrite Z.shiftr_lxor, shiftr_small by done. rewrite Z.shiftr_shiftl_l by lia.
  by rewrite Z.sub_diag, Z.shiftl_0_r, Z.lxor_0_l.
Qed.

Lemma value_inj l k :
  length l = length k → Forall u64_ok l → Forall u64_ok k → value l = value k → l = k.
Proof.
  intros Hlen Hl. revert k Hlen. induction Hl as [|w l Hw Hl IH]; intros [|v k]; simpl; try done.
  intros [= Hlen] Hk He. apply Forall_cons in Hk as [Hv Hk]. f_equal.
  - rewrite <- (cat_low 64 w (value l)), He by (done || lia). by apply cat_low.
  - apply IH; [done|done|]. rewrite <- (cat_high 64 w (value l)), He by (done || lia). by apply cat_high.
Qed.

Lemma value_take_S l i : (i < length l)%nat → value (take (S i) l) = value (take i l) ⊕ Z.shiftl (l.[i]) (64 * i).
Proof.
  intros Hi. destruct (lookup_lt_is_Some_2 l i Hi) as [w Hw].
  rewrite (take_S_r _ _ _ Hw), value_app, length_take. simpl. rewrite Z.lxor_0_r, nth_lookup, Hw. do 3 f_equal. lia.
Qed.

Lemma value_take l n : Forall u64_ok l → value (take n l) = value l mod 2 ^ (64 * Nat.min n (length l)).
Proof.
  intros Hl. rewrite <- (take_drop n l) at 2. rewrite value_app, <- length_take. symmetry. apply cat_low; [lia|].
  apply value_bound. by apply Forall_take.
Qed.

(** ** The shift loop *)

(** A shifted word is its wrapped part and the bits that leave it. *)
Lemma split_shift w s : 0 ≤ s ≤ 64 → Z.shiftl w s = shl 64 w s ⊕ Z.shiftl (Z.shiftr w (64 - s)) 64.
Proof.
  intros Hs. unfold shl. rewrite wrap_mod by lia. apply Z.bits_inj'. intros i Hi.
  rewrite Z.lxor_spec, Z.testbit_mod_pow2, !Z.shiftl_spec by lia.
  destruct (Z.ltb_spec i 64); simpl.
  - by rewrite (Z.testbit_neg_r _ (i - 64)), xorb_false_r by lia.
  - rewrite Z.shiftr_spec by lia. f_equal. lia.
Qed.

Lemma lor_carry w s c : 0 ≤ s ≤ 64 → word_ok s c → Z.lor (shl 64 w s) c = shl 64 w s ⊕ c.
Proof.
  intros Hs Hc. rewrite <- Z.lxor_lor; [done|]. apply Z.bits_inj'. intros i Hi. unfold shl.
  rewrite wrap_mod, Z.land_spec, Z.testbit_mod_pow2, Z.shiftl_spec, Z.testbit_0_l by lia.
  destruct (Z.ltb_spec i s).
  - by rewrite Z.testbit_neg_r, andb_false_r by lia.
  - apply word_ok_bits in Hc as [_ Hc]; [|lia]. by rewrite Hc, andb_false_r by lia.
Qed.

Lemma cat_mod n k a b : 0 ≤ n → 0 ≤ k → word_ok n a →
  (a ⊕ Z.shiftl b n) mod 2 ^ (n + k) = a ⊕ Z.shiftl (b mod 2 ^ k) n.
Proof.
  intros Hn Hk Ha. apply Z.bits_inj'. intros i Hi. rewrite Z.testbit_mod_pow2, !Z.lxor_spec, !Z.shiftl_spec by lia.
  destruct (decide (i < n)).
  - rewrite !(Z.testbit_neg_r _ (i - n)) by lia. destruct (Z.ltb_spec i (n + k)); [done|lia].
  - rewrite Z.testbit_mod_pow2 by lia. apply word_ok_bits in Ha as [_ Ha]; [|done]. rewrite Ha by lia.
    destruct (Z.ltb_spec i (n + k)), (Z.ltb_spec (i - n) k); (done || lia).
Qed.

Lemma length_shift_loop s c x : length (shift_loop s c x) = length x.
Proof. revert c. induction x; intros; simpl; auto. Qed.

Lemma shl_u64 a n : u64_ok (shl 64 a n).
Proof. apply word_ok_wrap. lia. Qed.

Lemma carry_ok w s : 0 ≤ s ≤ 64 → u64_ok w → word_ok s (Z.shiftr w (64 - s)).
Proof. intros Hs Hw. apply word_ok_shr; [lia..|]. by replace (s + (64 - s)) with 64 by lia. Qed.

Lemma shift_loop_spec s c x :
  0 ≤ s ≤ 64 → word_ok s c → Forall u64_ok x →
  Forall u64_ok (shift_loop s c x) ∧
  value (shift_loop s c x) = (Z.shiftl (value x) s ⊕ c) mod 2 ^ (64 * length x).
Proof.
  intros Hs Hc Hx. revert c Hc. induction Hx as [|w x Hw Hx IH]; intros c Hc; cbn [shift_loop].
  { split; [done|]. by rewrite Z.mod_1_r. }
  destruct (IH (Z.shiftr w (64 - s))) as [Hu He]; [by apply carry_ok|]. rewrite lor_carry by done.
  assert (u64_ok (shl 64 w s ⊕ c)) as Hwc.
  { apply word_ok_lxor; [lia|apply shl_u64|]. apply (word_ok_mono s); [lia|done]. }
  split; [by constructor|]. cbn [value]. rewrite He. simpl length.
  replace (64 * S (length x)) with (64 + 64 * length x) by lia.
  rewrite <- cat_mod by (lia || done). f_equal.
  rewrite !Z.shiftl_lxor, (split_shift w), !Z.shiftl_shiftl, (Z.add_comm s 64) by lia. bitwise.
Qed.

(** A shift that leaves no bit behind. *)
Lemma shift_loop_exact s x n :
  0 ≤ s ≤ 64 → Forall u64_ok x → word_ok n (value x) → 0 ≤ n → n + s ≤ 64 * length x →
  Forall u64_ok (shift_loop s 0 x) ∧ value (shift_loop s 0 x) = Z.shiftl (value x) s.
Proof.
  intros Hs Hx Hv Hn Hle. destruct (shift_loop_spec s 0 x Hs ltac:(apply word_ok_0; lia) Hx) as [H1 H2].
  split; [done|]. rewrite H2, Z.lxor_0_r. apply Z.mod_small.
  apply (word_ok_mono (n + s)); [done|]. apply word_ok_shl; [lia..|done].
Qed.

(** ** The parameters *)

Lemma degree_limbs g : Z.of_nat (degree g) = 64 * limbs g.
Proof. by destruct g. Qed.

Lemma limbs2_limbs g : limbs2 g = (2 * limbs g)%nat.
Proof. by destruct g. Qed.

Lemma limbs_ge g : (2 ≤ limbs g)%nat.
Proof. destruct g; simpl; lia. Qed.

Lemma modulus_ok g : word_ok (degree g) (modulus g ⊕ 2 ^ degree g).
Proof. unfold modulus. rewrite lxor_cancel_r. destruct g; by_decision. Qed.

Lemma modulus_tail_eq g : modulus g ⊕ 2 ^ degree g = modulus_tail g.
Proof. apply lxor_cancel_r. Qed.

Lemma degree_nonneg g : 0 ≤ degree g.
Proof. lia. Qed.

(** Congruence modulo the polynomial of the field. *)
Notation "x ≡[ g ] y" := (poly_eq (modulus g) x y) (at level 70, format "x  ≡[ g ]  y") : uacrypt_scope.

#[export] Instance field_equiv g : Equivalence (poly_eq (modulus g)).
Proof. apply (poly_eq_equiv (degree g)); [apply degree_nonneg|apply modulus_ok]. Qed.

#[export] Instance field_lxor g : Proper (poly_eq (modulus g) ==> poly_eq (modulus g) ==> poly_eq (modulus g)) Z.lxor.
Proof. apply (poly_eq_lxor (degree g)); [apply degree_nonneg|apply modulus_ok]. Qed.

Lemma field_shl g x y n : 0 ≤ x → 0 ≤ y → 0 ≤ n → x ≡[g] y → Z.shiftl x n ≡[g] Z.shiftl y n.
Proof. apply (poly_eq_shl (degree g)); [apply degree_nonneg|apply modulus_ok]. Qed.

Lemma field_clmul g x x' y y' :
  0 ≤ x → 0 ≤ x' → 0 ≤ y → 0 ≤ y' → x ≡[g] x' → y ≡[g] y' → clmul x y ≡[g] clmul x' y'.
Proof.
  intros. transitivity (clmul x' y).
  - apply (poly_eq_clmul_l (degree g)); auto using degree_nonneg, modulus_ok.
  - apply (poly_eq_clmul_r (degree g)); auto using degree_nonneg, modulus_ok.
Qed.

Lemma field_high g x : 0 ≤ x → Z.shiftl x (degree g) ≡[g] clmul x (modulus_tail g).
Proof.
  intros. rewrite <- modulus_tail_eq. apply poly_eq_high; [apply degree_nonneg|apply modulus_ok|done].
Qed.

(** Elements are equal when their values are congruent. *)
Lemma elem_eq g a b : elem_ok g a → elem_ok g b → value a ≡[g] value b → a = b.
Proof.
  intros [Ha Ha'] [Hb Hb'] He. apply value_inj; [congruence|done..|].
  apply (poly_eq_unique (degree g) (modulus g)); try done; [apply degree_nonneg|apply modulus_ok|..];
    rewrite degree_limbs; [rewrite <- Ha|rewrite <- Hb]; by apply value_bound.
Qed.

(** The product by the tail of the modulus, term by term. *)
Lemma clmul_tail g t : 0 ≤ t → clmul t (modulus_tail g) = foldl (λ s (n : nat), s ⊕ Z.shiftl t n) t (terms g).
Proof.
  intros Ht. unfold modulus_tail. assert (∀ l s, 0 ≤ s →
    clmul t (foldl (λ s (n : nat), s ⊕ 2 ^ n) s l) = foldl (λ s (n : nat), s ⊕ Z.shiftl t n) (clmul t s) l) as H.
  { induction l as [|n l IH]; intros s Hs; simpl; [done|].
    pose proof (Z.pow_nonneg 2 n ltac:(lia)). rewrite IH by (by apply Z.lxor_nonneg).
    by rewrite clmul_lxor_r, clmul_pow2 by lia. }
  rewrite H by lia. by rewrite clmul_1_r.
Qed.

Lemma terms_ok g : Forall (λ s : nat, 0 < s < 64)%nat (terms g).
Proof. destruct g; by_decision. Qed.

(** ** The reductions *)

Lemma reduce_terms_value t base c ts s :
  u64_ok t → (base + 1 < length c)%nat → Forall u64_ok c → Forall (λ s : nat, 0 < s < 64)%nat ts →
  let c' := foldl (reduce_term t base) c ts in
  length c' = length c ∧ Forall u64_ok c' ∧
  (value c' ⊕ Z.shiftl s (64 * base) = value c ⊕ Z.shiftl (foldl (λ s (n : nat), s ⊕ Z.shiftl t n) s ts) (64 * base)) ∧
  ∀ i, (base + 1 < i)%nat → c'.[i] = c.[i].
Proof.
  intros Ht Hb Hc Hts. revert c s Hb Hc. induction Hts as [|n ts Hn Hts IH]; intros c s Hb Hc; simpl; [done|].
  assert (u64_ok (Z.shiftr t (64 - n))) as Hs.
  { apply (word_ok_mono n); [lia|]. apply carry_ok; [lia|done]. }
  destruct (IH (reduce_term t base c n) (s ⊕ Z.shiftl t n)) as (H1 & H2 & H3 & H4).
  - unfold reduce_term. rewrite !length_xor_at. lia.
  - unfold reduce_term. apply xor_at_u64; [done|]. apply xor_at_u64; [apply shl_u64|done].
  - simpl in *. split; [|split; [done|split]].
    + rewrite H1. unfold reduce_term. by rewrite !length_xor_at.
    + clear H4. revert H3. unfold reduce_term. rewrite !value_xor_at by (rewrite ?length_xor_at; lia).
      rewrite !Z.shiftl_lxor, (split_shift t n), Z.shiftl_lxor, Z.shiftl_shiftl by lia.
      replace (64 * (base + 1)%nat) with (64 + 64 * base) by lia. intros H3.
      apply (f_equal (λ z, z ⊕ Z.shiftl (shl 64 t n) (64 * base) ⊕ Z.shiftl (Z.shiftr t (64 - n)) (64 + 64 * base))) in H3.
      revert H3. generalize (Z.shiftl (shl 64 t n) (64 * base)), (Z.shiftl (Z.shiftr t (64 - n)) (64 + 64 * base)).
      intros x y H3. etransitivity; [|etransitivity; [exact H3|]]; bitwise.
    + intros i Hi. rewrite H4 by done. unfold reduce_term, xor_at.
      rewrite !nth_lookup, !list_lookup_insert_ne by lia. done.
Qed.

(** One word folded down: the words below carry the same element. *)
Lemma reduce_step_spec g c i :
  (limbs g ≤ i)%nat → (i < length c)%nat → Forall u64_ok c →
  let c' := reduce_step g c i in
  length c' = length c ∧ Forall u64_ok c' ∧ value (take i c') ≡[g] value (take (S i) c).
Proof.
  intros Hi Hl Hc. unfold reduce_step. pose proof (limbs_ge g) as Hlg.
  set (t := c.[i]). set (base := (i - limbs g)%nat).
  assert (u64_ok t) as Ht by by apply nth_u64_ok.
  set (c0 := take (S i) c).
  destruct (reduce_terms_value t base (xor_at base t c) (terms g) t) as (H1 & H2 & H3 & H4);
    [done|rewrite length_xor_at; lia|by apply xor_at_u64|apply terms_ok|].
  split; [by rewrite H1, length_xor_at|]. split; [done|].
  set (c' := foldl (reduce_term t base) (xor_at base t c) (terms g)) in *.
  rewrite length_xor_at in H1. rewrite <- clmul_tail, value_xor_at in H3 by (lia || apply Ht).
  assert (drop i c' = drop i c) as Hd.
  { apply list_eq. intros j. rewrite !lookup_drop.
    destruct (decide (i + j < length c)%nat); [|rewrite !lookup_ge_None_2 by lia; done].
    specialize (H4 (i + j)%nat ltac:(lia)).
    assert ((xor_at base t c).[i + j] = c.[i + j]) as Hx
      by (unfold xor_at; rewrite !nth_lookup, list_lookup_insert_ne by lia; done).
    rewrite Hx in H4. rewrite !nth_lookup in H4.
    destruct (lookup_lt_is_Some_2 c' (i + j)) as [x Hx1]; [lia|].
    destruct (lookup_lt_is_Some_2 c (i + j)) as [y Hy1]; [lia|]. rewrite Hx1, Hy1 in *. by f_equal. }
  assert (value (take i c') = value (take i c) ⊕ Z.shiftl (clmul t (modulus_tail g)) (64 * base)) as ->.
  { rewrite <- (take_drop i c'), <- (take_drop i c), Hd, !value_app, !length_take, H1 in H3.
    apply (f_equal (λ z, z ⊕ Z.shiftl t (64 * base) ⊕ Z.shiftl (value (drop i c)) (64 * Nat.min i (length c)))) in H3.
    revert H3. generalize (Z.shiftl (value (drop i c)) (64 * Nat.min i (length c))), (Z.shiftl t (64 * base)).
    intros x y H3. etransitivity; [|etransitivity; [exact H3|]]; bitwise. }
  unfold c0. rewrite value_take_S by done. fold t. apply field_lxor; [reflexivity|].
  replace (64 * i) with (degree g + 64 * base) by (rewrite degree_limbs; unfold base; lia).
  rewrite <- Z.shiftl_shiftl by lia. symmetry. apply field_shl; [|apply clmul_nonneg|lia|apply field_high]; try apply Ht.
  - apply Z.shiftl_nonneg, Ht.
  - by destruct g.
Qed.

Lemma reduce_loop g c n :
  (limbs g + n = length c)%nat → Forall u64_ok c →
  let c' := foldl (reduce_step g) c (reverse (seq (limbs g) n)) in
  length c' = length c ∧ Forall u64_ok c' ∧ value (take (limbs g) c') ≡[g] value c.
Proof.
  assert (∀ c, (limbs g + n ≤ length c)%nat → Forall u64_ok c →
    let c' := foldl (reduce_step g) c (reverse (seq (limbs g) n)) in
    length c' = length c ∧ Forall u64_ok c' ∧ value (take (limbs g) c') ≡[g] value (take (limbs g + n) c)) as H.
  { clear c. induction n as [|n IH]; intros c Hl Hc; [simpl; by rewrite Nat.add_0_r|].
    rewrite seq_S, reverse_snoc. simpl.
    destruct (reduce_step_spec g c (limbs g + n)) as (H1 & H2 & H3); [lia..|done|]. simpl in *.
    destruct (IH (reduce_step g c (limbs g + n))) as (H4 & H5 & H6); [lia|done|].
    split; [lia|]. split; [done|]. etransitivity; [done|]. rewrite Nat.add_succ_r. done. }
  intros Hl Hc. destruct (H c ltac:(lia) Hc) as (H1 & H2 & H3). split; [done|]. split; [done|].
  by rewrite Hl, firstn_all in H3.
Qed.

Definition wide_ok (g : gf) (c : list Z) : Prop := length c = limbs2 g ∧ Forall u64_ok c.
#[global] Instance wide_ok_dec g c : Decision (wide_ok g c).
Proof. unfold wide_ok. apply _. Defined.

Lemma reduce_ok g c : wide_ok g c → elem_ok g (reduce g c) ∧ value (reduce g c) ≡[g] value c.
Proof.
  intros [Hl Hc]. unfold reduce. pose proof (limbs2_limbs g).
  destruct (reduce_loop g c (limbs2 g - limbs g)) as (H1 & H2 & H3); [lia|done|]. simpl in *.
  split; [|done]. split; [rewrite length_take; lia|by apply Forall_take].
Qed.

(** ** The bit-serial reference *)

Lemma testbit_value c (d : nat) :
  Forall u64_ok c → Z.testbit (value c) d = Z.testbit (c.[d / 64]) (d mod 64)%nat.
Proof.
  intros Hc. revert d. induction Hc as [|w c Hw Hc IH]; intros d.
  { rewrite nth_lookup. simpl. by rewrite !Z.testbit_0_l. }
  cbn [value]. rewrite Z.lxor_spec, Z.shiftl_spec by lia. destruct (decide (d < 64)%nat) as [Hd|Hd].
  - rewrite Nat.div_small, Nat.mod_small, (Z.testbit_neg_r (value c)), xorb_false_r by lia. done.
  - assert (d = (d - 64) + 1 * 64)%nat as -> by lia. set (e := (d - 64)%nat).
    rewrite Nat.div_add, Nat.Div0.mod_add, Nat.add_1_r by lia. cbn [nth].
    apply word_ok_bits in Hw as [_ Hw]; [|lia]. rewrite Hw, xorb_false_l by lia.
    replace ((e + 1 * 64)%nat - 64) with (Z.of_nat e) by lia. apply IH.
Qed.

Lemma shl_bit (n : nat) : (n < 64)%nat → shl 64 1 n = 2 ^ n.
Proof.
  intros Hn. unfold shl. rewrite Z.shiftl_1_l. apply wrap_id; [lia|]. unfold word_ok.
  split; [lia|]. apply Z.pow_lt_mono_r; lia.
Qed.

(** Flipping bit [d]. *)
Lemma value_flip (c : list Z) (d : nat) :
  (d < 64 * length c)%nat → Forall u64_ok c →
  let c' := xor_at (d / 64) (shl 64 1 (d mod 64)%nat) c in
  value c' = value c ⊕ 2 ^ d ∧ length c' = length c ∧ Forall u64_ok c'.
Proof.
  intros Hd Hc. cbv zeta. split; [|split; [apply length_xor_at|apply xor_at_u64; [apply shl_u64|done]]].
  rewrite value_xor_at by (apply Nat.Div0.div_lt_upper_bound; lia).
  pose proof (Nat.mod_upper_bound d 64 ltac:(lia)). rewrite shl_bit by lia.
  rewrite <- Z.shiftl_1_l, Z.shiftl_shiftl by lia. rewrite <- (Z.shiftl_1_l d). do 2 f_equal.
  rewrite (Nat.div_mod_eq d 64) at 3. lia.
Qed.

Lemma value_flips (c : list Z) (k : nat) (ts : list nat) :
  Forall (λ t, k + t < 64 * length c)%nat ts → Forall u64_ok c →
  let c' := foldl (λ c (term : nat), let d := (k + term)%nat in xor_at (d / 64) (shl 64 1 (d mod 64)%nat) c) c ts in
  value c' = value c ⊕ Z.shiftl (foldl (λ s (n : nat), s ⊕ 2 ^ n) 0 ts) k ∧ length c' = length c ∧ Forall u64_ok c'.
Proof.
  intros Hts Hc.
  assert (∀ ts c s, Forall (λ t, k + t < 64 * length c)%nat ts → Forall u64_ok c →
    let c' := foldl (λ c (term : nat), let d := (k + term)%nat in xor_at (d / 64) (shl 64 1 (d mod 64)%nat) c) c ts in
    value c' ⊕ Z.shiftl s k = value c ⊕ Z.shiftl (foldl (λ s (n : nat), s ⊕ 2 ^ n) s ts) k ∧ length c' = length c ∧ Forall u64_ok c') as H.
  { clear ts c Hts Hc. induction ts as [|t ts IH]; intros c s Hts Hc; simpl; [done|].
    apply Forall_cons in Hts as [Ht Hts]. destruct (value_flip c (k + t) Ht Hc) as (H1 & H2 & H3). simpl in *.
    destruct (IH _ (s ⊕ 2 ^ t) ltac:(by rewrite H2) H3) as (H4 & H5 & H6). split; [|by rewrite H5].
    rewrite H1 in H4. rewrite Z.shiftl_lxor in H4.
    assert (Z.shiftl (2 ^ t) k = 2 ^ (k + t)%nat) as Hp.
    { rewrite Z.shiftl_mul_pow2, <- Z.pow_add_r by lia. f_equal. lia. }
    rewrite Hp in H4. apply (f_equal (λ z, z ⊕ 2 ^ (k + t)%nat)) in H4. revert H4.
    generalize (2 ^ (k + t)%nat). intros x H4. etransitivity; [|etransitivity; [exact H4|]]; bitwise. }
  destruct (H ts c 0 Hts Hc) as (H1 & H2). rewrite Z.shiftl_0_l, Z.lxor_0_r in H1. done.
Qed.

Lemma clear_top n x : 0 ≤ n → word_ok (n + 1) x → Z.testbit x n = true → word_ok n (x ⊕ 2 ^ n).
Proof.
  intros Hn Hx Hb. apply word_ok_bits; [done|]. apply word_ok_bits in Hx as [H0 Hx]; [|lia].
  split; [apply Z.lxor_nonneg; pose proof (Z.pow_nonneg 2 n); lia|]. intros i Hi.
  rewrite Z.lxor_spec, Z.pow2_bits_eqb by done. destruct (Z.eqb_spec n i) as [->|]; [by rewrite Hb|].
  by rewrite Hx by lia.
Qed.

Lemma keep_top n x : 0 ≤ n → word_ok (n + 1) x → Z.testbit x n = false → word_ok n x.
Proof.
  intros Hn Hx Hb. apply word_ok_bits; [done|]. apply word_ok_bits in Hx as [H0 Hx]; [|lia].
  split; [done|]. intros i Hi. destruct (decide (i = n)) as [->|]; [done|]. apply Hx. lia.
Qed.

Lemma land_bit x (n : nat) : Z.land (Z.shiftr x n) 1 = Z.b2z (Z.testbit x n).
Proof.
  change 1 with (Z.ones 1). rewrite Z.land_ones by lia. change (2 ^ 1) with 2.
  rewrite <- Z.bit0_mod, Z.shiftr_spec by lia. done.
Qed.

Lemma bit_serial_step_spec g c d :
  wide_ok g c → (degree g ≤ d < 64 * limbs2 g)%nat → word_ok (d + 1) (value c) →
  let c' := bit_serial_step g c d in
  wide_ok g c' ∧ word_ok d (value c') ∧ value c' ≡[g] value c.
Proof.
  intros [Hl Hc] Hd Hv. unfold bit_serial_step. rewrite land_bit, <- testbit_value by done.
  destruct (Z.testbit (value c) d) eqn:Hb; cbn [Z.b2z Z.eqb Pos.eqb].
  2: { split; [done|]. split; [by apply keep_top; [lia|..]|reflexivity]. }
  destruct (value_flip c d) as (H1 & H2 & H3); [lia|done|]. cbv zeta in H1, H2, H3.
  destruct (value_flips (xor_at (d / 64) (shl 64 1 (d mod 64)%nat) c) (d - degree g) (terms g ++ [O])) as (H4 & H5 & H6).
  { rewrite H2, Hl. apply Forall_app. split.
    - eapply Forall_impl; [apply terms_ok|]. intros t Ht. simpl in Ht. destruct g; simpl in *; lia.
    - constructor; [lia|done]. }
  { done. }
  cbv zeta in H4, H5, H6.
  split; [by split; [rewrite H5, H2|]|]. rewrite H4, H1.
  assert (foldl (λ s (n : nat), s ⊕ 2 ^ n) 0 (terms g ++ [O]) = modulus_tail g) as -> by (by destruct g).
  assert (word_ok (degree g) (modulus_tail g)) as Ht by (rewrite <- modulus_tail_eq; apply modulus_ok).
  assert (2 ^ d = Z.shiftl (2 ^ degree g) (d - degree g)%nat) as Hp.
  { rewrite Z.shiftl_mul_pow2, <- Z.pow_add_r by lia. f_equal. lia. }
  split.
  - apply word_ok_lxor; [lia|apply clear_top; [lia|done|done]|].
    replace (Z.of_nat d) with (degree g + (d - degree g)%nat) by lia. apply word_ok_shl; [lia..|done].
  - exists (2 ^ (d - degree g)%nat). split; [by apply Z.pow_nonneg|].
    assert (0 ≤ modulus g) by (by destruct g).
    rewrite clmul_pow2, Hp by lia. unfold modulus. rewrite Z.shiftl_lxor. bitwise.
Qed.

Lemma bit_serial_ok g c :
  wide_ok g c → elem_ok g (reduce_bit_serial_reference g c) ∧ value (reduce_bit_serial_reference g c) ≡[g] value c.
Proof.
  intros Hc. unfold reduce_bit_serial_reference.
  assert (∀ n c, wide_ok g c → (degree g + n ≤ 64 * limbs2 g)%nat → word_ok (degree g + n)%nat (value c) →
    let c' := foldl (bit_serial_step g) c (reverse (seq (degree g) n)) in
    wide_ok g c' ∧ word_ok (degree g) (value c') ∧ value c' ≡[g] value c) as H.
  { clear c Hc. induction n as [|n IH]; intros c Hc Hn Hv; [by rewrite Nat.add_0_r in Hv|].
    rewrite seq_S, reverse_snoc. simpl.
    destruct (bit_serial_step_spec g c (degree g + n) Hc) as (H1 & H2 & H3);
      [lia|by replace (((degree g + n)%nat + 1)) with (Z.of_nat (degree g + S n)) by lia|].
    destruct (IH _ H1) as (H4 & H5 & H6); [lia|done|]. split; [done|]. split; [done|]. by etransitivity. }
  destruct (H (limbs2 g * 64 - degree g)%nat c Hc) as ([H1 H1'] & H2 & H3).
  { destruct g; simpl; lia. }
  { replace (Z.of_nat (degree g + (limbs2 g * 64 - degree g))) with (64 * limbs2 g) by (destruct g; simpl; lia).
    destruct Hc as [<- Hc]. by apply value_bound. }
  split; [split; [rewrite length_take, H1; destruct g; simpl; lia|by apply Forall_take]|].
  rewrite value_take by done. rewrite Z.mod_small; [done|].
  rewrite H1. replace (64 * Nat.min (limbs g) (limbs2 g)) with (Z.of_nat (degree g)) by (destruct g; simpl; lia). done.
Qed.

(** ** The hardware product *)

Lemma clmul64_halves a b : clmul a b = (clmul64 a b).1 ⊕ Z.shiftl (clmul64 a b).2 64.
Proof.
  unfold clmul64. cbn [fst snd]. rewrite wrap_mod by lia. apply Z.bits_inj'. intros i Hi.
  rewrite Z.lxor_spec, Z.testbit_mod_pow2, Z.shiftl_spec by lia. destruct (Z.ltb_spec i 64); simpl.
  - by rewrite (Z.testbit_neg_r _ (i - 64)), xorb_false_r by lia.
  - rewrite Z.shiftr_spec by lia. f_equal. lia.
Qed.

Lemma clmul64_ok a b : u64_ok a → u64_ok b → u64_ok (clmul64 a b).1 ∧ u64_ok (clmul64 a b).2.
Proof.
  intros Ha Hb. split; [apply word_ok_wrap; lia|]. apply word_ok_shr; [lia..|].
  apply (word_ok_mono (64 + 63)); [lia|]. apply clmul_bound; [lia..|done|done].
Qed.

(** The multiples of one limb, and of all limbs below [n]. *)
Lemma hw_row_value a b i n out :
  (i + n < length out)%nat → u64_ok (a.[i]) → Forall u64_ok b → Forall u64_ok out → (n ≤ length b)%nat →
  let out' := foldl (λ out j, let '(lo, hi) := clmul64 (a.[i]) (b.[j]) in
    xor_at (i + j + 1) hi (xor_at (i + j) lo out)) out (seq 0 n) in
  length out' = length out ∧ Forall u64_ok out' ∧
  value out' = value out ⊕ Z.shiftl (clmul (a.[i]) (value (take n b))) (64 * i).
Proof.
  intros Hin Ha Hb Ho Hn. cbv zeta. induction n as [|n IH].
  { cbn [seq foldl take value]. by rewrite Z.shiftl_0_l, Z.lxor_0_r. }
  rewrite seq_S, foldl_app. cbn [foldl]. rewrite !Nat.add_0_l. destruct IH as (H1 & H2 & H3); [lia..|].
  set (o := foldl _ out (seq 0 n)) in *.
  destruct (clmul64_ok (a.[i]) (b.[n]) Ha (nth_u64_ok _ _ Hb)) as [Hlo Hhi].
  pose proof (clmul64_halves (a.[i]) (b.[n])) as Hh.
  destruct (clmul64 (a.[i]) (b.[n])) as [lo hi]. cbn [fst snd] in *.
  split; [by rewrite !length_xor_at|]. split; [by repeat apply xor_at_u64|].
  rewrite !value_xor_at by (rewrite ?length_xor_at; lia). rewrite H3.
  rewrite value_take_S, clmul_lxor_r by
    first [lia | apply Ha | apply value_nonneg, Forall_take, Hb | apply Z.shiftl_nonneg, nth_nonneg, Hb].
  rewrite clmul_shl_r, Hh by first [lia | apply Ha | apply nth_nonneg, Hb].
  rewrite !Z.shiftl_lxor, !Z.shiftl_shiftl by lia.
  replace (64 * (i + n)%nat) with (64 * n + 64 * i) by lia.
  replace (64 * (i + n + 1)%nat) with (64 + (64 * n + 64 * i)) by lia. bitwise.
Qed.

(** The schoolbook product of two arrays of [n] limbs. *)
Lemma hw_rows_value n a b :
  length a = n → length b = n → Forall u64_ok a → Forall u64_ok b →
  let out := foldl (λ out i, foldl (λ out j, let '(lo, hi) := clmul64 (a.[i]) (b.[j]) in
    xor_at (i + j + 1) hi (xor_at (i + j) lo out)) out (seq 0 n)) (replicate (2 * n) 0) (seq 0 n) in
  length out = (2 * n)%nat ∧ Forall u64_ok out ∧ value out = clmul (value a) (value b).
Proof.
  intros Hla Hlb Ha Hb. set (row := λ out i, foldl _ out (seq 0 n)).
  assert (∀ k, (k ≤ n)%nat →
    let out := foldl row (replicate (2 * n) 0) (seq 0 k) in
    length out = (2 * n)%nat ∧ Forall u64_ok out ∧ value out = clmul (value (take k a)) (value b)) as H.
  { induction k as [|k IH]; intros Hk; cbv zeta.
    - cbn [seq foldl take value]. rewrite length_replicate, value_zeros, clmul_0_l by (by apply value_nonneg).
      split; [done|]. split; [|done]. apply Forall_replicate, word_ok_0. lia.
    - rewrite seq_S, foldl_app. cbn [foldl]. destruct (IH ltac:(lia)) as (H1 & H2 & H3). rewrite Nat.add_0_l.
      set (o := foldl row _ (seq 0 k)) in *. unfold row at 1 2 3.
      destruct (hw_row_value a b k n o) as (H4 & H5 & H6); [lia|by apply nth_u64_ok|done|done|lia|].
      split; [by rewrite H4|]. split; [done|]. rewrite H6, H3.
      rewrite value_take_S, clmul_lxor_l, clmul_shl_l by first [lia | by apply value_nonneg].
      by rewrite (take_ge b) by lia. }
  cbv zeta. destruct (H n ltac:(lia)) as (H1 & H2 & H3). split; [done|]. split; [done|]. rewrite H3, take_ge by lia. done.
Qed.

Lemma poly_mul_wide_hw_ok g a b :
  elem_ok g a → elem_ok g b →
  wide_ok g (poly_mul_wide_hw g a b) ∧ value (poly_mul_wide_hw g a b) = clmul (value a) (value b).
Proof.
  intros [Hla Ha] [Hlb Hb]. unfold poly_mul_wide_hw. rewrite limbs2_limbs.
  destruct (hw_rows_value (limbs g) a b) as (H1 & H2 & H3); try done. split; [|done]. split; [by rewrite limbs2_limbs|done].
Qed.

(** ** The windowed product *)

Lemma mask_of_bit w (n : nat) r : u64_ok r → Z.land r (mask_of w n) = if Z.testbit w n then r else 0.
Proof.
  intros Hr. unfold mask_of. rewrite land_bit. destruct (Z.testbit w n); [|apply Z.land_0_r].
  change (wrapping_sub 64 0 (Z.b2z true)) with (Z.ones 64). by apply (wrap_id 64).
Qed.

Lemma value_map_mask l w (n : nat) :
  Forall u64_ok l → value (map (λ r, Z.land r (mask_of w n)) l) = if Z.testbit w n then value l else 0.
Proof.
  induction 1 as [|r l Hr Hl IH]; simpl; [by destruct (Z.testbit w n)|].
  rewrite IH, mask_of_bit by done. by destruct (Z.testbit w n).
Qed.

Lemma zip_mut_map {A B C} (f : A → B → A) (h : C → B) l k : zip_mut f l (map h k) = zip_mut (λ x y, f x (h y)) l k.
Proof. revert k. induction l as [|x l IH]; intros [|y k]; simpl; f_equal; auto. Qed.

Lemma value_xor_into acc l :
  (length l ≤ length acc)%nat → Forall u64_ok acc → Forall u64_ok l →
  value (xor_into acc l) = value acc ⊕ value l ∧ Forall u64_ok (xor_into acc l).
Proof.
  intros Hl Ha. revert l Hl. unfold xor_into. induction Ha as [|w acc Hw Ha IH]; intros l Hl Hk.
  { destruct l; [done|simpl in Hl; lia]. }
  destruct Hk as [|v l Hv Hk]; cbn [zip_mut value]; [rewrite Z.lxor_0_r; split; [done|by constructor]|].
  simpl in Hl. destruct (IH l ltac:(lia) Hk) as [H1 H2]. split; [|constructor; [by apply word_ok_lxor|done]].
  rewrite H1, Z.shiftl_lxor. bitwise.
Qed.

(** A row: the operand shifted by [j] bits, on [limbs + 1] words. *)
Definition row_ok (g : gf) (x : Z) (row : list Z) : Prop := wide_ok g row ∧ value row = x.

Lemma add_row g acc row w (n : nat) x :
  wide_ok g acc → row_ok g x row → word_ok (64 * (limbs g + 1)%nat) x →
  let acc' := zip_mut (λ acc_w row_w, acc_w ⊕ Z.land row_w (mask_of w n)) acc (take (limbs g + 1) row) in
  wide_ok g acc' ∧ value acc' = value acc ⊕ (if Z.testbit w n then x else 0).
Proof.
  intros [Hla Ha] [[Hlr Hr] <-] Hx. cbv zeta. rewrite <- (zip_mut_map Z.lxor (λ r, Z.land r (mask_of w n))).
  assert (Forall u64_ok (take (limbs g + 1) row)) as Ht by by apply Forall_take.
  pose proof (limbs_ge g) as Hlg. pose proof (limbs2_limbs g) as Hl2.
  destruct (value_xor_into acc (map (λ r, Z.land r (mask_of w n)) (take (limbs g + 1) row))) as [H1 H2].
  - rewrite length_map, length_take. lia.
  - done.
  - apply Forall_map. eapply Forall_impl; [exact Ht|]. intros r Hrr. rewrite mask_of_bit by done.
    destruct (Z.testbit w n); [done|apply word_ok_0; lia].
  - unfold xor_into in *. split; [split; [by rewrite length_zip_mut|done]|]. rewrite H1, value_map_mask by done. f_equal.
    destruct (Z.testbit w n); [|done]. rewrite value_take by done. apply Z.mod_small.
    replace (Nat.min (limbs g + 1) (length row)) with (limbs g + 1)%nat by lia. done.
Qed.

Lemma mul_rows_ok g a :
  elem_ok g a → ∃ r0 r1 r2 r3, mul_rows g a = [r0; r1; r2; r3] ∧
    row_ok g (value a) r0 ∧ row_ok g (Z.shiftl (value a) 1) r1 ∧
    row_ok g (Z.shiftl (value a) 2) r2 ∧ row_ok g (Z.shiftl (value a) 3) r3.
Proof.
  intros [Hl Ha]. pose proof (limbs_ge g) as Hlg. pose proof (limbs2_limbs g) as Hl2.
  assert (word_ok (64 * limbs g) (value a)) as Hv by (rewrite <- Hl; by apply value_bound).
  unfold mul_rows, shl1. set (r0 := copy_at 0 a (replicate (limbs2 g) 0)).
  assert (row_ok g (value a) r0) as H0.
  { unfold r0, copy_at. simpl. rewrite drop_replicate. split; [split|].
    - rewrite length_app, length_replicate. lia.
    - apply Forall_app. split; [done|]. apply Forall_replicate, word_ok_0. lia.
    - rewrite value_app, value_zeros, Z.shiftl_0_l, Z.lxor_0_r. done. }
  assert (∀ r (n : nat), (n ≤ 2)%nat → row_ok g (Z.shiftl (value a) n) r → row_ok g (Z.shiftl (value a) (S n)) (shift_loop 1 0 r)) as Hs.
  { intros r n Hn [[Hlr Hr] Hvr]. destruct (shift_loop_exact 1 r (64 * limbs g + n)) as [H1 H2]; [lia|done| |lia|lia|].
    - rewrite Hvr. by apply word_ok_shl; [lia..|].
    - split; [split; [by rewrite length_shift_loop|done]|]. rewrite H2, Hvr, Z.shiftl_shiftl by lia. f_equal. lia. }
  assert (row_ok g (Z.shiftl (value a) O) r0) as H0' by (by rewrite Z.shiftl_0_r).
  pose proof (Hs _ 0%nat ltac:(lia) H0') as H1. pose proof (Hs _ 1%nat ltac:(lia) H1) as H2.
  pose proof (Hs _ 2%nat ltac:(lia) H2) as H3. do 4 eexists. split; [done|]. by split.
Qed.

(** The four rows under the bits of a nibble are the product by the nibble. *)
Lemma clmul_nibble a n :
  word_ok 4 n → clmul a n = (if Z.testbit n 0 then a else 0) ⊕ (if Z.testbit n 1 then Z.shiftl a 1 else 0) ⊕
    (if Z.testbit n 2 then Z.shiftl a 2 else 0) ⊕ (if Z.testbit n 3 then Z.shiftl a 3 else 0).
Proof.
  intros Hn. 
  assert (∀ b, (Z.odd b) = Z.testbit b 0) as E by done.
  assert (word_ok 3 (Z.shiftr n 1)) as H1 by (apply word_ok_shr; [lia..|done]).
  assert (word_ok 2 (Z.shiftr (Z.shiftr n 1) 1)) as H2 by (apply word_ok_shr; [lia..|done]).
  assert (word_ok 1 (Z.shiftr (Z.shiftr (Z.shiftr n 1) 1) 1)) as H3 by (apply word_ok_shr; [lia..|done]).
  assert (word_ok 0 (Z.shiftr (Z.shiftr (Z.shiftr (Z.shiftr n 1) 1) 1) 1)) as H4 by (apply word_ok_shr; [lia..|done]).
  rewrite (low_bit n) at 1. rewrite clmul_bit by apply H1.
  rewrite (low_bit (Z.shiftr n 1)). rewrite clmul_bit by apply H2.
  rewrite (low_bit (Z.shiftr (Z.shiftr n 1) 1)). rewrite clmul_bit by apply H3.
  rewrite (low_bit (Z.shiftr (Z.shiftr (Z.shiftr n 1) 1) 1)). rewrite clmul_bit by apply H4.
  assert (Z.shiftr (Z.shiftr (Z.shiftr (Z.shiftr n 1) 1) 1) 1 = 0) as -> by (unfold word_ok in H4; lia).
  rewrite clmul_0_r, Z.shiftl_0_l, Z.lxor_0_r. rewrite !Z.shiftr_shiftr, <- !Z.bit0_odd, !Z.shiftr_spec by lia.
  rewrite !Z.shiftl_lxor, !Z.lxor_assoc. simpl Z.add.
  change (0 + 1) with 1. change (0 + (1 + 1)) with 2. change (0 + (1 + 1 + 1)) with 3.
 f_equal. f_equal; [by destruct (Z.testbit n 1)|]. f_equal.
  - destruct (Z.testbit n 2); [by rewrite Z.shiftl_shiftl by lia|done].
  - destruct (Z.testbit n 3); [by rewrite !Z.shiftl_shiftl by lia|done].
Qed.

Lemma nibble_step_spec g a rows acc w :
  elem_ok g a → rows = mul_rows g a → wide_ok g acc → u64_ok w →
  word_ok (64 * limbs2 g - 4) (value acc) →
  let '(acc', w') := nibble_step g rows (acc, w) in
  wide_ok g acc' ∧ w' = shl 64 w 4 ∧ value acc' = Z.shiftl (value acc) 4 ⊕ clmul (value a) (Z.shiftr w 60).
Proof.
  intros Ha -> [Hl Hacc] Hw Hv. destruct (mul_rows_ok g a Ha) as (r0 & r1 & r2 & r3 & -> & H0 & H1 & H2 & H3).
  pose proof (limbs_ge g) as Hlg. pose proof (limbs2_limbs g) as Hl2.
  unfold nibble_step, add_rows, shl4. cbn [zip zip_with foldl].
  destruct (shift_loop_exact 4 acc (64 * limbs2 g - 4)) as [Hs1 Hs2]; [lia|done|done|lia|lia|].
  assert (wide_ok g (shift_loop 4 0 acc)) as Hs by (by split; [rewrite length_shift_loop|]).
  assert (word_ok (64 * limbs g) (value a)) as Hb by (destruct Ha as [<- Ha]; by apply value_bound).
  assert (∀ n : nat, (n ≤ 3)%nat → word_ok (64 * (limbs g + 1)%nat) (Z.shiftl (value a) n)) as Hr.
  { intros n Hn. apply (word_ok_mono (64 * limbs g + n)); [lia|]. by apply word_ok_shl; [lia..|]. }
  assert (word_ok (64 * (limbs g + 1)%nat) (value a)) as Hr0 by (apply (word_ok_mono (64 * limbs g)); [lia|done]).
  destruct (add_row g _ r0 w 60 _ Hs H0 Hr0) as [W0 V0]. cbv zeta in *.
  destruct (add_row g _ r1 w 61 _ W0 H1 (Hr 1%nat ltac:(lia))) as [W1 V1]. cbv zeta in *.
  destruct (add_row g _ r2 w 62 _ W1 H2 (Hr 2%nat ltac:(lia))) as [W2 V2]. cbv zeta in *.
  destruct (add_row g _ r3 w 63 _ W2 H3 (Hr 3%nat ltac:(lia))) as [W3 V3]. cbv zeta in *.
  split; [exact W3|]. split; [done|]. etransitivity; [exact V3|]. rewrite V2, V1, V0, Hs2.
  rewrite (clmul_nibble (value a) (Z.shiftr w 60)) by (apply word_ok_shr; [lia..|done]).
  rewrite !Z.shiftr_spec by lia. rewrite !Z.lxor_assoc. done.
Qed.

(** After [n] nibbles of [w], the accumulator is the product by the bits consumed. *)
Lemma nibbles_spec g a acc w B n k :
  elem_ok g a → wide_ok g acc → u64_ok w → value acc = clmul (value a) B →
  0 ≤ k → word_ok k B → k + 64 ≤ 64 * limbs g → (n ≤ 16)%nat →
  let '(acc', w') := Nat.iter n (nibble_step g (mul_rows g a)) (acc, w) in
  wide_ok g acc' ∧ w' = shl 64 w (4 * n) ∧
  value acc' = clmul (value a) (Z.shiftl B (4 * n) ⊕ Z.shiftr w (64 - 4 * n)).
Proof.
  intros Ha Hacc Hw Hv Hk HB Hkl. induction n as [|n IH]; intros Hn.
  { simpl. split; [done|]. split; [unfold shl; rewrite Z.shiftl_0_r; symmetry; apply wrap_id; [lia|done]|].
    rewrite Z.shiftl_0_r. change (64 - 4 * 0%nat) with 64. rewrite shiftr_small, Z.lxor_0_r by (done || lia). done. }
  cbn [Nat.iter nat_rect]. specialize (IH ltac:(lia)).
  change (nat_rect _ (acc, w) _ n) with (Nat.iter n (nibble_step g (mul_rows g a)) (acc, w)).
  destruct (Nat.iter n (nibble_step g (mul_rows g a)) (acc, w)) as [acc1 w1]. destruct IH as (H1 & -> & H2).
  pose proof (limbs2_limbs g) as Hl2. pose proof (limbs_ge g) as Hlg.
  assert (word_ok (64 * limbs g) (value a)) as Hb by (destruct Ha as [<- Ha]; by apply value_bound).
  assert (0 ≤ value a) as Ha0 by apply Hb.
  assert (word_ok (4 * n) (Z.shiftr w (64 - 4 * n))) as Hsr by (apply carry_ok; [lia|done]).
  assert (word_ok (k + 4 * n) (Z.shiftl B (4 * n) ⊕ Z.shiftr w (64 - 4 * n))) as Hbits.
  { apply word_ok_lxor; [lia|by apply word_ok_shl; [lia..|]|]. apply (word_ok_mono (4 * n)); [lia|done]. }
  pose proof (nibble_step_spec g a _ acc1 (shl 64 w (4 * n)) Ha eq_refl H1 (shl_u64 _ _)) as Hstep.
  destruct (nibble_step g (mul_rows g a) (acc1, shl 64 w (4 * n))) as [acc2 w2].
  destruct Hstep as (H3 & -> & H4).
  { rewrite H2. apply (word_ok_mono (64 * limbs g + (k + 4 * n))); [lia|].
    apply clmul_bound; [lia|lia|done|]. apply (word_ok_mono (k + 4 * n)); [lia|done]. }
  split; [done|]. split.
  { unfold shl. rewrite !wrap_mod by lia. rewrite !Z.shiftl_mul_pow2 by lia. rewrite Zmult_mod_idemp_l, <- Z.mul_assoc, <- Z.pow_add_r by lia.
    do 3 f_equal. lia. }
  rewrite H4, H2, <- clmul_shl_r, <- clmul_lxor_r by
    first [lia | apply Hbits | apply Z.shiftl_nonneg, Hbits | apply Z.shiftr_nonneg, shl_u64].
  f_equal. rewrite Z.shiftl_lxor, Z.shiftl_shiftl, Z.lxor_assoc by lia.
  replace (4 * n + 4) with (4 * S n) by lia. f_equal.
  unfold shl. rewrite wrap_mod by lia. apply word_ok_bits in Hw as [_ Hw]; [|lia].
  apply Z.bits_inj'. intros i Hi. rewrite Z.lxor_spec, Z.shiftl_spec, (Z.shiftr_spec _ 60), (Z.shiftr_spec w (64 - 4 * S n)), Z.testbit_mod_pow2, Z.shiftl_spec by lia.
  destruct (decide (i < 4)).
  - rewrite Z.testbit_neg_r, xorb_false_l by lia. destruct (Z.ltb_spec (i + 60) 64); [simpl; f_equal; lia|lia].
  - rewrite Z.shiftr_spec by lia. destruct (Z.ltb_spec (i + 60) 64); [lia|]. simpl. rewrite xorb_false_r. f_equal. lia.
Qed.

Lemma poly_mul_wide_ok g a b :
  elem_ok g a → elem_ok g b →
  wide_ok g (poly_mul_wide g a b) ∧ value (poly_mul_wide g a b) = clmul (value a) (value b).
Proof.
  intros Ha [Hl Hb]. unfold poly_mul_wide.
  assert (∀ l, Forall u64_ok l → (length l ≤ limbs g)%nat →
    let acc := foldl (λ acc word, (Nat.iter 16 (nibble_step g (mul_rows g a)) (acc, word)).1)
      (replicate (limbs2 g) 0) (reverse l) in
    wide_ok g acc ∧ value acc = clmul (value a) (value l)) as H; [|apply H; [done|lia]].
  intros l Hu. induction Hu as [|w l Hw Hu IH]; intros Hlen; cbv zeta.
  { rewrite reverse_nil. cbn [foldl]. rewrite value_zeros. split; [|done].
    split; [apply length_replicate|]. apply Forall_replicate, word_ok_0. lia. }
  rewrite reverse_cons, foldl_app. cbn [foldl]. simpl in Hlen. destruct (IH ltac:(lia)) as [H1 H2]. cbv zeta in H1, H2.
  pose proof (nibbles_spec g a _ w (value l) 16 (64 * length l) Ha H1 Hw H2 ltac:(lia) (value_bound l Hu) ltac:(lia) ltac:(lia)) as Hn.
  destruct (Nat.iter 16 _ _) as [acc' w']. destruct Hn as (H3 & _ & H4). split; [done|].
  cbn [fst value]. rewrite H4. change (64 - 4 * 16%nat) with 0. rewrite Z.shiftr_0_r. f_equal. apply Z.lxor_comm.
Qed.

(** ** Multiplication, addition, doubling *)

Lemma multiply_ok fa g a b :
  elem_ok g a → elem_ok g b →
  elem_ok g (multiply fa g a b) ∧ value (multiply fa g a b) ≡[g] clmul (value a) (value b).
Proof.
  intros Ha Hb. unfold multiply. destruct fa.
  - destruct (poly_mul_wide_hw_ok g a b Ha Hb) as [H1 H2]. rewrite <- H2. by apply reduce_ok.
  - destruct (poly_mul_wide_ok g a b Ha Hb) as [H1 H2]. rewrite <- H2. by apply reduce_ok.
Qed.

Lemma gf_add_xor g a b : elem_ok g a → elem_ok g b → gf_add g a b = xor_into a b.
Proof.
  intros [Hla Ha] [Hlb Hb]. unfold gf_add, xor_into. rewrite zip_mut_zip_with by congruence.
  apply list_eq. intros i. rewrite map_fmap, list_lookup_fmap, lookup_zip_with.
  destruct (decide (i < limbs g)%nat).
  - rewrite lookup_seq_lt by done. simpl. rewrite !nth_lookup.
    destruct (lookup_lt_is_Some_2 a i) as [x ->]; [lia|]. destruct (lookup_lt_is_Some_2 b i) as [y ->]; [lia|]. done.
  - rewrite !lookup_ge_None_2 by (rewrite ?length_seq; lia). done.
Qed.

Lemma gf_add_ok g a b :
  elem_ok g a → elem_ok g b → elem_ok g (gf_add g a b) ∧ value (gf_add g a b) = value a ⊕ value b.
Proof.
  intros Ha Hb. rewrite gf_add_xor by done. destruct Ha as [Hla Ha], Hb as [Hlb Hb].
  destruct (value_xor_into a b) as [H1 H2]; [lia|done..|]. split; [|done]. split; [by rewrite length_xor_into|done].
Qed.

Lemma value_set_terms g mask c (e : bool) :
  mask = wrapping_sub 64 0 (Z.b2z e) → elem_ok g c →
  let c' := foldl (λ out (term : nat), xor_at (term / 64) (Z.land mask (shl 64 1 (term mod 64)%nat)) out) c (terms g) in
  elem_ok g c' ∧ value c' = value c ⊕ (if e then modulus_tail g ⊕ 1 else 0).
Proof.
  intros -> [Hl Hc].
  assert (∀ ts c, Forall (λ s : nat, 0 < s < 64)%nat ts → elem_ok g c →
    let c' := foldl (λ out (term : nat), xor_at (term / 64)
      (Z.land (wrapping_sub 64 0 (Z.b2z e)) (shl 64 1 (term mod 64)%nat)) out) c ts in
    elem_ok g c' ∧ value c' = value c ⊕ (if e then foldl (λ s (n : nat), s ⊕ 2 ^ n) 0 ts else 0)) as H.
  { clear c Hl Hc. induction ts as [|t ts IH] using rev_ind; intros c Hts Hok; cbv zeta.
    { simpl. destruct e; by rewrite Z.lxor_0_r. }
    apply Forall_app in Hts as [Hts Ht]. apply Forall_cons in Ht as [Ht _]. rewrite !foldl_app. cbn [foldl].
    destruct (IH c Hts Hok) as [[H1 H1'] H2]. cbv zeta in *. pose proof (limbs_ge g) as Hlg.
    rewrite Nat.div_small, Nat.mod_small, shl_bit by lia.
    assert (Z.land (wrapping_sub 64 0 (Z.b2z e)) (2 ^ t) = if e then 2 ^ t else 0) as ->.
    { destruct e; [|done]. change (wrapping_sub 64 0 (Z.b2z true)) with (Z.ones 64). rewrite Z.land_comm.
      apply (wrap_id 64); [lia|]. rewrite <- shl_bit by lia. apply shl_u64. }
    split.
    - split; [by rewrite length_xor_at|]. apply xor_at_u64; [|done].
      destruct e; [rewrite <- shl_bit by lia; apply shl_u64|apply word_ok_0; lia].
    - rewrite value_xor_at, H2, Z.shiftl_0_r by lia. destruct e; [by rewrite Z.lxor_assoc|]. by rewrite !Z.lxor_0_r. }
  destruct (H (terms g) c (terms_ok g) (conj Hl Hc)) as [H1 H2]. cbv zeta in *. split; [done|]. rewrite H2. f_equal.
  destruct e; [|done]. by destruct g.
Qed.

Lemma top_limb_bit g a : elem_ok g a → Z.land (Z.shiftr (a.[limbs g - 1]) 63) 1 = Z.b2z (Z.testbit (value a) (degree g - 1)%nat).
Proof.
  intros [Hl Ha]. rewrite testbit_value by done. change 63 with (Z.of_nat 63). rewrite land_bit.
  f_equal. destruct g; reflexivity.
Qed.

Lemma double_ok g a : elem_ok g a → elem_ok g (double g a) ∧ value (double g a) ≡[g] Z.shiftl (value a) 1.
Proof.
  intros Hok. pose proof Hok as [Hl Ha]. unfold double. rewrite top_limb_bit by done. pose proof (limbs_ge g) as Hlg.
  set (e := Z.testbit (value a) (degree g - 1)%nat). cbv zeta.
  destruct (shift_loop_spec 1 0 a ltac:(lia) ltac:(apply word_ok_0; lia) Ha) as [H1 H2].
  set (out := shift_loop 1 0 a) in *.
  assert (Z.land (wrapping_sub 64 0 (Z.b2z e)) 1 = Z.b2z e) as -> by (by destruct e).
  assert (length out = limbs g) as Hlo by (unfold out; by rewrite length_shift_loop).
  destruct (value_set_terms g (wrapping_sub 64 0 (Z.b2z e)) (xor_at 0 (Z.b2z e) out) e eq_refl) as [H3 H4].
  { split; [by rewrite length_xor_at|]. apply xor_at_u64; [destruct e; by_decision|done]. }
  cbv zeta in *. split; [done|]. rewrite H4, value_xor_at, Z.shiftl_0_r by lia.
  rewrite H2, Z.lxor_0_r, Hl, <- degree_limbs.
  assert (word_ok (degree g) (value a)) as Hv by (rewrite degree_limbs, <- Hl; by apply value_bound).
  pose proof Hv as [Hv0 _].
  assert (Z.shiftl (value a) 1 = Z.shiftl (value a) 1 mod 2 ^ degree g ⊕ (if e then 2 ^ degree g else 0)) as Hsplit.
  { apply word_ok_bits in Hv as [_ Hv]; [|lia]. apply Z.bits_inj'. intros i Hi.
    rewrite Z.lxor_spec, Z.testbit_mod_pow2, Z.shiftl_spec by lia.
    assert (Z.testbit (if e then 2 ^ degree g else 0) i = e && Z.eqb (degree g) i) as ->
      by (destruct e; [by rewrite Z.pow2_bits_eqb by lia|by rewrite Z.testbit_0_l]).
    destruct (Z.ltb_spec i (degree g)); simpl.
    - destruct (Z.eqb_spec (degree g) i); [lia|]. by rewrite andb_false_r, xorb_false_r.
    - destruct (Z.eqb_spec (degree g) i) as [<-|]; rewrite ?andb_true_r, ?andb_false_r.
      + unfold e. destruct g; done.
      + rewrite Hv by lia. done. }
  rewrite Hsplit at 2. destruct e.
  - exists 1. split; [done|]. rewrite clmul_1_r. unfold modulus. simpl Z.b2z. bitwise.
  - rewrite !Z.lxor_0_r. reflexivity.
Qed.

Lemma zero_ok g : elem_ok g (ZERO g) ∧ value (ZERO g) = 0.
Proof. split; [|apply value_zeros]. split; [apply length_replicate|apply Forall_replicate, word_ok_0; lia]. Qed.

(** ** Bytes *)

Lemma from_le_u64 l : bytes_ok l → (length l ≤ 8)%nat → u64_ok (from_le_bytes l).
Proof. intros Hl Hn. apply (word_ok_mono (8 * length l)); [lia|by apply from_le_bytes_bound]. Qed.

Lemma gf_slice_ok i n b : bytes_ok b → (i + n ≤ length b)%nat → array_ok n (slice i (i + n) b).
Proof.
  intros Hb Hn. unfold slice. split; [rewrite length_take, length_drop; lia|by apply Forall_take, Forall_drop].
Qed.

Lemma gf_from_le_bytes_ok g b : array_ok (limbs g * 8) b → elem_ok g (gf_from_le_bytes g b).
Proof.
  intros [Hl Hb]. split; [unfold gf_from_le_bytes; by rewrite length_map, length_seq|].
  apply Forall_map, Forall_seq. intros i Hi.
  destruct (gf_slice_ok (i * 8) 8 b Hb ltac:(lia)) as [H1 H2]. apply from_le_u64; [done|lia].
Qed.

Lemma gf_to_le_bytes_ok g e : elem_ok g e → array_ok (limbs g * 8) (gf_to_le_bytes e).
Proof.
  intros [<- He]. unfold gf_to_le_bytes. induction He as [|w e Hw He IH]; [done|]. cbn [flat_map length].
  apply (array_ok_app 8 (length e * 8)); [apply to_le_bytes_ok|done].
Qed.

Lemma gf_from_to_bytes g e : elem_ok g e → gf_from_le_bytes g (gf_to_le_bytes e) = e.
Proof.
  intros [Hl He]. unfold gf_from_le_bytes. rewrite <- Hl. clear g Hl. unfold gf_to_le_bytes.
  induction He as [|w e Hw He IH]; [done|]. cbn [length flat_map]. rewrite <- cons_seq, <- seq_shift. cbn [map].
  rewrite map_map. f_equal.
  - unfold slice. rewrite drop_0, take_app_length' by (by rewrite length_to_le_bytes). by apply from_to_le_bytes_id.
  - rewrite <- IH at 2. apply map_ext. intros i. f_equal.
Qed.

(** The generator [x] and the unit. *)
Definition one (g : gf) : list Z := 1 :: replicate (limbs g - 1) 0.
Definition two (g : gf) : list Z := 2 :: replicate (limbs g - 1) 0.

Lemma small_elem_ok g w : u64_ok w → elem_ok g (w :: replicate (limbs g - 1) 0) ∧ value (w :: replicate (limbs g - 1) 0) = w.
Proof.
  intros Hw. pose proof (limbs_ge g). split; [split|].
  - simpl. rewrite length_replicate. lia.
  - constructor; [done|]. apply Forall_replicate, word_ok_0. lia.
  - simpl. by rewrite value_zeros, Z.shiftl_0_l, Z.lxor_0_r.
Qed.

(** ** Properties *)

(** C5. [multiply] is the product of GF(2)[x] modulo [x^m + x^f1 + x^f2 + x^f3 + 1], as the only
    representative of degree below [m]; the processor's instruction and the portable window give the
    same element. *)
Theorem gf_multiply_correct (g : gf) (a b : list Z) :
  elem_ok g a → elem_ok g b →
  multiply true g a b = multiply false g a b ∧
  elem_ok g (multiply false g a b) ∧
  value (multiply false g a b) ≡[g] clmul (value a) (value b) ∧
  ∀ e, elem_ok g e → value e ≡[g] clmul (value a) (value b) → e = multiply false g a b.
Proof.
  intros Ha Hb. destruct (multiply_ok true g a b Ha Hb) as [H1 H2]. destruct (multiply_ok false g a b Ha Hb) as [H3 H4].
  split; [apply (elem_eq g); [done|done|]; by rewrite H2, H4|]. split; [done|]. split; [done|].
  intros e He Hv. apply (elem_eq g); [done|done|]. by rewrite Hv, H4.
Qed.

Lemma gf_multiply_correct_witness :
  let a := [3; 2 ^ 63] in let b := [5; 2 ^ 62 + 1] in
  multiply true Gf2m128 a b = multiply false Gf2m128 a b ∧
  elem_ok Gf2m128 (multiply false Gf2m128 a b) ∧
  value (multiply false Gf2m128 a b) ≡[Gf2m128] clmul (value a) (value b) ∧
  ∀ e, elem_ok Gf2m128 e → value e ≡[Gf2m128] clmul (value a) (value b) → e = multiply false Gf2m128 a b.
Proof. apply (gf_multiply_correct Gf2m128); by_decision. Defined.

Lemma multiply_comm fa g a b : elem_ok g a → elem_ok g b → multiply fa g a b = multiply fa g b a.
Proof.
  intros Ha Hb. destruct (multiply_ok fa g a b Ha Hb) as [H1 H2]. destruct (multiply_ok fa g b a Hb Ha) as [H3 H4].
  apply (elem_eq g); [done|done|]. rewrite H2, H4. rewrite clmul_comm; [reflexivity|apply value_nonneg, Ha|apply value_nonneg, Hb].
Qed.

Lemma multiply_add fa g a b c :
  elem_ok g a → elem_ok g b → elem_ok g c →
  multiply fa g (gf_add g a b) c = gf_add g (multiply fa g a c) (multiply fa g b c).
Proof.
  intros Ha Hb Hc. destruct (gf_add_ok g a b Ha Hb) as [H1 H2].
  destruct (multiply_ok fa g a c Ha Hc) as [H3 H4]. destruct (multiply_ok fa g b c Hb Hc) as [H5 H6].
  destruct (multiply_ok fa g (gf_add g a b) c H1 Hc) as [H7 H8].
  destruct (gf_add_ok g _ _ H3 H5) as [H9 H10].
  apply (elem_eq g); [done|done|]. rewrite H8, H10, H2, clmul_lxor_l by (apply value_nonneg, Hc). by rewrite H4, H6.
Qed.

Lemma multiply_assoc fa g a b c :
  elem_ok g a → elem_ok g b → elem_ok g c →
  multiply fa g (multiply fa g a b) c = multiply fa g a (multiply fa g b c).
Proof.
  intros Ha Hb Hc. destruct (multiply_ok fa g a b Ha Hb) as [H1 H2]. destruct (multiply_ok fa g b c Hb Hc) as [H3 H4].
  destruct (multiply_ok fa g _ c H1 Hc) as [H5 H6]. destruct (multiply_ok fa g a _ Ha H3) as [H7 H8].
  assert (∀ x, elem_ok g x → 0 ≤ value x) as Hn by (intros x []; by apply value_nonneg).
  apply (elem_eq g); [done|done|]. rewrite H6, H8.
  transitivity (clmul (clmul (value a) (value b)) (value c)); [apply field_clmul; auto using clmul_nonneg; reflexivity|].
  rewrite clmul_assoc by auto. symmetry. apply field_clmul; auto using clmul_nonneg; reflexivity.
Qed.

Lemma multiply_small fa g a w :
  elem_ok g a → u64_ok w → value (multiply fa g a (w :: replicate (limbs g - 1) 0)) ≡[g] clmul (value a) w.
Proof.
  intros Ha Hw. destruct (small_elem_ok g w Hw) as [H1 H2]. destruct (multiply_ok fa g a _ Ha H1) as [_ H3].
  by rewrite H2 in H3.
Qed.

(** The elements are a commutative ring of characteristic two under [add] and [multiply]. *)
Theorem gf_ring (fa : bool) (g : gf) (a b c : list Z) :
  elem_ok g a → elem_ok g b → elem_ok g c →
  gf_add g a a = ZERO g ∧ gf_add g a (ZERO g) = a ∧ gf_add g a b = gf_add g b a ∧
  gf_add g (gf_add g a b) c = gf_add g a (gf_add g b c) ∧
  multiply fa g a (one g) = a ∧ multiply fa g a b = multiply fa g b a ∧
  multiply fa g (multiply fa g a b) c = multiply fa g a (multiply fa g b c) ∧
  multiply fa g (gf_add g a b) c = gf_add g (multiply fa g a c) (multiply fa g b c).
Proof.
  intros Ha Hb Hc. destruct (zero_ok g) as [Hz Hvz].
  destruct (gf_add_ok g a b Ha Hb) as [Hab Vab]. destruct (gf_add_ok g b c Hb Hc) as [Hbc Vbc].
  assert (∀ x y, elem_ok g x → elem_ok g y → value x = value y → x = y) as Heq
    by (intros x y Hx Hy Hv; apply (elem_eq g); [done|done|by rewrite Hv]).
  split_and!.
  - destruct (gf_add_ok g a a Ha Ha) as [H1 H2]. apply Heq; [done|done|]. by rewrite H2, Hvz, Z.lxor_nilpotent.
  - destruct (gf_add_ok g a _ Ha Hz) as [H1 H2]. apply Heq; [done|done|]. by rewrite H2, Hvz, Z.lxor_0_r.
  - destruct (gf_add_ok g b a Hb Ha) as [H1 H2]. apply Heq; [done|done|]. by rewrite H2, Vab, Z.lxor_comm.
  - destruct (gf_add_ok g _ c Hab Hc) as [H1 H2]. destruct (gf_add_ok g a _ Ha Hbc) as [H3 H4].
    apply Heq; [done|done|]. by rewrite H2, H4, Vab, Vbc, Z.lxor_assoc.
  - destruct (small_elem_ok g 1) as [H1 H2]; [by_decision|].
    apply (elem_eq g); [by apply (multiply_ok fa g a (one g) Ha H1)|done|]. by apply (multiply_small fa g a 1).
  - by apply multiply_comm.
  - by apply multiply_assoc.
  - by apply multiply_add.
Qed.

Lemma gf_ring_witness :
  let a := [3; 7; 2 ^ 63; 1] in let b := [2 ^ 64 - 1; 0; 0; 2 ^ 63] in let c := [5; 0; 1; 9] in
  gf_add Gf2m256 a a = ZERO Gf2m256 ∧ gf_add Gf2m256 a (ZERO Gf2m256) = a ∧ gf_add Gf2m256 a b = gf_add Gf2m256 b a ∧
  gf_add Gf2m256 (gf_add Gf2m256 a b) c = gf_add Gf2m256 a (gf_add Gf2m256 b c) ∧
  multiply false Gf2m256 a (one Gf2m256) = a ∧ multiply false Gf2m256 a b = multiply false Gf2m256 b a ∧
  multiply false Gf2m256 (multiply false Gf2m256 a b) c = multiply false Gf2m256 a (multiply false Gf2m256 b c) ∧
  multiply false Gf2m256 (gf_add Gf2m256 a b) c = gf_add Gf2m256 (multiply false Gf2m256 a c) (multiply false Gf2m256 b c).
Proof. refine (gf_ring false Gf2m256 [3; 7; 2 ^ 63; 1] [2 ^ 64 - 1; 0; 0; 2 ^ 63] [5; 0; 1; 9] _ _ _); by_decision. Defined.

(** The word-wise reduction equals the bit-serial reference on every double-width input, and both
    keep the class of the polynomial. *)
Theorem gf_reduce_reference (g : gf) (c : list Z) :
  wide_ok g c →
  reduce g c = reduce_bit_serial_reference g c ∧ elem_ok g (reduce g c) ∧ value (reduce g c) ≡[g] value c.
Proof.
  intros Hc. destruct (reduce_ok g c Hc) as [H1 H2]. destruct (bit_serial_ok g c Hc) as [H3 H4].
  split; [|done]. apply (elem_eq g); [done|done|]. by rewrite H2, H4.
Qed.

Lemma gf_reduce_reference_witness :
  let c := replicate 16 (2 ^ 64 - 1) in
  reduce Gf2m512 c = reduce_bit_serial_reference Gf2m512 c ∧
  elem_ok Gf2m512 (reduce Gf2m512 c) ∧ value (reduce Gf2m512 c) ≡[Gf2m512] value c.
Proof. apply (gf_reduce_reference Gf2m512). by_decision. Defined.

(** [double] is multiplication by the generator. *)
Theorem gf_double_is_multiply (fa : bool) (g : gf) (a : list Z) :
  elem_ok g a → elem_ok g (double g a) ∧ double g a = multiply fa g a (two g).
Proof.
  intros Ha. destruct (double_ok g a Ha) as [H1 H2]. split; [done|].
  assert (u64_ok 2) as Hw by by_decision. destruct (small_elem_ok g 2 Hw) as [H3 _].
  apply (elem_eq g); [done|by apply (multiply_ok fa g a (two g) Ha H3)|].
  rewrite H2, (multiply_small fa g a 2 Ha Hw).
  change 2 with (2 ^ 1). rewrite clmul_pow2 by (lia || apply value_nonneg, Ha). reflexivity.
Qed.

Lemma gf_double_is_multiply_witness :
  let a := replicate 8 (2 ^ 64 - 1) in
  elem_ok Gf2m512 (double Gf2m512 a) ∧ double Gf2m512 a = multiply true Gf2m512 a (two Gf2m512).
Proof. apply (gf_double_is_multiply true Gf2m512). by_decision. Defined.
