(* ===== verification/Ghash.v ===== *)
(** What GMAC and GCM share: the field of a cipher, Horner's rule over blocks, the length block and
    [checked_bit_len] ([hazmat/mod.rs]). *)

From S2P Require Import Prelude External BlockCipher Stream Poly2 Gf2mWide Kalyna.

(** The field type that a variant macro takes next to the cipher: its elements are the blocks. *)
Class FieldOf (K : Type) `{BlockCipher K} : Type := { gf_of : gf; gf_of_bytes : block_bytes K = (limbs gf_of * 8)%nat }.
Arguments gf_of K {_ _} : assert.

(** [clmul_native::feature_available]. *)
Class Cpu : Type := { feature_available : bool }.

(** The fields that the variants take. *)
Definition kalyna_gf (v : variant) : gf :=
  match v with
  | Kalyna128_128 | Kalyna128_256 => Gf2m128
  | Kalyna256_256 | Kalyna256_512 => Gf2m256
  | Kalyna512_512 => Gf2m512
  end.

#[global] Program Instance kalyna_field v : FieldOf (ExpandedKey v) := { gf_of := kalyna_gf v }.
Next Obligation. by intros []. Qed.

(** A byte count as a 64-bit bit length; a [usize] has at most 64 bits. *)
Definition checked_bit_len (bytes : nat) : option Z :=
  if Z.ltb bytes (2 ^ 64) then
    if Z.ltb (bytes * 8) (2 ^ 64) then Some (bytes * 8) else None
  else None.

(** ** The accumulation of both modes *)

Section ghash.
Context {K : Type} `{BlockCipherLaws K} `{!FieldOf K} `{Cpu}.
Local Abbreviation bb := (block_bytes K).
Local Abbreviation g := (gf_of K).

(** [acc.add(from_le_bytes(block)).multiply(h)]. *)
Definition horner_step (h_key acc block : list Z) : list Z :=
  multiply feature_available g (gf_add g acc (gf_from_le_bytes g block)) h_key.

(** Horner's rule over the blocks, the specification of both loops. *)
Definition ghash (h_key : list Z) (blocks : list (list Z)) (acc : list Z) : list Z :=
  foldl (horner_step h_key) acc blocks.

Lemma block_elem_ok b : array_ok bb b → elem_ok g (gf_from_le_bytes g b).
Proof. intros Hb. apply gf_from_le_bytes_ok. by rewrite <- gf_of_bytes. Qed.

Lemma horner_ok h acc b :
  elem_ok g h → elem_ok g acc → array_ok bb b → elem_ok g (horner_step h acc b).
Proof.
  intros Hh Ha Hb. apply multiply_ok; [|done]. apply gf_add_ok; [done|]. by apply block_elem_ok.
Qed.

Lemma ghash_ok h blocks acc :
  elem_ok g h → elem_ok g acc → Forall (array_ok bb) blocks → elem_ok g (ghash h blocks acc).
Proof.
  intros Hh Ha Hb. revert acc Ha. unfold ghash. induction Hb; intros acc Ha; simpl; [done|]. by auto using horner_ok.
Qed.

Lemma ghash_app h a b acc : ghash h (a ++ b) acc = ghash h b (ghash h a acc).
Proof. apply foldl_app. Qed.

Lemma ghash_bytes h blocks acc :
  elem_ok g h → elem_ok g acc → Forall (array_ok bb) blocks → array_ok bb (gf_to_le_bytes (ghash h blocks acc)).
Proof. intros. rewrite gf_of_bytes. apply gf_to_le_bytes_ok. by apply ghash_ok. Qed.

Lemma zero_elem_ok : elem_ok g (ZERO g).
Proof. apply zero_ok. Qed.

Lemma h_key_ok (cipher : K) : key_ok cipher → elem_ok g (gf_from_le_bytes g (encrypt_block cipher (replicate bb 0))).
Proof. intros Hk. apply block_elem_ok, encrypt_block_ok; [done|apply array_ok_zeros]. Qed.
End ghash.

(** [for i in 0..block_bytes { combined[i] = length_block[i] ^ acc_bytes[i]; }]. *)
Definition combine (n : nat) (length_block acc_bytes : list Z) : list Z :=
  map (λ i, length_block.[i] ⊕ acc_bytes.[i]) (seq 0 n).

Lemma combine_xor n a b : length a = n → length b = n → combine n a b = xor_into a b.
Proof.
  intros Ha Hb. unfold combine, xor_into. rewrite zip_mut_zip_with by congruence.
  apply list_eq. intros i. rewrite map_fmap, list_lookup_fmap, lookup_zip_with.
  destruct (decide (i < n)%nat).
  - rewrite lookup_seq_lt by done. simpl. rewrite !nth_lookup.
    destruct (lookup_lt_is_Some_2 a i) as [x ->]; [lia|]. destruct (lookup_lt_is_Some_2 b i) as [y ->]; [lia|]. done.
  - rewrite !lookup_ge_None_2 by (rewrite ?length_seq; lia). done.
Qed.

Lemma checked_bit_len_spec n : checked_bit_len n = if decide (8 * n < 2 ^ 64) then Some (8 * n) else None.
Proof.
  unfold checked_bit_len. case_decide as Hn.
  - rewrite (proj2 (Z.ltb_lt n _)), (proj2 (Z.ltb_lt (n * 8) _)) by lia. f_equal. lia.
  - destruct (Z.ltb_spec n (2 ^ 64)); [|done]. by destruct (Z.ltb_spec (n * 8) (2 ^ 64)); [lia|].
Qed.

