(* ===== verification/Gmac.v ===== *)
(** GMAC over any block cipher of the interface and its field ([hazmat/kalyna_gmac.rs]). *)

From S2P Require Import Prelude External BlockCipher Stream Poly2 Gf2mWide Kalyna Ghash.

Inductive GmacError : Type := EmptyMessage | InvalidLength | TagMismatch.

Section gmac.
Context {K : Type} `{BlockCipher K} `{!FieldOf K} `{Cpu} `{Subtle}.
Local Abbreviation bb := (block_bytes K).
Local Abbreviation g := (gf_of K).

(** The block read at [off]. *)
Definition block_at (message : list Z) (rem off : nat) : list Z :=
  let msg_len := length message in
  let end_ := Nat.min (off + bb) msg_len in
  let block := replicate bb 0 in
  let block := if Nat.ltb off end_ then copy_at 0 (slice off end_ message) block else block in
  if negb (Nat.eqb rem 0) && Nat.leb off msg_len && Nat.ltb msg_len (off + bb)
  then <[(msg_len - off)%nat := 0x80]> block else block.

(** [while off < padded_len]. *)
Fixpoint mac_loop (fuel : nat) (h_key message : list Z) (rem padded_len off : nat) (acc : list Z) : list Z :=
  match fuel with
  | O => acc
  | S fuel =>
      if Nat.ltb off padded_len then
        let acc := horner_step h_key acc (block_at message rem off) in
        mac_loop fuel h_key message rem padded_len (off + bb) acc
      else acc
  end.

Definition mac_with_bit_len (cipher : K) (message : list Z) (bit_len : Z) : list Z :=
  let h_key := gf_from_le_bytes g (encrypt_block cipher (replicate bb 0)) in
  let msg_len := length message in
  let rem := (msg_len mod bb)%nat in
  let padded_len := if Nat.eqb rem 0 then msg_len else (msg_len + (bb - rem))%nat in
  let acc := mac_loop padded_len h_key message rem padded_len 0 (ZERO g) in
  let length_block := copy_at 0 (to_le_bytes 8 bit_len) (replicate bb 0) in
  encrypt_block cipher (combine bb length_block (gf_to_le_bytes acc)).

Definition mac_with_cipher (cipher : K) (message : list Z) : result (list Z) GmacError :=
  if Nat.eqb (length message) 0 then Err EmptyMessage
  else
    match checked_bit_len (length message) with
    | Some bit_len => Ok (mac_with_bit_len cipher message bit_len)
    | None => Err InvalidLength
    end.

Definition mac (key message : list Z) : option (result (list Z) GmacError) :=
  cipher ← expanded_new K key; Some (mac_with_cipher cipher message).

Definition verify_with_cipher (cipher : K) (message tag : list Z) : result unit GmacError :=
  if negb (Nat.leb 8 (length tag) && Nat.leb (length tag) bb) then Err InvalidLength
  else
    result_bind (mac_with_cipher cipher message) (λ expected,
      if ct_eq_slice (take (length tag) expected) tag then Ok tt else Err TagMismatch).

Definition verify (key message tag : list Z) : option (result unit GmacError) :=
  cipher ← expanded_new K key; Some (verify_with_cipher cipher message tag).
End gmac.

Section lemmas.
Context {K : Type} `{BlockCipherLaws K} `{!FieldOf K} `{Cpu}.
Local Abbreviation bb := (block_bytes K).
Local Abbreviation g := (gf_of K).

(** The specification: the encryption of the length block under the GHASH of the padded message. *)
Definition gmac_spec (cipher : K) (message : list Z) : list Z :=
  let h_key := gf_from_le_bytes g (encrypt_block cipher (replicate bb 0)) in
  let acc := ghash h_key (chunks_exact bb (pad80 bb message)) (ZERO g) in
  encrypt_block cipher (xor_into (to_le_bytes bb (8 * length message)) (gf_to_le_bytes acc)).

(** The block read at a multiple of the block size is the block of the padded message. *)
Lemma block_at_pad message off :
  (off mod bb = 0)%nat → (off < length (pad80 bb message))%nat →
  block_at (K := K) message (length message mod bb) off = take bb (drop off (pad80 bb message)).
Proof.
  intros Ho Hlt. pose proof (block_bytes_pos (K := K)) as Hn. unfold block_at.
  assert (off + bb ≤ length message ∨ length message < off + bb)%nat as [Hle|Hgt] by lia.
  - rewrite (proj2 (Nat.ltb_ge (length message) (off + bb))), andb_false_r by lia.
    rewrite (proj2 (Nat.ltb_lt off _)) by lia. replace (Nat.min (off + bb) (length message)) with (off + bb)%nat by lia.
    unfold slice. replace (off + bb - off)%nat with bb by lia. unfold copy_at. cbn [take app].
    rewrite length_take, length_drop, (drop_ge (replicate bb 0)), app_nil_r by (rewrite length_replicate; lia).
    unfold pad80. case_decide; [done|]. rewrite drop_app_le, take_app_le by (rewrite ?length_drop; lia). done.
  - unfold pad80 in *. case_decide as Ha.
    { pose proof (aligned_step bb off _ Ho Ha Hlt). lia. }
    pose proof (Nat.mod_upper_bound (length message) bb ltac:(lia)). pose proof (Nat.div_mod_eq (length message) bb).
    rewrite length_app in Hlt. cbn [length] in Hlt. rewrite length_replicate in Hlt.
    assert (off = bb * (length message / bb))%nat as Hoff2.
    { assert (bb * (length message / bb) mod bb = 0)%nat as Hq by (rewrite Nat.mul_comm; apply Nat.Div0.mod_mul).
      destruct (Nat.lt_trichotomy off (bb * (length message / bb))) as [Hc|[Hc|Hc]]; [|done|].
      - pose proof (aligned_step bb _ _ Ho Hq Hc). lia.
      - pose proof (aligned_step bb _ _ Hq Ho Hc). lia. }
    assert (length message mod bb = length message - off)%nat as Hr by lia. rewrite Hr.
    rewrite (proj2 (Nat.eqb_neq _ 0)), (proj2 (Nat.leb_le off _)), (proj2 (Nat.ltb_lt (length message) _)) by lia.
    cbn [negb andb]. rewrite (proj2 (Nat.ltb_lt off _)) by lia.
    replace (Nat.min (off + bb) (length message)) with (length message) by lia.
    unfold slice. rewrite (take_ge (drop off message)) by (rewrite length_drop; lia).
    rewrite copy_at_0 by (rewrite length_drop, length_replicate; lia). rewrite length_drop.
    rewrite insert_app_r_alt, length_drop, Nat.sub_diag, drop_replicate by (rewrite length_drop; lia).
    rewrite (replicate_pos 0 (bb - _)) by lia. cbn [insert list_insert].
    rewrite drop_app_le by lia. rewrite take_ge; [done|].
    rewrite length_app, length_drop. cbn [length]. rewrite length_replicate. lia.
Qed.

Lemma mac_loop_spec fuel h message off acc :
  (off mod bb = 0)%nat → (length (pad80 bb message) ≤ off + fuel)%nat →
  mac_loop fuel h message (length message mod bb) (length (pad80 bb message)) off acc =
  ghash h (chunks_exact bb (drop off (pad80 bb message))) acc.
Proof.
  pose proof (block_bytes_pos (K := K)) as Hn. pose proof (pad80_aligned bb message Hn) as Hp.
  revert off acc. induction fuel as [|fuel IH]; intros off acc Ho Hf; cbn [mac_loop].
  { rewrite drop_ge, chunks_exact_nil by lia. done. }
  destruct (Nat.ltb_spec off (length (pad80 bb message))) as [Hlt|Hge].
  2: { rewrite drop_ge, chunks_exact_nil by lia. done. }
  rewrite IH; [|by rewrite Nat.Div0.add_mod, Ho, Nat.Div0.mod_same, Nat.Div0.mod_0_l|lia].
  rewrite block_at_pad by done.
  pose proof (aligned_step bb off _ Ho Hp Hlt).
  destruct (chunks_exact_cons bb (drop off (pad80 bb message))) as [-> _]; [done|rewrite length_drop; lia|].
  by rewrite drop_drop.
Qed.

Lemma mac_spec cipher message :
  key_ok cipher → bytes_ok message →
  mac_with_cipher cipher message =
    if decide (message = []) then Err EmptyMessage
    else if decide (8 * length message < 2 ^ 64) then Ok (gmac_spec cipher message) else Err InvalidLength.
Proof.
  intros Hk Hm. pose proof (block_bytes_pos (K := K)) as Hn. unfold mac_with_cipher, checked_bit_len.
  case_decide as He; [by subst|]. destruct (Nat.eqb_spec (length message) 0) as [Hz|Hz]; [by apply nil_length_inv in Hz|].
  case_decide as Hlen.
  2: { destruct (Z.ltb_spec (length message) (2 ^ 64)); [|done]. destruct (Z.ltb_spec (length message * 8) (2 ^ 64)); [lia|done]. }
  rewrite (proj2 (Z.ltb_lt (length message) _)), (proj2 (Z.ltb_lt (length message * 8) _)) by lia.
  f_equal. unfold mac_with_bit_len, gmac_spec. f_equal.
  assert ((if (length message mod bb =? 0)%nat then length message else (length message + (bb - length message mod bb))%nat) =
    length (pad80 bb message)) as ->.
  { unfold pad80. pose proof (Nat.mod_upper_bound (length message) bb ltac:(lia)).
    destruct (Nat.eqb_spec (length message mod bb) 0); [by rewrite decide_True|]. rewrite decide_False by done.
    rewrite length_app. cbn [length]. rewrite length_replicate. lia. }
  rewrite mac_loop_spec by (by rewrite ?Nat.Div0.mod_0_l; lia || lia). rewrite drop_0.
  assert (8 ≤ bb)%nat as H8 by (destruct (block_bytes_valid (K := K)) as [E | [E | E]]; lia).
  assert (copy_at 0 (to_le_bytes 8 (length message * 8)) (replicate bb 0) = to_le_bytes bb (8 * length message)) as ->.
  { rewrite copy_at_0 by (rewrite length_to_le_bytes, length_replicate; lia).
    rewrite length_to_le_bytes, drop_replicate, Z.mul_comm. symmetry. apply to_le_bytes_extend; [done|]. unfold word_ok. lia. }
  apply combine_xor; [apply length_to_le_bytes|].
  apply (array_ok_length bb), ghash_bytes; [by apply h_key_ok|apply zero_elem_ok|].
  apply chunks_exact_ok; [done|by apply pad80_bytes].
Qed.

Lemma gmac_spec_ok cipher message :
  key_ok cipher → bytes_ok message → array_ok bb (gmac_spec cipher message).
Proof.
  intros Hk Hm. apply encrypt_block_ok; [done|]. apply array_ok_xor_into; [apply to_le_bytes_ok|].
  apply (ghash_bytes (K := K)); [by apply h_key_ok|apply zero_elem_ok|].
  apply chunks_exact_ok; [apply block_bytes_pos|by apply pad80_bytes].
Qed.
End lemmas.

(** GMAC is the encryption of the true bit length XORed with Horner's rule over the padded message;
    an empty message, and one whose bit length does not fit 64 bits, are refused; the loop ends.  The
    blocks and the length that enter the tag determine the message.  Verification accepts a tag of 8
    bytes up to a block exactly when it is a prefix of the MAC. *)
Theorem gmac_correct {K} `{BlockCipherLaws K} `{!FieldOf K} `{Cpu} `{SubtleLaws} (key message tag : list Z) :
  array_ok (key_bytes K) key → bytes_ok message →
  ∃ cipher, expanded_new K key = Some cipher ∧
    (mac key message = Some (if decide (message = []) then Err EmptyMessage
      else if decide (8 * length message < 2 ^ 64) then Ok (gmac_spec cipher message) else Err InvalidLength)) ∧
    (∀ other, pad80 (block_bytes K) other = pad80 (block_bytes K) message →
      8 * length other = 8 * length message → other = message) ∧
    (message ≠ [] → 8 * length message < 2 ^ 64 →
      verify key message tag = Some (
        if decide (8 ≤ length tag ≤ block_bytes K)%nat then
          if decide (tag = take (length tag) (gmac_spec cipher message)) then Ok tt else Err TagMismatch
        else Err InvalidLength)).
Proof.
  intros Hkey Hm. destruct (expanded_new_ok key Hkey) as (cipher & He & Hk). exists cipher.
  split; [done|]. unfold mac, verify. rewrite He. cbn [mbind option_bind]. rewrite mac_spec by done.
  split; [done|]. split.
  - intros other Hp Hl. apply (pad80_inj (block_bytes K)); [apply block_bytes_pos| |done].
    by assert (length other = length message) as -> by lia.
  - intros Hne Hlen. f_equal. unfold verify_with_cipher. case_decide as Ht.
    + rewrite (proj2 (Nat.leb_le 8 _)), (proj2 (Nat.leb_le _ (block_bytes K))) by lia. cbn [negb andb].
      rewrite mac_spec, decide_False, decide_True by done. cbn [result_bind]. rewrite ct_eq_slice_spec.
      case_bool_decide as E; [by rewrite decide_True|]. rewrite decide_False; [done|]. intros E2. by apply E.
    + destruct (Nat.leb_spec 8 (length tag)), (Nat.leb_spec (length tag) (block_bytes K)); (done || lia).
Qed.

Lemma gmac_correct_witness :
  let _ := plain_subtle in let _ := {| feature_available := false |} in
  ∃ cipher : ExpandedKey Kalyna128_128, expanded_new (ExpandedKey Kalyna128_128) (seqZ 0 16) = Some cipher ∧
    (mac (K := ExpandedKey Kalyna128_128) (seqZ 0 16) (seqZ 1 20) = Some (Ok (gmac_spec cipher (seqZ 1 20)))) ∧
    (∀ other, pad80 16 other = pad80 16 (seqZ 1 20) → 8 * length other = 8 * 20 → other = seqZ 1 20) ∧
    (seqZ 1 20 ≠ [] → 8 * 20 < 2 ^ 64 →
      verify (K := ExpandedKey Kalyna128_128) (seqZ 0 16) (seqZ 1 20) (seqZ 0 8) = Some (
        if decide (seqZ 0 8 = take 8 (gmac_spec cipher (seqZ 1 20))) then Ok tt else Err TagMismatch)).
Proof.
  refine (@gmac_correct (ExpandedKey Kalyna128_128) _ _ _ {| feature_available := false |} plain_subtle
    plain_subtle_laws (seqZ 0 16) (seqZ 1 20) (seqZ 0 8) _ _); by_decision.
Defined.
