(* ===== verification/Gcm.v ===== *)
(** GCM over any block cipher of the interface and its field ([hazmat/kalyna_gcm.rs]). *)

From S2P Require Import Prelude External BlockCipher Stream Poly2 Gf2mWide Kalyna Ghash.

Inductive GcmError : Type := EmptyInput | InvalidLength | TagMismatch.

Section gcm.
Context {K : Type} `{BlockCipher K} `{!FieldOf K} `{Cpu} `{Subtle}.
Local Abbreviation bb := (block_bytes K).
Local Abbreviation half_bytes := (block_bytes K / 2)%nat.
Local Abbreviation g := (gf_of K).

Definition new (key : list Z) : option K := expanded_new K key.

(** The low 64 bits of the counter block, incremented. *)
Definition bump (gamma_old : list Z) : list Z :=
  let low := from_le_bytes (take 8 gamma_old) in
  let low := wrapping_add 64 low 1 in
  copy_at 0 (to_le_bytes 8 low) gamma_old.

(** [while off < data.len()]; returns the bytes written to [out]. *)
Fixpoint keystream_loop (fuel : nat) (key : K) (gamma_old data : list Z) : list Z :=
  match fuel with
  | O => []
  | S fuel =>
      if Nat.ltb 0 (length data) then
        let gamma_old := bump gamma_old in
        let gamma := encrypt_block key gamma_old in
        let n := Nat.min bb (length data) in
        xor_into (take n data) gamma ++ keystream_loop fuel key gamma_old (drop n data)
      else []
  end.

Definition apply_keystream (key : K) (iv data out : list Z) : list Z :=
  copy_at 0 (keystream_loop (length data) key (encrypt_block key iv) data) out.

Definition absorb_padded (acc h_key data : list Z) : list Z :=
  let acc := foldl (horner_step h_key) acc (chunks_exact bb data) in
  let tail := remainder bb data in
  if negb (Nat.eqb (length tail) 0) then
    let block := copy_at 0 tail (replicate bb 0) in
    let block := <[length tail := 0x80]> block in
    horner_step h_key acc block
  else acc.

Definition compute_tag (key : K) (aad ciphertext : list Z) (aad_len_bits ct_len_bits : Z) : list Z :=
  let h_key := gf_from_le_bytes g (encrypt_block key (replicate bb 0)) in
  let acc := absorb_padded (ZERO g) h_key aad in
  let acc := absorb_padded acc h_key ciphertext in
  let length_block := copy_at 0 (to_le_bytes 8 aad_len_bits) (replicate bb 0) in
  let length_block := copy_at half_bytes (to_le_bytes 8 ct_len_bits) length_block in
  encrypt_block key (combine bb length_block (gf_to_le_bytes acc)).

(** Returns [ciphertext_out] and the result. *)
Definition encrypt (key : K) (iv aad plaintext ciphertext_out : list Z) : list Z * result (list Z) GcmError :=
  if negb (Nat.eqb (length ciphertext_out) (length plaintext)) then (ciphertext_out, Err InvalidLength)
  else if Nat.eqb (length aad) 0 && Nat.eqb (length plaintext) 0 then (ciphertext_out, Err EmptyInput)
  else
    match checked_bit_len (length aad), checked_bit_len (length plaintext) with
    | Some aad_bits, Some ct_bits =>
        let ciphertext_out := apply_keystream key iv plaintext ciphertext_out in
        (ciphertext_out, Ok (compute_tag key aad ciphertext_out aad_bits ct_bits))
    | _, _ => (ciphertext_out, Err InvalidLength)
    end.

(** Returns [plaintext_out] and the result. *)
Definition decrypt (key : K) (iv aad ciphertext tag plaintext_out : list Z) : list Z * result unit GcmError :=
  if negb (Nat.leb 8 (length tag) && Nat.leb (length tag) bb)
     || negb (Nat.eqb (length plaintext_out) (length ciphertext)) then (plaintext_out, Err InvalidLength)
  else if Nat.eqb (length aad) 0 && Nat.eqb (length ciphertext) 0 then (plaintext_out, Err EmptyInput)
  else
    match checked_bit_len (length aad), checked_bit_len (length ciphertext) with
    | Some aad_bits, Some ct_bits =>
        let expected := compute_tag key aad ciphertext aad_bits ct_bits in
        if negb (ct_eq_slice (take (length tag) expected) tag) then
          (replicate (length plaintext_out) 0, Err TagMismatch)
        else (apply_keystream key iv ciphertext plaintext_out, Ok tt)
    | _, _ => (plaintext_out, Err InvalidLength)
    end.
End gcm.

Section lemmas.
Context {K : Type} `{BlockCipherLaws K} `{!FieldOf K} `{Cpu}.
Local Abbreviation bb := (block_bytes K).
Local Abbreviation g := (gf_of K).

(** The counter block after [i] steps: [i] added to the low 64 bits. *)
Definition counter_block (start : list Z) (i : nat) : list Z :=
  to_le_bytes 8 (from_le_bytes (take 8 start) + i) ++ drop 8 start.

Definition gcm_keystream (key : K) (iv : list Z) (p : nat) : Z :=
  (encrypt_block key (counter_block (encrypt_block key iv) (p / bb + 1))).[p mod bb].

Definition gcm_tag (key : K) (aad ciphertext : list Z) : list Z :=
  let h_key := gf_from_le_bytes g (encrypt_block key (replicate bb 0)) in
  let blocks := chunks_exact bb (pad80 bb aad) ++ chunks_exact bb (pad80 bb ciphertext) in
  let lengths := to_le_bytes (bb / 2) (8 * length aad) ++ to_le_bytes (bb / 2) (8 * length ciphertext) in
  encrypt_block key (xor_into lengths (gf_to_le_bytes (ghash h_key blocks (ZERO g)))).

Lemma block_half : (8 ≤ bb / 2)%nat ∧ (bb / 2 + bb / 2 = bb)%nat.
Proof. destruct (block_bytes_valid (K := K)) as [-> | [-> | ->]]; simpl; lia. Qed.

Lemma block_ge_8 : (8 ≤ bb)%nat.
Proof. pose proof block_half. lia. Qed.

Lemma counter_block_ok start i : array_ok bb start → array_ok bb (counter_block start i).
Proof.
  intros Hs. pose proof block_ge_8. unfold counter_block.
  assert (array_ok (8 + (bb - 8)) (to_le_bytes 8 (from_le_bytes (take 8 start) + i) ++ drop 8 start)) as Ha
    by (apply array_ok_app; [apply to_le_bytes_ok|by apply array_ok_drop]).
  by rewrite Nat.add_comm, Nat.sub_add in Ha.
Qed.

Lemma bump_counter start i : array_ok bb start → bump (counter_block start i) = counter_block start (S i).
Proof.
  intros Hs. unfold bump, counter_block at 1. rewrite take_app_length' by (by rewrite length_to_le_bytes).
  rewrite copy_at_0 by (unfold counter_block; rewrite length_app, !length_to_le_bytes; lia).
  unfold counter_block. rewrite length_to_le_bytes, drop_app_length' by (by rewrite length_to_le_bytes).
  f_equal. rewrite from_to_le_bytes. unfold wrapping_add. rewrite wrap_mod by lia.
  change (8 * 8%nat) with 64. change (2 ^ 64) with (2 ^ (8 * 8%nat)). rewrite to_le_bytes_mod.
  rewrite <- to_le_bytes_mod, Zplus_mod_idemp_l, to_le_bytes_mod. f_equal. lia.
Qed.

Lemma counter_block_0 start : array_ok bb start → counter_block start 0 = start.
Proof.
  intros [Hl Hs]. pose proof block_ge_8. unfold counter_block. rewrite Z.add_0_r. rewrite <- (take_drop 8 start) at 3. f_equal.
  assert (length (take 8 start) = 8%nat) as Ht by (rewrite length_take; lia).
  rewrite <- Ht at 1. apply to_from_le_bytes. by apply Forall_take.
Qed.

Lemma keystream_spec fuel key iv j data :
  key_ok key → array_ok bb iv → (length data ≤ fuel)%nat →
  keystream_loop fuel key (counter_block (encrypt_block key iv) j) data =
  xor_keystream (gcm_keystream key iv) (j * bb) data.
Proof.
  intros Hk Hiv. pose proof (block_bytes_pos (K := K)) as Hn.
  assert (array_ok bb (encrypt_block key iv)) as Hs by by apply encrypt_block_ok.
  revert j data. induction fuel as [|fuel IH]; intros j data Hf; cbn [keystream_loop].
  { destruct data; [done|simpl in Hf; lia]. }
  destruct (Nat.ltb_spec 0 (length data)) as [Hlt|Hge]; [|destruct data; [done|simpl in Hge; lia]].
  rewrite bump_counter by done. set (n := Nat.min bb (length data)).
  assert (length (take n data) = n) as Hl by (rewrite length_take; lia).
  rewrite <- (take_drop n data) at 3. rewrite xor_keystream_app, Hl.
  assert (array_ok bb (encrypt_block key (counter_block (encrypt_block key iv) (S j)))) as [He _]
    by (apply encrypt_block_ok; [done|by apply counter_block_ok]).
  rewrite (xor_into_keystream (gcm_keystream key iv) (j * bb)).
  - f_equal. rewrite IH by (rewrite length_drop; lia).
    destruct (decide (bb ≤ length data)%nat).
    + assert (n = bb) as -> by lia. f_equal. simpl. lia.
    + rewrite drop_ge by lia. done.
  - rewrite Hl, He. lia.
  - intros i Hi. unfold gcm_keystream. rewrite Nat.add_comm, Nat.div_add, Nat.Div0.mod_add, Nat.div_small, Nat.mod_small by lia.
    do 3 f_equal. lia.
Qed.

Lemma apply_keystream_spec key iv data out :
  key_ok key → array_ok bb iv → length out = length data →
  apply_keystream key iv data out = xor_keystream (gcm_keystream key iv) 0 data.
Proof.
  intros Hk Hiv Hl. unfold apply_keystream.
  rewrite <- (counter_block_0 (encrypt_block key iv)) by (by apply encrypt_block_ok).
  rewrite keystream_spec by done. rewrite copy_at_0 by (rewrite length_xor_keystream; lia).
  by rewrite length_xor_keystream, drop_ge, app_nil_r by lia.
Qed.

Lemma absorb_padded_spec acc h data :
  absorb_padded acc h data = ghash h (chunks_exact bb (pad80 bb data)) acc.
Proof.
  pose proof (block_bytes_pos (K := K)) as Hn. unfold absorb_padded, ghash. rewrite chunks_pad80, foldl_app by done.
  destruct (remainder bb data) as [|b t] eqn:Hr; [done|]. rewrite <- Hr.
  assert (length (remainder bb data) ≠ 0%nat) as Hne by (by rewrite Hr).
  rewrite decide_False by (by rewrite Hr). rewrite (proj2 (Nat.eqb_neq _ _)) by done. cbn [negb foldl].
  pose proof (length_remainder bb data). pose proof (Nat.mod_upper_bound (length data) bb ltac:(lia)).
  do 2 f_equal. rewrite copy_at_0 by (rewrite length_replicate; lia).
  rewrite insert_app_r_alt, Nat.sub_diag, drop_replicate by lia. by rewrite replicate_pos by lia.
Qed.

Lemma compute_tag_spec key aad ct :
  key_ok key → bytes_ok aad → bytes_ok ct → 8 * length aad < 2 ^ 64 → 8 * length ct < 2 ^ 64 →
  compute_tag key aad ct (8 * length aad) (8 * length ct) = gcm_tag key aad ct.
Proof.
  intros Hk Haad Hct Ha Hc. unfold compute_tag, gcm_tag. rewrite !absorb_padded_spec.
  rewrite <- ghash_app.
  destruct block_half as [H8 Hh]. pose proof block_ge_8. f_equal.
  assert (copy_at (bb / 2) (to_le_bytes 8 (8 * length ct)) (copy_at 0 (to_le_bytes 8 (8 * length aad)) (replicate bb 0)) =
    to_le_bytes (bb / 2) (8 * length aad) ++ to_le_bytes (bb / 2) (8 * length ct)) as ->.
  { rewrite copy_at_0 by (rewrite length_to_le_bytes, length_replicate; lia).
    rewrite length_to_le_bytes, drop_replicate. unfold copy_at. rewrite length_to_le_bytes.
    rewrite (to_le_bytes_extend 8 (bb / 2) (8 * length aad)), (to_le_bytes_extend 8 (bb / 2) (8 * length ct)) by (done || unfold word_ok; lia).
    rewrite take_app_ge, drop_app_ge, length_to_le_bytes, take_replicate, drop_replicate by (rewrite length_to_le_bytes; lia).
    replace (Nat.min (bb / 2 - 8) (bb - 8)) with (bb / 2 - 8)%nat by lia.
    by replace (bb - 8 - (bb / 2 + 8 - 8))%nat with (bb / 2 - 8)%nat by lia. }
  apply combine_xor; [rewrite length_app, !length_to_le_bytes; lia|].
  apply (array_ok_length bb), ghash_bytes; [by apply h_key_ok|apply zero_elem_ok|].
  apply Forall_app. split; (apply chunks_exact_ok; [apply block_bytes_pos|by apply pad80_bytes]).
Qed.

Lemma gcm_tag_ok key aad ct : key_ok key → bytes_ok aad → bytes_ok ct → array_ok bb (gcm_tag key aad ct).
Proof.
  intros Hk Ha Hc. apply encrypt_block_ok; [done|]. apply array_ok_xor_into.
  - assert (array_ok (bb / 2 + bb / 2) (to_le_bytes (bb / 2) (8 * length aad) ++ to_le_bytes (bb / 2) (8 * length ct))) as Hl
      by (apply array_ok_app; apply to_le_bytes_ok).
    by rewrite (proj2 block_half) in Hl.
  - apply (ghash_bytes (K := K)); [by apply h_key_ok|apply zero_elem_ok|]. apply Forall_app.
    split; (apply chunks_exact_ok; [apply block_bytes_pos|by apply pad80_bytes]).
Qed.

(** The inputs that both directions take. *)
Definition input_error (aad data out : list Z) : option GcmError :=
  if decide (length out ≠ length data) then Some InvalidLength
  else if decide (aad = [] ∧ data = []) then Some EmptyInput
  else if decide (8 * length aad < 2 ^ 64 ∧ 8 * length data < 2 ^ 64) then None
  else Some InvalidLength.

Lemma both_empty (a b : list Z) : Nat.eqb (length a) 0 && Nat.eqb (length b) 0 = bool_decide (a = [] ∧ b = []).
Proof.
  apply Bool.eq_true_iff_eq. rewrite bool_decide_eq_true, andb_true_iff, !Nat.eqb_eq.
  split; [by intros [?%nil_length_inv ?%nil_length_inv]|by intros [-> ->]].
Qed.

Lemma encrypt_spec key iv aad pt out :
  key_ok key → array_ok bb iv → bytes_ok aad → bytes_ok pt →
  let ct := xor_keystream (gcm_keystream key iv) 0 pt in
  encrypt key iv aad pt out =
    match input_error aad pt out with
    | Some e => (out, Err e)
    | None => (ct, Ok (gcm_tag key aad ct))
    end.
Proof.
  intros Hk Hiv Haad Hpt. cbv zeta. unfold encrypt, input_error. rewrite both_empty.
  destruct (Nat.eqb_spec (length out) (length pt)) as [Hl|Hl]; cbn [negb]; [|by rewrite decide_True].
  rewrite decide_False by tauto. case_bool_decide as He; [by rewrite decide_True|]. rewrite decide_False by done.
  rewrite !checked_bit_len_spec. repeat (case_decide; try tauto).
  rewrite apply_keystream_spec by done. f_equal. f_equal.
  rewrite <- (length_xor_keystream (gcm_keystream key iv) 0 pt). apply compute_tag_spec; try done.
  - apply xor_keystream_ok; [done|]. intros p. apply nth_byte_ok.
    apply encrypt_block_ok; [done|]. by apply counter_block_ok, encrypt_block_ok.
  - by rewrite length_xor_keystream.
Qed.

Lemma decrypt_spec `{!Subtle} `{!SubtleLaws} key iv aad ct tag out :
  key_ok key → array_ok bb iv → bytes_ok aad → bytes_ok ct →
  decrypt key iv aad ct tag out =
    if decide (8 ≤ length tag ≤ bb)%nat then
      match input_error aad ct out with
      | Some e => (out, Err e)
      | None =>
          if decide (tag = take (length tag) (gcm_tag key aad ct))
          then (xor_keystream (gcm_keystream key iv) 0 ct, Ok tt)
          else (replicate (length out) 0, Err TagMismatch)
      end
    else (out, Err InvalidLength).
Proof.
  intros Hk Hiv Haad Hct. unfold decrypt, input_error. rewrite both_empty. case_decide as Ht.
  2: { destruct (Nat.leb_spec 8 (length tag)), (Nat.leb_spec (length tag) bb); try done; lia. }
  rewrite (proj2 (Nat.leb_le 8 _)), (proj2 (Nat.leb_le _ bb)) by lia. cbn [negb andb orb].
  destruct (Nat.eqb_spec (length out) (length ct)) as [Hl|Hl]; cbn [negb]; [|by rewrite decide_True].
  rewrite (decide_False (P := length out ≠ _)) by tauto.
  case_bool_decide as He; [by rewrite decide_True|]. rewrite (decide_False (P := _ ∧ _)) by done.
  rewrite !checked_bit_len_spec. destruct (decide (8 * length aad < 2 ^ 64)), (decide (8 * length ct < 2 ^ 64)).
  2-4: by rewrite decide_False by tauto.
  rewrite decide_True by done. rewrite compute_tag_spec, ct_eq_slice_spec by done.
  case_bool_decide as Hb; cbn [negb]; [rewrite decide_True by done|rewrite decide_False by (intros E; by apply Hb); done].
  by rewrite apply_keystream_spec.
Qed.
End lemmas.

(** C6. Encryption XORs the plaintext with the keystream [E(E(iv) + i)] (the counter in the low 64 bits)
    and returns [E(|O| ‖ |C| ⊕ GHASH(pad O ‖ pad C))]; it refuses unequal lengths, an empty input and
    lengths beyond 64 bits, leaving the output buffer as it was. *)
Theorem gcm_encrypt_correct {K} `{BlockCipherLaws K} `{!FieldOf K} `{Cpu} (key iv aad pt out : list Z) :
  array_ok (key_bytes K) key → array_ok (block_bytes K) iv → bytes_ok aad → bytes_ok pt →
  ∃ k, new key = Some k ∧
    encrypt k iv aad pt out =
      if decide (length out ≠ length pt) then (out, Err InvalidLength)
      else if decide (aad = [] ∧ pt = []) then (out, Err EmptyInput)
      else if decide (8 * length aad < 2 ^ 64 ∧ 8 * length pt < 2 ^ 64) then
        let ct := xor_keystream (λ p, (encrypt_block k (counter_block (encrypt_block k iv)
                    (p / block_bytes K + 1))).[p mod block_bytes K]) 0 pt in
        (ct, Ok (gcm_tag k aad ct))
      else (out, Err InvalidLength).
Proof.
  intros Hkey Hiv Haad Hpt. destruct (expanded_new_ok key Hkey) as (k & He & Hk). exists k. split; [done|].
  rewrite encrypt_spec by done. unfold input_error. by repeat case_decide.
Qed.

Lemma gcm_encrypt_correct_witness :
  let _ := {| feature_available := false |} in
  ∃ k : ExpandedKey Kalyna128_128, new (seqZ 0 16) = Some k ∧
    encrypt k (seqZ 1 16) [] (seqZ 0 20) (replicate 20 0) =
      let ct := xor_keystream (λ p, (encrypt_block k (counter_block (encrypt_block k (seqZ 1 16)) (p / 16 + 1))).[p mod 16])
        0 (seqZ 0 20) in
      (ct, Ok (gcm_tag k [] ct)).
Proof.
  refine (@gcm_encrypt_correct (ExpandedKey Kalyna128_128) _ _ _ {| feature_available := false |}
    (seqZ 0 16) (seqZ 1 16) [] (seqZ 0 20) (replicate 20 0) _ _ _ _); by_decision.
Defined.

(** C7. Decryption of what encryption produced, under the tag cut to any length from 8 bytes to a block,
    returns the plaintext.  On any input it refuses, in this order and with the output buffer as it was, a tag
    shorter than 8 bytes or longer than a block, unequal lengths, an empty input and lengths beyond 64 bits; of
    what is left it accepts a tag exactly when it is a prefix of the full tag of the associated data and the
    ciphertext - whatever the IV, which the tag does not cover - and otherwise zeroes the output. *)
Theorem gcm_decrypt_correct {K} `{BlockCipherLaws K} `{!FieldOf K} `{Cpu} `{SubtleLaws}
    (key iv aad data tag out : list Z) :
  array_ok (key_bytes K) key → array_ok (block_bytes K) iv → bytes_ok aad → bytes_ok data →
  ∃ k, new key = Some k ∧
    (∀ ct full, encrypt k iv aad data out = (ct, Ok full) → length full = block_bytes K ∧
      ∀ n out', (8 ≤ n ≤ block_bytes K)%nat → length out' = length data →
        decrypt k iv aad ct (take n full) out' = (data, Ok tt)) ∧
    decrypt k iv aad data tag out =
      if decide (¬ (8 ≤ length tag ≤ block_bytes K)%nat) then (out, Err InvalidLength)
      else if decide (length out ≠ length data) then (out, Err InvalidLength)
      else if decide (aad = [] ∧ data = []) then (out, Err EmptyInput)
      else if decide (8 * length aad < 2 ^ 64 ∧ 8 * length data < 2 ^ 64) then
        if decide (tag = take (length tag) (gcm_tag k aad data)) then
          (xor_keystream (λ p, (encrypt_block k (counter_block (encrypt_block k iv)
             (p / block_bytes K + 1))).[p mod block_bytes K]) 0 data, Ok tt)
        else (replicate (length out) 0, Err TagMismatch)
      else (out, Err InvalidLength).
Proof.
  intros Hkey Hiv Haad Hd. destruct (expanded_new_ok key Hkey) as (k & He & Hk). exists k. split; [done|]. split.
  - intros ct full. rewrite encrypt_spec by done. destruct (input_error aad data out) eqn:Hi; [done|].
    set (ks := gcm_keystream k iv). intros [= <- <-].
    assert (bytes_ok (xor_keystream ks 0 data)) as Hct.
    { apply xor_keystream_ok; [done|]. intros p. apply nth_byte_ok, encrypt_block_ok; [done|].
      by apply counter_block_ok, encrypt_block_ok. }
    assert (array_ok (block_bytes K) (gcm_tag k aad (xor_keystream ks 0 data))) as [Hf _]
      by by apply gcm_tag_ok.
    split; [done|]. intros n out' Hn Hl. rewrite decrypt_spec by done.
    rewrite decide_True by (rewrite length_take; lia).
    assert (input_error aad (xor_keystream ks 0 data) out' = None) as ->.
    { revert Hi. unfold input_error. rewrite length_xor_keystream, Hl.
      destruct (decide (length out ≠ length data)); [done|]. rewrite (decide_False (P := _ ≠ _)) by tauto.
      intros Hi. rewrite (decide_False (P := aad = [] ∧ _)); [by destruct (decide (aad = [] ∧ data = []))|].
      intros [Ha Hx]. apply (f_equal length) in Hx. rewrite length_xor_keystream in Hx. apply nil_length_inv in Hx as ->.
      by rewrite decide_True in Hi. }
    rewrite decide_True by (rewrite length_take, Nat.min_l by lia; done). by rewrite xor_keystream_involutive.
  - rewrite decrypt_spec by done. destruct (decide (8 ≤ length tag ≤ block_bytes K)%nat).
    + rewrite (decide_False (P := ¬ (8 ≤ length tag ≤ block_bytes K)%nat)) by tauto. unfold input_error. by repeat case_decide.
    + by rewrite (decide_True (P := ¬ (8 ≤ length tag ≤ block_bytes K)%nat)).
Qed.

Lemma gcm_decrypt_correct_witness :
  let _ := plain_subtle in let _ := {| feature_available := true |} in
  ∃ k : ExpandedKey Kalyna512_512, new (seqZ 0 64) = Some k ∧
    (∀ ct full, encrypt k (seqZ 1 64) [7] (seqZ 0 20) (replicate 20 0) = (ct, Ok full) → length full = 64%nat ∧
      ∀ n out', (8 ≤ n ≤ 64)%nat → length out' = 20%nat → decrypt k (seqZ 1 64) [7] ct (take n full) out' = (seqZ 0 20, Ok tt)) ∧
    decrypt k (seqZ 1 64) [7] (seqZ 0 20) (seqZ 0 7) (replicate 20 0) = (replicate 20 0, Err InvalidLength).
Proof.
  refine (@gcm_decrypt_correct (ExpandedKey Kalyna512_512) _ _ _ {| feature_available := true |} plain_subtle
    plain_subtle_laws (seqZ 0 64) (seqZ 1 64) [7] (seqZ 0 20) (seqZ 0 7) (replicate 20 0) _ _ _ _); by_decision.
Defined.
