(* ===== verification/Kw.v ===== *)
(** The key wrap KW over any block cipher of the interface ([hazmat/kalyna_kw.rs]). *)

From S2P Require Import Prelude External BlockCipher Kalyna.

Inductive KwError : Type := InvalidLength | ChecksumMismatch.

Definition MAX_R : nat := 20.
Definition MAX_B_SLOTS : nat := 2 * MAX_R + 1.

Section kw.
Context {K : Type} `{BlockCipher K} `{Subtle}.
Local Abbreviation bb := (block_bytes K).
Local Abbreviation half_bytes := (block_bytes K / 2)%nat.

(** [for j in 0..(n - 2) { b[j] = b[j + 1]; }]. *)
Definition shift_down (n : nat) (b : list (list Z)) : list (list Z) :=
  foldl (λ b j, <[j := nth (j + 1) b []]> b) b (seq 0 (n - 2)).

(** [for j in (1..=(n - 2)).rev() { b[j] = b[j - 1]; }]. *)
Definition shift_up (n : nat) (b : list (list Z)) : list (list Z) :=
  foldl (λ b j, <[j := nth (j - 1) b []]> b) b (reverse (seq 1 (n - 2))).

(** [for k in 0..4 { x[at + k] ^= tweak[k]; }]. *)
Definition xor_tweak (pos : nat) (i : nat) (x : list Z) : list Z :=
  let tweak := to_le_bytes 4 (wrap 32 i) in
  foldl (λ x k, <[(pos + k)%nat := x.[pos + k] ⊕ tweak.[k]]> x) x (seq 0 4).

(** The body of [for i in 1..=v]. *)
Definition wrap_step (cipher : K) (n : nat) (s : list Z * list (list Z)) (i : nat) : list Z * list (list Z) :=
  let '(big_b, b) := s in
  let block := copy_at 0 big_b (replicate bb 0) in
  let block := copy_at half_bytes (nth 0 b []) block in
  let tweaked := encrypt_block cipher block in
  let tweaked := xor_tweak half_bytes i tweaked in
  let big_b := drop half_bytes tweaked in
  let b := shift_down n b in
  let b := <[(n - 2)%nat := take half_bytes tweaked]> b in
  (big_b, b).

(** The body of [for i in (1..=v).rev()]. *)
Definition unwrap_step (cipher : K) (n : nat) (s : list Z * list (list Z)) (i : nat) : list Z * list (list Z) :=
  let '(big_b, b) := s in
  let last := nth (n - 2) b [] in
  let block := copy_at 0 last (replicate bb 0) in
  let tweaked_b := xor_tweak 0 i big_b in
  let block := copy_at half_bytes tweaked_b block in
  let d := decrypt_block cipher block in
  let big_b := take half_bytes d in
  let b := shift_up n b in
  let b := <[0%nat := drop half_bytes d]> b in
  (big_b, b).

(** [b[idx].copy_from_slice(&data[off..off + half])] for [count] slots, [off] starting at [half]. *)
Definition load_slots (count : nat) (data : list Z) : list (list Z) :=
  foldl (λ b idx, <[idx := slice ((idx + 1) * half_bytes) ((idx + 1) * half_bytes + half_bytes) data]> b)
    (replicate MAX_B_SLOTS (replicate half_bytes 0)) (seq 0 count).

(** [out[..half] = big_b], then [count] slots. *)
Definition store_slots (count : nat) (big_b : list Z) (b : list (list Z)) (out : list Z) : list Z :=
  foldl (λ out j, copy_at ((j + 1) * half_bytes) (nth j b []) out) (copy_at 0 big_b out) (seq 0 count).

Definition wrap_with_cipher (cipher : K) (plaintext out : list Z) : list Z * result unit KwError :=
  if Nat.eqb (length plaintext) 0 || negb (Nat.eqb (length plaintext mod bb) 0)
     || Nat.ltb MAX_R (length plaintext / bb) || negb (Nat.eqb (length out) (length plaintext + bb))
  then (out, Err InvalidLength)
  else
    let r := (length plaintext / bb)%nat in
    let n := (2 * (r + 1))%nat in
    let v := ((n - 1) * 6)%nat in
    let big_b := take half_bytes plaintext in
    let b := load_slots (2 * r - 1) plaintext in
    let '(big_b, b) := foldl (wrap_step cipher n) (big_b, b) (seq 1 v) in
    (store_slots (n - 1) big_b b out, Ok tt).

Definition wrap_key (key plaintext out : list Z) : option (list Z * result unit KwError) :=
  cipher ← expanded_new K key; Some (wrap_with_cipher cipher plaintext out).

Definition unwrap_with_cipher (cipher : K) (ciphertext out : list Z) : list Z * result unit KwError :=
  if Nat.ltb (length ciphertext) (2 * bb) || negb (Nat.eqb (length ciphertext mod bb) 0)
     || Nat.ltb MAX_R (length ciphertext / bb - 1) || negb (Nat.eqb (length out) (length ciphertext - bb))
  then (out, Err InvalidLength)
  else
    let r := (length ciphertext / bb - 1)%nat in
    let n := (2 * (r + 1))%nat in
    let v := ((n - 1) * 6)%nat in
    let big_b := take half_bytes ciphertext in
    let b := load_slots (n - 1) ciphertext in
    let '(big_b, b) := foldl (unwrap_step cipher n) (big_b, b) (reverse (seq 1 v)) in
    let zero := replicate half_bytes 0 in
    let checksum_ok := ct_eq_slice (nth (n - 3) b []) zero && ct_eq_slice (nth (n - 2) b []) zero in
    if negb checksum_ok then (out, Err ChecksumMismatch)
    else (store_slots (n - 3) big_b b out, Ok tt).

Definition unwrap_key (key ciphertext out : list Z) : option (list Z * result unit KwError) :=
  cipher ← expanded_new K key; Some (unwrap_with_cipher cipher ciphertext out).
End kw.

(** ** The specification: a queue of half-blocks *)

Section spec.
Context {K : Type} `{BlockCipher K} (cipher : K).
Local Abbreviation half_bytes := (block_bytes K / 2)%nat.

Definition kw_round (l : list (list Z)) (i : nat) : list (list Z) :=
  match l with
  | big_b :: b0 :: q =>
      let t := xor_tweak half_bytes i (encrypt_block cipher (big_b ++ b0)) in
      drop half_bytes t :: q ++ [take half_bytes t]
  | _ => l
  end.

Definition kw_unround (l : list (list Z)) (i : nat) : list (list Z) :=
  match l with
  | big_b :: q =>
      let d := decrypt_block cipher (List.last q [] ++ xor_tweak 0 i big_b) in
      take half_bytes d :: drop half_bytes d :: removelast q
  | _ => l
  end.

Definition kw_rounds (n : nat) : nat := ((n - 1) * 6)%nat.
Definition kw_permute (l : list (list Z)) : list (list Z) := foldl kw_round l (seq 1 (kw_rounds (length l))).
Definition kw_unpermute (l : list (list Z)) : list (list Z) := foldl kw_unround l (reverse (seq 1 (kw_rounds (length l)))).
End spec.

(** ** The loops over the slots *)

Lemma shift_down_lookup m (b : list (list Z)) i :
  (m < length b)%nat →
  foldl (λ b j, <[j := nth (j + 1) b []]> b) b (seq 0 m) !! i = (if decide (i < m)%nat then b !! S i else b !! i) ∧
  length (foldl (λ b j, <[j := nth (j + 1) b []]> b) b (seq 0 m)) = length b.
Proof.
  revert i. induction m as [|m IH]; intros i Hm.
  { split; [|done]. by rewrite decide_False by lia. }
  rewrite seq_S, foldl_app. cbn [foldl]. rewrite Nat.add_0_l.
  set (c := foldl _ b (seq 0 m)) in *. destruct (IH (S m) ltac:(lia)) as [H1 H2]. rewrite decide_False in H1 by lia.
  split; [|by rewrite length_insert].
  destruct (decide (i = m)) as [->|Hne].
  - rewrite list_lookup_insert_eq by lia. rewrite decide_True by lia. rewrite nth_lookup, Nat.add_1_r, H1.
    by destruct (lookup_lt_is_Some_2 b (S m)) as [x ->]; [lia|].
  - rewrite list_lookup_insert_ne by done. rewrite (proj1 (IH i ltac:(lia))). repeat case_decide; (done || lia).
Qed.

Lemma shift_up_lookup m (b : list (list Z)) i :
  (m < length b)%nat →
  foldl (λ b j, <[j := nth (j - 1) b []]> b) b (reverse (seq 1 m)) !! i =
    (if decide (1 ≤ i ≤ m)%nat then b !! (i - 1)%nat else b !! i) ∧
  length (foldl (λ b j, <[j := nth (j - 1) b []]> b) b (reverse (seq 1 m))) = length b.
Proof.
  revert b. induction m as [|m IH]; intros b Hm.
  { split; [|done]. by rewrite decide_False by lia. }
  rewrite seq_S, reverse_snoc. cbn [foldl]. change (1 + m)%nat with (S m). replace (S m - 1)%nat with m by lia.
  destruct (IH (<[S m := nth m b []]> b)) as [H1 H2]; [rewrite length_insert; lia|]. rewrite length_insert in H2.
  split; [|done]. rewrite H1. destruct (decide (i = S m)) as [->|Hne].
  - rewrite decide_False, decide_True by lia. rewrite list_lookup_insert_eq by lia. rewrite nth_lookup.
    replace (S m - 1)%nat with m by lia. by destruct (lookup_lt_is_Some_2 b m) as [x ->]; [lia|].
  - repeat case_decide; try lia; by rewrite list_lookup_insert_ne by lia.
Qed.

Lemma xor_tweak_eq pos i x :
  (pos + 4 ≤ length x)%nat → xor_tweak pos i x = take pos x ++ xor_into (drop pos x) (to_le_bytes 4 (wrap 32 i)).
Proof.
  intros Hl. unfold xor_tweak. set (t := to_le_bytes 4 (wrap 32 i)).
  assert (length t = 4%nat) as Ht by apply length_to_le_bytes. clearbody t.
  rewrite <- (take_drop pos x) at 1. assert (length (take pos x) = pos) as Hp by (rewrite length_take; lia).
  assert (4 ≤ length (drop pos x))%nat as Hd by (rewrite length_drop; lia).
  generalize dependent (drop pos x). generalize dependent (take pos x). intros p Hp y Hy.
  apply length_4_inv in Ht as (t0 & t1 & t2 & t3 & ->).
  destruct y as [|y0 [|y1 [|y2 [|y3 y]]]]; simpl in Hy; try lia.
  assert (∀ k z (c : list Z), <[(pos + k)%nat := z]> (p ++ c) = p ++ <[k := z]> c) as Hi.
  { intros k z c. rewrite insert_app_r_alt by lia. do 2 f_equal. lia. }
  assert (∀ k (c : list Z), (p ++ c).[pos + k] = c.[k]) as Hn.
  { intros k c. rewrite app_nth2 by lia. f_equal. lia. }
  cbn [seq foldl]. repeat first [rewrite Hn | rewrite Hi | progress cbn [nth insert list_insert]].
  unfold xor_into. cbn [zip_mut]. by destruct y.
Qed.

Section lemmas.
Context {K : Type} `{BlockCipherLaws K} (cipher : K).
Hypothesis Hk : key_ok cipher.
Local Abbreviation bb := (block_bytes K).
Local Abbreviation half_bytes := (block_bytes K / 2)%nat.

Lemma half_spec : (8 ≤ half_bytes)%nat ∧ (half_bytes + half_bytes = bb)%nat.
Proof. destruct (block_bytes_valid (K := K)) as [-> | [-> | ->]]; simpl; lia. Qed.

Lemma blocks_halves m : (m * bb = m * 2 * half_bytes)%nat.
Proof. destruct half_spec as [_ Hh]. rewrite <- Hh at 1. lia. Qed.

Lemma halves_join a b : array_ok half_bytes a → array_ok half_bytes b → array_ok bb (a ++ b).
Proof. intros Ha Hb. pose proof (array_ok_app _ _ _ _ Ha Hb) as Hab. by rewrite (proj2 half_spec) in Hab. Qed.

Lemma halves_split x : array_ok bb x → array_ok half_bytes (take half_bytes x) ∧ array_ok half_bytes (drop half_bytes x).
Proof.
  intros Hx. destruct half_spec as [_ Hh]. split; [apply (array_ok_take _ bb); [done|lia]|].
  pose proof (array_ok_drop half_bytes _ _ Hx) as Hd. by replace (bb - half_bytes)%nat with half_bytes in Hd by lia.
Qed.

Lemma xor_tweak_ok n pos i x : (pos + 4 ≤ n)%nat → array_ok n x → array_ok n (xor_tweak pos i x).
Proof.
  intros Hp Hx. pose proof Hx as [Hl Hb]. rewrite xor_tweak_eq by lia. split.
  - rewrite length_app, length_xor_into, length_take, length_drop. lia.
  - apply Forall_app. split; [by apply Forall_take|].
    apply (array_ok_xor_into (n - pos) (drop pos x)); [by apply array_ok_drop|apply to_le_bytes_ok].
Qed.

(** The tweak on the upper half is undone on the half alone. *)
Lemma untweak i x :
  array_ok bb x →
  take half_bytes (xor_tweak half_bytes i x) = take half_bytes x ∧
  xor_tweak 0 i (drop half_bytes (xor_tweak half_bytes i x)) = drop half_bytes x.
Proof.
  intros [Hl Hb]. destruct half_spec as [H8 Hh]. rewrite xor_tweak_eq by lia.
  assert (length (take half_bytes x) = half_bytes) as Ht by (rewrite length_take; lia).
  rewrite take_app_length', drop_app_length' by done. split; [done|].
  rewrite xor_tweak_eq by (rewrite length_xor_into, length_drop; lia). rewrite drop_0. simpl. apply xor_into_cancel.
Qed.

Lemma tweak_join i x y :
  array_ok half_bytes x → array_ok half_bytes y → xor_tweak half_bytes i (x ++ xor_tweak 0 i y) = x ++ y.
Proof.
  intros [Hx _] [Hy _]. destruct half_spec as [H8 Hh].
  assert (length (xor_tweak 0 i y) = half_bytes) as Hl.
  { rewrite xor_tweak_eq by lia. rewrite drop_0. simpl. by rewrite length_xor_into. }
  rewrite xor_tweak_eq by (rewrite length_app; lia). rewrite take_app_length', drop_app_length' by done.
  rewrite xor_tweak_eq by lia. rewrite drop_0. simpl. by rewrite xor_into_cancel.
Qed.

Definition halves_ok (n : nat) (l : list (list Z)) : Prop := length l = n ∧ Forall (array_ok half_bytes) l.

Lemma kw_round_ok n l i : (2 ≤ n)%nat → halves_ok n l → halves_ok n (kw_round cipher l i).
Proof using Hk H0.
  intros Hn [Hl Hf]. destruct l as [|B [|b0 q]]; simpl in Hl; try lia. destruct half_spec as [H8 Hh].
  apply Forall_cons in Hf as [HB Hf]. apply Forall_cons in Hf as [Hb Hq].
  assert (array_ok bb (xor_tweak half_bytes i (encrypt_block cipher (B ++ b0)))) as Ht.
  { apply xor_tweak_ok; [lia|]. apply encrypt_block_ok; [done|]. by apply halves_join. }
  destruct (halves_split _ Ht) as [H1 H2]. unfold kw_round. split; [simpl; rewrite length_app; simpl; lia|].
  constructor; [done|]. apply Forall_app. split; [done|]. by constructor.
Qed.

Lemma last_elem (l : list (list Z)) : l ≠ [] → ∃ q x, l = q ++ [x].
Proof. intros Hl. destruct (exists_last Hl) as (q & x & ->). eauto. Qed.

Lemma kw_unround_ok n l i : (2 ≤ n)%nat → halves_ok n l → halves_ok n (kw_unround cipher l i).
Proof using Hk H0.
  intros Hn [Hl Hf]. destruct l as [|B q]; simpl in Hl; [lia|]. destruct half_spec as [H8 Hh].
  apply Forall_cons in Hf as [HB Hf]. destruct (last_elem q) as (q' & x & ->); [intros ->; simpl in Hl; lia|].
  apply Forall_app in Hf as [Hq Hx]. apply Forall_cons in Hx as [Hx _].
  unfold kw_unround. rewrite last_last, removelast_last.
  destruct (halves_split (decrypt_block cipher (x ++ xor_tweak 0 i B))) as [H1 H2].
  { apply decrypt_block_ok; [done|]. apply halves_join; [done|]. apply xor_tweak_ok; [lia|done]. }
  split; [rewrite length_app in Hl; simpl in *; lia|]. constructor; [done|]. by constructor.
Qed.

Lemma kw_unround_round n l i : (2 ≤ n)%nat → halves_ok n l → kw_unround cipher (kw_round cipher l i) i = l.
Proof using Hk H0.
  intros Hn [Hl Hf]. destruct l as [|B [|b0 q]]; simpl in Hl; try lia.
  apply Forall_cons in Hf as [HB Hf]. apply Forall_cons in Hf as [Hb Hq].
  pose proof (halves_join B b0 HB Hb) as Hj. unfold kw_round, kw_unround. rewrite last_last, removelast_last.
  destruct (untweak i (encrypt_block cipher (B ++ b0))) as [-> ->]; [by apply encrypt_block_ok|].
  rewrite take_drop, decrypt_encrypt_block by done. destruct HB as [HB _].
  by rewrite take_app_length', drop_app_length' by done.
Qed.

Lemma kw_round_unround n l i : (2 ≤ n)%nat → halves_ok n l → kw_round cipher (kw_unround cipher l i) i = l.
Proof using Hk H0.
  intros Hn [Hl Hf]. destruct l as [|B q]; simpl in Hl; [lia|]. destruct half_spec as [H8 Hh].
  apply Forall_cons in Hf as [HB Hf]. destruct (last_elem q) as (q' & x & ->); [intros ->; simpl in Hl; lia|].
  apply Forall_app in Hf as [Hq Hx]. apply Forall_cons in Hx as [Hx _].
  unfold kw_unround, kw_round. rewrite last_last, removelast_last, take_drop.
  assert (array_ok bb (x ++ xor_tweak 0 i B)) as Hj by (apply halves_join; [done|]; apply xor_tweak_ok; [lia|done]).
  rewrite encrypt_decrypt_block, tweak_join by done. destruct Hx as [Hx _].
  by rewrite take_app_length', drop_app_length' by done.
Qed.

Lemma rounds_ok n l ix : (2 ≤ n)%nat → halves_ok n l → halves_ok n (foldl (kw_round cipher) l ix).
Proof using Hk H0. intros Hn. revert l. induction ix as [|i ix IH]; intros l Hl; simpl; [done|]. by apply IH, kw_round_ok. Qed.

Lemma unrounds_ok n l ix : (2 ≤ n)%nat → halves_ok n l → halves_ok n (foldl (kw_unround cipher) l ix).
Proof using Hk H0. intros Hn. revert l. induction ix as [|i ix IH]; intros l Hl; simpl; [done|]. by apply IH, kw_unround_ok. Qed.

Lemma unrounds_rounds n l ix :
  (2 ≤ n)%nat → halves_ok n l → foldl (kw_unround cipher) (foldl (kw_round cipher) l ix) (reverse ix) = l.
Proof using Hk H0.
  intros Hn. revert l. induction ix as [|i ix IH]; intros l Hl; [done|].
  rewrite reverse_cons, foldl_app. cbn [foldl]. rewrite IH by (by apply kw_round_ok). by apply (kw_unround_round n).
Qed.

Lemma rounds_unrounds n l ix :
  (2 ≤ n)%nat → halves_ok n l → foldl (kw_round cipher) (foldl (kw_unround cipher) l (reverse ix)) ix = l.
Proof using Hk H0.
  intros Hn. revert l. induction ix as [|i ix IH] using rev_ind; intros l Hl; [done|].
  rewrite reverse_snoc, foldl_app. cbn [foldl]. rewrite IH by (by apply kw_unround_ok). by apply (kw_round_unround n).
Qed.

(** [kw_permute] and [kw_unpermute] are inverse permutations of the lists of half-blocks. *)
Lemma kw_permute_inverse n l :
  (2 ≤ n)%nat → halves_ok n l →
  halves_ok n (kw_permute cipher l) ∧ kw_unpermute cipher (kw_permute cipher l) = l ∧
  halves_ok n (kw_unpermute cipher l) ∧ kw_permute cipher (kw_unpermute cipher l) = l.
Proof using Hk H0.
  intros Hn Hl. pose proof (rounds_ok n l (seq 1 (kw_rounds (length l))) Hn Hl) as H1.
  pose proof (unrounds_ok n l (reverse (seq 1 (kw_rounds (length l)))) Hn Hl) as H2.
  unfold kw_permute, kw_unpermute. destruct H1 as [H1 H1'], H2 as [H2 H2'], Hl as [Hl Hl'].
  rewrite H1, H2, Hl in *. split; [done|]. split; [by apply (unrounds_rounds n)|]. split; [done|].
  by apply (rounds_unrounds n).
Qed.

(** ** The slots refine the queue *)

(** [big_b] and the first [n - 1] slots are the queue. *)
Definition slots (n : nat) (s : list Z * list (list Z)) (l : list (list Z)) : Prop :=
  s.1 :: take (n - 1) s.2 = l ∧ length s.2 = MAX_B_SLOTS.

Lemma copy_halves a b :
  array_ok half_bytes a → array_ok half_bytes b → copy_at half_bytes b (copy_at 0 a (replicate bb 0)) = a ++ b.
Proof using H0.
  intros [Ha _] [Hb _]. destruct half_spec as [H8 Hh]. rewrite copy_at_0 by (rewrite length_replicate; lia).
  unfold copy_at. rewrite take_app_length' by done.
  rewrite drop_ge by (rewrite length_app, length_drop, length_replicate; lia). by rewrite app_nil_r.
Qed.

Lemma nth_take_slots (b q : list (list Z)) n j : take n b = q → (j < n)%nat → nth j b [] = nth j q [].
Proof. intros <- Hj. rewrite !nth_lookup. by rewrite lookup_take_lt. Qed.

Lemma wrap_step_spec n s l i :
  (2 ≤ n ≤ 42)%nat → halves_ok n l → slots n s l → slots n (wrap_step cipher n s i) (kw_round cipher l i).
Proof using H0.
  intros Hn [Hl Hf] [Hs Hlen]. destruct s as [B b]. cbn [fst snd] in *. subst l.
  cbn [length] in Hl. rewrite length_take in Hl. change MAX_B_SLOTS with 41%nat in *.
  destruct (take (n - 1) b) as [|b0 q] eqn:Hq; [simpl in Hl; apply (f_equal length) in Hq; rewrite length_take in Hq; simpl in Hq; lia|].
  pose proof (f_equal length Hq) as Hlq. rewrite length_take in Hlq. simpl in Hlq.
  apply Forall_cons in Hf as [HB Hf]. apply Forall_cons in Hf as [Hb0 Hqf].
  unfold wrap_step, kw_round. rewrite (nth_take_slots b _ (n - 1) 0 Hq) by lia. cbn [nth]. rewrite copy_halves by done.
  set (t := xor_tweak half_bytes i (encrypt_block cipher (B ++ b0))). unfold slots. cbn [fst snd].
  assert (length (shift_down n b) = 41%nat) as Hsd by (unfold shift_down; rewrite (proj2 (shift_down_lookup (n - 2) b 0 ltac:(lia))); done).
  split; [|by rewrite length_insert]. f_equal. apply list_eq. intros j.
  destruct (decide (j < n - 1)%nat) as [Hj|Hj].
  - rewrite lookup_take_lt by done. destruct (decide (j = n - 2)%nat) as [->|Hne].
    + rewrite list_lookup_insert_eq by lia. rewrite lookup_app_r by lia. by replace (n - 2 - length q)%nat with 0%nat by lia.
    + rewrite list_lookup_insert_ne by done. unfold shift_down.
      rewrite (proj1 (shift_down_lookup (n - 2) b j ltac:(lia))), decide_True by lia.
      rewrite lookup_app_l by lia. change (q !! j) with ((b0 :: q) !! S j). rewrite <- Hq. by rewrite lookup_take_lt by lia.
  - rewrite !lookup_ge_None_2; [done|rewrite length_app; simpl; lia|rewrite length_take, length_insert; lia].
Qed.

Lemma unwrap_step_spec n s l i :
  (2 ≤ n ≤ 42)%nat → halves_ok n l → slots n s l → slots n (unwrap_step cipher n s i) (kw_unround cipher l i).
Proof using H0.
  intros Hn [Hl Hf] [Hs Hlen]. destruct s as [B b]. cbn [fst snd] in *. subst l. destruct half_spec as [H8 Hh].
  cbn [length] in Hl. change MAX_B_SLOTS with 41%nat in *.
  destruct (last_elem (take (n - 1) b)) as (q & x & Hq); [intros E; rewrite E in Hl; simpl in Hl; lia|].
  rewrite Hq in *. rewrite length_app in Hl. cbn [length] in Hl.
  apply Forall_cons in Hf as [HB Hf]. apply Forall_app in Hf as [Hqf Hx]. apply Forall_cons in Hx as [Hx _].
  unfold unwrap_step, kw_unround. rewrite last_last, removelast_last.
  rewrite (nth_take_slots b _ (n - 1) (n - 2) Hq) by lia. rewrite app_nth2 by lia.
  replace (n - 2 - length q)%nat with 0%nat by lia. cbn [nth].
  rewrite copy_halves by (done || (apply xor_tweak_ok; [lia|done])).
  set (d := decrypt_block cipher (x ++ xor_tweak 0 i B)). unfold slots. cbn [fst snd].
  assert (length (shift_up n b) = 41%nat) as Hsu by (unfold shift_up; rewrite (proj2 (shift_up_lookup (n - 2) b 0 ltac:(lia))); done).
  split; [|by rewrite length_insert]. f_equal. apply list_eq. intros j.
  destruct (decide (j < n - 1)%nat) as [Hj|Hj].
  - rewrite lookup_take_lt by done. destruct j as [|j]; [by rewrite list_lookup_insert_eq by lia|].
    rewrite list_lookup_insert_ne by lia. unfold shift_up.
    rewrite (proj1 (shift_up_lookup (n - 2) b (S j) ltac:(lia))), decide_True by lia.
    replace (S j - 1)%nat with j by lia. cbn [lookup list_lookup].
    rewrite <- (lookup_app_l q [x]) by lia. rewrite <- Hq. by rewrite lookup_take_lt by lia.
  - rewrite !lookup_ge_None_2; [done|simpl; lia|rewrite length_take, length_insert; lia].
Qed.

Lemma wrap_loop_spec n s l ix :
  (2 ≤ n ≤ 42)%nat → halves_ok n l → slots n s l →
  slots n (foldl (wrap_step cipher n) s ix) (foldl (kw_round cipher) l ix).
Proof using Hk H0.
  intros Hn. revert s l. induction ix as [|i ix IH]; intros s l Hl Hs; simpl; [done|].
  apply IH; [by apply kw_round_ok; [lia|]|by apply wrap_step_spec].
Qed.

Lemma unwrap_loop_spec n s l ix :
  (2 ≤ n ≤ 42)%nat → halves_ok n l → slots n s l →
  slots n (foldl (unwrap_step cipher n) s ix) (foldl (kw_unround cipher) l ix).
Proof using Hk H0.
  intros Hn. revert s l. induction ix as [|i ix IH]; intros s l Hl Hs; simpl; [done|].
  apply IH; [by apply kw_unround_ok; [lia|]|by apply unwrap_step_spec].
Qed.

(** Loading the slots: the half-blocks after the first one, then zeros. *)
Lemma load_slots_lookup count data j :
  (count ≤ MAX_B_SLOTS)%nat →
  load_slots (K := K) count data !! j =
    (if decide (j < count)%nat then Some (slice ((j + 1) * half_bytes) ((j + 1) * half_bytes + half_bytes) data)
     else if decide (j < MAX_B_SLOTS)%nat then Some (replicate half_bytes 0) else None) ∧
  length (load_slots (K := K) count data) = MAX_B_SLOTS.
Proof.
  intros Hc. unfold load_slots. revert j. induction count as [|c IH]; intros j.
  { cbn [seq foldl]. split; [|apply length_replicate]. rewrite decide_False by lia.
    case_decide; [by apply lookup_replicate_2|]. apply lookup_ge_None_2. rewrite length_replicate. lia. }
  rewrite seq_S, foldl_app. cbn [foldl]. rewrite Nat.add_0_l. destruct (IH ltac:(lia) j) as [H1 H2].
  split; [|by rewrite length_insert]. destruct (decide (j = c)) as [->|Hne].
  - rewrite list_lookup_insert_eq by lia. by rewrite decide_True by lia.
  - rewrite list_lookup_insert_ne, H1 by done. repeat case_decide; (done || lia).
Qed.

(** Storing the queue. *)
Lemma store_slots_spec count B b out :
  length B = half_bytes → Forall (λ x, length x = half_bytes) (take count b) → (count ≤ length b)%nat →
  length out = ((count + 1) * half_bytes)%nat →
  store_slots (K := K) count B b out = concat (B :: take count b).
Proof.
  intros HB Hb Hc Hl. unfold store_slots.
  assert (∀ c, (c ≤ count)%nat →
    foldl (λ out j, copy_at ((j + 1) * half_bytes) (nth j b []) out) (copy_at 0 B out) (seq 0 c) =
    concat (B :: take c b) ++ drop ((c + 1) * half_bytes) out) as H1.
  2: { rewrite H1 by done. by rewrite drop_ge, app_nil_r by lia. }
  induction c as [|c IH]; intros Hcc.
  { cbn [seq foldl]. rewrite copy_at_0 by lia. cbn [take concat]. rewrite firstn_O. cbn [concat]. rewrite app_nil_r, HB.
    do 2 f_equal. lia. }
  rewrite seq_S, foldl_app. cbn [foldl]. rewrite Nat.add_0_l, IH by lia.
  destruct (lookup_lt_is_Some_2 b c) as [x Hx]; [lia|]. rewrite (take_S_r b c x Hx).
  assert (length x = half_bytes) as Hlx.
  { rewrite Forall_lookup in Hb. apply (Hb c). by rewrite lookup_take_lt by lia. }
  assert (length (concat (B :: take c b)) = ((c + 1) * half_bytes)%nat) as Hcl.
  { rewrite (length_concat_const half_bytes).
    - cbn [length]. rewrite length_take. lia.
    - constructor; [done|]. replace (take c b) with (take c (take count b)) by (rewrite take_take; f_equal; lia). by apply Forall_take. }
  unfold copy_at. rewrite nth_lookup, Hx. change (default [] (Some x)) with x. rewrite Hlx, take_app_length' by done.
  rewrite drop_app_ge, Hcl, drop_drop by lia. cbn [concat]. rewrite concat_app. cbn [concat]. rewrite app_nil_r, <- !app_assoc.
  do 3 f_equal. f_equal. lia.
Qed.

(** The queue that a call starts from: the half-blocks of the data and the zero checksum. *)
Lemma load_queue n count data z :
  (2 ≤ n ≤ 42)%nat → (length data = (count + 1) * half_bytes)%nat → (count + z + 1 = n)%nat →
  slots n (take half_bytes data, load_slots (K := K) count data)
    (chunks_exact half_bytes (data ++ replicate (z * half_bytes) 0)).
Proof.
  intros Hn Hl Hz. destruct half_spec as [H8 Hh]. change MAX_B_SLOTS with 41%nat.
  destruct (load_slots_lookup count data 0) as [_ Hll]; [change MAX_B_SLOTS with 41%nat; lia|]. change MAX_B_SLOTS with 41%nat in *.
  assert (∀ a b, (a ≤ b)%nat → (a * half_bytes ≤ b * half_bytes)%nat) as Hmul by (intros; by apply Nat.mul_le_mono_r).
  split; [|done]. cbn [fst snd]. set (all := data ++ replicate (z * half_bytes) 0).
  assert (length all = (n * half_bytes)%nat) as Hla by (unfold all; rewrite length_app, length_replicate, Hl; nia).
  assert (chunks_exact half_bytes all = chunks_n n half_bytes all) as -> by (unfold chunks_exact; rewrite Hla, Nat.div_mul by lia; done).
  apply list_eq. intros j. destruct (decide (j < n)%nat) as [Hj|Hj].
  2: { rewrite !lookup_ge_None_2; [done|rewrite length_chunks_n; lia|simpl; rewrite length_take; lia]. }
  rewrite chunks_n_lookup by done. destruct j as [|j].
  - change (Some (take half_bytes data) = Some (slice (0 * half_bytes) (0 * half_bytes + half_bytes) all)).
    f_equal. unfold slice, all. rewrite Nat.mul_0_l, drop_0, Nat.add_0_l, Nat.sub_0_r, take_app_le; [done|]. specialize (Hmul 1%nat (count + 1)%nat ltac:(lia)). lia.
  - change ((take half_bytes data :: take (n - 1) (load_slots (K := K) count data)) !! S j) with
      (take (n - 1) (load_slots (K := K) count data) !! j). rewrite lookup_take_lt by lia.
    rewrite (proj1 (load_slots_lookup count data j ltac:(change MAX_B_SLOTS with 41%nat; lia))). change MAX_B_SLOTS with 41%nat.
    replace (S j) with (j + 1)%nat by lia. unfold slice.
    replace ((j + 1) * half_bytes + half_bytes - (j + 1) * half_bytes)%nat with half_bytes by lia. unfold all.
    destruct (decide (j < count)%nat).
    + pose proof (Hmul (j + 2)%nat (count + 1)%nat ltac:(lia)). pose proof (Hmul (j + 1)%nat (count + 1)%nat ltac:(lia)).
      rewrite drop_app_le, take_app_le by (rewrite ?length_drop; lia). done.
    + rewrite decide_True by lia. f_equal. pose proof (Hmul (count + 1)%nat (j + 1)%nat ltac:(lia)).
      pose proof (Hmul (j + 2)%nat n ltac:(lia)).
      assert (n * half_bytes = (count + 1) * half_bytes + z * half_bytes)%nat by (rewrite <- Nat.mul_add_distr_r; f_equal; lia).
      rewrite drop_app_ge, Hl, drop_replicate, take_replicate by lia. f_equal. lia.
Qed.

(** ** Wrapping as a permutation of byte strings *)

Definition kw_encipher (x : list Z) : list Z := concat (kw_permute cipher (chunks_exact half_bytes x)).
Definition kw_decipher (x : list Z) : list Z := concat (kw_unpermute cipher (chunks_exact half_bytes x)).

Lemma halves_of x n : array_ok (n * half_bytes) x → halves_ok n (chunks_exact half_bytes x) ∧ concat (chunks_exact half_bytes x) = x.
Proof using H0.
  intros [Hl Hb]. destruct half_spec as [H8 Hh]. split; [split|].
  - unfold chunks_exact. by rewrite length_chunks_n, Hl, Nat.div_mul by lia.
  - apply chunks_exact_ok; [lia|done].
  - apply concat_chunks_aligned. rewrite Hl. apply Nat.Div0.mod_mul.
Qed.

Lemma halves_concat n l : halves_ok n l → array_ok (n * half_bytes) (concat l) ∧ chunks_exact half_bytes (concat l) = l.
Proof using H0.
  intros [Hl Hf]. destruct half_spec as [H8 Hh].
  assert (Forall (λ c, length c = half_bytes) l) as Hlen by (eapply Forall_impl; [exact Hf|]; by intros ? []).
  split; [split|by apply chunks_exact_concat; [lia|]].
  - rewrite (length_concat_const half_bytes) by done. by rewrite Hl.
  - apply Forall_concat. eapply Forall_impl; [exact Hf|]. by intros ? [].
Qed.

Lemma kw_encipher_inverse n x :
  (2 ≤ n)%nat → array_ok (n * half_bytes) x →
  array_ok (n * half_bytes) (kw_encipher x) ∧ kw_decipher (kw_encipher x) = x ∧
  array_ok (n * half_bytes) (kw_decipher x) ∧ kw_encipher (kw_decipher x) = x.
Proof using Hk H0.
  intros Hn Hx. destruct (halves_of x n Hx) as [Hc He].
  destruct (kw_permute_inverse n _ Hn Hc) as (H1 & H2 & H3 & H4). unfold kw_encipher, kw_decipher.
  destruct (halves_concat n _ H1) as [H5 H6]. destruct (halves_concat n _ H3) as [H7 H8].
  split; [done|]. rewrite H6, H2. split; [done|]. split; [done|]. by rewrite H8, H4.
Qed.

(** The comparison of the last two slots is the comparison of the last block. *)
Lemma unwrap_check n r B b out :
  (n = 2 * (r + 1))%nat → array_ok half_bytes B → Forall (array_ok half_bytes) (take (n - 1) b) →
  (n - 1 ≤ length b)%nat → length out = (r * bb)%nat → (1 ≤ r)%nat →
  (if negb (bool_decide (nth (n - 3) b [] = replicate half_bytes 0) && bool_decide (nth (n - 2) b [] = replicate half_bytes 0))
   then (out, Err ChecksumMismatch) else (store_slots (K := K) (n - 3) B b out, Ok tt)) =
  if decide (drop (r * bb) (concat (B :: take (n - 1) b)) = replicate bb 0)
  then (take (r * bb) (concat (B :: take (n - 1) b)), Ok tt) else (out, Err ChecksumMismatch).
Proof using H0.
  intros Hn HB Hf Hlb Ho Hr. destruct half_spec as [H8 Hh].
  destruct (lookup_lt_is_Some_2 b (n - 3)) as [x Hx]; [lia|]. destruct (lookup_lt_is_Some_2 b (n - 2)) as [y Hy]; [lia|].
  assert (take (n - 1) b = take (n - 3) b ++ [x; y]) as Ht.
  { replace (n - 1)%nat with (S (n - 2)) by lia. rewrite (take_S_r _ _ _ Hy). replace (n - 2)%nat with (S (n - 3)) at 1 by lia.
    rewrite (take_S_r _ _ _ Hx). by rewrite <- app_assoc. }
  rewrite Ht in *. apply Forall_app in Hf as [Hf1 Hf2]. apply Forall_cons in Hf2 as [[Hxl _] Hf2]. apply Forall_cons in Hf2 as [[Hyl _] _].
  assert (Forall (λ c, length c = half_bytes) (B :: take (n - 3) b)) as Hlen.
  { constructor; [apply HB|]. eapply Forall_impl; [exact Hf1|]. by intros ? []. }
  assert (length (concat (B :: take (n - 3) b)) = r * bb)%nat as Hcl.
  { rewrite (length_concat_const half_bytes) by done. cbn [length]. rewrite length_take, blocks_halves. f_equal. lia. }
  rewrite app_comm_cons, concat_app, take_app_length', drop_app_length' by done. cbn [concat]. rewrite app_nil_r.
  rewrite !nth_lookup, Hx, Hy. change (default [] (Some x)) with x. change (default [] (Some y)) with y.
  replace (replicate bb 0) with (replicate half_bytes 0 ++ replicate half_bytes 0) by (rewrite <- replicate_add; f_equal; lia).
  rewrite store_slots_spec; [|apply HB|by apply Forall_cons in Hlen as [_ Hlen]|lia|].
  2: { rewrite Ho, blocks_halves. f_equal. lia. }
  destruct (decide (x ++ y = _)) as [E|E].
  - apply app_inj_1 in E as [-> ->]; [|by rewrite length_replicate]. by rewrite !bool_decide_true.
  - repeat case_bool_decide; try done. by subst.
Qed.

Lemma wrap_guard (pt out : list Z) r :
  (1 ≤ r ≤ MAX_R)%nat → length pt = (r * bb)%nat → length out = (length pt + bb)%nat →
  Nat.eqb (length pt) 0 || negb (Nat.eqb (length pt mod bb) 0) || Nat.ltb MAX_R (length pt / bb)
    || negb (Nat.eqb (length out) (length pt + bb)) = false.
Proof using H0.
  intros Hr Hl Ho. pose proof (block_bytes_pos (K := K)). rewrite Hl at 2 3. rewrite Nat.Div0.mod_mul, Nat.div_mul by lia.
  rewrite (proj2 (Nat.eqb_neq (length pt) 0)), (proj2 (Nat.ltb_ge _ _)), (proj2 (Nat.eqb_eq (length out) _)) by nia. done.
Qed.

Lemma wrap_spec pt out r :
  (1 ≤ r ≤ MAX_R)%nat → array_ok (r * bb) pt → length out = (length pt + bb)%nat →
  wrap_with_cipher cipher pt out = (kw_encipher (pt ++ replicate bb 0), Ok tt).
Proof using Hk H0.
  intros Hr [Hl Hb] Ho. pose proof (block_bytes_pos (K := K)) as Hp. destruct half_spec as [H8 Hh].
  unfold wrap_with_cipher. rewrite (wrap_guard pt out r) by done. rewrite Hl, Nat.div_mul by lia.
  unfold MAX_R in Hr. set (n := (2 * (r + 1))%nat).
  assert (length pt = (2 * r - 1 + 1) * half_bytes)%nat as Hl2.
  { rewrite Hl, blocks_halves. f_equal. lia. }
  pose proof (load_queue n (2 * r - 1) pt 2 ltac:(lia) Hl2 ltac:(lia)) as Hq.
  replace (2 * half_bytes)%nat with bb in Hq by lia.
  assert (array_ok (n * half_bytes) (pt ++ replicate bb 0)) as Hx.
  { split; [|apply Forall_app; split; [done|apply Forall_replicate, byte_ok_0]].
    rewrite length_app, length_replicate, Hl2. unfold n. replace (2 * r - 1 + 1)%nat with (2 * r)%nat by lia. lia. }
  destruct (halves_of _ n Hx) as [Hc _]. pose proof Hc as [Hcl _].
  pose proof (wrap_loop_spec n _ _ (seq 1 ((n - 1) * 6)) ltac:(lia) Hc Hq) as Hw.
  unfold kw_encipher, kw_permute, kw_rounds. rewrite Hcl.
  pose proof (rounds_ok n _ (seq 1 ((n - 1) * 6)) ltac:(lia) Hc) as [Hrl Hrf].
  destruct (foldl (wrap_step cipher n) _ _) as [B b]. destruct Hw as [Hw Hbl]. cbn [fst snd] in *. rewrite <- Hw in *.
  change MAX_B_SLOTS with 41%nat in Hbl. f_equal. apply Forall_cons in Hrf as [HB Hbf].
  apply store_slots_spec; [apply HB| |lia|].
  - eapply Forall_impl; [exact Hbf|]. by intros ? [].
  - rewrite Ho, Hl. rewrite <- (Nat.mul_1_l bb) at 2. rewrite <- Nat.mul_add_distr_r, blocks_halves. f_equal. lia.
Qed.

Lemma unwrap_spec `{!Subtle} `{!SubtleLaws} ct out r :
  (1 ≤ r ≤ MAX_R)%nat → array_ok ((r + 1) * bb) ct → length out = (r * bb)%nat →
  unwrap_with_cipher cipher ct out =
    if decide (drop (r * bb) (kw_decipher ct) = replicate bb 0)
    then (take (r * bb) (kw_decipher ct), Ok tt) else (out, Err ChecksumMismatch).
Proof using Hk H0.
  intros Hr [Hl Hb] Ho. pose proof (block_bytes_pos (K := K)) as Hp. destruct half_spec as [H8 Hh].
  assert ((r + 1) * bb = r * bb + bb)%nat as Hrb by lia. assert (1 * bb ≤ r * bb)%nat as Hge by (apply Nat.mul_le_mono_r; lia).
  unfold unwrap_with_cipher. rewrite Hl, Nat.Div0.mod_mul, Nat.div_mul, Nat.add_sub by lia.
  rewrite (proj2 (Nat.ltb_ge _ (2 * bb))), (proj2 (Nat.ltb_ge MAX_R r)), (proj2 (Nat.eqb_eq (length out) _)) by lia.
  cbn [orb negb Nat.eqb]. unfold MAX_R in Hr. set (n := (2 * (r + 1))%nat).
  assert (length ct = (n - 1 + 1) * half_bytes)%nat as Hl2.
  { rewrite Hl, blocks_halves. f_equal. lia. }
  pose proof (load_queue n (n - 1) ct 0 ltac:(lia) Hl2 ltac:(lia)) as Hq. rewrite app_nil_r in Hq.
  replace (n - 1 + 1)%nat with n in Hl2 by lia.
  destruct (halves_of ct n (conj Hl2 Hb)) as [Hc _]. pose proof Hc as [Hcl _].
  pose proof (unwrap_loop_spec n _ _ (reverse (seq 1 ((n - 1) * 6))) ltac:(lia) Hc Hq) as Hw.
  unfold kw_decipher, kw_unpermute, kw_rounds. rewrite Hcl.
  pose proof (unrounds_ok n _ (reverse (seq 1 ((n - 1) * 6))) ltac:(lia) Hc) as [Hrl Hrf].
  destruct (foldl (unwrap_step cipher n) _ _) as [B b]. destruct Hw as [Hw Hbl]. cbn [fst snd] in *. rewrite <- Hw in *.
  change MAX_B_SLOTS with 41%nat in Hbl. apply Forall_cons in Hrf as [HB Hbf]. rewrite !ct_eq_slice_spec.
  apply unwrap_check; [lia|done|done|lia|done|lia].
Qed.
End lemmas.

(** ** Properties *)

(** The sizes that [wrap] takes. *)
Definition wrap_sizes (bb : nat) (pt out : list Z) : Prop :=
  pt ≠ [] ∧ (length pt mod bb = 0)%nat ∧ (length pt / bb ≤ 20)%nat ∧ length out = (length pt + bb)%nat.
#[global] Instance wrap_sizes_dec bb pt out : Decision (wrap_sizes bb pt out).
Proof. unfold wrap_sizes. apply _. Defined.

Lemma wrap_unwrap {K} `{BlockCipherLaws K} `{SubtleLaws} (k : K) pt out :
  key_ok k → bytes_ok pt → wrap_sizes (block_bytes K) pt out →
  ∃ ct, wrap_with_cipher k pt out = (ct, Ok tt) ∧ array_ok (length pt + block_bytes K) ct ∧
    ∀ out', length out' = length pt → unwrap_with_cipher k ct out' = (pt, Ok tt).
Proof.
  intros Hk Hb (Hne & Hm & Hr & Ho). pose proof (aligned_length _ _ Hm) as Hl. pose proof (block_bytes_pos (K := K)) as Hp.
  set (r := (length pt / block_bytes K)%nat) in *. assert (1 ≤ r)%nat as Hr1.
  { destruct r; [|lia]. by apply nil_length_inv in Hl. }
  set (x := pt ++ replicate (block_bytes K) 0).
  pose proof (wrap_spec k Hk pt out r (conj Hr1 Hr) (conj Hl Hb) Ho) as Hw.
  assert (length x = length pt + block_bytes K)%nat as Hxl by (unfold x; by rewrite length_app, length_replicate).
  assert (array_ok ((2 * r + 2) * (block_bytes K / 2)) x) as Hx.
  { split; [|apply Forall_app; split; [done|apply Forall_replicate, byte_ok_0]].
    rewrite Hxl, Hl. destruct (half_spec (K := K)). nia. }
  destruct (kw_encipher_inverse k Hk (2 * r + 2) _ ltac:(lia) Hx) as ([Hcl Hcb] & Hd & _).
  rewrite <- (proj1 Hx), Hxl in Hcl. exists (kw_encipher k x). split; [done|]. split; [done|].
  intros out' Ho'. rewrite (unwrap_spec k Hk _ out' r) by (done || (split; lia || done) || lia).
  rewrite Hd. unfold x. rewrite take_app_length', drop_app_length' by lia. by rewrite decide_True.
Qed.

Lemma wrap_refused {K} `{BlockCipher K} (k : K) pt out :
  ¬ wrap_sizes (block_bytes K) pt out → wrap_with_cipher k pt out = (out, Err InvalidLength).
Proof.
  intros Hv. unfold wrap_with_cipher. destruct (_ || _) eqn:Hg; [done|]. exfalso. apply Hv.
  rewrite !orb_false_iff, !negb_false_iff, !Nat.eqb_eq, Nat.eqb_neq, Nat.ltb_ge in Hg. unfold MAX_R in Hg.
  destruct Hg as (((H1 & H2) & H3) & H4). split; [by intros ->|]. done.
Qed.

(** Plaintexts of 1 to 20 whole blocks, with an output buffer one block longer, are wrapped, and the
    wrapped text is unwrapped to them; any other lengths are refused and the output left as it was. *)
Theorem kw_roundtrip {K} `{BlockCipherLaws K} `{SubtleLaws} (key pt out : list Z) :
  array_ok (key_bytes K) key → bytes_ok pt →
  if decide (wrap_sizes (block_bytes K) pt out) then
    ∃ ct, wrap_key key pt out = Some (ct, Ok tt) ∧ array_ok (length pt + block_bytes K) ct ∧
      ∀ out', length out' = length pt → unwrap_key key ct out' = Some (pt, Ok tt)
  else wrap_key key pt out = Some (out, Err InvalidLength).
Proof.
  intros Hkey Hb. destruct (expanded_new_ok key Hkey) as (k & He & Hk).
  unfold wrap_key, unwrap_key. rewrite He. cbn [mbind option_bind]. case_decide as Hv.
  - destruct (wrap_unwrap k pt out Hk Hb Hv) as (ct & -> & Hct & Hu). exists ct. split; [done|]. split; [done|].
    intros out' Ho'. by rewrite Hu.
  - by rewrite wrap_refused.
Qed.

Lemma kw_roundtrip_witness :
  let _ := plain_subtle in
  (∃ ct, wrap_key (K := ExpandedKey Kalyna128_128) (seqZ 0 16) (seqZ 0 32) (replicate 48 0) = Some (ct, Ok tt) ∧ array_ok 48 ct ∧
    ∀ out', length out' = 32%nat → unwrap_key (K := ExpandedKey Kalyna128_128) (seqZ 0 16) ct out' = Some (seqZ 0 32, Ok tt)) ∧
  wrap_key (K := ExpandedKey Kalyna128_128) (seqZ 0 16) [] (replicate 16 7) = Some (replicate 16 7, Err InvalidLength).
Proof.
  split.
  - refine (@kw_roundtrip (ExpandedKey Kalyna128_128) _ _ plain_subtle plain_subtle_laws (seqZ 0 16) (seqZ 0 32) (replicate 48 0) _ _); by_decision.
  - refine (@kw_roundtrip (ExpandedKey Kalyna128_128) _ _ plain_subtle plain_subtle_laws (seqZ 0 16) [] (replicate 16 7) _ _); by_decision.
Defined.

Lemma unwrap_exact {K} `{BlockCipherLaws K} `{SubtleLaws} (key ct out : list Z) :
  array_ok (key_bytes K) key → bytes_ok ct →
  let bb := block_bytes K in
  if decide (2 * bb ≤ length ct ∧ length ct mod bb = 0 ∧ length ct / bb - 1 ≤ 20 ∧ length out = length ct - bb)%nat then
    (∃ pt, array_ok (length ct - bb) pt ∧ unwrap_key key ct out = Some (pt, Ok tt) ∧
      ∀ out', length out' = length ct → wrap_key key pt out' = Some (ct, Ok tt)) ∨
    (unwrap_key key ct out = Some (out, Err ChecksumMismatch) ∧
      ∀ pt out', bytes_ok pt → wrap_key key pt out' ≠ Some (ct, Ok tt))
  else unwrap_key key ct out = Some (out, Err InvalidLength).
Proof.
  intros Hkey Hb bb. subst bb.
  destruct (expanded_new_ok key Hkey) as (k & He & Hk).
  pose proof (block_bytes_pos (K := K)) as Hp. case_decide as Hv.
  - destruct Hv as (Hge & Hm & Hr & Ho). pose proof (aligned_length _ _ Hm) as Hl.
    set (r := (length ct / block_bytes K - 1)%nat) in *.
    assert (2 ≤ length ct / block_bytes K)%nat as Hq by (apply Nat.div_le_lower_bound; lia).
    assert (length ct = (r + 1) * block_bytes K)%nat as Hl' by (rewrite Hl; f_equal; lia).
    pose proof (unwrap_spec k Hk ct out r ltac:(unfold MAX_R; lia) (conj Hl' Hb) ltac:(lia)) as Hu.
    assert (array_ok ((2 * r + 2) * (block_bytes K / 2)) ct) as Hx.
    { split; [|done]. rewrite Hl'. destruct (half_spec (K := K)). nia. }
    destruct (kw_encipher_inverse k Hk (2 * r + 2) _ ltac:(lia) Hx) as (_ & _ & [Hdl Hdb] & Hd).
    destruct Hx as [Hxl _]. rewrite <- Hxl, Hl' in Hdl.
    destruct (decide (drop (r * block_bytes K) (kw_decipher k ct) = replicate (block_bytes K) 0)) as [E|E].
    + left. exists (take (r * block_bytes K) (kw_decipher k ct)).
      split; [split; [rewrite length_take; lia|by apply Forall_take]|].
      unfold unwrap_key, wrap_key. rewrite He. cbn [mbind option_bind]. rewrite Hu. split; [done|].
      intros out' Ho'. f_equal. rewrite (wrap_spec k Hk _ out' r); [|unfold MAX_R; lia| |].
      * by rewrite <- E, take_drop, Hd.
      * split; [rewrite length_take; lia|by apply Forall_take].
      * rewrite length_take. lia.
    + right. split; [unfold unwrap_key; rewrite He; cbn [mbind option_bind]; by rewrite Hu|].
      intros pt out' Hpt Hw. unfold wrap_key in Hw. rewrite He in Hw. cbn [mbind option_bind] in Hw.
      destruct (decide (wrap_sizes (block_bytes K) pt out')) as [Hv|Hv]; [|by rewrite wrap_refused in Hw].
      destruct (wrap_unwrap k pt out' Hk Hpt Hv) as (ct' & Hw' & [Hlc _] & Hun). rewrite Hw' in Hw. injection Hw as ->.
      specialize (Hun out ltac:(lia)). by rewrite Hu in Hun.
  - unfold unwrap_key. rewrite He. cbn [mbind option_bind]. unfold unwrap_with_cipher. destruct (_ || _) eqn:Hg; [done|]. exfalso. apply Hv.
    rewrite !orb_false_iff, !negb_false_iff, !Nat.eqb_eq, !Nat.ltb_ge in Hg. unfold MAX_R in Hg. tauto.
Qed.

(** Unwrapping accepts exactly the images of [wrap]: an accepted text wraps back to the same bytes, and
    a text refused by the checksum is the wrapping of nothing and leaves the output as it was. *)
Theorem kw_unwrap_exact {K} `{BlockCipherLaws K} `{SubtleLaws} (key ct out : list Z) :
  array_ok (key_bytes K) key → bytes_ok ct →
  let bb := block_bytes K in
  if decide (2 * bb ≤ length ct ∧ length ct mod bb = 0 ∧ length ct / bb - 1 ≤ 20 ∧ length out = length ct - bb)%nat then
    (∃ pt, array_ok (length ct - bb) pt ∧ unwrap_key key ct out = Some (pt, Ok tt) ∧
      ∀ out', length out' = length ct → wrap_key key pt out' = Some (ct, Ok tt)) ∨
    (unwrap_key key ct out = Some (out, Err ChecksumMismatch) ∧
      ∀ pt out', bytes_ok pt → wrap_key key pt out' ≠ Some (ct, Ok tt))
  else unwrap_key key ct out = Some (out, Err InvalidLength).
Proof. apply unwrap_exact. Qed.

Lemma kw_unwrap_exact_witness :
  let _ := plain_subtle in
  (∃ pt, array_ok 16 pt ∧ unwrap_key (K := ExpandedKey Kalyna128_128) (seqZ 0 16) (seqZ 0 32) (replicate 16 0) = Some (pt, Ok tt) ∧
    ∀ out', length out' = 32%nat → wrap_key (K := ExpandedKey Kalyna128_128) (seqZ 0 16) pt out' = Some (seqZ 0 32, Ok tt)) ∨
  (unwrap_key (K := ExpandedKey Kalyna128_128) (seqZ 0 16) (seqZ 0 32) (replicate 16 0) = Some (replicate 16 0, Err ChecksumMismatch) ∧
    ∀ pt out', bytes_ok pt → wrap_key (K := ExpandedKey Kalyna128_128) (seqZ 0 16) pt out' ≠ Some (seqZ 0 32, Ok tt)).
Proof.
  refine (@kw_unwrap_exact (ExpandedKey Kalyna128_128) _ _ plain_subtle plain_subtle_laws (seqZ 0 16) (seqZ 0 32) (replicate 16 0) _ _);
    by_decision.
Defined.
