(* ===== verification/KwP.v ===== *)
(** The key wrap with padding KW-p over KW ([hazmat/kalyna_kw_p.rs]). *)

From S2P Require Import Prelude External BlockCipher Kalyna Kw.

(** [n.div_ceil(m)]. *)
Definition div_ceil (n m : nat) : nat := ((n + m - 1) / m)%nat.

Section kw_p.
Context `{Subtle}.

(** The loops of [unpad], in its order.  [Choice] values are booleans; words have 64 bits. *)
Definition find_marker (p : list Z) : Z * bool :=
  fold_enum (λ '(marker_at, found) i b,
    let nonzero := negb (ct_eq b 0) in
    (conditional_select marker_at i nonzero, found || nonzero)) 0 (0, false) p.

Definition read_marker (p : list Z) (marker_at : Z) : Z :=
  fold_enum (λ marker i b, conditional_select marker b (ct_eq i marker_at)) 0 0 p.

Definition expected_byte (expected_field : list Z) (k : Z) : Z :=
  fold_enum (λ expected j e, conditional_select expected e (ct_eq k j)) 0 0 expected_field.

Definition field_ok (p : list Z) (len marker_at : Z) : bool :=
  let expected_field := to_le_bytes 8 (wrap 64 (len * 8)) in
  fold_enum (λ ok i b,
    let in_field := negb (ct_lt i len) && ct_lt i marker_at in
    let k := wrapping_sub 64 i len in
    ok && (negb in_field || ct_eq b (expected_byte expected_field k))) 0 true p.

Definition unpad (p : list Z) (block half : nat) : bool * nat :=
  let total := length p in
  let '(marker_at, found) := find_marker p in
  let marker := read_marker p marker_at in
  let len := wrapping_sub 64 marker_at half in
  let ok := found && ct_eq marker 0x80 in
  let ok := ok && ct_gt marker_at (half + block)%nat in
  let ok := ok && negb (ct_eq (Z.land len (block - 1)%nat) 0) in
  let ok := ok && ct_gt marker_at (total - block - 1)%nat in
  let ok := ok && field_ok p len marker_at in
  (ok, Z.to_nat len).

Context {K : Type} `{BlockCipher K}.
Local Abbreviation bb := (block_bytes K).
Local Abbreviation half_bytes := (block_bytes K / 2)%nat.

Definition wrapped_len (plaintext_len : nat) : option nat :=
  if Nat.leb plaintext_len bb || Nat.eqb (plaintext_len mod bb) 0 then None
  else
    let padded := (div_ceil (plaintext_len + half_bytes + 1) bb * bb)%nat in
    if Nat.ltb MAX_R (padded / bb) then None else Some (padded + bb)%nat.

Definition kwp_wrap_with_cipher (cipher : K) (plaintext out : list Z) : list Z * result unit KwError :=
  if bool_decide (wrapped_len (length plaintext) ≠ Some (length out)) then (out, Err InvalidLength)
  else
    let padded_len := (length out - bb)%nat in
    let padded := replicate (MAX_R * bb) 0 in
    let padded := copy_at 0 plaintext padded in
    let bits := length plaintext * 8 in
    let padded := copy_at (length plaintext) (to_le_bytes 8 bits) padded in
    let padded := <[(length plaintext + half_bytes)%nat := 0x80]> padded in
    wrap_with_cipher cipher (take padded_len padded) out.

Definition kwp_wrap (key plaintext out : list Z) : option (list Z * result unit KwError) :=
  cipher ← expanded_new K key; Some (kwp_wrap_with_cipher cipher plaintext out).

Definition kwp_unwrap_with_cipher (cipher : K) (ciphertext out : list Z) : list Z * result nat KwError :=
  if Nat.ltb (length ciphertext) (3 * bb) || negb (Nat.eqb (length ciphertext mod bb) 0)
     || Nat.ltb MAX_R (length ciphertext / bb - 1) || negb (Nat.eqb (length out) (length ciphertext - bb))
  then (out, Err InvalidLength)
  else
    let padded_len := length out in
    let padded := replicate (MAX_R * bb) 0 in
    let '(head, r) := unwrap_with_cipher cipher ciphertext (take padded_len padded) in
    let padded := copy_at 0 head padded in
    match r with
    | Err e => (replicate (length out) 0, Err e)
    | Ok _ =>
        let '(ok, len) := unpad (take padded_len padded) bb half_bytes in
        let out := map (λ i, conditional_select 0 (padded.[i]) (ct_lt i len && ok)) (seq 0 (length out)) in
        if ok then (out, Ok len) else (out, Err ChecksumMismatch)
    end.

Definition kwp_unwrap (key ciphertext out : list Z) : option (list Z * result nat KwError) :=
  cipher ← expanded_new K key; Some (kwp_unwrap_with_cipher cipher ciphertext out).
End kw_p.

(** ** The padding of the standard *)

(** [M ‖ μ(8 |M|) ‖ 0x80 ‖ 0..] up to [total] bytes. *)
Definition kwp_pad (half total : nat) (m : list Z) : list Z :=
  m ++ to_le_bytes half (8 * length m) ++ 0x80 :: replicate (total - length m - half - 1) 0.

(** The lengths of messages and of their padding: longer than a block, not aligned, and no whole block
    of padding beyond the marker. *)
Definition kwp_sizes (block half total : nat) (m : list Z) : Prop :=
  (block < length m)%nat ∧ (length m mod block ≠ 0)%nat ∧
  (length m + half < total)%nat ∧ (total ≤ length m + half + block)%nat.

Section unpad.
Context `{SubtleLaws}.

Lemma fold_enum_app {A B} (f : A → nat → B → A) i acc l k :
  fold_enum f i acc (l ++ k) = fold_enum f (i + length l) (fold_enum f i acc l) k.
Proof.
  revert i acc. induction l as [|x l IH]; intros i acc; simpl; [by rewrite Nat.add_0_r|].
  rewrite IH. by rewrite Nat.add_succ_r.
Qed.

(** The marker found is the last non-zero byte. *)
Lemma find_marker_spec p :
  (∃ q b z, p = q ++ b :: replicate z 0 ∧ b ≠ 0 ∧ find_marker p = (Z.of_nat (length q), true)) ∨
  (p = replicate (length p) 0 ∧ find_marker p = (0, false)).
Proof.
  induction p as [|x p IH] using rev_ind; [by right|]. unfold find_marker in *. rewrite fold_enum_app. cbn [fold_enum].
  rewrite Nat.add_0_l. destruct IH as [(q & b & z & Hp & Hb & ->)|[Hp ->]];
    rewrite ct_eq_spec, conditional_select_spec; destruct (Z.eqb_spec x 0) as [->|Hx]; cbn [negb orb].
  - left. exists q, b, (S z). split; [|done]. rewrite Hp, <- app_assoc. cbn [app]. by rewrite <- replicate_cons_app.
  - left. exists p, x, O. done.
  - right. split; [|done]. rewrite Hp at 1. by rewrite length_app, replicate_add.
  - left. exists p, x, O. done.
Qed.

(** Selecting by index is reading. *)
Lemma select_at (l : list Z) (d : Z) (n : nat) (i : nat) :
  fold_enum (λ acc j b, conditional_select acc b (ct_eq n j)) i d l =
  if decide (i ≤ n < i + length l)%nat then l.[n - i] else d.
Proof.
  revert i d. induction l as [|x l IH]; intros i d; simpl; [by rewrite decide_False by lia|].
  rewrite IH, ct_eq_spec, conditional_select_spec. destruct (Z.eqb_spec n i) as [E|E].
  - assert (n = i) as -> by lia. rewrite decide_False, decide_True by lia. by rewrite Nat.sub_diag.
  - destruct (decide (S i ≤ n < S i + length l)%nat).
    + rewrite decide_True by lia. replace (n - i)%nat with (S (n - S i)) by lia. done.
    + by rewrite decide_False by lia.
Qed.

Lemma read_marker_spec p (n : nat) : (n < length p)%nat → read_marker p n = p.[n].
Proof.
  intros Hn. unfold read_marker. transitivity (fold_enum (λ acc j b, conditional_select acc b (ct_eq n j)) 0 0 p).
  - assert (∀ i d, fold_enum (λ marker i b, conditional_select marker b (ct_eq i n)) i d p =
      fold_enum (λ acc j b, conditional_select acc b (ct_eq n j)) i d p) as E; [|apply E].
    clear Hn. induction p as [|x p IH]; intros i d; simpl; [done|]. rewrite !ct_eq_spec, Z.eqb_sym. apply IH.
  - rewrite select_at, decide_True by lia. f_equal. lia.
Qed.

(** The expected byte [k] of the length field: the 8 bytes of the length, then zeros. *)
Lemma expected_byte_spec w (k : nat) half :
  word_ok 64 w → (8 ≤ half)%nat → (k < half)%nat → expected_byte (to_le_bytes 8 w) k = (to_le_bytes half w).[k].
Proof.
  intros Hw Hh Hk. unfold expected_byte. rewrite select_at, length_to_le_bytes.
  rewrite (to_le_bytes_extend 8 half) by done. rewrite Nat.sub_0_r. case_decide.
  - rewrite app_nth1 by (rewrite length_to_le_bytes; lia). done.
  - rewrite app_nth2, nth_lookup by (rewrite length_to_le_bytes; lia). rewrite length_to_le_bytes, lookup_replicate_2 by lia. done.
Qed.

Lemma fold_enum_and (f : nat → Z → bool) i (l : list Z) b :
  fold_enum (λ ok i x, ok && f i x) i b l = true ↔ b = true ∧ ∀ j, (j < length l)%nat → f (i + j)%nat (l.[j]) = true.
Proof.
  revert i b. induction l as [|x l IH]; intros i b; simpl; [split; [intros ->; split; [done|lia]|tauto]|].
  rewrite IH, andb_true_iff. split.
  - intros [[Hb Hx] Hl]. split; [done|]. intros [|j] Hj; [by rewrite Nat.add_0_r|].
    rewrite Nat.add_succ_r. apply (Hl j). lia.
  - intros [Hb Hl]. split; [split; [done|]|].
    + specialize (Hl 0%nat ltac:(lia)). by rewrite Nat.add_0_r in Hl.
    + intros j Hj. specialize (Hl (S j) ltac:(lia)). by rewrite Nat.add_succ_r in Hl.
Qed.

(** The check of the field compares the half block before the marker with the encoded length. *)
Lemma field_ok_spec p (len half : nat) :
  (8 ≤ half)%nat → (len + half ≤ length p)%nat → 8 * length p < 2 ^ 64 →
  field_ok p len (len + half)%nat = true ↔ slice len (len + half) p = to_le_bytes half (8 * len).
Proof.
  intros Hh Hl Hp. unfold field_ok. rewrite fold_enum_and. rewrite wrap_id by (unfold word_ok; lia).
  rewrite (Z.mul_comm len). unfold slice. replace (len + half - len)%nat with half by lia. split.
  - intros [_ Hf]. apply list_eq. intros j. destruct (decide (j < half)%nat) as [Hj|Hj].
    2: { rewrite !lookup_ge_None_2; [done|rewrite length_to_le_bytes; lia|rewrite length_take; lia]. }
    specialize (Hf (len + j)%nat ltac:(lia)). rewrite !ct_lt_spec, ct_eq_spec, Nat.add_0_l in Hf.
    rewrite (proj2 (Z.ltb_ge (len + j)%nat len)), (proj2 (Z.ltb_lt (len + j)%nat (len + half)%nat)) in Hf by lia.
    cbn [negb andb orb] in Hf. unfold wrapping_sub in Hf. rewrite wrap_id in Hf by (unfold word_ok; lia).
    replace ((len + j)%nat - len) with (Z.of_nat j) in Hf by lia.
    rewrite (expected_byte_spec _ j half), Z.eqb_eq in Hf by (unfold word_ok; lia).
    rewrite lookup_take_lt, lookup_drop by done. rewrite !nth_lookup in Hf.
    destruct (lookup_lt_is_Some_2 p (len + j)) as [x Hx]; [lia|].
    destruct (lookup_lt_is_Some_2 (to_le_bytes half (8 * len)) j) as [y Hy]; [rewrite length_to_le_bytes; lia|].
    rewrite Hx, Hy in *. by f_equal.
  - intros He. split; [done|]. intros i Hi. rewrite !ct_lt_spec, ct_eq_spec, Nat.add_0_l.
    destruct (Z.ltb_spec i len); [done|]. destruct (Z.ltb_spec i (len + half)%nat); [|done]. cbn [negb andb orb].
    unfold wrapping_sub. rewrite wrap_id by (unfold word_ok; lia). replace (i - len) with (Z.of_nat (i - len)) by lia.
    rewrite (expected_byte_spec _ (i - len) half), <- He by (unfold word_ok; lia). apply Z.eqb_eq.
    rewrite !nth_lookup, lookup_take_lt, lookup_drop by lia. do 2 f_equal. lia.
Qed.

Context (block half : nat) (Hblock : block = 16%nat ∨ block = 32%nat ∨ block = 64%nat) (Hhalf : half = (block / 2)%nat).

Lemma half_sizes : (8 ≤ half)%nat ∧ (half + half = block)%nat.
Proof using Hblock Hhalf. subst half. destruct Hblock as [-> | [-> | ->]]; simpl; lia. Qed.

Lemma land_block (n : nat) : Z.land n (block - 1)%nat = Z.of_nat (n mod block).
Proof using Hblock Hhalf.
  rewrite Nat2Z.inj_mod. destruct Hblock as [-> | [-> | ->]].
  - change (Z.of_nat (16 - 1)) with (Z.ones 4). by rewrite Z.land_ones.
  - change (Z.of_nat (32 - 1)) with (Z.ones 5). by rewrite Z.land_ones.
  - change (Z.of_nat (64 - 1)) with (Z.ones 6). by rewrite Z.land_ones.
Qed.

Lemma last_nonzero_inj (q q' : list Z) b b' z z' :
  b ≠ 0 → b' ≠ 0 → q ++ b :: replicate z 0 = q' ++ b' :: replicate z' 0 → q = q' ∧ b = b' ∧ z = z'.
Proof.
  intros Hb Hb' E. apply (f_equal reverse) in E. rewrite !reverse_app, !reverse_cons, !reverse_replicate, <- !app_assoc in E.
  assert (∀ j k (x y : list Z), replicate j 0 ++ b :: x = replicate k 0 ++ b' :: y → j = k ∧ b = b' ∧ x = y) as Hi.
  { induction j as [|j IH]; intros [|k] x y; simpl; [by intros [= -> ->]|by intros [=]|by intros [=]|].
    intros [= Ej]. destruct (IH _ _ _ Ej) as (-> & ? & ?). done. }
  apply Hi in E as (-> & -> & E). split; [|done]. by rewrite <- (reverse_involutive q), E, reverse_involutive.
Qed.

(** [unpad] on a text whose last non-zero byte [b] follows [q]. *)
Lemma unpad_at q b z :
  let p := q ++ b :: replicate z 0 in
  b ≠ 0 → (2 * block ≤ length p)%nat → 8 * length p < 2 ^ 64 →
  find_marker p = (Z.of_nat (length q), true) →
  let n := (length q - half)%nat in
  (unpad p block half).1 = true ↔
    b = 0x80 ∧ (half + block < length q)%nat ∧ (n mod block ≠ 0)%nat ∧ (length p ≤ length q + block)%nat ∧
    slice n (n + half) p = to_le_bytes half (8 * n).
Proof using H0 Hblock Hhalf.
  intros p Hb Hl Hp Hf n. destruct half_sizes as [H8 Hh]. unfold unpad. rewrite Hf.
  assert (length q < length p)%nat as Hq by (unfold p; rewrite length_app; simpl; lia).
  rewrite read_marker_spec by done. assert (p.[length q] = b) as -> by (unfold p; by rewrite nth_middle).
  cbn [fst]. rewrite !andb_true_iff, !ct_gt_spec, !ct_eq_spec, negb_true_iff, Z.eqb_neq, Z.eqb_eq, !Z.gtb_lt.
  assert (half + block < length q → wrapping_sub 64 (length q) half = n)%nat as Hn.
  { intros Hlt. unfold wrapping_sub, n. rewrite wrap_id by (unfold word_ok; lia). lia. }
  split.
  - intros (((((_ & E) & G) & M) & T) & F). assert (half + block < length q)%nat as G' by lia.
    rewrite Hn in * by done. rewrite land_block in M. split; [done|]. split; [done|]. split; [lia|]. split; [lia|].
    replace (Z.of_nat (length q)) with (Z.of_nat (n + half)) in F by lia. by apply field_ok_spec in F; [|lia..].
  - intros (E & G & M & T & F). rewrite Hn by done. rewrite land_block. repeat split; [done|lia|lia|lia|].
    replace (Z.of_nat (length q)) with (Z.of_nat (n + half)) by lia. by apply field_ok_spec; [lia..|].
Qed.

Lemma unpad_len q b z :
  let p := q ++ b :: replicate z 0 in
  (half ≤ length q)%nat → 8 * length p < 2 ^ 64 → find_marker p = (Z.of_nat (length q), true) →
  (unpad p block half).2 = (length q - half)%nat.
Proof.
  intros p Hq Hp Hf. unfold unpad. rewrite Hf. cbn [snd]. unfold wrapping_sub.
  assert (length q < length p)%nat by (unfold p; rewrite length_app; simpl; lia).
  rewrite wrap_id by (unfold word_ok; lia). lia.
Qed.

(** What [unpad] accepts is a padding, and it returns the length of its message. *)
Lemma unpad_sound p n :
  (2 * block ≤ length p)%nat → 8 * length p < 2 ^ 64 → unpad p block half = (true, n) →
  let m := take n p in
  length m = n ∧ kwp_sizes block half (length p) m ∧ p = kwp_pad half (length p) m.
Proof using H0 Hblock Hhalf.
  intros Hl Hp Hu m. destruct half_sizes as [H8 Hh].
  destruct (find_marker_spec p) as [(q & b & z & Ep & Hb & Hf)|[_ Hf]].
  2: { exfalso. unfold unpad in Hu. by rewrite Hf in Hu. }
  rewrite Ep in Hl, Hp, Hf, Hu. pose proof (unpad_at q b z Hb Hl Hp Hf) as [Ha _].
  rewrite Hu in Ha. destruct (Ha eq_refl) as (E & G & M & T & F).
  pose proof (unpad_len q b z ltac:(lia) Hp Hf) as Hn. rewrite Hu in Hn. cbn [snd] in Hn.
  rewrite <- Hn in *. rewrite <- Ep in *. pose proof (f_equal length Ep) as El. rewrite length_app in El. cbn [length] in El.
  rewrite length_replicate in El. assert (length m = n) as Hm by (unfold m; rewrite length_take; lia).
  split; [done|]. unfold kwp_sizes, kwp_pad. rewrite Hm. split; [lia|].
  rewrite <- F. unfold slice. replace (n + half - n)%nat with half by lia. rewrite app_assoc. unfold m.
  rewrite take_take_drop, Ep at 1. f_equal; [|rewrite E; do 2 f_equal; lia].
  rewrite Ep, take_app_le, take_ge by lia. done.
Qed.

(** [unpad] undoes the padding. *)
Lemma unpad_complete total m :
  kwp_sizes block half total m → 8 * total < 2 ^ 64 → (2 * block ≤ total)%nat →
  length (kwp_pad half total m) = total ∧ unpad (kwp_pad half total m) block half = (true, length m).
Proof using H0 Hblock Hhalf.
  intros (H1 & H2 & H3 & H4) Ht Hl. destruct half_sizes as [H8 Hh].
  set (q := m ++ to_le_bytes half (8 * length m)).
  assert (kwp_pad half total m = q ++ 0x80 :: replicate (total - length m - half - 1) 0) as Hp.
  { unfold kwp_pad, q. by rewrite <- app_assoc. }
  assert (length q = length m + half)%nat as Hq by (unfold q; by rewrite length_app, length_to_le_bytes).
  assert (length (kwp_pad half total m) = total) as Hlen.
  { rewrite Hp, length_app, Hq. cbn [length]. rewrite length_replicate. lia. }
  split; [done|].
  destruct (find_marker_spec (kwp_pad half total m)) as [(q' & b & z & Ep & Hb & Hf)|[E _]].
  2: { exfalso. rewrite Hp in E. assert (0x80 ∈ replicate (length (q ++ 0x80 :: replicate (total - length m - half - 1) 0)) 0) as Hin.
       { rewrite <- E. apply elem_of_app. right. apply list_elem_of_here. }
       apply elem_of_replicate in Hin as [Hin _]. done. }
  rewrite Hp in Ep. apply last_nonzero_inj in Ep as (<- & <- & Hz); [|done..]. rewrite Hp in Hlen, Hf |- *.
  rewrite (surjective_pairing (unpad _ _ _)). rewrite unpad_len by (done || lia). f_equal; [|lia].
  apply (unpad_at q 0x80); [done|lia|lia|done|]. split; [done|]. replace (length q - half)%nat with (length m) by lia.
  split; [lia|]. split; [done|]. split; [lia|]. unfold slice, q. rewrite <- app_assoc, drop_app_length.
  replace (length m + half - length m)%nat with half by lia. by rewrite take_app_length' by (by rewrite length_to_le_bytes).
Qed.
End unpad.

(** ** The lengths *)

Section kwp.
Context {K : Type} `{BlockCipherLaws K}.
Local Abbreviation bb := (block_bytes K).
Local Abbreviation half_bytes := (block_bytes K / 2)%nat.

Lemma div_ceil_spec n m : (0 < m)%nat → (n ≤ div_ceil n m * m < n + m)%nat.
Proof.
  intros Hm. unfold div_ceil. pose proof (Nat.div_mod_eq (n + m - 1) m).
  pose proof (Nat.mod_upper_bound (n + m - 1) m ltac:(lia)). lia.
Qed.

(** [wrapped_len] is the length of the padding and of one more block. *)
Lemma wrapped_len_spec n w :
  wrapped_len (K := K) n = Some w ↔
  ∃ total, w = (total + bb)%nat ∧ (total mod bb = 0)%nat ∧ (total / bb ≤ MAX_R)%nat ∧
    (bb < n)%nat ∧ (n mod bb ≠ 0)%nat ∧ (n + half_bytes < total)%nat ∧ (total ≤ n + half_bytes + bb)%nat.
Proof using H0.
  pose proof (block_bytes_pos (K := K)) as Hp. unfold wrapped_len.
  destruct (div_ceil_spec (n + half_bytes + 1) bb Hp) as [D1 D2]. set (P := (div_ceil _ _ * bb)%nat) in *.
  assert (P mod bb = 0)%nat as HP by apply Nat.Div0.mod_mul. clearbody P.
  destruct (Nat.leb_spec n bb); cbn [orb]; [split; [done|]; intros (t & ?); lia|].
  destruct (Nat.eqb_spec (n mod bb) 0); [split; [done|]; intros (t & ?); lia|].
  assert (∀ t, (t mod bb = 0)%nat → (n + half_bytes < t)%nat → (t ≤ n + half_bytes + bb)%nat → t = P) as Hu.
  { intros t Ht Hl1 Hl2. destruct (lt_eq_lt_dec t P) as [[Hlt|]|Hlt]; [|done|]; apply (aligned_step bb) in Hlt; try done; lia. }
  destruct (Nat.ltb_spec MAX_R (P / bb)).
  - split; [done|]. intros (t & _ & Ht & Hr & _ & _ & L1 & L2). rewrite (Hu t) in Hr by done. lia.
  - split.
    + intros [= <-]. exists P. repeat split; (done || lia).
    + intros (t & -> & Ht & _ & _ & _ & L1 & L2). by rewrite (Hu t).
Qed.

Lemma wrapped_sizes m w :
  wrapped_len (K := K) (length m) = Some w →
  let total := (w - bb)%nat in
  w = (total + bb)%nat ∧ (total mod bb = 0)%nat ∧ (total / bb ≤ MAX_R)%nat ∧ (2 * bb ≤ total)%nat ∧
  (total ≤ MAX_R * bb)%nat ∧ 8 * total < 2 ^ 64 ∧ kwp_sizes bb half_bytes total m.
Proof using H0.
  intros (t & -> & Ht & Hr & L1 & L2 & L3 & L4)%wrapped_len_spec. rewrite Nat.add_sub.
  pose proof (aligned_length_nat _ _ Ht) as El.
  assert (t ≤ MAX_R * bb)%nat as Hmax by (rewrite El; by apply Nat.mul_le_mono_r).
  assert (2 * bb ≤ t)%nat as H2b.
  { rewrite El. apply Nat.mul_le_mono_r. apply Nat.nlt_ge. intros Hlt. assert (t / bb ≤ 1)%nat as Hq by lia.
    pose proof (Nat.mul_le_mono_r _ _ bb Hq). lia. }
  split; [done|]. split; [done|]. split; [done|]. split; [done|]. split; [done|]. split; [|done].
  unfold MAX_R in Hmax. destruct (block_bytes_valid (K := K)) as [E | [E | E]]; rewrite E in Hmax; lia.
Qed.

(** The buffer that [wrap] fills holds the padding. *)
Lemma padded_buffer m total n :
  (8 ≤ half_bytes)%nat → (length m + half_bytes < total)%nat → (total ≤ n)%nat → 8 * length m < 2 ^ 64 →
  take total (<[(length m + half_bytes)%nat := 0x80]>
    (copy_at (length m) (to_le_bytes 8 (length m * 8)) (copy_at 0 m (replicate n 0)))) = kwp_pad half_bytes total m.
Proof.
  intros H8 Ht Hn Hm. rewrite copy_at_0 by (rewrite length_replicate; lia). rewrite drop_replicate.
  unfold copy_at. rewrite take_app_length, length_to_le_bytes, drop_app_ge, drop_replicate by lia.
  rewrite insert_app_r. rewrite insert_app_r_alt by (rewrite length_to_le_bytes; lia). rewrite length_to_le_bytes.
  replace (n - length m - (length m + 8 - length m))%nat with ((half_bytes - 8) + S (n - length m - half_bytes - 1))%nat by lia.
  rewrite replicate_add, insert_app_r_alt by (rewrite length_replicate; lia). rewrite length_replicate.
  replace (half_bytes - 8 - (half_bytes - 8))%nat with 0%nat by lia. cbn [replicate insert list_insert].
  unfold kwp_pad. rewrite (to_le_bytes_extend 8 half_bytes) by (unfold word_ok; lia).
  rewrite take_app_ge by lia. f_equal. rewrite <- app_assoc, take_app_ge by (rewrite length_to_le_bytes; lia).
  rewrite (Z.mul_comm 8). f_equal. rewrite length_to_le_bytes, take_app_ge by (rewrite length_replicate; lia).
  f_equal. rewrite length_replicate. replace (total - length m - 8 - (half_bytes - 8))%nat with (S (total - length m - half_bytes - 1)) by lia.
  cbn [take]. f_equal. rewrite take_replicate. f_equal. lia.
Qed.

Lemma kwp_wrap_spec k m out :
  wrapped_len (K := K) (length m) = Some (length out) →
  kwp_wrap_with_cipher k m out = wrap_with_cipher k (kwp_pad half_bytes (length out - bb) m) out.
Proof using H0.
  intros Hw. unfold kwp_wrap_with_cipher. rewrite bool_decide_eq_false_2 by tauto.
  destruct (wrapped_sizes m _ Hw) as (_ & _ & _ & _ & Hmax & H64 & (_ & _ & H3 & _)).
  f_equal. apply padded_buffer; [apply half_spec|lia|done|lia].
Qed.

(** The lengths that [unwrap] takes. *)
Definition kwp_unwrap_sizes (ct out : list Z) : Prop :=
  (3 * bb ≤ length ct)%nat ∧ (length ct mod bb = 0)%nat ∧ (length ct / bb - 1 ≤ 20)%nat ∧
  length out = (length ct - bb)%nat.
#[global] Instance kwp_unwrap_sizes_dec ct out : Decision (kwp_unwrap_sizes ct out).
Proof. unfold kwp_unwrap_sizes. apply _. Defined.

Lemma kwp_unwrap_refused `{Subtle} k ct out : ¬ kwp_unwrap_sizes ct out → kwp_unwrap_with_cipher k ct out = (out, Err InvalidLength).
Proof.
  intros Hv. unfold kwp_unwrap_with_cipher. destruct (_ || _) eqn:Hg; [done|]. exfalso. apply Hv.
  rewrite !orb_false_iff, !negb_false_iff, !Nat.eqb_eq, !Nat.ltb_ge in Hg. unfold MAX_R in Hg.
  unfold kwp_unwrap_sizes. tauto.
Qed.

Lemma kwp_unwrap_size_facts ct out :
  kwp_unwrap_sizes ct out →
  let r := (length ct / bb - 1)%nat in
  (1 ≤ r ≤ MAX_R)%nat ∧ length ct = ((r + 1) * bb)%nat ∧ length out = (r * bb)%nat ∧ (2 * bb ≤ length out)%nat ∧
  (length out ≤ MAX_R * bb)%nat ∧ 8 * length out < 2 ^ 64 ∧ (length out mod bb = 0)%nat ∧ length ct = (length out + bb)%nat.
Proof using H0.
  intros (L1 & L2 & L3 & L4) r. pose proof (block_bytes_pos (K := K)) as Hp.
  pose proof (aligned_length_nat _ _ L2) as El. assert (3 ≤ length ct / bb)%nat as Hq by (apply Nat.div_le_lower_bound; lia).
  assert (length ct / bb = r + 1)%nat as Er by (subst r; lia). rewrite Er in El.
  assert (length out = r * bb)%nat as Eo by lia. assert (length out ≤ MAX_R * bb)%nat as Hmax.
  { rewrite Eo. apply Nat.mul_le_mono_r. unfold MAX_R. lia. }
  assert (length out mod bb = 0)%nat as Hm by (rewrite Eo; apply Nat.Div0.mod_mul).
  split; [unfold MAX_R; lia|]. repeat split; try done; [lia| |lia].
  unfold MAX_R in Hmax. destruct (block_bytes_valid (K := K)) as [E | [E | E]]; rewrite E in Hmax; lia.
Qed.

(** [unwrap] unwraps into a buffer and copies the message of its padding. *)
Lemma kwp_unwrap_spec `{Subtle} `{!SubtleLaws} k ct out :
  kwp_unwrap_sizes ct out →
  ∀ head r, unwrap_with_cipher k ct (replicate (length out) 0) = (head, r) → length head = length out →
  kwp_unwrap_with_cipher k ct out =
    match r with
    | Err e => (replicate (length out) 0, Err e)
    | Ok _ =>
        let '(ok, len) := unpad head bb half_bytes in
        if ok then (take len head ++ replicate (length out - len) 0, Ok len)
        else (replicate (length out) 0, Err ChecksumMismatch)
    end.
Proof using H0.
  intros Hv head r Hu Hh. destruct (kwp_unwrap_size_facts ct out Hv) as (_ & _ & _ & _ & Hmax & _).
  unfold kwp_unwrap_with_cipher. destruct (_ || _) eqn:Hg.
  { exfalso. destruct Hv as (L1 & L2 & L3 & L4).
    rewrite !orb_true_iff, !negb_true_iff, !Nat.eqb_neq, !Nat.ltb_lt in Hg. unfold MAX_R in Hg. lia. }
  rewrite take_replicate, Nat.min_l, Hu by lia. destruct r as [[]|e]; [|done].
  rewrite copy_at_0 by (rewrite length_replicate; lia). rewrite take_app_length' by done.
  destruct (unpad head bb half_bytes) as [ok len].
  assert (∀ b, map (λ i, conditional_select 0 ((head ++ drop (length head) (replicate (MAX_R * bb) 0)).[i]) (ct_lt i len && b))
    (seq 0 (length out)) = if b : bool then take len head ++ replicate (length out - len) 0 else replicate (length out) 0) as Hc.
  2: { rewrite Hc. by destruct ok. }
  intros b. apply list_eq. intros i. rewrite map_fmap, list_lookup_fmap. destruct (decide (i < length out)%nat) as [Hi|Hi].
  2: { rewrite lookup_ge_None_2 by (rewrite length_seq; lia). symmetry. apply lookup_ge_None_2.
       destruct b; rewrite ?length_app, ?length_take, length_replicate; lia. }
  rewrite lookup_seq_lt by done. cbn [fmap option_fmap option_map]. rewrite conditional_select_spec, ct_lt_spec, Nat.add_0_l.
  destruct b; [rewrite andb_true_r|rewrite andb_false_r; by rewrite lookup_replicate_2].
  destruct (Z.ltb_spec i len).
  - rewrite app_nth1, nth_lookup, lookup_app_l by (rewrite ?length_take; lia). rewrite lookup_take_lt by lia.
    by destruct (lookup_lt_is_Some_2 head i) as [x ->]; [lia|].
  - rewrite lookup_app_r by (rewrite length_take; lia). rewrite lookup_replicate_2; [done|]. rewrite length_take. lia.
Qed.

(** What is wrapped is unwrapped. *)
Lemma kwp_wrap_unwrap `{Subtle} `{!SubtleLaws} k m out :
  key_ok k → bytes_ok m → wrapped_len (K := K) (length m) = Some (length out) →
  ∃ ct, kwp_wrap_with_cipher k m out = (ct, Ok tt) ∧ array_ok (length out) ct ∧
    ∀ out', length out' = (length ct - bb)%nat →
      kwp_unwrap_with_cipher k ct out' = (m ++ replicate (length out' - length m) 0, Ok (length m)).
Proof using H0.
  intros Hk Hb Hw. rewrite kwp_wrap_spec by done. pose proof (block_bytes_pos (K := K)) as Hp. destruct half_spec as [H8 Hh].
  destruct (wrapped_sizes m _ Hw) as (Eo & Hm & Hr & Hle & Hmax & H64 & Hs). set (total := (length out - bb)%nat) in *.
  destruct (unpad_complete bb half_bytes block_bytes_valid eq_refl total m Hs H64 Hle) as [Hl Hu].
  set (p := kwp_pad half_bytes total m) in *. assert (bytes_ok p) as Hpb.
  { unfold p, kwp_pad. apply Forall_app. split; [done|]. apply Forall_app. split; [apply to_le_bytes_ok|].
    constructor; [unfold word_ok; lia|]. apply Forall_replicate, byte_ok_0. }
  destruct (wrap_unwrap k p out Hk Hpb) as (ct & -> & [Hcl Hcb] & Hun).
  { split; [intros E; apply (f_equal length) in E; simpl in E; lia|]. rewrite Hl. unfold MAX_R in Hr. split; [done|]. split; [done|lia]. }
  exists ct. split; [done|]. rewrite Hl, <- Eo in Hcl. split; [done|]. intros out' Ho'.
  assert (length out' = total) as Ho by lia.
  assert (length ct = (total / bb + 1) * bb)%nat as Hcm by (rewrite Hcl, Eo, (aligned_length_nat _ _ Hm) at 1; lia).
  assert (kwp_unwrap_sizes ct out') as Hv.
  { split; [lia|]. rewrite Hcm, Nat.div_mul, Nat.Div0.mod_mul by lia. unfold MAX_R in Hr. split; [done|]. split; [lia|]. lia. }
  rewrite (kwp_unwrap_spec k ct out' Hv p (Ok tt)); [|apply Hun; rewrite length_replicate; lia|lia].
  rewrite Hu. f_equal. unfold p, kwp_pad. by rewrite take_app_length.
Qed.
End kwp.

(** Messages longer than a block, not a whole number of blocks and within the limit of 20 blocks are
    wrapped to [wrapped_len] bytes and unwrapped to themselves, the rest of the output zero; every
    other message, and every other output length, is refused and the output left as it was. *)
Theorem kwp_roundtrip {K} `{BlockCipherLaws K} `{SubtleLaws} (key m out : list Z) :
  array_ok (key_bytes K) key → bytes_ok m →
  if decide (wrapped_len (K := K) (length m) = Some (length out)) then
    ∃ ct, kwp_wrap key m out = Some (ct, Ok tt) ∧ array_ok (length out) ct ∧
      ∀ out', length out' = (length ct - block_bytes K)%nat →
        kwp_unwrap key ct out' = Some (m ++ replicate (length out' - length m) 0, Ok (length m))
  else kwp_wrap key m out = Some (out, Err InvalidLength).
Proof.
  intros Hkey Hb. destruct (expanded_new_ok key Hkey) as (k & He & Hk).
  unfold kwp_wrap, kwp_unwrap. rewrite He. cbn [mbind option_bind]. case_decide as Hv.
  - destruct (kwp_wrap_unwrap k m out Hk Hb Hv) as (ct & -> & Hct & Hu). exists ct. split; [done|]. split; [done|].
    intros out' Ho'. by rewrite Hu.
  - unfold kwp_wrap_with_cipher. by rewrite bool_decide_eq_true_2.
Qed.

Lemma kwp_roundtrip_witness :
  let _ := plain_subtle in
  (∃ ct, kwp_wrap (K := ExpandedKey Kalyna128_128) (seqZ 0 16) (seqZ 0 20) (replicate 48 0) = Some (ct, Ok tt) ∧ array_ok 48 ct ∧
    ∀ out', length out' = (length ct - 16)%nat →
      kwp_unwrap (K := ExpandedKey Kalyna128_128) (seqZ 0 16) ct out' = Some (seqZ 0 20 ++ replicate (length out' - 20) 0, Ok 20%nat)) ∧
  kwp_wrap (K := ExpandedKey Kalyna128_128) (seqZ 0 16) (seqZ 0 16) (replicate 48 7) = Some (replicate 48 7, Err InvalidLength).
Proof.
  split.
  - refine (@kwp_roundtrip (ExpandedKey Kalyna128_128) _ _ plain_subtle plain_subtle_laws (seqZ 0 16) (seqZ 0 20) (replicate 48 0) _ _); by_decision.
  - refine (@kwp_roundtrip (ExpandedKey Kalyna128_128) _ _ plain_subtle plain_subtle_laws (seqZ 0 16) (seqZ 0 16) (replicate 48 7) _ _); by_decision.
Defined.

Lemma kwp_unwrap_all {K} `{BlockCipherLaws K} `{SubtleLaws} (key ct out : list Z) :
  array_ok (key_bytes K) key → bytes_ok ct →
  if decide (kwp_unwrap_sizes (K := K) ct out) then
    (∃ m, bytes_ok m ∧ kwp_unwrap key ct out = Some (m ++ replicate (length out - length m) 0, Ok (length m)) ∧
      ∀ out', length out' = length ct → kwp_wrap key m out' = Some (ct, Ok tt)) ∨
    (kwp_unwrap key ct out = Some (replicate (length out) 0, Err ChecksumMismatch) ∧
      ∀ m out', bytes_ok m → kwp_wrap key m out' ≠ Some (ct, Ok tt))
  else kwp_unwrap key ct out = Some (out, Err InvalidLength).
Proof.
  intros Hkey Hb. destruct (expanded_new_ok key Hkey) as (k & He & Hk).
  unfold kwp_wrap, kwp_unwrap. rewrite He. cbn [mbind option_bind].
  case_decide as Hv; [|by rewrite kwp_unwrap_refused].
  destruct (kwp_unwrap_size_facts ct out Hv) as (Hr & Hcl & Ho & H2b & Hmax & H64 & Hm & Hco).
  set (r := (length ct / block_bytes K - 1)%nat) in *.
  assert (kwp_unwrap_with_cipher k ct out = (replicate (length out) 0, Err ChecksumMismatch) →
    ∀ m out', bytes_ok m → Some (kwp_wrap_with_cipher k m out') ≠ Some (ct, Ok tt)) as Hrej.
  { intros Hu m out' Hmb Hw. injection Hw as Hw. destruct (decide (wrapped_len (K := K) (length m) = Some (length out'))) as [Hl|Hl].
    - destruct (kwp_wrap_unwrap k m out' Hk Hmb Hl) as (ct' & Hw' & _ & Hun). rewrite Hw' in Hw. injection Hw as ->.
      specialize (Hun out ltac:(lia)). by rewrite Hu in Hun.
    - unfold kwp_wrap_with_cipher in Hw. by rewrite bool_decide_eq_true_2 in Hw. }
  assert (array_ok ((2 * r + 2) * (block_bytes K / 2)) ct) as Hx.
  { split; [|done]. rewrite Hcl. destruct (half_spec (K := K)). nia. }
  destruct (kw_encipher_inverse k Hk (2 * r + 2) _ ltac:(lia) Hx) as (_ & _ & [Hdl Hdb] & Hd).
  destruct Hx as [Hxl _]. rewrite <- Hxl in Hdl.
  pose proof (unwrap_spec k Hk ct (replicate (length out) 0) r Hr (conj Hcl Hb) ltac:(by rewrite length_replicate)) as Hu.
  case_decide as E.
  2: { right. pose proof (kwp_unwrap_spec k ct out Hv _ _ Hu ltac:(by rewrite length_replicate)) as Hf. cbn [negb] in Hf.
       rewrite Hf. split; [done|]. by apply Hrej. }
  set (p := take (r * block_bytes K) (kw_decipher k ct)) in *. assert (length p = length out) as Hpl by (unfold p; rewrite length_take; lia).
  pose proof (kwp_unwrap_spec k ct out Hv _ _ Hu Hpl) as Hf. cbn beta iota in Hf.
  destruct (unpad p (block_bytes K) (block_bytes K / 2)) as [[] n] eqn:Hup; rewrite Hf in *.
  2: { right. split; [done|]. by apply Hrej. }
  left. exists (take n p). destruct (unpad_sound _ _ block_bytes_valid eq_refl p n ltac:(lia) ltac:(lia) Hup) as (Hn & Hs & Hpad).
  split; [by apply Forall_take, Forall_take|]. rewrite Hn. split; [done|]. intros out' Ho'. f_equal. rewrite Hpl in *. destruct Hs as (S1 & S2 & S3 & S4).
  rewrite kwp_wrap_spec.
  - replace (length out' - block_bytes K)%nat with (length out) by lia. rewrite <- Hpad.
    rewrite (wrap_spec k Hk p out' r); [|done| |lia].
    + unfold p. rewrite <- E, take_drop. by rewrite Hd.
    + split; [lia|]. by apply Forall_take.
  - apply wrapped_len_spec. exists (length out). split; [lia|]. split; [done|]. split; [|done].
    rewrite Ho, Nat.div_mul by (pose proof (block_bytes_pos (K := K)); lia). lia.
Qed.

(** The strict unwrap: a text is accepted only when the message returned wraps to that very text; any
    other text of a valid length wipes the output, reports the mismatch and is the wrapping of no
    message. *)
Theorem kwp_unwrap_exact {K} `{BlockCipherLaws K} `{SubtleLaws} (key ct out : list Z) :
  array_ok (key_bytes K) key → bytes_ok ct →
  if decide (kwp_unwrap_sizes (K := K) ct out) then
    (∃ m, bytes_ok m ∧ kwp_unwrap key ct out = Some (m ++ replicate (length out - length m) 0, Ok (length m)) ∧
      ∀ out', length out' = length ct → kwp_wrap key m out' = Some (ct, Ok tt)) ∨
    (kwp_unwrap key ct out = Some (replicate (length out) 0, Err ChecksumMismatch) ∧
      ∀ m out', bytes_ok m → kwp_wrap key m out' ≠ Some (ct, Ok tt))
  else kwp_unwrap key ct out = Some (out, Err InvalidLength).
Proof. apply kwp_unwrap_all. Qed.

Lemma kwp_unwrap_exact_witness :
  let _ := plain_subtle in
  (∃ m, bytes_ok m ∧ kwp_unwrap (K := ExpandedKey Kalyna128_128) (seqZ 0 16) (seqZ 0 48) (replicate 32 1) = Some (m ++ replicate (32 - length m) 0, Ok (length m)) ∧
    ∀ out', length out' = 48%nat → kwp_wrap (K := ExpandedKey Kalyna128_128) (seqZ 0 16) m out' = Some (seqZ 0 48, Ok tt)) ∨
  (kwp_unwrap (K := ExpandedKey Kalyna128_128) (seqZ 0 16) (seqZ 0 48) (replicate 32 1) = Some (replicate 32 0, Err ChecksumMismatch) ∧
    ∀ m out', bytes_ok m → kwp_wrap (K := ExpandedKey Kalyna128_128) (seqZ 0 16) m out' ≠ Some (seqZ 0 48, Ok tt)).
Proof.
  refine (@kwp_unwrap_exact (ExpandedKey Kalyna128_128) _ _ plain_subtle plain_subtle_laws (seqZ 0 16) (seqZ 0 48) (replicate 32 1) _ _);
    by_decision.
Defined.
