(* ===== verification/Xts.v ===== *)
(** The XTS mode over any block cipher of the interface ([hazmat/kalyna_xts.rs]). *)

From S2P Require Import Prelude External BlockCipher Poly2 Gf2mWide Ghash Kalyna.

Inductive XtsError : Type := InvalidLength.

Definition xor_block (buf other : list Z) : list Z := xor_into buf other.

Section xts.
Context {K : Type} `{BlockCipher K} `{!FieldOf K}.
Local Abbreviation bb := (block_bytes K).
Local Abbreviation g := (gf_of K).

Record Xts := { key : K }.

Definition new (raw : list Z) : option Xts := k ← expanded_new K raw; Some {| key := k |}.

(** A block under the tweak [gamma], with the cipher's encryption or decryption [f]. *)
Definition xts_block (f : list Z → list Z) (gamma block : list Z) : list Z :=
  let block := xor_block block (gf_to_le_bytes gamma) in
  let block := f block in
  xor_block block (gf_to_le_bytes gamma).

(** The loop body, on the block at [off]: the next tweak, then the block in place. *)
Definition xts_step (f : list Z → list Z) (s : list Z * list Z) (off : nat) : list Z * list Z :=
  let '(gamma, buffer) := s in
  let gamma := double g gamma in
  (gamma, copy_at off (xts_block f gamma (slice off (off + bb) buffer)) buffer).

(** [while off < n { .. off += block_bytes; }]; the fuel [n] is enough. *)
Fixpoint xts_while (f : list Z → list Z) (fuel off n : nat) (s : list Z * list Z) : list Z * list Z :=
  match fuel with
  | O => s
  | S fuel => if Nat.ltb off n then xts_while f fuel (off + bb) n (xts_step f s off) else s
  end.

(** [for i in 0..count { .. }] on the blocks at [i * block_bytes]. *)
Definition xts_for (f : list Z → list Z) (count : nat) (s : list Z * list Z) : list Z * list Z :=
  foldl (λ s i, xts_step f s (i * bb)) s (seq 0 count).

Definition encrypt_in_place (self : Xts) (iv buffer : list Z) : list Z * result unit XtsError :=
  let n := length buffer in
  if Nat.ltb n bb then (buffer, Err InvalidLength)
  else
    let gamma := gf_from_le_bytes g (encrypt_block (key self) iv) in
    let k := (n / bb)%nat in
    let r := (n mod bb)%nat in
    if Nat.eqb r 0 then
      let '(gamma, buffer) := xts_while (encrypt_block (key self)) n 0 n (gamma, buffer) in
      (buffer, Ok tt)
    else
      let '(gamma, buffer) := xts_for (encrypt_block (key self)) k (gamma, buffer) in
      let last_off := ((k - 1) * bb)%nat in
      let tail_off := (k * bb)%nat in
      let scratch := slice last_off (last_off + bb) buffer in
      let combined := replicate bb 0 in
      let combined := copy_at 0 (slice tail_off (tail_off + r) buffer) combined in
      let combined := copy_at r (drop r scratch) combined in
      let gamma := double g gamma in
      let combined := xts_block (encrypt_block (key self)) gamma combined in
      let buffer := copy_at last_off combined buffer in
      let buffer := copy_at tail_off (take r scratch) buffer in
      (buffer, Ok tt).

Definition decrypt_in_place (self : Xts) (iv buffer : list Z) : list Z * result unit XtsError :=
  let n := length buffer in
  if Nat.ltb n bb then (buffer, Err InvalidLength)
  else
    let gamma := gf_from_le_bytes g (encrypt_block (key self) iv) in
    let k := (n / bb)%nat in
    let r := (n mod bb)%nat in
    if Nat.eqb r 0 then
      let '(gamma, buffer) := xts_while (decrypt_block (key self)) n 0 n (gamma, buffer) in
      (buffer, Ok tt)
    else
      let '(gamma, buffer) := xts_for (decrypt_block (key self)) (k - 1) (gamma, buffer) in
      let gamma := double g gamma in
      let gamma_k := gamma in
      let gamma_k_plus_1 := double g gamma in
      let last_off := ((k - 1) * bb)%nat in
      let tail_off := (k * bb)%nat in
      let combined := slice last_off (last_off + bb) buffer in
      let combined := xts_block (decrypt_block (key self)) gamma_k_plus_1 combined in
      let reconstructed := replicate bb 0 in
      let reconstructed := copy_at 0 (slice tail_off (tail_off + r) buffer) reconstructed in
      let reconstructed := copy_at r (drop r combined) reconstructed in
      let reconstructed := xts_block (decrypt_block (key self)) gamma_k reconstructed in
      let buffer := copy_at last_off reconstructed buffer in
      let buffer := copy_at tail_off (take r combined) buffer in
      (buffer, Ok tt).
End xts.
Arguments Xts K : clear implicits.

(** ** The specification *)

Section spec.
Context {K : Type} `{BlockCipher K} `{!FieldOf K}.
Local Abbreviation bb := (block_bytes K).

(** The tweak of block [i], counted from 1: [T * x^i]. *)
Definition tweak (t : list Z) (i : nat) : list Z := Nat.iter i (double (gf_of K)) t.

(** Whole blocks from number [i] on, each under its own tweak. *)
Fixpoint xts_blocks (f : list Z → list Z) (t : list Z) (i : nat) (cs : list (list Z)) : list (list Z) :=
  match cs with
  | [] => []
  | c :: cs => xts_block f (tweak t i) c :: xts_blocks f t (S i) cs
  end.

(** The last two pieces, [last] a whole block and [tail] not empty: the ciphertext of [last] lends
    its end to [tail], and its start becomes the short piece.  [f] is applied to [last] under the tweak
    [a], to the completed [tail] under [b]. *)
Definition steal (f : list Z → list Z) (a b last tail : list Z) : list Z :=
  let c := xts_block f a last in
  xts_block f b (tail ++ drop (length tail) c) ++ take (length tail) c.

(** The mode: [a] and [b] are the numbers of the tweaks of the last two pieces, in the order of their use. *)
Definition xts_spec (f : list Z → list Z) (order : nat → nat * nat) (t buf : list Z) : list Z :=
  let k := (length buf / bb)%nat in
  if decide (length buf mod bb = 0)%nat then concat (xts_blocks f t 1 (chunks_exact bb buf))
  else
    concat (xts_blocks f t 1 (chunks_exact bb (take ((k - 1) * bb) buf))) ++
    steal f (tweak t (order k).1) (tweak t (order k).2) (slice ((k - 1) * bb) (k * bb) buf) (drop (k * bb) buf).

Definition encrypt_order (k : nat) : nat * nat := (k, S k).
Definition decrypt_order (k : nat) : nat * nat := (S k, k).
End spec.

Section lemmas.
Context {K : Type} `{BlockCipherLaws K} `{!FieldOf K}.
Local Abbreviation bb := (block_bytes K).
Local Abbreviation g := (gf_of K).

Lemma tweak_ok t i : elem_ok g t → elem_ok g (tweak (K := K) t i).
Proof. intros Ht. induction i as [|i IH]; [done|]. simpl. by apply double_ok. Qed.

Lemma tweak_bytes t i : elem_ok g t → array_ok bb (gf_to_le_bytes (tweak (K := K) t i)).
Proof. intros Ht. rewrite gf_of_bytes. by apply gf_to_le_bytes_ok, tweak_ok. Qed.

Section block.
Context (f h : list Z → list Z) (t : list Z).
Hypothesis Hf : ∀ b, array_ok bb b → array_ok bb (f b) ∧ h (f b) = b.
Hypothesis Ht : elem_ok g t.

Lemma xts_block_ok i c : array_ok bb c → array_ok bb (xts_block f (tweak (K := K) t i) c).
Proof using Hf Ht H0.
  intros Hc. pose proof (tweak_bytes t i Ht) as [_ Hb]. unfold xts_block, xor_block.
  apply array_ok_xor_into; [|done]. apply Hf. by apply array_ok_xor_into.
Qed.

Lemma xts_block_inverse i c :
  array_ok bb c → xts_block h (tweak (K := K) t i) (xts_block f (tweak (K := K) t i) c) = c.
Proof using Hf Ht H0.
  intros Hc. pose proof (tweak_bytes t i Ht) as [_ Hb]. unfold xts_block, xor_block.
  rewrite xor_into_cancel. rewrite (proj2 (Hf _ ltac:(by apply array_ok_xor_into))). apply xor_into_cancel.
Qed.

Lemma xts_blocks_ok i cs :
  Forall (array_ok bb) cs →
  Forall (array_ok bb) (xts_blocks (K := K) f t i cs) ∧ length (xts_blocks (K := K) f t i cs) = length cs ∧
  xts_blocks (K := K) h t i (xts_blocks (K := K) f t i cs) = cs.
Proof using Hf Ht H0.
  intros Hcs. revert i. induction Hcs as [|c cs Hc Hcs IH]; intros i; cbn [xts_blocks length]; [by split|].
  destruct (IH (S i)) as (H1 & H2 & H3). rewrite xts_block_inverse, H2, H3 by done.
  split; [|done]. constructor; [by apply xts_block_ok|done].
Qed.

(** Stealing and stealing back. *)
Lemma steal_ok a last tail :
  array_ok bb last → bytes_ok tail → (length tail < bb)%nat →
  array_ok bb (tail ++ drop (length tail) (xts_block f (tweak (K := K) t a) last)).
Proof using Hf Ht H0.
  intros Hl Hb Hlt. pose proof (array_ok_drop (length tail) _ _ (xts_block_ok a last Hl)) as Hd.
  pose proof (array_ok_app _ _ _ _ (conj eq_refl Hb) Hd) as Ha. by replace (length tail + (bb - length tail))%nat with bb in Ha by lia.
Qed.

Lemma steal_inverse a b last tail :
  array_ok bb last → bytes_ok tail → (length tail < bb)%nat →
  let s := steal f (tweak (K := K) t a) (tweak (K := K) t b) last tail in
  array_ok (bb + length tail) s ∧
  steal h (tweak (K := K) t b) (tweak (K := K) t a) (take bb s) (drop bb s) = last ++ tail.
Proof using Hf Ht H0.
  intros Hl Hb Hlt s. pose proof (steal_ok a last tail Hl Hb Hlt) as Hc. pose proof (xts_block_ok a last Hl) as Hx.
  pose proof (xts_block_ok b _ Hc) as Hy. unfold s, steal. set (c := xts_block f (tweak t a) last) in *.
  set (y := xts_block f (tweak t b) _) in *. split.
  - apply array_ok_app; [done|]. apply (array_ok_take _ bb); [done|lia].
  - rewrite take_app_length', drop_app_length' by (by rewrite (array_ok_length _ _ Hy)). subst y. rewrite xts_block_inverse by done.
    assert (length (take (length tail) c) = length tail) as -> by (rewrite length_take, (array_ok_length _ _ Hx); lia).
    rewrite drop_app_length, take_app_length, take_drop. unfold c. by rewrite xts_block_inverse.
Qed.

(** The loops run over the blocks. *)
Lemma xts_step_at i pre c rest :
  length pre = (i * bb)%nat → array_ok bb c →
  xts_step f (tweak (K := K) t i, pre ++ c ++ rest) (i * bb) =
    (tweak (K := K) t (S i), (pre ++ xts_block f (tweak (K := K) t (S i)) c) ++ rest).
Proof using Hf Ht H0.
  intros Hp Hc. unfold xts_step. change (double g (tweak (K := K) t i)) with (tweak (K := K) t (S i)).
  rewrite <- Hp. rewrite (slice_app pre c rest) by (done || by rewrite (array_ok_length _ _ Hc)). f_equal.
  unfold copy_at. rewrite take_app_length, (array_ok_length _ _ (xts_block_ok (S i) c Hc)), <- drop_drop, drop_app_length.
  rewrite drop_app_length' by (by rewrite (array_ok_length _ _ Hc)). by rewrite app_assoc.
Qed.

Lemma xts_for_blocks i pre cs rest :
  length pre = (i * bb)%nat → Forall (array_ok bb) cs →
  foldl (λ s i, xts_step f s (i * bb)) (tweak (K := K) t i, pre ++ concat cs ++ rest) (seq i (length cs)) =
    (tweak (K := K) t (i + length cs), pre ++ concat (xts_blocks (K := K) f t (S i) cs) ++ rest).
Proof using Hf Ht H0.
  intros Hp Hcs. revert i pre Hp. induction Hcs as [|c cs Hc Hcs IH]; intros i pre Hp; cbn [length seq foldl concat xts_blocks].
  { by rewrite Nat.add_0_r. }
  rewrite <- app_assoc, xts_step_at, IH by (done || (rewrite length_app, Hp, (array_ok_length _ _ (xts_block_ok (S i) c Hc)); lia)).
  rewrite Nat.add_succ_r, <- !app_assoc. done.
Qed.

Lemma xts_for_spec cs rest :
  Forall (array_ok bb) cs →
  xts_for f (length cs) (t, concat cs ++ rest) =
    (tweak (K := K) t (length cs), concat (xts_blocks (K := K) f t 1 cs) ++ rest).
Proof using Hf Ht H0. intros Hcs. by apply (xts_for_blocks 0 [] cs rest). Qed.

(** The [while] loop is the [for] loop. *)
Lemma xts_while_for fuel i count s :
  (count ≤ fuel)%nat → xts_while f fuel (i * bb) ((i + count) * bb) s = foldl (λ s i, xts_step f s (i * bb)) s (seq i count).
Proof using H0.
  pose proof (block_bytes_pos (K := K)) as Hp.
  revert i count s. induction fuel as [|fuel IH]; intros i count s Hc.
  { destruct count; [done|lia]. }
  cbn [xts_while]. destruct count as [|count].
  - by rewrite Nat.add_0_r, Nat.ltb_irrefl.
  - rewrite (proj2 (Nat.ltb_lt _ _)) by (apply Nat.mul_lt_mono_pos_r; lia). cbn [seq foldl].
    rewrite <- (IH (S i) count) by lia. f_equal; lia.
Qed.
End block.

Lemma xts_blocks_snoc f t i cs c :
  xts_blocks (K := K) f t i (cs ++ [c]) = xts_blocks (K := K) f t i cs ++ [xts_block f (tweak (K := K) t (i + length cs)) c].
Proof.
  revert i. induction cs as [|x cs IH]; intros i; simpl; [by rewrite Nat.add_0_r|]. rewrite IH. by rewrite Nat.add_succ_r.
Qed.

(** Assembling a block from the tail and the end of another block. *)
Lemma combine_tail (tail scratch : list Z) :
  length scratch = bb → (length tail ≤ bb)%nat →
  copy_at (length tail) (drop (length tail) scratch) (copy_at 0 tail (replicate bb 0)) = tail ++ drop (length tail) scratch.
Proof.
  intros Hs Ht. rewrite copy_at_0 by (rewrite length_replicate; lia). unfold copy_at. rewrite take_app_length.
  f_equal. rewrite (drop_ge (tail ++ _)); [apply app_nil_r|]. rewrite length_app, !length_drop, length_replicate. lia.
Qed.

(** Writing the last two pieces back. *)
Lemma store_tail (pre old new tail piece : list Z) :
  length old = length new → length piece = length tail →
  copy_at (length pre + length old) piece (copy_at (length pre) new (pre ++ old ++ tail)) = pre ++ new ++ piece.
Proof.
  intros Ho Hp. unfold copy_at at 2. rewrite take_app_length, <- drop_drop, drop_app_length, drop_app_length' by done.
  unfold copy_at. rewrite (app_assoc pre new), take_app_length' by (rewrite length_app; lia).
  rewrite (drop_ge ((pre ++ new) ++ tail)) by (rewrite !length_app; lia). by rewrite app_nil_r, <- app_assoc.
Qed.

(** The parts of a buffer that is not a whole number of blocks. *)
Lemma xts_parts buf :
  bytes_ok buf → (bb ≤ length buf)%nat → (length buf mod bb ≠ 0)%nat →
  let k := (length buf / bb)%nat in
  let cs := chunks_exact bb (take ((k - 1) * bb) buf) in
  let last := slice ((k - 1) * bb) (k * bb) buf in
  let tail := drop (k * bb) buf in
  buf = concat cs ++ last ++ tail ∧ Forall (array_ok bb) cs ∧ length cs = (k - 1)%nat ∧ (1 ≤ k)%nat ∧
  array_ok bb last ∧ bytes_ok tail ∧ length tail = (length buf mod bb)%nat ∧ (length tail < bb)%nat.
Proof using H0.
  intros Hb Hl Hm k cs last tail. pose proof (block_bytes_pos (K := K)) as Hp.
  pose proof (Nat.div_mod_eq (length buf) bb) as Ed. pose proof (Nat.mod_upper_bound (length buf) bb ltac:(lia)) as Hr.
  assert (1 ≤ k)%nat as Hk by (apply Nat.div_le_lower_bound; lia). fold k in Ed.
  assert (k * bb = (k - 1) * bb + bb)%nat as Ek by nia.
  assert (length (take ((k - 1) * bb) buf) = (k - 1) * bb)%nat as Ht by (rewrite length_take; nia).
  assert (concat cs = take ((k - 1) * bb) buf) as Hc by (apply concat_chunks_aligned; rewrite Ht; apply Nat.Div0.mod_mul).
  assert (array_ok bb last) as Hla.
  { unfold last, slice. split; [rewrite length_take, length_drop; nia|by apply Forall_take, Forall_drop]. }
  assert (length tail = length buf mod bb)%nat as Htl by (unfold tail; rewrite length_drop; nia).
  split; [|split; [|split; [|split; [done|split; [done|split; [by apply Forall_drop|split; [done|lia]]]]]]].
  - rewrite Hc. unfold last, tail, slice. replace (k * bb - (k - 1) * bb)%nat with bb by lia.
    rewrite Ek, <- drop_drop, take_drop. by rewrite take_drop.
  - apply chunks_exact_ok; [done|by apply Forall_take].
  - unfold cs, chunks_exact. by rewrite length_chunks_n, Ht, Nat.div_mul by lia.
Qed.

Context (self : Xts K) (iv : list Z) (Hk : key_ok (key self)) (Hiv : array_ok bb iv).
Local Abbreviation t0 := (gf_from_le_bytes g (encrypt_block (key self) iv)).

Lemma t0_ok : elem_ok g t0.
Proof using Hk Hiv H0. apply block_elem_ok. by apply encrypt_block_ok. Qed.

Lemma enc_inverse b : array_ok bb b → array_ok bb (encrypt_block (key self) b) ∧ decrypt_block (key self) (encrypt_block (key self) b) = b.
Proof using Hk H0. intros Hb. split; [by apply encrypt_block_ok|by apply decrypt_encrypt_block]. Qed.

Lemma dec_inverse b : array_ok bb b → array_ok bb (decrypt_block (key self) b) ∧ encrypt_block (key self) (decrypt_block (key self) b) = b.
Proof using Hk H0. intros Hb. split; [by apply decrypt_block_ok|by apply encrypt_decrypt_block]. Qed.

Lemma xts_aligned f h buf :
  (∀ b, array_ok bb b → array_ok bb (f b) ∧ h (f b) = b) → bytes_ok buf → (length buf mod bb = 0)%nat →
  xts_while f (length buf) 0 (length buf) (t0, buf) =
    (tweak (K := K) t0 (length buf / bb), concat (xts_blocks (K := K) f t0 1 (chunks_exact bb buf))).
Proof using Hk Hiv H0.
  intros Hf Hb Hm. pose proof (block_bytes_pos (K := K)) as Hp. pose proof (aligned_length_nat _ _ Hm) as Hl.
  pose proof (xts_while_for f (length buf) 0 (length buf / bb) (t0, buf)) as Hw.
  rewrite Nat.add_0_l, <- Hl, Nat.mul_0_l in Hw. rewrite Hw by (apply Nat.Div0.div_le_upper_bound; nia).
  pose proof (xts_for_spec f h t0 Hf t0_ok (chunks_exact bb buf) [] (chunks_exact_ok bb buf Hp Hb)) as Hs.
  rewrite app_nil_r, concat_chunks_aligned, app_nil_r in Hs by done.
  assert (length (chunks_exact bb buf) = length buf / bb)%nat as Hn by apply length_chunks_n. rewrite Hn in Hs. exact Hs.
Qed.

(** [encrypt_in_place] is the mode of the standard. *)
Lemma xts_encrypt_spec buf :
  bytes_ok buf → (bb ≤ length buf)%nat →
  encrypt_in_place self iv buf = (xts_spec (encrypt_block (key self)) encrypt_order t0 buf, Ok tt).
Proof using Hk Hiv H0.
  intros Hb Hl. unfold encrypt_in_place, xts_spec. rewrite (proj2 (Nat.ltb_ge _ _) Hl).
  destruct (Nat.eqb_spec (length buf mod bb) 0) as [Hm|Hm].
  { rewrite decide_True by done. by rewrite (xts_aligned _ _ buf enc_inverse). }
  rewrite decide_False by done. destruct (xts_parts buf Hb Hl Hm) as (Eb & Hcs & Hlc & Hk1 & Hla & Htb & Htl & Htlt).
  set (k := (length buf / bb)%nat) in *. set (cs := chunks_exact bb _) in *. set (last := slice _ _ buf) in *.
  set (tail := drop (k * bb) buf) in *. rewrite <- Htl. clearbody cs last tail. rewrite Eb at 1.
  pose proof (xts_for_spec _ _ t0 enc_inverse t0_ok (cs ++ [last]) tail ltac:(apply Forall_app; auto)) as Hfor.
  rewrite length_app, Hlc, concat_app, xts_blocks_snoc, concat_app, Hlc in Hfor. cbn [length concat] in Hfor.
  rewrite !app_nil_r, <- !app_assoc in Hfor. replace (k - 1 + 1)%nat with k in Hfor by lia. rewrite Hfor.
  replace (1 + (k - 1))%nat with k by lia. destruct (xts_blocks_ok _ _ t0 enc_inverse t0_ok 1 cs Hcs) as (Hbo & Hbl & _).
  set (cts := xts_blocks (encrypt_block (key self)) t0 1 cs) in *. pose proof (xts_block_ok _ _ t0 enc_inverse t0_ok k last Hla) as Hc.
  pose proof (steal_ok _ _ t0 enc_inverse t0_ok k last tail Hla Htb Htlt) as Hco.
  unfold steal, encrypt_order. cbn [fst snd]. set (c := xts_block (encrypt_block (key self)) (tweak t0 k) last) in *.
  assert (length (concat cts) = (k - 1) * bb)%nat as Hpl.
  { rewrite (length_concat_const bb), Hbl, Hlc; [done|]. eapply Forall_impl; [exact Hbo|]. by intros ? []. }
  pose proof (array_ok_length _ _ Hc) as Hcl. replace (k * bb)%nat with (length (concat cts) + length c)%nat by (rewrite Hpl, Hcl; nia).
  rewrite <- Hpl, <- Hcl. rewrite (slice_app (concat cts) c tail) by done.
  rewrite (app_assoc (concat cts)), (slice_app_end (concat cts ++ c) tail) by (rewrite length_app; done).
  rewrite <- app_assoc, Hcl, combine_tail by (done || lia). f_equal. rewrite <- Hcl. apply store_tail.
  - rewrite Hcl. symmetry. apply array_ok_length. by apply (xts_block_ok _ _ t0 enc_inverse t0_ok (S k)).
  - rewrite length_take. lia.
Qed.

Lemma xts_decrypt_spec buf :
  bytes_ok buf → (bb ≤ length buf)%nat →
  decrypt_in_place self iv buf = (xts_spec (decrypt_block (key self)) decrypt_order t0 buf, Ok tt).
Proof using Hk Hiv H0.
  intros Hb Hl. unfold decrypt_in_place, xts_spec. rewrite (proj2 (Nat.ltb_ge _ _) Hl).
  destruct (Nat.eqb_spec (length buf mod bb) 0) as [Hm|Hm].
  { rewrite decide_True by done. by rewrite (xts_aligned _ _ buf dec_inverse). }
  rewrite decide_False by done. destruct (xts_parts buf Hb Hl Hm) as (Eb & Hcs & Hlc & Hk1 & Hla & Htb & Htl & Htlt).
  set (k := (length buf / bb)%nat) in *. set (cs := chunks_exact bb _) in *. set (last := slice _ _ buf) in *.
  set (tail := drop (k * bb) buf) in *. rewrite <- Htl. clearbody cs last tail. rewrite Eb at 1.
  pose proof (xts_for_spec _ _ t0 dec_inverse t0_ok cs (last ++ tail) Hcs) as Hfor. rewrite Hlc in Hfor. rewrite Hfor.
  change (double g (tweak t0 (k - 1))) with (tweak (K := K) t0 (S (k - 1))). replace (S (k - 1)) with k by lia.
  change (double g (tweak t0 k)) with (tweak (K := K) t0 (S k)).
  destruct (xts_blocks_ok _ _ t0 dec_inverse t0_ok 1 cs Hcs) as (Hbo & Hbl & _).
  set (cts := xts_blocks (decrypt_block (key self)) t0 1 cs) in *. pose proof (xts_block_ok _ _ t0 dec_inverse t0_ok (S k) last Hla) as Hc.
  pose proof (steal_ok _ _ t0 dec_inverse t0_ok (S k) last tail Hla Htb Htlt) as Hco.
  unfold steal, decrypt_order. cbn [fst snd].
  assert (length (concat cts) = (k - 1) * bb)%nat as Hpl.
  { rewrite (length_concat_const bb), Hbl, Hlc; [done|]. eapply Forall_impl; [exact Hbo|]. by intros ? []. }
  pose proof (array_ok_length _ _ Hla) as Hll. replace (k * bb)%nat with (length (concat cts) + length last)%nat by (rewrite Hpl, Hll; nia).
  rewrite <- Hpl, <- Hll. rewrite (slice_app (concat cts) last tail) by done.
  set (c := xts_block (decrypt_block (key self)) (tweak t0 (S k)) last) in *. pose proof (array_ok_length _ _ Hc) as Hcl.
  rewrite (app_assoc (concat cts)), (slice_app_end (concat cts ++ last) tail) by (rewrite length_app; done).
  rewrite <- app_assoc, Hll, combine_tail by (done || lia). f_equal. rewrite <- Hll. apply store_tail.
  - rewrite Hll. symmetry. apply array_ok_length. by apply (xts_block_ok _ _ t0 dec_inverse t0_ok k).
  - rewrite length_take. lia.
Qed.

(** Splitting what the mode produced gives back its parts. *)
Lemma xts_split cts s r :
  Forall (array_ok bb) cts → array_ok (bb + r) s → (0 < r < bb)%nat →
  let ct := concat cts ++ s in
  let k := (length ct / bb)%nat in
  (length ct mod bb)%nat = r ∧ k = S (length cts) ∧ chunks_exact bb (take ((k - 1) * bb) ct) = cts ∧
  slice ((k - 1) * bb) (k * bb) ct = take bb s ∧ drop (k * bb) ct = drop bb s ∧ array_ok (length cts * bb + bb + r) ct.
Proof using H0.
  intros Hcs [Hsl Hsb] Hr ct k. pose proof (block_bytes_pos (K := K)) as Hp.
  assert (Forall (λ c, length c = bb) cts) as Hl by (eapply Forall_impl; [exact Hcs|]; by intros ? []).
  assert (length (concat cts) = length cts * bb)%nat as Hc by (by apply length_concat_const).
  assert (length ct = r + S (length cts) * bb)%nat as Hct by (unfold ct; rewrite length_app, Hc, Hsl; lia).
  assert (k = S (length cts)) as Ek by (unfold k; rewrite Hct, Nat.div_add, Nat.div_small by lia; done).
  split; [rewrite Hct, Nat.Div0.mod_add; apply Nat.mod_small; lia|]. split; [done|]. rewrite Ek.
  replace (S (length cts) - 1)%nat with (length cts) by lia. unfold ct, slice. rewrite <- Hc.
  split; [rewrite take_app_length; by apply chunks_exact_concat|].
  replace (S (length cts) * bb)%nat with (length (concat cts) + bb)%nat by lia.
  rewrite drop_app_length, <- drop_drop, drop_app_length.
  split; [by replace (length (concat cts) + bb - length (concat cts))%nat with bb by lia|]. split; [done|].
  split; [rewrite length_app, Hsl; lia|]. apply Forall_app. split; [|done]. apply Forall_concat.
  eapply Forall_impl; [exact Hcs|]. by intros ? [].
Qed.

(** The mode with the inverse cipher and the order of the last two tweaks swapped undoes the mode. *)
Lemma xts_spec_inverse f h o1 o2 buf :
  (∀ b, array_ok bb b → array_ok bb (f b) ∧ h (f b) = b) → (∀ k, o2 k = ((o1 k).2, (o1 k).1)) →
  bytes_ok buf → (bb ≤ length buf)%nat →
  array_ok (length buf) (xts_spec f o1 t0 buf) ∧ xts_spec h o2 t0 (xts_spec f o1 t0 buf) = buf.
Proof using Hk Hiv H0.
  intros Hf Ho Hb Hl. pose proof (block_bytes_pos (K := K)) as Hp. unfold xts_spec at 1 3.
  destruct (decide (length buf mod bb = 0)%nat) as [Hm|Hm].
  - destruct (xts_blocks_ok f h t0 Hf t0_ok 1 _ (chunks_exact_ok bb buf Hp Hb)) as (H1 & H2 & H3).
    set (cts := xts_blocks f t0 1 _) in *.
    assert (Forall (λ c, length c = bb) cts) as Hcl by (eapply Forall_impl; [exact H1|]; by intros ? []).
    assert (length (concat cts) = length buf) as Hcc.
    { rewrite (length_concat_const bb), H2 by done. unfold chunks_exact. rewrite length_chunks_n. by rewrite <- aligned_length. }
    split; [split; [done|]; apply Forall_concat; eapply Forall_impl; [exact H1|]; by intros ? []|].
    unfold xts_spec. rewrite Hcc, decide_True by done. rewrite chunks_exact_concat, H3 by done. by apply concat_chunks_aligned.
  - destruct (xts_parts buf Hb Hl Hm) as (Eb & Hcs & Hlc & Hk1 & Hla & Htb & Htl & Htlt).
    set (k := (length buf / bb)%nat) in *. set (cs := chunks_exact bb _) in *. set (last := slice _ _ buf) in *.
    set (tail := drop (k * bb) buf) in *.
    destruct (xts_blocks_ok f h t0 Hf t0_ok 1 cs Hcs) as (H1 & H2 & H3).
    destruct (steal_inverse f h t0 Hf t0_ok (o1 k).1 (o1 k).2 last tail Hla Htb Htlt) as [Hs Hsi].
    set (cts := xts_blocks f t0 1 cs) in *. set (s := steal f _ _ last tail) in *.
    destruct (xts_split cts s (length tail) H1 Hs ltac:(lia)) as (X1 & X2 & X3 & X4 & X5 & [X6 X7]).
    assert (S (length cts) = k) as Ek by lia. rewrite Ek in X2.
    split; [split; [|done]; rewrite X6, Eb, !length_app; rewrite (length_concat_const bb) by (eapply Forall_impl; [exact Hcs|]; by intros ? []); rewrite (array_ok_length _ _ Hla); lia|].
    unfold xts_spec. rewrite decide_False by lia. rewrite X2 in *. rewrite X3, X4, X5, H3, Ho. cbn [fst snd].
    rewrite Hsi. by rewrite <- Eb.
Qed.
End lemmas.

(** [encrypt_in_place] computes the mode: block [i] under the tweak [T * x^i], and for a length that is
    not a whole number of blocks the ciphertext stealing of the last two pieces; [decrypt_in_place]
    computes it with the inverse cipher and the last two tweaks swapped. Buffers shorter than a block
    are refused and left as they were. *)
Theorem xts_is_mode {K} `{BlockCipherLaws K} `{!FieldOf K} (raw iv buf : list Z) :
  array_ok (key_bytes K) raw → array_ok (block_bytes K) iv → bytes_ok buf →
  ∃ self, new (K := K) raw = Some self ∧
    let t := gf_from_le_bytes (gf_of K) (encrypt_block (key self) iv) in
    if decide (block_bytes K ≤ length buf)%nat then
      encrypt_in_place self iv buf = (xts_spec (encrypt_block (key self)) encrypt_order t buf, Ok tt) ∧
      decrypt_in_place self iv buf = (xts_spec (decrypt_block (key self)) decrypt_order t buf, Ok tt)
    else
      encrypt_in_place self iv buf = (buf, Err InvalidLength) ∧ decrypt_in_place self iv buf = (buf, Err InvalidLength).
Proof.
  intros Hr Hiv Hb. destruct (expanded_new_ok raw Hr) as (k & He & Hk). exists {| key := k |}.
  unfold new. rewrite He. split; [done|]. cbv zeta. case_decide as Hl.
  - split; [by apply xts_encrypt_spec|by apply xts_decrypt_spec].
  - unfold encrypt_in_place, decrypt_in_place. by rewrite (proj2 (Nat.ltb_lt (length buf) (block_bytes K))) by lia.
Qed.

Lemma xts_is_mode_witness :
  ∃ self, new (K := ExpandedKey Kalyna128_128) (seqZ 0 16) = Some self ∧
    let t := gf_from_le_bytes (gf_of (ExpandedKey Kalyna128_128)) (encrypt_block (key self) (seqZ 16 16)) in
    encrypt_in_place (K := ExpandedKey Kalyna128_128) self (seqZ 16 16) (seqZ 0 40) = (xts_spec (K := ExpandedKey Kalyna128_128) (encrypt_block (key self)) encrypt_order t (seqZ 0 40), Ok tt) ∧
    decrypt_in_place (K := ExpandedKey Kalyna128_128) self (seqZ 16 16) (seqZ 0 40) = (xts_spec (K := ExpandedKey Kalyna128_128) (decrypt_block (key self)) decrypt_order t (seqZ 0 40), Ok tt).
Proof. refine (@xts_is_mode (ExpandedKey Kalyna128_128) _ _ _ (seqZ 0 16) (seqZ 16 16) (seqZ 0 40) _ _ _); by_decision. Defined.

(** Each direction undoes the other on buffers of at least one block, of any length, and keeps the
    length. *)
Theorem xts_roundtrip {K} `{BlockCipherLaws K} `{!FieldOf K} (raw iv buf : list Z) :
  array_ok (key_bytes K) raw → array_ok (block_bytes K) iv → bytes_ok buf → (block_bytes K ≤ length buf)%nat →
  ∃ self ct pt, new (K := K) raw = Some self ∧
    encrypt_in_place self iv buf = (ct, Ok tt) ∧ array_ok (length buf) ct ∧ decrypt_in_place self iv ct = (buf, Ok tt) ∧
    decrypt_in_place self iv buf = (pt, Ok tt) ∧ array_ok (length buf) pt ∧ encrypt_in_place self iv pt = (buf, Ok tt).
Proof.
  intros Hr Hiv Hb Hl. destruct (expanded_new_ok raw Hr) as (k & He & Hk). set (self := {| key := k |}).
  destruct (xts_spec_inverse self iv Hk Hiv _ _ encrypt_order decrypt_order buf (enc_inverse self Hk) ltac:(done) Hb Hl) as [[L1 B1] I1].
  destruct (xts_spec_inverse self iv Hk Hiv _ _ decrypt_order encrypt_order buf (dec_inverse self Hk) ltac:(done) Hb Hl) as [[L2 B2] I2].
  eexists self, _, _. unfold new. rewrite He. split; [done|]. split; [by apply xts_encrypt_spec|]. split; [done|].
  rewrite (xts_decrypt_spec self iv Hk Hiv) by (done || by rewrite L1). rewrite I1. split; [done|].
  split; [by apply xts_decrypt_spec|]. split; [done|].
  rewrite (xts_encrypt_spec self iv Hk Hiv) by (done || by rewrite L2). by rewrite I2.
Qed.

Lemma xts_roundtrip_witness :
  ∃ self ct pt, new (K := ExpandedKey Kalyna128_128) (seqZ 0 16) = Some self ∧
    encrypt_in_place (K := ExpandedKey Kalyna128_128) self (seqZ 16 16) (seqZ 0 40) = (ct, Ok tt) ∧ array_ok 40 ct ∧ decrypt_in_place (K := ExpandedKey Kalyna128_128) self (seqZ 16 16) ct = (seqZ 0 40, Ok tt) ∧
    decrypt_in_place (K := ExpandedKey Kalyna128_128) self (seqZ 16 16) (seqZ 0 40) = (pt, Ok tt) ∧ array_ok 40 pt ∧ encrypt_in_place (K := ExpandedKey Kalyna128_128) self (seqZ 16 16) pt = (seqZ 0 40, Ok tt).
Proof. refine (@xts_roundtrip (ExpandedKey Kalyna128_128) _ _ _ (seqZ 0 16) (seqZ 16 16) (seqZ 0 40) _ _ _ _); by_decision. Defined.
