(* ===== verification/Ccm.v ===== *)
(** CCM over any block cipher of the interface ([hazmat/kalyna_ccm.rs]).  The loops of [Gamma::apply]
    over [buf[data_off..]] are functions of the data that is left, as in [Ctr.v]. *)

From S2P Require Import Prelude External BlockCipher Stream Kalyna Ctr Cmac.

Definition MAX_BLOCK : nat := 64.
Definition MAX_PLAINTEXT_LEN : nat := 255.
Definition MAX_AAD_LEN : nat := 255.
Definition MAX_CCM_NB : nat := 8.
Definition H_BUF_LEN : nat := MAX_BLOCK + (MAX_CCM_NB + MAX_BLOCK - 1) + MAX_AAD_LEN.
Definition P_BUF_LEN : nat := MAX_PLAINTEXT_LEN + MAX_BLOCK.

Inductive CcmError : Type := EmptyPlaintext | PlaintextTooLong | AadTooLong | TagMismatch.

#[global] Instance CcmError_eq_dec : EqDecision CcmError.
Proof. solve_decision. Defined.

(** Stops at the first byte that does not wrap, within the first [block_len] bytes. *)
Fixpoint increment_counter (counter : list Z) (block_len : nat) : list Z :=
  match counter, block_len with
  | byte :: rest, S block_len =>
      let byte := wrapping_add 8 byte 1 in
      if negb (Z.eqb byte 0) then byte :: rest else byte :: increment_counter rest block_len
  | _, _ => counter
  end.

Definition tag_length_code (q : nat) : Z :=
  match q with
  | 8%nat => 2
  | 16%nat => 3
  | 32%nat => 4
  | 48%nat => 5
  | 64%nat => 6
  | _ => 0
  end.

(** [for chunk in data.chunks_exact(block_len) { b ^= chunk; b = encrypt_block(&b); }]. *)
Definition absorb (encrypt_block : list Z → list Z) (block_len : nat) (b data : list Z) : list Z :=
  foldl (λ b chunk, encrypt_block (xor_into b chunk)) b (chunks_exact block_len data).

Definition compute_g1 (block_len ccm_nb q : nat) (nonce aad plaintext : list Z) : list Z :=
  let prefix_len := (block_len - ccm_nb - 1)%nat in
  let g1 := replicate MAX_BLOCK 0 in
  let g1 := copy_at 0 (take prefix_len nonce) g1 in
  let m_len := to_le_bytes 8 (length plaintext) in
  let g1 := copy_at prefix_len (take ccm_nb m_len) g1 in
  let flags := if Nat.eqb (length aad) 0 then 0 else 0x80 in
  let flags := Z.lor flags (shl 8 (tag_length_code q) 4) in
  let flags := Z.lor flags (ccm_nb - 1)%nat in
  <[(block_len - 1)%nat := flags]> g1.

(** [h_buf[..h_len]]. *)
Definition compute_h (block_len ccm_nb : nat) (g1 aad : list Z) : list Z :=
  let h_buf := replicate H_BUF_LEN 0 in
  let h_buf := copy_at 0 (take block_len g1) h_buf in
  let h_len := block_len in
  if negb (Nat.eqb (length aad) 0) then
    let o_len := to_le_bytes 8 (length aad) in
    let h_buf := copy_at h_len (take ccm_nb o_len) h_buf in
    let zeros := ((2 * block_len - length aad mod block_len - ccm_nb) mod block_len)%nat in
    let h_len := (h_len + (ccm_nb + zeros))%nat in
    let h_buf := copy_at h_len aad h_buf in
    let h_len := (h_len + length aad)%nat in
    take h_len h_buf
  else take h_len h_buf.

(** [p_buf[..p_len]]. *)
Definition compute_p (block_len : nat) (plaintext : list Z) : list Z :=
  let p_buf := replicate P_BUF_LEN 0 in
  let p_buf := copy_at 0 plaintext p_buf in
  let p_len := length plaintext in
  if negb (Nat.eqb (p_len mod block_len) 0) then
    let p_buf := <[p_len := 0x80]> p_buf in
    let p_len := (p_len + (block_len - p_len mod block_len))%nat in
    take p_len p_buf
  else take p_len p_buf.

Definition compute_tag (encrypt_block : list Z → list Z) (block_len ccm_nb q : nat) (nonce aad plaintext : list Z) : list Z :=
  let g1 := compute_g1 block_len ccm_nb q nonce aad plaintext in
  let b := replicate MAX_BLOCK 0 in
  let b := absorb encrypt_block block_len b (compute_h block_len ccm_nb g1 aad) in
  absorb encrypt_block block_len b (compute_p block_len plaintext).

(** ** [Gamma] *)

Record Gamma : Type := { counter : list Z; keystream : list Z; used : nat; block_len : nat }.

Definition gamma_new (block_len : nat) (nonce_block : list Z) (encrypt_block : list Z → list Z) : Gamma :=
  let seed := encrypt_block nonce_block in
  {| counter := seed; keystream := seed; used := block_len; block_len := block_len |}.

(** [while offset < block_len && data_off < buf.len()]. *)
Fixpoint use_keystream (block_len : nat) (keystream : list Z) (offset : nat) (data : list Z) : list Z * nat * list Z :=
  match data with
  | [] => ([], offset, [])
  | b :: rest =>
      if Nat.ltb offset block_len then
        let '(done, offset', rest') := use_keystream block_len keystream (S offset) rest in
        ((b ⊕ keystream.[offset]) :: done, offset', rest')
      else ([], offset, data)
  end.

(** [while data_off + block_len <= buf.len()]; the fuel [length data] is enough. *)
Fixpoint whole_blocks (fuel : nat) (encrypt_block : list Z → list Z) (block_len : nat) (keystream counter data : list Z) :
    list Z * list Z * list Z * list Z :=
  match fuel with
  | O => ([], keystream, counter, data)
  | S fuel =>
      if Nat.leb block_len (length data) then
        let block := xor_into (take block_len data) keystream in
        let counter := increment_counter counter block_len in
        let keystream := encrypt_block counter in
        let '(done, keystream, counter, rest) :=
          whole_blocks fuel encrypt_block block_len keystream counter (drop block_len data) in
        (block ++ done, keystream, counter, rest)
      else ([], keystream, counter, data)
  end.

(** [if offset != 0 { .. }]. *)
Definition leftover (encrypt_block : list Z → list Z) (self : Gamma) (buf : list Z) : list Z * list Z * list Z * nat * list Z :=
  let offset := used self in
  if negb (Nat.eqb offset 0) then
    let '(done, offset, rest) := use_keystream (block_len self) (keystream self) offset buf in
    if Nat.eqb offset (block_len self) then
      let counter := increment_counter (counter self) (block_len self) in
      (done, encrypt_block counter, counter, O, rest)
    else (done, keystream self, counter self, offset, rest)
  else ([], keystream self, counter self, offset, buf).

(** The last loop is the one of [Ctr.v]. *)
Definition gamma_apply (encrypt_block : list Z → list Z) (self : Gamma) (buf : list Z) : Gamma * list Z :=
  let '(out1, keystream, counter, offset, data) := leftover encrypt_block self buf in
  let '(out2, keystream, counter, data) :=
    whole_blocks (length data) encrypt_block (block_len self) keystream counter data in
  let '(out3, offset) := last_bytes keystream offset data in
  ({| counter := counter; keystream := keystream; used := offset; block_len := block_len self |}, out1 ++ out2 ++ out3).

Section ccm.
Context `{Subtle} `{Zeroize}.

(** Returns [buf] and the result. *)
Definition seal_core (encrypt_block : list Z → list Z) (block_len ccm_nb q : nat) (nonce aad buf : list Z) :
    list Z * result (list Z) CcmError :=
  if Nat.eqb (length buf) 0 then (buf, Err EmptyPlaintext)
  else if Nat.ltb MAX_PLAINTEXT_LEN (length buf) then (buf, Err PlaintextTooLong)
  else if Nat.ltb MAX_AAD_LEN (length aad) then (buf, Err AadTooLong)
  else
    let raw_tag := compute_tag encrypt_block block_len ccm_nb q nonce aad buf in
    let nonce_block := copy_at 0 (take block_len nonce) (replicate MAX_BLOCK 0) in
    let gamma := gamma_new block_len nonce_block encrypt_block in
    let '(gamma, buf) := gamma_apply encrypt_block gamma buf in
    let tag_buf := copy_at 0 (take q raw_tag) (replicate MAX_BLOCK 0) in
    let '(gamma, head) := gamma_apply encrypt_block gamma (take q tag_buf) in
    let tag_buf := copy_at 0 head tag_buf in
    (buf, Ok tag_buf).

Definition open_core (encrypt_block : list Z → list Z) (block_len ccm_nb q : nat) (nonce aad buf tag : list Z) :
    list Z * result unit CcmError :=
  if Nat.eqb (length buf) 0 then (buf, Err EmptyPlaintext)
  else if Nat.ltb MAX_PLAINTEXT_LEN (length buf) then (buf, Err PlaintextTooLong)
  else if Nat.ltb MAX_AAD_LEN (length aad) then (buf, Err AadTooLong)
  else
    let nonce_block := copy_at 0 (take block_len nonce) (replicate MAX_BLOCK 0) in
    let gamma := gamma_new block_len nonce_block encrypt_block in
    let '(gamma, buf) := gamma_apply encrypt_block gamma buf in
    let recovered_tag := copy_at 0 (take q tag) (replicate MAX_BLOCK 0) in
    let '(gamma, head) := gamma_apply encrypt_block gamma (take q recovered_tag) in
    let recovered_tag := copy_at 0 head recovered_tag in
    let expected_tag := compute_tag encrypt_block block_len ccm_nb q nonce aad buf in
    if ct_eq_slice (take q recovered_tag) (take q expected_tag) then (buf, Ok tt)
    else (zeroize buf, Err TagMismatch).
End ccm.

(** The last two arguments of [kalyna_ccm_variant!]. *)
Class CcmParams (K : Type) `{BlockCipher K} : Type := {
  ccm_nb : nat;
  ccm_q : nat;
  ccm_nb_range : (1 ≤ ccm_nb ≤ MAX_CCM_NB)%nat ∧ (ccm_nb + 1 < block_bytes K)%nat;
  ccm_q_range : (ccm_q ≤ block_bytes K)%nat
}.
Arguments ccm_nb K {_ _} : assert.
Arguments ccm_q K {_ _} : assert.

#[global] Program Instance kalyna_ccm v : CcmParams (ExpandedKey v) := {
  ccm_nb := match v with Kalyna128_128 | Kalyna128_256 | Kalyna256_256 => 4 | Kalyna256_512 => 6 | Kalyna512_512 => 8 end;
  ccm_q := match v with Kalyna128_128 | Kalyna128_256 | Kalyna256_256 => 16 | Kalyna256_512 => 32 | Kalyna512_512 => 64 end
}.
Next Obligation. unfold MAX_CCM_NB. intros []; simpl; lia. Qed.
Next Obligation. intros []; simpl; lia. Qed.

Section variant.
Context {K : Type} `{BlockCipher K} `{!CcmParams K} `{Subtle} `{Zeroize}.
Local Abbreviation bb := (block_bytes K).

Definition new (key : list Z) : option K := expanded_new K key.

Definition encrypt_block_padded (self : K) (block : list Z) : list Z :=
  let input := take bb block in
  let out := encrypt_block self input in
  copy_at 0 out (replicate MAX_BLOCK 0).

Definition seal_in_place (self : K) (nonce aad buf : list Z) : list Z * result (list Z) CcmError :=
  let '(buf, r) := seal_core (encrypt_block_padded self) bb (ccm_nb K) (ccm_q K) nonce aad buf in
  (buf, result_bind r (λ tag, Ok (take (ccm_q K) tag))).

Definition open_in_place (self : K) (nonce aad buf tag : list Z) : list Z * result unit CcmError :=
  open_core (encrypt_block_padded self) bb (ccm_nb K) (ccm_q K) nonce aad buf tag.
End variant.

(** ** The specification *)

Section spec.
Context {K : Type} `{BlockCipher K} `{!CcmParams K}.
Local Abbreviation bb := (block_bytes K).
Local Abbreviation nb := (ccm_nb K).

(** The flags of table 13.2. *)
Definition ccm_flags (aad : list Z) : Z :=
  Z.lor (Z.lor (if decide (aad = []) then 0 else 0x80) (shl 8 (tag_length_code (ccm_q K)) 4)) (nb - 1)%nat.

(** [G1]: the nonce prefix, the length of the message, the flags. *)
Definition ccm_g1 (nonce aad plaintext : list Z) : list Z :=
  take (bb - nb - 1) nonce ++ to_le_bytes nb (length plaintext) ++ [ccm_flags aad].

(** [G2 ‖ O]: the length of the associated data, zeros up to the block boundary, the data. *)
Definition ccm_g2 (aad : list Z) : list Z :=
  if decide (aad = []) then []
  else to_le_bytes nb (length aad) ++ replicate ((2 * bb - length aad mod bb - nb) mod bb) 0 ++ aad.

(** The CBC-MAC of [G1 ‖ G2 ‖ O ‖ P] with [P] padded. *)
Definition ccm_mac (k : K) (nonce aad plaintext : list Z) : list Z :=
  cbc_mac k (chunks_exact bb (ccm_g1 nonce aad plaintext ++ ccm_g2 aad ++ pad80 bb plaintext)).

(** The keystream: CTR started at the encryption of the nonce. *)
Definition ccm_keystream (k : K) (nonce : list Z) : nat → Z := ctr_keystream k (encrypt_block k nonce).

(** The tag is the MAC, masked with the keystream that follows the message. *)
Definition ccm_tag (k : K) (nonce aad plaintext : list Z) : list Z :=
  xor_keystream (ccm_keystream k nonce) (length plaintext) (take (ccm_q K) (ccm_mac k nonce aad plaintext)).

Definition ccm_error (aad buf : list Z) : option CcmError :=
  if decide (buf = []) then Some EmptyPlaintext
  else if decide (length buf ≤ 255)%nat then (if decide (length aad ≤ 255)%nat then None else Some AadTooLong)
  else Some PlaintextTooLong.
End spec.

Section lemmas.
Context {K : Type} `{BlockCipherLaws K} `{!CcmParams K} (k : K).
Hypothesis Hk : key_ok k.
Local Abbreviation bb := (block_bytes K).
Local Abbreviation nb := (ccm_nb K).
Local Abbreviation enc := (encrypt_block_padded k).

(** A block in its 64-byte buffer. *)
Definition padded (x : list Z) : list Z := x ++ replicate (MAX_BLOCK - bb) 0.

Lemma bb_max : (bb ≤ MAX_BLOCK)%nat.
Proof. unfold MAX_BLOCK. destruct (block_bytes_valid (K := K)) as [-> | [-> | ->]]; lia. Qed.

Lemma copy_padded x : length x = bb → copy_at 0 x (replicate MAX_BLOCK 0) = padded x.
Proof. intros Hx. pose proof bb_max. rewrite copy_at_0 by (rewrite length_replicate; lia). by rewrite drop_replicate, Hx. Qed.

Lemma enc_padded x : array_ok bb x → enc (padded x) = padded (encrypt_block k x).
Proof using Hk H0.
  intros Hx. unfold encrypt_block_padded. unfold padded at 1. rewrite take_app_length' by (by rewrite (array_ok_length _ _ Hx)).
  apply copy_padded. by apply (array_ok_length _ _ (encrypt_block_ok k x Hk Hx)).
Qed.

Lemma increment_padded x z : increment_counter (x ++ z) (length x) = Ctr.increment_counter x ++ z.
Proof.
  induction x as [|b x IH]; [by destruct z|]. cbn [app length increment_counter Ctr.increment_counter].
  destruct (negb _); [done|]. by rewrite IH.
Qed.

Lemma xor_padded a d : array_ok bb a → length d = bb → xor_into (padded a) d = padded (xor_into a d).
Proof.
  intros [Ha _] Hd. unfold padded, xor_into. rewrite <- Ha in Hd. clear Ha. revert d Hd.
  induction a as [|x a IH]; intros [|y d]; simpl; try done; [by destruct (replicate _ _)|]. intros [= Hd]. f_equal. by apply IH.
Qed.

(** [absorb] in the buffer is the CBC-MAC chain. *)
Lemma absorb_padded b data :
  array_ok bb b → bytes_ok data →
  absorb enc bb (padded b) data = padded (foldl (chain_step k) b (chunks_exact bb data)) ∧
  array_ok bb (foldl (chain_step k) b (chunks_exact bb data)).
Proof using Hk H0.
  intros Hb Hd. unfold absorb. pose proof (chunks_exact_ok bb data block_bytes_pos Hd) as Hc. revert b Hb.
  induction Hc as [|c cs Hc Hcs IH]; intros b Hb; [done|]. cbn [foldl].
  rewrite xor_padded by (done || apply Hc). assert (array_ok bb (xor_into b c)) as Hx by (apply array_ok_xor_into; [done|apply Hc]).
  rewrite enc_padded by done. apply IH. unfold chain_step. by apply encrypt_block_ok.
Qed.

(** ** [Gamma] is CTR in 64-byte buffers *)

Definition gamma_of_ctr (c : Ctr K) : Gamma :=
  {| counter := padded (Ctr.feed c); keystream := padded (Ctr.gamma c); used := used_gamma_len c; block_len := bb |}.

Lemma use_keystream_padded g o d :
  length g = bb → use_keystream bb (padded g) o d = use_gamma (K := K) g o d.
Proof.
  intros Hg. revert o. induction d as [|b d IH]; intros o; [done|]. cbn [use_keystream use_gamma]. rewrite IH.
  destruct (Nat.ltb_spec o bb); [|done]. destruct (use_gamma g (S o) d) as [[done' o'] rest]. do 3 f_equal.
  unfold padded. by rewrite app_nth1 by lia.
Qed.

Lemma last_bytes_padded g o d :
  length g = bb → (o + length d ≤ bb)%nat → last_bytes (padded g) o d = last_bytes g o d.
Proof.
  intros Hg. revert o. induction d as [|b d IH]; intros o Ho; [done|]. cbn [last_bytes length] in *. rewrite IH by lia.
  destruct (last_bytes g (S o) d). do 2 f_equal. unfold padded. by rewrite app_nth1 by lia.
Qed.

Lemma whole_blocks_padded fuel g f d :
  length g = bb → array_ok bb f →
  let '(done, g', f', rest) := Ctr.whole_blocks fuel k g f d in
  whole_blocks fuel enc bb (padded g) (padded f) d = (done, padded g', padded f', rest) ∧ length g' = bb ∧ array_ok bb f'.
Proof using Hk H0.
  revert g f d. induction fuel as [|fuel IH]; intros g f d Hg Hf; [done|]. cbn [whole_blocks Ctr.whole_blocks].
  destruct (Nat.leb bb (length d)) eqn:Hle; [|done]. apply Nat.leb_le in Hle.
  pose proof (increment_counter_ok bb f Hf) as Hi.
  assert (increment_counter (padded f) bb = padded (Ctr.increment_counter f)) as ->.
  { unfold padded. rewrite <- (array_ok_length _ _ Hf) at 2. apply increment_padded. }
  rewrite enc_padded by done. pose proof (array_ok_length _ _ (encrypt_block_ok k _ Hk Hi)) as He.
  specialize (IH (encrypt_block k (Ctr.increment_counter f)) (Ctr.increment_counter f) (drop bb d) He Hi).
  destruct (Ctr.whole_blocks fuel k _ _ _) as [[[done' g'] f'] rest]. destruct IH as (-> & H2 & H3).
  split; [|done]. do 4 f_equal. unfold padded, xor_into.
  assert (length (take bb d) ≤ length g)%nat as Hl by (rewrite length_take; lia). revert Hl. clear.
  generalize (take bb d). revert g. intros g l. revert g. induction l as [|x l IH]; intros [|y g]; simpl; intros; try done; [lia|].
  f_equal. apply IH. lia.
Qed.

Lemma gamma_apply_padded start c p buf :
  array_ok bb start → ctr_at k start c p → length (Ctr.gamma c) = bb →
  let r := apply_in_place c buf in
  gamma_apply enc (gamma_of_ctr c) buf = (gamma_of_ctr r.1, r.2) ∧ length (Ctr.gamma r.1) = bb.
Proof using Hk H0.
  intros Hs Hat Hg. pose proof Hat as (Hkey & _ & j & Hfeed & _).
  assert (array_ok bb (Ctr.feed c)) as Hf by (rewrite Hfeed; by apply counter_ok).
  unfold gamma_apply, apply_in_place. cbn [block_len gamma_of_ctr].
  pose proof (leftover_gamma_spec k start c p buf Hat) as (out & o & data & j' & Hl & _ & _ & Hpo & Ho & Hd).
  assert (leftover enc (gamma_of_ctr c) buf = (out, padded (encrypt_block k (Ctr.counter start j')), padded (Ctr.counter start j'), o, data)) as ->.
  { unfold leftover, leftover_gamma in *. cbn [used block_len keystream counter gamma_of_ctr]. rewrite use_keystream_padded by done.
    destruct (negb (Nat.eqb (used_gamma_len c) 0)); [|simplify_eq; congruence].
    destruct (use_gamma (Ctr.gamma c) (used_gamma_len c) buf) as [[done' o'] rest].
    destruct (Nat.eqb o' bb); [|simplify_eq; congruence]. injection Hl as -> E1 E2 -> ->.
    assert (increment_counter (padded (Ctr.feed c)) bb = padded (Ctr.increment_counter (Ctr.feed c))) as ->.
    { unfold padded. rewrite <- (array_ok_length _ _ Hf) at 2. apply increment_padded. }
    rewrite enc_padded by (by apply increment_counter_ok). congruence. }
  rewrite Hl, Hkey.
  assert (array_ok bb (Ctr.counter start j')) as Hc by (by apply counter_ok).
  pose proof (array_ok_length _ _ (encrypt_block_ok k _ Hk Hc)) as He.
  pose proof (whole_blocks_padded (length data) _ _ data He Hc) as Hw.
  destruct (Ctr.whole_blocks (length data) k _ _ data) as [[[mid g'] f'] rest] eqn:Hwe. destruct Hw as (-> & Hg' & Hf').
  assert (o + length rest ≤ bb)%nat as Hb.
  { destruct Hd as [-> | ->]; [simpl in Hwe; simplify_eq; simpl; lia|]. pose proof (block_bytes_pos (K := K)) as Hp.
    destruct (whole_blocks_spec k start Hk Hs (length data) j' (p + length out) data) as (? & ? & ? & Hw2 & _ & _ & _ & Hlt);
      [done|lia|]. rewrite Hwe in Hw2. simplify_eq. lia. }
  rewrite last_bytes_padded by done. by destruct (last_bytes g' o rest) as [out3 o3].
Qed.

(** ** The tag *)

Lemma nb_facts : (1 ≤ nb ≤ 8)%nat ∧ (bb - nb - 1 + nb + 1 = bb)%nat ∧ (1 ≤ bb - nb - 1)%nat ∧ (bb ≤ 64)%nat.
Proof. destruct (ccm_nb_range (K := K)) as [Hr Hb]. unfold MAX_CCM_NB in Hr. pose proof bb_max as Hm. unfold MAX_BLOCK in Hm. lia. Qed.

Lemma compute_g1_spec nonce aad pt :
  length nonce = bb → take bb (compute_g1 bb nb (ccm_q K) nonce aad pt) = ccm_g1 nonce aad pt.
Proof.
  intros Hn. destruct nb_facts as (Hnb & Hsum & Hpre & Hmax). unfold compute_g1, ccm_g1, MAX_BLOCK.
  set (pl := (bb - nb - 1)%nat) in *. assert (length (take pl nonce) = pl) as Ht by (rewrite length_take; lia).
  rewrite copy_at_0, drop_replicate, Ht by (rewrite length_replicate; lia). unfold copy_at.
  rewrite take_app_length' by done. rewrite take_to_le_bytes by lia. rewrite length_to_le_bytes, drop_app_ge, drop_replicate by lia.
  replace (64 - pl - (pl + nb - length (take pl nonce)))%nat with (S (64 - bb)) by lia.
  replace (bb - 1)%nat with (length (take pl nonce) + length (to_le_bytes nb (length pt)) + 0)%nat by (rewrite length_to_le_bytes; lia).
  rewrite <- Nat.add_assoc, !insert_app_r. cbn [replicate insert list_insert].
  assert (bb = length (take pl nonce ++ to_le_bytes nb (length pt)) + 1)%nat as E by (rewrite length_app, length_to_le_bytes; lia).
  rewrite app_assoc, E at 1. rewrite take_app_add. cbn [take]. rewrite <- app_assoc. do 3 f_equal. unfold ccm_flags.
  destruct aad; [by rewrite decide_True|by rewrite decide_False].
Qed.

(** The zeros of [G2] make the whole a number of blocks. *)
Lemma g2_aligned aad : (length (ccm_g2 (K := K) aad) mod bb = 0)%nat.
Proof.
  destruct nb_facts as (Hnb & Hsum & Hpre & Hmax). unfold ccm_g2. case_decide as Ha; [apply Nat.Div0.mod_0_l|].
  rewrite !length_app, length_to_le_bytes, length_replicate.
  pose proof (Nat.mod_upper_bound (length aad) bb ltac:(lia)) as Hu. set (x := (2 * bb - length aad mod bb - nb)%nat).
  pose proof (Nat.div_mod_eq (length aad) bb) as Ed. pose proof (Nat.div_mod_eq x bb) as Ex.
  set (a := (length aad / bb)%nat) in *. set (y := (x / bb)%nat) in *. set (m := (x mod bb)%nat) in *. set (l := (length aad mod bb)%nat) in *.
  assert (nb + (m + length aad) = (2 + a - y) * bb)%nat as ->; [|apply Nat.Div0.mod_mul].
  assert (y ≤ 2 + a)%nat; [|nia]. enough (y ≤ 2)%nat by lia. apply Nat.Div0.div_le_upper_bound. lia.
Qed.

Lemma compute_h_spec g1 aad :
  length (take bb g1) = bb → (length aad ≤ 255)%nat → compute_h bb nb g1 aad = take bb g1 ++ ccm_g2 (K := K) aad.
Proof.
  intros Hg Ha. destruct nb_facts as (Hnb & Hsum & Hpre & Hmax). unfold compute_h, ccm_g2.
  change H_BUF_LEN with 390%nat. rewrite copy_at_0, drop_replicate, Hg by (rewrite length_replicate; lia).
  destruct (Nat.eqb_spec (length aad) 0) as [Hz|Hz].
  { apply nil_length_inv in Hz as ->. cbn [negb]. rewrite decide_True by done. by rewrite take_app_length', app_nil_r. }
  rewrite decide_False by (by intros ->). cbn [negb].
  pose proof (Nat.mod_upper_bound (2 * bb - length aad mod bb - nb) bb ltac:(lia)) as Hu. set (z := (_ mod bb)%nat) in *. clearbody z.
  rewrite take_to_le_bytes by lia. unfold copy_at at 2. rewrite take_app_length', length_to_le_bytes by done.
  rewrite drop_app_ge, drop_replicate, Hg by lia.
  rewrite take_copy_at by (rewrite !length_app, length_to_le_bytes, length_replicate; lia).
  rewrite (app_assoc (take bb g1)), take_app_ge by (rewrite length_app, length_to_le_bytes; lia).
  rewrite length_app, length_to_le_bytes, Hg, take_replicate. replace (Nat.min _ _) with z by lia. by rewrite <- !app_assoc.
Qed.

Lemma compute_p_spec pt : (length pt ≤ 255)%nat → compute_p bb pt = pad80 bb pt.
Proof.
  intros Hp. destruct nb_facts as (Hnb & Hsum & Hpre & Hmax). unfold compute_p, pad80. change P_BUF_LEN with 319%nat.
  rewrite copy_at_0, drop_replicate by (rewrite length_replicate; lia).
  destruct (Nat.eqb_spec (length pt mod bb) 0); cbn [negb].
  - rewrite decide_True by done. by rewrite take_app_length.
  - rewrite decide_False by done. pose proof (Nat.mod_upper_bound (length pt) bb ltac:(lia)).
    rewrite insert_app_r_alt, Nat.sub_diag, take_app_add by lia. f_equal.
    rewrite (replicate_pos 0 (319 - length pt)) by lia. cbn [insert list_insert].
    replace (bb - length pt mod bb)%nat with (S (bb - length pt mod bb - 1)) at 1 by lia. cbn [take]. f_equal.
    rewrite take_replicate. f_equal. lia.
Qed.

Lemma ccm_g1_ok nonce aad pt : array_ok bb nonce → array_ok bb (ccm_g1 nonce aad pt).
Proof.
  intros Hn. destruct nb_facts as (Hnb & Hsum & Hpre & Hmax). unfold ccm_g1.
  assert (array_ok (bb - nb - 1 + (nb + 1)) (take (bb - nb - 1) nonce ++ to_le_bytes nb (length pt) ++ [ccm_flags (K := K) aad])) as Ha.
  { apply array_ok_app; [apply (array_ok_take _ bb); [done|lia]|]. apply array_ok_app; [apply to_le_bytes_ok|].
    split; [done|]. constructor; [|done]. unfold ccm_flags.
    assert (∀ a b, byte_ok a → byte_ok b → byte_ok (Z.lor a b)) as Hor.
    { intros a b Ha Hb. apply word_ok_bits in Ha as [Ha0 Ha], Hb as [Hb0 Hb]; [|lia..]. apply word_ok_bits; [lia|].
      split; [by apply Z.lor_nonneg|]. intros i Hi. by rewrite Z.lor_spec, Ha, Hb. }
    apply Hor; [apply Hor|].
    - case_decide; by_decision.
    - apply word_ok_wrap. lia.
    - unfold word_ok. lia. }
  by rewrite Nat.add_assoc, Hsum in Ha.
Qed.

Lemma ccm_g2_bytes aad : bytes_ok aad → bytes_ok (ccm_g2 (K := K) aad).
Proof.
  intros Ha. unfold ccm_g2. case_decide; [done|]. repeat (apply Forall_app; split); [apply to_le_bytes_ok| |done].
  apply Forall_replicate, byte_ok_0.
Qed.

Lemma ccm_compute_tag_spec nonce aad pt :
  array_ok bb nonce → bytes_ok aad → bytes_ok pt → (length aad ≤ 255)%nat → (length pt ≤ 255)%nat →
  compute_tag enc bb nb (ccm_q K) nonce aad pt = padded (ccm_mac k nonce aad pt) ∧ array_ok bb (ccm_mac k nonce aad pt).
Proof using Hk H0.
  intros Hn Ha Hp Hla Hlp. pose proof (block_bytes_pos (K := K)) as Hpos. destruct nb_facts as (Hnb & Hsum & Hpre & Hmax).
  pose proof (ccm_g1_ok nonce aad pt Hn) as [H1l H1b]. pose proof (ccm_g2_bytes aad Ha) as H2b. pose proof (g2_aligned aad) as H2a.
  unfold compute_tag. pose proof (compute_g1_spec nonce aad pt (array_ok_length _ _ Hn)) as E1.
  rewrite compute_h_spec, E1, compute_p_spec by (done || by rewrite E1).
  assert (replicate MAX_BLOCK 0 = padded (replicate bb 0)) as ->.
  { unfold padded, MAX_BLOCK. rewrite <- replicate_add. f_equal. lia. }
  assert (length (ccm_g1 nonce aad pt ++ ccm_g2 (K := K) aad) mod bb = 0)%nat as Hal.
  { rewrite length_app, H1l, Nat.Div0.add_mod, Nat.Div0.mod_same, H2a. apply Nat.Div0.mod_0_l. }
  destruct (absorb_padded (replicate bb 0) (ccm_g1 nonce aad pt ++ ccm_g2 (K := K) aad)) as [-> Ho];
    [apply array_ok_zeros|by apply Forall_app|].
  destruct (absorb_padded _ (pad80 bb pt) Ho ltac:(by apply pad80_bytes)) as [-> Ho2].
  rewrite <- foldl_app, <- chunks_exact_app, <- app_assoc in * by done. done.
Qed.

(** ** The two operations *)

Definition gamma_at (start : list Z) (gm : Gamma) (p : nat) : Prop :=
  ∃ c, ctr_at k start c p ∧ length (Ctr.gamma c) = bb ∧ gm = gamma_of_ctr c.

Lemma gamma_stream start : array_ok bb start → StreamSpec (gamma_apply enc) (gamma_at start) (ctr_keystream k start).
Proof using Hk H0.
  intros Hs gm p buf (c & Hat & Hg & ->). destruct (gamma_apply_padded start c p buf Hs Hat Hg) as [-> Hg'].
  destruct (ctr_stream k start Hk Hs c p buf Hat) as [H1 H2]. split; [|exact H2]. by exists (apply_in_place c buf).1.
Qed.

Lemma gamma_new_at nonce :
  array_ok bb nonce →
  gamma_at (encrypt_block k nonce) (gamma_new bb (copy_at 0 (take bb nonce) (replicate MAX_BLOCK 0)) enc) 0.
Proof using Hk H0.
  intros Hn. pose proof (array_ok_length _ _ Hn) as Hl. rewrite take_ge, copy_padded by lia. unfold gamma_new. rewrite enc_padded by done.
  exists {| Ctr.key := k; Ctr.gamma := encrypt_block k nonce; feed := encrypt_block k nonce; used_gamma_len := bb |}.
  split; [|split; [by apply (array_ok_length _ _ (encrypt_block_ok k nonce Hk Hn))|done]].
  split; [done|]. cbn. split; [lia|]. exists O. split; [done|]. split; lia.
Qed.

(** The bytes of a [q]-byte tag masked in its 64-byte buffer. *)
Lemma masked_head q t head :
  length t = q → length head = q → (q ≤ MAX_BLOCK)%nat →
  take q (copy_at 0 t (replicate MAX_BLOCK 0)) = t ∧ take q (copy_at 0 head (copy_at 0 t (replicate MAX_BLOCK 0))) = head.
Proof.
  intros Ht Hh Hq. rewrite (copy_at_0 t) by (rewrite length_replicate; lia). split; [by apply take_app_length'|].
  rewrite copy_at_0 by (rewrite length_app, length_drop, length_replicate; lia). by apply take_app_length'.
Qed.

Lemma ccm_error_guards (A : Type) aad buf (x : A) (e : CcmError → A) :
  (if Nat.eqb (length buf) 0 then e EmptyPlaintext
   else if Nat.ltb MAX_PLAINTEXT_LEN (length buf) then e PlaintextTooLong
   else if Nat.ltb MAX_AAD_LEN (length aad) then e AadTooLong else x) =
  match ccm_error aad buf with Some err => e err | None => x end.
Proof.
  unfold ccm_error, MAX_PLAINTEXT_LEN, MAX_AAD_LEN. destruct buf as [|b buf]; [done|]. rewrite (decide_False (P := b :: buf = [])) by done.
  cbn [Nat.eqb length]. destruct (Nat.ltb_spec 255 (S (length buf))).
  - by rewrite decide_False by lia.
  - rewrite decide_True by lia. destruct (Nat.ltb_spec 255 (length aad)); [by rewrite decide_False by lia|by rewrite decide_True by lia].
Qed.

Lemma ccm_no_error aad buf : ccm_error aad buf = None → buf ≠ [] ∧ (length buf ≤ 255)%nat ∧ (length aad ≤ 255)%nat.
Proof. unfold ccm_error. repeat case_decide; done. Qed.

Lemma ccm_mac_prefix nonce aad pt :
  array_ok bb nonce → bytes_ok aad → bytes_ok pt → (length aad ≤ 255)%nat → (length pt ≤ 255)%nat →
  array_ok (ccm_q K) (take (ccm_q K) (ccm_mac k nonce aad pt)) ∧
  take (ccm_q K) (compute_tag enc bb nb (ccm_q K) nonce aad pt) = take (ccm_q K) (ccm_mac k nonce aad pt).
Proof using Hk H0.
  intros Hn Ha Hp Hla Hlp. destruct (ccm_compute_tag_spec nonce aad pt Hn Ha Hp Hla Hlp) as [-> Hm]. pose proof (ccm_q_range (K := K)) as Hq.
  split; [by apply (array_ok_take _ bb)|]. unfold padded. apply take_app_le. rewrite (array_ok_length _ _ Hm). lia.
Qed.

Lemma seal_spec `{Subtle} `{Zeroize} nonce aad buf :
  array_ok bb nonce → bytes_ok aad → bytes_ok buf →
  seal_in_place k nonce aad buf = match ccm_error aad buf with
    | Some e => (buf, Err e)
    | None => (xor_keystream (ccm_keystream k nonce) 0 buf, Ok (ccm_tag k nonce aad buf))
    end.
Proof using Hk H0.
  intros Hn Ha Hb. unfold seal_in_place, seal_core. rewrite (ccm_error_guards _ aad buf _ (λ e, (buf, Err e))).
  destruct (ccm_error aad buf) eqn:He; [done|]. apply ccm_no_error in He as (_ & Hlb & Hla).
  destruct (ccm_mac_prefix nonce aad buf Hn Ha Hb Hla Hlb) as [[Hml _] ->]. set (mac := take (ccm_q K) (ccm_mac k nonce aad buf)) in *.
  pose proof (gamma_stream (encrypt_block k nonce) ltac:(by apply encrypt_block_ok)) as Hs.
  destruct (Hs _ _ buf (gamma_new_at nonce Hn)) as [H3 H4].
  destruct (gamma_apply enc _ buf) as [gm ct]. cbn [fst snd] in *. subst ct. rewrite Nat.add_0_l in H3.
  pose proof bb_max as Hmax. pose proof (ccm_q_range (K := K)) as Hq.
  destruct (masked_head (ccm_q K) mac (xor_keystream (ccm_keystream k nonce) (length buf) mac) Hml ltac:(by rewrite length_xor_keystream) ltac:(lia)) as [-> Hh].
  destruct (Hs _ _ mac H3) as [_ H5]. destruct (gamma_apply enc gm mac) as [gm' head]. cbn [fst snd] in *. subst head.
  cbn [result_bind]. f_equal. f_equal. exact Hh.
Qed.

Lemma open_spec `{SubtleLaws} `{ZeroizeLaws} nonce aad buf tag :
  array_ok bb nonce → bytes_ok aad → bytes_ok buf → length tag = ccm_q K →
  let pt := xor_keystream (ccm_keystream k nonce) 0 buf in
  open_in_place k nonce aad buf tag = match ccm_error aad buf with
    | Some e => (buf, Err e)
    | None => if decide (tag = ccm_tag k nonce aad pt) then (pt, Ok tt) else (replicate (length buf) 0, Err TagMismatch)
    end.
Proof using Hk H0.
  intros Hn Ha Hb Ht pt. unfold open_in_place, open_core. rewrite (ccm_error_guards _ aad buf _ (λ e, (buf, Err e))).
  destruct (ccm_error aad buf) eqn:He; [done|]. apply ccm_no_error in He as (_ & Hlb & Hla).
  assert (array_ok bb (encrypt_block k nonce)) as Hst by (by apply encrypt_block_ok).
  pose proof (gamma_stream (encrypt_block k nonce) Hst) as Hs.
  destruct (Hs _ _ buf (gamma_new_at nonce Hn)) as [H5 H6].
  destruct (gamma_apply enc _ buf) as [gm ct]. cbn [fst snd] in *. subst ct. rewrite Nat.add_0_l in H5.
  change (xor_keystream (ctr_keystream k (encrypt_block k nonce)) 0 buf) with pt.
  assert (length pt = length buf) as Hpl by apply length_xor_keystream.
  assert (bytes_ok pt) as Hpb.
  { apply xor_keystream_ok; [done|]. intros i. apply nth_byte_ok, encrypt_block_ok; [done|]. by apply counter_ok. }
  destruct (ccm_mac_prefix nonce aad pt Hn Ha Hpb Hla ltac:(lia)) as [[Hml _] ->]. unfold ccm_tag. set (mac := take (ccm_q K) (ccm_mac k nonce aad pt)) in *.
  pose proof bb_max as Hmax. pose proof (ccm_q_range (K := K)) as Hq. rewrite (take_ge tag) by lia.
  destruct (masked_head (ccm_q K) tag (xor_keystream (ccm_keystream k nonce) (length buf) tag) Ht ltac:(by rewrite length_xor_keystream) ltac:(lia)) as [-> Hh].
  destruct (Hs _ _ tag H5) as [_ H7]. destruct (gamma_apply enc gm tag) as [gm' head]. cbn [fst snd] in *. subst head.
  change (ctr_keystream k (encrypt_block k nonce)) with (ccm_keystream k nonce). rewrite Hh, ct_eq_slice_spec, zeroize_spec, Hpl.
  case_bool_decide as E.
  - rewrite decide_True; [done|]. rewrite <- E. by rewrite xor_keystream_involutive.
  - rewrite decide_False; [done|]. intros ->. apply E. apply xor_keystream_involutive.
Qed.
End lemmas.

(** Sealing encrypts with the keystream of the nonce and returns the CBC-MAC of [G1 ‖ G2 ‖ O ‖ P], masked
    with the keystream that follows the message; the lengths outside the limits are refused and leave
    the buffer as it was.  The header that the MAC starts with is one block and a whole number of blocks. *)
Theorem ccm_seal_correct {K} `{BlockCipherLaws K} `{!CcmParams K} `{Subtle} `{Zeroize} (key nonce aad buf : list Z) :
  array_ok (key_bytes K) key → array_ok (block_bytes K) nonce → bytes_ok aad → bytes_ok buf →
  ∃ k, new key = Some k ∧
    length (ccm_g1 (K := K) nonce aad buf) = block_bytes K ∧ (length (ccm_g2 (K := K) aad) mod block_bytes K = 0)%nat ∧
    length (ccm_tag k nonce aad buf) = ccm_q K ∧
    seal_in_place k nonce aad buf = match ccm_error aad buf with
      | Some e => (buf, Err e)
      | None => (xor_keystream (ccm_keystream k nonce) 0 buf, Ok (ccm_tag k nonce aad buf))
      end.
Proof.
  intros Hkey Hn Ha Hb. destruct (expanded_new_ok key Hkey) as (k & He & Hk). exists k. split; [done|].
  split; [by apply ccm_g1_ok|]. split; [apply g2_aligned|]. split; [|by apply seal_spec].
  unfold ccm_tag. rewrite length_xor_keystream, length_take. pose proof (ccm_q_range (K := K)) as Hq.
  assert (array_ok (block_bytes K) (ccm_mac k nonce aad buf)) as [Hm _]; [|lia]. apply cbc_mac_ok; [done|].
  apply chunks_exact_ok; [apply block_bytes_pos|]. apply Forall_app. split; [by apply ccm_g1_ok|].
  apply Forall_app. split; [by apply ccm_g2_bytes|by apply pad80_bytes].
Qed.

Lemma ccm_seal_correct_witness :
  let _ := plain_subtle in let _ := plain_zeroize in
  ∃ k : ExpandedKey Kalyna128_128, new (seqZ 0 16) = Some k ∧
    length (ccm_g1 (K := ExpandedKey Kalyna128_128) (seqZ 16 16) (seqZ 0 5) (seqZ 0 20)) = 16%nat ∧
    (length (ccm_g2 (K := ExpandedKey Kalyna128_128) (seqZ 0 5)) mod 16 = 0)%nat ∧
    length (ccm_tag k (seqZ 16 16) (seqZ 0 5) (seqZ 0 20)) = 16%nat ∧
    seal_in_place k (seqZ 16 16) (seqZ 0 5) (seqZ 0 20) =
      (xor_keystream (ccm_keystream k (seqZ 16 16)) 0 (seqZ 0 20), Ok (ccm_tag k (seqZ 16 16) (seqZ 0 5) (seqZ 0 20))).
Proof.
  refine (@ccm_seal_correct (ExpandedKey Kalyna128_128) _ _ _ plain_subtle plain_zeroize (seqZ 0 16) (seqZ 16 16) (seqZ 0 5) (seqZ 0 20) _ _ _ _);
    by_decision.
Defined.

(** Opening decrypts and leaves the plaintext in the buffer exactly when the tag is the one that sealing
    that plaintext returns; otherwise the buffer is wiped.  What was sealed is opened. *)
Theorem ccm_open_correct {K} `{BlockCipherLaws K} `{!CcmParams K} `{SubtleLaws} `{ZeroizeLaws} (key nonce aad buf tag : list Z) :
  array_ok (key_bytes K) key → array_ok (block_bytes K) nonce → bytes_ok aad → bytes_ok buf → length tag = ccm_q K →
  ∃ k, new key = Some k ∧
    (let pt := xor_keystream (ccm_keystream k nonce) 0 buf in
     open_in_place k nonce aad buf tag = match ccm_error aad buf with
       | Some e => (buf, Err e)
       | None => if decide ((seal_in_place k nonce aad pt).2 = Ok tag) then (pt, Ok tt)
                 else (replicate (length buf) 0, Err TagMismatch)
       end) ∧
    ∀ ct t, seal_in_place k nonce aad buf = (ct, Ok t) → open_in_place k nonce aad ct t = (buf, Ok tt).
Proof.
  intros Hkey Hn Ha Hb Ht. destruct (expanded_new_ok key Hkey) as (k & He & Hk). exists k. split; [done|].
  assert (∀ l, bytes_ok l → bytes_ok (xor_keystream (ccm_keystream k nonce) 0 l)) as Hkb.
  { intros l Hl. apply xor_keystream_ok; [done|]. intros i. apply nth_byte_ok, encrypt_block_ok; [done|].
    by apply counter_ok, encrypt_block_ok. }
  assert (∀ l, ccm_error aad (xor_keystream (ccm_keystream k nonce) 0 l) = ccm_error aad l) as Herr.
  { intros l. unfold ccm_error. rewrite length_xor_keystream. by destruct l. }
  split.
  - cbv zeta. rewrite open_spec, seal_spec by auto. rewrite Herr. destruct (ccm_error aad buf); [done|].
    cbn [snd]. repeat case_decide; congruence.
  - intros ct t Hs. rewrite seal_spec in Hs by done. destruct (ccm_error aad buf) eqn:E; [done|]. injection Hs as <- <-.
    rewrite open_spec; [|done..|by auto|].
    + rewrite Herr, E, xor_keystream_involutive. by rewrite decide_True.
    + unfold ccm_tag. rewrite length_xor_keystream. apply ccm_no_error in E as (_ & Hlb & Hla).
      by destruct (ccm_mac_prefix k Hk nonce aad buf Hn Ha Hb Hla Hlb) as [[Hm _] _].
Qed.

Lemma ccm_open_correct_witness :
  let _ := plain_subtle in let _ := plain_zeroize in
  ∃ k : ExpandedKey Kalyna128_128, new (seqZ 0 16) = Some k ∧
    (let pt := xor_keystream (ccm_keystream k (seqZ 16 16)) 0 (seqZ 0 20) in
     open_in_place k (seqZ 16 16) (seqZ 0 5) (seqZ 0 20) (seqZ 7 16) =
       if decide ((seal_in_place k (seqZ 16 16) (seqZ 0 5) pt).2 = Ok (seqZ 7 16)) then (pt, Ok tt)
       else (replicate 20 0, Err TagMismatch)) ∧
    ∀ ct t, seal_in_place k (seqZ 16 16) (seqZ 0 5) (seqZ 0 20) = (ct, Ok t) →
      open_in_place k (seqZ 16 16) (seqZ 0 5) ct t = (seqZ 0 20, Ok tt).
Proof.
  refine (@ccm_open_correct (ExpandedKey Kalyna128_128) _ _ _ plain_subtle plain_subtle_laws plain_zeroize plain_zeroize_laws
    (seqZ 0 16) (seqZ 16 16) (seqZ 0 5) (seqZ 0 20) (seqZ 7 16) _ _ _ _ _); by_decision.
Defined.
