(* ===== verification/Kupyna.v ===== *)
(** The hash function Kupyna ([hazmat/kupyna.rs]): the rounds in their three forms, the compression
    function, the padding and the incremental core shared by digests, hashers and KMAC.

    The wiping of local arrays has no effect on a result and is not modelled.  [unreachable!] is [None]. *)

From S2P Require Import Prelude TablesData Tables Kalyna.

Definition MAX_COLUMNS : nat := 16.
Definition MAX_BLOCK_BYTES : nat := MAX_COLUMNS * ROWS.

(** ** The layers *)

Definition sub_bytes (state : list (list Z)) : list (list Z) :=
  map (λ column, imap (λ row byte, sbox row byte) column) state.

Definition row_shift (last_row_shift row : nat) : nat := if Nat.eqb row (ROWS - 1) then last_row_shift else row.

Definition shift_bytes (state : list (list Z)) (last_row_shift : nat) : list (list Z) :=
  let columns := length state in
  let shifted :=
    foldl (λ shifted row,
            let shift := row_shift last_row_shift row in
            foldl (λ shifted col,
                    state_set shifted ((col + shift) mod columns)%nat row (state_get state col row))
              shifted (seq 0 columns))
      (replicate MAX_COLUMNS ZERO_COLUMN) (seq 0 ROWS) in
  take columns shifted.

Definition mix_columns (state : list (list Z)) : list (list Z) := apply_forward_matrix state.

(** The fused pass; [contribution] is [forward_sbox_mds] or its [small-tables] variant. *)
Definition sub_shift_mix_n_with (contribution : nat → Z → Z) (COLUMNS last_row_shift : nat) (state : list (list Z))
    : list (list Z) :=
  let columns_mask := (COLUMNS - 1)%nat in
  map (λ out_col,
        to_le_bytes ROWS
          (foldl (λ acc row,
                   let shift := row_shift last_row_shift row in
                   let src_col := Nat.land (out_col + COLUMNS - shift) columns_mask in
                   acc ⊕ contribution row (state_get state src_col row))
             0 (seq 0 ROWS)))
    (seq 0 COLUMNS).

Definition sub_shift_mix_n := sub_shift_mix_n_with forward_sbox_mds.
Definition sub_shift_mix_n_small := sub_shift_mix_n_with forward_sbox_mds_small.

Definition sub_shift_mix (state : list (list Z)) (last_row_shift : nat) : list (list Z) :=
  let columns := length state in
  let columns_mask := (columns - 1)%nat in
  let result :=
    map (λ out_col,
          to_le_bytes ROWS
            (foldl (λ acc row,
                     let shift := row_shift last_row_shift row in
                     let src_col := Nat.land (out_col + columns - shift) columns_mask in
                     acc ⊕ forward_sbox_mds row (state_get state src_col row))
               0 (seq 0 ROWS)))
      (seq 0 columns) ++ replicate (MAX_COLUMNS - columns) ZERO_COLUMN in
  take columns result.

(** ** The round constants *)

Definition add_round_constant_xor (state : list (list Z)) (round : Z) : list (list Z) :=
  imap (λ col column, <[0%nat := column.[0] ⊕ (wrap 8 (col * 0x10) ⊕ round)]> column) state.

Definition add_round_constant_add (state : list (list Z)) (round : Z) : list (list Z) :=
  let columns := length state in
  imap (λ col column,
         let top_byte := wrap 8 ((columns - 1 - col)%nat * 0x10) ⊕ round in
         let addend := from_le_bytes [0xF3; 0xF0; 0xF0; 0xF0; 0xF0; 0xF0; 0xF0; top_byte] in
         let word := wrapping_add 64 (from_le_bytes column) addend in
         to_le_bytes ROWS word) state.

(** The const-generic twin differs in where the number of columns comes from. *)
Definition add_round_constant_add_n (COLUMNS : nat) (state : list (list Z)) (round : Z) : list (list Z) :=
  imap (λ col column,
         let top_byte := wrap 8 ((COLUMNS - 1 - col)%nat * 0x10) ⊕ round in
         let addend := from_le_bytes [0xF3; 0xF0; 0xF0; 0xF0; 0xF0; 0xF0; 0xF0; top_byte] in
         let word := wrapping_add 64 (from_le_bytes column) addend in
         to_le_bytes ROWS word) state.

(** ** The permutations and the compression function *)

Definition t_transform (state : list (list Z)) (rounds last_row_shift : nat) : list (list Z) :=
  foldl (λ state (round : nat), sub_shift_mix (add_round_constant_xor state (wrap 8 round)) last_row_shift)
    state (seq 0 rounds).

Definition t_plus_transform (state : list (list Z)) (rounds last_row_shift : nat) : list (list Z) :=
  foldl (λ state (round : nat), sub_shift_mix (add_round_constant_add state (wrap 8 round)) last_row_shift)
    state (seq 0 rounds).

Definition t_transform_n (COLUMNS ROUNDS : nat) (state : list (list Z)) (last_row_shift : nat) : list (list Z) :=
  foldl (λ state (round : nat), sub_shift_mix_n COLUMNS last_row_shift (add_round_constant_xor state (wrap 8 round)))
    state (seq 0 ROUNDS).

Definition t_plus_transform_n (COLUMNS ROUNDS : nat) (state : list (list Z)) (last_row_shift : nat) : list (list Z) :=
  foldl (λ state (round : nat), sub_shift_mix_n COLUMNS last_row_shift (add_round_constant_add_n COLUMNS state (wrap 8 round)))
    state (seq 0 ROUNDS).

(** The element-wise exclusive or of the first columns. *)
Definition xor_columns (columns : nat) (a b : list (list Z)) : list (list Z) :=
  map (λ col, map (λ row, state_get a col row ⊕ state_get b col row) (seq 0 ROWS)) (seq 0 columns).

Definition compress (h block : list (list Z)) (rounds last_row_shift : nat) : list (list Z) :=
  let columns := length h in
  let pad := replicate (MAX_COLUMNS - columns) ZERO_COLUMN in
  let t_input := xor_columns columns h block ++ pad in
  let q_input := take columns block ++ pad in
  let t_input := on_prefix columns (λ s, t_transform s rounds last_row_shift) t_input in
  let q_input := on_prefix columns (λ s, t_plus_transform s rounds last_row_shift) q_input in
  xor_columns columns h (xor_columns columns t_input q_input).

Definition compress_n (COLUMNS ROUNDS : nat) (h block : list (list Z)) (last_row_shift : nat) : list (list Z) :=
  let t_input := xor_columns COLUMNS h block in
  let q_input := take COLUMNS block in
  let t_input := t_transform_n COLUMNS ROUNDS t_input last_row_shift in
  let q_input := t_plus_transform_n COLUMNS ROUNDS q_input last_row_shift in
  xor_columns COLUMNS h (xor_columns COLUMNS t_input q_input).

Definition bytes_to_columns (bytes : list Z) (columns : nat) : list (list Z) :=
  foldl (λ out col, <[col := slice (col * ROWS) (col * ROWS + ROWS) bytes]> out)
    (replicate MAX_COLUMNS ZERO_COLUMN) (seq 0 columns).

Definition bytes_to_columns_n (COLUMNS : nat) (bytes : list Z) : list (list Z) :=
  map (λ col, slice (col * ROWS) (col * ROWS + ROWS) bytes) (seq 0 COLUMNS).

(** ** The padding *)

Definition kupyna_padding (prefix : list Z) (msg_bits : Z) (block_bytes : nat) : list Z * nat :=
  let tail := replicate (2 * MAX_BLOCK_BYTES) 0 in
  let pos := length prefix in
  let tail := copy_at 0 prefix tail in
  let tail := <[pos := 0x80]> tail in
  let pos := (pos + 1)%nat in
  let used := (pos + 12)%nat in
  let zero_bytes := ((block_bytes - used mod block_bytes) mod block_bytes)%nat in
  let pos := (pos + zero_bytes)%nat in
  let tail := copy_at pos (take 12 (to_le_bytes 16 msg_bits)) tail in
  let pos := (pos + 12)%nat in
  (tail, pos).

(** ** The incremental core *)

Record KupynaCore : Type := {
  h : list (list Z);
  buffer : list Z;
  buffer_len : nat;
  total_len : Z;
  columns : nat;
  rounds : nat;
  last_row_shift : nat
}.

Definition core_new (columns rounds last_row_shift : nat) : KupynaCore :=
  let block_bytes := (columns * ROWS)%nat in
  {| h := state_set (replicate MAX_COLUMNS ZERO_COLUMN) 0 0 (wrap 8 block_bytes);
     buffer := replicate MAX_BLOCK_BYTES 0; buffer_len := 0; total_len := 0;
     columns := columns; rounds := rounds; last_row_shift := last_row_shift |}.

Definition block_bytes (self : KupynaCore) : nat := (columns self * ROWS)%nat.
Definition buffered (self : KupynaCore) : list Z := take (buffer_len self) (buffer self).

Definition set_h (self : KupynaCore) (h : list (list Z)) : KupynaCore :=
  {| h := h; buffer := buffer self; buffer_len := buffer_len self; total_len := total_len self;
     columns := columns self; rounds := rounds self; last_row_shift := last_row_shift self |}.

Definition set_buffer (self : KupynaCore) (buffer : list Z) (buffer_len : nat) : KupynaCore :=
  {| h := h self; buffer := buffer; buffer_len := buffer_len; total_len := total_len self;
     columns := columns self; rounds := rounds self; last_row_shift := last_row_shift self |}.

Definition add_total (self : KupynaCore) (n : Z) : KupynaCore :=
  {| h := h self; buffer := buffer self; buffer_len := buffer_len self; total_len := wrapping_add 64 (total_len self) n;
     columns := columns self; rounds := rounds self; last_row_shift := last_row_shift self |}.

Definition compress_block (self : KupynaCore) (block : list Z) : option KupynaCore :=
  match columns self with
  | 8%nat => Some (set_h self (on_prefix 8 (λ s, compress_n 8 10 s (bytes_to_columns_n 8 block) (last_row_shift self)) (h self)))
  | 16%nat => Some (set_h self (on_prefix 16 (λ s, compress_n 16 14 s (bytes_to_columns_n 16 block) (last_row_shift self)) (h self)))
  | _ => None
  end.

(** [for block in blocks { self.compress_block(block); }]. *)
Fixpoint compress_blocks (self : KupynaCore) (blocks : list (list Z)) : option KupynaCore :=
  match blocks with
  | [] => Some self
  | block :: blocks => self ← compress_block self block; compress_blocks self blocks
  end.

(** The part of [update] after the buffer has been emptied. *)
Definition update_blocks (self : KupynaCore) (data : list Z) : option KupynaCore :=
  let block_bytes := block_bytes self in
  self ← compress_blocks self (chunks_exact block_bytes data);
  let rem := remainder block_bytes data in
  Some (set_buffer self (copy_at 0 rem (buffer self)) (length rem)).

Definition update (self : KupynaCore) (data : list Z) : option KupynaCore :=
  let self := add_total self (length data) in
  let block_bytes := block_bytes self in
  if Nat.ltb 0 (buffer_len self) then
    let n := Nat.min (block_bytes - buffer_len self) (length data) in
    let self := set_buffer self (copy_at (buffer_len self) (take n data) (buffer self)) (buffer_len self + n) in
    let data := drop n data in
    if Nat.ltb (buffer_len self) block_bytes then Some self
    else
      self ← compress_block self (take block_bytes (buffer self));
      update_blocks (set_buffer self (buffer self) 0) data
  else update_blocks self data.

(** Adds [T(h)] to [h] in the first [columns] columns. *)
Definition output_transform (COLUMNS ROUNDS : nat) (self : KupynaCore) : list (list Z) :=
  let t_final := t_transform_n COLUMNS ROUNDS (take COLUMNS (h self)) (last_row_shift self) in
  on_prefix COLUMNS (λ s, xor_columns COLUMNS s t_final) (h self).

Definition output (self : KupynaCore) (output_bytes : nat) : option (list Z) :=
  self ← match columns self with
         | 8%nat => Some (set_h self (output_transform 8 10 self))
         | 16%nat => Some (set_h self (output_transform 16 14 self))
         | _ => None
         end;
  let flat := foldl (λ flat col, copy_at (col * ROWS) (nth col (h self) []) flat)
                (replicate MAX_BLOCK_BYTES 0) (seq 0 (columns self)) in
  let block_bytes := block_bytes self in
  Some (copy_at 0 (slice (block_bytes - output_bytes) block_bytes flat) (replicate 64 0)).

Definition finalize (self : KupynaCore) (output_bytes : nat) : option (list Z) :=
  let block_bytes := block_bytes self in
  let msg_bits := total_len self * 8 in
  let '(tail, pos) := kupyna_padding (take (buffer_len self) (buffer self)) msg_bits block_bytes in
  let tail_blocks := (pos / block_bytes)%nat in
  self ← compress_blocks self (map (λ i, slice (i * block_bytes) ((i + 1) * block_bytes) tail) (seq 0 tail_blocks));
  output self output_bytes.

Definition digest_generic (message : list Z) (columns rounds last_row_shift output_bytes : nat) : option (list Z) :=
  let core := core_new columns rounds last_row_shift in
  core ← update core message;
  finalize core output_bytes.

(** ** The digests and the hashers *)

Inductive kupyna : Type := Kupyna256 | Kupyna384 | Kupyna512.

(** The arguments of [digest_generic] and [KupynaCore::new] in each variant, and its digest size. *)
Definition columns_of (v : kupyna) : nat := match v with Kupyna256 => 8 | Kupyna384 | Kupyna512 => 16 end.
Definition rounds_of (v : kupyna) : nat := match v with Kupyna256 => 10 | Kupyna384 | Kupyna512 => 14 end.
Definition shift_of (v : kupyna) : nat := match v with Kupyna256 => 7 | Kupyna384 | Kupyna512 => 11 end.
Definition digest_bytes (v : kupyna) : nat := match v with Kupyna256 => 32 | Kupyna384 => 48 | Kupyna512 => 64 end.

Definition digest (v : kupyna) (message : list Z) : option (list Z) :=
  full ← digest_generic message (columns_of v) (rounds_of v) (shift_of v) (digest_bytes v);
  Some (take (digest_bytes v) full).

Definition hasher_new (v : kupyna) : KupynaCore := core_new (columns_of v) (rounds_of v) (shift_of v).
Definition hasher_update (self : KupynaCore) (data : list Z) : option KupynaCore := update self data.
Definition hasher_finalize (v : kupyna) (self : KupynaCore) : option (list Z) :=
  full ← finalize self (digest_bytes v);
  Some (take (digest_bytes v) full).

(** ** The specification: the three layers one after the other *)

Definition naive_sub_shift_mix (state : list (list Z)) (last_row_shift : nat) : list (list Z) :=
  mix_columns (shift_bytes (sub_bytes state) last_row_shift).

(** The sizes of the two permutations. *)
Definition valid_params (C R L : nat) : Prop := (C = 8 ∧ R = 10 ∧ L = 7)%nat ∨ (C = 16 ∧ R = 14 ∧ L = 11)%nat.

Ltac each_size H := destruct H as [(-> & -> & ->)|(-> & -> & ->)].

(** Gathering with a fused contribution is substituting, shifting and mixing. *)
Lemma gather_shift contribution sub table C R L s :
  valid_params C R L → state_ok C s →
  (∀ r b, (r < ROWS)%nat → byte_ok b → contribution r b = table_get table r (sub r b)) →
  sub_shift_mix_n_with contribution C L s = apply_matrix (shift_bytes (map (imap sub) s) L) table.
Proof.
  intros Hv Hs He. unfold apply_matrix.
  assert (sub_shift_mix_n_with contribution C L s =
    sub_shift_mix_n_with (λ r b, table_get table r (sub r b)) C L s) as ->.
  - each_size Hv; explode_state; cbv -[Z.lxor to_le_bytes table_get word_ok];
      repeat (rewrite He; [|by repeat constructor|done]); done.
  - each_size Hv; explode_state; cbv -[Z.lxor to_le_bytes table_get]; reflexivity.
Qed.

Definition t_spec (R L : nat) (s : list (list Z)) : list (list Z) :=
  foldl (λ s (r : nat), naive_sub_shift_mix (add_round_constant_xor s r) L) s (seq 0 R).

Definition t_plus_spec (R L : nat) (s : list (list Z)) : list (list Z) :=
  foldl (λ s (r : nat), naive_sub_shift_mix (add_round_constant_add s r) L) s (seq 0 R).

(** The element-wise exclusive or of two states. *)
Definition xor_state (a b : list (list Z)) : list (list Z) := zip_with xor_into a b.

(** [h ⊕ T(h ⊕ m) ⊕ T+(m)]. *)
Definition compress_spec (R L : nat) (h m : list (list Z)) : list (list Z) :=
  xor_state h (xor_state (t_spec R L (xor_state h m)) (t_plus_spec R L m)).

(** ** The state of the core as a function of the message *)

(** The suffix that completes [len] bytes to whole blocks, for a length field of [bits]. *)
Definition pad_suffix (bb len : nat) (bits : Z) : list Z :=
  0x80 :: replicate ((bb - (len + 13) mod bb) mod bb) 0 ++ to_le_bytes 12 bits.

Section spec.
Context (C R L : nat).
Local Abbreviation bb := (C * ROWS)%nat.

Definition initial : list (list Z) := state_set (replicate C ZERO_COLUMN) 0 0 bb.

Definition absorb (blocks : list (list Z)) : list (list Z) :=
  foldl (λ h b, compress_spec R L h (chunks_exact ROWS b)) initial blocks.

Definition padded_message (m : list Z) : list Z := m ++ pad_suffix bb (length m) (8 * length m).

(** [H(m)], before the truncation to the rightmost bytes. *)
Definition kupyna_state (m : list Z) : list (list Z) :=
  let h := absorb (chunks_exact bb (padded_message m)) in xor_state h (t_spec R L h).

Definition kupyna_hash (n : nat) (m : list Z) : list Z := drop (bb - n) (concat (kupyna_state m)).
End spec.

(** ** The rounds *)

Section rounds.
Context (C R L : nat) (Hv : valid_params C R L).
Local Abbreviation bb := (C * ROWS)%nat.

Lemma valid_facts : (0 < C ≤ MAX_COLUMNS)%nat ∧ (R ≤ 14)%nat ∧ (bb = 64 ∨ bb = 128)%nat.
Proof using Hv. unfold MAX_COLUMNS. each_size Hv; simpl; lia. Qed.

Lemma sub_shift_mix_n_ok f s : state_ok C (sub_shift_mix_n_with f C L s).
Proof using Hv.
  unfold sub_shift_mix_n_with. split; [by rewrite length_map, length_seq|]. apply Forall_map, Forall_forall.
  intros. apply to_le_bytes_ok.
Qed.

Lemma sub_shift_mix_naive s : state_ok C s → sub_shift_mix_n C L s = naive_sub_shift_mix s L.
Proof using Hv. intros. apply (gather_shift _ sbox _ C R); [done..|]. intros. by apply forward_sbox_mds_eq. Qed.

Lemma sub_shift_mix_small s : state_ok C s → sub_shift_mix_n_small C L s = naive_sub_shift_mix s L.
Proof using Hv.
  intros. apply (gather_shift _ sbox _ C R); [done..|]. intros. rewrite forward_sbox_mds_small_eq by done. by apply forward_sbox_mds_eq.
Qed.

Lemma sub_shift_mix_runtime s : length s = C → sub_shift_mix s L = sub_shift_mix_n C L s.
Proof using Hv. intros <-. unfold sub_shift_mix. rewrite take_app_length'; [done|]. by rewrite length_map, length_seq. Qed.

Lemma imap_ok (f : nat → list Z → list Z) s :
  (∀ i c, column_ok c → column_ok (f i c)) → state_ok C s → state_ok C (imap f s).
Proof using Hv.
  intros Hf [Hl Hs]. split; [by rewrite length_imap|]. apply Forall_lookup. intros i x Hx. rewrite list_lookup_imap in Hx.
  destruct (s !! i) eqn:E; simplify_eq/=. apply Hf. by eapply Forall_lookup in Hs.
Qed.

Lemma add_round_constant_xor_ok s r : byte_ok r → state_ok C s → state_ok C (add_round_constant_xor s r).
Proof using Hv.
  intros Hr. apply imap_ok. intros i c [Hl Hb]. split; [by rewrite length_insert|]. apply Forall_insert; [done|].
  apply word_ok_lxor; [lia|by apply nth_byte_ok|]. apply word_ok_lxor; [lia| |done]. apply word_ok_wrap. lia.
Qed.

Lemma add_round_constant_add_ok s r : state_ok C s → state_ok C (add_round_constant_add s r).
Proof using Hv. apply imap_ok. intros. apply to_le_bytes_ok. Qed.

Lemma add_n_runtime s r : length s = C → add_round_constant_add_n C s r = add_round_constant_add s r.
Proof using Hv. by intros <-. Qed.

Lemma round_byte (r : nat) : (r < 14)%nat → byte_ok r ∧ wrap 8 r = r.
Proof using Hv. intros. assert (byte_ok r) by (unfold word_ok; lia). split; [done|]. by apply wrap_id. Qed.

Lemma t_transform_n_spec s :
  state_ok C s → t_transform_n C R s L = t_spec R L s ∧ t_transform s R L = t_spec R L s ∧ state_ok C (t_spec R L s).
Proof using Hv.
  unfold t_transform_n, t_transform, t_spec. destruct valid_facts as (_ & HR & _).
  assert (∀ l, Forall (λ r, r < 14)%nat l → ∀ s, state_ok C s →
    foldl (λ state (round : nat), sub_shift_mix_n C L (add_round_constant_xor state (wrap 8 round))) s l =
      foldl (λ s (r : nat), naive_sub_shift_mix (add_round_constant_xor s r) L) s l ∧
    foldl (λ state (round : nat), sub_shift_mix (add_round_constant_xor state (wrap 8 round)) L) s l =
      foldl (λ s (r : nat), naive_sub_shift_mix (add_round_constant_xor s r) L) s l ∧
    state_ok C (foldl (λ s (r : nat), naive_sub_shift_mix (add_round_constant_xor s r) L) s l)) as H.
  2: { intros Hs. apply H; [|done]. apply Forall_seq. lia. }
  induction 1 as [|r l Hr Hl IH]; intros x Hx; [done|]. cbn [foldl]. destruct (round_byte r Hr) as [Hb ->].
  pose proof (add_round_constant_xor_ok x r Hb Hx) as Ha. rewrite sub_shift_mix_runtime by apply Ha.
  rewrite <- !sub_shift_mix_naive by done. apply IH. apply sub_shift_mix_n_ok.
Qed.

Lemma t_plus_transform_n_spec s :
  state_ok C s →
  t_plus_transform_n C R s L = t_plus_spec R L s ∧ t_plus_transform s R L = t_plus_spec R L s ∧ state_ok C (t_plus_spec R L s).
Proof using Hv.
  unfold t_plus_transform_n, t_plus_transform, t_plus_spec. destruct valid_facts as (_ & HR & _).
  assert (∀ l, Forall (λ r, r < 14)%nat l → ∀ s, state_ok C s →
    foldl (λ state (round : nat), sub_shift_mix_n C L (add_round_constant_add_n C state (wrap 8 round))) s l =
      foldl (λ s (r : nat), naive_sub_shift_mix (add_round_constant_add s r) L) s l ∧
    foldl (λ state (round : nat), sub_shift_mix (add_round_constant_add state (wrap 8 round)) L) s l =
      foldl (λ s (r : nat), naive_sub_shift_mix (add_round_constant_add s r) L) s l ∧
    state_ok C (foldl (λ s (r : nat), naive_sub_shift_mix (add_round_constant_add s r) L) s l)) as H.
  2: { intros Hs. apply H; [|done]. apply Forall_seq. lia. }
  induction 1 as [|r l Hr Hl IH]; intros x Hx; [done|]. cbn [foldl]. destruct (round_byte r Hr) as [Hb ->].
  pose proof (add_round_constant_add_ok x r Hx) as Ha. rewrite add_n_runtime by apply Hx.
  rewrite sub_shift_mix_runtime by apply Ha. rewrite <- !sub_shift_mix_naive by done. apply IH. apply sub_shift_mix_n_ok.
Qed.

(** ** The compression function *)

Lemma xor_state_ok a b : state_ok C a → state_ok C b → state_ok C (xor_state a b).
Proof using Hv.
  intros [Ha Fa] [Hb Fb]. unfold xor_state. split; [rewrite length_zip_with; lia|]. clear Ha Hb. revert b Fb.
  induction Fa as [|c a Hc Fa IH]; intros [|d b] Fb; simpl; try constructor.
  - apply Forall_cons in Fb as [[Hl Hd] _]. by apply array_ok_xor_into.
  - apply IH. by apply Forall_cons in Fb as [_ Fb].
Qed.

Lemma xor_columns_state a b : state_ok C (take C a) → state_ok C (take C b) → xor_columns C a b = xor_state (take C a) (take C b).
Proof using Hv.
  intros [Ha Fa] [Hb Fb]. unfold xor_columns, xor_state. apply list_eq. intros i.
  rewrite map_fmap, list_lookup_fmap, lookup_zip_with. destruct (decide (i < C)%nat) as [Hi|Hi].
  2: { rewrite !lookup_ge_None_2 by (rewrite ?length_seq; lia). done. }
  rewrite lookup_seq_lt by done. destruct (lookup_lt_is_Some_2 (take C a) i) as [c Hc]; [lia|].
  destruct (lookup_lt_is_Some_2 (take C b) i) as [d Hd]; [lia|]. rewrite Hc, Hd. cbn [fmap option_fmap option_map mbind option_bind].
  pose proof (Forall_lookup_1 _ _ _ _ Fa Hc) as [Hlc _]. pose proof (Forall_lookup_1 _ _ _ _ Fb Hd) as [Hld _].
  rewrite lookup_take_lt in Hc, Hd by done. f_equal. unfold state_get. rewrite Nat.add_0_l, !nth_lookup, Hc, Hd.
  cbn [default from_option id]. unfold ROWS in *. explode Hlc. explode Hld. done.
Qed.

Lemma take_state s : state_ok C s → take C s = s.
Proof using Hv. intros [Hl _]. apply take_ge. lia. Qed.

Lemma compress_n_spec h m :
  state_ok C h → state_ok C m →
  compress_n C R h m L = compress_spec R L h m ∧ compress h m R L = compress_spec R L h m ∧ state_ok C (compress_spec R L h m).
Proof using Hv.
  intros Hh Hm. unfold compress_n, compress, compress_spec. rewrite (proj1 Hh).
  assert (xor_columns C h m = xor_state h m) as E by (by rewrite xor_columns_state, !take_state by (by rewrite ?take_state)).
  rewrite E, (take_state m) by done. pose proof (xor_state_ok h m Hh Hm) as Hx.
  destruct (t_transform_n_spec _ Hx) as (-> & Et & Ht). destruct (t_plus_transform_n_spec _ Hm) as (-> & Eq & Hq).
  pose proof (xor_state_ok _ _ Ht Hq) as Hy.
  assert (∀ s t f g, state_ok C s → state_ok C t → f s = t_spec R L (xor_state h m) → g t = t_plus_spec R L m →
    xor_columns C (on_prefix C f (s ++ replicate (MAX_COLUMNS - C) ZERO_COLUMN)) (on_prefix C g (t ++ replicate (MAX_COLUMNS - C) ZERO_COLUMN)) =
    xor_state (t_spec R L (xor_state h m)) (t_plus_spec R L m)) as Hp.
  { intros s t f g Hs Ht' Hf Hg. unfold on_prefix. rewrite !take_app_length', Hf, Hg by (symmetry; apply Hs || apply Ht').
    rewrite xor_columns_state; rewrite !take_app_length' by (symmetry; apply Ht || apply Hq); done. }
  split; [|split].
  - rewrite (xor_columns_state (t_spec _ _ _)) by (by rewrite ?take_state). rewrite !(take_state (t_spec _ _ _)), (take_state (t_plus_spec _ _ _)) by done.
    by rewrite xor_columns_state, !take_state by (by rewrite ?take_state).
  - rewrite Hp by done. by rewrite xor_columns_state, !take_state by (by rewrite ?take_state).
  - by apply xor_state_ok.
Qed.

(** ** The core *)

Local Abbreviation pad_columns := (replicate (MAX_COLUMNS - C) ZERO_COLUMN).

Lemma block_columns b : array_ok bb b → bytes_to_columns_n C b = chunks_exact ROWS b ∧ state_ok C (chunks_exact ROWS b).
Proof using Hv.
  intros [Hl Hb]. assert (chunks_exact ROWS b = chunks_n C ROWS b) as E by (unfold chunks_exact; by rewrite Hl, Nat.div_mul).
  split.
  - rewrite E. unfold bytes_to_columns_n. apply list_eq. intros i. rewrite map_fmap, list_lookup_fmap. destruct (decide (i < C)%nat).
    + rewrite lookup_seq_lt, chunks_n_lookup by done. done.
    + rewrite !lookup_ge_None_2; [done|rewrite length_chunks_n; lia|rewrite length_seq; lia].
  - split; [rewrite E; apply length_chunks_n|]. apply chunks_exact_ok; [unfold ROWS; lia|done].
Qed.

Lemma initial_ok : state_ok C (initial C).
Proof using Hv. each_size Hv; by_decision. Qed.

Lemma absorb_step_ok hs b : state_ok C hs → array_ok bb b → state_ok C (compress_spec R L hs (chunks_exact ROWS b)).
Proof using Hv. intros Hh Hb. by apply compress_n_spec, block_columns. Qed.

Lemma absorb_from_ok hs blocks :
  state_ok C hs → Forall (array_ok bb) blocks →
  state_ok C (foldl (λ h b, compress_spec R L h (chunks_exact ROWS b)) hs blocks).
Proof using Hv. intros Hh Hb. revert hs Hh. induction Hb; intros hs Hh; simpl; [done|]. by auto using absorb_step_ok. Qed.

(** [core] has absorbed the message [m]. *)
Record core_at (core : KupynaCore) (m : list Z) : Prop := {
  at_columns : columns core = C;
  at_shift : last_row_shift core = L;
  at_h : h core = absorb C R L (chunks_exact bb m) ++ pad_columns;
  at_buffer : length (buffer core) = MAX_BLOCK_BYTES;
  at_buffered : buffered core = remainder bb m;
  at_len : buffer_len core = length (remainder bb m);
  at_total : total_len core = wrap 64 (length m);
  at_bytes : bytes_ok m
}.

Lemma core_new_at : core_at (core_new C R L) [].
Proof using Hv. split; try done; each_size Hv; first [by constructor|vm_compute; reflexivity]. Qed.

Lemma compress_block_spec core hs b :
  columns core = C → last_row_shift core = L → h core = hs ++ pad_columns → state_ok C hs → array_ok bb b →
  compress_block core b = Some (set_h core (compress_spec R L hs (chunks_exact ROWS b) ++ pad_columns)).
Proof using Hv.
  intros Hc Hs Hh Hok Hb. destruct (block_columns b Hb) as [E Hbok]. destruct (compress_n_spec hs _ Hok Hbok) as (En & _ & _).
  unfold compress_block. rewrite Hc, Hs, Hh. rewrite <- E in En. rewrite <- E, <- En. destruct Hok as [Hl _].
  each_size Hv; do 2 f_equal; unfold on_prefix; by rewrite take_app_length', drop_app_length' by done.
Qed.

Lemma compress_blocks_spec core hs blocks :
  columns core = C → last_row_shift core = L → h core = hs ++ pad_columns → state_ok C hs → Forall (array_ok bb) blocks →
  compress_blocks core blocks =
    Some (set_h core (foldl (λ h b, compress_spec R L h (chunks_exact ROWS b)) hs blocks ++ pad_columns)).
Proof using Hv.
  intros Hc Hs Hh Hok Hb. revert core hs Hc Hs Hh Hok. induction Hb as [|b blocks Hb Hbs IH]; intros core hs Hc Hs Hh Hok.
  { cbn [compress_blocks foldl]. rewrite <- Hh. by destruct core. }
  cbn [compress_blocks foldl]. rewrite (compress_block_spec core hs) by done. cbn [mbind option_bind].
  rewrite (IH _ (compress_spec R L hs (chunks_exact ROWS b))) by (done || by apply absorb_step_ok). done.
Qed.

Lemma absorb_ok m : bytes_ok m → state_ok C (absorb C R L (chunks_exact bb m)).
Proof using Hv.
  intros Hb. apply absorb_from_ok; [apply initial_ok|]. destruct valid_facts as (_ & _ & ?). apply chunks_exact_ok; [lia|done].
Qed.

Lemma total_app (a b : nat) : wrapping_add 64 (wrap 64 a) b = wrap 64 (a + b)%nat.
Proof using. unfold wrapping_add. rewrite !wrap_mod, Zplus_mod_idemp_l by lia. f_equal. lia. Qed.

(** A core whose message is a whole number of blocks. *)
Lemma update_blocks_at core m n d :
  columns core = C → last_row_shift core = L → h core = absorb C R L (chunks_exact bb m) ++ pad_columns →
  length (buffer core) = MAX_BLOCK_BYTES → total_len core = wrap 64 (length m + length d)%nat →
  (length m mod bb = 0)%nat → bytes_ok m → bytes_ok d → n = (m ++ d) →
  ∃ core', update_blocks core d = Some core' ∧ core_at core' n.
Proof using Hv.
  intros Hc Hs Hh Hbl Ht Hm Hbm Hbd ->. destruct valid_facts as (HC & _ & Hbb). unfold update_blocks.
  assert (block_bytes core = bb) as -> by (unfold block_bytes; by rewrite Hc).
  rewrite (compress_blocks_spec core _ (chunks_exact bb d)) by (done || by apply absorb_ok || (apply chunks_exact_ok; [lia|done])).
  eexists. split; [done|]. assert (length (remainder bb d) < bb)%nat as Hlt by (rewrite length_remainder; apply Nat.mod_upper_bound; lia).
  assert (bb ≤ MAX_BLOCK_BYTES)%nat by (unfold MAX_BLOCK_BYTES, MAX_COLUMNS, ROWS in *; lia).
  split; cbn -[Nat.mul ROWS chunks_exact remainder wrap copy_at MAX_COLUMNS MAX_BLOCK_BYTES]; try done.
  - rewrite chunks_exact_app by lia. unfold absorb. by rewrite foldl_app.
  - rewrite length_copy_at; lia.
  - unfold buffered. cbn -[Nat.mul ROWS chunks_exact remainder copy_at]. rewrite remainder_app, copy_at_0 by lia. by apply take_app_length.
  - by rewrite remainder_app by lia.
  - by rewrite Ht, length_app.
  - by apply Forall_app.
Qed.

Lemma update_at core m d :
  core_at core m → bytes_ok d → ∃ core', update core d = Some core' ∧ core_at core' (m ++ d).
Proof using Hv.
  intros [Hc Hs Hh Hbl Hbf Hl Ht Hb] Hd. destruct valid_facts as (HC & _ & Hbb). unfold update.
  assert (block_bytes (add_total core (length d)) = bb) as -> by (unfold block_bytes; cbn; by rewrite Hc).
  assert (length (remainder bb m) < bb)%nat as Hlt by (rewrite length_remainder; apply Nat.mod_upper_bound; lia).
  assert (bb ≤ MAX_BLOCK_BYTES)%nat as Hmax by (unfold MAX_BLOCK_BYTES, MAX_COLUMNS, ROWS in *; lia).
  cbn [buffer_len add_total]. rewrite Hl. destruct (Nat.ltb_spec 0 (length (remainder bb m))) as [Hpos|Hz].
  2: { apply (update_blocks_at _ m); try done; [cbn; rewrite Ht; apply total_app|]. rewrite <- length_remainder. lia. }
  set (r := remainder bb m) in *. set (n := Nat.min (bb - length r) (length d)).
  cbn [set_buffer buffer_len buffer]. unfold buffered in Hbf. rewrite Hl in Hbf.
  destruct (chunks_exact_rem bb m d ltac:(lia)) as [Ec Er]. fold r in Ec, Er.
  assert (∀ k, (k ≤ bb - length r)%nat → (k ≤ length d)%nat → take (length r + k) (copy_at (length r) (take k d) (buffer core)) = r ++ take k d) as Htk.
  { intros k Hk Hkd. assert (length (take k d) = k) as E by (rewrite length_take; lia). rewrite <- E at 1.
    rewrite take_copy_at by lia. by rewrite Hbf. }
  assert (∀ k, (k ≤ bb - length r)%nat → (k ≤ length d)%nat → length (copy_at (length r) (take k d) (buffer core)) = MAX_BLOCK_BYTES) as Hcl.
  { intros k Hk Hkd. rewrite length_copy_at; [done|]. rewrite length_take. lia. }
  destruct (Nat.ltb_spec (length r + n) bb) as [Hsm|Hfull].
  - assert (n = length d) as En by lia. rewrite En in *. eexists. split; [done|].
    destruct (chunks_exact_short bb (r ++ d)) as [E1 E2]; [rewrite length_app; lia|]. rewrite E1, app_nil_r in Ec. rewrite E2 in Er.
    split; cbn -[Nat.mul ROWS chunks_exact remainder wrap copy_at MAX_COLUMNS MAX_BLOCK_BYTES]; try done.
    + by rewrite Ec.
    + by apply Hcl; [lia|].
    + unfold buffered. cbn -[Nat.mul ROWS chunks_exact remainder copy_at]. rewrite Htk by lia. by rewrite Er, (take_ge d) by lia.
    + by rewrite Er, length_app.
    + by rewrite Ht, total_app, length_app.
    + by apply Forall_app.
  - assert (length r + n = bb)%nat as En by lia. pose proof (Htk n ltac:(lia) ltac:(lia)) as Hblk. rewrite En in Hblk.
    assert (array_ok bb (r ++ take n d)) as Hbo.
    { split; [rewrite length_app, length_take; lia|]. apply Forall_app. split; [by apply Forall_drop|by apply Forall_take]. }
    cbv zeta. cbn [buffer set_buffer]. change (buffer (add_total core (length d))) with (buffer core). rewrite En, Hblk. rewrite (compress_block_spec _ (absorb C R L (chunks_exact bb m))) by (done || by apply absorb_ok).
    cbn [mbind option_bind]. apply (update_blocks_at _ (m ++ take n d)); cbn -[Nat.mul ROWS chunks_exact remainder wrap copy_at MAX_COLUMNS MAX_BLOCK_BYTES]; try done.
    + f_equal. destruct (chunks_exact_rem bb m (take n d) ltac:(lia)) as [-> _]. fold r. unfold absorb. rewrite foldl_app.
      destruct (chunks_exact_cons bb (r ++ take n d)) as [E1 _]; [lia|by rewrite (array_ok_length _ _ Hbo)|].
      rewrite E1, (take_ge (r ++ _)), (drop_ge (r ++ _)), chunks_exact_nil by (by rewrite (array_ok_length _ _ Hbo)). done.
    + by apply Hcl; lia.
    + rewrite Ht, total_app. f_equal. rewrite length_app, length_take, length_drop. lia.
    + rewrite <- length_remainder. destruct (chunks_exact_rem bb m (take n d) ltac:(lia)) as [_ ->]. fold r.
      rewrite length_remainder, (array_ok_length _ _ Hbo). apply Nat.Div0.mod_same.
    + apply Forall_app. split; [done|by apply Forall_take].
    + by apply Forall_drop.
    + by rewrite <- app_assoc, take_drop.
Qed.

(** ** The padding and the output *)

Lemma pad_suffix_mod n bits : pad_suffix bb (n mod bb) bits = pad_suffix bb n bits.
Proof using Hv. unfold pad_suffix. do 4 f_equal. by rewrite Nat.Div0.add_mod_idemp_l. Qed.

Lemma length_pad_suffix n bits : length (pad_suffix bb n bits) = (13 + (bb - (n + 13) mod bb) mod bb)%nat.
Proof using. unfold pad_suffix. cbn [length]. rewrite length_app, length_replicate, length_to_le_bytes. lia. Qed.

(** The padding completes the data to whole blocks with as few zeros as possible. *)
Lemma pad_aligned n bits : ((n + length (pad_suffix bb n bits)) mod bb = 0)%nat.
Proof using Hv.
  destruct valid_facts as (_ & _ & Hbb). rewrite length_pad_suffix. rewrite Nat.add_assoc.
  pose proof (Nat.mod_upper_bound (n + 13) bb ltac:(lia)). rewrite Nat.Div0.add_mod_idemp_r.
  pose proof (Nat.div_mod_eq (n + 13) bb) as E. set (x := ((n + 13) mod bb)%nat) in *. set (q := ((n + 13) / bb)%nat) in *.
  replace (n + 13 + (bb - x))%nat with ((q + 1) * bb)%nat by lia. apply Nat.Div0.mod_mul.
Qed.

Lemma kupyna_padding_spec p bits :
  (length p < bb)%nat →
  let '(tail, pos) := kupyna_padding p bits bb in
  take pos tail = p ++ pad_suffix bb (length p) bits ∧ (pos mod bb = 0)%nat ∧ (pos ≤ length tail)%nat.
Proof using Hv.
  intros Hp. destruct valid_facts as (_ & _ & Hbb). unfold kupyna_padding. change (2 * MAX_BLOCK_BYTES)%nat with 256%nat.
  pose proof (pad_aligned (length p) bits) as Ha. rewrite length_pad_suffix in Ha.
  replace (length p + 1 + 12)%nat with (length p + 13)%nat by lia.
  assert ((bb - (length p + 13) mod bb) mod bb < bb)%nat as Hz by (apply Nat.mod_upper_bound; lia).
  assert (length p + 13 + (bb - (length p + 13) mod bb) mod bb ≤ 2 * bb)%nat as Hle.
  { pose proof (Nat.mod_upper_bound (length p + 13) bb ltac:(lia)). pose proof (Nat.div_mod_eq (length p + 13) bb) as E.
    pose proof (Nat.Div0.mod_le (bb - (length p + 13) mod bb) bb).
    assert ((length p + 13) / bb < 2)%nat as Hq by (apply Nat.Div0.div_lt_upper_bound; lia).
    pose proof (Nat.mul_le_mono_l _ 1 bb (proj1 (Nat.lt_succ_r _ _) Hq)). lia. }
  set (z := ((bb - (length p + 13) mod bb) mod bb)%nat) in *.
  rewrite copy_at_0, drop_replicate by (rewrite length_replicate; lia). rewrite insert_app_r_alt, Nat.sub_diag by lia.
  rewrite (replicate_pos 0 (256 - length p)) by lia. cbn [insert list_insert].
  rewrite take_to_le_bytes by lia. set (le := to_le_bytes 12 bits). assert (length le = 12%nat) as Hle12 by apply length_to_le_bytes.
  assert (length (p ++ 0x80 :: replicate (256 - length p - 1) 0) = 256%nat) as Hlen by (rewrite length_app; cbn [length]; rewrite length_replicate; lia).
  split; [|split].
  - rewrite <- Hle12 at 1. rewrite take_copy_at by lia. rewrite <- (Nat.add_assoc (length p)), take_app_add. cbn [Nat.add take].
    rewrite take_replicate, <- app_assoc. unfold pad_suffix. fold z le. cbn [app]. do 4 f_equal. lia.
  - transitivity ((length p + (13 + z)) mod bb)%nat; [f_equal; lia|done].
  - rewrite length_copy_at by lia. lia.
Qed.

Lemma slices_chunks (l : list Z) k n : (k * n ≤ length l)%nat →
  map (λ i, slice (i * n) ((i + 1) * n) l) (seq 0 k) = chunks_n k n (take (k * n) l).
Proof using.
  intros Hk. apply list_eq. intros i. rewrite map_fmap, list_lookup_fmap. destruct (decide (i < k)%nat) as [Hi|Hi].
  - rewrite lookup_seq_lt, chunks_n_lookup by done. cbn. f_equal. unfold slice.
    replace ((i + 1) * n - i * n)%nat with n by lia. replace (i * n + n - i * n)%nat with n by lia.
    rewrite !take_drop_commute, take_take. do 2 f_equal. nia.
  - rewrite !lookup_ge_None_2; [done|rewrite length_chunks_n; lia|rewrite length_seq; lia].
Qed.

Lemma flat_spec st pad n :
  state_ok C st → (bb ≤ n)%nat →
  foldl (λ flat col, copy_at (col * ROWS) (nth col (st ++ pad) []) flat) (replicate n 0) (seq 0 C) =
    concat st ++ replicate (n - bb) 0.
Proof using Hv.
  intros [Hl Hs] Hn.
  assert (∀ c, (c ≤ C)%nat → foldl (λ flat col, copy_at (col * ROWS) (nth col (st ++ pad) []) flat) (replicate n 0) (seq 0 c) =
    concat (take c st) ++ replicate (n - c * ROWS) 0) as H.
  2: { rewrite H by done. rewrite take_ge by lia. done. }
  induction c as [|c IH]; intros Hc; [by rewrite Nat.sub_0_r|]. rewrite seq_S, foldl_app. cbn [foldl]. rewrite IH, Nat.add_0_l by lia.
  destruct (lookup_lt_is_Some_2 st c) as [x Hx]; [lia|]. pose proof (Forall_lookup_1 _ _ _ _ Hs Hx) as [Hlx _].
  rewrite nth_lookup, lookup_app_l, Hx by lia. cbn [default from_option id]. rewrite (take_S_r st c x Hx), concat_app. cbn [concat].
  assert (length (concat (take c st)) = c * ROWS)%nat as Hcl.
  { rewrite (length_concat_const ROWS), length_take; [f_equal; lia|]. apply Forall_take. eapply Forall_impl; [exact Hs|]. by intros ? []. }
  unfold copy_at. rewrite take_app_length', drop_app_ge, Hcl, Hlx, drop_replicate, app_nil_r, <- app_assoc by lia. do 2 f_equal. f_equal. lia.
Qed.

Lemma output_spec core hs n :
  columns core = C → last_row_shift core = L → h core = hs ++ pad_columns → state_ok C hs → (n ≤ 64)%nat →
  output core n = Some (drop (bb - n) (concat (xor_state hs (t_spec R L hs))) ++ replicate (64 - n) 0).
Proof using Hv.
  intros Hc Hs Hh Hok Hn. destruct valid_facts as (HC & _ & Hbb).
  destruct (t_transform_n_spec hs Hok) as (Et & _ & Hto). pose proof (xor_state_ok hs _ Hok Hto) as Hx.
  assert (output_transform C R core = xor_state hs (t_spec R L hs) ++ pad_columns) as Eo.
  { unfold output_transform, on_prefix. rewrite Hh, Hs. rewrite take_app_length', drop_app_length' by (symmetry; apply Hok). rewrite Et.
    rewrite xor_columns_state; rewrite ?take_state; done. }
  assert (output core n = Some (copy_at 0 (slice (bb - n) bb
      (foldl (λ flat col, copy_at (col * ROWS) (nth col (output_transform C R core) []) flat) (replicate MAX_BLOCK_BYTES 0) (seq 0 C)))
      (replicate 64 0))) as ->.
  { unfold output, block_bytes. rewrite Hc. each_size Hv; cbn [mbind option_bind columns set_h]; rewrite Hc; done. }
  rewrite Eo, flat_spec by (done || (unfold MAX_BLOCK_BYTES, MAX_COLUMNS, ROWS in *; lia)).
  destruct (concat_state_ok _ _ Hx) as [Hl _]. unfold slice. replace (bb - (bb - n))%nat with n by lia.
  rewrite drop_app_le, take_app_length' by (rewrite ?length_drop; lia). rewrite copy_at_0 by (rewrite length_drop, length_replicate; lia).
  by rewrite drop_replicate, length_drop, Hl; do 3 f_equal; lia.
Qed.

(** The core returns the hash of what it has absorbed. *)
Lemma finalize_at core m n :
  core_at core m → length m < 2 ^ 64 → (n ≤ 64)%nat →
  finalize core n = Some (kupyna_hash C R L n m ++ replicate (64 - n) 0).
Proof using Hv.
  intros [Hc Hs Hh Hbl Hbf Hl Ht Hb] Hm Hn. destruct valid_facts as (HC & _ & Hbb). unfold finalize.
  assert (block_bytes core = bb) as -> by (unfold block_bytes; by rewrite Hc).
  unfold buffered in Hbf. rewrite Hbf, Ht, wrap_id by (unfold word_ok; lia).
  assert (length (remainder bb m) < bb)%nat as Hlt by (rewrite length_remainder; apply Nat.mod_upper_bound; lia).
  pose proof (kupyna_padding_spec (remainder bb m) (length m * 8) Hlt) as Hp.
  destruct (kupyna_padding _ _ _) as [tail pos]. destruct Hp as (Hp & Hpm & Hpl). pose proof (aligned_length_nat _ _ Hpm) as Epos.
  rewrite length_remainder, pad_suffix_mod, (Z.mul_comm (length m)) in Hp.
  rewrite slices_chunks by lia. rewrite <- Epos, Hp. set (suf := pad_suffix bb (length m) (8 * length m)) in *.
  assert (length (remainder bb m ++ suf) = pos) as Hlen by (rewrite <- Hp, length_take; lia).
  assert (chunks_n (pos / bb) bb (remainder bb m ++ suf) = chunks_exact bb (remainder bb m ++ suf)) as ->
    by (unfold chunks_exact; by rewrite Hlen).
  assert (bytes_ok suf) as Hsb.
  { unfold suf, pad_suffix. constructor; [unfold word_ok; lia|]. apply Forall_app. split; [apply Forall_replicate, byte_ok_0|apply to_le_bytes_ok]. }
  rewrite (compress_blocks_spec core (absorb C R L (chunks_exact bb m))); [|done..|by apply absorb_ok|].
  2: { apply chunks_exact_ok; [lia|]. apply Forall_app. split; [by apply Forall_drop|done]. }
  cbn [mbind option_bind]. unfold absorb. rewrite <- foldl_app. rewrite <- (proj1 (chunks_exact_rem bb m suf ltac:(lia))).
  rewrite (output_spec _ (absorb C R L (chunks_exact bb (m ++ suf)))); [done..| |done].
  apply absorb_ok. by apply Forall_app.
Qed.

Lemma length_kupyna_hash n m : (n ≤ bb)%nat → bytes_ok m → array_ok n (kupyna_hash C R L n m).
Proof using Hv.
  intros Hn Hb. unfold kupyna_hash, kupyna_state. set (hk := absorb _ _ _ _).
  assert (state_ok C hk) as Hh.
  { apply absorb_ok. unfold padded_message. apply Forall_app. split; [done|]. unfold pad_suffix. constructor; [unfold word_ok; lia|].
    apply Forall_app. split; [apply Forall_replicate, byte_ok_0|apply to_le_bytes_ok]. }
  destruct (t_transform_n_spec hk Hh) as (_ & _ & Ht). pose proof (concat_state_ok _ _ (xor_state_ok _ _ Hh Ht)) as Hc.
  pose proof (array_ok_drop (bb - n) _ _ Hc) as Hd. by replace (bb - (bb - n))%nat with n in Hd by lia.
Qed.
End rounds.

(** ** The digests *)

Lemma variant_params v : valid_params (columns_of v) (rounds_of v) (shift_of v).
Proof. destruct v; [by left|by right|by right]. Qed.

Lemma digest_bytes_le v : (digest_bytes v ≤ 64)%nat ∧ (digest_bytes v ≤ columns_of v * ROWS)%nat.
Proof. destruct v; simpl; lia. Qed.

(** The hash of the standard, its rightmost bytes. *)
Definition kupyna_digest (v : kupyna) (m : list Z) : list Z :=
  kupyna_hash (columns_of v) (rounds_of v) (shift_of v) (digest_bytes v) m.

(** A hasher that has absorbed [m]. *)
Definition hasher_at (v : kupyna) (core : KupynaCore) (m : list Z) : Prop :=
  core_at (columns_of v) (rounds_of v) (shift_of v) core m.

Lemma kupyna_digest_ok v m : bytes_ok m → array_ok (digest_bytes v) (kupyna_digest v m).
Proof. intros Hm. apply length_kupyna_hash; [apply variant_params|apply digest_bytes_le|done]. Qed.

Lemma finalize_digest v core m :
  hasher_at v core m → length m < 2 ^ 64 →
  finalize core (digest_bytes v) = Some (kupyna_digest v m ++ replicate (64 - digest_bytes v) 0) ∧
  hasher_finalize v core = Some (kupyna_digest v m).
Proof.
  intros Hat Hl. destruct (digest_bytes_le v) as [H64 _]. unfold hasher_finalize.
  pose proof (at_bytes _ _ _ _ _ Hat) as Hb. pose proof (kupyna_digest_ok v m Hb) as [Hd _].
  rewrite (finalize_at _ _ _ (variant_params v) core m) by done. fold (kupyna_digest v m). split; [done|].
  cbn [mbind option_bind]. by rewrite take_app_length'.
Qed.

(** A sequence of [update] calls. *)
Fixpoint updates (core : KupynaCore) (chunks : list (list Z)) : option KupynaCore :=
  match chunks with
  | [] => Some core
  | c :: chunks => core ← hasher_update core c; updates core chunks
  end.

Lemma updates_at v core m chunks :
  hasher_at v core m → Forall (Forall (word_ok 8)) chunks →
  ∃ core', updates core chunks = Some core' ∧ hasher_at v core' (m ++ concat chunks).
Proof.
  intros Hat Hc. revert core m Hat. induction Hc as [|c chunks Hc Hcs IH]; intros core m Hat; cbn [updates concat].
  { exists core. by rewrite app_nil_r. }
  destruct (update_at _ _ _ (variant_params v) core m c Hat Hc) as (core' & He & Hat'). unfold hasher_update. rewrite He.
  cbn [mbind option_bind]. destruct (IH core' _ Hat') as (core2 & He2 & Hat2). exists core2. by rewrite app_assoc.
Qed.

Lemma digest_spec v m : bytes_ok m → length m < 2 ^ 64 → digest v m = Some (kupyna_digest v m).
Proof.
  intros Hb Hl. unfold digest, digest_generic.
  destruct (update_at _ _ _ (variant_params v) _ [] m (core_new_at _ _ _ (variant_params v)) Hb) as (core & -> & Hat).
  cbn [mbind option_bind]. destruct (finalize_digest v core m Hat Hl) as [-> _]. cbn [mbind option_bind].
  by rewrite take_app_length' by (symmetry; by apply kupyna_digest_ok).
Qed.

(** A hasher fed in pieces. *)
Lemma updates_digest (v : kupyna) (chunks : list (list Z)) :
  Forall (Forall (word_ok 8)) chunks → length (concat chunks) < 2 ^ 64 →
  (core ← updates (hasher_new v) chunks; hasher_finalize v core) = Some (kupyna_digest v (concat chunks)).
Proof.
  intros Hc Hl. destruct (updates_at v _ [] chunks (core_new_at _ _ _ (variant_params v)) Hc) as (core & E & Hat).
  unfold hasher_new. rewrite E. cbn [mbind option_bind]. by destruct (finalize_digest v core _ Hat Hl) as [_ ->].
Qed.

(** C3. The digest is the hash function of the standard: the message and its padding absorbed block by
    block with [h ⊕ T(h ⊕ m) ⊕ T+(m)], the rounds made of the three separate layers, then [T(h) ⊕ h] cut
    to its rightmost bytes. *)
Theorem kupyna_digest_correct (v : kupyna) (m : list Z) :
  bytes_ok m → length m < 2 ^ 64 →
  digest v m = Some (kupyna_hash (columns_of v) (rounds_of v) (shift_of v) (digest_bytes v) m) ∧
  array_ok (digest_bytes v) (kupyna_hash (columns_of v) (rounds_of v) (shift_of v) (digest_bytes v) m).
Proof. intros Hb Hl. split; [by apply digest_spec|by apply kupyna_digest_ok]. Qed.

Lemma kupyna_digest_correct_witness :
  digest Kupyna256 (seqZ 0 70) = Some (kupyna_hash 8 10 7 32 (seqZ 0 70)) ∧ array_ok 32 (kupyna_hash 8 10 7 32 (seqZ 0 70)).
Proof. apply (kupyna_digest_correct Kupyna256 (seqZ 0 70)); by_decision. Defined.

(** However the message is cut into [update] calls, empty ones included, the hasher returns the digest
    of the whole. *)
Theorem kupyna_streaming (v : kupyna) (chunks : list (list Z)) :
  Forall (Forall (word_ok 8)) chunks → length (concat chunks) < 2 ^ 64 →
  (core ← updates (hasher_new v) chunks; hasher_finalize v core) = digest v (concat chunks).
Proof. intros Hc Hl. rewrite updates_digest, digest_spec; [done|by apply Forall_concat|done|done|done]. Qed.

Lemma kupyna_streaming_witness :
  (core ← updates (hasher_new Kupyna256) [seqZ 0 10; []; seqZ 0 100; seqZ 3 18]; hasher_finalize Kupyna256 core) =
    digest Kupyna256 (seqZ 0 10 ++ [] ++ seqZ 0 100 ++ seqZ 3 18 ++ []).
Proof. apply (kupyna_streaming Kupyna256 [seqZ 0 10; []; seqZ 0 100; seqZ 3 18]); by_decision. Defined.

(** Kupyna-384 is the last 48 bytes of Kupyna-512 of the same message. *)
Theorem kupyna_384_is_512_cut (m : list Z) :
  bytes_ok m → length m < 2 ^ 64 →
  ∃ d, digest Kupyna512 m = Some d ∧ digest Kupyna384 m = Some (drop 16 d).
Proof.
  intros Hb Hl. eexists. split; [by apply digest_spec|]. rewrite digest_spec by done. f_equal.
  unfold kupyna_digest, kupyna_hash. cbn [columns_of rounds_of shift_of digest_bytes]. rewrite drop_drop. f_equal.
Qed.

Lemma kupyna_384_is_512_cut_witness :
  ∃ d, digest Kupyna512 (seqZ 0 200) = Some d ∧ digest Kupyna384 (seqZ 0 200) = Some (drop 16 d).
Proof. apply (kupyna_384_is_512_cut (seqZ 0 200)); by_decision. Defined.

(** The fused, table-driven round of both resource profiles, const-generic or not, is the S-box layer,
    the row shifts and the matrix one after the other; the two compression functions agree. *)
Theorem kupyna_fused_rounds (v : kupyna) (s h m : list (list Z)) :
  let C := columns_of v in let R := rounds_of v in let L := shift_of v in
  state_ok C s → state_ok C h → state_ok C m →
  sub_shift_mix_n C L s = mix_columns (shift_bytes (sub_bytes s) L) ∧
  sub_shift_mix_n_small C L s = mix_columns (shift_bytes (sub_bytes s) L) ∧
  sub_shift_mix s L = mix_columns (shift_bytes (sub_bytes s) L) ∧
  compress_n C R h m L = compress h m R L ∧ state_ok C (compress_n C R h m L).
Proof.
  intros C R L Hs Hh Hm. pose proof (variant_params v : valid_params C R L) as Hv. clearbody C R L.
  destruct (compress_n_spec C R L Hv h m Hh Hm) as (-> & -> & Ho).
  rewrite (sub_shift_mix_runtime C R L Hv) by apply Hs. rewrite (sub_shift_mix_naive C R L Hv), (sub_shift_mix_small C R L Hv) by done.
  repeat split; apply Ho.
Qed.

Lemma kupyna_fused_rounds_witness :
  let s := replicate 16 (seqZ 7 8) in let h := replicate 16 (seqZ 0 8) in let m := replicate 16 (seqZ 100 8) in
  sub_shift_mix_n 16 11 s = mix_columns (shift_bytes (sub_bytes s) 11) ∧
  sub_shift_mix_n_small 16 11 s = mix_columns (shift_bytes (sub_bytes s) 11) ∧
  sub_shift_mix s 11 = mix_columns (shift_bytes (sub_bytes s) 11) ∧
  compress_n 16 14 h m 11 = compress h m 14 11 ∧ state_ok 16 (compress_n 16 14 h m 11).
Proof. apply (kupyna_fused_rounds Kupyna512); by_decision. Defined.

(** The length field makes the padding injective. *)
Lemma padded_message_inj C a b :
  8 * length a < 2 ^ 96 → 8 * length b < 2 ^ 96 → padded_message C a = padded_message C b → a = b.
Proof.
  intros Ha Hb E. unfold padded_message in E. assert (length a = length b) as El.
  { apply (f_equal (λ l, from_le_bytes (reverse (take 12 (reverse l))))) in E.
    assert (∀ bb (m : list Z) bits, take 12 (reverse (m ++ pad_suffix bb (length m) bits)) = reverse (to_le_bytes 12 bits)) as Ht.
    { intros bb m bits. unfold pad_suffix. rewrite app_comm_cons, app_assoc, reverse_app.
      by rewrite take_app_length' by (by rewrite length_reverse, length_to_le_bytes). }
    rewrite !Ht, !reverse_involutive, !from_to_le_bytes_id in E by (unfold word_ok; lia). lia. }
  rewrite El in E. by apply app_inv_tail in E.
Qed.

(** The padding fits its buffer, completes the data to whole blocks with fewer than a block of zeros, and
    two messages never have the same padding. *)
Theorem kupyna_padding_injective (v : kupyna) (a b : list Z) :
  8 * length a < 2 ^ 96 → 8 * length b < 2 ^ 96 →
  let bb := (columns_of v * ROWS)%nat in
  let pad m := m ++ pad_suffix bb (length m) (8 * length m) in
  (length (pad a) mod bb = 0)%nat ∧ (length (pad a) < length a + 13 + bb)%nat ∧
  (length a < bb → let '(tail, pos) := kupyna_padding a (8 * length a) bb in
     take pos tail = pad a ∧ (pos ≤ length tail)%nat)%nat ∧
  (pad a = pad b → a = b).
Proof.
  intros Ha Hb bb pad. pose proof (variant_params v) as Hv. destruct (valid_facts _ _ _ Hv) as (_ & _ & Hbb). fold bb in Hbb.
  unfold pad. split; [|split; [|split]].
  - rewrite length_app. by apply (pad_aligned _ _ _ Hv).
  - rewrite length_app. unfold bb. rewrite length_pad_suffix. fold bb. pose proof (Nat.mod_upper_bound (bb - (length a + 13) mod bb) bb ltac:(lia)). lia.
  - intros Hl. pose proof (kupyna_padding_spec _ _ _ Hv a (8 * length a) Hl) as Hp. fold bb in Hp.
    destruct (kupyna_padding _ _ _) as [tail pos]. destruct Hp as (H1 & _ & H2). done.
  - by apply (padded_message_inj (columns_of v)).
Qed.

Lemma kupyna_padding_injective_witness :
  let pad m := m ++ pad_suffix 64 (length m) (8 * length m) in
  (length (pad (seqZ 0 52)) mod 64 = 0)%nat ∧ (length (pad (seqZ 0 52)) < 52 + 13 + 64)%nat ∧
  (52 < 64 → let '(tail, pos) := kupyna_padding (seqZ 0 52) (8 * 52%nat) 64 in
     take pos tail = pad (seqZ 0 52) ∧ (pos ≤ length tail)%nat)%nat ∧
  (pad (seqZ 0 52) = pad (seqZ 0 51) → seqZ 0 52 = seqZ 0 51).
Proof. refine (kupyna_padding_injective Kupyna256 (seqZ 0 52) (seqZ 0 51) _ _); by_decision. Defined.
