(* ===== verification/KupynaKmac.v ===== *)
(** KMAC and the key derivation over it ([hazmat/kupyna_kmac.rs], [hazmat/kupyna_kdf.rs]). *)

From S2P Require Import Prelude External Tables Kupyna.

(** ** Definitions *)

Inductive KmacError : Type := WrongKeyLength | TagMismatch.

(** A byte count in bits; below [2^67], so the [u128] cannot overflow. *)
Definition bits (bytes : nat) : Z := bytes * 8.

(** [None] is the [unreachable!] of the core. *)
Definition kmac_generic (key message : list Z) (columns rounds last_row_shift output_bytes : nat) :
    option (result (list Z) KmacError) :=
  if negb (Nat.eqb (length key) output_bytes) then Some (Err WrongKeyLength)
  else
    let core := core_new columns rounds last_row_shift in
    let block_bytes := block_bytes core in
    let '(padded_key, padded_key_len) := kupyna_padding key (bits (length key)) block_bytes in
    core ← update core (take padded_key_len padded_key);
    core ← update core message;
    let '(pad_m, pad_m_len) := kupyna_padding (buffered core) (bits (length message)) block_bytes in
    let already_buffered := length (buffered core) in
    core ← update core (slice already_buffered pad_m_len pad_m);
    let inverted_key := on_prefix (length key) (λ l, zip_mut (λ _ src, bit_not 8 src) l key) (replicate 64 0) in
    core ← update core (take (length key) inverted_key);
    full ← finalize core output_bytes;
    Some (Ok full).

Definition mac (v : kupyna) (key message : list Z) : option (result (list Z) KmacError) :=
  r ← kmac_generic key message (columns_of v) (rounds_of v) (shift_of v) (digest_bytes v);
  Some (result_bind r (λ full, Ok (take (digest_bytes v) full))).

Definition verify `{Subtle} (v : kupyna) (key message expected : list Z) : option (result unit KmacError) :=
  r ← mac v key message;
  Some (result_bind r (λ mac, if ct_eq_slice mac expected then Ok tt else Err TagMismatch)).

(** [derive_subkey] of the KDF whose KMAC is variant [v]. *)
Definition derive_subkey (v : kupyna) (master_key : list Z) (subkey_id : Z) (context : list Z) : option (list Z) :=
  let message := replicate 16 0 in
  let message := copy_at 0 context message in
  let message := copy_at 8 (to_le_bytes 8 subkey_id) message in
  r ← mac v master_key message;
  match r with
  | Ok subkey => Some subkey
  | Err _ => None
  end.

(** ** The specification *)

(** [PAD(K) ‖ PAD(M) ‖ ~K]. *)
Definition kmac_input (v : kupyna) (key message : list Z) : list Z :=
  padded_message (columns_of v) key ++ padded_message (columns_of v) message ++ map (bit_not 8) key.

Definition kmac_spec (v : kupyna) (key message : list Z) : list Z := kupyna_digest v (kmac_input v key message).

(** ** Lemmas *)

Lemma padded_message_ok v m :
  bytes_ok m → bytes_ok (padded_message (columns_of v) m) ∧ (length (padded_message (columns_of v) m) mod (columns_of v * ROWS) = 0)%nat.
Proof.
  intros Hm. unfold padded_message. split.
  - apply Forall_app. split; [done|]. unfold pad_suffix. constructor; [unfold word_ok; lia|]. apply Forall_app.
    split; [apply Forall_replicate, byte_ok_0|apply to_le_bytes_ok].
  - rewrite length_app. by apply (pad_aligned _ _ _ (variant_params v)).
Qed.

(** A key and its padding are one block. *)
Lemma padded_key_length v key :
  length key = digest_bytes v → length (padded_message (columns_of v) key) = (columns_of v * ROWS)%nat.
Proof. intros Hk. unfold padded_message. rewrite length_app, length_pad_suffix, Hk. by destruct v. Qed.

Lemma bit_not_byte b : byte_ok b → byte_ok (bit_not 8 b).
Proof. intros _. apply word_ok_wrap. lia. Qed.

Lemma inverted_key_spec key :
  (length key ≤ 64)%nat →
  take (length key) (on_prefix (length key) (λ l, zip_mut (λ _ src, bit_not 8 src) l key) (replicate 64 0)) = map (bit_not 8) key.
Proof.
  intros Hk. rewrite take_on_prefix by (intros; apply length_zip_mut). rewrite take_replicate, Nat.min_l by lia.
  clear Hk. induction key as [|b key IH]; [done|]. simpl. by f_equal.
Qed.

Lemma kmac_input_length v key message :
  length (kmac_input v key message) = (length (padded_message (columns_of v) key) + length (padded_message (columns_of v) message) + length key)%nat.
Proof. unfold kmac_input. rewrite !length_app, length_map. lia. Qed.

Lemma kmac_input_bytes v key message : bytes_ok key → bytes_ok message → bytes_ok (kmac_input v key message).
Proof.
  intros Hk Hm. unfold kmac_input. apply Forall_app. split; [by apply padded_message_ok|].
  apply Forall_app. split; [by apply padded_message_ok|]. apply Forall_map. eapply Forall_impl; [exact Hk|]. apply bit_not_byte.
Qed.

(** The core absorbs [PAD(K)], then [M], then the suffix of its padding, then [~K]. *)
Lemma kmac_generic_spec v key message :
  length key = digest_bytes v → bytes_ok key → bytes_ok message → length (kmac_input v key message) < 2 ^ 64 →
  kmac_generic key message (columns_of v) (rounds_of v) (shift_of v) (digest_bytes v) =
    Some (Ok (kmac_spec v key message ++ replicate (64 - digest_bytes v) 0)).
Proof.
  intros Hlk Hk Hm Hlen. pose proof (variant_params v) as Hv. destruct (digest_bytes_le v) as [H64 _].
  unfold kmac_generic. rewrite Hlk, Nat.eqb_refl. cbn [negb].
  assert (block_bytes (core_new (columns_of v) (rounds_of v) (shift_of v)) = columns_of v * ROWS)%nat as -> by done.
  destruct (valid_facts _ _ _ Hv) as (_ & _ & Hbb). set (bb := (columns_of v * ROWS)%nat) in *.
  assert (length key < bb)%nat as Hkb by (rewrite Hlk; unfold bb; destruct v; simpl; lia).
  pose proof (kupyna_padding_spec _ _ _ Hv key (bits (digest_bytes v)) Hkb) as Hpk. fold bb in Hpk.
  destruct (kupyna_padding key _ bb) as [padded_key pk_len]. destruct Hpk as (Hpk & _ & _). rewrite Hpk.
  assert (key ++ pad_suffix bb (length key) (bits (digest_bytes v)) = padded_message (columns_of v) key) as ->.
  { unfold padded_message, bits. fold bb. rewrite Hlk. do 2 f_equal. lia. }
  destruct (padded_message_ok v key Hk) as [Hpkb Hpka]. fold bb in Hpka. set (pk := padded_message (columns_of v) key) in *.
  destruct (update_at _ _ _ Hv _ [] pk (core_new_at _ _ _ Hv) Hpkb) as (core1 & -> & Hat1). cbn [mbind option_bind app] in *.
  destruct (update_at _ _ _ Hv core1 pk message Hat1 Hm) as (core2 & -> & Hat2). cbn [mbind option_bind].
  rewrite (at_buffered _ _ _ _ _ Hat2). fold bb. rewrite remainder_app by lia.
  assert (length (remainder bb message) < bb)%nat as Hlt by (rewrite length_remainder; apply Nat.mod_upper_bound; lia).
  pose proof (kupyna_padding_spec _ _ _ Hv (remainder bb message) (bits (length message)) Hlt) as Hpm. fold bb in Hpm.
  destruct (kupyna_padding (remainder bb message) _ bb) as [pad_m pm_len]. destruct Hpm as (Hpm & _ & Hpl).
  assert (slice (length (remainder bb message)) pm_len pad_m = pad_suffix bb (length message) (8 * length message)) as ->.
  { unfold slice. apply (f_equal (drop (length (remainder bb message)))) in Hpm. rewrite drop_app_length in Hpm.
    rewrite length_remainder in Hpm. unfold bb in Hpm. rewrite (pad_suffix_mod _ _ _ Hv) in Hpm. fold bb in Hpm. unfold bits in Hpm. rewrite (Z.mul_comm 8), <- Hpm.
    rewrite length_remainder. by rewrite <- skipn_firstn_comm. }
  set (suf := pad_suffix bb (length message) (8 * length message)). assert (pk ++ message ++ suf = pk ++ padded_message (columns_of v) message) as Epm by done.
  destruct (padded_message_ok v message Hm) as [Hpmb _].
  assert (bytes_ok suf) as Hsb by (unfold padded_message in Hpmb; by apply Forall_app in Hpmb as [_ ?]).
  destruct (update_at _ _ _ Hv core2 _ suf Hat2 Hsb) as (core3 & -> & Hat3). cbn [mbind option_bind].
  rewrite <- Hlk, inverted_key_spec by lia.
  assert (bytes_ok (map (bit_not 8) key)) as Hib by (apply Forall_map; eapply Forall_impl; [exact Hk|apply bit_not_byte]).
  destruct (update_at _ _ _ Hv core3 _ _ Hat3 Hib) as (core4 & -> & Hat4). cbn [mbind option_bind].
  assert (((pk ++ message) ++ suf) ++ map (bit_not 8) key = kmac_input v key message) as E.
  { unfold kmac_input. fold pk. rewrite <- !app_assoc. f_equal. by rewrite app_assoc. }
  rewrite E in Hat4. rewrite Hlk. destruct (finalize_digest v core4 _ Hat4 Hlen) as [-> _]. done.
Qed.

Lemma kmac_mac_spec v key message :
  bytes_ok key → bytes_ok message → length (kmac_input v key message) < 2 ^ 64 →
  mac v key message = Some (if decide (length key = digest_bytes v) then Ok (kmac_spec v key message) else Err WrongKeyLength).
Proof.
  intros Hk Hm Hlen. unfold mac. case_decide as Hlk.
  - rewrite kmac_generic_spec by done. cbn [mbind option_bind result_bind].
    rewrite take_app_length'; [done|]. symmetry. apply kupyna_digest_ok. by apply kmac_input_bytes.
  - unfold kmac_generic. by rewrite (proj2 (Nat.eqb_neq _ _) Hlk).
Qed.

(** The input of the hash determines the key and the message. *)
Lemma kmac_input_inj v k1 k2 m1 m2 :
  length k1 = digest_bytes v → length k2 = digest_bytes v → bytes_ok k1 → bytes_ok k2 →
  8 * length m1 < 2 ^ 96 → 8 * length m2 < 2 ^ 96 → kmac_input v k1 m1 = kmac_input v k2 m2 → k1 = k2 ∧ m1 = m2.
Proof.
  intros L1 L2 B1 B2 M1 M2 E. unfold kmac_input in E.
  apply app_inj_1 in E as [Ek E]; [|by rewrite !padded_key_length]. apply app_inj_2 in E as [Em _]; [|rewrite !length_map; lia].
  split; [|by eapply padded_message_inj]. apply padded_message_inj in Ek; [done|..]; rewrite ?L1, ?L2; destruct (digest_bytes_le v); lia.
Qed.

(** ** Properties *)

(** The MAC is [H(PAD(K) ‖ PAD(M) ‖ ~K)], for keys of the length of the MAC; other keys are refused.
    Verification accepts exactly the MAC. *)
Theorem kmac_correct `{SubtleLaws} (v : kupyna) (key message tag : list Z) :
  bytes_ok key → bytes_ok message → length (kmac_input v key message) < 2 ^ 64 →
  mac v key message = Some (if decide (length key = digest_bytes v) then Ok (kmac_spec v key message) else Err WrongKeyLength) ∧
  array_ok (digest_bytes v) (kmac_spec v key message) ∧
  verify v key message tag = Some (if decide (length key = digest_bytes v) then
      if decide (tag = kmac_spec v key message) then Ok tt else Err TagMismatch
    else Err WrongKeyLength).
Proof.
  intros Hk Hm Hlen. split; [by apply kmac_mac_spec|]. split; [by apply kupyna_digest_ok, kmac_input_bytes|].
  unfold verify. rewrite kmac_mac_spec by done. cbn [mbind option_bind]. case_decide; [|done]. cbn [result_bind]. rewrite ct_eq_slice_spec.
  case_bool_decide; case_decide; congruence.
Qed.

Lemma kmac_correct_witness :
  let _ := plain_subtle in
  mac Kupyna256 (seqZ 0 32) (seqZ 0 100) = Some (if decide (length (seqZ 0 32) = 32)%nat then Ok (kmac_spec Kupyna256 (seqZ 0 32) (seqZ 0 100)) else Err WrongKeyLength) ∧
  array_ok 32 (kmac_spec Kupyna256 (seqZ 0 32) (seqZ 0 100)) ∧
  verify Kupyna256 (seqZ 0 32) (seqZ 0 100) (seqZ 0 32) = Some (if decide (length (seqZ 0 32) = 32)%nat then
      if decide (seqZ 0 32 = kmac_spec Kupyna256 (seqZ 0 32) (seqZ 0 100)) then Ok tt else Err TagMismatch
    else Err WrongKeyLength).
Proof.
  refine (@kmac_correct plain_subtle plain_subtle_laws Kupyna256 (seqZ 0 32) (seqZ 0 100) (seqZ 0 32) _ _ _); by_decision.
Defined.

(** Two MACs of one size hash the same bytes only if the keys and the messages are the same. *)
Theorem kmac_input_determines (v : kupyna) (k1 k2 m1 m2 : list Z) :
  length k1 = digest_bytes v → length k2 = digest_bytes v → bytes_ok k1 → bytes_ok k2 →
  8 * length m1 < 2 ^ 96 → 8 * length m2 < 2 ^ 96 →
  kmac_input v k1 m1 = kmac_input v k2 m2 ↔ k1 = k2 ∧ m1 = m2.
Proof. intros. split; [by apply kmac_input_inj|]. by intros [-> ->]. Qed.

Lemma kmac_input_determines_witness :
  kmac_input Kupyna256 (seqZ 0 32) [] = kmac_input Kupyna256 (seqZ 0 32) [0] ↔ seqZ 0 32 = seqZ 0 32 ∧ [] = [0].
Proof. refine (kmac_input_determines Kupyna256 (seqZ 0 32) (seqZ 0 32) [] [0] _ _ _ _ _ _); by_decision. Defined.

(** The derivation never reaches its [unreachable!]: the subkey is the KMAC of the context and the
    little-endian identifier, and different identifiers or contexts hash different inputs. *)
Theorem kdf_correct (v : kupyna) (master context context' : list Z) (id id' : Z) :
  array_ok (digest_bytes v) master → array_ok 8 context → array_ok 8 context' → u64_ok id → u64_ok id' →
  let message id context := context ++ to_le_bytes 8 id in
  derive_subkey v master id context = Some (kmac_spec v master (message id context)) ∧
  array_ok (digest_bytes v) (kmac_spec v master (message id context)) ∧
  (kmac_input v master (message id context) = kmac_input v master (message id' context') → id = id' ∧ context = context').
Proof.
  intros [Hl Hb] [Hcl Hcb] [Hcl' Hcb'] Hid Hid' message. assert (∀ i c, array_ok 8 c → array_ok 16 (message i c)) as Hmsg.
  { intros i c Hc. apply (array_ok_app 8 8); [done|apply to_le_bytes_ok]. }
  assert (array_ok 8 context) as Hc by done. assert (array_ok 8 context') as Hc' by done.
  destruct (Hmsg id context Hc) as [Hml Hmb]. destruct (Hmsg id' context' Hc') as [Hml' _].
  assert (length (kmac_input v master (message id context)) < 2 ^ 64) as Hlen.
  { rewrite kmac_input_length, padded_key_length by done. unfold padded_message. rewrite length_app, length_pad_suffix, Hml, Hl.
    by destruct v. }
  split; [|split].
  - unfold derive_subkey. assert (copy_at 8 (to_le_bytes 8 id) (copy_at 0 context (replicate 16 0)) = message id context) as ->.
    { rewrite copy_at_0 by (rewrite length_replicate; lia). rewrite Hcl. unfold copy_at.
      rewrite take_app_length' by done. rewrite drop_ge by (rewrite length_app, length_to_le_bytes, Hcl; done). by rewrite app_nil_r. }
    rewrite kmac_mac_spec by done. cbn [mbind option_bind]. by rewrite decide_True.
  - by apply kupyna_digest_ok, kmac_input_bytes.
  - intros E. apply kmac_input_inj in E as [_ E]; [|done..|rewrite Hml; done|rewrite Hml'; done].
    unfold message in E. apply app_inj_1 in E as [-> E]; [|lia]. split; [|done].
    apply (f_equal from_le_bytes) in E. by rewrite !from_to_le_bytes_id in E.
Qed.

Lemma kdf_correct_witness :
  derive_subkey Kupyna256 (seqZ 0 32) 7 (seqZ 1 8) = Some (kmac_spec Kupyna256 (seqZ 0 32) (seqZ 1 8 ++ to_le_bytes 8 7)) ∧
  array_ok 32 (kmac_spec Kupyna256 (seqZ 0 32) (seqZ 1 8 ++ to_le_bytes 8 7)) ∧
  (kmac_input Kupyna256 (seqZ 0 32) (seqZ 1 8 ++ to_le_bytes 8 7) = kmac_input Kupyna256 (seqZ 0 32) (seqZ 2 8 ++ to_le_bytes 8 8) →
   7 = 8 ∧ seqZ 1 8 = seqZ 2 8).
Proof. refine (kdf_correct Kupyna256 (seqZ 0 32) (seqZ 1 8) (seqZ 2 8) 7 8 _ _ _ _ _); by_decision. Defined.
