(* ===== verification/Strumok.v ===== *)
(** The stream cipher Strumok ([hazmat/strumok.rs]): the LFSR over GF(2^64) as a ring buffer, the FSM, the
    batched block path, and the three phases of [apply_keystream].  As in [Ctr.v], the loops over
    [data[pos..]] are functions of the data that is left.  Wiping is not modelled. *)

From S2P Require Import Prelude External TablesData Tables StrumokData Kalyna Stream.

(** ** The word functions *)

Definition mul_alpha (w : Z) : Z := shl 64 w 8 ⊕ MUL_ALPHA.[Z.to_nat (Z.shiftr w 56)].

Definition mul_alpha_inv (w : Z) : Z := Z.shiftr w 8 ⊕ MUL_ALPHA_INV.[Z.to_nat (Z.land w 0xff)].

Definition t_function (w : Z) : Z :=
  T0.[Z.to_nat (Z.land w 0xff)]
  ⊕ T1.[Z.to_nat (Z.land (Z.shiftr w 8) 0xff)]
  ⊕ T2.[Z.to_nat (Z.land (Z.shiftr w 16) 0xff)]
  ⊕ T3.[Z.to_nat (Z.land (Z.shiftr w 24) 0xff)]
  ⊕ T4.[Z.to_nat (Z.land (Z.shiftr w 32) 0xff)]
  ⊕ T5.[Z.to_nat (Z.land (Z.shiftr w 40) 0xff)]
  ⊕ T6.[Z.to_nat (Z.land (Z.shiftr w 48) 0xff)]
  ⊕ T7.[Z.to_nat (Z.land (Z.shiftr w 56) 0xff)].

(** The [small-tables] variant. *)
Definition t_function_small (w : Z) : Z :=
  let column := to_le_bytes 8 w in
  let column := imap (λ row byte, sbox row byte) column in
  from_le_bytes (nth 0 (apply_forward_matrix [column]) []).

Definition fsm (x y z : Z) : Z := wrapping_add 64 x y ⊕ z.

Definition word_le (bytes : list Z) (index : nat) : Z :=
  let start := (index * 8)%nat in
  from_le_bytes (slice start (start + 8) bytes).

(** ** The state *)

Definition init_state (key iv : list Z) : list Z :=
  let ivw := word_le iv in
  let kw := word_le key in
  let inv := bit_not 64 in
  if Nat.eqb (length key) 32 then
    [ kw 3 ⊕ ivw 0; kw 2; kw 1 ⊕ ivw 1; kw 0 ⊕ ivw 2; kw 3; kw 2 ⊕ ivw 3; inv (kw 1); inv (kw 0);
      kw 3; kw 2; inv (kw 1); kw 0; kw 3; inv (kw 2); kw 1; inv (kw 0) ]%nat
  else
    [ kw 7 ⊕ ivw 0; kw 6; kw 5; kw 4 ⊕ ivw 1; kw 3; kw 2 ⊕ ivw 2; kw 1; inv (kw 0);
      kw 4 ⊕ ivw 3; inv (kw 6); kw 5; inv (kw 7); kw 3; kw 2; inv (kw 1); kw 0 ]%nat.

(** [(head + k) & 15]. *)
Definition ring (head k : nat) : nat := Nat.land (head + k) 15.

(** [next_step] on [(s, head, r0, r1)]. *)
Definition next_step (init_mode : bool) (st : list Z * nat * Z * Z) : list Z * nat * Z * Z :=
  let '(s, head, r0, r1) := st in
  let s0 := s.[head] in
  let s11 := s.[ring head 11] in
  let s13 := s.[ring head 13] in
  let s15 := s.[ring head 15] in
  let new_r1 := t_function r0 in
  let new_r0 := wrapping_add 64 r1 s13 in
  let feedback := mul_alpha s0 ⊕ mul_alpha_inv s11 ⊕ s13 in
  let feedback := if init_mode then feedback ⊕ fsm s15 r0 r1 else feedback in
  (<[head := feedback]> s, ring head 1, new_r0, new_r1).

Definition strm (s : list Z) (head : nat) (r0 r1 : Z) : Z := fsm (s.[ring head 15]) r0 r1 ⊕ s.[head].

(** The [step!] of [next_block]. *)
Definition block_step (input : list Z) (st : list Z * Z * Z * list Z) (ix : nat * nat * nat * nat) : list Z * Z * Z * list Z :=
  let '(s, r0, r1, out) := st in
  let '(k, prev, p11, p13) := ix in
  let sk := s.[k] in
  let out := <[k := input.[k] ⊕ fsm (s.[prev]) r0 r1 ⊕ sk]> out in
  let new_r1 := t_function r0 in
  let new_r0 := wrapping_add 64 r1 (s.[p13]) in
  let feedback := mul_alpha sk ⊕ mul_alpha_inv (s.[p11]) ⊕ s.[p13] in
  (<[k := feedback]> s, new_r0, new_r1, out).

Definition block_indices : list (nat * nat * nat * nat) :=
  [ (0, 15, 11, 13); (1, 0, 12, 14); (2, 1, 13, 15); (3, 2, 14, 0); (4, 3, 15, 1); (5, 4, 0, 2); (6, 5, 1, 3); (7, 6, 2, 4);
    (8, 7, 3, 5); (9, 8, 4, 6); (10, 9, 5, 7); (11, 10, 6, 8); (12, 11, 7, 9); (13, 12, 8, 10); (14, 13, 9, 11); (15, 14, 10, 12) ]%nat.

(** Returns [(s, r0, r1, out)]. *)
Definition next_block (s : list Z) (r0 r1 : Z) (input : list Z) : list Z * Z * Z * list Z :=
  foldl (block_step input) (s, r0, r1, replicate 16 0) block_indices.

(** ** The core *)

Record Core : Type := { s : list Z; head : nat; r0 : Z; r1 : Z; block : list Z; block_pos : nat }.

Definition core_new (key iv : list Z) : Core :=
  let st := (init_state key iv, 0%nat, 0, 0) in
  let st := foldl (λ st (_ : nat), next_step true st) st (seq 0 32) in
  let '(s, head, r0, r1) := next_step false st in
  {| s := s; head := head; r0 := r0; r1 := r1; block := replicate 8 0; block_pos := 8 |}.

Definition set_pos (self : Core) (pos : nat) : Core :=
  {| s := s self; head := head self; r0 := r0 self; r1 := r1 self; block := block self; block_pos := pos |}.

(** Returns the bytes done and the rest. *)
Fixpoint drain (self : Core) (data : list Z) : Core * list Z * list Z :=
  match data with
  | [] => (self, [], [])
  | b :: rest =>
      if Nat.ltb (block_pos self) 8 then
        let '(self', done, rest') := drain (set_pos self (block_pos self + 1)) rest in
        (self', (b ⊕ (block self).[block_pos self]) :: done, rest')
      else (self, [], data)
  end.

(** One pass of the loop of [bulk], on a chunk of 128 bytes. *)
Definition bulk_chunk (self : Core) (chunk : list Z) : Core * list Z :=
  let input := map from_le_bytes (chunks_exact 8 chunk) in
  let '(s', r0', r1', out) := next_block (s self) (r0 self) (r1 self) input in
  ({| s := s'; head := head self; r0 := r0'; r1 := r1'; block := block self; block_pos := block_pos self |},
   concat (map (to_le_bytes 8) out)).

(** [while data.len() - pos >= 128]; the fuel [length data] is enough. *)
Fixpoint bulk_loop (fuel : nat) (self : Core) (data : list Z) : Core * list Z * list Z :=
  match fuel with
  | O => (self, [], data)
  | S fuel =>
      if Nat.leb 128 (length data) then
        let '(self, chunk) := bulk_chunk self (take 128 data) in
        let '(self, done, rest) := bulk_loop fuel self (drop 128 data) in
        (self, chunk ++ done, rest)
      else (self, [], data)
  end.

Definition bulk (self : Core) (data : list Z) : Core * list Z * list Z :=
  if negb (Nat.eqb (block_pos self) 8) || Nat.ltb (length data) 128 then (self, [], data)
  else
    let self :=
      if negb (Nat.eqb (head self) 0) then
        {| s := drop (head self) (s self) ++ take (head self) (s self); head := 0; r0 := r0 self; r1 := r1 self;
           block := block self; block_pos := block_pos self |}
      else self in
    bulk_loop (length data) self data.

(** The refill of [remainder]. *)
Definition refill (self : Core) : Core :=
  let z := strm (s self) (head self) (r0 self) (r1 self) in
  let block := to_le_bytes 8 z in
  let '(s', head', r0', r1') := next_step false (s self, head self, r0 self, r1 self) in
  {| s := s'; head := head'; r0 := r0'; r1 := r1'; block := block; block_pos := 0 |}.

Fixpoint remainder_loop (self : Core) (data : list Z) : Core * list Z :=
  match data with
  | [] => (self, [])
  | b :: rest =>
      let self := if Nat.eqb (block_pos self) 8 then refill self else self in
      let '(self', done) := remainder_loop (set_pos self (block_pos self + 1)) rest in
      (self', (b ⊕ (block self).[block_pos self]) :: done)
  end.

Definition apply_keystream (self : Core) (data : list Z) : Core * list Z :=
  let '(self, done1, data) := drain self data in
  let '(self, done2, data) := bulk self data in
  let '(self, done3) := remainder_loop self data in
  (self, done1 ++ done2 ++ done3).

Inductive strumok : Type := Strumok256 | Strumok512.
Definition strumok_key_bytes (v : strumok) : nat := match v with Strumok256 => 32 | Strumok512 => 64 end.
Definition strumok_new (v : strumok) (key iv : list Z) : Core := core_new key iv.

(** The byte-at-a-time form that the batched one is checked against. *)
Fixpoint scalar_reference_apply_keystream (core : Core) (data : list Z) : Core * list Z :=
  match data with
  | [] => (core, [])
  | byte :: data =>
      let core := if Nat.eqb (block_pos core) 8 then refill core else core in
      let out := byte ⊕ (block core).[block_pos core] in
      let '(core', outs) := scalar_reference_apply_keystream (set_pos core (block_pos core + 1)) data in
      (core', out :: outs)
  end.

#[global] Opaque MUL_ALPHA MUL_ALPHA_INV T0 T1 T2 T3 T4 T5 T6 T7.

(** ** The specification: a shift register *)

(** [Next] on the registers [S0 .. S15], [R0] and [R1]. *)
Definition next_spec (init_mode : bool) (st : list Z * Z * Z) : list Z * Z * Z :=
  let '(regs, r0, r1) := st in
  let feedback := mul_alpha (regs.[0]) ⊕ mul_alpha_inv (regs.[11]) ⊕ regs.[13] in
  let feedback := if init_mode then feedback ⊕ fsm (regs.[15]) r0 r1 else feedback in
  (drop 1 regs ++ [feedback], wrapping_add 64 r1 (regs.[13]), t_function r0).

Definition strm_spec (st : list Z * Z * Z) : Z := let '(regs, r0, r1) := st in fsm (regs.[15]) r0 r1 ⊕ regs.[0].

Definition init_spec (key iv : list Z) : list Z * Z * Z :=
  next_spec false (Nat.iter 32 (next_spec true) (init_state key iv, 0, 0)).

(** The state after [i] steps, and the keystream. *)
Definition state_at (st : list Z * Z * Z) (i : nat) : list Z * Z * Z := Nat.iter i (next_spec false) st.
Definition strumok_keystream (st : list Z * Z * Z) (p : nat) : Z := (to_le_bytes 8 (strm_spec (state_at st (p / 8)))).[p mod 8].

(** ** The ring buffer *)

(** The registers that the array [s] holds when [head] is the place of [S0]. *)
Definition unroll (s : list Z) (head : nat) : list Z := drop head s ++ take head s.

Lemma ring_mod head k : ring head k = ((head + k) mod 16)%nat.
Proof. unfold ring. change 15%nat with (Nat.ones 4). by rewrite Nat.land_ones. Qed.

Lemma unroll_nth s head k :
  length s = 16%nat → (head < 16)%nat → (k < 16)%nat → s.[ring head k] = (unroll s head).[k].
Proof.
  intros Hs Hh Hk. rewrite ring_mod. unfold unroll. destruct (decide (head + k < 16)%nat) as [Hlt|Hge].
  - rewrite Nat.mod_small, app_nth1 by (rewrite ?length_drop; lia). rewrite !nth_lookup. by rewrite lookup_drop.
  - assert ((head + k) mod 16 = head + k - 16)%nat as ->.
    { rewrite <- (Nat.mod_small (head + k - 16) 16) by lia. rewrite <- (Nat.Div0.mod_add (head + k - 16) 1 16). f_equal. lia. }
    rewrite app_nth2 by (rewrite length_drop; lia). rewrite length_drop, !nth_lookup, lookup_take_lt by lia. do 2 f_equal. lia.
Qed.

(** Overwriting [S0] and advancing [head] shifts the registers. *)
Lemma unroll_shift s head x :
  length s = 16%nat → (head < 16)%nat → unroll (<[head := x]> s) (ring head 1) = drop 1 (unroll s head) ++ [x].
Proof.
  intros Hs Hh. rewrite ring_mod. unfold unroll. destruct (lookup_lt_is_Some_2 s head) as [y Hy]; [lia|].
  rewrite (drop_S s y head Hy). change (drop 1 ((y :: drop (S head) s) ++ take head s)) with (drop (S head) s ++ take head s). rewrite <- app_assoc. destruct (decide (head = 15)%nat) as [->|Hne].
  - change ((15 + 1) mod 16)%nat with 0%nat. rewrite drop_0, app_nil_r, (drop_ge s) by lia. cbn [app].
    rewrite insert_take_drop by lia. rewrite (drop_ge s) by lia. done.
  - rewrite Nat.mod_small by lia. rewrite drop_insert_lt by lia. rewrite Nat.add_1_r.
    f_equal. rewrite (take_S_r _ head x) by (apply list_lookup_insert_eq; lia). by rewrite take_insert_ge by lia.
Qed.

(** A ring state stands for a register state. *)
Definition ring_at (st : list Z * nat * Z * Z) (sp : list Z * Z * Z) : Prop :=
  let '(s, head, r0, r1) := st in length s = 16%nat ∧ (head < 16)%nat ∧ sp = (unroll s head, r0, r1).

Lemma next_step_spec m st sp : ring_at st sp → ring_at (next_step m st) (next_spec m sp).
Proof.
  destruct st as [[[s head] r0] r1]. intros (Hs & Hh & ->). unfold next_step, next_spec.
  assert (s.[head] = (unroll s head).[0]) as E0.
  { rewrite <- unroll_nth by lia. rewrite ring_mod, Nat.add_0_r. by rewrite Nat.mod_small. }
  rewrite !unroll_nth, E0 by lia. split; [by rewrite length_insert|]. split; [rewrite ring_mod; apply Nat.mod_upper_bound; lia|].
  by rewrite unroll_shift.
Qed.

Lemma strm_ring s head r0 r1 sp : ring_at (s, head, r0, r1) sp → strm s head r0 r1 = strm_spec sp.
Proof.
  intros (Hs & Hh & ->). unfold strm, strm_spec. rewrite unroll_nth by lia. f_equal.
  rewrite <- unroll_nth by lia. rewrite ring_mod, Nat.add_0_r. by rewrite Nat.mod_small.
Qed.

Lemma init_ring key iv : length (init_state key iv) = 16%nat.
Proof. unfold init_state. by destruct (Nat.eqb _ _). Qed.

Lemma foldl_seq_iter {A} (f : A → A) a n : foldl (λ s (_ : nat), f s) a (seq 0 n) = Nat.iter n f a.
Proof. induction n as [|n IH]; [done|]. rewrite seq_S, foldl_app, IH. done. Qed.

(** ** The batched path *)

Lemma next_block_steps s r0 r1 input sp :
  ring_at (s, 0%nat, r0, r1) sp → length input = 16%nat →
  let '(s', r0', r1', out) := next_block s r0 r1 input in
  ring_at (s', 0%nat, r0', r1') (state_at sp 16) ∧
  out = map (λ k, input.[k] ⊕ strm_spec (state_at sp k)) (seq 0 16).
Proof.
  intros Hat Hin. unfold next_block.
  assert (∀ n, (n ≤ 16)%nat →
    let '(s', r0', r1', out) := foldl (block_step input) (s, r0, r1, replicate 16 0) (take n block_indices) in
    ring_at (s', (n mod 16)%nat, r0', r1') (state_at sp n) ∧
    out = map (λ k, input.[k] ⊕ strm_spec (state_at sp k)) (seq 0 n) ++ replicate (16 - n) 0) as H.
  2: { specialize (H 16%nat ltac:(lia)). change (take 16 block_indices) with block_indices in H.
       destruct (foldl _ _ _) as [[[s' r0'] r1'] out]. by rewrite app_nil_r in H. }
  induction n as [|n IH]; intros Hn; [done|].
  assert (block_indices !! n = Some (n, ring n 15, ring n 11, ring n 13)) as Hix.
  { do 16 (destruct n as [|n]; [reflexivity|]). lia. }
  rewrite (take_S_r _ _ _ Hix), foldl_app. specialize (IH ltac:(lia)).
  destruct (foldl _ _ (take n block_indices)) as [[[s1 r01] r11] out1]. destruct IH as [Hr Ho].
  rewrite Nat.mod_small in Hr by lia. cbn [foldl block_step].
  pose proof (next_step_spec false _ _ Hr) as Hn1. pose proof (strm_ring _ _ _ _ _ Hr) as Hs1.
  unfold next_step in Hn1. rewrite (ring_mod n 1), Nat.add_1_r in Hn1. split; [exact Hn1|].
  rewrite Ho. rewrite insert_app_r_alt by (rewrite length_map, length_seq; lia). rewrite length_map, length_seq, Nat.sub_diag.
  rewrite seq_S, map_app, <- app_assoc. f_equal. rewrite Nat.add_0_l. cbn [map app].
  rewrite (replicate_pos 0 (16 - n)) by lia. cbn [insert list_insert]. f_equal; [|f_equal; lia].
  rewrite <- Hs1. unfold strm. by rewrite Z.lxor_assoc.
Qed.

(** ** The stream cipher contract *)

Section stream.
Context (st : list Z * Z * Z).
Local Abbreviation ks := (strumok_keystream st).
Local Abbreviation word i := (strm_spec (state_at st i)).

Lemma keystream_byte j o p : (o < 8)%nat → (p = 8 * j + o)%nat → ks p = (to_le_bytes 8 (word j)).[o].
Proof.
  intros Ho ->. unfold strumok_keystream. rewrite (Nat.mul_comm 8), Nat.add_comm, Nat.div_add, Nat.Div0.mod_add, Nat.div_small, Nat.mod_small by lia.
  done.
Qed.

(** The object at position [p]: [j] words have been drawn, [block_pos] bytes of the last one used. *)
Definition strumok_at (self : Core) (p : nat) : Prop :=
  (block_pos self ≤ 8)%nat ∧ ∃ j, ring_at (s self, head self, r0 self, r1 self) (state_at st j) ∧
    (p + 8 = 8 * j + block_pos self)%nat ∧
    ((block_pos self < 8)%nat → block self = to_le_bytes 8 (word (j - 1))).

(** A byte of the buffered word. *)
Lemma block_byte self p :
  strumok_at self p → (block_pos self < 8)%nat →
  (block self).[block_pos self] = ks p ∧ strumok_at (set_pos self (block_pos self + 1)) (S p).
Proof.
  intros (Hle & j & Hr & Hp & Hb) Hlt. rewrite Hb by done. split.
  - symmetry. apply keystream_byte; lia.
  - split; [cbn; lia|]. exists j. cbn. split; [done|]. split; [lia|]. intros. by apply Hb.
Qed.

Lemma refill_at self p :
  strumok_at self p → block_pos self = 8%nat → strumok_at (refill self) p ∧ block_pos (refill self) = 0%nat.
Proof.
  intros (_ & j & Hr & Hp & _) H8. unfold refill. rewrite (strm_ring _ _ _ _ _ Hr).
  pose proof (next_step_spec false _ _ Hr) as Hn.
  destruct (next_step false (s self, head self, r0 self, r1 self)) as [[[s' h'] r0'] r1'].
  split; [|done]. split; [cbn; lia|]. exists (S j). cbn [s head r0 r1 block block_pos]. split; [done|]. split; [lia|].
  intros _. by replace (S j - 1)%nat with j by lia.
Qed.

Lemma drain_spec self p data :
  strumok_at self p →
  let '(self', done, rest) := drain self data in
  strumok_at self' (p + length done) ∧ data = take (length done) data ++ rest ∧
  done = xor_keystream ks p (take (length done) data).
Proof.
  revert self p. induction data as [|b data IH]; intros self p Hat; cbn [drain].
  { by rewrite Nat.add_0_r. }
  destruct (Nat.ltb_spec (block_pos self) 8) as [Hlt|Hge]; [|by rewrite Nat.add_0_r].
  destruct (block_byte self p Hat Hlt) as [Hb Hat']. specialize (IH _ _ Hat').
  destruct (drain _ data) as [[self' done] rest]. destruct IH as (H1 & H2 & H3). cbn [length take app].
  split; [by rewrite Nat.add_succ_r|]. split; [by f_equal|]. cbn [xor_keystream]. rewrite Hb. f_equal. exact H3.
Qed.

Lemma remainder_spec self p data :
  strumok_at self p →
  let '(self', done) := remainder_loop self data in
  strumok_at self' (p + length data) ∧ done = xor_keystream ks p data.
Proof.
  revert self p. induction data as [|b data IH]; intros self p Hat; cbn [remainder_loop].
  { by rewrite Nat.add_0_r. }
  set (self1 := if Nat.eqb (block_pos self) 8 then refill self else self).
  assert (strumok_at self1 p ∧ (block_pos self1 < 8)%nat) as [Hat1 Hlt].
  { unfold self1. destruct (Nat.eqb_spec (block_pos self) 8) as [E|E].
    - destruct (refill_at self p Hat E) as [? ->]. split; [done|lia].
    - split; [done|]. destruct Hat. lia. }
  destruct (block_byte self1 p Hat1 Hlt) as [Hb Hat']. specialize (IH _ _ Hat').
  destruct (remainder_loop _ data) as [self' done]. destruct IH as [H1 ->]. cbn [length xor_keystream].
  split; [by rewrite Nat.add_succ_r|]. by rewrite Hb.
Qed.

(** Words against bytes: a chunk of sixteen words. *)
Lemma xor_words_keystream p j (chunk : list Z) n :
  bytes_ok chunk → length chunk = (n * 8)%nat → (p = 8 * j)%nat →
  concat (map (to_le_bytes 8) (map (λ k, (map from_le_bytes (chunks_exact 8 chunk)).[k] ⊕ word (j + k)) (seq 0 n))) =
    xor_keystream ks p chunk.
Proof.
  intros Hb Hl Hp. rewrite map_map. revert p j chunk Hb Hl Hp. induction n as [|n IH]; intros p j chunk Hb Hl Hp.
  { destruct chunk; [done|simpl in Hl; lia]. }
  destruct (chunks_exact_cons 8 chunk) as [-> _]; [lia..|]. rewrite <- cons_seq, <- seq_shift. cbn [map concat]. rewrite map_map.
  rewrite <- (take_drop 8 chunk) at 3. rewrite xor_keystream_app. assert (length (take 8 chunk) = 8%nat) as Ht by (rewrite length_take; lia).
  rewrite Ht. f_equal.
  - cbn [nth]. rewrite to_le_bytes_xor. assert (to_le_bytes 8 (from_le_bytes (take 8 chunk)) = take 8 chunk) as ->.
    { rewrite <- Ht at 1. apply to_from_le_bytes. by apply Forall_take. }
    rewrite Nat.add_0_r. apply xor_into_keystream; [rewrite length_to_le_bytes; lia|]. intros i Hi. apply keystream_byte; lia.
  - rewrite <- (IH (p + 8)%nat (S j) (drop 8 chunk)); [|by apply Forall_drop|rewrite length_drop; lia|lia].
    f_equal. apply map_ext. intros k. cbn [nth]. by rewrite Nat.add_succ_r.
Qed.

Lemma state_at_add i k : state_at (state_at st i) k = state_at st (i + k).
Proof. unfold state_at. by rewrite Nat.add_comm, Nat.iter_add. Qed.

Lemma bulk_chunk_spec self p chunk :
  strumok_at self p → block_pos self = 8%nat → head self = 0%nat → array_ok 128 chunk →
  let '(self', out) := bulk_chunk self chunk in
  strumok_at self' (p + 128) ∧ block_pos self' = 8%nat ∧ head self' = 0%nat ∧ out = xor_keystream ks p chunk.
Proof.
  intros (_ & j & Hr & Hp & _) H8 H0 [Hl Hb]. unfold bulk_chunk. rewrite H0 in Hr.
  assert (length (map from_le_bytes (chunks_exact 8 chunk)) = 16%nat) as Hin.
  { rewrite length_map. unfold chunks_exact. by rewrite length_chunks_n, Hl. }
  pose proof (next_block_steps _ _ _ _ _ Hr Hin) as Hn.
  destruct (next_block _ _ _ _) as [[[s' r0'] r1'] out]. destruct Hn as [Hr' ->]. rewrite state_at_add in Hr'.
  split; [|split; [done|split; [done|]]].
  - split; [cbn; lia|]. exists (j + 16)%nat. cbn [s head r0 r1 block block_pos]. rewrite H0. split; [done|]. split; [lia|]. intros; lia.
  - rewrite <- (xor_words_keystream p j chunk 16) by (done || lia). do 2 f_equal. apply map_ext. intros k. by rewrite state_at_add.
Qed.

Lemma bulk_loop_spec fuel self p data :
  strumok_at self p → block_pos self = 8%nat → head self = 0%nat → bytes_ok data → (length data ≤ fuel)%nat →
  let '(self', done, rest) := bulk_loop fuel self data in
  strumok_at self' (p + length done) ∧ data = take (length done) data ++ rest ∧
  done = xor_keystream ks p (take (length done) data) ∧ (length rest < 128)%nat.
Proof.
  revert self p data. induction fuel as [|fuel IH]; intros self p data Hat H8 H0 Hb Hf; cbn [bulk_loop].
  { destruct data; [|simpl in Hf; lia]. cbn [length take app]. rewrite Nat.add_0_r. split_and!; [done|done|done|lia]. }
  destruct (Nat.leb_spec 128 (length data)) as [Hle|Hlt]; [|cbn [length take app]; rewrite Nat.add_0_r; split_and!; [done|done|done|lia]].
  assert (array_ok 128 (take 128 data)) as Hc by (split; [rewrite length_take; lia|by apply Forall_take]).
  pose proof (bulk_chunk_spec self p _ Hat H8 H0 Hc) as Hs. destruct (bulk_chunk self (take 128 data)) as [self1 chunk].
  destruct Hs as (Hat1 & H81 & H01 & ->).
  specialize (IH self1 (p + 128)%nat (drop 128 data) Hat1 H81 H01 (Forall_drop _ _ _ Hb) ltac:(rewrite length_drop; lia)).
  destruct (bulk_loop fuel self1 (drop 128 data)) as [[self2 done] rest]. destruct IH as (H1 & H2 & H3 & H4).
  rewrite length_app, length_xor_keystream, (proj1 Hc). split; [by rewrite Nat.add_assoc|].
  assert (take (128 + length done) data = take 128 data ++ take (length done) (drop 128 data)) as Et by (by rewrite take_take_drop).
  rewrite Et. split; [by rewrite <- app_assoc, <- H2, take_drop|]. split; [|done].
  rewrite xor_keystream_app, (proj1 Hc). f_equal. exact H3.
Qed.

Lemma bulk_spec self p data :
  strumok_at self p → bytes_ok data →
  let '(self', done, rest) := bulk self data in
  strumok_at self' (p + length done) ∧ data = take (length done) data ++ rest ∧ done = xor_keystream ks p (take (length done) data).
Proof.
  intros Hat Hb. unfold bulk. destruct (negb _ || _) eqn:Hg; [by rewrite Nat.add_0_r|].
  apply orb_false_iff in Hg as [H8 _]. apply negb_false_iff, Nat.eqb_eq in H8.
  set (self1 := if negb (Nat.eqb (head self) 0) then _ else self).
  assert (strumok_at self1 p ∧ block_pos self1 = 8%nat ∧ head self1 = 0%nat) as (Hat1 & H81 & H01).
  { unfold self1. destruct (Nat.eqb_spec (head self) 0) as [E|E]; [done|]. cbn [negb]. split; [|done].
    destruct Hat as (Hle & j & (Hs & Hh & Hr) & Hp & Hbk). split; [done|]. exists j. cbn [s head r0 r1 block block_pos].
    split; [|done]. split; [rewrite length_app, length_drop, length_take; lia|]. split; [lia|].
    rewrite Hr. unfold unroll at 2. by rewrite drop_0, app_nil_r. }
  pose proof (bulk_loop_spec (length data) self1 p data Hat1 H81 H01 Hb ltac:(done)) as Hl.
  destruct (bulk_loop _ self1 data) as [[self' done] rest]. by destruct Hl as (? & ? & ? & _).
Qed.

Lemma xor_keystream_pieces p data done rest out2 :
  data = take (length done) data ++ rest → done = xor_keystream ks p (take (length done) data) →
  out2 = xor_keystream ks (p + length done) rest → done ++ out2 = xor_keystream ks p data.
Proof.
  intros H1 H2 ->. rewrite H1 at 1. rewrite xor_keystream_app. f_equal; [done|].
  assert (length (take (length done) data) = length done) as ->; [|done].
  rewrite H2 at 2. by rewrite length_xor_keystream.
Qed.

#[export] Instance strumok_stream : StreamSpecOn byte_ok apply_keystream strumok_at ks.
Proof.
  intros self p data Hat Hb. unfold apply_keystream.
  pose proof (drain_spec self p data Hat) as Hd. destruct (drain self data) as [[self1 done1] data1]. destruct Hd as (Hat1 & E1 & D1).
  assert (bytes_ok data1) as Hb1 by (rewrite E1 in Hb; by apply Forall_app in Hb as [_ ?]).
  pose proof (bulk_spec self1 _ data1 Hat1 Hb1) as Hd. destruct (bulk self1 data1) as [[self2 done2] data2]. destruct Hd as (Hat2 & E2 & D2).
  pose proof (remainder_spec self2 _ data2 Hat2) as Hd. destruct (remainder_loop self2 data2) as [self3 done3]. destruct Hd as (Hat3 & D3).
  assert (∀ (d done rest : list Z) q, d = take (length done) d ++ rest → done = xor_keystream ks q (take (length done) d) → length d = (length done + length rest)%nat) as Hlen.
  { intros d done rest q H1 H2. rewrite H1 at 1. rewrite length_app. f_equal. rewrite H2 at 2. by rewrite length_xor_keystream. }
  cbn [fst snd]. split.
  - rewrite (Hlen _ _ _ _ E1 D1), (Hlen _ _ _ _ E2 D2). by rewrite !Nat.add_assoc.
  - eapply xor_keystream_pieces; [exact E1|exact D1|]. eapply xor_keystream_pieces; [exact E2|exact D2|done].
Qed.
End stream.

(** ** The multiplications by [alpha] *)

(** The coefficients of [g(z)], the feedback polynomial of the field, and those of the inverse of [z]. *)
Definition alpha_coefficients : list Z := [0x04; 0; 0; 0x5e; 0x12; 0x04; 0x3f; 0xd7].
Definition alpha_inv_coefficients : list Z := [0; 0; 0x99; 0x8a; 0x01; 0xc6; 0xfc; 0x47].

Lemma alpha_tables_check :
  forallb (λ b,
    (MUL_ALPHA.[Z.to_nat b] =? from_le_bytes (map (gf_mul b) alpha_coefficients)) &&
    (MUL_ALPHA_INV.[Z.to_nat b] =? from_le_bytes (map (gf_mul b) alpha_inv_coefficients)) &&
    ((Z.shiftr (MUL_ALPHA.[Z.to_nat b]) 8 ⊕ MUL_ALPHA_INV.[Z.to_nat (Z.land (MUL_ALPHA.[Z.to_nat b]) 255)]) =? Z.shiftl b 56) &&
    ((shl 64 (MUL_ALPHA_INV.[Z.to_nat b]) 8 ⊕ MUL_ALPHA.[Z.to_nat (Z.shiftr (MUL_ALPHA_INV.[Z.to_nat b]) 56)]) =? b) &&
    bool_decide (u64_ok (MUL_ALPHA.[Z.to_nat b]) ∧ u64_ok (MUL_ALPHA_INV.[Z.to_nat b]))) all_bytes = true.
Proof. vm_compute. reflexivity. Qed.

Lemma alpha_tables b :
  byte_ok b →
  MUL_ALPHA.[Z.to_nat b] = from_le_bytes (map (gf_mul b) alpha_coefficients) ∧
  MUL_ALPHA_INV.[Z.to_nat b] = from_le_bytes (map (gf_mul b) alpha_inv_coefficients) ∧
  Z.shiftr (MUL_ALPHA.[Z.to_nat b]) 8 ⊕ MUL_ALPHA_INV.[Z.to_nat (Z.land (MUL_ALPHA.[Z.to_nat b]) 255)] = Z.shiftl b 56 ∧
  shl 64 (MUL_ALPHA_INV.[Z.to_nat b]) 8 ⊕ MUL_ALPHA.[Z.to_nat (Z.shiftr (MUL_ALPHA_INV.[Z.to_nat b]) 56)] = b ∧
  u64_ok (MUL_ALPHA.[Z.to_nat b]) ∧ u64_ok (MUL_ALPHA_INV.[Z.to_nat b]).
Proof.
  intros Hb. pose proof (forall_bytes _ alpha_tables_check b Hb) as H. cbv beta in H.
  apply andb_prop in H as [H H5]. apply andb_prop in H as [H H4]. apply andb_prop in H as [H H3]. apply andb_prop in H as [H1 H2].
  apply bool_decide_eq_true in H5 as []. split_and!; try done; by apply Z.eqb_eq.
Qed.

Lemma testbit_shl_8 w i : 0 ≤ i → Z.testbit (shl 64 w 8) i = (i <? 64) && Z.testbit w (i - 8).
Proof. intros. unfold shl, wrap. rewrite Z.land_spec, Z.shiftl_spec, Z.testbit_ones_nonneg by lia. apply andb_comm. Qed.

Lemma testbit_high w i : u64_ok w → 64 ≤ i → Z.testbit w i = false.
Proof. intros Hw. apply word_ok_bits in Hw as [_ H]; [|lia]. apply H. Qed.

Lemma top_byte_ok w : u64_ok w → byte_ok (Z.shiftr w 56).
Proof. unfold word_ok. rewrite Z.shiftr_div_pow2 by lia. intros. split; [apply Z.div_pos; lia|apply Z.div_lt_upper_bound; lia]. Qed.

Lemma low_byte_ok w : byte_ok (Z.land w 255).
Proof. change 255 with (Z.ones 8). by apply word_ok_wrap. Qed.

Lemma mul_alpha_cancel w : u64_ok w → mul_alpha_inv (mul_alpha w) = w.
Proof.
  intros Hw. unfold mul_alpha_inv, mul_alpha. set (t := Z.shiftr w 56).
  destruct (alpha_tables t (top_byte_ok w Hw)) as (_ & _ & H & _). set (a := MUL_ALPHA.[Z.to_nat t]) in *.
  assert (Z.land (shl 64 w 8 ⊕ a) 255 = Z.land a 255) as ->.
  { change 255 with (Z.ones 8). apply Z.bits_inj'. intros i Hi. rewrite !Z.land_spec, Z.lxor_spec, testbit_shl_8, Z.testbit_ones_nonneg by lia.
    destruct (Z.ltb_spec i 8); [|by rewrite !andb_false_r]. rewrite (Z.testbit_neg_r w) by lia. by rewrite andb_false_r, xorb_false_l. }
  rewrite Z.shiftr_lxor, Z.lxor_assoc, H. apply Z.bits_inj'. intros i Hi. unfold t.
  rewrite Z.lxor_spec, Z.shiftr_spec, testbit_shl_8, Z.shiftl_spec by lia. replace (i + 8 - 8) with i by lia.
  destruct (Z.ltb_spec (i + 8) 64); [rewrite (Z.testbit_neg_r _ (i - 56)) by lia; apply xorb_false_r|].
  rewrite Z.shiftr_spec by lia. by replace (i - 56 + 56) with i by lia.
Qed.

Lemma mul_alpha_inv_cancel w : u64_ok w → mul_alpha (mul_alpha_inv w) = w.
Proof.
  intros Hw. unfold mul_alpha_inv, mul_alpha. set (b := Z.land w 0xff).
  destruct (alpha_tables b (low_byte_ok w)) as (_ & _ & _ & H & _). set (a := MUL_ALPHA_INV.[Z.to_nat b]) in *.
  assert (Z.shiftr (Z.shiftr w 8 ⊕ a) 56 = Z.shiftr a 56) as ->.
  { rewrite Z.shiftr_lxor, Z.shiftr_shiftr by lia. apply Z.bits_inj'. intros i Hi. rewrite Z.lxor_spec, Z.shiftr_spec by lia.
    by rewrite testbit_high by (done || lia). }
  assert (shl 64 (Z.shiftr w 8 ⊕ a) 8 = shl 64 (Z.shiftr w 8) 8 ⊕ shl 64 a 8) as ->.
  { apply Z.bits_inj'. intros i Hi. rewrite Z.lxor_spec, !testbit_shl_8, Z.lxor_spec by lia. by destruct (i <? 64). }
  rewrite Z.lxor_assoc, H. unfold b. change 0xff with (Z.ones 8). apply Z.bits_inj'. intros i Hi.
  rewrite Z.lxor_spec, testbit_shl_8, Z.land_spec, Z.testbit_ones_nonneg by lia.
  destruct (decide (i < 8)); [rewrite (Z.testbit_neg_r _ (i - 8)) by lia|rewrite Z.shiftr_spec by lia; replace (i - 8 + 8) with i by lia];
    destruct (Z.ltb_spec i 64), (Z.ltb_spec i 8); try lia; rewrite ?andb_false_r, ?andb_true_r, ?xorb_false_r; try done.
  by rewrite testbit_high.
Qed.

(** [mul_alpha] is the multiplication by the generator of the field GF(2^64) over GF(2^8): the
    coefficients move up by one, and the one that leaves is reduced by [g(z)], its multiples computed
    with [gf_mul]; [mul_alpha_inv] is its inverse, on both sides; both keep the word width. *)
Theorem strumok_alpha (w : Z) (H : u64_ok w) :
  mul_alpha w = from_le_bytes (0 :: take 7 (to_le_bytes 8 w)) ⊕ from_le_bytes (map (gf_mul (Z.shiftr w 56)) alpha_coefficients) ∧
  mul_alpha_inv w = from_le_bytes (drop 1 (to_le_bytes 8 w)) ⊕ from_le_bytes (map (gf_mul (Z.land w 255)) alpha_inv_coefficients) ∧
  mul_alpha_inv (mul_alpha w) = w ∧ mul_alpha (mul_alpha_inv w) = w ∧
  u64_ok (mul_alpha w) ∧ u64_ok (mul_alpha_inv w).
Proof.
  destruct (alpha_tables _ (top_byte_ok w H)) as (Ha & _ & _ & _ & Hu & _).
  destruct (alpha_tables _ (low_byte_ok w)) as (_ & Hi & _ & _ & _ & Hv).
  split_and!.
  - unfold mul_alpha. rewrite Ha. f_equal. unfold shl. rewrite wrap_mod, Z.shiftl_mul_pow2 by lia.
    assert (take 7 (to_le_bytes 8 w) = to_le_bytes 7 w) as -> by done. cbn [from_le_bytes].
    rewrite (from_to_le_bytes 7 w). change (8 * 7%nat) with 56. unfold word_ok in H.
    pose proof (Z.div_mod w (2 ^ 56) ltac:(lia)). pose proof (Z.mod_pos_bound w (2 ^ 56) ltac:(lia)).
    symmetry. apply (Z.mod_unique _ _ (w / 2 ^ 56)); lia.
  - unfold mul_alpha_inv. rewrite Hi. f_equal. change (drop 1 (to_le_bytes 8 w)) with (to_le_bytes 7 (Z.shiftr w 8)).
    rewrite from_to_le_bytes. change (8 * 7%nat) with 56. rewrite Z.mod_small; [done|].
    unfold word_ok in H. rewrite Z.shiftr_div_pow2 by lia. split; [apply Z.div_pos; lia|apply Z.div_lt_upper_bound; lia].
  - by apply mul_alpha_cancel.
  - by apply mul_alpha_inv_cancel.
  - unfold mul_alpha. apply word_ok_lxor; [lia|apply word_ok_wrap; lia|done].
  - unfold mul_alpha_inv. apply word_ok_lxor; [lia| |done]. unfold word_ok in *.
    rewrite Z.shiftr_div_pow2 by lia. split; [apply Z.div_pos; lia|]. apply Z.div_lt_upper_bound; lia.
Qed.

Lemma strumok_alpha_witness :
  mul_alpha 0xd7 = from_le_bytes (0 :: take 7 (to_le_bytes 8 0xd7)) ⊕ from_le_bytes (map (gf_mul (Z.shiftr 0xd7 56)) alpha_coefficients) ∧
  mul_alpha_inv 0xd7 = from_le_bytes (drop 1 (to_le_bytes 8 0xd7)) ⊕ from_le_bytes (map (gf_mul (Z.land 0xd7 255)) alpha_inv_coefficients) ∧
  mul_alpha_inv (mul_alpha 0xd7) = 0xd7 ∧ mul_alpha (mul_alpha_inv 0xd7) = 0xd7 ∧
  u64_ok (mul_alpha 0xd7) ∧ u64_ok (mul_alpha_inv 0xd7).
Proof. apply (strumok_alpha 0xd7). by_decision. Defined.

(** ** The substitution [T] *)

Lemma t_tables_check :
  forallb (λ r, forallb (λ b, (nth r [T0; T1; T2; T3; T4; T5; T6; T7] []).[Z.to_nat b] =? forward_sbox_mds r b) all_bytes) (seq 0 8) = true.
Proof. vm_compute. reflexivity. Qed.

Lemma t_tables r b : (r < 8)%nat → byte_ok b →
  (nth r [T0; T1; T2; T3; T4; T5; T6; T7] []).[Z.to_nat b] = table_get MDS_TABLE r (sbox r b).
Proof.
  intros Hr Hb. rewrite <- forward_sbox_mds_eq by done.
  apply Z.eqb_eq. exact (forall_rows_bytes 8 _ t_tables_check r b Hr Hb).
Qed.

Lemma t_function_bytes w :
  t_function w = column_word (λ r b, (nth r [T0; T1; T2; T3; T4; T5; T6; T7] []).[Z.to_nat b]) (to_le_bytes 8 w).
Proof.
  assert (∀ k, Z.shiftr (Z.shiftr w k) 8 = Z.shiftr w (k + 8)) as Hs by (intros; rewrite Z.shiftr_shiftr by lia; done).
  cbn [to_le_bytes]. rewrite !Hs. reflexivity.
Qed.

(** The table form of [T], the default, and the form of the profile [small-tables], an S-box lookup
    per byte and the matrix of Kalyna, agree on every word; both give a 64-bit word. *)
Theorem strumok_t_profiles (w : Z) : t_function w = t_function_small w ∧ u64_ok (t_function w).
Proof.
  assert (t_function w = from_le_bytes (to_le_bytes 8 (column_word (table_get MDS_TABLE) (imap (λ r b, sbox r b) (to_le_bytes 8 w))))) as E.
  2: { split; [exact E|]. rewrite E, from_to_le_bytes. by apply (word_ok_mod 64). }
  rewrite t_function_bytes. destruct (to_le_bytes_ok 8 w) as [Hl Hb].
  destruct (length_8_inv _ Hl) as (a & b & c & d & e & f & g & h & El). rewrite El in *.
  assert (∀ i, byte_ok ([a; b; c; d; e; f; g; h].[i])) as Hi by (intros; by apply nth_byte_ok).
  pose proof (Hi 0%nat) as H0. pose proof (Hi 1%nat) as H1. pose proof (Hi 2%nat) as H2. pose proof (Hi 3%nat) as H3.
  pose proof (Hi 4%nat) as H4. pose proof (Hi 5%nat) as H5. pose proof (Hi 6%nat) as H6. pose proof (Hi 7%nat) as H7. cbn [nth] in *.
  assert (column_ok (imap (λ r x, sbox r x) [a; b; c; d; e; f; g; h])) as Hc by (split; [done|repeat constructor; by apply sbox_ok]).
  rewrite from_to_le_bytes, Z.mod_small; [|exact (column_word_ok _ _ mds_table_linear Hc)].
  transitivity (column_word (λ r b, table_get MDS_TABLE r (sbox r b)) [a; b; c; d; e; f; g; h]); [|reflexivity].
  apply column_word_ext; [|by split]. intros. by apply t_tables.
Qed.

(** ** The properties of the cipher *)

Lemma strumok_core_at key iv : strumok_at (init_spec key iv) (core_new key iv) 0.
Proof.
  unfold core_new, init_spec. rewrite foldl_seq_iter.
  assert (∀ n, ring_at (Nat.iter n (next_step true) (init_state key iv, 0%nat, 0, 0)) (Nat.iter n (next_spec true) (init_state key iv, 0, 0))) as Hn.
  { induction n as [|n IH]; [|rewrite !Nat.iter_succ; exact (next_step_spec true _ _ IH)]. split; [apply init_ring|]. split; [lia|].
    unfold unroll. by rewrite drop_0, app_nil_r. }
  pose proof (next_step_spec false _ _ (Hn 32%nat)) as Hr.
  destruct (next_step false _) as [[[s' h'] r0'] r1']. split; [done|]. exists 0%nat. cbn [s head r0 r1 block block_pos].
  split; [exact Hr|]. split; [done|]. intros; lia.
Qed.

Lemma strumok_keystream_ok st p : byte_ok (strumok_keystream st p).
Proof. unfold strumok_keystream. apply nth_byte_ok, to_le_bytes_ok. Qed.

(** C4. Strumok is a stream cipher: however the data is split into calls, whichever of the three phases
    serves each byte, the output is the data XOR the keystream of the shift register that the key and
    the IV fill; each output has the length of its input, and a second object over the same key and IV
    takes the data back from any other split. *)
Theorem strumok_stream_cipher (v : strumok) (key iv : list Z) (bufs cts : list (list Z)) :
  Forall bytes_ok bufs →
  let self := strumok_new v key iv in
  let outs := (map_accum apply_keystream self bufs).2 in
  map length outs = map length bufs ∧
  concat outs = xor_keystream (strumok_keystream (init_spec key iv)) 0 (concat bufs) ∧
  (Forall bytes_ok cts → concat cts = concat outs → concat (map_accum apply_keystream self cts).2 = concat bufs).
Proof.
  intros Hb self outs. pose proof (strumok_core_at key iv) as Hat. pose proof (strumok_stream (init_spec key iv)) as Hs.
  destruct (stream_calls_on byte_ok apply_keystream _ _ self 0 bufs Hat Hb) as (_ & Hl & Hc).
  split; [done|]. split; [done|]. intros Hcb He.
  exact (stream_roundtrip_on byte_ok apply_keystream _ _ self self 0 bufs cts Hat Hat Hb Hcb He).
Qed.

Lemma strumok_stream_cipher_witness :
  let self := strumok_new Strumok256 (seqZ 0 32) (seqZ 0 32) in
  let outs := (map_accum apply_keystream self [seqZ 0 3; replicate 140 7]).2 in
  map length outs = map length [seqZ 0 3; replicate 140 7] ∧
  concat outs = xor_keystream (strumok_keystream (init_spec (seqZ 0 32) (seqZ 0 32))) 0 (concat [seqZ 0 3; replicate 140 7]) ∧
  (Forall bytes_ok [[1; 2]] → concat [[1; 2]] = concat outs → concat (map_accum apply_keystream self [[1; 2]]).2 = concat [seqZ 0 3; replicate 140 7]).
Proof.
  refine (strumok_stream_cipher Strumok256 (seqZ 0 32) (seqZ 0 32) [seqZ 0 3; replicate 140 7] [[1; 2]] _). by_decision.
Defined.

(** The three-phase path gives what the byte-at-a-time reference gives, from any state that a fresh
    object can be in: here after any earlier calls, on any data. *)
Theorem strumok_batched_scalar (v : strumok) (key iv : list Z) (earlier : list (list Z)) (data : list Z) :
  Forall bytes_ok earlier → bytes_ok data →
  let self := (map_accum apply_keystream (strumok_new v key iv) earlier).1 in
  (apply_keystream self data).2 = (scalar_reference_apply_keystream self data).2.
Proof.
  intros He Hd self. pose proof (strumok_core_at key iv) as Hat. pose proof (strumok_stream (init_spec key iv)) as Hs.
  destruct (stream_calls_on byte_ok apply_keystream _ _ (strumok_new v key iv) 0 earlier Hat He) as (Hat' & _).
  fold self in Hat'. destruct (apply_at_on self _ data Hat' Hd) as [_ ->].
  pose proof (remainder_spec (init_spec key iv) self _ data Hat') as Hr.
  assert (∀ d c, scalar_reference_apply_keystream c d = remainder_loop c d) as ->.
  { induction d as [|b d IH]; intros c; [done|]. cbn [scalar_reference_apply_keystream remainder_loop]. by rewrite IH. }
  destruct (remainder_loop self data) as [self' out]. by destruct Hr as [_ ->].
Qed.

Lemma strumok_batched_scalar_witness :
  let self := (map_accum apply_keystream (strumok_new Strumok512 (seqZ 0 64) (seqZ 0 32)) [[1; 2; 3]]).1 in
  (apply_keystream self (replicate 200 9)).2 = (scalar_reference_apply_keystream self (replicate 200 9)).2.
Proof. refine (strumok_batched_scalar Strumok512 (seqZ 0 64) (seqZ 0 32) [[1; 2; 3]] (replicate 200 9) _ _); by_decision. Defined.
