(* ===== verification/Randombytes.v ===== *)
(** [randombytes.rs]: the operating system's generator.  [getrandom::fill] is third-party code: what one
    call of it does to the buffer is a parameter of every operation that draws random bytes. *)

From S2P Require Import Prelude.

Section randombytes.
Context {GetrandomError : Type}.

Inductive RandomError : Type := RandomError_new (e : GetrandomError).

(** A call of [getrandom::fill]: the buffer after it and its result. *)
Definition fill_call : Type := list Z → list Z * result unit GetrandomError.

Definition randombytes_buf (fill : fill_call) (buf : list Z) : list Z * result unit RandomError :=
  let '(buf, r) := fill buf in
  (buf, match r with Ok _ => Ok tt | Err e => Err (RandomError_new e) end).

(** The documented behaviour of a call: it writes the whole buffer, and nothing else. *)
Definition fill_ok (fill : fill_call) : Prop := ∀ n, array_ok n (fill (replicate n 0)).1.

(** The [generate] of every 32-byte key type. *)
Definition generate_key (fill : fill_call) : result (list Z) RandomError :=
  let '(bytes, r) := randombytes_buf fill (replicate 32 0) in
  result_bind r (λ _, Ok bytes).
End randombytes.
Arguments RandomError GetrandomError : clear implicits.
Arguments fill_call GetrandomError : clear implicits.

(** A concrete generator for the witnesses. *)
Definition constant_fill {E} (b : Z) : fill_call E := λ buf, (replicate (length buf) b, Ok tt).

Lemma constant_fill_ok {E} b : byte_ok b → fill_ok (constant_fill (E := E) b).
Proof. intros Hb n. unfold constant_fill. cbn [fst]. rewrite length_replicate. split; [apply length_replicate|by apply Forall_replicate]. Qed.
