(* ===== verification/Secretstream.v ===== *)
(** The chunked AEAD stream ([crypto_secretstream.rs]): a master key and a random header give a subkey;
    every chunk is sealed with GCM under a counter that is never sent, and carries a tag.  The type [Key]
    is its 32 bytes.  [None] stands for a panic (the [unreachable!] sites). *)

From S2P Require Import Prelude External Tables BlockCipher Stream Poly2 Gf2mWide Kalyna Ghash Gcm Kupyna KupynaKmac Randombytes.

Local Abbreviation K := (ExpandedKey Kalyna256_256).

Definition TAG_LEN : nat := 16.
Definition REKEY_CONTEXT : list Z := ascii_bytes "DSTU-secretstream-rekey".
Definition FORMAT_VERSION : Z := 2.
Definition INITIAL_SUBKEY_LABEL : list Z := ascii_bytes "DSTU-secretstream-v2".

Definition initial_subkey (key header : list Z) : option (list Z) :=
  let n := length INITIAL_SUBKEY_LABEL in
  let message := replicate (n + 32) 0 in
  let message := copy_at 0 INITIAL_SUBKEY_LABEL message in
  let message := copy_at n header message in
  r ← KupynaKmac.mac Kupyna256 key message;
  match r with Ok subkey => Some subkey | Err _ => None end.

Inductive Tag : Type := Message | Push | Rekey | Final.

#[global] Instance Tag_eq_dec : EqDecision Tag.
Proof. solve_decision. Defined.

Definition to_byte (self : Tag) : Z :=
  match self with
  | Message => 0x00
  | Push => 0x01
  | Rekey => 0x02
  | Final => 0x03
  end.

Definition from_byte (byte : Z) : option Tag :=
  match byte with
  | 0x00 => Some Message
  | 0x01 => Some Push
  | 0x02 => Some Rekey
  | 0x03 => Some Final
  | _ => None
  end.

Section secretstream.
Context {GetrandomError : Type}.

Inductive SecretstreamError : Type :=
| InvalidLength
| TagMismatch
| UnknownTag
| StreamFinalized
| CounterExhausted
| Random (e : RandomError GetrandomError).

Definition rekey (subkey : list Z) : option (list Z) :=
  r ← KupynaKmac.mac Kupyna256 subkey REKEY_CONTEXT;
  match r with Ok new_subkey => Some new_subkey | Err _ => None end.

Definition chunk_iv (counter : Z) : list Z := copy_at 0 (to_le_bytes 8 counter) (replicate 32 0).

Definition chunk_aad (counter tag_byte : Z) (ciphertext_len : nat) : list Z :=
  let aad := replicate 17 0 in
  let aad := copy_at 0 (to_le_bytes 8 counter) aad in
  let aad := <[8%nat := tag_byte]> aad in
  copy_at 9 (to_le_bytes 8 ciphertext_len) aad.

(** The two halves of a session keep the same fields. *)
Record PushState : Type := { subkey : list Z; counter : Z; finalized : bool }.
Record PullState : Type := { pull_subkey : list Z; pull_counter : Z; pull_finalized : bool }.

(** [fill] is the call of the generator. *)
Definition push_init (fill : fill_call GetrandomError) (key : list Z) : option (result (PushState * list Z) SecretstreamError) :=
  let '(header, r) := randombytes_buf fill (replicate 32 0) in
  match r with
  | Err e => Some (Err (Random e))
  | Ok _ =>
      subkey ← initial_subkey key header;
      Some (Ok ({| subkey := subkey; counter := 0; finalized := false |}, header))
  end.

(** Returns the state, [ciphertext_out] and the result. *)
Definition push `{Cpu} (self : PushState) (tag : Tag) (plaintext ciphertext_out : list Z) :
    option (PushState * list Z * result (list Z) SecretstreamError) :=
  if finalized self then Some (self, ciphertext_out, Err StreamFinalized)
  else if negb (Nat.eqb (length ciphertext_out) (length plaintext)) then Some (self, ciphertext_out, Err InvalidLength)
  else
    match checked_add 64 (counter self) 1 with
    | None => Some (self, ciphertext_out, Err CounterExhausted)
    | Some next_counter =>
        cipher ← Gcm.new (K := K) (subkey self);
        let iv := chunk_iv (counter self) in
        let aad := chunk_aad (counter self) (to_byte tag) (length plaintext) in
        match Gcm.encrypt cipher iv aad plaintext ciphertext_out with
        | (_, Err _) => None
        | (ciphertext_out, Ok full_tag) =>
            let self := {| subkey := subkey self; counter := next_counter; finalized := finalized self |} in
            self ← match tag with
                   | Rekey =>
                       new_subkey ← rekey (subkey self);
                       Some {| subkey := new_subkey; counter := counter self; finalized := finalized self |}
                   | Final => Some {| subkey := subkey self; counter := counter self; finalized := true |}
                   | Message | Push => Some self
                   end;
            Some (self, ciphertext_out, Ok (take TAG_LEN full_tag))
        end
    end.

Definition pull_init (key header : list Z) : option PullState :=
  subkey ← initial_subkey key header;
  Some {| pull_subkey := subkey; pull_counter := 0; pull_finalized := false |}.

(** Returns the state, [plaintext_out] and the result. *)
Definition pull `{Cpu} `{Subtle} (self : PullState) (tag_byte : Z) (ciphertext auth_tag plaintext_out : list Z) :
    option (PullState * list Z * result Tag SecretstreamError) :=
  if pull_finalized self then Some (self, plaintext_out, Err StreamFinalized)
  else
    match from_byte tag_byte with
    | None => Some (self, plaintext_out, Err UnknownTag)
    | Some tag =>
        if negb (Nat.eqb (length plaintext_out) (length ciphertext)) || negb (Nat.eqb (length auth_tag) TAG_LEN) then
          Some (self, plaintext_out, Err InvalidLength)
        else
          match checked_add 64 (pull_counter self) 1 with
          | None => Some (self, plaintext_out, Err CounterExhausted)
          | Some next_counter =>
              cipher ← Gcm.new (K := K) (pull_subkey self);
              let iv := chunk_iv (pull_counter self) in
              let aad := chunk_aad (pull_counter self) tag_byte (length ciphertext) in
              match Gcm.decrypt cipher iv aad ciphertext auth_tag plaintext_out with
              | (plaintext_out, Err Gcm.TagMismatch) => Some (self, plaintext_out, Err TagMismatch)
              | (plaintext_out, Err (Gcm.InvalidLength | Gcm.EmptyInput)) => Some (self, plaintext_out, Err InvalidLength)
              | (plaintext_out, Ok _) =>
                  let self := {| pull_subkey := pull_subkey self; pull_counter := next_counter; pull_finalized := pull_finalized self |} in
                  self ← match tag with
                         | Rekey =>
                             new_subkey ← rekey (pull_subkey self);
                             Some {| pull_subkey := new_subkey; pull_counter := pull_counter self; pull_finalized := pull_finalized self |}
                         | Final => Some {| pull_subkey := pull_subkey self; pull_counter := pull_counter self; pull_finalized := true |}
                         | Message | Push => Some self
                         end;
                  Some (self, plaintext_out, Ok tag)
              end
          end
    end.
End secretstream.
Arguments SecretstreamError GetrandomError : clear implicits.

(** ** Specification *)

(** A session: what both halves keep. *)
Record Session : Type := { ses_subkey : list Z; ses_counter : Z; ses_finalized : bool }.

Definition of_push (p : PushState) : Session := {| ses_subkey := subkey p; ses_counter := counter p; ses_finalized := finalized p |}.
Definition of_pull (p : PullState) : Session :=
  {| ses_subkey := pull_subkey p; ses_counter := pull_counter p; ses_finalized := pull_finalized p |}.
Definition to_push (s : Session) : PushState := {| subkey := ses_subkey s; counter := ses_counter s; finalized := ses_finalized s |}.
Definition to_pull (s : Session) : PullState :=
  {| pull_subkey := ses_subkey s; pull_counter := ses_counter s; pull_finalized := ses_finalized s |}.

Definition session_ok (s : Session) : Prop := array_ok 32 (ses_subkey s) ∧ u64_ok (ses_counter s).
#[global] Instance session_ok_dec s : Decision (session_ok s).
Proof. unfold session_ok. apply _. Defined.

Definition start (key header : list Z) : Session :=
  {| ses_subkey := kmac_spec Kupyna256 key (INITIAL_SUBKEY_LABEL ++ header); ses_counter := 0; ses_finalized := false |}.

(** After a chunk under [tag]. *)
Definition advance (s : Session) (tag : Tag) : Session :=
  {| ses_subkey := match tag with Rekey => kmac_spec Kupyna256 (ses_subkey s) REKEY_CONTEXT | _ => ses_subkey s end;
     ses_counter := ses_counter s + 1;
     ses_finalized := ses_finalized s || bool_decide (tag = Final) |}.

Section spec.
Context `{Cpu}.

(** The keystream of the next chunk, and its authentication tag. *)
Definition chunk_keystream (s : Session) : nat → Z :=
  match Gcm.new (K := K) (ses_subkey s) with
  | Some cipher => gcm_keystream cipher (chunk_iv (ses_counter s))
  | None => λ _, 0
  end.
Definition chunk_tag (s : Session) (tag_byte : Z) (ciphertext : list Z) : list Z :=
  match Gcm.new (K := K) (ses_subkey s) with
  | Some cipher => take TAG_LEN (gcm_tag cipher (chunk_aad (ses_counter s) tag_byte (length ciphertext)) ciphertext)
  | None => []
  end.
Definition chunk_xor (s : Session) (data : list Z) : list Z := xor_keystream (chunk_keystream s) 0 data.
End spec.

(** ** Keys, IVs and associated data *)

Lemma ascii_label : length INITIAL_SUBKEY_LABEL = 20%nat ∧ bytes_ok INITIAL_SUBKEY_LABEL.
Proof. split; [done|by_decision]. Qed.

Lemma ascii_context : length REKEY_CONTEXT = 23%nat ∧ bytes_ok REKEY_CONTEXT.
Proof. split; [done|by_decision]. Qed.

(** Short inputs of the 256-bit MAC. *)
Lemma kmac_256 key message :
  array_ok 32 key → bytes_ok message → (length message ≤ 100)%nat →
  KupynaKmac.mac Kupyna256 key message = Some (Ok (kmac_spec Kupyna256 key message)) ∧ array_ok 32 (kmac_spec Kupyna256 key message).
Proof.
  intros [Hl Hb] Hm Hlen.
  assert (length (kmac_input Kupyna256 key message) < 2 ^ 64) as Hi.
  { rewrite kmac_input_length, padded_key_length by done. unfold padded_message. rewrite length_app, length_pad_suffix.
    change (columns_of Kupyna256 * ROWS)%nat with 64%nat. rewrite Hl.
    pose proof (Nat.mod_upper_bound (64 - (length message + 13) mod 64) 64 ltac:(lia)).
    lia. }
  split.
  - rewrite kmac_mac_spec by done. by rewrite decide_True.
  - apply (kupyna_digest_ok Kupyna256). by apply kmac_input_bytes.
Qed.

Lemma initial_subkey_spec key header :
  array_ok 32 key → array_ok 32 header →
  initial_subkey key header = Some (ses_subkey (start key header)) ∧ array_ok 32 (ses_subkey (start key header)).
Proof.
  intros Hk [Hl Hb]. destruct ascii_label as [Ll Lb]. unfold initial_subkey. rewrite Ll.
  assert (copy_at 20 header (copy_at 0 INITIAL_SUBKEY_LABEL (replicate (20 + 32) 0)) = INITIAL_SUBKEY_LABEL ++ header) as ->.
  { rewrite copy_at_0 by (rewrite length_replicate; lia). rewrite Ll. unfold copy_at. rewrite take_app_length' by done.
    rewrite drop_ge by (rewrite length_app, Ll, Hl; done). by rewrite app_nil_r. }
  destruct (kmac_256 key (INITIAL_SUBKEY_LABEL ++ header) Hk) as [-> Ho]; [by apply Forall_app|rewrite length_app, Ll, Hl; lia|].
  by split.
Qed.

Lemma rekey_spec s :
  array_ok 32 s → rekey s = Some (kmac_spec Kupyna256 s REKEY_CONTEXT) ∧ array_ok 32 (kmac_spec Kupyna256 s REKEY_CONTEXT).
Proof.
  intros Hs. unfold rekey. destruct (kmac_256 s REKEY_CONTEXT Hs) as [-> Ho]; [apply ascii_context| |by split].
  rewrite (proj1 ascii_context). lia.
Qed.

Lemma chunk_iv_eq counter : chunk_iv counter = to_le_bytes 8 counter ++ replicate 24 0.
Proof. unfold chunk_iv. rewrite copy_at_0; rewrite length_to_le_bytes; [done|]. rewrite length_replicate. lia. Qed.

Lemma chunk_iv_ok counter : array_ok 32 (chunk_iv counter).
Proof. rewrite chunk_iv_eq. apply (array_ok_app 8 24); [apply to_le_bytes_ok|apply array_ok_zeros]. Qed.

Lemma chunk_aad_eq counter tag_byte n : chunk_aad counter tag_byte n = to_le_bytes 8 counter ++ tag_byte :: to_le_bytes 8 n.
Proof.
  unfold chunk_aad. rewrite copy_at_0 by (rewrite length_to_le_bytes, length_replicate; lia). rewrite length_to_le_bytes.
  rewrite insert_app_r_alt by (rewrite length_to_le_bytes; lia). rewrite length_to_le_bytes.
  assert (<[(8 - 8)%nat:=tag_byte]> (drop 8 (replicate 17 0)) = tag_byte :: replicate 8 0) as -> by done.
  unfold copy_at. rewrite length_to_le_bytes, drop_ge, app_nil_r; [|rewrite length_app, length_to_le_bytes; done].
  rewrite take_app, length_to_le_bytes, take_ge by (rewrite length_to_le_bytes; lia). rewrite <- app_assoc. by cbn [take Nat.sub app].
Qed.

Lemma chunk_aad_ok counter tag_byte n : byte_ok tag_byte → array_ok 17 (chunk_aad counter tag_byte n).
Proof.
  intros Hb. rewrite chunk_aad_eq. apply (array_ok_app 8 9); [apply to_le_bytes_ok|].
  apply (array_ok_app 1 8 [tag_byte]); [split; [done|by apply Forall_singleton]|apply to_le_bytes_ok].
Qed.

(** The associated data determines the position, the tag and the length. *)
Lemma chunk_aad_inj c c' t t' (n n' : nat) :
  u64_ok c → u64_ok c' → n < 2 ^ 64 → n' < 2 ^ 64 → chunk_aad c t n = chunk_aad c' t' n' → c = c' ∧ t = t' ∧ n = n'.
Proof.
  intros Hc Hc' Hn Hn' E. rewrite !chunk_aad_eq in E. apply app_inj_1 in E as [E1 E2]; [|by rewrite !length_to_le_bytes].
  apply (app_inj_1 [t] [t']) in E2 as [Et E2]; [|done]. apply (f_equal (λ l, l.[0])) in Et. cbn [nth] in Et. apply (f_equal from_le_bytes) in E1, E2.
  rewrite !from_to_le_bytes_id in E1, E2 by (done || (unfold word_ok; lia)). split; [done|]. split; [done|lia].
Qed.

Lemma from_to_byte tag : from_byte (to_byte tag) = Some tag.
Proof. by destruct tag. Qed.

Lemma from_byte_inv b tag : from_byte b = Some tag → b = to_byte tag.
Proof. unfold from_byte. repeat case_match; try done; by intros [= <-]. Qed.

Lemma to_byte_ok tag : byte_ok (to_byte tag).
Proof. by destruct tag; split. Qed.

(** ** One chunk *)

Section chunk.
Context {GetrandomError : Type} `{Cpu} `{SubtleLaws}.
Local Abbreviation E := (SecretstreamError GetrandomError).

Lemma session_advance s tag : session_ok s → ses_counter s + 1 < 2 ^ 64 → session_ok (advance s tag).
Proof.
  intros [Hk Hc] Hlt. split; [|unfold word_ok in *; simpl; lia].
  destruct tag; try done. exact (proj2 (rekey_spec _ Hk)).
Qed.

Lemma session_cipher s : session_ok s → ∃ k, Gcm.new (K := K) (ses_subkey s) = Some k ∧ key_ok k.
Proof. intros [Hk _]. exact (expanded_new_ok (K := K) (ses_subkey s) Hk). Qed.

Lemma chunk_xor_ok s data : session_ok s → bytes_ok data → bytes_ok (chunk_xor s data).
Proof.
  intros Hs Hd. destruct (session_cipher s Hs) as (k & Hn & Hk). apply xor_keystream_ok; [done|]. intros i.
  unfold chunk_keystream. rewrite Hn. apply nth_byte_ok, (encrypt_block_ok (K := K)); [done|].
  apply counter_block_ok, (encrypt_block_ok (K := K)); [done|apply chunk_iv_ok].
Qed.

Lemma chunk_tag_ok s b data : session_ok s → byte_ok b → bytes_ok data → array_ok TAG_LEN (chunk_tag s b data).
Proof.
  intros Hs Hb Hd. destruct (session_cipher s Hs) as (k & Hn & Hk). unfold chunk_tag. rewrite Hn.
  assert (array_ok (BlockCipher.block_bytes K) (gcm_tag k (chunk_aad (ses_counter s) b (length data)) data)) as Ht
    by (apply (gcm_tag_ok (K := K)); [done|by apply chunk_aad_ok|done]).
  apply (array_ok_take _ 32); [done|unfold TAG_LEN; lia].
Qed.

Lemma chunk_input_ok s (b : Z) (data out : list Z) :
  length out = length data → 8 * length data < 2 ^ 64 → input_error (chunk_aad (ses_counter s) b (length data)) data out = None.
Proof.
  intros Hl Hlen. assert (length (chunk_aad (ses_counter s) b (length data)) = 17%nat) as Ha.
  { rewrite chunk_aad_eq, length_app, length_to_le_bytes. cbn [length]. by rewrite length_to_le_bytes. }
  unfold input_error. rewrite decide_False by tauto. rewrite decide_False by (intros [E _]; rewrite E in Ha; done).
  rewrite decide_True; [done|]. rewrite Ha. split; [lia|done].
Qed.

(** The state after the tag's effect. *)
Lemma push_effect s tag :
  session_ok s → finalized (to_push s) = false →
  (match tag with
   | Rekey =>
       new_subkey ← rekey (ses_subkey s);
       Some {| subkey := new_subkey; counter := ses_counter s + 1; finalized := false |}
   | Final => Some {| subkey := ses_subkey s; counter := ses_counter s + 1; finalized := true |}
   | Message | Push => Some {| subkey := ses_subkey s; counter := ses_counter s + 1; finalized := false |}
   end) = Some (to_push (advance s tag)).
Proof.
  intros [Hk _] Hf. unfold to_push, advance. cbn [ses_subkey ses_counter ses_finalized] in *. unfold to_push in Hf. cbn in Hf.
  rewrite Hf. destruct tag; try done. destruct (rekey_spec _ Hk) as [-> _]. done.
Qed.

Lemma push_spec s tag pt out :
  session_ok s → bytes_ok pt → 8 * length pt < 2 ^ 64 →
  push (GetrandomError := GetrandomError) (to_push s) tag pt out = Some (
    if ses_finalized s then (to_push s, out, Err StreamFinalized)
    else if decide (length out ≠ length pt) then (to_push s, out, Err InvalidLength)
    else if decide (ses_counter s + 1 < 2 ^ 64) then
      let ct := chunk_xor s pt in (to_push (advance s tag), ct, Ok (chunk_tag s (to_byte tag) ct))
    else (to_push s, out, Err CounterExhausted)).
Proof.
  intros Hs Hb Hlen. unfold push. change (finalized (to_push s)) with (ses_finalized s). destruct (ses_finalized s) eqn:Hf; [done|].
  destruct (Nat.eqb_spec (length out) (length pt)) as [Hl|Hl]; cbn [negb]; [rewrite decide_False by tauto|by rewrite decide_True].
  change (counter (to_push s)) with (ses_counter s). change (subkey (to_push s)) with (ses_subkey s).
  change (finalized (to_push s)) with (ses_finalized s).
  rewrite checked_add_spec. case_decide as Hc; [|done].
  destruct (session_cipher s Hs) as (k & Hn & Hk). rewrite Hn. cbn [mbind option_bind].
  rewrite (encrypt_spec (K := K)) by (done || apply chunk_iv_ok || (apply chunk_aad_ok, to_byte_ok)).
  rewrite chunk_input_ok by done. cbn zeta. cbn [subkey counter finalized].
  rewrite push_effect by done. cbn [mbind option_bind]. unfold chunk_xor, chunk_tag, chunk_keystream. rewrite Hn.
  rewrite length_xor_keystream. done.
Qed.

Lemma pull_effect s tag :
  session_ok s → pull_finalized (to_pull s) = false →
  (match tag with
   | Rekey =>
       new_subkey ← rekey (ses_subkey s);
       Some {| pull_subkey := new_subkey; pull_counter := ses_counter s + 1; pull_finalized := false |}
   | Final => Some {| pull_subkey := ses_subkey s; pull_counter := ses_counter s + 1; pull_finalized := true |}
   | Message | Push => Some {| pull_subkey := ses_subkey s; pull_counter := ses_counter s + 1; pull_finalized := false |}
   end) = Some (to_pull (advance s tag)).
Proof.
  intros [Hk _] Hf. unfold to_pull, advance. cbn [ses_subkey ses_counter ses_finalized] in *. unfold to_pull in Hf. cbn in Hf.
  rewrite Hf. destruct tag; try done. destruct (rekey_spec _ Hk) as [-> _]. done.
Qed.

Lemma pull_spec s tag_byte ct auth out :
  session_ok s → bytes_ok ct → 8 * length ct < 2 ^ 64 →
  pull (GetrandomError := GetrandomError) (to_pull s) tag_byte ct auth out = Some (
    if ses_finalized s then (to_pull s, out, Err StreamFinalized)
    else match from_byte tag_byte with
      | None => (to_pull s, out, Err UnknownTag)
      | Some tag =>
          if decide (length out = length ct ∧ length auth = TAG_LEN) then
            if decide (ses_counter s + 1 < 2 ^ 64) then
              if decide (auth = chunk_tag s tag_byte ct) then (to_pull (advance s tag), chunk_xor s ct, Ok tag)
              else (to_pull s, replicate (length out) 0, Err TagMismatch)
            else (to_pull s, out, Err CounterExhausted)
          else (to_pull s, out, Err InvalidLength)
      end).
Proof.
  intros Hs Hb Hlen. unfold pull. change (pull_finalized (to_pull s)) with (ses_finalized s). destruct (ses_finalized s) eqn:Hf; [done|].
  destruct (from_byte tag_byte) as [tag|] eqn:Ht; [|done]. pose proof (from_byte_inv _ _ Ht) as ->.
  destruct (Nat.eqb_spec (length out) (length ct)) as [Hl|Hl]; cbn [negb orb]; [|by rewrite decide_False by tauto].
  destruct (Nat.eqb_spec (length auth) TAG_LEN) as [Ha|Ha]; cbn [negb]; [|by rewrite decide_False by tauto].
  rewrite decide_True by done. change (pull_counter (to_pull s)) with (ses_counter s). change (pull_subkey (to_pull s)) with (ses_subkey s).
  change (pull_finalized (to_pull s)) with (ses_finalized s).
  rewrite checked_add_spec. case_decide as Hc; [|done].
  destruct (session_cipher s Hs) as (k & Hn & Hk). rewrite Hn. cbn [mbind option_bind].
  rewrite (decrypt_spec (K := K)) by (done || apply chunk_iv_ok || (apply chunk_aad_ok, to_byte_ok)).
  change (BlockCipher.block_bytes K) with 32%nat. rewrite Ha. rewrite decide_True by (unfold TAG_LEN; lia). rewrite chunk_input_ok by done.
  unfold chunk_xor, chunk_tag, chunk_keystream. rewrite Hn. case_decide; [|done].
  cbn [pull_subkey pull_counter pull_finalized]. rewrite pull_effect by done. done.
Qed.
End chunk.

(** ** Sequences of chunks *)

Section runs.
Context {GetrandomError : Type} `{Cpu} `{SubtleLaws}.
Local Abbreviation push := (push (GetrandomError := GetrandomError)).
Local Abbreviation pull := (pull (GetrandomError := GetrandomError)).

(** A sender that stops at the first refusal, with buffers of the right size; what goes on the wire. *)
Fixpoint push_all (self : PushState) (chunks : list (Tag * list Z)) : option (PushState * list (Z * list Z * list Z)) :=
  match chunks with
  | [] => Some (self, [])
  | (tag, pt) :: chunks =>
      '(self, ct, r) ← push self tag pt (replicate (length pt) 0);
      match r with
      | Ok auth => '(self, wire) ← push_all self chunks; Some (self, (to_byte tag, ct, auth) :: wire)
      | Err _ => None
      end
  end.

(** The receiver. *)
Fixpoint pull_all (self : PullState) (wire : list (Z * list Z * list Z)) : option (PullState * list (Tag * list Z)) :=
  match wire with
  | [] => Some (self, [])
  | (tag_byte, ct, auth) :: wire =>
      '(self, pt, r) ← pull self tag_byte ct auth (replicate (length ct) 0);
      match r with
      | Ok tag => '(self, chunks) ← pull_all self wire; Some (self, (tag, pt) :: chunks)
      | Err _ => None
      end
  end.

Definition chunk_ok (c : Tag * list Z) : Prop := bytes_ok c.2 ∧ 8 * length c.2 < 2 ^ 64.
#[global] Instance chunk_ok_dec c : Decision (chunk_ok c).
Proof. unfold chunk_ok. apply _. Defined.

(** An accepted chunk: the subkey that the sender held, what it was given, and what came out. *)
Record Sent : Type := { sent_subkey : list Z; sent_tag : Tag; sent_data : list Z; sent_ciphertext : list Z; sent_auth : list Z }.

(** Arbitrary calls, refused ones among them; the accepted chunks. *)
Fixpoint push_trace (self : PushState) (calls : list (Tag * list Z * list Z)) : option (PushState * list Sent) :=
  match calls with
  | [] => Some (self, [])
  | (tag, pt, out) :: calls =>
      '(self', ct, r) ← push self tag pt out;
      '(self'', trace) ← push_trace self' calls;
      Some (self'', match r with
                    | Ok auth => {| sent_subkey := subkey self; sent_tag := tag; sent_data := pt; sent_ciphertext := ct; sent_auth := auth |} :: trace
                    | Err _ => trace
                    end)
  end.

(** The chunk is the one that GCM makes under its subkey with this IV and this associated data. *)
Definition sealed_under (e : Sent) (iv aad : list Z) : Prop :=
  ∃ cipher full, Gcm.new (K := K) (sent_subkey e) = Some cipher ∧
    Gcm.encrypt cipher iv aad (sent_data e) (replicate (length (sent_data e)) 0) = (sent_ciphertext e, Ok full) ∧ sent_auth e = take TAG_LEN full.

Lemma roundtrip_from s chunks :
  session_ok s → Forall chunk_ok chunks → Forall (λ c, c.1 ≠ Final) (removelast chunks) →
  ses_finalized s = false → ses_counter s + length chunks < 2 ^ 64 →
  ∃ wire, let s' := foldl (λ s c, advance s c.1) s chunks in
    push_all (to_push s) chunks = Some (to_push s', wire) ∧ pull_all (to_pull s) wire = Some (to_pull s', chunks) ∧
    map (λ w, length w.1.2) wire = map (λ c, length c.2) chunks.
Proof.
  intros Hs Hc. revert s Hs. induction Hc as [|[tag pt] chunks [Hb Hl] Hc IH]; intros s Hs Hfin Hf Hn; [by exists []|].
  cbn [snd length] in *. set (ct := chunk_xor s pt). set (auth := chunk_tag s (to_byte tag) ct).
  assert (bytes_ok ct) as Hct by by apply chunk_xor_ok. assert (length ct = length pt) as Hlen by apply length_xor_keystream.
  assert (length auth = TAG_LEN) as Ha by (apply (chunk_tag_ok s); [done|apply to_byte_ok|done]).
  assert (session_ok (advance s tag)) as Hs' by (apply session_advance; [done|lia]).
  assert (∃ wire, let s' := foldl (λ s c, advance s c.1) (advance s tag) chunks in
    push_all (to_push (advance s tag)) chunks = Some (to_push s', wire) ∧ pull_all (to_pull (advance s tag)) wire = Some (to_pull s', chunks) ∧
    map (λ w, length w.1.2) wire = map (λ c, length c.2) chunks) as (wire & E1 & E2 & E3).
  { destruct chunks as [|c chunks]; [by exists []|]. change (removelast ((tag, pt) :: c :: chunks)) with ((tag, pt) :: removelast (c :: chunks)) in Hfin.
    apply Forall_cons in Hfin as [Htag Hfin]. apply IH; [done|done| |simpl in *; lia].
    unfold advance. cbn [ses_finalized]. rewrite Hf. by rewrite bool_decide_false. }
  exists ((to_byte tag, ct, auth) :: wire). cbn [foldl fst]. split_and!.
  - cbn [push_all]. rewrite push_spec by done. rewrite Hf. rewrite length_replicate, decide_False by tauto.
    rewrite decide_True by lia. cbn zeta. cbn [mbind option_bind]. rewrite E1. done.
  - cbn [pull_all]. rewrite pull_spec by (done || by rewrite Hlen). rewrite Hf, from_to_byte, length_replicate, decide_True by done.
    rewrite decide_True by lia. rewrite decide_True by done. cbn [mbind option_bind]. rewrite E2. cbn [mbind option_bind].
    assert (chunk_xor s ct = pt) as -> by apply xor_keystream_involutive. done.
  - cbn [map fst snd]. by rewrite E3, Hlen.
Qed.

Lemma advance_fields s chunks :
  let s' := foldl (λ s (c : Tag * list Z), advance s c.1) s chunks in
  ses_counter s' = ses_counter s + length chunks ∧
  ses_finalized s' = ses_finalized s || existsb (λ c, bool_decide (c.1 = Final)) chunks.
Proof.
  revert s. induction chunks as [|c chunks IH]; intros s; cbn [foldl existsb length]; [split; [lia|by rewrite orb_false_r]|].
  destruct (IH (advance s c.1)) as [-> ->]. unfold advance. cbn [ses_counter ses_finalized]. split; [lia|by rewrite orb_assoc].
Qed.

Lemma push_init_spec (fill : fill_call GetrandomError) key :
  array_ok 32 key → fill_ok fill → (fill (replicate 32 0)).2 = Ok tt →
  let header := (fill (replicate 32 0)).1 in
  array_ok 32 header ∧ push_init fill key = Some (Ok (to_push (start key header), header)) ∧
  pull_init key header = Some (to_pull (start key header)) ∧ session_ok (start key header).
Proof.
  intros Hk Hf Hr header. pose proof (Hf 32%nat) as Hh. fold header in Hh. split; [done|].
  destruct (initial_subkey_spec key header Hk Hh) as [Hi Hok].
  unfold push_init, pull_init, randombytes_buf. unfold header in *. destruct (fill (replicate 32 0)) as [hd r]. cbn [fst snd] in *.
  subst r. rewrite Hi. split; [done|]. split; [done|]. split; [done|by split].
Qed.

Lemma chunk_iv_inj c c' : u64_ok c → u64_ok c' → chunk_iv c = chunk_iv c' → c = c'.
Proof.
  intros Hc Hc' E. rewrite !chunk_iv_eq in E. apply app_inj_1 in E as [E _]; [|by rewrite !length_to_le_bytes].
  apply (f_equal from_le_bytes) in E. by rewrite !from_to_le_bytes_id in E.
Qed.

Definition call_ok (c : Tag * list Z * list Z) : Prop := bytes_ok c.1.2 ∧ 8 * length c.1.2 < 2 ^ 64.
#[global] Instance call_ok_dec c : Decision (call_ok c).
Proof. unfold call_ok. apply _. Defined.

Lemma push_sealed s tag pt : session_ok s → bytes_ok pt → 8 * length pt < 2 ^ 64 →
  sealed_under {| sent_subkey := ses_subkey s; sent_tag := tag; sent_data := pt; sent_ciphertext := chunk_xor s pt;
                  sent_auth := chunk_tag s (to_byte tag) (chunk_xor s pt) |}
    (chunk_iv (ses_counter s)) (chunk_aad (ses_counter s) (to_byte tag) (length pt)).
Proof.
  intros Hs Hb Hl. destruct (session_cipher s Hs) as (k & Hn & Hk). unfold sealed_under. cbn [sent_subkey sent_data sent_ciphertext sent_auth].
  eexists k, _. split; [done|]. rewrite (encrypt_spec (K := K)) by (done || apply chunk_iv_ok || (apply chunk_aad_ok, to_byte_ok)).
  rewrite chunk_input_ok by (rewrite ?length_replicate; done). unfold chunk_xor, chunk_tag, chunk_keystream. rewrite Hn. split; [done|].
  by rewrite length_xor_keystream.
Qed.

(** The accepted chunks take the positions one after the other. *)
Lemma push_trace_from s calls :
  session_ok s → Forall call_ok calls →
  ∃ s' trace, push_trace (to_push s) calls = Some (to_push s', trace) ∧ session_ok s' ∧ ses_counter s' = ses_counter s + length trace ∧
    (∀ (i : nat) e, trace !! i = Some e → length (sent_data e) < 2 ^ 64 ∧
      sealed_under e (chunk_iv (ses_counter s + i)) (chunk_aad (ses_counter s + i) (to_byte (sent_tag e)) (length (sent_data e)))) ∧
    (ses_finalized s = true → s' = s ∧ trace = []).
Proof.
  intros Hs Hc. revert s Hs. induction Hc as [|[[tag pt] out] calls [Hb Hl] Hc IH]; intros s Hs.
  { exists s, []. cbn. split_and!; try done. lia. }
  cbn [fst snd] in *. cbn [push_trace]. rewrite push_spec by done.
  destruct (IH s Hs) as (s0 & tr0 & E0 & Hs0 & Hc0 & Ht0 & Hf0).
  destruct (ses_finalized s) eqn:Hf.
  { cbn [mbind option_bind]. rewrite E0. exists s0, tr0. cbn [mbind option_bind]. split_and!; by auto. }
  case_decide; [cbn [mbind option_bind]; rewrite E0; exists s0, tr0; split_and!; by auto|].
  case_decide as Hlt; [|cbn [mbind option_bind]; rewrite E0; exists s0, tr0; split_and!; by auto].
  cbn zeta. cbn [mbind option_bind]. pose proof (session_advance s tag Hs Hlt) as Hs1.
  destruct (IH _ Hs1) as (s' & tr & E1 & Hs' & Hc' & Ht' & _). rewrite E1.
  eexists s', (_ :: tr). cbn [length mbind option_bind]. split_and!; [reflexivity|done| | |done].
  - rewrite Hc'. cbn [advance ses_counter]. lia.
  - intros [|i] e Hi; cbn [lookup list_lookup] in Hi.
    + injection Hi as <-. cbn [sent_data sent_tag]. rewrite Z.add_0_r. split; [lia|]. by apply push_sealed.
    + destruct (Ht' i e Hi) as [Hle Hse]. split; [done|]. cbn [advance ses_counter] in Hse.
      by replace (ses_counter s + S i) with (ses_counter s + 1 + i) by lia.
Qed.
End runs.

(** ** Properties *)

Lemma to_of_push p : to_push (of_push p) = p.
Proof. by destruct p. Qed.
Lemma to_of_pull p : to_pull (of_pull p) = p.
Proof. by destruct p. Qed.

(** A stream of chunks round-trips: whatever the generator draws, the chunks that a sender pushes, at
    most the last under [Final], are pulled by a receiver over the same key and header, with their tags
    and in their order; ciphertexts have the length of the chunks; and the two states stay equal, with
    the counter at the number of chunks and finalized exactly after a [Final] chunk. *)
Theorem secretstream_roundtrip {GE} `{Cpu} `{SubtleLaws} (fill : fill_call GE) (key : list Z) (chunks : list (Tag * list Z)) :
  array_ok 32 key → fill_ok fill → (fill (replicate 32 0)).2 = Ok tt →
  Forall chunk_ok chunks → Forall (λ c, c.1 ≠ Final) (removelast chunks) → length chunks < 2 ^ 64 →
  ∃ header self other self' other' wire,
    push_init fill key = Some (Ok (self, header)) ∧ pull_init key header = Some other ∧
    push_all (GetrandomError := GE) self chunks = Some (self', wire) ∧
    pull_all (GetrandomError := GE) other wire = Some (other', chunks) ∧
    map (λ w, length w.1.2) wire = map (λ c, length c.2) chunks ∧
    of_push self' = of_pull other' ∧ counter self' = length chunks ∧
    finalized self' = existsb (λ c, bool_decide (c.1 = Final)) chunks.
Proof.
  intros Hk Hf Hr Hc Hfin Hn. destruct (push_init_spec fill key Hk Hf Hr) as (_ & Hi & Hp & Hs).
  set (header := (fill (replicate 32 0)).1) in *.
  destruct (roundtrip_from (GetrandomError := GE) (start key header) chunks) as (wire & E1 & E2 & E3); [done..|].
  pose proof (advance_fields (start key header) chunks) as [Hcount Hfinal]. set (s' := foldl _ _ _) in *.
  by exists header, (to_push (start key header)), (to_pull (start key header)), (to_push s'), (to_pull s'), wire.
Qed.

Lemma secretstream_roundtrip_witness :
  let _ := plain_subtle in let _ := {| feature_available := false |} in
  ∃ header self other self' other' wire,
    push_init (GetrandomError := unit) (constant_fill 7) (seqZ 0 32) = Some (Ok (self, header)) ∧ pull_init (seqZ 0 32) header = Some other ∧
    push_all (GetrandomError := unit) self [(Rekey, [1; 2]); (Final, [])] = Some (self', wire) ∧
    pull_all (GetrandomError := unit) other wire = Some (other', [(Rekey, [1; 2]); (Final, [])]) ∧
    map (λ w, length w.1.2) wire = [2%nat; 0%nat] ∧
    of_push self' = of_pull other' ∧ counter self' = 2 ∧ finalized self' = true.
Proof.
  refine (@secretstream_roundtrip unit {| feature_available := false |} plain_subtle plain_subtle_laws (constant_fill 7) (seqZ 0 32)
    [(Rekey, [1; 2]); (Final, [])] _ (constant_fill_ok 7 _) _ _ _ _).
  - by_decision.
  - by_decision.
  - reflexivity.
  - by_decision.
  - by_decision.
  - reflexivity.
Defined.

(** C9. [pull] on every branch, in the order of its checks.  A chunk is accepted exactly when the
    authentication tag is the one of the receiver's own subkey and counter, the tag byte and the length;
    a refused call never changes the state, and a failed authentication leaves zeros in the output. *)
Theorem secretstream_pull_exact {GE} `{Cpu} `{SubtleLaws} (self : PullState) (tag_byte : Z) (ct auth out : list Z) :
  session_ok (of_pull self) → bytes_ok ct → 8 * length ct < 2 ^ 64 →
  ∃ self' out' r, pull (GetrandomError := GE) self tag_byte ct auth out = Some (self', out', r) ∧
    (r = if pull_finalized self then Err StreamFinalized
         else match from_byte tag_byte with
           | None => Err UnknownTag
           | Some tag =>
               if decide (length out = length ct ∧ length auth = 16%nat) then
                 if decide (pull_counter self + 1 < 2 ^ 64) then
                   if decide (auth = chunk_tag (of_pull self) tag_byte ct) then Ok tag else Err TagMismatch
                 else Err CounterExhausted
               else Err InvalidLength
           end) ∧
    match r with
    | Ok tag => of_pull self' = advance (of_pull self) tag ∧ out' = chunk_xor (of_pull self) ct
    | Err TagMismatch => self' = self ∧ out' = replicate (length out) 0
    | Err _ => self' = self ∧ out' = out
    end.
Proof.
  intros Hs Hb Hl. pose proof (pull_spec (GetrandomError := GE) (of_pull self) tag_byte ct auth out Hs Hb Hl) as E.
  rewrite to_of_pull in E. rewrite E. clear E. unfold TAG_LEN.
  change (ses_finalized (of_pull self)) with (pull_finalized self). change (ses_counter (of_pull self)) with (pull_counter self).
  destruct (pull_finalized self); [by repeat eexists|]. destruct (from_byte tag_byte); [|by repeat eexists].
  case_decide; [|by repeat eexists]. case_decide; [|by repeat eexists]. case_decide; by repeat eexists.
Qed.

Lemma secretstream_pull_exact_witness :
  let _ := plain_subtle in let _ := {| feature_available := false |} in
  let self := {| pull_subkey := seqZ 0 32; pull_counter := 5; pull_finalized := false |} in
  ∃ self' out' r, pull (GetrandomError := unit) self 9 [1; 2] [] [0; 0] = Some (self', out', r) ∧ r = Err UnknownTag ∧
    match r with
    | Ok tag => of_pull self' = advance (of_pull self) tag ∧ out' = chunk_xor (of_pull self) [1; 2]
    | Err TagMismatch => self' = self ∧ out' = replicate 2 0
    | Err _ => self' = self ∧ out' = [0; 0]
    end.
Proof.
  refine (@secretstream_pull_exact unit {| feature_available := false |} plain_subtle plain_subtle_laws
    {| pull_subkey := seqZ 0 32; pull_counter := 5; pull_finalized := false |} 9 [1; 2] [] [0; 0] _ _ _).
  - by_decision.
  - by_decision.
  - by_decision.
Defined.

(** The IV of a position is its 64-bit counter and zeros, and the associated data is the counter, the tag byte and the length. *)
Definition iv_at (c : Z) : list Z := to_le_bytes 8 c ++ replicate 24 0.
Definition aad_at (c : Z) (e : Sent) : list Z := to_le_bytes 8 c ++ to_byte (sent_tag e) :: to_le_bytes 8 (length (sent_data e)).

(** C8. Over any sequence of calls of [push], accepted or refused, none panics, the counter counts the
    accepted chunks and stays a 64-bit word.  What every accepted call puts out is the GCM encryption of its chunk,
    under the subkey of the moment, with the IV and the associated data of its position; no IV and no associated
    data is used for two of them, whether the subkey has changed or not.  A finalized state never accepts a chunk again. *)
Theorem secretstream_no_iv_reuse {GE} `{Cpu} `{SubtleLaws} (self : PushState) (calls : list (Tag * list Z * list Z)) :
  session_ok (of_push self) → Forall call_ok calls →
  ∃ self' trace, push_trace (GetrandomError := GE) self calls = Some (self', trace) ∧
    let ivs := imap (λ i _, iv_at (counter self + i)) trace in
    let aads := imap (λ i e, aad_at (counter self + i) e) trace in
    (∀ i e iv aad, trace !! i = Some e → ivs !! i = Some iv → aads !! i = Some aad → sealed_under e iv aad) ∧
    NoDup ivs ∧ NoDup aads ∧
    counter self' = counter self + length trace ∧ counter self' < 2 ^ 64 ∧
    (finalized self = true → self' = self ∧ trace = []).
Proof.
  intros Hs Hc. destruct (push_trace_from (GetrandomError := GE) (of_push self) calls Hs Hc) as (s' & trace & E & Hs' & Hn & Ht & Hf).
  rewrite to_of_push in E. rewrite E. exists (to_push s'), trace. split; [done|]. cbv zeta. change (ses_counter (of_push self)) with (counter self) in *.
  assert (∀ (i : nat) e, trace !! i = Some e → u64_ok (counter self + i)) as Hw.
  { intros i e Hi. apply lookup_lt_Some in Hi. destruct Hs as [_ Hu1], Hs' as [_ Hu2]. change (ses_counter (of_push self)) with (counter self) in Hu1. unfold word_ok in *. lia. }
  split_and!.
  - intros i e iv aad Hi Hiv Haad. rewrite !list_lookup_imap, Hi in Hiv, Haad. injection Hiv as <-. injection Haad as <-.
    destruct (Ht i e Hi) as [_ Hse]. by rewrite chunk_iv_eq, chunk_aad_eq in Hse.
  - apply NoDup_imap. intros i j e e' Hi Hj Eiv. apply Hw in Hi, Hj. unfold iv_at in Eiv. rewrite <- !chunk_iv_eq in Eiv. apply chunk_iv_inj in Eiv; [lia|done..].
  - apply NoDup_imap. intros i j e e' Hi Hj Ea. destruct (Ht i e Hi) as [Hl _], (Ht j e' Hj) as [Hl' _]. apply Hw in Hi, Hj.
    unfold aad_at in Ea. rewrite <- !chunk_aad_eq in Ea. apply chunk_aad_inj in Ea as (? & _); [lia|done..].
  - exact Hn.
  - destruct Hs' as [_ Hu]. exact (proj2 Hu).
  - intros Hfin. destruct (Hf Hfin) as [-> ->]. by rewrite to_of_push.
Qed.

Lemma secretstream_no_iv_reuse_witness :
  let _ := plain_subtle in let _ := {| feature_available := false |} in
  let self := {| subkey := seqZ 0 32; counter := 0; finalized := false |} in
  ∃ self' trace, push_trace (GetrandomError := unit) self [(Message, [1], [0]); (Push, [1], []); (Final, [2], [0])] = Some (self', trace) ∧
    (∀ i e iv aad, trace !! i = Some e → imap (λ i _, iv_at (0 + i)) trace !! i = Some iv → imap (λ i e, aad_at (0 + i) e) trace !! i = Some aad → sealed_under e iv aad) ∧
    NoDup (imap (λ i _, iv_at (0 + i)) trace) ∧ NoDup (imap (λ i e, aad_at (0 + i) e) trace) ∧
    counter self' = 0 + length trace ∧ counter self' < 2 ^ 64 ∧ (false = true → self' = self ∧ trace = []).
Proof.
  refine (@secretstream_no_iv_reuse unit {| feature_available := false |} plain_subtle plain_subtle_laws
    {| subkey := seqZ 0 32; counter := 0; finalized := false |} [(Message, [1], [0]); (Push, [1], []); (Final, [2], [0])] _ _).
  - by_decision.
  - by_decision.
Defined.
