(* ===== verification/SecretstreamFile.v ===== *)
(** The stream file codec ([crypto_secretstream/file.rs]): a version byte, the header and records; the
    writer, the reader's state machine, and the one-shot helpers over a whole file.  [None] stands for a
    panic; in the loops it also stands for the end of the fuel, which the theorems exclude. *)

From S2P Require Import Prelude External Stream Kalyna Ghash Randombytes Secretstream.

Definition CHUNK_BYTES : nat := Z.to_nat 8192.
Definition HEADER_BYTES : nat := 32.
Definition FILE_PREFIX_BYTES : nat := 1 + HEADER_BYTES.
Definition RECORD_HEAD_BYTES : nat := 1 + 4.
Definition RECORD_OVERHEAD_BYTES : nat := RECORD_HEAD_BYTES + TAG_LEN.
Definition MAX_RECORD_BYTES : nat := CHUNK_BYTES + RECORD_OVERHEAD_BYTES.

Inductive State : Type :=
| Version
| Header
| RecordHead
| RecordBody (tag_byte : Z) (len : nat)
| AfterFinal
| Done.

#[global] Instance State_eq_dec : EqDecision State.
Proof. solve_decision. Defined.

Section file.
Context {GetrandomError : Type}.

Inductive FileError : Type :=
| UnsupportedVersion (v : Z)
| Truncated
| ChunkTooLarge (len : Z)
| BadChunkLength (len : Z)
| UnknownTag
| TrailingData
| Auth
| Finished
| InvalidLength
| CounterExhausted
| Random (e : RandomError GetrandomError).

(** [From<SecretstreamError>]. *)
Definition file_error (e : SecretstreamError GetrandomError) : FileError :=
  match e with
  | Secretstream.InvalidLength => InvalidLength
  | Secretstream.TagMismatch => Auth
  | Secretstream.UnknownTag => UnknownTag
  | StreamFinalized => Finished
  | Secretstream.CounterExhausted => CounterExhausted
  | Secretstream.Random e => Random e
  end.

(** ** The writer *)

Record FileEncryptor : Type := { enc_push : PushState }.

(** The encryptor and the prefix. *)
Definition encryptor_init (fill : fill_call GetrandomError) (key : list Z) : option (result (FileEncryptor * list Z) FileError) :=
  r ← push_init fill key;
  match r with
  | Err e => Some (Err (file_error e))
  | Ok (push, header) =>
      let prefix := replicate FILE_PREFIX_BYTES 0 in
      let prefix := <[0%nat := FORMAT_VERSION]> prefix in
      let prefix := copy_at 1 header prefix in
      Some (Ok ({| enc_push := push |}, prefix))
  end.

(** Returns the encryptor, [out] and the record's length. *)
Definition seal `{Cpu} (self : FileEncryptor) (tag : Tag) (plaintext out : list Z) :
    option (FileEncryptor * list Z * result nat FileError) :=
  if finalized (enc_push self) then Some (self, out, Err Finished)
  else
    let record_len := (length plaintext + RECORD_OVERHEAD_BYTES)%nat in
    if Nat.ltb CHUNK_BYTES (length plaintext) || Nat.ltb (length out) record_len then Some (self, out, Err InvalidLength)
    else if negb (Z.ltb (length plaintext) (2 ^ 32)) then Some (self, out, Err InvalidLength)
    else
      let len := length plaintext in
      let ciphertext := slice RECORD_HEAD_BYTES (RECORD_HEAD_BYTES + len) out in
      '(push, ciphertext, r) ← push (enc_push self) tag plaintext ciphertext;
      let self := {| enc_push := push |} in
      let out := copy_at RECORD_HEAD_BYTES ciphertext out in
      match r with
      | Err e => Some (self, out, Err (file_error e))
      | Ok auth_tag =>
          let out := copy_at (RECORD_HEAD_BYTES + len) auth_tag out in
          let out := <[0%nat := to_byte tag]> out in
          let out := copy_at 1 (to_le_bytes 4 len) out in
          Some (self, out, Ok record_len)
      end.

Definition seal_chunk `{Cpu} (self : FileEncryptor) (chunk out : list Z) : option (FileEncryptor * list Z * result unit FileError) :=
  '(self, out, r) ← seal self Message chunk out;
  Some (self, out, result_bind r (λ _, Ok tt)).

Definition seal_final `{Cpu} (self : FileEncryptor) (last out : list Z) : option (FileEncryptor * list Z * result nat FileError) :=
  seal self Final last out.

(** [while rest.len() > CHUNK_BYTES]; the fuel [length rest] is enough.  Returns the encryptor, [record]
    and [out], with the rest. *)
Fixpoint seal_loop `{Cpu} (fuel : nat) (enc : FileEncryptor) (rest record out : list Z) :
    option (FileEncryptor * list Z * result (list Z * list Z) FileError) :=
  match fuel with
  | O => None
  | S fuel =>
      if Nat.ltb CHUNK_BYTES (length rest) then
        '(enc, record, r) ← seal_chunk enc (take CHUNK_BYTES rest) record;
        match r with
        | Err e => Some (enc, record, Err e)
        | Ok _ => seal_loop fuel enc (drop CHUNK_BYTES rest) record (out ++ record)
        end
      else Some (enc, record, Ok (rest, out))
  end.

Definition seal_all `{Cpu} (enc : FileEncryptor) (plaintext out : list Z) : option (FileEncryptor * result (list Z) FileError) :=
  let record := replicate MAX_RECORD_BYTES 0 in
  '(enc, record, r) ← seal_loop (S (length plaintext)) enc plaintext record out;
  match r with
  | Err e => Some (enc, Err e)
  | Ok (rest, out) =>
      '(enc, record, r) ← seal_final enc rest record;
      match r with
      | Err e => Some (enc, Err e)
      | Ok n => Some (enc, Ok (out ++ take n record))
      end
  end.

(** ** The reader *)

Record FileDecryptor : Type := {
  key : list Z;
  dec_pull : option PullState;
  state : State;
  final_plaintext : list Z;
  final_len : nat
}.

Definition decryptor_new (k : list Z) : FileDecryptor :=
  {| key := k; dec_pull := None; state := Version; final_plaintext := replicate CHUNK_BYTES 0; final_len := 0 |}.

Definition next_len (self : FileDecryptor) : nat :=
  match state self with
  | Version | AfterFinal => 1
  | Header => HEADER_BYTES
  | RecordHead => RECORD_HEAD_BYTES
  | RecordBody _ len => len + TAG_LEN
  | Done => 0
  end.

Definition set_state (self : FileDecryptor) (st : State) : FileDecryptor :=
  {| key := key self; dec_pull := dec_pull self; state := st; final_plaintext := final_plaintext self; final_len := final_len self |}.

Definition set_pull (self : FileDecryptor) (pull : PullState) : FileDecryptor :=
  {| key := key self; dec_pull := Some pull; state := state self; final_plaintext := final_plaintext self; final_len := final_len self |}.

Definition set_final (self : FileDecryptor) (plaintext : list Z) (len : nat) : FileDecryptor :=
  {| key := key self; dec_pull := dec_pull self; state := state self; final_plaintext := plaintext; final_len := len |}.

Definition fail `{Zeroize} (self : FileDecryptor) : FileDecryptor :=
  {| key := zeroize (key self); dec_pull := None; state := Done; final_plaintext := zeroize (final_plaintext self); final_len := 0 |}.

(** Returns the decryptor, [plaintext_out] and the result. *)
Definition step `{Cpu} `{Subtle} `{Zeroize} (self : FileDecryptor) (input plaintext_out : list Z) :
    option (FileDecryptor * list Z * result nat FileError) :=
  match state self with
  | Version =>
      if negb (Z.eqb (input.[0]) FORMAT_VERSION) then Some (self, plaintext_out, Err (UnsupportedVersion (input.[0])))
      else Some (set_state self Header, plaintext_out, Ok 0%nat)
  | Header =>
      let header := copy_at 0 input (replicate HEADER_BYTES 0) in
      pull ← pull_init (key self) header;
      let self := set_pull self pull in
      let self := {| key := zeroize (key self); dec_pull := dec_pull self; state := state self;
                     final_plaintext := final_plaintext self; final_len := final_len self |} in
      Some (set_state self RecordHead, plaintext_out, Ok 0%nat)
  | RecordHead =>
      let tag_byte := input.[0] in
      let declared := from_le_bytes [input.[1]; input.[2]; input.[3]; input.[4]] in
      let len := Z.to_nat declared in
      if Nat.ltb CHUNK_BYTES len then Some (self, plaintext_out, Err (ChunkTooLarge declared))
      else
        match from_byte tag_byte with
        | None => Some (self, plaintext_out, Err UnknownTag)
        | Some tag =>
            if bool_decide (tag ≠ Final) && negb (Nat.eqb len CHUNK_BYTES) then
              Some (self, plaintext_out, Err (BadChunkLength declared))
            else Some (set_state self (RecordBody tag_byte len), plaintext_out, Ok 0%nat)
        end
  | RecordBody tag_byte len =>
      let ciphertext := take len input in
      let auth_tag := drop len input in
      match dec_pull self with
      | None => Some (self, plaintext_out, Err Finished)
      | Some pull =>
          if Z.eqb tag_byte (to_byte Final) then
            '(pull, out, r) ← Secretstream.pull pull tag_byte ciphertext auth_tag (take len (final_plaintext self));
            let self := set_final (set_pull self pull) (copy_at 0 out (final_plaintext self)) (final_len self) in
            match r with
            | Err e => Some (self, plaintext_out, Err (file_error e))
            | Ok _ =>
                let self := set_final self (final_plaintext self) len in
                Some (set_state self AfterFinal, plaintext_out, Ok 0%nat)
            end
          else
            '(pull, out, r) ← Secretstream.pull pull tag_byte ciphertext auth_tag (take len plaintext_out);
            let self := set_pull self pull in
            let plaintext_out := copy_at 0 out plaintext_out in
            match r with
            | Err e => Some (self, plaintext_out, Err (file_error e))
            | Ok _ => Some (set_state self RecordHead, plaintext_out, Ok len)
            end
      end
  | AfterFinal => Some (self, plaintext_out, Err TrailingData)
  | Done => Some (self, plaintext_out, Err Finished)
  end.

Definition is_done (st : State) : bool := match st with Done => true | _ => false end.

Definition feed `{Cpu} `{Subtle} `{Zeroize} (self : FileDecryptor) (input plaintext_out : list Z) :
    option (FileDecryptor * list Z * result nat FileError) :=
  if is_done (state self) then Some (self, plaintext_out, Err Finished)
  else if negb (Nat.eqb (length input) (next_len self)) || Nat.ltb (length plaintext_out) CHUNK_BYTES then
    Some (self, plaintext_out, Err InvalidLength)
  else
    '(self, plaintext_out, result) ← step self input plaintext_out;
    let self := match result with Err _ => fail self | Ok _ => self end in
    Some (self, plaintext_out, result).

Definition finish `{Zeroize} (self : FileDecryptor) (plaintext_out : list Z) : FileDecryptor * list Z * result nat FileError :=
  if is_done (state self) then (self, plaintext_out, Err Finished)
  else if Nat.ltb (length plaintext_out) CHUNK_BYTES then (self, plaintext_out, Err InvalidLength)
  else
    match state self with
    | AfterFinal =>
        let len := final_len self in
        let plaintext_out := copy_at 0 (take len (final_plaintext self)) plaintext_out in
        (fail self, plaintext_out, Ok len)
    | _ => (fail self, plaintext_out, Err Truncated)
    end.

(** The loop of [open_all], on the bytes of [file] from [pos] on; every turn but the last consumes a
    byte, so the fuel [length file + 1] is enough.  Returns the decryptor, the plaintext and the result. *)
Fixpoint open_loop `{Cpu} `{Subtle} `{Zeroize} (fuel : nat) (dec : FileDecryptor) (file chunk plaintext : list Z) :
    option (FileDecryptor * list Z * result unit FileError) :=
  match fuel with
  | O => None
  | S fuel =>
      let want := next_len dec in
      if Nat.leb want (length file) then
        '(dec, chunk, r) ← feed dec (take want file) chunk;
        match r with
        | Ok n => open_loop fuel dec (drop want file) chunk (plaintext ++ take n chunk)
        | Err e => Some (dec, plaintext, Err e)
        end
      else
        let '(dec, chunk, r) := finish dec chunk in
        Some (dec, match r with Ok n => plaintext ++ take n chunk | Err _ => plaintext end, result_bind r (λ _, Ok tt))
  end.

(** On an error the plaintext gathered so far is wiped and dropped. *)
Definition open_all `{Cpu} `{Subtle} `{Zeroize} (dec : FileDecryptor) (file : list Z) : option (FileDecryptor * result (list Z) FileError) :=
  '(dec, plaintext, r) ← open_loop (S (length file)) dec file (replicate CHUNK_BYTES 0) [];
  Some (dec, result_bind r (λ _, Ok plaintext)).
End file.
Arguments FileError GetrandomError : clear implicits.

(** [CHUNK_BYTES] is 8192, as bounds for [lia]. *)
Lemma chunk_bytes_Z : 8191 < CHUNK_BYTES < 8193.
Proof. unfold CHUNK_BYTES. rewrite Z2Nat.id; lia. Qed.
#[global] Opaque CHUNK_BYTES.

(** ** The format *)

Section format.
Context `{Cpu}.

(** A record over the ciphertext [ct]. *)
Definition record (s : Session) (tag : Tag) (ct : list Z) : list Z :=
  to_byte tag :: to_le_bytes 4 (length ct) ++ ct ++ chunk_tag s (to_byte tag) ct.

(** [wire_file s pt recs]: the records [recs] carry the plaintext [pt] from the session [s] on. *)
Inductive wire_file : Session → list Z → list Z → Prop :=
| wire_final s ct : (length ct ≤ CHUNK_BYTES)%nat → wire_file s (chunk_xor s ct) (record s Final ct)
| wire_chunk s tag ct pt recs :
    tag ≠ Final → length ct = CHUNK_BYTES → wire_file (advance s tag) pt recs →
    wire_file s (chunk_xor s ct ++ pt) (record s tag ct ++ recs).
End format.


Lemma chunk_bytes_pos : (0 < CHUNK_BYTES)%nat.
Proof. pose proof chunk_bytes_Z. lia. Qed.

Section writer.
Context {GetrandomError : Type} `{Cpu} `{SubtleLaws}.
Local Abbreviation seal := (seal (GetrandomError := GetrandomError)).

Lemma length_record s tag ct : session_ok s → bytes_ok ct → length (record s tag ct) = (length ct + RECORD_OVERHEAD_BYTES)%nat.
Proof.
  intros Hs Hb. unfold record. destruct (chunk_tag_ok s (to_byte tag) ct Hs (to_byte_ok tag) Hb) as [Hl _].
  cbn [length]. rewrite !length_app, Hl, length_to_le_bytes. unfold RECORD_OVERHEAD_BYTES, RECORD_HEAD_BYTES. lia.
Qed.

Lemma record_seal_spec s tag pt out :
  session_ok s → ses_finalized s = false → ses_counter s + 1 < 2 ^ 64 → bytes_ok pt →
  (length pt ≤ CHUNK_BYTES)%nat → (length pt + RECORD_OVERHEAD_BYTES ≤ length out)%nat →
  seal {| enc_push := to_push s |} tag pt out = Some ({| enc_push := to_push (advance s tag) |},
    record s tag (chunk_xor s pt) ++ drop (length pt + RECORD_OVERHEAD_BYTES) out, Ok (length pt + RECORD_OVERHEAD_BYTES)%nat).
Proof.
  intros Hs Hf Hc Hb Hl Ho. pose proof chunk_bytes_Z as HZ. unfold seal. cbn [enc_push].
  change (finalized (to_push s)) with (ses_finalized s). rewrite Hf.
  rewrite (proj2 (Nat.ltb_ge _ _) Hl), (proj2 (Nat.ltb_ge _ _) Ho). cbn [orb].
  rewrite (proj2 (Z.ltb_lt _ _)) by lia. cbn [negb].
  assert (length (slice RECORD_HEAD_BYTES (RECORD_HEAD_BYTES + length pt) out) = length pt) as Hsl.
  { unfold slice. rewrite length_take, length_drop. unfold RECORD_OVERHEAD_BYTES, RECORD_HEAD_BYTES in *. lia. }
  rewrite push_spec by (done || lia). rewrite Hf, Hsl, decide_False, decide_True by (done || tauto). cbn zeta. cbn [mbind option_bind].
  set (ct := chunk_xor s pt). assert (length ct = length pt) as Hct by apply length_xor_keystream.
  assert (length (chunk_tag s (to_byte tag) ct) = TAG_LEN) as Ht by (apply (chunk_tag_ok s); [done|apply to_byte_ok|by apply chunk_xor_ok]).
  unfold record. rewrite Hct.
  do 2 f_equal. f_equal. unfold RECORD_OVERHEAD_BYTES, RECORD_HEAD_BYTES in *.
  do 5 (destruct out as [|? out]; [simpl in Ho; lia|]). cbn [length] in Ho.
  replace (length pt + (1 + 4 + TAG_LEN))%nat with (S (S (S (S (S (length pt + TAG_LEN)))))) by lia. rewrite !skipn_cons.
  set (c := drop (length pt + TAG_LEN) out). rewrite <- (take_drop (length pt) out), <- (take_drop TAG_LEN (drop (length pt) out)), drop_drop.
  set (a := take (length pt) out). set (b := take TAG_LEN (drop (length pt) out)). fold c.
  assert (length a = length pt) as Ha by (unfold a; rewrite length_take; lia).
  assert (length b = TAG_LEN) as Hbl by (unfold b; rewrite length_take, length_drop; lia).
  change (z :: z0 :: z1 :: z2 :: z3 :: a ++ b ++ c) with ([z; z0; z1; z2; z3] ++ a ++ b ++ c).
  rewrite (copy_at_app [z; z0; z1; z2; z3] a (b ++ c) ct) by (done || lia).
  rewrite (app_assoc [z; z0; z1; z2; z3] ct (b ++ c)), (copy_at_app ([z; z0; z1; z2; z3] ++ ct) b c) by (rewrite ?length_app; cbn [length]; lia).
  change (<[0%nat:=to_byte tag]> (([z; z0; z1; z2; z3] ++ ct) ++ chunk_tag s (to_byte tag) ct ++ c))
    with ([to_byte tag] ++ [z0; z1; z2; z3] ++ (ct ++ chunk_tag s (to_byte tag) ct ++ c)).
  rewrite copy_at_app by (rewrite ?length_to_le_bytes; done). cbn [app]. rewrite <- !app_assoc. done.
Qed.

Lemma chunk_xor_involutive s data : chunk_xor s (chunk_xor s data) = data.
Proof. apply xor_keystream_involutive. Qed.

Lemma wire_final_plain s pt : (length pt ≤ CHUNK_BYTES)%nat → wire_file s pt (record s Final (chunk_xor s pt)).
Proof.
  intros Hl. rewrite <- (chunk_xor_involutive s pt) at 1. constructor. unfold chunk_xor. by rewrite length_xor_keystream.
Qed.

Lemma wire_chunk_plain s pt rest recs :
  length pt = CHUNK_BYTES → wire_file (advance s Message) rest recs →
  wire_file s (pt ++ rest) (record s Message (chunk_xor s pt) ++ recs).
Proof.
  intros Hl Hw. rewrite <- (chunk_xor_involutive s pt) at 1. constructor; [done| |done].
  unfold chunk_xor. by rewrite length_xor_keystream.
Qed.

Lemma seal_loop_spec fuel s rest buf out :
  session_ok s → ses_finalized s = false → ses_counter s + length rest + 1 < 2 ^ 64 → bytes_ok rest →
  length buf = MAX_RECORD_BYTES → (length rest < fuel)%nat →
  ∃ s' rest' buf' pre,
    seal_loop (GetrandomError := GetrandomError) fuel {| enc_push := to_push s |} rest buf out =
      Some ({| enc_push := to_push s' |}, buf', Ok (rest', out ++ pre)) ∧
    session_ok s' ∧ ses_finalized s' = false ∧ ses_counter s' + 1 < 2 ^ 64 ∧ bytes_ok rest' ∧
    (length rest' ≤ CHUNK_BYTES)%nat ∧ length buf' = MAX_RECORD_BYTES ∧
    (∀ recs, wire_file s' rest' recs → wire_file s rest (pre ++ recs)) ∧
    ∃ k, length pre = (k * MAX_RECORD_BYTES)%nat ∧ length rest = (k * CHUNK_BYTES + length rest')%nat ∧ (length rest' = 0 → k = 0)%nat.
Proof.
  pose proof chunk_bytes_pos as Hpos. revert s rest buf out. induction fuel as [|fuel IH]; intros s rest buf out Hs Hf Hc Hb Hbuf Hfuel; [lia|].
  cbn [seal_loop]. destruct (Nat.ltb_spec CHUNK_BYTES (length rest)) as [Hlt|Hge].
  2: { exists s, rest, buf, []. rewrite app_nil_r. split_and!; try done; [lia|]. exists O. cbn [length]. lia. }
  assert (length (take CHUNK_BYTES rest) = CHUNK_BYTES) as Ht by (rewrite length_take; lia).
  unfold seal_chunk. rewrite record_seal_spec; [|done|done|lia|by apply Forall_take|lia|rewrite Hbuf, Ht; done].
  cbn [mbind option_bind result_bind]. rewrite Ht, (drop_ge buf), app_nil_r by (rewrite Hbuf; done).
  assert (length (record s Message (chunk_xor s (take CHUNK_BYTES rest))) = MAX_RECORD_BYTES) as Hr.
  { rewrite length_record; [|done|by apply chunk_xor_ok, Forall_take]. unfold chunk_xor. by rewrite length_xor_keystream, Ht. }
  destruct (IH (advance s Message) (drop CHUNK_BYTES rest) (record s Message (chunk_xor s (take CHUNK_BYTES rest)))
    (out ++ record s Message (chunk_xor s (take CHUNK_BYTES rest)))) as (s' & rest' & buf' & pre & E & F1 & F2 & F3 & F4 & F5 & F6 & F7 & k & Hk & Hrest & Hk0).
  - apply session_advance; [done|lia].
  - unfold advance. cbn [ses_finalized]. by rewrite Hf.
  - cbn [advance ses_counter]. rewrite length_drop. lia.
  - by apply Forall_drop.
  - done.
  - rewrite length_drop. lia.
  - rewrite E. exists s', rest', buf', (record s Message (chunk_xor s (take CHUNK_BYTES rest)) ++ pre). rewrite app_assoc.
    split_and!; try done.
    + intros recs Hw. rewrite <- (take_drop CHUNK_BYTES rest) at 1. rewrite <- app_assoc. apply wire_chunk_plain; [done|by apply F7].
    + rewrite length_drop in Hrest. exists (S k). rewrite length_app, Hr, Hk. lia.
Qed.

(** How many records a message takes. *)
Definition records_of (n : nat) : nat := Nat.max 1 ((n + (CHUNK_BYTES - 1)) / CHUNK_BYTES).

Lemma records_of_eq (k r : nat) : (r ≤ CHUNK_BYTES)%nat → (r = 0 → k = 0)%nat → records_of (k * CHUNK_BYTES + r) = S k.
Proof.
  intros Hr Hk. pose proof chunk_bytes_pos. unfold records_of. destruct r as [|r].
  - rewrite Hk by done. rewrite Nat.div_small by lia. done.
  - replace (k * CHUNK_BYTES + S r + (CHUNK_BYTES - 1))%nat with (S k * CHUNK_BYTES + r)%nat by lia.
    rewrite Nat.div_add_l, Nat.div_small by lia. lia.
Qed.

Lemma seal_all_spec s pt out :
  session_ok s → ses_finalized s = false → ses_counter s + length pt + 1 < 2 ^ 64 → bytes_ok pt →
  ∃ enc recs, seal_all (GetrandomError := GetrandomError) {| enc_push := to_push s |} pt out = Some (enc, Ok (out ++ recs)) ∧
    wire_file s pt recs ∧ finalized (enc_push enc) = true ∧ length recs = (length pt + RECORD_OVERHEAD_BYTES * records_of (length pt))%nat.
Proof.
  intros Hs Hf Hc Hb. unfold seal_all.
  destruct (seal_loop_spec (S (length pt)) s pt (replicate MAX_RECORD_BYTES 0) out Hs Hf Hc Hb) as
    (s' & rest' & buf' & pre & -> & F1 & F2 & F3 & F4 & F5 & F6 & F7 & k & Hk & Hpt & Hk0); [apply length_replicate|lia|].
  cbn [mbind option_bind]. unfold seal_final. rewrite record_seal_spec by (done || (rewrite F6; unfold MAX_RECORD_BYTES; lia)).
  cbn [mbind option_bind]. exists {| enc_push := to_push (advance s' Final) |}, (pre ++ record s' Final (chunk_xor s' rest')).
  rewrite take_app_length' by (rewrite length_record by (done || by apply chunk_xor_ok); unfold chunk_xor; by rewrite length_xor_keystream).
  rewrite app_assoc. split_and!; [done|by apply F7, wire_final_plain|cbn [enc_push to_push finalized advance ses_finalized]; by rewrite F2|].
  rewrite length_app, length_record by (done || by apply chunk_xor_ok). unfold chunk_xor. rewrite length_xor_keystream, Hk, Hpt, records_of_eq by done.
  unfold MAX_RECORD_BYTES. lia.
Qed.
End writer.

(** ** The reader, one call at a time *)

Section reader.
Context {GetrandomError : Type} `{Cpu} `{SubtleLaws} `{ZeroizeLaws}.
Local Abbreviation feed := (feed (GetrandomError := GetrandomError)).
Local Abbreviation finish := (finish (GetrandomError := GetrandomError)).

(** A decryptor by its fields. *)
Definition dec (k : list Z) (pull : option PullState) (st : State) (fp : list Z) (fl : nat) : FileDecryptor :=
  {| key := k; dec_pull := pull; state := st; final_plaintext := fp; final_len := fl |}.

(** The state after a failure and after [finish]: nothing is kept. *)
Definition wiped (d : FileDecryptor) : Prop :=
  state d = Done ∧ dec_pull d = None ∧ final_len d = 0%nat ∧ Forall (λ b, b = 0) (key d) ∧ Forall (λ b, b = 0) (final_plaintext d).

Lemma fail_wiped d : wiped (fail d).
Proof. unfold wiped, fail. cbn. rewrite !zeroize_spec. split_and!; try done; by apply Forall_replicate. Qed.

Lemma feed_version k fp fl b chunk :
  length chunk = CHUNK_BYTES →
  feed (dec k None Version fp fl) [b] chunk =
    Some (if decide (b = 2) then (dec k None Header fp fl, chunk, Ok 0%nat)
          else (fail (dec k None Version fp fl), chunk, Err (UnsupportedVersion b))).
Proof.
  intros Hc. unfold feed. cbn [state dec is_done next_len length]. rewrite Nat.eqb_refl, Hc, Nat.ltb_irrefl. cbn [negb orb].
  unfold step. cbn [state dec nth]. destruct (Z.eqb_spec b FORMAT_VERSION) as [->|Hne]; cbn [negb mbind option_bind].
  - by rewrite decide_True.
  - by rewrite decide_False.
Qed.

Lemma feed_header k fp fl header chunk :
  array_ok 32 k → array_ok 32 header → length chunk = CHUNK_BYTES →
  feed (dec k None Header fp fl) header chunk =
    Some (dec (replicate 32 0) (Some (to_pull (start k header))) RecordHead fp fl, chunk, Ok 0%nat).
Proof.
  intros Hk Hh Hc. unfold feed. cbn [state dec is_done next_len]. rewrite (proj1 Hh), Nat.eqb_refl, Hc, Nat.ltb_irrefl. cbn [negb orb].
  unfold step. cbn [state dec key].
  assert (copy_at 0 header (replicate HEADER_BYTES 0) = header) as ->.
  { rewrite copy_at_0 by (rewrite length_replicate, (proj1 Hh); done). rewrite (proj1 Hh), drop_ge by done. apply app_nil_r. }
  unfold pull_init. destruct (initial_subkey_spec k header Hk Hh) as [-> _]. cbn [mbind option_bind set_pull set_state key dec_pull state final_plaintext final_len dec].
  rewrite zeroize_spec, (proj1 Hk). done.
Qed.

Lemma feed_head k p fp fl b n chunk :
  word_ok 32 n → length chunk = CHUNK_BYTES →
  feed (dec k p RecordHead fp fl) (b :: to_le_bytes 4 n) chunk =
    Some (if decide (n ≤ 8192) then
            match from_byte b with
            | None => (fail (dec k p RecordHead fp fl), chunk, Err UnknownTag)
            | Some tag =>
                if decide (tag ≠ Final ∧ n ≠ 8192) then (fail (dec k p RecordHead fp fl), chunk, Err (BadChunkLength n))
                else (dec k p (RecordBody b (Z.to_nat n)) fp fl, chunk, Ok 0%nat)
            end
          else (fail (dec k p RecordHead fp fl), chunk, Err (ChunkTooLarge n))).
Proof.
  intros Hn Hc. pose proof chunk_bytes_Z as HZ. unfold feed. cbn [state dec is_done next_len length]. rewrite length_to_le_bytes, Hc, Nat.ltb_irrefl. cbn [negb orb].
  unfold step. cbn [state dec]. change (5 =? RECORD_HEAD_BYTES)%nat with true. cbn [negb orb].
  change ((b :: to_le_bytes 4 n).[0]) with b.
  assert (from_le_bytes [(b :: to_le_bytes 4 n).[1]; (b :: to_le_bytes 4 n).[2]; (b :: to_le_bytes 4 n).[3]; (b :: to_le_bytes 4 n).[4]] = n) as ->
    by exact (from_to_le_bytes_id 4 n Hn).
  unfold word_ok in Hn. destruct (Nat.ltb_spec CHUNK_BYTES (Z.to_nat n)) as [Hlt|Hge]; [by rewrite decide_False by lia|].
  rewrite decide_True by lia. destruct (from_byte b) as [tag|]; [|done].
  destruct (Nat.eqb_spec (Z.to_nat n) CHUNK_BYTES) as [He|He]; cbn [negb].
  - rewrite andb_false_r, decide_False by lia. done.
  - rewrite andb_true_r. case_bool_decide as Ht; [rewrite decide_True by (split; [done|lia])|rewrite decide_False by tauto]; done.
Qed.

(** A record's body: the released plaintext, or a wiped decryptor. *)
Lemma feed_body k s fp fl tag ct auth chunk :
  session_ok s → ses_finalized s = false → ses_counter s + 1 < 2 ^ 64 → bytes_ok ct → (length ct ≤ CHUNK_BYTES)%nat →
  length auth = TAG_LEN → length fp = CHUNK_BYTES → length chunk = CHUNK_BYTES →
  let d := dec k (Some (to_pull s)) (RecordBody (to_byte tag) (length ct)) fp fl in
  ∃ d' chunk' r, feed d (ct ++ auth) chunk = Some (d', chunk', r) ∧ length chunk' = CHUNK_BYTES ∧
    if decide (auth = chunk_tag s (to_byte tag) ct) then
      if decide (tag = Final) then
        d' = dec k (Some (to_pull (advance s tag))) AfterFinal (chunk_xor s ct ++ drop (length ct) fp) (length ct) ∧
        chunk' = chunk ∧ r = Ok 0%nat
      else
        d' = dec k (Some (to_pull (advance s tag))) RecordHead fp fl ∧
        chunk' = chunk_xor s ct ++ drop (length ct) chunk ∧ r = Ok (length ct)
    else wiped d' ∧ r = Err Auth.
Proof.
  intros Hs Hf Hcn Hb Hl Ha Hfp Hch d. pose proof chunk_bytes_Z as HZ. unfold feed, d. cbn [state dec is_done next_len].
  rewrite length_app, Ha, Nat.eqb_refl, Hch, Nat.ltb_irrefl. cbn [negb orb]. unfold step. cbn [state dec dec_pull].
  rewrite take_app_length, drop_app_length.
  assert (∀ buf : list Z, length buf = CHUNK_BYTES → length (take (length ct) buf) = length ct) as Htk by (intros; rewrite length_take; lia).
  assert (∀ buf : list Z, length buf = CHUNK_BYTES → copy_at 0 (chunk_xor s ct) buf = chunk_xor s ct ++ drop (length ct) buf) as Hcp.
  { intros buf Hbuf. unfold chunk_xor. rewrite copy_at_0; rewrite length_xor_keystream; [done|lia]. }
  assert (∀ buf : list Z, length buf = CHUNK_BYTES → length (chunk_xor s ct ++ drop (length ct) buf) = CHUNK_BYTES) as Hln.
  { intros buf Hbuf. unfold chunk_xor. rewrite length_app, length_xor_keystream, length_drop. lia. }
  destruct (Z.eqb_spec (to_byte tag) (to_byte Final)) as [Ht|Ht].
  - assert (tag = Final) as -> by by destruct tag. rewrite pull_spec by (done || lia).
    rewrite Hf, from_to_byte, (decide_True (P := _ ∧ _)) by (split; [by apply Htk|done]). rewrite decide_True by done.
    cbn [dec state dec_pull final_plaintext]. destruct (decide (auth = chunk_tag s (to_byte Final) ct)) as [Hauth|Hauth]; cbn [mbind option_bind].
    + rewrite Hcp by done. eexists _, _, _. split; [reflexivity|]. split; [done|]. by split_and!.
    + rewrite (Htk fp) by done. eexists _, _, _. split; [reflexivity|]. split; [done|]. split; [|done]. apply fail_wiped.
  - assert (tag ≠ Final) as Hne by (intros ->; done). rewrite pull_spec by (done || lia).
    rewrite Hf, from_to_byte, (decide_True (P := _ ∧ _)) by (split; [by apply Htk|done]). rewrite decide_True by done.
    cbn [dec state dec_pull final_plaintext]. destruct (decide (auth = chunk_tag s (to_byte tag) ct)) as [Hauth|Hauth]; cbn [mbind option_bind].
    + rewrite Hcp by done. eexists _, _, _. split; [reflexivity|]. split; [by apply Hln|]. rewrite decide_False by done. by split_and!.
    + rewrite (Htk chunk) by done. eexists _, _, _. split; [done|].
      split; [rewrite length_copy_at; [done|rewrite length_replicate; lia]|]. split; [apply fail_wiped|done].
Qed.

(** ** The reader over a whole file *)

(** The decryptors that the loop goes through, for the master key [key0]. *)
Definition dec_ok (key0 : list Z) (d : FileDecryptor) (remaining : Z) : Prop :=
  length (final_plaintext d) = CHUNK_BYTES ∧
  match state d with
  | Version | Header => key d = key0 ∧ dec_pull d = None
  | RecordHead => ∃ s, dec_pull d = Some (to_pull s) ∧ session_ok s ∧ ses_finalized s = false ∧ ses_counter s + remaining < 2 ^ 64
  | RecordBody b len => ∃ s tag, dec_pull d = Some (to_pull s) ∧ session_ok s ∧ ses_finalized s = false ∧ ses_counter s + remaining < 2 ^ 64 ∧
      b = to_byte tag ∧ (len ≤ CHUNK_BYTES)%nat ∧ (tag ≠ Final → len = CHUNK_BYTES)
  | AfterFinal => (final_len d ≤ CHUNK_BYTES)%nat
  | Done => False
  end.

(** What a record's body holds. *)
Definition body_of (s : Session) (tag : Tag) (ct x pt : list Z) : Prop :=
  ∃ recs, x = ct ++ chunk_tag s (to_byte tag) ct ++ recs ∧
    if decide (tag = Final) then recs = [] ∧ pt = chunk_xor s ct
    else ∃ pt', wire_file (advance s tag) pt' recs ∧ pt = chunk_xor s ct ++ pt'.

(** What the reader still accepts, and the plaintext it yields. *)
Definition accepts (d : FileDecryptor) (rest pt : list Z) : Prop :=
  match state d with
  | Version => ∃ header recs, rest = 2 :: header ++ recs ∧ length header = 32%nat ∧ wire_file (start (key d) header) pt recs
  | Header => ∃ header recs, rest = header ++ recs ∧ length header = 32%nat ∧ wire_file (start (key d) header) pt recs
  | RecordHead => ∃ s, dec_pull d = Some (to_pull s) ∧ wire_file s pt rest
  | RecordBody b len => ∃ s tag ct, dec_pull d = Some (to_pull s) ∧ b = to_byte tag ∧ length ct = len ∧ body_of s tag ct rest pt
  | AfterFinal => rest = [] ∧ pt = take (final_len d) (final_plaintext d)
  | Done => False
  end.

Lemma dec_eta d : d = dec (key d) (dec_pull d) (state d) (final_plaintext d) (final_len d).
Proof. by destruct d. Qed.

Lemma some_to_pull_inj s s' : Some (to_pull s) = Some (to_pull s') → s = s'.
Proof. destruct s, s'. by intros [= -> -> ->]. Qed.

Lemma to_byte_inj t t' : to_byte t = to_byte t' → t = t'.
Proof. by destruct t, t'. Qed.

(** A record splits into its head and the rest. *)
Lemma record_split s tag ct recs :
  record s tag ct ++ recs = (to_byte tag :: to_le_bytes 4 (length ct)) ++ ct ++ chunk_tag s (to_byte tag) ct ++ recs.
Proof. unfold record. cbn [app]. by rewrite <- !app_assoc. Qed.

Lemma next_len_pos key0 d n : dec_ok key0 d n → (0 < next_len d)%nat.
Proof. intros [_ Hd]. unfold next_len, HEADER_BYTES, RECORD_HEAD_BYTES, TAG_LEN. destruct (state d); try done; lia. Qed.

Lemma wire_file_head s pt b n x :
  word_ok 32 n →
  wire_file s pt ((b :: to_le_bytes 4 n) ++ x) ↔
    ∃ tag ct, b = to_byte tag ∧ n = length ct ∧ (length ct ≤ CHUNK_BYTES)%nat ∧ (tag ≠ Final → length ct = CHUNK_BYTES) ∧ body_of s tag ct x pt.
Proof.
  intros Hn. pose proof chunk_bytes_Z as HZ. split.
  - assert (∀ tag ct recs, (length ct ≤ CHUNK_BYTES)%nat → (b :: to_le_bytes 4 n) ++ x = record s tag ct ++ recs →
      b = to_byte tag ∧ n = length ct ∧ x = ct ++ chunk_tag s (to_byte tag) ct ++ recs) as Hsplit.
    { intros tag ct recs Hl E. rewrite record_split in E. apply app_inj_1 in E as [E1 E2]; [|cbn [length]; by rewrite !length_to_le_bytes].
      apply (app_inj_1 [b] [to_byte tag]) in E1 as [Eb En]; [|done]. apply (f_equal (λ l, l.[0])) in Eb. cbn [nth] in Eb.
      apply (f_equal from_le_bytes) in En. rewrite !from_to_le_bytes_id in En by (done || (unfold word_ok; lia)). done. }
    intros Hw. remember ((b :: to_le_bytes 4 n) ++ x) as r eqn:Er. destruct Hw as [s ct Hl|s tag ct pt recs Ht Hl Hw].
    + destruct (Hsplit Final ct [] Hl (eq_sym (app_nil_r _))) as (-> & -> & ->).
      exists Final, ct. split_and!; [reflexivity|reflexivity|exact Hl|by intros []|]. exists []. split; [reflexivity|]. rewrite decide_True by reflexivity. split; reflexivity.
    + destruct (Hsplit tag ct recs ltac:(lia) eq_refl) as (-> & -> & ->). exists tag, ct. split_and!; [reflexivity|reflexivity|lia|by intros|].
      exists recs. split; [reflexivity|]. rewrite decide_False by done. exists pt. split; [exact Hw|reflexivity].
  - intros (tag & ct & -> & -> & Hl & Hc & recs & -> & Hp). rewrite <- record_split. destruct (decide (tag = Final)) as [->|Ht].
    + destruct Hp as [-> ->]. rewrite app_nil_r. by constructor.
    + destruct Hp as (pt' & Hw & ->). constructor; auto.
Qed.

(** The errors that a file can cause: the others are a misuse of the reader, or 2^64 records. *)
Definition stream_error {GE} (e : FileError GE) : Prop :=
  match e with InvalidLength | Finished | CounterExhausted | Random _ => False | _ => True end.

(** One turn of the loop: the turn keeps the invariant and what is accepted, or the file is rejected. *)
Definition turn_ok (key0 : list Z) (d : FileDecryptor) (file chunk : list Z) : Prop :=
  ∃ d' chunk' r, feed d (take (next_len d) file) chunk = Some (d', chunk', r) ∧ length chunk' = CHUNK_BYTES ∧
    match r with
    | Ok n => state d ≠ AfterFinal ∧ dec_ok key0 d' (length file - next_len d)%nat ∧
        ∀ pt more, accepts d (file ++ more) pt ↔ ∃ p, pt = take n chunk' ++ p ∧ accepts d' (drop (next_len d) file ++ more) p
    | Err e => wiped d' ∧ (∀ pt more, ¬ accepts d (file ++ more) pt) ∧ (state d = AfterFinal → e = TrailingData) ∧ stream_error e
    end.

Lemma turn_version key0 fp fl file chunk :
  length fp = CHUNK_BYTES → (1 ≤ length file)%nat → length chunk = CHUNK_BYTES → turn_ok key0 (dec key0 None Version fp fl) file chunk.
Proof.
  intros Hfp Hn Hc. destruct file as [|b file]; [simpl in Hn; lia|]. unfold turn_ok. cbn [next_len state dec take drop length].
  rewrite take_0, drop_0, feed_version by done. case_decide as Hb.
  - subst b. eexists _, _, _. split; [reflexivity|]. split; [done|]. split; [done|]. split; [done|]. intros pt more. cbn [accepts state dec key take app]. split.
    + intros (header & recs & E & Hh). exists pt. split; [done|]. exists header, recs. split; [|done]. by injection E.
    + intros (p & -> & header & recs & E & Hh). exists header, recs. split; [by rewrite E|done].
  - eexists _, _, _. split; [reflexivity|]. split; [done|]. split; [apply fail_wiped|]. split; [|done].
    intros pt more (header & recs & E & Hh). by injection E.
Qed.

Lemma turn_header key0 fp fl file chunk :
  array_ok 32 key0 → bytes_ok file → length fp = CHUNK_BYTES → (32 ≤ length file)%nat → length file < 2 ^ 64 →
  length chunk = CHUNK_BYTES → turn_ok key0 (dec key0 None Header fp fl) file chunk.
Proof.
  intros Hk Hb Hfp Hn Hlt Hc. unfold turn_ok. cbn [next_len state dec]. unfold HEADER_BYTES.
  assert (array_ok 32 (take 32 file)) as Hh by (split; [rewrite length_take; lia|by apply Forall_take]).
  rewrite feed_header by done. eexists _, _, _. split; [reflexivity|]. split; [done|]. split; [done|]. split.
  - split; [done|]. cbn [state dec dec_pull]. exists (start key0 (take 32 file)). split; [done|].
    destruct (initial_subkey_spec key0 (take 32 file) Hk Hh) as [_ Hs]. split; [by split|]. split; [done|]. cbn [start ses_counter]. lia.
  - intros pt more. cbn [accepts state dec key take app dec_pull]. split.
    + intros (header & recs & E & Hl & Hw). exists pt. split; [done|]. rewrite <- (take_drop 32 file), <- app_assoc in E.
      apply app_inj_1 in E as [E1 E2]; [|rewrite Hl; apply Hh]. exists (start key0 (take 32 file)). split; [done|]. rewrite E1, E2. exact Hw.
    + intros (p & -> & s & Es & Hw). apply some_to_pull_inj in Es as <-.
      exists (take 32 file), (drop 32 file ++ more). rewrite app_assoc, take_drop. split; [done|]. split; [apply Hh|done].
Qed.

(** The head of a record, as the reader cuts it. *)
Lemma head_bytes file :
  bytes_ok file → (5 ≤ length file)%nat → ∃ b n, word_ok 32 n ∧ take 5 file = b :: to_le_bytes 4 n.
Proof.
  intros Hb Hn. destruct file as [|b file]; [simpl in Hn; lia|]. apply Forall_cons in Hb as [_ Hb]. cbn [length] in Hn.
  exists b, (from_le_bytes (take 4 file)). assert (array_ok 4 (take 4 file)) as [Hl Hbt] by (split; [rewrite length_take; lia|by apply Forall_take]).
  split.
  - pose proof (from_le_bytes_bound _ Hbt) as Hf. rewrite Hl in Hf. exact Hf.
  - cbn [take]. f_equal. rewrite <- Hl at 2. by rewrite to_from_le_bytes.
Qed.

Lemma turn_head key0 k s fp fl file chunk :
  session_ok s → ses_finalized s = false → ses_counter s + length file < 2 ^ 64 →
  bytes_ok file → length fp = CHUNK_BYTES → (5 ≤ length file)%nat → length chunk = CHUNK_BYTES →
  turn_ok key0 (dec k (Some (to_pull s)) RecordHead fp fl) file chunk.
Proof.
  intros Hs Hf Hcn Hb Hfp Hn Hc. unfold turn_ok. cbn [next_len state dec]. unfold RECORD_HEAD_BYTES. change (1 + 4)%nat with 5%nat.
  destruct (head_bytes file Hb Hn) as (b & n & Hw & Et). pose proof chunk_bytes_Z as HZ.
  assert (∀ pt more, accepts (dec k (Some (to_pull s)) RecordHead fp fl) (file ++ more) pt ↔
    ∃ tag ct, b = to_byte tag ∧ n = length ct ∧ (length ct ≤ CHUNK_BYTES)%nat ∧ (tag ≠ Final → length ct = CHUNK_BYTES) ∧
      body_of s tag ct (drop 5 file ++ more) pt) as Hacc.
  { intros pt more. rewrite <- wire_file_head by done. rewrite <- Et, app_assoc, take_drop. cbn [accepts state dec dec_pull]. split.
    - intros (s0 & Es & Hx). apply some_to_pull_inj in Es as <-. done.
    - intros Hx. by exists s. }
  rewrite Et, feed_head by done. case_decide as Hle.
  2: { eexists _, _, _. split; [reflexivity|]. split; [done|]. split; [apply fail_wiped|]. split; [|done].
       intros pt more Hx. apply Hacc in Hx as (tag & ct & _ & -> & Hl & _). lia. }
  destruct (from_byte b) as [tag|] eqn:Hbt.
  2: { eexists _, _, _. split; [reflexivity|]. split; [done|]. split; [apply fail_wiped|]. split; [|done].
       intros pt more Hx. apply Hacc in Hx as (tag & ct & -> & _). by rewrite from_to_byte in Hbt. }
  apply from_byte_inv in Hbt as ->. case_decide as Hbad.
  { eexists _, _, _. split; [reflexivity|]. split; [done|]. split; [apply fail_wiped|]. split; [|done].
    intros pt more Hx. apply Hacc in Hx as (tag' & ct & Ht & -> & Hl & Hc' & _). apply to_byte_inj in Ht as <-.
    destruct Hbad as [Hb1 Hb2]. specialize (Hc' Hb1). lia. }
  unfold word_ok in Hw. eexists _, _, _. split; [reflexivity|]. split; [done|]. split; [done|]. split.
  - split; [done|]. cbn [state dec dec_pull]. exists s, tag. split_and!; try done; try lia.
    intros Ht. destruct (decide (n = 8192)); [lia|]. exfalso. by apply Hbad.
  - intros pt more. rewrite Hacc. cbn [accepts state dec dec_pull take app]. split.
    + intros (tag' & ct & Ht & -> & Hl & Hc' & Hbody). apply to_byte_inj in Ht as <-. exists pt. split; [done|].
      exists s, tag, ct. split; [done|]. split; [done|]. split; [lia|done].
    + intros (p & -> & s0 & tag' & ct & Es & Ht & Hl & Hbody). apply some_to_pull_inj in Es as <-.
      apply to_byte_inj in Ht as <-. exists tag, ct. split; [done|]. split; [lia|]. split; [lia|]. split; [|done].
      intros Ht. destruct (decide (n = 8192)); [lia|]. exfalso. by apply Hbad.
Qed.

Lemma turn_body key0 k s tag fp fl file chunk len :
  session_ok s → ses_finalized s = false → ses_counter s + length file < 2 ^ 64 → (len ≤ CHUNK_BYTES)%nat →
  bytes_ok file → length fp = CHUNK_BYTES → (len + TAG_LEN ≤ length file)%nat → length chunk = CHUNK_BYTES →
  turn_ok key0 (dec k (Some (to_pull s)) (RecordBody (to_byte tag) len) fp fl) file chunk.
Proof.
  intros Hs Hf Hcn Hl Hb Hfp Hn Hc. unfold turn_ok. cbn [next_len state dec].
  set (ct := take len file). set (auth := take TAG_LEN (drop len file)).
  assert (length ct = len) as Hct by (unfold ct; rewrite length_take; lia).
  assert (length auth = TAG_LEN) as Ha by (unfold auth; rewrite length_take, length_drop; lia).
  assert (take (len + TAG_LEN) file = ct ++ auth) as -> by (unfold ct, auth; by rewrite take_take_drop).
  assert (∀ more, file ++ more = ct ++ auth ++ drop (len + TAG_LEN) file ++ more) as Hfile.
  { intros more. rewrite !app_assoc. f_equal. rewrite <- !app_assoc. unfold ct, auth. rewrite <- drop_drop. by rewrite !take_drop. }
  assert (bytes_ok ct) as Hbc by by apply Forall_take.
  assert (length (chunk_tag s (to_byte tag) ct) = TAG_LEN) as Htl by (apply (chunk_tag_ok s); [done|apply to_byte_ok|done]).
  assert (∀ pt more, accepts (dec k (Some (to_pull s)) (RecordBody (to_byte tag) len) fp fl) (file ++ more) pt ↔
    auth = chunk_tag s (to_byte tag) ct ∧
    if decide (tag = Final) then drop (len + TAG_LEN) file ++ more = [] ∧ pt = chunk_xor s ct
    else ∃ pt', wire_file (advance s tag) pt' (drop (len + TAG_LEN) file ++ more) ∧ pt = chunk_xor s ct ++ pt') as Hacc.
  { intros pt more. cbn [accepts state dec dec_pull]. split.
    - intros (s0 & tag' & ct' & Es & Ht & Hl' & recs & E & Hp). apply some_to_pull_inj in Es as <-. apply to_byte_inj in Ht as <-.
      rewrite Hfile in E. apply app_inj_1 in E as [<- E]; [|lia]. apply app_inj_1 in E as [E <-]; [|lia]. by split.
    - intros [E Hp]. exists s, tag, ct. split; [done|]. split; [done|]. split; [done|].
      exists (drop (len + TAG_LEN) file ++ more). rewrite <- E, Hfile. by split. }
  destruct (feed_body k s fp fl tag ct auth chunk) as (d' & chunk' & r & E & Hc' & Hr); [done..|unfold TAG_LEN in *; lia|done|lia|done|done|done|].
  rewrite Hct in E. rewrite E. exists d', chunk', r. split; [done|]. split; [done|]. clear E.
  destruct (decide (auth = chunk_tag s (to_byte tag) ct)) as [Hauth|Hauth].
  2: { destruct Hr as [Hw ->]. split; [done|]. split; [|done]. intros pt more Hx. by apply Hacc in Hx as [? _]. }
  assert (session_ok (advance s tag)) as Hs' by (apply session_advance; [done|unfold TAG_LEN in *; lia]).
  destruct (decide (tag = Final)) as [Ht|Ht]; destruct Hr as (-> & -> & ->).
  - split; [done|]. split.
    + split; [cbn [dec final_plaintext]; unfold chunk_xor; rewrite length_app, length_xor_keystream, length_drop; lia|]. cbn [dec state final_len]. lia.
    + intros pt more. rewrite Hacc. cbn [accepts state dec final_len final_plaintext take app].
      assert (take (length ct) (chunk_xor s ct ++ drop (length ct) fp) = chunk_xor s ct) as ->
        by (apply take_app_length'; unfold chunk_xor; by rewrite length_xor_keystream).
      split; [intros [_ [E1 E2]]; by exists pt|]. intros (p & -> & E1 & ->). done.
  - assert (take (length ct) (chunk_xor s ct ++ drop (length ct) chunk) = chunk_xor s ct) as ->
      by (apply take_app_length'; unfold chunk_xor; by rewrite length_xor_keystream).
    split; [done|]. split.
    + split; [done|]. cbn [dec state dec_pull]. exists (advance s tag). split; [done|]. split; [done|]. split.
      * cbn [advance ses_finalized]. rewrite Hf. by rewrite bool_decide_false.
      * cbn [advance ses_counter]. unfold TAG_LEN in *. lia.
    + intros pt more. rewrite Hacc. cbn [accepts state dec dec_pull]. split.
      * intros (_ & pt' & Hw & ->). exists pt'. split; [done|]. by exists (advance s tag).
      * intros (p & -> & s0 & Es & Hw). apply some_to_pull_inj in Es as <-. split; [done|]. by exists p.
Qed.

Lemma turn_after_final key0 k p fp fl file chunk :
  length fp = CHUNK_BYTES → (1 ≤ length file)%nat → length chunk = CHUNK_BYTES →
  turn_ok key0 (dec k p AfterFinal fp fl) file chunk.
Proof.
  intros Hfp Hn Hc. destruct file as [|b file]; [simpl in Hn; lia|]. unfold turn_ok. cbn [next_len state dec take drop length].
  eexists _, chunk, (Err TrailingData). split.
  { unfold feed. cbn [state dec is_done next_len length]. rewrite take_0, Hc, Nat.ltb_irrefl. cbn [length negb orb Nat.eqb]. reflexivity. }
  split; [done|]. split; [apply fail_wiped|]. split; [|done]. by intros pt more [E _].
Qed.

Lemma feed_turn key0 d file chunk :
  array_ok 32 key0 → dec_ok key0 d (length file) → bytes_ok file → (next_len d ≤ length file)%nat → length chunk = CHUNK_BYTES →
  length file < 2 ^ 64 → turn_ok key0 d file chunk.
Proof.
  intros Hk [Hfp Hd] Hb Hn Hc Hlt. destruct d as [k p st fp fl]. cbn [final_plaintext state] in *. destruct st; cbn [next_len state] in Hn.
  - destruct Hd as [<- Hp]. cbn [dec_pull] in Hp. subst p. by apply turn_version.
  - destruct Hd as [<- Hp]. cbn [dec_pull key] in *. subst p. by apply turn_header.
  - destruct Hd as (s & Ep & Hs & Hf & Hcn). cbn [dec_pull] in Ep. subst p. by apply turn_head.
  - destruct Hd as (s & tag & Ep & Hs & Hf & Hcn & -> & Hl & _). cbn [dec_pull] in Ep. subst p. by apply turn_body.
  - by apply turn_after_final.
  - done.
Qed.

Lemma accepts_length key0 d n pre pt :
  dec_ok key0 d n → bytes_ok pre → accepts d pre pt → state d ≠ AfterFinal → (next_len d ≤ length pre)%nat.
Proof.
  intros [_ Hd] Hb Ha Hne. unfold next_len, HEADER_BYTES, RECORD_HEAD_BYTES in *. unfold accepts in Ha. destruct (state d); try done.
  - destruct Ha as (header & recs & -> & _). cbn [length]. lia.
  - destruct Ha as (header & recs & -> & Hl & _). rewrite length_app. lia.
  - destruct Ha as (s & _ & Hw). inversion Hw; subst; unfold record; cbn [length app]; rewrite !length_app, length_to_le_bytes; lia.
  - destruct Ha as (s & tag' & ct & Ep & -> & <- & recs & -> & _). destruct Hd as (s0 & _ & Ep0 & Hs & _). rewrite Ep0 in Ep.
    apply some_to_pull_inj in Ep as <-. apply Forall_app in Hb as [Hb _]. rewrite !length_app.
    destruct (chunk_tag_ok s0 (to_byte tag') ct Hs (to_byte_ok tag') Hb) as [-> _]. lia.
Qed.

Lemma finish_spec key0 d n chunk :
  dec_ok key0 d n → length chunk = CHUNK_BYTES →
  ∃ d' chunk' r, finish d chunk = (d', chunk', r) ∧ wiped d' ∧
    (if decide (state d = AfterFinal) then r = Ok (final_len d) ∧ take (final_len d) chunk' = take (final_len d) (final_plaintext d)
     else r = Err Truncated).
Proof.
  intros [Hfp Hd] Hc. unfold finish. rewrite Hc, Nat.ltb_irrefl. destruct (state d); cbn [is_done]; try done.
  all: eexists _, _, _; split; [reflexivity|]; split; [apply fail_wiped|]; try done.
  rewrite decide_True by done. split; [done|]. assert (length (take (final_len d) (final_plaintext d)) = final_len d) as Hl by (rewrite length_take; lia).
  rewrite copy_at_0 by (rewrite Hl; lia). by apply take_app_length'.
Qed.

Lemma open_loop_spec key0 fuel d file chunk acc :
  array_ok 32 key0 → dec_ok key0 d (length file) → bytes_ok file → length chunk = CHUNK_BYTES →
  length file < 2 ^ 64 → (length file < fuel)%nat →
  ∃ d' pt r, open_loop (GetrandomError := GetrandomError) fuel d file chunk acc = Some (d', pt, r) ∧ wiped d' ∧
    (∀ p, accepts d file p → r = Ok tt ∧ pt = acc ++ p) ∧
    (r = Ok tt → ∃ p, pt = acc ++ p ∧ accepts d file p) ∧
    (∀ p more, more ≠ [] → accepts d (file ++ more) p → r = Err Truncated) ∧
    (∀ p pre extra, file = pre ++ extra → extra ≠ [] → accepts d pre p → r = Err TrailingData) ∧
    match r with Ok _ => True | Err e => stream_error e end.
Proof.
  intros Hk. revert d file chunk acc. induction fuel as [|fuel IH]; intros d file chunk acc Hd Hb Hc Hlt Hf; [lia|].
  cbn [open_loop]. pose proof (next_len_pos _ _ _ Hd) as Hpos. destruct (Nat.leb_spec (next_len d) (length file)) as [Hle|Hgt].
  - destruct (feed_turn key0 d file chunk) as (d' & chunk' & r & E & Hc' & Hr); [done..|]. rewrite E. cbn [mbind option_bind].
    assert (∀ p pre extra, file = pre ++ extra → accepts d pre p → state d ≠ AfterFinal →
      ∃ n p', r = Ok n ∧ p = take n chunk' ++ p' ∧ accepts d' (drop (next_len d) pre) p' ∧ drop (next_len d) file = drop (next_len d) pre ++ extra) as Hpre.
    { intros p pre extra -> Ha Hne. apply Forall_app in Hb as [Hbp _]. pose proof (accepts_length _ _ _ _ _ Hd Hbp Ha Hne) as Hlp.
      rewrite length_app in Hlt. assert (dec_ok key0 d (length pre)) as Hd'.
      { destruct Hd as [H1' H2']. split; [done|]. rewrite length_app in H2'. destruct (state d); try done.
        - destruct H2' as (s & ? & ? & ? & ?). exists s. split_and!; try done. lia.
        - destruct H2' as (s & tag & ? & ? & ? & ? & ? & ? & ?). exists s, tag. split_and!; try done. lia. }
      destruct (feed_turn key0 d pre chunk Hk Hd' Hbp Hlp Hc ltac:(lia)) as (d2 & chunk2 & r2 & E2 & _ & Hr2).
      rewrite take_app_le in E by done. rewrite E in E2. injection E2 as <- <- <-.
      destruct r as [n|e]; [|exfalso; destruct Hr2 as (_ & Hr2 & _); apply (Hr2 p []); by rewrite app_nil_r].
      destruct Hr2 as (_ & _ & Hr2). rewrite <- (app_nil_r pre) in Ha. apply Hr2 in Ha as (p' & -> & Ha). rewrite app_nil_r in Ha.
      exists n, p'. split_and!; try done. by rewrite drop_app_le. }
    destruct r as [n|e].
    + destruct Hr as (Hst & Hd' & Hacc). rewrite <- length_drop in Hd'.
      destruct (IH d' (drop (next_len d) file) chunk' (acc ++ take n chunk')) as (d2 & pt & r & E2 & Hw & A1 & A2 & A3 & A4 & A5);
        [done|by apply Forall_drop|done|rewrite length_drop; lia|rewrite length_drop; lia|].
      exists d2, pt, r. split; [done|]. split; [done|]. split_and!.
      * intros p Ha. rewrite <- (app_nil_r file) in Ha. apply Hacc in Ha as (p' & -> & Ha). rewrite app_nil_r in Ha.
        rewrite app_assoc. by apply A1.
      * intros Er. destruct (A2 Er) as (p' & -> & Ha). exists (take n chunk' ++ p'). rewrite app_assoc. split; [done|].
        rewrite <- (app_nil_r file). apply Hacc. exists p'. by rewrite app_nil_r.
      * intros p more Hm Ha. apply Hacc in Ha as (p' & -> & Ha). by eapply A3.
      * intros p pre extra -> Hx Ha. destruct (Hpre p pre extra eq_refl Ha Hst) as (n' & p' & [= <-] & -> & Ha' & Ed). rewrite Ed in A4. by eapply A4.
      * exact A5.
    + destruct Hr as (Hw & Hno & Haf & Htr). exists d', acc, (Err e). split; [done|]. split; [done|]. split_and!.
      * intros p Ha. exfalso. apply (Hno p []). by rewrite app_nil_r.
      * done.
      * intros p more _ Ha. exfalso. by apply (Hno p more).
      * intros p pre extra Ef Hx Ha. destruct (decide (state d = AfterFinal)) as [Hst|Hst]; [by rewrite (Haf Hst)|].
        by destruct (Hpre p pre extra Ef Ha Hst) as (n & p' & ? & _).
      * exact Htr.
  - destruct (finish_spec key0 d _ chunk Hd Hc) as (d' & chunk' & r & -> & Hw & Hr). eexists d', _, _. split; [reflexivity|]. split; [done|].
    destruct (decide (state d = AfterFinal)) as [Hst|Hst].
    + destruct Hr as [-> Ht]. cbn [result_bind]. rewrite Ht. unfold next_len in Hgt. rewrite Hst in Hgt.
      destruct file as [|? file]; [|simpl in Hgt; lia]. unfold accepts. rewrite Hst. split_and!.
      * intros p [_ ->]. done.
      * intros _. by eexists.
      * intros p more Hm [E _]. by destruct more.
      * intros p pre extra E Hx _. by destruct pre, extra.
      * exact I.
    + subst r. cbn [result_bind]. split_and!; try done.
      * intros p Ha. pose proof (accepts_length _ _ _ _ _ Hd Hb Ha Hst). lia.
      * intros p pre extra -> _ Ha. apply Forall_app in Hb as [Hb _]. pose proof (accepts_length _ _ _ _ _ Hd Hb Ha Hst). rewrite length_app in Hgt. lia.
Qed.
End reader.

(** ** Properties *)

Section whole_file.
Context {GE : Type} `{Cpu} `{SubtleLaws} `{ZeroizeLaws}.
Local Abbreviation open_all := (open_all (GetrandomError := GE)).

Lemma new_dec_ok key n : dec_ok key (decryptor_new key) n.
Proof. split; [apply length_replicate|done]. Qed.

Lemma wire_file_ok s pt recs :
  wire_file s pt recs → session_ok s → bytes_ok pt → ses_counter s + length pt < 2 ^ 64 →
  bytes_ok recs ∧ length recs ≤ 22 * length pt + 21.
Proof.
  pose proof chunk_bytes_Z as HZ.
  assert (∀ s tag ct, session_ok s → bytes_ok (chunk_xor s ct) → bytes_ok ct ∧ bytes_ok (record s tag ct) ∧ length (record s tag ct) = (length ct + 21)%nat) as Hrec.
  { intros s0 tag ct Hs Hb. assert (bytes_ok ct) as Hct by (rewrite <- (chunk_xor_involutive s0 ct); by apply chunk_xor_ok).
    split; [done|]. split; [|by rewrite length_record]. unfold record. constructor; [apply to_byte_ok|].
    apply Forall_app. split; [apply to_le_bytes_ok|]. apply Forall_app. split; [done|]. by apply chunk_tag_ok, Hct; [|apply to_byte_ok]. }
  induction 1 as [s ct Hl|s tag ct pt recs Ht Hl Hw IH]; intros Hs Hb Hc.
  - destruct (Hrec s Final ct Hs Hb) as (_ & Hr & El). split; [done|]. rewrite El. unfold chunk_xor. rewrite length_xor_keystream. lia.
  - apply Forall_app in Hb as [Hb1 Hb2]. destruct (Hrec s tag ct Hs Hb1) as (_ & Hr & El). rewrite !length_app in *.
    assert (length (chunk_xor s ct) = length ct) as Ex by apply length_xor_keystream. rewrite Ex in *.
    destruct IH as [Hr' Hl']; [apply session_advance; [done|lia]|done|cbn [advance ses_counter]; lia|].
    split; [by apply Forall_app|]. rewrite El. lia.
Qed.

(** [open_all] through the specification of its loop. *)
Lemma open_all_spec key file :
  array_ok 32 key → bytes_ok file → length file < 2 ^ 64 →
  ∃ d r, open_all (decryptor_new key) file = Some (d, r) ∧ wiped d ∧
    (∀ pt, r = Ok pt ↔ accepts (decryptor_new key) file pt) ∧
    (∀ p more, more ≠ [] → accepts (decryptor_new key) (file ++ more) p → r = Err Truncated) ∧
    (∀ p pre extra, file = pre ++ extra → extra ≠ [] → accepts (decryptor_new key) pre p → r = Err TrailingData).
Proof.
  intros Hk Hb Hl. unfold SecretstreamFile.open_all.
  destruct (open_loop_spec (GetrandomError := GE) key (S (length file)) (decryptor_new key) file (replicate CHUNK_BYTES 0) [])
    as (d & pt & r & -> & Hw & A1 & A2 & A3 & A4 & _); [done|apply new_dec_ok|done|apply length_replicate|done|lia|].
  eexists d, _. split; [reflexivity|]. split; [done|]. split_and!.
  - intros p. split.
    + intros Er. destruct r as [[]|]; [|done]. injection Er as <-. by destruct (A2 eq_refl) as (p & -> & Ha).
    + intros Ha. by destruct (A1 p Ha) as [-> ->].
  - intros p more Hm Ha. by rewrite (A3 p more).
  - intros p pre extra E Hx Ha. by rewrite (A4 p pre extra).
Qed.
Lemma open_all_cut key file pt extra (n : nat) :
  array_ok 32 key → bytes_ok file → bytes_ok extra → length file + length extra < 2 ^ 64 → accepts (decryptor_new key) file pt →
  ((n < length file)%nat → ∃ d, open_all (decryptor_new key) (take n file) = Some (d, Err Truncated)) ∧
  (extra ≠ [] → ∃ d, open_all (decryptor_new key) (file ++ extra) = Some (d, Err TrailingData)).
Proof.
  intros Hk Hb Hx Hl Er. split.
  - intros Hn. destruct (open_all_spec key (take n file) Hk) as (d1 & r1 & -> & _ & _ & A1 & _);
      [by apply Forall_take|rewrite length_take; lia|]. exists d1. do 2 f_equal. apply (A1 pt (drop n file)); [|by rewrite take_drop].
    intros E1. apply (f_equal length) in E1. rewrite length_drop in E1. simpl in E1. lia.
  - intros Hne. destruct (open_all_spec key (file ++ extra) Hk) as (d1 & r1 & -> & _ & _ & _ & A1);
      [by apply Forall_app|rewrite length_app; lia|]. exists d1. do 2 f_equal. by apply (A1 pt file extra).
Qed.

(** A fresh writer: its prefix, and the records that it appends to whatever is in front of them. *)
Lemma sealed_records (fill : fill_call GE) key pt :
  array_ok 32 key → fill_ok fill → (fill (replicate 32 0)).2 = Ok tt → bytes_ok pt → length pt < 2 ^ 58 →
  ∃ enc header, encryptor_init fill key = Some (Ok (enc, FORMAT_VERSION :: header)) ∧ array_ok 32 header ∧
    ∀ out, ∃ enc' recs, seal_all (GetrandomError := GE) enc pt out = Some (enc', Ok (out ++ recs)) ∧ finalized (enc_push enc') = true ∧
      wire_file (start key header) pt recs ∧ bytes_ok recs ∧ length recs = (length pt + RECORD_OVERHEAD_BYTES * records_of (length pt))%nat ∧
      length recs ≤ 22 * length pt + 21.
Proof.
  intros Hk Hfill Hr Hb Hl. destruct (push_init_spec fill key Hk Hfill Hr) as (Hh & Hi & _ & Hs). set (header := (fill (replicate 32 0)).1) in *.
  exists {| enc_push := to_push (start key header) |}, header. split; [|split; [done|]].
  - unfold encryptor_init. rewrite Hi. cbn [mbind option_bind]. do 3 f_equal.
    change (<[0%nat:=FORMAT_VERSION]> (replicate FILE_PREFIX_BYTES 0)) with ([FORMAT_VERSION] ++ replicate 32 0).
    rewrite <- (app_nil_r (replicate 32 0)), copy_at_app by (done || by rewrite (proj1 Hh)). by rewrite app_nil_r.
  - intros out. destruct (seal_all_spec (GetrandomError := GE) (start key header) pt out Hs) as (enc' & recs & E & Hw & Hfin & Hlen);
      [done|cbn [start ses_counter]; lia|done|].
    destruct (wire_file_ok _ _ _ Hw Hs Hb) as [Hrb Hrl]; [cbn [start ses_counter]; lia|]. by exists enc', recs.
Qed.

(** A writer over a fresh header: the file it seals, and what the reader makes of it. *)
Lemma sealed_file (fill : fill_call GE) key pt :
  array_ok 32 key → fill_ok fill → (fill (replicate 32 0)).2 = Ok tt → bytes_ok pt → length pt < 2 ^ 58 →
  ∃ enc prefix enc' file,
    encryptor_init fill key = Some (Ok (enc, prefix)) ∧ length prefix = FILE_PREFIX_BYTES ∧
    seal_all (GetrandomError := GE) enc pt prefix = Some (enc', Ok file) ∧ finalized (enc_push enc') = true ∧
    bytes_ok file ∧ length file < 2 ^ 63 ∧ accepts (decryptor_new key) file pt.
Proof.
  intros Hk Hfill Hr Hb Hl. destruct (sealed_records fill key pt Hk Hfill Hr Hb Hl) as (enc & header & Ei & [Hhl Hhb] & Hseal).
  destruct (Hseal (FORMAT_VERSION :: header)) as (enc' & recs & E & Hfin & Hw & Hrb & _ & Hrl).
  exists enc, (FORMAT_VERSION :: header), enc', ((FORMAT_VERSION :: header) ++ recs).
  split_and!; [done|cbn [length]; by rewrite Hhl|exact E|exact Hfin| | |].
  - apply Forall_app. split; [constructor; [by_decision|done]|done].
  - rewrite length_app. cbn [length]. rewrite Hhl. lia.
  - exists header, recs. split; [done|]. split; [done|exact Hw].
Qed.
End whole_file.

(** What [seal_all] writes after the prefix, [open_all] under the same key reads back to its end, for
    any plaintext: empty, a multiple of the chunk size or not; neither helper panics or runs out of
    fuel, and the reader keeps nothing afterwards. *)
Theorem stream_file_roundtrip {GE} `{Cpu} `{SubtleLaws} `{ZeroizeLaws} (fill : fill_call GE) (key pt : list Z) :
  array_ok 32 key → fill_ok fill → (fill (replicate 32 0)).2 = Ok tt → bytes_ok pt → length pt < 2 ^ 58 →
  ∃ enc prefix enc' file d,
    encryptor_init fill key = Some (Ok (enc, prefix)) ∧ length prefix = FILE_PREFIX_BYTES ∧
    seal_all (GetrandomError := GE) enc pt prefix = Some (enc', Ok file) ∧ finalized (enc_push enc') = true ∧
    open_all (GetrandomError := GE) (decryptor_new key) file = Some (d, Ok pt) ∧ wiped d.
Proof.
  intros Hk Hfill Hr Hb Hl. destruct (sealed_file fill key pt Hk Hfill Hr Hb Hl) as (enc & prefix & enc' & file & E1 & E2 & E3 & E4 & Hfb & Hfl & Ha).
  destruct (open_all_spec (GE := GE) key file Hk Hfb ltac:(lia)) as (d & r & Eo & Hwd & A & _). apply A in Ha as ->.
  by exists enc, prefix, enc', file, d.
Qed.

Lemma stream_file_roundtrip_witness :
  let _ := plain_subtle in let _ := {| feature_available := false |} in let _ := plain_zeroize in
  ∃ enc prefix enc' file d,
    encryptor_init (GetrandomError := unit) (constant_fill 7) (seqZ 0 32) = Some (Ok (enc, prefix)) ∧ length prefix = FILE_PREFIX_BYTES ∧
    seal_all (GetrandomError := unit) enc [1; 2; 3] prefix = Some (enc', Ok file) ∧ finalized (enc_push enc') = true ∧
    open_all (GetrandomError := unit) (decryptor_new (seqZ 0 32)) file = Some (d, Ok [1; 2; 3]) ∧ wiped d.
Proof.
  refine (@stream_file_roundtrip unit {| feature_available := false |} plain_subtle plain_subtle_laws plain_zeroize plain_zeroize_laws
    (constant_fill 7) (seqZ 0 32) [1; 2; 3] _ (constant_fill_ok 7 _) _ _ _).
  - by_decision.
  - by_decision.
  - reflexivity.
  - by_decision.
  - by_decision.
Defined.

(** C10. [open_all] always returns, wiped, and accepts exactly the files of the format: the version, a header
    and records, each with the tag of its own position, full chunks under any tag but [Final] and one
    [Final] record at the end; the plaintext is theirs. *)
Theorem stream_file_open_exact {GE} `{Cpu} `{SubtleLaws} `{ZeroizeLaws} (key file : list Z) :
  array_ok 32 key → bytes_ok file → length file < 2 ^ 64 →
  ∃ d r, open_all (GetrandomError := GE) (decryptor_new key) file = Some (d, r) ∧ wiped d ∧
    ∀ pt, r = Ok pt ↔ ∃ header recs, file = FORMAT_VERSION :: header ++ recs ∧ length header = HEADER_BYTES ∧ wire_file (start key header) pt recs.
Proof. intros Hk Hb Hl. destruct (open_all_spec (GE := GE) key file Hk Hb Hl) as (d & r & E & Hw & A & _). by exists d, r. Qed.

Lemma stream_file_open_exact_witness :
  let _ := plain_subtle in let _ := {| feature_available := false |} in let _ := plain_zeroize in
  ∃ d r, open_all (GetrandomError := unit) (decryptor_new (seqZ 0 32)) (2 :: seqZ 0 100) = Some (d, r) ∧ wiped d ∧
    ∀ pt, r = Ok pt ↔ ∃ header recs, 2 :: seqZ 0 100 = FORMAT_VERSION :: header ++ recs ∧ length header = HEADER_BYTES ∧
      wire_file (start (seqZ 0 32) header) pt recs.
Proof.
  refine (@stream_file_open_exact unit {| feature_available := false |} plain_subtle plain_subtle_laws plain_zeroize plain_zeroize_laws
    (seqZ 0 32) (2 :: seqZ 0 100) _ _ _); by_decision.
Defined.

(** Truncation and extension are told apart from tampering: every strict prefix of a sealed file, cut at
    a record's border or inside, is [Truncated], and every extension of it is [TrailingData]. *)
Theorem stream_file_cut {GE} `{Cpu} `{SubtleLaws} `{ZeroizeLaws} (fill : fill_call GE) (key pt extra : list Z) (n : nat) :
  array_ok 32 key → fill_ok fill → (fill (replicate 32 0)).2 = Ok tt → bytes_ok pt → length pt < 2 ^ 58 →
  bytes_ok extra → length extra < 2 ^ 63 →
  ∃ enc prefix enc' file,
    encryptor_init fill key = Some (Ok (enc, prefix)) ∧ seal_all (GetrandomError := GE) enc pt prefix = Some (enc', Ok file) ∧
    ((n < length file)%nat → ∃ d, open_all (GetrandomError := GE) (decryptor_new key) (take n file) = Some (d, Err Truncated)) ∧
    (extra ≠ [] → ∃ d, open_all (GetrandomError := GE) (decryptor_new key) (file ++ extra) = Some (d, Err TrailingData)).
Proof.
  intros Hk Hfill Hr Hb Hl Hx Hxl. destruct (sealed_file fill key pt Hk Hfill Hr Hb Hl) as (enc & prefix & enc' & file & E1 & _ & E3 & _ & Hfb & Hfl & Ha).
  exists enc, prefix, enc', file. split; [done|]. split; [done|]. apply (open_all_cut key file pt extra n Hk Hfb Hx); [lia|done].
Qed.

Lemma stream_file_cut_witness :
  let _ := plain_subtle in let _ := {| feature_available := false |} in let _ := plain_zeroize in
  ∃ enc prefix enc' file,
    encryptor_init (GetrandomError := unit) (constant_fill 7) (seqZ 0 32) = Some (Ok (enc, prefix)) ∧
    seal_all (GetrandomError := unit) enc [1; 2; 3] prefix = Some (enc', Ok file) ∧
    ((40 < length file)%nat → ∃ d, open_all (GetrandomError := unit) (decryptor_new (seqZ 0 32)) (take 40 file) = Some (d, Err Truncated)) ∧
    ([0] ≠ [] → ∃ d, open_all (GetrandomError := unit) (decryptor_new (seqZ 0 32)) (file ++ [0]) = Some (d, Err TrailingData)).
Proof.
  refine (@stream_file_cut unit {| feature_available := false |} plain_subtle plain_subtle_laws plain_zeroize plain_zeroize_laws
    (constant_fill 7) (seqZ 0 32) [1; 2; 3] [0] 40 _ (constant_fill_ok 7 _) _ _ _ _ _).
  - by_decision.
  - by_decision.
  - reflexivity.
  - by_decision.
  - by_decision.
  - by_decision.
  - by_decision.
Defined.

(** C11. The reader fails closed, from any state and on any input: a call that does not panic either is
    refused without effect, or succeeds, or leaves a wiped decryptor; and a wiped decryptor refuses every
    later call.  The turn that verifies the [Final] record releases nothing: its plaintext comes out of
    [finish] only. *)
Theorem decryptor_fail_closed {GE} `{Cpu} `{Subtle} `{ZeroizeLaws} (d : FileDecryptor) (input out : list Z) :
  (wiped d → feed (GetrandomError := GE) d input out = Some (d, out, Err Finished) ∧ finish (GetrandomError := GE) d out = (d, out, Err Finished)) ∧
  (∀ d' out' r, feed (GetrandomError := GE) d input out = Some (d', out', r) →
    match r with
    | Err e => d' = d ∧ out' = out ∧ (e = Finished ∨ e = InvalidLength) ∨ wiped d'
    | Ok n => state d' = AfterFinal → out' = out ∧ n = 0%nat
    end) ∧
  (∀ d' out' r, finish (GetrandomError := GE) d out = (d', out', r) →
    match r with
    | Err e => d' = d ∧ out' = out ∨ wiped d' ∧ e = Truncated
    | Ok n => wiped d' ∧ state d = AfterFinal ∧ n = final_len d
    end).
Proof.
  split; [|split].
  - intros (Hst & _). unfold feed, finish. by rewrite Hst.
  - intros d' out' r. unfold feed. destruct (state d) eqn:Hst; cbn [is_done]; [..|by intros [= <- <- <-]; left; auto].
    all: destruct (negb _ || _); [by intros [= <- <- <-]; left; auto|].
    all: destruct (step d input out) as [[[d1 out1] r1]|] eqn:Es; [|done]; cbn [mbind option_bind]; intros [= <- <- <-].
    all: destruct r1 as [n|e]; [|right; apply fail_wiped].
    all: unfold step in Es; rewrite Hst in Es.
    + destruct (negb _); [done|]. by injection Es as <- <- <-.
    + destruct (pull_init _ _); [|done]. cbn [mbind option_bind] in Es. by injection Es as <- <- <-.
    + destruct (Nat.ltb _ _); [done|]. destruct (from_byte _); [|done]. destruct (_ && _); [done|]. by injection Es as <- <- <-.
    + destruct (dec_pull d); [|done]. destruct (Z.eqb _ _).
      * destruct (pull _ _ _ _ _) as [[[? ?] [?|?]]|]; [|done..]. cbn [mbind option_bind] in Es. by injection Es as <- <- <-.
      * destruct (pull _ _ _ _ _) as [[[? ?] [?|?]]|]; [|done..]. cbn [mbind option_bind] in Es. by injection Es as <- <- <-.
    + done.
  - intros d' out' r. unfold finish. destruct (state d) eqn:Hst; cbn [is_done].
    all: try (destruct (Nat.ltb _ _); [by intros [= <- <- <-]; left|]).
    all: intros [= <- <- <-]; try (right; split; [apply fail_wiped|done]).
    + split; [apply fail_wiped|done].
    + by left.
Qed.

Lemma decryptor_fail_closed_witness :
  let _ := plain_subtle in let _ := {| feature_available := false |} in let _ := plain_zeroize in
  let d := decryptor_new (seqZ 0 32) in
  (wiped d → feed (GetrandomError := unit) d [3] [] = Some (d, [], Err Finished) ∧ finish (GetrandomError := unit) d [] = (d, [], Err Finished)) ∧
  (∀ d' out' r, feed (GetrandomError := unit) d [3] [] = Some (d', out', r) →
    match r with
    | Err e => d' = d ∧ out' = [] ∧ (e = Finished ∨ e = InvalidLength) ∨ wiped d'
    | Ok n => state d' = AfterFinal → out' = [] ∧ n = 0%nat
    end) ∧
  (∀ d' out' r, finish (GetrandomError := unit) d [] = (d', out', r) →
    match r with
    | Err e => d' = d ∧ out' = [] ∨ wiped d' ∧ e = Truncated
    | Ok n => wiped d' ∧ state d = AfterFinal ∧ n = final_len d
    end).
Proof.
  exact (@decryptor_fail_closed unit {| feature_available := false |} plain_subtle plain_zeroize plain_zeroize_laws (decryptor_new (seqZ 0 32)) [3] []).
Defined.
