(* ===== verification/CryptoAuth.v ===== *)
(** [crypto_auth.rs] and [crypto_kdf.rs]: the 256-bit KMAC and its key derivation under opaque keys.  The
    types [Key] and [MasterKey] are their 32 bytes.  [None] stands for the [unreachable!] of the source. *)

From S2P Require Import Prelude External Tables Kupyna KupynaKmac Randombytes.

Inductive TagMismatch_ : Type := TagMismatch.

Definition auth (key message : list Z) : option (list Z) :=
  r ← KupynaKmac.mac Kupyna256 key message;
  match r with Ok tag => Some tag | Err _ => None end.

Definition auth_verify `{Subtle} (key message tag : list Z) : option (result unit TagMismatch_) :=
  r ← KupynaKmac.verify Kupyna256 key message tag;
  match r with
  | Ok _ => Some (Ok tt)
  | Err KupynaKmac.TagMismatch => Some (Err TagMismatch)
  | Err KupynaKmac.WrongKeyLength => None
  end.

Definition master_derive_subkey (self : list Z) (subkey_id : Z) (context : list Z) : option (list Z) :=
  derive_subkey Kupyna256 self subkey_id context.

(** A message that the 256-bit MAC can count. *)
Definition countable (message : list Z) : Prop := 128 + length message < 2 ^ 63.

Lemma mac_256 key message :
  array_ok 32 key → bytes_ok message → countable message →
  KupynaKmac.mac Kupyna256 key message = Some (Ok (kmac_spec Kupyna256 key message)) ∧ array_ok 32 (kmac_spec Kupyna256 key message).
Proof.
  intros [Hl Hb] Hm Hlen. unfold countable in Hlen.
  assert (length (kmac_input Kupyna256 key message) < 2 ^ 64) as Hi.
  { rewrite kmac_input_length, padded_key_length by done. unfold padded_message. rewrite length_app, length_pad_suffix.
    change (columns_of Kupyna256 * ROWS)%nat with 64%nat. rewrite Hl.
    pose proof (Nat.mod_upper_bound (64 - (length message + 13) mod 64) 64 ltac:(lia)). lia. }
  split.
  - rewrite kmac_mac_spec by done. by rewrite decide_True.
  - apply (kupyna_digest_ok Kupyna256). by apply kmac_input_bytes.
Qed.

Lemma auth_spec key message :
  array_ok 32 key → bytes_ok message → countable message → auth key message = Some (kmac_spec Kupyna256 key message).
Proof. intros Hk Hm Hl. unfold auth. by destruct (mac_256 key message Hk Hm Hl) as [-> _]. Qed.

Lemma derive_message (subkey_id : Z) (context : list Z) :
  length context = 8%nat → copy_at 8 (to_le_bytes 8 subkey_id) (copy_at 0 context (replicate 16 0)) = context ++ to_le_bytes 8 subkey_id.
Proof.
  intros Hc. rewrite copy_at_0 by (rewrite length_replicate; lia). rewrite Hc. unfold copy_at.
  rewrite take_app_length' by done. rewrite drop_ge by (rewrite length_app, length_to_le_bytes, Hc; done). by rewrite app_nil_r.
Qed.

(** Authentication never reaches its [unreachable!]s: the tag is the KMAC of the message, verification
    accepts exactly it, and the subkeys of [crypto_kdf] are the tags of the context and the identifier
    under the same bytes - the two modules share one function of the key. *)
Theorem crypto_auth_correct `{SubtleLaws} (key message tag context : list Z) (subkey_id : Z) :
  array_ok 32 key → bytes_ok message → countable message → array_ok 8 context →
  auth key message = Some (kmac_spec Kupyna256 key message) ∧ array_ok 32 (kmac_spec Kupyna256 key message) ∧
  auth_verify key message tag = Some (if decide (tag = kmac_spec Kupyna256 key message) then Ok tt else Err TagMismatch) ∧
  master_derive_subkey key subkey_id context = auth key (context ++ to_le_bytes 8 subkey_id).
Proof.
  intros Hk Hm Hl [Hcl Hcb]. split; [by apply auth_spec|]. split; [by apply mac_256|]. split.
  - unfold auth_verify, KupynaKmac.verify. destruct (mac_256 key message Hk Hm Hl) as [-> _]. cbn [mbind option_bind result_bind].
    rewrite ct_eq_slice_spec. case_bool_decide; case_decide; congruence.
  - unfold master_derive_subkey, derive_subkey, auth. by rewrite derive_message.
Qed.

Lemma crypto_auth_correct_witness :
  let _ := plain_subtle in
  auth (seqZ 0 32) [1; 2; 3] = Some (kmac_spec Kupyna256 (seqZ 0 32) [1; 2; 3]) ∧ array_ok 32 (kmac_spec Kupyna256 (seqZ 0 32) [1; 2; 3]) ∧
  auth_verify (seqZ 0 32) [1; 2; 3] [] = Some (if decide ([] = kmac_spec Kupyna256 (seqZ 0 32) [1; 2; 3]) then Ok tt else Err TagMismatch) ∧
  master_derive_subkey (seqZ 0 32) 5 (seqZ 0 8) = auth (seqZ 0 32) (seqZ 0 8 ++ to_le_bytes 8 5).
Proof.
  refine (@crypto_auth_correct plain_subtle plain_subtle_laws (seqZ 0 32) [1; 2; 3] [] (seqZ 0 8) 5 _ _ _ _); [by_decision|by_decision|reflexivity|by_decision].
Defined.
