(* ===== verification/CryptoStream.v ===== *)
(** [crypto_stream.rs]: Strumok-256 under a fresh random IV, without authentication.  The type [Key] is
    its 32 bytes. *)

From S2P Require Import Prelude Stream Strumok Randombytes.

Definition IV_LEN : nat := 32.

Section crypto_stream.
Context {GetrandomError : Type}.

Inductive StreamError : Type := Truncated | Random (e : RandomError GetrandomError).

Definition stream_encrypt (fill : fill_call GetrandomError) (key plaintext : list Z) : result (list Z) StreamError :=
  let '(iv, r) := randombytes_buf fill (replicate IV_LEN 0) in
  match r with
  | Err e => Err (Random e)
  | Ok _ =>
      let cipher := strumok_new Strumok256 key iv in
      let '(_, buf) := Strumok.apply_keystream cipher plaintext in
      Ok (iv ++ buf)
  end.

Definition stream_decrypt (key sealed : list Z) : result (list Z) StreamError :=
  if Nat.ltb (length sealed) IV_LEN then Err Truncated
  else
    let iv := take IV_LEN sealed in
    let cipher := strumok_new Strumok256 key iv in
    let '(_, buf) := Strumok.apply_keystream cipher (drop IV_LEN sealed) in
    Ok buf.

(** One call on a fresh cipher. *)
Lemma one_call key iv data :
  bytes_ok data → (Strumok.apply_keystream (strumok_new Strumok256 key iv) data).2 = xor_keystream (strumok_keystream (init_spec key iv)) 0 data.
Proof.
  intros Hb. pose proof (strumok_stream (init_spec key iv)) as Hs.
  by destruct (apply_at_on (strumok_new Strumok256 key iv) 0 data (strumok_core_at key iv) Hb).
Qed.
End crypto_stream.
Arguments StreamError GetrandomError : clear implicits.

(** Whatever IV is drawn, decryption takes back what encryption sealed; the sealed message is the IV and
    the ciphertext.  There is no authentication: every input of at least an IV's length decrypts, to its
    tail XOR the keystream of its head; a shorter one is refused; and encryption fails only when the
    generator does. *)
Theorem crypto_stream_roundtrip {GE} (fill : fill_call GE) (key plaintext sealed : list Z) :
  array_ok 32 key → fill_ok fill → bytes_ok plaintext → bytes_ok sealed →
  (match stream_encrypt fill key plaintext with
   | Ok out => (fill (replicate 32 0)).2 = Ok tt ∧ length out = (32 + length plaintext)%nat ∧ stream_decrypt (GetrandomError := GE) key out = Ok plaintext
   | Err e => ∃ e', e = Random (RandomError_new e') ∧ (fill (replicate 32 0)).2 = Err e'
   end) ∧
  stream_decrypt (GetrandomError := GE) key sealed =
    if decide (32 ≤ length sealed)%nat then
      Ok (xor_keystream (strumok_keystream (init_spec key (take 32 sealed))) 0 (drop 32 sealed))
    else Err Truncated.
Proof.
  intros Hk Hf Hb Hs.
  assert (∀ sealed, bytes_ok sealed → stream_decrypt (GetrandomError := GE) key sealed =
    if decide (32 ≤ length sealed)%nat then
      Ok (xor_keystream (strumok_keystream (init_spec key (take 32 sealed))) 0 (drop 32 sealed))
    else Err Truncated) as Hd.
  { clear Hs sealed. intros sealed Hs. unfold stream_decrypt, IV_LEN. destruct (Nat.ltb_spec (length sealed) 32); [by rewrite decide_False by lia|].
    rewrite decide_True by done. pose proof (one_call key (take 32 sealed) (drop 32 sealed) (Forall_drop _ _ _ Hs)) as E.
    destruct (Strumok.apply_keystream _ _) as [c buf]. cbn [snd] in E. by rewrite E. }
  split; [|by apply Hd]. unfold stream_encrypt, randombytes_buf, IV_LEN. pose proof (Hf 32%nat) as [Hl Hib].
  destruct (fill (replicate 32 0)) as [iv r]. cbn [fst snd] in *. destruct r as [[]|e]; [|by eexists].
  pose proof (one_call key iv plaintext Hb) as E. destruct (Strumok.apply_keystream _ _) as [c buf]. cbn [snd] in E. subst buf.
  split; [done|]. split; [by rewrite length_app, Hl, length_xor_keystream|].
  rewrite Hd.
  - rewrite decide_True by (rewrite length_app, Hl; lia). rewrite take_app_length' by done. rewrite drop_app_length' by done.
    by rewrite xor_keystream_involutive.
  - apply Forall_app. split; [done|]. apply xor_keystream_ok; [done|]. intros. apply strumok_keystream_ok.
Qed.

Lemma crypto_stream_roundtrip_witness :
  (match stream_encrypt (GetrandomError := unit) (constant_fill 9) (seqZ 0 32) [1; 2] with
   | Ok out => (constant_fill (E := unit) 9 (replicate 32 0)).2 = Ok tt ∧ length out = 34%nat ∧ stream_decrypt (GetrandomError := unit) (seqZ 0 32) out = Ok [1; 2]
   | Err e => ∃ e', e = Random (RandomError_new e') ∧ (constant_fill (E := unit) 9 (replicate 32 0)).2 = Err e'
   end) ∧
  stream_decrypt (GetrandomError := unit) (seqZ 0 32) [1; 2; 3] =
    if decide (32 ≤ length [1; 2; 3])%nat then
      Ok (xor_keystream (strumok_keystream (init_spec (seqZ 0 32) (take 32 [1; 2; 3]))) 0 (drop 32 [1; 2; 3]))
    else Err Truncated.
Proof.
  refine (crypto_stream_roundtrip (GE := unit) (constant_fill 9) (seqZ 0 32) [1; 2] [1; 2; 3] _ (constant_fill_ok 9 _) _ _); by_decision.
Defined.
