(* ===== verification/CryptoSecretbox.v ===== *)
(** [crypto_secretbox.rs]: Kalyna-256/256-GCM under a fresh random nonce, with a version byte.  The type
    [SecretKey] is its 32 bytes.  [None] stands for the [unreachable!]s of the source. *)

From S2P Require Import Prelude External BlockCipher Stream Poly2 Gf2mWide Kalyna Ghash Gcm Randombytes.

Local Abbreviation K := (ExpandedKey Kalyna256_256).

Definition FORMAT_VERSION : Z := 2.
Definition NONCE_LEN : nat := 32.
Definition HEADER_LEN : nat := 1 + NONCE_LEN.
Definition TAG_LEN : nat := 16.

Section secretbox.
Context {GetrandomError : Type}.

Inductive SecretboxError : Type :=
| Truncated
| TagMismatch
| UnsupportedVersion
| Random (e : RandomError GetrandomError).

Definition secret_key_generate (fill : fill_call GetrandomError) : result (list Z) SecretboxError :=
  match generate_key fill with
  | Ok bytes => Ok bytes
  | Err e => Err (Random e)
  end.

Definition box_aad (nonce : list Z) (ciphertext_len : nat) : list Z :=
  let aad := replicate (HEADER_LEN + 8) 0 in
  let aad := <[0%nat := FORMAT_VERSION]> aad in
  let aad := copy_at 1 nonce aad in
  copy_at HEADER_LEN (to_le_bytes 8 ciphertext_len) aad.

Definition box_seal `{Cpu} (fill : fill_call GetrandomError) (key plaintext : list Z) : option (result (list Z) SecretboxError) :=
  let '(nonce, r) := randombytes_buf fill (replicate NONCE_LEN 0) in
  match r with
  | Err e => Some (Err (Random e))
  | Ok _ =>
      cipher ← Gcm.new (K := K) key;
      let buf := replicate (length plaintext) 0 in
      match Gcm.encrypt cipher nonce (box_aad nonce (length plaintext)) plaintext buf with
      | (_, Err _) => None
      | (buf, Ok full_tag) => Some (Ok ([FORMAT_VERSION] ++ nonce ++ buf ++ take TAG_LEN full_tag))
      end
  end.

Definition box_open `{Cpu} `{Subtle} (key sealed : list Z) : option (result (list Z) SecretboxError) :=
  if Nat.ltb (length sealed) (HEADER_LEN + TAG_LEN) then Some (Err Truncated)
  else if negb (Z.eqb (sealed.[0]) FORMAT_VERSION) then Some (Err UnsupportedVersion)
  else
    let nonce := slice 1 HEADER_LEN sealed in
    let ciphertext_len := (length sealed - HEADER_LEN - TAG_LEN)%nat in
    let ciphertext := slice HEADER_LEN (HEADER_LEN + ciphertext_len) sealed in
    let tag := drop (HEADER_LEN + ciphertext_len) sealed in
    cipher ← Gcm.new (K := K) key;
    let buf := replicate ciphertext_len 0 in
    match Gcm.decrypt cipher nonce (box_aad nonce ciphertext_len) ciphertext tag buf with
    | (_, Err Gcm.TagMismatch) => Some (Err TagMismatch)
    | (_, Err (Gcm.InvalidLength | Gcm.EmptyInput)) => None
    | (buf, Ok _) => Some (Ok buf)
    end.

(** ** Specification *)

Section spec.
Context `{Cpu}.

Definition box_xor (key nonce data : list Z) : list Z :=
  match Gcm.new (K := K) key with
  | Some cipher => xor_keystream (gcm_keystream cipher nonce) 0 data
  | None => []
  end.

Definition box_tag (key nonce ciphertext : list Z) : list Z :=
  match Gcm.new (K := K) key with
  | Some cipher => take TAG_LEN (gcm_tag cipher (FORMAT_VERSION :: nonce ++ to_le_bytes 8 (length ciphertext)) ciphertext)
  | None => []
  end.

(** The sealed form of a ciphertext. *)
Definition box (key nonce ciphertext : list Z) : list Z := FORMAT_VERSION :: nonce ++ ciphertext ++ box_tag key nonce ciphertext.
End spec.

Lemma box_aad_eq nonce n : length nonce = 32%nat → box_aad nonce n = FORMAT_VERSION :: nonce ++ to_le_bytes 8 n.
Proof.
  intros Hn. unfold box_aad. change (<[0%nat:=FORMAT_VERSION]> (replicate (HEADER_LEN + 8) 0)) with ([FORMAT_VERSION] ++ replicate 32 0 ++ replicate 8 0).
  rewrite (copy_at_app [FORMAT_VERSION]) by (done || by rewrite Hn). rewrite app_assoc, <- (app_nil_r (replicate 8 0)).
  rewrite copy_at_app; [by rewrite app_nil_r|simpl; by rewrite Hn|by rewrite length_to_le_bytes].
Qed.

Lemma box_aad_ok nonce n : array_ok 32 nonce → array_ok 41 (box_aad nonce n).
Proof.
  intros Hn. rewrite box_aad_eq by apply Hn. apply (array_ok_app 1 40 [FORMAT_VERSION]); [by_decision|].
  apply (array_ok_app 32 8); [done|apply to_le_bytes_ok].
Qed.

Section lemmas.
Context `{Cpu} `{SubtleLaws}.

Lemma box_input_ok nonce (data : list Z) n :
  array_ok 32 nonce → n = length data → 8 * length data < 2 ^ 64 → input_error (box_aad nonce n) data (replicate n 0) = None.
Proof.
  intros Hn -> Hl. pose proof (array_ok_length _ _ (box_aad_ok nonce (length data) Hn)) as Ha.
  unfold input_error. rewrite length_replicate. rewrite decide_False by tauto. rewrite decide_False by (intros [E _]; rewrite E in Ha; done).
  rewrite decide_True; [done|]. rewrite Ha. split; [lia|done].
Qed.

Lemma box_cipher key : array_ok 32 key → ∃ k, Gcm.new (K := K) key = Some k ∧ key_ok k.
Proof. intros Hk. exact (expanded_new_ok (K := K) key Hk). Qed.

Lemma box_ok key nonce data :
  array_ok 32 key → array_ok 32 nonce → bytes_ok data →
  bytes_ok (box_xor key nonce data) ∧ length (box_xor key nonce data) = length data ∧ array_ok TAG_LEN (box_tag key nonce data) ∧
  box_xor key nonce (box_xor key nonce data) = data.
Proof.
  intros Hk Hn Hd. destruct (box_cipher key Hk) as (k & He & Hok). unfold box_xor, box_tag.
  rewrite He. split_and!.
  - apply xor_keystream_ok; [done|]. intros i. apply nth_byte_ok, (encrypt_block_ok (K := K)); [done|].
    apply counter_block_ok. by apply (encrypt_block_ok (K := K)).
  - apply length_xor_keystream.
  - assert (array_ok (BlockCipher.block_bytes K) (gcm_tag k (FORMAT_VERSION :: nonce ++ to_le_bytes 8 (length data)) data)) as Ht.
    { apply (gcm_tag_ok (K := K)); [done| |done]. rewrite <- box_aad_eq by apply Hn. by apply box_aad_ok. }
    apply (array_ok_take _ 32); [done|unfold TAG_LEN; lia].
  - apply xor_keystream_involutive.
Qed.

Lemma box_seal_spec (fill : fill_call GetrandomError) key pt :
  array_ok 32 key → fill_ok fill → bytes_ok pt → 8 * length pt < 2 ^ 64 →
  box_seal fill key pt = Some match (fill (replicate 32 0)).2 with
    | Ok _ => let nonce := (fill (replicate 32 0)).1 in Ok (box key nonce (box_xor key nonce pt))
    | Err e => Err (Random (RandomError_new e))
    end.
Proof.
  intros Hk Hf Hb Hl. pose proof (Hf 32%nat) as Hn. unfold box_seal, randombytes_buf, NONCE_LEN.
  destruct (fill (replicate 32 0)) as [nonce r]. cbn [fst snd] in *. destruct r as [[]|e]; [|done].
  destruct (box_cipher key Hk) as (k & He & Hok). rewrite He. cbn [mbind option_bind].
  rewrite (encrypt_spec (K := K)) by (done || (eapply proj2; by apply box_aad_ok)). rewrite box_input_ok by done. cbn zeta.
  unfold box, box_tag, box_xor. rewrite He.
  rewrite box_aad_eq by apply Hn. rewrite length_xor_keystream. done.
Qed.

(** [box_open] on every input. *)
Lemma box_open_spec key sealed :
  array_ok 32 key → bytes_ok sealed → 8 * length sealed < 2 ^ 64 →
  box_open key sealed = Some (
    if decide (length sealed < 49)%nat then Err Truncated
    else if decide (sealed.[0] = 2) then
      let nonce := slice 1 33 sealed in
      let ct := slice 33 (length sealed - 16) sealed in
      if decide (drop (length sealed - 16) sealed = box_tag key nonce ct) then Ok (box_xor key nonce ct) else Err TagMismatch
    else Err UnsupportedVersion).
Proof.
  intros Hk Hb Hl. unfold box_open. change (HEADER_LEN + TAG_LEN)%nat with 49%nat.
  destruct (Nat.ltb_spec (length sealed) 49) as [Hlt|Hge]; [by rewrite decide_True by lia|]. rewrite decide_False by lia.
  unfold FORMAT_VERSION at 1. destruct (Z.eqb_spec (sealed.[0]) 2) as [Hv|Hv]; cbn [negb]; [rewrite decide_True by done|by rewrite decide_False].
  unfold HEADER_LEN, NONCE_LEN, TAG_LEN. change (1 + 32)%nat with 33%nat. replace (33 + (length sealed - 33 - 16))%nat with (length sealed - 16)%nat by lia.
  set (nonce := slice 1 33 sealed). set (ct := slice 33 (length sealed - 16) sealed).
  assert (array_ok 32 nonce) as Hn by (unfold nonce, slice; split; [rewrite length_take, length_drop; lia|by apply Forall_take, Forall_drop]).
  assert (bytes_ok ct) as Hcb by (by apply Forall_take, Forall_drop).
  assert (length ct = (length sealed - 33 - 16)%nat) as Hcl by (unfold ct, slice; rewrite length_take, length_drop; lia).
  destruct (box_cipher key Hk) as (k & He & Hok). rewrite He. cbn [mbind option_bind].
  rewrite (decrypt_spec (K := K)) by (done || (eapply proj2; by apply box_aad_ok)). change (BlockCipher.block_bytes K) with 32%nat.
  assert (length (drop (length sealed - 16) sealed) = 16%nat) as Htl by (rewrite length_drop; lia). rewrite Htl.
  rewrite decide_True by lia. rewrite <- Hcl, box_input_ok by (done || lia).
  unfold box_tag, box_xor. rewrite He. rewrite box_aad_eq by apply Hn.
  unfold TAG_LEN. cbn zeta. by case_decide.
Qed.

(** The parts of a box. *)
Lemma box_parts key nonce ct :
  array_ok 32 key → array_ok 32 nonce → bytes_ok ct →
  let b := box key nonce ct in
  bytes_ok b ∧ length b = (49 + length ct)%nat ∧ b.[0] = 2 ∧ slice 1 33 b = nonce ∧ slice 33 (length b - 16) b = ct ∧
  drop (length b - 16) b = box_tag key nonce ct.
Proof.
  intros Hk [Hnl Hnb] Hc b. destruct (box_ok key nonce ct Hk (conj Hnl Hnb) Hc) as (_ & _ & [Htl Htb] & _). unfold TAG_LEN in Htl.
  assert (length b = (49 + length ct)%nat) as Hb by (unfold b, box; cbn [length]; rewrite !length_app, Hnl, Htl; lia).
  split; [|split; [done|split; [done|]]].
  - unfold b, box. constructor; [by_decision|]. apply Forall_app. split; [done|]. apply Forall_app. by split.
  - rewrite Hb. unfold slice, b, box. change (drop 1 (FORMAT_VERSION :: nonce ++ ct ++ box_tag key nonce ct)) with (nonce ++ ct ++ box_tag key nonce ct).
    split; [by rewrite take_app_length'|]. assert (∀ n, drop (33 + n) (FORMAT_VERSION :: nonce ++ ct ++ box_tag key nonce ct) = drop n (ct ++ box_tag key nonce ct)) as Hd.
    { intros n. change (33 + n)%nat with (S (32 + n)). rewrite skipn_cons, <- drop_drop. by rewrite drop_app_length'. }
    pose proof (Hd 0%nat) as Hd0. change (33 + 0)%nat with 33%nat in Hd0. rewrite Hd0. replace (49 + length ct - 16)%nat with (33 + length ct)%nat by lia. rewrite Hd.
    split; [rewrite drop_0; apply take_app_length'; lia|]. by rewrite drop_app_length'.
Qed.
End lemmas.
End secretbox.
Arguments SecretboxError GetrandomError : clear implicits.

(** C12. Sealing never reaches its [unreachable!] and fails only when the generator does; what it seals opens
    to the plaintext.  On any input at all [open] returns, and it yields a plaintext exactly for the boxes
    of the format - version, nonce, ciphertext and the tag that binds the three - in the order of its
    checks otherwise. *)
Theorem secretbox_correct {GE} `{Cpu} `{SubtleLaws} (fill : fill_call GE) (key pt sealed : list Z) :
  array_ok 32 key → fill_ok fill → bytes_ok pt → bytes_ok sealed → 8 * length pt + 512 < 2 ^ 64 → 8 * length sealed < 2 ^ 64 →
  (∃ r, box_seal fill key pt = Some r ∧
    match r with
    | Ok out => length out = (49 + length pt)%nat ∧ box_open (GetrandomError := GE) key out = Some (Ok pt)
    | Err e => ∃ e', e = Random (RandomError_new e') ∧ (fill (replicate 32 0)).2 = Err e'
    end) ∧
  ∃ r, box_open (GetrandomError := GE) key sealed = Some r ∧
    (∀ m, r = Ok m ↔ ∃ nonce ct, length nonce = 32%nat ∧ sealed = box key nonce ct ∧ m = box_xor key nonce ct) ∧
    (r = Err Truncated ↔ (length sealed < 49)%nat) ∧
    (r = Err UnsupportedVersion ↔ (49 ≤ length sealed)%nat ∧ sealed.[0] ≠ 2).
Proof.
  intros Hk Hf Hp Hs Hpl Hsl. split.
  - eexists. split; [apply box_seal_spec; [done..|lia]|]. pose proof (Hf 32%nat) as Hn. destruct (fill (replicate 32 0)) as [nonce r]. cbn [fst snd] in *.
    destruct r as [[]|e]; [|by eexists]. destruct (box_ok key nonce pt Hk Hn Hp) as (Hcb & Hcl & _ & Hinv).
    destruct (box_parts key nonce (box_xor key nonce pt) Hk Hn Hcb) as (Hbb & Hbl & Hb0 & Hb1 & Hb2 & Hb3). rewrite Hcl in Hbl. split; [done|].
    rewrite box_open_spec; [|done|done|rewrite Hbl; lia]. rewrite decide_False by lia. rewrite decide_True by done. cbn zeta.
    rewrite Hb1, Hb2, Hb3, decide_True by done. by rewrite Hinv.
  - eexists. split; [by apply box_open_spec|]. cbn zeta. split.
    + intros m. split.
      * case_decide as Hlt; [done|]. case_decide as Hv; [|done]. case_decide as Ht; [|done]. intros [= <-].
        exists (slice 1 33 sealed), (slice 33 (length sealed - 16) sealed).
        split; [unfold slice; rewrite length_take, length_drop; lia|]. split; [|done]. unfold box. rewrite <- Ht.
        destruct sealed as [|v sealed]; [simpl in Hlt; lia|]. cbn [nth] in Hv. subst v. unfold FORMAT_VERSION. f_equal.
        unfold slice. cbn [length] in *. replace (S (length sealed) - 16)%nat with (S (length sealed - 16)) by lia. rewrite !skipn_cons, drop_0.
        change (33 - 1)%nat with 32%nat. rewrite <- (take_drop 32 sealed) at 1. f_equal.
        replace (S (length sealed - 16) - 33)%nat with (length sealed - 48)%nat by lia.
        rewrite <- (take_drop (length sealed - 48) (drop 32 sealed)) at 1. f_equal. rewrite drop_drop. f_equal. lia.
      * intros (nonce & ct & Hn & -> & ->). destruct (box_parts key nonce ct) as (Hbb & Hbl & Hb0 & Hb1 & Hb2 & Hb3); [done|..].
        { split; [done|]. unfold box in Hs. apply Forall_cons in Hs as [_ Hs]. by apply Forall_app in Hs as [? _]. }
        { unfold box in Hs. apply Forall_cons in Hs as [_ Hs]. apply Forall_app in Hs as [_ Hs]. by apply Forall_app in Hs as [? _]. }
        rewrite decide_False by lia. rewrite decide_True by done. by rewrite Hb1, Hb2, Hb3, decide_True.
    + case_decide as Hlt; [split; split; (done || lia)|]. case_decide as Hv; [case_decide; split; split; (done || lia || (by intros [])) |].
      split; split; (done || lia).
Qed.

Lemma secretbox_correct_witness :
  let _ := plain_subtle in let _ := {| feature_available := false |} in
  (∃ r, box_seal (GetrandomError := unit) (constant_fill 1) (seqZ 0 32) [5; 6] = Some r ∧
    match r with
    | Ok out => length out = 51%nat ∧ box_open (GetrandomError := unit) (seqZ 0 32) out = Some (Ok [5; 6])
    | Err e => ∃ e', e = Random (RandomError_new e') ∧ (constant_fill (E := unit) 1 (replicate 32 0)).2 = Err e'
    end) ∧
  ∃ r, box_open (GetrandomError := unit) (seqZ 0 32) [2; 3] = Some r ∧
    (∀ m, r = Ok m ↔ ∃ nonce ct, length nonce = 32%nat ∧ [2; 3] = box (seqZ 0 32) nonce ct ∧ m = box_xor (seqZ 0 32) nonce ct) ∧
    (r = Err Truncated ↔ (length [2; 3] < 49)%nat) ∧
    (r = Err UnsupportedVersion ↔ (49 ≤ length [2; 3])%nat ∧ [2; 3].[0] ≠ 2).
Proof.
  refine (@secretbox_correct unit {| feature_available := false |} plain_subtle plain_subtle_laws (constant_fill 1) (seqZ 0 32) [5; 6] [2; 3]
    _ (constant_fill_ok 1 _) _ _ _ _); by_decision.
Defined.
