(* ===== verification/Limb.v ===== *)
(** 64-bit limbs with carries ([hazmat/limb.rs]) and the loops over arrays of limbs that the prime-field
    and scalar code builds from them.  [limbs_val] is the integer of an array, the lowest limb first. *)

From S2P Require Import Prelude.

(** ** Single limbs *)

Definition adc (a b carry_in : Z) : Z * Z :=
  let s := wrapping_add 64 (wrapping_add 64 a b) carry_in in
  (s, Z.shiftr (Z.lor (Z.land a b) (Z.land (Z.lor a b) (bit_not 64 s))) 63).

Definition sbb (a b borrow_in : Z) : Z * Z :=
  let d := wrapping_sub 64 (wrapping_sub 64 a b) borrow_in in
  (d, Z.shiftr (Z.lor (Z.land (bit_not 64 a) b) (Z.land (Z.lor (bit_not 64 a) b) d)) 63).

(** [product] is the [u128] product. *)
Definition mac (r a b carry : Z) : Z * Z :=
  let product := a * b in
  let '(lo, c1) := adc (wrap 64 product) r 0 in
  let '(lo, c2) := adc lo carry 0 in
  (lo, wrap 64 (Z.shiftr product 64) + c1 + c2).

(** ** Loops over limbs *)

(** [for i in 0..n { (r[i], carry) = adc(a[i], b[i], carry) }]: the array [r] and the last carry. *)
Fixpoint adc_loop (a b : list Z) (carry : Z) : list Z * Z :=
  match a, b with
  | x :: a, y :: b =>
      let '(s, carry) := adc x y carry in
      let '(r, carry) := adc_loop a b carry in
      (s :: r, carry)
  | _, _ => ([], carry)
  end.

(** [for i in 0..n { (r[i], borrow) = sbb(a[i], b[i], borrow) }]. *)
Fixpoint sbb_loop (a b : list Z) (borrow : Z) : list Z * Z :=
  match a, b with
  | x :: a, y :: b =>
      let '(d, borrow) := sbb x y borrow in
      let '(r, borrow) := sbb_loop a b borrow in
      (d :: r, borrow)
  | _, _ => ([], borrow)
  end.

(** [for j in 0..n { (r[j], carry) = mac(r[j], a[j], c, carry) }]. *)
Fixpoint mac_loop (r a : list Z) (c carry : Z) : list Z * Z :=
  match r, a with
  | w :: r, x :: a =>
      let '(lo, carry) := mac w x c carry in
      let '(r, carry) := mac_loop r a c carry in
      (lo :: r, carry)
  | _, _ => (r, carry)
  end.

(** [while idx < n { (r[idx], c) = adc(r[idx], c, 0); idx += 1 }]. *)
Fixpoint carry_loop (r : list Z) (c : Z) : list Z * Z :=
  match r with
  | w :: r =>
      let '(w, c) := adc w c 0 in
      let '(r, c) := carry_loop r c in
      (w :: r, c)
  | [] => ([], c)
  end.

(** [for i in 0..n { out[i] = (a[i] & mask) | (b[i] & !mask) }]. *)
Definition mask_select (mask : Z) (a b : list Z) : list Z :=
  zip_with (λ x y, Z.lor (Z.land x mask) (Z.land y (bit_not 64 mask))) a b.

(** [for i in 0..n { limbs[n - 1 - i] = u64::from_be_bytes(bytes[8*i..8*i + 8]) }]. *)
Definition limbs_from_be (n : nat) (bytes : list Z) : list Z :=
  reverse (map (λ i, from_be_bytes (slice (i * 8) (i * 8 + 8) bytes)) (seq 0 n)).

(** [for i in 0..n { out[8*i..8*i + 8] = limbs[n - 1 - i].to_be_bytes() }]. *)
Definition limbs_to_be (n : nat) (l : list Z) : list Z :=
  concat (map (λ i, to_be_bytes 8 (l.[n - 1 - i])) (seq 0 n)).

(** ** Values *)

Fixpoint limbs_val (l : list Z) : Z :=
  match l with
  | [] => 0
  | w :: l => w + 2 ^ 64 * limbs_val l
  end.

Definition limbs_ok (n : nat) (l : list Z) : Prop := length l = n ∧ Forall u64_ok l.
#[global] Instance limbs_ok_dec n l : Decision (limbs_ok n l).
Proof. unfold limbs_ok. apply _. Defined.

(** A carry or a borrow. *)
Definition bit_ok (c : Z) : Prop := 0 ≤ c ≤ 1.

(** ** The top bit of a word *)

Lemma testbit_top w : u64_ok w → Z.testbit w 63 = Z.leb (2 ^ 63) w.
Proof.
  intros Hw. unfold word_ok in Hw. destruct (Z.leb_spec (2 ^ 63) w).
  - apply Z.testbit_true; [lia|]. rewrite <- (Z.div_unique w (2 ^ 63) 1 (w - 2 ^ 63)); [done|lia..].
  - rewrite <- (Z.mod_small w (2 ^ 63)) by lia. by apply Z.mod_pow2_bits_high.
Qed.

Lemma shiftr_top w : u64_ok w → Z.shiftr w 63 = Z.b2z (Z.testbit w 63).
Proof.
  intros Hw. rewrite testbit_top by done. unfold word_ok in Hw. rewrite Z.shiftr_div_pow2 by lia.
  destruct (Z.leb_spec (2 ^ 63) w); cbn [Z.b2z].
  - symmetry. apply (Z.div_unique _ _ 1 (w - 2 ^ 63)); lia.
  - apply Z.div_small. lia.
Qed.

Lemma bit_not_64 w : u64_ok w → bit_not 64 w = 2 ^ 64 - 1 - w.
Proof.
  intros Hw. unfold word_ok in Hw. unfold bit_not. rewrite wrap_mod by lia. unfold Z.lnot. symmetry.
  apply (Z.mod_unique _ _ (-1)); lia.
Qed.

Lemma word_ok_lor w a b : 0 ≤ w → word_ok w a → word_ok w b → word_ok w (Z.lor a b).
Proof.
  intros Hw Ha Hb. apply word_ok_bits in Ha as [Ha Ha']; [|done]. apply word_ok_bits in Hb as [Hb Hb']; [|done].
  apply word_ok_bits; [done|]. split; [by apply Z.lor_nonneg|]. intros i Hi. by rewrite Z.lor_spec, Ha', Hb'.
Qed.

Lemma bit_not_ok w : u64_ok (bit_not 64 w).
Proof. by apply word_ok_wrap. Qed.

(** The carry formula: the majority of three top bits. *)
Lemma majority x y z :
  u64_ok x → u64_ok y → u64_ok z →
  Z.shiftr (Z.lor (Z.land x y) (Z.land (Z.lor x y) z)) 63 =
  Z.b2z (Z.leb (2 ^ 63) x && Z.leb (2 ^ 63) y || (Z.leb (2 ^ 63) x || Z.leb (2 ^ 63) y) && Z.leb (2 ^ 63) z).
Proof.
  intros Hx Hy Hz. rewrite shiftr_top.
  - by rewrite Z.lor_spec, !Z.land_spec, Z.lor_spec, !testbit_top.
  - apply word_ok_lor; [lia|apply word_ok_land; [lia|done|apply Hy]|].
    apply word_ok_land; [lia|by apply word_ok_lor|apply Hz].
Qed.

Lemma adc_spec a b c : u64_ok a → u64_ok b → bit_ok c →
  adc a b c = ((a + b + c) mod 2 ^ 64, (a + b + c) / 2 ^ 64).
Proof.
  intros Ha Hb Hc. unfold adc, wrapping_add. rewrite !wrap_mod, Zplus_mod_idemp_l by lia. f_equal.
  assert (u64_ok ((a + b + c) mod 2 ^ 64)) as Hs by (by apply word_ok_mod).
  rewrite majority by (done || apply bit_not_ok). rewrite bit_not_64 by done. unfold word_ok, bit_ok in *.
  pose proof (Z.div_mod (a + b + c) (2 ^ 64) ltac:(lia)) as Hd.
  set (s := (a + b + c) mod 2 ^ 64) in *. set (q := (a + b + c) / 2 ^ 64) in *.
  assert (0 ≤ q ≤ 1) by (unfold q; split; [apply Z.div_pos; lia|apply Z.lt_succ_r, Z.div_lt_upper_bound; lia]).
  destruct (Z.leb_spec (2 ^ 63) a), (Z.leb_spec (2 ^ 63) b), (Z.leb_spec (2 ^ 63) (2 ^ 64 - 1 - s)); cbn [andb orb Z.b2z]; lia.
Qed.

Lemma sbb_spec a b c : u64_ok a → u64_ok b → bit_ok c →
  sbb a b c = ((a - b - c) mod 2 ^ 64, - ((a - b - c) / 2 ^ 64)).
Proof.
  intros Ha Hb Hc. unfold sbb, wrapping_sub. rewrite !wrap_mod, Zminus_mod_idemp_l by lia. f_equal.
  assert (u64_ok ((a - b - c) mod 2 ^ 64)) as Hs by (by apply word_ok_mod).
  rewrite majority by (done || apply bit_not_ok). rewrite bit_not_64 by done. unfold word_ok, bit_ok in *.
  pose proof (Z.div_mod (a - b - c) (2 ^ 64) ltac:(lia)) as Hd.
  set (s := (a - b - c) mod 2 ^ 64) in *. set (q := (a - b - c) / 2 ^ 64) in *.
  assert (-1 ≤ q ≤ 0) by (unfold q; split; [apply Z.div_le_lower_bound; lia|apply Z.lt_succ_r, Z.div_lt_upper_bound; lia]).
  destruct (Z.leb_spec (2 ^ 63) (2 ^ 64 - 1 - a)), (Z.leb_spec (2 ^ 63) b), (Z.leb_spec (2 ^ 63) s); cbn [andb orb Z.b2z]; lia.
Qed.

(** What one step keeps: the value, as an equation for [lia]. *)
Lemma adc_val a b c s c' : u64_ok a → u64_ok b → bit_ok c → adc a b c = (s, c') →
  u64_ok s ∧ bit_ok c' ∧ s + 2 ^ 64 * c' = a + b + c.
Proof.
  intros Ha Hb Hc. rewrite adc_spec by done. intros [= <- <-]. split; [by apply word_ok_mod|].
  unfold word_ok, bit_ok in *. pose proof (Z.div_mod (a + b + c) (2 ^ 64) ltac:(lia)).
  pose proof (Z.mod_pos_bound (a + b + c) (2 ^ 64) ltac:(lia)). lia.
Qed.

Lemma sbb_val a b c s c' : u64_ok a → u64_ok b → bit_ok c → sbb a b c = (s, c') →
  u64_ok s ∧ bit_ok c' ∧ s = a - b - c + 2 ^ 64 * c'.
Proof.
  intros Ha Hb Hc. rewrite sbb_spec by done. intros [= <- <-]. split; [by apply word_ok_mod|].
  unfold word_ok, bit_ok in *. pose proof (Z.div_mod (a - b - c) (2 ^ 64) ltac:(lia)).
  pose proof (Z.mod_pos_bound (a - b - c) (2 ^ 64) ltac:(lia)). lia.
Qed.

(** The addend of [mac] and of the carry loop is a whole word; the carry in is then 0. *)
Lemma mac_val r a b c lo hi : u64_ok r → u64_ok a → u64_ok b → u64_ok c → mac r a b c = (lo, hi) →
  u64_ok lo ∧ u64_ok hi ∧ lo + 2 ^ 64 * hi = r + a * b + c.
Proof.
  intros Hr Ha Hb Hc. unfold mac.
  assert (u64_ok (a * b / 2 ^ 64)) as Hh.
  { unfold word_ok in *. split; [apply Z.div_pos; nia|apply Z.div_lt_upper_bound; nia]. }
  rewrite (wrap_mod 64 (a * b)), Z.shiftr_div_pow2, (wrap_id 64 (a * b / 2 ^ 64)) by (done || lia).
  destruct (adc ((a * b) mod 2 ^ 64) r 0) as [lo1 c1] eqn:E1. destruct (adc lo1 c 0) as [lo2 c2] eqn:E2. intros [= <- <-].
  apply adc_val in E1 as (H1 & H2 & H3); [|by apply word_ok_mod|done|done].
  apply adc_val in E2 as (H4 & H5 & H6); [|done..]. pose proof (Z.div_mod (a * b) (2 ^ 64) ltac:(lia)).
  split; [done|]. unfold word_ok, bit_ok in *. split; [|lia]. split; [lia|].
  assert (0 ≤ a * b ≤ (2 ^ 64 - 1) * (2 ^ 64 - 1)) by nia. lia.
Qed.

(** ** Arrays of limbs *)

Lemma limbs_val_app a b : limbs_val (a ++ b) = limbs_val a + 2 ^ (64 * length a) * limbs_val b.
Proof.
  induction a as [|w a IH]; cbn [limbs_val app length]; [lia|]. rewrite IH.
  replace (64 * S (length a)) with (64 + 64 * length a) by lia. rewrite Z.pow_add_r by lia. lia.
Qed.

Lemma limbs_val_zeros n : limbs_val (replicate n 0) = 0.
Proof. induction n as [|n IH]; [done|]. cbn [replicate limbs_val]. lia. Qed.

Lemma limbs_val_bound n l : limbs_ok n l → 0 ≤ limbs_val l < 2 ^ (64 * n).
Proof.
  intros [<- Hl]. induction Hl as [|w l Hw Hl IH]; [done|]. cbn [limbs_val length].
  replace (64 * S (length l)) with (64 + 64 * length l) by lia. rewrite Z.pow_add_r by lia. unfold word_ok in Hw. nia.
Qed.

Lemma limbs_val_inj n l k : limbs_ok n l → limbs_ok n k → limbs_val l = limbs_val k → l = k.
Proof.
  intros [<- Hl] [Hlen Hk] E. revert k Hlen Hk E.
  induction Hl as [|w l Hw Hl IH]; intros [|v k]; cbn [length limbs_val]; try done.
  intros [= Hlen] Hk E. apply Forall_cons in Hk as [Hv Hk]. unfold word_ok in Hw, Hv.
  assert (w = v) as -> by nia. f_equal. apply IH; [done..|nia].
Qed.

Lemma limbs_ok_zeros n : limbs_ok n (replicate n 0).
Proof. split; [apply length_replicate|]. by apply Forall_replicate. Qed.

Lemma limbs_ok_app n m l k : limbs_ok n l → limbs_ok m k → limbs_ok (n + m) (l ++ k).
Proof. intros [] []. split; [rewrite length_app; lia|by apply Forall_app]. Qed.

Lemma limbs_ok_take n m l : limbs_ok m l → (n ≤ m)%nat → limbs_ok n (take n l).
Proof. intros [] ?. split; [rewrite length_take; lia|by apply Forall_take]. Qed.

Lemma limbs_ok_drop n m l : limbs_ok m l → limbs_ok (m - n) (drop n l).
Proof. intros [<- ?]. split; [by rewrite length_drop|by apply Forall_drop]. Qed.

Lemma limbs_ok_cons n w l : u64_ok w → limbs_ok n l → limbs_ok (S n) (w :: l).
Proof. intros Hw [<- Hl]. split; [done|by constructor]. Qed.

Lemma nth_limb_ok n l i : limbs_ok n l → u64_ok (l.[i]).
Proof.
  intros [_ Hl]. destruct (nth_in_or_default i l 0) as [Hin| ->]; [|done].
  rewrite Forall_forall in Hl. apply Hl. by apply list_elem_of_In.
Qed.
#[export] Hint Resolve limbs_ok_zeros limbs_ok_app limbs_ok_take limbs_ok_drop nth_limb_ok : uacrypt.

(** The value of an array split at limb [i]. *)
Lemma limbs_val_split i n l : limbs_ok n l → (i ≤ n)%nat →
  limbs_val l = limbs_val (take i l) + 2 ^ (64 * i) * limbs_val (drop i l).
Proof. intros [<- _] Hi. rewrite <- (take_drop i l) at 1. rewrite limbs_val_app, length_take. do 3 f_equal. lia. Qed.

(** Two arrays of one length, by induction on both. *)
Lemma limbs_ok_cons_inv n w l : limbs_ok n (w :: l) → ∃ m, n = S m ∧ u64_ok w ∧ limbs_ok m l.
Proof. intros [<- H]. apply Forall_cons in H as [Hw Hl]. by exists (length l). Qed.

Ltac limbs_step H := apply limbs_ok_cons_inv in H as (?m & ? & ? & H); simplify_eq.

Lemma pow_limbs_S (n : nat) : 2 ^ (64 * S n) = 2 ^ 64 * 2 ^ (64 * n).
Proof. rewrite <- Z.pow_add_r by lia. f_equal. lia. Qed.

Lemma adc_loop_val n a b c r c' : limbs_ok n a → limbs_ok n b → bit_ok c → adc_loop a b c = (r, c') →
  limbs_ok n r ∧ bit_ok c' ∧ limbs_val r + 2 ^ (64 * n) * c' = limbs_val a + limbs_val b + c.
Proof.
  revert n b c r c'. induction a as [|x a IH]; intros n [|y b] c r c' Ha Hb Hc E; cbn [adc_loop] in E.
  - injection E as <- <-. destruct Ha as [<- _]. split_and!; [done..|]. cbn [limbs_val length]. lia.
  - destruct Ha as [<- _], Hb as [Hb _]. done.
  - destruct Hb as [<- _], Ha as [Ha _]. done.
  - limbs_step Ha. limbs_step Hb. destruct (adc x y c) as [s c1] eqn:E1, (adc_loop a b c1) as [r1 c2] eqn:E2. injection E as <- <-.
    apply adc_val in E1 as (Hs & Hc1 & E1); [|done..]. destruct (IH _ _ _ _ _ Ha Hb Hc1 E2) as (Hr & Hc2 & E3).
    split; [by apply limbs_ok_cons|]. split; [done|]. rewrite pow_limbs_S. cbn [limbs_val]. lia.
Qed.

Lemma sbb_loop_val n a b c r c' : limbs_ok n a → limbs_ok n b → bit_ok c → sbb_loop a b c = (r, c') →
  limbs_ok n r ∧ bit_ok c' ∧ limbs_val r = limbs_val a - limbs_val b - c + 2 ^ (64 * n) * c'.
Proof.
  revert n b c r c'. induction a as [|x a IH]; intros n [|y b] c r c' Ha Hb Hc E; cbn [sbb_loop] in E.
  - injection E as <- <-. destruct Ha as [<- _]. split_and!; [done..|]. cbn [limbs_val length]. lia.
  - destruct Ha as [<- _], Hb as [Hb _]. done.
  - destruct Hb as [<- _], Ha as [Ha _]. done.
  - limbs_step Ha. limbs_step Hb. destruct (sbb x y c) as [s c1] eqn:E1, (sbb_loop a b c1) as [r1 c2] eqn:E2. injection E as <- <-.
    apply sbb_val in E1 as (Hs & Hc1 & E1); [|done..]. destruct (IH _ _ _ _ _ Ha Hb Hc1 E2) as (Hr & Hc2 & E3).
    split; [by apply limbs_ok_cons|]. split; [done|]. rewrite pow_limbs_S. cbn [limbs_val]. lia.
Qed.

Lemma mac_loop_val n r a x c r' c' : limbs_ok n r → limbs_ok n a → u64_ok x → u64_ok c → mac_loop r a x c = (r', c') →
  limbs_ok n r' ∧ u64_ok c' ∧ limbs_val r' + 2 ^ (64 * n) * c' = limbs_val r + limbs_val a * x + c.
Proof.
  intros Hr Ha Hx. revert n a c r' c' Hr Ha. induction r as [|w r IH]; intros n [|y a] c r' c' Hr Ha Hc E; cbn [mac_loop] in E.
  - injection E as <- <-. destruct Ha as [<- _]. split_and!; [done..|]. cbn [limbs_val length]. lia.
  - destruct Ha as [<- _], Hr as [Hr _]. done.
  - destruct Hr as [<- _], Ha as [Ha _]. done.
  - limbs_step Hr. limbs_step Ha. destruct (mac w y x c) as [s c1] eqn:E1, (mac_loop r a x c1) as [r1 c2] eqn:E2. injection E as <- <-.
    apply mac_val in E1 as (Hs & Hc1 & E1); [|done..]. destruct (IH _ _ _ _ _ Hr Ha Hc1 E2) as (Hr1 & Hc2 & E3).
    split; [by apply limbs_ok_cons|]. split; [done|]. rewrite pow_limbs_S. cbn [limbs_val]. lia.
Qed.

Lemma carry_loop_val n r c r' c' : limbs_ok n r → u64_ok c → carry_loop r c = (r', c') →
  limbs_ok n r' ∧ u64_ok c' ∧ limbs_val r' + 2 ^ (64 * n) * c' = limbs_val r + c.
Proof.
  revert n c r' c'. induction r as [|w r IH]; intros n c r' c' Hr Hc E; cbn [carry_loop] in E.
  - injection E as <- <-. destruct Hr as [<- _]. split_and!; [done..|]. cbn [limbs_val length]. lia.
  - limbs_step Hr. destruct (adc w c 0) as [s c1] eqn:E1, (carry_loop r c1) as [r1 c2] eqn:E2. injection E as <- <-.
    apply adc_val in E1 as (Hs & Hc1 & E1); [|done..]. destruct (IH m c1 r1 c2 Hr ltac:(unfold word_ok, bit_ok in *; lia) E2) as (Hr1 & Hc2 & E3).
    split; [by apply limbs_ok_cons|]. split; [done|]. rewrite pow_limbs_S. cbn [limbs_val]. lia.
Qed.

(** ** Masks *)

Lemma mask_select_spec n bit a b : limbs_ok n a → limbs_ok n b → bit_ok bit →
  mask_select (wrapping_sub 64 0 bit) a b = if Z.eqb bit 1 then a else b.
Proof.
  intros [<- Ha] [Hlen Hb] Hbit. assert (bit = 0 ∨ bit = 1) as Hc by (unfold bit_ok in Hbit; lia).
  revert b Hlen Hb. induction Ha as [|x a Hx Ha IH]; intros [|y b]; cbn [length]; try done; [by destruct Hc as [-> | ->]|].
  intros [= Hlen] Hb. apply Forall_cons in Hb as [Hy Hb]. specialize (IH b Hlen Hb). unfold mask_select in *. cbn [zip_with]. rewrite IH.
  destruct Hc as [-> | ->].
  - change (wrapping_sub 64 0 0) with 0. change (bit_not 64 0) with (Z.ones 64). rewrite Z.land_0_r, Z.land_ones, Z.mod_small by (done || lia). done.
  - change (wrapping_sub 64 0 1) with (Z.ones 64). change (bit_not 64 (Z.ones 64)) with 0. rewrite Z.land_0_r, Z.land_ones, Z.mod_small by (done || lia). by rewrite Z.lor_0_r.
Qed.

Lemma mask_select_ok n bit a b : limbs_ok n a → limbs_ok n b → bit_ok bit → limbs_ok n (mask_select (wrapping_sub 64 0 bit) a b).
Proof. intros Ha Hb Hbit. rewrite (mask_select_spec n) by done. by destruct (Z.eqb bit 1). Qed.

(** ** Bytes *)

Lemma limbs_val_le_bytes l : Forall u64_ok l → from_le_bytes (concat (map (to_le_bytes 8) l)) = limbs_val l.
Proof.
  induction 1 as [|w l Hw Hl IH]; [done|]. cbn [map concat limbs_val].
  by rewrite from_le_bytes_app, length_to_le_bytes, from_to_le_bytes_id, IH.
Qed.

Lemma limbs_ok_from_be n bytes : array_ok (8 * n) bytes → limbs_ok n (limbs_from_be n bytes).
Proof.
  intros [Hlen Hb]. split; [by unfold limbs_from_be; rewrite length_reverse, length_map, length_seq|].
  apply Forall_reverse, Forall_fmap, Forall_forall. intros i Hi. apply elem_of_seq in Hi. cbn [compose].
  pose proof (from_le_bytes_bound (reverse (slice (i * 8) (i * 8 + 8) bytes))) as Hw. rewrite length_reverse in Hw. unfold slice in *.
  rewrite length_take, length_drop, Hlen in Hw. replace (8 * _) with 64 in Hw by lia. apply Hw.
  by apply Forall_reverse, Forall_take, Forall_drop.
Qed.

Lemma limbs_val_from_be n bytes : array_ok (8 * n) bytes → limbs_val (limbs_from_be n bytes) = from_be_bytes bytes.
Proof.
  revert bytes. induction n as [|n IH]; intros bytes Hb.
  - destruct Hb as [Hl _]. by destruct bytes.
  - unfold limbs_from_be. rewrite seq_S, map_app, reverse_app. cbn [map reverse rev_append app limbs_val Nat.add].
    trans (from_be_bytes (take (n * 8) bytes ++ drop (n * 8) bytes)); [|by rewrite take_drop]. rewrite from_be_bytes_app. destruct Hb as [Hl Hb]. rewrite length_drop.
    replace (length bytes - n * 8)%nat with 8%nat by lia. rewrite <- (IH (take (n * 8) bytes)).
    2: { split; [rewrite length_take; lia|by apply Forall_take]. }
    f_equal; [|f_equal].
    + f_equal. unfold slice. apply take_ge. rewrite length_drop. lia.
    + unfold limbs_from_be. do 2 f_equal. apply map_ext_in. intros i Hi. apply in_seq in Hi. f_equal. unfold slice.
      rewrite !take_drop_commute, take_take. do 2 f_equal. lia.
Qed.

Lemma limbs_to_be_spec n l : limbs_ok n l → limbs_to_be n l = to_be_bytes (8 * n) (limbs_val l).
Proof.
  intros [<- Hl]. unfold limbs_to_be, to_be_bytes at 2. rewrite <- (limbs_val_le_bytes l) by done.
  assert (map (λ i, to_be_bytes 8 (l.[length l - 1 - i])) (seq 0 (length l)) = map (to_be_bytes 8) (reverse l)) as ->.
  { apply list_eq. intros i. change (map ?f ?k) with (f <$> k). rewrite !list_lookup_fmap. destruct (decide (i < length l)%nat) as [Hi|Hi].
    - rewrite lookup_seq_lt, reverse_lookup by lia. cbn. rewrite nth_lookup. replace (length l - 1 - i)%nat with (length l - S i)%nat by lia.
      by destruct (lookup_lt_is_Some_2 l (length l - S i)) as [x ->]; [lia|].
    - rewrite lookup_seq_ge, lookup_ge_None_2 by (rewrite ?length_reverse; lia). done. }
  assert (length (concat (map (to_le_bytes 8) l)) = (8 * length l)%nat) as Hc.
  { clear. induction l as [|w l IH]; [done|]. cbn [map concat]. rewrite length_app, length_to_le_bytes, IH. simpl. lia. }
  rewrite <- Hc, to_from_le_bytes.
  - clear. induction l as [|w l IH]; [done|]. rewrite reverse_cons, map_app, concat_app, IH. cbn [map concat]. by rewrite app_nil_r, reverse_app.
  - clear. induction l as [|w l IH]; [constructor|]. cbn [map concat]. apply Forall_app. split; [apply to_le_bytes_ok|done].
Qed.

Lemma limbs_to_from_be n l : limbs_ok n l → limbs_from_be n (limbs_to_be n l) = l.
Proof.
  intros Hl. rewrite limbs_to_be_spec by done. pose proof (to_be_bytes_ok (8 * n) (limbs_val l)) as Hb.
  apply (limbs_val_inj n); [by apply limbs_ok_from_be|done|]. rewrite limbs_val_from_be by done.
  apply from_to_be_bytes. pose proof (limbs_val_bound n l Hl). unfold word_ok. replace (8 * (8 * n)%nat) with (64 * n) by lia. done.
Qed.

Lemma limbs_from_to_be n bytes : array_ok (8 * n) bytes → limbs_to_be n (limbs_from_be n bytes) = bytes.
Proof.
  intros Hb. rewrite limbs_to_be_spec, limbs_val_from_be by (done || by apply limbs_ok_from_be).
  destruct Hb as [<- Hb]. by apply to_from_be_bytes.
Qed.
