(* ===== verification/Modular.v ===== *)
(** Arithmetic modulo an integer, for the prime-field and scalar code: congruence as a setoid, Fermat's
    little theorem, and Pocklington's criterion with the certificates of the field primes. *)

From Stdlib Require ZmodInv.
From Bignums Require Import BigN.
From S2P Require Import Prelude.

(** ** Congruence *)

Definition congr (p a b : Z) : Prop := (p | a - b).
Notation "a ≡[ p ] b" := (congr p a b) (at level 70, format "a  ≡[ p ]  b", no associativity) : uacrypt_scope.

#[global] Instance congr_equiv p : Equivalence (congr p).
Proof.
  unfold congr. split.
  - intros a. rewrite Z.sub_diag. apply Z.divide_0_r.
  - intros a b H. replace (b - a) with (- (a - b)) by lia. by apply Z.divide_opp_r.
  - intros a b c H H'. replace (a - c) with (a - b + (b - c)) by lia. by apply Z.divide_add_r.
Qed.

#[global] Instance congr_add p : Proper (congr p ==> congr p ==> congr p) Z.add.
Proof. intros a b H c d H'. unfold congr in *. replace (a + c - (b + d)) with (a - b + (c - d)) by lia. by apply Z.divide_add_r. Qed.

#[global] Instance congr_opp p : Proper (congr p ==> congr p) Z.opp.
Proof. intros a b H. unfold congr in *. replace (- a - - b) with (- (a - b)) by lia. by apply Z.divide_opp_r. Qed.

#[global] Instance congr_sub p : Proper (congr p ==> congr p ==> congr p) Z.sub.
Proof. intros a b H c d H'. rewrite <- !Z.add_opp_r. by rewrite H, H'. Qed.

#[global] Instance congr_mul p : Proper (congr p ==> congr p ==> congr p) Z.mul.
Proof.
  intros a b H c d H'. unfold congr in *. replace (a * c - b * d) with ((a - b) * c + b * (c - d)) by lia.
  apply Z.divide_add_r; [by apply Z.divide_mul_l|by apply Z.divide_mul_r].
Qed.

Lemma congr_pow_nat p a b (n : nat) : a ≡[p] b → a ^ n ≡[p] b ^ n.
Proof.
  intros H. induction n as [|n IH]; [done|]. rewrite Nat2Z.inj_succ, !Z.pow_succ_r by lia. by apply congr_mul.
Qed.

#[global] Instance congr_pow p : Proper (congr p ==> eq ==> congr p) Z.pow.
Proof.
  intros a b H n _ <-. destruct (decide (0 ≤ n)); [|by rewrite !Z.pow_neg_r by lia].
  rewrite <- (Z2Nat.id n) by done. by apply congr_pow_nat.
Qed.

Lemma congr_iff p a b : p ≠ 0 → a ≡[p] b ↔ a mod p = b mod p.
Proof.
  intros Hp. unfold congr. split.
  - intros [k H]. replace a with (b + k * p) by lia. by apply Z.mod_add.
  - intros H. apply Z.mod_divide; [done|]. by rewrite Zminus_mod, H, Z.sub_diag, Z.mod_0_l.
Qed.

(** A multiple of the modulus more or less. *)
Lemma congr_add_multiple p a k : a + p * k ≡[p] a.
Proof. exists k. lia. Qed.

Lemma congr_mod p a : a mod p ≡[p] a.
Proof.
  destruct (decide (p = 0)) as [->|Hp]; [by rewrite Z.mod_0_r|]. apply congr_iff; [done|]. by apply Z.mod_mod.
Qed.

Lemma congr_0 p a : a ≡[p] 0 ↔ (p | a).
Proof. unfold congr. by rewrite Z.sub_0_r. Qed.

Lemma congr_small p a b : 0 ≤ a < p → 0 ≤ b < p → a ≡[p] b → a = b.
Proof. intros Ha Hb H. apply congr_iff in H; [|lia]. by rewrite !Z.mod_small in H. Qed.

Lemma congr_mod_eq p a b : 0 ≤ b < p → a ≡[p] b → a mod p = b.
Proof. intros Hb H. apply congr_iff in H; [|lia]. by rewrite H, Z.mod_small. Qed.

Lemma congr_dvd p q a b : (p | q) → a ≡[q] b → a ≡[p] b.
Proof. unfold congr. intros. by etrans. Qed.

(** A factor prime to the modulus cancels. *)
Lemma congr_cancel p k a b : Z.coprime p k → k * a ≡[p] k * b → a ≡[p] b.
Proof. unfold congr. intros Hk H. rewrite <- Z.mul_sub_distr_l in H. by apply (Z.gauss _ k). Qed.

(** ** Prime moduli *)

Lemma prime_mul_zero p a b : Z.prime p → a * b ≡[p] 0 → a ≡[p] 0 ∨ b ≡[p] 0.
Proof. intros Hp H. rewrite !congr_0 in *. by apply Z.divide_prime_mul. Qed.

Lemma prime_pow_zero p a k : Z.prime p → 0 ≤ k → a ^ k ≡[p] 0 → a ≡[p] 0.
Proof.
  intros Hp Hk. revert k Hk. apply (natlike_ind (λ k, a ^ k ≡[p] 0 → a ≡[p] 0)).
  - pose proof (Z.prime_ge_2 _ Hp). rewrite Z.pow_0_r. intros E. apply (congr_small p) in E; lia.
  - intros k Hk IH. rewrite Z.pow_succ_r by done. intros E. apply prime_mul_zero in E as [?|?]; auto.
Qed.

Lemma fermat_little p a : Z.prime p → ¬ a ≡[p] 0 → a ^ (p - 1) ≡[p] 1.
Proof.
  intros Hp Ha. pose proof (Z.prime_ge_2 _ Hp). apply congr_iff; [lia|]. rewrite (Z.mod_small 1) by lia.
  apply ZmodInv.Z.fermat_nz; [done|]. intros E. apply Ha. apply congr_iff; [lia|]. by rewrite Z.mod_0_l by lia.
Qed.

(** The square roots of one. *)
Lemma sqrt_one p a : Z.prime p → a * a ≡[p] 1 → a ≡[p] 1 ∨ a ≡[p] -1.
Proof.
  intros Hp H. destruct (prime_mul_zero p (a - 1) (a + 1)) as [E|E]; [done|..].
  - replace ((a - 1) * (a + 1)) with (a * a - 1) by lia. by rewrite H.
  - left. replace a with (a - 1 + 1) by lia. by rewrite E.
  - right. replace a with (a + 1 - 1) by lia. by rewrite E.
Qed.

(** ** Pocklington's criterion *)

(** The exponents at which [b] is one are closed under the greatest common divisor. *)
Lemma pow_coprime_one p b m n : 0 < m → 0 < n → Z.coprime m n → b ^ m ≡[p] 1 → b ^ n ≡[p] 1 → b ≡[p] 1.
Proof.
  intros Hm Hn Hc E1 E2. apply Z.Bezout_coprime_iff in Hc as (u & v & H).
  assert (∀ k e, 0 ≤ k → 0 < e → b ^ e ≡[p] 1 → b ^ (k * e) ≡[p] 1) as Hpow.
  { intros k e Hk He E. rewrite Z.mul_comm, Z.pow_mul_r, E, Z.pow_1_l by lia. done. }
  set (t := Z.abs u + Z.abs v). assert (0 ≤ u + t ∧ 0 ≤ t - v ∧ 0 ≤ t) as (Hu & Hv & Ht) by lia.
  assert (t ≤ t * n ∧ t ≤ t * m) as [Htn Htm] by (clear -Hm Hn Ht; nia). clearbody t.
  assert (b ^ ((u + t * n) * m) ≡[p] 1) as F1 by (apply Hpow; [lia|lia|done]).
  assert (b ^ ((t * m - v) * n) ≡[p] 1) as F2 by (apply Hpow; [lia|lia|done]).
  replace ((u + t * n) * m) with (1 + (t * m - v) * n) in F1 by lia.
  rewrite Z.pow_add_r, F2, Z.pow_1_r, Z.mul_1_r in F1; [done|lia|]. apply Z.mul_nonneg_nonneg; lia.
Qed.

(** [q] divides [r - 1] for every prime divisor [r] of [n], by a witness [a]. *)
Lemma pocklington_factor n q a r :
  Z.prime q → (q | n - 1) → 1 < n → a ^ (n - 1) ≡[n] 1 → Z.coprime (a ^ ((n - 1) / q) - 1) n →
  Z.prime r → (r | n) → (q | r - 1).
Proof.
  intros Hq [k Hk] Hn E Hc Hr Hd. pose proof (Z.prime_ge_2 _ Hq). pose proof (Z.prime_ge_2 _ Hr).
  assert (0 < k) by nia. rewrite Hk, Z.div_mul in Hc by lia.
  assert (a ^ k ≡[r] 1 → False) as Hne.
  { intros E'. assert ((r | 1)) as Hr1; [|apply Z.divide_1_r_nonneg in Hr1; lia].
    unfold Z.coprime in Hc. rewrite <- Hc. by apply Z.gcd_greatest. }
  destruct (decide ((r - 1) mod q = 0)) as [Hz|Hz]; [apply Z.mod_divide; [lia|done]|]. exfalso. apply Hne.
  apply (congr_dvd r n) in E; [|done].
  apply (pow_coprime_one r _ q (r - 1)); [lia|lia| |..].
  - apply Z.coprime_prime_l; [done|]. intros Hqd. apply Hz. by apply Z.mod_divide; [lia|].
  - rewrite <- Z.pow_mul_r by lia. by rewrite <- Hk.
  - apply fermat_little; [done|]. intros E0.
    apply prime_pow_zero in E0; [|done|lia]. rewrite E0, Z.pow_0_l in E by lia. apply (congr_small r) in E; lia.
Qed.

(** Distinct primes that divide a number: so does their product. *)
Lemma product_divide (qs : list Z) x : NoDup qs → Forall Z.prime qs → Forall (λ q, (q | x)) qs → (foldr Z.mul 1 qs | x).
Proof.
  induction qs as [|q qs IH]; intros Hnd Hp Hd; cbn [foldr]; [apply Z.divide_1_l|].
  apply NoDup_cons in Hnd as [Hq Hnd]. apply Forall_cons in Hp as [Hpq Hp]. apply Forall_cons in Hd as [[k ->] Hd].
  specialize (IH Hnd Hp Hd). rewrite Z.mul_comm. apply Z.mul_divide_mono_r. rewrite Z.mul_comm in IH. apply Z.gauss in IH; [done|].
  clear IH Hnd Hd. induction qs as [|s qs IH]; [by apply Z.gcd_1_l|]. apply not_elem_of_cons in Hq as [Hs Hq]. apply Forall_cons in Hp as [Hps Hp].
  apply Z.coprime_mul_l; [|by apply IH]. apply Z.coprime_prime_l; [done|]. intros Hd. apply Z.divide_prime_prime in Hd; [lia|done..].
Qed.

Lemma prime_divisor d : 1 < d → ∃ r, Z.prime r ∧ (r | d).
Proof.
  intros Hd. assert (∀ k : nat, ∀ d, 1 < d → d ≤ k → ∃ r, Z.prime r ∧ (r | d)) as H; [|by apply (H (Z.to_nat d)); lia].
  clear d Hd. induction k as [|k IH]; intros d Hd Hk; [lia|].
  destruct (decide (Exists (λ e, d mod e = 0) (seqZ 2 (d - 2)))) as [He|He].
  - apply Exists_exists in He as (e & He & Hz). apply elem_of_seqZ in He. apply Z.mod_divide in Hz; [|lia].
    destruct (IH e) as (r & Hr & Hre); [lia|lia|]. exists r. split; [done|by etrans].
  - exists d. split; [|done]. split; [done|]. intros e Hed Hdiv. apply He. apply Exists_exists. exists e.
    split; [apply elem_of_seqZ; lia|]. by apply Z.mod_divide; [lia|].
Qed.

(** A number without a prime divisor up to its square root is prime. *)
Lemma prime_by_divisors n : 1 < n → (∀ r, Z.prime r → (r | n) → n < r * r) → Z.prime n.
Proof.
  intros Hn H. split; [done|]. intros m Hm [k Hk].
  assert (1 < k) by nia. destruct (prime_divisor (Z.min m k)) as (r & Hr & Hd); [lia|].
  assert ((r | n)) as Hrn.
  { rewrite Hk. destruct (Z.min_spec m k) as [[_ E]|[_ E]]; rewrite E in Hd; [by apply Z.divide_mul_r|by apply Z.divide_mul_l]. }
  specialize (H r Hr Hrn). apply Z.divide_pos_le in Hd; [|lia]. pose proof (Z.prime_ge_2 _ Hr). nia.
Qed.

(** [a ^ e mod n] with one reduction for each bit of the exponent, on machine words. *)
Fixpoint pow_mod_big (a n : BigN.t) (e : positive) : BigN.t :=
  match e with
  | xH => BigN.modulo a n
  | xO e => let r := pow_mod_big a n e in BigN.modulo (BigN.mul r r) n
  | xI e => let r := pow_mod_big a n e in BigN.modulo (BigN.mul a (BigN.mul r r)) n
  end.

Definition big (z : Z) : BigN.t := BigN.of_N (Z.to_N z).
Definition pow_check (a n : Z) (e : positive) : Z := BigN.to_Z (pow_mod_big (big a) (big n) e).

Lemma spec_big z : 0 ≤ z → BigN.to_Z (big z) = z.
Proof. intros Hz. unfold big. by rewrite BigN.spec_of_N, Z2N.id. Qed.

Lemma pow_check_spec a n e : 0 ≤ a → 0 ≤ n → pow_check a n e ≡[n] a ^ Zpos e.
Proof.
  intros Ha Hn. unfold pow_check.
  induction e as [e IH|e IH|]; cbn [pow_mod_big]; rewrite BigN.spec_modulo, (spec_big n), congr_mod, ?BigN.spec_mul by done.
  - rewrite Pos2Z.inj_xI, Z.pow_add_r, (Z.mul_comm 2), Z.pow_mul_r, Z.pow_2_r, Z.pow_1_r, IH, (spec_big a) by lia. by rewrite Z.mul_comm.
  - rewrite Pos2Z.inj_xO, (Z.mul_comm 2), Z.pow_mul_r, Z.pow_2_r, IH by lia. done.
  - by rewrite Z.pow_1_r, spec_big.
Qed.

(** A certificate: a base [a], and distinct primes that divide [n - 1]. *)
Definition pocklington_check (n a : Z) (qs : list Z) : bool :=
  (0 <=? a) && (1 <? n) && (n <? (foldr Z.mul 1 qs + 1) ^ 2) && bool_decide (NoDup qs) && (pow_check a n (Z.to_pos (n - 1)) =? 1) &&
  forallb (λ q, ((n - 1) mod q =? 0) && (1 <? (n - 1) / q) && (Z.gcd (pow_check a n (Z.to_pos ((n - 1) / q)) - 1) n =? 1)) qs.

Lemma pocklington n a qs : pocklington_check n a qs = true → Forall Z.prime qs → Z.prime n.
Proof.
  unfold pocklington_check. rewrite !andb_true_iff, bool_decide_eq_true, Z.eqb_eq, !Z.ltb_lt, Z.leb_le, forallb_forall.
  intros [[[[[Ha Hn] Hf] Hnd] H1] Hc] Hp. apply prime_by_divisors; [done|]. intros r Hr Hd.
  assert (a ^ (n - 1) ≡[n] 1) as E.
  { pose proof (pow_check_spec a n (Z.to_pos (n - 1)) Ha ltac:(lia)) as E. by rewrite Z2Pos.id, H1 in E by lia. }
  assert ((foldr Z.mul 1 qs | r - 1)) as Hdiv.
  { apply product_divide; [done..|]. rewrite Forall_forall in Hp |- *. intros q Hq. specialize (Hp _ Hq). pose proof (Z.prime_ge_2 _ Hp).
    apply list_elem_of_In in Hq. specialize (Hc _ Hq). rewrite !andb_true_iff, !Z.eqb_eq, Z.ltb_lt in Hc. destruct Hc as [[H2 H3] H4].
    apply (pocklington_factor n q a r); [done| |done|done| |done|done]; [by apply Z.mod_divide; [lia|]|].
    pose proof (pow_check_spec a n (Z.to_pos ((n - 1) / q)) Ha ltac:(lia)) as E'. rewrite Z2Pos.id in E' by lia.
    unfold Z.coprime. etrans; [|exact H4]. rewrite <- Z.gcd_mod_l, <- (Z.gcd_mod_l (pow_check _ _ _ - 1)).
    assert (∀ x y, x ≡[n] y → Z.gcd (x mod n) n = Z.gcd (y mod n) n) as Hg by (intros x y Hxy; apply congr_iff in Hxy; [by rewrite Hxy|lia]).
    apply Hg. by rewrite E'. }
  apply Z.divide_pos_le in Hdiv; [|pose proof (Z.prime_ge_2 _ Hr); lia].
  assert (0 ≤ foldr Z.mul 1 qs) as H0.
  { clear -Hp. induction Hp as [|q l Hq Hl IH]; cbn [foldr]; [done|]. pose proof (Z.prime_ge_2 _ Hq). nia. }
  rewrite Z.pow_2_r in Hf. nia.
Qed.

(** Trial division, for the small primes of the certificates. *)
Definition trial_check (n : Z) : bool :=
  (1 <? n) && (n <? 1000 * 1000) && forallb (λ d, negb (n mod d =? 0) || (n <? d * d)) (seqZ 2 999).

Lemma trial n : trial_check n = true → Z.prime n.
Proof.
  unfold trial_check. rewrite !andb_true_iff. intros [[Hn Hb] Hf]. apply Z.ltb_lt in Hn, Hb. rewrite forallb_forall in Hf.
  apply prime_by_divisors; [done|]. intros r Hr Hd. pose proof (Z.prime_ge_2 _ Hr).
  destruct (decide (r ≤ 1000)) as [Hle|Hle]; [|nia].
  specialize (Hf r). rewrite orb_true_iff, negb_true_iff, Z.eqb_neq, Z.ltb_lt in Hf.
  destruct Hf as [Hf|Hf]; [apply list_elem_of_In, elem_of_seqZ; lia| |done]. apply Z.mod_divide in Hd; [done|lia].
Qed.

(** Proves [Z.prime n] from a certificate, up to the primality of its primes; and of a small number outright. *)
Ltac certify a qs := apply (pocklington _ a qs); [vm_compute; reflexivity|]; repeat apply Forall_cons_2; [..|apply Forall_nil_2].
Ltac small_prime := apply trial; vm_compute; reflexivity.

(** A number that a prime does not divide is a unit modulo the prime. *)
Lemma prime_bezout (n k : nat) : Z.prime n → (n | k)%Z ∨ ∃ u v, (u * k = 1 + v * n)%nat.
Proof.
  intros Hn. pose proof (Z.prime_ge_2 _ Hn). destruct (decide (k mod n = 0)%Z) as [E|E]; [left; apply Z.mod_divide; [lia|done]|right].
  assert (¬ (n | k)%Z) as Hd by (intros Hd; apply E, Z.mod_divide; [lia|done]). assert (k ≠ O) as Hk0 by (intros ->; apply Hd, Z.divide_0_r).
  assert (Nat.gcd k n = 1%nat) as Hg.
  { apply Nat2Z.inj, Z.divide_1_r_nonneg; [lia|]. rewrite <- (Z.coprime_prime_l n k Hn Hd).
    apply Z.gcd_greatest; apply Nat2Z.divide; [apply Nat.gcd_divide_r|apply Nat.gcd_divide_l]. }
  destruct (Nat.gcd_bezout_pos k n) as (u & v & Huv); [lia|]. rewrite Hg in Huv. by exists u, v.
Qed.
