(* ===== verification/Primes.v ===== *)
(** The field orders of the curves of DSTU 9041 and the base-point orders of those and of DSTU 4145 are prime: chains of Pocklington
    certificates. *)

From S2P Require Import Prelude Modular.

Lemma prime_256 : Z.prime (2 ^ 256 - 435).
Proof.
  certify 2 [355736065245211045848144347184909087106820229387528614560545572988980429].
  certify 2 [51229664085644375768993619505829381; 337134914195791].
  - certify 2 [89842862051; 36387422447].
    + certify 2 [1796857241].
      certify 2 [44921431].
      certify 2 [499127]; small_prime.
    + certify 2 [1227563].
      certify 2 [87683]; small_prime.
  - certify 2 [1171447; 504901].
    + certify 2 [195241]; small_prime.
    + small_prime.
Qed.

Lemma prime_384 : Z.prime (2 ^ 384 - 2147).
Proof.
  certify 2 [5859905740094360382551909592525820018601983829634956375364112641916377419913326979686833172945406847234775132407].
  certify 2 [924114143509722181359515137032218041868718773922870296658676363700019747330091466644278328251476453356051].
  certify 2 [8483334210614423822593726894055625928256815143003506065596469325247673].
  certify 2 [971695477238750977103379395111745743].
  certify 2 [37372902970721191427053053658144067].
  certify 2 [99354156549285697; 11883523801].
  - certify 2 [60003143; 48179].
    + certify 2 [30001571].
      certify 2 [587; 269]; small_prime.
    + small_prime.
  - certify 2 [99527; 199]; small_prime.
Qed.

Lemma order_256 : Z.prime (0x4000000000000000000000000000000029e26087789bc2815bdff97093543ccf).
Proof.
  certify 2 [5028770391064860313; 53490298861187; 6774983773].
  - certify 2 [643824684137].
    certify 2 [80478085517].
    certify 2 [20119521379].
    certify 2 [2801; 2531]; small_prime.
  - certify 2 [198439; 5623]; small_prime.
  - certify 2 [564581981].
    certify 2 [28229099].
    certify 2 [1301; 571]; small_prime.
Qed.

Lemma order_384 : Z.prime (0x4000000000000000000000000000000000000000000000000af905b73674ac7d4af38c53331dc208a517dcb3f340eecf).
Proof.
  certify 2 [434788717290974243651196916925196129923234231389681559866997094509472930376519609465449162983].
  certify 2 [3670610929489123893424301910072281536742153584682623101798367].
  certify 2 [540822492243906500587411; 2928993185655484494727].
  - certify 2 [710713; 14683; 12109]; small_prime.
  - certify 2 [1891368421; 51383987].
    + certify 2 [312107]; small_prime.
    + certify 2 [121763]; small_prime.
Qed.

Lemma order_163 : Z.prime 0x0400000000000000000002bec12be2262d39bcf14d.
Proof.
  certify 2 [41109625398653836890004466693].
  certify 2 [10277406349663459222501116673].
  certify 2 [329885965333; 34348562873].
  - certify 3 [3217; 59; 19]; small_prime.
  - certify 2 [43867; 7529]; small_prime.
Qed.


Lemma order_257 : Z.prime 0x800000000000000000000000000000006759213af182e987d3e17714907d470d.
Proof.
  certify 2 [2455946001863314668428232430801674874176837611033241216244607].
  certify 2 [1963334256910178705357325263034520780578941].
  certify 2 [517976953035926750558389].
  certify 2 [685154699782971892273].
  certify 2 [147442021117].
  certify 2 [8623; 2549]; small_prime.
Qed.


Lemma prime_163 : Z.prime 163.
Proof. small_prime. Qed.

Lemma prime_257 : Z.prime 257.
Proof. small_prime. Qed.
