(* ===== verification/Fp9041.v ===== *)
(** The prime fields of DSTU 9041 ([hazmat/dstu9041/fp256.rs], [fp384.rs], [fp512.rs]).  The three files
    hold one text at three widths, generated from one another; here the text is translated once, over
    [fp], the choice of a file, and the constants of each file are listed with their values.

    The modulus is [2^(64 n) - C] for a small [C].  A field element is its limbs; [fe_ok] is the invariant
    that the operations keep, and the theorems state their values modulo the prime. *)

From S2P Require Import Prelude Limb Modular Primes.

(** ** Constants *)

Definition P_LIMBS_256 : list Z :=
  [ 0xfffffffffffffe4d; 0xffffffffffffffff; 0xffffffffffffffff; 0xffffffffffffffff ].
Definition C_256 : Z := 435.
Definition P_MINUS_2_256 : list Z :=
  [ 0xff; 0xff; 0xff; 0xff; 0xff; 0xff; 0xff; 0xff; 0xff; 0xff; 0xff; 0xff; 0xff; 0xff; 0xff; 0xff;
    0xff; 0xff; 0xff; 0xff; 0xff; 0xff; 0xff; 0xff; 0xff; 0xff; 0xff; 0xff; 0xff; 0xff; 0xfe; 0x4b ].
Definition P_MINUS_1_OVER_2_256 : list Z :=
  [ 0x7f; 0xff; 0xff; 0xff; 0xff; 0xff; 0xff; 0xff; 0xff; 0xff; 0xff; 0xff; 0xff; 0xff; 0xff; 0xff;
    0xff; 0xff; 0xff; 0xff; 0xff; 0xff; 0xff; 0xff; 0xff; 0xff; 0xff; 0xff; 0xff; 0xff; 0xff; 0x26 ].
Definition P_MINUS_1_OVER_4_256 : list Z :=
  [ 0x3f; 0xff; 0xff; 0xff; 0xff; 0xff; 0xff; 0xff; 0xff; 0xff; 0xff; 0xff; 0xff; 0xff; 0xff; 0xff;
    0xff; 0xff; 0xff; 0xff; 0xff; 0xff; 0xff; 0xff; 0xff; 0xff; 0xff; 0xff; 0xff; 0xff; 0xff; 0x93 ].
Definition P_PLUS_3_OVER_8_256 : list Z :=
  [ 0x1f; 0xff; 0xff; 0xff; 0xff; 0xff; 0xff; 0xff; 0xff; 0xff; 0xff; 0xff; 0xff; 0xff; 0xff; 0xff;
    0xff; 0xff; 0xff; 0xff; 0xff; 0xff; 0xff; 0xff; 0xff; 0xff; 0xff; 0xff; 0xff; 0xff; 0xff; 0xca ].
Definition W_256 : list Z :=
  [ 0x74956adef6968654; 0xfdef5ba9f4c42b4b; 0x06b724d287da9d3a; 0xfa3a4105c178a375 ].

Definition P_LIMBS_384 : list Z :=
  [ 0xfffffffffffff79d; 0xffffffffffffffff; 0xffffffffffffffff; 0xffffffffffffffff;
    0xffffffffffffffff; 0xffffffffffffffff ].
Definition C_384 : Z := 2147.
Definition P_MINUS_2_384 : list Z :=
  [ 0xff; 0xff; 0xff; 0xff; 0xff; 0xff; 0xff; 0xff; 0xff; 0xff; 0xff; 0xff; 0xff; 0xff; 0xff; 0xff;
    0xff; 0xff; 0xff; 0xff; 0xff; 0xff; 0xff; 0xff; 0xff; 0xff; 0xff; 0xff; 0xff; 0xff; 0xff; 0xff;
    0xff; 0xff; 0xff; 0xff; 0xff; 0xff; 0xff; 0xff; 0xff; 0xff; 0xff; 0xff; 0xff; 0xff; 0xf7; 0x9b ].
Definition P_MINUS_1_OVER_2_384 : list Z :=
  [ 0x7f; 0xff; 0xff; 0xff; 0xff; 0xff; 0xff; 0xff; 0xff; 0xff; 0xff; 0xff; 0xff; 0xff; 0xff; 0xff;
    0xff; 0xff; 0xff; 0xff; 0xff; 0xff; 0xff; 0xff; 0xff; 0xff; 0xff; 0xff; 0xff; 0xff; 0xff; 0xff;
    0xff; 0xff; 0xff; 0xff; 0xff; 0xff; 0xff; 0xff; 0xff; 0xff; 0xff; 0xff; 0xff; 0xff; 0xfb; 0xce ].
Definition P_MINUS_1_OVER_4_384 : list Z :=
  [ 0x3f; 0xff; 0xff; 0xff; 0xff; 0xff; 0xff; 0xff; 0xff; 0xff; 0xff; 0xff; 0xff; 0xff; 0xff; 0xff;
    0xff; 0xff; 0xff; 0xff; 0xff; 0xff; 0xff; 0xff; 0xff; 0xff; 0xff; 0xff; 0xff; 0xff; 0xff; 0xff;
    0xff; 0xff; 0xff; 0xff; 0xff; 0xff; 0xff; 0xff; 0xff; 0xff; 0xff; 0xff; 0xff; 0xff; 0xfd; 0xe7 ].
Definition P_PLUS_3_OVER_8_384 : list Z :=
  [ 0x1f; 0xff; 0xff; 0xff; 0xff; 0xff; 0xff; 0xff; 0xff; 0xff; 0xff; 0xff; 0xff; 0xff; 0xff; 0xff;
    0xff; 0xff; 0xff; 0xff; 0xff; 0xff; 0xff; 0xff; 0xff; 0xff; 0xff; 0xff; 0xff; 0xff; 0xff; 0xff;
    0xff; 0xff; 0xff; 0xff; 0xff; 0xff; 0xff; 0xff; 0xff; 0xff; 0xff; 0xff; 0xff; 0xff; 0xfe; 0xf4 ].
Definition W_384 : list Z :=
  [ 0x7f1d389ee5cea1c1; 0xa5a0a33c2009f6b0; 0x5ed990ae67926d52; 0x2818ceca634ec925;
    0x87cfadda26368bff; 0xcf5f8268d23125be ].

Definition P_LIMBS_512 : list Z :=
  [ 0xfffffffffffffc95; 0xffffffffffffffff; 0xffffffffffffffff; 0xffffffffffffffff;
    0xffffffffffffffff; 0xffffffffffffffff; 0xffffffffffffffff; 0xffffffffffffffff ].
Definition C_512 : Z := 875.
Definition P_MINUS_2_512 : list Z :=
  [ 0xff; 0xff; 0xff; 0xff; 0xff; 0xff; 0xff; 0xff; 0xff; 0xff; 0xff; 0xff; 0xff; 0xff; 0xff; 0xff;
    0xff; 0xff; 0xff; 0xff; 0xff; 0xff; 0xff; 0xff; 0xff; 0xff; 0xff; 0xff; 0xff; 0xff; 0xff; 0xff;
    0xff; 0xff; 0xff; 0xff; 0xff; 0xff; 0xff; 0xff; 0xff; 0xff; 0xff; 0xff; 0xff; 0xff; 0xff; 0xff;
    0xff; 0xff; 0xff; 0xff; 0xff; 0xff; 0xff; 0xff; 0xff; 0xff; 0xff; 0xff; 0xff; 0xff; 0xfc; 0x93 ].
Definition P_MINUS_1_OVER_2_512 : list Z :=
  [ 0x7f; 0xff; 0xff; 0xff; 0xff; 0xff; 0xff; 0xff; 0xff; 0xff; 0xff; 0xff; 0xff; 0xff; 0xff; 0xff;
    0xff; 0xff; 0xff; 0xff; 0xff; 0xff; 0xff; 0xff; 0xff; 0xff; 0xff; 0xff; 0xff; 0xff; 0xff; 0xff;
    0xff; 0xff; 0xff; 0xff; 0xff; 0xff; 0xff; 0xff; 0xff; 0xff; 0xff; 0xff; 0xff; 0xff; 0xff; 0xff;
    0xff; 0xff; 0xff; 0xff; 0xff; 0xff; 0xff; 0xff; 0xff; 0xff; 0xff; 0xff; 0xff; 0xff; 0xfe; 0x4a ].
Definition P_MINUS_1_OVER_4_512 : list Z :=
  [ 0x3f; 0xff; 0xff; 0xff; 0xff; 0xff; 0xff; 0xff; 0xff; 0xff; 0xff; 0xff; 0xff; 0xff; 0xff; 0xff;
    0xff; 0xff; 0xff; 0xff; 0xff; 0xff; 0xff; 0xff; 0xff; 0xff; 0xff; 0xff; 0xff; 0xff; 0xff; 0xff;
    0xff; 0xff; 0xff; 0xff; 0xff; 0xff; 0xff; 0xff; 0xff; 0xff; 0xff; 0xff; 0xff; 0xff; 0xff; 0xff;
    0xff; 0xff; 0xff; 0xff; 0xff; 0xff; 0xff; 0xff; 0xff; 0xff; 0xff; 0xff; 0xff; 0xff; 0xff; 0x25 ].
Definition P_PLUS_3_OVER_8_512 : list Z :=
  [ 0x1f; 0xff; 0xff; 0xff; 0xff; 0xff; 0xff; 0xff; 0xff; 0xff; 0xff; 0xff; 0xff; 0xff; 0xff; 0xff;
    0xff; 0xff; 0xff; 0xff; 0xff; 0xff; 0xff; 0xff; 0xff; 0xff; 0xff; 0xff; 0xff; 0xff; 0xff; 0xff;
    0xff; 0xff; 0xff; 0xff; 0xff; 0xff; 0xff; 0xff; 0xff; 0xff; 0xff; 0xff; 0xff; 0xff; 0xff; 0xff;
    0xff; 0xff; 0xff; 0xff; 0xff; 0xff; 0xff; 0xff; 0xff; 0xff; 0xff; 0xff; 0xff; 0xff; 0xff; 0x93 ].
Definition W_512 : list Z :=
  [ 0x278be8fe8cba96e3; 0x04014fa539a5b43a; 0xbb8d8350be2041ab; 0xca1e4b1e98ebfdf4;
    0xc423a043a8bab910; 0xeae556fc1ea5d8f2; 0x12e6867995ac2a62; 0x658ddab5d2027479 ].
Inductive fp : Type := Fp256 | Fp384 | Fp512.

#[global] Instance fp_eq_dec : EqDecision fp.
Proof. solve_decision. Defined.

Definition width (F : fp) : nat := match F with Fp256 => 4 | Fp384 => 6 | Fp512 => 8 end.
Definition P_LIMBS (F : fp) : list Z := match F with Fp256 => P_LIMBS_256 | Fp384 => P_LIMBS_384 | Fp512 => P_LIMBS_512 end.
Definition C (F : fp) : Z := match F with Fp256 => C_256 | Fp384 => C_384 | Fp512 => C_512 end.
Definition P_MINUS_2 (F : fp) : list Z := match F with Fp256 => P_MINUS_2_256 | Fp384 => P_MINUS_2_384 | Fp512 => P_MINUS_2_512 end.
Definition P_MINUS_1_OVER_2 (F : fp) : list Z :=
  match F with Fp256 => P_MINUS_1_OVER_2_256 | Fp384 => P_MINUS_1_OVER_2_384 | Fp512 => P_MINUS_1_OVER_2_512 end.
Definition P_MINUS_1_OVER_4 (F : fp) : list Z :=
  match F with Fp256 => P_MINUS_1_OVER_4_256 | Fp384 => P_MINUS_1_OVER_4_384 | Fp512 => P_MINUS_1_OVER_4_512 end.
Definition P_PLUS_3_OVER_8 (F : fp) : list Z :=
  match F with Fp256 => P_PLUS_3_OVER_8_256 | Fp384 => P_PLUS_3_OVER_8_384 | Fp512 => P_PLUS_3_OVER_8_512 end.
Definition W (F : fp) : list Z := match F with Fp256 => W_256 | Fp384 => W_384 | Fp512 => W_512 end.

(** ** Limbs *)

Definition add_limbs (a b : list Z) : list Z * Z := adc_loop a b 0.

Definition conditional_sub_p (F : fp) (x : list Z) : list Z :=
  let '(t, borrow) := sbb_loop x (P_LIMBS F) 0 in
  let mask := wrapping_sub 64 0 (borrow ⊕ 1) in
  mask_select mask t x.

Definition mul_small (F : fp) (a : list Z) (c : Z) : list Z * Z := mac_loop (replicate (width F) 0) a c 0.

(** One row of the schoolbook product: [r] gains [a[i] * b] at limb [i]. *)
Definition wide_mul_row (F : fp) (b r : list Z) (i : nat) (ai : Z) : list Z :=
  let '(row, carry) := mac_loop (slice i (i + width F) r) b ai 0 in
  let '(top, _) := carry_loop (drop (i + width F) r) carry in
  take i r ++ row ++ top.

Definition wide_mul (F : fp) (a b : list Z) : list Z :=
  fold_enum (wide_mul_row F b) 0 (replicate (2 * width F) 0) a.

Definition reduce_wide (F : fp) (wide : list Z) : list Z :=
  let low := take (width F) wide in
  let high := drop (width F) wide in
  let '(hc, hc_top) := mul_small F high (C F) in
  let '(acc, carry) := add_limbs low hc in
  let overflow := wrapping_add 64 carry hc_top in
  let addition := wrap 64 (overflow * C F) in
  let '(acc2, carry2) := add_limbs acc (addition :: replicate (width F - 1) 0) in
  let addition2 := wrap 64 (carry2 * C F) in
  let '(acc3, _) := add_limbs acc2 (addition2 :: replicate (width F - 1) 0) in
  let r1 := conditional_sub_p F acc3 in
  let r2 := conditional_sub_p F r1 in
  let r3 := conditional_sub_p F r2 in
  r3.

(** ** Field elements *)

Definition fe_ZERO (F : fp) : list Z := replicate (width F) 0.
Definition fe_ONE (F : fp) : list Z := 1 :: replicate (width F - 1) 0.

Definition fe_from_be_bytes (F : fp) (bytes : list Z) : list Z := limbs_from_be (width F) bytes.
Definition fe_to_be_bytes (F : fp) (self : list Z) : list Z := limbs_to_be (width F) self.

Definition fe_add (F : fp) (self other : list Z) : list Z :=
  let '(r, carry) := add_limbs self other in
  let '(t, borrow) := sbb_loop r (P_LIMBS F) 0 in
  let take_t := Z.lor carry (borrow ⊕ 1) in
  let mask := wrapping_sub 64 0 take_t in
  mask_select mask t r.

Definition fe_sub (F : fp) (self other : list Z) : list Z :=
  let '(r, borrow) := sbb_loop self other 0 in
  let mask := wrapping_sub 64 0 borrow in
  let '(out, _) := sbb_loop r (Z.land (C F) mask :: replicate (width F - 1) 0) 0 in
  out.

Definition fe_multiply (F : fp) (self other : list Z) : list Z := reduce_wide F (wide_mul F self other).

Definition fe_square (F : fp) (self : list Z) : list Z := fe_multiply F self self.

Definition fe_select (bit : Z) (a b : list Z) : list Z :=
  let mask := wrapping_sub 64 0 bit in
  mask_select mask a b.

(** The body of the loop of [pow_mod], for one bit of a byte of the exponent. *)
Definition pow_step (F : fp) (self : list Z) (byte : Z) (result : list Z) (bit_idx : nat) : list Z :=
  let result := fe_square F result in
  let bit := Z.land (Z.shiftr byte bit_idx) 1 in
  let candidate := fe_multiply F result self in
  fe_select bit candidate result.

Definition fe_pow_mod (F : fp) (self exponent : list Z) : list Z :=
  foldl (λ result byte, foldl (pow_step F self byte) result (reverse (seq 0 8))) (fe_ONE F) exponent.

Definition fe_invert (F : fp) (self : list Z) : list Z := fe_pow_mod F self (P_MINUS_2 F).

Definition fe_euler_criterion (F : fp) (self : list Z) : bool := bool_decide (fe_pow_mod F self (P_MINUS_1_OVER_2 F) = fe_ONE F).

Definition p_minus_1 (F : fp) : list Z := match P_LIMBS F with w :: l => (w - 1) :: l | [] => [] end.

Definition fe_sqrt (F : fp) (self : list Z) : list Z :=
  let f := fe_pow_mod F self (P_MINUS_1_OVER_4 F) in
  let z := fe_pow_mod F self (P_PLUS_3_OVER_8 F) in
  let is_minus_one := Z.b2z (bool_decide (f = p_minus_1 F)) in
  let z_corrected := fe_multiply F (W F) z in
  fe_select is_minus_one z_corrected z.

Definition from_candidate_bytes (F : fp) (bytes : list Z) : option (list Z) :=
  let candidate := fe_from_be_bytes F bytes in
  let '(_, borrow) := sbb_loop candidate (P_LIMBS F) 0 in
  if Z.eqb borrow 1 then Some candidate else None.

(** ** Specification *)

(** The prime, and the values of field elements. *)
Definition p_of (F : fp) : Z := 2 ^ (64 * width F) - C F.

Definition fe_ok (F : fp) (e : list Z) : Prop := limbs_ok (width F) e ∧ limbs_val e < p_of F.
#[global] Instance fe_ok_dec F e : Decision (fe_ok F e).
Proof. unfold fe_ok. apply _. Defined.

(** [e] represents [v]. *)
Definition fe_is (F : fp) (e : list Z) (v : Z) : Prop := fe_ok F e ∧ limbs_val e ≡[p_of F] v.

Lemma P_LIMBS_ok F : limbs_ok (width F) (P_LIMBS F).
Proof. destruct F; by_decision. Qed.

Lemma P_LIMBS_val F : limbs_val (P_LIMBS F) = p_of F.
Proof. by destruct F. Qed.

Lemma C_small F : 0 < C F < 2 ^ 16.
Proof. by destruct F. Qed.

(** What [lia] needs about the two constants. *)
Lemma p_bounds F : 0 < C F < 2 ^ 16 ∧ p_of F = 2 ^ (64 * width F) - C F ∧ 2 ^ 256 ≤ 2 ^ (64 * width F).
Proof. split; [apply C_small|]. split; [done|]. destruct F; by apply Z.pow_le_mono_r. Qed.

Lemma width_pos F : (0 < width F)%nat.
Proof. destruct F; simpl; lia. Qed.

#[export] Hint Resolve P_LIMBS_ok : uacrypt.

(** An array with a single limb. *)
Lemma single_limb n w : (0 < n)%nat → u64_ok w → limbs_ok n (w :: replicate (n - 1) 0) ∧ limbs_val (w :: replicate (n - 1) 0) = w.
Proof.
  intros Hn Hw. split.
  - replace n with (S (n - 1)) at 1 by lia. by apply limbs_ok_cons; auto with uacrypt.
  - cbn [limbs_val]. rewrite limbs_val_zeros. lia.
Qed.

Lemma bit_flip b : bit_ok b → b ⊕ 1 = 1 - b ∧ bit_ok (b ⊕ 1).
Proof. unfold bit_ok. intros Hb. assert (b = 0 ∨ b = 1) as [-> | ->] by lia; vm_compute; intuition congruence. Qed.

Lemma bit_lor a b : bit_ok a → bit_ok b → bit_ok (Z.lor a b) ∧ (Z.lor a b = 0 ↔ a = 0 ∧ b = 0).
Proof. unfold bit_ok. intros Ha Hb. assert (a = 0 ∨ a = 1) as [-> | ->] by lia; assert (b = 0 ∨ b = 1) as [-> | ->] by lia; vm_compute; intuition congruence. Qed.

(** [x] minus the prime when that is not negative. *)
Lemma conditional_sub_p_spec F x : limbs_ok (width F) x →
  limbs_ok (width F) (conditional_sub_p F x) ∧
  limbs_val (conditional_sub_p F x) = if Z.ltb (limbs_val x) (p_of F) then limbs_val x else limbs_val x - p_of F.
Proof.
  intros Hx. unfold conditional_sub_p. destruct (sbb_loop x (P_LIMBS F) 0) as [t b] eqn:E.
  apply (sbb_loop_val (width F)) in E as (Ht & Hb & E); [|by auto with uacrypt..|done]. rewrite P_LIMBS_val in E.
  destruct (bit_flip b Hb) as [Hf Hf']. split; [by apply mask_select_ok|]. rewrite (mask_select_spec (width F)) by done. rewrite Hf.
  pose proof (limbs_val_bound _ _ Hx). pose proof (limbs_val_bound _ _ Ht). pose proof (p_bounds F). unfold bit_ok in Hb.
  set (V := 2 ^ (64 * width F)) in *. assert (b = 0 ∨ b = 1) as [-> | ->] by lia; simpl; destruct (Z.ltb_spec (limbs_val x) (p_of F)); lia.
Qed.

(** Below [2 p], this is the remainder. *)
Lemma conditional_sub_p_mod F x : limbs_ok (width F) x → fe_ok F (conditional_sub_p F x) ∧ limbs_val (conditional_sub_p F x) = limbs_val x mod p_of F.
Proof.
  intros Hx. destruct (conditional_sub_p_spec F x Hx) as [Hok Hv]. pose proof (limbs_val_bound _ _ Hx). pose proof (p_bounds F).
  unfold fe_ok. rewrite Hv. destruct (Z.ltb_spec (limbs_val x) (p_of F)).
  - rewrite Z.mod_small by lia. done.
  - rewrite <- (Z.mod_unique (limbs_val x) (p_of F) 1 (limbs_val x - p_of F)) by lia. split; [|done]. split; [done|lia].
Qed.

Lemma fe_ok_bound F e : fe_ok F e → 0 ≤ limbs_val e < p_of F.
Proof. intros [He Hp]. pose proof (limbs_val_bound _ _ He). lia. Qed.

Lemma fe_add_spec F a b : fe_ok F a → fe_ok F b → fe_ok F (fe_add F a b) ∧ limbs_val (fe_add F a b) = (limbs_val a + limbs_val b) mod p_of F.
Proof.
  intros Ha Hb. pose proof (fe_ok_bound _ _ Ha) as Va. pose proof (fe_ok_bound _ _ Hb) as Vb. destruct Ha as [Ha _], Hb as [Hb _].
  unfold fe_add, add_limbs. destruct (adc_loop a b 0) as [r c] eqn:E1, (sbb_loop r (P_LIMBS F) 0) as [t bw] eqn:E2.
  apply (adc_loop_val (width F)) in E1 as (Hr & Hc & E1); [|done..].
  apply (sbb_loop_val (width F)) in E2 as (Ht & Hbw & E2); [|by auto with uacrypt..|done]. rewrite P_LIMBS_val in E2.
  destruct (bit_flip bw Hbw) as [Hf Hf']. destruct (bit_lor c (bw ⊕ 1)) as [Hl Hl']; [done..|].
  pose proof (limbs_val_bound _ _ Hr) as Vr. pose proof (limbs_val_bound _ _ Ht) as Vt. pose proof (p_bounds F) as (HC & Hp & HV). unfold bit_ok in Hc, Hbw.
  rewrite (mask_select_spec (width F)) by done. unfold fe_ok. set (V := 2 ^ (64 * width F)) in *.
  assert ((c = 0 ∨ c = 1) ∧ (bw = 0 ∨ bw = 1)) as [Ec Eb] by lia.
  assert (∀ e, limbs_ok (width F) e → ∀ k, limbs_val a + limbs_val b = limbs_val e + k * p_of F → limbs_val e < p_of F →
    (limbs_ok (width F) e ∧ limbs_val e < p_of F) ∧ limbs_val e = (limbs_val a + limbs_val b) mod p_of F) as Hfin.
  { intros e He k Hk Hlt. split; [done|]. pose proof (limbs_val_bound _ _ He). rewrite Hk. symmetry. rewrite Z.mod_add by lia. apply Z.mod_small. lia. }
  destruct (Z.eqb_spec (Z.lor c (bw ⊕ 1)) 1) as [E|E].
  - apply (Hfin t Ht 1); destruct Ec as [-> | ->], Eb as [-> | ->]; simpl in E; lia.
  - assert (c = 0 ∧ bw = 1) as [-> ->] by (unfold bit_ok in Hl; lia). apply (Hfin r Hr 0); lia.
Qed.

Lemma fe_sub_spec F a b : fe_ok F a → fe_ok F b → fe_ok F (fe_sub F a b) ∧ limbs_val (fe_sub F a b) = (limbs_val a - limbs_val b) mod p_of F.
Proof.
  intros Ha Hb. pose proof (fe_ok_bound _ _ Ha) as Va. pose proof (fe_ok_bound _ _ Hb) as Vb. destruct Ha as [Ha _], Hb as [Hb _].
  unfold fe_sub. destruct (sbb_loop a b 0) as [r bw] eqn:E1. apply (sbb_loop_val (width F)) in E1 as (Hr & Hbw & E1); [|done..].
  pose proof (p_bounds F) as (HC & Hp & HV). unfold bit_ok in Hbw.
  assert (Z.land (C F) (wrapping_sub 64 0 bw) = bw * C F) as ->.
  { assert (bw = 0 ∨ bw = 1) as [-> | ->] by lia.
    - change (wrapping_sub 64 0 0) with 0. by rewrite Z.land_0_r.
    - change (wrapping_sub 64 0 1) with (Z.ones 64). rewrite Z.land_ones, Z.mod_small by lia. lia. }
  destruct (single_limb (width F) (bw * C F)) as [Hs Hsv]; [apply width_pos|unfold word_ok; nia|].
  destruct (sbb_loop r _ 0) as [out ib] eqn:E2. apply (sbb_loop_val (width F)) in E2 as (Ho & Hib & E2); [|done..]. rewrite Hsv in E2.
  pose proof (limbs_val_bound _ _ Hr) as Vr. pose proof (limbs_val_bound _ _ Ho) as Vo. unfold bit_ok in Hib. unfold fe_ok. set (V := 2 ^ (64 * width F)) in *.
  assert (limbs_val a - limbs_val b = limbs_val out + (- bw) * p_of F ∧ limbs_val out < p_of F) as [Hk Hlt].
  { assert (bw = 0 ∨ bw = 1) as [-> | ->] by lia; assert (ib = 0 ∨ ib = 1) as [-> | ->] by lia; lia. }
  split; [done|]. rewrite Hk, Z.mod_add by lia. symmetry. apply Z.mod_small. lia.
Qed.

(** ** Multiplication *)

Lemma mul_small_spec F a c r top : limbs_ok (width F) a → u64_ok c → mul_small F a c = (r, top) →
  limbs_ok (width F) r ∧ u64_ok top ∧ limbs_val r + 2 ^ (64 * width F) * top = limbs_val a * c.
Proof.
  intros Ha Hc E. apply (mac_loop_val (width F)) in E as (Hr & Ht & E); [|by auto with uacrypt..|done].
  rewrite limbs_val_zeros in E. split; [done|]. split; [done|lia].
Qed.

(** A row adds [ai * b] at limb [i]; the bound excludes a carry out of the array. *)
Lemma wide_mul_row_spec F b r i ai :
  limbs_ok (width F) b → limbs_ok (2 * width F) r → u64_ok ai → (i + width F ≤ 2 * width F)%nat →
  limbs_val r + 2 ^ (64 * i) * (ai * limbs_val b) < 2 ^ (64 * (2 * width F)%nat) →
  limbs_ok (2 * width F) (wide_mul_row F b r i ai) ∧ limbs_val (wide_mul_row F b r i ai) = limbs_val r + 2 ^ (64 * i) * (ai * limbs_val b).
Proof.
  intros Hb Hr Ha Hi Hlt. unfold wide_mul_row. set (n := width F) in *.
  destruct (mac_loop (slice i (i + n) r) b ai 0) as [row carry] eqn:E1.
  assert (limbs_ok n (slice i (i + n) r)) as Hs.
  { unfold slice. replace (i + n - i)%nat with n by lia. apply (limbs_ok_take _ (2 * n - i)); [by auto with uacrypt|lia]. }
  apply (mac_loop_val n) in E1 as (Hrow & Hc & E1); [|done..].
  destruct (carry_loop (drop (i + n) r) carry) as [top out] eqn:E2.
  apply (carry_loop_val (2 * n - (i + n))) in E2 as (Htop & Hout & E2); [|by auto with uacrypt|done].
  assert (limbs_ok i (take i r)) as Hti by (apply (limbs_ok_take _ (2 * n)); [done|lia]).
  assert (limbs_ok (2 * n) (take i r ++ row ++ top)) as Hok.
  { replace (2 * n)%nat with (i + (n + (2 * n - (i + n))))%nat by lia. by auto with uacrypt. }
  split; [done|]. pose proof (limbs_val_bound _ _ Hok) as Hbd.
  rewrite !limbs_val_app in Hbd |- *. destruct Hti as [Hli _], Hrow as [Hlr _]. rewrite Hli, Hlr in *.
  rewrite (limbs_val_split i (2 * n) r), (limbs_val_split n (2 * n - i) (drop i r)) in Hlt |- * by (try lia; auto with uacrypt).
  rewrite drop_drop in *. unfold slice in E1. replace (i + n - i)%nat with n in E1 by lia.
  set (Vi := 2 ^ (64 * i)) in *. set (Vn := 2 ^ (64 * n)) in *. set (Vt := 2 ^ (64 * (2 * n - (i + n))%nat)) in *.
  assert (2 ^ (64 * (2 * n)%nat) = Vi * Vn * Vt) as EV.
  { unfold Vi, Vn, Vt. rewrite <- !Z.pow_add_r by lia. f_equal. lia. }
  assert (0 < Vi ∧ 0 < Vn ∧ 0 < Vt) as (H1 & H2 & H3) by (unfold Vi, Vn, Vt; split_and!; apply Z.pow_pos_nonneg; lia).
  assert (limbs_val (take i r) + Vi * (limbs_val row + Vn * limbs_val top) + Vi * Vn * Vt * out =
    limbs_val (take i r) + Vi * (limbs_val (take n (drop i r)) + Vn * limbs_val (drop (i + n) r)) + Vi * (ai * limbs_val b)) as E by nia.
  assert (out = 0) as ->; [|lia]. unfold word_ok in Hout. rewrite EV in *. nia.
Qed.

Lemma wide_mul_from F b a r i :
  limbs_ok (width F) b → Forall u64_ok a → limbs_ok (2 * width F) r → (i + length a ≤ width F)%nat →
  limbs_val r + 2 ^ (64 * i) * (limbs_val a * limbs_val b) < 2 ^ (64 * (2 * width F)%nat) →
  limbs_ok (2 * width F) (fold_enum (wide_mul_row F b) i r a) ∧
  limbs_val (fold_enum (wide_mul_row F b) i r a) = limbs_val r + 2 ^ (64 * i) * (limbs_val a * limbs_val b).
Proof.
  intros Hb Ha. revert r i. induction Ha as [|x a Hx Ha IH]; intros r i Hr Hi Hlt; cbn [fold_enum limbs_val length] in *; [split; [done|lia]|].
  assert (limbs_ok (length a) a) as Hao by done. pose proof (limbs_val_bound _ _ Hao) as Va. pose proof (limbs_val_bound _ _ Hb) as Vb.
  assert (2 ^ (64 * S i) = 2 ^ 64 * 2 ^ (64 * i)) as ES by apply pow_limbs_S. assert (0 < 2 ^ (64 * i)) by (apply Z.pow_pos_nonneg; lia).
  destruct (wide_mul_row_spec F b r i x) as [Hok Hv]; [done..|lia|unfold word_ok in Hx; nia|].
  destruct (IH (wide_mul_row F b r i x) (S i) Hok) as [Hok' Hv']; [lia|rewrite Hv, ES; unfold word_ok in Hx; nia|].
  split; [done|]. rewrite Hv', Hv, ES. lia.
Qed.

Lemma wide_mul_spec F a b : limbs_ok (width F) a → limbs_ok (width F) b →
  limbs_ok (2 * width F) (wide_mul F a b) ∧ limbs_val (wide_mul F a b) = limbs_val a * limbs_val b.
Proof.
  intros Ha Hb. pose proof (limbs_val_bound _ _ Ha) as Va. pose proof (limbs_val_bound _ _ Hb) as Vb.
  assert (2 ^ (64 * (2 * width F)%nat) = 2 ^ (64 * width F) * 2 ^ (64 * width F)) as E.
  { rewrite <- Z.pow_add_r by lia. f_equal. lia. }
  destruct (wide_mul_from F b a (replicate (2 * width F) 0) 0) as [Hok Hv]; [done|apply Ha|by auto with uacrypt|destruct Ha; lia|..].
  - rewrite limbs_val_zeros, E. change (2 ^ (64 * 0%nat)) with 1. nia.
  - split; [done|]. rewrite limbs_val_zeros in Hv. change (2 ^ (64 * 0%nat)) with 1 in Hv. unfold wide_mul. lia.
Qed.

(** Folding [2 ^ (64 n)] to [C]: three additions leave less than [2 p]. *)
Lemma reduce_wide_spec F wide : limbs_ok (2 * width F) wide →
  fe_ok F (reduce_wide F wide) ∧ limbs_val (reduce_wide F wide) = limbs_val wide mod p_of F.
Proof.
  intros Hw. unfold reduce_wide, add_limbs. rewrite (limbs_val_split (width F) (2 * width F) wide) by (done || lia).
  assert (limbs_ok (width F) (take (width F) wide)) as Hlow by (apply (limbs_ok_take _ (2 * width F)); [done|lia]).
  assert (limbs_ok (width F) (drop (width F) wide)) as Hhigh.
  { replace (width F) with (2 * width F - width F)%nat at 1 by lia. by auto with uacrypt. }
  set (low := take _ wide) in *. set (high := drop _ wide) in *. pose proof (p_bounds F) as (HC & Hp & HV).
  destruct (mul_small F high (C F)) as [hc top] eqn:E0. apply mul_small_spec in E0 as (Hhc & Htop & E0); [|done|unfold word_ok; lia].
  destruct (adc_loop low hc 0) as [acc c1] eqn:E1. apply (adc_loop_val (width F)) in E1 as (Hacc & Hc1 & E1); [|done..].
  pose proof (limbs_val_bound _ _ Hlow) as Vl. pose proof (limbs_val_bound _ _ Hhigh) as Vh. pose proof (limbs_val_bound _ _ Hhc) as Vhc.
  pose proof (limbs_val_bound _ _ Hacc) as Vacc. unfold word_ok in Htop. unfold bit_ok in Hc1. set (V := 2 ^ (64 * width F)) in *.
  assert (top < C F) as Ht by nia. unfold wrapping_add. rewrite (wrap_id 64 (c1 + top)) by (unfold word_ok; lia).
  set (o := c1 + top) in *. assert (0 ≤ o ≤ C F) as Ho by lia. rewrite (wrap_id 64 (o * C F)) by (unfold word_ok; nia).
  destruct (single_limb (width F) (o * C F)) as [Hs Hsv]; [apply width_pos|unfold word_ok; nia|].
  destruct (adc_loop acc _ 0) as [acc2 c2] eqn:E2. apply (adc_loop_val (width F)) in E2 as (Hacc2 & Hc2 & E2); [|done..]. rewrite Hsv in E2. fold V in E2.
  unfold bit_ok in Hc2. pose proof (limbs_val_bound _ _ Hacc2) as Vacc2. rewrite (wrap_id 64 (c2 * C F)) by (unfold word_ok; nia).
  destruct (single_limb (width F) (c2 * C F)) as [Hs2 Hsv2]; [apply width_pos|unfold word_ok; nia|].
  destruct (adc_loop acc2 _ 0) as [acc3 c3] eqn:E3. apply (adc_loop_val (width F)) in E3 as (Hacc3 & Hc3 & E3); [|done..]. rewrite Hsv2 in E3. fold V in E3.
  unfold bit_ok in Hc3. pose proof (limbs_val_bound _ _ Hacc3) as Vacc3. fold V in Vacc2, Vacc3.
  assert (o * C F ≤ 2 ^ 16 * 2 ^ 16) as Hoc by (apply Z.mul_le_mono_nonneg; lia).
  assert (c3 = 0) as ->.
  { clear -Hc3 Hc2 E3 E2 Vacc Vacc2 Vacc3 HV HC Hoc. assert (c2 = 0 ∨ c2 = 1) as [-> | ->] by lia; assert (c3 = 0 ∨ c3 = 1) as [-> | ->] by lia; lia. }
  destruct (conditional_sub_p_mod F acc3 Hacc3) as [[H1 _] V1]. destruct (conditional_sub_p_mod F _ H1) as [[H2 _] V2].
  destruct (conditional_sub_p_mod F _ H2) as [H3 V3]. split; [done|]. rewrite V3, V2, V1, !Z.mod_mod by lia.
  apply congr_iff; [lia|]. exists (- (top + c1 + c2) + - limbs_val high). rewrite Hp. unfold o in *. lia.
Qed.

Lemma fe_multiply_spec F a b : fe_ok F a → fe_ok F b →
  fe_ok F (fe_multiply F a b) ∧ limbs_val (fe_multiply F a b) = (limbs_val a * limbs_val b) mod p_of F.
Proof.
  intros [Ha _] [Hb _]. destruct (wide_mul_spec F a b Ha Hb) as [Hw Hv]. destruct (reduce_wide_spec F _ Hw) as [Hr Hv'].
  unfold fe_multiply. by rewrite Hv', Hv.
Qed.

(** ** Values modulo the prime *)

Lemma p_pos F : 0 < p_of F.
Proof. pose proof (p_bounds F). lia. Qed.

Lemma fe_is_intro F e v : fe_ok F e → limbs_val e = v mod p_of F → fe_is F e v.
Proof. intros He E. split; [done|]. rewrite E. apply congr_mod. Qed.

Lemma fe_is_self F e : fe_ok F e → fe_is F e (limbs_val e).
Proof. by split. Qed.

Lemma fe_is_congr F e v w : fe_is F e v → v ≡[p_of F] w → fe_is F e w.
Proof. intros [He Hv] H. split; [done|]. by rewrite Hv. Qed.

Lemma fe_is_val F e v : fe_is F e v → limbs_val e = v mod p_of F.
Proof.
  intros [He Hv]. pose proof (fe_ok_bound _ _ He). symmetry. apply congr_mod_eq; [done|]. by symmetry.
Qed.

(** Field elements are equal when their values are congruent. *)
Lemma fe_is_eq F a b v w : fe_is F a v → fe_is F b w → v ≡[p_of F] w → a = b.
Proof.
  intros Ha Hb H. apply (limbs_val_inj (width F)); [apply Ha|apply Hb|]. rewrite (fe_is_val _ _ _ Ha), (fe_is_val _ _ _ Hb).
  pose proof (p_pos F). apply congr_iff; [lia|done].
Qed.

Lemma fe_is_eq_iff F a b v w : fe_is F a v → fe_is F b w → a = b ↔ v ≡[p_of F] w.
Proof.
  intros Ha Hb. split; [|by apply (fe_is_eq F)]. intros ->. destruct Ha as [_ Ha], Hb as [_ Hb]. by rewrite <- Ha, <- Hb.
Qed.

Lemma fe_is_ZERO F : fe_is F (fe_ZERO F) 0.
Proof. destruct F; (split; [by_decision|done]). Qed.

Lemma fe_is_ONE F : fe_is F (fe_ONE F) 1.
Proof. destruct F; (split; [by_decision|done]). Qed.

Lemma fe_is_add F a b v w : fe_is F a v → fe_is F b w → fe_is F (fe_add F a b) (v + w).
Proof.
  intros [Ha Hv] [Hb Hw]. destruct (fe_add_spec F a b Ha Hb) as [Hok E]. split; [done|]. rewrite E, congr_mod. by rewrite Hv, Hw.
Qed.

Lemma fe_is_sub F a b v w : fe_is F a v → fe_is F b w → fe_is F (fe_sub F a b) (v - w).
Proof.
  intros [Ha Hv] [Hb Hw]. destruct (fe_sub_spec F a b Ha Hb) as [Hok E]. split; [done|]. rewrite E, congr_mod. by rewrite Hv, Hw.
Qed.

Lemma fe_is_multiply F a b v w : fe_is F a v → fe_is F b w → fe_is F (fe_multiply F a b) (v * w).
Proof.
  intros [Ha Hv] [Hb Hw]. destruct (fe_multiply_spec F a b Ha Hb) as [Hok E]. split; [done|]. rewrite E, congr_mod. by rewrite Hv, Hw.
Qed.

Lemma fe_is_square F a v : fe_is F a v → fe_is F (fe_square F a) (v * v).
Proof. intros Ha. by apply fe_is_multiply. Qed.

Lemma fe_select_spec F bit a b : fe_ok F a → fe_ok F b → bit_ok bit → fe_select bit a b = if Z.eqb bit 1 then a else b.
Proof. intros [Ha _] [Hb _] Hbit. by apply (mask_select_spec (width F)). Qed.

#[export] Hint Resolve fe_is_ZERO fe_is_ONE fe_is_add fe_is_sub fe_is_multiply fe_is_square : uacrypt.

(** ** Exponentiation *)

Lemma land_1 x : bit_ok (Z.land x 1).
Proof. change 1 with (Z.ones 1). rewrite Z.land_ones by lia. unfold bit_ok. pose proof (Z.mod_pos_bound x (2 ^ 1)). lia. Qed.

Lemma step_nonneg m x : 0 ≤ m → 0 ≤ 2 * m + Z.land x 1.
Proof. pose proof (land_1 x). unfold bit_ok in *. lia. Qed.

Lemma pow_step_spec F x byte r i v m : fe_is F x v → fe_is F r (v ^ m) → 0 ≤ m → 
  fe_is F (pow_step F x byte r i) (v ^ (2 * m + Z.land (Z.shiftr byte i) 1)).
Proof.
  intros Hx Hr Hm. unfold pow_step. pose proof (land_1 (Z.shiftr byte i)) as Hb. set (bit := Z.land _ 1) in *.
  assert (fe_is F (fe_square F r) (v ^ (2 * m))) as Hs.
  { eapply fe_is_congr; [by apply fe_is_square|]. rewrite <- Z.pow_add_r by done. by replace (m + m) with (2 * m) by lia. }
  assert (fe_is F (fe_multiply F (fe_square F r) x) (v ^ (2 * m + 1))) as Hc.
  { eapply fe_is_congr; [by apply fe_is_multiply|]. by rewrite Z.pow_add_r, Z.pow_1_r by lia. }
  rewrite (fe_select_spec F) by (done || apply Hc || apply Hs). unfold bit_ok in Hb.
  destruct (Z.eqb_spec bit 1) as [->|Hn]; [done|]. replace bit with 0 by lia. by rewrite Z.add_0_r.
Qed.

Lemma byte_bits b : byte_ok b →
  2 * (2 * (2 * (2 * (2 * (2 * (2 * Z.land (Z.shiftr b 7%nat) 1 + Z.land (Z.shiftr b 6%nat) 1) + Z.land (Z.shiftr b 5%nat) 1) +
  Z.land (Z.shiftr b 4%nat) 1) + Z.land (Z.shiftr b 3%nat) 1) + Z.land (Z.shiftr b 2%nat) 1) + Z.land (Z.shiftr b 1%nat) 1) + Z.land (Z.shiftr b 0%nat) 1 = b.
Proof.
  intros Hb. apply Z.eqb_eq. revert b Hb. apply (forall_bytes (λ b, Z.eqb _ b)). vm_compute. reflexivity.
Qed.

Lemma pow_bits_spec F x byte l r v m : fe_is F x v → fe_is F r (v ^ m) → 0 ≤ m →
  fe_is F (foldl (pow_step F x byte) r l) (v ^ foldl (λ m (i : nat), 2 * m + Z.land (Z.shiftr byte i) 1) m l).
Proof.
  intros Hx. revert r m. induction l as [|i l IH]; intros r m Hr Hm; cbn [foldl]; [done|].
  apply IH; [by apply pow_step_spec|by apply step_nonneg].
Qed.

Lemma pow_byte_spec F x byte r v m : fe_is F x v → fe_is F r (v ^ m) → 0 ≤ m → byte_ok byte →
  fe_is F (foldl (pow_step F x byte) r (reverse (seq 0 8))) (v ^ (256 * m + byte)).
Proof.
  intros Hx Hr Hm Hb. eapply fe_is_congr; [by apply pow_bits_spec|].
  change (reverse (seq 0 8)) with [7%nat; 6%nat; 5%nat; 4%nat; 3%nat; 2%nat; 1%nat; 0%nat]. cbn [foldl].
  f_equiv. pose proof (byte_bits byte Hb). lia.
Qed.

Lemma fe_pow_mod_spec F x e v : fe_is F x v → bytes_ok e → fe_is F (fe_pow_mod F x e) (v ^ from_be_bytes e).
Proof.
  intros Hx. unfold fe_pow_mod. induction e as [|b e IH] using rev_ind; intros He; [apply fe_is_ONE|].
  rewrite foldl_snoc, from_be_bytes_app. apply Forall_app in He as [He Hb]. apply Forall_cons in Hb as [Hb _].
  change (from_be_bytes [b]) with (b + 256 * 0). change (2 ^ (8 * length [b])) with 256.
  replace (b + 256 * 0 + 256 * from_be_bytes e) with (256 * from_be_bytes e + b) by lia. apply pow_byte_spec; [done|by apply IH| |done].
  apply from_be_bytes_bound in He. apply He.
Qed.

(** The exponents of the source. *)
Lemma exponents F :
  from_be_bytes (P_MINUS_2 F) = p_of F - 2 ∧ from_be_bytes (P_MINUS_1_OVER_2 F) = (p_of F - 1) / 2 ∧
  from_be_bytes (P_MINUS_1_OVER_4 F) = (p_of F - 1) / 4 ∧ from_be_bytes (P_PLUS_3_OVER_8 F) = (p_of F + 3) / 8 ∧
  bytes_ok (P_MINUS_2 F) ∧ bytes_ok (P_MINUS_1_OVER_2 F) ∧ bytes_ok (P_MINUS_1_OVER_4 F) ∧ bytes_ok (P_PLUS_3_OVER_8 F) ∧
  p_of F mod 8 = 5.
Proof. destruct F; split_and!; (reflexivity || by_decision). Qed.

Lemma fe_is_invert F x v : fe_is F x v → fe_is F (fe_invert F x) (v ^ (p_of F - 2)).
Proof. intros Hx. destruct (exponents F) as (<- & _ & _ & _ & Hb & _). by apply fe_pow_mod_spec. Qed.

Lemma p_large F : 2 ^ 255 < p_of F.
Proof. pose proof (p_bounds F). lia. Qed.

Lemma fe_is_p_minus_1 F : fe_is F (p_minus_1 F) (-1).
Proof.
  assert (limbs_ok (width F) (p_minus_1 F)) as H by (destruct F; by_decision).
  assert (limbs_val (p_minus_1 F) = p_of F - 1) as E by (destruct F; reflexivity).
  split; [split; [done|lia]|]. rewrite E. exists 1. lia.
Qed.

(** [W] is a square root of minus one. *)
Lemma W_square F : fe_ok F (W F) ∧ limbs_val (W F) * limbs_val (W F) ≡[p_of F] -1.
Proof.
  split; [destruct F; by_decision|]. apply congr_iff; [pose proof (p_large F); lia|]. destruct F; vm_compute; reflexivity.
Qed.

(** The two exponents that [sqrt] works with, against the one of Euler's criterion. *)
Lemma sqrt_exponents F v : let p := p_of F in
  v ^ ((p - 1) / 4) * v ^ ((p - 1) / 4) = v ^ ((p - 1) / 2) ∧ v ^ ((p + 3) / 8) * v ^ ((p + 3) / 8) = v * v ^ ((p - 1) / 4).
Proof.
  intros p. destruct (exponents F) as (_ & _ & _ & _ & _ & _ & _ & _ & H8). fold p in H8.
  assert (∃ k, 0 ≤ k ∧ p = 8 * k + 5) as (k & Hk & E).
  { exists (p / 8). pose proof (Z.div_mod p 8). pose proof (p_large F) as Hl. fold p in Hl. split; [apply Z.div_pos|]; lia. }
  assert ((p - 1) / 4 = 2 * k + 1) as -> by (symmetry; apply (Z.div_unique _ _ _ 0); lia).
  assert ((p - 1) / 2 = 4 * k + 2) as -> by (symmetry; apply (Z.div_unique _ _ _ 0); lia).
  assert ((p + 3) / 8 = k + 1) as -> by (symmetry; apply (Z.div_unique _ _ _ 0); lia).
  split; rewrite <- Z.pow_add_r by lia; [f_equal; lia|].
  replace (k + 1 + (k + 1)) with (Z.succ (2 * k + 1)) by lia. by rewrite Z.pow_succ_r by lia.
Qed.

Lemma euler_iff F x v : fe_is F x v → fe_euler_criterion F x = true ↔ v ^ ((p_of F - 1) / 2) ≡[p_of F] 1.
Proof.
  intros Hx. unfold fe_euler_criterion. rewrite bool_decide_eq_true. destruct (exponents F) as (_ & <- & _ & _ & _ & Hb & _).
  by apply (fe_is_eq_iff F); [apply fe_pow_mod_spec|apply fe_is_ONE].
Qed.

Lemma b2z_bit b : bit_ok (Z.b2z b).
Proof. by destruct b. Qed.

(** The square root of a residue: the fourth root of one that [f] is decides the branch. *)
Lemma fe_sqrt_spec F x v : Z.prime (p_of F) → fe_is F x v → v ^ ((p_of F - 1) / 2) ≡[p_of F] 1 →
  ∃ w, fe_is F (fe_sqrt F x) w ∧ w * w ≡[p_of F] v.
Proof.
  intros Hp Hx He. unfold fe_sqrt. destruct (exponents F) as (_ & _ & E4 & E8 & _ & _ & B4 & B8 & _).
  pose proof (fe_pow_mod_spec F x _ v Hx B4) as Hf. pose proof (fe_pow_mod_spec F x _ v Hx B8) as Hz. rewrite E4 in Hf. rewrite E8 in Hz.
  destruct (sqrt_exponents F v) as [S4 S8]. destruct (W_square F) as [Hw Ew].
  pose proof (fe_is_multiply F _ _ _ _ (fe_is_self F _ Hw) Hz) as Hc.
  rewrite (fe_select_spec F) by (apply Hc || apply Hz || apply b2z_bit).
  pose proof (fe_is_eq_iff F _ _ _ _ Hf (fe_is_p_minus_1 F)) as Hiff. case_bool_decide as Hd; cbn [Z.b2z Z.eqb].
  - eexists. split; [exact Hc|]. apply Hiff in Hd.
    assert (∀ a b : Z, a * b * (a * b) = a * a * (b * b)) as R by lia. rewrite R, S8, Ew, Hd. by replace (-1 * (v * -1)) with v by lia.
  - eexists. split; [exact Hz|]. rewrite S8. destruct (sqrt_one _ (v ^ ((p_of F - 1) / 4)) Hp) as [E|E]; [by rewrite S4| |].
    + rewrite E. by rewrite Z.mul_1_r.
    + by apply Hiff in E.
Qed.

(** ** Theorems *)

(** C40. The field operations keep their operands reduced and are addition, subtraction and multiplication
    modulo the prime, for all three fields. *)
Theorem fp_operations F a b :
  fe_ok F a → fe_ok F b →
  (fe_ok F (fe_add F a b) ∧ limbs_val (fe_add F a b) = (limbs_val a + limbs_val b) mod p_of F) ∧
  (fe_ok F (fe_sub F a b) ∧ limbs_val (fe_sub F a b) = (limbs_val a - limbs_val b) mod p_of F) ∧
  (fe_ok F (fe_multiply F a b) ∧ limbs_val (fe_multiply F a b) = (limbs_val a * limbs_val b) mod p_of F).
Proof. intros Ha Hb. split; [by apply fe_add_spec|]. split; [by apply fe_sub_spec|by apply fe_multiply_spec]. Qed.

Lemma fp_operations_witness :
  let a := p_minus_1 Fp256 in let b := fe_ONE Fp256 in
  (fe_ok Fp256 (fe_add Fp256 a b) ∧ limbs_val (fe_add Fp256 a b) = (limbs_val a + limbs_val b) mod p_of Fp256) ∧
  (fe_ok Fp256 (fe_sub Fp256 a b) ∧ limbs_val (fe_sub Fp256 a b) = (limbs_val a - limbs_val b) mod p_of Fp256) ∧
  (fe_ok Fp256 (fe_multiply Fp256 a b) ∧ limbs_val (fe_multiply Fp256 a b) = (limbs_val a * limbs_val b) mod p_of Fp256).
Proof. apply (fp_operations Fp256 (p_minus_1 Fp256) (fe_ONE Fp256)); by_decision. Defined.

(** Square-and-multiply is exponentiation modulo the prime; the exponent that [invert] uses makes it the
    inverse in the field, and of zero it is zero. *)
Theorem fp_invert_correct F x e :
  Z.prime (p_of F) → fe_ok F x → bytes_ok e →
  (fe_ok F (fe_pow_mod F x e) ∧ limbs_val (fe_pow_mod F x e) = (limbs_val x ^ from_be_bytes e) mod p_of F) ∧
  fe_ok F (fe_invert F x) ∧
  (x ≠ fe_ZERO F → fe_multiply F x (fe_invert F x) = fe_ONE F) ∧
  fe_invert F (fe_ZERO F) = fe_ZERO F.
Proof.
  intros Hp Hx He. pose proof (fe_is_self F x Hx) as Hv. pose proof (fe_pow_mod_spec F x e _ Hv He) as Hpw.
  pose proof (fe_is_invert F x _ Hv) as Hi. pose proof (p_large F) as Hl. split; [split; [apply Hpw|by apply fe_is_val]|]. split; [apply Hi|]. split.
  - intros Hn. apply (fe_is_eq F _ _ _ _ (fe_is_multiply F _ _ _ _ Hv Hi) (fe_is_ONE F)).
    rewrite <- (Z.pow_1_r (limbs_val x)) at 1. rewrite <- Z.pow_add_r by lia. replace (1 + (p_of F - 2)) with (p_of F - 1) by lia.
    apply fermat_little; [done|]. intros H0. apply Hn. by apply (fe_is_eq F _ _ _ _ Hv (fe_is_ZERO F)).
  - apply (fe_is_eq F _ _ _ _ (fe_is_invert F _ _ (fe_is_ZERO F)) (fe_is_ZERO F)). by rewrite Z.pow_0_l by lia.
Qed.

Lemma fp_invert_correct_witness :
  let x := [7; 0; 0; 0] in
  (fe_ok Fp256 (fe_pow_mod Fp256 x [1; 2]) ∧ limbs_val (fe_pow_mod Fp256 x [1; 2]) = (limbs_val x ^ from_be_bytes [1; 2]) mod p_of Fp256) ∧
  fe_ok Fp256 (fe_invert Fp256 x) ∧
  (x ≠ fe_ZERO Fp256 → fe_multiply Fp256 x (fe_invert Fp256 x) = fe_ONE Fp256) ∧
  fe_invert Fp256 (fe_ZERO Fp256) = fe_ZERO Fp256.
Proof. apply (fp_invert_correct Fp256 [7; 0; 0; 0] [1; 2] prime_256); by_decision. Defined.

Lemma fe_sqrt_exact F x : Z.prime (p_of F) → fe_ok F x → fe_euler_criterion F x = true →
  fe_ok F (fe_sqrt F x) ∧ fe_square F (fe_sqrt F x) = x.
Proof.
  intros Hp Hx He. pose proof (fe_is_self F x Hx) as Hv. apply (euler_iff F x _ Hv) in He.
  destruct (fe_sqrt_spec F x _ Hp Hv He) as (w & Hw & E). split; [apply Hw|].
  by apply (fe_is_eq F _ _ _ _ (fe_is_square F _ _ Hw) Hv).
Qed.

Lemma half_order F : ∃ k, 0 < k ∧ p_of F - 1 = 2 * k ∧ (p_of F - 1) / 2 = k.
Proof.
  pose proof (p_large F) as Hl. destruct (exponents F) as (_ & _ & _ & _ & _ & _ & _ & _ & H8). exists ((p_of F - 1) / 2).
  pose proof (Z.div_mod (p_of F - 1) 2). pose proof (Z.div_mod (p_of F) 8). pose proof (Z.mod_pos_bound (p_of F - 1) 2). lia.
Qed.

(** Euler's criterion: the nonzero squares. *)
Lemma fe_euler_exact F x : Z.prime (p_of F) → fe_ok F x →
  fe_euler_criterion F x = true ↔ x ≠ fe_ZERO F ∧ ∃ y, fe_ok F y ∧ fe_square F y = x.
Proof.
  intros Hp Hx. pose proof (fe_is_self F x Hx) as Hv. pose proof (p_large F) as Hl. destruct (half_order F) as (k & Hk & Ek & E2). split.
  - intros He. split; [|exists (fe_sqrt F x); by apply fe_sqrt_exact]. intros ->. apply (euler_iff F _ _ (fe_is_ZERO F)) in He.
    rewrite E2, Z.pow_0_l in He by lia. apply (congr_small (p_of F)) in He; lia.
  - intros (Hn & y & Hy & E). apply (euler_iff F x _ Hv). rewrite E2. pose proof (fe_is_self F y Hy) as Hyv. rewrite <- E in Hv. pose proof (fe_is_square F y _ Hyv) as Hq.
    destruct Hv as [_ Hv], Hq as [_ Hq]. rewrite <- E, Hq, <- Z.pow_2_r, <- Z.pow_mul_r, <- Ek by lia.
    apply fermat_little; [done|]. intros H0. apply Hn. rewrite <- E. apply (fe_is_eq F _ _ _ _ (fe_is_square F y _ Hyv) (fe_is_ZERO F)). by rewrite H0.
Qed.

Lemma fe_sqrt_zero F : fe_sqrt F (fe_ZERO F) = fe_ZERO F.
Proof.
  pose proof (p_large F) as Hl. unfold fe_sqrt. destruct (exponents F) as (_ & _ & E4 & E8 & _ & _ & B4 & B8 & _).
  assert (∀ e, bytes_ok e → 0 < from_be_bytes e → fe_pow_mod F (fe_ZERO F) e = fe_ZERO F) as Hz.
  { intros e He Hlt. apply (fe_is_eq F _ _ _ _ (fe_pow_mod_spec F _ _ _ (fe_is_ZERO F) He) (fe_is_ZERO F)). by rewrite Z.pow_0_l. }
  rewrite !Hz by (done || (rewrite ?E4, ?E8; apply Z.div_str_pos; lia)).
  pose proof (fe_is_multiply F _ _ _ _ (fe_is_self F _ (proj1 (W_square F))) (fe_is_ZERO F)) as Hc.
  rewrite (fe_select_spec F) by (apply Hc || apply fe_is_ZERO || apply b2z_bit). destruct (Z.eqb _ 1); [|done].
  apply (fe_is_eq F _ _ _ _ Hc (fe_is_ZERO F)). by rewrite Z.mul_0_r.
Qed.

(** Euler's criterion accepts exactly the non-zero squares, and on those [sqrt] returns a root; the root of
    zero is zero. *)
Theorem fp_sqrt_correct F x :
  Z.prime (p_of F) → fe_ok F x →
  (fe_euler_criterion F x = true ↔ x ≠ fe_ZERO F ∧ ∃ y, fe_ok F y ∧ fe_square F y = x) ∧
  (fe_euler_criterion F x = true → fe_ok F (fe_sqrt F x) ∧ fe_square F (fe_sqrt F x) = x) ∧
  fe_sqrt F (fe_ZERO F) = fe_ZERO F.
Proof. intros Hp Hx. split; [by apply fe_euler_exact|]. split; [by apply fe_sqrt_exact|apply fe_sqrt_zero]. Qed.

Lemma fp_sqrt_correct_witness :
  let x := [2; 0; 0; 0] in
  (fe_euler_criterion Fp256 x = true ↔ x ≠ fe_ZERO Fp256 ∧ ∃ y, fe_ok Fp256 y ∧ fe_square Fp256 y = x) ∧
  (fe_euler_criterion Fp256 x = true → fe_ok Fp256 (fe_sqrt Fp256 x) ∧ fe_square Fp256 (fe_sqrt Fp256 x) = x) ∧
  fe_sqrt Fp256 (fe_ZERO Fp256) = fe_ZERO Fp256.
Proof. apply (fp_sqrt_correct Fp256 [2; 0; 0; 0] prime_256). by_decision. Defined.

Lemma from_candidate_bytes_spec F b : array_ok (8 * width F) b →
  from_candidate_bytes F b = if Z.ltb (from_be_bytes b) (p_of F) then Some (fe_from_be_bytes F b) else None.
Proof.
  intros Hbo. unfold from_candidate_bytes, fe_from_be_bytes. pose proof (limbs_ok_from_be _ _ Hbo) as Hl.
  destruct (sbb_loop _ (P_LIMBS F) 0) as [t bw] eqn:E. apply (sbb_loop_val (width F)) in E as (Ht & Hbw & E); [|by auto with uacrypt..|done].
  rewrite limbs_val_from_be, P_LIMBS_val in E by done. pose proof (limbs_val_bound _ _ Ht). pose proof (p_bounds F). pose proof (limbs_val_bound _ _ Hl) as Hv.
  rewrite limbs_val_from_be in Hv by done. unfold bit_ok in Hbw. set (V := 2 ^ (64 * width F)) in *.
  assert (bw = 0 ∨ bw = 1) as [-> | ->] by lia; destruct (Z.ltb_spec (from_be_bytes b) (p_of F)); try done; lia.
Qed.

Lemma fe_to_be_bytes_ok F e : fe_ok F e → array_ok (8 * width F) (fe_to_be_bytes F e).
Proof. intros He. unfold fe_to_be_bytes. rewrite limbs_to_be_spec by apply He. apply to_be_bytes_ok. Qed.

Lemma from_candidate_to_be F e : fe_ok F e → from_candidate_bytes F (fe_to_be_bytes F e) = Some e.
Proof.
  intros He. rewrite from_candidate_bytes_spec by (by apply fe_to_be_bytes_ok). unfold fe_to_be_bytes, fe_from_be_bytes.
  rewrite <- (limbs_val_from_be (width F)), limbs_to_from_be by (apply He || by apply fe_to_be_bytes_ok).
  destruct (Z.ltb_spec (limbs_val e) (p_of F)); [done|]. destruct He. lia.
Qed.

Lemma from_candidate_ok F b e : array_ok (8 * width F) b → from_candidate_bytes F b = Some e → fe_ok F e ∧ fe_to_be_bytes F e = b.
Proof.
  intros Hb. rewrite from_candidate_bytes_spec by done. destruct (Z.ltb_spec (from_be_bytes b) (p_of F)) as [Hlt|]; [|done].
  intros [= <-]. unfold fe_ok, fe_from_be_bytes, fe_to_be_bytes. split; [split; [by apply limbs_ok_from_be|by rewrite limbs_val_from_be]|].
  by apply limbs_from_to_be.
Qed.

(** The encoding: [from_candidate_bytes] accepts exactly the encodings of integers below the prime, and the
    two directions are inverse. *)
Theorem fp_bytes_exact F bytes e :
  array_ok (8 * width F) bytes → fe_ok F e →
  (from_candidate_bytes F bytes = if Z.ltb (from_be_bytes bytes) (p_of F) then Some (fe_from_be_bytes F bytes) else None) ∧
  limbs_val (fe_from_be_bytes F bytes) = from_be_bytes bytes ∧ fe_to_be_bytes F (fe_from_be_bytes F bytes) = bytes ∧
  array_ok (8 * width F) (fe_to_be_bytes F e) ∧ from_candidate_bytes F (fe_to_be_bytes F e) = Some e.
Proof.
  intros Hb He. split; [by apply from_candidate_bytes_spec|]. split; [by apply limbs_val_from_be|]. split; [by apply limbs_from_to_be|].
  split; [by apply fe_to_be_bytes_ok|by apply from_candidate_to_be].
Qed.

Lemma fp_bytes_exact_witness :
  let bytes := replicate 48 255 in let e := p_minus_1 Fp384 in
  (from_candidate_bytes Fp384 bytes = if Z.ltb (from_be_bytes bytes) (p_of Fp384) then Some (fe_from_be_bytes Fp384 bytes) else None) ∧
  limbs_val (fe_from_be_bytes Fp384 bytes) = from_be_bytes bytes ∧ fe_to_be_bytes Fp384 (fe_from_be_bytes Fp384 bytes) = bytes ∧
  array_ok (8 * width Fp384) (fe_to_be_bytes Fp384 e) ∧ from_candidate_bytes Fp384 (fe_to_be_bytes Fp384 e) = Some e.
Proof. apply (fp_bytes_exact Fp384 (replicate 48 255) (p_minus_1 Fp384)); by_decision. Defined.
