(* ===== verification/Edwards.v ===== *)
(** Twisted Edwards curves over a prime field, in the form of DSTU 9041: [x^2 + a y^2 = 1 + d x^2 y^2].
    The addition law of the standard is not complete on its curves, where [a] is not a square.  Here it is
    shown to be complete, and a commutative group law, on the points where [(a - d) (1 - x^2)] is a square:
    a set that is closed under it and contains the base points.  [Curve9041.v] refines it to the code. *)

From Stdlib Require Import Field ZmodDef ZmodBase ZmodInv.
From S2P Require Import Prelude Modular.
#[global] Open Scope Zmod_scope.
#[global] Open Scope Z_scope.

#[global] Instance Zmod_eq_dec p : EqDecision (Zmod p).
Proof. intros x y. destruct (Zmod.eqb x y) eqn:E; [left; by apply Zmod.eqb_eq|right; intros ->; by rewrite Zmod.eqb_refl in E]. Defined.

Section Edwards.
#[local] Open Scope Zmod_scope.
Context {p : Z} (Hp : Z.prime p) (a d : Zmod p).
Add Field Zmod_field : (Zmod.field_theory p Hp).
#[local] Notation "x ²" := (x * x) (at level 1, left associativity, format "x ²").
#[local] Notation "x ³" := (x * x * x) (at level 1, left associativity, format "x ³").
#[local] Abbreviation K := (Zmod p).
Implicit Types (x y u v w : Zmod p).

Definition point : Type := K * K.
Implicit Types P Q R : point.

Definition on_curve P : Prop := let '(x, y) := P in x² + a * y² = 1 + d * x² * y².

(** The law: the formula of the standard for [Z1 = Z2 = 1], brought to affine form. *)
Definition eadd P Q : point :=
  let '(x1, y1) := P in let '(x2, y2) := Q in
  let e := d * x1 * x2 * y1 * y2 in
  let k := Zmod.inv ((1 - e) * (1 + e)) in
  ((1 + e) * (x1 * x2 - a * y1 * y2) * k, (1 - e) * (x1 * y2 + x2 * y1) * k).

Definition neutral : point := (1, 0).
Definition neg P : point := let '(x, y) := P in (x, - y).

(** The sum is defined: the denominator does not vanish. *)
Definition regular P Q : Prop :=
  let '(x1, y1) := P in let '(x2, y2) := Q in let e := d * x1 * x2 * y1 * y2 in (1 - e) * (1 + e) ≠ 0.

(** ** The field *)

Lemma mul_zero x y : x * y = 0 → x = 0 ∨ y = 0.
Proof. apply Zmod.mul_0_iff_prime, Hp. Qed.

Lemma mul_nonzero x y : x ≠ 0 → y ≠ 0 → x * y ≠ 0.
Proof. intros Hx Hy E. by apply mul_zero in E as [?|?]. Qed.

Lemma mul_cancel k x y : k ≠ 0 → k * x = k * y → x = y.
Proof. intros Hk E. by apply (Zmod.mul_cancel_l_prime k x y Hp). Qed.

Lemma one_nonzero : (1 : K) ≠ 0.
Proof. pose proof (Z.prime_ge_2 _ Hp). apply Zmod.one_neq_zero. lia. Qed.

Lemma mul_inv x : x ≠ 0 → x * Zmod.inv x = 1.
Proof. intros Hx. by apply Zmod.mul_inv_same_r_prime. Qed.

Lemma inv_zero : Zmod.inv (0 : K) = 0.
Proof. by apply Zmod.inv_0. Qed.

Lemma sub_zero x y : x - y = 0 → x = y.
Proof. intros E. replace x with (x - y + y) by ring. rewrite E. ring. Qed.

(** Equations from equations: the cofactors are found by polynomial division. *)
Lemma combination2 k q1 q2 l1 r1 l2 r2 l r : k ≠ 0 → l1 = r1 → l2 = r2 →
  k * (l - r) = q1 * (l1 - r1) + q2 * (l2 - r2) → (l : K) = r.
Proof.
  intros Hk -> -> E. apply sub_zero. destruct (mul_zero k (l - r)) as [?|?]; [|done..]. rewrite E. ring.
Qed.

Lemma combination3 q1 q2 q3 l1 r1 l2 r2 l3 r3 l r : l1 = r1 → l2 = r2 → l3 = r3 →
  l - r = q1 * (l1 - r1) + q2 * (l2 - r2) + q3 * (l3 - r3) → (l : K) = r.
Proof. intros -> -> -> E. apply sub_zero. rewrite E. ring. Qed.

(** ** Polynomial identities *)

Section Identities.
Context (x1 y1 x2 y2 x3 y3 : K) (Hd : d ≠ 0).
#[local] Abbreviation e := (d * x1 * x2 * y1 * y2).
#[local] Abbreviation e' := (d * x2 * x3 * y2 * y3).
#[local] Abbreviation A := (x1 * x2 - a * y1 * y2).
#[local] Abbreviation C := (x1 * y2 + x2 * y1).
#[local] Abbreviation A' := (x2 * x3 - a * y2 * y3).
#[local] Abbreviation C' := (x2 * y3 + x3 * y2).
Hypothesis H1 : on_curve (x1, y1).
Hypothesis H2 : on_curve (x2, y2).
Hypothesis H3 : on_curve (x3, y3).

Lemma closure_identity : (A * (1 + e))² + a * (C * (1 - e))² = ((1 - e) * (1 + e))² + d * A² * C².
Proof.
  apply (combination2 d²
    (- a² * d³ * y1² * x2² * y2² * y2² - (1 + 1) * a² * d² * x2² * y2² * y2² + a² * d² * y2² * y2²
     + a * d² * d² * y1² * x2² * x2² * y2² * y2² - a * d³ * x1² * x2² * y2² * y2² - a * d³ * y1² * x2² * x2² * y2² + (1
     + 1) * a * d³ * x2² * x2² * y2² * y2² - (1 + 1) * a * d² * x2² * x2² * y2² + (1 + 1 + 1 + 1) * a * d² * x2² * y2²
     + d² * d³ * x1² * y1² * x2² * x2² * y2² * y2² + d² * d² * x1² * x2² * x2² * y2² * y2²
     - d² * d² * x2² * x2² * y2² * y2² - d³ * x1² * x2² * x2² * y2² - (1 + 1) * d³ * x2² * y2² + d² * x2² * x2²)
    (a² * d³ * y1² * y1² * x2² * y2² + (1 + 1) * a² * d² * y1² * x2² * y2² - a² * d² * y1² * y2² - (1
     + 1) * a * d³ * y1² * x2² * y2² + (1 + 1) * a * d² * x1² * x2² * y2² - a * d² * x1² * y2² - a * d² * y1² * x2² - (1
     + 1) * a * d² * x2² * y2² + a * d² * y2² + d³ * x1² * x1² * x2² * y2² - (1 + 1) * d³ * x1² * x2² * y2²
     + d³ * x2² * y2² - d² * x1² * x2² + d² * x2² + d²)
    _ _ _ _ _ _ (mul_nonzero d d Hd Hd) H1 H2). ring.
Qed.

Lemma square_identity :
  ((1 - e)² - A²) * ((1 - x1²) * (1 - x2²)) = (a - d) * (x1 * y1 * (1 - x2²) + x2 * y2 * (1 - x1²))².
Proof.
  apply (combination2 d²
    (a² * d * x2² * y2² - a² * d * y2² - a * d² * x2² * x2² * y2² + a * d² * x2² * y2² + a * d * x2² * x2² - (1
     + 1) * a * d * x2² + a * d - d³ * x1² * x2² * x2² * y2² + d³ * x1² * x2² * y2² + d³ * x2² * x2² * y2²
     - d³ * x2² * y2² - d² * x2² * x2² + (1 + 1) * d² * x2² - d²)
    (- a² * d * y1² * x2² + a² * d * y1² + a * d² * y1² * x2² - a * d² * y1² - a * d * x1² * x2² + a * d * x1²
     + a * d * x2² - a * d - d² * x1² * x1² * x2² + (1 + 1) * d² * x1² * x2² - d² * x2²)
    _ _ _ _ _ _ (mul_nonzero d d Hd Hd) H1 H2). ring.
Qed.

Lemma assoc_x_identity :
  (A * x3 * (1 + e) - a * C * y3 * (1 - e)) * ((1 - e') * (1 + e') - d * x1 * y1 * A' * C') =
  (x1 * A' * (1 + e') - a * y1 * C' * (1 - e')) * ((1 - e) * (1 + e) - d * A * C * x3 * y3).
Proof.
  apply (combination3
    (- a² * d * x1 * x2² * y2³ * y3³ - a² * d * x1 * x2 * y2² * y2² * x3 * y3² - a² * d * y1 * x2³ * y2² * y3³
     + a² * d * y1 * x2 * y2² * y2² * x3² * y3 + a * d² * x1 * x2³ * y2² * y2² * x3 * y3²
     - a * d² * y1 * x2² * x2² * y2³ * x3 * y3² - a * d² * y1 * x2³ * y2² * y2² * x3² * y3 + a * d * x1 * x2² * y2³ * y3
     + a * d * y1 * x2² * x2² * y2 * x3 * y3² + a * d * y1 * x2³ * y2² * y3 - a * d * y1 * x2² * y2³ * x3³
     + a * d * y1 * x2² * y2³ * x3 - d² * x1 * x2² * x2² * y2³ * x3² * y3 + d * x1 * x2² * x2² * y2 * x3² * y3
     + d * x1 * x2³ * y2² * x3³ - d * x1 * x2³ * y2² * x3)
    (- a³ * x1 * y1² * y2 * y3³ - a³ * y1³ * x2 * y3³ - a³ * y1³ * y2 * x3 * y3²
     + a² * d * x1 * y1² * x2 * y2² * x3 * y3² + a² * d * x1 * y1² * y2 * x3² * y3³ - a² * d * y1³ * x2² * y2 * x3 * y3²
     - a² * d * y1³ * x2 * y2² * x3² * y3 + a² * d * y1³ * x2 * x3² * y3³ + a² * d * y1³ * y2 * x3³ * y3²
     - a² * x1³ * y2 * y3³ - a² * x1² * y1 * x2 * y3³ - a² * x1² * y1 * y2 * x3 * y3² + a² * x1 * y1² * x2 * x3 * y3²
     - a² * x1 * y1² * y2 * x3² * y3 + a² * x1 * y1² * y2 * y3 + a² * x1 * y2 * y3³ - a² * y1³ * x2 * x3² * y3
     + a² * y1³ * x2 * y3 - a² * y1³ * y2 * x3³ + a² * y1³ * y2 * x3 + a² * y1 * x2 * y3³ + a² * y1 * y2 * x3 * y3²
     + a * d² * x1² * y1 * x2 * y2² * x3² * y3³ + a * d² * x1 * y1² * x2² * y2 * x3² * y3³
     - a * d² * x1 * y1² * x2 * y2² * x3³ * y3² + a * d * x1³ * x2 * y2² * x3 * y3² + a * d * x1³ * y2 * x3² * y3³
     - a * d * x1² * y1 * x2² * y2 * x3 * y3² - a * d * x1² * y1 * x2 * y2² * x3² * y3
     + a * d * x1² * y1 * x2 * x3² * y3³ + a * d * x1² * y1 * y2 * x3³ * y3² - a * d * x1 * y1² * x2² * y2 * x3² * y3
     - a * d * x1 * y1² * x2 * x3³ * y3² - a * d * x1 * x2 * y2² * x3 * y3² - a * d * x1 * y2 * x3² * y3³
     + a * d * y1 * x2² * y2 * x3 * y3² + a * d * y1 * x2 * y2² * x3² * y3 - a * d * y1 * x2 * x3² * y3³
     - a * d * y1 * y2 * x3³ * y3² + a * x1³ * x2 * x3 * y3² - a * x1³ * y2 * x3² * y3 + a * x1³ * y2 * y3
     - a * x1² * y1 * x2 * x3² * y3 + a * x1² * y1 * x2 * y3 - a * x1² * y1 * y2 * x3³ + a * x1² * y1 * y2 * x3
     + a * x1 * y1² * x2 * x3³ - a * x1 * y1² * x2 * x3 - a * x1 * x2 * x3 * y3² + a * x1 * y2 * x3² * y3
     - a * x1 * y2 * y3 + a * y1 * x2 * x3² * y3 - a * y1 * x2 * y3 + a * y1 * y2 * x3³ - a * y1 * y2 * x3
     + d² * x1² * y1 * x2² * y2 * x3³ * y3² - d * x1³ * x2² * y2 * x3² * y3 - d * x1³ * x2 * x3³ * y3²
     + d * x1 * x2² * y2 * x3² * y3 + d * x1 * x2 * x3³ * y3² + x1³ * x2 * x3³ - x1³ * x2 * x3 - x1 * x2 * x3³
     + x1 * x2 * x3)
    (a³ * x1 * y1² * y2³ * y3 + a³ * y1³ * x2 * y2² * y3 + a³ * y1³ * y2³ * x3 + a² * x1³ * y2³ * y3
     + a² * x1² * y1 * x2 * y2² * y3 + a² * x1² * y1 * y2³ * x3 + a² * x1 * y1² * x2² * y2 * y3
     - a² * x1 * y1² * x2 * y2² * x3 - a² * x1 * y1² * y2 * y3 - a² * x1 * y2³ * y3 + a² * y1³ * x2³ * y3
     + a² * y1³ * x2² * y2 * x3 - a² * y1³ * x2 * y3 - a² * y1³ * y2 * x3 - a² * y1 * x2 * y2² * y3 - a² * y1 * y2³ * x3
     - a * d * x1² * y1 * x2 * y2² * y3 - a * d * x1 * y1² * x2² * y2 * y3 + a * d * x1 * y1² * x2 * y2² * x3
     + a * x1³ * x2² * y2 * y3 - a * x1³ * x2 * y2² * x3 - a * x1³ * y2 * y3 + a * x1² * y1 * x2³ * y3
     + a * x1² * y1 * x2² * y2 * x3 - a * x1² * y1 * x2 * y3 - a * x1² * y1 * y2 * x3 - a * x1 * y1² * x2³ * x3
     + a * x1 * y1² * x2 * x3 - a * x1 * x2² * y2 * y3 + a * x1 * x2 * y2² * x3 + a * x1 * y2 * y3 - a * y1 * x2³ * y3
     - a * y1 * x2² * y2 * x3 + a * y1 * x2 * y3 + a * y1 * y2 * x3 - d * x1² * y1 * x2² * y2 * x3 - x1³ * x2³ * x3
     + x1³ * x2 * x3 + x1 * x2³ * x3 - x1 * x2 * x3)
    _ _ _ _ _ _ _ _ H1 H2 H3). ring.
Qed.

Lemma assoc_y_identity :
  (A * y3 * (1 + e) + C * x3 * (1 - e)) * ((1 - e') * (1 + e') + d * x1 * y1 * A' * C') =
  (x1 * C' * (1 - e') + y1 * A' * (1 + e')) * ((1 - e) * (1 + e) + d * A * C * x3 * y3).
Proof.
  apply (combination3
    (- a² * d * y1 * x2² * y2³ * y3³ - a² * d * y1 * x2 * y2² * y2² * x3 * y3² + a * d² * y1 * x2³ * y2² * y2² * x3 * y3²
     + a * d * x1 * x2³ * y2² * y3³ - a * d * x1 * x2 * y2² * y2² * x3² * y3 + a * d * y1 * x2² * y2³ * y3
     + d² * x1 * x2² * x2² * y2³ * x3 * y3² + d² * x1 * x2³ * y2² * y2² * x3² * y3 - d² * y1 * x2² * x2² * y2³ * x3² * y3
     - d * x1 * x2² * x2² * y2 * x3 * y3² - d * x1 * x2³ * y2² * y3 + d * x1 * x2² * y2³ * x3³ - d * x1 * x2² * y2³ * x3
     + d * y1 * x2² * x2² * y2 * x3² * y3 + d * y1 * x2³ * y2² * x3³ - d * y1 * x2³ * y2² * x3)
    (- a³ * y1³ * y2 * y3³ + a² * d * y1³ * x2 * y2² * x3 * y3² + a² * d * y1³ * y2 * x3² * y3³
     - a² * x1² * y1 * y2 * y3³ + a² * x1 * y1² * x2 * y3³ + a² * x1 * y1² * y2 * x3 * y3² + a² * y1³ * x2 * x3 * y3²
     - a² * y1³ * y2 * x3² * y3 + a² * y1³ * y2 * y3 + a² * y1 * y2 * y3³ - a * d² * x1 * y1² * x2 * y2² * x3² * y3³
     + a * d * x1² * y1 * x2 * y2² * x3 * y3² + a * d * x1² * y1 * y2 * x3² * y3³
     + a * d * x1 * y1² * x2² * y2 * x3 * y3² + a * d * x1 * y1² * x2 * y2² * x3² * y3
     - a * d * x1 * y1² * x2 * x3² * y3³ - a * d * x1 * y1² * y2 * x3³ * y3² - a * d * y1³ * x2² * y2 * x3² * y3
     - a * d * y1³ * x2 * x3³ * y3² - a * d * y1 * x2 * y2² * x3 * y3² - a * d * y1 * y2 * x3² * y3³ + a * x1³ * x2 * y3³
     + a * x1³ * y2 * x3 * y3² + a * x1² * y1 * x2 * x3 * y3² - a * x1² * y1 * y2 * x3² * y3 + a * x1² * y1 * y2 * y3
     + a * x1 * y1² * x2 * x3² * y3 - a * x1 * y1² * x2 * y3 + a * x1 * y1² * y2 * x3³ - a * x1 * y1² * y2 * x3
     - a * x1 * x2 * y3³ - a * x1 * y2 * x3 * y3² + a * y1³ * x2 * x3³ - a * y1³ * x2 * x3 - a * y1 * x2 * x3 * y3²
     + a * y1 * y2 * x3² * y3 - a * y1 * y2 * y3 + d² * x1² * y1 * x2² * y2 * x3² * y3³
     - d² * x1² * y1 * x2 * y2² * x3³ * y3² - d² * x1 * y1² * x2² * y2 * x3³ * y3² + d * x1³ * x2² * y2 * x3 * y3²
     + d * x1³ * x2 * y2² * x3² * y3 - d * x1³ * x2 * x3² * y3³ - d * x1³ * y2 * x3³ * y3²
     - d * x1² * y1 * x2² * y2 * x3² * y3 - d * x1² * y1 * x2 * x3³ * y3² - d * x1 * x2² * y2 * x3 * y3²
     - d * x1 * x2 * y2² * x3² * y3 + d * x1 * x2 * x3² * y3³ + d * x1 * y2 * x3³ * y3² + d * y1 * x2² * y2 * x3² * y3
     + d * y1 * x2 * x3³ * y3² + x1³ * x2 * x3² * y3 - x1³ * x2 * y3 + x1³ * y2 * x3³ - x1³ * y2 * x3
     + x1² * y1 * x2 * x3³ - x1² * y1 * x2 * x3 - x1 * x2 * x3² * y3 + x1 * x2 * y3 - x1 * y2 * x3³ + x1 * y2 * x3
     - y1 * x2 * x3³ + y1 * x2 * x3)
    (a³ * y1³ * y2³ * y3 + a² * x1² * y1 * y2³ * y3 - a² * x1 * y1² * x2 * y2² * y3 - a² * x1 * y1² * y2³ * x3
     + a² * y1³ * x2² * y2 * y3 - a² * y1³ * x2 * y2² * x3 - a² * y1³ * y2 * y3 - a² * y1 * y2³ * y3
     + a * d * x1 * y1² * x2 * y2² * y3 - a * x1³ * x2 * y2² * y3 - a * x1³ * y2³ * x3 + a * x1² * y1 * x2² * y2 * y3
     - a * x1² * y1 * x2 * y2² * x3 - a * x1² * y1 * y2 * y3 - a * x1 * y1² * x2³ * y3 - a * x1 * y1² * x2² * y2 * x3
     + a * x1 * y1² * x2 * y3 + a * x1 * y1² * y2 * x3 + a * x1 * x2 * y2² * y3 + a * x1 * y2³ * x3 - a * y1³ * x2³ * x3
     + a * y1³ * x2 * x3 - a * y1 * x2² * y2 * y3 + a * y1 * x2 * y2² * x3 + a * y1 * y2 * y3
     - d * x1² * y1 * x2² * y2 * y3 + d * x1² * y1 * x2 * y2² * x3 + d * x1 * y1² * x2² * y2 * x3 - x1³ * x2³ * y3
     - x1³ * x2² * y2 * x3 + x1³ * x2 * y3 + x1³ * y2 * x3 - x1² * y1 * x2³ * x3 + x1² * y1 * x2 * x3 + x1 * x2³ * y3
     + x1 * x2² * y2 * x3 - x1 * x2 * y3 - x1 * y2 * x3 + y1 * x2³ * x3 - y1 * x2 * x3)
    _ _ _ _ _ _ _ _ H1 H2 H3). ring.
Qed.
End Identities.

(** ** The law where it is defined *)

Lemma regular_factors P Q : regular P Q →
  let e := d * P.1 * Q.1 * P.2 * Q.2 in 1 - e ≠ 0 ∧ 1 + e ≠ 0.
Proof.
  destruct P as [x1 y1], Q as [x2 y2]. cbn. intros H. split; intros E; apply H; rewrite E; ring.
Qed.

(** The coordinates of a sum are quotients. *)
Lemma eadd_quotients P Q : regular P Q →
  let e := d * P.1 * Q.1 * P.2 * Q.2 in
  (eadd P Q).1 * (1 - e) = P.1 * Q.1 - a * P.2 * Q.2 ∧ (eadd P Q).2 * (1 + e) = P.1 * Q.2 + Q.1 * P.2.
Proof.
  intros H. destruct (regular_factors P Q H) as [Hm Hp']. destruct P as [x1 y1], Q as [x2 y2]. cbn in *.
  split; field; by repeat split.
Qed.

Lemma eadd_undefined P Q : ¬ regular P Q → eadd P Q = (0, 0).
Proof.
  destruct P as [x1 y1], Q as [x2 y2]. unfold regular, eadd. cbn. intros H. destruct (decide ((1 - d * x1 * x2 * y1 * y2) * (1 + d * x1 * x2 * y1 * y2) = 0)) as [E|E]; [|done].
  rewrite E, inv_zero. f_equal; ring.
Qed.

(** Comparing with quotients. *)
Lemma quotient_eq P Q u v : regular P Q → let e := d * P.1 * Q.1 * P.2 * Q.2 in
  u * (1 - e) = P.1 * Q.1 - a * P.2 * Q.2 → v * (1 + e) = P.1 * Q.2 + Q.1 * P.2 → eadd P Q = (u, v).
Proof.
  intros H e Hu Hv. destruct (regular_factors P Q H) as [Hm Hp']. destruct (eadd_quotients P Q H) as [E1 E2].
  destruct (eadd P Q) as [x y]. fold e in Hm, Hp', E1, E2. cbn [fst snd] in E1, E2. f_equal.
  - apply (mul_cancel (1 - e)); [done|]. rewrite <- (Zmod.mul_comm u), Hu, <- E1. ring.
  - apply (mul_cancel (1 + e)); [done|]. rewrite <- (Zmod.mul_comm v), Hv, <- E2. ring.
Qed.

Lemma eadd_comm P Q : eadd P Q = eadd Q P.
Proof.
  destruct P as [x1 y1], Q as [x2 y2]. unfold eadd.
  replace (d * x2 * x1 * y2 * y1) with (d * x1 * x2 * y1 * y2) by ring. f_equal; ring.
Qed.

Lemma regular_sym P Q : regular P Q → regular Q P.
Proof. destruct P as [x1 y1], Q as [x2 y2]. unfold regular. by replace (d * x2 * x1 * y2 * y1) with (d * x1 * x2 * y1 * y2) by ring. Qed.

Lemma eadd_neutral P : eadd P neutral = P.
Proof.
  destruct P as [x y]. apply quotient_eq; cbn; [|ring..].
  intros E. apply one_nonzero. rewrite <- E. ring.
Qed.

Lemma eadd_neg_neg P Q : eadd (neg P) (neg Q) = neg (eadd P Q).
Proof.
  destruct P as [x1 y1], Q as [x2 y2]. unfold eadd, neg.
  replace (d * x1 * x2 * - y1 * - y2) with (d * x1 * x2 * y1 * y2) by ring. f_equal; ring.
Qed.

Lemma neg_neg P : neg (neg P) = P.
Proof. destruct P as [x y]. cbn. f_equal. ring. Qed.

Lemma eadd_neg P : on_curve P → regular P P → eadd P (neg P) = neutral.
Proof.
  destruct P as [x y]. intros HP H. unfold on_curve in HP. unfold regular in H. apply quotient_eq; cbn; [|..|ring].
  - intros E. apply H. rewrite <- E. ring.
  - replace (x² - a * y * - y) with (x² + a * y²) by ring. rewrite HP. ring.
Qed.

Lemma eadd_on_curve P Q : d ≠ 0 → on_curve P → on_curve Q → regular P Q → on_curve (eadd P Q).
Proof.
  intros Hd HP HQ H. destruct (eadd_quotients P Q H) as [E1 E2]. destruct (regular_factors P Q H) as [Hm Hp'].
  destruct P as [x1 y1], Q as [x2 y2], (eadd _ _) as [x y]. cbn in *. pose proof (closure_identity x1 y1 x2 y2 Hd HP HQ) as E.
  cbv zeta in *. rewrite <- E1, <- E2 in E. set (e := d * x1 * x2 * y1 * y2) in *. set (k := (1 - e)² * (1 + e)²).
  apply (mul_cancel k); [by repeat apply mul_nonzero|]. unfold k.
  trans ((x * (1 - e) * (1 + e))² + a * (y * (1 + e) * (1 - e))²); [ring|]. rewrite E. ring.
Qed.

(** Associativity, where all the sums are defined. *)
Lemma eadd_assoc_regular P Q R : on_curve P → on_curve Q → on_curve R →
  regular P Q → regular Q R → regular (eadd P Q) R → regular P (eadd Q R) → eadd (eadd P Q) R = eadd P (eadd Q R).
Proof.
  intros HP HQ HR H1 H2 H3 H4. destruct (eadd_quotients _ _ H3) as [E5 E6], (eadd_quotients _ _ H4) as [E7 E8].
  destruct (regular_factors _ _ H1) as [N1 N2], (regular_factors _ _ H2) as [N3 N4], (regular_factors _ _ H3) as [N5 N6], (regular_factors _ _ H4) as [N7 N8].
  destruct (eadd_quotients P Q H1) as [E1 E2], (eadd_quotients Q R H2) as [E3 E4].
  destruct P as [x1 y1], Q as [x2 y2], R as [x3 y3]. pose proof (assoc_x_identity _ _ _ _ _ _ HP HQ HR) as Ix.
  pose proof (assoc_y_identity _ _ _ _ _ _ HP HQ HR) as Iy. clear HP HQ HR H1 H2 H3 H4.
  destruct (eadd (x1, y1) (x2, y2)) as [xs ys], (eadd (x2, y2) (x3, y3)) as [xt yt].
  destruct (eadd (xs, ys) (x3, y3)) as [xu yu], (eadd (x1, y1) (xt, yt)) as [xv yv]. cbn [fst snd] in *.
  rewrite <- E1, <- E2, <- E3, <- E4 in Ix, Iy. clear E1 E2 E3 E4.
  set (m := d * x1 * x2 * y1 * y2) in *. set (n := d * x2 * x3 * y2 * y3) in *.
  set (k := (1 - m) * (1 + m) * ((1 - n) * (1 + n))). assert (k ≠ 0) as Hk by (by repeat apply mul_nonzero).
  f_equal.
  - set (f := d * xs * x3 * ys * y3) in *. set (g := d * x1 * xt * y1 * yt) in *.
    apply (mul_cancel (k * ((1 - f) * (1 - g)))); [by repeat apply mul_nonzero|].
    trans (k * ((xu * (1 - f)) * (1 - g))); [ring|]. trans (k * ((xv * (1 - g)) * (1 - f))); [|ring]. rewrite E5, E7.
    unfold k, f, g. trans ((xs * (1 - m) * x3 * (1 + m) - a * (ys * (1 + m)) * y3 * (1 - m)) * ((1 - n) * (1 + n) - d * x1 * y1 * (xt * (1 - n)) * (yt * (1 + n)))); [ring|].
    rewrite Ix. ring.
  - set (f := d * xs * x3 * ys * y3) in *. set (g := d * x1 * xt * y1 * yt) in *.
    apply (mul_cancel (k * ((1 + f) * (1 + g)))); [by repeat apply mul_nonzero|].
    trans (k * ((yu * (1 + f)) * (1 + g))); [ring|]. trans (k * ((yv * (1 + g)) * (1 + f))); [|ring]. rewrite E6, E8.
    unfold k, f, g. trans ((xs * (1 - m) * y3 * (1 + m) + ys * (1 + m) * x3 * (1 - m)) * ((1 - n) * (1 + n) + d * x1 * y1 * (xt * (1 - n)) * (yt * (1 + n)))); [ring|].
    rewrite Iy. ring.
Qed.

(** ** Projective coordinates *)

(** The law of the standard, step by step. *)
Definition padd (s t : K * K * K) : K * K * K :=
  let '(x1, y1, z1) := s in let '(x2, y2, z2) := t in
  let zz := z1 * z2 in let b := zz² in let c := x1 * x2 in let dd := y1 * y2 in let e := d * c * dd in
  let f := b - e in let g := b + e in let cross := (x1 + y1) * (x2 + y2) in
  (zz * g * (c - a * dd), zz * f * (cross - c - dd), f * g).

Definition affine_of (s : K * K * K) : point := let '(x, y, z) := s in (x * Zmod.inv z, y * Zmod.inv z).

(** Without any condition: where a sum is not defined, both sides are the point [(0, 0)], off the curve. *)
Lemma affine_padd s t : affine_of (padd s t) = eadd (affine_of s) (affine_of t).
Proof.
  destruct s as [[x1 y1] z1], t as [[x2 y2] z2]. unfold padd, affine_of, eadd. cbv zeta.
  destruct (decide (z1 = 0)) as [->|H1]; [rewrite inv_zero; f_equal; ring|].
  destruct (decide (z2 = 0)) as [->|H2]; [rewrite inv_zero; f_equal; ring|].
  pose proof (mul_nonzero z1 z2 H1 H2) as Hz. pose proof (mul_nonzero _ _ Hz Hz) as Hzz.
  set (e := d * (x1 * Zmod.inv z1) * (x2 * Zmod.inv z2) * (y1 * Zmod.inv z1) * (y2 * Zmod.inv z2)).
  assert (d * (x1 * x2) * (y1 * y2) = (z1 * z2)² * e) as -> by (unfold e; field; done). clearbody e.
  replace ((z1 * z2)² - (z1 * z2)² * e) with ((z1 * z2)² * (1 - e)) by ring.
  replace ((z1 * z2)² + (z1 * z2)² * e) with ((z1 * z2)² * (1 + e)) by ring.
  destruct (decide ((1 - e) * (1 + e) = 0)) as [E|E].
  - replace ((z1 * z2)² * (1 - e) * ((z1 * z2)² * (1 + e))) with ((z1 * z2)² * (z1 * z2)² * ((1 - e) * (1 + e))) by ring.
    rewrite E, Zmod.mul_0_r, inv_zero. f_equal; ring.
  - assert (1 - e ≠ 0) by (intros E'; apply E; rewrite E'; ring). assert (1 + e ≠ 0) by (intros E'; apply E; rewrite E'; ring).
    f_equal; field; by repeat split.
Qed.

Lemma affine_of_affine P : affine_of (P, 1) = P.
Proof. destruct P as [x y]. cbn. f_equal; field; apply one_nonzero. Qed.

(** Double-and-add, most significant bit first. *)
Definition ladder_step P (acc : point) (bit : bool) : point :=
  let acc := eadd acc acc in if bit then eadd acc P else acc.

Lemma neg_neutral : neg neutral = neutral.
Proof. unfold neg, neutral. f_equal. ring. Qed.

(** The negation of a point goes through, defined or not. *)
Lemma ladder_neg P bits : ∀ acc, foldl (ladder_step (neg P)) (neg acc) bits = neg (foldl (ladder_step P) acc bits).
Proof.
  induction bits as [|b bits IH]; intros acc; [done|]. cbn [foldl]. rewrite <- IH. f_equal. unfold ladder_step.
  destruct b; by rewrite !eadd_neg_neg.
Qed.

(** ** The complete subset *)

Section Complete.
Context (i : K) (Hi : i² = 0 - 1) (Hd : ∀ s, s² ≠ d) (Had : a ≠ d).

Definition in_group P : Prop := on_curve P ∧ ∃ u, u² = (a - d) * (1 - (P.1)²).

Lemma d_nonzero : d ≠ 0.
Proof. intros E. apply (Hd 0). rewrite E. ring. Qed.

Lemma ad_nonzero : a - d ≠ 0.
Proof. intros E. by apply Had, sub_zero. Qed.

Lemma square_zero x : x² = 0 → x = 0.
Proof. intros E. by apply mul_zero in E as [?|?]. Qed.

(** The points with [x^2 = 1] are the neutral element and one of order two. *)
Lemma x_square_one x y : on_curve (x, y) → x² = 1 → y = 0.
Proof.
  intros H E. apply square_zero. destruct (mul_zero (a - d) y²) as [F|F]; [|by apply ad_nonzero in F|done].
  unfold on_curve in H. rewrite E in H. replace ((a - d) * y²) with (1 + a * y² - (1 + d * 1 * y²)) by ring.
  replace (d * 1 * y²) with (d * x² * y²) by (by rewrite E). rewrite E in *. rewrite H. ring.
Qed.

Lemma root_zero x y : on_curve (x, y) → (a - d) * (1 - x²) = 0 → x² = 1 ∧ y = 0.
Proof.
  intros H E. assert (x² = 1) as Ex; [|split; [done|by apply (x_square_one x)]].
  apply mul_zero in E as [E|E]; [by apply ad_nonzero in E|]. symmetry. by apply sub_zero.
Qed.

(** The key step: a pair outside the domain of the law would make [d] a square. *)
Lemma in_group_regular P Q : in_group P → in_group Q → regular P Q.
Proof.
  destruct P as [x1 y1], Q as [x2 y2]. intros [H1 [u1 U1]] [H2 [u2 U2]]. cbn [fst snd] in *. unfold regular. cbv zeta. intros E.
  set (e := d * x1 * x2 * y1 * y2) in *. assert (e² = 1) as Ee by (symmetry; apply sub_zero; rewrite <- E; ring). clear E.
  assert ((a * d * y1² * y2² - 1) * (d * x2² * y1² - 1) = 0) as Ef.
  { unfold on_curve in H1, H2.
    trans (d * y1² * (d * x2² * y2² * (x1² + a * y1²) - (d * x2² * y2² + e²)) - (e² - 1)
           + d * y1² * (d * x2² * y2² + e² - (x2² + a * y2²))); [unfold e; ring|].
    rewrite H1, H2. replace (d * x2² * y2² * (1 + d * x1² * y1²)) with (d * x2² * y2² + e²) by (unfold e; ring). rewrite Ee. ring. }
  apply mul_zero in Ef as [Ef|Ef]; apply sub_zero in Ef.
  - assert (d * x1² * x2² = a) as Ea.
    { trans (d * x1² * x2² * (a * d * y1² * y2²)); [rewrite Ef; ring|]. trans (a * e²); [unfold e; ring|]. rewrite Ee. ring. }
    assert (u1 ≠ 0) as Hu.
    { intros ->. destruct (root_zero x1 y1 H1) as [_ ->]; [rewrite <- U1; ring|]. apply one_nonzero. rewrite <- Ee. unfold e. ring. }
    set (w := u1 * u2 * x1 * y1). assert (d * w² = (i * u1²)²) as Ew.
    { replace (d * w²) with (u1² * u2² * (d * x1² * y1²)) by (unfold w; ring). replace ((i * u1²)²) with (i² * (u1²)²) by ring.
      rewrite U1, U2, Hi. unfold on_curve in H1.
      trans ((a - d)² * (1 - x1²) * (y1² * (d * x1² - d * x1² * x2²))); [ring|]. rewrite Ea.
      trans ((a - d)² * (1 - x1²) * (- (x1² + a * y1² - d * x1² * y1² - x1²))); [ring|]. rewrite H1. ring. }
    assert (w ≠ 0) as Hw.
    { intros F. rewrite F in Ew. replace (d * 0²) with (0 : K) in Ew by ring. symmetry in Ew. apply square_zero in Ew. apply mul_zero in Ew as [F'|F'].
      - rewrite F' in Hi. apply one_nonzero. replace (1 : K) with (0 - (0 - 1 : K)) by ring. rewrite <- Hi. ring.
      - by apply Hu, square_zero. }
    apply (Hd (i * u1² * Zmod.inv w)). trans ((i * u1²)² * (Zmod.inv w)²); [ring|]. rewrite <- Ew. field. done.
  - apply (Hd (d * x2 * y1)). trans (d * (d * x2² * y1²)); [ring|]. rewrite Ef. ring.
Qed.

Lemma in_group_neutral : in_group neutral.
Proof. split; [unfold on_curve, neutral; ring|]. exists 0. unfold neutral. cbn. ring. Qed.

Lemma in_group_neg P : in_group P → in_group (neg P).
Proof. destruct P as [x y]. intros [H U]. split; [|done]. unfold on_curve, neg in *. trans (x² + a * y²); [ring|]. rewrite H. ring. Qed.

(** A summand with [x^2 = 1] keeps the square of the coordinate. *)
Lemma in_group_degenerate x1 x2 y2 : x1² = 1 → in_group (x2, y2) → on_curve (eadd (x1, 0) (x2, y2)) →
  in_group (eadd (x1, 0) (x2, y2)).
Proof.
  intros E [_ [u U]] Hon. split; [done|]. exists u. rewrite U. cbn [fst].
  assert ((eadd (x1, 0) (x2, y2)).1 = x1 * x2) as ->; [|trans ((a - d) * (1 - x1² * x2²)); [rewrite E; ring|ring]].
  unfold eadd. cbv zeta. cbn [fst]. replace (d * x1 * x2 * 0 * y2) with (0 : K) by ring.
  replace ((1 - 0) * (1 + 0)) with (1 : K) by ring. rewrite Zmod.inv_1. ring.
Qed.

Lemma in_group_eadd P Q : in_group P → in_group Q → in_group (eadd P Q).
Proof.
  intros HP HQ. pose proof (in_group_regular P Q HP HQ) as Hr.
  pose proof (eadd_on_curve P Q d_nonzero (proj1 HP) (proj1 HQ) Hr) as Hon.
  destruct P as [x1 y1], Q as [x2 y2]. pose proof HP as [H1 [u1 U1]]. pose proof HQ as [H2 [u2 U2]]. cbn [fst snd] in *.
  destruct (decide (u1 = 0)) as [->|N1].
  { destruct (root_zero x1 y1 H1) as [E ->]; [rewrite <- U1; ring|]. by apply in_group_degenerate. }
  destruct (decide (u2 = 0)) as [->|N2].
  { destruct (root_zero x2 y2 H2) as [E ->]; [rewrite <- U2; ring|]. rewrite eadd_comm in *. by apply in_group_degenerate. }
  split; [done|]. destruct (eadd_quotients _ _ Hr) as [E1 _]. destruct (regular_factors _ _ Hr) as [Hm _]. cbn [fst snd] in *. cbv zeta in *.
  pose proof (square_identity x1 y1 x2 y2 d_nonzero H1 H2) as Is. rewrite <- E1 in Is.
  set (e := d * x1 * x2 * y1 * y2) in *. set (x := (eadd (x1, y1) (x2, y2)).1) in *. clearbody x e.
  set (m := x1 * y1 * (1 - x2²) + x2 * y2 * (1 - x1²)) in *. clearbody m.
  exists ((a - d)² * m * Zmod.inv ((1 - e) * (u1 * u2))). set (w := (1 - e) * (u1 * u2)).
  assert (w ≠ 0) as Hw by (by repeat apply mul_nonzero). apply (mul_cancel w²); [by apply mul_nonzero|].
  trans (((a - d)² * m)²); [field; done|]. trans ((a - d)² * (a - d) * ((a - d) * m²)); [ring|]. rewrite <- Is.
  unfold w. trans ((1 - e)² * (u1² * u2²) * ((a - d) * (1 - x²))); [rewrite U1, U2; ring|ring].
Qed.

Lemma eadd_assoc P Q R : in_group P → in_group Q → in_group R → eadd (eadd P Q) R = eadd P (eadd Q R).
Proof.
  intros HP HQ HR. pose proof (in_group_eadd _ _ HP HQ) as HPQ. pose proof (in_group_eadd _ _ HQ HR) as HQR.
  apply eadd_assoc_regular; by (apply in_group_regular || apply HP || apply HQ || apply HR).
Qed.

Lemma eadd_neg_r P : in_group P → eadd P (neg P) = neutral.
Proof. intros HP. apply eadd_neg; [apply HP|by apply in_group_regular]. Qed.

(** ** Multiples *)

Definition smul (n : nat) P : point := Nat.iter n (eadd P) neutral.

Lemma smul_in_group n P : in_group P → in_group (smul n P).
Proof. intros HP. induction n as [|n IH]; [apply in_group_neutral|by apply in_group_eadd]. Qed.

Lemma smul_S n P : smul (S n) P = eadd P (smul n P).
Proof. done. Qed.

Lemma smul_1 P : smul 1 P = P.
Proof. apply eadd_neutral. Qed.

Lemma smul_add m n P : in_group P → smul (m + n) P = eadd (smul m P) (smul n P).
Proof.
  intros HP. induction m as [|m IH]; cbn [Nat.add]; [by rewrite eadd_comm, eadd_neutral|].
  rewrite !smul_S, IH. symmetry. apply eadd_assoc; by try apply smul_in_group.
Qed.

Lemma smul_neutral n : smul n neutral = neutral.
Proof. induction n as [|n IH]; [done|]. by rewrite smul_S, IH, eadd_neutral. Qed.

Lemma smul_mul m n P : in_group P → smul (m * n) P = smul m (smul n P).
Proof.
  intros HP. induction m as [|m IH]; [done|]. cbn [Nat.mul]. by rewrite smul_add, IH.
Qed.

Lemma smul_neg n P : smul n (neg P) = neg (smul n P).
Proof.
  induction n as [|n IH]; [unfold smul, neutral; cbn; f_equal; ring|]. by rewrite !smul_S, IH, eadd_neg_neg.
Qed.

(** A point of prime order [n] has no smaller multiple that vanishes. *)
Lemma smul_order (n k : nat) P : in_group P → Z.prime n → P ≠ neutral → smul n P = neutral → smul k P = neutral → (n | k)%Z.
Proof.
  intros HP Hn HnP En Ek. destruct (prime_bezout n k Hn) as [|(u & v & Huv)]; [done|]. exfalso. apply HnP.
  trans (smul (u * k) P); [|by rewrite smul_mul, Ek, smul_neutral].
  by rewrite Huv, smul_add, smul_mul, En, smul_neutral, eadd_neutral, smul_1.
Qed.

Definition bits_value : nat → list bool → nat := foldl (λ n b, (2 * n + Nat.b2n b)%nat).

Lemma ladder_smul P bits : in_group P → ∀ n, foldl (ladder_step P) (smul n P) bits = smul (bits_value n bits) P.
Proof.
  intros HP. unfold bits_value. induction bits as [|b bits IH]; intros n; [done|]. cbn [foldl]. rewrite <- IH. f_equal.
  unfold ladder_step. rewrite <- smul_add by done. replace (2 * n)%nat with (n + n)%nat by lia.
  destruct b; cbn [Nat.b2n]; [by rewrite (smul_add (n + n) 1), smul_1|by rewrite Nat.add_0_r].
Qed.

(** ** Points that a ladder brings to the neutral element

    An undefined sum is the pair of zeros, and so is every sum with it: a ladder that ends elsewhere met only defined
    sums.  If it ends in the neutral element with an odd scalar, the point is the negation of a double, and doubles are
    in the complete subset. *)

Lemma neutral_nonzero : neutral ≠ (0, 0).
Proof. intros E. apply (f_equal fst) in E. by apply one_nonzero. Qed.

Lemma eadd_zero_l Q : eadd (0, 0) Q = (0, 0).
Proof. destruct Q as [x y]. unfold eadd. f_equal; ring. Qed.

Lemma regular_decision P Q : regular P Q ∨ eadd P Q = (0, 0).
Proof.
  destruct (decide (1 - d * P.1 * Q.1 * P.2 * Q.2 = 0 ∨ 1 + d * P.1 * Q.1 * P.2 * Q.2 = 0)) as [H|H].
  - right. apply eadd_undefined. intros Hr. destruct (regular_factors P Q Hr). tauto.
  - left. destruct P as [x1 y1], Q as [x2 y2]. cbn in H. unfold regular. apply mul_nonzero; tauto.
Qed.

Lemma double_in_group P : on_curve P → regular P P → in_group (eadd P P).
Proof.
  intros HP Hr. split; [by apply eadd_on_curve; [apply d_nonzero|..]|]. destruct (eadd_quotients P P Hr) as [E _]. destruct (regular_factors P P Hr) as [Hm _].
  destruct P as [x y]. cbn [fst snd] in *. unfold on_curve in HP. set (e := d * x * x * y * y) in *. set (X := (eadd (x, y) (x, y)).1) in *.
  exists ((1 + 1) * (a - d) * x * y * Zmod.inv (1 - e)). set (u := _ * Zmod.inv (1 - e)). assert (u * (1 - e) = (1 + 1) * (a - d) * x * y) as Eu.
  { unfold u. trans ((1 + 1) * (a - d) * x * y * ((1 - e) * Zmod.inv (1 - e))); [ring|]. rewrite mul_inv by done. ring. }
  apply (mul_cancel ((1 - e)²)); [by apply mul_nonzero|]. trans ((u * (1 - e))²); [ring|]. rewrite Eu.
  trans ((a - d) * ((1 - e)² - (X * (1 - e))²)); [|ring]. rewrite E.
  replace ((1 - e)²) with ((1 + d * x² * y²)² - (1 + 1 + 1 + 1) * e) by (unfold e; ring). rewrite <- HP. unfold e. ring.
Qed.

Lemma ladder_curve P bits : on_curve P → ∀ acc, on_curve acc ∨ acc = (0, 0) →
  on_curve (foldl (ladder_step P) acc bits) ∨ foldl (ladder_step P) acc bits = (0, 0).
Proof.
  intros HP. assert (∀ Q R, on_curve Q ∨ Q = (0, 0) → R = Q ∨ on_curve R → on_curve (eadd Q R) ∨ eadd Q R = (0, 0)) as Hadd.
  { intros Q R [HQ| ->] HR; [|right; apply eadd_zero_l]. assert (on_curve R) as HR' by (by destruct HR as [->|]).
    destruct (regular_decision Q R); [left|by right]. by apply eadd_on_curve; [apply d_nonzero|..]. }
  induction bits as [|b bits IH]; intros acc Hacc; [done|]. cbn [foldl]. apply IH. unfold ladder_step. destruct b; auto.
Qed.

Lemma ladder_odd P bits : on_curve P → foldl (ladder_step P) neutral (bits ++ [true]) = neutral → in_group P.
Proof.
  intros HP. rewrite foldl_app. cbn [foldl]. destruct (ladder_curve P bits HP neutral) as [Hacc|Hacc]; [left; apply in_group_neutral| |].
  2: { rewrite Hacc. unfold ladder_step. rewrite !eadd_zero_l. intros E. by destruct (neutral_nonzero (eq_sym E)). }
  set (acc := foldl _ _ bits) in *. clearbody acc. unfold ladder_step. set (D := eadd acc acc). intros E.
  assert (in_group D) as HD.
  { apply double_in_group; [done|]. destruct (regular_decision acc acc) as [|F]; [done|]. fold D in F. rewrite F, eadd_zero_l in E. by destruct neutral_nonzero. }
  assert (regular D P) as Hr. { destruct (regular_decision D P) as [|F]; [done|]. rewrite F in E. by destruct neutral_nonzero. }
  assert (P = neg D) as ->; [|by apply in_group_neg]. pose proof (in_group_neg _ HD) as HnD.
  trans (eadd (eadd (neg D) D) P); [by rewrite (eadd_comm (neg D)), eadd_neg_r, eadd_comm, eadd_neutral|].
  assert (∀ Q, regular neutral Q) as Hn. { intros [x y]. unfold regular, neutral. intros F. apply one_nonzero. rewrite <- F. ring. }
  rewrite eadd_assoc_regular; [by rewrite E, eadd_neutral|apply HnD|apply HD|done|by apply in_group_regular|done| |].
  - by rewrite (eadd_comm (neg D)), eadd_neg_r.
  - rewrite E. by apply regular_sym.
Qed.
End Complete.
End Edwards.
