(* ===== verification/EdwardsEval.v ===== *)
(** Evaluation of multiples on the curves of [Edwards.v], with machine words for the integers: it decides that
    a scalar takes a point to the neutral element. *)

From Stdlib Require Import ZmodDef ZmodBase ZmodInv.
From Bignums Require Import BigZ.
From S2P Require Import Prelude Edwards.

Section Eval.
Context {p : Z} (Hp : Z.prime p) (m a d : BigZ.t) (Hm : BigZ.to_Z m = p).

Definition of_big (z : BigZ.t) : Zmod p := Zmod.of_Z p (BigZ.to_Z z).
Definition red (z : BigZ.t) : BigZ.t := BigZ.modulo z m.

Definition big_padd (s t : BigZ.t * BigZ.t * BigZ.t) : BigZ.t * BigZ.t * BigZ.t :=
  (let '(x1, y1, z1) := s in let '(x2, y2, z2) := t in
  let zz := red (z1 * z2) in let b := red (zz * zz) in let c := red (x1 * x2) in let dd := red (y1 * y2) in
  let e := red (d * c * dd) in let f := b - e in let g := b + e in let cross := (x1 + y1) * (x2 + y2) in
  (red (red (zz * g) * (c - a * dd)), red (red (zz * f) * (cross - c - dd)), red (f * g)))%bigZ.

Definition big_step (P acc : BigZ.t * BigZ.t * BigZ.t) (bit : bool) : BigZ.t * BigZ.t * BigZ.t :=
  let acc := big_padd acc acc in if bit then big_padd acc P else acc.

(** The multiple of [(x, y)] by the scalar of [bits] is the neutral element. *)
Definition neutral_check (x y : BigZ.t) (bits : list bool) : bool :=
  let '(u, v, w) := foldl (big_step (x, y, 1%bigZ)) (1%bigZ, 0%bigZ, 1%bigZ) bits in
  Z.eqb (BigZ.to_Z (red (u - w))) 0 && Z.eqb (BigZ.to_Z (red v)) 0 && negb (Z.eqb (BigZ.to_Z (red w)) 0).

Definition of_big3 (s : BigZ.t * BigZ.t * BigZ.t) : Zmod p * Zmod p * Zmod p := let '(x, y, z) := s in (of_big x, of_big y, of_big z).

Lemma of_big_red z : of_big (red z) = of_big z.
Proof. unfold of_big, red. by rewrite BigZ.spec_modulo, Hm, Zmod.of_Z_mod. Qed.
Lemma of_big_add x y : of_big (x + y)%bigZ = (of_big x + of_big y)%Zmod.
Proof. unfold of_big. by rewrite BigZ.spec_add, Zmod.of_Z_add. Qed.
Lemma of_big_sub x y : of_big (x - y)%bigZ = (of_big x - of_big y)%Zmod.
Proof. unfold of_big. by rewrite BigZ.spec_sub, Zmod.of_Z_sub. Qed.
Lemma of_big_mul x y : of_big (x * y)%bigZ = (of_big x * of_big y)%Zmod.
Proof. unfold of_big. by rewrite BigZ.spec_mul, Zmod.of_Z_mul. Qed.

Lemma of_big_zero z : BigZ.to_Z (red z) = 0 ↔ of_big z = Zmod.zero.
Proof.
  pose proof (Z.prime_ge_2 _ Hp). rewrite <- of_big_red. unfold of_big. rewrite <- Zmod.of_Z_0, Zmod.of_Z_inj.
  unfold red. rewrite BigZ.spec_modulo, Hm, Z.mod_mod, Z.mod_0_l by lia. done.
Qed.

Lemma of_big_padd s t : of_big3 (big_padd s t) = padd (of_big a) (of_big d) (of_big3 s) (of_big3 t).
Proof.
  destruct s as [[x1 y1] z1], t as [[x2 y2] z2]. unfold of_big3, big_padd, padd. cbv zeta.
  repeat first [rewrite of_big_red|rewrite of_big_mul|rewrite of_big_add|rewrite of_big_sub]. done.
Qed.

Lemma big_steps x y s bits :
  affine_of (of_big3 (foldl (big_step (x, y, 1%bigZ)) s bits)) =
  foldl (ladder_step (of_big a) (of_big d) (of_big x, of_big y)) (affine_of (of_big3 s)) bits.
Proof.
  revert s. induction bits as [|b bits IH]; intros s; [done|]. cbn [foldl]. rewrite IH. f_equal. unfold big_step, ladder_step.
  assert (affine_of (of_big3 (x, y, 1%bigZ)) = (of_big x, of_big y)) as Hb.
  { cbn [of_big3]. replace (of_big 1%bigZ) with (Zmod.one : Zmod p) by (by rewrite <- Zmod.of_Z_1). by apply (affine_of_affine Hp (of_big x, of_big y)). }
  destruct b; by rewrite !of_big_padd, !(affine_padd Hp), ?Hb.
Qed.

Lemma neutral_check_correct x y bits : neutral_check x y bits = true →
  foldl (ladder_step (of_big a) (of_big d) (of_big x, of_big y)) neutral bits = neutral.
Proof.
  intros H. assert (affine_of (of_big3 (1%bigZ, 0%bigZ, 1%bigZ)) = (neutral : @point p)) as E.
  { cbn [of_big3]. replace (of_big 1%bigZ) with (Zmod.one : Zmod p) by (by rewrite <- Zmod.of_Z_1).
    trans (Zmod.one : Zmod p, of_big 0%bigZ); [apply (affine_of_affine Hp (Zmod.one, of_big 0%bigZ))|]. done. }
  rewrite <- E at 1. rewrite <- big_steps. clear E. unfold neutral_check in H. destruct (foldl _ _ _) as [[u v] w].
  rewrite !andb_true_iff, negb_true_iff, !Z.eqb_eq, Z.eqb_neq in H. destruct H as [[Hu Hv] Hw].
  apply (proj1 (of_big_zero _)) in Hu, Hv. assert (of_big w ≠ Zmod.zero) as Hw' by (intros E; by apply Hw, of_big_zero).
  rewrite of_big_sub in Hu. apply (sub_zero Hp) in Hu. cbn [of_big3 affine_of]. rewrite Hu, Hv. unfold neutral. f_equal.
  - by apply mul_inv.
  - by rewrite Zmod.mul_0_l.
Qed.
End Eval.
