(* ===== verification/Curve9041.v ===== *)
(** The curves of DSTU 9041 ([hazmat/dstu9041/curve256.rs], [curve384.rs], [curve512.rs]): one text at three
    sizes, translated once over [fp] as in [Fp9041.v], and proved against the curves of [Edwards.v]. *)

From Stdlib Require Import Field ZmodDef ZmodBase ZmodInv.
From Bignums Require Import BigZ.
From S2P Require Import Prelude Limb Modular Primes Fp9041 Edwards EdwardsEval.

(** ** Constants *)

Definition BASE_X_256 : list Z :=
  [ 0x91; 0xf5; 0xd0; 0xe7; 0xe2; 0xd4; 0x17; 0xe3; 0x10; 0x8b; 0x13; 0xb0; 0x75; 0xcd; 0xc7; 0x75;
    0x60; 0x45; 0xf8; 0x42; 0x44; 0x79; 0xfc; 0xfe; 0x8f; 0x23; 0xd2; 0x72; 0x50; 0xa0; 0x88; 0x3f ].
Definition BASE_Y_256 : list Z :=
  [ 0x74; 0x2f; 0x27; 0xa2; 0x68; 0x64; 0x1c; 0x9d; 0x7d; 0xdf; 0x69; 0x89; 0x2b; 0xe3; 0xdf; 0x3d;
    0x8f; 0x9c; 0xc5; 0x22; 0x60; 0xb8; 0x9a; 0x49; 0x53; 0xc8; 0x37; 0x9c; 0x7c; 0x0a; 0x21; 0x2b ].
Definition ORDER_N_256 : list Z :=
  [ 0x40; 0; 0; 0; 0; 0; 0; 0; 0; 0; 0; 0; 0; 0; 0; 0;
    0x29; 0xe2; 0x60; 0x87; 0x78; 0x9b; 0xc2; 0x81; 0x5b; 0xdf; 0xf9; 0x70; 0x93; 0x54; 0x3c; 0xcf ].
Definition A_DIV_D_256 : list Z :=
  [ 0xea; 0xaa; 0xaa; 0xaa; 0xaa; 0xaa; 0xaa; 0xaa; 0xaa; 0xaa; 0xaa; 0xaa; 0xaa; 0xaa; 0xaa; 0xaa;
    0xaa; 0xaa; 0xaa; 0xaa; 0xaa; 0xaa; 0xaa; 0xaa; 0xaa; 0xaa; 0xaa; 0xaa; 0xaa; 0xaa; 0xa9; 0x1c ].

Definition BASE_X_384 : list Z :=
  [ 0xf5; 0xfc; 0x15; 0x1b; 0x62; 0x64; 0xcb; 0x53; 0xa4; 0xb8; 0x79; 0xaa; 0x9a; 0x1f; 0x4a; 0x51;
    0x56; 0xbb; 0xf0; 0x63; 0xb5; 0x6a; 0xaa; 0x91; 0x26; 0x17; 0xc0; 0xe4; 0xce; 0xff; 0x15; 0xd2;
    0xdf; 0x49; 0x7d; 0x9a; 0xef; 0x12; 0x37; 0x4a; 0x22; 0xd2; 0x2c; 0x3b; 0x40; 0x2b; 0x2c; 0x71 ].
Definition BASE_Y_384 : list Z :=
  [ 0xa9; 0x02; 0x72; 0x07; 0xe8; 0x80; 0x74; 0xf4; 0xaf; 0xa3; 0xd4; 0x4d; 0x45; 0x90; 0xdd; 0x04;
    0xba; 0xfb; 0xf6; 0xae; 0x3d; 0x32; 0x10; 0x91; 0xf5; 0; 0xc7; 0x83; 0xf4; 0x70; 0x79; 0x40;
    0xb7; 0xf5; 0xeb; 0xdd; 0x93; 0x32; 0x5c; 0x53; 0x91; 0x84; 0x3f; 0x9a; 0x78; 0x52; 0x6b; 0xb1 ].
Definition ORDER_N_384 : list Z :=
  [ 0x40; 0; 0; 0; 0; 0; 0; 0; 0; 0; 0; 0; 0; 0; 0; 0;
    0; 0; 0; 0; 0; 0; 0; 0; 0x0a; 0xf9; 0x05; 0xb7; 0x36; 0x74; 0xac; 0x7d;
    0x4a; 0xf3; 0x8c; 0x53; 0x33; 0x1d; 0xc2; 0x08; 0xa5; 0x17; 0xdc; 0xb3; 0xf3; 0x40; 0xee; 0xcf ].
Definition A_DIV_D_384 : list Z :=
  [ 0x3e; 0x8e; 0x6f; 0xa3; 0x9b; 0xe8; 0xe6; 0xfa; 0x39; 0xbe; 0x8e; 0x6f; 0xa3; 0x9b; 0xe8; 0xe6;
    0xfa; 0x39; 0xbe; 0x8e; 0x6f; 0xa3; 0x9b; 0xe8; 0xe6; 0xfa; 0x39; 0xbe; 0x8e; 0x6f; 0xa3; 0x9b;
    0xe8; 0xe6; 0xfa; 0x39; 0xbe; 0x8e; 0x6f; 0xa3; 0x9b; 0xe8; 0xe6; 0xfa; 0x39; 0xbe; 0x8c; 0x63 ].

Definition BASE_X_512 : list Z :=
  [ 0x52; 0x30; 0xa1; 0xee; 0x74; 0x70; 0x50; 0xa0; 0x72; 0xbd; 0x73; 0x19; 0x74; 0x15; 0x86; 0xea;
    0x52; 0x03; 0x88; 0xb6; 0xb5; 0x30; 0x94; 0x57; 0x1c; 0x82; 0x1a; 0x2f; 0xc9; 0xa9; 0xe8; 0x3d;
    0x56; 0x66; 0x53; 0x46; 0xb5; 0xdb; 0x04; 0xc4; 0x3e; 0x75; 0x26; 0x1d; 0xbd; 0xa5; 0x12; 0x72;
    0x8f; 0xaa; 0xfa; 0xc4; 0x8a; 0xe9; 0x26; 0x0a; 0x5a; 0x18; 0x4e; 0x29; 0x33; 0xe3; 0xa4; 0 ].
Definition BASE_Y_512 : list Z :=
  [ 0x05; 0x3a; 0x0d; 0x50; 0xcc; 0x63; 0xc9; 0x21; 0x97; 0x62; 0xf4; 0x51; 0x97; 0x8a; 0xef; 0x21;
    0x4d; 0xbc; 0xfc; 0xc3; 0xa5; 0xcb; 0x5e; 0xf2; 0x71; 0x24; 0x99; 0x1a; 0x86; 0xb4; 0x2b; 0x3a;
    0x1a; 0x83; 0x27; 0x24; 0xa0; 0xe6; 0xb9; 0x30; 0xfd; 0xd1; 0xda; 0x2e; 0x27; 0xa5; 0x40; 0xd6;
    0xb6; 0x75; 0xe4; 0x42; 0x2c; 0x44; 0x4f; 0x52; 0x9c; 0x50; 0x8f; 0x0b; 0xae; 0x7d; 0x0a; 0x85 ].
Definition ORDER_N_512 : list Z :=
  [ 0x40; 0; 0; 0; 0; 0; 0; 0; 0; 0; 0; 0; 0; 0; 0; 0;
    0; 0; 0; 0; 0; 0; 0; 0; 0; 0; 0; 0; 0; 0; 0; 0;
    0x28; 0xa3; 0xce; 0x52; 0x20; 0x9e; 0x2b; 0xd4; 0x95; 0x28; 0x82; 0xd5; 0x57; 0x41; 0x65; 0x19;
    0x2c; 0x46; 0xc0; 0xd0; 0x31; 0x1f; 0xea; 0x6b; 0xf9; 0xfe; 0xce; 0x70; 0xee; 0x63; 0xb5; 0x9f ].
Definition A_DIV_D_512 : list Z :=
  [ 0x4c; 0x22; 0x42; 0x9d; 0xfa; 0x4a; 0x3b; 0; 0xf3; 0xa0; 0xd5; 0x2c; 0xba; 0x87; 0x23; 0x36;
    0x3e; 0xcf; 0x76; 0xf5; 0x88; 0x16; 0xd7; 0x13; 0xfc; 0x31; 0x7c; 0xab; 0x4d; 0x15; 0xe3; 0x73;
    0x27; 0x04; 0xc2; 0x24; 0x29; 0xdf; 0xa4; 0xa3; 0xb0; 0x0f; 0x3a; 0x0d; 0x52; 0xcb; 0xa8; 0x72;
    0x33; 0x63; 0xec; 0xf7; 0x6f; 0x58; 0x81; 0x6d; 0x71; 0x3f; 0xc3; 0x17; 0xca; 0xb4; 0xd0; 0x5a ].

Definition BASE_X (F : fp) : list Z := match F with Fp256 => BASE_X_256 | Fp384 => BASE_X_384 | Fp512 => BASE_X_512 end.
Definition BASE_Y (F : fp) : list Z := match F with Fp256 => BASE_Y_256 | Fp384 => BASE_Y_384 | Fp512 => BASE_Y_512 end.
Definition ORDER_N (F : fp) : list Z := match F with Fp256 => ORDER_N_256 | Fp384 => ORDER_N_384 | Fp512 => ORDER_N_512 end.
Definition A_DIV_D (F : fp) : list Z := match F with Fp256 => A_DIV_D_256 | Fp384 => A_DIV_D_384 | Fp512 => A_DIV_D_512 end.

(** The size of an encoded field element. *)
Definition bytes_of (F : fp) : nat := (8 * width F)%nat.

Definition curve_a (F : fp) : list Z := fe_from_be_bytes F (<[(bytes_of F - 1)%nat := 2]> (replicate (bytes_of F) 0)).

Definition curve_d (F : fp) : list Z :=
  let bytes := replicate (bytes_of F) 0 in
  fe_from_be_bytes F
    match F with
    | Fp256 => <[31%nat := 0x18]> bytes
    | Fp384 => <[47%nat := 0x14]> (<[46%nat := 0x02]> bytes)
    | Fp512 => <[63%nat := 0x0d]> (<[62%nat := 0x01]> bytes)
    end.

(** ** Points *)

Record Point : Type := { pt_x : list Z; pt_y : list Z }.

#[global] Instance Point_eq_dec : EqDecision Point.
Proof. solve_decision. Defined.

Definition NEUTRAL (F : fp) : Point := {| pt_x := fe_ONE F; pt_y := fe_ZERO F |}.

Definition is_on_curve (F : fp) (self : Point) : bool :=
  let x2 := fe_square F (pt_x self) in
  let y2 := fe_square F (pt_y self) in
  let lhs := fe_add F x2 (fe_multiply F (curve_a F) y2) in
  let rhs := fe_add F (fe_multiply F (fe_multiply F (curve_d F) x2) y2) (fe_ONE F) in
  bool_decide (lhs = rhs).

Record ProjectivePoint : Type := { pp_x : list Z; pp_y : list Z; pp_z : list Z }.

Definition from_affine (F : fp) (p : Point) : ProjectivePoint := {| pp_x := pt_x p; pp_y := pt_y p; pp_z := fe_ONE F |}.

Definition to_affine (F : fp) (self : ProjectivePoint) : Point :=
  let z_inv := fe_invert F (pp_z self) in
  {| pt_x := fe_multiply F (pp_x self) z_inv; pt_y := fe_multiply F (pp_y self) z_inv |}.

Definition projective_add (F : fp) (self other : ProjectivePoint) : ProjectivePoint :=
  let a := curve_a F in
  let d := curve_d F in
  let zz := fe_multiply F (pp_z self) (pp_z other) in
  let b := fe_square F zz in
  let c := fe_multiply F (pp_x self) (pp_x other) in
  let dd := fe_multiply F (pp_y self) (pp_y other) in
  let e := fe_multiply F (fe_multiply F d c) dd in
  let f := fe_sub F b e in
  let g := fe_add F b e in
  let x_sum := fe_add F (pp_x self) (pp_y self) in
  let y_sum := fe_add F (pp_x other) (pp_y other) in
  let cross := fe_multiply F x_sum y_sum in
  let x_r := fe_multiply F (fe_multiply F zz g) (fe_sub F c (fe_multiply F a dd)) in
  let y_r := fe_multiply F (fe_multiply F zz f) (fe_sub F (fe_sub F cross c) dd) in
  let z_r := fe_multiply F f g in
  {| pp_x := x_r; pp_y := y_r; pp_z := z_r |}.

Definition projective_select (bit : Z) (a b : ProjectivePoint) : ProjectivePoint :=
  {| pp_x := fe_select bit (pp_x a) (pp_x b);
     pp_y := fe_select bit (pp_y a) (pp_y b);
     pp_z := fe_select bit (pp_z a) (pp_z b) |}.

Definition point_add (F : fp) (self other : Point) : Point :=
  to_affine F (projective_add F (from_affine F self) (from_affine F other)).

(** The body of the loop of [scalar_multiply], for one bit of a byte of the scalar. *)
Definition scalar_step (F : fp) (base : ProjectivePoint) (byte : Z) (acc : ProjectivePoint) (bit_idx : nat) : ProjectivePoint :=
  let acc := projective_add F acc acc in
  let bit := Z.land (Z.shiftr byte bit_idx) 1 in
  let candidate := projective_add F acc base in
  projective_select bit candidate acc.

Definition scalar_multiply (F : fp) (self : Point) (scalar : list Z) : Point :=
  let base := from_affine F self in
  let acc := from_affine F (NEUTRAL F) in
  let acc := foldl (λ acc byte, foldl (scalar_step F base byte) acc (reverse (seq 0 8))) acc scalar in
  to_affine F acc.

Definition base_point (F : fp) : Point := {| pt_x := fe_from_be_bytes F (BASE_X F); pt_y := fe_from_be_bytes F (BASE_Y F) |}.

Definition order (F : fp) : list Z := ORDER_N F.

Definition point_from_x (F : fp) (x : list Z) : option Point :=
  let a := curve_a F in
  let d := curve_d F in
  let a_div_d := fe_from_be_bytes F (A_DIV_D F) in
  let p_minus_1 := fe_sub F (fe_ZERO F) (fe_ONE F) in
  let x_squared := fe_square F x in
  if bool_decide (x = fe_ZERO F) || bool_decide (x = fe_ONE F) || bool_decide (x = p_minus_1) || bool_decide (x_squared = a_div_d)
  then None
  else
    let numerator := fe_sub F (fe_ONE F) x_squared in
    let denominator := fe_sub F a (fe_multiply F d x_squared) in
    let v := fe_multiply F numerator (fe_invert F denominator) in
    if negb (fe_euler_criterion F v) then None
    else
      let candidate := {| pt_x := x; pt_y := fe_sqrt F v |} in
      if bool_decide (scalar_multiply F candidate (order F) ≠ NEUTRAL F) then None
      else Some candidate.

(** ** Scalars *)

Definition bytes_be_to_limbs (F : fp) (bytes : list Z) : list Z :=
  reverse (map (λ i, from_be_bytes (slice (i * 8) (i * 8 + 8) bytes)) (seq 0 (width F))).

Definition is_less_than (F : fp) (a b : list Z) : bool :=
  let al := bytes_be_to_limbs F a in
  let bl := bytes_be_to_limbs F b in
  let '(_, borrow) := sbb_loop al bl 0 in
  Z.eqb borrow 1.

Definition is_valid_scalar (F : fp) (scalar : list Z) : bool :=
  let last := (bytes_of F - 1)%nat in
  let one := <[last := 1]> (replicate (bytes_of F) 0) in
  let n_minus_1 := <[last := (ORDER_N F).[last] - 1]> (ORDER_N F) in
  let scalar_gt_one := is_less_than F one scalar in
  let scalar_lt_n_minus_1 := is_less_than F scalar n_minus_1 in
  scalar_gt_one && scalar_lt_n_minus_1.

(** ** Specification *)

(** The parameters of the curves as numbers; the field of a size. *)
Definition d_of (F : fp) : Z := match F with Fp256 => 0x18 | Fp384 => 0x214 | Fp512 => 0x10d end.
Definition n_of (F : fp) : Z := from_be_bytes (ORDER_N F).
Abbreviation field F := (Zmod (p_of F)).
Definition A_ (F : fp) : field F := Zmod.of_Z _ 2.
Definition D_ (F : fp) : field F := Zmod.of_Z _ (d_of F).

(** What a field element, and a point, represent. *)
Definition rep (F : fp) (e : list Z) (k : field F) : Prop := fe_ok F e ∧ Zmod.of_Z _ (limbs_val e) = k.
Definition prep (F : fp) (P : Point) (Q : field F * field F) : Prop := rep F (pt_x P) Q.1 ∧ rep F (pt_y P) Q.2.
Definition pprep (F : fp) (P : ProjectivePoint) (Q : field F * field F * field F) : Prop :=
  let '(x, y, z) := Q in rep F (pp_x P) x ∧ rep F (pp_y P) y ∧ rep F (pp_z P) z.

(** ** Field elements *)

Lemma congr_of_Z p v w : 0 < p → v ≡[p] w ↔ Zmod.of_Z p v = Zmod.of_Z p w.
Proof. intros Hp. rewrite Zmod.of_Z_inj. apply congr_iff. lia. Qed.

Lemma fe_is_rep F e v : fe_is F e v ↔ rep F e (Zmod.of_Z _ v).
Proof. unfold fe_is, rep. pose proof (p_pos F). by rewrite congr_of_Z. Qed.

Lemma rep_fe_is F e k : rep F e k ↔ fe_is F e (Zmod.to_Z k).
Proof. by rewrite fe_is_rep, Zmod.of_Z_to_Z. Qed.

Lemma rep_op F (f : list Z → list Z → list Z) (g : Z → Z → Z) (h : field F → field F → field F) :
  (∀ a b v w, fe_is F a v → fe_is F b w → fe_is F (f a b) (g v w)) →
  (∀ v w, Zmod.of_Z _ (g v w) = h (Zmod.of_Z _ v) (Zmod.of_Z _ w)) →
  ∀ a b u v, rep F a u → rep F b v → rep F (f a b) (h u v).
Proof.
  intros Hf Hg a b u v Ha Hb. rewrite <- (Zmod.of_Z_to_Z u), <- (Zmod.of_Z_to_Z v), <- Hg. apply fe_is_rep, Hf; by apply rep_fe_is.
Qed.

Lemma rep_add F a b u v : rep F a u → rep F b v → rep F (fe_add F a b) (u + v)%Zmod.
Proof. apply (rep_op F (fe_add F) Z.add); [apply fe_is_add|apply Zmod.of_Z_add]. Qed.

Lemma rep_sub F a b u v : rep F a u → rep F b v → rep F (fe_sub F a b) (u - v)%Zmod.
Proof. apply (rep_op F (fe_sub F) Z.sub); [apply fe_is_sub|apply Zmod.of_Z_sub]. Qed.

Lemma rep_multiply F a b u v : rep F a u → rep F b v → rep F (fe_multiply F a b) (u * v)%Zmod.
Proof. apply (rep_op F (fe_multiply F) Z.mul); [apply fe_is_multiply|apply Zmod.of_Z_mul]. Qed.

Lemma rep_square F a u : rep F a u → rep F (fe_square F a) (u * u)%Zmod.
Proof. intros Ha. by apply rep_multiply. Qed.

Lemma rep_ZERO F : rep F (fe_ZERO F) Zmod.zero.
Proof. rewrite <- Zmod.of_Z_0. apply fe_is_rep, fe_is_ZERO. Qed.

Lemma rep_ONE F : rep F (fe_ONE F) Zmod.one.
Proof. rewrite <- Zmod.of_Z_1. apply fe_is_rep, fe_is_ONE. Qed.

Lemma rep_curve_a F : rep F (curve_a F) (A_ F).
Proof. destruct F; (split; [by_decision|]); unfold A_; f_equal; vm_compute; reflexivity. Qed.

Lemma rep_curve_d F : rep F (curve_d F) (D_ F).
Proof. destruct F; (split; [by_decision|]); unfold D_; f_equal; vm_compute; reflexivity. Qed.

Lemma rep_eq F a b u v : rep F a u → rep F b v → a = b ↔ u = v.
Proof.
  rewrite !rep_fe_is. intros Ha Hb. rewrite (fe_is_eq_iff F a b _ _ Ha Hb). pose proof (p_pos F).
  by rewrite congr_of_Z, !Zmod.of_Z_to_Z.
Qed.

Lemma rep_fun F a u v : rep F a u → rep F a v → u = v.
Proof. intros Ha Hb. by apply (rep_eq F a a). Qed.

Lemma rep_ok F a u : rep F a u → fe_ok F a.
Proof. by intros []. Qed.

Lemma rep_exists F (k : field F) : ∃ e, rep F e k.
Proof.
  pose proof (p_bounds F). pose proof (Zmod.to_Z_pos_bound k ltac:(lia)) as Hk.
  assert (array_ok (8 * width F) (to_be_bytes (8 * width F) (Zmod.to_Z k))) as Hb by apply to_be_bytes_ok.
  exists (fe_from_be_bytes F (to_be_bytes (8 * width F) (Zmod.to_Z k))).
  assert (limbs_val (fe_from_be_bytes F (to_be_bytes (8 * width F) (Zmod.to_Z k))) = Zmod.to_Z k) as E.
  { unfold fe_from_be_bytes. rewrite limbs_val_from_be by done. apply from_to_be_bytes. unfold word_ok.
    replace (8 * (8 * width F)%nat) with (64 * width F) by lia. lia. }
  split; [|by rewrite E, Zmod.of_Z_to_Z]. split; [by apply limbs_ok_from_be|]. rewrite E. lia.
Qed.

#[export] Hint Resolve rep_add rep_sub rep_multiply rep_square rep_ZERO rep_ONE rep_curve_a rep_curve_d : uacrypt.

(** The bits of a scalar, the most significant one first. *)
Definition byte_bits_be (b : Z) : list bool := map (λ i : nat, Z.eqb (Z.land (Z.shiftr b i) 1) 1) (reverse (seq 0 8)).
Definition scalar_bits (scalar : list Z) : list bool := concat (map byte_bits_be scalar).

Lemma scalar_bits_value scalar : bytes_ok scalar → bits_value 0 (scalar_bits scalar) = Z.to_nat (from_be_bytes scalar).
Proof.
  induction scalar as [|b s IH] using rev_ind; [done|]. intros Hs. apply Forall_app in Hs as [Hs Hb]. apply Forall_cons in Hb as [Hb _].
  unfold scalar_bits in *. rewrite map_app, concat_app. unfold bits_value in *. rewrite foldl_app, IH, from_be_bytes_app by done.
  cbn [map concat length]. rewrite app_nil_r. change (from_be_bytes [b]) with (b + 256 * 0).
  pose proof (proj1 (from_be_bytes_bound s Hs)) as H0. set (v := from_be_bytes s) in *. clearbody v.
  apply Nat2Z.inj. rewrite Z2Nat.id by (unfold word_ok in Hb; lia). change (2 ^ (8 * 1%nat)) with 256.
  pose proof (byte_bits b Hb) as E. unfold byte_bits_be. change (reverse (seq 0 8)) with [7; 6; 5; 4; 3; 2; 1; 0]%nat. cbn [map foldl].
  assert (∀ x, Z.of_nat (Nat.b2n (Z.eqb (Z.land x 1) 1)) = Z.land x 1) as Hb2n.
  { intros x. pose proof (land_1 x) as Hx. unfold bit_ok in Hx. destruct (Z.eqb_spec (Z.land x 1) 1); cbn [Nat.b2n]; lia. }
  repeat rewrite ?Nat2Z.inj_add, ?Nat2Z.inj_mul, ?Hb2n. rewrite Z2Nat.id by done. lia.
Qed.

(** Euler's criterion, as a certificate that a number is not a square. *)
Lemma not_square p s : Z.prime p → 2 < p → (p - 1) mod 2 = 0 → 0 ≤ s → (pow_check s p (Z.to_pos ((p - 1) / 2)) =? p - 1) = true →
  ∀ w : Zmod p, (w * w)%Zmod ≠ Zmod.of_Z p s.
Proof.
  intros Hp Hp2 Hodd Hs E w Hw. apply Z.eqb_eq in E. pose proof (Z.div_mod (p - 1) 2 ltac:(lia)) as Hdm.
  pose proof (pow_check_spec s p (Z.to_pos ((p - 1) / 2)) Hs ltac:(lia)) as Hc. rewrite E, Z2Pos.id in Hc by lia.
  rewrite <- (Zmod.of_Z_to_Z w), <- Zmod.of_Z_mul in Hw. apply congr_of_Z in Hw; [|lia]. rewrite <- Hw, <- Z.pow_2_r, <- Z.pow_mul_r in Hc by lia.
  replace (2 * ((p - 1) / 2)) with (p - 1) in Hc by lia. assert (Zmod.to_Z w ^ (p - 1) ≡[p] -1) as Hm by (etrans; [symmetry; exact Hc|exists 1; lia]). clear Hc.
  destruct (decide (Zmod.to_Z w mod p = 0)) as [Hz|Hz].
  - apply Z.mod_divide, congr_0 in Hz; [|lia]. rewrite Hz, Z.pow_0_l in Hm by lia. apply Z.divide_pos_le in Hm; lia.
  - rewrite fermat_little in Hm; [apply Z.divide_pos_le in Hm; lia|done|]. intros Hz'. apply Hz. apply Z.mod_divide; [lia|]. by apply congr_0.
Qed.

(** A root of [(a - d) (1 - x^2)] for each base point. *)
Definition base_root (F : fp) : Z :=
  match F with
  | Fp256 => 0x618e71ac086fec086330d9a3ee0e7944b070d42e9f62aade658436d38d32086f
  | Fp384 => 0x7148ccf40c3137043ab8473de61a9a2bf60e483e84b601290bbf9c95de02c7d50587a23ee34657ee67df9e0f9daf6ac0
  | Fp512 => 0x686134b84bdf91be1b35323f938d6be573fd33f3e09676884a3bf94595302b884d13e80af1fb2a53cc4b04e873386bb5bc6b600f9be3bba0c5e30c8629c6ec7f
  end.

Section Curve.
Context (F : fp) (Hp : Z.prime (p_of F)).
Add Field curve_field : (Zmod.field_theory (p_of F) Hp).
Abbreviation padd' := (padd (A_ F) (D_ F)).
Abbreviation eadd' := (eadd (A_ F) (D_ F)).

Lemma rep_invert a u : rep F a u → rep F (fe_invert F a) (Zmod.inv u).
Proof.
  intros Ha. apply rep_fe_is, fe_is_invert, fe_is_rep in Ha. rewrite Zmod.of_Z_pow, Zmod.of_Z_to_Z in Ha by (pose proof (p_large F); lia).
  destruct (decide (u = Zmod.zero)) as [->|Hu]; [|by rewrite Zmod.fermat_inv in Ha].
  rewrite Zmod.inv_0. rewrite Zmod.pow_0_l in Ha; [done|]. pose proof (p_large F). lia.
Qed.

Lemma from_affine_rep P Q : prep F P Q → pprep F (from_affine F P) (Q, Zmod.one).
Proof. destruct Q as [x y]. intros [Hx Hy]. cbn in *. eauto with uacrypt. Qed.

Lemma to_affine_rep P Q : pprep F P Q → prep F (to_affine F P) (affine_of Q).
Proof. destruct Q as [[x y] z]. intros (Hx & Hy & Hz). split; cbn; apply rep_multiply; by try apply rep_invert. Qed.

Lemma projective_add_rep P P' Q Q' : pprep F P Q → pprep F P' Q' → pprep F (projective_add F P P') (padd' Q Q').
Proof.
  destruct Q as [[x y] z], Q' as [[x' y'] z']. intros (Hx & Hy & Hz) (Hx' & Hy' & Hz'). unfold projective_add, padd. cbv zeta. cbn [pp_x pp_y pp_z].
  split; [|split]; repeat first [assumption|apply rep_multiply|apply rep_square|apply rep_sub|apply rep_add|apply rep_curve_a|apply rep_curve_d].
Qed.

Lemma projective_select_rep bit P P' Q Q' : pprep F P Q → pprep F P' Q' → bit_ok bit →
  pprep F (projective_select bit P P') (if Z.eqb bit 1 then Q else Q').
Proof.
  destruct Q as [[x y] z], Q' as [[x' y'] z']. intros (Hx & Hy & Hz) (Hx' & Hy' & Hz') Hb. unfold projective_select.
  destruct (Z.eqb bit 1) eqn:E; cbn; rewrite !(fe_select_spec F), E by (done || by eapply rep_ok); done.
Qed.

Lemma point_add_rep P P' Q Q' : prep F P Q → prep F P' Q' → prep F (point_add F P P') (eadd' Q Q').
Proof.
  intros HP HP'. apply from_affine_rep in HP, HP'. pose proof (to_affine_rep _ _ (projective_add_rep _ _ _ _ HP HP')) as H.
  by rewrite (affine_padd Hp), !(affine_of_affine Hp) in H.
Qed.

Lemma neutral_rep : prep F (NEUTRAL F) neutral.
Proof. split; cbn; eauto with uacrypt. Qed.

(** The point that an accumulator stands for. *)
Definition stands_for (P : ProjectivePoint) (Q : @point (p_of F)) : Prop := ∃ u, pprep F P u ∧ affine_of u = Q.

Lemma scalar_step_rep P Q b acc i R : prep F P Q → stands_for acc R →
  stands_for (scalar_step F (from_affine F P) b acc i) (ladder_step (A_ F) (D_ F) Q R (Z.eqb (Z.land (Z.shiftr b i) 1) 1)).
Proof.
  intros HP (u & Hu & <-). apply from_affine_rep in HP. unfold scalar_step, ladder_step.
  pose proof (projective_add_rep _ _ _ _ Hu Hu) as H2. pose proof (projective_add_rep _ _ _ _ H2 HP) as H3.
  eexists. split; [apply projective_select_rep; [exact H3|exact H2|apply land_1]|].
  destruct (Z.eqb _ _); by rewrite !(affine_padd Hp), ?(affine_of_affine Hp).
Qed.

(** The loop computes double-and-add on points, whatever the point and the scalar. *)
Lemma scalar_multiply_rep P Q scalar : prep F P Q →
  prep F (scalar_multiply F P scalar) (foldl (ladder_step (A_ F) (D_ F) Q) neutral (scalar_bits scalar)).
Proof.
  intros HP. assert (∀ acc R, stands_for acc R →
    stands_for (foldl (λ acc byte, foldl (scalar_step F (from_affine F P) byte) acc (reverse (seq 0 8))) acc scalar)
      (foldl (ladder_step (A_ F) (D_ F) Q) R (scalar_bits scalar))) as H.
  { induction scalar as [|b s IH]; intros acc R Hacc; [done|]. unfold scalar_bits. cbn [map concat foldl]. rewrite foldl_app. apply IH. clear IH.
    unfold byte_bits_be. revert acc R Hacc. induction (reverse (seq 0 8)) as [|i l IH]; intros acc R Hacc; [done|].
    cbn [map foldl]. apply IH. by apply scalar_step_rep. }
  destruct (H (from_affine F (NEUTRAL F)) neutral) as (u & Hu & <-).
  - exists (neutral, Zmod.one). split; [apply from_affine_rep, neutral_rep|by rewrite (affine_of_affine Hp)].
  - by apply to_affine_rep.
Qed.

Lemma is_on_curve_rep P Q : prep F P Q → is_on_curve F P = true ↔ on_curve (A_ F) (D_ F) Q.
Proof.
  destruct Q as [x y]. intros [Hx Hy]. cbn in *. unfold is_on_curve. rewrite bool_decide_eq_true.
  rewrite (rep_eq F _ _ (x * x + A_ F * (y * y)) (D_ F * (x * x) * (y * y) + Zmod.one)) by
    repeat first [assumption|apply rep_add|apply rep_multiply|apply rep_square|apply rep_curve_a|apply rep_curve_d|apply rep_ONE].
  unfold on_curve. by rewrite (Zmod.add_comm Zmod.one).
Qed.

(** The conditions of [Edwards.v] on the parameters. *)
Lemma minus_one_square : let i := Zmod.of_Z (p_of F) (limbs_val (W F)) in (i * i = Zmod.zero - Zmod.one)%Zmod.
Proof.
  cbv zeta. rewrite <- Zmod.of_Z_mul, <- Zmod.of_Z_0, <- Zmod.of_Z_1, <- Zmod.of_Z_sub. pose proof (p_pos F). apply congr_of_Z; [done|].
  apply W_square.
Qed.

Lemma d_not_square (w : field F) : (w * w)%Zmod ≠ D_ F.
Proof. unfold D_. pose proof (p_large F). apply not_square; [done|lia|..]; clear Hp; destruct F; vm_compute; done. Qed.

Lemma a_not_square (w : field F) : (w * w)%Zmod ≠ A_ F.
Proof. unfold A_. pose proof (p_large F). apply not_square; [done|lia|..]; clear Hp; destruct F; vm_compute; done. Qed.

Lemma a_d_distinct : A_ F ≠ D_ F.
Proof. unfold A_, D_. rewrite Zmod.of_Z_inj. clear Hp. destruct F; by vm_compute. Qed.

(** The base point. *)
Definition base : @point (p_of F) := (Zmod.of_Z _ (from_be_bytes (BASE_X F)), Zmod.of_Z _ (from_be_bytes (BASE_Y F))).

Lemma fe_from_be_rep bytes : array_ok (bytes_of F) bytes → from_be_bytes bytes < p_of F → 
  rep F (fe_from_be_bytes F bytes) (Zmod.of_Z _ (from_be_bytes bytes)).
Proof.
  intros Hb Hlt. pose proof (limbs_val_from_be (width F) bytes Hb) as E. unfold rep, fe_ok. unfold fe_from_be_bytes. rewrite E.
  split; [|done]. split; [by apply limbs_ok_from_be|done].
Qed.

Lemma base_rep : prep F (base_point F) base.
Proof. split; apply fe_from_be_rep; clear Hp; destruct F; by_decision. Qed.

Lemma base_in_group : in_group (A_ F) (D_ F) base.
Proof.
  split; [apply (is_on_curve_rep _ _ base_rep); clear Hp; destruct F; by vm_compute|].
  exists (Zmod.of_Z _ (base_root F)). unfold base, A_, D_. cbn [fst].
  rewrite <- Zmod.of_Z_1, <- !Zmod.of_Z_mul, <- !Zmod.of_Z_sub, <- Zmod.of_Z_mul, Zmod.of_Z_inj. clear Hp. destruct F; by vm_compute.
Qed.

Lemma base_not_neutral : base ≠ neutral.
Proof.
  intros E. apply (f_equal snd) in E. unfold base, neutral in E. cbn [snd] in E. rewrite <- Zmod.of_Z_0 in E. apply Zmod.of_Z_inj in E.
  revert E. clear Hp. destruct F; by vm_compute.
Qed.

Abbreviation smul' := (smul (A_ F) (D_ F)).

(** In the complete subset, scalar multiplication is the multiple. *)
Lemma scalar_multiply_smul P Q scalar : prep F P Q → in_group (A_ F) (D_ F) Q → bytes_ok scalar →
  prep F (scalar_multiply F P scalar) (smul' (Z.to_nat (from_be_bytes scalar)) Q).
Proof.
  intros HP HQ Hs. rewrite <- scalar_bits_value by done.
  rewrite <- (ladder_smul Hp _ _ _ minus_one_square d_not_square a_d_distinct Q (scalar_bits scalar) HQ 0). by apply scalar_multiply_rep.
Qed.

Lemma ORDER_N_ok : array_ok (bytes_of F) (ORDER_N F).
Proof. clear Hp. destruct F; by_decision. Qed.

Definition order_check : bool :=
  neutral_check (BigZ.of_Z (p_of F)) (BigZ.of_Z 2) (BigZ.of_Z (d_of F)) (BigZ.of_Z (from_be_bytes (BASE_X F))) (BigZ.of_Z (from_be_bytes (BASE_Y F)))
    (scalar_bits (ORDER_N F)).

Lemma base_order : smul' (Z.to_nat (n_of F)) base = neutral.
Proof.
  unfold n_of. rewrite <- scalar_bits_value by apply ORDER_N_ok.
  rewrite <- (ladder_smul Hp _ _ _ minus_one_square d_not_square a_d_distinct base (scalar_bits (ORDER_N F)) base_in_group 0).
  assert (order_check = true) as H by (unfold order_check; clear Hp; destruct F; vm_compute; reflexivity).
  apply (neutral_check_correct Hp) in H; [|apply BigZ.spec_of_Z]. unfold of_big in H. rewrite !BigZ.spec_of_Z in H. exact H.
Qed.

(** ** Points from coordinates *)

Lemma rep_A_DIV_D : ∃ k, rep F (fe_from_be_bytes F (A_DIV_D F)) k ∧ (D_ F * k = A_ F)%Zmod.
Proof.
  eexists. split; [apply fe_from_be_rep; clear Hp; destruct F; by_decision|].
  unfold D_, A_. rewrite <- Zmod.of_Z_mul. apply Zmod.of_Z_inj. clear Hp. destruct F; by vm_compute.
Qed.

Lemma rep_p_minus_1 : rep F (fe_sub F (fe_ZERO F) (fe_ONE F)) (Zmod.zero - Zmod.one)%Zmod.
Proof. eauto with uacrypt. Qed.

Lemma rep_euler e v : rep F e v → fe_euler_criterion F e = true ↔ v ≠ Zmod.zero ∧ ∃ w, (w * w)%Zmod = v.
Proof.
  intros He. rewrite fe_euler_exact by (done || by eapply rep_ok). rewrite (rep_eq F e _ _ _ He (rep_ZERO F)). split; intros [Hn (w & Hw)]; (split; [done|]).
  - destruct Hw as [Hw E]. exists (Zmod.of_Z _ (limbs_val w)). assert (rep F w (Zmod.of_Z _ (limbs_val w))) as Hrw by (by split).
    pose proof (rep_square F _ _ Hrw) as Hq. rewrite E in Hq. by apply (rep_fun F e).
  - destruct (rep_exists F w) as [y Hy]. exists y. split; [by eapply rep_ok|]. apply (rep_eq F _ _ (w * w)%Zmod v); [by apply rep_square|done|done].
Qed.

Lemma rep_sqrt e v : rep F e v → fe_euler_criterion F e = true → ∃ w, rep F (fe_sqrt F e) w ∧ (w * w)%Zmod = v.
Proof.
  intros He Hc. destruct (fe_sqrt_exact F e Hp (rep_ok _ _ _ He) Hc) as [Hok E]. exists (Zmod.of_Z _ (limbs_val (fe_sqrt F e))).
  assert (rep F (fe_sqrt F e) (Zmod.of_Z _ (limbs_val (fe_sqrt F e)))) as Hw by (by split).
  split; [done|]. pose proof (rep_square F _ _ Hw) as Hq. rewrite E in Hq. by apply (rep_fun F e).
Qed.

(** The coordinates that are refused at once. *)
Definition excluded (x : list Z) : Prop := x = fe_ZERO F ∨ x = fe_ONE F ∨ x = fe_sub F (fe_ZERO F) (fe_ONE F).

Lemma excluded_rep x k : rep F x k → excluded x ↔ k = Zmod.zero ∨ k = Zmod.one ∨ k = (Zmod.zero - Zmod.one)%Zmod.
Proof.
  intros Hx. unfold excluded. by rewrite (rep_eq F x _ _ _ Hx (rep_ZERO F)), (rep_eq F x _ _ _ Hx (rep_ONE F)), (rep_eq F x _ _ _ Hx rep_p_minus_1).
Qed.

(** A coordinate whose square is one is excluded. *)
Lemma square_one_excluded (k : field F) : (k * k)%Zmod = Zmod.one → k = Zmod.one ∨ k = (Zmod.zero - Zmod.one)%Zmod.
Proof.
  intros E. destruct (mul_zero Hp (k - Zmod.one)%Zmod (k + Zmod.one)%Zmod) as [H|H].
  - trans (k * k - Zmod.one)%Zmod; [ring|]. rewrite E. ring.
  - left. by apply (sub_zero Hp).
  - right. apply (sub_zero Hp). trans (k + Zmod.one)%Zmod; [ring|done].
Qed.

(** For a curve point with another coordinate, the right-hand side is [y^2], and not zero. *)
Lemma curve_equation_solved x y : on_curve (A_ F) (D_ F) (x, y) → (x * x)%Zmod ≠ Zmod.one →
  (D_ F * (x * x))%Zmod ≠ A_ F ∧ (y * y)%Zmod ≠ Zmod.zero ∧
  ((Zmod.one - x * x) * Zmod.inv (A_ F - D_ F * (x * x)))%Zmod = (y * y)%Zmod.
Proof.
  unfold on_curve. cbv beta iota. intros E Hx.
  assert (Zmod.one - x * x = y * y * (A_ F - D_ F * (x * x)))%Zmod as Es.
  { apply (sub_zero Hp). trans (Zmod.one + D_ F * (x * x) * (y * y) - (x * x + A_ F * (y * y)))%Zmod; [ring|]. rewrite E. ring. }
  assert (∀ z, (Zmod.one - x * x)%Zmod = z → z ≠ Zmod.zero) as Hnz.
  { intros z Hz ->. apply Hx. symmetry. by apply (sub_zero Hp). }
  assert (D_ F * (x * x) ≠ A_ F)%Zmod as Hd by (intros Hd; apply (Hnz _ Es); rewrite Hd; ring).
  split; [done|]. split; [intros Hy; apply (Hnz _ Es); rewrite Hy; ring|].
  rewrite Es. field. intros Hz. apply Hd. symmetry. by apply (sub_zero Hp).
Qed.

(** The right-hand side as the code computes it. *)
Lemma rep_numerator x k : rep F x k →
  rep F (fe_multiply F (fe_sub F (fe_ONE F) (fe_square F x)) (fe_invert F (fe_sub F (curve_a F) (fe_multiply F (curve_d F) (fe_square F x)))))
    ((Zmod.one - k * k) * Zmod.inv (A_ F - D_ F * (k * k)))%Zmod.
Proof. intros Hx. apply rep_multiply; [|apply rep_invert]; eauto 7 with uacrypt. Qed.

Lemma a_div_d_iff x k : rep F x k → fe_square F x = fe_from_be_bytes F (A_DIV_D F) ↔ (D_ F * (k * k) = A_ F)%Zmod.
Proof.
  intros Hx. destruct rep_A_DIV_D as (q & Hq & E). rewrite (rep_eq F _ _ _ _ (rep_square F x k Hx) Hq), <- E. split; [by intros ->|].
  intros E'. apply (mul_cancel Hp (D_ F)) in E'; [done|]. intros E0. apply (d_not_square Zmod.zero). rewrite E0. ring.
Qed.

Lemma point_from_x_some x k P : rep F x k → point_from_x F x = Some P ↔
  ¬ excluded x ∧ (D_ F * (k * k))%Zmod ≠ A_ F ∧
  let v := fe_multiply F (fe_sub F (fe_ONE F) (fe_square F x)) (fe_invert F (fe_sub F (curve_a F) (fe_multiply F (curve_d F) (fe_square F x)))) in
  fe_euler_criterion F v = true ∧ P = {| pt_x := x; pt_y := fe_sqrt F v |} ∧ scalar_multiply F P (order F) = NEUTRAL F.
Proof.
  intros Hx. unfold point_from_x, excluded. rewrite <- (a_div_d_iff x k Hx). cbv zeta. set (v := fe_multiply F _ _). clearbody v.
  destruct (bool_decide _ || _ || _ || _) eqn:Eb.
  - rewrite !orb_true_iff, !bool_decide_eq_true in Eb. split; [done|]. intros (H1 & H2 & _). tauto.
  - rewrite !orb_false_iff, !bool_decide_eq_false in Eb. destruct Eb as [[[H1 H2] H3] H4].
    destruct (fe_euler_criterion F v); cbn [negb]; [|by split; [|intros (_ & _ & [=] & _)]].
    case_bool_decide as H5; [by split; [|intros (_ & _ & _ & -> & H6)]|].
    split; [intros [= <-]; tauto|by intros (_ & _ & _ & -> & _)].
Qed.

Lemma point_from_x_sound x k P : rep F x k → point_from_x F x = Some P →
  pt_x P = x ∧ is_on_curve F P = true ∧ (∃ y, prep F P (k, y)).
Proof.
  intros Hx H. apply (point_from_x_some x k P Hx) in H as (_ & Hd & Hc & -> & _). pose proof (rep_numerator x k Hx) as Hv.
  destruct (rep_sqrt _ _ Hv Hc) as (w & Hw & E). assert (prep F {| pt_x := x; pt_y := fe_sqrt F (fe_multiply F (fe_sub F (fe_ONE F) (fe_square F x))
    (fe_invert F (fe_sub F (curve_a F) (fe_multiply F (curve_d F) (fe_square F x))))) |} (k, w)) as HP by done.
  split; [done|]. split; [|by exists w]. apply (is_on_curve_rep _ _ HP). unfold on_curve. cbv beta iota. rewrite E.
  field. intros Hz. apply Hd. symmetry. by apply (sub_zero Hp).
Qed.

Lemma same_square (y w : field F) : (w * w = y * y)%Zmod → w = y ∨ w = Zmod.opp y.
Proof. intros E. by apply (Zmod.square_roots_opp_prime Hp). Qed.

Lemma NEUTRAL_eq P Q : prep F P Q → P = NEUTRAL F ↔ Q = neutral.
Proof.
  destruct P as [x y], Q as [u v]. intros [Hx Hy]. cbn in *. unfold NEUTRAL, neutral. split.
  - intros [= -> ->]. f_equal; [by apply (rep_fun F (fe_ONE F)); [|apply rep_ONE]|by apply (rep_fun F (fe_ZERO F)); [|apply rep_ZERO]].
  - intros [= -> ->]. f_equal; [by apply (rep_eq F _ _ _ _ Hx (rep_ONE F))|by apply (rep_eq F _ _ _ _ Hy (rep_ZERO F))].
Qed.

(** A curve point that the order annihilates is found again, up to its sign. *)
Lemma point_from_x_complete x k y : rep F x k → ¬ excluded x → on_curve (A_ F) (D_ F) (k, y) →
  foldl (ladder_step (A_ F) (D_ F) (k, y)) neutral (scalar_bits (order F)) = neutral →
  ∃ P, point_from_x F x = Some P ∧ pt_x P = x ∧ (prep F P (k, y) ∨ prep F P (neg (k, y))).
Proof.
  intros Hx Hex Hon Hn. assert ((k * k)%Zmod ≠ Zmod.one) as Hk.
  { intros E. apply Hex. apply (excluded_rep x k Hx). right. by apply square_one_excluded. }
  destruct (curve_equation_solved k y Hon Hk) as (Hd & Hy & E). pose proof (rep_numerator x k Hx) as Hv. rewrite E in Hv.
  set (v := fe_multiply F _ _) in *. assert (fe_euler_criterion F v = true) as Hc by (apply (rep_euler v _ Hv); split; [done|by exists y]).
  destruct (rep_sqrt v _ Hv Hc) as (w & Hw & Ew). set (P := {| pt_x := x; pt_y := fe_sqrt F v |}).
  assert (prep F P (k, y) ∨ prep F P (neg (k, y))) as HP.
  { destruct (same_square y w Ew) as [-> | ->]; [left|right]; done. }
  exists P. split; [|done]. apply (point_from_x_some x k P Hx). split; [done|]. split; [done|]. cbv zeta. fold v. split; [done|]. split; [done|].
  destruct HP as [HP|HP]; apply (NEUTRAL_eq _ _ (scalar_multiply_rep _ _ (order F) HP)); [done|].
  rewrite <- (neg_neutral Hp) at 1. by rewrite (ladder_neg Hp), Hn, (neg_neutral Hp).
Qed.
End Curve.

(** ** Scalars *)

Lemma is_less_than_spec F a b : array_ok (bytes_of F) a → array_ok (bytes_of F) b →
  is_less_than F a b = (from_be_bytes a <? from_be_bytes b).
Proof.
  intros Ha Hb. unfold is_less_than, bytes_be_to_limbs. fold (limbs_from_be (width F) a). fold (limbs_from_be (width F) b).
  destruct (sbb_loop _ _ 0) as [r bw] eqn:E. apply (sbb_loop_val (width F)) in E as (Hr & Hbw & E); [|by apply limbs_ok_from_be..|done].
  rewrite !limbs_val_from_be in E by done. pose proof (limbs_val_bound _ _ Hr) as Vr. unfold bit_ok in Hbw.
  pose proof (limbs_val_bound _ _ (limbs_ok_from_be _ _ Ha)) as Va. pose proof (limbs_val_bound _ _ (limbs_ok_from_be _ _ Hb)) as Vb.
  rewrite limbs_val_from_be in Va, Vb by done. set (V := 2 ^ (64 * width F)) in *.
  assert (bw = 0 ∨ bw = 1) as [-> | ->] by lia; simpl; destruct (Z.ltb_spec (from_be_bytes a) (from_be_bytes b)); lia.
Qed.

Lemma valid_scalar_bounds F : let last := (bytes_of F - 1)%nat in
  array_ok (bytes_of F) (<[last := 1]> (replicate (bytes_of F) 0)) ∧ from_be_bytes (<[last := 1]> (replicate (bytes_of F) 0)) = 1 ∧
  array_ok (bytes_of F) (<[last := (ORDER_N F).[last] - 1]> (ORDER_N F)) ∧ from_be_bytes (<[last := (ORDER_N F).[last] - 1]> (ORDER_N F)) = n_of F - 1.
Proof. destruct F; repeat split; try (vm_compute; reflexivity); by_decision. Qed.

Lemma is_valid_scalar_spec F s : array_ok (bytes_of F) s → is_valid_scalar F s = true ↔ 1 < from_be_bytes s < n_of F - 1.
Proof.
  intros Hs. destruct (valid_scalar_bounds F) as (H1 & E1 & H2 & E2). unfold is_valid_scalar. cbv zeta in *.
  rewrite andb_true_iff, !is_less_than_spec, E1, E2 by done. rewrite !Z.ltb_lt. lia.
Qed.

(** ** Points as the code has them *)

Definition point_ok (F : fp) (P : Point) : Prop := fe_ok F (pt_x P) ∧ fe_ok F (pt_y P).
#[global] Instance point_ok_dec F P : Decision (point_ok F P).
Proof. unfold point_ok. apply _. Defined.

(** The value of a point. *)
Definition pval (F : fp) (P : Point) : field F * field F := (Zmod.of_Z _ (limbs_val (pt_x P)), Zmod.of_Z _ (limbs_val (pt_y P))).

(** The subset of the curve on which the addition law is complete. *)
Definition complete (F : fp) (P : Point) : Prop := point_ok F P ∧ in_group (A_ F) (D_ F) (pval F P).

Definition point_neg (F : fp) (P : Point) : Point := {| pt_x := pt_x P; pt_y := fe_sub F (fe_ZERO F) (pt_y P) |}.

Lemma prep_pval F P Q : prep F P Q ↔ point_ok F P ∧ pval F P = Q.
Proof.
  destruct Q as [x y]. unfold prep, point_ok, pval, rep. cbn [fst snd]. split; [intros [[? <-] [? <-]]; done|intros [[? ?] [= <- <-]]; done].
Qed.

Lemma prep_ok F P Q : prep F P Q → point_ok F P.
Proof. by rewrite prep_pval; intros []. Qed.

Lemma prep_self F P : point_ok F P → prep F P (pval F P).
Proof. by rewrite prep_pval. Qed.

Lemma prep_inj F P P' Q : prep F P Q → prep F P' Q → P = P'.
Proof.
  destruct P as [x y], P' as [x' y'], Q as [u v]. intros [Hx Hy] [Hx' Hy']. cbn in *. f_equal.
  - by apply (rep_eq F _ _ _ _ Hx Hx').
  - by apply (rep_eq F _ _ _ _ Hy Hy').
Qed.

Lemma point_neg_rep F P Q : prep F P Q → prep F (point_neg F P) (neg Q).
Proof.
  destruct Q as [x y]. intros [Hx Hy]. split; [done|]. cbn [point_neg pt_y neg snd]. rewrite <- (Zmod.sub_0_l y). apply rep_sub; [apply rep_ZERO|done].
Qed.

(** ** Properties *)

Section Properties.
Context (F : fp) (Hp : Z.prime (p_of F)).
Abbreviation HG := (in_group_eadd Hp _ _ _ (minus_one_square F) (d_not_square F Hp) (a_d_distinct F)).

Lemma complete_rep P Q : prep F P Q → complete F P ↔ in_group (A_ F) (D_ F) Q.
Proof. intros HP. apply prep_pval in HP as [Hok <-]. unfold complete. tauto. Qed.

Lemma complete_add P Q : complete F P → complete F Q → complete F (point_add F P Q).
Proof.
  intros [HP GP] [HQ GQ]. pose proof (point_add_rep F Hp _ _ _ _ (prep_self F P HP) (prep_self F Q HQ)) as H.
  apply (complete_rep _ _ H). by apply HG.
Qed.

Lemma complete_assoc P Q R : complete F P → complete F Q → complete F R →
  point_add F (point_add F P Q) R = point_add F P (point_add F Q R).
Proof.
  intros [HP GP] [HQ GQ] [HR GR]. apply prep_self in HP, HQ, HR.
  pose proof (point_add_rep F Hp _ _ _ _ (point_add_rep F Hp _ _ _ _ HP HQ) HR) as H1.
  pose proof (point_add_rep F Hp _ _ _ _ HP (point_add_rep F Hp _ _ _ _ HQ HR)) as H2.
  rewrite (eadd_assoc Hp _ _ _ (minus_one_square F) (d_not_square F Hp) (a_d_distinct F)) in H1 by done. by apply (prep_inj F _ _ _ H1).
Qed.

Lemma point_add_comm P Q : point_ok F P → point_ok F Q → point_add F P Q = point_add F Q P.
Proof.
  intros HP HQ. apply prep_self in HP, HQ. pose proof (point_add_rep F Hp _ _ _ _ HP HQ) as H1. rewrite (eadd_comm Hp) in H1.
  apply (prep_inj F _ _ _ H1). by apply point_add_rep.
Qed.

Lemma point_add_neutral P : point_ok F P → point_add F P (NEUTRAL F) = P.
Proof.
  intros HP. apply prep_self in HP. pose proof (point_add_rep F Hp _ _ _ _ HP (neutral_rep F)) as H1.
  rewrite (eadd_neutral Hp) in H1. by apply (prep_inj F _ _ _ H1).
Qed.

Lemma point_add_neg P : complete F P → complete F (point_neg F P) ∧ point_add F P (point_neg F P) = NEUTRAL F.
Proof.
  intros [HP GP]. apply prep_self in HP. pose proof (point_neg_rep F _ _ HP) as Hn. split.
  - apply (complete_rep _ _ Hn). by apply (in_group_neg Hp).
  - apply (NEUTRAL_eq F _ _ (point_add_rep F Hp _ _ _ _ HP Hn)).
    by apply (eadd_neg_r Hp _ _ _ (minus_one_square F) (d_not_square F Hp) (a_d_distinct F)).
Qed.

Lemma complete_regular P Q : complete F P → complete F Q → regular (D_ F) (pval F P) (pval F Q).
Proof.
  intros [_ HP] [_ HQ]. by apply (in_group_regular Hp (A_ F) (D_ F) _ (minus_one_square F) (d_not_square F Hp) (a_d_distinct F)).
Qed.

Lemma base_complete : complete F (base_point F).
Proof. apply (complete_rep _ _ (base_rep F)). by apply base_in_group. Qed.
End Properties.

(** The sum of two points is the one of the addition law of the curve, and the curve is closed under it; where
    the law is undefined, the sum is the point [(0, 0)], which is not on the curve. *)
Theorem curve_add_correct F P Q :
  Z.prime (p_of F) → point_ok F P → point_ok F Q →
  let R := point_add F P Q in
  let '(x1, y1) := pval F P in let '(x2, y2) := pval F Q in
  let e := (D_ F * x1 * x2 * y1 * y2)%Zmod in
  point_ok F R ∧
  (regular (D_ F) (x1, y1) (x2, y2) →
    ((pval F R).1 * (Zmod.one - e) = x1 * x2 - A_ F * y1 * y2)%Zmod ∧ ((pval F R).2 * (Zmod.one + e) = x1 * y2 + x2 * y1)%Zmod ∧
    (is_on_curve F P = true → is_on_curve F Q = true → is_on_curve F R = true)) ∧
  (¬ regular (D_ F) (x1, y1) (x2, y2) → R = {| pt_x := fe_ZERO F; pt_y := fe_ZERO F |} ∧ is_on_curve F R = false).
Proof.
  intros Hp HP HQ R. apply prep_self in HP, HQ. pose proof (point_add_rep F Hp _ _ _ _ HP HQ) as H. fold R in H.
  pose proof (is_on_curve_rep F _ _ HP) as CP. pose proof (is_on_curve_rep F _ _ HQ) as CQ. pose proof (is_on_curve_rep F _ _ H) as CR.
  assert (pval F R = eadd (A_ F) (D_ F) (pval F P) (pval F Q)) as E by (by apply prep_pval in H as []).
  destruct (pval F P) as [x1 y1], (pval F Q) as [x2 y2]. split; [by eapply prep_ok|]. split; intros Hr.
  - rewrite E. destruct (eadd_quotients Hp (A_ F) (D_ F) _ _ Hr) as [E1 E2]. split; [done|]. split; [done|]. rewrite CP, CQ, CR. intros H1 H2.
    apply (eadd_on_curve Hp); [|done..]. by apply (d_nonzero Hp), d_not_square.
  - rewrite (eadd_undefined Hp (A_ F) (D_ F) _ _ Hr) in H, CR. split.
    + destruct R as [x y], H as [Hx Hy]. cbn in Hx, Hy. f_equal; [by apply (rep_eq F _ _ _ _ Hx (rep_ZERO F))|by apply (rep_eq F _ _ _ _ Hy (rep_ZERO F))].
    + apply not_true_is_false. rewrite CR. unfold on_curve. cbv beta iota. rewrite !Zmod.mul_0_r, Zmod.add_0_r, Zmod.add_0_r.
      intros E0. by apply (one_nonzero Hp).
Qed.

(** On its complete subset, which holds the base point, the addition of the code is a commutative group law. *)
Theorem curve_group_law F :
  Z.prime (p_of F) →
  (∀ P Q, complete F P → complete F Q → complete F (point_add F P Q) ∧ point_add F P Q = point_add F Q P) ∧
  (∀ P Q R, complete F P → complete F Q → complete F R → point_add F (point_add F P Q) R = point_add F P (point_add F Q R)) ∧
  (∀ P, complete F P → point_add F P (NEUTRAL F) = P ∧ complete F (point_neg F P) ∧ point_add F P (point_neg F P) = NEUTRAL F) ∧
  complete F (NEUTRAL F) ∧ complete F (base_point F) ∧ (∀ P, complete F P → is_on_curve F P = true).
Proof.
  intros Hp. split; [|split; [|split; [|split; [|split]]]].
  - intros P Q HP HQ. split; [by apply complete_add|]. apply point_add_comm; [done|apply HP|apply HQ].
  - intros P Q R. by apply complete_assoc.
  - intros P HP. split; [apply point_add_neutral; [done|apply HP]|by apply point_add_neg].
  - apply (complete_rep F _ _ (neutral_rep F)), (in_group_neutral Hp).
  - apply base_complete.
  - intros P [HP GP]. apply (is_on_curve_rep F _ _ (prep_self F P HP)), GP.
Qed.

(** The ladder computes the multiple of a point by the scalar in the complete subset, on any point it computes
    double-and-add from the most significant bit, and the multiples add and compose as scalars do. *)
Theorem scalar_multiply_correct F P s :
  Z.prime (p_of F) → point_ok F P → bytes_ok s →
  scalar_multiply F P s = foldl (λ acc (b : bool), let acc := point_add F acc acc in if b then point_add F acc P else acc) (NEUTRAL F) (scalar_bits s) ∧
  (complete F P →
    complete F (scalar_multiply F P s) ∧ pval F (scalar_multiply F P s) = smul (A_ F) (D_ F) (Z.to_nat (from_be_bytes s)) (pval F P) ∧
    (∀ t, bytes_ok t → scalar_multiply F (scalar_multiply F P s) t = scalar_multiply F (scalar_multiply F P t) s)).
Proof.
  intros Hp HP Hs. pose proof (prep_self F P HP) as H. split.
  - apply (prep_inj F _ _ _ (scalar_multiply_rep F Hp _ _ s H)).
    assert (∀ acc R, prep F acc R → prep F (foldl (λ acc (b : bool), let acc := point_add F acc acc in if b then point_add F acc P else acc) acc (scalar_bits s))
      (foldl (ladder_step (A_ F) (D_ F) (pval F P)) R (scalar_bits s))) as Hl; [|apply Hl, neutral_rep].
    induction (scalar_bits s) as [|b l IH]; intros acc R Hacc; [done|]. cbn [foldl]. apply IH. unfold ladder_step.
    destruct b; by repeat apply point_add_rep.
  - intros [_ HG]. assert (∀ Q k u, prep F Q u → in_group (A_ F) (D_ F) u → bytes_ok k →
      prep F (scalar_multiply F Q k) (smul (A_ F) (D_ F) (Z.to_nat (from_be_bytes k)) u) ∧
      in_group (A_ F) (D_ F) (smul (A_ F) (D_ F) (Z.to_nat (from_be_bytes k)) u)) as Hm.
    { intros Q k u HQ Hu Hk. split; [by apply scalar_multiply_smul|].
      by apply (smul_in_group Hp _ _ _ (minus_one_square F) (d_not_square F Hp) (a_d_distinct F)). }
    destruct (Hm P s _ H HG Hs) as [H1 G1]. split; [by apply (complete_rep F _ _ H1)|]. split; [by apply prep_pval in H1 as []|].
    intros t Ht. destruct (Hm P t _ H HG Ht) as [H2 G2]. destruct (Hm _ t _ H1 G1 Ht) as [H3 _]. destruct (Hm _ s _ H2 G2 Hs) as [H4 _].
    apply (prep_inj F _ _ _ H3).
    rewrite <- (smul_mul Hp _ _ _ (minus_one_square F) (d_not_square F Hp) (a_d_distinct F)), Nat.mul_comm,
      (smul_mul Hp _ _ _ (minus_one_square F) (d_not_square F Hp) (a_d_distinct F)) by done. done.
Qed.

(** A multiple of the base point vanishes exactly at the multiples of the order. *)
Lemma base_multiple_neutral F k : Z.prime (p_of F) → Z.prime (n_of F) → 0 ≤ k →
  smul (A_ F) (D_ F) (Z.to_nat k) (base F) = neutral ↔ (n_of F | k).
Proof.
  intros Hp Hn Hk. pose proof (Z.prime_ge_2 _ Hn) as Hn2. assert (Z.of_nat (Z.to_nat (n_of F)) = n_of F) as En by lia. split.
  - intros E. apply (smul_order Hp _ _ _ (minus_one_square F) (d_not_square F Hp) (a_d_distinct F) (Z.to_nat (n_of F))) in E.
    + by rewrite En, Z2Nat.id in E.
    + by apply base_in_group.
    + by rewrite En.
    + apply base_not_neutral.
    + by apply base_order.
  - intros [j ->]. assert (0 ≤ j) by nia. rewrite Z2Nat.inj_mul by lia.
    rewrite (smul_mul Hp _ _ _ (minus_one_square F) (d_not_square F Hp) (a_d_distinct F)) by (by apply base_in_group).
    rewrite base_order by done. by apply smul_neutral.
Qed.

Lemma multiple_of_base F s : Z.prime (p_of F) → bytes_ok s →
  prep F (scalar_multiply F (base_point F) s) (smul (A_ F) (D_ F) (Z.to_nat (from_be_bytes s)) (base F)).
Proof. intros Hp Hs. apply scalar_multiply_smul; [done|apply base_rep|by apply base_in_group|done]. Qed.

(** The order of the base point is [n]: a scalar takes it to the neutral element exactly when [n] divides it. *)
Theorem base_point_order F s :
  Z.prime (p_of F) → Z.prime (n_of F) → bytes_ok s →
  (scalar_multiply F (base_point F) s = NEUTRAL F ↔ (n_of F | from_be_bytes s)) ∧
  scalar_multiply F (base_point F) (order F) = NEUTRAL F.
Proof.
  intros Hp Hn Hs. assert (∀ k, bytes_ok k → scalar_multiply F (base_point F) k = NEUTRAL F ↔ (n_of F | from_be_bytes k)) as H.
  { intros k Hk. rewrite (NEUTRAL_eq F _ _ (multiple_of_base F k Hp Hk)). apply base_multiple_neutral; [done|done|].
    apply (from_be_bytes_bound k Hk). }
  split; [by apply H|]. apply H; [apply ORDER_N_ok|]. apply Z.divide_refl.
Qed.

(** A coordinate is accepted exactly when a point of the curve with it exists that the order annihilates; the
    point that is returned is that one or its negation. *)
Theorem point_from_x_exact F x :
  Z.prime (p_of F) → fe_ok F x →
  (∀ P, point_from_x F x = Some P →
    point_ok F P ∧ pt_x P = x ∧ ¬ excluded F x ∧ is_on_curve F P = true ∧ scalar_multiply F P (order F) = NEUTRAL F) ∧
  (∀ P, point_ok F P → pt_x P = x → ¬ excluded F x → is_on_curve F P = true → scalar_multiply F P (order F) = NEUTRAL F →
    ∃ P', point_from_x F x = Some P' ∧ (P' = P ∨ P' = point_neg F P)).
Proof.
  intros Hp Hx. assert (rep F x (Zmod.of_Z _ (limbs_val x))) as Hr by done. split.
  - intros P H. destruct (point_from_x_sound F Hp x _ P Hr H) as (E & Hc & y & HP).
    apply (point_from_x_some F Hp x _ P Hr) in H as (Hex & _ & _ & _ & Ho). by split; [eapply prep_ok|].
  - intros P HP <- Hex Hc Ho. apply prep_self in HP as HP'. apply (is_on_curve_rep F _ _ HP') in Hc.
    apply (NEUTRAL_eq F _ _ (scalar_multiply_rep F Hp _ _ (order F) HP')) in Ho.
    destruct (point_from_x_complete F Hp (pt_x P) _ _ Hr Hex Hc Ho) as (P' & E & _ & H). exists P'. split; [done|].
    destruct H as [H|H]; [left; by apply (prep_inj F _ _ _ H)|right; apply (prep_inj F _ _ _ H); by apply point_neg_rep].
Qed.

(** The scalars that are accepted are those of the open range [(1, n - 1)]. *)
Theorem valid_scalar_exact F s :
  array_ok (bytes_of F) s → is_valid_scalar F s = true ↔ 1 < from_be_bytes s < n_of F - 1.
Proof. apply is_valid_scalar_spec. Qed.

(** ** Witnesses *)

Lemma n_of_256 : Z.prime (n_of Fp256).
Proof. assert (n_of Fp256 = 0x4000000000000000000000000000000029e26087789bc2815bdff97093543ccf) as -> by (vm_compute; reflexivity). apply order_256. Qed.

Lemma n_of_384 : Z.prime (n_of Fp384).
Proof.
  assert (n_of Fp384 = 0x4000000000000000000000000000000000000000000000000af905b73674ac7d4af38c53331dc208a517dcb3f340eecf) as -> by (vm_compute; reflexivity).
  apply order_384.
Qed.

Lemma base_ok F : point_ok F (base_point F).
Proof. destruct F; by_decision. Qed.

Lemma curve_add_correct_witness :
  is_on_curve Fp256 (point_add Fp256 (base_point Fp256) (base_point Fp256)) = true.
Proof.
  destruct (curve_add_correct Fp256 (base_point Fp256) (base_point Fp256) prime_256 (base_ok _) (base_ok _)) as (_ & H & _).
  pose proof (base_complete Fp256) as Hb. apply H; [by apply (complete_regular Fp256 prime_256)|by vm_compute..].
Defined.

Lemma curve_group_law_witness : complete Fp384 (point_add Fp384 (base_point Fp384) (base_point Fp384)).
Proof. destruct (curve_group_law Fp384 prime_384) as (H & _ & _ & _ & Hb & _). by apply H. Defined.

Lemma scalar_multiply_correct_witness : complete Fp256 (scalar_multiply Fp256 (base_point Fp256) [3; 7]).
Proof.
  destruct (scalar_multiply_correct Fp256 (base_point Fp256) [3; 7] prime_256 (base_ok _) ltac:(by_decision)) as [_ H].
  apply H. apply base_complete.
Defined.

Lemma base_point_order_witness : scalar_multiply Fp256 (base_point Fp256) (order Fp256) = NEUTRAL Fp256.
Proof.
  destruct (base_point_order Fp256 (order Fp256) prime_256 n_of_256 ltac:(by_decision)) as [H _]. apply H. apply Z.divide_refl.
Defined.

Lemma point_from_x_exact_witness : ∃ P, point_from_x Fp256 (pt_x (base_point Fp256)) = Some P.
Proof.
  destruct (point_from_x_exact Fp256 (pt_x (base_point Fp256)) prime_256 (proj1 (base_ok _))) as [_ H].
  destruct (H (base_point Fp256)) as (P & E & _); [apply base_ok|done| | | |by exists P].
  - unfold excluded. vm_compute. intuition congruence.
  - by vm_compute.
  - apply (NEUTRAL_eq Fp256 _ _ (multiple_of_base Fp256 (order Fp256) prime_256 ltac:(by_decision))). apply base_order, prime_256.
Defined.

Lemma valid_scalar_exact_witness : is_valid_scalar Fp512 (replicate 63 0 ++ [2]) = true.
Proof. apply (valid_scalar_exact Fp512); [by_decision|]. by vm_compute. Defined.
