(* ===== verification/Message9041.v ===== *)
(** The message encoding of DSTU 9041 ([hazmat/dstu9041/message.rs], [message384.rs], [message512.rs]), one
    text at three sizes as in [Fp9041.v].  [None] is a panic of the digest, which does not occur. *)

From S2P Require Import Prelude External Kupyna Fp9041.

(** [usize::div_ceil] by 8. *)
Definition div_ceil_8 (n : nat) : nat := (n + 7) / 8.

Definition L_MAX_P (F : fp) : nat := match F with Fp256 => 200 | Fp384 => 296 | Fp512 => 424 end.
Definition M_TILDE_BYTES (F : fp) : nat := L_MAX_P F / 8.
Definition L_H_BYTES (F : fp) : nat := match F with Fp256 => 4 | Fp384 => 8 | Fp512 => 8 end.
Definition M_PRIME_BYTES (F : fp) : nat := 1 + L_H_BYTES F + 2 + M_TILDE_BYTES F.

Inductive MessageError : Type :=
| ZeroLength
| MessageTooLong
| LengthMismatch
| HashMismatch
| PaddingNotZero.

#[global] Instance MessageError_eq_dec : EqDecision MessageError.
Proof. solve_decision. Defined.

Record Message : Type := { hash_id : Z; bit_length : nat; m_tilde : list Z }.

Definition format_m_tilde (F : fp) (message : list Z) (message_bits : nat) : result (list Z) MessageError :=
  if Nat.eqb message_bits 0 then Err ZeroLength
  else if Nat.ltb (L_MAX_P F) message_bits then Err MessageTooLong
  else
    let message_bytes := div_ceil_8 message_bits in
    if negb (Nat.eqb (length message) message_bytes) then Err LengthMismatch
    else Ok (copy_at (M_TILDE_BYTES F - message_bytes) message (replicate (M_TILDE_BYTES F) 0)).

(** [(message_bits as u16).to_be_bytes()]. *)
Definition encode_l_m_tilde (message_bits : nat) : list Z := to_be_bytes 2 (wrap 16 message_bits).

(** What [build_m_prime] and [parse_m_prime] hash. *)
Definition hashed_input (F : fp) (m_tilde l_m_tilde : list Z) : list Z :=
  copy_at 2 m_tilde (copy_at 0 l_m_tilde (replicate (2 + M_TILDE_BYTES F) 0)).

Definition build_m_prime (F : fp) (hash_id : Z) (m_tilde l_m_tilde : list Z) : option (list Z) :=
  digest ← Kupyna.digest Kupyna256 (hashed_input F m_tilde l_m_tilde);
  let m_prime := replicate (M_PRIME_BYTES F) 0 in
  let m_prime := <[0%nat := hash_id]> m_prime in
  let m_prime := copy_at 1 (drop (length digest - L_H_BYTES F) digest) m_prime in
  let m_prime := copy_at (1 + L_H_BYTES F) l_m_tilde m_prime in
  Some (copy_at (3 + L_H_BYTES F) m_tilde m_prime).

(** Only at 256 and 512 bits: at 384 the padding key wrap takes [m_prime] as it is. *)
Definition kw_plaintext_from_m_prime (F : fp) (m_prime : list Z) : list Z :=
  copy_at 0 m_prime (replicate (2 * M_PRIME_BYTES F) 0).

(** The accumulator of the padding check: every byte is looked at. *)
Definition padding_step (padding_len : nat) (bad_padding : Z) (i : nat) (byte : Z) : Z :=
  let is_padding_position := Z.b2z (Nat.ltb i padding_len) in
  Z.lor bad_padding (Z.land is_padding_position (Z.b2z (negb (Z.eqb byte 0)))).

Definition parse_m_prime `{Subtle} (F : fp) (m_prime : list Z) : option (result Message MessageError) :=
  let hash_id := m_prime.[0] in
  let embedded_hash := slice 1 (1 + L_H_BYTES F) m_prime in
  let l_m_tilde := slice (1 + L_H_BYTES F) (3 + L_H_BYTES F) m_prime in
  let m_tilde := drop (3 + L_H_BYTES F) m_prime in
  let bit_length := Z.to_nat (from_be_bytes l_m_tilde) in
  if Nat.eqb bit_length 0 then Some (Err ZeroLength)
  else if Nat.ltb (L_MAX_P F) bit_length then Some (Err MessageTooLong)
  else
    digest ← Kupyna.digest Kupyna256 (hashed_input F m_tilde l_m_tilde);
    if negb (ct_eq_slice (drop (length digest - L_H_BYTES F) digest) embedded_hash) then Some (Err HashMismatch)
    else
      let message_bytes := div_ceil_8 bit_length in
      let padding_len := (M_TILDE_BYTES F - message_bytes)%nat in
      let bad_padding := fold_enum (padding_step padding_len) 0 0 m_tilde in
      if negb (Z.eqb bad_padding 0) then Some (Err PaddingNotZero)
      else Some (Ok {| hash_id := hash_id; bit_length := bit_length; m_tilde := m_tilde |}).

(** ** Specification *)

(** The truncated hash of a length field and a padded message. *)
Definition m_hash (F : fp) (l m : list Z) : list Z := drop (32 - L_H_BYTES F) (kupyna_digest Kupyna256 (l ++ m)).

(** The encoding of a message: identifier, hash, bit length and the padded message. *)
Definition m_prime_of (F : fp) (id : Z) (bits : nat) (m : list Z) : list Z :=
  id :: m_hash F (to_be_bytes 2 bits) m ++ to_be_bytes 2 bits ++ m.

(** A padded message of [bits] bits: the bytes in front of the message are zero. *)
Definition padded_ok (F : fp) (bits : nat) (m : list Z) : Prop :=
  array_ok (M_TILDE_BYTES F) m ∧ take (M_TILDE_BYTES F - div_ceil_8 bits) m = replicate (M_TILDE_BYTES F - div_ceil_8 bits) 0.

Definition bits_ok (F : fp) (bits : nat) : Prop := (0 < bits ≤ L_MAX_P F)%nat.

(** ** Lemmas *)

Lemma sizes F : (M_TILDE_BYTES F * 8 = L_MAX_P F ∧ L_H_BYTES F ≤ 32 ∧ 0 < L_H_BYTES F ∧ L_MAX_P F < 425)%nat.
Proof. destruct F; simpl; lia. Qed.

Lemma div_ceil_8_spec n : (8 * div_ceil_8 n < n + 8 ∧ n ≤ 8 * div_ceil_8 n)%nat.
Proof.
  unfold div_ceil_8. pose proof (Nat.div_mod_eq (n + 7) 8). pose proof (Nat.mod_upper_bound (n + 7) 8). lia.
Qed.

Lemma bits_bytes F bits : bits_ok F bits → (0 < div_ceil_8 bits ≤ M_TILDE_BYTES F)%nat.
Proof. unfold bits_ok. pose proof (sizes F). pose proof (div_ceil_8_spec bits). lia. Qed.

Lemma encode_bits F bits : bits_ok F bits → encode_l_m_tilde bits = to_be_bytes 2 bits.
Proof.
  intros Hb. unfold bits_ok in Hb. pose proof (sizes F). unfold encode_l_m_tilde. rewrite wrap_id; [done|lia|unfold word_ok; lia].
Qed.

Lemma hashed_input_spec F m l : length l = 2%nat → length m = M_TILDE_BYTES F → hashed_input F m l = l ++ m.
Proof.
  intros Hl Hm. unfold hashed_input. rewrite copy_at_0 by (rewrite length_replicate; lia). unfold copy_at.
  rewrite Hl, take_app_length', drop_ge, app_nil_r by (rewrite ?length_app, ?length_drop, ?length_replicate; lia). done.
Qed.

Lemma m_hash_ok F l m : array_ok 2 l → array_ok (M_TILDE_BYTES F) m → array_ok (L_H_BYTES F) (m_hash F l m).
Proof.
  intros [_ Hl] [_ Hm]. unfold m_hash. pose proof (kupyna_digest_ok Kupyna256 (l ++ m)) as Hk. pose proof (sizes F).
  replace (L_H_BYTES F) with (32 - (32 - L_H_BYTES F))%nat at 1 by lia. apply array_ok_drop, Hk. by apply Forall_app.
Qed.

(** The hash that both directions compute. *)
Lemma digest_tail F l m : array_ok 2 l → array_ok (M_TILDE_BYTES F) m →
  ∃ d, Kupyna.digest Kupyna256 (hashed_input F m l) = Some d ∧ drop (length d - L_H_BYTES F) d = m_hash F l m.
Proof.
  intros [Hll Hl] [Hlm Hm]. rewrite hashed_input_spec by done. assert (bytes_ok (l ++ m)) as Hb by (by apply Forall_app).
  exists (kupyna_digest Kupyna256 (l ++ m)). split.
  - apply digest_spec; [done|]. rewrite length_app, Hll, Hlm. pose proof (sizes F). lia.
  - by rewrite (proj1 (kupyna_digest_ok Kupyna256 (l ++ m) Hb)).
Qed.

Lemma build_spec F id l m : array_ok 2 l → array_ok (M_TILDE_BYTES F) m →
  build_m_prime F id m l = Some (id :: m_hash F l m ++ l ++ m).
Proof.
  intros Hl Hm. unfold build_m_prime. destruct (digest_tail F l m Hl Hm) as (d & -> & Hd). cbn [mbind option_bind]. rewrite Hd.
  pose proof (m_hash_ok F l m Hl Hm) as [Hh _]. destruct Hl as [Hl _], Hm as [Hm _]. f_equal.
  unfold M_PRIME_BYTES. change (<[0%nat := id]> (replicate (1 + L_H_BYTES F + 2 + M_TILDE_BYTES F) 0)) with
    ([id] ++ replicate (L_H_BYTES F + 2 + M_TILDE_BYTES F) 0).
  set (h := m_hash F l m) in *. rewrite !replicate_add, <- app_assoc.
  rewrite (copy_at_app [id]) by (rewrite ?length_replicate; done).
  rewrite (app_assoc [id] h), (copy_at_app ([id] ++ h)) by (rewrite ?length_app, ?length_replicate; simpl; lia).
  rewrite (app_assoc ([id] ++ h) l), <- (app_nil_r (replicate (M_TILDE_BYTES F) 0)).
  rewrite (copy_at_app (([id] ++ h) ++ l)) by (rewrite ?length_app, ?length_replicate; simpl; lia).
  by rewrite app_nil_r, <- !app_assoc.
Qed.

(** The padding check looks at the first [n] bytes. *)
Lemma padding_fold n l i acc :
  fold_enum (padding_step n) i acc l = 0 ↔ acc = 0 ∧ take (n - i) l = replicate (Nat.min (n - i) (length l)) 0.
Proof.
  revert i acc. induction l as [|b l IH]; intros i acc; simpl.
  { rewrite take_nil, Nat.min_0_r. simpl. tauto. }
  rewrite IH. unfold padding_step. rewrite Z.lor_eq_0_iff.
  destruct (Nat.ltb_spec i n) as [Hi|Hi].
  - replace (n - i)%nat with (S (n - S i)) by lia. simpl. destruct (Z.eqb_spec b 0) as [->|Hb]; simpl.
    + split; [intros [[? _] ->]; done|intros [? [=]]; done].
    + split; [intros [[_ [=]] _]|intros [_ [=]]; done].
  - replace (n - i)%nat with 0%nat by lia. replace (n - S i)%nat with 0%nat by lia. simpl. tauto.
Qed.

Lemma message_fields id h l m F : length h = L_H_BYTES F → length l = 2%nat → let m' := id :: h ++ l ++ m in
  m'.[0] = id ∧ slice 1 (1 + L_H_BYTES F) m' = h ∧ slice (1 + L_H_BYTES F) (3 + L_H_BYTES F) m' = l ∧ drop (3 + L_H_BYTES F) m' = m.
Proof.
  intros Hh Hl m'. change m' with ([id] ++ h ++ l ++ m). repeat split.
  - apply (slice_app [id]); simpl; lia.
  - rewrite app_assoc. apply slice_app; rewrite length_app; simpl; lia.
  - rewrite app_assoc, app_assoc. apply drop_app_length'. rewrite !length_app. simpl. lia.
Qed.

Lemma format_spec F msg bits : bytes_ok msg →
  match format_m_tilde F msg bits with
  | Err ZeroLength => bits = 0%nat
  | Err MessageTooLong => (L_MAX_P F < bits)%nat
  | Err LengthMismatch => bits_ok F bits ∧ length msg ≠ div_ceil_8 bits
  | Err _ => False
  | Ok m => bits_ok F bits ∧ length msg = div_ceil_8 bits ∧ padded_ok F bits m ∧
      m = replicate (M_TILDE_BYTES F - div_ceil_8 bits) 0 ++ msg
  end.
Proof.
  intros Hmsg. unfold format_m_tilde. destruct (Nat.eqb_spec bits 0); [done|]. destruct (Nat.ltb_spec (L_MAX_P F) bits); [done|].
  assert (bits_ok F bits) as Hb by (unfold bits_ok; lia). pose proof (bits_bytes F bits Hb) as Hd.
  destruct (Nat.eqb_spec (length msg) (div_ceil_8 bits)) as [Hl|Hl]; simpl; [|done].
  assert (copy_at (M_TILDE_BYTES F - div_ceil_8 bits) msg (replicate (M_TILDE_BYTES F) 0) =
    replicate (M_TILDE_BYTES F - div_ceil_8 bits) 0 ++ msg) as ->.
  { replace (M_TILDE_BYTES F) with (M_TILDE_BYTES F - div_ceil_8 bits + div_ceil_8 bits)%nat at 2 by lia.
    rewrite replicate_add, <- (app_nil_r (replicate (div_ceil_8 bits) 0)), copy_at_app by (by rewrite length_replicate).
    by rewrite app_nil_r. }
  split; [done|]. split; [done|]. split; [|done]. repeat split.
  - rewrite length_app, length_replicate. lia.
  - apply Forall_app. split; [apply array_ok_zeros|done].
  - by rewrite take_app_length' by (by rewrite length_replicate).
Qed.

(** The outcome of reading fields, in the order of the checks. *)
Lemma parse_fields `{SubtleLaws} F id h l m : array_ok (L_H_BYTES F) h → array_ok 2 l → array_ok (M_TILDE_BYTES F) m →
  let bits := Z.to_nat (from_be_bytes l) in
  parse_m_prime F (id :: h ++ l ++ m) = Some (
    if decide (bits = 0%nat) then Err ZeroLength
    else if decide (L_MAX_P F < bits)%nat then Err MessageTooLong
    else if decide (m_hash F l m = h) then
      if decide (take (M_TILDE_BYTES F - div_ceil_8 bits) m = replicate (M_TILDE_BYTES F - div_ceil_8 bits) 0)
      then Ok {| hash_id := id; bit_length := bits; m_tilde := m |} else Err PaddingNotZero
    else Err HashMismatch).
Proof.
  intros Hh Hl Hm bits. destruct (message_fields id h l m F (proj1 Hh) (proj1 Hl)) as (E1 & E2 & E3 & E4).
  unfold parse_m_prime. rewrite E1, E2, E3, E4. fold bits. clear E1 E2 E3 E4.
  destruct (Nat.eqb_spec bits 0), (decide (bits = 0%nat)); try done.
  destruct (Nat.ltb_spec (L_MAX_P F) bits), (decide (L_MAX_P F < bits)%nat); try lia; [done|].
  destruct (digest_tail F l m Hl Hm) as (d & -> & Hd). cbn [mbind option_bind]. rewrite Hd, ct_eq_slice_spec.
  destruct (decide (m_hash F l m = h)) as [E|E]; [rewrite bool_decide_eq_true_2 by done|by rewrite bool_decide_eq_false_2].
  cbn [negb]. pose proof (padding_fold (M_TILDE_BYTES F - div_ceil_8 bits) m 0 0) as Hp.
  rewrite Nat.sub_0_r, (proj1 Hm), Nat.min_l in Hp by lia.
  destruct (Z.eqb_spec (fold_enum (padding_step (M_TILDE_BYTES F - div_ceil_8 bits)) 0 0 m) 0) as [Hz|Hz], (decide _) as [Hd'|Hd'];
    cbn [negb]; try done; exfalso; [apply Hd'; by apply Hp|apply Hz; by apply Hp].
Qed.

Lemma split_m_prime F m' : array_ok (M_PRIME_BYTES F) m' →
  ∃ id h l m, m' = id :: h ++ l ++ m ∧ byte_ok id ∧ array_ok (L_H_BYTES F) h ∧ array_ok 2 l ∧ array_ok (M_TILDE_BYTES F) m.
Proof.
  unfold M_PRIME_BYTES. intros [Hl Hb]. destruct m' as [|id m']; [done|]. apply Forall_cons in Hb as [Hid Hb]. simpl in Hl.
  exists id, (take (L_H_BYTES F) m'), (take 2 (drop (L_H_BYTES F) m')), (drop 2 (drop (L_H_BYTES F) m')).
  rewrite !take_drop. split; [done|]. split; [done|].
  repeat split; first [rewrite ?length_take, ?length_drop; lia|by repeat first [apply Forall_take|apply Forall_drop]].
Qed.

Lemma bits_bytes_field F bits : bits_ok F bits → Z.to_nat (from_be_bytes (to_be_bytes 2 bits)) = bits.
Proof. unfold bits_ok. intros Hb. pose proof (sizes F). rewrite from_to_be_bytes by (unfold word_ok; lia). lia. Qed.

Lemma fields_ok F id h l m : byte_ok id → array_ok (L_H_BYTES F) h → array_ok 2 l → array_ok (M_TILDE_BYTES F) m →
  array_ok (M_PRIME_BYTES F) (id :: h ++ l ++ m).
Proof.
  intros Hid [Hh Hh'] [Hl Hl'] [Hm Hm']. unfold M_PRIME_BYTES. split; [simpl; rewrite !length_app; lia|].
  apply Forall_cons. split; [done|]. by rewrite !Forall_app.
Qed.

(** Parsing accepts exactly the encodings. *)
Lemma parse_exact `{SubtleLaws} F m' M :
  array_ok (M_PRIME_BYTES F) m' →
  is_Some (parse_m_prime F m') ∧
  (parse_m_prime F m' = Some (Ok M) ↔
     bits_ok F (bit_length M) ∧ padded_ok F (bit_length M) (m_tilde M) ∧ m' = m_prime_of F (hash_id M) (bit_length M) (m_tilde M)).
Proof.
  intros Hm'. destruct (split_m_prime F m' Hm') as (id & h & l & m & -> & Hid & Hh & Hl & Hm).
  rewrite parse_fields by done. split; [done|]. split.
  - intros E. repeat destruct (decide _); try done. injection E as <-. simpl. subst h. unfold bits_ok, padded_ok, m_prime_of.
    rewrite Z2Nat.id by (pose proof (from_be_bytes_bound l (proj2 Hl)) as []; lia).
    pose proof (to_from_be_bytes l (proj2 Hl)) as E2. rewrite (proj1 Hl) in E2. rewrite E2. repeat split; [lia|lia|apply Hm|apply Hm|done].
  - destruct M as [id' bits m2]; simpl. intros (Hb & [Hm2 Hp] & E). unfold m_prime_of in E. apply (inj2 cons) in E as [-> E].
    apply app_inj_1 in E as [-> E].
    2: { rewrite (proj1 Hh). symmetry. apply m_hash_ok; [apply to_be_bytes_ok|done]. }
    apply app_inj_1 in E as [-> ->]; [|by rewrite (proj1 Hl), (proj1 (to_be_bytes_ok 2 bits))].
    rewrite (bits_bytes_field F) by done. unfold bits_ok in Hb. by rewrite !decide_False, !decide_True by (done || lia).
Qed.

(** ** Properties *)

(** For every message that fits and every size, the encoding of the message can be built and is parsed back to
    it, with the same identifier and the same bit length. *)
Theorem message_roundtrip `{SubtleLaws} F id msg bits m :
  byte_ok id → bytes_ok msg → format_m_tilde F msg bits = Ok m →
  ∃ m', build_m_prime F id m (encode_l_m_tilde bits) = Some m' ∧ array_ok (M_PRIME_BYTES F) m' ∧
    parse_m_prime F m' = Some (Ok {| hash_id := id; bit_length := bits; m_tilde := m |}) ∧
    drop (M_TILDE_BYTES F - div_ceil_8 bits) m = msg.
Proof.
  intros Hid Hmsg E. pose proof (format_spec F msg bits Hmsg) as Hf. rewrite E in Hf. destruct Hf as (Hb & Hl & [Hm Hp] & ->).
  rewrite (encode_bits F) by done. pose proof (to_be_bytes_ok 2 bits) as Hl2. pose proof (m_hash_ok F _ _ Hl2 Hm) as Hh.
  rewrite build_spec by done. eexists. split; [done|]. split; [|split].
  - by apply fields_ok.
  - rewrite parse_fields, (bits_bytes_field F) by done. unfold bits_ok in Hb. by rewrite !decide_False, !decide_True by (done || lia).
  - by rewrite drop_app_length' by (by rewrite length_replicate).
Qed.

(** Parsing never panics on an array of the size, and accepts exactly the encodings: the bit length is positive
    and within the maximum, the bytes in front of the message are zero and the embedded hash is the one of the
    length field and the padded message. *)
Theorem message_parse_exact `{SubtleLaws} F m' M :
  array_ok (M_PRIME_BYTES F) m' →
  is_Some (parse_m_prime F m') ∧
  (parse_m_prime F m' = Some (Ok M) ↔
     bits_ok F (bit_length M) ∧ padded_ok F (bit_length M) (m_tilde M) ∧ m' = m_prime_of F (hash_id M) (bit_length M) (m_tilde M)).
Proof. apply parse_exact. Qed.

(** ** Witnesses *)

Definition sample_message : list Z := [1; 2; 3].

Lemma message_roundtrip_witness : ∃ m m', format_m_tilde Fp512 sample_message 20 = Ok m ∧
  build_m_prime Fp512 1 m (encode_l_m_tilde 20) = Some m' ∧
  @parse_m_prime plain_subtle Fp512 m' = Some (Ok {| hash_id := 1; bit_length := 20; m_tilde := m |}).
Proof.
  destruct (@message_roundtrip plain_subtle plain_subtle_laws Fp512 1 sample_message 20
    (replicate 50 0 ++ sample_message)) as (m' & E1 & _ & E2 & _); [by_decision..|by vm_compute|].
  exists (replicate 50 0 ++ sample_message), m'. split; [by vm_compute|done].
Defined.

Lemma message_parse_exact_witness : is_Some (@parse_m_prime plain_subtle Fp256 (replicate 32 0)).
Proof.
  by apply (@message_parse_exact plain_subtle plain_subtle_laws Fp256 (replicate 32 0) {| hash_id := 0; bit_length := 0; m_tilde := [] |});
    by_decision.
Defined.
