(* ===== verification/Encryption9041.v ===== *)
(** Encryption with DSTU 9041 ([hazmat/dstu9041/encryption.rs], [encryption384.rs], [encryption512.rs]): the
    encoded message is wrapped under a key derived from the ephemeral and the recipient's key.  The three files
    differ in the key wrap that they use, the two [match]es of [wrap_m_prime] and [unwrap_m_prime]. *)

From Stdlib Require Import ZmodDef ZmodBase ZmodInv.
From S2P Require Import Prelude External BlockCipher Kalyna Kw KwP Limb Modular Primes Fp9041 Edwards Curve9041 Message9041.

Definition HASH_ID_KUPYNA256 : Z := 0x01.

(** The wrapped message: [t] of the source. *)
Definition T_BYTES (F : fp) : nat := match F with Fp256 => 96 | Fp384 => 128 | Fp512 => 192 end.
Definition CIPHERTEXT_BYTES (F : fp) : nat := bytes_of F + T_BYTES F.

Inductive EncryptError : Type := InvalidMessage | InvalidEphemeralKey | InvalidPublicKey.
Inductive DecryptError : Type := InvalidCiphertext.

Definition is_usable_recipient (F : fp) (q : Point) : bool :=
  let q2 := point_add F q q in
  let q4 := point_add F q2 q2 in
  is_on_curve F q && bool_decide (q4 ≠ NEUTRAL F) && is_on_curve F q4.

(** The key is the coordinate of the shared point, at 384 bits its low-order half. *)
Definition kappa_from_x (F : fp) (x : list Z) : list Z := match F with Fp384 => drop 16 x | _ => x end.

Definition wrap_m_prime (F : fp) (kappa m_prime : list Z) : option (list Z * result unit KwError) :=
  match F with
  | Fp256 => wrap_key (K := ExpandedKey Kalyna256_256) kappa (kw_plaintext_from_m_prime F m_prime) (replicate (T_BYTES F) 0)
  | Fp384 => kwp_wrap (K := ExpandedKey Kalyna256_256) kappa m_prime (replicate (T_BYTES F) 0)
  | Fp512 => wrap_key (K := ExpandedKey Kalyna512_512) kappa (kw_plaintext_from_m_prime F m_prime) (replicate (T_BYTES F) 0)
  end.

Definition encrypt (F : fp) (message : list Z) (message_bits : nat) (q : Point) (epsilon : list Z) : option (result (list Z) EncryptError) :=
  if negb (is_valid_scalar F epsilon) then Some (Err InvalidEphemeralKey)
  else if negb (is_usable_recipient F q) then Some (Err InvalidPublicKey)
  else
    match format_m_tilde F message message_bits with
    | Err _ => Some (Err InvalidMessage)
    | Ok m_tilde =>
        let l_m_tilde := encode_l_m_tilde message_bits in
        m_prime ← build_m_prime F HASH_ID_KUPYNA256 m_tilde l_m_tilde;
        let r_point := scalar_multiply F (base_point F) epsilon in
        let r_bytes := fe_to_be_bytes F (pt_x r_point) in
        let t_point := scalar_multiply F q epsilon in
        let kappa := kappa_from_x F (fe_to_be_bytes F (pt_x t_point)) in
        '(t, r) ← wrap_m_prime F kappa m_prime;
        match r with
        | Err _ => Some (Err InvalidMessage)
        | Ok _ =>
            let ciphertext := replicate (CIPHERTEXT_BYTES F) 0 in
            let ciphertext := copy_at 0 r_bytes ciphertext in
            Some (Ok (copy_at (bytes_of F) t ciphertext))
        end
    end.

(** The check of the block appended to [m_prime]: every byte is looked at. *)
Definition appended_block_bad (block : list Z) : Z := foldl (λ bad byte, Z.lor bad (Z.b2z (negb (Z.eqb byte 0)))) 0 block.

Definition split_appended (F : fp) (recovered : list Z) : result (list Z) DecryptError :=
  if negb (Z.eqb (appended_block_bad (drop (M_PRIME_BYTES F) recovered)) 0) then Err InvalidCiphertext
  else Ok (take (M_PRIME_BYTES F) recovered).

Definition unwrap_m_prime `{Subtle} (F : fp) (kappa t : list Z) : option (result (list Z) DecryptError) :=
  match F with
  | Fp256 =>
      '(recovered, r) ← unwrap_key (K := ExpandedKey Kalyna256_256) kappa t (replicate (2 * M_PRIME_BYTES F) 0);
      Some (match r with Err _ => Err InvalidCiphertext | Ok _ => split_appended F recovered end)
  | Fp384 =>
      '(recovered, r) ← kwp_unwrap (K := ExpandedKey Kalyna256_256) kappa t (replicate (T_BYTES F - 32) 0);
      Some (match r with
            | Err _ => Err InvalidCiphertext
            | Ok len => if negb (Nat.eqb len (M_PRIME_BYTES F)) then Err InvalidCiphertext else Ok (take (M_PRIME_BYTES F) recovered)
            end)
  | Fp512 =>
      '(recovered, r) ← unwrap_key (K := ExpandedKey Kalyna512_512) kappa t (replicate (2 * M_PRIME_BYTES F) 0);
      Some (match r with Err _ => Err InvalidCiphertext | Ok _ => split_appended F recovered end)
  end.

Definition decrypt `{Subtle} (F : fp) (ciphertext e : list Z) : option (result (list Z * nat) DecryptError) :=
  if negb (is_valid_scalar F e) then Some (Err InvalidCiphertext)
  else
    match from_candidate_bytes F (take (bytes_of F) ciphertext) with
    | None => Some (Err InvalidCiphertext)
    | Some r_field =>
        match point_from_x F r_field with
        | None => Some (Err InvalidCiphertext)
        | Some r_prime =>
            let t_prime := scalar_multiply F r_prime e in
            let kappa := kappa_from_x F (fe_to_be_bytes F (pt_x t_prime)) in
            r ← unwrap_m_prime F kappa (drop (bytes_of F) ciphertext);
            match r with
            | Err _ => Some (Err InvalidCiphertext)
            | Ok m_prime =>
                parsed ← parse_m_prime F m_prime;
                match parsed with
                | Err _ => Some (Err InvalidCiphertext)
                | Ok parsed => Some (Ok (m_tilde parsed, bit_length parsed))
                end
            end
        end
    end.

(** ** The key wrap *)

Definition kappa_bytes (F : fp) : nat := match F with Fp512 => 64 | _ => 32 end.

Lemma kappa_ok F x : fe_ok F x → array_ok (kappa_bytes F) (kappa_from_x F (fe_to_be_bytes F x)).
Proof.
  intros [Hx _]. unfold fe_to_be_bytes. rewrite limbs_to_be_spec by done. pose proof (to_be_bytes_ok (8 * width F) (limbs_val x)) as Hb.
  destruct F; [done| |done]. exact (array_ok_drop 16 _ _ Hb).
Qed.

Lemma appended_block_zero l : appended_block_bad l = 0 ↔ l = replicate (length l) 0.
Proof.
  unfold appended_block_bad. assert (∀ acc, foldl (λ bad byte, Z.lor bad (Z.b2z (negb (Z.eqb byte 0)))) acc l = 0 ↔ acc = 0 ∧ l = replicate (length l) 0) as H.
  { induction l as [|b l IH]; intros acc; cbn [foldl length replicate]; [tauto|]. rewrite IH, Z.lor_eq_0_iff.
    destruct (Z.eqb_spec b 0) as [->|Hb]; cbn [negb Z.b2z]; [split; [intros [[? _] <-]; done|intros [? [= <-]]; done]|].
    split; [intros [[_ [=]] _]|intros [_ [=]]; done]. }
  rewrite H. tauto.
Qed.

Lemma split_appended_spec F x : length x = (2 * M_PRIME_BYTES F)%nat →
  split_appended F x = if decide (drop (M_PRIME_BYTES F) x = replicate (M_PRIME_BYTES F) 0) then Ok (take (M_PRIME_BYTES F) x) else Err InvalidCiphertext.
Proof.
  intros Hl. unfold split_appended. pose proof (appended_block_zero (drop (M_PRIME_BYTES F) x)) as H. rewrite length_drop in H.
  replace (length x - M_PRIME_BYTES F)%nat with (M_PRIME_BYTES F) in H by lia.
  destruct (Z.eqb_spec (appended_block_bad (drop (M_PRIME_BYTES F) x)) 0) as [E|E]; cbn [negb]; [rewrite decide_True by tauto|rewrite decide_False by tauto]; done.
Qed.

Lemma kw_plaintext_spec F m : length m = M_PRIME_BYTES F → kw_plaintext_from_m_prime F m = m ++ replicate (M_PRIME_BYTES F) 0.
Proof.
  intros Hm. unfold kw_plaintext_from_m_prime. rewrite copy_at_0 by (rewrite length_replicate; lia). rewrite drop_replicate, Hm. do 2 f_equal. lia.
Qed.

(** The sizes of the two ciphers. *)
Lemma cipher_sizes :
  key_bytes (ExpandedKey Kalyna256_256) = 32%nat ∧ block_bytes (ExpandedKey Kalyna256_256) = 32%nat ∧
  key_bytes (ExpandedKey Kalyna512_512) = 64%nat ∧ block_bytes (ExpandedKey Kalyna512_512) = 64%nat.
Proof. vm_compute. done. Qed.

(** The plain key wrap, at 256 and 512 bits. *)
Lemma kw_case {K} `{BlockCipherLaws K} `{SubtleLaws} F kappa m :
  block_bytes K = M_PRIME_BYTES F → array_ok (key_bytes K) kappa → array_ok (M_PRIME_BYTES F) m →
  ∃ t, wrap_key kappa (kw_plaintext_from_m_prime F m) (replicate (3 * M_PRIME_BYTES F) 0) = Some (t, Ok tt) ∧
    array_ok (3 * M_PRIME_BYTES F) t ∧
    unwrap_key kappa t (replicate (2 * M_PRIME_BYTES F) 0) = Some (m ++ replicate (M_PRIME_BYTES F) 0, Ok tt).
Proof.
  intros Hbb Hkey [Hm Hb]. destruct (expanded_new_ok kappa Hkey) as (k & He & Hk). rewrite kw_plaintext_spec by done.
  set (x := m ++ replicate (M_PRIME_BYTES F) 0). assert (length x = 2 * M_PRIME_BYTES F)%nat as Hx by (unfold x; rewrite length_app, length_replicate; lia).
  pose proof (block_bytes_pos (K := K)) as Hpos.
  destruct (wrap_unwrap k x (replicate (3 * M_PRIME_BYTES F) 0) Hk) as (t & Hw & Ht & Hu).
  - unfold x. apply Forall_app. split; [done|]. apply Forall_replicate, byte_ok_0.
  - unfold wrap_sizes. rewrite Hx, Hbb, length_replicate. split; [intros E; rewrite E in Hx; cbn in Hx; lia|].
    rewrite Nat.Div0.mod_mul, Nat.div_mul by lia. lia.
  - exists t. unfold wrap_key, unwrap_key. rewrite He. cbn [mbind option_bind]. rewrite Hw. split; [done|].
    rewrite Hx, Hbb in Ht. replace (2 * M_PRIME_BYTES F + M_PRIME_BYTES F)%nat with (3 * M_PRIME_BYTES F)%nat in Ht by lia. split; [done|].
    rewrite Hu by (rewrite length_replicate; lia). done.
Qed.

Lemma wrap_then_unwrap `{SubtleLaws} F kappa m : array_ok (kappa_bytes F) kappa → array_ok (M_PRIME_BYTES F) m →
  ∃ t, wrap_m_prime F kappa m = Some (t, Ok tt) ∧ array_ok (T_BYTES F) t ∧ unwrap_m_prime F kappa t = Some (Ok m).
Proof.
  intros Hk Hm. assert (split_appended F (m ++ replicate (M_PRIME_BYTES F) 0) = Ok m) as Hs.
  { destruct Hm as [Hm _]. rewrite split_appended_spec by (rewrite length_app, length_replicate; lia).
    rewrite drop_app_length', take_app_length' by done. by rewrite decide_True. }
  destruct cipher_sizes as (K2 & B2 & K5 & B5). unfold wrap_m_prime, unwrap_m_prime. destruct F; cbn [kappa_bytes] in Hk.
  - rewrite <- K2 in Hk. destruct (kw_case Fp256 kappa m B2 Hk Hm) as (t & Hw & Ht & Hu).
    exists t. split; [done|]. split; [done|]. rewrite Hu. cbn [mbind option_bind]. by rewrite Hs.
  - rewrite <- K2 in Hk. destruct (expanded_new_ok kappa Hk) as (k & He & Hk').
    destruct (kwp_wrap_unwrap k m (replicate 128 0) Hk' (proj2 Hm)) as (t & Hw & Ht & Hu).
    { rewrite (proj1 Hm). by vm_compute. }
    exists t. unfold kwp_wrap, kwp_unwrap. rewrite He. cbn [mbind option_bind]. rewrite length_replicate in Ht.
    split; [by rewrite <- Hw|]. split; [done|]. rewrite Hu by (rewrite (proj1 Ht), B2; done). rewrite (proj1 Hm), Nat.eqb_refl. cbn [negb].
    rewrite take_app_length' by (symmetry; apply Hm). done.
  - rewrite <- K5 in Hk. destruct (kw_case Fp512 kappa m B5 Hk Hm) as (t & Hw & Ht & Hu).
    exists t. split; [done|]. split; [done|]. rewrite Hu. cbn [mbind option_bind]. by rewrite Hs.
Qed.

(** A wrapped message is accepted only if it is the wrapping of the one that comes out. *)
Lemma kw_case_exact {K} `{BlockCipherLaws K} `{SubtleLaws} F kappa t :
  block_bytes K = M_PRIME_BYTES F → array_ok (key_bytes K) kappa → array_ok (3 * M_PRIME_BYTES F) t →
  ∃ x r, unwrap_key kappa t (replicate (2 * M_PRIME_BYTES F) 0) = Some (x, r) ∧
    ∀ u m, r = Ok u → split_appended F x = Ok m →
      array_ok (M_PRIME_BYTES F) m ∧ wrap_key kappa (kw_plaintext_from_m_prime F m) (replicate (3 * M_PRIME_BYTES F) 0) = Some (t, Ok tt).
Proof.
  intros Hbb Hkey [Hl Hb]. pose proof (unwrap_exact kappa t (replicate (2 * M_PRIME_BYTES F) 0) Hkey Hb) as Hu. cbv zeta in Hu.
  pose proof (block_bytes_pos (K := K)) as Hpos. rewrite Hbb, Hl, length_replicate in Hu.
  rewrite decide_True in Hu by (rewrite Nat.Div0.mod_mul, Nat.div_mul by lia; lia).
  destruct Hu as [(x & [Hx Hxb] & Hu & Hw)|[Hu _]]; [|eexists _, _; split; [exact Hu|done]].
  eexists _, _. split; [exact Hu|]. intros _ m _ Hm. rewrite split_appended_spec in Hm by lia. case_decide as E; [|done]. injection Hm as <-.
  split; [split; [rewrite length_take; lia|by apply Forall_take]|].
  rewrite kw_plaintext_spec by (rewrite length_take; lia). rewrite <- E, take_drop. apply Hw. by rewrite length_replicate.
Qed.

Lemma unwrap_m_prime_exact `{SubtleLaws} F kappa t : array_ok (kappa_bytes F) kappa → array_ok (T_BYTES F) t →
  ∃ r, unwrap_m_prime F kappa t = Some r ∧ ∀ m, r = Ok m → array_ok (M_PRIME_BYTES F) m ∧ wrap_m_prime F kappa m = Some (t, Ok tt).
Proof.
  intros Hk Ht. destruct cipher_sizes as (K2 & B2 & K5 & B5). unfold wrap_m_prime, unwrap_m_prime. destruct F; cbn [kappa_bytes] in Hk.
  - rewrite <- K2 in Hk. destruct (kw_case_exact Fp256 kappa t B2 Hk Ht) as (x & r & -> & Hr). cbn [mbind option_bind].
    eexists. split; [done|]. intros m E. destruct r as [u|]; [|done]. by apply (Hr u m).
  - rewrite <- K2 in Hk. pose proof (kwp_unwrap_all kappa t (replicate 96 0) Hk (proj2 Ht)) as Hu.
    rewrite decide_True in Hu by (unfold kwp_unwrap_sizes; rewrite B2, (proj1 Ht), length_replicate; cbn; lia).
    change (replicate (T_BYTES Fp384 - 32) 0) with (replicate 96 0).
    destruct Hu as [(m & Hmb & Hu & Hw)|[Hu _]]; rewrite Hu; cbn [mbind option_bind]; (eexists; split; [done|]); [|done].
    intros m' E. destruct (Nat.eqb_spec (length m) (M_PRIME_BYTES Fp384)) as [Hl|]; [|done]. cbn [negb] in E. injection E as <-.
    rewrite take_app_length' by done. split; [done|]. apply Hw. rewrite length_replicate, (proj1 Ht). done.
  - rewrite <- K5 in Hk. destruct (kw_case_exact Fp512 kappa t B5 Hk Ht) as (x & r & -> & Hr). cbn [mbind option_bind].
    eexists. split; [done|]. intros m E. destruct r as [u|]; [|done]. by apply (Hr u m).
Qed.

(** ** Keys *)

(** ** The subgroup *)

(** A point of the group of the curve that the order annihilates and that is not one of those with coordinate 0, 1 or -1. *)
Definition in_subgroup (F : fp) (P : field F * field F) : Prop :=
  in_group (A_ F) (D_ F) P ∧ smul (A_ F) (D_ F) (Z.to_nat (n_of F)) P = neutral ∧
  P.1 ≠ Zmod.zero ∧ P.1 ≠ Zmod.one ∧ P.1 ≠ (Zmod.zero - Zmod.one)%Zmod.

Section Subgroup.
Context (F : fp) (Hp : Z.prime (p_of F)).

Lemma order_odd : ∃ bits, scalar_bits (order F) = bits ++ [true].
Proof. clear Hp. exists (take (8 * bytes_of F - 1) (scalar_bits (order F))). destruct F; vm_compute; reflexivity. Qed.

Lemma ladder_order P : in_group (A_ F) (D_ F) P → foldl (ladder_step (A_ F) (D_ F) P) neutral (scalar_bits (order F)) = smul (A_ F) (D_ F) (Z.to_nat (n_of F)) P.
Proof.
  intros HG. etrans; [exact (ladder_smul Hp _ _ _ (minus_one_square F) (d_not_square F Hp) (a_d_distinct F) P (scalar_bits (order F)) HG 0)|].
  by rewrite scalar_bits_value by apply ORDER_N_ok.
Qed.

(** What [point_from_x] returns stands for a point of the subgroup with that coordinate. *)
Lemma decoded_in_subgroup x q : fe_ok F x → point_from_x F x = Some q → ∃ P, prep F q P ∧ in_subgroup F P ∧ rep F x P.1.
Proof.
  intros Hx E. assert (∃ k, rep F x k) as [k Hr] by (exists (Zmod.of_Z _ (limbs_val x)); done).
  destruct (point_from_x_sound F Hp x k q Hr E) as (_ & Hc & y & Hq). pose proof (proj1 (point_from_x_some F Hp x k q Hr) E) as (Hex & _ & _ & _ & Ho). clear E.
  apply (is_on_curve_rep F _ _ Hq) in Hc. apply (NEUTRAL_eq F _ _ (scalar_multiply_rep F Hp _ _ (order F) Hq)) in Ho.
  destruct order_odd as [bits Eb]. rewrite Eb in Ho.
  pose proof (ladder_odd Hp _ _ _ (minus_one_square F) (d_not_square F Hp) (a_d_distinct F) _ bits Hc Ho) as HG. rewrite <- Eb, ladder_order in Ho by done.
  exists (k, y). split; [done|]. split; [|done]. split; [done|]. split; [done|]. rewrite (excluded_rep F x k Hr) in Hex. tauto.
Qed.

(** And every point of the subgroup is found, up to its sign. *)
Lemma subgroup_decoded x P : in_subgroup F P → rep F x P.1 → ∃ q, point_from_x F x = Some q ∧ (prep F q P ∨ prep F q (neg P)).
Proof.
  destruct P as [k y]. intros (HG & Hn & H0 & H1 & H2) Hx. cbn [fst] in *.
  destruct (point_from_x_complete F Hp x k y Hx) as (q & E & _ & Hq); [rewrite (excluded_rep F x k Hx); tauto|apply HG|by rewrite ladder_order|by exists q].
Qed.

(** The coordinate of a multiple does not depend on the sign. *)
Lemma multiple_either_sign q P s : in_group (A_ F) (D_ F) P → prep F q P ∨ prep F q (neg P) → bytes_ok s →
  rep F (pt_x (scalar_multiply F q s)) (smul (A_ F) (D_ F) (Z.to_nat (from_be_bytes s)) P).1.
Proof.
  intros HG [Hq|Hq] Hs.
  - apply (scalar_multiply_smul F Hp _ _ s Hq HG Hs).
  - destruct (scalar_multiply_smul F Hp _ _ s Hq (in_group_neg Hp _ _ _ HG) Hs) as [H _]. rewrite (smul_neg Hp) in H. by destruct (smul _ _ _ P).
Qed.
End Subgroup.

Section Keys.
Context (F : fp) (Hp : Z.prime (p_of F)) (Hn : Z.prime (n_of F)).
Add Field key_field : (Zmod.field_theory (p_of F) Hp).
Abbreviation B := (base F).
Abbreviation smul' := (smul (A_ F) (D_ F)).
Abbreviation val s := (Z.to_nat (from_be_bytes s)).

Lemma n_large : 5 < n_of F.
Proof. clear Hp Hn. destruct F; by vm_compute. Qed.

Lemma valid_range s : array_ok (bytes_of F) s → is_valid_scalar F s = true → 1 < from_be_bytes s < n_of F - 1 ∧ bytes_ok s.
Proof. intros Hs Hv. split; [by apply is_valid_scalar_spec|apply Hs]. Qed.

(** A small multiple of a number below the order is not a multiple of the order. *)
Lemma not_multiple j k : 0 < j < 5 → 0 < k < n_of F → ¬ (n_of F | j * k).
Proof.
  intros Hj Hk H. pose proof n_large. apply Z.divide_prime_mul in H as [H|H]; [..|done]; apply Z.divide_pos_le in H; lia.
Qed.

Lemma smul_base_in_group k : in_group (A_ F) (D_ F) (smul' k B).
Proof. apply (smul_in_group Hp _ _ _ (minus_one_square F) (d_not_square F Hp) (a_d_distinct F)), base_in_group. Qed.

Lemma smul_smul j k : smul' j (smul' k B) = smul' (j * k) B.
Proof. symmetry. apply (smul_mul Hp _ _ _ (minus_one_square F) (d_not_square F Hp) (a_d_distinct F)), base_in_group. Qed.

Lemma double_smul k : eadd (A_ F) (D_ F) (smul' k B) (smul' k B) = smul' (2 * k) B.
Proof.
  replace (2 * k)%nat with (k + k)%nat by lia. symmetry. apply (smul_add Hp _ _ _ (minus_one_square F) (d_not_square F Hp) (a_d_distinct F)), base_in_group.
Qed.

Lemma smul_base_neutral j k : 0 < j < 5 → 0 < k < n_of F → smul' (Z.to_nat (j * k)) B ≠ neutral.
Proof. intros Hj Hk E. apply (base_multiple_neutral F) in E; [|done|done|lia]. by eapply not_multiple. Qed.

(** A point of the group is usable unless its order divides four. *)
Lemma usable_in_group q u : prep F q u → in_group (A_ F) (D_ F) u → smul' 4 u ≠ neutral → is_usable_recipient F q = true.
Proof.
  intros Hq Hu H4. assert (∀ n, in_group (A_ F) (D_ F) (smul' n u)) as HG.
  { intros n. by apply (smul_in_group Hp _ _ _ (minus_one_square F) (d_not_square F Hp) (a_d_distinct F)). }
  assert (∀ n P, prep F P (smul' n u) → prep F (point_add F P P) (smul' (n + n) u)) as Hd.
  { intros n P HP. rewrite (smul_add Hp _ _ _ (minus_one_square F) (d_not_square F Hp) (a_d_distinct F)) by done. by apply point_add_rep. }
  rewrite <- (smul_1 Hp (A_ F) (D_ F) u) in Hq. apply Hd in Hq as Hq2. apply Hd in Hq2 as Hq4.
  unfold is_usable_recipient. rewrite !andb_true_iff, bool_decide_eq_true. split; [split|].
  - apply (is_on_curve_rep F _ _ Hq), HG.
  - by rewrite (NEUTRAL_eq F _ _ Hq4).
  - apply (is_on_curve_rep F _ _ Hq4), HG.
Qed.

(** A point that stands for the [j]-th multiple of the base point, up to its sign: what a receiver of one coordinate has. *)
Definition multiple_up_to_sign (j : nat) (P : Point) : Prop := prep F P (smul' j B) ∨ prep F P (neg (smul' j B)).

Lemma key_usable e q : array_ok (bytes_of F) e → is_valid_scalar F e = true → multiple_up_to_sign (val e) q → is_usable_recipient F q = true.
Proof.
  intros He Hv Hq. destruct (valid_range e He Hv) as [Hr Hb]. pose proof (smul_base_in_group (val e)) as HG.
  assert (smul' 4 (smul' (val e) B) ≠ neutral) as H4.
  { rewrite smul_smul. replace (4 * val e)%nat with (Z.to_nat (4 * from_be_bytes e)) by lia. apply smul_base_neutral; lia. }
  destruct Hq as [Hq|Hq]; [by eapply usable_in_group|]. eapply usable_in_group; [done|by apply (in_group_neg Hp)|]. rewrite (smul_neg Hp).
  intros E. apply H4. destruct (smul' 4 (smul' (val e) B)) as [x y]. pose proof (f_equal fst E) as Ex. pose proof (f_equal snd E) as Ey.
  unfold neg, neutral in *. cbn [fst snd] in Ex, Ey. rewrite Ex. f_equal. trans (Zmod.opp (Zmod.opp y)); [ring|]. rewrite Ey. ring.
Qed.

(** Every key that is decoded from bytes is usable: the check of the order leaves only points of the group. *)
Lemma decoded_usable x q : fe_ok F x → point_from_x F x = Some q → is_usable_recipient F q = true.
Proof.
  intros Hx E. destruct (decoded_in_subgroup F Hp x q Hx E) as (P & Hq & (HG & En & _ & H1 & _) & _).
  apply (usable_in_group q P Hq HG). intros E4. pose proof n_large.
  apply (smul_order Hp _ _ _ (minus_one_square F) (d_not_square F Hp) (a_d_distinct F) (Z.to_nat (n_of F)) 4 P HG) in E4.
  - rewrite Z2Nat.id in E4 by lia. apply Z.divide_pos_le in E4; lia.
  - by rewrite Z2Nat.id by lia.
  - intros E1. apply H1. by rewrite E1.
  - done.
Qed.

(** A multiple of the base point by a scalar of the range is not one of the excluded points. *)
Lemma multiple_not_excluded k x y : 0 < k < n_of F → smul' (Z.to_nat k) B = (x, y) →
  x ≠ Zmod.zero ∧ x ≠ Zmod.one ∧ x ≠ (Zmod.zero - Zmod.one)%Zmod.
Proof.
  intros Hk E. pose proof (smul_base_in_group (Z.to_nat k)) as [Hc _]. rewrite E in Hc. split; [|assert ((x * x)%Zmod ≠ Zmod.one) as Hx].
  - intros ->. unfold on_curve in Hc. cbv beta iota in Hc. apply (a_not_square F Hp (A_ F * y)%Zmod).
    trans (A_ F * (Zmod.zero * Zmod.zero + A_ F * (y * y)))%Zmod; [ring|]. rewrite Hc. ring.
  - intros Hx. pose proof (x_square_one Hp (A_ F) (D_ F) (a_d_distinct F) x y Hc Hx) as ->.
    apply (smul_base_neutral 2 k); [lia|done|]. replace (Z.to_nat (2 * k)) with (2 * Z.to_nat k)%nat by lia. rewrite <- double_smul, E.
    unfold eadd. cbv zeta. replace (D_ F * x * x * Zmod.zero * Zmod.zero)%Zmod with (Zmod.zero : field F) by ring. rewrite Hx.
    replace ((Zmod.one - Zmod.zero) * (Zmod.one + Zmod.zero))%Zmod with (Zmod.one : field F) by ring. rewrite Zmod.inv_1. unfold neutral. f_equal; ring.
  - split; intros ->; apply Hx; ring.
Qed.

(** The ephemeral point is found again from its coordinate, up to its sign. *)
Lemma ephemeral_accepted eps : array_ok (bytes_of F) eps → is_valid_scalar F eps = true →
  let R := scalar_multiply F (base_point F) eps in
  ∃ R', point_from_x F (pt_x R) = Some R' ∧ multiple_up_to_sign (val eps) R'.
Proof.
  intros He Hv R. destruct (valid_range eps He Hv) as [Hr Hb]. pose proof (multiple_of_base F eps Hp Hb) as HR. fold R in HR.
  pose proof (smul_base_in_group (val eps)) as HG. destruct (smul' (val eps) B) as [x y] eqn:E.
  destruct (multiple_not_excluded (from_be_bytes eps) x y ltac:(lia) E) as (X1 & X2 & X3). destruct HR as [Hx Hy].
  destruct (point_from_x_complete F Hp (pt_x R) x y Hx) as (R' & E' & _ & HR').
  - rewrite (excluded_rep F _ _ Hx). tauto.
  - apply HG.
  - etrans; [apply (ladder_smul Hp _ _ _ (minus_one_square F) (d_not_square F Hp) (a_d_distinct F) (x, y) (scalar_bits (order F)) HG 0)|].
    rewrite scalar_bits_value by apply ORDER_N_ok. rewrite <- E, smul_smul, Nat.mul_comm, <- smul_smul.
    change (val (order F)) with (Z.to_nat (n_of F)). rewrite base_order by done. by apply smul_neutral.
  - exists R'. unfold multiple_up_to_sign. rewrite E. by split.
Qed.

(** The coordinate of a multiple does not depend on the sign, so both sides derive the same key. *)
Lemma multiple_coordinate j P k : bytes_ok k → multiple_up_to_sign j P → rep F (pt_x (scalar_multiply F P k)) (smul' (val k * j) B).1.
Proof.
  intros Hk [HP|HP].
  - destruct (scalar_multiply_smul F Hp _ _ k HP (smul_base_in_group _) Hk) as [H _]. by rewrite smul_smul in H.
  - destruct (scalar_multiply_smul F Hp _ _ k HP (in_group_neg Hp _ _ _ (smul_base_in_group _)) Hk) as [H _].
    rewrite (smul_neg Hp), smul_smul in H. by destruct (smul' (val k * j) B).
Qed.

Lemma shared_coordinate e eps q R' :
  bytes_ok e → bytes_ok eps → multiple_up_to_sign (val e) q → multiple_up_to_sign (val eps) R' →
  pt_x (scalar_multiply F q eps) = pt_x (scalar_multiply F R' e).
Proof.
  intros He Heps Hq HR. apply (multiple_coordinate _ _ eps Heps) in Hq. apply (multiple_coordinate _ _ e He) in HR.
  rewrite Nat.mul_comm in Hq. by apply (rep_eq F _ _ _ _ Hq HR).
Qed.
End Keys.

(** ** Whole messages *)

Lemma scalar_multiply_ok F P s : Z.prime (p_of F) → point_ok F P → point_ok F (scalar_multiply F P s).
Proof. intros Hp HP. eapply prep_ok, scalar_multiply_rep; [done|]. by apply prep_self. Qed.

Lemma format_m_prime F id msg bits m : byte_ok id → bytes_ok msg → format_m_tilde F msg bits = Ok m →
  build_m_prime F id m (encode_l_m_tilde bits) = Some (m_prime_of F id bits m) ∧ array_ok (M_PRIME_BYTES F) (m_prime_of F id bits m) ∧
  bits_ok F bits ∧ padded_ok F bits m ∧ drop (M_TILDE_BYTES F - div_ceil_8 bits) m = msg.
Proof.
  intros Hid Hmsg E. pose proof (format_spec F msg bits Hmsg) as Hf. rewrite E in Hf. destruct Hf as (Hb & Hl & Hpad & Em).
  pose proof Hpad as [Hm _]. pose proof (to_be_bytes_ok 2 bits) as Hl2. pose proof (m_hash_ok F _ _ Hl2 Hm) as Hh.
  rewrite (encode_bits F), build_spec by done. split; [done|]. split; [by apply fields_ok|]. split; [done|]. split; [done|].
  rewrite Em. by rewrite drop_app_length' by (by rewrite length_replicate).
Qed.

(** What an encryption gives when nothing is refused. *)
Lemma encrypt_ok `{SubtleLaws} F msg bits q eps m : Z.prime (p_of F) → bytes_ok msg → point_ok F q → 
  is_valid_scalar F eps = true → is_usable_recipient F q = true → format_m_tilde F msg bits = Ok m →
  let R := scalar_multiply F (base_point F) eps in
  let kappa := kappa_from_x F (fe_to_be_bytes F (pt_x (scalar_multiply F q eps))) in
  ∃ t, encrypt F msg bits q eps = Some (Ok (fe_to_be_bytes F (pt_x R) ++ t)) ∧ array_ok (T_BYTES F) t ∧ array_ok (bytes_of F) (fe_to_be_bytes F (pt_x R)) ∧
    wrap_m_prime F kappa (m_prime_of F HASH_ID_KUPYNA256 bits m) = Some (t, Ok tt) ∧
    unwrap_m_prime F kappa t = Some (Ok (m_prime_of F HASH_ID_KUPYNA256 bits m)).
Proof.
  intros Hp Hmsg Hq Hv Hu E R kappa. destruct (format_m_prime F HASH_ID_KUPYNA256 msg bits m ltac:(done) Hmsg E) as (Eb & Hm' & _).
  assert (point_ok F R) as [HRx _] by (apply scalar_multiply_ok; [done|apply base_ok]).
  assert (point_ok F (scalar_multiply F q eps)) as [HTx _] by (by apply scalar_multiply_ok).
  destruct (wrap_then_unwrap F kappa _ (kappa_ok F _ HTx) Hm') as (t & Hw & Ht & Hun). exists t.
  pose proof (fe_to_be_bytes_ok F _ HRx) as Hr. split; [|done]. unfold encrypt. rewrite Hv, Hu, E. cbn [negb]. rewrite Eb. cbn [mbind option_bind].
  fold R. fold kappa. rewrite Hw. cbn [mbind option_bind]. do 2 f_equal. unfold CIPHERTEXT_BYTES.
  rewrite copy_at_0 by (rewrite length_replicate, (proj1 Hr); unfold bytes_of; lia). rewrite drop_replicate, (proj1 Hr).
  replace (bytes_of F + T_BYTES F - 8 * width F)%nat with (T_BYTES F) by (unfold bytes_of; lia).
  rewrite <- (app_nil_r (replicate (T_BYTES F) 0)), copy_at_app by (rewrite ?length_replicate, ?(proj1 Hr), ?(proj1 Ht); done).
  by rewrite app_nil_r.
Qed.

Lemma m_prime_of_ok F id bits m : byte_ok id → padded_ok F bits m → array_ok (M_PRIME_BYTES F) (m_prime_of F id bits m).
Proof.
  intros Hid [Hm _]. pose proof (to_be_bytes_ok 2 bits) as Hl. apply fields_ok; [done| |done..]. by apply m_hash_ok.
Qed.

Lemma point_from_x_ok F x R : Z.prime (p_of F) → fe_ok F x → point_from_x F x = Some R → point_ok F R.
Proof.
  intros Hp Hx E. assert (rep F x (Zmod.of_Z _ (limbs_val x))) as Hr by done.
  destruct (point_from_x_sound F Hp x _ R Hr E) as (_ & _ & y & HP). by eapply prep_ok.
Qed.

Lemma parse_total `{SubtleLaws} F m' : array_ok (M_PRIME_BYTES F) m' → is_Some (parse_m_prime F m').
Proof. intros Hm'. apply (parse_exact F m' {| hash_id := 0; bit_length := 0; m_tilde := [] |} Hm'). Qed.

(** The whole of decryption on a ciphertext of the size, with the key wrap as the specification. *)
Lemma decryption_spec `{SubtleLaws} F c e m bits : Z.prime (p_of F) → array_ok (CIPHERTEXT_BYTES F) c → 
  is_Some (decrypt F c e) ∧ (decrypt F c e = Some (Ok (m, bits)) ↔
    is_valid_scalar F e = true ∧ bits_ok F bits ∧ padded_ok F bits m ∧
    ∃ x R id, from_candidate_bytes F (take (bytes_of F) c) = Some x ∧ point_from_x F x = Some R ∧ byte_ok id ∧
      wrap_m_prime F (kappa_from_x F (fe_to_be_bytes F (pt_x (scalar_multiply F R e)))) (m_prime_of F id bits m) =
        Some (drop (bytes_of F) c, Ok tt)).
Proof.
  intros Hp Hc. unfold decrypt. destruct (is_valid_scalar F e) eqn:Hv; cbn [negb]; [|split; [done|split; [done|by intros []]]].
  assert (array_ok (bytes_of F) (take (bytes_of F) c)) as Hr by (apply (array_ok_take _ _ _ Hc); unfold CIPHERTEXT_BYTES; lia).
  assert (array_ok (T_BYTES F) (drop (bytes_of F) c)) as Ht.
  { pose proof (array_ok_drop (bytes_of F) _ _ Hc) as Ht. by replace (CIPHERTEXT_BYTES F - bytes_of F)%nat with (T_BYTES F) in Ht by (unfold CIPHERTEXT_BYTES; lia). }
  destruct (from_candidate_bytes F (take (bytes_of F) c)) as [x|] eqn:Ex; [|split; [done|split; [done|by intros (_ & _ & _ & ? & ? & ? & ? & _)]]].
  destruct (point_from_x F x) as [R|] eqn:ER; [|split; [done|split; [done|intros (_ & _ & _ & ? & ? & ? & [= <-] & ? & _); congruence]]].
  apply from_candidate_ok in Ex as Hx; [|done]. pose proof (point_from_x_ok F x R Hp (proj1 Hx) ER) as HR.
  destruct (scalar_multiply_ok F R e Hp HR) as [HT _]. pose proof (kappa_ok F _ HT) as Hk.
  set (kappa := kappa_from_x F _) in *. destruct (unwrap_m_prime_exact F kappa _ Hk Ht) as (r & Er & Hex). rewrite Er. cbn [mbind option_bind].
  destruct r as [m'|].
  - destruct (Hex m' eq_refl) as [Hm' Hw]. split.
    + destruct (parse_total F m' Hm') as [r ->]. by destruct r.
    + split.
      * destruct (parse_total F m' Hm') as [[M|] E]; rewrite E; [|done]. cbn [mbind option_bind]. intros [= <- <-].
        apply (parse_exact F m' M Hm') in E as (Hb & Hpad & E). split; [done|]. split; [done|]. split; [done|].
        exists x, R, (hash_id M). split; [done|]. split; [done|]. fold kappa. rewrite <- E. split; [|done].
        destruct Hm' as [_ Hm']. rewrite E in Hm'. by apply Forall_cons in Hm' as [? _].
      * intros (_ & Hb & Hpad & x' & R' & id & [= <-] & E' & Hid & Hw2). assert (R' = R) as -> by congruence. fold kappa in Hw2.
        pose proof (m_prime_of_ok F id bits m Hid Hpad) as Hok.
        destruct (wrap_then_unwrap F kappa _ Hk Hok) as (t & Hw' & _ & Hu). assert (t = drop (bytes_of F) c) as -> by congruence.
        rewrite Er in Hu. injection Hu as ->.
        destruct (parse_exact F _ {| hash_id := id; bit_length := bits; m_tilde := m |} Hok) as [_ [_ Hpe]]. rewrite Hpe; done.
  - split; [done|]. split; [done|]. intros (_ & Hb & Hpad & x' & R' & id & [= <-] & E' & Hid & Hw2).
    assert (R' = R) as -> by congruence. fold kappa in Hw2.
    destruct (wrap_then_unwrap F kappa _ Hk (m_prime_of_ok F id bits m Hid Hpad)) as (t & Hw' & _ & Hu).
    assert (t = drop (bytes_of F) c) as -> by congruence. congruence.
Qed.

(** ** Properties *)

(** Decryption inverts encryption, for any point with the coordinate of the public key. *)
Lemma encrypt_then_decrypt `{SubtleLaws} F msg bits e eps m q :
  Z.prime (p_of F) → Z.prime (n_of F) → bytes_ok msg → format_m_tilde F msg bits = Ok m →
  array_ok (bytes_of F) e → is_valid_scalar F e = true → array_ok (bytes_of F) eps → is_valid_scalar F eps = true →
  point_ok F q → multiple_up_to_sign F (Z.to_nat (from_be_bytes e)) q →
  ∃ c, encrypt F msg bits q eps = Some (Ok c) ∧ array_ok (CIPHERTEXT_BYTES F) c ∧
    decrypt F c e = Some (Ok (m, bits)) ∧ drop (M_TILDE_BYTES F - div_ceil_8 bits) m = msg.
Proof.
  intros Hp Hn Hmsg E He Hve Heps Hveps Hq Hqe.
  destruct (encrypt_ok F msg bits q eps m Hp Hmsg Hq Hveps (key_usable F Hp Hn e q He Hve Hqe) E) as (t & Hc & Ht & Hr & _ & Hun).
  destruct (format_m_prime F HASH_ID_KUPYNA256 msg bits m ltac:(done) Hmsg E) as (_ & Hm' & Hb & Hpad & Hmsg').
  set (R := scalar_multiply F (base_point F) eps) in *. exists (fe_to_be_bytes F (pt_x R) ++ t). split; [done|].
  split; [by apply array_ok_app|]. split; [|done].
  unfold decrypt. rewrite Hve. cbn [negb]. rewrite take_app_length', drop_app_length' by (symmetry; apply Hr || apply Hr).
  rewrite from_candidate_to_be by (apply scalar_multiply_ok; [done|apply base_ok]).
  destruct (ephemeral_accepted F Hp Hn eps Heps Hveps) as (R' & ER & HR'). cbv zeta in ER. fold R in ER. rewrite ER.
  rewrite <- (shared_coordinate F Hp e eps q R' (proj2 He) (proj2 Heps) Hqe HR'). rewrite Hun. cbn [mbind option_bind].
  unfold m_prime_of. rewrite parse_fields; [|by apply m_hash_ok; [apply to_be_bytes_ok|apply Hpad]|apply to_be_bytes_ok|apply Hpad].
  rewrite (bits_bytes_field F) by done. unfold bits_ok in Hb. destruct Hpad as [_ Hpad]. by rewrite !decide_False, !decide_True by (done || lia).
Qed.

(** Decryption with the private key inverts encryption for its public key, for every message that fits, every
    pair of scalars of the range and all three sizes. *)
Theorem encryption_roundtrip `{SubtleLaws} F msg bits e eps m :
  Z.prime (p_of F) → Z.prime (n_of F) → bytes_ok msg → format_m_tilde F msg bits = Ok m →
  array_ok (bytes_of F) e → is_valid_scalar F e = true → array_ok (bytes_of F) eps → is_valid_scalar F eps = true →
  let q := scalar_multiply F (base_point F) e in
  ∃ c, encrypt F msg bits q eps = Some (Ok c) ∧ array_ok (CIPHERTEXT_BYTES F) c ∧
    decrypt F c e = Some (Ok (m, bits)) ∧ drop (M_TILDE_BYTES F - div_ceil_8 bits) m = msg.
Proof.
  intros Hp Hn Hmsg E He Hve Heps Hveps q. apply (encrypt_then_decrypt F msg bits e eps m q); try done.
  - by apply scalar_multiply_ok, base_ok.
  - left. apply multiple_of_base; [done|apply He].
Qed.

(** C39. Decryption never panics on a ciphertext of its size, and under a private key in range it accepts exactly the ciphertexts that
    were made: the first field is the coordinate, in its one encoding, of a point of the subgroup, and the rest is the key wrap, under
    the key derived from the coordinate of that point's multiple by the private key, of the encoding of a padded message.
    Everything else, a private key out of range too, is the one error. *)
Theorem decrypt_exact `{SubtleLaws} F c e m bits : Z.prime (p_of F) → array_ok (CIPHERTEXT_BYTES F) c → array_ok (bytes_of F) e →
  (decrypt F c e = Some (Err InvalidCiphertext) ∨ ∃ m bits, decrypt F c e = Some (Ok (m, bits))) ∧
  (decrypt F c e = Some (Ok (m, bits)) ↔
    1 < from_be_bytes e < n_of F - 1 ∧ bits_ok F bits ∧ padded_ok F bits m ∧
    ∃ P x t id, in_subgroup F P ∧ rep F x P.1 ∧ fe_to_be_bytes F x = take (bytes_of F) c ∧
      rep F t (smul (A_ F) (D_ F) (Z.to_nat (from_be_bytes e)) P).1 ∧ byte_ok id ∧
      wrap_m_prime F (kappa_from_x F (fe_to_be_bytes F t)) (m_prime_of F id bits m) = Some (drop (bytes_of F) c, Ok tt)).
Proof.
  intros Hp Hc He. destruct (decryption_spec F c e m bits Hp Hc) as [[r Er] Hex]. rewrite <- (is_valid_scalar_spec F e He).
  split; [rewrite Er; destruct r as [[m' b']|[]]; [right; by exists m', b'|by left]|]. rewrite Hex.
  do 3 f_equiv. split.
  - intros (x & R & id & Ex & ER & Hid & Hw). assert (array_ok (8 * width F) (take (bytes_of F) c)) as Hr by (apply (array_ok_take _ _ _ Hc); unfold CIPHERTEXT_BYTES, bytes_of; lia).
    destruct (from_candidate_ok F _ x Hr Ex) as [Hx Eb]. destruct (decoded_in_subgroup F Hp x R Hx ER) as (P & HR & HP & Hxr).
    exists P, x, (pt_x (scalar_multiply F R e)), id. split_and!; try done. apply multiple_either_sign; [done|apply HP|by left|apply He].
  - intros (P & x & t & id & HP & Hx & Eb & Ht & Hid & Hw). destruct (subgroup_decoded F Hp x P HP Hx) as (R & ER & HR).
    exists x, R, id. rewrite <- Eb, from_candidate_to_be by (by eapply rep_ok). split; [reflexivity|]. split; [exact ER|]. split; [exact Hid|].
    pose proof (multiple_either_sign F Hp R P e (proj1 HP) HR (proj2 He)) as Hm. rewrite (proj2 (rep_eq F _ _ _ _ Hm Ht) eq_refl). exact Hw.
Qed.

(** Encryption never panics and never fails late: it refuses an ephemeral scalar outside the range, then a recipient
    off the curve or of order 1, 2 or 4, then a message that does not fit, and otherwise gives a ciphertext. *)
Theorem encrypt_outcome F msg bits q eps : Z.prime (p_of F) → bytes_ok msg → point_ok F q →
  ∃ r, encrypt F msg bits q eps = Some r ∧
    match r with
    | Err InvalidEphemeralKey => is_valid_scalar F eps = false
    | Err InvalidPublicKey => is_valid_scalar F eps = true ∧ is_usable_recipient F q = false
    | Err InvalidMessage => is_valid_scalar F eps = true ∧ is_usable_recipient F q = true ∧
        ¬ (bits_ok F bits ∧ length msg = div_ceil_8 bits)
    | Ok c => is_valid_scalar F eps = true ∧ is_usable_recipient F q = true ∧ bits_ok F bits ∧ length msg = div_ceil_8 bits ∧
        array_ok (CIPHERTEXT_BYTES F) c
    end.
Proof.
  intros Hp Hmsg Hq. destruct (is_valid_scalar F eps) eqn:Hv; [|unfold encrypt; rewrite Hv; by eexists].
  destruct (is_usable_recipient F q) eqn:Hu; [|unfold encrypt; rewrite Hv, Hu; by eexists].
  pose proof (format_spec F msg bits Hmsg) as Hf. destruct (format_m_tilde F msg bits) as [m|err] eqn:E.
  - destruct (@encrypt_ok plain_subtle plain_subtle_laws F msg bits q eps m Hp Hmsg Hq Hv Hu E) as (t & -> & Ht & Hr & _).
    eexists. split; [done|]. destruct Hf as (Hb & Hl & _). split_and!; [done..|]. by apply array_ok_app.
  - unfold encrypt. rewrite Hv, Hu, E. cbn [negb]. eexists. split; [done|]. split; [done|]. split; [done|].
    unfold bits_ok in *. destruct err; lia || tauto.
Qed.

(** ** Witnesses *)

Definition sample_private : list Z := replicate 31 0 ++ [5].
Definition sample_ephemeral : list Z := replicate 31 0 ++ [7].

Lemma encryption_roundtrip_witness : ∃ c m,
  encrypt Fp256 [1; 2; 3] 20 (scalar_multiply Fp256 (base_point Fp256) sample_private) sample_ephemeral = Some (Ok c) ∧
  @decrypt plain_subtle Fp256 c sample_private = Some (Ok (m, 20%nat)).
Proof.
  destruct (@encryption_roundtrip plain_subtle plain_subtle_laws Fp256 [1; 2; 3] 20 sample_private sample_ephemeral
    (replicate 22 0 ++ [1; 2; 3]) prime_256 n_of_256) as (c & E1 & _ & E2 & _); [by_decision|by vm_compute|by_decision|by vm_compute|by_decision|by vm_compute|].
  exists c, (replicate 22 0 ++ [1; 2; 3]). split; [exact E1|exact E2].
Defined.

Lemma decrypt_exact_witness :
  @decrypt plain_subtle Fp384 (replicate 176 0) (replicate 48 1) = Some (Err InvalidCiphertext) ∨ ∃ m bits, @decrypt plain_subtle Fp384 (replicate 176 0) (replicate 48 1) = Some (Ok (m, bits)).
Proof.
  destruct (@decrypt_exact plain_subtle plain_subtle_laws Fp384 (replicate 176 0) (replicate 48 1) [] 0 prime_384) as [H _];
    [by_decision|by_decision|exact H].
Defined.

Lemma encrypt_outcome_witness : ∃ r, encrypt Fp384 [1] 9 (base_point Fp384) (replicate 48 0) = Some r.
Proof.
  destruct (encrypt_outcome Fp384 [1] 9 (base_point Fp384) (replicate 48 0) prime_384) as (r & E & _); [by_decision|apply base_ok|by exists r].
Defined.
