(* ===== verification/BinaryCurve.v ===== *)
(** Elliptic curves [y^2 + x y = x^3 + a x^2 + b] with [b <> 0] over a field of characteristic two: the affine
    addition law with its point at infinity, and the proof that it is a commutative group.  [Curve4145.v]
    refines it to the code; [Gf2Field.v] gives the fields. *)

From Stdlib Require Import Bool Ring_theory Field_theory Field.
From S2P Require Import Prelude Modular.

(** ** Fields of characteristic two *)

Class FieldOps (K : Type) : Type := { fzero : K; fone : K; fadd : K → K → K; fmul : K → K → K; finv : K → K }.

Declare Scope binary_field_scope.
Delimit Scope binary_field_scope with K.
Notation "0" := fzero : binary_field_scope.
Notation "1" := fone : binary_field_scope.
Infix "+" := fadd : binary_field_scope.
Infix "*" := fmul : binary_field_scope.
Notation "x / y" := (fmul x (finv y)) : binary_field_scope.

(** Subtraction is addition, and negation is the identity. *)
Class BinaryField (K : Type) `{FieldOps K} : Type := {
  f_eq_dec :: EqDecision K;
  f_theory : field_theory fzero fone fadd fmul fadd (λ x, x) (λ x y, fmul x (finv y)) finv (@eq K);
  f_char2 : fadd fone fone = fzero;
}.

(** [ring] and [field] compute with coefficients in GF(2). *)
Definition gf2 `{FieldOps K} (e : bool) : K := if e then fone else fzero.

Lemma gf2_ring_morph `{FieldOps K} (R : ring_theory fzero fone fadd fmul fadd (λ x, x) (@eq K)) (C : fadd fone fone = fzero) :
  ring_morph fzero fone fadd fmul fadd (λ x, x) eq false true xorb andb xorb (λ e, e) Bool.eqb gf2.
Proof.
  destruct R as [A0 Ac Aa M1 Mc Ma D _ O]. assert (∀ x, fmul fzero x = fzero) as M0.
  { intros x. assert (fmul (fadd fone fone) x = fzero) as E by (rewrite D; apply O). by rewrite C in E. }
  split; unfold gf2; try done; intros; repeat match goal with e : bool |- _ => destruct e end; simpl; rewrite ?A0, ?M1, ?M0, ?C;
    done || by rewrite Ac, A0.
Qed.

Section Curve.
#[local] Open Scope binary_field_scope.
Context `{BinaryField K} (a b : K).
Implicit Types x y l m : K.

Definition gf2_morph := gf2_ring_morph (F_R f_theory) f_char2.
Add Field binary_field : f_theory (morphism gf2_morph).

Lemma add_zero_eq x y : x + y = 0 ↔ x = y.
Proof. split; [intros E|intros ->; ring]. trans (x + y + y); [ring|]. rewrite E. ring. Qed.

Lemma char2_mul_zero x y : x * y = 0 → x = 0 ∨ y = 0.
Proof.
  intros E. destruct (decide (x = 0)) as [|Hx]; [by left|right]. trans (x * y / x); [by field|]. rewrite E. by field.
Qed.

Lemma square_inj x y : x * x = y * y → x = y.
Proof.
  intros E. assert ((x + y) * (x + y) = 0) as Hs by (trans (x * x + y * y); [ring|rewrite E; ring]).
  by apply char2_mul_zero in Hs as [Hs|Hs]; apply add_zero_eq.
Qed.

(** ** The addition law *)

(** [None] is the point at infinity. *)
Definition bpoint : Type := option (K * K).
Implicit Types P Q R : bpoint.

Definition equation x y : Prop := y * y + x * y = x * x * x + a * x * x + b.
Definition on P : Prop := match P with None => True | Some (x, y) => equation x y end.

Definition bneg P : bpoint := match P with None => None | Some (x, y) => Some (x, x + y) end.

Definition bdouble P : bpoint :=
  match P with
  | None => None
  | Some (x1, y1) =>
      if decide (x1 = 0) then None
      else
        let l := x1 + y1 / x1 in
        let x3 := l * l + l + a in
        Some (x3, x1 * x1 + (l + 1) * x3)
  end.

Definition badd P Q : bpoint :=
  match P, Q with
  | None, Q => Q
  | P, None => P
  | Some (x1, y1), Some (x2, y2) =>
      if decide (x1 = x2) then if decide (y1 = y2) then bdouble P else None
      else
        let l := (y1 + y2) / (x1 + x2) in
        let x3 := l * l + l + x1 + x2 + a in
        Some (x3, l * (x1 + x3) + x3 + y1)
  end.

(** [l] is the slope of the chord or tangent through two points: both cases satisfy the same equations. *)
Definition line x1 y1 x2 y2 l : Prop :=
  y2 = (l * l + l + x1 + a) * (x1 + x2) + x2 * l + x2 * x2 ∧ y1 = y2 + l * (x1 + x2).
Definition sum_x l x1 x2 : K := l * l + l + x1 + x2 + a.
Definition sum_y l x1 y1 x3 : K := l * (x1 + x3) + x3 + y1.
Definition sum_of x1 y1 x2 l : bpoint := Some (sum_x l x1 x2, sum_y l x1 y1 (sum_x l x1 x2)).

Context (Hb : b ≠ 0).

Lemma equation_square x y : equation x y → y * y = x * y + x * x * x + a * x * x + b.
Proof. unfold equation. intros E. trans (y * y + x * y + x * y); [ring|]. rewrite E. ring. Qed.

Lemma sum_nonzero x1 x2 : x1 ≠ x2 → x1 + x2 ≠ 0.
Proof. intros Hx E. by apply Hx, add_zero_eq. Qed.

(** Two points of the curve with the same coordinate are equal or opposite. *)
Lemma same_x x y1 y2 : equation x y1 → equation x y2 → y1 = y2 ∨ y2 = x + y1.
Proof.
  intros E1%equation_square E2%equation_square. assert ((y1 + y2) * (y1 + y2 + x) = 0) as E.
  { ring [E1 E2]. }
  apply char2_mul_zero in E as [E|E]; [left; by apply add_zero_eq|right]. apply add_zero_eq. rewrite <- E. ring.
Qed.

Lemma chord_line x1 y1 x2 y2 : equation x1 y1 → equation x2 y2 → x1 ≠ x2 → line x1 y1 x2 y2 ((y1 + y2) / (x1 + x2)).
Proof.
  intros E1%equation_square E2%equation_square Hx%sum_nonzero. split; (field_simplify_eq; [|done]); [ring [E1 E2]|ring].
Qed.

Lemma tangent_line x y : x ≠ 0 → line x y x y (x + y / x).
Proof. intros Hx. split; by field. Qed.

Lemma no_common x : ¬ equation x 0 ∨ x ≠ 0.
Proof. destruct (decide (x = 0)) as [->|]; [left|by right]. unfold equation. intros E. apply Hb. trans (0 * 0 + 0 * 0); [|ring]. rewrite E. ring. Qed.

Lemma equation_zero y : equation 0 y → y ≠ 0.
Proof. intros E ->. by destruct (no_common 0). Qed.

(** A line determines the sum. *)
Lemma line_add x1 y1 x2 y2 l : equation x1 y1 → line x1 y1 x2 y2 l → badd (Some (x1, y1)) (Some (x2, y2)) = sum_of x1 y1 x2 l.
Proof.
  intros E1 [L2 L1]. unfold badd, sum_of, sum_y, sum_x. destruct (decide (x1 = x2)) as [<-|Hx%sum_nonzero].
  - assert (y2 = x1 * l + x1 * x1) as Ey by (rewrite L2; ring). assert (y1 = y2) as -> by (rewrite L1; ring).
    rewrite decide_True by done. unfold bdouble. destruct (decide (x1 = 0)) as [->|Hx].
    { exfalso. apply (equation_zero y2); [done|]. rewrite Ey. ring. }
    assert (x1 + y2 / x1 = l) as -> by (rewrite Ey; by field). do 2 f_equal; [ring|]. rewrite Ey. ring.
  - assert ((y1 + y2) / (x1 + x2) = l) as -> by (rewrite L1; by field). done.
Qed.

Lemma add_line x1 y1 x2 y2 : equation x1 y1 → equation x2 y2 → Some (x2, y2) ≠ bneg (Some (x1, y1)) →
  ∃ l, line x1 y1 x2 y2 l ∧ (x1 ≠ x2 → l = (y1 + y2) / (x1 + x2)) ∧ (x1 = x2 → y1 = y2 ∧ x1 ≠ 0 ∧ l = x1 + y1 / x1).
Proof.
  intros E1 E2 Hn. destruct (decide (x1 = x2)) as [<-|Hx].
  - destruct (same_x x1 y1 y2 E1 E2) as [<-| ->]; [|done]. assert (x1 ≠ 0) as Hx.
    { intros ->. apply Hn. simpl. do 2 f_equal. ring. }
    exists (x1 + y1 / x1). split; [by apply tangent_line|done].
  - exists ((y1 + y2) / (x1 + x2)). split; [by apply chord_line|done].
Qed.

(** ** The group law *)

Lemma line_on x1 y1 x2 y2 l : equation x1 y1 → line x1 y1 x2 y2 l → on (sum_of x1 y1 x2 l).
Proof.
  intros E1%equation_square [L2 L1]. rewrite L2 in L1. subst y2. unfold sum_of, on, equation, sum_y, sum_x.
  assert (b = y1 * y1 + x1 * y1 + x1 * x1 * x1 + a * x1 * x1) as Eb by (rewrite E1; ring). rewrite Eb, L1. ring.
Qed.

Lemma badd_on P Q : on P → on Q → on (badd P Q).
Proof.
  destruct P as [[x1 y1]|], Q as [[x2 y2]|]; try done. intros E1 E2.
  destruct (decide (Some (x2, y2) = bneg (Some (x1, y1)))) as [En|Hn].
  - injection En as -> ->. unfold badd. rewrite decide_True by done. case_decide as E; [|done].
    unfold bdouble. rewrite decide_True; [done|]. trans (x1 + y1 + y1); [ring|]. rewrite <- E. ring.
  - destruct (add_line x1 y1 x2 y2 E1 E2 Hn) as (l & Hl & _). rewrite (line_add _ _ _ _ l) by done. by eapply line_on.
Qed.

Lemma bneg_on P : on P → on (bneg P).
Proof. destruct P as [[x y]|]; [|done]. simpl. unfold equation. intros E. trans (y * y + x * y); [ring|done]. Qed.

Lemma bneg_neg P : bneg (bneg P) = P.
Proof. destruct P as [[x y]|]; [|done]. simpl. do 2 f_equal. ring. Qed.

Lemma badd_none P : badd P None = P.
Proof. by destruct P as [[]|]. Qed.

Lemma badd_neg P : badd P (bneg P) = None.
Proof.
  destruct P as [[x y]|]; [|done]. simpl. rewrite decide_True by done. case_decide as E; [|done].
  rewrite decide_True; [done|]. trans (x + y + y); [ring|]. rewrite <- E. ring.
Qed.

Lemma line_comm x1 y1 x2 y2 l : line x1 y1 x2 y2 l → line x2 y2 x1 y1 l ∧ sum_of x2 y2 x1 l = sum_of x1 y1 x2 l.
Proof.
  intros [L2 L1]. unfold line, sum_of, sum_y, sum_x. rewrite L1, L2. repeat split; [ring..|]. do 2 f_equal; ring.
Qed.

Lemma badd_comm P Q : on P → on Q → badd P Q = badd Q P.
Proof.
  destruct P as [[x1 y1]|], Q as [[x2 y2]|]; try done. intros E1 E2.
  destruct (decide (Some (x2, y2) = bneg (Some (x1, y1)))) as [En|Hn].
  - rewrite En, badd_neg. rewrite <- (bneg_neg (Some (x1, y1))) at 2. by rewrite badd_neg.
  - destruct (add_line x1 y1 x2 y2 E1 E2 Hn) as (l & Hl & _). destruct (line_comm _ _ _ _ _ Hl) as [Hl' E].
    by rewrite !(line_add _ _ _ _ l), E by done.
Qed.

(** The third point of a line: subtracting one of the two others gives the last. *)
Lemma line_third x1 y1 x2 y2 l : line x1 y1 x2 y2 l →
  let xs := sum_x l x1 x2 in let ys := sum_y l x1 y1 xs in
  line xs ys x2 (x2 + y2) (l + 1) ∧ sum_of xs ys x2 (l + 1) = Some (x1, y1).
Proof.
  intros [L2 L1] xs ys. subst xs ys. unfold line, sum_of, sum_y, sum_x. rewrite L1, L2. repeat split; [ring..|]. do 2 f_equal; ring.
Qed.

Lemma badd_cancel P Q : on P → on Q → badd (badd P Q) (bneg Q) = P.
Proof.
  destruct P as [[x1 y1]|]; [|intros _ _; by rewrite badd_neg]. destruct Q as [[x2 y2]|]; [|intros _ _; by rewrite badd_none].
  intros E1 E2. destruct (decide (Some (x2, y2) = bneg (Some (x1, y1)))) as [En|Hn].
  - rewrite En, badd_neg, bneg_neg. done.
  - destruct (add_line x1 y1 x2 y2 E1 E2 Hn) as (l & Hl & _). destruct (line_third _ _ _ _ _ Hl) as [Hl' E].
    rewrite (line_add _ _ _ _ l) by done. unfold sum_of in *. cbn [bneg]. rewrite (line_add _ _ _ _ (l + 1)); [done| |done].
    by apply (line_on _ _ _ _ _ E1 Hl).
Qed.

Lemma badd_cancel_l P Q : on P → on Q → badd (bneg P) (badd P Q) = Q.
Proof.
  intros HP HQ. rewrite (badd_comm P Q), badd_comm, badd_cancel; auto using bneg_on, badd_on.
Qed.

Lemma badd_eq P Q R : on P → on Q → badd P Q = R ↔ P = badd R (bneg Q) ∧ on R.
Proof.
  intros HP HQ. split; [intros <-; by rewrite badd_cancel; auto using badd_on|]. intros [-> HR].
  rewrite <- (bneg_neg Q) at 2. apply badd_cancel; auto using bneg_on.
Qed.

Lemma badd_zero P Q : on P → on Q → badd P Q = None → Q = bneg P.
Proof. intros HP HQ E. rewrite <- (badd_cancel_l P Q) by done. by rewrite E, badd_none. Qed.

Lemma badd_self P Q : on P → on Q → badd P Q = Q → P = None.
Proof. intros HP HQ E. rewrite <- (badd_cancel P Q), E by done. apply badd_neg. Qed.

Lemma line_neg x1 y1 x2 y2 l : line x1 y1 x2 y2 l →
  line x1 (x1 + y1) x2 (x2 + y2) (l + 1) ∧ sum_of x1 (x1 + y1) x2 (l + 1) = bneg (sum_of x1 y1 x2 l).
Proof.
  intros [L2 L1]. unfold line, sum_of, sum_y, sum_x, bneg. rewrite L1, L2. repeat split; [ring..|]. do 2 f_equal; ring.
Qed.

Lemma bneg_add P Q : on P → on Q → bneg (badd P Q) = badd (bneg P) (bneg Q).
Proof.
  destruct P as [[x1 y1]|]; [|done]. destruct Q as [[x2 y2]|]; [|done]. intros E1 E2.
  destruct (decide (Some (x2, y2) = bneg (Some (x1, y1)))) as [En|Hn].
  - by rewrite En, !badd_neg.
  - destruct (add_line x1 y1 x2 y2 E1 E2 Hn) as (l & Hl & _). destruct (line_neg _ _ _ _ _ Hl) as [Hl' E].
    rewrite (line_add _ _ _ _ l), <- E by done. symmetry. apply line_add; [|done]. by apply (bneg_on (Some (x1, y1))).
Qed.

(** *** Associativity

    For the four sums [P + Q = S], [Q + R = U], [S + R] and [P + U] with the slopes [l], [m], [l'] and [m'], the
    two results agree because [l + l' = m + m'].  The coordinates enter through their differences to [x2]. *)
Section Slopes.
Context (x1 y1 x2 y2 x3 y3 xs ys xu yu l m l' m' : K).
Context (Hl : line x1 y1 x2 y2 l) (Hm : line x2 y2 x3 y3 m).
Context (Hxs : xs = sum_x l x1 x2) (Hys : ys = sum_y l x1 y1 xs) (Hxu : xu = sum_x m x2 x3) (Hyu : yu = sum_y m x2 y2 xu).
Context (Hl' : line xs ys x3 y3 l') (Hm' : line x1 y1 xu yu m').
#[local] Abbreviation d := (l + m).

Lemma slopes_relation : x2 * d = (xs + xu) * (x1 + xu) + (xu + x2) * (d * d + d).
Proof.
  destruct Hl as [L2 _], Hm as [M2 M1]. unfold sum_x in *. assert (a = xs + l * l + l + x1 + x2) as Ea by (rewrite Hxs; ring).
  assert (x3 = xu + x2 + m * m + m + a) as E3 by (rewrite Hxu; ring).
  assert (y2 = (xs + x2) * (x1 + x2) + x2 * l + x2 * x2) as E1 by (rewrite L2, Hxs; ring).
  assert (y2 = (xu + x2) * (x2 + x3) + x2 * m + x2 * x2) as E2 by (rewrite M1, M2, Hxu; ring).
  rewrite E1 in E2. apply add_zero_eq. apply add_zero_eq in E2. rewrite <- E2, E3, Ea. ring.
Qed.

Lemma slopes_width : xs + x3 = x1 + xu + (d * d + d).
Proof. rewrite Hxs, Hxu. unfold sum_x. ring. Qed.

(** The first slope of a chord, and of a tangent. *)
Lemma slopes_right : (m' + l) * (x1 + xu) = (d + 1) * (xu + x2) + x2.
Proof.
  destruct Hm' as [_ E], Hl as [_ L1]. assert (m' * (x1 + xu) = y1 + yu) as E' by (rewrite E; ring).
  trans (m' * (x1 + xu) + l * (x1 + xu)); [ring|]. rewrite E', Hyu, L1. unfold sum_y. ring.
Qed.

Lemma slopes_left : (l' + l) * (xs + x3) = d * (x2 + x3) + xs.
Proof.
  destruct Hl' as [_ E], Hl as [_ L1], Hm as [_ M1]. assert (l' * (xs + x3) = ys + y3) as E' by (rewrite E; ring).
  trans (l' * (xs + x3) + l * (xs + x3)); [ring|]. rewrite E', Hys, L1, M1. unfold sum_y. ring.
Qed.

Lemma slopes_left_tangent : xs = x3 → ys = y3 → (l' + l) * xs = (xs + x2) * (x1 + d + xs).
Proof.
  intros <- <-. destruct Hl' as [E _], Hl as [L2 L1], Hm as [_ M1].
  assert (l' * xs = ys + xs * xs) as E' by (rewrite E at 1; ring). trans (l' * xs + l * xs); [ring|].
  rewrite E'. assert (ys = y2 + m * (x2 + xs)) as -> by (rewrite M1; ring). rewrite L2.
  assert (l * l + l + x1 + a = xs + x2) as -> by (rewrite Hxs; unfold sum_x; ring). ring.
Qed.

Lemma slopes_right_tangent : x1 = xu → (m' + l) * x1 = (xs + x2) * (x1 + x2) + x2 * (l + x2) + l * x2 + x1 * x1.
Proof.
  intros Ex. destruct Hm' as [E E1], Hl as [L2 L1]. rewrite <- Ex in E, E1.
  assert (m' * x1 = y1 + x1 * x1) as E' by (rewrite E1, E; ring). trans (m' * x1 + l * x1); [ring|].
  rewrite E', L1, L2. assert (l * l + l + x1 + a = xs + x2) as -> by (rewrite Hxs; unfold sum_x; ring). ring.
Qed.

(** What the two slopes satisfy gives the equality of the sums. *)
Lemma slopes_conclude : l' + l = m' + l + d → d * (m' + l) = xs + xu → sum_of xs ys x3 l' = sum_of x1 y1 xu m'.
Proof.
  intros E1 E2. assert (l' = m' + d) as -> by (trans (l' + l + l); [ring|rewrite E1; ring]). pose proof slopes_right as E3.
  unfold sum_of. assert (sum_x (m' + d) xs x3 = sum_x m' x1 xu) as ->.
  { unfold sum_x. trans (m' * m' + m' + d * d + d + (xs + x3) + a); [ring|]. rewrite slopes_width. ring. }
  do 2 f_equal. set (t := sum_x m' x1 xu). rewrite Hys. unfold sum_y. apply add_zero_eq.
  assert (t = xs + x2 + (m' + l) * (m' + l) + (m' + l) + xu) as Et by (unfold t; rewrite Hxs; unfold sum_x; ring).
  trans ((m' + l) * (xs + x1) + d * (t + xs) + xs); [ring|]. rewrite Et.
  trans ((m' + l) * (xs + x1) + d * (m' + l) * (m' + l) + d * (m' + l) + d * (xu + x2) + xs); [ring|]. rewrite E2.
  trans ((m' + l) * (x1 + xu) + (xs + xu) + d * (xu + x2) + xs); [ring|]. rewrite E3. ring.
Qed.

Lemma char2_cancel x y z : z ≠ 0 → x * z = y * z → x = y.
Proof.
  intros Hz E. assert ((x + y) * z = 0) as E' by (trans (x * z + y * z); [ring|rewrite E; ring]).
  apply char2_mul_zero in E' as [E'|E']; [by apply add_zero_eq|done].
Qed.

Lemma slopes_chord : x1 + xu ≠ 0 → d * (m' + l) = xs + xu.
Proof.
  intros HD. apply (char2_cancel _ _ (x1 + xu)); [done|]. trans (d * ((m' + l) * (x1 + xu))); [ring|]. rewrite slopes_right.
  trans (d * (d + 1) * (xu + x2) + x2 * d); [ring|]. rewrite slopes_relation. ring.
Qed.

Lemma slopes_equal : x1 + xu ≠ 0 → (xs = x3 → ys = y3 ∧ xs ≠ 0) → l' + l = m' + l + d.
Proof.
  intros HD Ht. pose proof (slopes_chord HD) as E2. pose proof slopes_right as E3. pose proof slopes_width as Ew.
  destruct (decide (xs = x3)) as [Ex|Hx%sum_nonzero].
  - destruct (Ht Ex) as [Ey Hxs0]. assert (x1 + xu = d * d + d) as Ed.
    { rewrite <- Ex in Ew. apply add_zero_eq. rewrite <- Ew. ring. }
    assert (x2 = (xs + x2) * (d + 1)) as E4.
    { rewrite Ed in E3. assert ((d + 1) * (d * (m' + l)) = (d + 1) * (xu + x2) + x2) as E5 by (rewrite <- E3; ring).
      rewrite E2 in E5. apply add_zero_eq. apply add_zero_eq in E5. rewrite <- E5. ring. }
    assert (xs = (xs + x2) * d) as E6 by (trans (xs + x2 + x2); [ring|]; rewrite E4 at 2; ring).
    apply (char2_cancel _ _ xs); [done|]. rewrite (slopes_left_tangent Ex Ey).
    trans ((m' + l + d) * ((xs + x2) * d)); [|by rewrite <- E6]. trans ((xs + x2) * (d * (m' + l) + d * d)); [|ring]. rewrite E2.
    assert (x1 = xu + d * d + d) as Ex1 by (trans (x1 + xu + xu); [ring|]; rewrite Ed; ring). rewrite Ex1. ring.
  - apply (char2_cancel _ _ (xs + x3)); [done|]. rewrite slopes_left.
    trans ((m' + l) * (xs + x3) + d * (xs + x3)); [|ring]. rewrite Ew at 1.
    trans ((m' + l) * (x1 + xu) + (d + 1) * (d * (m' + l)) + d * (xs + x3)); [|ring]. rewrite E3, E2. ring.
Qed.
End Slopes.

(** Addition is associative whenever no two opposite points are added. *)
Lemma assoc_lines x1 y1 x2 y2 x3 y3 l m :
  let P := Some (x1, y1) in let Q := Some (x2, y2) in let R := Some (x3, y3) in
  on P → on Q → on R → line x1 y1 x2 y2 l → line x2 y2 x3 y3 m →
  R ≠ bneg (sum_of x1 y1 x2 l) → sum_of x2 y2 x3 m ≠ bneg P → x1 ≠ sum_x m x2 x3 →
  badd (badd P Q) R = badd P (badd Q R).
Proof.
  intros P Q R HP HQ HR Hl Hm HnR HnP Hx. subst P Q R. pose proof (line_on _ _ _ _ _ HP Hl) as HS. pose proof (line_on _ _ _ _ _ HQ Hm) as HU.
  rewrite (line_add _ _ _ _ l), (line_add _ _ _ _ m) by done.
  destruct (add_line _ _ x3 y3 HS HR HnR) as (l' & Hl' & _ & Ht). destruct (add_line _ _ _ _ HP HU HnP) as (m' & Hm' & _).
  unfold sum_of at 1 2. rewrite (line_add _ _ _ _ l'), (line_add _ _ _ _ m') by done.
  apply sum_nonzero in Hx. apply (slopes_conclude _ _ _ _ _ _ _ _ _ _ l m _ _ Hl eq_refl eq_refl eq_refl eq_refl Hl' Hm').
  - apply (slopes_equal _ _ _ _ _ _ _ _ _ _ _ _ _ _ Hl Hm eq_refl eq_refl eq_refl eq_refl Hl' Hm' Hx). intros Ex. by destruct (Ht Ex) as (? & ? & _).
  - exact (slopes_chord _ _ _ _ _ _ _ _ _ _ _ _ Hl Hm eq_refl eq_refl eq_refl Hm' Hx).
Qed.

(** Both second sums are doublings: [R = P + Q] and [P = Q + R], so that [Q] has order two. *)
Lemma tangents_order_two x1 y1 x2 y2 x3 y3 l m :
  equation x1 y1 → equation x2 y2 → equation x3 y3 → line x1 y1 x2 y2 l → line x2 y2 x3 y3 m →
  Some (x3, y3) = sum_of x1 y1 x2 l → Some (x1, y1) = sum_of x2 y2 x3 m → x2 = 0 ∧ l + m = 1.
Proof.
  intros HP HQ HR Hl Hm ER EP. assert (badd (Some (x1, y1)) (Some (x2, y2)) = Some (x3, y3)) as EA by (rewrite ER; by apply line_add).
  injection ER as Ex3 Ey3. injection EP as Ex1 Ey1.
  pose proof (slopes_relation _ _ _ _ _ _ _ _ _ _ Hl Hm Ex3 Ex1) as E. rewrite <- !Ex1 in *. rewrite <- !Ex3 in *.
  assert ((l + m) * (l + m) + (l + m) = 0) as Ed.
  { pose proof (slopes_width x1 x2 x3 x3 x1 l m Ex3 Ex1) as Ew. apply add_zero_eq in Ew. rewrite <- Ew. ring. }
  assert (x2 * (l + m) = 0) as E' by (rewrite E, Ed; ring). assert ((l + m) * (l + m + 1) = 0) as [E0|E1]%char2_mul_zero by (rewrite <- Ed; ring).
  - exfalso. apply add_zero_eq in E0 as <-. destruct Hl as [_ L1], Hm as [_ M1]. unfold sum_y in *.
    assert (x3 = 0) as X3 by (trans (y3 + (l * (x1 + x3) + x3 + y1) + x3); [rewrite <- Ey3; ring|]; rewrite L1, M1; ring).
    assert (x1 = 0) as X1 by (trans (y1 + (l * (x2 + x1) + x1 + y2) + x1); [rewrite <- Ey1; ring|]; rewrite L1; ring).
    clear Ex1 Ex3 Ey1 Ey3. subst x1 x3. assert (y3 = y1) as ->. { destruct (same_x 0 y1 y3 HP HR) as [->| ->]; [done|ring]. }
    rewrite badd_comm in EA by done. by apply badd_self in EA.
  - apply (proj1 (add_zero_eq (l + m) 1)) in E1. rewrite E1 in E'. split; [rewrite <- E'; ring|done].
Qed.

Lemma assoc_tangents x1 y1 x2 y2 x3 y3 l m :
  let P := Some (x1, y1) in let Q := Some (x2, y2) in let R := Some (x3, y3) in
  on P → on Q → on R → line x1 y1 x2 y2 l → line x2 y2 x3 y3 m → R = sum_of x1 y1 x2 l → P = sum_of x2 y2 x3 m →
  badd (badd P Q) R = badd P (badd Q R).
Proof.
  intros P Q R HP HQ HR Hl Hm ER EP. subst P Q R. destruct (tangents_order_two _ _ _ _ _ _ _ _ HP HQ HR Hl Hm ER EP) as [-> Ed].
  rewrite (line_add _ _ _ _ l), (line_add _ _ _ _ m), <- ER, <- EP by done.
  assert (x1 ≠ 0) as X1.
  { intros ->. assert (y1 = y2) as -> by (destruct (same_x 0 y1 y2 HP HQ) as [->| ->]; [done|ring]).
    assert (badd (Some (0, y2)) (Some (0, y2)) = Some (x3, y3)) as E by (rewrite ER; by apply line_add).
    simpl in E. by rewrite !decide_True in E. }
  assert (x3 ≠ 0) as X3.
  { intros ->. assert (y3 = y2) as -> by (destruct (same_x 0 y3 y2 HR HQ) as [->| ->]; [done|ring]).
    assert (badd (Some (0, y2)) (Some (0, y2)) = Some (x1, y1)) as E by (rewrite EP; by apply line_add).
    simpl in E. by rewrite !decide_True in E. }
  pose proof (tangent_line x1 y1 X1) as Tm. pose proof (tangent_line x3 y3 X3) as Tl.
  rewrite (line_add _ _ _ _ _ HR Tl), (line_add _ _ _ _ _ HP Tm). set (l' := x3 + y3 / x3) in *. set (m' := x1 + y1 / x1) in *.
  injection ER as Ex3 Ey3. injection EP as Ex1 Ey1. rewrite <- Ex3 in Ey3. rewrite <- Ex1 in Ey1.
  assert (l' + l = x1 + 1 + x3) as E1.
  { apply (char2_cancel _ _ x3 X3). rewrite (slopes_left_tangent _ _ _ _ _ _ _ _ _ _ _ _ Hl Hm Ex3 Ey3 Ex1 Tl eq_refl eq_refl), Ed. ring. }
  assert (m' + l = x1 + x3) as E2.
  { apply (char2_cancel _ _ x1 X1). rewrite (slopes_right_tangent _ _ _ _ _ _ _ _ _ Hl Ex3 Tm eq_refl). ring. }
  apply (slopes_conclude _ _ _ _ _ _ _ _ _ _ _ _ _ _ Hl Ex3 Ey3 Ex1 Ey1 Tl Tm); rewrite ?Ed, ?E1, ?E2; ring.
Qed.

Lemma badd_assoc P Q R : on P → on Q → on R → badd (badd P Q) R = badd P (badd Q R).
Proof.
  destruct P as [[x1 y1]|]; [|done]. destruct Q as [[x2 y2]|]; [|done]. destruct R as [[x3 y3]|]; [|by intros; rewrite !badd_none].
  set (P := Some (x1, y1)). set (Q := Some (x2, y2)). set (R := Some (x3, y3)). intros HP HQ HR.
  destruct (decide (Q = bneg P)) as [EQ|HnQ].
  { rewrite EQ, badd_neg. pose proof (badd_cancel_l (bneg P) R (bneg_on _ HP) HR) as E. by rewrite bneg_neg in E. }
  destruct (decide (R = bneg Q)) as [ER|HnR].
  { rewrite ER, badd_neg, badd_none. by apply badd_cancel. }
  assert (∀ A B C, on A → on B → on C → C = bneg (badd A B) → badd (badd A B) C = badd A (badd B C)) as Hdegenerate.
  { intros A B C HA HB HC ->. rewrite badd_neg, (badd_comm A B) by done. rewrite bneg_add by done.
    pose proof (badd_cancel_l (bneg B) (bneg A) (bneg_on _ HB) (bneg_on _ HA)) as E. rewrite bneg_neg in E. by rewrite E, badd_neg. }
  destruct (decide (R = bneg (badd P Q))) as [ES|HnS]; [by apply Hdegenerate|].
  destruct (decide (badd Q R = bneg P)) as [EU|HnU].
  { symmetry. rewrite (badd_comm P), (badd_comm Q R), (badd_comm _ R), (badd_comm P Q) by auto using badd_on. apply Hdegenerate; try done.
    rewrite (badd_comm R Q), EU by done. by rewrite bneg_neg. }
  destruct (add_line _ _ _ _ HP HQ HnQ) as (l & Hl & _). destruct (add_line _ _ _ _ HQ HR HnR) as (m & Hm & _).
  pose proof (line_add _ _ _ _ _ HP Hl) as ES. pose proof (line_add _ _ _ _ _ HQ Hm) as EU. fold P Q in ES. fold Q R in EU.
  destruct (line_comm _ _ _ _ _ Hl) as [Hl' El]. destruct (line_comm _ _ _ _ _ Hm) as [Hm' Em].
  destruct (decide (x1 = sum_x m x2 x3)) as [Ex1|Hx1].
  - destruct (decide (x3 = sum_x l x1 x2)) as [Ex3|Hx3].
    + apply (assoc_tangents _ _ _ _ _ _ l m); try done.
      * destruct (same_x x3 y3 (sum_y l x1 y1 x3) HR) as [E|E]; [rewrite Ex3; by apply (line_on _ _ _ _ _ HP Hl)|unfold sum_of; congruence|].
        exfalso. apply HnS. rewrite ES. unfold sum_of. rewrite <- Ex3, E. unfold R, bneg. do 2 f_equal. ring.
      * destruct (same_x x1 y1 (sum_y m x2 y2 x1) HP) as [E|E]; [rewrite Ex1; by apply (line_on _ _ _ _ _ HQ Hm)|unfold sum_of; congruence|].
        exfalso. apply HnU. rewrite EU. unfold sum_of. rewrite <- Ex1, E. done.
    + symmetry. rewrite (badd_comm P), (badd_comm Q R), (badd_comm _ R), (badd_comm P Q) by auto using badd_on.
      apply (assoc_lines _ _ _ _ _ _ m l); try done.
      * rewrite Em, <- EU. intros E. apply HnU. fold P in E. by rewrite E, bneg_neg.
      * rewrite El, <- ES. fold R. intros E. apply HnS. by rewrite E, bneg_neg.
      * intros E. apply Hx3. rewrite E. unfold sum_x. ring.
  - apply (assoc_lines _ _ _ _ _ _ l m); try done; [by rewrite <- ES|by rewrite <- EU].
Qed.

(** ** Multiples *)

Fixpoint bmul (k : nat) P : bpoint := match k with O => None | S k => badd P (bmul k P) end.

Lemma bmul_on k P : on P → on (bmul k P).
Proof. intros HP. induction k as [|k IH]; [done|]. simpl. by apply badd_on. Qed.

Lemma bmul_1 P : bmul 1 P = P.
Proof. apply badd_none. Qed.

Lemma bmul_add j k P : on P → bmul (j + k) P = badd (bmul j P) (bmul k P).
Proof.
  intros HP. induction j as [|j IH]; [done|]. simpl. rewrite IH, badd_assoc; auto using bmul_on.
Qed.

Lemma bmul_succ k P : on P → bmul (S k) P = badd (bmul k P) P.
Proof. intros HP. simpl. apply badd_comm; auto using bmul_on. Qed.

Lemma bmul_none k : bmul k None = None.
Proof. induction k as [|k IH]; [done|]. simpl. by rewrite IH. Qed.

Lemma bmul_mul j k P : on P → bmul (j * k) P = bmul j (bmul k P).
Proof. intros HP. induction j as [|j IH]; [done|]. simpl. by rewrite bmul_add, IH. Qed.

Lemma badd_swap P Q R S : on P → on Q → on R → on S → badd (badd P Q) (badd R S) = badd (badd P R) (badd Q S).
Proof.
  intros HP HQ HR HS. rewrite !badd_assoc by auto using badd_on. f_equal. rewrite <- !badd_assoc by auto using badd_on. f_equal. by apply badd_comm.
Qed.

Lemma bmul_badd k P Q : on P → on Q → bmul k (badd P Q) = badd (bmul k P) (bmul k Q).
Proof.
  intros HP HQ. induction k as [|k IH]; [done|]. simpl. rewrite IH. apply badd_swap; auto using bmul_on.
Qed.

Lemma bmul_neg k P : on P → bmul k (bneg P) = bneg (bmul k P).
Proof. intros HP. induction k as [|k IH]; [done|]. simpl. rewrite IH, bneg_add; auto using bmul_on. Qed.

Lemma bmul_order n k P : on P → bmul n P = None → (0 < n)%nat → bmul k P = bmul (k mod n) P.
Proof.
  intros HP Hn Hpos. rewrite (Nat.div_mod_eq k n) at 1. by rewrite bmul_add, Nat.mul_comm, bmul_mul, Hn, bmul_none.
Qed.

(** The multiples of a point of prime order that vanish. *)
Lemma bmul_divides (n k : nat) P : on P → Z.prime n → P ≠ None → bmul n P = None → bmul k P = None → (n | k)%Z.
Proof.
  intros HP Hn HnP En Ek. destruct (prime_bezout n k Hn) as [|(u & v & Huv)]; [done|]. exfalso. apply HnP.
  trans (bmul (u * k) P); [|by rewrite bmul_mul, Ek, bmul_none].
  by rewrite Huv, bmul_add, bmul_mul, En, bmul_none, bmul_1, badd_none.
Qed.

(** ** Formulas on the first coordinate

    [(X, Z)] stands for a point with first coordinate [X / Z], or for infinity when [Z = 0]. *)

Definition xrep (X Z : K) P : Prop := match P with None => Z = 0 ∧ X ≠ 0 | Some (x, _) => Z ≠ 0 ∧ X = x * Z end.

Lemma char2_mul_nonzero x y : x ≠ 0 → y ≠ 0 → x * y ≠ 0.
Proof. intros Hx Hy E. by apply char2_mul_zero in E as [|]. Qed.

Lemma char2_square_zero x : x * x = 0 → x = 0.
Proof. intros E. by apply char2_mul_zero in E as [|]. Qed.

Lemma bdouble_badd P : badd P P = bdouble P.
Proof. destruct P as [[x y]|]; [|done]. unfold badd. by do 2 rewrite decide_True by done. Qed.

Lemma xdouble X Z P : on P → xrep X Z P → xrep (X * X * (X * X) + b * (Z * Z * (Z * Z))) (X * X * (Z * Z)) (badd P P).
Proof.
  rewrite bdouble_badd. destruct P as [[x y]|]; simpl.
  - intros E [HZ ->]. case_decide as Hx.
    + rewrite Hx. split; [ring|]. intros E'. assert (b * (Z * Z * (Z * Z)) = 0) as F by (rewrite <- E'; ring).
      apply char2_mul_zero in F as [F|F]; [done|]. by apply HZ, char2_square_zero, char2_square_zero.
    + split; [repeat apply char2_mul_nonzero; done|]. apply equation_square in E. field_simplify_eq; [|done]. ring [E].
  - intros _ [-> HX]. split; [ring|]. intros E. apply HX, char2_square_zero, char2_square_zero. rewrite <- E. ring.
Qed.

(** The sum of two points that differ by [P]. *)
Lemma xadd x y Q X1 Z1 X2 Z2 : let P := Some (x, y) in on P → on Q → let R := badd Q P in xrep X1 Z1 Q → xrep X2 Z2 R →
  let Z := (X1 * Z2 + X2 * Z1) * (X1 * Z2 + X2 * Z1) in xrep (x * Z + X1 * X2 * Z1 * Z2) Z (badd Q R).
Proof.
  intros P HP HQ R H1 H2 Z. subst P. assert (on R) as HR by (by apply badd_on). assert (R = badd Q (Some (x, y))) as ER by done. clearbody R.
  destruct Q as [[xq yq]|]; simpl in H1; [|destruct H1 as [-> H1]; rewrite ER in H2 |- *; destruct H2 as [H2 E]; unfold Z; split; [|ring]].
  2: { intros F. apply H1. apply (char2_cancel _ _ Z2); [done|]. assert ((X1 * Z2) * (X1 * Z2) = 0) as F' by (rewrite <- F; ring).
       apply char2_square_zero in F'. rewrite F'. ring. }
  destruct H1 as [HZ1 ->]. destruct R as [[xr yr]|]; simpl in H2.
  - destruct H2 as [HZ2 ->]. assert (Some (xr, yr) ≠ Some (xq, yq)) as Hne.
    { intros E. rewrite E in ER. rewrite badd_comm in ER by done. symmetry in ER. by apply badd_self in ER. }
    destruct (decide (xq = xr)) as [<-|Hx].
    + destruct (same_x xq yq yr HQ HR) as [<-| ->]; [done|]. pose proof (badd_neg (Some (xq, yq))) as En. cbn [bneg] in En. rewrite En.
      assert (Z = 0) as -> by (unfold Z; ring). split; [done|]. intros F.
      assert ((xq * Z1 * Z2) * (xq * Z1 * Z2) = 0) as F' by (rewrite <- F; ring). apply char2_square_zero in F'.
      apply char2_mul_zero in F' as [F'|F']; [|done]. apply char2_mul_zero in F' as [->|F']; [|done]. apply Hne. do 2 f_equal. ring.
    + pose proof (sum_nonzero _ _ Hx) as HD. pose proof (chord_line _ _ _ _ HQ HR Hx) as Hl. rewrite (line_add _ _ _ _ _ HQ Hl). unfold sum_of.
      symmetry in ER. rewrite badd_comm in ER by done. apply badd_eq in ER as [EP _]; [|done..].
      assert (xr ≠ xq) as Hx' by (intros E; by apply Hx). pose proof (sum_nonzero _ _ Hx') as HD'.
      pose proof (chord_line xr yr xq (xq + yq) HR (bneg_on _ HQ) Hx') as Hl'. simpl bneg in EP. rewrite (line_add _ _ _ _ _ HR Hl') in EP.
      injection EP as Ex _. unfold xrep, Z. rewrite Ex. unfold sum_x. split.
      * intros F. apply char2_square_zero in F. apply HD, (char2_cancel _ _ (Z1 * Z2)); [by apply char2_mul_nonzero|]. trans (xq * Z1 * Z2 + xr * Z2 * Z1); [ring|].
        rewrite F. ring.
      * field. repeat split; assumption.
  - destruct H2 as [-> HX2]. rewrite badd_none. symmetry in ER. apply badd_zero in ER; [|done..]. injection ER as -> _.
    unfold Z. split; [|ring]. intros F. assert ((X2 * Z1) * (X2 * Z1) = 0) as F' by (rewrite <- F; ring). apply char2_square_zero in F'.
    by apply char2_mul_zero in F' as [|].
Qed.

(** *** The ladder *)

(** One turn: the pair stands for [k P] and [(k + 1) P], and becomes the pair of [2 k + bit]. *)
Definition xladder_step x (s : (K * K) * (K * K)) (bit : bool) : (K * K) * (K * K) :=
  let '((X1, Z1), (X2, Z2)) := if bit then s else (s.2, s.1) in
  let Z := (X1 * Z2 + X2 * Z1) * (X1 * Z2 + X2 * Z1) in
  let r := ((x * Z + X1 * X2 * Z1 * Z2, Z), (X2 * X2 * (X2 * X2) + b * (Z2 * Z2 * (Z2 * Z2)), X2 * X2 * (Z2 * Z2))) in
  if bit then r else (r.2, r.1).

Definition xladder_inv P (k : nat) (s : (K * K) * (K * K)) : Prop :=
  xrep s.1.1 s.1.2 (bmul k P) ∧ xrep s.2.1 s.2.2 (bmul (S k) P).

(** The number of a list of bits, the highest first, after the bits of [k]. *)
Definition bits_nat (k : nat) (bits : list bool) : nat := foldl (λ k bit, (2 * k + Nat.b2n bit)%nat) k bits.

Lemma xladder_step_ok x y k s bit : let P := Some (x, y) in
  on P → xladder_inv P k s → xladder_inv P (2 * k + Nat.b2n bit) (xladder_step x s bit).
Proof.
  intros P HP. destruct s as [[X1 Z1] [X2 Z2]]. intros [H1 H2]. cbn [fst snd] in *. pose proof (bmul_on k P HP) as HQ. pose proof (bmul_on (S k) P HP) as HR.
  pose proof (bmul_succ k P HP) as ER. rewrite ER in H2.
  pose proof (xadd x y (bmul k P) X1 Z1 X2 Z2 HP HQ H1 H2) as Ha. cbv zeta in Ha. fold P in Ha. rewrite <- ER in H2, Ha. rewrite <- bmul_add in Ha by done.
  destruct bit; unfold xladder_step; cbv zeta; cbn [fst snd]; split; cbn [fst snd Nat.b2n].
  - by replace (2 * k + 1)%nat with (k + S k)%nat by lia.
  - replace (S (2 * k + 1)) with (S k + S k)%nat by lia. rewrite bmul_add by done. by apply xdouble.
  - replace (2 * k + 0)%nat with (k + k)%nat by lia. rewrite bmul_add by done. by apply xdouble.
  - replace (S (2 * k + 0)) with (k + S k)%nat by lia.
    assert ((X2 * Z1 + X1 * Z2) * (X2 * Z1 + X1 * Z2) = (X1 * Z2 + X2 * Z1) * (X1 * Z2 + X2 * Z1)) as -> by ring.
    assert (X2 * X1 * Z2 * Z1 = X1 * X2 * Z1 * Z2) as -> by ring. exact Ha.
Qed.

Lemma xladder_init x y : xladder_inv (Some (x, y)) 0 ((1, 0), (x, 1)).
Proof.
  assert ((1 : K) ≠ 0) as H1 by (apply (F_1_neq_0 f_theory)). split; [done|]. cbn [fst snd]. rewrite bmul_1. split; [done|]. ring.
Qed.

Lemma xladder_ok x y k s bits : let P := Some (x, y) in
  on P → xladder_inv P k s → xladder_inv P (bits_nat k bits) (foldl (xladder_step x) s bits).
Proof.
  intros P HP. revert k s. induction bits as [|bit bits IH]; intros k s Hs; [done|]. cbn [foldl]. unfold bits_nat. cbn [foldl].
  by apply IH, xladder_step_ok.
Qed.

(** The second coordinate of [Q] from the first ones of [Q] and [Q + P]. *)
Lemma recover_y x y x1 y1 x2 y2 : x ≠ 0 → equation x y → equation x1 y1 → badd (Some (x1, y1)) (Some (x, y)) = Some (x2, y2) →
  y1 = (1 / x) * (x1 + x) * ((x1 + x) * (x2 + x) + x * x + y) + y.
Proof.
  intros Hx HP HQ E. destruct (decide (x1 = x)) as [->|Hne].
  - destruct (same_x x y1 y HQ HP) as [->| ->]; [by field|]. pose proof (badd_neg (Some (x, y1))) as En. cbn [bneg] in En. congruence.
  - pose proof (sum_nonzero _ _ Hne) as HD. pose proof (chord_line _ _ _ _ HQ HP Hne) as Hl. rewrite (line_add _ _ _ _ _ HQ Hl) in E.
    injection E as <- _. unfold sum_x. apply equation_square in HP, HQ. field_simplify_eq; [|repeat split; assumption]. ring [HP HQ].
Qed.

(** ** Lopez-Dahab coordinates

    [(X, Y, Z)] stands for [(X / Z, Y / Z^2)], or for infinity when [Z = 0]. *)

Definition lrep (X Y Z : K) P : Prop :=
  (Z = 0 ∧ P = None) ∨ (Z ≠ 0 ∧ P = Some (X / Z, Y / (Z * Z))).

Lemma ldouble X Y Z P : on P → Z ≠ 0 → lrep X Y Z P →
  let A := Z * Z in let B := b * (A * A) in let C := X * X in let Z3 := A * C in let X3 := C * C + B in
  lrep X3 ((Y * Y + a * Z3 + B) * X3 + Z3 * B) Z3 (badd P P).
Proof.
  intros HP HZ [[]|[_ ->]] A B C Z3 X3; [done|]. simpl in HP. apply equation_square in HP. rewrite bdouble_badd. simpl.
  assert (b = Y / (Z * Z) * (Y / (Z * Z)) + X / Z * (Y / (Z * Z)) + X / Z * (X / Z) * (X / Z) + a * (X / Z) * (X / Z)) as Eb by (rewrite HP; ring).
  case_decide as Hx.
  - left. split; [|done]. unfold Z3, C. assert (X = 0) as -> by (trans (X / Z * Z); [by field|rewrite Hx; ring]). ring.
  - assert (X ≠ 0) as HX by (intros ->; apply Hx; by field). right. unfold Z3, X3, A, C. split; [by repeat apply char2_mul_nonzero|].
    unfold B, A. rewrite Eb. do 2 f_equal; field; repeat split; assumption.
Qed.

Lemma lmixed_add X Y Z x2 y2 P : on P → Z ≠ 0 → lrep X Y Z P →
  let A := Y + y2 * (Z * Z) in let B := X + x2 * Z in B ≠ 0 →
  let C := B * Z in let Z3 := C * C in let D := x2 * Z3 in let X3 := A * A + C * (A + B * B + a * C) in
  lrep X3 ((D + X3) * (A * C + Z3) + (y2 + x2) * (Z3 * Z3)) Z3 (badd P (Some (x2, y2))).
Proof.
  intros HP HZ [[]|[_ ->]] A B HB C Z3 D X3; [done|]. clear HP. simpl. assert (X / Z + x2 = B / Z) as EB by (unfold B; by field).
  case_decide as Hx.
  - exfalso. apply HB. trans (B / Z * Z); [by field|]. rewrite <- EB, Hx. ring.
  - right. split; [unfold Z3, C; by repeat apply char2_mul_nonzero|]. assert (Y / (Z * Z) + y2 = A / (Z * Z)) as EA by (unfold A; by field).
    rewrite EA, EB. assert (X = B + x2 * Z) as EX by (unfold B; ring). assert (Y = A + y2 * (Z * Z)) as EY by (unfold A; ring).
    unfold X3, D, Z3, C. clearbody A B. rewrite EX, EY. do 2 f_equal; field; repeat split; assumption.
Qed.

Lemma lsame_x X Y Z x2 y2 P : Z ≠ 0 → lrep X Y Z P → X + x2 * Z = 0 → ∃ y, P = Some (x2, y) ∧ (Y + y2 * (Z * Z) = 0 ↔ y = y2).
Proof.
  intros HZ [[]|[_ ->]] E; [done|]. exists (Y / (Z * Z)). split.
  - do 2 f_equal. assert (X = x2 * Z) as -> by (by apply add_zero_eq). by field.
  - rewrite add_zero_eq. split; [intros ->|intros <-]; by field.
Qed.

End Curve.
