(* ===== verification/Gf2Field.v ===== *)
(** The fields GF(2^m) of DSTU 4145: polynomials over GF(2) of degree below [m] modulo a polynomial [f] of degree
    [m], on the integers of [Poly2.v].  That every non-zero element has an inverse is proved from facts that are
    checked by evaluation: [m] is prime, [x^(2^m) = x], and [x^2 + x] is a unit. *)

From Stdlib Require Import Bool Ring_theory Field_theory Ring.
From S2P Require Import Prelude Poly2 Modular BinaryCurve.

(** ** Arithmetic on representatives *)

Section Raw.
Context (m f : Z).

(** [2 r], reduced. *)
Definition gdouble (r : Z) : Z := let r := Z.shiftl r 1 in if Z.testbit r m then r ⊕ f else r.

Fixpoint gmul_pos (a : Z) (p : positive) : Z :=
  match p with
  | xH => a
  | xO p => gdouble (gmul_pos a p)
  | xI p => a ⊕ gdouble (gmul_pos a p)
  end.

(** The product, reduced at every step. *)
Definition gmul (a b : Z) : Z := match b with Zpos p => gmul_pos a p | _ => 0 end.

Fixpoint gpow (a : Z) (p : positive) : Z :=
  match p with
  | xH => a
  | xO p => let r := gpow a p in gmul r r
  | xI p => let r := gpow a p in gmul a (gmul r r)
  end.

(** The inverse, by Fermat's theorem. *)
Definition ginv (a : Z) : Z := gpow a (Z.to_pos (2 ^ m - 2)).

Context (Hm : 1 < m) (Hf : word_ok m (f ⊕ 2 ^ m)).
#[local] Notation "x ≡ y" := (poly_eq f x y) (at level 70).
#[local] Instance raw_equiv : Equivalence (poly_eq f) := poly_eq_equiv m f ltac:(lia) Hf.
#[local] Instance raw_lxor : Proper (poly_eq f ==> poly_eq f ==> poly_eq f) Z.lxor := poly_eq_lxor m f ltac:(lia) Hf.

Lemma gdouble_ok r : word_ok m r → word_ok m (gdouble r) ∧ gdouble r ≡ Z.shiftl r 1.
Proof.
  intros Hr. unfold gdouble. pose proof (word_ok_shl m 1 r ltac:(lia) ltac:(lia) Hr) as Hs. set (s := Z.shiftl r 1) in *.
  destruct (Z.testbit s m) eqn:E; (split; [|]).
  - replace (s ⊕ f) with ((s ⊕ 2 ^ m) ⊕ (f ⊕ 2 ^ m)) by bitwise. apply word_ok_lxor; [lia| |done].
    apply word_ok_bits; [lia|]. split; [apply Z.lxor_nonneg; split; intros; [apply Z.pow_nonneg; lia|apply Hs]|].
    intros i Hi. rewrite Z.lxor_spec, Z.pow2_bits_eqb by lia. destruct (Z.eqb_spec m i) as [<-|]; [by rewrite E|].
    apply word_ok_bits in Hs as [_ Hs]; [|lia]. by rewrite Hs by lia.
  - exists 1. split; [lia|]. rewrite clmul_1_r. bitwise.
  - apply word_ok_bits; [lia|]. split; [apply Hs|]. intros i Hi. destruct (decide (i = m)) as [->|]; [done|].
    apply word_ok_bits in Hs as [_ Hs]; [|lia]. by rewrite Hs by lia.
  - done.
Qed.

Lemma gmul_ok a b : word_ok m a → 0 ≤ b → word_ok m (gmul a b) ∧ gmul a b ≡ clmul a b.
Proof.
  intros Ha. destruct b as [|p|p]; [intros _; split; [apply word_ok_0; lia|done]| |lia]. intros _. simpl.
  induction p as [p [IH E]|p [IH E]|]; simpl; [| |done]; pose proof (gdouble_ok _ IH) as [Hd Ed].
  - split; [apply word_ok_lxor; [lia|done..]|]. rewrite Ed. f_equiv. apply (poly_eq_shl m); try lia; [done|apply IH| |done].
    apply (clmul_nonneg a (Z.pos p)); [apply Ha|lia].
  - split; [done|]. rewrite Ed. apply (poly_eq_shl m); try lia; [done|apply IH| |done]. apply (clmul_nonneg a (Z.pos p)); [apply Ha|lia].
Qed.

(** Equal classes of representatives are equal. *)
Lemma gmul_eq a b c : word_ok m a → 0 ≤ b → word_ok m c → clmul a b ≡ c → gmul a b = c.
Proof.
  intros Ha Hb Hc E. destruct (gmul_ok a b Ha Hb) as [Hok E']. apply (poly_eq_unique m f); try done; [lia|]. by rewrite E'.
Qed.

Lemma gmul_clmul a b c d : word_ok m a → 0 ≤ b → word_ok m c → 0 ≤ d → clmul a b ≡ clmul c d → gmul a b = gmul c d.
Proof.
  intros Ha Hb Hc Hd E. destruct (gmul_ok c d Hc Hd) as [Hok E']. apply gmul_eq; try done. by rewrite E, E'.
Qed.

Lemma gmul_comm a b : word_ok m a → word_ok m b → gmul a b = gmul b a.
Proof. intros Ha Hb. apply gmul_clmul; try apply Ha || apply Hb; [done..|]. by rewrite clmul_comm by (apply Ha || apply Hb). Qed.

Lemma gmul_assoc a b c : word_ok m a → word_ok m b → word_ok m c → gmul a (gmul b c) = gmul (gmul a b) c.
Proof.
  intros Ha Hb Hc. destruct (gmul_ok a b Ha ltac:(apply Hb)) as [Hab Eab]. destruct (gmul_ok b c Hb ltac:(apply Hc)) as [Hbc Ebc].
  assert (∀ x, word_ok m x → 0 ≤ x) as Hpos by (intros x Hx; apply Hx).
  apply gmul_clmul; auto. etrans; [apply (poly_eq_clmul_r m f); [lia|done|auto..|exact Ebc]|]; auto with uacrypt.
  etrans; [|symmetry; apply (poly_eq_clmul_l m f); [lia|done|auto..|exact Eab]]; auto with uacrypt. by rewrite clmul_assoc by auto.
Qed.

Lemma gmul_add_l a b c : word_ok m a → word_ok m b → word_ok m c → gmul (a ⊕ b) c = gmul a c ⊕ gmul b c.
Proof.
  intros Ha Hb Hc. destruct (gmul_ok a c Ha ltac:(apply Hc)) as [H1 E1]. destruct (gmul_ok b c Hb ltac:(apply Hc)) as [H2 E2].
  apply gmul_eq; try apply Hc; [apply word_ok_lxor; [lia|done..]..|]. rewrite clmul_lxor_l by apply Hc. by rewrite E1, E2.
Qed.

Lemma gmul_1_l a : word_ok m a → gmul 1 a = a.
Proof.
  intros Ha. apply gmul_eq; try apply Ha; [|by rewrite clmul_1_l by apply Ha]. unfold word_ok. pose proof (Z.pow_lt_mono_r 2 0 m). lia.
Qed.
End Raw.

(** ** The ring of classes *)

Class Gf2Params (m f : Z) : Prop := { gp_m : 1 < m; gp_f : word_ok m (f ⊕ 2 ^ m) }.

Definition gf2m (m f : Z) : Type := dsig (word_ok m).

Section Ring.
Context (m f : Z) `{!Gf2Params m f}.
#[local] Abbreviation K := (gf2m m f).

Lemma gf2m_ok (a : K) : word_ok m (`a).
Proof. apply (proj2_dsig a). Qed.

Lemma gf2m_eq (a b : K) : a = b ↔ `a = `b.
Proof. apply dsig_eq. Qed.

Lemma word_ok_one : word_ok m 1.
Proof. unfold word_ok. pose proof gp_m. pose proof (Z.pow_lt_mono_r 2 0 m). lia. Qed.

Lemma word_ok_x : word_ok m 2.
Proof. unfold word_ok. pose proof gp_m. pose proof (Z.pow_lt_mono_r 2 1 m). lia. Qed.

Lemma word_ok_zero : word_ok m 0.
Proof. apply word_ok_0. pose proof gp_m. lia. Qed.

Lemma word_ok_sum a b : word_ok m a → word_ok m b → word_ok m (a ⊕ b).
Proof. pose proof gp_m. apply word_ok_lxor. lia. Qed.

Lemma word_ok_gmul a b : word_ok m a → word_ok m b → word_ok m (gmul m f a b).
Proof. intros Ha Hb. apply gmul_ok; [apply gp_m|apply gp_f|done|apply Hb]. Qed.

Lemma word_ok_gpow a p : word_ok m a → word_ok m (gpow m f a p).
Proof. intros Ha. induction p as [p IH|p IH|]; cbn [gpow]; auto using word_ok_gmul. Qed.

#[global] Instance gf2m_ops : FieldOps K := {
  fzero := dexist 0 word_ok_zero;
  fone := dexist 1 word_ok_one;
  fadd a b := dexist (`a ⊕ `b) (word_ok_sum _ _ (gf2m_ok a) (gf2m_ok b));
  fmul a b := dexist (gmul m f (`a) (`b)) (word_ok_gmul _ _ (gf2m_ok a) (gf2m_ok b));
  finv a := dexist (ginv m f (`a)) (word_ok_gpow _ _ (gf2m_ok a));
}.

#[local] Open Scope binary_field_scope.
Implicit Types a b : K.

Lemma gf2m_ring : ring_theory (0 : K) 1 fadd fmul fadd (λ x, x) eq.
Proof.
  pose proof (gp_m (m := m) (f := f)) as Hm. pose proof (gp_f (m := m) (f := f)) as Hf.
  split; intros; apply gf2m_eq; cbn [fadd fmul fzero fone gf2m_ops proj1_sig dexist];
    repeat match goal with a : K |- _ => pose proof (gf2m_ok a); generalize dependent (`a); clear a; intros end.
  - apply Z.lxor_0_l.
  - apply Z.lxor_comm.
  - by rewrite Z.lxor_assoc.
  - by apply gmul_1_l.
  - by apply gmul_comm.
  - by apply gmul_assoc.
  - by apply gmul_add_l.
  - done.
  - apply Z.lxor_nilpotent.
Qed.

Lemma gf2m_char2 : (1 + 1 : K) = 0.
Proof. apply gf2m_eq. apply Z.lxor_nilpotent. Qed.

Definition gf2m_morph := gf2_ring_morph gf2m_ring gf2m_char2.
Add Ring gf2m_ring : gf2m_ring (morphism gf2m_morph).

(** *** Powers of Frobenius *)

Definition frob (i : nat) (a : K) : K := Nat.iter i (λ a, a * a) a.

Lemma frob_S i a : frob (S i) a = frob i a * frob i a.
Proof. done. Qed.

Lemma frob_add i a b : frob i (a + b) = frob i a + frob i b.
Proof. induction i as [|i IH]; [done|]. rewrite !frob_S, IH. ring. Qed.

Lemma frob_mul i a b : frob i (a * b) = frob i a * frob i b.
Proof. induction i as [|i IH]; [done|]. rewrite !frob_S, IH. ring. Qed.

Lemma frob_gf2 i e : frob i (gf2 e) = gf2 e.
Proof. induction i as [|i IH]; [done|]. rewrite frob_S, IH. destruct e; unfold gf2; ring. Qed.

Lemma frob_frob i j a : frob i (frob j a) = frob (i + j) a.
Proof. unfold frob. by rewrite Nat.iter_add. Qed.

Lemma frob_mul_iter n j a : frob n a = a → frob (j * n) a = a.
Proof. intros E. induction j as [|j IH]; [done|]. simpl. by rewrite <- frob_frob, IH. Qed.

(** A difference divides its images. *)
Lemma frob_divides i a : ∃ c, frob i a = a * c.
Proof.
  induction i as [|i [c IH]]; [exists 1; change (frob 0 a) with a; ring|]. exists (c * frob i a). rewrite frob_S. trans (a * c * frob i a); [by rewrite <- IH|ring].
Qed.

(** *** Polynomials over the ring: too many roots with invertible differences *)

Definition peval (c : list K) (z : K) : K := foldr (λ c acc, c + z * acc) 0 c.

(** The quotient by [z - r]. *)
Fixpoint pquot (r : K) (c : list K) : list K :=
  match c with
  | [] => []
  | _ :: p => match p with [] => [] | _ => peval p r :: pquot r p end
  end.

Lemma length_pquot r c0 c : length (pquot r (c0 :: c)) = length c.
Proof. revert c0. induction c as [|c1 c IH]; intros c0; [done|]. cbn [pquot length]. f_equal. apply (IH c1). Qed.

Lemma peval_nil z : peval [] z = 0.
Proof. done. Qed.

Lemma peval_cons c0 p z : peval (c0 :: p) z = c0 + z * peval p z.
Proof. done. Qed.

Lemma pquot_cons r c0 c1 p : pquot r (c0 :: c1 :: p) = peval (c1 :: p) r :: pquot r (c1 :: p).
Proof. done. Qed.

Lemma peval_pquot r z p : peval p z = peval p r + (z + r) * peval (pquot r p) z.
Proof.
  induction p as [|c0 [|c1 p] IH].
  - change (pquot r []) with (@nil K). rewrite !peval_nil. ring.
  - change (pquot r [c0]) with (@nil K). rewrite !peval_cons, !peval_nil. ring.
  - rewrite pquot_cons, !(peval_cons c0), (peval_cons (peval _ r)), IH. ring.
Qed.

Lemma pquot_zero r p : peval p r = 0 → Forall (λ a, a = 0) (pquot r p) → Forall (λ a, a = 0) p.
Proof.
  induction p as [|c0 [|c1 p] IH]; [done|..].
  - rewrite peval_cons, peval_nil. intros E _. constructor; [|done]. rewrite <- E. ring.
  - rewrite pquot_cons, peval_cons. intros E [Hr Hq]%Forall_cons. constructor; [|by apply IH]. rewrite Hr in E. rewrite <- E. ring.
Qed.

Definition unit (a : K) : Prop := ∃ b, a * b = 1.

Lemma unit_cancel a b : unit a → a * b = 0 → b = 0.
Proof. intros [c Ec] E. trans (a * c * b); [rewrite Ec; ring|]. trans (c * (a * b)); [ring|]. rewrite E. ring. Qed.

Lemma unit_factor a b : unit (a * b) → unit a.
Proof. intros [c E]. exists (b * c). rewrite <- E. ring. Qed.

Fixpoint separated (rs : list K) : Prop :=
  match rs with [] => True | r :: rs => Forall (λ s, unit (s + r)) rs ∧ separated rs end.

Lemma too_many_roots rs c : (length c ≤ length rs)%nat → separated rs → Forall (λ r, peval c r = 0) rs → Forall (λ a, a = 0) c.
Proof.
  revert c. induction rs as [|r rs IH]; intros c Hl Hs Hr; [destruct c; [done|simpl in Hl; lia]|]. destruct c as [|c0 c]; [done|]. simpl in Hl.
  apply Forall_cons in Hr as [Hr Hrs]. destruct Hs as [Hu Hs]. apply (pquot_zero r); [done|]. apply IH; [rewrite length_pquot; lia|done|].
  rewrite Forall_forall in *. intros s Hs'. specialize (Hrs s Hs'). rewrite (peval_pquot r), Hr in Hrs.
  apply (unit_cancel (s + r)); [by apply Hu|]. rewrite <- Hrs. ring.
Qed.

(** *** Every non-zero element is a unit *)

Definition gx : K := dexist 2 word_ok_x.

(** The coefficients of an element. *)
Definition coefficients (n : nat) (z : Z) : list K := map (λ i : nat, gf2 (Z.testbit z i)) (seq 0 n).

Lemma gclass (z : Z) : word_ok m z → ∃ a : K, `a = z.
Proof. intros Hz. by exists (dexist z Hz). Qed.

Lemma gx_shift (z : Z) (a b : K) : `a = z → `b = Z.shiftl z 1 → b = gx * a.
Proof.
  intros <- Hb. apply gf2m_eq. rewrite Hb. symmetry. change (`(gx * a)) with (gmul m f 2 (`a)).
  pose proof (gf2m_ok a) as Ha. pose proof (gf2m_ok b) as Hbo. rewrite Hb in Hbo.
  apply gmul_eq; [apply gp_m|apply gp_f|apply word_ok_x|apply Ha|done|].
  change (`gx) with (Z.shiftl 1 1). rewrite clmul_shl1_l, clmul_1_l by apply Ha.
  apply (poly_eq_equiv m f); [pose proof (gp_m (m := m) (f := f)); lia|apply gp_f].
Qed.

Lemma gf2_value e : proj1_sig (gf2 e : K) = Z.b2z e.
Proof. by destruct e. Qed.

Lemma halves_ok z : word_ok m z → word_ok m (Z.shiftr z 1) ∧ word_ok m (Z.shiftl (Z.shiftr z 1) 1).
Proof.
  unfold word_ok. rewrite Z.shiftr_div_pow2, Z.shiftl_mul_pow2, Z.pow_1_r by lia. intros [Hz Hz'].
  pose proof (Z.div_mod z 2 ltac:(lia)). pose proof (Z.mod_pos_bound z 2 ltac:(lia)). lia.
Qed.

Lemma coefficients_eval (n : nat) (z : Z) (a : K) : `a = z → word_ok n z → peval (coefficients n z) gx = a.
Proof.
  revert z a. induction n as [|n IH]; intros z a Ea Hz.
  - apply gf2m_eq. rewrite Ea. unfold word_ok in Hz. simpl in *. lia.
  - pose proof (word_ok_shr n 1%Z z ltac:(lia) ltac:(lia)) as Hs. replace (n + 1)%Z with (Z.of_nat (S n)) in Hs by lia. specialize (Hs Hz).
    destruct (halves_ok z) as [H1 H2]; [rewrite <- Ea; apply gf2m_ok|]. destruct (gclass _ H1) as [b Eb]. destruct (gclass _ H2) as [c Ec].
    unfold coefficients. cbn [seq map]. rewrite peval_cons, <- seq_shift, map_map.
    assert (map (λ i : nat, gf2 (Z.testbit z (S i))) (seq 0 n) = coefficients n (Z.shiftr z 1%Z)) as ->.
    { unfold coefficients. apply map_ext. intros i. rewrite Z.shiftr_spec by lia. f_equal. f_equal. lia. }
    rewrite (IH _ b Eb Hs), <- (gx_shift _ b c Eb Ec). apply gf2m_eq. rewrite Ea.
    etrans; [exact (f_equal2 Z.lxor (gf2_value (Z.testbit z 0)) Ec)|]. rewrite (low_bit z) at 3. by rewrite Z.bit0_odd.
Qed.

(** The facts that are checked. *)
Class Gf2Checks : Prop := {
  gc_prime : Z.prime m;
  gc_fermat : Nat.iter (Z.to_nat m) (λ z, gmul m f z z) 2%Z = 2%Z;
  gc_unit : ∃ u, word_ok m u ∧ gmul m f (gmul m f 2 2 ⊕ 2) u = 1%Z;
}.
Context (checks : Gf2Checks).
#[local] Abbreviation n := (Z.to_nat m).

Lemma frob_value i a : proj1_sig (frob i a) = Nat.iter i (λ z, gmul m f z z) (`a).
Proof. induction i as [|i IH]; [done|]. rewrite frob_S. simpl. by rewrite <- IH. Qed.

Lemma frob_gx : frob n gx = gx.
Proof. apply gf2m_eq. rewrite frob_value. apply gc_fermat. Qed.

Lemma frob_peval i p z : frob i (peval p z) = peval (map (frob i) p) (frob i z).
Proof.
  induction p as [|c p IH]; [apply (frob_gf2 i false)|]. cbn [map]. by rewrite !peval_cons, frob_add, frob_mul, IH.
Qed.

Lemma frob_coefficients i k z : map (frob i) (coefficients k z) = coefficients k z.
Proof. unfold coefficients. rewrite map_map. apply map_ext. intros j. apply frob_gf2. Qed.

Lemma word_ok_n a : word_ok n (`a).
Proof. pose proof (gp_m (m := m) (f := f)). rewrite Z2Nat.id by lia. apply gf2m_ok. Qed.

Lemma eval_gx a : peval (coefficients n (`a)) gx = a.
Proof. apply coefficients_eval; [done|apply word_ok_n]. Qed.

(** Fermat's theorem. *)
Lemma frob_n a : frob n a = a.
Proof. rewrite <- (eval_gx a) at 1. by rewrite frob_peval, frob_coefficients, frob_gx, eval_gx. Qed.

(** The conjugates of [x] differ by units. *)
Lemma conjugates_differ i : (0 < i < n)%nat → unit (frob i gx + gx).
Proof.
  intros Hi. destruct (prime_bezout n i) as [Hd|(u & v & Huv)].
  - rewrite Z2Nat.id by (pose proof (gp_m (m := m) (f := f)); lia). apply gc_prime.
  - apply Z.divide_pos_le in Hd; lia.
  - assert (∀ j, ∃ c, frob (j * i) gx + gx = (frob i gx + gx) * c) as Hj.
    { induction j as [|j [c IH]]; [exists 0; change (frob (0 * i) gx) with gx; ring|].
      destruct (frob_divides (j * i) (frob i gx + gx)) as [c' Ec']. rewrite frob_add, frob_frob in Ec'. exists (c' + c).
      replace (S j * i)%nat with (j * i + i)%nat by lia. trans ((frob (j * i + i) gx + frob (j * i) gx) + (frob (j * i) gx + gx)); [ring|].
      rewrite Ec', IH. ring. }
    destruct (Hj u) as [c Ec]. apply (unit_factor _ c). rewrite <- Ec, Huv, <- frob_frob, (frob_mul_iter n v gx frob_gx).
    destruct gc_unit as (w & Hw & Ew). exists (dexist w Hw). apply gf2m_eq. exact Ew.
Qed.

Lemma unit_frob i a : unit a → unit (frob i a).
Proof. intros [b E]. exists (frob i b). rewrite <- frob_mul, E. apply (frob_gf2 i true). Qed.

Definition conjugates (s k : nat) : list K := map (λ i, frob i gx) (seq s k).

Lemma conjugates_separated s k : (s + k ≤ n)%nat → separated (conjugates s k).
Proof.
  revert s. induction k as [|k IH]; intros s Hk; [done|]. cbn. split; [|apply IH; lia].
  apply Forall_forall. intros z Hz. apply list_elem_of_fmap in Hz as (j & -> & Hj). apply elem_of_seq in Hj.
  assert (unit (frob s (frob (j - s) gx + gx))) as Hu by (apply unit_frob, conjugates_differ; lia).
  rewrite frob_add, frob_frob in Hu. by replace (s + (j - s))%nat with j in Hu by lia.
Qed.

(** An idempotent is constant: it is a root of [e(X) - e] at every conjugate of [x]. *)
Lemma idempotent a : a * a = a → a = 0 ∨ a = 1.
Proof.
  intros He. assert (∀ i, frob i a = a) as Hfix by (induction i as [|i IH]; [done|]; by rewrite frob_S, IH).
  pose proof (gp_m (m := m) (f := f)) as Hm. set (tl := map (λ i : nat, gf2 (Z.testbit (`a) i) : K) (seq 1 (n - 1))).
  assert (coefficients n (`a) = gf2 (Z.testbit (`a) 0) :: tl) as Ec by (unfold coefficients; by replace n with (S (n - 1)) at 1 by lia).
  assert (Forall (λ c, c = 0) ((gf2 (Z.testbit (`a) 0) + a) :: tl)) as Hz.
  { apply (too_many_roots (conjugates 0 n)); [|by apply conjugates_separated|].
    - unfold tl, conjugates. simpl. rewrite !length_map, !length_seq. lia.
    - apply Forall_forall. intros z Hz. apply list_elem_of_fmap in Hz as (i & -> & _).
      pose proof (frob_peval i (coefficients n (`a)) gx) as E. rewrite frob_coefficients, eval_gx, Hfix, Ec, peval_cons in E.
      rewrite peval_cons. trans (a + (gf2 (Z.testbit (`a) 0) + frob i gx * peval tl (frob i gx))); [ring|]. rewrite <- E. ring. }
  apply Forall_cons in Hz as [E0 _]. destruct (Z.testbit (`a) 0); unfold gf2 in E0; [right|left].
  - trans (1 + a + 1); [ring|]. rewrite E0. ring.
  - rewrite <- E0. ring.
Qed.

(** ** The field *)

Fixpoint npow a (k : nat) : K := match k with O => 1 | S k => a * npow a k end.

Lemma npow_add a j k : npow a (j + k) = npow a j * npow a k.
Proof. induction j as [|j IH]; [change (npow a k = 1 * npow a k); ring|]. cbn [npow Nat.add]. rewrite IH. ring. Qed.

Lemma frob_npow i a : frob i a = npow a (2 ^ i).
Proof.
  induction i as [|i IH]; [change (a = a * 1); ring|]. rewrite frob_S, IH, <- npow_add. f_equal. simpl. lia.
Qed.

Lemma gpow_npow a p : gpow m f (`a) p = proj1_sig (npow a (Pos.to_nat p)).
Proof.
  induction p as [p IH|p IH|]; cbn [gpow].
  - rewrite IH, Pos2Nat.inj_xI. replace (S (2 * Pos.to_nat p)) with (1 + (Pos.to_nat p + Pos.to_nat p))%nat by lia.
    rewrite !npow_add. assert (npow a 1 = a) as -> by (change (a * 1 = a); ring). done.
  - rewrite IH, Pos2Nat.inj_xO. replace (2 * Pos.to_nat p)%nat with (Pos.to_nat p + Pos.to_nat p)%nat by lia. by rewrite npow_add.
  - assert (npow a 1 = a) as E by (change (a * 1 = a); ring). change (Pos.to_nat 1) with 1%nat. by rewrite E.
Qed.

Lemma fermat_exponent : (Pos.to_nat (Z.to_pos (2 ^ m - 2)) + 2 = 2 ^ n)%nat.
Proof.
  pose proof (gp_m (m := m) (f := f)). pose proof (Z.pow_lt_mono_r 2 1 m ltac:(lia) ltac:(lia) ltac:(lia)) as Hp. rewrite Z.pow_1_r in Hp.
  apply Nat2Z.inj. rewrite Nat2Z.inj_add, positive_nat_Z, Z2Pos.id, Nat2Z.inj_pow, Z2Nat.id by lia. lia.
Qed.

Lemma finv_npow a : finv a = npow a (Pos.to_nat (Z.to_pos (2 ^ m - 2))).
Proof. apply gf2m_eq. apply gpow_npow. Qed.

(** The powers [a^(2^j - 1)], by the recurrence of addition chains for the inverse. *)
Fixpoint tpow a (j : nat) : K := match j with O => 1 | S j => a * (tpow a j * tpow a j) end.

Lemma tpow_add a i j : tpow a (i + j) = frob j (tpow a i) * tpow a j.
Proof.
  induction j as [|j IH]; [rewrite Nat.add_0_r; change (tpow a i = tpow a i * 1); ring|].
  rewrite Nat.add_succ_r, frob_S. cbn [tpow]. rewrite IH. ring.
Qed.

Lemma tpow_npow a j : tpow a j = npow a (2 ^ j - 1).
Proof.
  induction j as [|j IH]; [done|]. cbn [tpow]. rewrite IH, <- npow_add. change (npow a (S (2 ^ j - 1 + (2 ^ j - 1))) = npow a (2 ^ S j - 1)).
  f_equal. simpl. pose proof (Nat.pow_nonzero 2 j). lia.
Qed.

Lemma finv_tpow a : finv a = tpow a (n - 1) * tpow a (n - 1).
Proof.
  rewrite finv_npow, tpow_npow, <- npow_add. f_equal. pose proof fermat_exponent as E. pose proof (gp_m (m := m) (f := f)).
  replace n with (S (n - 1)) in E at 1 by lia. cbn [Nat.pow] in E. pose proof (Nat.pow_nonzero 2 (n - 1)). lia.
Qed.

Lemma finv_zero : finv (0 : K) = 0.
Proof.
  rewrite finv_npow. destruct (Pos2Nat.is_succ (Z.to_pos (2 ^ m - 2))) as [k ->]. change (0 * npow 0 k = 0). ring.
Qed.

Lemma finv_mul a : a ≠ 0 → finv a * a = 1.
Proof.
  intros Ha. rewrite finv_npow. set (k := Pos.to_nat _). set (e := npow a k * a).
  assert (npow a 2 = a * a) as E2 by (change (a * (a * 1) = a * a); ring).
  assert (a * e = a) as Ea.
  { rewrite <- (frob_n a) at 2. rewrite frob_npow, <- fermat_exponent, npow_add, E2. fold k. unfold e. ring. }
  assert (e * e = e) as Ee by (unfold e at 1; trans (npow a k * (a * e)); [ring|]; by rewrite Ea).
  destruct (idempotent e Ee) as [E|E]; [|done]. exfalso. apply Ha. rewrite <- Ea, E. ring.
Qed.

#[global] Instance gf2m_field : BinaryField K.
Proof.
  split; [apply _| |apply gf2m_char2]. split; [apply gf2m_ring| |done|apply finv_mul].
  intros E. apply gf2m_eq in E. done.
Qed.
End Ring.
