(* ===== verification/Gf2Eval.v ===== *)
(** Evaluation in the fields of [Gf2Field.v]: a product that reduces once, a square that spreads the bits, and a
    ladder on the first coordinates that decides whether a multiple of a point is infinity. *)

From Stdlib Require Import Ring_theory Ring.
From S2P Require Import Prelude Poly2 BinaryCurve Gf2Field.

Fixpoint spread_pos (p : positive) : positive :=
  match p with xH => xH | xO p => xO (xO (spread_pos p)) | xI p => xI (xO (spread_pos p)) end.
Definition spread (z : Z) : Z := match z with Zpos p => Zpos (spread_pos p) | _ => 0 end.

Section Raw.
Context (m tail : Z).

Definition gfold (x : Z) : Z := Z.land x (Z.ones m) ⊕ clmul (Z.shiftr x m) tail.
Definition gred (x : Z) : Z := gfold (gfold x).
Definition gmul_fast (x y : Z) : Z := gred (clmul x y).
Definition gsquare_fast (x : Z) : Z := gred (spread x).

Definition zstep (b x : Z) (s : (Z * Z) * (Z * Z)) (bit : bool) : (Z * Z) * (Z * Z) :=
  let '((x1, z1), (x2, z2)) := s in
  let p := gmul_fast x1 z2 in
  let q := gmul_fast x2 z1 in
  let z := gsquare_fast (p ⊕ q) in
  let r := (gmul_fast x z ⊕ gmul_fast p q, z) in
  let '(xd, zd) := if bit then s.2 else s.1 in
  let xx := gsquare_fast xd in
  let zz := gsquare_fast zd in
  let d := (gsquare_fast xx ⊕ gmul_fast b (gsquare_fast zz), gmul_fast xx zz) in
  if bit then (r, d) else (d, r).

Definition zladder (b x : Z) (bits : list bool) : Z := (foldl (zstep b x) ((1, 0), (x, 1)) bits).1.2.

(** The lowest [n] bits of a scalar, the highest first. *)
Definition scalar_bits (n : nat) (k : Z) : list bool := map (λ i : nat, Z.testbit k i) (reverse (seq 0 n)).
End Raw.

Lemma spread_square z : 0 ≤ z → spread z = clmul z z.
Proof.
  intros Hz. destruct z as [|p|p]; [done| |lia]. clear Hz. unfold spread.
  assert (∀ p, Z.pos p~0 = Z.b2z false ⊕ Z.shiftl (Z.pos p) 1 ∧ Z.pos p~1 = Z.b2z true ⊕ Z.shiftl (Z.pos p) 1) as H by done.
  induction p as [p IH|p IH|]; [rewrite (proj2 (H p))|rewrite (proj1 (H p))|done]; rewrite clmul_self_bit, <- IH by lia; done.
Qed.

Section Fast.
Context (m f : Z) (Params : Gf2Params m f) (tail t : Z).
Context (Htail : f ⊕ 2 ^ m = tail) (Hword : word_ok (t + 1) tail) (Ht : 0 ≤ t) (Hsmall : 2 * t ≤ m).
#[local] Notation "x ≡ y" := (poly_eq f x y) (at level 70).
#[local] Abbreviation K := (gf2m m f).

#[local] Instance fast_equiv : Equivalence (poly_eq f).
Proof. apply (poly_eq_equiv m); [pose proof (gp_m (m := m) (f := f)); lia|apply gp_f]. Qed.
#[local] Instance fast_lxor : Proper (poly_eq f ==> poly_eq f ==> poly_eq f) Z.lxor.
Proof. apply (poly_eq_lxor m); [pose proof (gp_m (m := m) (f := f)); lia|apply gp_f]. Qed.

Lemma gfold_ok d x : 0 ≤ d → word_ok (m + d) x → word_ok (Z.max m (d + t)) (gfold m tail x) ∧ gfold m tail x ≡ x.
Proof.
  intros Hd Hx. pose proof (gp_m (m := m) (f := f)) as Hm. pose proof (gp_f (m := m) (f := f)) as Hf. unfold gfold. rewrite Z.land_ones by lia.
  assert (word_ok d (Z.shiftr x m)) as Hh by (apply word_ok_shr; [lia..|by rewrite Z.add_comm]). split.
  - apply word_ok_lxor; [lia|apply (word_ok_mono m); [lia|apply word_ok_mod; lia]|]. apply (word_ok_mono (d + t)); [lia|].
    by apply clmul_bound.
  - assert (x = x mod 2 ^ m ⊕ Z.shiftl (Z.shiftr x m) m) as E.
    { rewrite <- Z.land_ones by lia. apply Z.bits_inj'. intros i Hi. rewrite Z.lxor_spec, Z.land_spec, Z.shiftl_spec by done.
      destruct (decide (i < m)).
      - rewrite Z.ones_spec_low, (Z.testbit_neg_r _ (i - m)) by lia. by rewrite andb_true_r, xorb_false_r.
      - rewrite Z.ones_spec_high, Z.shiftr_spec, andb_false_r by lia. simpl. f_equal. lia. }
    rewrite E at 3. f_equiv. symmetry. rewrite <- Htail. apply poly_eq_high; [lia|done|apply Hh].
Qed.

Lemma gred_ok x : word_ok (2 * m) x → word_ok m (gred m tail x) ∧ gred m tail x ≡ x.
Proof.
  intros Hx. pose proof (gp_m (m := m) (f := f)) as Hm. unfold gred. destruct (gfold_ok m x) as [H1 E1]; [lia|by replace (m + m) with (2 * m) by lia|].
  destruct (gfold_ok t (gfold m tail x)) as [H2 E2]; [done|by replace (Z.max m (m + t)) with (m + t) in H1 by lia|].
  split; [by replace (Z.max m (t + t)) with m in H2 by lia|by rewrite E2].
Qed.

Lemma fast_product (k l : K) x : word_ok (2 * m) x → x = clmul (proj1_sig k) (proj1_sig l) → gred m tail x = proj1_sig (fmul k l).
Proof.
  intros Hx E. destruct (gred_ok x Hx) as [H1 H2]. symmetry. apply gmul_eq; [apply gp_m|apply gp_f|apply gf2m_ok|apply (gf2m_ok m f l)|done|].
  by rewrite H2, E.
Qed.

Lemma clmul_elements (k l : K) : word_ok (2 * m) (clmul (proj1_sig k) (proj1_sig l)).
Proof.
  pose proof (gp_m (m := m) (f := f)). apply (word_ok_mono (m + (m - 1))); [lia|]. apply clmul_bound; [lia..|apply gf2m_ok|].
  rewrite Z.sub_add. apply (gf2m_ok m f l).
Qed.

Lemma gmul_fast_ok (k l : K) : gmul_fast m tail (proj1_sig k) (proj1_sig l) = proj1_sig (fmul k l).
Proof. apply fast_product; [apply clmul_elements|done]. Qed.

Lemma gsquare_fast_ok (k : K) : gsquare_fast m tail (proj1_sig k) = proj1_sig (fmul k k).
Proof.
  assert (0 ≤ proj1_sig k) as Hk by apply (gf2m_ok m f k). unfold gsquare_fast. rewrite spread_square by done.
  apply fast_product; [apply clmul_elements|done].
Qed.

Lemma gsquares_ok n (k : K) : Nat.iter n (gsquare_fast m tail) (proj1_sig k) = Nat.iter n (λ z, gmul m f z z) (proj1_sig k).
Proof.
  assert (∀ j, Nat.iter j (gsquare_fast m tail) (proj1_sig k) = proj1_sig (frob m f j k)) as H.
  { induction j as [|j IH]; [done|]. rewrite frob_S. cbn [Nat.iter nat_rect]. change (Nat.iter j ?g ?x) with (Nat.iter j g x). etrans; [|apply gsquare_fast_ok]. by f_equal. }
  by rewrite H, frob_value.
Qed.

Definition pairs (s : (K * K) * (K * K)) : (Z * Z) * (Z * Z) :=
  ((proj1_sig s.1.1, proj1_sig s.1.2), (proj1_sig s.2.1, proj1_sig s.2.2)).

Definition fast_ring := gf2m_ring m f.
Definition fast_morph := gf2_ring_morph fast_ring (gf2m_char2 m f).
Add Ring fast_ring : fast_ring (morphism fast_morph).

Lemma fast_add (k l : K) : proj1_sig k ⊕ proj1_sig l = proj1_sig (fadd k l).
Proof. done. Qed.

Lemma zstep_ok (b x : K) s bit : zstep m tail (proj1_sig b) (proj1_sig x) (pairs s) bit = pairs (xladder_step b x s bit).
Proof.
  destruct s as [[x1 z1] [x2 z2]]. unfold zstep, xladder_step, pairs.
  destruct bit; cbn [fst snd]; rewrite ?gmul_fast_ok, ?fast_add, ?gsquare_fast_ok, ?gmul_fast_ok, ?gsquare_fast_ok, ?gmul_fast_ok, ?fast_add;
    repeat apply (f_equal2 pair); apply (proj1 (gf2m_eq m f _ _)); ring.
Qed.

Lemma zladder_ok (b x y : K) bits (checks : Gf2Checks m f) (a : K) :
  b ≠ fzero → on a b (Some (x, y)) → zladder m tail (proj1_sig b) (proj1_sig x) bits = 0 → bmul a (bits_nat 0 bits) (Some (x, y)) = None.
Proof.
  intros Hb Hon Hz. pose (gf2m_field m f checks) as FK.
  pose proof (xladder_ok a b Hb x y 0 _ bits Hon (xladder_init a x y)) as [H1 _].
  assert (∀ s, foldl (zstep m tail (proj1_sig b) (proj1_sig x)) (pairs s) bits = pairs (foldl (xladder_step b x) s bits)) as E.
  { clear -Htail Hword Ht Hsmall. induction bits as [|bit bits IH]; intros s; [done|]. cbn [foldl]. by rewrite zstep_ok, IH. }
  unfold zladder in Hz. change ((1, 0), (proj1_sig x, 1)) with (pairs ((fone, fzero), (x, fone))) in Hz. rewrite E in Hz.
  destruct (bmul a _ _) as [[xk yk]|]; [|done]. destruct H1 as [H1 _]. exfalso. apply H1, gf2m_eq. exact Hz.
Qed.
End Fast.
