(* ===== verification/Gf4145.v ===== *)
(** The binary fields of DSTU 4145 ([hazmat/dstu4145/gf2m163.rs] and [gf2m257.rs]): one text over [fb], the choice of
    a file; the reductions differ and are given one by one.  The operations are proved against the field
    [gf2m] of [Gf2Field.v], on both paths of the product. *)

From S2P Require Import Prelude Poly2 Gf2mWide Limb Primes BinaryCurve Gf2Field Gf2Eval.

Inductive fb : Type := Fb163 | Fb257.

(** ** Elements *)

Definition fb_limbs (F : fb) : nat := match F with Fb163 => 3 | Fb257 => 5 end.
Definition fb_limbs2 (F : fb) : nat := match F with Fb163 => 6 | Fb257 => 10 end.
(** The degree of the field, and the bytes of an element. *)
Definition fb_m (F : fb) : nat := match F with Fb163 => 163 | Fb257 => 257 end.
Definition fb_bytes (F : fb) : nat := match F with Fb163 => 21 | Fb257 => 33 end.

Definition fb_ZERO (F : fb) : list Z := replicate (fb_limbs F) 0.
Definition fb_ONE (F : fb) : list Z := 1 :: replicate (fb_limbs F - 1) 0.

Definition fb_add (F : fb) (self other : list Z) : list Z := map (λ i, self.[i] ⊕ other.[i]) (seq 0 (fb_limbs F)).

Definition is_canonical (F : fb) (self : list Z) : bool :=
  match F with
  | Fb163 => Z.eqb (Z.shiftr (self.[2]) 35) 0
  | Fb257 => Z.eqb (Z.shiftr (self.[4]) 1) 0
  end.

(** [for (i, &byte) in bytes.iter().rev().enumerate() { limbs[i / 8] |= u64::from(byte) << (i % 8) * 8 }] *)
Definition or_byte (limbs : list Z) (i : nat) (byte : Z) : list Z :=
  let limb := (i / 8)%nat in
  let shift := (i mod 8 * 8)%nat in
  <[limb := Z.lor (limbs.[limb]) (shl 64 byte shift)]> limbs.

(** More than [8 n] bytes are an index out of range. *)
Definition pack_be_bytes (n : nat) (bytes : list Z) : option (list Z) :=
  if decide (length bytes ≤ 8 * n)%nat then Some (fold_enum or_byte 0 (replicate n 0) (reverse bytes)) else None.

Definition unpack_be_bytes (len : nat) (limbs : list Z) : list Z :=
  reverse (map (λ i, wrap 8 (Z.shiftr (limbs.[i / 8]) (i mod 8 * 8)%nat)) (seq 0 len)).

(** The arrays that the crate passes have the length of an element. *)
Definition fb_from_be_bytes (F : fb) (bytes : list Z) : list Z :=
  match pack_be_bytes (fb_limbs F) bytes with Some limbs => limbs | None => [] end.
Definition fb_to_be_bytes (F : fb) (self : list Z) : list Z := unpack_be_bytes (fb_bytes F) self.

(** ** The product *)

Definition fb_mul_step (a : list Z) (s : list Z * list Z) (bit_index : nat) : list Z * list Z :=
  let '(acc, shifted) := s in
  let limb := (bit_index / 64)%nat in
  let bit := (bit_index mod 64)%nat in
  let mask := mask_of (a.[limb]) bit in
  (zip_mut (λ acc_i shifted_i, acc_i ⊕ Z.land shifted_i mask) acc shifted, shl1 shifted).

Definition fb_poly_mul_wide (F : fb) (a b : list Z) : list Z :=
  (foldl (fb_mul_step a) (replicate (fb_limbs2 F) 0, b ++ replicate (fb_limbs2 F - fb_limbs F) 0) (seq 0 (fb_m F))).1.

Definition fb_poly_mul_wide_hw (F : fb) (a b : list Z) : list Z :=
  foldl (λ out i,
    foldl (λ out j,
      let '(lo, hi) := clmul64 (a.[i]) (b.[j]) in
      xor_at (i + j + 1) hi (xor_at (i + j) lo out))
    out (seq 0 (fb_limbs F)))
  (replicate (fb_limbs2 F) 0) (seq 0 (fb_limbs F)).

(** One line [x = (x | (x << s)) & mask]. *)
Definition spread_step (x : Z) (line : Z * Z) : Z := Z.land (Z.lor x (shl 64 x line.1)) line.2.
Definition spread_lines : list (Z * Z) :=
  [ (16, 0x0000FFFF0000FFFF); (8, 0x00FF00FF00FF00FF); (4, 0x0F0F0F0F0F0F0F0F);
    (2, 0x3333333333333333); (1, 0x5555555555555555) ].
Definition spread32to64 (x : Z) : Z := foldl spread_step x spread_lines.

Definition square_wide (F : fb) (a : list Z) : list Z :=
  foldl (λ out i,
    let lo := wrap 32 (a.[i]) in
    let hi := wrap 32 (Z.shiftr (a.[i]) 32) in
    <[(2 * i + 1)%nat := spread32to64 hi]> (<[(2 * i)%nat := spread32to64 lo]> out))
  (replicate (fb_limbs2 F) 0) (seq 0 (fb_limbs F)).

(** ** The reductions *)

(** Modulo [x^163 + x^7 + x^6 + x^3 + 1]: one turn of the main pass, and one of the cleanup. *)
Definition reduce_word_163 (c : list Z) (j : nat) : list Z :=
  let zz := c.[j] in
  let c := <[j := 0]> c in
  let c := xor_at (j - 2) (Z.shiftr zz 28 ⊕ Z.shiftr zz 29 ⊕ Z.shiftr zz 32 ⊕ Z.shiftr zz 35) c in
  xor_at (j - 3) (shl 64 zz 36 ⊕ shl 64 zz 35 ⊕ shl 64 zz 32 ⊕ shl 64 zz 29) c.

Definition cleanup_163 (c : list Z) : list Z :=
  let overflow := Z.shiftr (c.[2]) 35 in
  let c := <[2%nat := Z.shiftr (shl 64 (c.[2]) 29) 29]> c in
  xor_at 0 (overflow ⊕ shl 64 overflow 3 ⊕ shl 64 overflow 6 ⊕ shl 64 overflow 7) c.

Definition reduce_163 (c : list Z) : list Z :=
  let c := foldl reduce_word_163 c [5; 4; 3]%nat in
  let c := Nat.iter 2 cleanup_163 c in
  [c.[0]; c.[1]; c.[2]].

(** Modulo [x^257 + x^12 + 1]. *)
Definition reduce_257 (c : list Z) : list Z :=
  let h1 := map (λ i, Z.lor (Z.shiftr (c.[i + 4]) 1) (shl 64 (c.[i + 5]) 63)) (seq 0 5) in
  let lo1 := [c.[0]; c.[1]; c.[2]; c.[3]; Z.land (c.[4]) 1] in
  let h1_shifted := shl 64 (h1.[0]) 12 :: map (λ i, Z.lor (shl 64 (h1.[i]) 12) (Z.shiftr (h1.[i - 1]) 52)) (seq 1 4) in
  let pass1 := map (λ i, lo1.[i] ⊕ h1.[i] ⊕ h1_shifted.[i]) (seq 0 5) in
  let h2 := Z.shiftr (pass1.[4]) 1 in
  let h2_shifted := shl 64 h2 12 in
  xor_at 0 (h2 ⊕ h2_shifted) [pass1.[0]; pass1.[1]; pass1.[2]; pass1.[3]; Z.land (pass1.[4]) 1].

Definition fb_reduce (F : fb) (c : list Z) : list Z := match F with Fb163 => reduce_163 c | Fb257 => reduce_257 c end.

(** [feature_available]: the processor has the instruction. *)
Definition fb_multiply (feature_available : bool) (F : fb) (self other : list Z) : list Z :=
  if feature_available then fb_reduce F (fb_poly_mul_wide_hw F self other)
  else fb_reduce F (fb_poly_mul_wide F self other).

Definition fb_square (F : fb) (self : list Z) : list Z := fb_reduce F (square_wide F self).

(** ** The inverse *)

Definition sq_n (F : fb) (x : list Z) (n : nat) : list Z := Nat.iter n (fb_square F) x.

Definition invert_163 (fa : bool) (self : list Z) : list Z :=
  let t1 := self in
  let t2 := fb_multiply fa Fb163 (fb_square Fb163 t1) t1 in
  let t3 := fb_multiply fa Fb163 (sq_n Fb163 t2 1) t1 in
  let t6 := fb_multiply fa Fb163 (sq_n Fb163 t3 3) t3 in
  let t12 := fb_multiply fa Fb163 (sq_n Fb163 t6 6) t6 in
  let t24 := fb_multiply fa Fb163 (sq_n Fb163 t12 12) t12 in
  let t27 := fb_multiply fa Fb163 (sq_n Fb163 t24 3) t3 in
  let t54 := fb_multiply fa Fb163 (sq_n Fb163 t27 27) t27 in
  let t81 := fb_multiply fa Fb163 (sq_n Fb163 t54 27) t27 in
  let t162 := fb_multiply fa Fb163 (sq_n Fb163 t81 81) t81 in
  fb_square Fb163 t162.

Definition invert_257 (fa : bool) (self : list Z) : list Z :=
  let t1 := self in
  let t2 := fb_multiply fa Fb257 (sq_n Fb257 t1 1) t1 in
  let t4 := fb_multiply fa Fb257 (sq_n Fb257 t2 2) t2 in
  let t8 := fb_multiply fa Fb257 (sq_n Fb257 t4 4) t4 in
  let t16 := fb_multiply fa Fb257 (sq_n Fb257 t8 8) t8 in
  let t32 := fb_multiply fa Fb257 (sq_n Fb257 t16 16) t16 in
  let t64 := fb_multiply fa Fb257 (sq_n Fb257 t32 32) t32 in
  let t128 := fb_multiply fa Fb257 (sq_n Fb257 t64 64) t64 in
  let t256 := fb_multiply fa Fb257 (sq_n Fb257 t128 128) t128 in
  fb_square Fb257 t256.

Definition fb_invert (fa : bool) (F : fb) (self : list Z) : list Z :=
  match F with Fb163 => invert_163 fa self | Fb257 => invert_257 fa self end.

(** ** Bytes *)

Lemma limbs_val_insert l (i : nat) v : (i < length l)%nat → limbs_val (<[i := v]> l) = limbs_val l + 2 ^ (64 * i) * (v - l.[i]).
Proof.
  revert i. induction l as [|w l IH]; intros i Hi; simpl in Hi; [lia|]. destruct i as [|i].
  - change (<[0%nat := v]> (w :: l)) with (v :: l). cbn [limbs_val nth]. change (2 ^ (64 * 0%nat)) with 1. lia.
  - change (<[S i := v]> (w :: l)) with (w :: <[i := v]> l). cbn [limbs_val nth]. rewrite IH, pow_limbs_S by lia. lia.
Qed.

Lemma limbs_val_nth_le n l (i : nat) : limbs_ok n l → 2 ^ (64 * i) * l.[i] ≤ limbs_val l.
Proof.
  revert n i. induction l as [|w l IH]; intros n i Hl; [rewrite nth_overflow by (simpl; lia); simpl; lia|].
  apply limbs_ok_cons_inv in Hl as (m & -> & Hw & Hl). pose proof (limbs_val_bound m l Hl). unfold word_ok in Hw. destruct i as [|i]; cbn [limbs_val nth].
  - change (2 ^ (64 * 0%nat)) with 1. lia.
  - rewrite pow_limbs_S. specialize (IH m i Hl). nia.
Qed.

Lemma pow_byte_index (i : nat) : 2 ^ (8 * i) = 2 ^ (64 * (i / 8)%nat) * 2 ^ (8 * (i mod 8)%nat).
Proof. rewrite <- Z.pow_add_r by lia. f_equal. pose proof (Nat.div_mod_eq i 8). lia. Qed.

Lemma or_byte_val n l (i : nat) b :
  limbs_ok n l → (i < 8 * n)%nat → limbs_val l < 2 ^ (8 * i) → byte_ok b →
  limbs_ok n (or_byte l i b) ∧ limbs_val (or_byte l i b) = limbs_val l + 2 ^ (8 * i) * b.
Proof.
  intros Hl Hi Hv Hb. pose proof Hl as [Hlen Hu]. set (q := (i / 8)%nat). set (r := (i mod 8)%nat).
  assert (q < n)%nat as Hq by (apply Nat.Div0.div_lt_upper_bound; lia). assert (r < 8)%nat as Hr by (apply Nat.mod_upper_bound; lia).
  assert (word_ok (8 * r) (l.[q])) as Hw.
  { pose proof (limbs_val_nth_le n l q Hl). pose proof (nth_limb_ok n l q Hl) as [H0 _]. rewrite pow_byte_index in Hv. fold q r in Hv.
    split; [done|]. pose proof (Z.pow_pos_nonneg 2 (64 * q)). nia. }
  unfold or_byte. fold q r. replace (Z.of_nat (r * 8)) with (8 * r) by lia.
  pose proof (lor_shl_high (l.[q]) b r 8 Hw Hb Hr) as E. change (8 * 8%nat) with 64 in E.
  split.
  - split; [by rewrite length_insert|]. apply Forall_insert; [done|]. apply word_ok_lor; [lia|by apply nth_u64_ok|apply shl_u64].
  - rewrite limbs_val_insert by lia. rewrite E, (pow_byte_index i). fold q r. lia.
Qed.

Lemma fold_or_byte n l (i : nat) bs :
  limbs_ok n l → (i + length bs ≤ 8 * n)%nat → limbs_val l < 2 ^ (8 * i) → bytes_ok bs →
  limbs_ok n (fold_enum or_byte i l bs) ∧ limbs_val (fold_enum or_byte i l bs) = limbs_val l + 2 ^ (8 * i) * from_le_bytes bs.
Proof.
  revert l i. induction bs as [|b bs IH]; intros l i Hl Hi Hv Hb; cbn [fold_enum from_le_bytes]; [split; [done|lia]|].
  simpl in Hi. apply Forall_cons in Hb as [Hb Hbs]. destruct (or_byte_val n l i b) as [Ho Eo]; [done|lia|done|done|].
  assert (2 ^ (8 * S i) = 2 ^ (8 * i) * 256) as Ep by (change 256 with (2 ^ 8); rewrite <- Z.pow_add_r by lia; f_equal; lia).
  destruct (IH (or_byte l i b) (S i)) as [H1 H2]; [done|lia| |done|].
  - rewrite Eo, Ep. destruct Hb as [Hb0 Hb]. change (2 ^ 8) with 256 in Hb. pose proof (Z.pow_pos_nonneg 2 (8 * i)). nia.
  - split; [done|]. rewrite H2, Eo, Ep. lia.
Qed.

Lemma pack_be_bytes_ok n bytes :
  bytes_ok bytes → (length bytes ≤ 8 * n)%nat →
  ∃ l, pack_be_bytes n bytes = Some l ∧ limbs_ok n l ∧ limbs_val l = from_be_bytes bytes.
Proof.
  intros Hb Hl. unfold pack_be_bytes. rewrite decide_True by done. eexists. split; [done|].
  destruct (fold_or_byte n (replicate n 0) 0 (reverse bytes)) as [H1 H2]; [apply limbs_ok_zeros|rewrite length_reverse; lia| |by apply Forall_reverse|].
  - rewrite limbs_val_zeros. done.
  - split; [done|]. rewrite H2, limbs_val_zeros. change (2 ^ (8 * 0%nat)) with 1. unfold from_be_bytes. lia.
Qed.

Lemma cat_add (n : Z) a b : 0 ≤ n → word_ok n a → a ⊕ Z.shiftl b n = a + 2 ^ n * b.
Proof.
  intros Hn Ha. rewrite <- Z.add_nocarry_lxor; [rewrite Z.shiftl_mul_pow2 by done; lia|].
  apply Z.bits_inj'. intros i Hi. rewrite Z.land_spec, Z.shiftl_spec, Z.testbit_0_l by done. destruct (decide (i < n)).
  - by rewrite (Z.testbit_neg_r b), andb_false_r by lia.
  - apply word_ok_bits in Ha as [_ Ha]; [|done]. by rewrite Ha by lia.
Qed.

(** The two readings of an array of limbs. *)
Lemma value_limbs_val l : Forall u64_ok l → value l = limbs_val l.
Proof. induction 1 as [|w l Hw Hl IH]; [done|]. cbn [value limbs_val]. by rewrite cat_add, IH by first [done | lia]. Qed.

Lemma to_le_bytes_map len v : to_le_bytes len v = map (λ i : nat, wrap 8 (Z.shiftr v (8 * i))) (seq 0 len).
Proof.
  revert v. induction len as [|len IH]; intros v; [done|]. cbn [to_le_bytes seq map].
  change (8 * 0%nat) with 0. rewrite Z.shiftr_0_r. f_equal. rewrite IH, <- seq_shift, map_map. apply map_ext. intros i. rewrite Z.shiftr_shiftr by lia. do 2 f_equal. lia.
Qed.

Lemma unpack_be_bytes_ok n len l : limbs_ok n l → unpack_be_bytes len l = to_be_bytes len (limbs_val l).
Proof.
  intros [_ Hl]. unfold unpack_be_bytes, to_be_bytes. rewrite to_le_bytes_map, <- value_limbs_val by done. f_equal. apply map_ext. intros i.
  rewrite !wrap_mod by lia. apply Z.bits_inj'. intros j Hj. rewrite !Z.testbit_mod_pow2 by lia. destruct (Z.ltb_spec j 8); [|done]. cbn [andb].
  rewrite !Z.shiftr_spec by lia. replace (j + 8 * i) with (Z.of_nat (8 * i + Z.to_nat j)) by lia. rewrite testbit_value by done.
  set (r := Z.to_nat j). assert (r < 8)%nat by lia. pose proof (Nat.div_mod_eq i 8). set (q := (i / 8)%nat) in *. set (k := (i mod 8)%nat) in *.
  assert (k < 8)%nat by (apply Nat.mod_upper_bound; lia). assert ((8 * i + r) / 64 = q)%nat as -> by (symmetry; apply (Nat.div_unique _ _ _ (8 * k + r)); lia).
  assert ((8 * i + r) mod 64 = 8 * k + r)%nat as -> by (symmetry; apply (Nat.mod_unique _ _ q); lia). f_equal. lia.
Qed.

(** ** The products *)

(** A field element: an array of limbs with no bit above the degree. *)
Definition fb_ok (F : fb) (e : list Z) : Prop := limbs_ok (fb_limbs F) e ∧ word_ok (fb_m F) (value e).
#[global] Instance fb_ok_dec F e : Decision (fb_ok F e).
Proof. unfold fb_ok. apply _. Defined.

(** The products reach twice the degree. *)
Definition fb_wide_ok (F : fb) (c : list Z) : Prop := limbs_ok (fb_limbs2 F) c ∧ word_ok (2 * fb_m F - 1) (value c).

Lemma fb_limbs2_eq F : fb_limbs2 F = (2 * fb_limbs F)%nat.
Proof. by destruct F. Qed.

Lemma fb_m_pos F : 1 < fb_m F.
Proof. by destruct F. Qed.

Lemma fb_clmul_wide F x y : word_ok (fb_m F) x → word_ok (fb_m F) y → word_ok (2 * fb_m F - 1) (clmul x y).
Proof.
  intros Hx Hy. pose proof (fb_m_pos F). replace (2 * fb_m F - 1) with (fb_m F + (fb_m F - 1)) by lia.
  apply clmul_bound; [lia..|done|]. by rewrite Z.sub_add.
Qed.

Lemma fb_poly_mul_wide_hw_ok F a b :
  fb_ok F a → fb_ok F b →
  fb_wide_ok F (fb_poly_mul_wide_hw F a b) ∧ value (fb_poly_mul_wide_hw F a b) = clmul (value a) (value b).
Proof.
  intros [[Hla Ha] Hva] [[Hlb Hb] Hvb]. unfold fb_poly_mul_wide_hw. rewrite fb_limbs2_eq.
  destruct (hw_rows_value (fb_limbs F) a b) as (H1 & H2 & H3); try done. split; [|done]. split; [split; [by rewrite fb_limbs2_eq|done]|].
  rewrite H3. by apply fb_clmul_wide.
Qed.

(** One more bit of the multiplier. *)
Lemma mod_succ_bit x (k : nat) : x mod 2 ^ S k = x mod 2 ^ k ⊕ Z.shiftl (Z.b2z (Z.testbit x k)) k.
Proof.
  apply Z.bits_inj'. intros i Hi. rewrite Z.lxor_spec, !Z.testbit_mod_pow2, Z.shiftl_spec by lia.
  destruct (Z.lt_trichotomy i k) as [Hk|[->|Hk]].
  - rewrite (Z.testbit_neg_r _ (i - k)), xorb_false_r by lia. destruct (Z.ltb_spec i (S k)), (Z.ltb_spec i k); (done || lia).
  - rewrite Z.sub_diag, Z.b2z_bit0. destruct (Z.ltb_spec k (S k)), (Z.ltb_spec k k); (done || lia).
  - rewrite (proj2 (Z.ltb_ge i (S k))), (proj2 (Z.ltb_ge i k)) by lia. simpl. destruct (Z.testbit x k); simpl; [|by rewrite Z.testbit_0_l].
    by rewrite (Z.bits_above_log2 1) by (simpl; lia).
Qed.

Definition mul_invariant (F : fb) (a b : list Z) (k : nat) (s : list Z * list Z) : Prop :=
  limbs_ok (fb_limbs2 F) s.1 ∧ value s.1 = clmul (value b) (value a mod 2 ^ k) ∧
  limbs_ok (fb_limbs2 F) s.2 ∧ value s.2 = Z.shiftl (value b) k.

Lemma fb_mul_step_ok F a b (k : nat) s :
  fb_ok F a → fb_ok F b → (k < fb_m F)%nat → mul_invariant F a b k s → mul_invariant F a b (S k) (fb_mul_step a s k).
Proof.
  intros [[Hla Ha] Hva] [[Hlb Hb] Hvb] Hk. destruct s as [acc shifted]. intros ([Hl1 H1] & E1 & [Hl2 H2] & E2). cbn [fst snd] in *.
  unfold fb_mul_step. cbv zeta. rewrite <- (zip_mut_map Z.lxor (λ r, Z.land r (mask_of (a.[k / 64]) (k mod 64)%nat))).
  set (masked := map _ shifted). assert (Forall u64_ok masked) as Hm.
  { apply Forall_map. eapply Forall_impl; [exact H2|]. intros r Hr. cbv beta. rewrite mask_of_bit by done.
    destruct (Z.testbit _ _); [done|apply word_ok_0; lia]. }
  destruct (value_xor_into acc masked) as [E Hu]; [unfold masked; rewrite length_map; lia|done|done|].
  destruct (shift_loop_exact 1 shifted (fb_m F + k)) as [Hu' E']; [lia|done| |lia|rewrite Hl2; destruct F; simpl in *; lia|].
  { rewrite E2. apply word_ok_shl; [lia..|done]. }
  unfold xor_into in *. repeat split; cbn [fst snd]; [by rewrite length_zip_mut|done| |unfold shl1; by rewrite length_shift_loop|done|].
  - rewrite E. unfold masked. rewrite value_map_mask, <- testbit_value, E1, mod_succ_bit by done.
    assert (0 ≤ value b) as Hb0 by apply Hvb.
    assert (0 ≤ value a mod 2 ^ k) by (apply Z.mod_pos_bound, Z.pow_pos_nonneg; lia).
    rewrite clmul_lxor_r, clmul_shl_r by first [done | lia | destruct (Z.testbit _ _); (done || by apply Z.shiftl_nonneg)].
    rewrite E2. f_equal. destruct (Z.testbit (value a) k); [done|]. by rewrite Z.shiftl_0_l.
  - unfold shl1. rewrite E', E2, Z.shiftl_shiftl by lia. f_equal. lia.
Qed.

Lemma fb_poly_mul_wide_ok F a b :
  fb_ok F a → fb_ok F b → fb_wide_ok F (fb_poly_mul_wide F a b) ∧ value (fb_poly_mul_wide F a b) = clmul (value a) (value b).
Proof.
  intros Ha Hb. unfold fb_poly_mul_wide. set (s0 := (replicate (fb_limbs2 F) 0, _)).
  assert (∀ k, (k ≤ fb_m F)%nat → mul_invariant F a b k (foldl (fb_mul_step a) s0 (seq 0 k))) as H.
  { induction k as [|k IH]; intros Hk.
    - destruct Hb as [[Hlb Hb] _]. pose proof (fb_limbs2_eq F). unfold mul_invariant, s0. cbn [foldl seq fst snd].
      change (2 ^ 0%nat) with 1. rewrite Z.mod_1_r, value_zeros, value_app, value_zeros, Z.shiftl_0_l, Z.lxor_0_r, Z.shiftl_0_r.
      repeat split; [apply limbs_ok_zeros..|rewrite length_app, length_replicate; lia|].
      apply Forall_app. split; [done|apply limbs_ok_zeros].
    - rewrite seq_S, foldl_app. cbn [foldl]. rewrite Nat.add_0_l. apply (fb_mul_step_ok F); try done. apply IH. lia. }
  destruct (H (fb_m F) ltac:(lia)) as (H1 & E & _). destruct Ha as [_ Hva], Hb as [_ Hvb].
  rewrite Z.mod_small in E by done. rewrite clmul_comm in E by (apply Hva || apply Hvb). split; [|done]. split; [done|].
  rewrite E. by apply fb_clmul_wide.
Qed.

(** ** The square *)

(** The bits of [x] that a bit of the spread word is made of. *)
Fixpoint spread_sources (lines : list (Z * Z)) (i : Z) : list Z :=
  match lines with
  | [] => [i]
  | (s, mask) :: lines => if Z.testbit mask i then spread_sources lines i ++ spread_sources lines (i - s) else []
  end.

Lemma spread_testbit lines x i :
  Forall (λ l : Z * Z, 0 ≤ l.1 ∧ u64_ok l.2) lines →
  Z.testbit (foldr (λ l x, spread_step x l) x lines) i = existsb (Z.testbit x) (spread_sources lines i).
Proof.
  intros Hl. revert i. induction Hl as [|[s mask] lines [Hs Hm] Hl IH]; intros i; cbn [foldr spread_sources existsb]; [by rewrite orb_false_r|].
  cbn [fst snd] in *. unfold spread_step at 1. cbn [fst snd]. rewrite Z.land_spec, Z.lor_spec. unfold shl.
  destruct (decide (i < 0)) as [Hi|Hi]; [by rewrite !Z.testbit_neg_r by lia|].
  destruct (Z.testbit mask i) eqn:Em; [|by rewrite andb_false_r].
  assert (i < 64).
  { apply word_ok_bits in Hm as [_ Hm]; [|lia]. destruct (decide (i < 64)); [done|]. by rewrite Hm in Em by lia. }
  rewrite andb_true_r, existsb_app, <- !IH, wrap_mod, Z.testbit_mod_pow2, Z.shiftl_spec by lia.
  by rewrite (proj2 (Z.ltb_lt i 64)) by lia.
Qed.

Definition spread_check : bool :=
  forallb (λ i, bool_decide (filter (λ j, 0 ≤ j < 32) (spread_sources (reverse spread_lines) i) = if Z.even i then [i / 2] else []))
    (seqZ 0 64).

Lemma spread_checked : spread_check = true.
Proof. vm_compute. reflexivity. Qed.

Lemma spread32to64_square x : word_ok 32 x → spread32to64 x = clmul x x.
Proof.
  intros Hx. apply Z.bits_inj'. intros i Hi. rewrite clmul_self_testbit by (apply Hx || done).
  assert (∀ j, ¬ 0 ≤ j < 32 → Z.testbit x j = false) as Hout.
  { intros j Hj. destruct (decide (j < 0)); [by apply Z.testbit_neg_r|]. apply word_ok_bits in Hx as [_ Hx]; [|lia]. apply Hx. lia. }
  assert (spread32to64 x = foldr (λ l x, spread_step x l) x (reverse spread_lines)) as -> by done.
  rewrite spread_testbit by (unfold spread_lines; repeat (constructor; [by_decision|]); constructor).
  destruct (decide (i < 64)) as [Hi'|Hi'].
  - assert (existsb (Z.testbit x) (spread_sources (reverse spread_lines) i) =
      existsb (Z.testbit x) (filter (λ j, 0 ≤ j < 32) (spread_sources (reverse spread_lines) i))) as ->.
    { induction (spread_sources _ i) as [|j l IH]; [done|]. rewrite filter_cons. cbn [existsb]. rewrite IH.
      destruct (decide (0 ≤ j < 32)) as [Hj|Hj]; [done|]. by rewrite (Hout j Hj). }
    pose proof spread_checked as Hc. unfold spread_check in Hc. rewrite forallb_forall in Hc.
    specialize (Hc i). rewrite bool_decide_eq_true in Hc. rewrite Hc by (apply list_elem_of_In, elem_of_seqZ; lia).
    destruct (Z.even i); cbn [existsb]; [by rewrite orb_false_r|done].
  - rewrite (Hout (i / 2)), andb_false_r.
    + assert (∀ s mask l, u64_ok mask → spread_sources ((s, mask) :: l) i = []) as Hh.
      { intros s mask l Hm. cbn [spread_sources]. apply word_ok_bits in Hm as [_ Hm]; [|lia]. by rewrite Hm by lia. }
      unfold spread_lines. change (reverse ?l) with (List.rev l) at 1. cbn [List.rev app]. rewrite Hh by by_decision. done.
    + pose proof (Z.div_le_lower_bound i 2 32). lia.
Qed.

Lemma nth_repeat_0 n j : (replicate n 0).[j] = 0.
Proof. revert j. induction n as [|n IH]; intros [|j]; [done..|]. apply IH. Qed.

Lemma word_halves w : u64_ok w → w = wrap 32 w ⊕ Z.shiftl (wrap 32 (Z.shiftr w 32)) 32.
Proof.
  intros Hw. rewrite !wrap_mod by lia. rewrite cat_add by (lia || by apply word_ok_mod). rewrite Z.shiftr_div_pow2 by lia.
  rewrite (Z.mod_small (w / _)); [pose proof (Z.div_mod w (2 ^ 32)); lia|]. apply (word_ok_shr 32 32 w) in Hw; [|lia..].
  by rewrite Z.shiftr_div_pow2 in Hw by lia.
Qed.

Lemma square_wide_ok F a : fb_ok F a → fb_wide_ok F (square_wide F a) ∧ value (square_wide F a) = clmul (value a) (value a).
Proof.
  intros [[Hla Ha] Hva]. unfold square_wide. set (stp := λ out i, _). set (z := replicate (fb_limbs2 F) 0).
  assert (∀ k, (k ≤ fb_limbs F)%nat → let out := foldl stp z (seq 0 k) in
    limbs_ok (fb_limbs2 F) out ∧ (∀ j, (2 * k ≤ j)%nat → out.[j] = 0) ∧ value out = clmul (value (take k a)) (value (take k a))) as H.
  { induction k as [|k IH]; intros Hk; cbv zeta.
    - split; [apply limbs_ok_zeros|]. split; [intros j _; apply nth_repeat_0|]. apply value_zeros.
    - rewrite seq_S, foldl_app, Nat.add_0_l. cbn [foldl]. destruct (IH ltac:(lia)) as ([Hl Hu] & Hz & E). set (o := foldl stp z (seq 0 k)) in *.
      pose proof (nth_u64_ok a k Ha) as Hw. pose proof (fb_limbs2_eq F).
      unfold stp. set (lo := wrap 32 (a.[k])). set (hi := wrap 32 (Z.shiftr (a.[k]) 32)).
      assert (word_ok 32 lo ∧ word_ok 32 hi) as [Hlo Hhi] by (split; by apply word_ok_wrap).
      assert (a.[k] = lo ⊕ Z.shiftl hi 32) as Ew by (by apply word_halves).
      rewrite !spread32to64_square by done.
      assert (<[(2 * k + 1)%nat := clmul hi hi]> (<[(2 * k)%nat := clmul lo lo]> o) = xor_at (2 * k + 1) (clmul hi hi) (xor_at (2 * k) (clmul lo lo) o)) as ->.
      { unfold xor_at. rewrite Hz, Z.lxor_0_l by lia. f_equal. rewrite nth_lookup, list_lookup_insert_ne, <- nth_lookup by lia.
        by rewrite Hz, Z.lxor_0_l by lia. }
      assert (∀ h, word_ok 32 h → u64_ok (clmul h h)) as Hsq.
      { intros h Hh. apply (word_ok_mono (32 + 31)); [lia|]. by apply clmul_bound; [lia..| |]. }
      split; [|split].
      + split; [by rewrite !length_xor_at|]. repeat apply xor_at_u64; auto.
      + intros j Hj. unfold xor_at. rewrite nth_lookup, !list_lookup_insert_ne, <- nth_lookup by lia. apply Hz. lia.
      + rewrite !value_xor_at by (rewrite ?length_xor_at; lia). rewrite E, value_take_S, Ew by lia.
        rewrite !clmul_self_lxor, !clmul_self_shl, !clmul_self_lxor, !clmul_self_shl by
          first [lia | apply Hlo | apply Hhi | apply Z.shiftl_nonneg, Hhi | apply value_nonneg, Forall_take, Ha
                | apply Z.shiftl_nonneg; rewrite <- Ew; apply Hw | rewrite <- Ew; apply Hw].
        rewrite !Z.shiftl_lxor, Z.shiftl_shiftl, Z.lxor_assoc by lia. do 2 f_equal; f_equal; lia. }
  destruct (H (fb_limbs F) ltac:(lia)) as (H1 & _ & H3). rewrite take_ge in H3 by lia. split; [|done]. split; [done|].
  rewrite H3. by apply fb_clmul_wide.
Qed.

(** ** The reductions *)

(** The reduction polynomials, without and with their leading term. *)
Definition fb_tail (F : fb) : Z := match F with Fb163 => 2 ^ 7 ⊕ 2 ^ 6 ⊕ 2 ^ 3 ⊕ 1 | Fb257 => 2 ^ 12 ⊕ 1 end.
Definition fb_f (F : fb) : Z := fb_tail F ⊕ 2 ^ fb_m F.

#[global] Instance fb_params F : Gf2Params (fb_m F) (fb_f F).
Proof. split; [apply fb_m_pos|]. destruct F; by_decision. Qed.

#[local] Notation "x ≡⟨ F ⟩ y" := (poly_eq (fb_f F) x y) (at level 70).

Section reduction.
Context (F : fb).

#[global] Instance fb_equiv : Equivalence (poly_eq (fb_f F)).
Proof. apply (poly_eq_equiv (fb_m F)); [pose proof (fb_m_pos F); lia|apply gp_f]. Qed.

#[global] Instance fb_lxor : Proper (poly_eq (fb_f F) ==> poly_eq (fb_f F) ==> poly_eq (fb_f F)) Z.lxor.
Proof. apply (poly_eq_lxor (fb_m F)); [pose proof (fb_m_pos F); lia|apply gp_f]. Qed.

Lemma fb_tail_eq : fb_f F ⊕ 2 ^ fb_m F = fb_tail F.
Proof. apply lxor_cancel_r. Qed.

(** A word above the degree is its product by the rest of the polynomial. *)
Lemma fb_fold x n : 0 ≤ x → 0 ≤ n → Z.shiftl x (fb_m F + n) ≡⟨F⟩ Z.shiftl (clmul x (fb_tail F)) n.
Proof.
  intros Hx Hn. pose proof (fb_m_pos F). rewrite <- Z.shiftl_shiftl, <- fb_tail_eq by lia.
  pose proof (gp_f (m := fb_m F) (f := fb_f F)) as Hf.
  apply (poly_eq_shl (fb_m F)); [lia|apply Hf|by apply Z.shiftl_nonneg|apply clmul_nonneg; [done|apply Hf]|done|].
  apply (poly_eq_high (fb_m F)); [lia|apply Hf|done].
Qed.

(** Replacing a word by what it folds to. *)
Lemma fb_replace v x y : x ≡⟨F⟩ y → v ⊕ x ⊕ y ≡⟨F⟩ v.
Proof. intros ->. by rewrite lxor_cancel_r. Qed.
End reduction.

Lemma clmul_tail_163 x : clmul x (fb_tail Fb163) = x ⊕ Z.shiftl x 3 ⊕ Z.shiftl x 6 ⊕ Z.shiftl x 7.
Proof.
  change (fb_tail Fb163) with 201. cbn [clmul clmul_pos]. rewrite !Z.shiftl_lxor, !Z.shiftl_shiftl by lia. by rewrite !Z.lxor_assoc.
Qed.

Lemma clmul_tail_257 x : clmul x (fb_tail Fb257) = x ⊕ Z.shiftl x 12.
Proof. change (fb_tail Fb257) with 4097. cbn [clmul clmul_pos]. by rewrite !Z.shiftl_shiftl by lia. Qed.

Lemma insert_xor_at (c : list Z) (i : nat) v : <[i := v]> c = xor_at i (c.[i] ⊕ v) c.
Proof. unfold xor_at. by rewrite <- Z.lxor_assoc, Z.lxor_nilpotent, Z.lxor_0_l. Qed.

Lemma nth_xor_at (c : list Z) (i j : nat) t : i ≠ j → (xor_at i t c).[j] = c.[j].
Proof. intros H. unfold xor_at. by rewrite nth_lookup, list_lookup_insert_ne, <- nth_lookup. Qed.

Lemma nth_xor_at_eq (c : list Z) (i : nat) t : (i < length c)%nat → (xor_at i t c).[i] = c.[i] ⊕ t.
Proof. intros H. unfold xor_at. by rewrite nth_lookup, list_lookup_insert_eq. Qed.

Lemma limbs_ok_xor_at n i t c : u64_ok t → limbs_ok n c → limbs_ok n (xor_at i t c).
Proof. intros Ht [Hl Hc]. split; [by rewrite length_xor_at|by apply xor_at_u64]. Qed.

Lemma shr_u64 w n : 0 ≤ n → u64_ok w → u64_ok (Z.shiftr w n).
Proof. intros Hn Hw. apply word_ok_shr; [lia..|]. apply (word_ok_mono 64); [lia|done]. Qed.

#[local] Hint Resolve shr_u64 shl_u64 nth_limb_ok : uacrypt.

Lemma reduce_word_163_ok c (j : nat) :
  limbs_ok 6 c → (3 ≤ j < 6)%nat →
  limbs_ok 6 (reduce_word_163 c j) ∧ value (reduce_word_163 c j) ≡⟨Fb163⟩ value c ∧
  ∀ k, (j ≤ k)%nat → ((j < k)%nat → c.[k] = 0) → (reduce_word_163 c j).[k] = 0.
Proof.
  intros Hc Hj. pose proof (nth_limb_ok 6 c j Hc) as Hz. unfold reduce_word_163. rewrite insert_xor_at, Z.lxor_0_r. set (zz := c.[j]) in *.
  set (A := Z.shiftr zz 28 ⊕ _ ⊕ _ ⊕ _). set (B := shl 64 zz 36 ⊕ _ ⊕ _ ⊕ _).
  assert (u64_ok A ∧ u64_ok B) as [HA HB] by (split; repeat apply word_ok_lxor; auto with uacrypt).
  split; [by repeat apply limbs_ok_xor_at|]. split.
  - destruct Hc as [Hl Hu].
    rewrite !value_xor_at by (rewrite ?length_xor_at; lia).
    assert (A ≪ (64 * (j - 2)%nat) ⊕ B ≪ (64 * (j - 3)%nat) = Z.shiftl (clmul zz (fb_tail Fb163)) (29 + 64 * (j - 3)%nat)) as E.
    { assert (Z.shiftl (clmul zz (fb_tail Fb163)) 29 = zz ≪ 29 ⊕ zz ≪ 32 ⊕ zz ≪ 35 ⊕ zz ≪ 36) as E0 by
        (by rewrite clmul_tail_163, !Z.shiftl_lxor, !Z.shiftl_shiftl by lia).
      rewrite <- Z.shiftl_shiftl, E0 by lia. replace (64 * (j - 2)%nat) with (64 + 64 * (j - 3)%nat) by lia.
      rewrite <- (Z.shiftl_shiftl A), <- Z.shiftl_lxor by lia. f_equal. unfold A, B.
      rewrite (split_shift zz 36), (split_shift zz 35), (split_shift zz 32), (split_shift zz 29), !Z.shiftl_lxor by lia.
      change (64 - 36) with 28. change (64 - 35) with 29. change (64 - 32) with 32. change (64 - 29) with 35. bitwise. }
    rewrite !Z.lxor_assoc, <- (Z.lxor_assoc (value c)), E. apply fb_replace.
    replace (64 * j) with (fb_m Fb163 + (29 + 64 * (j - 3)%nat)) by (change (Z.of_nat (fb_m Fb163)) with 163; lia). apply fb_fold; [apply Hz|lia].
  - intros k Hk Hk0. rewrite !nth_xor_at by lia. destruct (decide (j = k)) as [<-|].
    + rewrite nth_xor_at_eq by (destruct Hc; lia). apply Z.lxor_nilpotent.
    + rewrite nth_xor_at by done. apply Hk0. lia.
Qed.

(** The bits above a position move out and back in. *)
Lemma shl_shr_low w s : 0 ≤ s ≤ 64 → Z.shiftr (shl 64 w s) s = w mod 2 ^ (64 - s).
Proof.
  intros Hs. unfold shl. rewrite wrap_mod by lia. apply Z.bits_inj'. intros i Hi.
  rewrite Z.shiftr_spec, !Z.testbit_mod_pow2, Z.shiftl_spec by lia. replace (i + s - s) with i by lia. f_equal.
  destruct (Z.ltb_spec (i + s) 64), (Z.ltb_spec i (64 - s)); (done || lia).
Qed.

Lemma split_low w s : 0 ≤ s → w mod 2 ^ s ⊕ Z.shiftl (Z.shiftr w s) s = w.
Proof.
  intros Hs. rewrite cat_add, Z.shiftr_div_pow2 by (done || by apply word_ok_mod). pose proof (Z.div_mod w (2 ^ s)).
  pose proof (Z.pow_pos_nonneg 2 s). lia.
Qed.

Lemma shl_exact n w s : 0 ≤ n → 0 ≤ s → n + s ≤ 64 → word_ok n w → shl 64 w s = Z.shiftl w s.
Proof. intros Hn Hs Hle Hw. apply wrap_id; [lia|]. apply (word_ok_mono (n + s)); [done|]. by apply word_ok_shl. Qed.

Lemma cleanup_163_ok c :
  limbs_ok 6 c →
  limbs_ok 6 (cleanup_163 c) ∧ value (cleanup_163 c) ≡⟨Fb163⟩ value c ∧ word_ok 35 ((cleanup_163 c).[2]) ∧
  ∀ k, (3 ≤ k)%nat → (cleanup_163 c).[k] = c.[k].
Proof.
  intros Hc. pose proof (nth_limb_ok 6 c 2 Hc) as Hw. unfold cleanup_163. rewrite shl_shr_low by lia. change (64 - 29) with 35.
  rewrite insert_xor_at. set (w := c.[2]) in *. set (o := Z.shiftr w 35).
  assert (word_ok 29 o) as Ho by (by apply word_ok_shr).
  assert (w ⊕ w mod 2 ^ 35 = Z.shiftl o 35) as E by (rewrite <- (split_low w 35) at 1 by lia; fold o; bitwise).
  rewrite E, !(shl_exact 29 o) by (lia || done). rewrite <- clmul_tail_163. set (t := clmul o (fb_tail Fb163)).
  assert (u64_ok (Z.shiftl o 35)) as H1 by (by apply (word_ok_shl 29 35)).
  assert (u64_ok t) as H2 by (apply (word_ok_mono (29 + 7)); [lia|]; apply clmul_bound; [lia..|done|by_decision]).
  split; [by repeat apply limbs_ok_xor_at|]. destruct Hc as [Hl Hu]. split; [|split].
  - rewrite !value_xor_at by (rewrite ?length_xor_at; lia). change (64 * 0%nat) with 0. rewrite (Z.shiftl_shiftl o) by lia. apply fb_replace.
    change (35 + 64 * 2%nat) with (fb_m Fb163 + 0). apply fb_fold; [apply Ho|lia].
  - rewrite nth_xor_at, nth_xor_at_eq by lia. fold w. rewrite <- E, <- Z.lxor_assoc, Z.lxor_nilpotent, Z.lxor_0_l. apply word_ok_mod. lia.
  - intros k Hk. by rewrite !nth_xor_at by lia.
Qed.

Lemma length_6_inv {A} (l : list A) : length l = 6%nat → ∃ a b c d e f, l = [a; b; c; d; e; f].
Proof. intros H. do 6 (destruct l as [|? l]; [done|]). destruct l; [by repeat eexists|done]. Qed.

Lemma reduce_163_ok c : limbs_ok 6 c → fb_ok Fb163 (reduce_163 c) ∧ value (reduce_163 c) ≡⟨Fb163⟩ value c.
Proof.
  intros Hc. unfold reduce_163. cbn [foldl]. change (Nat.iter 2 cleanup_163 ?x) with (cleanup_163 (cleanup_163 x)).
  destruct (reduce_word_163_ok c 5) as (H5 & E5 & Z5); [done|lia|]. set (c5 := reduce_word_163 c 5) in *.
  destruct (reduce_word_163_ok c5 4) as (H4 & E4 & Z4); [done|lia|]. set (c4 := reduce_word_163 c5 4) in *.
  destruct (reduce_word_163_ok c4 3) as (H3 & E3 & Z3); [done|lia|]. set (c3 := reduce_word_163 c4 3) in *.
  destruct (cleanup_163_ok c3) as (H2 & E2 & _ & Z2); [done|]. set (c2 := cleanup_163 c3) in *.
  destruct (cleanup_163_ok c2) as (H1 & E1 & W1 & Z1); [done|]. set (c1 := cleanup_163 c2) in *.
  assert (∀ k, (3 ≤ k < 6)%nat → c1.[k] = 0) as Hz.
  { intros k Hk. rewrite Z1, Z2 by lia. apply Z3; [lia|]. intros. apply Z4; [lia|]. intros. apply Z5; lia. }
  clearbody c1. destruct H1 as [Hl Hu]. apply length_6_inv in Hl as (a0 & a1 & a2 & a3 & a4 & a5 & ->).
  pose proof (Hz 3%nat ltac:(lia)) as Ha3. pose proof (Hz 4%nat ltac:(lia)) as Ha4. pose proof (Hz 5%nat ltac:(lia)) as Ha5.
  cbn [nth] in *. subst a3 a4 a5. split_Forall.
  assert (value [a0; a1; a2; 0; 0; 0] = value [a0; a1; a2]) as Ev by done. rewrite Ev in E1.
  split; [|by rewrite E1, E2, E3, E4, E5]. split; [split; [done|by repeat first [apply Forall_nil_2 | apply Forall_cons_2]]|].
  cbn [value]. rewrite Z.shiftl_0_l, Z.lxor_0_r. apply (word_ok_cat 64 99); [lia..|done|]. by apply (word_ok_cat 64 35).
Qed.

(** The array shifted right, in [n] limbs. *)
Lemma value_shift_right c (k n s : nat) :
  Forall u64_ok c → (0 < s < 64)%nat →
  let h := map (λ i, Z.lor (Z.shiftr (c.[i + k]) s) (shl 64 (c.[i + (k + 1)]) (64 - s)%nat)) (seq 0 n) in
  Forall u64_ok h ∧ value h = Z.shiftr (value c) (64 * k + s) mod 2 ^ (64 * n).
Proof.
  intros Hc Hs. cbv zeta. set (h := map _ _). assert (Forall u64_ok h) as Hh.
  { apply Forall_fmap, Forall_forall. intros i _. apply word_ok_lor; [lia|apply shr_u64; [lia|by apply nth_u64_ok]|apply shl_u64]. }
  split; [done|]. assert (length h = n) as Hl by (unfold h; by rewrite length_map, length_seq).
  apply Z.bits_inj'. intros i Hi. rewrite Z.testbit_mod_pow2, Z.shiftr_spec by lia.
  pose proof (value_bound h Hh) as Hb. rewrite Hl in Hb. destruct (Z.ltb_spec i (64 * n)) as [Hin|Hin]; cbn [andb].
  2: { apply word_ok_bits in Hb as [_ Hb]; [|lia]. by apply Hb. }
  rewrite <- (Z2Nat.id i) at 1 2 by lia. set (d := Z.to_nat i). replace (Z.of_nat d + (64 * k + s)) with (Z.of_nat (d + 64 * k + s)) by lia.
  rewrite !testbit_value by done. pose proof (Nat.div_mod_eq d 64). set (q := (d / 64)%nat) in *. set (r := (d mod 64)%nat) in *.
  assert (r < 64)%nat by (apply Nat.mod_upper_bound; lia). assert (q < n)%nat by lia.
  assert (h.[q] = Z.lor (Z.shiftr (c.[q + k]) s) (shl 64 (c.[q + (k + 1)]) (64 - s)%nat)) as ->.
  { unfold h. rewrite nth_lookup, map_fmap, list_lookup_fmap, lookup_seq_lt by lia. done. }
  rewrite Z.lor_spec, Z.shiftr_spec by lia. unfold shl. rewrite wrap_mod, Z.testbit_mod_pow2, Z.shiftl_spec by lia.
  rewrite (proj2 (Z.ltb_lt r 64)) by lia. cbn [andb]. destruct (decide (r + s < 64)%nat).
  - assert ((d + 64 * k + s) / 64 = q + k)%nat as -> by (symmetry; apply (Nat.div_unique _ _ _ (r + s)); lia).
    assert ((d + 64 * k + s) mod 64 = r + s)%nat as -> by (symmetry; apply (Nat.mod_unique _ _ (q + k)); lia).
    rewrite (Z.testbit_neg_r _ (r - _)), orb_false_r by lia. f_equal. lia.
  - assert ((d + 64 * k + s) / 64 = q + (k + 1))%nat as -> by (symmetry; apply (Nat.div_unique _ _ _ (r + s - 64)); lia).
    assert ((d + 64 * k + s) mod 64 = r + s - 64)%nat as -> by (symmetry; apply (Nat.mod_unique _ _ (q + (k + 1))); lia).
    pose proof (nth_u64_ok c (q + k) Hc) as Hw. apply word_ok_bits in Hw as [_ Hw]; [|lia]. rewrite Hw by lia. cbn [orb]. f_equal. lia.
Qed.

(** The low bits of an array: the limbs below, and a part of the next one. *)
Lemma value_low c (k s : nat) :
  Forall u64_ok c → (k < length c)%nat → (s ≤ 64)%nat →
  value (take k c ++ [c.[k] mod 2 ^ s]) = value c mod 2 ^ (64 * k + s).
Proof.
  intros Hc Hk Hs. rewrite value_app, length_take, Nat.min_l by lia. cbn [value]. rewrite Z.shiftl_0_l, Z.lxor_0_r.
  assert (value c mod 2 ^ (64 * k + s) = value (take (S k) c) mod 2 ^ (64 * k + s)) as ->.
  { rewrite value_take by done. rewrite Nat.min_l by lia. symmetry. apply Z.mod_mod_divide.
    exists (2 ^ (64 - s)). rewrite <- Z.pow_add_r by lia. f_equal. lia. }
  rewrite value_take_S by done. symmetry. apply cat_mod; [lia..|]. pose proof (value_bound (take k c)) as Hb.
  rewrite length_take, Nat.min_l in Hb by lia. by apply Hb, Forall_take.
Qed.

Lemma fold_257 v h n : word_ok n h → 0 ≤ n → v ⊕ Z.shiftl h 257 ⊕ (h ⊕ Z.shiftl h 12) ≡⟨Fb257⟩ v.
Proof.
  intros Hh Hn. rewrite <- clmul_tail_257. apply fb_replace. change 257 with (fb_m Fb257 + 0).
  etrans; [apply fb_fold; [apply Hh|done]|]. by rewrite Z.shiftl_0_r.
Qed.

(** The second pass. *)
Lemma cleanup_257_ok p0 p1 p2 p3 p4 :
  let p := [p0; p1; p2; p3; p4] in
  Forall u64_ok p → word_ok 268 (value p) →
  let r := xor_at 0 (Z.shiftr p4 1 ⊕ shl 64 (Z.shiftr p4 1) 12) [p0; p1; p2; p3; Z.land p4 1] in
  fb_ok Fb257 r ∧ value r ≡⟨Fb257⟩ value p.
Proof.
  cbv zeta. intros Hp Hv. set (p := [p0; p1; p2; p3; p4]) in *. set (h2 := Z.shiftr p4 1).
  assert (value p = value [p0; p1; p2; p3] ⊕ Z.shiftl p4 256) as Ep by (change p with ([p0; p1; p2; p3] ++ [p4]); rewrite value_app; change (value [p4]) with (p4 ⊕ Z.shiftl 0 64); by rewrite Z.shiftl_0_l, Z.lxor_0_r).
  assert (word_ok 256 (value [p0; p1; p2; p3])) as Hlo by (pose proof (value_bound (take 4 p)) as Hb; by apply Hb, Forall_take).
  assert (word_ok 12 p4) as H4 by (rewrite <- (cat_high 256 (value [p0; p1; p2; p3]) p4), <- Ep by (lia || exact Hlo); apply (word_ok_shr 12 256); (lia || exact Hv)).
  assert (word_ok 11 h2) as Hh by (by apply (word_ok_shr 11 1)). pose proof (split_low p4 1 ltac:(lia)) as E4. fold h2 in E4.
  rewrite (shl_exact 11 h2 12) by (lia || done). set (t := h2 ⊕ Z.shiftl h2 12).
  assert (word_ok 23 t) as Ht by (apply word_ok_lxor; [lia|by apply (word_ok_mono 11)|by apply (word_ok_shl 11 12)]).
  set (low := [p0; p1; p2; p3; Z.land p4 1]). assert (value low = value p mod 2 ^ 257) as El.
  { pose proof (value_low p 4 1 Hp ltac:(simpl; lia) ltac:(lia)) as E. change (2 ^ 1%nat) with (2 ^ 1) in E. rewrite <- Z.land_ones in E by lia. exact E. }
  assert (limbs_ok 5 low) as Hlw.
  { unfold p in Hp. split_Forall. split; [done|]. repeat first [apply Forall_nil_2 | apply Forall_cons_2; [try done|]]. apply word_ok_land; [lia|done|lia]. }
  rewrite value_xor_at by (simpl; lia). change (64 * 0%nat) with 0. rewrite Z.shiftl_0_r. split.
  - split; [apply limbs_ok_xor_at; [by apply (word_ok_mono 23)|done]|]. rewrite value_xor_at by (simpl; lia). change (64 * 0%nat) with 0.
    rewrite Z.shiftl_0_r, El. apply word_ok_lxor; [lia|by apply word_ok_mod|by apply (word_ok_mono 23)].
  - assert (value p = value low ⊕ Z.shiftl h2 257) as ->.
    { rewrite El, <- (split_low (value p) 257) at 1 by lia. do 2 f_equal. rewrite Ep, Z.shiftr_lxor.
      change 257 with (256 + 1) at 1 2. rewrite <- !Z.shiftr_shiftr, (shiftr_small 256), Z.shiftr_0_l, Z.lxor_0_l by (lia || exact Hlo).
      by rewrite Z.shiftr_shiftl_l, Z.sub_diag, Z.shiftl_0_r by lia. }
    symmetry. etrans; [|apply (fold_257 _ h2 11); [done|lia]].
    assert (value low ⊕ t ⊕ Z.shiftl h2 257 ⊕ (h2 ⊕ Z.shiftl h2 12) = value low ⊕ Z.shiftl h2 257) as -> by (fold t; bitwise). done.
Qed.

Lemma reduce_257_ok c : fb_wide_ok Fb257 c → fb_ok Fb257 (reduce_257 c) ∧ value (reduce_257 c) ≡⟨Fb257⟩ value c.
Proof.
  intros [[Hl Hu] Hv]. change (2 * fb_m Fb257 - 1) with 513 in Hv. simpl in Hl. unfold reduce_257.
  destruct (value_shift_right c 4 5 1 Hu ltac:(lia)) as [Hh Eh]. cbn [Nat.add] in Eh, Hh.
  set (h1 := map _ (seq 0 5)) in *. change (64 * 4%nat + 1%nat) with 257 in Eh. change (64 * 5%nat) with 320 in Eh.
  assert (word_ok 256 (Z.shiftr (value c) 257)) as Hhb by (by apply word_ok_shr).
  rewrite Z.mod_small in Eh by (apply (word_ok_mono 256 320); [lia|done]). set (v := value c) in *. set (h := Z.shiftr v 257) in *.
  set (lo1 := [_; _; _; _; _]). assert (value lo1 = v mod 2 ^ 257) as El.
  { pose proof (value_low c 4 1 Hu ltac:(lia) ltac:(lia)) as E. change (2 ^ 1%nat) with (2 ^ 1) in E. rewrite <- Z.land_ones in E by lia.
    etrans; [|exact E]. unfold lo1. f_equal. clear -Hl. do 10 (destruct c as [|? c]; [done|]). done. }
  set (hs := _ :: map _ (seq 1 4)).
  assert (hs = shift_loop 12 0 h1) as Ehs by (unfold hs; cbn [shift_loop]; unfold h1; cbn [map seq nth shift_loop]; by rewrite Z.lor_0_r).
  destruct (shift_loop_exact 12 h1 256) as [Hsu Hsv]; [lia|done|by rewrite Eh|lia|simpl; lia|]. rewrite <- Ehs, Eh in *.
  assert (Forall u64_ok lo1) as Hlo.
  { pose proof (λ i, nth_u64_ok c i Hu) as Hn. unfold lo1. repeat first [apply Forall_nil_2 | apply Forall_cons_2; [try apply Hn|]]. apply word_ok_land; [lia|apply Hn|lia]. }
  set (pass1 := map _ (seq 0 5)). assert (pass1 = xor_into (xor_into lo1 h1) hs) as Ep by done.
  destruct (value_xor_into lo1 h1) as [E1 U1]; [done|done|done|]. destruct (value_xor_into (xor_into lo1 h1) hs) as [E2 U2]; [done|done|done|].
  rewrite <- Ep in *. assert (value pass1 = v mod 2 ^ 257 ⊕ (h ⊕ Z.shiftl h 12)) as Ev by (by rewrite E2, E1, El, Eh, Hsv, Z.lxor_assoc).
  assert (word_ok 268 (value pass1)) as Hpv.
  { rewrite Ev. repeat apply word_ok_lxor; [lia|apply (word_ok_mono 257); [lia|by apply word_ok_mod]|lia|by apply (word_ok_mono 256)|by apply (word_ok_shl 256 12)]. }
  assert (value pass1 ≡⟨Fb257⟩ v) as Hc.
  { rewrite Ev. etrans; [symmetry; apply (fold_257 _ h 256); [done|lia]|].
    assert (v mod 2 ^ 257 ⊕ (h ⊕ Z.shiftl h 12) ⊕ Z.shiftl h 257 ⊕ (h ⊕ Z.shiftl h 12) = v) as ->; [|done].
    trans (v mod 2 ^ 257 ⊕ Z.shiftl h 257); [bitwise|apply split_low; lia]. }
  destruct (cleanup_257_ok (pass1.[0]) (pass1.[1]) (pass1.[2]) (pass1.[3]) (pass1.[4])) as [H1 H2]; [exact U2|exact Hpv|].
  split; [exact H1|]. etrans; [exact H2|exact Hc].
Qed.

Lemma fb_reduce_ok F c : fb_wide_ok F c → fb_ok F (fb_reduce F c) ∧ value (fb_reduce F c) ≡⟨F⟩ value c.
Proof. destruct F; [intros [Hc _]; by apply reduce_163_ok|apply reduce_257_ok]. Qed.

(** ** Elements and the field *)

Abbreviation fb_field F := (gf2m (fb_m F) (fb_f F)).

(** The array is the canonical form of the element. *)
Definition fb_rep (F : fb) (e : list Z) (k : fb_field F) : Prop := fb_ok F e ∧ value e = proj1_sig k.

Lemma fb_rep_exists F e : fb_ok F e → ∃ k, fb_rep F e k.
Proof. intros He. destruct He as [Hl Hv] eqn:E. exists (dexist (value e) Hv). by split. Qed.

Lemma fb_rep_inj F e k k' : fb_rep F e k → fb_rep F e k' → k = k'.
Proof. intros [_ E] [_ E']. apply gf2m_eq. by rewrite <- E, <- E'. Qed.

Lemma fb_rep_eq F e e' k : fb_rep F e k → fb_rep F e' k → e = e'.
Proof.
  intros [[[Hl Hu] _] E] [[[Hl' Hu'] _] E']. apply value_inj; [by rewrite Hl, Hl'|done|done|]. by rewrite E, E'.
Qed.

Lemma fb_rep_iff F e e' k k' : fb_rep F e k → fb_rep F e' k' → e = e' ↔ k = k'.
Proof. intros H H'. split; [intros ->; by apply (fb_rep_inj F e')|intros ->; by apply (fb_rep_eq F _ _ k')]. Qed.

#[local] Open Scope binary_field_scope.

Lemma fb_rep_zero F : fb_rep F (fb_ZERO F) (0 : fb_field F).
Proof. destruct F; (split; [by_decision|done]). Qed.

Lemma fb_rep_one F : fb_rep F (fb_ONE F) (1 : fb_field F).
Proof. destruct F; (split; [by_decision|done]). Qed.

Lemma fb_add_xor F a b : fb_ok F a → fb_ok F b → fb_add F a b = xor_into a b.
Proof.
  intros [[Hla _] _] [[Hlb _] _]. unfold fb_add, xor_into. rewrite zip_mut_zip_with by lia. apply list_eq. intros i.
  rewrite map_fmap, list_lookup_fmap, lookup_zip_with. destruct (decide (i < fb_limbs F)%nat) as [Hi|Hi].
  - rewrite lookup_seq_lt by done. destruct (lookup_lt_is_Some_2 a i) as [x Ex]; [lia|]. destruct (lookup_lt_is_Some_2 b i) as [y Ey]; [lia|].
    rewrite Ex, Ey. cbn. by rewrite !nth_lookup, Ex, Ey.
  - rewrite lookup_seq_ge, (lookup_ge_None_2 a) by lia. done.
Qed.

Lemma fb_rep_add F a b k l : fb_rep F a k → fb_rep F b l → fb_rep F (fb_add F a b) (k + l).
Proof.
  intros [Ha Ea] [Hb Eb]. rewrite (fb_add_xor F) by done. destruct Ha as [[Hla Ha] Hva], Hb as [[Hlb Hb] Hvb].
  destruct (value_xor_into a b) as [E Hu]; [lia|done|done|]. split; [|rewrite E, Ea, Eb; done].
  split; [split; [unfold xor_into; by rewrite length_zip_mut|done]|]. rewrite E. apply word_ok_lxor; [lia|done|done].
Qed.

Lemma fb_rep_product F a b k l c :
  fb_rep F a k → fb_rep F b l → fb_wide_ok F c → value c = clmul (value a) (value b) → fb_rep F (fb_reduce F c) (k * l).
Proof.
  intros [Ha Ea] [Hb Eb] Hc E. destruct (fb_reduce_ok F c Hc) as [Hr Er]. split; [done|].
  change (proj1_sig (k * l)) with (gmul (fb_m F) (fb_f F) (proj1_sig k) (proj1_sig l)). rewrite <- Ea, <- Eb. symmetry.
  pose proof (gp_m (m := fb_m F) (f := fb_f F)). apply gmul_eq; [done|apply gp_f|apply Ha|apply Hb|apply Hr|]. by rewrite Er, E.
Qed.

Lemma fb_rep_mul fa F a b k l : fb_rep F a k → fb_rep F b l → fb_rep F (fb_multiply fa F a b) (k * l).
Proof.
  intros Ha Hb. pose proof (proj1 Ha) as Hoa. pose proof (proj1 Hb) as Hob. unfold fb_multiply. destruct fa.
  - destruct (fb_poly_mul_wide_hw_ok F a b Hoa Hob). by apply (fb_rep_product F a b).
  - destruct (fb_poly_mul_wide_ok F a b Hoa Hob). by apply (fb_rep_product F a b).
Qed.

Lemma fb_rep_square F a k : fb_rep F a k → fb_rep F (fb_square F a) (k * k).
Proof. intros Ha. destruct (square_wide_ok F a (proj1 Ha)). by apply (fb_rep_product F a a). Qed.

(** ** The inverse *)

Lemma fb_rep_sq_n F x k n : fb_rep F x k → fb_rep F (sq_n F x n) (frob (fb_m F) (fb_f F) n k).
Proof. intros Hx. unfold sq_n. induction n as [|n IH]; [done|]. rewrite frob_S. cbn [Nat.iter nat_rect]. by apply fb_rep_square. Qed.

(** A step of an addition chain. *)
Lemma fb_rep_chain fa F x y k (i j : nat) :
  fb_rep F x (tpow (fb_m F) (fb_f F) k i) → fb_rep F y (tpow (fb_m F) (fb_f F) k j) →
  fb_rep F (fb_multiply fa F (sq_n F x j) y) (tpow (fb_m F) (fb_f F) k (i + j)).
Proof. intros Hx Hy. rewrite tpow_add. apply fb_rep_mul; [by apply fb_rep_sq_n|done]. Qed.

Lemma fb_rep_tpow_1 F x k : fb_rep F x k → fb_rep F x (tpow (fb_m F) (fb_f F) k 1).
Proof.
  intros Hx. change (tpow _ _ k 1) with (k * (1 * 1)). destruct (gf2m_ring (fb_m F) (fb_f F)) as [_ _ _ M1 Mc _ _ _ _].
  by rewrite M1, Mc, M1.
Qed.

Lemma fb_rep_inv fa F a k : fb_rep F a k → fb_rep F (fb_invert fa F a) (finv k).
Proof.
  intros Ha. rewrite finv_tpow. pose proof (fb_rep_tpow_1 F a k Ha) as H1. destruct F; cbn [fb_invert]; unfold invert_163, invert_257; cbv zeta; apply fb_rep_square.
  - change (fb_square Fb163 a) with (sq_n Fb163 a 1).
    pose proof (fb_rep_chain fa _ _ _ k 1 1 H1 H1) as H2. pose proof (fb_rep_chain fa _ _ _ k 2 1 H2 H1) as H3.
    pose proof (fb_rep_chain fa _ _ _ k 3 3 H3 H3) as H6. pose proof (fb_rep_chain fa _ _ _ k 6 6 H6 H6) as H12.
    pose proof (fb_rep_chain fa _ _ _ k 12 12 H12 H12) as H24. pose proof (fb_rep_chain fa _ _ _ k 24 3 H24 H3) as H27.
    pose proof (fb_rep_chain fa _ _ _ k 27 27 H27 H27) as H54. pose proof (fb_rep_chain fa _ _ _ k 54 27 H54 H27) as H81.
    exact (fb_rep_chain fa _ _ _ k 81 81 H81 H81).
  - pose proof (fb_rep_chain fa _ _ _ k 1 1 H1 H1) as H2. pose proof (fb_rep_chain fa _ _ _ k 2 2 H2 H2) as H4.
    pose proof (fb_rep_chain fa _ _ _ k 4 4 H4 H4) as H8. pose proof (fb_rep_chain fa _ _ _ k 8 8 H8 H8) as H16.
    pose proof (fb_rep_chain fa _ _ _ k 16 16 H16 H16) as H32. pose proof (fb_rep_chain fa _ _ _ k 32 32 H32 H32) as H64.
    pose proof (fb_rep_chain fa _ _ _ k 64 64 H64 H64) as H128. exact (fb_rep_chain fa _ _ _ k 128 128 H128 H128).
Qed.

(** ** The rings are fields *)

(** What [Gf2Eval.v] needs of the tails. *)
Definition tail_size (F : fb) : Z := match F with Fb163 => 7 | Fb257 => 12 end.

Lemma tail_word F : word_ok (tail_size F + 1) (fb_tail F).
Proof. destruct F; by_decision. Qed.

Lemma tail_small F : 0 ≤ tail_size F ∧ 2 * tail_size F ≤ fb_m F.
Proof. destruct F; simpl; lia. Qed.

Lemma fermat_evaluated F : Nat.iter (fb_m F) (gsquare_fast (fb_m F) (fb_tail F)) 2%Z = 2%Z.
Proof. destruct F; vm_compute; reflexivity. Qed.

Definition unit_inverse (F : fb) : Z :=
  match F with
  | Fb163 => 0x3ffffffffffffffffffffffffffffffffffffffdc
  | Fb257 => 0xfffffffffffffffffffffffffffffffffffffffffffffffffffffffffffff800
  end.

#[global] Instance fb_checks F : Gf2Checks (fb_m F) (fb_f F).
Proof.
  split.
  - destruct F; [apply prime_163|apply prime_257].
  - rewrite Nat2Z.id. pose proof (gsquares_ok (fb_m F) (fb_f F) _ (fb_tail F) (tail_size F) (fb_tail_eq F) (tail_word F)) as E.
    destruct (tail_small F) as [H1 H2]. specialize (E H1 H2 (fb_m F) (Gf2Field.gx (fb_m F) (fb_f F))).
    etrans; [symmetry; exact E|]. apply fermat_evaluated.
  - exists (unit_inverse F). destruct F; (split; [by_decision|vm_compute; reflexivity]).
Qed.

#[global] Instance fb_is_field F : BinaryField (fb_field F) := gf2m_field (fb_m F) (fb_f F) (fb_checks F).

(** ** Encodings *)

#[local] Close Scope binary_field_scope.

Lemma fb_bytes_le F : (fb_bytes F ≤ 8 * fb_limbs F)%nat.
Proof. destruct F; simpl; lia. Qed.

Lemma fb_m_bytes F : fb_m F ≤ 8 * fb_bytes F ∧ 8 * fb_bytes F ≤ 64 * fb_limbs F.
Proof. destruct F; simpl; lia. Qed.

Lemma fb_from_be_bytes_ok F bytes :
  array_ok (fb_bytes F) bytes →
  limbs_ok (fb_limbs F) (fb_from_be_bytes F bytes) ∧ value (fb_from_be_bytes F bytes) = from_be_bytes bytes.
Proof.
  intros [Hl Hb]. destruct (pack_be_bytes_ok (fb_limbs F) bytes) as (l & E & Hok & Hv); [done|rewrite Hl; apply fb_bytes_le|].
  unfold fb_from_be_bytes. rewrite E. split; [done|]. by rewrite value_limbs_val by apply Hok.
Qed.

Lemma fb_to_be_bytes_ok F e : limbs_ok (fb_limbs F) e → fb_to_be_bytes F e = to_be_bytes (fb_bytes F) (value e).
Proof. intros He. unfold fb_to_be_bytes. rewrite (unpack_be_bytes_ok (fb_limbs F)) by done. by rewrite value_limbs_val by apply He. Qed.

Lemma fb_from_to_be_bytes F e : fb_ok F e → fb_from_be_bytes F (fb_to_be_bytes F e) = e.
Proof.
  intros [He Hv]. rewrite fb_to_be_bytes_ok by done. destruct (fb_from_be_bytes_ok F (to_be_bytes (fb_bytes F) (value e))) as [[Hl Hu] E]; [apply to_be_bytes_ok|].
  apply value_inj; [destruct He; congruence|done|apply He|]. rewrite E. apply from_to_be_bytes. apply (word_ok_mono (fb_m F)); [apply fb_m_bytes|done].
Qed.

(** An array of the right length is an element exactly when the test accepts it. *)
Lemma is_canonical_spec F e : limbs_ok (fb_limbs F) e → is_canonical F e = true ↔ word_ok (fb_m F) (value e).
Proof.
  intros [Hl Hu]. assert (∀ (k s : nat), S k = fb_limbs F → fb_m F = (64 * k + s)%nat → (s ≤ 64)%nat → Z.shiftr (e.[k]) s = 0 ↔ word_ok (fb_m F) (value e)) as H.
  { intros k s Hk Em Hs. assert (word_ok (64 * k) (value (take k e))) as Ht.
    { pose proof (value_bound (take k e)) as Hb. rewrite length_take, Nat.min_l in Hb by lia. by apply Hb, Forall_take. }
    assert (Z.shiftr (value e) (64 * k + s) = Z.shiftr (e.[k]) s) as <-.
    { rewrite <- (take_ge e (S k)) at 1 by lia. rewrite value_take_S, <- Z.shiftr_shiftr, cat_high by first [lia | done]. done. }
    rewrite Z.shiftr_div_pow2, Em by lia. replace (Z.of_nat (64 * k + s)) with (64 * k + s) by lia.
    pose proof (value_nonneg e Hu). pose proof (Z.pow_pos_nonneg 2 (64 * k + s)). unfold word_ok.
    rewrite Z.div_small_iff by lia. lia. }
  destruct F; cbn [is_canonical]; rewrite Z.eqb_eq; [apply (H 2 35)%nat|apply (H 4 1)%nat]; simpl; lia.
Qed.

(** ** Theorems *)

#[local] Open Scope binary_field_scope.

(** The operations on canonical arrays are those of the field GF(2^m), on both paths of the product; the square is
    the product by itself, the inverse is the inverse (and zero for zero), and the bytes determine the element. *)
Theorem fb_operations (fa : bool) (F : fb) (a b : list Z) (k l : fb_field F) :
  fb_rep F a k → fb_rep F b l →
  fb_rep F (fb_add F a b) (k + l) ∧ fb_rep F (fb_multiply fa F a b) (k * l) ∧
  fb_multiply true F a b = fb_multiply false F a b ∧ fb_square F a = fb_multiply fa F a a ∧
  (if decide (a = fb_ZERO F) then fb_invert fa F a = fb_ZERO F else fb_multiply fa F a (fb_invert fa F a) = fb_ONE F) ∧
  fb_from_be_bytes F (fb_to_be_bytes F a) = a.
Proof.
  intros Ha Hb. pose proof (fb_rep_inv fa F a k Ha) as Hi. split; [by apply fb_rep_add|]. split; [by apply fb_rep_mul|].
  split; [apply (fb_rep_eq F _ _ (k * l)); by apply fb_rep_mul|]. split; [apply (fb_rep_eq F _ _ (k * k)); [by apply fb_rep_square|by apply fb_rep_mul]|].
  split; [|by apply fb_from_to_be_bytes, Ha]. pose proof (fb_rep_zero F) as H0. case_decide as Hz.
  - apply (fb_rep_eq F _ _ 0); [|done]. rewrite Hz in Ha, Hi. rewrite (fb_rep_inj F _ _ _ Ha H0) in Hi.
    rewrite Hz. by rewrite finv_zero in Hi.
  - apply (fb_rep_eq F _ _ 1); [|apply fb_rep_one]. assert (k ≠ 0) as Hk by (by rewrite <- (fb_rep_iff F _ _ _ _ Ha H0)).
    destruct (gf2m_ring (fb_m F) (fb_f F)) as [_ _ _ _ Mc _ _ _ _]. rewrite <- (finv_mul (fb_m F) (fb_f F) (fb_checks F) k Hk), Mc. by apply fb_rep_mul.
Qed.

Lemma fb_operations_witness :
  let a := [0x0123456789abcdef; 0xfedcba9876543210; 0x5] in let b := [3; 7; 0x7ffffffff] in
  ∃ k l, fb_rep Fb163 a k ∧ fb_rep Fb163 b l ∧ fb_rep Fb163 (fb_multiply true Fb163 a b) (k * l).
Proof.
  destruct (fb_rep_exists Fb163 [0x0123456789abcdef; 0xfedcba9876543210; 0x5]) as [k Hk]; [by_decision|].
  destruct (fb_rep_exists Fb163 [3; 7; 0x7ffffffff]) as [l Hl]; [by_decision|].
  exists k, l. split; [done|]. split; [done|]. by apply (fb_operations true Fb163 _ _ k l).
Defined.
