(* ===== verification/Scalar4145.v ===== *)
(** Integers modulo the order of the base points of DSTU 4145 ([hazmat/dstu4145/scalar.rs] and [scalar257.rs]): one
    text over [fb], as in [Gf4145.v]. *)

From S2P Require Import Prelude Poly2 Gf2mWide Limb Primes Gf4145.

(** [order()] of [curve163.rs] and [curve257.rs]. *)
Definition ORDER_163 : list Z :=
  [ 0x04; 0; 0; 0; 0; 0; 0; 0; 0; 0; 0x02; 0xBE; 0xC1; 0x2B; 0xE2;
    0x26; 0x2D; 0x39; 0xBC; 0xF1; 0x4D ].
Definition ORDER_257 : list Z :=
  [ 0; 0x80; 0; 0; 0; 0; 0; 0; 0; 0; 0; 0; 0; 0; 0;
    0; 0; 0x67; 0x59; 0x21; 0x3A; 0xF1; 0x82; 0xE9; 0x87; 0xD3; 0xE1; 0x77; 0x14; 0x90;
    0x7D; 0x47; 0x0D ].
Definition order (F : fb) : list Z := match F with Fb163 => ORDER_163 | Fb257 => ORDER_257 end.

(** ** Conversions *)

(** As for field elements, the arrays that the crate passes have the length of an element. *)
Definition sc_from_be_bytes (F : fb) (bytes : list Z) : list Z :=
  match pack_be_bytes (fb_limbs F) bytes with Some limbs => limbs | None => [] end.
Definition sc_to_be_bytes (F : fb) (self : list Z) : list Z := unpack_be_bytes (fb_bytes F) self.
Definition sc_is_zero (F : fb) (self : list Z) : bool := bool_decide (self = replicate (fb_limbs F) 0).

Definition n_limbs (F : fb) : list Z := sc_from_be_bytes F (order F).

(** ** Arithmetic on arrays *)

Definition add_n (a b : list Z) : list Z * Z := adc_loop a b 0.
Definition sub_n (a b : list Z) : list Z * Z := sbb_loop a b 0.

Definition cond_sub_if_ge (a b : list Z) : list Z :=
  let '(diff, borrow) := sub_n a b in
  let mask := wrapping_sub 64 borrow 1 in
  zip_with (λ a_i diff_i, a_i ⊕ Z.land mask (a_i ⊕ diff_i)) a diff.

(** One turn of the outer loop: the carry lands in the limb above the row. *)
Definition mul_n_row (n : nat) (b out : list Z) (i : nat) (a_i : Z) : list Z :=
  let '(row, carry) := mac_loop (slice i (i + n) out) b a_i 0 in
  take i out ++ row ++ carry :: drop (i + n + 1) out.

Definition mul_n (n : nat) (a b : list Z) : list Z := fold_enum (mul_n_row n b) 0 (replicate (2 * n) 0) a.

Definition shl1_or (x : list Z) (bit : Z) : list Z := shift_loop 1 bit x.

(** [r = shl1_or(r, (w >> bit) & 1); r = cond_sub_if_ge(r, n)] *)
Definition reduce_bit (n : list Z) (w : Z) (r : list Z) (bit : nat) : list Z :=
  let bit_val := Z.land (Z.shiftr w bit) 1 in
  cond_sub_if_ge (shl1_or r bit_val) n.

Definition reduce_mod_n (F : fb) (product : list Z) : list Z :=
  foldl (λ r limb_idx, foldl (reduce_bit (n_limbs F) (product.[limb_idx])) r (reverse (seq 0 64)))
    (replicate (fb_limbs F) 0) (reverse (seq 0 (2 * fb_limbs F))).

(** ** Scalars *)

Definition from_candidate_bytes (F : fb) (bytes : list Z) : option (list Z) :=
  let limbs := sc_from_be_bytes F bytes in
  let '(_, borrow) := sub_n limbs (n_limbs F) in
  let in_range := Z.eqb borrow 1 in
  let nonzero := negb (Z.eqb (foldl Z.lor 0 limbs) 0) in
  if in_range && nonzero then Some limbs else None.

Definition sc_multiply (F : fb) (self other : list Z) : list Z := reduce_mod_n F (mul_n (fb_limbs F) self other).

Definition reduce_wide_bytes (F : fb) (bytes : list Z) : list Z :=
  foldl (λ r byte, foldl (reduce_bit (n_limbs F) byte) r (reverse (seq 0 8))) (replicate (fb_limbs F) 0) bytes.

Definition sc_add (F : fb) (self other : list Z) : list Z :=
  let '(sum, _) := add_n self other in
  cond_sub_if_ge sum (n_limbs F).

(** ** The order *)

Definition order_val (F : fb) : Z := from_be_bytes (order F).

Lemma order_prime F : Z.prime (order_val F).
Proof. destruct F; [apply order_163|apply order_257]. Qed.

Lemma order_array F : array_ok (fb_bytes F) (order F).
Proof. destruct F; by_decision. Qed.

(** A doubled scalar does not leave its limbs. *)
Lemma order_bounds F : 2 ^ (fb_m F - 2) ≤ order_val F < 2 ^ fb_m F ∧ 2 * order_val F < 2 ^ (64 * fb_limbs F).
Proof. destruct F; by_decision. Qed.

Lemma sc_from_be_bytes_ok F bytes :
  bytes_ok bytes → (length bytes ≤ fb_bytes F)%nat →
  limbs_ok (fb_limbs F) (sc_from_be_bytes F bytes) ∧ limbs_val (sc_from_be_bytes F bytes) = from_be_bytes bytes.
Proof.
  intros Hb Hl. pose proof (fb_bytes_le F). destruct (pack_be_bytes_ok (fb_limbs F) bytes) as (l & E & Hok & Hv); [done|lia|].
  unfold sc_from_be_bytes. by rewrite E.
Qed.

Lemma n_limbs_ok F : limbs_ok (fb_limbs F) (n_limbs F) ∧ limbs_val (n_limbs F) = order_val F.
Proof. destruct (order_array F) as [Hl Hb]. apply sc_from_be_bytes_ok; [done|lia]. Qed.

(** A reduced scalar. *)
Definition sc_ok (F : fb) (s : list Z) : Prop := limbs_ok (fb_limbs F) s ∧ limbs_val s < order_val F.
#[global] Instance sc_ok_dec F s : Decision (sc_ok F s).
Proof. unfold sc_ok. apply _. Defined.

Lemma sc_to_be_bytes_ok F s : limbs_ok (fb_limbs F) s → sc_to_be_bytes F s = to_be_bytes (fb_bytes F) (limbs_val s).
Proof. apply unpack_be_bytes_ok. Qed.

Lemma order_bytes F : order_val F < 2 ^ (8 * fb_bytes F).
Proof. destruct F; by_decision. Qed.

Lemma sc_to_be_bytes_val F s : sc_ok F s → array_ok (fb_bytes F) (sc_to_be_bytes F s) ∧ from_be_bytes (sc_to_be_bytes F s) = limbs_val s.
Proof.
  intros [Hl Hv]. rewrite sc_to_be_bytes_ok by done. split; [apply to_be_bytes_ok|]. apply from_to_be_bytes.
  pose proof (limbs_val_bound _ _ Hl). pose proof (order_bytes F). unfold word_ok. lia.
Qed.

(** ** The loops *)

Lemma cond_sub_ok n a b :
  limbs_ok n a → limbs_ok n b →
  limbs_ok n (cond_sub_if_ge a b) ∧
  limbs_val (cond_sub_if_ge a b) = if Z.ltb (limbs_val a) (limbs_val b) then limbs_val a else limbs_val a - limbs_val b.
Proof.
  intros Ha Hb. unfold cond_sub_if_ge, sub_n. destruct (sbb_loop a b 0) as [diff borrow] eqn:E.
  apply (sbb_loop_val n) in E as (Hd & Hbr & E); [|done|done|unfold bit_ok; lia].
  pose proof (limbs_val_bound n _ Ha). pose proof (limbs_val_bound n _ Hb). pose proof (limbs_val_bound n _ Hd).
  assert (zip_with (λ x y, x ⊕ Z.land (wrapping_sub 64 borrow 1) (x ⊕ y)) a diff = if Z.eqb borrow 1 then a else diff) as ->.
  { assert (borrow = 0 ∨ borrow = 1) as Hc by (unfold bit_ok in Hbr; lia). destruct Ha as [Hla Ha], Hd as [Hld Hd]. assert (length a = length diff) as Hl by lia.
    clear -Ha Hd Hl Hc. revert diff Hl Hd. induction Ha as [|x a Hx Ha IH]; intros [|y d] Hl Hd; try done; [by destruct (Z.eqb _ _)|].
    apply Forall_cons in Hd as [Hy Hd]. cbn [zip_with]. rewrite IH by (done || by injection Hl). destruct Hc as [-> | ->].
    - change (wrapping_sub 64 0 1) with (Z.ones 64). rewrite Z.land_comm, Z.land_ones, Z.mod_small by first [lia | by apply (word_ok_lxor 64)].
      simpl. f_equal. bitwise.
    - change (wrapping_sub 64 1 1) with 0. by rewrite Z.land_0_l, Z.lxor_0_r. }
  destruct (Z.eqb_spec borrow 1), (Z.ltb_spec (limbs_val a) (limbs_val b)); unfold bit_ok in Hbr; split; (done || nia).
Qed.

Lemma shl1_or_ok n x (bit : bool) :
  limbs_ok n x → 2 * limbs_val x + 1 < 2 ^ (64 * n) →
  limbs_ok n (shl1_or x (Z.b2z bit)) ∧ limbs_val (shl1_or x (Z.b2z bit)) = 2 * limbs_val x + Z.b2z bit.
Proof.
  intros [Hl Hx] Hlt. unfold shl1_or. assert (word_ok 1 (Z.b2z bit)) as Hb by (by destruct bit).
  destruct (shift_loop_spec 1 (Z.b2z bit) x) as [Hu Hv]; [lia|done|done|]. split; [split; [by rewrite length_shift_loop|done]|].
  rewrite <- value_limbs_val, Hv, value_limbs_val, Hl by done. rewrite Z.lxor_comm, cat_add by (lia || done).
  pose proof (limbs_val_bound n x ltac:(done)). rewrite Z.mod_small; destruct bit; simpl; lia.
Qed.

Section reduction.
Context (F : fb).
#[local] Abbreviation n := (order_val F).

Lemma reduce_bit_ok w (r : list Z) (bit : nat) :
  sc_ok F r → sc_ok F (reduce_bit (n_limbs F) w r bit) ∧
  limbs_val (reduce_bit (n_limbs F) w r bit) = (2 * limbs_val r + Z.b2z (Z.testbit w bit)) mod n.
Proof.
  intros [Hr Hv]. unfold reduce_bit. rewrite land_bit. destruct (n_limbs_ok F) as [Hn En]. destruct (order_bounds F) as [_ Hb].
  pose proof (limbs_val_bound _ _ Hr) as Hr0.
  destruct (shl1_or_ok (fb_limbs F) r (Z.testbit w bit) Hr ltac:(lia)) as [Hs Es].
  destruct (cond_sub_ok _ _ _ Hs Hn) as [Hc Ec]. rewrite Ec, Es, En in *. set (v := 2 * limbs_val r + _) in *.
  assert (0 ≤ v < 2 * n) as Hv2 by (unfold v; destruct (Z.testbit w bit); simpl; lia).
  assert ((if v <? n then v else v - n) = v mod n) as E.
  { destruct (Z.ltb_spec v n); [by rewrite Z.mod_small by lia|]. apply (Z.mod_unique _ _ 1); lia. }
  split; [|done]. split; [done|]. rewrite Ec, E. apply Z.mod_pos_bound. lia.
Qed.

(** The bits of a word, from the highest. *)
Lemma reduce_bits_ok w (r : list Z) (k : nat) :
  sc_ok F r → let r' := foldl (reduce_bit (n_limbs F) w) r (reverse (seq 0 k)) in
  sc_ok F r' ∧ limbs_val r' = (2 ^ k * limbs_val r + w mod 2 ^ k) mod n.
Proof.
  cbv zeta. revert r. induction k as [|k IH]; intros r Hr.
  - cbn [seq]. rewrite reverse_nil. cbn [foldl]. split; [done|]. change (2 ^ 0%nat) with 1. rewrite Z.mod_1_r. destruct Hr as [Hr Hv].
    pose proof (limbs_val_bound _ _ Hr). symmetry. rewrite Z.mod_small; lia.
  - rewrite seq_S, reverse_snoc, Nat.add_0_l. cbn [foldl]. destruct (reduce_bit_ok w r k Hr) as [H1 E1]. destruct (IH _ H1) as [H2 E2].
    split; [done|]. rewrite E2, E1. pose proof (order_bounds F) as [[Hn _] _]. pose proof (Z.pow_pos_nonneg 2 (fb_m F - 2) ltac:(lia) ltac:(destruct F; simpl; lia)).
    rewrite mod_succ_bit. rewrite (cat_add k) by first [lia | apply word_ok_mod; lia]. rewrite <- (Z.add_mod_idemp_l (2 ^ k * _)), Z.mul_mod_idemp_r, Z.add_mod_idemp_l by lia. f_equal.
    replace (Z.of_nat (S k)) with (k + 1) by lia. rewrite Z.pow_add_r by lia. lia.
Qed.

Lemma reduce_words_ok (w : nat) l (r : list Z) :
  sc_ok F r → Forall (word_ok w) l →
  let r' := foldl (λ r x, foldl (reduce_bit (n_limbs F) x) r (reverse (seq 0 w))) r l in
  sc_ok F r' ∧ limbs_val r' = foldl (λ v x, 2 ^ w * v + x) (limbs_val r) l mod n.
Proof.
  cbv zeta. intros Hr Hl. pose proof (order_bounds F) as [[Hn _] _]. pose proof (Z.pow_pos_nonneg 2 (fb_m F - 2) ltac:(lia) ltac:(destruct F; simpl; lia)) as Hp.
  assert (∀ v, limbs_val r = v mod n → sc_ok F (foldl (λ r x, foldl (reduce_bit (n_limbs F) x) r (reverse (seq 0 w))) r l) ∧
    limbs_val (foldl (λ r x, foldl (reduce_bit (n_limbs F) x) r (reverse (seq 0 w))) r l) = foldl (λ v x, 2 ^ w * v + x) v l mod n) as H.
  { revert r Hr. induction Hl as [|x l Hx Hl IH]; intros r Hr v Hv; [done|]. cbn [foldl]. destruct (reduce_bits_ok x r w Hr) as [H1 E1].
    apply IH; [done|]. rewrite E1, Hv, (Z.mod_small x) by done. by rewrite <- Z.add_mod_idemp_l, Z.mul_mod_idemp_r, Z.add_mod_idemp_l by lia. }
  apply H. destruct Hr as [Hr Hv]. pose proof (limbs_val_bound _ _ Hr). by rewrite Z.mod_small by lia.
Qed.
End reduction.

(** ** The product *)

Lemma length_row_split (n i : nat) (out : list Z) : limbs_ok (2 * n) out → (i < n)%nat →
  out = take i out ++ slice i (i + n) out ++ out.[i + n] :: drop (i + n + 1) out.
Proof.
  intros [Hl _] Hi. unfold slice. replace (i + n - i)%nat with n by lia. rewrite <- (take_drop i out) at 1. f_equal.
  rewrite <- (take_drop n (drop i out)) at 1. f_equal. rewrite drop_drop.
  destruct (lookup_lt_is_Some_2 out (i + n)) as [x Hx]; [lia|]. rewrite (drop_S _ x) by done. rewrite nth_lookup, Hx. do 2 f_equal. lia.
Qed.

Lemma mul_n_row_ok (n : nat) b out (i : nat) a_i :
  limbs_ok n b → limbs_ok (2 * n) out → u64_ok a_i → (i < n)%nat → out.[i + n] = 0 →
  limbs_ok (2 * n) (mul_n_row n b out i a_i) ∧
  limbs_val (mul_n_row n b out i a_i) = limbs_val out + 2 ^ (64 * i) * (a_i * limbs_val b) ∧
  ∀ j, (i + n < j)%nat → (mul_n_row n b out i a_i).[j] = out.[j].
Proof.
  intros Hb Ho Ha Hi Hz. unfold mul_n_row. destruct (mac_loop (slice i (i + n) out) b a_i 0) as [row carry] eqn:E.
  pose proof Ho as [Hl Hu]. assert (limbs_ok n (slice i (i + n) out)) as Hs.
  { unfold slice. replace (i + n - i)%nat with n by lia. apply (limbs_ok_take _ (2 * n - i)); [by auto with uacrypt|lia]. }
  apply (mac_loop_val n) in E as (Hrow & Hc & E); [|done..|by apply word_ok_0].
  assert (limbs_ok i (take i out)) as Hti by (apply (limbs_ok_take _ (2 * n)); [done|lia]).
  pose proof (limbs_ok_drop (i + n + 1) (2 * n) out Ho) as Hd. pose proof Hrow as [Hlr _]. pose proof Hti as [Hlt _]. split; [|split].
  - replace (2 * n)%nat with (i + (n + S (2 * n - (i + n + 1))))%nat by lia. by auto using limbs_ok_app, limbs_ok_cons.
  - rewrite (length_row_split n i out) at 3 by done. rewrite !limbs_val_app, Hz. cbn [limbs_val]. rewrite Hlr, Hlt, (proj1 Hs). lia.
  - intros j Hj. rewrite (length_row_split n i out) at 3 by done. rewrite !app_nth2 by (rewrite ?Hlt, ?Hlr, ?(proj1 Hs); lia).
    rewrite Hlt, Hlr, (proj1 Hs). destruct (j - i - n)%nat as [|k] eqn:Ek; [lia|done].
Qed.

Lemma mul_n_from (n : nat) b a out (i : nat) :
  limbs_ok n b → Forall u64_ok a → limbs_ok (2 * n) out → (i + length a ≤ n)%nat → (∀ j, (i + n ≤ j)%nat → out.[j] = 0) →
  limbs_ok (2 * n) (fold_enum (mul_n_row n b) i out a) ∧
  limbs_val (fold_enum (mul_n_row n b) i out a) = limbs_val out + 2 ^ (64 * i) * (limbs_val a * limbs_val b).
Proof.
  intros Hb Ha. revert out i. induction Ha as [|x a Hx Ha IH]; intros out i Ho Hi Hz; cbn [fold_enum limbs_val length] in *; [split; [done|lia]|].
  destruct (mul_n_row_ok n b out i x) as (H1 & E1 & Z1); [done..|lia|apply Hz; lia|].
  destruct (IH (mul_n_row n b out i x) (S i)) as [H2 E2]; [done|lia|intros j Hj; rewrite Z1 by lia; apply Hz; lia|].
  split; [done|]. rewrite E2, E1, pow_limbs_S. lia.
Qed.

Lemma mul_n_ok (n : nat) a b : limbs_ok n a → limbs_ok n b → limbs_ok (2 * n) (mul_n n a b) ∧ limbs_val (mul_n n a b) = limbs_val a * limbs_val b.
Proof.
  intros [Hla Ha] Hb. destruct (mul_n_from n b a (replicate (2 * n) 0) 0) as [H E]; [done..|apply limbs_ok_zeros|lia|intros; apply nth_repeat_0|].
  split; [done|]. unfold mul_n. rewrite E, limbs_val_zeros. change (2 ^ (64 * 0%nat)) with 1. lia.
Qed.

(** ** Scalars *)

Lemma limbs_val_foldl l v : foldl (λ v x, 2 ^ 64 * v + x) v (reverse l) = 2 ^ (64 * length l) * v + limbs_val l.
Proof.
  induction l as [|x l IH]; [change (2 ^ (64 * length [])) with 1; simpl; lia|]. rewrite reverse_cons, foldl_app, IH. cbn [foldl limbs_val length].
  rewrite pow_limbs_S. lia.
Qed.

Lemma be_bytes_foldl l v : foldl (λ v x, 2 ^ 8 * v + x) v l = 2 ^ (8 * length l) * v + from_be_bytes l.
Proof.
  revert v. induction l as [|x l IH]; intros v; [change (2 ^ (8 * length [])) with 1; change (from_be_bytes []) with 0; simpl; lia|]. cbn [foldl]. rewrite IH.
  change (x :: l) with ([x] ++ l). rewrite from_be_bytes_app. assert (from_be_bytes [x] = x) as -> by (unfold from_be_bytes; simpl; lia).
  replace (8 * length ([x] ++ l)) with (8 + 8 * length l) by (simpl; lia). rewrite Z.pow_add_r by lia. lia.
Qed.

Lemma sc_zero_ok F : sc_ok F (replicate (fb_limbs F) 0) ∧ limbs_val (replicate (fb_limbs F) 0) = 0.
Proof. split; [|apply limbs_val_zeros]. destruct F; by_decision. Qed.

Lemma reduce_mod_n_ok F p :
  limbs_ok (2 * fb_limbs F) p → sc_ok F (reduce_mod_n F p) ∧ limbs_val (reduce_mod_n F p) = limbs_val p mod order_val F.
Proof.
  intros [Hl Hu]. destruct (sc_zero_ok F) as [H0 E0]. unfold reduce_mod_n.
  destruct (reduce_words_ok F 64 (reverse p) _ H0) as [H E]; [by apply Forall_reverse|].
  assert (∀ r, foldl (λ r limb_idx, foldl (reduce_bit (n_limbs F) (p.[limb_idx])) r (reverse (seq 0 64))) r (reverse (seq 0 (2 * fb_limbs F))) =
    foldl (λ r x, foldl (reduce_bit (n_limbs F) x) r (reverse (seq 0 64))) r (reverse p)) as ->.
  { intros r. rewrite <- Hl. clear. assert (reverse p = map (λ i, p.[i]) (reverse (seq 0 (length p)))) as ->.
    { rewrite map_rev_reverse. f_equal. apply list_eq. intros i. rewrite map_fmap, list_lookup_fmap. destruct (decide (i < length p)%nat).
      - rewrite lookup_seq_lt by done. cbn. rewrite nth_lookup. by destruct (lookup_lt_is_Some_2 p i) as [x ->].
      - rewrite lookup_seq_ge, lookup_ge_None_2 by lia. done. }
    by rewrite foldl_map. }
  split; [done|]. change (2 ^ 64%nat) with (2 ^ 64) in E. rewrite E, E0, (limbs_val_foldl p 0). f_equal. lia.
Qed.

Lemma sc_multiply_ok F a b :
  limbs_ok (fb_limbs F) a → limbs_ok (fb_limbs F) b →
  sc_ok F (sc_multiply F a b) ∧ limbs_val (sc_multiply F a b) = (limbs_val a * limbs_val b) mod order_val F.
Proof. intros Ha Hb. destruct (mul_n_ok _ a b Ha Hb) as [H E]. rewrite <- E. by apply reduce_mod_n_ok. Qed.

Lemma sc_add_ok F a b : sc_ok F a → sc_ok F b → sc_ok F (sc_add F a b) ∧ limbs_val (sc_add F a b) = (limbs_val a + limbs_val b) mod order_val F.
Proof.
  intros [Ha Hva] [Hb Hvb]. unfold sc_add, add_n. destruct (adc_loop a b 0) as [sum carry] eqn:E.
  apply (adc_loop_val (fb_limbs F)) in E as (Hs & Hc & E); [|done|done|unfold bit_ok; lia]. destruct (n_limbs_ok F) as [Hn En]. destruct (order_bounds F) as [_ Hbd].
  pose proof (limbs_val_bound _ _ Ha). pose proof (limbs_val_bound _ _ Hb). pose proof (limbs_val_bound _ _ Hs).
  assert (carry = 0) as -> by (unfold bit_ok in Hc; nia). rewrite Z.mul_0_r, !Z.add_0_r in E.
  destruct (cond_sub_ok _ _ _ Hs Hn) as [Hsub E1]. rewrite En, E in E1. unfold sc_ok. rewrite E1.
  destruct (Z.ltb_spec (limbs_val a + limbs_val b) (order_val F)).
  - split; [split; [done|lia]|]. symmetry. apply Z.mod_small. lia.
  - split; [split; [done|lia]|]. apply (Z.mod_unique _ _ 1); lia.
Qed.

Lemma reduce_wide_bytes_ok F bytes :
  bytes_ok bytes → sc_ok F (reduce_wide_bytes F bytes) ∧ limbs_val (reduce_wide_bytes F bytes) = from_be_bytes bytes mod order_val F.
Proof.
  intros Hb. destruct (sc_zero_ok F) as [H0 E0]. unfold reduce_wide_bytes. destruct (reduce_words_ok F 8 bytes _ H0 Hb) as [H E]. split; [done|].
  change (2 ^ 8%nat) with (2 ^ 8) in E.
  rewrite E, E0, (be_bytes_foldl bytes 0). f_equal. lia.
Qed.

Lemma limbs_val_zero n s : limbs_ok n s → limbs_val s = 0 ↔ s = replicate n 0.
Proof.
  intros Hs. split; [|intros ->; apply limbs_val_zeros]. intros E. apply (limbs_val_inj n); [done|apply limbs_ok_zeros|]. by rewrite limbs_val_zeros.
Qed.

Lemma sc_is_zero_ok F s : limbs_ok (fb_limbs F) s → sc_is_zero F s = bool_decide (limbs_val s = 0).
Proof. intros Hs. unfold sc_is_zero. apply bool_decide_ext. symmetry. by apply limbs_val_zero. Qed.

Lemma foldl_lor_zero l v : foldl Z.lor v l = 0 ↔ v = 0 ∧ Forall (λ x, x = 0) l.
Proof.
  revert v. induction l as [|x l IH]; intros v; cbn [foldl]; [by split; [intros ->|intros []]|].
  rewrite IH, Z.lor_eq_0_iff, Forall_cons. tauto.
Qed.

Lemma from_candidate_bytes_ok F bytes :
  array_ok (fb_bytes F) bytes →
  from_candidate_bytes F bytes = if decide (0 < from_be_bytes bytes < order_val F) then Some (sc_from_be_bytes F bytes) else None.
Proof.
  intros [Hl Hb]. destruct (sc_from_be_bytes_ok F bytes Hb ltac:(lia)) as [Hs Es]. destruct (n_limbs_ok F) as [Hn En].
  unfold from_candidate_bytes, sub_n. destruct (sbb_loop _ _ 0) as [diff borrow] eqn:E.
  apply (sbb_loop_val (fb_limbs F)) in E as (Hd & Hbr & E); [|done|done|unfold bit_ok; lia].
  pose proof (limbs_val_bound _ _ Hs). pose proof (limbs_val_bound _ _ Hn). pose proof (limbs_val_bound _ _ Hd). rewrite <- Es, <- En.
  assert (Z.eqb (foldl Z.lor 0 (sc_from_be_bytes F bytes)) 0 = bool_decide (limbs_val (sc_from_be_bytes F bytes) = 0)) as ->.
  { apply eq_bool_prop_intro. rewrite !Is_true_true, Z.eqb_eq, bool_decide_eq_true, (limbs_val_zero (fb_limbs F)), foldl_lor_zero by done.
    destruct Hs as [Hls _]. rewrite <- Hls. split.
    - intros [_ Hf]. clear -Hf. induction Hf as [|x l -> _ IH]; [done|]. cbn [length replicate]. by f_equal.
    - intros ->. split; [done|]. apply Forall_replicate. done. }
  assert (Z.eqb borrow 1 = bool_decide (limbs_val (sc_from_be_bytes F bytes) < limbs_val (n_limbs F))) as ->.
  { apply eq_bool_prop_intro. rewrite !Is_true_true, Z.eqb_eq, bool_decide_eq_true. unfold bit_ok in Hbr. split; intros; nia. }
  repeat case_bool_decide; case_decide; simpl; (done || lia).
Qed.

(** Scalar arithmetic is arithmetic modulo the order, with results that are reduced; a candidate is accepted exactly
    when it is in [1, n), and the bytes of a scalar determine it. *)
Theorem scalar_operations (F : fb) (a b bytes : list Z) :
  sc_ok F a → sc_ok F b → array_ok (fb_bytes F) bytes →
  (sc_ok F (sc_multiply F a b) ∧ limbs_val (sc_multiply F a b) = (limbs_val a * limbs_val b) mod order_val F) ∧
  (sc_ok F (sc_add F a b) ∧ limbs_val (sc_add F a b) = (limbs_val a + limbs_val b) mod order_val F) ∧
  (sc_ok F (reduce_wide_bytes F bytes) ∧ limbs_val (reduce_wide_bytes F bytes) = from_be_bytes bytes mod order_val F) ∧
  from_candidate_bytes F bytes = (if decide (0 < from_be_bytes bytes < order_val F) then Some (sc_from_be_bytes F bytes) else None) ∧
  sc_from_be_bytes F (sc_to_be_bytes F a) = a.
Proof.
  intros Ha Hb Hy. split; [apply sc_multiply_ok; [apply Ha|apply Hb]|]. split; [by apply sc_add_ok|]. split; [apply reduce_wide_bytes_ok, Hy|].
  split; [by apply from_candidate_bytes_ok|]. destruct (sc_to_be_bytes_val F a Ha) as [[Hl Hbs] E].
  destruct (sc_from_be_bytes_ok F (sc_to_be_bytes F a) Hbs ltac:(lia)) as [H1 E1]. apply (limbs_val_inj (fb_limbs F)); [done|apply Ha|]. by rewrite E1.
Qed.

Lemma scalar_operations_witness :
  let a := [0x0123456789abcdef; 0xfedcba9876543210; 0x3ffffffff] in
  sc_ok Fb163 a ∧ limbs_val (sc_multiply Fb163 a a) = (limbs_val a * limbs_val a) mod order_val Fb163.
Proof.
  split; [by_decision|]. apply (scalar_operations Fb163 [0x0123456789abcdef; 0xfedcba9876543210; 0x3ffffffff] [0x0123456789abcdef; 0xfedcba9876543210; 0x3ffffffff] ORDER_163); by_decision.
Defined.
