(* ===== verification/Curve4145.v ===== *)
(** The curves of DSTU 4145 ([hazmat/dstu4145/curve163.rs] and [curve257.rs]): one text over [fb], as in
    [Gf4145.v]; the projective form of the combination [s G + r Q] exists for 163 bits only.  The operations are proved
    against the group of [BinaryCurve.v]. *)

From Stdlib Require Import Ring_theory Field_theory Ring Field.
From S2P Require Import Prelude Poly2 Gf2mWide Limb Primes BinaryCurve Gf2Field Gf2Eval Gf4145 Scalar4145.

(** ** Constants *)

Definition B_163 : list Z :=
  [ 0x05; 0xFF; 0x61; 0x08; 0x46; 0x2A; 0x2D; 0xC8; 0x21; 0x0A; 0xB4; 0x03; 0x92; 0x5E; 0x63;
    0x8A; 0x19; 0xC1; 0x45; 0x5D; 0x21 ].
Definition GX_163 : list Z :=
  [ 0x07; 0x2D; 0x86; 0x7F; 0x93; 0xA9; 0x3A; 0xC2; 0x7D; 0xF9; 0xFF; 0x01; 0xAF; 0xFE; 0x74;
    0x88; 0x5C; 0x8C; 0x54; 0x04; 0x20 ].
Definition GY_163 : list Z :=
  [ 0; 0x22; 0x4A; 0x9C; 0x39; 0x47; 0x85; 0x2B; 0x97; 0xC5; 0x59; 0x9D; 0x5F; 0x4A; 0xB8;
    0x11; 0x22; 0xAD; 0xC3; 0xFD; 0x9B ].
Definition B_257 : list Z :=
  [ 0x01; 0xCE; 0xF4; 0x94; 0x72; 0x01; 0x15; 0x65; 0x7E; 0x18; 0xF9; 0x38; 0xD7; 0xA7; 0x94;
    0x23; 0x94; 0xFF; 0x94; 0x25; 0xC1; 0x45; 0x8C; 0x57; 0x86; 0x1F; 0x9E; 0xEA; 0x6A; 0xDB;
    0xE3; 0xBE; 0x10 ].
Definition GX_257 : list Z :=
  [ 0; 0x2A; 0x29; 0xEF; 0x20; 0x7D; 0x0E; 0x9B; 0x6C; 0x55; 0xCD; 0x26; 0x0B; 0x30; 0x6C;
    0x7E; 0; 0x7A; 0xC4; 0x91; 0xCA; 0x1B; 0x10; 0xC6; 0x23; 0x34; 0xA9; 0xE8; 0xDC; 0xD8;
    0xD2; 0x0F; 0xB7 ].
Definition GY_257 : list Z :=
  [ 0x01; 0x06; 0x86; 0xD4; 0x1F; 0xF7; 0x44; 0xD4; 0x44; 0x9F; 0xCC; 0xF6; 0xD8; 0xEE; 0xA0;
    0x31; 0x02; 0xE6; 0x81; 0x2C; 0x93; 0xA9; 0xD6; 0x0B; 0x97; 0x8B; 0x70; 0x2C; 0xF1; 0x56;
    0xD8; 0x14; 0xEF ].

Definition b_const (F : fb) : list Z := fb_from_be_bytes F match F with Fb163 => B_163 | Fb257 => B_257 end.
Definition gx (F : fb) : list Z := fb_from_be_bytes F match F with Fb163 => GX_163 | Fb257 => GX_257 end.
Definition gy (F : fb) : list Z := fb_from_be_bytes F match F with Fb163 => GY_163 | Fb257 => GY_257 end.

(** ** Affine points *)

Inductive Point : Type := Infinity | Affine (x y : list Z).

#[global] Instance Point_eq_dec : EqDecision Point.
Proof. solve_decision. Defined.

Definition generator (F : fb) : Point := Affine (gx F) (gy F).

Definition negate (F : fb) (self : Point) : Point :=
  match self with
  | Infinity => Infinity
  | Affine x y => Affine x (fb_add F x y)
  end.

(** The last summand [FieldElement::ONE] of the 163-bit file; the coefficient is zero in the other. *)
Definition plus_a (F : fb) (e : list Z) : list Z := match F with Fb163 => fb_add F e (fb_ONE F) | Fb257 => e end.

Section Operations.
Context (fa : bool) (F : fb).
#[local] Notation "x +f y" := (fb_add F x y) (at level 50, left associativity).
#[local] Notation "x *f y" := (fb_multiply fa F x y) (at level 40, left associativity).
#[local] Notation "x ²" := (fb_square F x) (at level 1, format "x ²").

Definition is_on_curve (self : Point) : bool :=
  match self with
  | Infinity => false
  | Affine x y =>
      if negb (is_canonical F x) || negb (is_canonical F y) then false
      else
        let lhs := y² +f x *f y in
        let rhs := match F with Fb163 => x *f x² +f x² +f b_const F | Fb257 => x *f x² +f b_const F end in
        bool_decide (lhs = rhs)
  end.

Definition pt_double (self : Point) : Point :=
  match self with
  | Infinity => Infinity
  | Affine x1 y1 =>
      if decide (x1 = fb_ZERO F) then Infinity
      else
        let lambda := x1 +f y1 *f fb_invert fa F x1 in
        let x3 := plus_a F (lambda² +f lambda) in
        let y3 := x1² +f (lambda +f fb_ONE F) *f x3 in
        Affine x3 y3
  end.

Definition pt_add (self other : Point) : Point :=
  match self, other with
  | Infinity, q => q
  | p, Infinity => p
  | Affine x1 y1, Affine x2 y2 =>
      if decide (x1 = x2) then
        if decide (y1 = y2) then pt_double self else Infinity
      else
        let lambda := (y1 +f y2) *f fb_invert fa F (x1 +f x2) in
        let x3 := plus_a F (lambda² +f lambda +f x1 +f x2) in
        let y3 := lambda *f (x1 +f x3) +f x3 +f y1 in
        Affine x3 y3
  end.

(** *** The ladder *)

Definition bit_at (bytes : list Z) (i : nat) : Z :=
  let byte_index := (fb_bytes F - 1 - i / 8)%nat in
  let bit_in_byte := (i mod 8)%nat in
  Z.land (Z.shiftr (bytes.[byte_index]) bit_in_byte) 1.

Definition cswap (swap : Z) (a b : list Z) : list Z * list Z :=
  let mask := wrapping_sub 64 0 swap in
  let t := zip_with (λ a_i b_i, Z.land mask (a_i ⊕ b_i)) a b in
  (zip_with Z.lxor a t, zip_with Z.lxor b t).

Definition is_zero_mask (a : list Z) : Z :=
  let combined := foldl Z.lor 0 a in
  let is_nonzero := Z.shiftr (Z.lor combined (wrapping_sub 64 0 combined)) 63 in
  wrapping_sub 64 0 (1 ⊕ is_nonzero).

Definition select (mask : Z) (if_mask otherwise : list Z) : list Z :=
  zip_with (λ a b, b ⊕ Z.land mask (a ⊕ b)) if_mask otherwise.

(** One turn, on [((x1, z1), (x2, z2))]. *)
Definition ladder_step (x k : list Z) (s : (list Z * list Z) * (list Z * list Z)) (i : nat) : (list Z * list Z) * (list Z * list Z) :=
  let '((x1, z1), (x2, z2)) := s in
  let bit := bit_at k i in
  let swap := bit ⊕ 1 in
  let '(x1, x2) := cswap swap x1 x2 in
  let '(z1, z2) := cswap swap z1 z2 in
  let t1 := z1 in
  let z1 := (x1 *f z2 +f x2 *f z1)² in
  let x1 := x *f z1 +f x1 *f x2 *f t1 *f z2 in
  let t2 := x2 in
  let x2 := (x2²)² +f b_const F *f (z2²)² in
  let z2 := t2² *f z2² in
  let '(x1, x2) := cswap swap x1 x2 in
  let '(z1, z2) := cswap swap z1 z2 in
  ((x1, z1), (x2, z2)).

Definition scalar_multiply (self : Point) (k : list Z) : Point :=
  match self with
  | Infinity => Infinity
  | Affine x y =>
      let '((x1, z1), (x2, z2)) := foldl (ladder_step x k) ((fb_ONE F, fb_ZERO F), (x, fb_ONE F)) (reverse (seq 0 (fb_m F))) in
      if negb (Z.eqb (is_zero_mask z1) 0) then Infinity
      else
        let x1_affine := x1 *f fb_invert fa F z1 in
        let x2_affine := x2 *f fb_invert fa F z2 in
        let t1 := x1_affine +f x in
        let t2 := x2_affine +f x in
        let inner := t1 *f t2 +f x² +f y in
        let y1_affine_formula := fb_invert fa F x *f t1 *f inner +f y in
        let y1_affine := select (is_zero_mask z2) (x +f y) y1_affine_formula in
        Affine x1_affine y1_affine
  end.

(** *** Projective points *)

Record ProjectivePoint : Type := { px : list Z; py : list Z; pz : list Z }.

Definition proj_infinity : ProjectivePoint := {| px := fb_ONE F; py := fb_ONE F; pz := fb_ZERO F |}.

Definition from_affine (p : Point) : ProjectivePoint :=
  match p with
  | Infinity => proj_infinity
  | Affine x y => {| px := x; py := y; pz := fb_ONE F |}
  end.

Definition proj_double (self : ProjectivePoint) : ProjectivePoint :=
  if decide (pz self = fb_ZERO F) then self
  else
    let a := (pz self)² in
    let big_b := b_const F *f a² in
    let c := (px self)² in
    let z3 := a *f c in
    let x3 := c² +f big_b in
    let y3 := ((py self)² +f z3 +f big_b) *f x3 +f z3 *f big_b in
    {| px := x3; py := y3; pz := z3 |}.

Definition mixed_add (self : ProjectivePoint) (other : Point) : ProjectivePoint :=
  match other with
  | Infinity => self
  | Affine x2 y2 =>
      if decide (pz self = fb_ZERO F) then from_affine other
      else
        let z1_sq := (pz self)² in
        let a := py self +f y2 *f z1_sq in
        let b_val := px self +f x2 *f pz self in
        if decide (b_val = fb_ZERO F) then
          if decide (a = fb_ZERO F) then proj_double self else proj_infinity
        else
          let c := b_val *f pz self in
          let z3 := c² in
          let d := x2 *f z3 in
          let b_sq := b_val² in
          let x3 := a² +f c *f (a +f b_sq +f c) in
          let y3 := (d +f x3) *f (a *f c +f z3) +f (y2 +f x2) *f z3² in
          {| px := x3; py := y3; pz := z3 |}
  end.

Definition to_affine (self : ProjectivePoint) : Point :=
  if decide (pz self = fb_ZERO F) then Infinity
  else
    let z_inv := fb_invert fa F (pz self) in
    Affine (px self *f z_inv) (py self *f z_inv²).

Definition entry_at (table : list Point) (s r : list Z) (i : nat) : Point :=
  nth (Z.to_nat (Z.lor (shl 64 (bit_at s i) 1) (bit_at r i))) table Infinity.

(** One turn of [for i in (0..top).rev()]. *)
Definition shamir_step (table : list Point) (s r : list Z) (acc : ProjectivePoint) (i : nat) : ProjectivePoint :=
  let acc := proj_double acc in
  let entry := entry_at table s r i in
  if decide (entry = Infinity) then acc else mixed_add acc entry.

Definition shamir_double_scalar_multiply (g : Point) (s : list Z) (q : Point) (r : list Z) : Point :=
  let g_plus_q := pt_add g q in
  let table := [Infinity; q; g; g_plus_q] in
  let top := List.find (λ i, negb (Z.eqb (bit_at s i) 0) || negb (Z.eqb (bit_at r i) 0)) (reverse (seq 0 (fb_m F))) in
  match top with
  | None => Infinity
  | Some top =>
      let acc := from_affine (entry_at table s r top) in
      to_affine (foldl (shamir_step table s r) acc (reverse (seq 0 top)))
  end.

(** [verify_combine] in the two builds of the 163-bit file; the other file has the second form inside its
    [verify]. *)
Definition verify_combine (small_tables : bool) (g : Point) (s : list Z) (q : Point) (r : list Z) : Point :=
  match F, small_tables with
  | Fb163, false => shamir_double_scalar_multiply g s q r
  | _, _ => pt_add (scalar_multiply g s) (scalar_multiply q r)
  end.
End Operations.

(** ** The curve of a file *)

Lemma b_const_ok F : fb_ok F (b_const F).
Proof. destruct F; by_decision. Qed.

Definition curve_b (F : fb) : fb_field F := dexist (value (b_const F)) (proj2 (b_const_ok F)).
Definition curve_a (F : fb) : fb_field F := match F with Fb163 => fone | Fb257 => fzero end.

Lemma curve_b_rep F : fb_rep F (b_const F) (curve_b F).
Proof. split; [apply b_const_ok|done]. Qed.

Lemma curve_b_nonzero F : curve_b F ≠ fzero.
Proof. intros E. apply gf2m_eq in E. by destruct F. Qed.

(** ** Masks *)

Lemma mask_word (e : bool) x : u64_ok x → Z.land (wrapping_sub 64 0 (Z.b2z e)) x = if e then x else 0.
Proof.
  intros Hx. destruct e; [|apply Z.land_0_l]. change (wrapping_sub 64 0 (Z.b2z true)) with (Z.ones 64).
  rewrite Z.land_comm, Z.land_ones by lia. by apply Z.mod_small.
Qed.

Lemma zip_masked (e : bool) a b :
  length a = length b → Forall u64_ok a → Forall u64_ok b →
  zip_with Z.lxor a (zip_with (λ x y, Z.land (wrapping_sub 64 0 (Z.b2z e)) (x ⊕ y)) a b) = (if e then b else a) ∧
  zip_with Z.lxor b (zip_with (λ x y, Z.land (wrapping_sub 64 0 (Z.b2z e)) (x ⊕ y)) a b) = (if e then a else b).
Proof.
  intros Hl Ha. revert b Hl. induction Ha as [|x a Hx Ha IH]; intros [|y b] Hl Hb; try done; [by destruct e|].
  apply Forall_cons in Hb as [Hy Hb]. injection Hl as Hl. destruct (IH b Hl Hb) as [E1 E2]. cbn [zip_with]. rewrite E1, E2, mask_word by (by apply (word_ok_lxor 64)).
  destruct e; split; f_equal; rewrite ?Z.lxor_0_r; (done || bitwise).
Qed.

Lemma cswap_spec n (e : bool) a b : limbs_ok n a → limbs_ok n b → cswap (Z.b2z e) a b = if e then (b, a) else (a, b).
Proof.
  intros [Hla Ha] [Hlb Hb]. unfold cswap. destruct (zip_masked e a b) as [E1 E2]; [lia|done|done|]. cbv zeta. rewrite E1, E2. by destruct e.
Qed.

Lemma select_spec n (e : bool) a b : limbs_ok n a → limbs_ok n b → select (wrapping_sub 64 0 (Z.b2z e)) a b = if e then a else b.
Proof.
  intros [Hla Ha] [Hlb Hb]. unfold select. assert (length a = length b) as Hl by lia. clear Hla Hlb. revert b Hl Hb.
  induction Ha as [|x a Hx Ha IH]; intros [|y b] Hl Hb; try done; [by destruct e|]. apply Forall_cons in Hb as [Hy Hb]. injection Hl as Hl.
  cbn [zip_with]. rewrite (IH b Hl Hb), mask_word by (by apply (word_ok_lxor 64)). destruct e; f_equal; rewrite ?Z.lxor_0_r; (done || bitwise).
Qed.

Lemma foldl_lor_u64 l v : u64_ok v → Forall u64_ok l → u64_ok (foldl Z.lor v l).
Proof. intros Hv Hl. revert v Hv. induction Hl as [|x l Hx Hl IH]; intros v Hv; [done|]. cbn [foldl]. apply IH. by apply word_ok_lor. Qed.

Lemma is_zero_mask_spec n a : limbs_ok n a → is_zero_mask a = wrapping_sub 64 0 (Z.b2z (bool_decide (a = replicate n 0))).
Proof.
  intros [Hl Ha]. unfold is_zero_mask. cbv zeta. set (c := foldl Z.lor 0 a). assert (u64_ok c) as Hc by (by apply foldl_lor_u64).
  assert (c = 0 ↔ a = replicate n 0) as Ez.
  { unfold c. rewrite foldl_lor_zero, <- Hl. split.
    - intros [_ Hf]. clear -Hf. induction Hf as [|x l -> _ IH]; [done|]. cbn [length replicate]. by f_equal.
    - intros E. split; [done|]. rewrite E. by apply Forall_replicate. }
  assert (u64_ok (wrapping_sub 64 0 c)) as Hn by (by apply word_ok_wrap).
  rewrite shiftr_top by (by apply word_ok_lor). rewrite Z.lor_spec, !testbit_top by done. unfold wrapping_sub at 2. rewrite wrap_mod by lia.
  destruct (decide (c = 0)) as [E|E].
  - rewrite E. rewrite bool_decide_true by (by apply Ez). done.
  - rewrite bool_decide_false by (by rewrite <- Ez). unfold word_ok in Hc. assert ((0 - c) mod 2 ^ 64 = 2 ^ 64 - c) as -> by (symmetry; apply (Z.mod_unique _ _ (-1)); lia).
    assert ((2 ^ 63 <=? c) || (2 ^ 63 <=? 2 ^ 64 - c) = true) as ->; [|done]. rewrite orb_true_iff, !Z.leb_le. lia.
Qed.

(** The bits of a scalar. *)
Lemma testbit_be_bytes l (i : nat) : bytes_ok l → (i < 8 * length l)%nat → Z.testbit (from_be_bytes l) i = Z.testbit (l.[length l - 1 - i / 8]) (i mod 8)%nat.
Proof.
  intros Hl Hi. unfold from_be_bytes. assert (∀ l (i : nat), bytes_ok l → Z.testbit (from_le_bytes l) i = Z.testbit (l.[i / 8]) (i mod 8)%nat) as H.
  { clear. intros l i Hl. revert i. induction Hl as [|b l Hb Hl IH]; intros i; [rewrite nth_overflow by (simpl; lia); by rewrite !Z.testbit_0_l|].
    cbn [from_le_bytes]. rewrite testbit_from_le_cons by done. case_decide.
    - rewrite Nat.div_small, Nat.mod_small by lia. done.
    - assert (i = (i - 8) + 1 * 8)%nat as Ei by lia. set (j := (i - 8)%nat) in *. replace (i - 8) with (Z.of_nat j) by lia. rewrite IH, Ei, Nat.div_add, Nat.Div0.mod_add, Nat.add_1_r by lia.
      done. }
  rewrite H by (by apply Forall_reverse). f_equal. rewrite !nth_lookup, reverse_lookup by (apply Nat.Div0.div_lt_upper_bound; lia).
  do 2 f_equal. lia.
Qed.

Lemma bit_at_spec F k (i : nat) : array_ok (fb_bytes F) k → (i < fb_m F)%nat → bit_at F k i = Z.b2z (Z.testbit (from_be_bytes k) i).
Proof.
  intros [Hl Hk] Hi. unfold bit_at. pose proof (fb_m_bytes F) as [Hm _]. rewrite land_bit, testbit_be_bytes, Hl by first [done | lia]. done.
Qed.

(** The bits of a number from a position up. *)
Definition high (n : nat) (v : Z) (i : nat) : nat := Z.to_nat (Z.shiftr (v mod 2 ^ n) i).

Lemma high_nonneg (n : nat) v (i : nat) : 0 ≤ Z.shiftr (v mod 2 ^ n) i.
Proof. apply Z.shiftr_nonneg. apply (word_ok_mod n v). lia. Qed.

Lemma high_step n v (i : nat) : (i < n)%nat → high n v i = (high n v (S i) + high n v (S i) + Nat.b2n (Z.testbit v i))%nat.
Proof.
  intros Hi. unfold high. apply Nat2Z.inj. pose proof (high_nonneg n v i). pose proof (high_nonneg n v (S i)). set (w := v mod 2 ^ n) in *.
  rewrite !Nat2Z.inj_add, !Z2Nat.id by done. replace (Z.of_nat (S i)) with (i + 1) by lia. rewrite <- Z.shiftr_shiftr by lia. set (x := Z.shiftr w i).
  assert (Z.testbit v i = Z.odd x) as ->.
  { unfold x. rewrite <- Z.bit0_odd, Z.shiftr_spec by lia. unfold w. rewrite Z.testbit_mod_pow2 by lia. by rewrite (proj2 (Z.ltb_lt (0 + i) n)) by lia. }
  rewrite Z.shiftr_div_pow2 by lia. change (2 ^ 1) with 2. pose proof (Z.div_mod x 2 ltac:(lia)) as E. rewrite Zmod_odd in E. destruct (Z.odd x); cbn [Nat.b2n]; lia.
Qed.

Lemma high_zero n v (i : nat) : (∀ j, i ≤ j < n → Z.testbit v j = false)%nat → high n v i = 0%nat.
Proof.
  intros H. unfold high. assert (Z.shiftr (v mod 2 ^ n) i = 0) as ->; [|done]. apply Z.bits_inj'. intros j Hj.
  rewrite Z.shiftr_spec, Z.testbit_mod_pow2, Z.testbit_0_l by lia. destruct (Z.ltb_spec (j + i) n); [|done]. cbn [andb].
  replace (j + i) with (Z.of_nat (Z.to_nat (j + i))) by lia. apply H. lia.
Qed.

(** The first hit, from the top. *)
Lemma find_from_top (f : nat → bool) n :
  match List.find f (reverse (seq 0 n)) with
  | Some t => (t < n)%nat ∧ ∀ j, (t < j < n)%nat → f j = false
  | None => ∀ j, (j < n)%nat → f j = false
  end.
Proof.
  induction n as [|n IH]; [cbn [seq]; rewrite reverse_nil; intros j; lia|]. rewrite seq_S, reverse_snoc, Nat.add_0_l. cbn [List.find].
  destruct (f n) eqn:E; [split; lia|]. assert (∀ j, (j < S n)%nat → j = n ∨ (j < n)%nat) as Hc by lia. destruct (List.find f (reverse (seq 0 n))) as [t|].
  - destruct IH as [Ht IH]. split; [lia|]. intros j [Hj1 Hj2]. destruct (Hc j Hj2) as [->|]; [done|by apply IH].
  - intros j Hj. destruct (Hc j Hj) as [->|]; [done|by apply IH].
Qed.

(** The two values of the coefficient. *)
Section Coefficient.
Context (F : fb).
Definition coef_ring := gf2m_ring (fb_m F) (fb_f F).
Definition coef_morph := gf2_ring_morph coef_ring (gf2m_char2 (fb_m F) (fb_f F)).
Add Ring coef_ring : coef_ring (morphism coef_morph).

Lemma coef_one (k u : fb_field F) : fadd u (fmul fone k) = fadd u k.
Proof. ring. Qed.
Lemma coef_zero (k u : fb_field F) : fadd u (fmul fzero k) = u.
Proof. ring. Qed.
Lemma coef_add_zero (u : fb_field F) : fadd u fzero = u.
Proof. ring. Qed.
End Coefficient.

Lemma verify_combine_cases fa F small g s q r :
  verify_combine fa F small g s q r = pt_add fa F (scalar_multiply fa F g s) (scalar_multiply fa F q r) ∨
  (curve_a F = fone ∧ verify_combine fa F small g s q r = shamir_double_scalar_multiply fa F g s q r).
Proof. destruct F, small; tauto. Qed.

Section Curve.
Context (fa : bool) (F : fb).
#[local] Open Scope binary_field_scope.
#[local] Abbreviation K := (fb_field F).
#[local] Abbreviation m := (Z.of_nat (fb_m F)).
Implicit Types k l : K.

Definition crv_ring := gf2m_ring (fb_m F) (fb_f F).
Definition crv_morph := gf2_ring_morph crv_ring (gf2m_char2 (fb_m F) (fb_f F)).
Add Ring crv_ring : crv_ring (morphism crv_morph).

#[local] Abbreviation ca := (curve_a F).
#[local] Abbreviation cb := (curve_b F).
#[local] Abbreviation point := (bpoint (K := K)).

Lemma crv_badd_on (p q : point) : on ca cb p → on ca cb q → on ca cb (badd ca p q).
Proof. apply badd_on, curve_b_nonzero. Qed.

Lemma crv_bmul_on n (p : point) : on ca cb p → on ca cb (bmul ca n p).
Proof. apply bmul_on, curve_b_nonzero. Qed.

(** An array of coordinates is a point of the abstract curve. *)
Definition point_rep (P : Point) (p : point) : Prop :=
  match P, p with
  | Infinity, None => True
  | Affine x y, Some (k, l) => fb_rep F x k ∧ fb_rep F y l
  | _, _ => False
  end.

Lemma point_rep_inj P p p' : point_rep P p → point_rep P p' → p = p'.
Proof.
  destruct P as [|x y], p as [[k l]|], p' as [[k' l']|]; try done. intros [H1 H2] [H1' H2'].
  by rewrite (fb_rep_inj F x k k'), (fb_rep_inj F y l l').
Qed.

Lemma point_rep_infinity P p : point_rep P p → P = Infinity ↔ p = None.
Proof. by destruct P, p as [[]|]. Qed.

Lemma negate_rep P p : point_rep P p → point_rep (negate F P) (bneg p).
Proof. destruct P as [|x y], p as [[k l]|]; try done. intros [H1 H2]. split; [done|by apply fb_rep_add]. Qed.

Lemma plus_a_rep e k : fb_rep F e k → fb_rep F (plus_a F e) (k + ca).
Proof.
  intros He. unfold plus_a, curve_a. destruct F; [by apply fb_rep_add, fb_rep_one|].
  by rewrite coef_add_zero.
Qed.

(** Proves that an array expression has its value in the field. *)
Ltac rep :=
  repeat match goal with
  | |- fb_rep _ (fb_add _ _ _) _ => apply fb_rep_add
  | |- fb_rep _ (fb_multiply _ _ _ _) _ => apply fb_rep_mul
  | |- fb_rep _ (fb_square _ _) _ => apply fb_rep_square
  | |- fb_rep _ (fb_invert _ _ _) _ => apply fb_rep_inv
  | |- fb_rep _ (plus_a _ _) _ => apply plus_a_rep
  | |- fb_rep _ (fb_ONE _) _ => apply fb_rep_one
  | |- fb_rep _ (fb_ZERO _) _ => apply fb_rep_zero
  | |- fb_rep _ (b_const _) _ => apply curve_b_rep
  | _ => eassumption
  end.

(** The tests of the code and of the specification agree. *)
Lemma fb_decide {A} e e' k k' (x y : A) : fb_rep F e k → fb_rep F e' k' → (if decide (e = e') then x else y) = (if decide (k = k') then x else y).
Proof. intros He He'. pose proof (fb_rep_iff F e e' k k' He He'). repeat case_decide; tauto. Qed.

Lemma pt_double_rep P p : point_rep P p → point_rep (pt_double fa F P) (bdouble ca p).
Proof.
  destruct P as [|x y], p as [[k l]|]; try done. intros [Hx Hy]. cbn [pt_double bdouble]. cbv zeta.
  pose proof (fb_rep_iff F x _ k _ Hx (fb_rep_zero F)). repeat case_decide; try done; try tauto. split; rep.
Qed.

Lemma pt_add_rep P Q p q : point_rep P p → point_rep Q q → point_rep (pt_add fa F P Q) (badd ca p q).
Proof.
  destruct P as [|x1 y1], p as [[k1 l1]|]; try done; destruct Q as [|x2 y2], q as [[k2 l2]|]; try done.
  intros HP HQ. pose proof HP as [Hx1 Hy1]. pose proof HQ as [Hx2 Hy2]. cbn [pt_add badd]. cbv zeta.
  pose proof (fb_rep_iff F x1 x2 k1 k2 Hx1 Hx2). pose proof (fb_rep_iff F y1 y2 l1 l2 Hy1 Hy2).
  repeat case_decide; try done; try tauto; [by apply (pt_double_rep _ (Some (k1, l1)))|]. split; rep.
Qed.

Lemma is_on_curve_spec P :
  match P with Infinity => True | Affine x y => limbs_ok (fb_limbs F) x ∧ limbs_ok (fb_limbs F) y end →
  is_on_curve fa F P = true ↔ ∃ k l, point_rep P (Some (k, l)) ∧ on ca cb (Some (k, l)).
Proof.
  destruct P as [|x y]; [intros _; split; [done|intros (k & l & [] & _)]|]. intros [Hx Hy]. cbn [is_on_curve].
  pose proof (is_canonical_spec F x Hx) as Cx. pose proof (is_canonical_spec F y Hy) as Cy.
  assert (∀ k l, fb_rep F x k → fb_rep F y l → is_canonical F x = true ∧ is_canonical F y = true) as Hc.
  { intros k l [[_ Hk] _] [[_ Hl] _]. split; [by apply Cx|by apply Cy]. }
  destruct (is_canonical F x) eqn:Ex; cbn [negb orb]; [|split; [done|intros (k & l & [H1 H2] & _); by destruct (Hc k l)]].
  destruct (is_canonical F y) eqn:Ey; cbn [negb orb]; [|split; [done|intros (k & l & [H1 H2] & _); by destruct (Hc k l)]].
  destruct (fb_rep_exists F x) as [k Hk]; [split; [done|by apply Cx]|]. destruct (fb_rep_exists F y) as [l Hl]; [split; [done|by apply Cy]|].
  assert (bool_decide (fb_add F (fb_square F y) (fb_multiply fa F x y) =
    match F with Fb163 => fb_add F (fb_add F (fb_multiply fa F x (fb_square F x)) (fb_square F x)) (b_const F)
    | Fb257 => fb_add F (fb_multiply fa F x (fb_square F x)) (b_const F) end) = true ↔ equation ca cb k l) as E.
  { rewrite bool_decide_eq_true. unfold equation. assert (k * k * k + ca * k * k + cb = k * (k * k) + ca * (k * k) + cb) as -> by ring.
    apply fb_rep_iff; [rep|]. clear -Hk. unfold curve_a. destruct F; [rewrite coef_one|rewrite coef_zero]; rep. }
  rewrite E. split; [intros Eq; exists k, l; split; [by split|done]|]. intros (k' & l' & [Hk' Hl'] & Eq). by rewrite (fb_rep_inj F x k k'), (fb_rep_inj F y l l').
Qed.


(** *** The ladder *)

Definition pair_rep (s : list Z * list Z) (p : K * K) : Prop := fb_rep F s.1 p.1 ∧ fb_rep F s.2 p.2.
Definition state_rep (s : (list Z * list Z) * (list Z * list Z)) (p : (K * K) * (K * K)) : Prop := pair_rep s.1 p.1 ∧ pair_rep s.2 p.2.

Lemma fb_rep_limbs e k : fb_rep F e k → limbs_ok (fb_limbs F) e.
Proof. by intros [[]]. Qed.

Lemma ladder_step_rep x bs kx s p (i : nat) :
  fb_rep F x kx → array_ok (fb_bytes F) bs → (i < fb_m F)%nat → state_rep s p →
  state_rep (ladder_step fa F x bs s i) (xladder_step cb kx p (Z.testbit (from_be_bytes bs) i)).
Proof.
  intros Hx Hk Hi. destruct s as [[x1 z1] [x2 z2]], p as [[k1 l1] [k2 l2]]. intros [[H1 H2] [H3 H4]]. cbn [fst snd] in *.
  unfold ladder_step. cbv zeta. rewrite bit_at_spec by done. set (e := Z.testbit _ i).
  assert (Z.lxor (Z.b2z e) 1%Z = Z.b2z (negb e)) as -> by (by destruct e).
  rewrite !(cswap_spec (fb_limbs F)) by (apply H1 || apply H2 || apply H3 || apply H4). unfold xladder_step.
  destruct e; cbn [negb fst snd]; rewrite !(cswap_spec (fb_limbs F) _ _ _) by
    (eapply fb_rep_limbs; rep);
    (split; split; cbn [fst snd]; rep).
Qed.

Lemma ladder_rep x bs kx s p (l : list nat) :
  fb_rep F x kx → array_ok (fb_bytes F) bs → Forall (λ i, (i < fb_m F)%nat) l → state_rep s p →
  state_rep (foldl (ladder_step fa F x bs) s l) (foldl (xladder_step cb kx) p (map (λ i : nat, Z.testbit (from_be_bytes bs) i) l)).
Proof.
  intros Hx Hbs Hl. revert s p. induction Hl as [|i l Hi Hl IH]; intros s p Hs; [done|]. cbn [map foldl]. by apply IH, ladder_step_rep.
Qed.

Lemma zero_mask_rep e k : fb_rep F e k → is_zero_mask e = wrapping_sub 64 0%Z (Z.b2z (bool_decide (k = 0))).
Proof.
  intros He. rewrite (is_zero_mask_spec (fb_limbs F)) by (by eapply fb_rep_limbs). do 2 f_equal. apply bool_decide_ext.
  apply (fb_rep_iff F _ _ _ _ He (fb_rep_zero F)).
Qed.

#[local] Abbreviation FT := (f_theory (K := K)).
Add Field crv_field : FT (morphism crv_morph).

(** What the ladder ends with determines the multiple. *)
Lemma finish_rep x y kx ky s p Q :
  fb_rep F x kx → fb_rep F y ky → equation ca cb kx ky → state_rep s p → on ca cb Q →
  xrep p.1.1 p.1.2 Q → xrep p.2.1 p.2.2 (badd ca Q (Some (kx, ky))) → (kx = 0 → Q = None ∨ Q = Some (kx, ky)) →
  let '((x1, z1), (x2, z2)) := s in
  point_rep (if negb (Z.eqb (is_zero_mask z1) 0%Z) then Infinity
      else
        let x1_affine := fb_multiply fa F x1 (fb_invert fa F z1) in
        let x2_affine := fb_multiply fa F x2 (fb_invert fa F z2) in
        let t1 := fb_add F x1_affine x in
        let t2 := fb_add F x2_affine x in
        let inner := fb_add F (fb_add F (fb_multiply fa F t1 t2) (fb_square F x)) y in
        let y1_affine_formula := fb_add F (fb_multiply fa F (fb_multiply fa F (fb_invert fa F x) t1) inner) y in
        let y1_affine := select (is_zero_mask z2) (fb_add F x y) y1_affine_formula in
        Affine x1_affine y1_affine) Q.
Proof.
  intros Hx Hy HP. destruct s as [[x1 z1] [x2 z2]], p as [[k1 l1] [k2 l2]]. intros [[H1 H2] [H3 H4]]. cbn [fst snd] in *. intros HQ HQ1 HQ2 H0.
  rewrite (zero_mask_rep z1 l1), (zero_mask_rep z2 l2) by done.
  destruct Q as [[xq yq]|]; cbn [xrep] in HQ1; destruct HQ1 as [Hl1 Ek1].
  2: { by rewrite bool_decide_true. }
  rewrite bool_decide_false by done. change (negb (Z.eqb (wrapping_sub 64 0 (Z.b2z false)) 0)) with false. cbv iota zeta.
  assert (k1 / l1 = xq) as Exq by (rewrite Ek1; by field).
  set (formula := fb_add F (fb_multiply fa F (fb_multiply fa F (fb_invert fa F x) _) _) y).
  assert (fb_rep F formula (finv kx * (k1 / l1 + kx) * ((k1 / l1 + kx) * (k2 / l2 + kx) + kx * kx + ky) + ky)) as Hf by (unfold formula; rep).
  rewrite Exq in Hf. rewrite (select_spec (fb_limbs F)) by (eapply fb_rep_limbs; rep).
  split; [rewrite <- Exq; rep|]. case_bool_decide as Hl2.
  - assert (badd ca (Some (xq, yq)) (Some (kx, ky)) = None) as E by (destruct (badd ca _ _) as [[]|]; [by destruct HQ2|done]).
    pose proof (curve_b_nonzero F) as Hb. apply (badd_zero ca cb Hb) in E; [|done..]. change (Some (kx, ky) = Some (xq, xq + yq)) in E.
    assert (kx = xq ∧ ky = xq + yq) as [Ex Ey] by (split; congruence). assert (yq = kx + ky) as -> by (rewrite Ey, Ex; ring). rep.
  - destruct (badd ca (Some (xq, yq)) (Some (kx, ky))) as [[xr yr]|] eqn:E; [|by destruct HQ2]. destruct HQ2 as [_ Ek2].
    assert (k2 / l2 = xr) as Exr by (rewrite Ek2; by field). rewrite Exr in Hf.
    destruct (decide (kx = 0)) as [Hk0|Hk0].
    + exfalso. destruct (H0 Hk0) as [|[= -> ->]]; [done|]. rewrite bdouble_badd in E. cbn [bdouble] in E. by rewrite decide_True in E.
    + assert (yq = finv kx * (xq + kx) * ((xq + kx) * (xr + kx) + kx * kx + ky) + ky) as ->; [|done].
      trans ((1 / kx) * (xq + kx) * ((xq + kx) * (xr + kx) + kx * kx + ky) + ky); [by apply (recover_y ca cb (curve_b_nonzero F) kx ky xq yq xr yr)|]. by field.
Qed.

(** The number that the ladder reads. *)
Lemma bits_nat_value v (c n : nat) :
  Z.of_nat (bits_nat c (map (λ i : nat, Z.testbit v i) (reverse (seq 0 n)))) = (2 ^ n * c + v mod 2 ^ n)%Z.
Proof.
  revert c. induction n as [|n IH]; intros c; [change (2 ^ 0%nat)%Z with 1%Z; rewrite Z.mod_1_r; change (Z.of_nat c = 1 * c + 0)%Z; lia|].
  rewrite seq_S, reverse_snoc, Nat.add_0_l. cbn [map]. unfold bits_nat in *. cbn [foldl]. rewrite IH, mod_succ_bit.
  rewrite (cat_add n) by (lia || by apply word_ok_mod; lia). replace (Z.of_nat (S n)) with (Z.of_nat n + 1)%Z by lia. rewrite Z.pow_add_r by lia.
  destruct (Z.testbit v n); cbn [Nat.b2n Z.b2z]; lia.
Qed.

Lemma pt_scalar_rep P p bs :
  point_rep P p → on ca cb p → array_ok (fb_bytes F) bs →
  point_rep (scalar_multiply fa F P bs) (bmul ca (Z.to_nat (from_be_bytes bs mod 2 ^ m)) p).
Proof.
  destruct P as [|x y], p as [[kx ky]|]; try done; [intros _ _ _; by rewrite bmul_none|]. intros [Hx Hy] Hon Hbs.
  pose proof (curve_b_nonzero F) as Hb. set (l := reverse (seq 0 (fb_m F))).
  pose proof (ladder_rep x bs kx ((fb_ONE F, fb_ZERO F), (x, fb_ONE F)) ((1, 0), (kx, 1)) l Hx Hbs) as Hr.
  pose proof (xladder_ok ca cb Hb kx ky 0 _ (map (λ i : nat, Z.testbit (from_be_bytes bs) i) l) Hon (xladder_init ca kx ky)) as [I1 I2].
  assert (Z.to_nat (from_be_bytes bs mod 2 ^ m) = bits_nat 0 (map (λ i : nat, Z.testbit (from_be_bytes bs) i) l)) as ->.
  { apply Nat2Z.inj. unfold l. rewrite bits_nat_value, Z2Nat.id; [lia|]. apply Z.mod_pos_bound, Z.pow_pos_nonneg; lia. }
  set (k := bits_nat 0 _) in *. rewrite (bmul_succ ca cb Hb) in I2 by done. cbn [scalar_multiply].
  pose proof (λ s p, finish_rep x y kx ky s p (bmul ca k (Some (kx, ky))) Hx Hy Hon) as Hf. fold l.
  set (pf := foldl (xladder_step cb kx) _ _) in *. destruct (foldl (ladder_step fa F x bs) _ l) as [[x1 z1] [x2 z2]]. apply (Hf ((x1, z1), (x2, z2)) pf).
  - apply Hr; [|split; split; cbn [fst snd]; rep]. apply Forall_forall. intros i Hi. apply elem_of_reverse, elem_of_seq in Hi. lia.
  - by apply (bmul_on ca cb Hb).
  - done.
  - done.
  - intros ->. rewrite (bmul_order ca cb Hb 2) by (try done; try lia; rewrite (bmul_succ ca cb Hb), bmul_1, bdouble_badd by done; cbn [bdouble]; by rewrite decide_True).
    pose proof (Nat.mod_upper_bound k 2 ltac:(lia)). destruct (k mod 2)%nat as [|[|]]; [by left|right; apply bmul_1|lia].
Qed.

(** *** The projective combination *)

Section Shamir.
Context (Ha : ca = 1).
#[local] Abbreviation Hb := (curve_b_nonzero F).

Definition proj_rep (P : ProjectivePoint) (p : point) : Prop :=
  ∃ X Y Z, fb_rep F (px P) X ∧ fb_rep F (py P) Y ∧ fb_rep F (pz P) Z ∧ lrep X Y Z p.

Lemma binary_one_nonzero : (1 : K) ≠ 0.
Proof. apply (F_1_neq_0 FT). Qed.

Lemma ca_mul (u : K) : ca * u = u.
Proof. rewrite Ha. ring. Qed.

Lemma proj_infinity_rep : proj_rep (proj_infinity F) None.
Proof. exists 1, 1, 0. cbn [proj_infinity px py pz]. do 3 (split; [rep|]). by left. Qed.

Lemma proj_from_affine_rep P p : point_rep P p → proj_rep (from_affine F P) p.
Proof.
  destruct P as [|x y], p as [[k l]|]; try done; [intros _; apply proj_infinity_rep|]. intros [Hx Hy]. exists k, l, 1. cbn [from_affine px py pz].
  do 3 (split; [rep|]). right. split; [apply binary_one_nonzero|]. pose proof binary_one_nonzero. do 2 f_equal; by field.
Qed.

Lemma lrep_zero (X Y : K) (p : point) : lrep X Y 0 p → p = None.
Proof. by intros [[_ ->]|[]]. Qed.

Lemma proj_double_rep P p : proj_rep P p → on ca cb p → proj_rep (proj_double fa F P) (badd ca p p).
Proof.
  intros (X & Y & Z & HX & HY & HZ & HL) Hp. unfold proj_double. rewrite (fb_decide _ _ _ _ _ _ HZ (fb_rep_zero F)).
  case_decide as Hz; [rewrite Hz in HL; apply lrep_zero in HL as ->; exists X, Y, Z; rewrite Hz in *; do 3 (split; [done|]); by left|].
  pose proof (ldouble ca cb X Y Z p Hp Hz HL) as Hd. cbv zeta in Hd. rewrite ca_mul in Hd. cbv zeta. eexists _, _, _. cbn [px py pz].
  split; [|split; [|split; [|exact Hd]]]; rep.
Qed.

Lemma mixed_add_rep P Q p q : proj_rep P p → point_rep Q q → on ca cb p → on ca cb q → proj_rep (mixed_add fa F P Q) (badd ca p q).
Proof.
  intros HP HQ Hp Hq. pose proof HP as (X & Y & Z & HX & HY & HZ & HL). destruct Q as [|x y], q as [[k l]|]; try done; [by rewrite (badd_none ca)|].
  pose proof HQ as [Hx Hy]. cbn [mixed_add]. cbv zeta. rewrite (fb_decide _ _ _ _ _ _ HZ (fb_rep_zero F)).
  case_decide as Hz; [rewrite Hz in HL; apply lrep_zero in HL as ->; by apply proj_from_affine_rep|].
  assert (fb_rep F (fb_add F (px P) (fb_multiply fa F x (pz P))) (X + k * Z)) as HB by rep.
  assert (fb_rep F (fb_add F (py P) (fb_multiply fa F y (fb_square F (pz P)))) (Y + l * (Z * Z))) as HA by rep.
  rewrite (fb_decide _ _ _ _ _ _ HB (fb_rep_zero F)). case_decide as HBz.
  - destruct (lsame_x X Y Z k l p Hz HL HBz) as (y' & -> & Hy'). rewrite (fb_decide _ _ _ _ _ _ HA (fb_rep_zero F)). case_decide as HAz.
    + apply Hy' in HAz as ->. by apply proj_double_rep.
    + assert (badd ca (Some (k, y')) (Some (k, l)) = None) as ->; [|apply proj_infinity_rep]. unfold badd. rewrite decide_True, decide_False by (done || tauto). done.
  - pose proof (lmixed_add ca cb X Y Z k l p Hp Hz HL HBz) as Hm. cbv zeta in Hm. rewrite ca_mul in Hm. eexists _, _, _. cbn [px py pz].
    split; [|split; [|split; [|exact Hm]]]; rep.
Qed.

Lemma proj_to_affine_rep P p : proj_rep P p → point_rep (to_affine fa F P) p.
Proof.
  intros (X & Y & Z & HX & HY & HZ & HL). unfold to_affine. rewrite (fb_decide _ _ _ _ _ _ HZ (fb_rep_zero F)).
  case_decide as Hz; [rewrite Hz in HL; by apply lrep_zero in HL as ->|]. destruct HL as [[]|[_ ->]]; [done|]. cbv zeta. split; [rep|].
  assert (Y / (Z * Z) = Y * (finv Z * finv Z)) as -> by (by field). rep.
Qed.

Context (g q : Point) (pg pq : point) (Hg : point_rep g pg) (Hq : point_rep q pq) (Ong : on ca cb pg) (Onq : on ca cb pq).
Context (s r : list Z) (Hs : array_ok (fb_bytes F) s) (Hr : array_ok (fb_bytes F) r).
#[local] Abbreviation table := [Infinity; q; g; pt_add fa F g q].
#[local] Abbreviation sv := (from_be_bytes s).
#[local] Abbreviation rv := (from_be_bytes r).

(** The combination of the bits from [i] up. *)
Definition target (i : nat) : point := badd ca (bmul ca (high (fb_m F) sv i) pg) (bmul ca (high (fb_m F) rv i) pq).

Definition entry (i : nat) : point := badd ca (bmul ca (Nat.b2n (Z.testbit sv i)) pg) (bmul ca (Nat.b2n (Z.testbit rv i)) pq).

Lemma entry_on i : on ca cb (entry i).
Proof. apply (badd_on ca cb Hb); by apply (bmul_on ca cb Hb). Qed.

Lemma target_on i : on ca cb (target i).
Proof. apply (badd_on ca cb Hb); by apply (bmul_on ca cb Hb). Qed.

Lemma entry_rep (i : nat) : (i < fb_m F)%nat → point_rep (entry_at F table s r i) (entry i).
Proof.
  intros Hi. unfold entry_at, entry. rewrite !bit_at_spec by done. destruct (Z.testbit sv i), (Z.testbit rv i); cbn [Z.b2z Nat.b2n]; rewrite ?bmul_1, ?(badd_none ca).
  - by apply pt_add_rep.
  - done.
  - done.
  - done.
Qed.

Lemma target_step (i : nat) : (i < fb_m F)%nat → target i = badd ca (badd ca (target (S i)) (target (S i))) (entry i).
Proof.
  intros Hi. unfold target, entry. rewrite (high_step _ sv i), (high_step _ rv i) by done. set (a := high _ sv (S i)). set (b := high _ rv (S i)).
  rewrite !(bmul_add ca cb Hb) by done. etrans; [apply (badd_swap ca cb Hb); auto using crv_bmul_on, crv_badd_on|].
  apply (f_equal2 (badd ca)); [|done]. apply (badd_swap ca cb Hb); auto using crv_bmul_on.
Qed.

Lemma shamir_steps (t : nat) acc :
  (t ≤ fb_m F)%nat → proj_rep acc (target t) → proj_rep (foldl (shamir_step fa F table s r) acc (reverse (seq 0 t))) (target 0).
Proof.
  revert acc. induction t as [|t IH]; intros acc Ht Hacc; [done|]. rewrite seq_S, reverse_snoc, Nat.add_0_l. cbn [foldl]. apply IH; [lia|].
  rewrite target_step by lia. pose proof (entry_rep t ltac:(lia)) as He. unfold shamir_step. cbv zeta.
  pose proof (proj_double_rep acc (target (S t)) Hacc (target_on _)) as Hd. case_decide as E.
  - apply (point_rep_infinity _ _ He) in E. by rewrite E, (badd_none ca).
  - apply mixed_add_rep; [done|done|apply (badd_on ca cb Hb); apply target_on|apply entry_on].
Qed.

Lemma shamir_rep : point_rep (shamir_double_scalar_multiply fa F g s q r) (target 0).
Proof.
  unfold shamir_double_scalar_multiply. cbv zeta. set (f := λ i, negb (bit_at F s i =? 0)%Z || negb (bit_at F r i =? 0)%Z). pose proof (find_from_top f (fb_m F)) as Hf.
  assert (∀ j, (j < fb_m F)%nat → f j = false → Z.testbit sv j = false ∧ Z.testbit rv j = false) as Hbits.
  { intros j Hj. unfold f. rewrite !bit_at_spec by done. by destruct (Z.testbit sv j), (Z.testbit rv j). }
  destruct (List.find f _) as [t|].
  - destruct Hf as [Ht Hf]. apply proj_to_affine_rep, shamir_steps; [lia|]. rewrite target_step by done.
    assert (target (S t) = None) as ->.
    { unfold target. rewrite !high_zero; [done|..]; intros j Hj; apply Hbits; (lia || apply Hf; lia). }
    by apply proj_from_affine_rep, entry_rep.
  - assert (target 0 = None) as ->; [|done]. unfold target. rewrite !high_zero; [done|..]; intros j Hj; apply Hbits; (lia || apply Hf; lia).
Qed.
End Shamir.

Lemma verify_combine_rep small g q pg pq s r :
  point_rep g pg → point_rep q pq → on ca cb pg → on ca cb pq → array_ok (fb_bytes F) s → array_ok (fb_bytes F) r →
  point_rep (verify_combine fa F small g s q r)
    (badd ca (bmul ca (Z.to_nat (from_be_bytes s mod 2 ^ m)) pg) (bmul ca (Z.to_nat (from_be_bytes r mod 2 ^ m)) pq)).
Proof.
  intros Hg Hq Og Oq Hs Hr. destruct (verify_combine_cases fa F small g s q r) as [->|[Ha ->]].
  - apply pt_add_rep; by apply pt_scalar_rep.
  - pose proof (shamir_rep Ha g q pg pq Hg Hq Og Oq s r Hs Hr) as H. unfold target, high in H. by rewrite !Z.shiftr_0_r in H.
Qed.
End Curve.

(** ** Points of the curve *)

#[local] Abbreviation bmul_z F k p := (bmul (curve_a F) (Z.to_nat k) p).

(** Infinity, or a point in canonical coordinates that satisfies the equation. *)
Definition on_curve (F : fb) (P : Point) : Prop := ∃ p, point_rep F P p ∧ on (curve_a F) (curve_b F) p.

Lemma point_rep_eq F P P' p : point_rep F P p → point_rep F P' p → P = P'.
Proof.
  destruct P as [|x y], P' as [|x' y'], p as [[k l]|]; try done. intros [H1 H2] [H1' H2'].
  by rewrite (fb_rep_eq F x x' k), (fb_rep_eq F y y' l).
Qed.

Lemma gx_ok F : fb_ok F (gx F).
Proof. destruct F; by_decision. Qed.
Lemma gy_ok F : fb_ok F (gy F).
Proof. destruct F; by_decision. Qed.

Definition base_x F : fb_field F := dexist (value (gx F)) (proj2 (gx_ok F)).
Definition base_y F : fb_field F := dexist (value (gy F)) (proj2 (gy_ok F)).
Definition base F : bpoint := Some (base_x F, base_y F).

Lemma generator_rep F : point_rep F (generator F) (base F).
Proof. split; (split; [apply gx_ok || apply gy_ok|done]). Qed.

Lemma generator_on_curve F : is_on_curve true F (generator F) = true.
Proof. destruct F; vm_compute; reflexivity. Qed.

Lemma base_on F : on (curve_a F) (curve_b F) (base F).
Proof.
  destruct (proj1 (is_on_curve_spec true F (generator F) (conj (proj1 (gx_ok F)) (proj1 (gy_ok F)))) (generator_on_curve F)) as (k & l & Hr & Hon).
  by rewrite <- (point_rep_inj F _ _ _ Hr (generator_rep F)).
Qed.

Lemma base_ladder F : zladder (fb_m F) (fb_tail F) (value (b_const F)) (value (gx F)) (scalar_bits (fb_m F) (order_val F)) = 0.
Proof. destruct F; vm_compute; reflexivity. Qed.

Lemma order_small F : order_val F mod 2 ^ fb_m F = order_val F.
Proof. destruct F; vm_compute; reflexivity. Qed.

(** The base point has the order of the source. *)
Lemma base_in_kernel F : bmul_z F (order_val F) (base F) = None.
Proof.
  destruct (tail_small F) as [H1 H2].
  pose proof (zladder_ok (fb_m F) (fb_f F) _ (fb_tail F) (tail_size F) (fb_tail_eq F) (tail_word F) H1 H2 (curve_b F) (base_x F) (base_y F)
    (scalar_bits (fb_m F) (order_val F)) (fb_checks F) (curve_a F) (curve_b_nonzero F) (base_on F) (base_ladder F)) as E.
  unfold scalar_bits in E. rewrite <- E. f_equal. apply Nat2Z.inj. rewrite bits_nat_value, order_small, Z2Nat.id; [lia|].
  pose proof (order_bounds F) as [[Hn _] _]. pose proof (Z.pow_nonneg 2 (fb_m F - 2)). lia.
Qed.

(** The points whose order divides the order of the base point. *)
Definition in_subgroup (F : fb) (p : bpoint) : Prop := on (curve_a F) (curve_b F) p ∧ bmul_z F (order_val F) p = None.

(** ** Theorems *)

(** The addition of points is a commutative group law on the curve, with [negate] as its inverse and [double] as its
    diagonal; it never leaves the curve, infinity and the points of order two included. *)
Theorem binary_group_law (fa : bool) (F : fb) (P Q R : Point) :
  on_curve F P → on_curve F Q → on_curve F R →
  on_curve F (pt_add fa F P Q) ∧ on_curve F (negate F P) ∧
  pt_add fa F P (pt_add fa F Q R) = pt_add fa F (pt_add fa F P Q) R ∧ pt_add fa F P Q = pt_add fa F Q P ∧
  pt_add fa F P Infinity = P ∧ pt_add fa F P (negate F P) = Infinity ∧ pt_double fa F P = pt_add fa F P P.
Proof.
  intros (p & Hp & Op) (q & Hq & Oq) (r & Hr & Or). pose proof (curve_b_nonzero F) as Hb.
  assert (∀ A B a b, point_rep F A a → point_rep F B b → point_rep F (pt_add fa F A B) (badd (curve_a F) a b)) as Hadd by (intros; by apply pt_add_rep).
  split; [exists (badd (curve_a F) p q); split; [by apply Hadd|by apply crv_badd_on]|].
  split; [exists (bneg p); split; [by apply negate_rep|by apply bneg_on]|].
  split; [apply (point_rep_eq F _ _ (badd (curve_a F) p (badd (curve_a F) q r))); [auto|]; rewrite <- (badd_assoc _ _ Hb) by done; auto|].
  split; [apply (point_rep_eq F _ _ (badd (curve_a F) p q)); [auto|]; rewrite (badd_comm _ _ Hb) by done; auto|].
  split; [by destruct P|]. split.
  - apply (point_rep_infinity F _ (badd (curve_a F) p (bneg p))); [apply Hadd; [done|by apply negate_rep]|]. by apply badd_neg.
  - apply (point_rep_eq F _ _ (badd (curve_a F) p p)); [|auto]. rewrite bdouble_badd. by apply pt_double_rep.
Qed.

Lemma binary_group_law_witness :
  on_curve Fb257 (generator Fb257) ∧
  pt_add true Fb257 (generator Fb257) (negate Fb257 (generator Fb257)) = Infinity.
Proof.
  assert (on_curve Fb257 (generator Fb257)) as H by (exists (base Fb257); split; [apply generator_rep|apply base_on]).
  split; [exact H|]. apply (binary_group_law true Fb257 _ _ _ H H H).
Defined.

(** A point that is received passes the test exactly when its coordinates are field elements on the curve. *)
Theorem is_on_curve_exact (fa : bool) (F : fb) (x y : list Z) :
  limbs_ok (fb_limbs F) x → limbs_ok (fb_limbs F) y → is_on_curve fa F (Affine x y) = true ↔ on_curve F (Affine x y).
Proof.
  intros Hx Hy. rewrite (is_on_curve_spec fa F (Affine x y)) by done. split; [intros (k & l & H); by exists (Some (k, l))|].
  intros ([[k l]|] & Hr & Ho); [|done]. by exists k, l.
Qed.

Lemma is_on_curve_exact_witness : on_curve Fb163 (Affine (gx Fb163) (gy Fb163)).
Proof. apply (is_on_curve_exact true Fb163); [by_decision|by_decision|apply (generator_on_curve Fb163)]. Defined.

(** The multiple of a point in its group. *)
Fixpoint pt_times (fa : bool) (F : fb) (k : nat) (P : Point) : Point :=
  match k with O => Infinity | S k => pt_add fa F P (pt_times fa F k P) end.

Lemma pt_times_rep fa F k P p : point_rep F P p → point_rep F (pt_times fa F k P) (bmul (curve_a F) k p).
Proof. intros HP. induction k as [|k IH]; [done|]. cbn [pt_times bmul]. by apply pt_add_rep. Qed.

(** C37. The ladder on the first coordinates computes the multiple by repeated addition, for every point of the curve and
    every scalar that it can read: the cases [k P] and [(k + 1) P] at infinity, and the points of order two, included. *)
Theorem binary_scalar_multiply_correct (fa : bool) (F : fb) (P : Point) (k : list Z) :
  on_curve F P → array_ok (fb_bytes F) k → from_be_bytes k < 2 ^ fb_m F →
  scalar_multiply fa F P k = pt_times fa F (Z.to_nat (from_be_bytes k)) P ∧ on_curve F (scalar_multiply fa F P k).
Proof.
  intros (p & HP & Op) Hk Hlt. pose proof (pt_scalar_rep fa F P p k HP Op Hk) as H.
  rewrite Z.mod_small in H by (split; [apply from_be_bytes_bound, Hk|done]). split.
  - apply (point_rep_eq F _ _ _ H). by apply pt_times_rep.
  - eexists. split; [exact H|]. by apply crv_bmul_on.
Qed.

Lemma binary_scalar_multiply_correct_witness :
  scalar_multiply true Fb163 (generator Fb163) (replicate 20 0 ++ [5]) = pt_times true Fb163 5 (generator Fb163).
Proof.
  apply (binary_scalar_multiply_correct true Fb163 (generator Fb163) (replicate 20 0 ++ [5])); [|by_decision|by_decision].
  exists (base Fb163). split; [apply generator_rep|apply base_on].
Defined.

(** C38. The combination [s G + r Q] of the verification is the same in both builds, and is the sum of the multiples. *)
Theorem verify_combine_correct (fa small_tables : bool) (F : fb) (g q : Point) (s r : list Z) :
  on_curve F g → on_curve F q → array_ok (fb_bytes F) s → array_ok (fb_bytes F) r →
  verify_combine fa F small_tables g s q r = pt_add fa F (scalar_multiply fa F g s) (scalar_multiply fa F q r).
Proof.
  intros (pg & Hg & Og) (pq & Hq & Oq) Hs Hr. eapply point_rep_eq; [by apply verify_combine_rep|].
  apply pt_add_rep; by apply pt_scalar_rep.
Qed.

Lemma verify_combine_correct_witness :
  let g := generator Fb163 in
  verify_combine false Fb163 false g ORDER_163 g (replicate 20 0 ++ [5]) =
  pt_add false Fb163 (scalar_multiply false Fb163 g ORDER_163) (scalar_multiply false Fb163 g (replicate 20 0 ++ [5])).
Proof.
  assert (on_curve Fb163 (generator Fb163)) as H by (exists (base Fb163); split; [apply generator_rep|apply base_on]).
  apply (verify_combine_correct false false Fb163 (generator Fb163) (generator Fb163)); [exact H|exact H|by_decision|by_decision].
Defined.

(** The base point of either curve has the order that the source states, which is prime. *)
Theorem binary_base_order (fa : bool) (F : fb) :
  Z.prime (order_val F) ∧ generator F ≠ Infinity ∧ scalar_multiply fa F (generator F) (order F) = Infinity.
Proof.
  split; [apply order_prime|]. split; [done|]. pose proof (pt_scalar_rep fa F _ _ (order F) (generator_rep F) (base_on F) (order_array F)) as H.
  fold (order_val F) in H. rewrite order_small, base_in_kernel in H. by apply (point_rep_infinity F _ None).
Qed.
