(* ===== verification/Signature4145.v ===== *)
(** The signatures of DSTU 4145 ([hazmat/dstu4145/signature.rs] and [signature257.rs]): one text over [fb], as in
    [Gf4145.v].  Signing and verification are proved against the group of the curve: verification accepts what was
    signed with the key [Q = -d G], and exactly the solutions of the verification equation. *)

From S2P Require Import Prelude Poly2 Gf2mWide Limb Primes BinaryCurve Gf2Field Gf4145 Scalar4145 Curve4145.

(** ** Hashes and byte arrays *)

Definition hash_to_field (F : fb) (hash : list Z) : list Z :=
  let take := Nat.min (length hash) (fb_bytes F) in
  let bytes := copy_at (fb_bytes F - take) (drop (length hash - take) hash) (replicate (fb_bytes F) 0) in
  let bytes :=
    if decide (take = fb_bytes F) then <[0%nat := Z.land (bytes.[0]) match F with Fb163 => 0x07 | Fb257 => 0x01 end]> bytes
    else bytes in
  fb_from_be_bytes F bytes.

Definition truncate_162 (y : list Z) : list Z :=
  let bytes := fb_to_be_bytes Fb163 y in
  <[0%nat := Z.land (bytes.[0]) 0x03]> bytes.

Definition truncate_255 (y : list Z) : list Z :=
  let bytes := fb_to_be_bytes Fb257 y in
  let bytes := <[0%nat := 0]> bytes in
  <[1%nat := Z.land (bytes.[1]) 0x7F]> bytes.

Definition truncate (F : fb) (y : list Z) : list Z := match F with Fb163 => truncate_162 y | Fb257 => truncate_255 y end.

Definition is_zero (bytes : list Z) : bool := forallb (λ b, Z.eqb b 0) bytes.

(** The order of byte arrays: the first difference decides. *)
Fixpoint less_than (a b : list Z) : bool :=
  match a, b with
  | x :: a, y :: b => Z.ltb x y || (Z.eqb x y && less_than a b)
  | [], _ :: _ => true
  | _, [] => false
  end.

(** ** Signing and verification *)

Section Operations.
Context (fa : bool) (F : fb).

(** [let mut h = hash_to_field(hash); if h == ZERO { h = ONE }] *)
Definition hash_element (hash : list Z) : list Z :=
  let h := hash_to_field F hash in
  if decide (h = fb_ZERO F) then fb_ONE F else h.

Definition verify (small_tables : bool) (hash r s : list Z) (q g : Point) : bool :=
  let n := order F in
  if is_zero r || is_zero s || negb (less_than r n) || negb (less_than s n) then false
  else if negb (is_on_curve fa F q) || negb (bool_decide (scalar_multiply fa F q n = Infinity)) then false
  else
    let h := hash_element hash in
    let big_r := verify_combine fa F small_tables g s q r in
    match big_r with
    | Infinity => false
    | Affine rx _ =>
        let y := fb_multiply fa F h rx in
        bool_decide (truncate F y = r)
    end.

Definition sign (hash d e : list Z) (g : Point) : option (list Z * list Z) :=
  let h := hash_element hash in
  let e_bytes := sc_to_be_bytes F e in
  match scalar_multiply fa F g e_bytes with
  | Infinity => None
  | Affine fe_x _ =>
      if decide (fe_x = fb_ZERO F) then None
      else
        let y := fb_multiply fa F h fe_x in
        let r_bytes := truncate F y in
        if is_zero r_bytes then None
        else
          let r := sc_from_be_bytes F r_bytes in
          let s := sc_add F (sc_multiply F r d) e in
          if sc_is_zero F s then None
          else Some (r_bytes, sc_to_be_bytes F s)
  end.
End Operations.

(** ** Byte arrays as numbers *)

Lemma be_cons b l : from_be_bytes (b :: l) = 2 ^ (8 * length l) * b + from_be_bytes l.
Proof.
  change (b :: l) with ([b] ++ l). rewrite from_be_bytes_app. assert (from_be_bytes [b] = b) as -> by (unfold from_be_bytes; simpl; lia). lia.
Qed.

Lemma be_bound l : bytes_ok l → 0 ≤ from_be_bytes l < 2 ^ (8 * length l).
Proof. apply from_be_bytes_bound. Qed.

(** Masking the first byte. *)
Lemma be_mask b l k : byte_ok b → bytes_ok l → 0 ≤ k ≤ 8 → from_be_bytes (Z.land b (Z.ones k) :: l) = from_be_bytes (b :: l) mod 2 ^ (8 * length l + k).
Proof.
  intros Hb Hl Hk. rewrite !be_cons, Z.land_ones, Z.pow_add_r by lia. pose proof (be_bound l Hl) as Hv. set (B := 2 ^ (8 * length l)) in *. set (v := from_be_bytes l) in *.
  pose proof (Z.pow_pos_nonneg 2 k ltac:(lia) ltac:(lia)). pose proof (Z.div_mod b (2 ^ k) ltac:(lia)). pose proof (Z.mod_pos_bound b (2 ^ k) ltac:(lia)).
  apply (Z.mod_unique _ _ (b / 2 ^ k)); nia.
Qed.

Lemma is_zero_spec l : bytes_ok l → is_zero l = bool_decide (from_be_bytes l = 0).
Proof.
  intros Hl. apply eq_bool_prop_intro. rewrite !Is_true_true, bool_decide_eq_true. induction Hl as [|b l Hb Hl IH]; [done|].
  cbn [is_zero forallb]. rewrite andb_true_iff, Z.eqb_eq, be_cons. pose proof (be_bound l Hl). pose proof (Z.pow_pos_nonneg 2 (8 * length l) ltac:(lia) ltac:(lia)).
  destruct Hb as [Hb _]. unfold is_zero in IH. split; [intros [-> H1]; apply IH in H1; lia|]. intros E. assert (b = 0) by nia. subst b. split; [done|apply IH; lia].
Qed.

Lemma less_than_spec a b : length a = length b → bytes_ok a → bytes_ok b → less_than a b = bool_decide (from_be_bytes a < from_be_bytes b).
Proof.
  intros Hl Ha. revert b Hl. induction Ha as [|x a Hx Ha IH]; intros [|y b] Hl Hb; try done. apply Forall_cons in Hb as [Hy Hb]. injection Hl as Hl.
  cbn [less_than]. rewrite (IH b Hl Hb). apply eq_bool_prop_intro. rewrite !Is_true_true, orb_true_iff, andb_true_iff, Z.ltb_lt, Z.eqb_eq, !bool_decide_eq_true, !be_cons, Hl.
  pose proof (be_bound a Ha) as H1. pose proof (be_bound b Hb) as H2. rewrite Hl in H1. pose proof (Z.pow_pos_nonneg 2 (8 * length b) ltac:(lia) ltac:(lia)). nia.
Qed.

Lemma be_zeros n l : from_be_bytes (replicate n 0 ++ l) = from_be_bytes l.
Proof. induction n as [|n IH]; [done|]. cbn [replicate app]. rewrite be_cons, IH. lia. Qed.

Lemma be_drop (k : nat) l : bytes_ok l → (k ≤ length l)%nat → from_be_bytes (drop k l) = from_be_bytes l mod 2 ^ (8 * (length l - k)%nat).
Proof.
  intros Hl Hk. rewrite <- (take_drop k l) at 2. rewrite from_be_bytes_app, length_drop. pose proof (be_bound (drop k l) ltac:(by apply Forall_drop)) as Hb.
  rewrite length_drop in Hb. rewrite Z.mul_comm, Z.mod_add by (pose proof (Z.pow_pos_nonneg 2 (8 * (length l - k)%nat)); lia). symmetry. by apply Z.mod_small.
Qed.

Lemma mod_mod_smaller v (i j : Z) : 0 ≤ i ≤ j → (v mod 2 ^ j) mod 2 ^ i = v mod 2 ^ i.
Proof. intros H. apply Z.mod_mod_divide. exists (2 ^ (j - i)). rewrite <- Z.pow_add_r by lia. f_equal. lia. Qed.

(** The hash as an element: its lowest bits. *)
Lemma hash_to_field_ok F hash : bytes_ok hash → fb_ok F (hash_to_field F hash) ∧ value (hash_to_field F hash) = from_be_bytes hash mod 2 ^ fb_m F.
Proof.
  intros Hh. unfold hash_to_field. cbv zeta. set (t := Nat.min (length hash) (fb_bytes F)). set (last := drop (length hash - t) hash).
  assert (length last = t) as Hlast by (unfold last; rewrite length_drop; lia). assert (bytes_ok last) as Hlb by (by apply Forall_drop).
  assert (copy_at (fb_bytes F - t) last (replicate (fb_bytes F) 0) = replicate (fb_bytes F - t) 0 ++ last) as ->.
  { unfold copy_at. rewrite take_replicate, drop_replicate, Hlast. replace (fb_bytes F - (fb_bytes F - t + t))%nat with 0%nat by lia.
    cbn [replicate]. rewrite app_nil_r. f_equal. f_equal. lia. }
  assert (from_be_bytes last = from_be_bytes hash mod 2 ^ (8 * t)) as El.
  { unfold last. rewrite be_drop by first [done | lia]. do 3 f_equal. lia. }
  assert (∀ bytes, array_ok (fb_bytes F) bytes → from_be_bytes bytes = from_be_bytes hash mod 2 ^ fb_m F →
    fb_ok F (fb_from_be_bytes F bytes) ∧ value (fb_from_be_bytes F bytes) = from_be_bytes hash mod 2 ^ fb_m F) as Hok.
  { intros bytes Hb E. destruct (fb_from_be_bytes_ok F bytes Hb) as [H1 H2]. rewrite H2, E. split; [split; [done|]|done]. rewrite H2, E. apply word_ok_mod. lia. }
  case_decide as Et.
  - rewrite Et, Nat.sub_diag. cbn [replicate app]. rewrite Et in El, Hlast. destruct last as [|b l]; [by destruct F|]. apply Forall_cons in Hlb as [Hb Hl].
    simpl in Hlast. apply Hok; cbn [nth].
    + split; [done|]. change (bytes_ok (Z.land b match F with Fb163 => 7 | Fb257 => 1 end :: l)). constructor; [|done]. apply word_ok_land; [lia|done|by destruct F].
    + change (from_be_bytes (Z.land b match F with Fb163 => 7 | Fb257 => 1 end :: l) = from_be_bytes hash mod 2 ^ fb_m F).
      assert (match F with Fb163 => 7 | Fb257 => 1 end = Z.ones (fb_m F - 8 * length l)) as -> by (destruct F; simpl in Hlast; injection Hlast as ->; done).
      rewrite be_mask by (first [done | destruct F; simpl in *; lia]). rewrite El, Z.add_comm, Z.sub_add. apply mod_mod_smaller. pose proof (fb_m_bytes F). lia.
  - assert (t = length hash ∧ (t < fb_bytes F)%nat) as [Etl Hlt] by lia. apply Hok.
    + split; [rewrite length_app, length_replicate; lia|]. apply Forall_app. split; [by apply Forall_replicate|done].
    + rewrite be_zeros, El, Etl. pose proof (be_bound hash Hh). rewrite Z.mod_small by lia. symmetry. apply Z.mod_small. split; [lia|].
      eapply Z.lt_le_trans; [apply H|]. apply Z.pow_le_mono_r; [lia|]. destruct F; simpl in *; lia.
Qed.

(** The signature keeps one bit less than the order has, and so stays below it. *)
Definition kept_bits (F : fb) : Z := Z.log2 (order_val F).

Lemma kept_bits_eq F : kept_bits F = match F with Fb163 => 162 | Fb257 => 255 end.
Proof. destruct F; vm_compute; reflexivity. Qed.

Lemma kept_below F v : v mod 2 ^ kept_bits F < order_val F.
Proof.
  assert (0 < order_val F) as Hn by (destruct F; by_decision). unfold kept_bits. pose proof (Z.log2_spec _ Hn). pose proof (Z.log2_nonneg (order_val F)).
  pose proof (Z.mod_pos_bound v (2 ^ Z.log2 (order_val F)) ltac:(apply Z.pow_pos_nonneg; lia)). lia.
Qed.

Lemma truncate_ok F y : fb_ok F y → array_ok (fb_bytes F) (truncate F y) ∧ from_be_bytes (truncate F y) = value y mod 2 ^ kept_bits F.
Proof.
  intros [Hy Hv]. rewrite kept_bits_eq. pose proof (fb_to_be_bytes_ok F y Hy) as E. destruct (to_be_bytes_ok (fb_bytes F) (value y)) as [Hl Hb].
  assert (from_be_bytes (fb_to_be_bytes F y) = value y) as Ev.
  { rewrite E. apply from_to_be_bytes. apply (word_ok_mono (fb_m F)); [apply fb_m_bytes|done]. }
  rewrite <- E in Hl, Hb. destruct F; cbn [truncate]; unfold truncate_162, truncate_255; cbv zeta;
    set (bs := fb_to_be_bytes _ y) in *; clearbody bs; destruct bs as [|b bs]; try done; apply Forall_cons in Hb as [Hb Hbs]; injection Hl as Hl.
  - change (array_ok 21 (Z.land b 3 :: bs) ∧ from_be_bytes (Z.land b 3 :: bs) = value y mod 2 ^ 162). split.
    + split; [simpl; lia|]. constructor; [|done]. apply word_ok_land; [lia|done|lia].
    + change 3 with (Z.ones 2). rewrite be_mask, Ev, Hl by (done || lia). done.
  - destruct bs as [|c bs]; [done|]. apply Forall_cons in Hbs as [Hc Hbs]. injection Hl as Hl.
    change (array_ok 33 (0 :: Z.land c 127 :: bs) ∧ from_be_bytes (0 :: Z.land c 127 :: bs) = value y mod 2 ^ 255).
    assert (byte_ok (Z.land c 127)) as Hm by (apply word_ok_land; [lia|done|lia]). split.
    + split; [simpl; lia|]. repeat first [apply Forall_cons_2 | done].
    + rewrite be_cons, Z.mul_0_r, Z.add_0_l. change 127 with (Z.ones 7). rewrite be_mask, Hl, <- Ev, (be_cons b) by (done || lia).
      change (8 * 31%nat + 7) with 255. change (8 * length (c :: bs)) with (8 * S (length bs)). rewrite Hl. change (8 * 32%nat) with (255 + 1).
      rewrite Z.pow_add_r by lia. change (2 ^ 1) with 2. rewrite <- Z.mul_assoc, Z.add_comm, (Z.mul_comm (2 ^ 255)), Z.mod_add by lia. done.
Qed.

(** ** The group element of a scalar *)

Section Verify.
Context (fa : bool) (F : fb).
#[local] Abbreviation ca := (curve_a F).
#[local] Abbreviation cb := (curve_b F).
#[local] Abbreviation n := (order_val F).
#[local] Abbreviation mul k p := (bmul ca (Z.to_nat k) p).

Lemma hash_element_ok hash : bytes_ok hash → fb_ok F (hash_element F hash).
Proof.
  intros Hh. unfold hash_element. cbv zeta. case_decide; [apply (fb_rep_one F)|]. by apply hash_to_field_ok.
Qed.

Lemma array_below k : array_ok (fb_bytes F) k → from_be_bytes k < n → from_be_bytes k mod 2 ^ fb_m F = from_be_bytes k.
Proof.
  intros [Hl Hb] Hlt. pose proof (be_bound k Hb). pose proof (order_bounds F) as [[_ Hn] _]. apply Z.mod_small. lia.
Qed.

Lemma scalar_rep P p k : point_rep F P p → on ca cb p → array_ok (fb_bytes F) k → from_be_bytes k ≤ n →
  point_rep F (scalar_multiply fa F P k) (mul (from_be_bytes k) p).
Proof.
  intros HP Op Hk Hle. pose proof (pt_scalar_rep fa F P p k HP Op Hk) as H. destruct Hk as [Hl Hb]. pose proof (be_bound k Hb). pose proof (order_bounds F) as [[_ Hn] _].
  rewrite Z.mod_small in H by lia. done.
Qed.

(** What the signature keeps of a hash and a coordinate. *)
Definition digest_value (hash : list Z) (x : Z) : Z :=
  let h := from_be_bytes hash mod 2 ^ fb_m F in
  gmul (fb_m F) (fb_f F) (if decide (h = 0) then 1 else h) x mod 2 ^ kept_bits F.

Lemma digest_ok hash rx x : bytes_ok hash → fb_rep F rx x →
  array_ok (fb_bytes F) (truncate F (fb_multiply fa F (hash_element F hash) rx)) ∧
  from_be_bytes (truncate F (fb_multiply fa F (hash_element F hash) rx)) = digest_value hash (proj1_sig x).
Proof.
  intros Hh Hx. destruct (fb_rep_exists F (hash_element F hash) (hash_element_ok hash Hh)) as [h Hr].
  pose proof (fb_rep_mul fa F _ _ _ _ Hr Hx) as [Hok Hv]. destruct (truncate_ok F _ Hok) as [H1 H2]. split; [done|]. rewrite H2, Hv.
  destruct Hr as [_ Er]. unfold digest_value. cbv zeta. change (proj1_sig (fmul h x)) with (gmul (fb_m F) (fb_f F) (proj1_sig h) (proj1_sig x)). rewrite <- Er.
  do 2 f_equal. destruct (hash_to_field_ok F hash Hh) as [Hf Ef]. unfold hash_element. cbv zeta.
  destruct (fb_rep_exists F _ Hf) as [k Hk]. pose proof (fb_rep_iff F _ _ _ _ Hk (fb_rep_zero F)) as Hz.
  assert (hash_to_field F hash = fb_ZERO F ↔ from_be_bytes hash mod 2 ^ fb_m F = 0) as Hiff.
  { rewrite Hz, gf2m_eq, <- Ef. destruct Hk as [_ ->]. done. }
  case_decide; case_decide; [|tauto|tauto|done]. by destruct F.
Qed.

(** ** Verification *)

(** The public keys that verification admits: points of the subgroup, infinity excluded. *)
Definition key_point (q : Point) (p : fb_field F * fb_field F) : Prop := point_rep F q (Some p) ∧ in_subgroup F (Some p).

(** Coordinates of the right shape; they need not be canonical. *)
Definition point_shape (q : Point) : Prop :=
  match q with Infinity => True | Affine x y => limbs_ok (fb_limbs F) x ∧ limbs_ok (fb_limbs F) y end.

Lemma key_check q : point_shape q →
  negb (is_on_curve fa F q) || negb (bool_decide (scalar_multiply fa F q (order F) = Infinity)) = false ↔ ∃ p, key_point q p.
Proof.
  intros Hq. pose proof (is_on_curve_spec fa F q Hq) as Hc. rewrite orb_false_iff, !negb_false_iff, bool_decide_eq_true, Hc.
  assert (∀ p, point_rep F q p → on ca cb p → scalar_multiply fa F q (order F) = Infinity ↔ mul n p = None) as Ho.
  { intros p Hp Op. apply point_rep_infinity. apply (scalar_rep q p (order F) Hp Op (order_array F)). done. }
  split.
  - intros [(k & l & Hr & Hon) Hn]. exists (k, l). split; [done|]. split; [done|]. by apply (Ho _ Hr Hon).
  - intros ([k l] & Hr & Hon & Hn). split; [by exists k, l|]. by apply (Ho _ Hr Hon).
Qed.

Lemma ranges_check r s : array_ok (fb_bytes F) r → array_ok (fb_bytes F) s →
  is_zero r || is_zero s || negb (less_than r (order F)) || negb (less_than s (order F)) = false ↔
  0 < from_be_bytes r < n ∧ 0 < from_be_bytes s < n.
Proof.
  intros [Hlr Hr] [Hls Hs]. destruct (order_array F) as [Hlo Ho]. rewrite !is_zero_spec, !less_than_spec by first [done | congruence].
  pose proof (be_bound r Hr). pose proof (be_bound s Hs). fold n. rewrite !orb_false_iff, !negb_false_iff, !bool_decide_eq_false, !bool_decide_eq_true. lia.
Qed.

Lemma verify_spec small hash r s q g pg :
  bytes_ok hash → array_ok (fb_bytes F) r → array_ok (fb_bytes F) s → point_shape q → point_rep F g pg → on ca cb pg →
  verify fa F small hash r s q g = true ↔
  (0 < from_be_bytes r < n ∧ 0 < from_be_bytes s < n) ∧
  ∃ p, key_point q p ∧ ∃ x y, badd ca (mul (from_be_bytes s) pg) (mul (from_be_bytes r) (Some p)) = Some (x, y) ∧ digest_value hash (proj1_sig x) = from_be_bytes r.
Proof.
  intros Hh Hr Hs Hq Hg Og. pose proof (ranges_check r s Hr Hs) as Hrange. pose proof (key_check q Hq) as Hkey. unfold verify. cbv zeta.
  destruct (is_zero r || _ || _ || _); [split; [done|]; intros [H _]; by apply Hrange in H|]. assert (0 < from_be_bytes r < n ∧ 0 < from_be_bytes s < n) as Hrs by (by apply Hrange).
  destruct (negb (is_on_curve fa F q) || _); [split; [done|]; intros (_ & p & Hp & _); by assert (true = false) by (apply Hkey; eauto)|].
  destruct (proj1 Hkey eq_refl) as (p & Hp & Sp). pose proof Sp as [Op _].
  pose proof (verify_combine_rep fa F small g q pg (Some p) s r Hg Hp Og Op Hs Hr) as HR. rewrite !array_below in HR by (done || lia).
  set (R := badd ca _ _) in *. assert (∀ p', key_point q p' → p' = p) as Huniq.
  { intros p' [Hp' _]. pose proof (point_rep_inj F q _ _ Hp Hp'). congruence. }
  destruct (verify_combine fa F small g s q r) as [|rx ry], R as [[x y]|] eqn:ER; try done.
  - split; [done|]. intros (_ & p' & Hp' & x & y & E & _). rewrite (Huniq _ Hp') in E. unfold R in ER. congruence.
  - destruct HR as [Hx _]. destruct (digest_ok hash rx x Hh Hx) as [[Hlt Hbt] Et]. rewrite bool_decide_eq_true.
    assert (truncate F (fb_multiply fa F (hash_element F hash) rx) = r ↔ digest_value hash (proj1_sig x) = from_be_bytes r) as Heq.
    { rewrite <- Et. split; [by intros ->|]. intros E. destruct Hr as [Hlr Hbr]. rewrite <- (to_from_be_bytes r Hbr), <- E, Hlr, <- Hlt. symmetry. by apply to_from_be_bytes. }
    rewrite Heq. split.
    + intros E. split; [done|]. exists p. split; [done|]. by exists x, y.
    + intros (_ & p' & Hp' & x' & y' & E & Ed). rewrite (Huniq _ Hp') in E. unfold R in ER. by assert (x = x') as -> by congruence.
Qed.

(** ** Signing *)

Definition sign_value (hash : list Z) (dv ev : Z) (pg : bpoint) : option (Z * Z) :=
  match mul ev pg with
  | None => None
  | Some (x, _) =>
      let r := digest_value hash (proj1_sig x) in
      let s := (r * dv + ev) mod n in
      if decide (x = fzero ∨ r = 0 ∨ s = 0) then None else Some (r, s)
  end.

Lemma digest_range hash x : 0 ≤ digest_value hash x < n.
Proof. unfold digest_value. cbv zeta. split; [apply Z.mod_pos_bound, Z.pow_pos_nonneg; [lia|apply Z.log2_nonneg]|apply kept_below]. Qed.

Lemma sign_spec hash d e g pg :
  bytes_ok hash → sc_ok F d → sc_ok F e → point_rep F g pg → on ca cb pg →
  sign fa F hash d e g =
  match sign_value hash (limbs_val d) (limbs_val e) pg with
  | None => None
  | Some (r, s) => Some (to_be_bytes (fb_bytes F) r, to_be_bytes (fb_bytes F) s)
  end.
Proof.
  intros Hh Hd He Hg Og. destruct (sc_to_be_bytes_val F e He) as [Hea Eev]. pose proof He as [Hel Helt].
  pose proof (scalar_rep g pg (sc_to_be_bytes F e) Hg Og Hea ltac:(lia)) as HR. rewrite Eev in HR. unfold sign, sign_value. cbv zeta.
  destruct (scalar_multiply fa F g _) as [|fx fy], (bmul ca _ pg) as [[x y]|]; try done. destruct HR as [Hx _].
  rewrite (fb_decide F _ _ _ _ _ _ Hx (fb_rep_zero F)). destruct (decide (x = fzero)) as [Hz|Hz]; [rewrite decide_True; tauto|].
  destruct (digest_ok hash fx x Hh Hx) as [[Hlt Hbt] Et]. set (rb := truncate F _) in *. rewrite is_zero_spec, Et by done. set (rv := digest_value hash _) in *.
  case_bool_decide as Hr; [rewrite decide_True; tauto|].
  destruct (sc_from_be_bytes_ok F rb Hbt ltac:(lia)) as [Hrl Erl]. destruct (sc_multiply_ok F (sc_from_be_bytes F rb) d Hrl (proj1 Hd)) as [Hm Em].
  destruct (sc_add_ok F _ e Hm He) as [Hs Es]. rewrite sc_is_zero_ok by apply Hs. rewrite Es, Em, Erl, Et, Z.add_mod_idemp_l in * by (pose proof (order_prime F) as Hp; pose proof (Z.prime_ge_2 _ Hp); lia).
  set (sv := (rv * limbs_val d + limbs_val e) mod n) in *. case_bool_decide as Hs0; [rewrite decide_True; tauto|]. rewrite decide_False by tauto.
  f_equal. f_equal; [rewrite <- Et, <- Hlt; symmetry; by apply to_from_be_bytes|]. rewrite sc_to_be_bytes_ok by apply Hs. by rewrite Es.
Qed.
End Verify.

(** ** The keys *)

Section Keys.
Context (F : fb).
#[local] Abbreviation ca := (curve_a F).
#[local] Abbreviation cb := (curve_b F).
#[local] Abbreviation n := (order_val F).
#[local] Abbreviation mul k p := (bmul ca (Z.to_nat k) p).

Lemma order_pos : 0 < n.
Proof. pose proof (Z.prime_ge_2 _ (order_prime F)). lia. Qed.

Lemma mul_on k p : on ca cb p → on ca cb (mul k p).
Proof. apply crv_bmul_on. Qed.

(** Scalars count modulo the order. *)
Lemma mul_mod k p : in_subgroup F p → 0 ≤ k → mul (k mod n) p = mul k p.
Proof.
  intros [Op Hn] Hk. pose proof order_pos. rewrite Z2Nat.inj_mod by lia. symmetry. apply (bmul_order ca cb (curve_b_nonzero F)); [done|done|lia].
Qed.

Lemma mul_combine j k p : on ca cb p → 0 ≤ j → 0 ≤ k → mul (j + k) p = badd ca (mul j p) (mul k p).
Proof. intros Op Hj Hk. rewrite Z2Nat.inj_add by done. by apply (bmul_add ca cb (curve_b_nonzero F)). Qed.

Lemma mul_product j k p : on ca cb p → 0 ≤ j → 0 ≤ k → mul (j * k) p = mul j (mul k p).
Proof. intros Op Hj Hk. rewrite Z2Nat.inj_mul by done. by apply (bmul_mul ca cb (curve_b_nonzero F)). Qed.

Lemma base_subgroup : in_subgroup F (base F).
Proof. split; [apply base_on|apply base_in_kernel]. Qed.

(** The public key of a private one. *)
Lemma public_key d : 0 < d < n → ∃ p, bneg (mul d (base F)) = Some p ∧ in_subgroup F (Some p).
Proof.
  intros Hd. pose proof (curve_b_nonzero F) as Hb. pose proof (base_on F) as Ob. pose proof (mul_on d _ Ob) as Od.
  assert (mul n (bneg (mul d (base F))) = None) as Hn.
  { rewrite (bmul_neg ca cb Hb), <- mul_product, Z.mul_comm, mul_product, base_in_kernel, bmul_none by (done || lia). done. }
  destruct (bneg (mul d (base F))) as [p|] eqn:E; [exists p; split; [done|]; split; [|done]; rewrite <- E; by apply bneg_on|]. exfalso.
  assert (mul d (base F) = None) as E' by (by destruct (mul d (base F)) as [[]|]).
  pose proof (bmul_divides ca cb Hb (Z.to_nat n) (Z.to_nat d) (base F) Ob) as Hdiv. rewrite !Z2Nat.id in Hdiv by lia.
  apply Z.divide_pos_le in Hdiv; [lia|lia|apply order_prime|done|apply base_in_kernel|done].
Qed.

(** [s G + r Q = e G] for [s = r d + e] and [Q = - d G]. *)
Lemma key_equation d e r : 0 ≤ d → 0 ≤ e → 0 ≤ r →
  badd ca (mul ((r * d + e) mod n) (base F)) (mul r (bneg (mul d (base F)))) = mul e (base F).
Proof.
  intros Hd He Hr. pose proof (curve_b_nonzero F) as Hb. pose proof (base_on F) as Ob. rewrite mul_mod by (apply base_subgroup || nia).
  rewrite mul_combine, mul_product, (bmul_neg ca cb Hb) by first [done | nia | by apply mul_on]. set (A := mul r (mul d (base F))).
  assert (on ca cb A ∧ on ca cb (mul e (base F))) as [OA Oe] by (split; repeat apply mul_on; done).
  rewrite (badd_comm ca cb Hb) by (first [by apply bneg_on | by apply crv_badd_on]). by apply (badd_cancel_l ca cb Hb).
Qed.
End Keys.

(** The verifier accepts the values that signing computes. *)
Lemma sign_value_verifies (fa small_tables : bool) (F : fb) hash (dv ev r s : Z) (q : Point) :
  bytes_ok hash → 0 < dv < order_val F → 0 ≤ ev → sign_value F hash dv ev (base F) = Some (r, s) →
  point_rep F q (bneg (bmul (curve_a F) (Z.to_nat dv) (base F))) →
  verify fa F small_tables hash (to_be_bytes (fb_bytes F) r) (to_be_bytes (fb_bytes F) s) q (generator F) = true.
Proof.
  intros Hh Hd He Hsign HQ. pose proof (order_pos F) as Hn. unfold sign_value in Hsign. cbv zeta in Hsign.
  destruct (bmul (curve_a F) (Z.to_nat ev) (base F)) as [[x y]|] eqn:EE; [|done].
  set (rv := digest_value F hash (proj1_sig x)) in *. set (sv := (rv * dv + ev) mod order_val F) in *.
  destruct (decide (x = fzero ∨ rv = 0 ∨ sv = 0)) as [|Hz]; [done|]. injection Hsign as <- <-.
  pose proof (digest_range F hash (proj1_sig x)) as Hr. fold rv in Hr. pose proof (Z.mod_pos_bound (rv * dv + ev) (order_val F) Hn) as Hs. fold sv in Hs.
  pose proof (order_bytes F) as Hbytes. assert (∀ v, 0 ≤ v < order_val F → from_be_bytes (to_be_bytes (fb_bytes F) v) = v) as Hv.
  { intros v Hv. apply from_to_be_bytes. unfold word_ok. lia. }
  destruct (public_key F dv Hd) as (p & Ep & Hp). rewrite Ep in HQ.
  apply (verify_spec fa F small_tables hash _ _ q _ (base F)); [done|apply to_be_bytes_ok|apply to_be_bytes_ok| |apply generator_rep|apply base_on|].
  - destruct q as [|qx qy]; [done|]. destruct p as [k l], HQ as [[[H1 _] _] [[H2 _] _]]. by split.
  - rewrite !Hv by lia. split; [lia|]. exists p. split; [by split|]. exists x, y. split; [|done]. rewrite <- Ep. unfold sv. rewrite key_equation by lia. done.
Qed.

(** The public key that is derived from a private one. *)
Lemma public_key_rep fa F d : sc_ok F d →
  point_rep F (negate F (scalar_multiply fa F (generator F) (sc_to_be_bytes F d))) (bneg (bmul (curve_a F) (Z.to_nat (limbs_val d)) (base F))).
Proof.
  intros Hd. destruct (sc_to_be_bytes_val F d Hd) as [Ha E]. pose proof Hd as [_ Hlt]. apply negate_rep. rewrite <- E.
  apply scalar_rep; [apply generator_rep|apply base_on|done|]. rewrite E. lia.
Qed.

(** ** Theorems *)

(** Verification accepts every signature that signing returns, for the public key [- d G], on either path of the
    product and in either build. *)
Theorem signature_roundtrip (fa fa' small_tables : bool) (F : fb) (hash d e r s : list Z) :
  bytes_ok hash → sc_ok F d → sc_ok F e → 0 < limbs_val d → sign fa F hash d e (generator F) = Some (r, s) →
  verify fa' F small_tables hash r s (negate F (scalar_multiply fa F (generator F) (sc_to_be_bytes F d))) (generator F) = true.
Proof.
  intros Hh Hd He Hd0 Hsign. pose proof Hd as [_ Hdlt]. pose proof (limbs_val_bound _ _ (proj1 He)) as He0.
  rewrite (sign_spec fa F hash d e _ _ Hh Hd He (generator_rep F) (base_on F)) in Hsign.
  destruct (sign_value _ _ _ _ _) as [[rv sv]|] eqn:Ev; [|done]. injection Hsign as <- <-.
  apply (sign_value_verifies fa' small_tables F hash (limbs_val d) (limbs_val e)); [done|lia|lia|done|by apply public_key_rep].
Qed.

Lemma signature_roundtrip_witness :
  let d := [5; 0; 0] in let g := generator Fb163 in
  ∃ r s, sign true Fb163 [1; 2; 3] d [1; 0; 0] g = Some (r, s) ∧
  verify false Fb163 false [1; 2; 3] r s (negate Fb163 (scalar_multiply true Fb163 g (sc_to_be_bytes Fb163 d))) g = true.
Proof.
  assert (∃ r s, sign_value Fb163 [1; 2; 3] (limbs_val [5; 0; 0]) (limbs_val [1; 0; 0]) (base Fb163) = Some (r, s)) as (r & s & E).
  { unfold sign_value. change (Z.to_nat (limbs_val [1; 0; 0])) with 1%nat. rewrite bmul_1. unfold base. cbv zeta.
    change (proj1_sig (base_x Fb163)) with (value (gx Fb163)). rewrite decide_False; [by eexists _, _|].
    intros [H|[H|H]]; [apply gf2m_eq in H; revert H|revert H..]; vm_compute; done. }
  assert (sign true Fb163 [1; 2; 3] [5; 0; 0] [1; 0; 0] (generator Fb163) = Some (to_be_bytes 21 r, to_be_bytes 21 s)) as Es.
  { rewrite (sign_spec true Fb163 _ _ _ _ (base Fb163)), E by first [apply generator_rep | apply base_on | by_decision]. done. }
  eexists _, _. split; [exact Es|]. apply (signature_roundtrip true false false Fb163 [1; 2; 3] [5; 0; 0] [1; 0; 0]); [by_decision|by_decision|by_decision|by_decision|exact Es].
Defined.

(** What signing returns, on every branch: nothing when the point of the nonce has no usable coordinate or a part of the
    signature would be zero, and otherwise [r], the kept bits of the product of the hash and the coordinate, and
    [s = r d + e], both in [1, n). *)
Theorem sign_outcome (fa : bool) (F : fb) (hash d e : list Z) :
  bytes_ok hash → sc_ok F d → sc_ok F e →
  match bmul (curve_a F) (Z.to_nat (limbs_val e)) (base F) with
  | None => sign fa F hash d e (generator F) = None
  | Some (x, _) =>
      let r := digest_value F hash (proj1_sig x) in
      let s := (r * limbs_val d + limbs_val e) mod order_val F in
      (x = fzero ∨ r = 0 ∨ s = 0) ∧ sign fa F hash d e (generator F) = None ∨
      (0 < r < order_val F ∧ 0 < s < order_val F) ∧
      sign fa F hash d e (generator F) = Some (to_be_bytes (fb_bytes F) r, to_be_bytes (fb_bytes F) s)
  end.
Proof.
  intros Hh Hd He. rewrite (sign_spec fa F hash d e _ _ Hh Hd He (generator_rep F) (base_on F)). unfold sign_value.
  destruct (bmul _ _ _) as [[x y]|]; [|done]. cbv zeta. pose proof (digest_range F hash (proj1_sig x)) as Hr.
  pose proof (Z.mod_pos_bound (digest_value F hash (proj1_sig x) * limbs_val d + limbs_val e) (order_val F) (order_pos F)) as Hs.
  case_decide as Hc; [by left|right]. split; [lia|done].
Qed.

Lemma sign_outcome_witness :
  ∃ r s, 0 < r < order_val Fb257 ∧ 0 < s < order_val Fb257 ∧
  sign true Fb257 [1; 2; 3] [7; 0; 0; 0; 0] [1; 0; 0; 0; 0] (generator Fb257) = Some (to_be_bytes 33 r, to_be_bytes 33 s).
Proof.
  pose proof (sign_outcome true Fb257 [1; 2; 3] [7; 0; 0; 0; 0] [1; 0; 0; 0; 0] ltac:(by_decision) ltac:(by_decision) ltac:(by_decision)) as H.
  change (Z.to_nat (limbs_val [1; 0; 0; 0; 0])) with 1%nat in H. rewrite bmul_1 in H. unfold base in H. cbv zeta in H.
  assert (proj1_sig (base_x Fb257) = value (gx Fb257)) as Ex by done. rewrite Ex in H. clear Ex. destruct H as [[Hz _]|[[Hr Hs] E]].
  2: { eexists _, _. split; [exact Hr|]. split; [exact Hs|exact E]. }
  exfalso. destruct Hz as [Hz|[Hz|Hz]]; [apply gf2m_eq in Hz; revert Hz|revert Hz..]; vm_compute; done.
Defined.

(** C36. Verification accepts exactly the solutions of the verification equation: [r] and [s] in [1, n), a key in the
    subgroup of the base point other than infinity, and [r] the kept bits of the hash times the first coordinate of
    [s G + r Q]. *)
Theorem verify_exact (fa small_tables : bool) (F : fb) (hash r s : list Z) (q : Point) :
  bytes_ok hash → array_ok (fb_bytes F) r → array_ok (fb_bytes F) s → point_shape F q →
  verify fa F small_tables hash r s q (generator F) = true ↔
  (0 < from_be_bytes r < order_val F ∧ 0 < from_be_bytes s < order_val F) ∧
  ∃ p, point_rep F q (Some p) ∧ in_subgroup F (Some p) ∧
    ∃ x y, badd (curve_a F) (bmul (curve_a F) (Z.to_nat (from_be_bytes s)) (base F)) (bmul (curve_a F) (Z.to_nat (from_be_bytes r)) (Some p)) = Some (x, y) ∧
      digest_value F hash (proj1_sig x) = from_be_bytes r.
Proof.
  intros Hh Hr Hs Hq. rewrite (verify_spec fa F small_tables hash r s q _ _ Hh Hr Hs Hq (generator_rep F) (base_on F)). unfold key_point.
  split; (intros [H1 (p & H2)]; split; [done|]; exists p; tauto).
Qed.

Lemma verify_exact_witness : verify true Fb163 false [1] ORDER_163 ORDER_163 (generator Fb163) (generator Fb163) = false.
Proof.
  apply not_true_iff_false. intros H. apply (verify_exact true false Fb163) in H as [[H _] _]; [|by_decision|by_decision|by_decision|split; by_decision].
  revert H. vm_compute. by intros [_ H].
Defined.

(** The answer does not depend on the path of the product or on the build, for any key that is received. *)
Theorem verify_profiles (fa fa' small_tables small_tables' : bool) (F : fb) (hash r s : list Z) (q : Point) :
  bytes_ok hash → array_ok (fb_bytes F) r → array_ok (fb_bytes F) s → point_shape F q →
  verify fa F small_tables hash r s q (generator F) = verify fa' F small_tables' hash r s q (generator F).
Proof.
  intros Hh Hr Hs Hq. apply eq_bool_prop_intro. rewrite !Is_true_true.
  by rewrite (verify_spec fa F small_tables hash r s q _ _ Hh Hr Hs Hq (generator_rep F) (base_on F)),
    (verify_spec fa' F small_tables' hash r s q _ _ Hh Hr Hs Hq (generator_rep F) (base_on F)).
Qed.

Lemma verify_profiles_witness :
  verify true Fb163 false [1] ORDER_163 ORDER_163 (generator Fb163) (generator Fb163) =
  verify false Fb163 true [1] ORDER_163 ORDER_163 (generator Fb163) (generator Fb163).
Proof. apply verify_profiles; [by_decision|by_decision|by_decision|split; by_decision]. Defined.
