(* ===== verification/CryptoSign.v ===== *)
(** The signing interface ([crypto_sign.rs] and [crypto_sign257.rs]): keys, signatures as bytes, the nonces derived
    from the key and the digest, and the two loops that retry - key generation and signing.  One text over [fb]; the
    two files differ in the lengths, in the width of the MAC and in how the first byte of a candidate is masked.

    A [SigningKey] is its scalar, a [VerifyingKey] its point.  [None] stands for a panic ([unreachable!]) or for a loop
    that is still running when its fuel is spent; the theorems say when either happens. *)

From S2P Require Import Prelude Poly2 Gf2mWide Limb Primes Kupyna KupynaKmac Randombytes BinaryCurve Gf2Field Gf4145 Scalar4145 Curve4145 Signature4145.

(** ** Curve identifiers *)

Inductive CurveId : Type := M163 | M257.

#[export] Instance CurveId_eq_dec : EqDecision CurveId.
Proof. solve_decision. Defined.

Definition to_byte (self : CurveId) : Z := match self with M163 => 0x01 | M257 => 0x02 end.

Definition from_byte (tag : Z) : option CurveId :=
  if Z.eqb tag 0x01 then Some M163 else if Z.eqb tag 0x02 then Some M257 else None.

(** ** Signatures *)

Record Signature : Type := { sig_r : list Z; sig_s : list Z }.

Section CryptoSign.
Context (fa : bool) (F : fb).

(** Two halves of the same length, one after the other. *)
Definition two_halves (a b : list Z) : list Z :=
  let out := replicate (2 * fb_bytes F) 0 in
  let out := copy_at 0 a out in
  copy_at (fb_bytes F) b out.

Definition to_bytes (self : Signature) : list Z := two_halves (sig_r self) (sig_s self).

Definition from_bytes (bytes : list Z) : Signature :=
  {| sig_r := take (fb_bytes F) bytes; sig_s := drop (fb_bytes F) bytes |}.

(** ** Signing keys *)

Definition SigningKey : Type := list Z.

Definition key_from_bytes (d : list Z) : option SigningKey := from_candidate_bytes F d.

Definition mask_candidate (candidate : list Z) : list Z :=
  match F with
  | Fb163 => <[0%nat := Z.land (candidate.[0]) 0x07]> candidate
  | Fb257 => <[0%nat := 0]> candidate
  end.

(** [calls] are the calls of the generator of the operating system, in order. *)
Fixpoint generate {E : Type} (fuel : nat) (calls : nat → fill_call E) : option (result SigningKey (RandomError E)) :=
  match fuel with
  | O => None
  | S fuel =>
      let '(candidate, r) := randombytes_buf (calls O) (replicate (fb_bytes F) 0) in
      match r with
      | Err e => Some (Err e)
      | Ok _ =>
          let candidate := mask_candidate candidate in
          match from_candidate_bytes F candidate with
          | Some scalar => Some (Ok scalar)
          | None => generate fuel (λ i, calls (S i))
          end
      end
  end.

Definition key_to_bytes (self : SigningKey) : list Z := sc_to_be_bytes F self.

Definition VerifyingKey : Type := Point.

Definition verifying_key (self : SigningKey) : VerifyingKey :=
  let g := generator F in
  let d_bytes := sc_to_be_bytes F self in
  negate F (scalar_multiply fa F g d_bytes).

(** ** Nonces *)

Definition nonce_mac : kupyna := match F with Fb163 => Kupyna256 | Fb257 => Kupyna384 end.
Definition nonce_key_bytes : nat := match F with Fb163 => 32 | Fb257 => 48 end.
Definition nonce_key_offset : nat := match F with Fb163 => 11 | Fb257 => 15 end.

Definition derive_nonce (d hash : list Z) (counter : Z) : option (list Z) :=
  let key := replicate nonce_key_bytes 0 in
  let d_bytes := sc_to_be_bytes F d in
  let key := copy_at nonce_key_offset d_bytes key in
  let message := replicate 33 0 in
  let message := copy_at 0 hash message in
  let message := <[32%nat := counter]> message in
  r ← mac nonce_mac key message;
  match r with
  | Ok mac => Some (reduce_wide_bytes F mac)
  | Err _ => None
  end.

(** ** Signing *)

Fixpoint sign_loop (fuel : nat) (d digest : list Z) (counter : Z) : option Signature :=
  match fuel with
  | O => None
  | S fuel =>
      e ← derive_nonce d digest counter;
      match sign fa F digest d e (generator F) with
      | Some (r, s) => Some {| sig_r := r; sig_s := s |}
      | None => sign_loop fuel d digest (wrapping_add 8 counter 1)
      end
  end.

Definition sign_digest (fuel : nat) (self : SigningKey) (digest : list Z) : option Signature := sign_loop fuel self digest 0.

Definition sign_message (fuel : nat) (self : SigningKey) (message : list Z) : option Signature :=
  digest ← Kupyna.digest Kupyna256 message;
  sign_digest fuel self digest.

(** ** Verifying keys *)

Definition to_uncompressed_bytes (self : VerifyingKey) : list Z :=
  match self with
  | Affine x y => two_halves (fb_to_be_bytes F x) (fb_to_be_bytes F y)
  | Infinity => replicate (2 * fb_bytes F) 0
  end.

Definition from_uncompressed_bytes (bytes : list Z) : VerifyingKey :=
  Affine (fb_from_be_bytes F (take (fb_bytes F) bytes)) (fb_from_be_bytes F (drop (fb_bytes F) bytes)).

Definition verify_digest (small_tables : bool) (self : VerifyingKey) (digest : list Z) (sig : Signature) : bool :=
  let g := generator F in
  verify fa F small_tables digest (sig_r sig) (sig_s sig) self g.

Definition verify_message (small_tables : bool) (self : VerifyingKey) (message : list Z) (sig : Signature) : option bool :=
  digest ← Kupyna.digest Kupyna256 message;
  Some (verify_digest small_tables self digest sig).
End CryptoSign.

(** ** Bytes *)

Lemma two_halves_app F a b : length a = fb_bytes F → length b = fb_bytes F → two_halves F a b = a ++ b.
Proof.
  intros Ha Hb. unfold two_halves. replace (replicate (2 * fb_bytes F) 0) with (replicate (fb_bytes F) 0 ++ replicate (fb_bytes F) 0 ++ [])
    by (rewrite app_nil_r, <- replicate_add; f_equal; lia).
  rewrite copy_at_0 by (rewrite !length_app, !length_replicate; simpl; lia).
  rewrite drop_app_length' by (by rewrite length_replicate). rewrite copy_at_app by (rewrite ?length_replicate; done). by rewrite app_nil_r.
Qed.

Lemma curve_id_from_to_byte c : from_byte (to_byte c) = Some c.
Proof. by destruct c. Qed.

Lemma to_from_byte tag c : from_byte tag = Some c → tag = to_byte c.
Proof. unfold from_byte. destruct (Z.eqb_spec tag 1) as [->|]; [by intros [= <-]|]. destruct (Z.eqb_spec tag 2) as [->|]; [by intros [= <-]|done]. Qed.

Lemma from_to_bytes F sig :
  length (sig_r sig) = fb_bytes F → length (sig_s sig) = fb_bytes F → from_bytes F (to_bytes F sig) = sig.
Proof.
  intros Hr Hs. unfold from_bytes, to_bytes. rewrite two_halves_app by done. rewrite take_app_length', drop_app_length' by done. by destruct sig.
Qed.

Lemma to_from_bytes F bytes : length bytes = (2 * fb_bytes F)%nat → to_bytes F (from_bytes F bytes) = bytes.
Proof.
  intros Hl. unfold to_bytes, from_bytes. cbn [sig_r sig_s]. rewrite two_halves_app by (rewrite ?length_take, ?length_drop; lia). apply take_drop.
Qed.

(** ** Nonces *)

(** The nonce of a counter: the MAC of the digest and the counter under the key as 32 or 48 bytes, modulo the order. *)
Definition nonce_value (F : fb) (dv : Z) (digest : list Z) (counter : Z) : Z :=
  from_be_bytes (kmac_spec (nonce_mac F) (to_be_bytes (nonce_key_bytes F) dv) (digest ++ [counter])) mod order_val F.

Lemma nonce_key_padded F d : sc_ok F d →
  copy_at (nonce_key_offset F) (sc_to_be_bytes F d) (replicate (nonce_key_bytes F) 0) = to_be_bytes (nonce_key_bytes F) (limbs_val d).
Proof.
  intros Hd. destruct (sc_to_be_bytes_val F d Hd) as [[Hl Hb] <-]. set (bs := sc_to_be_bytes F d) in *. clearbody bs.
  assert (copy_at (nonce_key_offset F) bs (replicate (nonce_key_bytes F) 0) = replicate (nonce_key_offset F) 0 ++ bs) as ->.
  { unfold copy_at. rewrite take_replicate, drop_replicate, Hl. destruct F; cbn; by rewrite ?app_nil_r. }
  rewrite <- (be_zeros (nonce_key_offset F) bs). replace (nonce_key_bytes F) with (length (replicate (nonce_key_offset F) 0 ++ bs)).
  - symmetry. apply to_from_be_bytes, Forall_app. split; [by apply Forall_replicate|done].
  - rewrite length_app, length_replicate, Hl. by destruct F.
Qed.

Lemma nonce_message digest counter : length digest = 32%nat → <[32%nat := counter]> (copy_at 0 digest (replicate 33 0)) = digest ++ [counter].
Proof.
  intros Hl. rewrite copy_at_0 by (rewrite length_replicate; lia). rewrite Hl. change (drop 32 (replicate 33 0)) with [0].
  by rewrite insert_app_r_alt, Hl by lia.
Qed.

Lemma derive_nonce_ok F d digest counter :
  sc_ok F d → array_ok 32 digest → byte_ok counter →
  ∃ e, derive_nonce F d digest counter = Some e ∧ sc_ok F e ∧ limbs_val e = nonce_value F (limbs_val d) digest counter.
Proof.
  intros Hd [Hl Hb] Hc. unfold derive_nonce. cbv zeta. rewrite nonce_key_padded, nonce_message by done.
  destruct (to_be_bytes_ok (nonce_key_bytes F) (limbs_val d)) as [Hkl Hkb]. set (key := to_be_bytes _ _) in *.
  assert (bytes_ok (digest ++ [counter])) as Hm by (apply Forall_app; split; [done|by constructor]).
  assert (nonce_key_bytes F = digest_bytes (nonce_mac F)) as E by (by destruct F). rewrite E in Hkl.
  rewrite kmac_mac_spec; [|done|done|].
  - rewrite decide_True by done. cbn [mbind option_bind]. eexists. split; [done|]. apply reduce_wide_bytes_ok. by apply kupyna_digest_ok, kmac_input_bytes.
  - rewrite kmac_input_length, padded_key_length by done. unfold padded_message. rewrite !length_app, length_pad_suffix, Hl, Hkl. by destruct F.
Qed.

(** ** Signing *)

(** What one turn of the signing loop produces. *)
Definition attempt (F : fb) (dv : Z) (digest : list Z) (counter : Z) : option Signature :=
  '(r, s) ← sign_value F digest dv (nonce_value F dv digest counter) (base F);
  Some {| sig_r := to_be_bytes (fb_bytes F) r; sig_s := to_be_bytes (fb_bytes F) s |}.

Lemma sign_loop_step fa F fuel d digest counter :
  sc_ok F d → array_ok 32 digest → byte_ok counter →
  sign_loop fa F (S fuel) d digest counter =
  match attempt F (limbs_val d) digest counter with
  | Some sig => Some sig
  | None => sign_loop fa F fuel d digest ((counter + 1) mod 256)
  end.
Proof.
  intros Hd Hh Hc. destruct (derive_nonce_ok F d digest counter Hd Hh Hc) as (e & Ee & He & Ev). cbn [sign_loop]. rewrite Ee. cbn [mbind option_bind].
  rewrite (sign_spec fa F digest d e _ _ (proj2 Hh) Hd He (generator_rep F) (base_on F)), Ev. unfold attempt.
  destruct (sign_value _ _ _ _ _) as [[r s]|]; [done|]. cbn [mbind option_bind]. unfold wrapping_add. by rewrite wrap_mod by lia.
Qed.

(** The counters that are tried, in order: from [c] up to 255 and then from 0 again. *)
Lemma sign_loop_spec fa F (fuel : nat) d digest (c : Z) :
  sc_ok F d → array_ok 32 digest → 0 ≤ c < 256 → c + fuel ≤ 256 →
  sign_loop fa F fuel d digest c = head (omap (attempt F (limbs_val d) digest) (seqZ c fuel)).
Proof.
  intros Hd Hh. revert c. induction fuel as [|fuel IH]; intros c Hc Hf; [done|]. rewrite sign_loop_step by done.
  rewrite seqZ_cons by lia. cbn [omap list_omap]. destruct (attempt _ _ _ c); [done|]. replace (Z.pred (S fuel)) with (Z.of_nat fuel) by lia.
  destruct fuel as [|fuel]; [done|]. rewrite Z.mod_small by lia. apply (IH (c + 1)); lia.
Qed.

(** A turn that goes through all the counters in vain comes back to the first one. *)
Lemma sign_loop_turns fa F (fuel : nat) d digest c k :
  sc_ok F d → array_ok 32 digest → 0 ≤ c < 256 → (∀ c', 0 ≤ c' < 256 → attempt F (limbs_val d) digest c' = None) →
  sign_loop fa F fuel d digest ((c + k) mod 256) = None.
Proof.
  intros Hd Hh Hc Hn. revert k. induction fuel as [|fuel IH]; intros k; [done|]. pose proof (Z.mod_pos_bound (c + k) 256 ltac:(lia)).
  rewrite sign_loop_step by done. rewrite Hn, Zplus_mod_idemp_l, <- Z.add_assoc by done. apply IH.
Qed.

Lemma head_omap_none {A B} (f : A → option B) l : head (omap f l) = None ↔ ∀ x, x ∈ l → f x = None.
Proof.
  induction l as [|a l IH]; [split; [intros _ x Hx; by apply elem_of_nil in Hx|done]|]. cbn [omap list_omap]. destruct (f a) eqn:E.
  - split; [done|]. intros H. rewrite (H a) in E by left. done.
  - rewrite IH. split; intros H x Hx; [apply elem_of_cons in Hx as [->|Hx]; auto|]. apply H, elem_of_cons. by right.
Qed.

Lemma head_omap_some {A B} (f : A → option B) l b : head (omap f l) = Some b → ∃ x, x ∈ l ∧ f x = Some b.
Proof.
  induction l as [|a l IH]; [done|]. cbn [omap list_omap]. destruct (f a) eqn:E.
  - intros [= ->]. exists a. split; [by left|done].
  - intros H. destruct (IH H) as (x & Hx & Ex). exists x. split; [by right|done].
Qed.

Lemma sign_loop_fuel fa F fuel k d digest c sig : sign_loop fa F fuel d digest c = Some sig → sign_loop fa F (fuel + k) d digest c = Some sig.
Proof.
  revert c. induction fuel as [|fuel IH]; intros c; [done|]. cbn [sign_loop Nat.add]. destruct (derive_nonce _ _ _ _); [|done]. cbn [mbind option_bind].
  destruct (sign _ _ _ _ _ _) as [[]|]; [done|]. apply IH.
Qed.

Lemma sign_digest_eq fa F fuel d digest :
  sc_ok F d → array_ok 32 digest →
  sign_digest fa F fuel d digest = head (omap (attempt F (limbs_val d) digest) (seqZ 0 (fuel `min` 256)%nat)).
Proof.
  intros Hd Hh. unfold sign_digest. destruct (decide (fuel ≤ 256)%nat) as [Hf|Hf]; [by rewrite Nat.min_l, sign_loop_spec by (done || lia)|].
  rewrite Nat.min_r by lia. pose proof (sign_loop_spec fa F 256 d digest 0 Hd Hh ltac:(lia) ltac:(lia)) as E. destruct (head _) as [sig|] eqn:Eh.
  - replace fuel with (256 + (fuel - 256))%nat by lia. by apply sign_loop_fuel.
  - apply (sign_loop_turns fa F fuel d digest 0 0); [done|done|lia|]. intros c Hc. apply (proj1 (head_omap_none _ _) Eh), elem_of_seqZ. lia.
Qed.

(** ** Keys *)

Lemma uncompressed_roundtrip F x y : fb_ok F x → fb_ok F y →
  length (to_uncompressed_bytes F (Affine x y)) = (2 * fb_bytes F)%nat ∧ from_uncompressed_bytes F (to_uncompressed_bytes F (Affine x y)) = Affine x y.
Proof.
  intros Hx Hy. assert (∀ e, fb_ok F e → length (fb_to_be_bytes F e) = fb_bytes F) as Hl.
  { intros e He. rewrite fb_to_be_bytes_ok by apply He. apply to_be_bytes_ok. }
  unfold from_uncompressed_bytes, to_uncompressed_bytes. rewrite two_halves_app by auto.
  rewrite take_app_length', drop_app_length' by (by rewrite Hl). rewrite !fb_from_to_be_bytes, length_app, !Hl by done. split; [lia|done].
Qed.

Lemma uncompressed_shape F bytes : array_ok (2 * fb_bytes F) bytes →
  point_shape F (from_uncompressed_bytes F bytes) ∧ to_uncompressed_bytes F (from_uncompressed_bytes F bytes) = bytes.
Proof.
  intros [Hl Hb]. assert (array_ok (fb_bytes F) (take (fb_bytes F) bytes) ∧ array_ok (fb_bytes F) (drop (fb_bytes F) bytes)) as [Ht Hd].
  { split; (split; [rewrite ?length_take, ?length_drop; lia|by first [apply Forall_take | apply Forall_drop]]). }
  assert (∀ bs, array_ok (fb_bytes F) bs → limbs_ok (fb_limbs F) (fb_from_be_bytes F bs) ∧ fb_to_be_bytes F (fb_from_be_bytes F bs) = bs) as H.
  { intros bs Hbs. destruct (fb_from_be_bytes_ok F bs Hbs) as [H1 H2]. split; [done|]. rewrite fb_to_be_bytes_ok, H2 by done.
    destruct Hbs as [<- Hbs]. by apply to_from_be_bytes. }
  destruct (H _ Ht) as [Ht1 Ht2], (H _ Hd) as [Hd1 Hd2]. unfold from_uncompressed_bytes, to_uncompressed_bytes. split; [by split|].
  rewrite Ht2, Hd2, two_halves_app by (apply Ht || apply Hd). apply take_drop.
Qed.

Lemma key_bytes_roundtrip F d : sc_ok F d → 0 < limbs_val d → key_from_bytes F (key_to_bytes F d) = Some d.
Proof.
  intros Hd H0. destruct (sc_to_be_bytes_val F d Hd) as [Ha E]. pose proof Hd as [Hl Hlt]. unfold key_from_bytes, key_to_bytes.
  rewrite from_candidate_bytes_ok, E, decide_True by (done || lia). f_equal.
  destruct (sc_from_be_bytes_ok F (sc_to_be_bytes F d)) as [H1 H2]; [apply Ha|by rewrite (proj1 Ha)|]. rewrite E in H2. by apply (limbs_val_inj (fb_limbs F)).
Qed.

(** The verifying key of a signing key is an affine point, and it survives its bytes. *)
Lemma verifying_key_bytes fa F d : sc_ok F d → 0 < limbs_val d → let key := to_uncompressed_bytes F (verifying_key fa F d) in
  array_ok (2 * fb_bytes F) key ∧ from_uncompressed_bytes F key = verifying_key fa F d.
Proof.
  intros Hd H0 key. pose proof Hd as [_ Hlt]. pose proof (public_key_rep fa F d Hd) as HQ. fold (verifying_key fa F d) in HQ.
  destruct (public_key F (limbs_val d) ltac:(lia)) as (p & Ep & _). rewrite Ep in HQ. unfold key. clear key.
  destruct (verifying_key fa F d) as [|x y]; [done|]. assert (fb_ok F x ∧ fb_ok F y) as [Hx Hy] by (destruct p, HQ as [[? _] [? _]]; done).
  destruct (uncompressed_roundtrip F x y Hx Hy) as [Hlen E]. split; [split; [done|]|done].
  assert (∀ e, fb_ok F e → array_ok (fb_bytes F) (fb_to_be_bytes F e)) as He by (intros e He; rewrite fb_to_be_bytes_ok by apply He; apply to_be_bytes_ok).
  cbn [to_uncompressed_bytes]. rewrite two_halves_app by by apply He. apply Forall_app. split; by apply He.
Qed.

(** What the signing loop returns survives its bytes and is accepted. *)
Lemma attempt_verifies fa fa' small_tables F d digest c sig :
  sc_ok F d → 0 < limbs_val d → array_ok 32 digest → attempt F (limbs_val d) digest c = Some sig →
  array_ok (2 * fb_bytes F) (to_bytes F sig) ∧ verify_digest fa' F small_tables (verifying_key fa F d) digest (from_bytes F (to_bytes F sig)) = true.
Proof.
  intros Hd H0 Hh Hc. pose proof Hd as [_ Hlt]. unfold attempt in Hc. destruct (sign_value _ _ _ _ _) as [[r s]|] eqn:Ev; [|done]. injection Hc as <-.
  assert (∀ v, array_ok (fb_bytes F) (to_be_bytes (fb_bytes F) v)) as Hb by (intros v; apply to_be_bytes_ok).
  rewrite from_to_bytes by apply Hb. unfold to_bytes. cbn [sig_r sig_s]. rewrite two_halves_app by apply Hb. split.
  - replace (2 * fb_bytes F)%nat with (fb_bytes F + fb_bytes F)%nat by lia. by apply array_ok_app.
  - unfold verify_digest. cbn [sig_r sig_s]. apply (sign_value_verifies fa' small_tables F _ (limbs_val d) (nonce_value F (limbs_val d) digest c));
      [apply Hh|lia| |done|by apply public_key_rep]. unfold nonce_value. apply Z.mod_pos_bound, order_pos.
Qed.

Lemma sign_digest_verifies fa fa' fa'' small_tables F fuel d digest sig :
  sc_ok F d → 0 < limbs_val d → array_ok 32 digest → sign_digest fa F fuel d digest = Some sig →
  array_ok (2 * fb_bytes F) (to_bytes F sig) ∧ verify_digest fa'' F small_tables (verifying_key fa' F d) digest (from_bytes F (to_bytes F sig)) = true.
Proof.
  intros Hd H0 Hh E. rewrite sign_digest_eq in E by done. apply head_omap_some in E as (c & _ & Hc). by apply (attempt_verifies fa' fa'' small_tables F d digest c).
Qed.

(** ** Key generation *)

(** How many bits of the string are left in a candidate. *)
Definition candidate_bits (F : fb) : nat := match F with Fb163 => 163 | Fb257 => 256 end.

Lemma mask_candidate_ok F bytes : array_ok (fb_bytes F) bytes →
  array_ok (fb_bytes F) (mask_candidate F bytes) ∧ from_be_bytes (mask_candidate F bytes) = from_be_bytes bytes mod 2 ^ candidate_bits F.
Proof.
  intros [Hl Hb]. destruct bytes as [|b bytes]; [by destruct F|]. apply Forall_cons in Hb as [Hb Hbs].
  assert (mask_candidate F (b :: bytes) = Z.land b match F with Fb163 => Z.ones 3 | Fb257 => Z.ones 0 end :: bytes) as ->.
  { destruct F; [done|]. change (Z.ones 0) with 0. by rewrite Z.land_0_r. }
  split; [split; [done|constructor; [|done]; apply word_ok_land; [lia|done|by destruct F]]|].
  destruct F; injection Hl as Hl; rewrite be_mask by (done || lia); rewrite Hl; done.
Qed.

(** A call that succeeds with a candidate outside of the range. *)
Definition rejected {E} (F : fb) (call : fill_call E) : Prop :=
  ∃ bytes, call (replicate (fb_bytes F) 0) = (bytes, Ok tt) ∧ ¬ 0 < from_be_bytes bytes mod 2 ^ candidate_bits F < order_val F.

(** Key generation returns at the first call that fails or gives a number in range, and its key is that number; it
    is still running only if every call so far was rejected. *)
Theorem generate_outcome {E} (F : fb) (fuel : nat) (calls : nat → fill_call E) :
  (∀ i, array_ok (fb_bytes F) (calls i (replicate (fb_bytes F) 0)).1) →
  match generate F fuel calls with
  | Some (Ok d) => ∃ i bytes, (i < fuel)%nat ∧ (∀ j, (j < i)%nat → rejected F (calls j)) ∧ calls i (replicate (fb_bytes F) 0) = (bytes, Ok tt) ∧
      sc_ok F d ∧ 0 < limbs_val d ∧ limbs_val d = from_be_bytes bytes mod 2 ^ candidate_bits F
  | Some (Err (RandomError_new e)) => ∃ i, (i < fuel)%nat ∧ (∀ j, (j < i)%nat → rejected F (calls j)) ∧ (calls i (replicate (fb_bytes F) 0)).2 = Err e
  | None => ∀ i, (i < fuel)%nat → rejected F (calls i)
  end.
Proof.
  revert calls. induction fuel as [|fuel IH]; intros calls Hc; [intros i Hi; lia|]. pose proof (Hc O) as H0. cbn [generate]. unfold randombytes_buf.
  destruct (calls O (replicate (fb_bytes F) 0)) as [bytes [[]|e]] eqn:Ecall; cbn [fst] in H0; [|exists O; rewrite Ecall; split; [lia|split; [lia|done]]].
  destruct (mask_candidate_ok F bytes H0) as [Hm Em]. rewrite from_candidate_bytes_ok, Em by done. case_decide as Hr.
  - destruct (sc_from_be_bytes_ok F (mask_candidate F bytes)) as [H1 H2]; [apply Hm|by rewrite (proj1 Hm)|]. rewrite Em in H2.
    exists O, bytes. split; [lia|]. split; [lia|]. split; [done|]. split; [split; [done|lia]|lia].
  - assert (rejected F (calls O)) as Hrej by (by exists bytes). specialize (IH (λ i, calls (S i)) (λ i, Hc (S i))).
    assert (∀ P i, (∀ j, (j < i)%nat → rejected F (calls (S j))) ∧ P → (∀ j, (j < S i)%nat → rejected F (calls j)) ∧ P) as Hcons.
    { intros P i [H HP]. split; [|done]. intros [|j] Hj; [done|]. apply H. lia. }
    destruct (generate F fuel _) as [[d|[e]]|].
    + destruct IH as (i & bs & Hi & H). exists (S i), bs. split; [lia|]. by apply Hcons.
    + destruct IH as (i & Hi & H). exists (S i). split; [lia|]. by apply Hcons.
    + intros i Hi. apply (proj1 (Hcons True (fuel) ltac:(by split))). lia.
Qed.

Lemma generate_outcome_witness :
  ∃ d, generate Fb163 2 (λ i, match i with O => constant_fill (E := Z) 0 | S _ => constant_fill 1 end) = Some (Ok d) ∧
  0 < limbs_val d ∧ limbs_val d = from_be_bytes (replicate 21 1) mod 2 ^ 163.
Proof.
  pose proof (generate_outcome Fb163 2 (λ i, match i with O => constant_fill (E := Z) 0 | S _ => constant_fill 1 end)
    ltac:(intros [|i]; by_decision)) as H.
  destruct (generate _ _ _) as [[d|[e]]|] eqn:Eg.
  - exists d. split; [done|]. destruct H as ([|[|i]] & bytes & Hi & _ & Ec & _ & H0 & Hd); [exfalso|by injection Ec as <-|lia].
    injection Ec as <-. rewrite Hd in H0. revert H0. vm_compute. done.
  - revert Eg. vm_compute. done.
  - revert Eg. vm_compute. done.
Defined.

(** ** Theorems *)

(** C14. What the signing loop returns: the signature of the first counter whose nonce is usable, among the 256 that a byte
    can hold.  If none of them is, it never returns, whatever the number of turns. *)
Theorem sign_digest_terminates (fa : bool) (F : fb) (fuel : nat) (d digest : list Z) :
  sc_ok F d → array_ok 32 digest →
  sign_digest fa F fuel d digest = head (omap (attempt F (limbs_val d) digest) (seqZ 0 (fuel `min` 256)%nat)) ∧
  (sign_digest fa F fuel d digest ≠ None ↔ ∃ c, 0 ≤ c < (fuel `min` 256)%nat ∧ attempt F (limbs_val d) digest c ≠ None).
Proof.
  intros Hd Hh. rewrite sign_digest_eq by done. split; [done|]. split.
  - destruct (head _) as [sig|] eqn:E; [|done]. intros _. apply head_omap_some in E as (c & Hc & Ec). apply elem_of_seqZ in Hc.
    exists c. split; [lia|]. by rewrite Ec.
  - intros (c & Hc & Hn) E. apply Hn, (proj1 (head_omap_none _ _) E), elem_of_seqZ. lia.
Qed.

Lemma sign_digest_terminates_witness :
  let d := [7; 0; 0; 0; 0] in let digest := replicate 32 7 in
  sign_digest true Fb257 1000 d digest = head (omap (attempt Fb257 (limbs_val d) digest) (seqZ 0 (1000 `min` 256)%nat)) ∧
  (sign_digest true Fb257 1000 d digest ≠ None ↔ ∃ c, 0 ≤ c < (1000 `min` 256)%nat ∧ attempt Fb257 (limbs_val d) digest c ≠ None).
Proof.
  refine (sign_digest_terminates true Fb257 1000 [7; 0; 0; 0; 0] (replicate 32 7) _ _); by_decision.
Defined.

(** C13. The interface from end to end: a signature on a message, sent as bytes, is accepted by the key that was sent as
    bytes, in any build; and a signing key survives its bytes.  Signing a message fails to return only when the first nonces
    are all unusable. *)
Theorem crypto_sign_correct (fa fa' small_tables : bool) (F : fb) (fuel : nat) (d message : list Z) :
  sc_ok F d → 0 < limbs_val d → bytes_ok message → length message < 2 ^ 64 →
  let key := to_uncompressed_bytes F (verifying_key fa F d) in
  length key = (2 * fb_bytes F)%nat ∧ key_from_bytes F (key_to_bytes F d) = Some d ∧
  (∀ sig, sign_message fa F fuel d message = Some sig → length (to_bytes F sig) = (2 * fb_bytes F)%nat ∧
     verify_message fa' F small_tables (from_uncompressed_bytes F key) message (from_bytes F (to_bytes F sig)) = Some true) ∧
  (sign_message fa F fuel d message = None → ∀ c, 0 ≤ c < (fuel `min` 256)%nat → attempt F (limbs_val d) (kupyna_digest Kupyna256 message) c = None).
Proof.
  intros Hd H0 Hm Hl. cbv zeta. pose proof (kupyna_digest_ok Kupyna256 message Hm) as Hh. destruct (verifying_key_bytes fa F d Hd H0) as [[Hlen _] ->].
  split; [done|]. split; [by apply key_bytes_roundtrip|]. unfold sign_message, verify_message. rewrite (digest_spec Kupyna256 message Hm Hl). cbn [mbind option_bind]. split.
  - intros sig E. destruct (sign_digest_verifies fa fa fa' small_tables F fuel d _ sig Hd H0 Hh E) as [[Hls _] Hv]. split; [done|]. f_equal. exact Hv.
  - intros E c Hc. rewrite sign_digest_eq in E by done. apply (proj1 (head_omap_none _ _) E), elem_of_seqZ. lia.
Qed.

Lemma crypto_sign_correct_witness :
  let d := [5; 0; 0] in let key := to_uncompressed_bytes Fb163 (verifying_key true Fb163 d) in
  length key = (2 * fb_bytes Fb163)%nat ∧ key_from_bytes Fb163 (key_to_bytes Fb163 d) = Some d ∧
  (∀ sig, sign_message true Fb163 256 d [1; 2; 3] = Some sig → length (to_bytes Fb163 sig) = (2 * fb_bytes Fb163)%nat ∧
     verify_message false Fb163 true (from_uncompressed_bytes Fb163 key) [1; 2; 3] (from_bytes Fb163 (to_bytes Fb163 sig)) = Some true) ∧
  (sign_message true Fb163 256 d [1; 2; 3] = None →
     ∀ c, 0 ≤ c < (256 `min` 256)%nat → attempt Fb163 (limbs_val d) (kupyna_digest Kupyna256 [1; 2; 3]) c = None).
Proof.
  refine (crypto_sign_correct true false true Fb163 256 [5; 0; 0] [1; 2; 3] _ _ _ _); by_decision.
Defined.

(** Verification of received bytes never panics, and accepts exactly the signatures of the standard under a key in
    the subgroup of the base point; a key or a signature has one encoding. *)
Theorem verify_received (fa small_tables : bool) (F : fb) (key sig message : list Z) :
  array_ok (2 * fb_bytes F) key → array_ok (2 * fb_bytes F) sig → bytes_ok message → length message < 2 ^ 64 →
  to_uncompressed_bytes F (from_uncompressed_bytes F key) = key ∧ to_bytes F (from_bytes F sig) = sig ∧
  ∃ b, verify_message fa F small_tables (from_uncompressed_bytes F key) message (from_bytes F sig) = Some b ∧
  let r := from_be_bytes (take (fb_bytes F) sig) in let s := from_be_bytes (drop (fb_bytes F) sig) in
  b = true ↔ (0 < r < order_val F ∧ 0 < s < order_val F) ∧ ∃ p, key_point F (from_uncompressed_bytes F key) p ∧
    ∃ x y, badd (curve_a F) (bmul (curve_a F) (Z.to_nat s) (base F)) (bmul (curve_a F) (Z.to_nat r) (Some p)) = Some (x, y) ∧
      digest_value F (kupyna_digest Kupyna256 message) (proj1_sig x) = r.
Proof.
  intros Hk [Hls Hbs] Hm Hl. destruct (uncompressed_shape F key Hk) as [Hshape Hkey]. split; [done|]. split; [by apply to_from_bytes|].
  unfold verify_message. rewrite (digest_spec Kupyna256 message Hm Hl). cbn [mbind option_bind]. eexists. split; [done|]. cbv zeta. unfold verify_digest, from_bytes. cbn [sig_r sig_s].
  apply verify_spec; [by apply kupyna_digest_ok| | |done|apply generator_rep|apply base_on].
  - split; [rewrite length_take; lia|by apply Forall_take].
  - split; [rewrite length_drop; lia|by apply Forall_drop].
Qed.

Lemma verify_received_witness :
  to_uncompressed_bytes Fb163 (from_uncompressed_bytes Fb163 (replicate 42 1)) = replicate 42 1 ∧
  verify_message true Fb163 false (from_uncompressed_bytes Fb163 (replicate 42 1)) [1; 2; 3] (from_bytes Fb163 (replicate 42 0)) = Some false.
Proof.
  pose proof (verify_received true false Fb163 (replicate 42 1) (replicate 42 0) [1; 2; 3] ltac:(by_decision) ltac:(by_decision) ltac:(by_decision) ltac:(by_decision)) as H.
  destruct H as (H & _ & b & Hv & Hb). split; [exact H|]. destruct b; [exfalso|exact Hv]. destruct (proj1 Hb eq_refl) as [[[Hr _] _] _].
  revert Hr. vm_compute. done.
Defined.
