(* ===== verification/CryptoBox.v ===== *)
(** The sealed boxes ([crypto_box.rs], [crypto_box384.rs], [crypto_box512.rs]): a fresh seed is encrypted to the recipient
    (DSTU 9041), and the key that a KMAC derives from it encrypts the message as a stream file.  One text over the size
    [fp]; the files differ in the lengths, the label and in how the seed becomes the 32 bytes of the KMAC key.

    The calls of the generator of the operating system are a sequence; what an operation leaves of it is a part of its
    result.  [None] stands for a panic ([unreachable!]) or for a loop that is still running when its fuel is spent; the
    theorems show that only the second happens. *)

From S2P Require Import Prelude External BlockCipher Stream Kalyna Ghash Kupyna KupynaKmac Randombytes CryptoAuth Secretstream SecretstreamFile.
From S2P Require Import Limb Modular Primes Fp9041 Edwards Curve9041 Message9041 Encryption9041.

(** ** Sizes *)

Definition SEED_LEN (F : fp) : nat := match F with Fp256 => L_MAX_P Fp256 / 8 | _ => 32 end.
Definition SEED_BITS (F : fp) : nat := match F with Fp256 => L_MAX_P Fp256 | _ => SEED_LEN F * 8 end.
Definition KEM_CIPHERTEXT_LEN (F : fp) : nat := match F with Fp256 => 128 | Fp384 => 176 | Fp512 => 256 end.
Definition FORMAT_VERSION : Z := 3.
Definition PREFIX_LEN (F : fp) : nat := 1 + KEM_CIPHERTEXT_LEN F.
Definition SEAL_STREAM_PREFIX_BYTES (F : fp) : nat := PREFIX_LEN F + FILE_PREFIX_BYTES.
Definition MIN_SEALED_LEN (F : fp) : nat := SEAL_STREAM_PREFIX_BYTES F + RECORD_OVERHEAD_BYTES.
Definition PUBLIC_KEY_LEN (F : fp) : nat := match F with Fp256 => 32 | Fp384 => 48 | Fp512 => 64 end.

(** [cryptbox], [cryptbx3] and [cryptbx5] in ASCII. *)
Definition KDF_LABEL (F : fp) : list Z :=
  [0x63; 0x72; 0x79; 0x70; 0x74; 0x62] ++ match F with Fp256 => [0x6F; 0x78] | Fp384 => [0x78; 0x33] | Fp512 => [0x78; 0x35] end.
Definition KDF_MESSAGE_LEN (F : fp) : nat := length (KDF_LABEL F) + 1 + KEM_CIPHERTEXT_LEN F + PUBLIC_KEY_LEN F.

(** ** The stream key *)

Definition stream_key (F : fp) (seed kem_ciphertext recipient : list Z) (version : Z) : option (list Z) :=
  let message := replicate (KDF_MESSAGE_LEN F) 0 in
  let message := copy_at 0 (KDF_LABEL F) message in
  let message := <[length (KDF_LABEL F) := version]> message in
  let message := copy_at (length (KDF_LABEL F) + 1) kem_ciphertext message in
  let message := copy_at (length (KDF_LABEL F) + 1 + KEM_CIPHERTEXT_LEN F) recipient message in
  r ← KupynaKmac.mac Kupyna256 seed message;
  match r with
  | Ok key_bytes => Some key_bytes
  | Err _ => None
  end.

(** The 32 bytes of the KMAC key: the 25-byte seed of the smallest size is padded, the others are whole. *)
Definition embed_seed (F : fp) (seed : list Z) : list Z :=
  match F with
  | Fp256 => copy_at (32 - SEED_LEN F) seed (replicate 32 0)
  | _ => seed
  end.

(** The seed of a decrypted message. *)
Definition recovered_seed (F : fp) (m_tilde : list Z) : list Z :=
  match F with
  | Fp256 => m_tilde
  | _ => drop (length m_tilde - SEED_LEN F) m_tilde
  end.

(** ** Keys *)

Record SecretKey : Type := { sk_e : list Z; sk_public : Point }.

Definition from_valid_scalar (F : fp) (e : list Z) : SecretKey := {| sk_e := e; sk_public := scalar_multiply F (base_point F) e |}.

Definition secret_from_bytes (F : fp) (e : list Z) : option SecretKey :=
  if is_valid_scalar F e then Some (from_valid_scalar F e) else None.

Definition secret_to_bytes (self : SecretKey) : list Z := sk_e self.
Definition public_key (self : SecretKey) : Point := sk_public self.

Definition public_from_bytes (F : fp) (bytes : list Z) : option Point :=
  x ← from_candidate_bytes F bytes;
  point_from_x F x.

Definition public_to_bytes (F : fp) (self : Point) : list Z := fe_to_be_bytes F (pt_x self).

Section box.
Context {E : Type}.

Inductive SealError : Type := Random (e : RandomError E).
Inductive OpenError : Type := Truncated | UnsupportedVersion | InvalidCiphertext.

Definition generator_calls : Type := nat → fill_call E.
Definition later (calls : generator_calls) : generator_calls := λ i, calls (S i).

Fixpoint random_valid_scalar (F : fp) (fuel : nat) (calls : generator_calls) : option (result (list Z) (RandomError E) * generator_calls) :=
  match fuel with
  | O => None
  | S fuel =>
      let '(candidate, r) := randombytes_buf (calls O) (replicate (bytes_of F) 0) in
      match r with
      | Err e => Some (Err e, later calls)
      | Ok _ => if is_valid_scalar F candidate then Some (Ok candidate, later calls) else random_valid_scalar F fuel (later calls)
      end
  end.

Definition secret_generate (F : fp) (fuel : nat) (calls : generator_calls) : option (result SecretKey (RandomError E)) :=
  '(r, _) ← random_valid_scalar F fuel calls;
  Some (result_bind r (λ e, Ok (from_valid_scalar F e))).

(** ** Sealing *)

Definition encapsulate (F : fp) (fuel : nat) (calls : generator_calls) (recipient : Point) (version : Z) :
    option (result (list Z * list Z) (RandomError E) * generator_calls) :=
  let '(seed, r) := randombytes_buf (calls O) (replicate (SEED_LEN F) 0) in
  match r with
  | Err e => Some (Err e, later calls)
  | Ok _ =>
      '(r, calls) ← random_valid_scalar F fuel (later calls);
      match r with
      | Err e => Some (Err e, calls)
      | Ok epsilon =>
          c ← encrypt F seed (SEED_BITS F) recipient epsilon;
          match c with
          | Err _ => None
          | Ok kem_ciphertext =>
              key ← stream_key F (embed_seed F seed) kem_ciphertext (public_to_bytes F recipient) version;
              Some (Ok (kem_ciphertext, key), calls)
          end
      end
  end.

Definition seal_stream (F : fp) (fuel : nat) (calls : generator_calls) (recipient : Point) :
    option (result (FileEncryptor * list Z) SealError * generator_calls) :=
  '(r, calls) ← encapsulate F fuel calls recipient FORMAT_VERSION;
  match r with
  | Err e => Some (Err (Random e), calls)
  | Ok (kem_ciphertext, key) =>
      r ← encryptor_init (calls O) key;
      let calls := later calls in
      match r with
      | Err (SecretstreamFile.Random e) => Some (Err (Random e), calls)
      | Err _ => None
      | Ok (enc, file_prefix) =>
          let prefix := replicate (SEAL_STREAM_PREFIX_BYTES F) 0 in
          let prefix := <[0%nat := FORMAT_VERSION]> prefix in
          let prefix := copy_at 1 kem_ciphertext prefix in
          Some (Ok (enc, copy_at (PREFIX_LEN F) file_prefix prefix), calls)
      end
  end.

Definition seal `{Cpu} (F : fp) (fuel : nat) (calls : generator_calls) (message : list Z) (recipient : Point) :
    option (result (list Z) SealError * generator_calls) :=
  '(r, calls) ← seal_stream F fuel calls recipient;
  match r with
  | Err e => Some (Err e, calls)
  | Ok (enc, prefix) =>
      '(_, r) ← seal_all (GetrandomError := E) enc message prefix;
      match r with
      | Err _ => None
      | Ok out => Some (Ok out, calls)
      end
  end.

(** ** Opening *)

Definition decapsulate `{Subtle} (F : fp) (kem_ciphertext : list Z) (secret : SecretKey) (version : Z) : option (result (list Z) OpenError) :=
  r ← decrypt F kem_ciphertext (sk_e secret);
  match r with
  | Err _ => Some (Err InvalidCiphertext)
  | Ok (m_tilde, bit_len) =>
      if negb (Nat.eqb bit_len (SEED_BITS F)) then Some (Err InvalidCiphertext)
      else
        key ← stream_key F (embed_seed F (recovered_seed F m_tilde)) kem_ciphertext (public_to_bytes F (public_key secret)) version;
        Some (Ok key)
  end.

Definition open_stream `{Subtle} (F : fp) (prefix : list Z) (secret : SecretKey) : option (result FileDecryptor OpenError) :=
  if negb (Z.eqb (prefix.[0]) FORMAT_VERSION) then Some (Err UnsupportedVersion)
  else
    let kem_ciphertext := copy_at 0 (drop 1 prefix) (replicate (KEM_CIPHERTEXT_LEN F) 0) in
    r ← decapsulate F kem_ciphertext secret FORMAT_VERSION;
    Some (result_bind r (λ key, Ok (decryptor_new key))).

Definition open `{Cpu} `{Subtle} `{Zeroize} (F : fp) (sealed : list Z) (secret : SecretKey) : option (result (list Z) OpenError) :=
  match sealed with
  | [] => Some (Err Truncated)
  | version :: _ =>
      if negb (Z.eqb version FORMAT_VERSION) then Some (Err UnsupportedVersion)
      else if Nat.ltb (length sealed) (MIN_SEALED_LEN F) then Some (Err Truncated)
      else
        let prefix := take (PREFIX_LEN F) sealed in
        let file := drop (PREFIX_LEN F) sealed in
        r ← open_stream F prefix secret;
        match r with
        | Err e => Some (Err e)
        | Ok dec =>
            '(_, r) ← open_all (GetrandomError := E) dec file;
            Some (match r with
                  | Ok plaintext => Ok plaintext
                  | Err SecretstreamFile.Truncated => Err Truncated
                  | Err _ => Err InvalidCiphertext
                  end)
        end
  end.
End box.
Arguments SealError E : clear implicits.
Arguments generator_calls E : clear implicits.

(** ** The length of a box *)

Definition div_ceil (n d : Z) : Z := if Z.ltb 0 (n mod d) then n / d + 1 else n / d.
Definition checked_mul (w a b : Z) : option Z := if Z.ltb (a * b) (2 ^ w) then Some (a * b) else None.

(** A [usize] has 64 bits. *)
Definition sealed_len (F : fp) (message_len : Z) : option Z :=
  let records := Z.max (div_ceil message_len CHUNK_BYTES) 1 in
  n ← checked_mul 64 records RECORD_OVERHEAD_BYTES;
  n ← checked_add 64 n message_len;
  checked_add 64 n (SEAL_STREAM_PREFIX_BYTES F).

(** ** Lemmas *)

Lemma kem_len F : KEM_CIPHERTEXT_LEN F = CIPHERTEXT_BYTES F.
Proof. by destruct F. Qed.

Lemma public_len F : PUBLIC_KEY_LEN F = bytes_of F.
Proof. by destruct F. Qed.

Lemma public_to_bytes_ok F P : point_ok F P → array_ok (PUBLIC_KEY_LEN F) (public_to_bytes F P).
Proof. intros [Hx _]. rewrite public_len. by apply fe_to_be_bytes_ok. Qed.

(** What the KMAC authenticates: the label, the version, the encrypted seed and the recipient. *)
Definition kdf_message (F : fp) (version : Z) (kem_ciphertext recipient : list Z) : list Z :=
  KDF_LABEL F ++ version :: kem_ciphertext ++ recipient.

Lemma kdf_message_built F version kem pk : length kem = KEM_CIPHERTEXT_LEN F → length pk = PUBLIC_KEY_LEN F →
  copy_at (length (KDF_LABEL F) + 1 + KEM_CIPHERTEXT_LEN F) pk (copy_at (length (KDF_LABEL F) + 1) kem
    (<[length (KDF_LABEL F) := version]> (copy_at 0 (KDF_LABEL F) (replicate (KDF_MESSAGE_LEN F) 0)))) = kdf_message F version kem pk.
Proof.
  intros Hk Hp. unfold KDF_MESSAGE_LEN, kdf_message. generalize (KDF_LABEL F) as label. intros label. rewrite <- Hk, <- Hp, !replicate_add.
  rewrite copy_at_0, <- !app_assoc, drop_app_length' by (rewrite ?length_app, ?length_replicate; lia).
  rewrite insert_app_r_alt, Nat.sub_diag by done. cbn [replicate app list_insert insert].
  change (label ++ version :: ?l) with (label ++ [version] ++ l).
  rewrite app_assoc, copy_at_app, app_assoc by (rewrite ?length_app, ?length_replicate; done).
  rewrite <- (app_nil_r (replicate (length pk) 0)), copy_at_app by (rewrite ?length_app, ?length_replicate; done). by rewrite app_nil_r, <- !app_assoc.
Qed.

Lemma stream_key_ok F seed kem pk version :
  array_ok 32 seed → array_ok (KEM_CIPHERTEXT_LEN F) kem → array_ok (PUBLIC_KEY_LEN F) pk → byte_ok version →
  stream_key F seed kem pk version = Some (kmac_spec Kupyna256 seed (kdf_message F version kem pk)) ∧
  array_ok 32 (kmac_spec Kupyna256 seed (kdf_message F version kem pk)).
Proof.
  intros Hs [Hkl Hkb] [Hpl Hpb] Hv. unfold stream_key. cbv zeta. rewrite kdf_message_built by done.
  destruct (mac_256 seed (kdf_message F version kem pk) Hs) as [Hmac Hok]; [| |split; [by rewrite Hmac|done]].
  - unfold kdf_message. apply Forall_app. split; [destruct F; by_decision|]. constructor; [done|]. by apply Forall_app.
  - unfold countable, kdf_message. rewrite length_app. cbn [length]. rewrite length_app, Hkl, Hpl. destruct F; by vm_compute.
Qed.

(** The seed survives the message format. *)
Lemma seed_format F seed : array_ok (SEED_LEN F) seed →
  array_ok 32 (embed_seed F seed) ∧ ∃ m, format_m_tilde F seed (SEED_BITS F) = Ok m ∧ recovered_seed F m = seed.
Proof.
  intros [Hl Hb]. split.
  - destruct F; [|by split..]. unfold embed_seed. split; [rewrite length_copy_at; rewrite ?length_replicate, ?Hl; done|].
    unfold copy_at. apply Forall_app. split; [by apply Forall_take, Forall_replicate|]. apply Forall_app. split; [done|by apply Forall_drop, Forall_replicate].
  - pose proof (format_spec F seed (SEED_BITS F) Hb) as Hf. destruct (format_m_tilde F seed (SEED_BITS F)) as [m|e].
    + exists m. split; [done|]. destruct Hf as (_ & Hlen & _ & ->). destruct F; unfold recovered_seed.
      * done.
      * rewrite drop_app_length'; [done|]. rewrite length_app, length_replicate, Hl. done.
      * rewrite drop_app_length'; [done|]. rewrite length_app, length_replicate, Hl. done.
    + exfalso. destruct e; first [by destruct F | destruct Hf as [_ Hf]; apply Hf; rewrite Hl; by destruct F | (revert Hf; destruct F; vm_compute; lia)].
Qed.

(** ** Keys and random scalars *)

Lemma seed_embedded F seed : array_ok (SEED_LEN F) seed → array_ok 32 (embed_seed F seed).
Proof. intros Hs. by apply seed_format. Qed.

(** A public key sent as bytes comes back as a point with the same coordinate. *)
Lemma public_key_received F e : Z.prime (p_of F) → Z.prime (n_of F) → array_ok (bytes_of F) e → is_valid_scalar F e = true →
  let q := public_key (from_valid_scalar F e) in
  ∃ q', public_from_bytes F (public_to_bytes F q) = Some q' ∧ public_to_bytes F q' = public_to_bytes F q ∧
    point_ok F q' ∧ multiple_up_to_sign F (Z.to_nat (from_be_bytes e)) q'.
Proof.
  intros Hp Hn He Hv q. assert (point_ok F q) as Hq by (apply scalar_multiply_ok; [done|apply base_ok]).
  destruct (ephemeral_accepted F Hp Hn e He Hv) as (q' & Eq & Hq'). exists q'.
  apply prep_self in Hq as HQ. destruct HQ as [Hr _].
  destruct (point_from_x_sound F Hp (pt_x q) _ q' Hr Eq) as [Ex _]. unfold public_from_bytes, public_to_bytes. rewrite from_candidate_to_be by apply Hq.
  cbn [mbind option_bind]. split; [done|]. split; [by rewrite Ex|]. split; [|done]. by eapply point_from_x_ok, Eq; [|apply Hq].
Qed.

Section calls.
Context {E : Type} (F : fp).

(** A call that succeeds with a string that is not a scalar in range. *)
Definition scalar_rejected (call : fill_call E) : Prop :=
  (call (replicate (bytes_of F) 0)).2 = Ok tt ∧ is_valid_scalar F (call (replicate (bytes_of F) 0)).1 = false.

Lemma random_valid_scalar_spec fuel (calls : generator_calls E) : (∀ i, fill_ok (calls i)) →
  match random_valid_scalar F fuel calls with
  | None => ∀ i, (i < fuel)%nat → scalar_rejected (calls i)
  | Some (Err (RandomError_new e), _) => ∃ i, (calls i (replicate (bytes_of F) 0)).2 = Err e
  | Some (Ok eps, calls') => array_ok (bytes_of F) eps ∧ is_valid_scalar F eps = true ∧ ∃ k, ∀ i, calls' i = calls (k + i)%nat
  end.
Proof.
  intros Hc. revert calls Hc. induction fuel as [|fuel IH]; intros calls Hc; [intros i Hi; lia|]. cbn [random_valid_scalar]. unfold randombytes_buf.
  pose proof (Hc O (bytes_of F)) as H0. destruct (calls O (replicate (bytes_of F) 0)) as [c [[]|e]] eqn:Ec; cbn [fst] in H0; [|exists O; by rewrite Ec].
  destruct (is_valid_scalar F c) eqn:Ev; [split; [done|]; split; [done|]; by exists 1%nat|].
  specialize (IH (later calls) (λ i n, Hc (S i) n)). destruct (random_valid_scalar F fuel (later calls)) as [[[eps|[e]] calls']|].
  - destruct IH as (H1 & H2 & k & Hk). split; [done|]. split; [done|]. by exists (S k).
  - destruct IH as (i & Hi). by exists (S i).
  - intros [|i] Hi; [|apply (IH i); lia]. split; by rewrite Ec.
Qed.
(** Which call the result comes from. *)
Lemma random_valid_scalar_drawn fuel (calls : generator_calls E) :
  match random_valid_scalar F fuel calls with
  | None => ∀ i, (i < fuel)%nat → scalar_rejected (calls i)
  | Some (r, _) => ∃ i, (∀ j, (j < i)%nat → scalar_rejected (calls j)) ∧
      match calls i (replicate (bytes_of F) 0) with
      | (bytes, Ok _) => r = Ok bytes ∧ is_valid_scalar F bytes = true
      | (_, Err e) => r = Err (RandomError_new e)
      end
  end.
Proof.
  revert calls. induction fuel as [|fuel IH]; intros calls; [intros i Hi; lia|]. cbn [random_valid_scalar]. unfold randombytes_buf.
  destruct (calls O (replicate (bytes_of F) 0)) as [c [[]|e]] eqn:Ec; [|exists O; rewrite Ec; split; [lia|done]].
  destruct (is_valid_scalar F c) eqn:Ev; [exists O; rewrite Ec; split; [lia|done]|]. assert (scalar_rejected (calls O)) as H0 by (split; by rewrite Ec).
  specialize (IH (later calls)). destruct (random_valid_scalar F fuel (later calls)) as [[r calls']|].
  - destruct IH as (i & Hj & Hi). exists (S i). split; [|done]. intros [|j] Hlt; [done|]. apply (Hj j). lia.
  - intros [|i] Hi; [done|]. apply (IH i). lia.
Qed.
End calls.

(** ** Sealing, to any usable point *)

Section seals.
Context {E : Type} `{Cpu} `{SubtleLaws} (F : fp) (Hp : Z.prime (p_of F)).

Definition call_failed (calls : generator_calls E) (err : E) : Prop := ∃ i n, (calls i (replicate n 0)).2 = Err err.

(** The key of a box: the KMAC of its context under the seed. *)
Definition context_key (q : Point) (seed kem : list Z) : list Z :=
  kmac_spec Kupyna256 (embed_seed F seed) (kdf_message F FORMAT_VERSION kem (public_to_bytes F q)).

Lemma context_key_ok q seed kem : point_ok F q → array_ok (SEED_LEN F) seed → array_ok (KEM_CIPHERTEXT_LEN F) kem →
  stream_key F (embed_seed F seed) kem (public_to_bytes F q) FORMAT_VERSION = Some (context_key q seed kem) ∧ array_ok 32 (context_key q seed kem).
Proof. intros Hq Hs Hk. apply stream_key_ok; [by apply seed_embedded|done|by apply public_to_bytes_ok|by_decision]. Qed.

(** An encrypted seed, as the standard makes it. *)
Definition seed_encrypted (q : Point) (seed kem : list Z) : Prop :=
  array_ok (SEED_LEN F) seed ∧ array_ok (KEM_CIPHERTEXT_LEN F) kem ∧
  ∃ eps, array_ok (bytes_of F) eps ∧ is_valid_scalar F eps = true ∧ encrypt F seed (SEED_BITS F) q eps = Some (Ok kem).

Lemma encapsulate_usable fuel calls q : (∀ i, fill_ok (calls i)) → point_ok F q → is_usable_recipient F q = true →
  match encapsulate F fuel calls q FORMAT_VERSION with
  | None => ∀ i, (i < fuel)%nat → scalar_rejected F (calls (S i))
  | Some (Err (RandomError_new err), _) => call_failed calls err
  | Some (Ok (kem, key), calls') => (∃ k, ∀ i, calls' i = calls (k + i)%nat) ∧ ∃ seed, seed_encrypted q seed kem ∧ key = context_key q seed kem
  end.
Proof.
  intros Hc Hq Hu. unfold encapsulate, randombytes_buf. pose proof (Hc O (SEED_LEN F)) as Hs.
  destruct (calls O (replicate (SEED_LEN F) 0)) as [seed [[]|err]] eqn:Ec; cbn [fst] in Hs; [|exists O, (SEED_LEN F); by rewrite Ec].
  pose proof (random_valid_scalar_spec F fuel (later calls) (λ i n, Hc (S i) n)) as Hr.
  destruct (random_valid_scalar F fuel (later calls)) as [[[eps|[err]] calls']|]; cbn [mbind option_bind]; [| |done].
  2: { destruct Hr as (i & Hi). by exists (S i), (bytes_of F). }
  destruct Hr as (Heps & Hveps & k & Hk). destruct (seed_format F seed Hs) as (_ & m & Em & _).
  destruct (encrypt_ok F seed (SEED_BITS F) q eps m Hp (proj2 Hs) Hq Hveps Hu Em) as (t & Hc' & Ht & Hx & _).
  set (kem := fe_to_be_bytes F _ ++ t) in *. assert (array_ok (KEM_CIPHERTEXT_LEN F) kem) as Hkem by (rewrite kem_len; by apply array_ok_app).
  rewrite Hc'. cbn [mbind option_bind]. destruct (context_key_ok q seed kem Hq Hs Hkem) as [-> _]. cbn [mbind option_bind].
  split; [by exists (S k)|]. exists seed. split; [|done]. split; [done|]. split; [done|]. by exists eps.
Qed.

Lemma encryptor_init_fails (fill : fill_call E) key err : (fill (replicate 32 0)).2 = Err err →
  encryptor_init fill key = Some (Err (SecretstreamFile.Random (RandomError_new err))).
Proof. intros Hf. unfold encryptor_init, push_init, randombytes_buf. destruct (fill (replicate 32 0)) as [h r]. cbn [snd] in Hf. by subst r. Qed.

Lemma prefix_built kem prefix : length kem = KEM_CIPHERTEXT_LEN F → length prefix = FILE_PREFIX_BYTES →
  copy_at (PREFIX_LEN F) prefix (copy_at 1 kem (<[0%nat := FORMAT_VERSION]> (replicate (SEAL_STREAM_PREFIX_BYTES F) 0))) = FORMAT_VERSION :: kem ++ prefix.
Proof.
  intros Hk Hl. unfold SEAL_STREAM_PREFIX_BYTES, PREFIX_LEN. rewrite <- Hk, <- Hl, !replicate_add. cbn [replicate app insert list_insert].
  change (FORMAT_VERSION :: ?l) with ([FORMAT_VERSION] ++ l). rewrite (copy_at_app [FORMAT_VERSION]) by (rewrite ?length_replicate; done).
  rewrite app_assoc, <- (app_nil_r (replicate (length prefix) 0)), copy_at_app by (rewrite ?length_app, ?length_replicate; done).
  by rewrite app_nil_r, <- app_assoc.
Qed.

Definition sealed_size (n : nat) : nat := SEAL_STREAM_PREFIX_BYTES F + n + RECORD_OVERHEAD_BYTES * records_of n.

(** Sealing to a usable point never panics, and what it returns is the version, an encrypted seed and a stream file. *)
Lemma seal_usable fuel calls message q : (∀ i, fill_ok (calls i)) → point_ok F q → is_usable_recipient F q = true →
  bytes_ok message → length message < 2 ^ 58 →
  match seal F fuel calls message q with
  | None => ∀ i, (i < fuel)%nat → scalar_rejected F (calls (S i))
  | Some (Err (Random (RandomError_new err)), _) => call_failed calls err
  | Some (Ok sealed, _) => ∃ seed kem header recs, seed_encrypted q seed kem ∧ length header = HEADER_BYTES ∧
      sealed = FORMAT_VERSION :: kem ++ Secretstream.FORMAT_VERSION :: header ++ recs ∧
      wire_file (start (context_key q seed kem) header) message recs ∧
      bytes_ok sealed ∧ length sealed < 2 ^ 64 ∧ length sealed = sealed_size (length message)
  end.
Proof.
  intros Hc Hq Hu Hb Hl. pose proof (encapsulate_usable fuel calls q Hc Hq Hu) as Hen. unfold seal, seal_stream.
  destruct (encapsulate F fuel calls q FORMAT_VERSION) as [[[[kem key]|[err]] calls']|]; cbn [mbind option_bind]; [| |done]; [|done].
  destruct Hen as ((k & Hk) & seed & Henc & ->). pose proof Henc as (Hs & [Hkl Hkb] & _). destruct (context_key_ok q seed kem Hq Hs (conj Hkl Hkb)) as [_ Hkey].
  destruct (calls' O (replicate 32 0)).2 as [[]|err] eqn:Eh.
  2: { rewrite (encryptor_init_fails _ _ err Eh). cbn [mbind option_bind]. exists (k + 0)%nat, 32%nat. by rewrite <- Hk. }
  assert (fill_ok (calls' O)) as Hf by (rewrite Hk; apply Hc).
  destruct (sealed_records (calls' O) _ message Hkey Hf Eh Hb Hl) as (enc & header & -> & [Hhl Hhb] & Hseal). cbn [mbind option_bind].
  rewrite prefix_built by (done || (cbn [length]; by rewrite Hhl)).
  destruct (Hseal (FORMAT_VERSION :: kem ++ Secretstream.FORMAT_VERSION :: header)) as (enc' & recs & -> & _ & Hw & Hrb & Hrl & Hbound). cbn [mbind option_bind].
  exists seed, kem, header, recs. split; [done|]. split; [done|]. split; [cbn [app]; by rewrite <- app_assoc|]. split; [done|].
  split; [|split].
  - cbn [app]. constructor; [by_decision|]. repeat (apply Forall_app; split); [done|constructor; [by_decision|done]|done].
  - cbn [app length]. rewrite !length_app. cbn [length]. rewrite Hkl, Hhl. assert (KEM_CIPHERTEXT_LEN F ≤ 256)%nat by (destruct F; cbn; lia). lia.
  - cbn [app length]. rewrite !length_app. cbn [length]. rewrite Hkl, Hhl, Hrl. unfold sealed_size, SEAL_STREAM_PREFIX_BYTES, PREFIX_LEN. change FILE_PREFIX_BYTES with 33%nat. lia.
Qed.
End seals.

(** ** Sealing and opening *)

Section boxes.
Context {E : Type} `{Cpu} `{SubtleLaws} `{ZeroizeLaws} (F : fp).
Context (e : list Z) (He : array_ok (bytes_of F) e) (Hp : Z.prime (p_of F)).
#[local] Abbreviation pub := (public_to_bytes F (public_key (from_valid_scalar F e))).

#[local] Abbreviation box_key := (context_key F (public_key (from_valid_scalar F e))).

Lemma public_ok : point_ok F (public_key (from_valid_scalar F e)).
Proof. apply scalar_multiply_ok; [done|apply base_ok]. Qed.

Lemma box_key_ok seed kem : array_ok (SEED_LEN F) seed → array_ok (KEM_CIPHERTEXT_LEN F) kem →
  stream_key F (embed_seed F seed) kem pub FORMAT_VERSION = Some (box_key seed kem) ∧ array_ok 32 (box_key seed kem).
Proof. apply context_key_ok, public_ok. Qed.

(** The boxes with plaintext [pt]: the version, the encrypted seed, and a stream file under the key derived from both. *)
Definition box_contains (sealed pt : list Z) : Prop :=
  ∃ kem m header recs, sealed = FORMAT_VERSION :: kem ++ Secretstream.FORMAT_VERSION :: header ++ recs ∧
    length kem = KEM_CIPHERTEXT_LEN F ∧ decrypt F kem e = Some (Ok (m, SEED_BITS F)) ∧ length header = HEADER_BYTES ∧
    wire_file (start (box_key (recovered_seed F m) kem) header) pt recs.

Lemma recovered_ok m : bits_ok F (SEED_BITS F) → padded_ok F (SEED_BITS F) m → array_ok (SEED_LEN F) (recovered_seed F m).
Proof.
  intros _ [[Hl Hb] _]. destruct F; cbn [recovered_seed]; [by split|..]; (split; [rewrite length_drop, Hl; done|by apply Forall_drop]).
Qed.

Lemma decapsulate_ok kem : array_ok (KEM_CIPHERTEXT_LEN F) kem →
  ∃ r, decapsulate F kem (from_valid_scalar F e) FORMAT_VERSION = Some r ∧
    ((∃ m, decrypt F kem e = Some (Ok (m, SEED_BITS F)) ∧ array_ok (SEED_LEN F) (recovered_seed F m) ∧ r = Ok (box_key (recovered_seed F m) kem)) ∨
     (r = Err InvalidCiphertext ∧ ∀ m, decrypt F kem e ≠ Some (Ok (m, SEED_BITS F)))).
Proof.
  intros Hk. assert (array_ok (CIPHERTEXT_BYTES F) kem) as Hk' by (by rewrite <- kem_len). unfold decapsulate. cbn [sk_e from_valid_scalar].
  destruct (decrypt F kem e) as [[[m bits]|err]|] eqn:Ed; cbn [mbind option_bind].
  - destruct (Nat.eqb_spec bits (SEED_BITS F)) as [->|Hb]; cbn [negb].
    + destruct (proj1 (proj2 (decryption_spec F kem e m _ Hp Hk')) Ed) as (_ & Hbits & Hpad & _).
      pose proof (recovered_ok m Hbits Hpad) as Hs. destruct (box_key_ok (recovered_seed F m) kem Hs Hk) as [-> _].
      eexists. split; [done|]. left. by exists m.
    + eexists. split; [done|]. right. split; [done|]. intros m' [=]. congruence.
  - eexists. split; [done|]. right. split; [done|]. intros m' [=].
  - destruct (decryption_spec F kem e [] 0 Hp Hk') as [[x Hx] _]. congruence.
Qed.

Lemma min_sealed : MIN_SEALED_LEN F = (1 + KEM_CIPHERTEXT_LEN F + (33 + 21))%nat.
Proof. unfold MIN_SEALED_LEN, SEAL_STREAM_PREFIX_BYTES, PREFIX_LEN. change FILE_PREFIX_BYTES with 33%nat. change RECORD_OVERHEAD_BYTES with 21%nat. lia. Qed.

Lemma wire_file_min s pt recs : wire_file s pt recs → session_ok s → bytes_ok recs → (21 ≤ length recs)%nat.
Proof.
  intros Hw Hs Hb. assert (∃ tag ct more, recs = record s tag ct ++ more) as (tag & ct & more & ->).
  { destruct Hw as [s ct _|s tag ct pt recs _ _ _]; [exists Final, ct, []; by rewrite app_nil_r|by exists tag, ct, recs]. }
  apply Forall_app in Hb as [Hb _]. rewrite length_app, length_record; [change RECORD_OVERHEAD_BYTES with 21%nat; lia|done|].
  unfold record in Hb. apply Forall_cons in Hb as [_ Hb]. apply Forall_app in Hb as [_ Hb]. by apply Forall_app in Hb as [Hb _].
Qed.

(** Opening never panics, and its answer is the plaintext of the box, if it is one. *)
Lemma sealed_box_open_spec sealed : bytes_ok sealed → length sealed < 2 ^ 64 →
  ∃ r, open (E := E) F sealed (from_valid_scalar F e) = Some r ∧ ∀ pt, r = Ok pt ↔ box_contains sealed pt.
Proof.
  intros Hb Hl. unfold open. destruct sealed as [|v sealed]; [eexists; split; [done|]; split; [done|]; by intros (kem & m & header & recs & [=] & _)|].
  destruct (Z.eqb_spec v FORMAT_VERSION) as [->|Hv]; cbn [negb].
  2: { eexists. split; [done|]. split; [done|]. intros (kem & m & header & recs & [= Hv' _] & _). done. }
  apply Forall_cons in Hb as [_ Hb]. change (PREFIX_LEN F) with (S (KEM_CIPHERTEXT_LEN F)). cbn [take drop length] in *. set (n := KEM_CIPHERTEXT_LEN F) in *.
  destruct (Nat.ltb_spec (S (length sealed)) (MIN_SEALED_LEN F)) as [Hshort|Hlong].
  - eexists. split; [done|]. split; [done|]. intros (kem & m & header & recs & Es & Hkl & Hd & Hhl & Hw). exfalso. injection Es as ->.
    apply Forall_app in Hb as [Hkb Hb]. apply Forall_cons in Hb as [_ Hb]. apply Forall_app in Hb as [Hhb Hrb].
    assert (array_ok (CIPHERTEXT_BYTES F) kem) as Hk by (split; [by rewrite Hkl, <- kem_len|done]).
    destruct (proj1 (proj2 (decryption_spec F kem e m _ Hp Hk)) Hd) as (_ & Hbits & Hpad & _).
    destruct (box_key_ok _ kem (recovered_ok m Hbits Hpad)) as [_ Hkey]; [by rewrite kem_len|].
    destruct (initial_subkey_spec _ header Hkey) as [_ Hsub]; [by split|].
    pose proof (wire_file_min _ _ _ Hw) as Hmin. rewrite min_sealed in Hshort. rewrite length_app in Hshort. cbn [length] in Hshort.
    rewrite length_app, Hkl, Hhl in Hshort. change HEADER_BYTES with 32%nat in Hshort. unfold n in *.
    specialize (Hmin ltac:(split; [done|by_decision]) Hrb). lia.
  - rewrite min_sealed in Hlong. fold n in Hlong. assert (array_ok n (take n sealed)) as Hk by (split; [rewrite length_take; lia|by apply Forall_take]).
    assert (bytes_ok (drop n sealed)) as Hdb by (by apply Forall_drop).
    unfold open_stream. cbn [nth negb]. rewrite Z.eqb_refl. cbn [negb drop]. rewrite drop_0.
    rewrite copy_at_0 by (rewrite length_replicate; apply Nat.eq_le_incl, Hk). rewrite (proj1 Hk), (drop_ge (replicate _ _)), app_nil_r by (by rewrite length_replicate).
    destruct (decapsulate_ok (take n sealed) Hk) as (r & -> & Hr). cbn [mbind option_bind].
    assert (∀ kem rest, FORMAT_VERSION :: sealed = FORMAT_VERSION :: kem ++ rest → length kem = n → kem = take n sealed ∧ rest = drop n sealed) as Hsplit.
    { intros kem rest Es Hkl. injection Es as ->. by rewrite take_app_length', drop_app_length' by done. }
    destruct Hr as [(m & Hd & Hs & ->)|[-> Hno]]; cbn [result_bind].
    2: { eexists. split; [done|]. split; [done|]. intros (kem & m & header & recs & Es & Hkl & Hd & _). destruct (Hsplit _ _ Es Hkl) as [-> _]. by apply Hno in Hd. }
    destruct (box_key_ok _ _ Hs Hk) as [_ Hkey]. destruct (open_all_spec (GE := E) _ (drop n sealed) Hkey Hdb) as (d & r & -> & _ & Hr & _); [rewrite length_drop; lia|].
    cbn [mbind option_bind]. eexists. split; [done|]. intros pt. trans (r = Ok pt); [destruct r as [|[]]; split; congruence|]. rewrite Hr.
    split.
    + intros (header & recs & Ef & Hhl & Hw). exists (take n sealed), m, header, recs. split; [|by split_and!; [apply Hk|..]].
      f_equal. rewrite <- (take_drop n sealed) at 1. by f_equal.
    + intros (kem & m' & header & recs & Es & Hkl & Hd' & Hhl & Hw). destruct (Hsplit _ _ Es Hkl) as [-> Ef]. exists header, recs.
      rewrite Hd in Hd'. injection Hd' as <-. by rewrite <- Ef.
Qed.

(** A key pair's sealing side: the public key itself, or the point that a sender decodes from its bytes. *)
Definition recipient_of (q : Point) : Prop :=
  point_ok F q ∧ public_to_bytes F q = pub ∧ multiple_up_to_sign F (Z.to_nat (from_be_bytes e)) q.

Context (Hve : is_valid_scalar F e = true) (Hn : Z.prime (n_of F)).

Lemma public_recipient : recipient_of (public_key (from_valid_scalar F e)).
Proof.
  split; [apply scalar_multiply_ok; [done|apply base_ok]|]. split; [done|]. left. apply multiple_of_base; [done|apply He].
Qed.

Lemma received_recipient q : public_from_bytes F pub = Some q → recipient_of q.
Proof.
  intros Hq. destruct (public_key_received F e Hp Hn He Hve) as (q' & Eq & Epub & Hok & Hm). rewrite Hq in Eq. injection Eq as <-. by split.
Qed.

(** What sealing returns for the recipient is a box with the message. *)
Lemma seal_contains q message seed kem header recs : recipient_of q → seed_encrypted F q seed kem → length header = HEADER_BYTES →
  wire_file (start (context_key F q seed kem) header) message recs →
  box_contains (FORMAT_VERSION :: kem ++ Secretstream.FORMAT_VERSION :: header ++ recs) message.
Proof.
  intros (Hq & Epub & Hm) (Hs & Hk & eps & Heps & Hveps & Ec) Hhl Hw. destruct (seed_format F seed Hs) as (_ & m & Em & Erec).
  destruct (encrypt_then_decrypt F seed (SEED_BITS F) e eps m q Hp Hn (proj2 Hs) Em He Hve Heps Hveps Hq Hm) as (c & Ec' & _ & Hd & _).
  rewrite Ec in Ec'. injection Ec' as <-. exists kem, m, header, recs. split; [done|]. split; [apply Hk|]. split; [done|]. split; [done|].
  rewrite Erec. unfold context_key in *. by rewrite <- Epub.
Qed.
End boxes.

(** ** The length of a box *)

Lemma box_div_ceil_spec n d : 0 ≤ n → 0 < d → div_ceil n d = (n + (d - 1)) / d.
Proof.
  intros Hn Hd. unfold div_ceil. pose proof (Z.div_mod n d ltac:(lia)) as E. pose proof (Z.mod_pos_bound n d Hd).
  destruct (Z.ltb_spec 0 (n mod d)); [apply Z.div_unique with (n mod d - 1)|apply Z.div_unique with (d - 1)]; lia.
Qed.

Lemma records_of_Z (n : nat) : Z.max (div_ceil n CHUNK_BYTES) 1 = records_of n.
Proof.
  pose proof chunk_bytes_pos. rewrite box_div_ceil_spec by lia. unfold records_of. rewrite Nat2Z.inj_max, Nat2Z.inj_div.
  replace (Z.of_nat (n + (CHUNK_BYTES - 1))) with (n + (CHUNK_BYTES - 1)) by lia. lia.
Qed.

(** The length is computed with overflow checks, and [None] means that it does not fit. *)
Lemma sealed_len_spec F (n : nat) :
  let len := SEAL_STREAM_PREFIX_BYTES F + n + RECORD_OVERHEAD_BYTES * records_of n in
  sealed_len F n = if decide (len < 2 ^ 64) then Some len else None.
Proof.
  cbv zeta. unfold sealed_len. rewrite records_of_Z. unfold checked_mul. change (Z.of_nat RECORD_OVERHEAD_BYTES) with 21.
  assert (0 ≤ SEAL_STREAM_PREFIX_BYTES F) by lia. destruct (Z.ltb_spec (records_of n * 21) (2 ^ 64)); cbn [mbind option_bind];
    [|by rewrite decide_False by lia]. rewrite checked_add_spec. case_decide; cbn [mbind option_bind]; [|by rewrite decide_False by lia].
  rewrite checked_add_spec. do 2 case_decide; try done; try lia. f_equal. lia.
Qed.

(** ** Theorems *)

(** A box is opened by its recipient, whether the sender has the public key itself or its bytes; its length is the one that
    is announced.  Sealing fails only if the generator does, and is still running only if every candidate for the
    ephemeral scalar was out of range: none of the [unreachable!]s is reached. *)
Theorem sealed_box_correct {E} `{Cpu} `{SubtleLaws} `{ZeroizeLaws} F fuel (calls : generator_calls E) e message q :
  Z.prime (p_of F) → Z.prime (n_of F) → array_ok (bytes_of F) e → is_valid_scalar F e = true →
  (∀ i, fill_ok (calls i)) → bytes_ok message → length message < 2 ^ 58 →
  let secret := from_valid_scalar F e in
  q = public_key secret ∨ public_from_bytes F (public_to_bytes F (public_key secret)) = Some q →
  (∀ sealed calls', seal F fuel calls message q = Some (Ok sealed, calls') →
     open (E := E) F sealed secret = Some (Ok message) ∧ sealed_len F (length message) = Some (Z.of_nat (length sealed))) ∧
  (∀ err calls', seal F fuel calls message q = Some (Err (Random (RandomError_new err)), calls') → call_failed calls err) ∧
  (seal F fuel calls message q = None → ∀ i, (i < fuel)%nat → scalar_rejected F (calls (S i))).
Proof.
  intros Hp Hn He Hv Hc Hb Hl secret Hq.
  assert (recipient_of F e q) as Hrec by (destruct Hq as [->|Hq]; [by apply public_recipient|by apply received_recipient]).
  pose proof (seal_usable F Hp fuel calls message q Hc (proj1 Hrec) (key_usable F Hp Hn e q He Hv (proj2 (proj2 Hrec))) Hb Hl) as Hs. split; [|split].
  - intros sealed calls' Es. rewrite Es in Hs. destruct Hs as (seed & kem & header & recs & Henc & Hhl & Eq & Hw & Hsb & Hsl & Hlen). split.
    + destruct (sealed_box_open_spec (E := E) F e He Hp sealed Hsb Hsl) as (r & Er & Hr). etrans; [exact Er|]. f_equal. apply Hr. rewrite Eq. by apply (seal_contains F e He Hp Hv Hn q message seed).
    + rewrite sealed_len_spec. cbv zeta. unfold sealed_size in Hlen. rewrite decide_True by lia. f_equal. lia.
  - intros err calls' Es. by rewrite Es in Hs.
  - intros Es. by rewrite Es in Hs.
Qed.

Lemma sealed_box_correct_witness :
  let _ := plain_subtle in let _ := {| feature_available := false |} in let _ := plain_zeroize in
  let calls : generator_calls Z := λ _, constant_fill 1 in let secret := from_valid_scalar Fp256 (replicate 31 0 ++ [5]) in
  ∃ sealed calls', seal Fp256 1 calls [1; 2; 3] (public_key secret) = Some (Ok sealed, calls') ∧
    open (E := Z) Fp256 sealed secret = Some (Ok [1; 2; 3]) ∧ sealed_len Fp256 (length [1; 2; 3]) = Some (Z.of_nat (length sealed)).
Proof.
  intros i1 i2 i3 calls secret.
  destruct (@sealed_box_correct Z i2 i1 plain_subtle_laws i3 plain_zeroize_laws Fp256 1 calls (replicate 31 0 ++ [5]) [1; 2; 3] (public_key secret)
    prime_256 n_of_256 ltac:(by_decision) ltac:(by vm_compute) ltac:(intros k; apply constant_fill_ok; by_decision) ltac:(by_decision) ltac:(by_decision)
    (or_introl eq_refl)) as (A & B & C).
  destruct (seal Fp256 1 calls [1; 2; 3] (public_key secret)) as [[[sealed|[[err]]] calls']|] eqn:Es.
  - exists sealed, calls'. split; [exact eq_refl|]. exact (A sealed calls' eq_refl).
  - exfalso. by destruct (B err calls' eq_refl) as (i & n & [=]).
  - exfalso. destruct (C eq_refl 0%nat ltac:(lia)) as [_ H]. revert H. by vm_compute.
Defined.

(** C15. Opening never panics and accepts exactly the boxes of the format: the version, an encrypted seed of the full length
    that the secret key decrypts, and a whole stream file under the key that the KMAC derives from the seed, the version,
    the encrypted seed and the recipient. *)
Theorem box_open_exact {E} `{Cpu} `{SubtleLaws} `{ZeroizeLaws} F e sealed :
  Z.prime (p_of F) → array_ok (bytes_of F) e → bytes_ok sealed → length sealed < 2 ^ 64 →
  ∃ r, open (E := E) F sealed (from_valid_scalar F e) = Some r ∧ ∀ pt, r = Ok pt ↔
    ∃ kem m header recs, sealed = FORMAT_VERSION :: kem ++ Secretstream.FORMAT_VERSION :: header ++ recs ∧
      length kem = KEM_CIPHERTEXT_LEN F ∧ decrypt F kem e = Some (Ok (m, SEED_BITS F)) ∧ length header = HEADER_BYTES ∧
      let key := kmac_spec Kupyna256 (embed_seed F (recovered_seed F m))
        (kdf_message F FORMAT_VERSION kem (public_to_bytes F (public_key (from_valid_scalar F e)))) in
      wire_file (start key header) pt recs.
Proof. intros Hp He Hb Hl. by apply sealed_box_open_spec. Qed.

Lemma box_open_exact_witness :
  let _ := plain_subtle in let _ := {| feature_available := false |} in let _ := plain_zeroize in
  ∃ r, open (E := Z) Fp384 (3 :: replicate 300 0) (from_valid_scalar Fp384 (replicate 47 0 ++ [5])) = Some r.
Proof.
  destruct (@box_open_exact Z {| feature_available := false |} plain_subtle plain_subtle_laws plain_zeroize plain_zeroize_laws
    Fp384 (replicate 47 0 ++ [5]) (3 :: replicate 300 0) prime_384 ltac:(by_decision) ltac:(by_decision) ltac:(by_decision)) as (r & Hr & _).
  by exists r.
Defined.

(** Sealing to a key that came as bytes, from anyone: every key that decoding accepts is usable, so the [unreachable!] that
    follows the encryption of the seed is not reached; the call is still running only if every candidate for the ephemeral
    scalar was out of range. *)
Theorem seal_never_panics {E} `{Cpu} `{SubtleLaws} F fuel (calls : generator_calls E) bytes q message :
  Z.prime (p_of F) → Z.prime (n_of F) → array_ok (bytes_of F) bytes → public_from_bytes F bytes = Some q →
  (∀ i, fill_ok (calls i)) → bytes_ok message → length message < 2 ^ 58 →
  public_to_bytes F q = bytes ∧ is_usable_recipient F q = true ∧
  (seal F fuel calls message q = None → ∀ i, (i < fuel)%nat → scalar_rejected F (calls (S i))).
Proof.
  intros Hp Hn Hbytes Eq Hc Hb Hl. unfold public_from_bytes in Eq. destruct (from_candidate_bytes F bytes) as [x|] eqn:Ex; [|done]. cbn [mbind option_bind] in Eq.
  assert (array_ok (8 * width F) bytes) as Hb' by done. destruct (from_candidate_ok F bytes x Hb' Ex) as [Hx Ebytes].
  assert (∃ k, rep F x k) as [k Hr] by (eexists; split; [done|reflexivity]). destruct (point_from_x_sound F Hp x k q Hr Eq) as [Epx _].
  pose proof (point_from_x_ok F x q Hp Hx Eq) as Hq. pose proof (decoded_usable F Hp Hn x q Hx Eq) as Hu.
  split; [unfold public_to_bytes; by rewrite Epx|]. split; [done|]. intros Es. pose proof (seal_usable F Hp fuel calls message q Hc Hq Hu Hb Hl) as Hs. by rewrite Es in Hs.
Qed.

Lemma seal_never_panics_witness :
  let _ := plain_subtle in let _ := {| feature_available := false |} in
  let calls : generator_calls Z := λ _, constant_fill 1 in let secret := from_valid_scalar Fp384 (replicate 47 0 ++ [5]) in
  ∃ q, public_from_bytes Fp384 (public_to_bytes Fp384 (public_key secret)) = Some q ∧ is_usable_recipient Fp384 q = true ∧
    (seal Fp384 0 calls [1; 2; 3] q = None → ∀ i, (i < 0)%nat → scalar_rejected Fp384 (calls (S i))).
Proof.
  intros i1 i2 calls secret. pose proof (public_ok Fp384 (replicate 47 0 ++ [5]) prime_384) as Hpub. fold secret in Hpub.
  destruct (public_key_received Fp384 (replicate 47 0 ++ [5]) prime_384 n_of_384 ltac:(by_decision) ltac:(by vm_compute)) as (q & Eq & _). fold secret in Eq.
  exists q. split; [exact Eq|].
  apply (@seal_never_panics Z i2 i1 plain_subtle_laws Fp384 0 calls (public_to_bytes Fp384 (public_key secret)) q [1; 2; 3]);
    [exact prime_384|exact n_of_384|exact (public_to_bytes_ok Fp384 _ Hpub)|exact Eq|intros k; apply constant_fill_ok; by_decision|by_decision|by_decision].
Defined.
