(* ===== verification/CryptoPwhash.v ===== *)
(** Password hashing ([crypto_pwhash.rs]): Argon2 with three fixed presets, the checks of an untrusted PHC string, and
    the derivation of a key from a password.  Argon2 itself and the PHC format are the third-party crates [argon2] and
    [password-hash]: what they offer is the class [Argon2Crate], what is documented of them [Argon2Laws], and
    [plain_argon2] at the end shows that the laws can hold.

    Whether the allocator grants a number of blocks is an argument.  [None] stands for a panic. *)

From stdpp Require Import countable strings.
From Stdlib Require Import Ascii.
From S2P Require Import Prelude External Randombytes.
#[local] Open Scope Z_scope.
#[local] Open Scope uacrypt_scope.

(** The algorithms of the crate that the source names. *)
Inductive Algorithm : Type := Argon2id | Argon2i.

#[global] Instance Algorithm_eq_dec : EqDecision Algorithm.
Proof. solve_decision. Defined.

Class Argon2Crate : Type := {
  (* [argon2] *)
  Params : Type; Argon2 : Type; Argon2Error : Type; Block : Type;
  (* [Params::new]: [None] is the overflow of [p_cost * 8] with overflow checks on. *)
  params_new : Z → Z → Z → option nat → option (result Params Argon2Error);
  block_count : Params → nat;
  argon2_new : Algorithm → Z → Params → Argon2;
  argon2_params : Argon2 → Params;
  block_default : Block;
  hash_password_into_with_memory : Argon2 → list Z → list Z → list Z → list Block → list Z * list Block * result unit Argon2Error;
  MAX_P_COST : Z; MIN_SALT_LEN : nat; DEFAULT_OUTPUT_LEN : nat;
  (* [password_hash] *)
  HashError : Type; Ident : Type; Value : Type; ParamsString : Type; Salt : Type; SaltString : Type; Output : Type;
  OUTPUT_MAX_LENGTH : nat; SALT_MAX_LENGTH : nat;
  from_argon2_error : Argon2Error → HashError;
  ident : Algorithm → Ident; as_str : Ident → string;
  params_string : Params → result ParamsString HashError;
  params_iter : ParamsString → list (Ident * Value);
  decimal : Value → result Z HashError;
  encode_b64 : list Z → result SaltString HashError; as_salt : SaltString → Salt;
  decode_b64 : Salt → list Z → result (list Z) HashError;
  output_new : list Z → result Output HashError; output_len : Output → nat; as_bytes : Output → list Z
}.

(** The fields of the crate's [PasswordHash], all public. *)
Record PasswordHash `{Argon2Crate} : Type := {
  ph_algorithm : Ident; ph_version : option Z; ph_params : ParamsString; ph_salt : option Salt; ph_hash : option Output
}.

(** Its text. *)
Class PhcText `{Argon2Crate} : Type := {
  password_hash_new : string → result PasswordHash HashError;
  to_string : PasswordHash → string
}.

Definition VERSION_V0x13 : Z := 0x13.

(** ** Presets *)

Inductive Strength : Type := Interactive | Moderate | Sensitive.

#[global] Instance Strength_eq_dec : EqDecision Strength.
Proof. solve_decision. Defined.

Definition m_and_t_cost (self : Strength) : Z * Z :=
  match self with
  | Interactive => (65536, 2)
  | Moderate => (262144, 3)
  | Sensitive => (1048576, 4)
  end.

Definition cost (self : Strength) : Z * Z * Z :=
  let '(m_cost, t_cost) := m_and_t_cost self in (m_cost, t_cost, 1).

Definition from_cost (m_cost t_cost p_cost : Z) : option Strength :=
  List.find (λ s, bool_decide (cost s = (m_cost, t_cost, p_cost))) [Interactive; Moderate; Sensitive].

Definition SALT_BYTES : nat := 16.
Definition KEY_BYTES : nat := 32.

Section pwhash.
Context `{Argon2Crate} {GE : Type}.

Definition strength_params (self : Strength) : option Params :=
  let '(m_cost, t_cost) := m_and_t_cost self in
  r ← params_new m_cost t_cost 1 None;
  match r with Ok p => Some p | Err _ => None end.

Inductive PwHashError : Type :=
| Random (e : RandomError GE)
| Hash (e : HashError)
| OutOfMemory
| Derive (e : Argon2Error).

(** Returns [out] and the result; the blocks are wiped and freed. *)
Definition hash_into_reserved_memory (try_reserve : nat → bool) (argon2 : Argon2) (password salt out : list Z) :
    list Z * result unit PwHashError :=
  let n := block_count (argon2_params argon2) in
  if negb (try_reserve n) then (out, Err OutOfMemory)
  else
    let blocks := replicate n block_default in
    let '(out, blocks, r) := hash_password_into_with_memory argon2 password salt out blocks in
    (out, match r with Ok _ => Ok tt | Err e => Err (Derive e) end).

(** ** Hashing *)

Definition hash_with_salt `{!PhcText} (try_reserve : nat → bool) (password salt_bytes : list Z) (strength : Strength) :
    option (result string PwHashError) :=
  params ← strength_params strength;
  let argon2 := argon2_new Argon2id VERSION_V0x13 params in
  let tag := replicate DEFAULT_OUTPUT_LEN 0 in
  let '(tag, r) := hash_into_reserved_memory try_reserve argon2 password salt_bytes tag in
  Some (match r with
  | Err (Derive e) => Err (Hash (from_argon2_error e))
  | Err e => Err e
  | Ok _ =>
      match encode_b64 salt_bytes with
      | Err e => Err (Hash e)
      | Ok salt =>
          match params_string (argon2_params argon2) with
          | Err e => Err (Hash e)
          | Ok params =>
              match output_new tag with
              | Err e => Err (Hash e)
              | Ok output =>
                  Ok (to_string {| ph_algorithm := ident Argon2id; ph_version := Some VERSION_V0x13; ph_params := params;
                                   ph_salt := Some (as_salt salt); ph_hash := Some output |})
              end
          end
      end
  end).

Definition hash_password `{!PhcText} (try_reserve : nat → bool) (fill : fill_call GE) (password : list Z) (strength : Strength) :
    option (result string PwHashError) :=
  let '(salt_bytes, r) := randombytes_buf fill (replicate SALT_BYTES 0) in
  match r with
  | Err e => Some (Err (Random e))
  | Ok _ => hash_with_salt try_reserve password salt_bytes strength
  end.

Definition derive_key (try_reserve : nat → bool) (password salt : list Z) (strength : Strength) : option (result (list Z) PwHashError) :=
  params ← strength_params strength;
  let argon2 := argon2_new Argon2id VERSION_V0x13 params in
  let key := replicate KEY_BYTES 0 in
  let '(key, r) := hash_into_reserved_memory try_reserve argon2 password salt key in
  Some (result_bind r (λ _, Ok key)).

(** ** Verification *)

Definition VERIFY_MAX_M_COST : Z := 1048576.
Definition VERIFY_MAX_WORK : Z := 4 * 1048576.
Definition VERIFY_MIN_TAG_LEN : nat := 16.

Definition verify_algorithm (algorithm : string) : option Algorithm :=
  if String.eqb algorithm "argon2id" then Some Argon2id
  else if String.eqb algorithm "argon2i" then Some Argon2i
  else None.

Definition verify_context (algorithm : string) (version : option Z) (costs : Z * Z * Z) (tag_len salt_len : nat) : option (option Argon2) :=
  let '(m_cost, t_cost, p_cost) := costs in
  match verify_algorithm algorithm with
  | None => Some None
  | Some algorithm =>
      if bool_decide (version ≠ Some VERSION_V0x13)
         || Z.ltb VERIFY_MAX_M_COST m_cost
         || Z.ltb VERIFY_MAX_WORK (wrap 64 (m_cost * t_cost))
         || negb (Nat.leb VERIFY_MIN_TAG_LEN tag_len && Nat.leb tag_len OUTPUT_MAX_LENGTH)
         || Nat.ltb salt_len MIN_SALT_LEN
         || Z.ltb MAX_P_COST p_cost
      then Some None
      else
        params ← params_new m_cost t_cost p_cost (Some tag_len);
        match params with
        | Err _ => Some None
        | Ok params => Some (Some (argon2_new algorithm VERSION_V0x13 params))
        end
  end.

(** The slots [m], [t], [p] and the loop over the parameters. *)
Fixpoint phc_loop (params : list (Ident * Value)) (m t p : option Z) : option (option Z * option Z * option Z) :=
  match params with
  | [] => Some (m, t, p)
  | (name, value) :: params =>
      let replace (slot : option Z) (next : Z → option (option Z * option Z * option Z)) :=
        match decimal value with
        | Err _ => None
        | Ok d => match slot with Some _ => None | None => next d end
        end in
      if String.eqb (as_str name) "m" then replace m (λ d, phc_loop params (Some d) t p)
      else if String.eqb (as_str name) "t" then replace t (λ d, phc_loop params m (Some d) p)
      else if String.eqb (as_str name) "p" then replace p (λ d, phc_loop params m t (Some d))
      else None
  end.

Definition phc_costs (parsed : PasswordHash) : option (Z * Z * Z) :=
  '(m, t, p) ← phc_loop (params_iter (ph_params parsed)) None None None;
  m ← m; t ← t; p ← p; Some (m, t, p).

Definition verify_password `{Subtle} `{!PhcText} (try_reserve : nat → bool) (password : list Z) (hash : string) : option bool :=
  match password_hash_new hash with
  | Err _ => Some false
  | Ok parsed =>
      match ph_salt parsed, ph_hash parsed with
      | Some salt, Some expected =>
          match phc_costs parsed with
          | None => Some false
          | Some costs =>
              match decode_b64 salt (replicate SALT_MAX_LENGTH 0) with
              | Err _ => Some false
              | Ok salt =>
                  context ← verify_context (as_str (ph_algorithm parsed)) (ph_version parsed) costs (output_len expected) (length salt);
                  match context with
                  | None => Some false
                  | Some argon2 =>
                      let n := block_count (argon2_params argon2) in
                      if negb (try_reserve n) then Some false
                      else
                        let blocks := replicate n block_default in
                        let tag := take (output_len expected) (replicate OUTPUT_MAX_LENGTH 0) in
                        let '(tag, blocks, r) := hash_password_into_with_memory argon2 password salt tag blocks in
                        Some (match r with Ok _ => ct_eq_slice tag (as_bytes expected) | Err _ => false end)
                  end
              end
          end
      | _, _ => Some false
      end
  end.
End pwhash.
Arguments PwHashError {_} GE.

(** ** What the crates document *)

(** The costs that [Params::new] takes: a pass, a lane, eight blocks of 1 KiB for every lane, an output of four bytes. *)
Definition valid_params (m t p : Z) (len : option nat) : Prop :=
  8 * p ≤ m ∧ 1 ≤ t ∧ 1 ≤ p ≤ 0xFFFFFF ∧ match len with Some n => 4 ≤ n < 2 ^ 32 | None => True end.

#[global] Instance valid_params_dec m t p len : Decision (valid_params m t p len).
Proof. unfold valid_params. destruct len; apply _. Defined.

Class Argon2Laws `{Argon2Crate} : Prop := {
  max_p_cost_eq : MAX_P_COST = 0xFFFFFF;
  min_salt_len_eq : MIN_SALT_LEN = 8%nat;
  default_output_len_eq : DEFAULT_OUTPUT_LEN = 32%nat;
  output_max_length_eq : OUTPUT_MAX_LENGTH = 64%nat;
  salt_max_length_eq : SALT_MAX_LENGTH = 64%nat;
  params_new_spec m t p len : word_ok 32 m → word_ok 32 t → word_ok 32 p → 8 * p < 2 ^ 32 →
    match params_new m t p len with
    | None => False
    | Some (Ok ps) => valid_params m t p len ∧ block_count ps ≤ m
    | Some (Err _) => ¬ valid_params m t p len
    end;
  argon2_params_new alg v ps : argon2_params (argon2_new alg v ps) = ps;
  hash_output argon2 password salt out blocks :
    bytes_ok out → array_ok (length out) (hash_password_into_with_memory argon2 password salt out blocks).1.1;
  decimal_u32 v d : decimal v = Ok d → word_ok 32 d
}.

(** The text of a hash is read back; the length of the output that is noted in the parameters is only checked. *)
Class PhcLaws `{PhcText} : Prop := {
  parse_to_string h : is_Some (ph_salt h) → is_Some (ph_hash h) → password_hash_new (to_string h) = Ok h;
  decode_encode_b64 bytes s buf : encode_b64 bytes = Ok s → (length bytes ≤ length buf)%nat → decode_b64 (as_salt s) buf = Ok bytes;
  output_new_spec bytes o : output_new bytes = Ok o → as_bytes o = bytes ∧ output_len o = length bytes;
  ident_argon2id : as_str (ident Argon2id) = "argon2id"%string;
  params_string_spec m t p ps s : word_ok 32 m → word_ok 32 t → word_ok 32 p → params_new m t p None = Some (Ok ps) → params_string ps = Ok s →
    map (λ x, (as_str x.1, decimal x.2)) (params_iter s) = [("m", Ok m); ("t", Ok t); ("p", Ok p)]%string;
  params_len m t p n ps ps' : params_new m t p None = Some (Ok ps) → params_new m t p (Some n) = Some (Ok ps') →
    block_count ps = block_count ps' ∧
    ∀ alg v password salt out blocks, length out = n →
      hash_password_into_with_memory (argon2_new alg v ps) password salt out blocks =
      hash_password_into_with_memory (argon2_new alg v ps') password salt out blocks
}.

(** ** Presets *)

Lemma from_cost_spec m t p s : from_cost m t p = Some s ↔ cost s = (m, t, p).
Proof.
  unfold from_cost. split.
  - intros Hf. apply List.find_some in Hf as [_ Hf]. by apply bool_decide_eq_true in Hf.
  - intros <-. by destruct s.
Qed.

Section presets.
Context `{Argon2Laws} {GE : Type}.

(** The compile-time evaluation of the presets: none of them panics. *)
Lemma strength_params_ok (s : Strength) :
  ∃ ps, strength_params s = Some ps ∧ params_new (m_and_t_cost s).1 (m_and_t_cost s).2 1 None = Some (Ok ps).
Proof.
  unfold strength_params. pose proof (params_new_spec (m_and_t_cost s).1 (m_and_t_cost s).2 1 None) as Hn.
  destruct (m_and_t_cost s) as [m t] eqn:Em. cbn [fst snd] in *.
  assert (word_ok 32 m ∧ word_ok 32 t ∧ valid_params m t 1 None) as (Hm & Ht & Hv).
  { destruct s; injection Em as <- <-; unfold valid_params; (split; [by_decision|split; [by_decision|lia]]). }
  specialize (Hn Hm Ht ltac:(by_decision) ltac:(lia)). destruct (params_new m t 1 None) as [[ps|e]|]; [by exists ps|by exfalso|done].
Qed.

(** A key is derived unless the memory is refused or Argon2 fails. *)
Lemma derive_key_spec (try_reserve : nat → bool) password salt s :
  ∃ ps r, strength_params s = Some ps ∧ derive_key (GE := GE) try_reserve password salt s = Some r ∧
    let call := hash_password_into_with_memory (argon2_new Argon2id VERSION_V0x13 ps) password salt (replicate 32 0) (replicate (block_count ps) block_default) in
    r = (if try_reserve (block_count ps) then match call.2 with Ok _ => Ok call.1.1 | Err e => Err (Derive e) end else Err OutOfMemory) ∧
    array_ok 32 call.1.1.
Proof.
  destruct (strength_params_ok s) as (ps & Es & _). unfold derive_key, hash_into_reserved_memory. rewrite Es. cbn [mbind option_bind]. rewrite argon2_params_new.
  set (call := hash_password_into_with_memory _ _ _ _ _). assert (array_ok 32 call.1.1) as Hc by (apply (hash_output _ _ _ (replicate 32 0)), array_ok_zeros).
  exists ps. destruct (try_reserve (block_count ps)) eqn:Et; cbn [negb]; [|by eexists].
  change (hash_password_into_with_memory _ _ _ _ _) with call.
  destruct call as [[out blocks] r] eqn:Ec. destruct r; by eexists.
Qed.
End presets.

(** ** The parameters of a PHC string *)

Section phc.
Context `{Argon2Crate}.

Definition extends (before after : option Z) : Prop := before = None ∨ before = after.
Definition new_entry (name : string) (before after : option Z) : list (string * result Z HashError) :=
  match before, after with None, Some d => [(name, Ok d)] | _, _ => [] end.

Definition decoded (params : list (Ident * Value)) : list (string * result Z HashError) := map (λ x, (as_str x.1, decimal x.2)) params.

Lemma extends_some d after : extends (Some d) after ↔ after = Some d.
Proof. unfold extends. split; [by intros [|<-]|by right]. Qed.

Lemma phc_loop_sound l : ∀ m t p m' t' p', phc_loop l m t p = Some (m', t', p') →
  extends m m' ∧ extends t t' ∧ extends p p' ∧ decoded l ≡ₚ new_entry "m" m m' ++ new_entry "t" t t' ++ new_entry "p" p p'.
Proof.
  induction l as [|[name value] l IH]; intros m t p m' t' p'; cbn [phc_loop].
  - intros [= -> -> ->]. unfold extends. do 3 (split; [by right|]). by destruct m', t', p'.
  - unfold decoded. cbn [map fst snd]. fold (decoded l).
    destruct (String.eqb_spec (as_str name) "m") as [->|_]; [|destruct (String.eqb_spec (as_str name) "t") as [->|_];
      [|destruct (String.eqb_spec (as_str name) "p") as [->|_]; [|done]]]; (destruct (decimal value) as [d|e]; [|done]).
    + destruct m; [done|]. intros (Hm & Ht & Hp & Hl)%IH. apply extends_some in Hm as ->. split; [by left|]. do 2 (split; [done|]). by rewrite Hl.
    + destruct t; [done|]. intros (Hm & Ht & Hp & Hl)%IH. apply extends_some in Ht as ->. split; [done|]. split; [by left|]. split; [done|].
      rewrite Hl. cbn. by rewrite Permutation_middle.
    + destruct p; [done|]. intros (Hm & Ht & Hp & Hl)%IH. apply extends_some in Hp as ->. do 2 (split; [done|]). split; [by left|].
      rewrite Hl. cbn. by rewrite app_nil_r, app_assoc, Permutation_cons_append, <- !app_assoc.
Qed.

Lemma new_entry_in name x before after : x ∈ new_entry name before after → ∃ d, x = (name, Ok d) ∧ before = None ∧ after = Some d.
Proof. destruct before as [|], after as [d|]; cbn; try (by intros ?%elem_of_nil). intros ->%list_elem_of_singleton. by exists d. Qed.

Lemma phc_loop_complete l : ∀ m t p m' t' p', extends m m' → extends t t' → extends p p' →
  decoded l ≡ₚ new_entry "m" m m' ++ new_entry "t" t t' ++ new_entry "p" p p' → phc_loop l m t p = Some (m', t', p').
Proof.
  induction l as [|[name value] l IH]; intros m t p m' t' p' Hm Ht Hp; cbn [phc_loop].
  - intros Hl. symmetry in Hl. apply Permutation_nil_r in Hl. apply app_nil in Hl as [H1 [H2 H3]%app_nil].
    repeat f_equal; [by destruct Hm as [->|]; destruct m'|by destruct Ht as [->|]; destruct t'|by destruct Hp as [->|]; destruct p'].
  - unfold decoded. cbn [map fst snd]. fold (decoded l). intros Hl.
    assert ((as_str name, decimal value) ∈ new_entry "m" m m' ++ new_entry "t" t t' ++ new_entry "p" p p') as Hin by (rewrite <- Hl; by left).
    rewrite !elem_of_app in Hin. destruct Hin as [(d & [= Ha Hd] & -> & ->)%new_entry_in|[(d & [= Ha Hd] & -> & ->)%new_entry_in|(d & [= Ha Hd] & -> & ->)%new_entry_in]];
      rewrite Ha, Hd in *; cbn [String.eqb Ascii.eqb Bool.eqb].
    + apply (IH (Some d)); [by apply extends_some|done..|]. cbn in Hl |- *. by apply Permutation_cons_inv in Hl.
    + apply (IH _ (Some d)); [done|by apply extends_some|done|]. cbn in Hl |- *. by apply Permutation_cons_app_inv in Hl.
    + apply (IH _ _ (Some d)); [done..|by apply extends_some|]. cbn in Hl |- *. rewrite app_assoc in Hl. apply Permutation_cons_app_inv in Hl. by rewrite <- app_assoc in Hl.
Qed.

(** Each of the three parameters is there exactly once, in any order, and there is nothing else. *)
Lemma phc_costs_spec parsed m t p :
  phc_costs parsed = Some (m, t, p) ↔ decoded (params_iter (ph_params parsed)) ≡ₚ [("m", Ok m); ("t", Ok t); ("p", Ok p)]%string.
Proof.
  unfold phc_costs. split.
  - destruct (phc_loop _ _ _ _) as [[[m' t'] p']|] eqn:El; [|done]. apply phc_loop_sound in El as (_ & _ & _ & El).
    destruct m', t', p'; try done. by intros [= -> -> ->].
  - intros Hl. by rewrite (phc_loop_complete _ None None None (Some m) (Some t) (Some p)) by (by left || done).
Qed.
End phc.

(** ** The bounds *)

(** What an untrusted string may ask for: at most 1 GiB, at most the work of the strongest preset, and a salt and a tag
    of reasonable length. *)
Definition within_bounds (m t p : Z) (tag_len salt_len : nat) : Prop :=
  m ≤ 2 ^ 20 ∧ m * t ≤ 2 ^ 22 ∧ (16 ≤ tag_len ≤ 64)%nat ∧ (8 ≤ salt_len)%nat ∧ valid_params m t p (Some tag_len).
#[global] Instance within_bounds_dec m t p tag_len salt_len : Decision (within_bounds m t p tag_len salt_len).
Proof. unfold within_bounds. apply _. Defined.

Lemma preset_within_bounds (s : Strength) :
  word_ok 32 (m_and_t_cost s).1 ∧ word_ok 32 (m_and_t_cost s).2 ∧ within_bounds (m_and_t_cost s).1 (m_and_t_cost s).2 1 32 16.
Proof. destruct s; by_decision. Qed.

Section context.
Context `{Argon2Laws}.

Lemma verify_context_spec (algorithm : string) version m t p tag_len salt_len :
  word_ok 32 m → word_ok 32 t → word_ok 32 p →
  match verify_context algorithm version (m, t, p) tag_len salt_len with
  | None => False
  | Some None => ¬ (is_Some (verify_algorithm algorithm) ∧ version = Some VERSION_V0x13 ∧ within_bounds m t p tag_len salt_len)
  | Some (Some argon2) => ∃ alg ps, verify_algorithm algorithm = Some alg ∧ version = Some VERSION_V0x13 ∧ within_bounds m t p tag_len salt_len ∧
      params_new m t p (Some tag_len) = Some (Ok ps) ∧ argon2 = argon2_new alg VERSION_V0x13 ps ∧ block_count ps ≤ 2 ^ 20
  end.
Proof.
  intros Hm Ht Hp. unfold verify_context, within_bounds. destruct (verify_algorithm algorithm) as [alg|]; [|intros [[x Hx] _]; done].
  rewrite max_p_cost_eq, min_salt_len_eq, output_max_length_eq, wrap_id by (done || (unfold word_ok in *; nia)).
  destruct (bool_decide (version ≠ Some VERSION_V0x13)) eqn:Ev; cbn [orb]; [apply bool_decide_eq_true in Ev; by intros (_ & ? & _)|].
  apply bool_decide_eq_false, dec_stable in Ev. unfold VERIFY_MAX_M_COST, VERIFY_MAX_WORK, VERIFY_MIN_TAG_LEN.
  destruct (Z.ltb_spec 1048576 m); cbn [orb]; [intros (_ & _ & ? & _); lia|].
  destruct (Z.ltb_spec (4 * 1048576) (m * t)); cbn [orb]; [intros (_ & _ & _ & ? & _); lia|].
  destruct (Nat.leb_spec 16 tag_len); cbn [andb negb orb]; [|intros (_ & _ & _ & _ & ? & _); lia].
  destruct (Nat.leb_spec tag_len 64); cbn [andb negb orb]; [|intros (_ & _ & _ & _ & ? & _); lia].
  destruct (Nat.ltb_spec salt_len 8); cbn [orb]; [intros (_ & _ & _ & _ & _ & ? & _); lia|].
  destruct (Z.ltb_spec 0xFFFFFF p); [unfold valid_params; intros (_ & _ & _ & _ & _ & _ & _ & _ & ? & _); lia|].
  pose proof (params_new_spec m t p (Some tag_len) Hm Ht Hp ltac:(lia)) as Hn.
  destruct (params_new m t p (Some tag_len)) as [[ps|e]|]; cbn [mbind option_bind]; [|by intros (_ & _ & _ & _ & _ & _ & ?)|done].
  destruct Hn as [Hv Hb]. exists alg, ps. repeat (split; [done || lia|]). lia.
Qed.
End context.

Section verification.
Context `{PhcLaws} `{!Argon2Laws} `{SubtleLaws}.

(** A string that [verify_password] computes a tag for: its fields, the memory it takes and the call of Argon2. *)
Record request (hash : string) (parsed : PasswordHash) (salt0 : Salt) (salt : list Z) (expected : Output) (alg : Algorithm) (ps : Params) : Prop := {
  req_parse : password_hash_new hash = Ok parsed;
  req_salt : ph_salt parsed = Some salt0;
  req_decode : decode_b64 salt0 (replicate SALT_MAX_LENGTH 0) = Ok salt;
  req_hash : ph_hash parsed = Some expected;
  req_alg : verify_algorithm (as_str (ph_algorithm parsed)) = Some alg;
  req_version : ph_version parsed = Some VERSION_V0x13;
  req_costs : ∃ m t p, decoded (params_iter (ph_params parsed)) ≡ₚ [("m", Ok m); ("t", Ok t); ("p", Ok p)]%string ∧
    within_bounds m t p (output_len expected) (length salt) ∧ params_new m t p (Some (output_len expected)) = Some (Ok ps) ∧ block_count ps ≤ 2 ^ 20
}.

Definition tag_call (alg : Algorithm) (ps : Params) (password salt : list Z) (len : nat) : list Z * list Block * result unit Argon2Error :=
  hash_password_into_with_memory (argon2_new alg VERSION_V0x13 ps) password salt (replicate len 0) (replicate (block_count ps) block_default).

Definition tag_matches (try_reserve : nat → bool) (alg : Algorithm) (ps : Params) (password salt : list Z) (expected : Output) : Prop :=
  try_reserve (block_count ps) = true ∧ let call := tag_call alg ps password salt (output_len expected) in call.2 = Ok tt ∧ call.1.1 = as_bytes expected.

Lemma decoded_u32 l m t p : decoded l ≡ₚ [("m", Ok m); ("t", Ok t); ("p", Ok p)]%string → word_ok 32 m ∧ word_ok 32 t ∧ word_ok 32 p.
Proof.
  intros Hl. assert (∀ name d, (name, Ok d) ∈ decoded l → word_ok 32 d) as Hd.
  { intros name d ([i v] & [= _ Hv] & _)%list_elem_of_In%in_map_iff. by apply decimal_u32 in Hv. }
  split; [|split]; eapply Hd; rewrite Hl; repeat (try by left); right; repeat (try by left); by right; left.
Qed.

(** A string is at most one request. *)
Lemma request_unique hash parsed salt0 salt expected alg ps parsed' salt0' salt' expected' alg' ps' :
  request hash parsed salt0 salt expected alg ps → request hash parsed' salt0' salt' expected' alg' ps' →
  salt' = salt ∧ expected' = expected ∧ alg' = alg ∧ ps' = ps.
Proof.
  intros [] []. assert (parsed' = parsed) as -> by congruence. destruct req_costs0 as (m & t & p & Hl & _ & En & _), req_costs1 as (m' & t' & p' & Hl' & _ & En' & _).
  apply phc_costs_spec in Hl, Hl'. assert ((m', t', p') = (m, t, p)) as [= -> -> ->] by congruence.
  assert (salt0' = salt0) as -> by congruence. assert (expected' = expected) as -> by congruence. split_and!; congruence.
Qed.

(** The branch of a string that is no request. *)
Local Ltac refuse := exists false; split; [done|]; split; [done|]; intros (? & ? & ? & ? & ? & ? & [] & _).

(** What [verify_password] returns: it never panics, and anything but a request is refused. *)
Lemma verify_password_spec try_reserve password hash :
  ∃ b, verify_password try_reserve password hash = Some b ∧
    (b = true ↔ ∃ parsed salt0 salt expected alg ps, request hash parsed salt0 salt expected alg ps ∧ tag_matches try_reserve alg ps password salt expected).
Proof.
  unfold verify_password.
  destruct (password_hash_new hash) as [parsed|e] eqn:Eh; [|refuse; congruence].
  destruct (ph_salt parsed) as [salt0|] eqn:Es0; [|refuse; congruence]. destruct (ph_hash parsed) as [expected|] eqn:Ee; [|refuse; congruence].
  destruct (phc_costs parsed) as [[[m t] p]|] eqn:Ec; [|refuse; destruct req_costs0 as (m & t & p & Hl%phc_costs_spec & _); congruence].
  apply phc_costs_spec in Ec as Hl. destruct (decoded_u32 _ _ _ _ Hl) as (Hm & Ht & Hp).
  destruct (decode_b64 salt0 _) as [salt|e] eqn:Ed; [|refuse; congruence].
  pose proof (verify_context_spec (as_str (ph_algorithm parsed)) (ph_version parsed) m t p (output_len expected) (length salt) Hm Ht Hp) as Hv.
  destruct (verify_context _ _ _ _ _) as [[argon2|]|]; cbn [mbind option_bind]; [| |done].
  - destruct Hv as (alg & ps & Ea & Ever & Hw & En & -> & Hb). rewrite argon2_params_new.
    assert (request hash parsed salt0 salt expected alg ps) as Hr by (split; [done..|]; by exists m, t, p).
    assert (∀ b, (b = true ↔ tag_matches try_reserve alg ps password salt expected) →
      ∃ b0, Some b = Some b0 ∧ (b0 = true ↔ ∃ parsed salt0 salt expected alg ps, request hash parsed salt0 salt expected alg ps ∧ tag_matches try_reserve alg ps password salt expected)) as Hfin.
    { intros b Hbt. exists b. split; [done|]. rewrite Hbt. split; [intros Ht'; by exists parsed, salt0, salt, expected, alg, ps|].
      intros (? & ? & ? & ? & ? & ? & Hr' & Ht'). by destruct (request_unique _ _ _ _ _ _ _ _ _ _ _ _ _ Hr Hr') as (-> & -> & -> & ->). }
    unfold tag_matches, tag_call in *. destruct (try_reserve (block_count ps)) eqn:Et; cbn [negb]; [|apply Hfin; split; [done|intros [? _]; congruence]].
    rewrite take_replicate, output_max_length_eq. replace (output_len expected `min` 64)%nat with (output_len expected) by (destruct Hw as (_ & _ & [_ ?] & _); lia).
    destruct (hash_password_into_with_memory _ _ _ _ _) as [[tag blocks] r]. apply Hfin. cbn [fst snd].
    destruct r as [[]|e]; [|split; [done|by intros (_ & ? & _)]]. rewrite ct_eq_slice_spec, bool_decide_eq_true. by split; [intros ->|intros (_ & _ & ?)].
  - refuse. destruct req_costs0 as (m' & t' & p' & Hl' & Hw & _). exfalso. apply Hv. apply phc_costs_spec in Hl'.
    assert (x = parsed) as -> by congruence. assert ((m', t', p') = (m, t, p)) as [= -> -> ->] by congruence.
    assert (x0 = salt0) as -> by congruence. assert (x1 = salt) as -> by congruence. assert (x2 = expected) as -> by congruence. split; [by eexists|done].
Qed.
End verification.

Section hashing.
Context `{PhcLaws} `{!Argon2Laws} {GE : Type}.

(** The string that [hash_password] makes is a request for the tag that it holds. *)
Lemma hash_password_spec try_reserve (fill : fill_call GE) password s str : fill_ok fill →
  hash_password try_reserve fill password s = Some (Ok str) →
  let salt := (fill (replicate SALT_BYTES 0)).1 in
  ∃ parsed salt0 expected ps, request str parsed salt0 salt expected Argon2id ps ∧ tag_matches try_reserve Argon2id ps password salt expected ∧
    output_len expected = 32%nat.
Proof.
  intros Hf. unfold hash_password, randombytes_buf. pose proof (Hf SALT_BYTES) as Hs.
  destruct (fill (replicate SALT_BYTES 0)) as [salt [[]|e]]; [|done]. cbn [fst] in Hs |- *. destruct Hs as [Hsl _]. unfold hash_with_salt.
  destruct (strength_params_ok s) as (ps & Eps & En). rewrite Eps. cbn [mbind option_bind]. unfold hash_into_reserved_memory. rewrite argon2_params_new.
  destruct (m_and_t_cost s) as [m t] eqn:Em. cbn [fst snd] in En.
  destruct (try_reserve (block_count ps)) eqn:Et; cbn [negb]; [|done]. rewrite default_output_len_eq.
  pose proof (hash_output (argon2_new Argon2id VERSION_V0x13 ps) password salt (replicate 32 0) (replicate (block_count ps) block_default) (proj2 (array_ok_zeros 32))) as [Hol _].
  destruct (hash_password_into_with_memory _ _ _ _ _) as [[tag blocks] [[]|e]] eqn:Eh; [|done]. cbn [fst snd] in Hol. rewrite length_replicate in Hol.
  destruct (encode_b64 salt) as [ss|e] eqn:Ees; [|done]. destruct (params_string ps) as [pstr|e] eqn:Eps'; [|done]. destruct (output_new tag) as [o|e] eqn:Eo; [|done].
  intros [= <-]. apply output_new_spec in Eo as [Eob Eol].
  pose proof (preset_within_bounds s) as (Hm & Ht & Hw). rewrite Em in Hm, Ht, Hw. cbn [fst snd] in Hm, Ht, Hw.
  assert (word_ok 32 1) as H1w by by_decision. pose proof (params_new_spec m t 1 (Some 32%nat) Hm Ht H1w ltac:(lia)) as Hn.
  destruct (params_new m t 1 (Some 32%nat)) as [[ps'|e]|] eqn:En'; [|by exfalso; apply Hn, Hw|done].
  destruct (params_len _ _ _ _ _ _ En En') as [Hbc Hcall].
  eexists _, (as_salt ss), o, ps'. split; [split|split; [|by rewrite Eol]].
  - by apply parse_to_string; eexists.
  - done.
  - apply decode_encode_b64; [done|]. rewrite length_replicate, salt_max_length_eq, Hsl. unfold SALT_BYTES. lia.
  - done.
  - cbn [ph_algorithm]. by rewrite ident_argon2id.
  - done.
  - exists m, t, 1. cbn [ph_params]. unfold decoded. rewrite (params_string_spec m t 1 _ _ Hm Ht H1w En Eps'), Eol, Hol, Hsl. split; [done|]. split; [done|]. split; [done|].
    destruct Hw as [? _]. destruct Hn. lia.
  - unfold tag_matches, tag_call. rewrite <- Hbc, Eol, Hol, <- Hcall, Eh by apply length_replicate. by rewrite Eob.
Qed.
End hashing.

(** ** A concrete crate for the witnesses *)

(** The tag is a sum that depends on every input; the text is a binary numeral. *)
Definition toy_tag (alg : Algorithm) (m t p : Z) (password salt : list Z) (n : nat) : list Z :=
  map (λ i : nat, (from_le_bytes password + 3 * from_le_bytes salt + m + t + p + match alg with Argon2id => i | Argon2i => 2 * i end) mod 256) (seq 0 n).

Definition plain_argon2 : Argon2Crate := {|
  Params := Z * Z * Z; Argon2 := Algorithm * (Z * Z * Z); Argon2Error := unit; Block := unit;
  params_new m t p len := if Z.ltb (8 * p) (2 ^ 32) then Some (if decide (valid_params m t p len) then Ok (m, t, p) else Err tt) else None;
  block_count := λ _, 8%nat;
  argon2_new alg _ ps := (alg, ps); argon2_params := snd; block_default := tt;
  hash_password_into_with_memory a password salt out blocks :=
    (toy_tag a.1 a.2.1.1 a.2.1.2 a.2.2 password salt (length out), blocks, Ok tt);
  MAX_P_COST := 0xFFFFFF; MIN_SALT_LEN := 8; DEFAULT_OUTPUT_LEN := 32;
  HashError := unit; Ident := string; Value := Z; ParamsString := list (string * Z); Salt := list Z; SaltString := list Z; Output := list Z;
  OUTPUT_MAX_LENGTH := 64; SALT_MAX_LENGTH := 64;
  from_argon2_error := id;
  ident alg := match alg with Argon2id => "argon2id" | Argon2i => "argon2i" end%string; as_str := id;
  params_string ps := Ok [("m", ps.1.1); ("t", ps.1.2); ("p", ps.2)]%string;
  params_iter := id;
  decimal v := if decide (word_ok 32 v) then Ok v else Err tt;
  encode_b64 := Ok; as_salt := id; decode_b64 s buf := if decide (length s ≤ length buf)%nat then Ok s else Err tt;
  output_new := Ok; output_len := length; as_bytes := id
|}.

Lemma plain_argon2_laws : @Argon2Laws plain_argon2.
Proof.
  split; try done.
  - intros m t p len Hm Ht Hp Hl. cbn [params_new plain_argon2]. rewrite (proj2 (Z.ltb_lt _ _) Hl).
    destruct (decide (valid_params m t p len)) as [Hv|Hv]; [|done]. split; [done|]. unfold valid_params in Hv. cbn [block_count plain_argon2]. lia.
  - intros [alg ps] password salt out blocks _. cbn. unfold toy_tag. split; [by rewrite length_map, length_seq|].
    apply Forall_map, Forall_true. intros i. apply word_ok_mod. lia.
  - intros v d. cbn. by destruct (decide (word_ok 32 v)) as [Hv|]; intros [= <-].
Qed.

Lemma plain_params_new m t p len ps : @params_new plain_argon2 m t p len = Some (Ok ps) → ps = (m, t, p) ∧ valid_params m t p len.
Proof. cbn. destruct (Z.ltb (8 * p) (2 ^ 32)); [|done]. destruct (decide (valid_params m t p len)) as [Hv|]; [|done]. by intros [= <-]. Qed.

(** A positive number as a string of binary digits, and back. *)
Fixpoint print_bits (p : positive) : string :=
  match p with
  | xH => String "1" EmptyString
  | xO p => String "0" (print_bits p)
  | xI p => String "1" (print_bits p)
  end%char.
Fixpoint parse_bits (s : string) : positive :=
  match s with
  | String "0" s => xO (parse_bits s)
  | String _ EmptyString => xH
  | String _ s => xI (parse_bits s)
  | EmptyString => xH
  end%char.

Lemma parse_print_bits p : parse_bits (print_bits p) = p.
Proof. induction p as [p IH|p IH|]; cbn; [|by rewrite IH|done]. destruct (print_bits p) eqn:E; [by destruct p|]. by rewrite <- IH. Qed.

Definition plain_tuple (h : @PasswordHash plain_argon2) : string * option Z * list (string * Z) * option (list Z) * option (list Z) :=
  (@ph_algorithm plain_argon2 h, @ph_version plain_argon2 h, @ph_params plain_argon2 h, @ph_salt plain_argon2 h, @ph_hash plain_argon2 h).

Definition plain_phc : @PhcText plain_argon2 := @Build_PhcText plain_argon2
  (λ s, match decode (A := string * option Z * list (string * Z) * option (list Z) * option (list Z)) (parse_bits s) with
        | Some (a, v, ps, s, h) => Ok (@Build_PasswordHash plain_argon2 a v ps s h)
        | None => Err tt
        end)
  (λ h, print_bits (encode (plain_tuple h))).

Lemma plain_phc_laws : @PhcLaws plain_argon2 plain_phc.
Proof.
  split.
  - intros [a v ps s h] _ _. cbn [password_hash_new to_string plain_phc]. rewrite parse_print_bits, decode_encode. done.
  - intros bytes s buf [= <-] Hl. cbn. by rewrite decide_True.
  - by intros bytes o [= <-].
  - done.
  - intros m t p ps s Hm Ht Hp (-> & _)%plain_params_new [= <-]. cbn. by rewrite !decide_True.
  - intros m t p n ps ps' (-> & _)%plain_params_new (-> & _)%plain_params_new. done.
Qed.

(** ** Properties *)

(** C32. [verify_password] never panics, for any string, and it says yes exactly when the string parses to an Argon2 hash
    of version 19 that has each of [m], [t] and [p] once and nothing else, in any order, within the bounds (1 GiB, the work
    of the strongest preset, the lengths of salt and tag); when the allocator grants the memory, which those bounds keep
    under 1 GiB; and when Argon2 computes the tag that the string holds.  Everything else is refused. *)
Theorem verify_password_exact `{PhcLaws} `{!Argon2Laws} `{SubtleLaws} (try_reserve : nat → bool) (password : list Z) (hash : string) :
  ∃ b, verify_password try_reserve password hash = Some b ∧
    (b = true ↔ ∃ parsed salt0 salt expected alg ps, request hash parsed salt0 salt expected alg ps ∧ tag_matches try_reserve alg ps password salt expected).
Proof. apply verify_password_spec. Qed.

Lemma verify_password_exact_witness :
  let _ := plain_argon2 in let _ := plain_phc in let _ := plain_subtle in
  ∃ b, verify_password (λ _, true) [1; 2; 3] "no hash" = Some b ∧
    (b = true ↔ ∃ parsed salt0 salt expected alg ps, request "no hash" parsed salt0 salt expected alg ps ∧ tag_matches (λ _, true) alg ps [1; 2; 3] salt expected).
Proof.
  exact (@verify_password_exact plain_argon2 plain_phc plain_phc_laws plain_argon2_laws plain_subtle plain_subtle_laws (λ _, true) [1; 2; 3] "no hash"%string).
Defined.

(** A hash that [hash_password] returns verifies the password, whatever the preset and the salt; and another password
    verifies against it exactly when Argon2 computes the same tag from it. *)
Theorem pwhash_roundtrip `{PhcLaws} `{!Argon2Laws} `{SubtleLaws} {GE} (try_reserve : nat → bool) (fill : fill_call GE) (password : list Z) (s : Strength) (str : string) :
  fill_ok fill → hash_password try_reserve fill password s = Some (Ok str) →
  verify_password try_reserve password str = Some true ∧
  let salt := (fill (replicate SALT_BYTES 0)).1 in
  ∃ ps, try_reserve (block_count ps) = true ∧ (tag_call Argon2id ps password salt 32).2 = Ok tt ∧
    ∀ try_reserve' password', ∃ b, verify_password try_reserve' password' str = Some b ∧
      (b = true ↔ try_reserve' (block_count ps) = true ∧ (tag_call Argon2id ps password' salt 32).2 = Ok tt ∧
        (tag_call Argon2id ps password' salt 32).1.1 = (tag_call Argon2id ps password salt 32).1.1).
Proof.
  intros Hf Hs. destruct (hash_password_spec try_reserve fill password s str Hf Hs) as (parsed & salt0 & expected & ps & Hr & Ht & Hl). split.
  - destruct (verify_password_spec try_reserve password str) as (b & Eb & Hb). rewrite Eb. f_equal. apply Hb. by eexists _, _, _, _, _, _.
  - unfold tag_matches in Ht. rewrite Hl in Ht. destruct Ht as (Hm & Hok & Htag). exists ps. split; [done|]. split; [done|]. intros tr' pw'.
    destruct (verify_password_spec tr' pw' str) as (b & Eb & Hb). exists b. split; [done|]. rewrite Hb, Htag. split.
    + intros (? & ? & ? & ? & ? & ? & Hr' & Ht'). destruct (request_unique _ _ _ _ _ _ _ _ _ _ _ _ _ Hr Hr') as (-> & -> & -> & ->).
      unfold tag_matches in Ht'. by rewrite Hl in Ht'.
    + intros Ht'. eexists _, _, _, _, _, _. split; [exact Hr|]. unfold tag_matches. by rewrite Hl.
Qed.

Lemma pwhash_roundtrip_witness :
  let _ := plain_argon2 in let _ := plain_phc in let _ := plain_subtle in
  ∃ str, hash_password (GE := unit) (λ _, true) (constant_fill 7) [1; 2; 3] Interactive = Some (Ok str) ∧ verify_password (λ _, true) [1; 2; 3] str = Some true.
Proof.
  assert (∃ str, @hash_password plain_argon2 unit plain_phc (λ _, true) (constant_fill 7) [1; 2; 3] Interactive = Some (Ok str)) as [str Hs].
  { eexists. reflexivity. }
  exists str. split; [exact Hs|].
  exact (proj1 (@pwhash_roundtrip plain_argon2 plain_phc plain_phc_laws plain_argon2_laws plain_subtle plain_subtle_laws unit (λ _, true) (constant_fill 7)
    [1; 2; 3] Interactive str (constant_fill_ok 7 ltac:(by_decision)) Hs)).
Defined.
