(* ===== verification/PassphraseFile.v ===== *)
(** The passphrase file ([crypto_pwhash/passphrase_file.rs]): a header of 28 bytes with the costs and the salt of Argon2 in
    front of a stream file under the derived key.  [None] stands for a panic ([unreachable!], or a preset that Argon2
    refuses); the theorems show that it does not happen. *)

From S2P Require Import Prelude External BlockCipher Stream Kalyna Ghash Randombytes Secretstream SecretstreamFile CryptoPwhash.

Definition CONTAINER_TYPE : Z := 0x50.
Definition CONTAINER_VERSION : Z := 0x01.
Definition KDF_ARGON2ID13 : Z := 0x01.
Definition PREFIX_LEN : nat := 3 + 4 + 4 + 1.
Definition HEADER_BYTES : nat := PREFIX_LEN + SALT_BYTES.
Definition SEAL_STREAM_PREFIX_BYTES : nat := HEADER_BYTES + FILE_PREFIX_BYTES.
Definition STRENGTH : Strength := Moderate.

(** A checked header. *)
Record Header : Type := { salt : list Z }.

Section passphrase_file.
Context `{Argon2Crate} {GE : Type}.

Inductive PassphraseFileError : Type :=
| NotPassphraseFile
| UnsupportedFormat (version kdf : Z)
| UnsupportedParams (m_cost t_cost p_cost : Z)
| EmptyPassphrase
| PwHash (e : PwHashError GE).

Definition stream_key (try_reserve : nat → bool) (passphrase salt : list Z) : option (result (list Z) PassphraseFileError) :=
  match passphrase with
  | [] => Some (Err EmptyPassphrase)
  | _ :: _ =>
      r ← derive_key try_reserve passphrase salt STRENGTH;
      Some (match r with Ok key => Ok key | Err e => Err (PwHash e) end)
  end.

(** [u8::try_from(x).unwrap_or(u8::MAX)]. *)
Definition u8_or_max (x : Z) : Z := if Z.ltb x 256 then x else 255.

(** The two calls of the generator draw the salt and the header of the stream file. *)
Definition seal_stream (try_reserve : nat → bool) (fill fill' : fill_call GE) (passphrase : list Z) :
    option (result (FileEncryptor * list Z) PassphraseFileError) :=
  let '(salt, r) := randombytes_buf fill (replicate SALT_BYTES 0) in
  match r with
  | Err e => Some (Err (PwHash (CryptoPwhash.Random e)))
  | Ok _ =>
      r ← stream_key try_reserve passphrase salt;
      match r with
      | Err e => Some (Err e)
      | Ok key =>
          r ← encryptor_init fill' key;
          match r with
          | Err (SecretstreamFile.Random e) => Some (Err (PwHash (CryptoPwhash.Random e)))
          | Err _ => None
          | Ok (enc, file_prefix) =>
              let '(m_cost, t_cost, p_cost) := cost STRENGTH in
              let prefix := replicate SEAL_STREAM_PREFIX_BYTES 0 in
              let prefix := copy_at 0 [CONTAINER_TYPE; CONTAINER_VERSION; KDF_ARGON2ID13] prefix in
              let prefix := copy_at 3 (to_le_bytes 4 m_cost) prefix in
              let prefix := copy_at 7 (to_le_bytes 4 t_cost) prefix in
              let prefix := <[11%nat := u8_or_max p_cost]> prefix in
              let prefix := copy_at PREFIX_LEN salt prefix in
              let prefix := copy_at HEADER_BYTES file_prefix prefix in
              Some (Ok (enc, prefix))
          end
      end
  end.

(** [Header::parse], on an array of [HEADER_BYTES] bytes. *)
Definition parse (header : list Z) : result Header PassphraseFileError :=
  let kind := header.[0] in let version := header.[1] in let kdf := header.[2] in
  if negb (Z.eqb kind CONTAINER_TYPE) then Err NotPassphraseFile
  else if negb (Z.eqb version CONTAINER_VERSION) || negb (Z.eqb kdf KDF_ARGON2ID13) then Err (UnsupportedFormat version kdf)
  else
    let m_cost := from_le_bytes [header.[3]; header.[4]; header.[5]; header.[6]] in
    let t_cost := from_le_bytes [header.[7]; header.[8]; header.[9]; header.[10]] in
    let p := header.[11] in
    if bool_decide (from_cost m_cost t_cost p ≠ Some STRENGTH) then Err (UnsupportedParams m_cost t_cost p)
    else Ok {| salt := drop PREFIX_LEN header |}.

Definition open_stream (try_reserve : nat → bool) (self : Header) (passphrase : list Z) : option (result FileDecryptor PassphraseFileError) :=
  r ← stream_key try_reserve passphrase (salt self);
  Some (result_bind r (λ key, Ok (decryptor_new key))).
End passphrase_file.
Arguments PassphraseFileError {_} GE.

(** ** The one header that is written and read *)

Definition header_of (salt : list Z) : list Z := [0x50; 1; 1; 0; 0; 4; 0; 3; 0; 0; 0; 1] ++ salt.

Section lemmas.
Context `{Argon2Laws} {GE : Type}.

(** Reading it back gives the salt, and nothing else is read. *)
Lemma parse_spec header : array_ok HEADER_BYTES header →
  match parse (GE := GE) header with
  | Ok h => length (salt h) = SALT_BYTES ∧ header = header_of (salt h)
  | Err NotPassphraseFile => header.[0] ≠ 0x50
  | Err (UnsupportedFormat v k) => header.[0] = 0x50 ∧ header.[1] = v ∧ header.[2] = k ∧ (v, k) ≠ (1, 1)
  | Err (UnsupportedParams m t p) => take 3 header = [0x50; 1; 1] ∧ slice 3 12 header = to_le_bytes 4 m ++ to_le_bytes 4 t ++ [p] ∧ (m, t, p) ≠ (262144, 3, 1)
  | Err _ => False
  end.
Proof.
  intros [Hl Hb]. change HEADER_BYTES with 28%nat in Hl.
  do 12 (destruct header as [|? header]; [done|]). unfold parse. cbn [nth].
  repeat (apply Forall_cons in Hb as [? Hb]).
  destruct (Z.eqb_spec z CONTAINER_TYPE) as [->|]; cbn [negb]; [|done].
  destruct (Z.eqb_spec z0 CONTAINER_VERSION) as [->|]; cbn [negb orb]; [|unfold CONTAINER_VERSION in *; do 3 (split; [done|]); congruence].
  destruct (Z.eqb_spec z1 KDF_ARGON2ID13) as [->|]; cbn [negb orb]; [|unfold KDF_ARGON2ID13 in *; do 3 (split; [done|]); congruence].
  set (m := from_le_bytes _). set (t := from_le_bytes [z6; z7; z8; z9]).
  assert (to_le_bytes 4 m = [z2; z3; z4; z5]) as Hm by (apply (to_from_le_bytes [z2; z3; z4; z5]); by repeat (apply Forall_cons; split)).
  assert (to_le_bytes 4 t = [z6; z7; z8; z9]) as Ht by (apply (to_from_le_bytes [z6; z7; z8; z9]); by repeat (apply Forall_cons; split)).
  destruct (bool_decide (from_cost m t z10 ≠ Some STRENGTH)) eqn:E.
  - apply bool_decide_eq_true in E. rewrite Hm, Ht. do 2 (split; [done|]). intros [= Em Et Ep]. apply E. apply from_cost_spec. by rewrite Em, Et, Ep.
  - apply bool_decide_eq_false, dec_stable, from_cost_spec in E. injection E as Em Et Ep. rewrite <- Em in Hm. rewrite <- Et in Ht. clearbody m t.
    cbn in Hl. change PREFIX_LEN with 12%nat. cbn [drop salt]. split; [unfold SALT_BYTES; by injection Hl|]. subst z10. 
    vm_compute in Hm, Ht. injection Hm as <- <- <- <-. injection Ht as <- <- <- <-. done.
Qed.

(** The derivation never panics; it fails on an empty passphrase, without memory, or when Argon2 does. *)
Lemma stream_key_spec try_reserve passphrase salt :
  ∃ r, stream_key (GE := GE) try_reserve passphrase salt = Some r ∧
    match r with
    | Ok key => array_ok 32 key ∧ passphrase ≠ []
    | Err EmptyPassphrase => passphrase = []
    | Err (PwHash OutOfMemory) | Err (PwHash (Derive _)) => passphrase ≠ []
    | Err _ => False
    end.
Proof.
  unfold stream_key. destruct passphrase as [|b pw]; [by eexists|].
  destruct (derive_key_spec (GE := GE) try_reserve (b :: pw) salt STRENGTH) as (ps & r & _ & -> & -> & Hok). cbn [mbind option_bind].
  eexists. split; [done|]. destruct (try_reserve (block_count ps)); [|done]. by destruct ((hash_password_into_with_memory _ _ _ _ _).2).
Qed.

Lemma passphrase_prefix_built s file_prefix : length s = SALT_BYTES → length file_prefix = FILE_PREFIX_BYTES →
  copy_at HEADER_BYTES file_prefix (copy_at PREFIX_LEN s (<[11%nat := u8_or_max 1]> (copy_at 7 (to_le_bytes 4 3) (copy_at 3 (to_le_bytes 4 262144)
    (copy_at 0 [CONTAINER_TYPE; CONTAINER_VERSION; KDF_ARGON2ID13] (replicate SEAL_STREAM_PREFIX_BYTES 0)))))) = header_of s ++ file_prefix.
Proof.
  intros Hs Hf. change (<[11%nat := u8_or_max 1]> _) with ([0x50; 1; 1; 0; 0; 4; 0; 3; 0; 0; 0; 1] ++ replicate 16 0 ++ replicate 33 0).
  rewrite copy_at_app by (done || by rewrite Hs). rewrite <- (app_nil_r (replicate 33 0)).
  change (copy_at HEADER_BYTES file_prefix ?l) with (copy_at HEADER_BYTES file_prefix l). rewrite app_assoc.
  rewrite copy_at_app by (rewrite ?length_app, ?Hs, ?Hf; done). by rewrite app_nil_r.
Qed.

Lemma parse_header_of s : array_ok SALT_BYTES s → parse (GE := GE) (header_of s) = Ok {| salt := s |}.
Proof. done. Qed.

(** Sealing never panics; what it returns, by the calls that it makes. *)
Lemma seal_stream_spec try_reserve (fill fill' : fill_call GE) passphrase :
  fill_ok fill → fill_ok fill' →
  let s := (fill (replicate SALT_BYTES 0)).1 in
  ∃ r, seal_stream try_reserve fill fill' passphrase = Some r ∧
    match r with
    | Ok (enc, prefix) => ∃ key file_prefix, stream_key (GE := GE) try_reserve passphrase s = Some (Ok key) ∧ array_ok 32 key ∧
        (fill' (replicate 32 0)).2 = Ok tt ∧ encryptor_init fill' key = Some (Ok (enc, file_prefix)) ∧ prefix = header_of s ++ file_prefix
    | Err EmptyPassphrase => passphrase = []
    | Err (PwHash (CryptoPwhash.Random (RandomError_new e))) => (fill (replicate SALT_BYTES 0)).2 = Err e ∨ (fill' (replicate 32 0)).2 = Err e
    | Err (PwHash e) => passphrase ≠ [] ∧ stream_key (GE := GE) try_reserve passphrase s = Some (Err (PwHash e))
    | Err _ => False
    end.
Proof.
  intros Hf Hf' s. pose proof (Hf SALT_BYTES) as Hs. unfold seal_stream, randombytes_buf. fold s in Hs. unfold s in *. clear s.
  destruct (fill (replicate SALT_BYTES 0)) as [s [[]|e]]; cbn [fst snd] in *; [|eexists; split; [done|by left]].
  destruct (stream_key_spec try_reserve passphrase s) as (r & Er & Hr). rewrite Er. cbn [mbind option_bind].
  destruct r as [key|e]; [|exists (Err e); split; [done|]; destruct e as [| | | |[]]; by first [done|split]].
  destruct Hr as [Hk _]. unfold encryptor_init. destruct (fill' (replicate 32 0)) as [hd [[]|e]] eqn:Ef.
  - destruct (push_init_spec fill' key Hk Hf') as (Hh & Hi & _ & _); [by rewrite Ef|]. rewrite Ef in Hh, Hi. cbn [fst] in Hh, Hi. rewrite Hi. cbn [mbind option_bind].
    eexists. split; [done|]. eexists key, _. split; [done|]. split; [done|]. split; [done|]. split; [by rewrite Hi|]. apply passphrase_prefix_built; [apply Hs|].
    rewrite length_copy_at; rewrite length_insert, length_replicate; [done|]. by rewrite (proj1 Hh).
  - unfold push_init, randombytes_buf. rewrite Ef. cbn [mbind option_bind file_error]. eexists. split; [done|]. by right.
Qed.
End lemmas.

(** ** Properties *)

(** [Header::parse] accepts exactly one header for every salt: the marker, the version, the KDF and the costs of the one
    preset, and it returns that salt; every other array of 28 bytes is refused with the error that names what differs, in
    the order in which the fields stand, and the costs in it are the ones reported. *)
Theorem passphrase_header_exact `{Argon2Laws} {GE} (header : list Z) : array_ok HEADER_BYTES header →
  (∀ s, parse (GE := GE) header = Ok {| salt := s |} ↔ header = header_of s) ∧
  match parse (GE := GE) header with
  | Ok _ => True
  | Err NotPassphraseFile => header.[0] ≠ 0x50
  | Err (UnsupportedFormat v k) => header.[0] = 0x50 ∧ header.[1] = v ∧ header.[2] = k ∧ (v, k) ≠ (1, 1)
  | Err (UnsupportedParams m t p) => take 3 header = [0x50; 1; 1] ∧ slice 3 12 header = to_le_bytes 4 m ++ to_le_bytes 4 t ++ [p] ∧ (m, t, p) ≠ (262144, 3, 1)
  | Err _ => False
  end.
Proof.
  intros Hh. pose proof (parse_spec (GE := GE) header Hh) as Hp. split.
  - intros s. split; [intros E; rewrite E in Hp; apply Hp|]. intros ->. apply parse_header_of. destruct Hh as [Hl Hb]. unfold header_of in *.
    rewrite length_app in Hl. apply Forall_app in Hb as [_ Hb]. split; [|done]. unfold HEADER_BYTES, PREFIX_LEN in Hl. cbn [length] in Hl. lia.
  - destruct (parse header); [done|exact Hp].
Qed.

Lemma passphrase_header_exact_witness : let _ := plain_argon2 in
  array_ok HEADER_BYTES (header_of (seqZ 0 16)) ∧ ∀ s, parse (GE := unit) (header_of (seqZ 0 16)) = Ok {| salt := s |} ↔ header_of (seqZ 0 16) = header_of s.
Proof.
  intros C. assert (array_ok HEADER_BYTES (header_of (seqZ 0 16))) as Hh by by_decision. split; [exact Hh|].
  exact (proj1 (@passphrase_header_exact plain_argon2 plain_argon2_laws unit (header_of (seqZ 0 16)) Hh)).
Defined.

(** What is written under a passphrase is read back under it: when [seal_stream] succeeds, the file of any plaintext that
    goes through its encryptor starts with a header that [Header::parse] accepts, the key derived again from the salt in it
    is the same, and the reader returns the plaintext and keeps nothing. *)
Theorem passphrase_file_roundtrip `{Argon2Laws} {GE} `{Cpu} `{SubtleLaws} `{ZeroizeLaws} (try_reserve : nat → bool) (fill fill' : fill_call GE)
    (passphrase pt : list Z) enc prefix :
  fill_ok fill → fill_ok fill' → seal_stream try_reserve fill fill' passphrase = Some (Ok (enc, prefix)) → bytes_ok pt → length pt < 2 ^ 58 →
  length prefix = SEAL_STREAM_PREFIX_BYTES ∧
  ∃ enc' file h dec d, seal_all (GetrandomError := GE) enc pt prefix = Some (enc', Ok file) ∧ finalized (enc_push enc') = true ∧
    parse (GE := GE) (take HEADER_BYTES file) = Ok h ∧ open_stream (GE := GE) try_reserve h passphrase = Some (Ok dec) ∧
    open_all (GetrandomError := GE) dec (drop HEADER_BYTES file) = Some (d, Ok pt) ∧ wiped d.
Proof.
  intros Hf Hf' Hs Hb Hl. pose proof (Hf SALT_BYTES) as Hsalt.
  destruct (seal_stream_spec try_reserve fill fill' passphrase Hf Hf') as (r & Er & Hr). rewrite Hs in Er. injection Er as <-.
  set (s := (fill (replicate SALT_BYTES 0)).1) in *. destruct Hr as (key & fp & Ek & Hk & Hf2 & Ei & ->).
  destruct (sealed_records fill' key pt Hk Hf' Hf2 Hb Hl) as (enc0 & header & Ei' & [Hhl Hhb] & Hseal). rewrite Ei in Ei'. injection Ei' as <- ->.
  assert (length (header_of s) = HEADER_BYTES) as Hho by (unfold header_of; rewrite length_app, (proj1 Hsalt); done).
  split; [rewrite length_app, Hho; cbn [length]; by rewrite Hhl|].
  destruct (Hseal (header_of s ++ FORMAT_VERSION :: header)) as (enc' & recs & Es & Hfin & Hw & Hrb & _ & Hrl).
  set (file := (FORMAT_VERSION :: header) ++ recs).
  destruct (open_all_spec (GE := GE) key file Hk) as (d & r & Eo & Hwd & A & _).
  { apply Forall_app. split; [constructor; [by_decision|done]|done]. }
  { unfold file. rewrite length_app. cbn [length]. rewrite Hhl. lia. }
  exists enc', (header_of s ++ file), {| salt := s |}, (decryptor_new key), d. rewrite take_app_length', drop_app_length' by done.
  split; [by unfold file; rewrite app_assoc|]. split; [done|]. split; [by apply parse_header_of|]. split; [unfold open_stream; cbn [salt]; by rewrite Ek|].
  split; [|done]. rewrite Eo. do 2 f_equal. apply A. exists header, recs. split; [reflexivity|]. split; [exact Hhl|exact Hw].
Qed.

Lemma passphrase_file_roundtrip_witness :
  let _ := plain_argon2 in let _ := plain_subtle in let _ := {| feature_available := false |} in let _ := plain_zeroize in
  ∃ enc prefix, seal_stream (GE := unit) (λ _, true) (constant_fill 7) (constant_fill 8) [1; 2; 3] = Some (Ok (enc, prefix)) ∧
  length prefix = SEAL_STREAM_PREFIX_BYTES ∧
  ∃ enc' file h dec d, seal_all (GetrandomError := unit) enc [4; 5] prefix = Some (enc', Ok file) ∧ finalized (enc_push enc') = true ∧
    parse (GE := unit) (take HEADER_BYTES file) = Ok h ∧ open_stream (GE := unit) (λ _, true) h [1; 2; 3] = Some (Ok dec) ∧
    open_all (GetrandomError := unit) dec (drop HEADER_BYTES file) = Some (d, Ok [4; 5]) ∧ wiped d.
Proof.
  intros C S U Z.
  assert (∃ ep, @seal_stream plain_argon2 unit (λ _, true) (constant_fill 7) (constant_fill 8) [1; 2; 3] = Some (Ok ep)) as [[enc prefix] Hs].
  { destruct (@seal_stream_spec plain_argon2 plain_argon2_laws unit (λ _, true) (constant_fill 7) (constant_fill 8) [1; 2; 3]) as ([ep|e] & Er & Hr);
      [by apply constant_fill_ok; by_decision..|exists ep; exact Er|]. exfalso. clear Er.
    destruct e as [| | | |[[e]|e| |e]]; cbn beta iota in Hr; try done; [by destruct Hr as [Hr|Hr]|by destruct Hr as [_ Hr]..]. }
  exists enc, prefix. split; [exact Hs|].
  refine (@passphrase_file_roundtrip plain_argon2 plain_argon2_laws unit {| feature_available := false |} plain_subtle plain_subtle_laws plain_zeroize plain_zeroize_laws
    (λ _, true) (constant_fill 7) (constant_fill 8) [1; 2; 3] [4; 5] enc prefix (constant_fill_ok 7 _) (constant_fill_ok 8 _) Hs _ _); by_decision.
Defined.
