(* ===== verification/Keyfile.v ===== *)
(** The typed key files of the command-line tool ([uacrypt/src/keyfile.rs]): a key is one line of text that names its kind
    and ends in a check value, hex-coded without branches on the key.  [None] stands for a panic of the hash; the
    theorems show that it does not happen. *)

From stdpp Require Import strings.
From S2P Require Import Prelude External Kupyna.
#[local] Open Scope Z_scope.
#[local] Open Scope uacrypt_scope.

(** ** Kinds *)

Inductive KeyKind : Type :=
| Symmetric
| Sign163Secret | Sign163Public | Sign257Secret | Sign257Public
| Box256Secret | Box256Public | Box384Secret | Box384Public | Box512Secret | Box512Public.

#[global] Instance KeyKind_eq_dec : EqDecision KeyKind.
Proof. solve_decision. Defined.

Definition ALL_KINDS : list KeyKind :=
  [Symmetric; Sign163Secret; Sign163Public; Sign257Secret; Sign257Public; Box256Secret; Box256Public; Box384Secret; Box384Public;
   Box512Secret; Box512Public].

Definition prefix (self : KeyKind) : list Z :=
  ascii_bytes match self with
  | Symmetric => "UACRYPT-SECRET-SYMMETRIC"
  | Sign163Secret => "UACRYPT-SECRET-SIGN163"
  | Sign163Public => "uacrypt-sign163-public"
  | Sign257Secret => "UACRYPT-SECRET-SIGN257"
  | Sign257Public => "uacrypt-sign257-public"
  | Box256Secret => "UACRYPT-SECRET-BOX256"
  | Box256Public => "uacrypt-box256-public"
  | Box384Secret => "UACRYPT-SECRET-BOX384"
  | Box384Public => "uacrypt-box384-public"
  | Box512Secret => "UACRYPT-SECRET-BOX512"
  | Box512Public => "uacrypt-box512-public"
  end%string.

Definition key_len (self : KeyKind) : nat :=
  match self with
  | Sign163Secret => 21
  | Symmetric | Box256Secret | Box256Public => 32
  | Sign257Secret => 33
  | Sign163Public => 42
  | Box384Secret | Box384Public => 48
  | Sign257Public => 66
  | Box512Secret | Box512Public => 64
  end.

Definition is_secret (self : KeyKind) : bool :=
  match self with
  | Symmetric | Sign163Secret | Sign257Secret | Box256Secret | Box384Secret | Box512Secret => true
  | _ => false
  end.

Definition name (self : KeyKind) : string :=
  match self with
  | Symmetric => "symmetric"
  | Sign163Secret => "sign163-secret"
  | Sign163Public => "sign163-public"
  | Sign257Secret => "sign257-secret"
  | Sign257Public => "sign257-public"
  | Box256Secret => "box256-secret"
  | Box256Public => "box256-public"
  | Box384Secret => "box384-secret"
  | Box384Public => "box384-public"
  | Box512Secret => "box512-secret"
  | Box512Public => "box512-public"
  end.

Definition label (self : KeyKind) : string :=
  match self with
  | Symmetric => "symmetric key (for encrypt/decrypt)"
  | Sign163Secret => "signing key (DSTU 4145, m=163)"
  | Sign163Public => "verifying key (DSTU 4145, m=163)"
  | Sign257Secret => "signing key (DSTU 4145, m=257)"
  | Sign257Public => "verifying key (DSTU 4145, m=257)"
  | Box256Secret => "box secret key (DSTU 9041, l(p)=256)"
  | Box256Public => "box public key (DSTU 9041, l(p)=256)"
  | Box384Secret => "box secret key (DSTU 9041, l(p)=384)"
  | Box384Public => "box public key (DSTU 9041, l(p)=384)"
  | Box512Secret => "box secret key (DSTU 9041, l(p)=512)"
  | Box512Public => "box public key (DSTU 9041, l(p)=512)"
  end.

Definition made_by (self : KeyKind) : string :=
  match self with
  | Symmetric => "uacrypt keygen"
  | Sign163Secret => "uacrypt sign-keygen"
  | Sign257Secret => "uacrypt sign-keygen257"
  | Sign163Public | Sign257Public => "uacrypt sign-pubkey"
  | Box256Secret => "uacrypt box-keygen"
  | Box384Secret => "uacrypt box-keygen384"
  | Box512Secret => "uacrypt box-keygen512"
  | Box256Public | Box384Public | Box512Public => "uacrypt box-pubkey"
  end.

Definition parse_name (value : string) : option KeyKind := List.find (λ k, String.eqb (name k) value) ALL_KINDS.

(** [makers.join(sep)]. *)
Fixpoint join (sep : string) (l : list string) : string :=
  match l with
  | [] => ""
  | [x] => x
  | x :: l => x +:+ sep +:+ join sep l
  end.

Definition wrong_kind_hint (expected : list KeyKind) : string :=
  let makers := foldl (λ (makers : list string) k, let maker := "`" +:+ made_by k +:+ "`" in
                  if bool_decide (maker ∈ makers) then makers else makers ++ [maker]) [] expected in
  "make the right key with " +:+ join " or " makers.

(** ** Hex without branches *)

(** [i32] arithmetic: the operands are small, so nothing overflows; [>>] is arithmetic and [as u8] keeps the low byte. *)
Definition hex_digit (n : Z) : Z :=
  let letter_gap := Z.land (Z.shiftr (9 - n) 31) (0x61 - 0x30 - 10) in
  wrap 8 (n + 0x30 + letter_gap).

Definition hex_value (c : Z) : Z * Z :=
  let d := c - 0x30 in
  let l := c - 0x61 + 10 in
  let d_ok := Z.land (Z.lnot (Z.shiftr (Z.lor d (9 - d)) 31)) 1 in
  let l_ok := Z.land (Z.lnot (Z.shiftr (Z.lor (l - 10) (15 - l)) 31)) 1 in
  let value := Z.lor (Z.land d (- d_ok)) (Z.land l (- l_ok)) in
  (wrap 8 value, wrap 8 (Z.lor d_ok l_ok)).

(** The loop over the bytes of [out] and the pairs of digits; returns [out] and [ok]. *)
Fixpoint decode_hex_loop (out : list Z) (pairs : list (list Z)) (ok : Z) : list Z * Z :=
  match out, pairs with
  | _ :: out, digits :: pairs =>
      let '(hi, hi_ok) := hex_value (digits.[0]) in
      let '(lo, lo_ok) := hex_value (digits.[1]) in
      let '(out, ok) := decode_hex_loop out pairs (Z.land ok (Z.land hi_ok lo_ok)) in
      (Z.lor (shl 8 hi 4) lo :: out, ok)
  | _, _ => (out, ok)
  end.

Definition decode_hex (hex out : list Z) : list Z * Z := decode_hex_loop out (chunks_exact 2 hex) 1.

(** [for &byte in key { push hex_digit(byte >> 4); push hex_digit(byte & 0x0f) }]. *)
Definition push_hex (line bytes : list Z) : list Z :=
  foldl (λ line byte, line ++ [hex_digit (Z.shiftr byte 4); hex_digit (Z.land byte 0x0f)]) line bytes.

(** ** Key lines *)

Definition CHECK_DOMAIN : list Z := ascii_bytes "uacrypt-key-v1".
Definition CHECK_LEN : nat := 4.
Definition MAX_KEY_FILE_BYTES : nat := 256.
Definition COLON : Z := 0x3A.

Inductive DecodeError : Type := NotTyped | Malformed (kind : KeyKind) | CheckMismatch (kind : KeyKind).

Definition check_value (kind : KeyKind) (key : list Z) : option (list Z) :=
  let hasher := hasher_new Kupyna256 in
  hasher ← hasher_update hasher CHECK_DOMAIN;
  hasher ← hasher_update hasher [0];
  hasher ← hasher_update hasher (prefix kind);
  hasher ← hasher_update hasher [0];
  hasher ← hasher_update hasher key;
  digest ← hasher_finalize Kupyna256 hasher;
  let check := replicate CHECK_LEN 0 in
  Some (copy_at 0 (take CHECK_LEN digest) check).

Definition encode (kind : KeyKind) (key : list Z) : option (list Z) :=
  check ← check_value kind key;
  let line := prefix kind in
  let line := line ++ [COLON] in
  let line := push_hex line key in
  let line := line ++ [COLON] in
  let line := push_hex line check in
  Some (line ++ [0x0A]).

(** [l.strip_prefix(p)] and [l.strip_suffix(s)]. *)
Definition strip_prefix (p l : list Z) : option (list Z) :=
  if bool_decide (take (length p) l = p) then Some (drop (length p) l) else None.
Definition strip_suffix (s l : list Z) : option (list Z) :=
  if bool_decide (drop (length l - length s) l = s) then Some (take (length l - length s) l) else None.

Definition sniff_matches (head : list Z) (kind : KeyKind) : bool :=
  match strip_prefix (prefix kind) head with
  | Some (c :: _) => Z.eqb c COLON
  | _ => false
  end.

Definition sniff_kind (head : list Z) : option KeyKind :=
  let head := default head (strip_prefix [0xEF; 0xBB; 0xBF] head) in
  List.find (sniff_matches head) ALL_KINDS.

Definition line_matches (line : list Z) (k : KeyKind) : bool :=
  let p := prefix k in
  Nat.ltb (length p) (length line) && bool_decide (take (length p) line = p) && Z.eqb (line.[length p]) COLON.

Definition strip_newline (text : list Z) : list Z :=
  match strip_suffix [0x0D; 0x0A] text with
  | Some line => line
  | None => default text (strip_suffix [0x0A] text)
  end.

Definition decode `{Subtle} (text : list Z) : option (result (KeyKind * list Z) DecodeError) :=
  let line := strip_newline text in
  match List.find (line_matches line) ALL_KINDS with
  | None => Some (Err NotTyped)
  | Some kind =>
      let key_start := (length (prefix kind) + 1)%nat in
      let key_end := (key_start + 2 * key_len kind)%nat in
      if negb (Nat.eqb (length line) (key_end + 1 + 2 * CHECK_LEN)) || negb (Z.eqb (line.[key_end]) COLON) then Some (Err (Malformed kind))
      else
        let key := replicate (key_len kind) 0 in
        let check := replicate CHECK_LEN 0 in
        let '(key, key_ok) := decode_hex (slice key_start key_end line) key in
        let '(check, check_ok) := decode_hex (drop (key_end + 1) line) check in
        let ok := Z.land key_ok check_ok in
        if negb (Z.eqb ok 1) then Some (Err (Malformed kind))
        else
          value ← check_value kind key;
          Some (if negb (ct_eq_slice value check) then Err (CheckMismatch kind) else Ok (kind, key))
  end.

(** ** Reading a key file *)

Section read_key.
Context {IoError : Type}.

Inductive ReadError : Type :=
| Io (e : IoError)
| KeyFileNotTyped
| KeyFileMalformed (kind : KeyKind)
| KeyCheckMismatch (kind : KeyKind)
| KeyKindMismatch (found : KeyKind) (expected : list KeyKind).

(** [file] is what reading the whole file gives. *)
Definition read_key `{Subtle} (file : result (list Z) IoError) (expected : list KeyKind) : option (result (KeyKind * list Z) ReadError) :=
  match file with
  | Err e => Some (Err (Io e))
  | Ok contents =>
      let text := take (MAX_KEY_FILE_BYTES + 1) contents in
      r ← decode text;
      Some (match r with
      | Err NotTyped => Err KeyFileNotTyped
      | Err (Malformed kind) => Err (KeyFileMalformed kind)
      | Err (CheckMismatch kind) => Err (KeyCheckMismatch kind)
      | Ok (kind, key) => if negb (bool_decide (kind ∈ expected)) then Err (KeyKindMismatch kind expected) else Ok (kind, key)
      end)
  end.
End read_key.
Arguments ReadError IoError : clear implicits.

(** ** Hex *)

Definition hex_of (bytes : list Z) : list Z := concat (map (λ b, [hex_digit (Z.shiftr b 4); hex_digit (Z.land b 0x0f)]) bytes).

Lemma push_hex_eq line bytes : push_hex line bytes = line ++ hex_of bytes.
Proof. unfold push_hex, hex_of. revert line. induction bytes as [|b bytes IH]; intros line; cbn; [by rewrite app_nil_r|]. by rewrite IH, <- app_assoc. Qed.

Lemma length_hex_of bytes : length (hex_of bytes) = (2 * length bytes)%nat.
Proof. unfold hex_of. rewrite (length_concat_const 2), length_map; [lia|]. apply Forall_map, Forall_true. done. Qed.

(** A digit and its value. *)
Lemma hex_digit_value n : 0 ≤ n < 16 → hex_value (hex_digit n) = (n, 1) ∧ byte_ok (hex_digit n) ∧ hex_digit n ≠ 10 ∧ hex_digit n ≠ 13.
Proof.
  intros Hn. assert (n ∈ seqZ 0 16) as Hin by (apply elem_of_seqZ; lia). revert n Hn Hin.
  assert (Forall (λ n, hex_value (hex_digit n) = (n, 1) ∧ byte_ok (hex_digit n) ∧ hex_digit n ≠ 10 ∧ hex_digit n ≠ 13) (seqZ 0 16)) as Hall by by_decision.
  intros n _ Hin. by rewrite Forall_forall in Hall; apply Hall.
Qed.

(** The branch-free classification, on every byte: a digit is recognised exactly when it is one, and is 0 otherwise. *)
Lemma hex_value_spec c : byte_ok c →
  (∃ v, 0 ≤ v < 16 ∧ c = hex_digit v ∧ hex_value c = (v, 1)) ∨ hex_value c = (0, 0).
Proof.
  intros Hc. assert (Forall (λ c, (hex_value c).2 = 1 ∧ 0 ≤ (hex_value c).1 < 16 ∧ c = hex_digit (hex_value c).1 ∨ hex_value c = (0, 0)) all_bytes) as Hall by by_decision.
  rewrite Forall_forall in Hall. destruct (Hall c) as [(H1 & H2 & H3)|H0]; [apply elem_of_seqZ; unfold word_ok in Hc; lia| |by right].
  left. exists (hex_value c).1. split; [done|]. split; [done|]. destruct (hex_value c). cbn in *. by subst.
Qed.

Lemma nibbles b : byte_ok b → 0 ≤ Z.shiftr b 4 < 16 ∧ 0 ≤ Z.land b 0x0f < 16 ∧ Z.lor (shl 8 (Z.shiftr b 4) 4) (Z.land b 0x0f) = b.
Proof.
  intros Hb. assert (Forall (λ b, 0 ≤ Z.shiftr b 4 < 16 ∧ 0 ≤ Z.land b 0x0f < 16 ∧ Z.lor (shl 8 (Z.shiftr b 4) 4) (Z.land b 0x0f) = b) all_bytes) as Hall by by_decision.
  rewrite Forall_forall in Hall. apply Hall, elem_of_seqZ. unfold word_ok in Hb. lia.
Qed.

Lemma join_nibbles h l : 0 ≤ h < 16 → 0 ≤ l < 16 →
  byte_ok (Z.lor (shl 8 h 4) l) ∧ Z.shiftr (Z.lor (shl 8 h 4) l) 4 = h ∧ Z.land (Z.lor (shl 8 h 4) l) 0x0f = l.
Proof.
  intros Hh Hl. assert (Forall (λ h, Forall (λ l, byte_ok (Z.lor (shl 8 h 4) l) ∧ Z.shiftr (Z.lor (shl 8 h 4) l) 4 = h ∧ Z.land (Z.lor (shl 8 h 4) l) 0x0f = l) (seqZ 0 16)) (seqZ 0 16)) as Hall by by_decision.
  rewrite Forall_forall in Hall. specialize (Hall h ltac:(apply elem_of_seqZ; lia)). rewrite Forall_forall in Hall. apply Hall, elem_of_seqZ. lia.
Qed.

Definition flag (ok : Z) : Prop := ok = 0 ∨ ok = 1.

Lemma flag_land a b : flag a → flag b → flag (Z.land a b) ∧ (Z.land a b = 1 → a = 1 ∧ b = 1).
Proof. by intros [-> | ->] [-> | ->]; unfold flag; cbn; (split; [auto|]). Qed.

Lemma hex_value_flag c : byte_ok c → flag (hex_value c).2.
Proof. intros Hc. destruct (hex_value_spec c Hc) as [(v & _ & _ & ->)|E]; [by right|]. rewrite E. by left. Qed.

(** The hex of some bytes is read back, and the flag is kept. *)
Lemma decode_hex_complete bs : ∀ out ok, bytes_ok bs → length bs = length out → flag ok → decode_hex_loop out (chunks_exact 2 (hex_of bs)) ok = (bs, ok).
Proof.
  induction bs as [|b bs IH]; intros [|o out] ok Hb Hl Hok; try done. apply Forall_cons in Hb as [Hb0 Hb].
  change (hex_of (b :: bs)) with (hex_digit (Z.shiftr b 4) :: hex_digit (Z.land b 0x0f) :: hex_of bs).
  rewrite (proj1 (chunks_exact_cons 2 (_ :: _ :: hex_of bs) ltac:(lia) ltac:(cbn; lia))). cbn [take drop decode_hex_loop nth].
  destruct (nibbles b Hb0) as (Hh & Hl0 & Hj). rewrite (proj1 (hex_digit_value _ Hh)), (proj1 (hex_digit_value _ Hl0)). rewrite IH; [|done|by injection Hl|by destruct Hok as [-> | ->]; unfold flag; auto].
  rewrite Hj. by destruct Hok as [-> | ->].
Qed.

(** And a text that is accepted is the hex of the bytes that come out. *)
Lemma decode_hex_sound out : ∀ hex ok, bytes_ok hex → length hex = (2 * length out)%nat → flag ok →
  let '(bytes, ok') := decode_hex_loop out (chunks_exact 2 hex) ok in
  length bytes = length out ∧ flag ok' ∧ (ok' = 1 → ok = 1 ∧ bytes_ok bytes ∧ hex = hex_of bytes).
Proof.
  induction out as [|o out IH]; intros hex ok Hb Hl Hok; [by destruct hex; cbn; auto|].
  destruct hex as [|x [|y hex]]; [done|cbn in Hl; lia|]. apply Forall_cons in Hb as [Hx Hb]. apply Forall_cons in Hb as [Hy Hb].
  rewrite (proj1 (chunks_exact_cons 2 (x :: y :: hex) ltac:(lia) ltac:(cbn; lia))). cbn [take drop decode_hex_loop nth].
  destruct (hex_value x) as [hi hi_ok] eqn:Ehi, (hex_value y) as [lo lo_ok] eqn:Elo.
  assert (flag hi_ok ∧ flag lo_ok) as [Hhf Hlf].
  { pose proof (hex_value_flag x Hx) as H1. pose proof (hex_value_flag y Hy) as H2. by rewrite Ehi in H1; rewrite Elo in H2. }
  cbv beta iota. rewrite drop_0. destruct (flag_land _ _ Hhf Hlf) as [Hf1 Hf2]. destruct (flag_land _ _ Hok Hf1) as [Hf3 Hf4]. set (ok1 := Z.land ok (Z.land hi_ok lo_ok)) in *.
  specialize (IH hex ok1 Hb ltac:(cbn in Hl; lia) Hf3). destruct (decode_hex_loop out (chunks_exact 2 hex) ok1) as [bytes ok'].
  destruct IH as (IHl & IHf & IHs). cbv beta iota. split; [cbn; by rewrite IHl|]. split; [exact IHf|]. intros H1. destruct (IHs H1) as (H2 & Hbs & ->). destruct (Hf4 H2) as [-> H3]. destruct (Hf2 H3) as [-> ->].
  destruct (hex_value_spec x Hx) as [(h & Hh & -> & E)|E], (hex_value_spec y Hy) as [(l & Hl' & -> & E')|E']; try congruence.
  rewrite E in Ehi. rewrite E' in Elo. injection Ehi as <-. injection Elo as <-. destruct (join_nibbles h l Hh Hl') as (Hj & Ej1 & Ej2).
  split; [done|]. split; [by constructor|]. unfold hex_of. cbn [map concat]. by rewrite Ej1, Ej2.
Qed.

(** ** The check value *)

Definition check_of (kind : KeyKind) (key : list Z) : list Z := take CHECK_LEN (kupyna_digest Kupyna256 (CHECK_DOMAIN ++ [0] ++ prefix kind ++ [0] ++ key)).

Lemma prefix_ok kind : bytes_ok (prefix kind) ∧ (length (prefix kind) ≤ 24)%nat.
Proof. destruct kind; by_decision. Qed.

Lemma copy_at_whole (l k : list Z) : length l = length k → copy_at 0 l k = l.
Proof. intros Hl. rewrite copy_at_0, Hl, drop_all by lia. apply app_nil_r. Qed.

Lemma check_value_spec kind key : bytes_ok key → length key < 2 ^ 60 → check_value kind key = Some (check_of kind key) ∧ array_ok CHECK_LEN (check_of kind key).
Proof.
  intros Hb Hl. destruct (prefix_ok kind) as [Hp Hpl].
  assert (bytes_ok (CHECK_DOMAIN ++ [0] ++ prefix kind ++ [0] ++ key)) as Hall.
  { repeat apply Forall_app_2; (done || by_decision). }
  pose proof (updates_digest Kupyna256 [CHECK_DOMAIN; [0]; prefix kind; [0]; key]) as Hu. cbn [concat] in Hu. rewrite app_nil_r in Hu.
  pose proof (kupyna_digest_ok Kupyna256 _ Hall) as [Hdl Hdb].
  assert (array_ok CHECK_LEN (check_of kind key)) as Hok.
  { split; [unfold check_of; rewrite length_take, Hdl; done|by apply Forall_take]. }
  split; [|done]. assert (length CHECK_DOMAIN = 14%nat) as Hd by done.
  specialize (Hu ltac:(repeat (apply Forall_cons; split); first [done|by_decision]) ltac:(rewrite !length_app, Hd; cbn [length]; lia)).
  unfold check_value. cbn [updates] in Hu.
  repeat match goal with |- context [hasher_update ?h ?d] => destruct (hasher_update h d); [cbn [mbind option_bind] in *|done] end.
  rewrite Hu. cbn [mbind option_bind]. f_equal. apply copy_at_whole. rewrite length_replicate. exact (proj1 Hok).
Qed.

(** ** The lines *)

Definition line_of (kind : KeyKind) (key : list Z) : list Z := prefix kind ++ [COLON] ++ hex_of key ++ [COLON] ++ hex_of (check_of kind key).

Lemma encode_spec kind key : bytes_ok key → length key < 2 ^ 60 → encode kind key = Some (line_of kind key ++ [0x0A]).
Proof.
  intros Hb Hl. unfold encode. destruct (check_value_spec kind key Hb Hl) as [-> _]. cbn [mbind option_bind].
  rewrite !push_hex_eq. unfold line_of. by rewrite <- !app_assoc.
Qed.

Lemma strip_suffix_app l s : strip_suffix s (l ++ s) = Some l.
Proof.
  unfold strip_suffix. rewrite length_app. replace (length l + length s - length s)%nat with (length l) by lia.
  by rewrite drop_app_length, bool_decide_eq_true_2, take_app_length.
Qed.

Lemma strip_suffix_inv l s r : strip_suffix s l = Some r → l = r ++ s.
Proof.
  unfold strip_suffix. destruct (bool_decide _) eqn:E; [|done]. apply bool_decide_eq_true in E. intros [= <-]. rewrite <- (take_drop (length l - length s) l) at 1. by rewrite E.
Qed.

(** What is left of a text is the text without one line break at most. *)
Lemma strip_newline_inv text : ∃ nl, text = strip_newline text ++ nl ∧ (nl = [] ∨ nl = [0x0A] ∨ nl = [0x0D; 0x0A]).
Proof.
  unfold strip_newline. destruct (strip_suffix [0x0D; 0x0A] text) as [r|] eqn:E1; [apply strip_suffix_inv in E1; exists [0x0D; 0x0A]; auto|].
  destruct (strip_suffix [0x0A] text) as [r|] eqn:E2; [apply strip_suffix_inv in E2; exists [0x0A]; auto|].
  exists []. cbn [default]. rewrite app_nil_r. auto.
Qed.

Lemma strip_newline_line l c nl : c ≠ 0x0A → c ≠ 0x0D → nl = [] ∨ nl = [0x0A] ∨ nl = [0x0D; 0x0A] → strip_newline ((l ++ [c]) ++ nl) = l ++ [c].
Proof.
  intros H1 H2. unfold strip_newline. intros [-> |[-> | ->]].
  - rewrite app_nil_r.
    destruct (strip_suffix [0x0D; 0x0A] (l ++ [c])) as [r|] eqn:E1.
    { apply strip_suffix_inv in E1. change [0x0D; 0x0A] with ([0x0D] ++ [0x0A]) in E1. rewrite app_assoc in E1. by apply app_inj_tail in E1 as [_ E1]. }
    destruct (strip_suffix [0x0A] (l ++ [c])) as [r|] eqn:E2; [|done]. apply strip_suffix_inv in E2. by apply app_inj_tail in E2 as [_ E2].
  - destruct (strip_suffix [0x0D; 0x0A] ((l ++ [c]) ++ [0x0A])) as [r|] eqn:E1; [|by rewrite strip_suffix_app].
    apply strip_suffix_inv in E1. change [0x0D; 0x0A] with ([0x0D] ++ [0x0A]) in E1. rewrite app_assoc in E1. apply app_inj_tail in E1 as [E1 _]. by apply app_inj_tail in E1 as [_ E1].
  - by rewrite strip_suffix_app.
Qed.

(** No prefix of a kind starts the line of another. *)
Lemma line_matches_inv k line : line_matches line k = true ↔ ∃ rest, line = prefix k ++ COLON :: rest.
Proof.
  unfold line_matches. split.
  - intros [[H1%Nat.ltb_lt H2%bool_decide_eq_true]%andb_true_iff H3%Z.eqb_eq]%andb_true_iff.
    assert (∃ r, line = prefix k ++ r) as [r ->] by (exists (drop (length (prefix k)) line); rewrite <- H2 at 1; by rewrite take_drop).
    rewrite app_nth2, Nat.sub_diag in H3 by lia. rewrite length_app in H1. destruct r as [|c rest]; [cbn in H1; lia|]. cbn in H3. subst. by exists rest.
  - intros (rest & ->). rewrite length_app. cbn [length]. rewrite take_app_length. rewrite app_nth2, Nat.sub_diag by lia. cbn [nth].
    rewrite (proj2 (Nat.ltb_lt _ _)) by lia. by rewrite bool_decide_eq_true_2.
Qed.

Lemma prefix_unique k k' a b : prefix k ++ COLON :: a = prefix k' ++ COLON :: b → k = k'.
Proof. destruct k, k'; first [done|discriminate]. Qed.

Lemma find_kind line k : (∃ rest, line = prefix k ++ COLON :: rest) ↔ List.find (line_matches line) ALL_KINDS = Some k.
Proof.
  split.
  - intros [rest Hr]. destruct (List.find (line_matches line) ALL_KINDS) as [k'|] eqn:E.
    + apply List.find_some in E as [_ (rest' & Hr')%line_matches_inv]. f_equal. symmetry. eapply prefix_unique. by rewrite <- Hr.
    + assert (line_matches line k = true) as Hm by (apply line_matches_inv; eauto). rewrite (List.find_none _ _ E) in Hm; [done|]. destruct k; cbn; tauto.
  - intros [_ Hm]%List.find_some. by apply line_matches_inv.
Qed.

Definition line_break (nl : list Z) : Prop := nl = [] ∨ nl = [0x0A] ∨ nl = [0x0D; 0x0A].

(** A line whose two fields are hex of the right lengths, with any check value. *)
Definition typed_line (kind : KeyKind) (key check : list Z) : list Z := prefix kind ++ COLON :: hex_of key ++ COLON :: hex_of check.

Lemma line_of_typed kind key : line_of kind key = typed_line kind key (check_of kind key).
Proof. done. Qed.

Lemma typed_line_break kind key check nl : array_ok CHECK_LEN check → line_break nl → strip_newline (typed_line kind key check ++ nl) = typed_line kind key check.
Proof.
  intros [Hl Hb] Hnl. destruct (length_4_inv check Hl) as (c0 & c1 & c2 & c3 & ->). do 3 apply Forall_cons in Hb as [_ Hb]. apply Forall_cons in Hb as [Hc _].
  destruct (nibbles c3 Hc) as (_ & Hn & _). destruct (hex_digit_value _ Hn) as (_ & _ & H1 & H2).
  assert (typed_line kind key [c0; c1; c2; c3] = (prefix kind ++ COLON :: hex_of key ++ COLON :: hex_of [c0; c1; c2] ++ [hex_digit (Z.shiftr c3 4)]) ++ [hex_digit (Z.land c3 0x0f)]) as ->.
  { unfold typed_line. rewrite <- app_assoc. cbn [app]. by rewrite <- app_assoc. }
  by apply strip_newline_line.
Qed.

(** The fields that the parser cuts out. *)
Lemma cut_fields kind rest :
  length (prefix kind ++ COLON :: rest) = (length (prefix kind) + 1 + 2 * key_len kind + 1 + 2 * CHECK_LEN)%nat →
  (prefix kind ++ COLON :: rest).[length (prefix kind) + 1 + 2 * key_len kind] = COLON →
  ∃ a b, rest = a ++ COLON :: b ∧ length a = (2 * key_len kind)%nat ∧ length b = (2 * CHECK_LEN)%nat.
Proof.
  generalize (key_len kind) as n, (prefix kind) as p. intros n p Hl Hc. rewrite length_app in Hl. cbn [length] in Hl.
  rewrite app_nth2 in Hc by lia. replace (length p + 1 + 2 * n - length p)%nat with (S (2 * n)) in Hc by lia. cbn [nth] in Hc.
  exists (take (2 * n) rest), (drop (S (2 * n)) rest). split; [|rewrite length_take, length_drop; split; lia].
  rewrite <- (take_drop (2 * n) rest) at 1. f_equal. rewrite <- (take_drop (2 * n) rest), app_nth2, length_take, Nat.min_l, Nat.sub_diag in Hc by (rewrite ?length_take; lia).
  destruct (drop (2 * n) rest) as [|c r] eqn:E; [apply (f_equal length) in E; rewrite length_drop in E; cbn in E; lia|]. cbn in Hc. subst c. f_equal.
  replace (S (2 * n)) with (2 * n + 1)%nat by lia. by rewrite <- drop_drop, E.
Qed.

Lemma cut_slices p a b n : length a = n →
  slice (length p + 1) (length p + 1 + n) (p ++ COLON :: a ++ COLON :: b) = a ∧ drop (length p + 1 + n + 1) (p ++ COLON :: a ++ COLON :: b) = b.
Proof.
  intros Ha. split.
  - change (p ++ COLON :: a ++ COLON :: b) with (p ++ [COLON] ++ a ++ COLON :: b). rewrite app_assoc. apply slice_app; rewrite length_app; cbn; lia.
  - replace (p ++ COLON :: a ++ COLON :: b) with ((p ++ [COLON] ++ a ++ [COLON]) ++ b) by by rewrite <- !app_assoc. apply drop_app_length'. rewrite !length_app. cbn. lia.
Qed.

Lemma typed_line_cut kind key check a b : array_ok (key_len kind) key → length a = (2 * key_len kind)%nat →
  prefix kind ++ COLON :: a ++ COLON :: b = typed_line kind key check → a = hex_of key ∧ b = hex_of check.
Proof.
  intros [Hl _] Ha. unfold typed_line. intros [= E]%app_inv_head. apply app_inj_1 in E as [-> [= ->]]; [done|]. by rewrite length_hex_of, Ha, Hl.
Qed.

Section decoding.
Context `{SubtleLaws}.

(** What [decode] makes of a text. *)
Definition decode_result (text : list Z) (r : result (KeyKind * list Z) DecodeError) : Prop :=
  let line := strip_newline text in
  match r with
  | Ok (kind, key) => array_ok (key_len kind) key ∧ line = line_of kind key
  | Err NotTyped => ∀ kind rest, line ≠ prefix kind ++ COLON :: rest
  | Err (Malformed kind) => (∃ rest, line = prefix kind ++ COLON :: rest) ∧
      ∀ key check, array_ok (key_len kind) key → array_ok CHECK_LEN check → line ≠ typed_line kind key check
  | Err (CheckMismatch kind) => ∃ key check, array_ok (key_len kind) key ∧ array_ok CHECK_LEN check ∧ line = typed_line kind key check ∧ check ≠ check_of kind key
  end.

Lemma strip_newline_ok text : bytes_ok text → bytes_ok (strip_newline text).
Proof. intros Hb. destruct (strip_newline_inv text) as (nl & E & _). rewrite E in Hb. by apply Forall_app in Hb as [Hb _]. Qed.

Lemma key_len_small kind : key_len kind < 2 ^ 60.
Proof. by destruct kind. Qed.

Lemma decode_spec text : bytes_ok text → ∃ r, decode text = Some r ∧ decode_result text r.
Proof.
  intros Hb%strip_newline_ok. unfold decode, decode_result. generalize dependent (strip_newline text). intros line Hb.
  destruct (List.find (line_matches line) ALL_KINDS) as [kind|] eqn:Ef.
  2:{ eexists. split; [done|]. intros kind rest ->. assert (line_matches (prefix kind ++ COLON :: rest) kind = true) as Hm by (apply line_matches_inv; eauto).
      rewrite (List.find_none _ _ Ef) in Hm; [done|]. destruct kind; cbn; tauto. }
  apply find_kind in Ef as [rest ->].
  destruct (Nat.eqb_spec (length (prefix kind ++ COLON :: rest)) (length (prefix kind) + 1 + 2 * key_len kind + 1 + 2 * CHECK_LEN)) as [El|El]; cbn [negb orb].
  2:{ eexists. split; [done|]. split; [by exists rest|]. intros key check [Hkl _] [Hcl _] E. apply El. rewrite E. unfold typed_line.
      rewrite length_app. cbn [length]. rewrite length_app. cbn [length]. rewrite !length_hex_of, Hkl, Hcl. lia. }
  destruct (Z.eqb_spec ((prefix kind ++ COLON :: rest).[length (prefix kind) + 1 + 2 * key_len kind]) COLON) as [Ec|Ec]; cbn [negb].
  2:{ eexists. split; [done|]. split; [by exists rest|]. intros key check [Hkl _] _ E. apply Ec. rewrite E. unfold typed_line.
      rewrite app_nth2, app_comm_cons, app_nth2 by (cbn [length]; rewrite ?length_hex_of; lia). cbn [length]. rewrite length_hex_of, Hkl.
      by replace (length (prefix kind) + 1 + 2 * key_len kind - length (prefix kind) - S (2 * key_len kind))%nat with O by lia. }
  destruct (cut_fields kind rest El Ec) as (a & b & -> & Ha & Hbl). destruct (cut_slices (prefix kind) a b _ Ha) as [-> ->].
  apply Forall_app in Hb as [_ Hb]. apply Forall_cons in Hb as [_ Hb]. apply Forall_app in Hb as [Hab Hb]. apply Forall_cons in Hb as [_ Hb].
  unfold decode_hex. pose proof (decode_hex_sound (replicate (key_len kind) 0) a 1 Hab ltac:(by rewrite length_replicate) ltac:(by right)) as Hk.
  pose proof (decode_hex_sound (replicate CHECK_LEN 0) b 1 Hb ltac:(by rewrite length_replicate) ltac:(by right)) as Hc.
  destruct (decode_hex_loop (replicate (key_len kind) 0) _ 1) as [key key_ok] eqn:Ek, (decode_hex_loop (replicate CHECK_LEN 0) _ 1) as [check check_ok] eqn:Ech.
  destruct Hk as (Hkl & Hkf & Hks), Hc as (Hcl & Hcf & Hcs). rewrite length_replicate in Hkl, Hcl.
  destruct (flag_land _ _ Hkf Hcf) as [_ Hok]. destruct (Z.eqb_spec (Z.land key_ok check_ok) 1) as [E1|E1]; cbn [negb].
  - destruct (Hok E1) as [-> ->]. destruct (Hks eq_refl) as (_ & Hkb & ->), (Hcs eq_refl) as (_ & Hcb & ->).
    destruct (check_value_spec kind key Hkb) as [-> _]; [rewrite Hkl; apply key_len_small|]. cbn [mbind option_bind]. rewrite ct_eq_slice_spec.
    eexists. split; [done|]. destruct (bool_decide (check_of kind key = check)) eqn:Ecc; cbn [negb].
    + apply bool_decide_eq_true in Ecc as <-. done.
    + apply bool_decide_eq_false in Ecc. exists key, check. by split_and!.
  - eexists. split; [done|]. split; [by eexists|]. intros key' check' [Hkl' Hkb'] [Hcl' Hcb'] E. apply typed_line_cut in E as [-> ->]; [|done..].
    rewrite decode_hex_complete in Ek by (done || rewrite ?length_replicate; done || by right). rewrite decode_hex_complete in Ech by (done || rewrite ?length_replicate; done || by right).
    injection Ek as <- <-. injection Ech as <- <-. done.
Qed.
End decoding.

Lemma hex_of_inj a b : bytes_ok a → bytes_ok b → hex_of a = hex_of b → a = b.
Proof.
  intros Ha Hb E. assert (length a = length b) as Hl by (apply (f_equal length) in E; rewrite !length_hex_of in E; lia).
  pose proof (decode_hex_complete a (replicate (length a) 0) 1 Ha ltac:(by rewrite length_replicate) ltac:(by right)) as H1.
  rewrite E, (decode_hex_complete b) in H1 by (done || rewrite ?length_replicate; done || by right). by injection H1 as ->.
Qed.

Lemma typed_line_inj kind key check kind' key' check' :
  array_ok (key_len kind) key → array_ok CHECK_LEN check → array_ok (key_len kind') key' → array_ok CHECK_LEN check' →
  typed_line kind key check = typed_line kind' key' check' → kind = kind' ∧ key = key' ∧ check = check'.
Proof.
  intros Hk Hc Hk' Hc' E. assert (kind = kind') as <- by (by eapply prefix_unique). split; [done|].
  apply typed_line_cut in E as [Ek Ec]; [|done|by rewrite length_hex_of, (proj1 Hk)]. split; apply hex_of_inj; [apply Hk|apply Hk'|done|apply Hc|apply Hc'|done].
Qed.

Lemma check_of_ok kind key : array_ok (key_len kind) key → array_ok CHECK_LEN (check_of kind key).
Proof. intros [Hl Hb]. apply check_value_spec; [done|]. rewrite Hl. apply key_len_small. Qed.

Lemma line_of_ok kind key : array_ok (key_len kind) key → bytes_ok (line_of kind key) ∧ (length (line_of kind key) ≤ 170)%nat.
Proof.
  intros Hk. pose proof (check_of_ok kind key Hk) as [Hcl Hcb]. destruct Hk as [Hl Hb]. destruct (prefix_ok kind) as [Hpb Hpl].
  assert (∀ bs, bytes_ok bs → bytes_ok (hex_of bs)) as Hh.
  { intros bs Hbs. apply Forall_concat, Forall_map. eapply Forall_impl; [exact Hbs|]. intros b Hb0. destruct (nibbles b Hb0) as (H1 & H2 & _).
    repeat apply Forall_cons_2; [by apply hex_digit_value..|done]. }
  split.
  - unfold line_of. repeat apply Forall_app_2; first [done | by apply Hh | by_decision].
  - unfold line_of. rewrite !length_app, !length_hex_of, Hcl, Hl. cbn [length]. change CHECK_LEN with 4%nat. destruct kind; cbn [key_len prefix] in *; vm_compute length; lia.
Qed.

Section exactness.
Context `{SubtleLaws}.

(** The result is determined by the text. *)
Lemma decode_exact text kind key : bytes_ok text →
  decode text = Some (Ok (kind, key)) ↔ array_ok (key_len kind) key ∧ ∃ nl, line_break nl ∧ text = line_of kind key ++ nl.
Proof.
  intros Hb. destruct (decode_spec text Hb) as (r & -> & Hr). split.
  - intros [= ->]. destruct Hr as [Hk El]. split; [done|]. destruct (strip_newline_inv text) as (nl & E & Hnl). exists nl. by rewrite El in E.
  - intros (Hk & nl & Hnl & ->). pose proof (check_of_ok kind key Hk) as Hc. unfold decode_result in Hr. rewrite line_of_typed, typed_line_break in Hr by done. do 2 f_equal.
    destruct r as [[kind' key']|[|kind'|kind']].
    + destruct Hr as [Hk' E]. rewrite line_of_typed in E. by destruct (typed_line_inj _ _ _ _ _ _ Hk Hc Hk' (check_of_ok _ _ Hk') E) as (E1 & E2 & _); subst.
    + by destruct (Hr kind _ eq_refl).
    + destruct Hr as [[rest E] Hr]. assert (kind = kind') as <- by (by eapply prefix_unique). by destruct (Hr key _ Hk Hc).
    + destruct Hr as (key' & check' & Hk' & Hc' & E & Hne). destruct (typed_line_inj _ _ _ _ _ _ Hk Hc Hk' Hc' E) as (<- & <- & <-). done.
Qed.

Context {IoError : Type}.

(** Reading at most 257 bytes decides about the whole file. *)
Lemma read_key_exact_lemma contents expected kind key : bytes_ok contents →
  read_key (IoError := IoError) (Ok contents) expected = Some (Ok (kind, key)) ↔
    kind ∈ expected ∧ array_ok (key_len kind) key ∧ ∃ nl, line_break nl ∧ contents = line_of kind key ++ nl.
Proof.
  intros Hb. unfold read_key. assert (bytes_ok (take (MAX_KEY_FILE_BYTES + 1) contents)) as Hb' by by apply Forall_take.
  assert (decode (take (MAX_KEY_FILE_BYTES + 1) contents) = Some (Ok (kind, key)) ↔ array_ok (key_len kind) key ∧ ∃ nl, line_break nl ∧ contents = line_of kind key ++ nl) as Hd.
  { rewrite decode_exact by done. assert (∀ P Q R : Prop, (P → Q ↔ R) → P ∧ Q ↔ P ∧ R) as Hand by tauto. apply Hand. intros Hk. destruct (line_of_ok kind key Hk) as [_ Hl]. split; intros (nl & Hnl & E); exists nl; (split; [done|]).
    - rewrite <- E, take_ge; [done|]. apply (f_equal length) in E. rewrite length_take, length_app in E.
      assert (length nl ≤ 2)%nat by (destruct Hnl as [-> |[-> | ->]]; cbn; lia). unfold MAX_KEY_FILE_BYTES in *. lia.
    - rewrite <- E, take_ge; [done|]. rewrite E, length_app. assert (length nl ≤ 2)%nat by (destruct Hnl as [-> |[-> | ->]]; cbn; lia). unfold MAX_KEY_FILE_BYTES. lia. }
  rewrite <- Hd. destruct (decode_spec _ Hb') as (r & -> & _). cbn [mbind option_bind]. destruct r as [[k x]|[]]; [|by split; [done|intros [_ ?]]..].
  destruct (bool_decide (k ∈ expected)) eqn:Ek; cbn [negb].
  - apply bool_decide_eq_true in Ek. split; [by intros [= -> ->]|by intros [_ [= -> ->]]].
  - apply bool_decide_eq_false in Ek. split; [done|]. intros [? [= -> ->]]. done.
Qed.
End exactness.

(** The few first bytes of a typed line tell its kind, with or without a byte-order mark, however the rest is damaged. *)
Lemma sniff_matches_inv head kind : sniff_matches head kind = true ↔ ∃ rest, head = prefix kind ++ COLON :: rest.
Proof.
  unfold sniff_matches, strip_prefix. split.
  - destruct (bool_decide _) eqn:E; [|done]. apply bool_decide_eq_true in E. destruct (drop (length (prefix kind)) head) as [|c rest] eqn:Ed; [done|].
    intros ->%Z.eqb_eq. exists rest. by rewrite <- (take_drop (length (prefix kind)) head), E, Ed.
  - intros (rest & ->). by rewrite take_app_length, bool_decide_eq_true_2, drop_app_length.
Qed.

Lemma sniff_kind_spec kind rest : let start := prefix kind ++ COLON :: rest in sniff_kind start = Some kind ∧ sniff_kind ([0xEF; 0xBB; 0xBF] ++ start) = Some kind.
Proof.
  intros start. assert (List.find (sniff_matches start) ALL_KINDS = Some kind) as Hf.
  { assert (sniff_matches start kind = true) as Hm by (apply sniff_matches_inv; by exists rest).
    destruct (List.find (sniff_matches start) ALL_KINDS) as [k'|] eqn:E.
    - apply List.find_some in E as [_ (rest' & Hr')%sniff_matches_inv]. f_equal. symmetry. by eapply prefix_unique.
    - rewrite (List.find_none _ _ E) in Hm; [done|]. destruct kind; cbn; tauto. }
  split; [|done]. unfold sniff_kind. replace (strip_prefix [0xEF; 0xBB; 0xBF] start) with (@None (list Z)); [done|]. by destruct kind.
Qed.

Lemma parse_name_spec value kind : parse_name value = Some kind ↔ name kind = value.
Proof.
  unfold parse_name. split; [by intros [_ Hn%String.eqb_eq]%List.find_some|]. intros <-. by destruct kind.
Qed.

(** ** Properties *)

(** C35. [decode] never panics, and it returns a kind and a key exactly for the texts that are the line of that key, with
    nothing, a line feed, or a carriage return and a line feed behind it; a text with no known prefix is not typed, a text
    with a known prefix that is not hex of the right shape is malformed, and one whose check value is another is a mismatch. *)
Theorem key_line_exact `{SubtleLaws} (text : list Z) : bytes_ok text →
  (∃ r, decode text = Some r ∧ decode_result text r) ∧
  ∀ kind key, decode text = Some (Ok (kind, key)) ↔ array_ok (key_len kind) key ∧ ∃ nl, line_break nl ∧ text = line_of kind key ++ nl.
Proof. intros Hb. split; [by apply decode_spec|]. intros kind key. by apply decode_exact. Qed.

Lemma key_line_exact_witness : let _ := plain_subtle in
  bytes_ok (ascii_bytes "uacrypt-box256-public:00") ∧ ∃ r, decode (ascii_bytes "uacrypt-box256-public:00") = Some r ∧ decode_result (ascii_bytes "uacrypt-box256-public:00") r.
Proof.
  intros S. assert (bytes_ok (ascii_bytes "uacrypt-box256-public:00")) as Hb by by_decision. split; [exact Hb|].
  exact (proj1 (@key_line_exact plain_subtle plain_subtle_laws _ Hb)).
Defined.

(** A key that the tool writes is read back: [encode] makes the line, and [read_key] of a file with it returns the key for
    every command that expects the kind and refuses it by name for every other; the first bytes already tell the kind. *)
Theorem key_file_roundtrip `{SubtleLaws} {IoError} (kind : KeyKind) (key : list Z) : array_ok (key_len kind) key →
  ∃ text, encode kind key = Some text ∧ sniff_kind (take 28 text) = Some kind ∧
    ∀ expected, read_key (IoError := IoError) (Ok text) expected =
      Some (if bool_decide (kind ∈ expected) then Ok (kind, key) else Err (KeyKindMismatch kind expected)).
Proof.
  intros Hk. destruct (line_of_ok kind key Hk) as [Hlb Hll]. exists (line_of kind key ++ [0x0A]).
  split; [apply encode_spec; [apply Hk|rewrite (proj1 Hk); apply key_len_small]|]. split.
  - unfold line_of. rewrite <- !app_assoc. destruct (prefix_ok kind) as [_ Hp].
    assert (∃ rest, take 28 (prefix kind ++ COLON :: hex_of key ++ COLON :: hex_of (check_of kind key) ++ [0x0A]) = prefix kind ++ COLON :: rest) as [rest Hr].
    { replace 28%nat with (length (prefix kind) + S (27 - length (prefix kind)))%nat by lia. rewrite take_app_add. cbn [take]. by eexists. }
    cbn [app]. rewrite Hr. apply sniff_kind_spec.
  - intros expected. unfold read_key. assert (decode (take (MAX_KEY_FILE_BYTES + 1) (line_of kind key ++ [0x0A])) = Some (Ok (kind, key))) as ->.
    { rewrite take_ge by (rewrite length_app; cbn; unfold MAX_KEY_FILE_BYTES; lia). apply decode_exact; [apply Forall_app_2; [done|by_decision]|].
      split; [done|]. exists [0x0A]. unfold line_break. auto. }
    cbn [mbind option_bind]. by destruct (bool_decide (kind ∈ expected)).
Qed.

Lemma key_file_roundtrip_witness : let _ := plain_subtle in
  ∃ text, encode Box256Public (seqZ 0 32) = Some text ∧ sniff_kind (take 28 text) = Some Box256Public ∧
    ∀ expected, read_key (IoError := unit) (Ok text) expected =
      Some (if bool_decide (Box256Public ∈ expected) then Ok (Box256Public, seqZ 0 32) else Err (KeyKindMismatch Box256Public expected)).
Proof. intros S. exact (@key_file_roundtrip plain_subtle plain_subtle_laws unit Box256Public (seqZ 0 32) ltac:(by_decision)). Defined.

(** A file that [read_key] accepts is a key line and nothing else, although only 257 bytes of it are read. *)
Theorem read_key_exact `{SubtleLaws} {IoError} (contents : list Z) (expected : list KeyKind) (kind : KeyKind) (key : list Z) : bytes_ok contents →
  read_key (IoError := IoError) (Ok contents) expected = Some (Ok (kind, key)) ↔
    kind ∈ expected ∧ array_ok (key_len kind) key ∧ ∃ nl, line_break nl ∧ contents = line_of kind key ++ nl.
Proof. apply read_key_exact_lemma. Qed.
