(* ===== verification/CliError.v ===== *)
(** The errors of the command-line tool and its exit statuses ([uacrypt/src/lib.rs]), with the conversions from the errors of
    the library.  Paths are bytes, texts are strings; the text of an error of the operating system, of the random source or of Argon2 is
    an argument of the conversion. *)

From stdpp Require Import strings.
From S2P Require Import Prelude Randombytes Gmac Gcm Ccm Secretstream SecretstreamFile CryptoPwhash PassphraseFile Keyfile.
#[local] Open Scope Z_scope.
#[local] Open Scope uacrypt_scope.

(** Which fixed-length file a wrong length is about. *)
Module LengthOf.
Inductive LengthOf : Type :=
| Key | Nonce | Tweak | Iv | SigningKey | VerifyingKey | BoxSecretKey | BoxPublicKey | Box384SecretKey | Box384PublicKey
| Box512SecretKey | Box512PublicKey | InputBlock | Signature | Tag.

(** [Display]. *)
Definition fmt (self : LengthOf) : string :=
  match self with
  | Key => "key"
  | Nonce => "nonce"
  | Tweak => "tweak"
  | Iv => "IV"
  | SigningKey => "signing key"
  | VerifyingKey => "verifying key"
  | BoxSecretKey => "box secret key"
  | BoxPublicKey => "box public key"
  | Box384SecretKey => "box384 secret key"
  | Box384PublicKey => "box384 public key"
  | Box512SecretKey => "box512 secret key"
  | Box512PublicKey => "box512 public key"
  | InputBlock => "input block"
  | Signature => "signature"
  | Tag => "tag"
  end.
End LengthOf.

(** Why a passphrase file was refused ([passphrase.rs]). *)
Module FileProblem.
Inductive FileProblem : Type := Empty | TooLong | MoreThanOneLine | NotUtf8.
End FileProblem.

Abbreviation path := (list Z).

Inductive CliError : Type :=
| UnknownCommand (command : string) (suggestion : option string)
| RemovedCommand (command replacement : string)
| RemovedForgeableCmac
| MovedToHazmat (name : string)
| MissingSubcommand (command : string)
| UnknownVariant (value : string)
| MissingFlag (flag : string)
| UnknownFlag (flag : string) (suggestion : option string)
| RepeatedFlag (flag : string)
| MissingValue (flag : string)
| FlagTakesNoValue (flag : string)
| UnexpectedArgument (arg : string)
| InvalidIterations (value : string)
| Io (p : path) (message : string)
| WrongLength (what : LengthOf.LengthOf) (expected actual : nat)
| EmptyInput (command : string)
| PlaintextTooLong
| AadTooLong
| CcmVerifyFailed
| GcmVerifyFailed
| GmacVerifyFailed
| KwInvalidLength
| KwChecksumMismatch
| XtsInvalidLength
| Random (message : string)
| KeyFileExists (p : path)
| OutputExists (p : path) (same_as_input : bool)
| SameOutputPath (flag other : string)
| OutputIsKeyFile (p : path) (kind : KeyKind)
| OutputUncheckable (p : path) (message : string)
| MissingOneOf (a b : string)
| ExclusiveFlags (a b : string)
| HashPathUnprintable (p : path)
| HashCheckTooLarge (p : path) (limit : nat)
| HashCheckEmpty (p : path)
| HashCheckUtf16 (p : path)
| HashCheckMalformed (p : path) (line : nat)
| HashCheckFailed (failed total : nat)
| SecretstreamTruncated
| SecretstreamVerifyFailed
| SecretstreamUnknownTag
| SecretstreamTrailingData
| SecretstreamChunkTooLarge
| SecretstreamUnsupportedVersion (v : Z)
| SecretstreamBadChunkLength
| SignKeyInvalid
| SignVerifyFailed
| KeyFileNotTyped (p : path)
| KeyFileMalformed (p : path) (kind : KeyKind)
| KeyCheckMismatch (p : path) (kind : KeyKind)
| KeyKindMismatch (p : path) (command : string) (found : KeyKind) (expected : list KeyKind)
| UnknownKeyKind (value : string) (suggestion : option string)
| KeyImportCurveByte (p : path) (kind : KeyKind) (byte : Z)
| BoxKeyInvalid
| BoxOpenTruncated (curve : string)
| BoxOpenFailed (curve : string)
| BoxOpenUnsupportedVersion
| StdioNotAccepted (flag : string)
| SecretKeyToStdout
| ForceWithStdout
| BinaryToTerminal
| StdoutIncomplete (inner : CliError)
| PassphraseNoTerminal
| PassphraseMintty
| PassphraseEmpty
| PassphraseMismatch
| PassphraseFileInvalid (p : path) (problem : FileProblem.FileProblem)
| PassphraseFormatUnsupported (version kdf : Z)
| PassphraseParamsUnsupported (m_cost t_cost p_cost : Z)
| PassphraseWrong
| PassphraseDerive (message : string)
| DecryptNeedsKey
| DecryptKeyForPassphraseFile
| PassphraseFlagOnDecrypt.

(** ** Exit statuses *)

Definition REJECTED : Z := 1.
Definition USAGE : Z := 2.
Definition FILE_OR_KEY : Z := 3.

Fixpoint exit_code (self : CliError) : Z :=
  match self with
  | UnknownCommand _ _ | RemovedCommand _ _ | RemovedForgeableCmac | MovedToHazmat _ | MissingSubcommand _ | UnknownVariant _
  | MissingFlag _ | UnknownFlag _ _ | RepeatedFlag _ | MissingValue _ | FlagTakesNoValue _ | UnexpectedArgument _
  | InvalidIterations _ | UnknownKeyKind _ _ | SameOutputPath _ _ | MissingOneOf _ _ | ExclusiveFlags _ _ | HashPathUnprintable _
  | StdioNotAccepted _ | SecretKeyToStdout | ForceWithStdout | BinaryToTerminal | PassphraseNoTerminal | PassphraseMintty
  | PassphraseEmpty | PassphraseMismatch | DecryptNeedsKey | DecryptKeyForPassphraseFile | PassphraseFlagOnDecrypt => USAGE
  | StdoutIncomplete inner => exit_code inner
  | Io _ _ | KeyFileExists _ | OutputExists _ _ | OutputIsKeyFile _ _ | OutputUncheckable _ _ | Random _ | SignKeyInvalid
  | KeyFileNotTyped _ | KeyFileMalformed _ _ | KeyCheckMismatch _ _ | KeyKindMismatch _ _ _ _ | KeyImportCurveByte _ _ _
  | BoxKeyInvalid | PassphraseFileInvalid _ _ | PassphraseDerive _ => FILE_OR_KEY
  | WrongLength what _ _ =>
      match what with
      | LengthOf.Key | LengthOf.Nonce | LengthOf.Tweak | LengthOf.Iv | LengthOf.SigningKey | LengthOf.VerifyingKey | LengthOf.BoxSecretKey
      | LengthOf.BoxPublicKey | LengthOf.Box384SecretKey | LengthOf.Box384PublicKey | LengthOf.Box512SecretKey | LengthOf.Box512PublicKey => FILE_OR_KEY
      | LengthOf.InputBlock | LengthOf.Signature | LengthOf.Tag => REJECTED
      end
  | EmptyInput _ | PlaintextTooLong | AadTooLong | CcmVerifyFailed | GcmVerifyFailed | GmacVerifyFailed | KwInvalidLength | KwChecksumMismatch
  | XtsInvalidLength | SecretstreamTruncated | SecretstreamVerifyFailed | SecretstreamUnknownTag | SecretstreamTrailingData
  | SecretstreamChunkTooLarge | SecretstreamUnsupportedVersion _ | SecretstreamBadChunkLength | SignVerifyFailed | BoxOpenTruncated _
  | BoxOpenFailed _ | BoxOpenUnsupportedVersion | HashCheckTooLarge _ _ | HashCheckEmpty _ | HashCheckUtf16 _ | HashCheckMalformed _ _
  | HashCheckFailed _ _ | PassphraseFormatUnsupported _ _ | PassphraseParamsUnsupported _ _ _ | PassphraseWrong => REJECTED
  end.

(** ** Conversions *)

Definition from_gcm_error (err : GcmError) : CliError :=
  match err with
  | Gcm.EmptyInput => EmptyInput "kalyna-gcm"
  | Gcm.InvalidLength | Gcm.TagMismatch => GcmVerifyFailed
  end.

Definition from_gmac_error (err : GmacError) : CliError :=
  match err with
  | Gmac.EmptyMessage => EmptyInput "kalyna-gmac"
  | Gmac.InvalidLength | Gmac.TagMismatch => GmacVerifyFailed
  end.

Definition from_ccm_error (err : CcmError) : CliError :=
  match err with
  | Ccm.EmptyPlaintext => EmptyInput "kalyna-ccm"
  | Ccm.PlaintextTooLong => PlaintextTooLong
  | Ccm.AadTooLong => AadTooLong
  | Ccm.TagMismatch => CcmVerifyFailed
  end.

Section conversions.
Context {GE : Type} (random_text : RandomError GE → string).

(** [None] is [unreachable!]. *)
Definition from_file_error (err : FileError GE) : option CliError :=
  match err with
  | SecretstreamFile.UnsupportedVersion v => Some (SecretstreamUnsupportedVersion v)
  | SecretstreamFile.Truncated => Some SecretstreamTruncated
  | SecretstreamFile.ChunkTooLarge _ => Some SecretstreamChunkTooLarge
  | SecretstreamFile.BadChunkLength _ => Some SecretstreamBadChunkLength
  | SecretstreamFile.UnknownTag => Some SecretstreamUnknownTag
  | SecretstreamFile.TrailingData => Some SecretstreamTrailingData
  | SecretstreamFile.Auth => Some SecretstreamVerifyFailed
  | SecretstreamFile.Random e => Some (Random (random_text e))
  | SecretstreamFile.InvalidLength | SecretstreamFile.Finished | SecretstreamFile.CounterExhausted => None
  end.

Definition from_secretstream_error (err : SecretstreamError GE) : option CliError :=
  match err with
  | Secretstream.TagMismatch => Some SecretstreamVerifyFailed
  | Secretstream.UnknownTag => Some SecretstreamUnknownTag
  | Secretstream.Random e => Some (Random (random_text e))
  | Secretstream.InvalidLength | Secretstream.StreamFinalized | Secretstream.CounterExhausted => None
  end.

(** [passphrase.rs]: [cli_error]. *)
Definition from_passphrase_error `{Argon2Crate} (pwhash_text : PwHashError GE → string) (e : PassphraseFileError GE) : CliError :=
  match e with
  | UnsupportedFormat version kdf => PassphraseFormatUnsupported version kdf
  | UnsupportedParams m_cost t_cost p_cost => PassphraseParamsUnsupported m_cost t_cost p_cost
  | EmptyPassphrase => PassphraseEmpty
  | PwHash (CryptoPwhash.Random e) => Random (random_text e)
  | PwHash e => PassphraseDerive (pwhash_text e)
  | NotPassphraseFile => SecretstreamUnsupportedVersion CONTAINER_TYPE
  end.
End conversions.

(** The status is 1, 2 or 3, so that 0 always means success. *)
Lemma exit_code_range e : exit_code e ∈ [REJECTED; USAGE; FILE_OR_KEY].
Proof. induction e; try exact IHe; cbn [exit_code]; try destruct what; by_decision. Qed.
