(* ===== verification/CliStream.v ===== *)
(** The streaming commands [encrypt] and [decrypt] of the command-line tool ([uacrypt/src/lib.rs]): reading in full chunks from
    an input that delivers what it likes, the two record loops, and the output that appears only when everything succeeded.

    An input is the data that is left and a schedule of what the next calls of [read] do; when the schedule is used up a call
    delivers all it can.  An output is what was written and a schedule of the failures of its next calls.  [None] stands for a
    panic ([unreachable!]); the theorems show that it does not happen.  The loops take fuel: every turn of [fill_chunk] uses up
    a byte or an entry of the schedule, and every turn of the record loops a chunk or a byte. *)

From stdpp Require Import strings.
From S2P Require Import Prelude External BlockCipher Stream Kalyna Ghash Randombytes Secretstream SecretstreamFile CryptoPwhash PassphraseFile CliError.
#[local] Open Scope Z_scope.
#[local] Open Scope uacrypt_scope.

(** ** Inputs *)

Inductive ErrorKind : Type := Interrupted | UnexpectedEof | Other.
Record IoError : Type := { kind : ErrorKind; text : string }.

Inductive ReadEvent : Type :=
| Give (n : nat)  (* at most [n + 1] bytes *)
| Fail (e : IoError).

Record Reader : Type := { pending : list Z; schedule : list ReadEvent }.

Definition deliver (self : Reader) (n : nat) (schedule : list ReadEvent) : Reader * result (list Z) IoError :=
  ({| pending := drop n (pending self); schedule := schedule |}, Ok (take n (pending self))).

(** [Read::read] into a buffer of [n] bytes. *)
Definition read (self : Reader) (n : nat) : Reader * result (list Z) IoError :=
  match schedule self with
  | [] => deliver self n []
  | Give k :: events => deliver self (Nat.min n (S k)) events
  | Fail e :: events => ({| pending := pending self; schedule := events |}, Err e)
  end.

(** [while filled < buf.len()]. *)
Fixpoint fill_loop (fuel : nat) (reader : Reader) (buf : list Z) (filled : nat) : option (Reader * list Z * result nat IoError) :=
  match fuel with
  | O => None
  | S fuel =>
      if Nat.ltb filled (length buf) then
        let '(reader, r) := read reader (length buf - filled) in
        match r with
        | Ok [] => Some (reader, buf, Ok filled)
        | Ok bytes => fill_loop fuel reader (copy_at filled bytes buf) (filled + length bytes)
        | Err e => match kind e with Interrupted => fill_loop fuel reader buf filled | _ => Some (reader, buf, Err e) end
        end
      else Some (reader, buf, Ok filled)
  end.

Definition fill_chunk (reader : Reader) (buf : list Z) : option (Reader * list Z * result nat IoError) :=
  fill_loop (S (length (schedule reader) + length buf)) reader buf 0.

(** [Read::read_exact]: the same loop, and an error when the input ends early. *)
Definition read_exact (reader : Reader) (buf : list Z) : option (Reader * list Z * result unit IoError) :=
  '(reader, buf, r) ← fill_chunk reader buf;
  Some (reader, buf, result_bind r (λ n, if Nat.ltb n (length buf) then Err {| kind := UnexpectedEof; text := "failed to fill whole buffer" |} else Ok tt)).

(** ** Outputs *)

Inductive Target : Type := ToFile (tmp_path out_path : path) | ToStdout.

Record Output : Type := {
  target : Target;
  written : list Z;  (* what the calls of [write_all] were given *)
  any : bool;  (* [written] of the source, for stdout *)
  faults : list (option string);  (* the failures of the next calls *)
  published : option (list Z)  (* what [finish] put at the output path, or confirmed as the whole of stdout *)
}.

Definition stdout_error (message : string) : CliError := Io (ascii_bytes "<stdout>") message.

Definition write_error (self : Output) (message : string) : CliError :=
  match target self with
  | ToFile tmp_path _ => Io tmp_path message
  | ToStdout => stdout_error message
  end.

Definition next_fault (self : Output) : option string * list (option string) :=
  match faults self with [] => (None, []) | f :: faults => (f, faults) end.

Definition is_empty (bytes : list Z) : bool := match bytes with [] => true | _ => false end.

Definition write_all (self : Output) (bytes : list Z) : Output * result unit CliError :=
  let any := any self || negb (is_empty bytes) in
  let '(fault, faults) := next_fault self in
  match fault with
  | None => ({| target := target self; written := written self ++ bytes; any := any; faults := faults; published := published self |}, Ok tt)
  | Some message =>
      ({| target := target self; written := written self; any := any; faults := faults; published := published self |}, Err (write_error self message))
  end.

(** Commits a file ([OutputFile::commit]: the buffer is written out and synced, then the file is renamed onto the output
    path) or flushes stdout. *)
Definition publish (self : Output) : Output * result unit CliError :=
  let ended (faults : list (option string)) (p : option (list Z)) :=
    {| target := target self; written := written self; any := any self; faults := faults; published := p |} in
  let '(fault, faults) := next_fault self in
  match fault with
  | Some message => (ended faults None, Err (write_error self message))
  | None =>
      match target self with
      | ToStdout => (ended faults (Some (written self)), Ok tt)
      | ToFile _ out_path =>
          let '(fault, faults) := next_fault (ended faults None) in
          match fault with
          | Some message => (ended faults None, Err (Io out_path message))
          | None => (ended faults (Some (written self)), Ok tt)
          end
      end
  end.

Definition finish_output (self : Output) (res : result unit CliError) : Output * result unit CliError :=
  let '(self, res) := match res with Ok _ => publish self | Err e => (self, Err e) end in
  match target self with
  | ToFile _ _ => (self, res)
  | ToStdout =>
      match res with
      | Err e => if any self then (self, Err (StdoutIncomplete e)) else (self, Err e)
      | Ok _ => (self, Ok tt)
      end
  end.

(** [refuse_binary_to_terminal]. *)
Definition refuse_binary_to_terminal (stdout_is_terminal : bool) : result unit CliError :=
  if stdout_is_terminal then Err BinaryToTerminal else Ok tt.

Section stream.
Context {GE : Type} (random_text : RandomError GE → string).

(** [Source::io_error], for the label of the source. *)
Definition source_error (label : path) (e : IoError) : CliError := Io label (text e).

Definition read_exact_or_truncated (input : Reader) (buf : list Z) (source : path) : option (Reader * list Z * result unit CliError) :=
  '(input, buf, r) ← read_exact input buf;
  Some (input, buf, match r with
  | Ok _ => Ok tt
  | Err e => match kind e with UnexpectedEof => Err SecretstreamTruncated | _ => Err (source_error source e) end
  end).

(** ** Writing records *)

(** The loop of [write_stream_records]: [cur] holds a chunk of [cur_len] bytes that is not yet written. *)
Fixpoint write_loop `{Cpu} (fuel : nat) (enc : FileEncryptor) (input : Reader) (source : path) (out : Output) (record cur next : list Z) (cur_len : nat) :
    option (FileEncryptor * Reader * Output * result unit CliError) :=
  match fuel with
  | O => None
  | S fuel =>
      '(input, next, r) ← fill_chunk input next;
      match r with
      | Err e => Some (enc, input, out, Err (source_error source e))
      | Ok next_len =>
          if Nat.eqb next_len 0 then
            '(enc, record, r) ← seal_final (GetrandomError := GE) enc (take cur_len cur) record;
            match r with
            | Err e => e ← from_file_error random_text e; Some (enc, input, out, Err e)
            | Ok n => let '(out, r) := write_all out (take n record) in Some (enc, input, out, r)
            end
          else if negb (Nat.eqb cur_len CHUNK_BYTES && Nat.eqb (length record) MAX_RECORD_BYTES) then None
          else
            '(enc, record, r) ← seal_chunk (GetrandomError := GE) enc (take cur_len cur) record;
            match r with
            | Err e => e ← from_file_error random_text e; Some (enc, input, out, Err e)
            | Ok _ =>
                let '(out, r) := write_all out record in
                match r with
                | Err e => Some (enc, input, out, Err e)
                | Ok _ => write_loop fuel enc input source out record next cur next_len
                end
            end
      end
  end.

Definition write_stream_records `{Cpu} (enc : FileEncryptor) (input : Reader) (source : path) (out : Output) :
    option (FileEncryptor * Reader * Output * result unit CliError) :=
  let record := replicate MAX_RECORD_BYTES 0 in
  let cur := replicate CHUNK_BYTES 0 in
  '(input, cur, r) ← fill_chunk input cur;
  match r with
  | Err e => Some (enc, input, out, Err (source_error source e))
  | Ok cur_len => write_loop (S (length (pending input))) enc input source out record cur (replicate CHUNK_BYTES 0) cur_len
  end.

(** ** Reading records *)

Fixpoint decrypt_loop `{Cpu} `{Subtle} `{Zeroize} (fuel : nat) (dec : FileDecryptor) (in_file : Reader) (source : path) (out : Output) (plaintext buf : list Z) :
    option (FileDecryptor * Reader * Output * result unit CliError) :=
  match fuel with
  | O => None
  | S fuel =>
      let want := next_len dec in
      '(in_file, bytes, r) ← fill_chunk in_file (take want buf);
      let buf := copy_at 0 bytes buf in
      match r with
      | Err e => Some (dec, in_file, out, Err (source_error source e))
      | Ok got =>
          if Nat.ltb got want then
            let '(dec, plaintext, r) := finish (GetrandomError := GE) dec plaintext in
            match r with
            | Err e => e ← from_file_error random_text e; Some (dec, in_file, out, Err e)
            | Ok n => let '(out, r) := write_all out (take n plaintext) in Some (dec, in_file, out, r)
            end
          else
            '(dec, plaintext, r) ← feed (GetrandomError := GE) dec (take want buf) plaintext;
            match r with
            | Err e => e ← from_file_error random_text e; Some (dec, in_file, out, Err e)
            | Ok n =>
                let '(out, r) := write_all out (take n plaintext) in
                match r with
                | Err e => Some (dec, in_file, out, Err e)
                | Ok _ => decrypt_loop fuel dec in_file source out plaintext buf
                end
            end
      end
  end.

Definition decrypt_stream_records `{Cpu} `{Subtle} `{Zeroize} (dec : FileDecryptor) (in_file : Reader) (source : path) (out : Output) :
    option (FileDecryptor * Reader * Output * result unit CliError) :=
  decrypt_loop (S (length (pending in_file))) dec in_file source out (replicate CHUNK_BYTES 0) (replicate MAX_RECORD_BYTES 0).

(** ** The commands *)

Inductive StreamSecret : Type := SecretKey (key : list Z) | Passphrase (given : option (list Z)).

Context `{Argon2Crate} (pwhash_text : PwHashError GE → string).

(** What the commands call: the allocator, the two draws from the random source, the terminal prompt, and the reservation of
    the output, which happens last. *)
Record Environment : Type := {
  try_reserve : nat → bool;
  fill1 : fill_call GE;
  fill2 : fill_call GE;
  from_terminal : result (list Z) CliError;
  create : result Output CliError
}.

(** What a command leaves behind: its output, if it was reserved, and its result. *)
Definition outcome : Type := option Output * result unit CliError.

Definition encrypt_start (env : Environment) (secret : StreamSecret) : option (result (FileEncryptor * list Z) CliError) :=
  match secret with
  | SecretKey key =>
      r ← encryptor_init (fill1 env) key;
      match r with
      | Ok start => Some (Ok start)
      | Err e => e ← from_file_error random_text e; Some (Err e)
      end
  | Passphrase given =>
      match (match given with Some phrase => Ok phrase | None => from_terminal env end) with
      | Err e => Some (Err e)
      | Ok phrase =>
          r ← seal_stream (try_reserve env) (fill1 env) (fill2 env) phrase;
          Some (match r with Ok start => Ok start | Err e => Err (from_passphrase_error random_text pwhash_text e) end)
      end
  end.

Definition run_secretstream_encrypt `{Cpu} (env : Environment) (secret : StreamSecret) (opened : result Reader CliError) (source : path) : option outcome :=
  match opened with
  | Err e => Some (None, Err e)
  | Ok input =>
      start ← encrypt_start env secret;
      match start with
      | Err e => Some (None, Err e)
      | Ok (enc, prefix) =>
          match create env with
          | Err e => Some (None, Err e)
          | Ok out =>
              let '(out, r) := write_all out prefix in
              '(out, res) ← match r with
                | Err e => Some (out, Err e)
                | Ok _ => '(_, _, out, r) ← write_stream_records enc input source out; Some (out, r)
                end;
              let '(out, res) := finish_output out res in
              Some (Some out, res)
          end
      end
  end.

(** How [decrypt] chooses: by the first byte and by what it was given.  Returns the decryptor, whether it comes from a
    passphrase, the input and the first byte of the stream file. *)
Definition decrypt_start (env : Environment) (secret : StreamSecret) (raw : Reader) (source : path) (first : list Z) :
    option (result (FileDecryptor * bool * Reader * list Z) CliError) :=
  if Z.eqb (first.[0]) CONTAINER_TYPE then
    match secret with
    | SecretKey _ => Some (Err DecryptKeyForPassphraseFile)
    | Passphrase given =>
        let header := <[0%nat := first.[0]]> (replicate PassphraseFile.HEADER_BYTES 0) in
        '(raw, rest, r) ← read_exact_or_truncated raw (drop 1 header) source;
        match r with
        | Err e => Some (Err e)
        | Ok _ =>
            match parse (GE := GE) (copy_at 1 rest header) with
            | Err e => Some (Err (from_passphrase_error random_text pwhash_text e))
            | Ok header =>
                match (match given with Some phrase => Ok phrase | None => from_terminal env end) with
                | Err e => Some (Err e)
                | Ok phrase =>
                    r ← open_stream (GE := GE) (try_reserve env) header phrase;
                    match r with
                    | Err e => Some (Err (from_passphrase_error random_text pwhash_text e))
                    | Ok dec =>
                        '(raw, first, r) ← read_exact_or_truncated raw first source;
                        Some (result_bind r (λ _, Ok (dec, true, raw, first)))
                    end
                end
            end
        end
    end
  else
    match secret with
    | Passphrase _ => if Z.eqb (first.[0]) FORMAT_VERSION then Some (Err DecryptNeedsKey) else Some (Err (SecretstreamUnsupportedVersion (first.[0])))
    | SecretKey key => Some (Ok (decryptor_new key, false, raw, first))
    end.

(** The part of [decrypt] after the output is reserved: the first byte, the records, and the end of the output. *)
Definition decrypt_body `{Cpu} `{Subtle} `{Zeroize} (dec : FileDecryptor) (by_passphrase : bool) (input : Reader) (first : list Z) (source : path) (out : Output) :
    option (Output * result unit CliError) :=
  '(dec, _, fed) ← SecretstreamFile.feed (GetrandomError := GE) dec first (replicate CHUNK_BYTES 0);
  '(out, res) ← match fed with
    | Err e => e ← from_file_error random_text e; Some (out, Err e : result unit CliError)
    | Ok _ => '(_, _, out, r) ← decrypt_stream_records dec input source out; Some (out, r)
    end;
  let res : result unit CliError := match res with
    | Err SecretstreamVerifyFailed => Err (if by_passphrase then PassphraseWrong else SecretstreamVerifyFailed)
    | other => other
    end in
  Some (finish_output out res).

Definition run_secretstream_decrypt `{Cpu} `{Subtle} `{Zeroize} (env : Environment) (secret : StreamSecret) (opened : result Reader CliError) (source : path) : option outcome :=
  match opened with
  | Err e => Some (None, Err e)
  | Ok raw =>
      '(raw, first, r) ← read_exact_or_truncated raw [0] source;
      match r with
      | Err e => Some (None, Err e)
      | Ok _ =>
          start ← decrypt_start env secret raw source first;
          match start with
          | Err e => Some (None, Err e)
          | Ok (dec, by_passphrase, input, first) =>
              match create env with
              | Err e => Some (None, Err e)
              | Ok out =>
                  '(out, res) ← decrypt_body dec by_passphrase input first source out;
                  Some (Some out, res)
              end
          end
      end
  end.
End stream.
Arguments Environment GE : clear implicits.

(** ** Reading full chunks *)

(** No call of the schedule fails, apart from interruptions. *)
Definition healthy (r : Reader) : Prop := Forall (λ ev, match ev with Give _ => True | Fail e => kind e = Interrupted end) (schedule r).

Lemma copy_at_copy_at {A} i (a b l : list A) : (i ≤ length l)%nat → copy_at (i + length a) b (copy_at i a l) = copy_at i (a ++ b) l.
Proof.
  intros Hi. unfold copy_at at 1. rewrite take_copy_at by done.
  unfold copy_at. rewrite !drop_app, !length_take, !drop_drop, length_app, Nat.min_l by done.
  rewrite (drop_ge (take i l)) by (rewrite length_take; lia). rewrite (drop_ge a) by lia. cbn [app]. rewrite <- !app_assoc. do 3 f_equal. f_equal. lia.
Qed.

Lemma copy_at_nil {A} i (l : list A) : copy_at i [] l = l.
Proof. unfold copy_at. cbn [length app]. rewrite Nat.add_0_r. apply take_drop. Qed.

(** A call takes some bytes, none only at the end of the input, or fails without taking any. *)
Lemma read_spec r n : (0 < n)%nat →
  let '(r', res) := read r n in
  (healthy r → healthy r') ∧ (length (schedule r') ≤ length (schedule r))%nat ∧
  match res with
  | Ok bytes => bytes = take (length bytes) (pending r) ∧ pending r' = drop (length bytes) (pending r) ∧ (length bytes ≤ n)%nat ∧ (bytes = [] → pending r = [])
  | Err e => pending r' = pending r ∧ (healthy r → kind e = Interrupted) ∧ (length (schedule r') < length (schedule r))%nat
  end.
Proof.
  intros Hn. assert (∀ k, (0 < k)%nat → take k (pending r) = [] → pending r = []) as Hnil.
  { intros k Hk E. destruct (pending r) as [|x l]; [done|]. destruct k; [lia|done]. }
  assert (∀ k, take k (pending r) = take (length (take k (pending r))) (pending r) ∧ drop k (pending r) = drop (length (take k (pending r))) (pending r)) as Hk.
  { intros k. rewrite length_take. destruct (Nat.min_spec k (length (pending r))) as [[? ->]|[? ->]]; [done|]. by rewrite !take_ge, !drop_ge by lia. }
  unfold read, healthy. destruct (schedule r) as [|[k|e] evs]; cbn [deliver pending schedule length].
  - split; [done|]. split; [done|]. destruct (Hk n). split_and!; [done..|rewrite length_take; lia|]. by apply Hnil.
  - split; [by intros [_ ?]%Forall_cons|]. split; [lia|]. destruct (Hk (Nat.min n (S k))). split_and!; [done..|rewrite length_take; lia|]. apply Hnil. lia.
  - split; [by intros [_ ?]%Forall_cons|]. split; [lia|]. split; [done|]. split; [by intros [? _]%Forall_cons|lia].
Qed.

Lemma fill_loop_spec fuel : ∀ r buf filled, (filled ≤ length buf)%nat → (length (schedule r) + (length buf - filled) < fuel)%nat →
  ∃ r' buf' res, fill_loop fuel r buf filled = Some (r', buf', res) ∧ (healthy r → healthy r') ∧
    match res with
    | Ok n => ∃ k, n = (filled + k)%nat ∧ k = Nat.min (length buf - filled) (length (pending r)) ∧ buf' = copy_at filled (take k (pending r)) buf ∧ pending r' = drop k (pending r)
    | Err e => ¬ healthy r ∧ length buf' = length buf
    end.
Proof.
  induction fuel as [|fuel IH]; intros r buf filled Hf Hfuel; [lia|]. cbn [fill_loop].
  destruct (Nat.ltb_spec filled (length buf)) as [Hlt|Hge].
  2:{ eexists _, _, _. split; [done|]. split; [done|]. exists O. rewrite take_0, drop_0, copy_at_nil. split_and!; (done || lia). }
  pose proof (read_spec r (length buf - filled) ltac:(lia)) as Hr. destruct (read r (length buf - filled)) as [r1 [bytes|e]].
  - destruct Hr as (Hh & Hs & Eb & Ep & Hlb & Hnil). destruct bytes as [|b bytes].
    + eexists _, _, _. split; [done|]. split; [done|]. exists O. rewrite take_0, copy_at_nil, Ep. rewrite (Hnil eq_refl). cbn [length drop]. split_and!; (done || lia).
    + set (bs := b :: bytes) in *. assert (0 < length bs)%nat by (cbn; lia).
      assert (length bs ≤ length (pending r))%nat by (rewrite Eb, length_take; lia).
      destruct (IH r1 (copy_at filled bs buf) (filled + length bs)%nat) as (r' & buf' & res & E & Hh' & Hres); [rewrite length_copy_at; lia|rewrite length_copy_at; lia|].
      exists r', buf', res. split; [done|]. split; [tauto|]. destruct res as [n|e]; [|rewrite length_copy_at in Hres by lia; tauto].
      destruct Hres as (k & -> & Ek & -> & Ep'). rewrite length_copy_at, Ep, length_drop in Ek by lia. exists (length bs + k)%nat.
      split; [lia|]. split; [lia|]. split; [|by rewrite Ep', Ep, drop_drop].
      rewrite copy_at_copy_at by done. f_equal. rewrite Ep. rewrite Eb at 1. by rewrite take_take_drop.
  - destruct Hr as (Hh & Hs & Ep & Hk & Hsl). destruct (kind e) eqn:Ek.
    + destruct (IH r1 buf filled Hf ltac:(lia)) as (r' & buf' & res & E & Hh' & Hres). exists r', buf', res. split; [done|]. split; [tauto|].
      destruct res as [n|e']; [|tauto]. by rewrite Ep in Hres.
    + eexists _, _, _. split; [done|]. split; [done|]. split; [|done]. intros Hr. specialize (Hk Hr). congruence.
    + eexists _, _, _. split; [done|]. split; [done|]. split; [|done]. intros Hr. specialize (Hk Hr). congruence.
Qed.

(** However the input is cut up and interrupted, a chunk is full or holds all that was left; otherwise the input failed. *)
Lemma fill_chunk_spec r buf :
  ∃ r' buf' res, fill_chunk r buf = Some (r', buf', res) ∧ (healthy r → healthy r') ∧ length buf' = length buf ∧
    match res with
    | Ok n => n = Nat.min (length buf) (length (pending r)) ∧ buf' = copy_at 0 (take n (pending r)) buf ∧ pending r' = drop n (pending r)
    | Err e => ¬ healthy r
    end.
Proof.
  destruct (fill_loop_spec (S (length (schedule r) + length buf)) r buf 0) as (r' & buf' & res & E & Hh & Hres); [lia|lia|].
  exists r', buf', res. split; [done|]. split; [done|]. destruct res as [n|e]; [|tauto].
  destruct Hres as (k & -> & Ek & -> & Ep). rewrite Nat.sub_0_r in Ek. split; [apply length_copy_at; rewrite length_take; lia|].
  split; [done|]. split; [done|exact Ep].
Qed.

(** ** Writing *)

Definition sound (out : Output) : Prop := Forall (λ f, f = None) (faults out).

(** The mark is set once something was written. *)
Definition marked (out : Output) : Prop := written out = [] ∨ any out = true.

(** [out'] is a later state of the same output, before it is finished. *)
Definition continues (out out' : Output) : Prop :=
  target out' = target out ∧ published out' = published out ∧ (sound out → sound out') ∧ (marked out → marked out').

Lemma continues_trans a b c : continues a b → continues b c → continues a c.
Proof. intros (E1 & E2 & H1 & M1) (E3 & E4 & H2 & M2). split; [congruence|]. split; [congruence|auto]. Qed.

Lemma write_all_spec out bytes : let '(out', r) := write_all out bytes in
  continues out out' ∧ (sound out → r = Ok tt) ∧ (r = Ok tt → written out' = written out ++ bytes).
Proof.
  assert (∀ w, w = written out ∨ w = written out ++ bytes → marked out → w = [] ∨ any out || negb (is_empty bytes) = true) as Hm.
  { intros w Hw [E| ->]; [|by right]. rewrite E in Hw. destruct bytes; cbn; [left; by destruct Hw|right; by rewrite orb_true_r]. }
  unfold write_all, continues, sound, marked, next_fault in *. destruct (faults out) as [|[m|] fs]; cbn.
  - split_and!; try done. apply Hm. by right.
  - split_and!; try done; [by intros [_ ?]%Forall_cons|apply Hm; by left|by intros [? _]%Forall_cons].
  - split_and!; try done; [by intros [_ ?]%Forall_cons|apply Hm; by right].
Qed.

Section records.
Context {GE : Type} (random_text : RandomError GE → string) `{Cpu} `{SubtleLaws}.

(** The loop writes the records of the chunk in hand and of what the input still yields. *)
Lemma write_loop_spec fuel : ∀ s input source out record cur next cur_len c,
  session_ok s → ses_finalized s = false → ses_counter s + length c + length (pending input) + 1 < 2 ^ 64 →
  take cur_len cur = c → length c = cur_len → bytes_ok c → bytes_ok (pending input) →
  length record = MAX_RECORD_BYTES → length cur = CHUNK_BYTES → length next = CHUNK_BYTES →
  (cur_len < CHUNK_BYTES → pending input = [])%nat → (length (pending input) < fuel)%nat →
  ∃ enc' input' out' res, write_loop random_text fuel {| enc_push := to_push s |} input source out record cur next cur_len = Some (enc', input', out', res) ∧
    continues out out' ∧ (healthy input → sound out → res = Ok tt) ∧
    (res = Ok tt → ∃ recs, written out' = written out ++ recs ∧ wire_file s (c ++ pending input) recs).
Proof.
  pose proof chunk_bytes_pos as Hpos.
  induction fuel as [|fuel IH]; intros s input source out record cur next cur_len c Hs Hf Hc Etk Hcl Hcb Hpb Hrl Hcul Hnl Hshort Hfuel; [lia|].
  cbn [write_loop]. destruct (fill_chunk_spec input next) as (input' & next' & res & -> & Hh & Hnl' & Hres). cbn [mbind option_bind].
  destruct res as [n|e]; [|eexists _, _, _, _; split; [done|]; split; [by split_and!|]; split; [by intros ?|done]].
  destruct Hres as (En & Enext & Ep). rewrite Hnl in *. assert (cur_len ≤ CHUNK_BYTES)%nat as Hcc by (rewrite <- Hcl, <- Etk, length_take; lia).
  rewrite Etk. destruct (Nat.eqb_spec n 0) as [->|Hn].
  - assert (pending input = []) as Hnil by (destruct (pending input); [done|cbn [length] in En; lia]).
    unfold seal_final. rewrite record_seal_spec; [|done|done|lia|done|lia|rewrite Hrl; unfold MAX_RECORD_BYTES; lia]. cbn [mbind option_bind].
    rewrite take_app_length' by (rewrite length_record by (done || by apply chunk_xor_ok); unfold chunk_xor; by rewrite length_xor_keystream).
    pose proof (write_all_spec out (SecretstreamFile.record s Final (chunk_xor s c))) as Hw. destruct (write_all out _) as [out' r]. destruct Hw as (Hct & Hok & Hwr).
    eexists _, _, _, _. split; [done|]. split; [done|]. split; [intros _; apply Hok|]. intros Er. rewrite Hwr, Hnil, app_nil_r by done. eexists. split; [done|]. apply wire_final_plain. lia.
  - assert (cur_len = CHUNK_BYTES) as Hfull by (destruct (decide (cur_len < CHUNK_BYTES)%nat) as [Hlt|]; [rewrite Hshort in En by done; cbn in En; lia|lia]).
    rewrite Hfull, Hrl, !Nat.eqb_refl. cbn [andb negb]. unfold seal_chunk.
    rewrite record_seal_spec; [|done|done|lia|done|lia|rewrite Hrl; unfold MAX_RECORD_BYTES; lia]. cbn [mbind option_bind result_bind].
    rewrite (drop_ge record), app_nil_r by (rewrite Hrl, Hcl, Hfull; done).
    pose proof (write_all_spec out (SecretstreamFile.record s Message (chunk_xor s c))) as Hw. destruct (write_all out _) as [out1 r]. destruct Hw as (Hct & Hok & Hwr).
    destruct r as [[]|e]; [|eexists _, _, _, _; split; [done|]; split; [done|]; split; [intros _ ?; exact (Hok ltac:(done))|done]].
    assert (take n next' = take n (pending input)) as Etn.
    { rewrite Enext, copy_at_0 by (rewrite length_take; lia). apply take_app_length'. rewrite length_take. lia. }
    destruct (IH (advance s Message) input' source out1 (SecretstreamFile.record s Message (chunk_xor s c)) next' cur n (take n (pending input)))
      as (enc' & input2 & out2 & res & E & Hct2 & Hok2 & Hw2).
    + apply session_advance; [done|lia].
    + unfold advance. cbn [ses_finalized]. by rewrite Hf.
    + cbn [advance ses_counter]. rewrite Ep, length_take, length_drop. lia.
    + done.
    + rewrite length_take. lia.
    + by apply Forall_take.
    + rewrite Ep. by apply Forall_drop.
    + rewrite length_record by (done || by apply chunk_xor_ok). unfold chunk_xor. rewrite length_xor_keystream, Hcl, Hfull. done.
    + by rewrite Hnl'.
    + done.
    + intros Hlt. rewrite Ep. apply drop_ge. lia.
    + rewrite Ep, length_drop. lia.
    + exists enc', input2, out2, res. split; [done|]. split; [by eapply continues_trans|]. split; [intros Hhe Hso; apply Hok2; [by apply Hh|by apply Hct]|].
      intros Er. destruct (Hw2 Er) as (recs & E2 & Hwf). exists (SecretstreamFile.record s Message (chunk_xor s c) ++ recs).
      rewrite E2, Hwr, app_assoc by done. split; [done|]. apply wire_chunk_plain; [lia|]. rewrite Ep in Hwf. by rewrite take_drop in Hwf.
Qed.

Lemma write_stream_records_spec s input source out :
  session_ok s → ses_finalized s = false → ses_counter s + length (pending input) + 1 < 2 ^ 64 → bytes_ok (pending input) →
  ∃ enc' input' out' res, write_stream_records random_text {| enc_push := to_push s |} input source out = Some (enc', input', out', res) ∧
    continues out out' ∧ (healthy input → sound out → res = Ok tt) ∧
    (res = Ok tt → ∃ recs, written out' = written out ++ recs ∧ wire_file s (pending input) recs).
Proof.
  intros Hs Hf Hc Hb. unfold write_stream_records. destruct (fill_chunk_spec input (replicate CHUNK_BYTES 0)) as (input' & cur & res & -> & Hh & Hl & Hres).
  cbn [mbind option_bind]. rewrite length_replicate in *.
  destruct res as [n|e]; [|eexists _, _, _, _; split; [done|]; split; [by split_and!|]; split; [by intros ?|done]].
  destruct Hres as (En & Ecur & Ep).
  destruct (write_loop_spec (S (length (pending input'))) s input' source out (replicate MAX_RECORD_BYTES 0) cur (replicate CHUNK_BYTES 0) n (take n (pending input)))
    as (enc' & input2 & out2 & res & E & Hct2 & Hok2 & Hw2); rewrite ?length_replicate; try done.
  - rewrite Ep, length_take, length_drop. lia.
  - rewrite Ecur, copy_at_0 by (rewrite length_take, length_replicate; lia). apply take_app_length'. rewrite length_take. lia.
  - rewrite length_take. lia.
  - by apply Forall_take.
  - rewrite Ep. by apply Forall_drop.
  - intros Hlt. rewrite Ep. apply drop_ge. lia.
  - lia.
  - exists enc', input2, out2, res. split; [done|]. split; [done|]. split; [auto|]. intros Er. destruct (Hw2 Er) as (recs & -> & Hwf). exists recs. split; [done|].
    rewrite Ep in Hwf. by rewrite take_drop in Hwf.
Qed.
End records.

(** ** Reading *)

Section reading.
Context {GE : Type} (random_text : RandomError GE → string) `{Cpu} `{SubtleLaws} `{ZeroizeLaws}.

Lemma next_len_max key0 d n : dec_ok key0 d n → (next_len d ≤ MAX_RECORD_BYTES)%nat.
Proof.
  intros [_ Hd]. pose proof chunk_bytes_Z. unfold next_len, MAX_RECORD_BYTES, RECORD_OVERHEAD_BYTES, RECORD_HEAD_BYTES, SecretstreamFile.HEADER_BYTES, TAG_LEN.
  destruct (state d); try lia. destruct Hd as (s & tag & _ & _ & _ & _ & _ & Hl & _). lia.
Qed.

Lemma stream_error_reported (e : FileError GE) : stream_error e → ∃ e', from_file_error random_text e = Some e'.
Proof. destruct e; try done; by eexists. Qed.

(** The loop never panics; it succeeds only on a stream whose plaintext it wrote out, and on every such stream when the input
    and the output do. *)
Lemma decrypt_loop_spec key0 fuel : array_ok 32 key0 → ∀ d in_file source out plaintext buf,
  dec_ok key0 d (length (pending in_file)) → bytes_ok (pending in_file) → length plaintext = CHUNK_BYTES → length buf = MAX_RECORD_BYTES →
  length (pending in_file) < 2 ^ 64 → (length (pending in_file) < fuel)%nat →
  ∃ d' in_file' out' res, decrypt_loop random_text fuel d in_file source out plaintext buf = Some (d', in_file', out', res) ∧ continues out out' ∧
    (res = Ok tt → ∃ p, written out' = written out ++ p ∧ accepts d (pending in_file) p) ∧
    (∀ p, healthy in_file → sound out → accepts d (pending in_file) p → res = Ok tt ∧ written out' = written out ++ p).
Proof.
  intros Hk. induction fuel as [|fuel IH]; intros d in_file source out plaintext buf Hd Hb Hpl Hbl Hlt Hfuel; [lia|].
  cbn [decrypt_loop]. pose proof (next_len_pos _ _ _ Hd) as Hpos. pose proof (next_len_max _ _ _ Hd) as Hmax.
  assert (length (take (next_len d) buf) = next_len d) as Htl by (rewrite length_take; lia).
  destruct (fill_chunk_spec in_file (take (next_len d) buf)) as (in1 & bytes & res & -> & Hh & Hbyl & Hres). cbn [mbind option_bind]. rewrite Htl in *.
  destruct res as [got|e]; [|eexists _, _, _, _; split; [done|]; split; [by split_and!|]; split; [done|by intros]].
  destruct Hres as (Eg & Ebytes & Ep). destruct (Nat.ltb_spec got (next_len d)) as [Hshort|Hfull].
  - destruct (finish_spec (GetrandomError := GE) key0 d _ plaintext Hd Hpl) as (d' & pl' & r & -> & _ & Hr).
    destruct (decide (state d = AfterFinal)) as [Hst|Hst].
    + destruct Hr as [-> Ht]. pose proof (write_all_spec out (take (final_len d) pl')) as Hw. destruct (write_all out _) as [out' r]. destruct Hw as (Hct & Hok & Hwr).
      unfold next_len in Hshort, Eg. rewrite Hst in Hshort, Eg. assert (pending in_file = []) as Hnil by (destruct (pending in_file); [done|cbn in Eg; lia]).
      rewrite Ht in Hwr. eexists _, _, _, _. split; [done|]. split; [done|]. rewrite Hnil. unfold accepts. rewrite Hst. split.
      * intros Er. eexists. split; [by apply Hwr|done].
      * intros p _ Hso [_ ->]. split; [by apply Hok|]. by apply Hwr, Hok.
    + subst r. destruct (stream_error_reported SecretstreamFile.Truncated) as [e' ->]; [done|]. cbn [mbind option_bind].
      eexists _, _, _, _. split; [done|]. split; [by split_and!|]. split; [done|]. intros p _ _ Ha.
      pose proof (accepts_length _ _ _ _ _ Hd Hb Ha Hst). lia.
  - assert (next_len d ≤ length (pending in_file))%nat as Hle by lia. assert (got = next_len d) as -> by lia.
    assert (take (next_len d) (copy_at 0 bytes buf) = take (next_len d) (pending in_file)) as ->.
    { rewrite Ebytes. rewrite (copy_at_0 (take _ (pending in_file))) by (rewrite length_take, Htl; lia). rewrite (drop_ge (take _ buf)), app_nil_r by (rewrite Htl, length_take; lia).
      rewrite copy_at_0 by (rewrite length_take; lia). apply take_app_length'. rewrite length_take. lia. }
    destruct (feed_turn (GetrandomError := GE) key0 d (pending in_file) plaintext) as (d' & pl' & r & -> & Hpl' & Hr); [done..|]. cbn [mbind option_bind].
    destruct r as [n|e].
    + destruct Hr as (_ & Hd' & Hacc). pose proof (write_all_spec out (take n pl')) as Hw. destruct (write_all out _) as [out1 r]. destruct Hw as (Hct & Hok & Hwr).
      assert (∀ p, accepts d (pending in_file) p ↔ ∃ p', p = take n pl' ++ p' ∧ accepts d' (pending in1) p') as Hacc'.
      { intros p. specialize (Hacc p []). by rewrite !app_nil_r, <- Ep in Hacc. }
      destruct r as [[]|e]; [|eexists _, _, _, _; split; [done|]; split; [done|]; split; [done|]; intros p _ Hso; by specialize (Hok Hso)].
      destruct (IH d' in1 source out1 pl' (copy_at 0 bytes buf)) as (d2 & in2 & out2 & res & E & Hct2 & A1 & A2).
      * rewrite Ep, length_drop. done.
      * rewrite Ep. by apply Forall_drop.
      * done.
      * rewrite length_copy_at; lia.
      * rewrite Ep, length_drop. lia.
      * rewrite Ep, length_drop. lia.
      * exists d2, in2, out2, res. split; [done|]. split; [by eapply continues_trans|]. rewrite Hwr in A1, A2 by done. split.
        -- intros Er. destruct (A1 Er) as (p & Ew & Ha). exists (take n pl' ++ p). rewrite app_assoc. split; [done|]. apply Hacc'. by exists p.
        -- intros p Hhe Hso Ha. apply Hacc' in Ha as (p' & -> & Ha). rewrite app_assoc. apply A2; [by apply Hh|by apply Hct|done].
    + destruct Hr as (_ & Hno & _ & Herr). destruct (stream_error_reported e Herr) as [e' ->]. cbn [mbind option_bind].
      eexists _, _, _, _. split; [done|]. split; [by split_and!|]. split; [done|]. intros p _ _ Ha. exfalso. apply (Hno p []). by rewrite app_nil_r.
Qed.
End reading.

(** ** The commands *)

Section commands.
Context {GE : Type} (random_text : RandomError GE → string) `{Argon2Laws} (pwhash_text : PwHashError GE → string).
Context `{Cpu} `{SubtleLaws} `{ZeroizeLaws}.

Definition fresh (out : Output) : Prop := written out = [] ∧ published out = None.

(** What went to stdout before a failure is declared incomplete. *)
Definition reports_incomplete (out : Output) (r : result unit CliError) : Prop :=
  target out = ToStdout → written out ≠ [] → r ≠ Ok tt → ∃ e, r = Err (StdoutIncomplete e).

Lemma finish_output_spec out res : let '(out', r) := finish_output out res in
  (published out = None → (r = Ok tt ∧ res = Ok tt ∧ published out' = Some (written out)) ∨ (r ≠ Ok tt ∧ published out' = None)) ∧
  (sound out → res = Ok tt → r = Ok tt) ∧ (marked out → reports_incomplete out' r).
Proof.
  unfold finish_output, publish, next_fault, sound, marked, reports_incomplete.
  destruct res as [[]|e]; [destruct (faults out) as [|[m|] [|[m'|] fs]]; cbn|]; (destruct (target out) eqn:Et; cbn; [|destruct (any out); cbn]); rewrite ?Et;
    (split; [intros Hp; first [by left|by right]|]); (split; [done || (intros Hs; repeat apply Forall_cons in Hs as [? Hs]; done)|]);
    try done; intros [?|?] ? ?; (done || by eexists).
Qed.

Lemma read_exact_spec input buf source :
  ∃ in' buf' r, read_exact_or_truncated input buf source = Some (in', buf', r) ∧ (healthy input → healthy in') ∧
    match r with
    | Ok _ => (length buf ≤ length (pending input))%nat ∧ buf' = take (length buf) (pending input) ∧ pending in' = drop (length buf) (pending input)
    | Err _ => ¬ (healthy input ∧ (length buf ≤ length (pending input))%nat)
    end.
Proof.
  unfold read_exact_or_truncated, read_exact. destruct (fill_chunk_spec input buf) as (in' & buf' & res & -> & Hh & Hl & Hres). cbn [mbind option_bind].
  destruct res as [n|e]; cbn [result_bind].
  - destruct Hres as (En & -> & Ep). rewrite Hl. destruct (Nat.ltb_spec n (length buf)) as [Hlt|Hge]; (eexists _, _, _; split; [done|]; split; [done|]).
    + cbn. lia.
    + assert (n = length buf) as -> by lia. split; [lia|]. split; [|done]. rewrite copy_at_0, drop_ge, app_nil_r by (rewrite length_take; lia). done.
  - eexists _, _, _. split; [done|]. split; [done|]. destruct (kind e); tauto.
Qed.

(** From the version byte on: nothing is published unless the whole stream is authentic, and then it is its plaintext. *)
Lemma decrypt_body_spec key by_passphrase input b source out :
  array_ok 32 key → bytes_ok (pending input) → length (pending input) + 1 < 2 ^ 64 → fresh out →
  ∃ out' r, decrypt_body (GE := GE) random_text (decryptor_new key) by_passphrase input [b] source out = Some (out', r) ∧
    ((r = Ok tt ∧ ∃ p, published out' = Some p ∧ accepts (decryptor_new key) (b :: pending input) p) ∨ (r ≠ Ok tt ∧ published out' = None)) ∧
    reports_incomplete out' r ∧
    (∀ p, healthy input → sound out → accepts (decryptor_new key) (b :: pending input) p → r = Ok tt ∧ published out' = Some p).
Proof.
  intros Hk Hb Hl [Hw0 Hp0]. unfold decrypt_body. change (decryptor_new key) with (dec key None Version (replicate CHUNK_BYTES 0) 0).
  rewrite feed_version by apply length_replicate. destruct (decide (b = 2)) as [->|Hb2]; cbn [mbind option_bind].
  - set (d := dec key None SecretstreamFile.Header (replicate CHUNK_BYTES 0) 0). unfold decrypt_stream_records.
    destruct (decrypt_loop_spec random_text key (S (length (pending input))) Hk d input source out (replicate CHUNK_BYTES 0) (replicate MAX_RECORD_BYTES 0))
      as (d' & in' & out1 & res & -> & (_ & Hpub & Hso & Hmk) & A1 & A2); [split; [apply length_replicate|done]|done|apply length_replicate|apply length_replicate|lia|lia|].
    cbn [mbind option_bind].
    assert (∀ p, accepts (dec key None Version (replicate CHUNK_BYTES 0) 0) (2 :: pending input) p ↔ accepts d (pending input) p) as Hacc.
    { intros p. unfold accepts, d. cbn [state dec SecretstreamFile.key]. split; intros (header & recs & E & Hx); exists header, recs; (split; [|exact Hx]); [by injection E|by rewrite E]. }
    set (res' := match res with Err SecretstreamVerifyFailed => _ | _ => _ end).
    assert (res' = Ok tt ↔ res = Ok tt) as Hres' by (unfold res'; destruct res as [[]|[]]; done).
    pose proof (finish_output_spec out1 res') as Hf. destruct (finish_output out1 res') as [out2 r]. destruct Hf as (Hf1 & Hf2 & Hf3). rewrite Hpub in Hf1. rewrite Hw0 in A1, A2.
    exists out2, r. split; [done|]. split; [|split; [apply Hf3, Hmk; by left|]].
    + destruct (Hf1 Hp0) as [(Hr & Hr' & Hp)|?]; [|by right]. left. split; [done|]. destruct (A1 (proj1 Hres' Hr')) as (p & E & Ha). exists p. split; [by rewrite Hp, E|by apply Hacc].
    + intros p Hhe Hs Ha%Hacc. destruct (A2 p Hhe Hs Ha) as [Er E]. assert (r = Ok tt) as Hr by (apply Hf2; [by apply Hso|by apply Hres']). split; [done|].
      destruct (Hf1 Hp0) as [(_ & _ & Hp)|[? _]]; [by rewrite Hp, E|done].
  - cbn [from_file_error]. cbn [mbind option_bind]. pose proof (finish_output_spec out (Err (SecretstreamUnsupportedVersion b))) as Hf.
    destruct (finish_output out _) as [out2 r]. destruct Hf as (Hf1 & _ & Hf3). exists out2, r. split; [done|]. split; [|split; [apply Hf3; by left|]].
    + destruct (Hf1 Hp0) as [(_ & ? & _)|?]; [done|by right].
    + by intros p _ _ (header & recs & [= ? _] & _).
Qed.

(** What [decrypt] decides before it reserves the output: a decryptor of a real key on the stream that follows, for the right
    kind of secret. *)
Lemma decrypt_start_spec env secret raw source b : byte_ok b → bytes_ok (pending raw) → (∀ key, secret = SecretKey key → array_ok 32 key) →
  ∃ r, decrypt_start random_text pwhash_text env secret raw source [b] = Some r ∧
    match r with
    | Err _ => True
    | Ok (d, by_passphrase, input, first) => ∃ key b' pre, array_ok 32 key ∧ d = decryptor_new key ∧ first = [b'] ∧ b :: pending raw = pre ++ b' :: pending input ∧
        (healthy raw → healthy input) ∧
        match secret with
        | SecretKey k => k = key ∧ pre = []
        | Passphrase given => ∃ phrase s, (match given with Some phrase => Ok phrase | None => from_terminal env end) = Ok phrase ∧ pre = header_of s ∧ length s = SALT_BYTES ∧
            stream_key (GE := GE) (try_reserve env) phrase s = Some (Ok key)
        end
    end.
Proof.
  intros Hb0 Hb Hsk. unfold decrypt_start. cbn [nth]. destruct (Z.eqb_spec b CONTAINER_TYPE) as [->|Hne].
  2:{ destruct secret as [key|given]; [|destruct (Z.eqb b FORMAT_VERSION); by eexists]. eexists. split; [done|]. exists key, b, []. split_and!; try done. by apply Hsk. }
  destruct secret as [key|given]; [by eexists|].
  destruct (read_exact_spec raw (drop 1 (<[0%nat:=CONTAINER_TYPE]> (replicate PassphraseFile.HEADER_BYTES 0))) source) as (raw1 & rest & r & -> & Hh1 & Hr). cbn [mbind option_bind].
  destruct r as [[]|e]; [|by eexists]. destruct Hr as (Hle & -> & Ep). change (length (drop 1 _)) with 27%nat in *.
  assert (array_ok PassphraseFile.HEADER_BYTES (CONTAINER_TYPE :: take 27 (pending raw))) as Hhd.
  { split; [cbn [length]; rewrite length_take, Nat.min_l by done; done|]. apply Forall_cons. split; [done|by apply Forall_take]. }
  assert (copy_at 1 (take 27 (pending raw)) (<[0%nat:=CONTAINER_TYPE]> (replicate PassphraseFile.HEADER_BYTES 0)) = CONTAINER_TYPE :: take 27 (pending raw)) as ->.
  { change (<[0%nat:=CONTAINER_TYPE]> (replicate PassphraseFile.HEADER_BYTES 0)) with ([CONTAINER_TYPE] ++ replicate 27 0).
    rewrite <- (app_nil_r (replicate 27 0)), copy_at_app by (rewrite ?length_take, ?length_replicate; done || lia). by rewrite app_nil_r. }
  pose proof (parse_spec (GE := GE) _ Hhd) as Hparse. destruct (parse (CONTAINER_TYPE :: take 27 (pending raw))) as [h|e]; [|by eexists].
  destruct Hparse as [Hsl Ehd]. destruct (match given with Some phrase => Ok phrase | None => from_terminal env end) as [phrase|e] eqn:Eph; [|by eexists].
  unfold open_stream. destruct (stream_key_spec (GE := GE) (try_reserve env) phrase (salt h)) as (k & Ek & Hk). rewrite Ek. cbn [mbind option_bind].
  destruct k as [key|e]; cbn [result_bind]; [|by eexists]. destruct Hk as [Hk _].
  destruct (read_exact_spec raw1 [CONTAINER_TYPE] source) as (raw2 & first & r & -> & Hh2 & Hr). cbn [mbind option_bind]. eexists. split; [done|].
  destruct r as [[]|e]; cbn [result_bind]; [|done]. destruct Hr as (Hle2 & -> & Ep2). cbn [length] in *.
  destruct (pending raw1) as [|b' l] eqn:Er1; [cbn in Hle2; lia|]. cbn [take] in *. exists key, b', (header_of (salt h)).
  split; [done|]. split; [done|]. split; [done|]. split; [|split; [auto|by exists phrase, (salt h)]].
  rewrite <- Ehd, Ep2. cbn [drop]. rewrite drop_0, Ep. cbn [app]. by rewrite take_drop.
Qed.

(** The secret of a command gives this key with this text in front of the stream. *)
Definition gives_key (env : Environment GE) (secret : StreamSecret) (key pre : list Z) : Prop :=
  match secret with
  | SecretKey k => k = key ∧ pre = []
  | Passphrase given => ∃ phrase s, (match given with Some phrase => Ok phrase | None => from_terminal env end) = Ok phrase ∧ pre = header_of s ∧ length s = SALT_BYTES ∧
      stream_key (GE := GE) (try_reserve env) phrase s = Some (Ok key)
  end.

(** The first byte is that of the container, for a passphrase, and of the stream, for a key. *)
Lemma gives_key_prefix env secret key pre key' pre' x y : gives_key env secret key pre → gives_key env secret key' pre' → pre ++ x = pre' ++ y → key = key' ∧ x = y.
Proof.
  destruct secret as [k|given]; cbn [gives_key]; [by intros [-> ->] [-> ->]|].
  intros (ph & s & E & -> & Hs & Ek) (ph' & s' & E' & -> & Hs' & Ek') Ex. rewrite E in E'. injection E' as <-.
  apply app_inj_1 in Ex as [Eh Ex]; [|unfold header_of; rewrite !length_app; by rewrite Hs, Hs']. unfold header_of in Eh. apply app_inv_head in Eh as <-. rewrite Ek in Ek'. by injection Ek'.
Qed.

Lemma encryptor_init_spec (fill : fill_call GE) key : array_ok 32 key → fill_ok fill →
  ∃ r, encryptor_init fill key = Some r ∧
    match r with
    | Ok (enc, prefix) => ∃ header, array_ok 32 header ∧ enc = {| enc_push := to_push (start key header) |} ∧ prefix = FORMAT_VERSION :: header
    | Err e => ∃ e', e = SecretstreamFile.Random e'
    end.
Proof.
  intros Hk Hf. unfold encryptor_init. destruct (fill (replicate 32 0)) as [header [[]|e]] eqn:Ef.
  - destruct (push_init_spec fill key Hk Hf) as (Hh & Hi & _ & _); [by rewrite Ef|]. rewrite Ef in Hh, Hi. cbn [fst] in Hh, Hi. rewrite Hi. cbn [mbind option_bind].
    eexists. split; [done|]. exists header. split; [done|]. split; [done|].
    change (<[0%nat:=FORMAT_VERSION]> (replicate FILE_PREFIX_BYTES 0)) with ([FORMAT_VERSION] ++ replicate 32 0).
    rewrite <- (app_nil_r (replicate 32 0)), copy_at_app by (done || by rewrite (proj1 Hh)). by rewrite app_nil_r.
  - unfold push_init, randombytes_buf. rewrite Ef. cbn [mbind option_bind]. eexists. split; [done|]. by eexists.
Qed.

Lemma encrypt_start_spec env secret : (∀ key, secret = SecretKey key → array_ok 32 key) → fill_ok (fill1 env) → fill_ok (fill2 env) →
  ∃ r, encrypt_start random_text pwhash_text env secret = Some r ∧
    match r with
    | Ok (enc, prefix) => ∃ key header pre, array_ok 32 key ∧ array_ok 32 header ∧ enc = {| enc_push := to_push (start key header) |} ∧
        prefix = pre ++ FORMAT_VERSION :: header ∧ gives_key env secret key pre
    | Err _ => True
    end.
Proof.
  intros Hsk Hf1 Hf2. unfold encrypt_start. destruct secret as [key|given].
  - destruct (encryptor_init_spec (fill1 env) key (Hsk key eq_refl) Hf1) as (r & -> & Hr). cbn [mbind option_bind]. destruct r as [[enc prefix]|e].
    + destruct Hr as (header & Hh & -> & ->). eexists. split; [done|]. exists key, header, []. split_and!; try done. by apply Hsk.
    + destruct Hr as (e' & ->). by eexists.
  - destruct (match given with Some phrase => Ok phrase | None => from_terminal env end) as [phrase|e] eqn:Eph; [|by eexists].
    destruct (seal_stream_spec (try_reserve env) (fill1 env) (fill2 env) phrase Hf1 Hf2) as (r & -> & Hr). cbn [mbind option_bind]. destruct r as [[enc prefix]|e]; [|by eexists].
    destruct Hr as (key & fp & Ek & Hk & _ & Ei & ->). eexists. split; [done|].
    destruct (encryptor_init_spec (fill2 env) key Hk Hf2) as (r & Er & Hr). rewrite Ei in Er. injection Er as <-. destruct Hr as (header & Hh & -> & ->).
    exists key, header, (header_of (fill1 env (replicate SALT_BYTES 0)).1). split_and!; try done. exists phrase, (fill1 env (replicate SALT_BYTES 0)).1.
    split; [exact Eph|]. split; [done|]. split; [apply (Hf1 SALT_BYTES)|exact Ek].
Qed.

(** [encrypt] once it has a key: nothing is published unless it succeeds, and then it is the text in front and a stream of
    the plaintext. *)
Lemma encrypt_run env secret input source out enc prefix key header pre :
  array_ok 32 key → array_ok 32 header → bytes_ok (pending input) → length (pending input) + 1 < 2 ^ 64 → fresh out → create env = Ok out →
  encrypt_start random_text pwhash_text env secret = Some (Ok (enc, prefix)) → enc = {| enc_push := to_push (start key header) |} → prefix = pre ++ FORMAT_VERSION :: header →
  ∃ out' r, run_secretstream_encrypt random_text pwhash_text env secret (Ok input) source = Some (Some out', r) ∧
    ((r = Ok tt ∧ ∃ recs, published out' = Some (pre ++ FORMAT_VERSION :: header ++ recs) ∧ wire_file (start key header) (pending input) recs) ∨
     (r ≠ Ok tt ∧ published out' = None)) ∧
    (healthy input → sound out → r = Ok tt).
Proof.
  intros Hk Hh Hb Hl [Hw0 Hp0] Ec Es -> ->. unfold run_secretstream_encrypt. rewrite Es. cbn [mbind option_bind]. rewrite Ec.
  pose proof (write_all_spec out (pre ++ FORMAT_VERSION :: header)) as Hw. destruct (write_all out _) as [out1 r1]. destruct Hw as ((_ & Hp1 & Hso1 & _) & Hok1 & Hwr1).
  destruct r1 as [[]|e].
  - destruct (write_stream_records_spec random_text (start key header) input source out1) as (enc' & in' & out2 & res & -> & (_ & Hp2 & Hso2 & _) & Hok2 & Hw2);
      [by destruct (initial_subkey_spec key header Hk Hh) as [_ Hs]; split|done|cbn [start ses_counter]; lia|done|]. cbn [mbind option_bind].
    pose proof (finish_output_spec out2 res) as Hf. destruct (finish_output out2 res) as [out3 r]. destruct Hf as (Hf1 & Hf2 & _).
    exists out3, r. split; [done|]. split; [|auto]. destruct Hf1 as [(-> & -> & Hp)|?]; [congruence| |by right]. left. split; [done|].
    destruct (Hw2 eq_refl) as (recs & Ew & Hwf). exists recs. split; [|done]. rewrite Hp, Ew, Hwr1, Hw0 by done. f_equal. cbn [app]. by rewrite <- app_assoc.
  - cbn [mbind option_bind]. pose proof (finish_output_spec out1 (Err e)) as Hf. destruct (finish_output out1 (Err e)) as [out3 r]. destruct Hf as (Hf1 & Hf2 & _).
    exists out3, r. split; [done|]. split; [destruct Hf1 as [(_ & ? & _)|?]; [congruence|done|by right]|]. intros _ Hs. by specialize (Hok1 Hs).
Qed.

(** [decrypt] as a whole. *)
Lemma decrypt_run env secret raw source : bytes_ok (pending raw) → length (pending raw) < 2 ^ 64 → (∀ key, secret = SecretKey key → array_ok 32 key) →
  (∀ out, create env = Ok out → fresh out) →
  ∃ o r, run_secretstream_decrypt random_text pwhash_text env secret (Ok raw) source = Some (o, r) ∧
    (r = Ok tt → ∃ out' p key pre file, o = Some out' ∧ published out' = Some p ∧ gives_key env secret key pre ∧ pending raw = pre ++ file ∧ accepts (decryptor_new key) file p) ∧
    (r ≠ Ok tt → ∀ out', o = Some out' → published out' = None) ∧ (∀ out', o = Some out' → reports_incomplete out' r).
Proof.
  intros Hb Hl Hsk Hfr. unfold run_secretstream_decrypt.
  destruct (read_exact_spec raw [0] source) as (raw1 & first & r & -> & Hh1 & Hr). cbn [mbind option_bind]. destruct r as [[]|e]; [|by eexists _, _].
  destruct Hr as (Hle & -> & Ep). cbn [length] in *. destruct (pending raw) as [|b l] eqn:Eraw; [cbn in Hle; lia|]. cbn [take drop length] in *. rewrite drop_0 in Ep. rewrite take_0.
  apply Forall_cons in Hb as [Hb0 Hb]. destruct (decrypt_start_spec env secret raw1 source b Hb0 ltac:(by rewrite Ep) Hsk) as (r & -> & Hr). cbn [mbind option_bind].
  destruct r as [[[[d by_p] input] first]|e]; [|by eexists _, _]. destruct Hr as (key & b' & pre & Hk & -> & -> & E & _ & Hg).
  destruct (create env) as [out|e] eqn:Ec; [|by eexists _, _]. rewrite Ep in E.
  assert (bytes_ok (b' :: pending input)) as [_ Hbi]%Forall_cons.
  { assert (bytes_ok (b :: l)) as Hbl by by constructor. rewrite E in Hbl. by apply Forall_app in Hbl as [_ ?]. }
  destruct (decrypt_body_spec key by_p input b' source out Hk Hbi) as (out' & r & -> & Hcase & Hinc & _); [apply (f_equal length) in E; rewrite length_app in E; cbn [length] in *; lia|by apply Hfr|].
  cbn [mbind option_bind]. exists (Some out'), r. split; [done|]. split.
  - intros Hr. destruct Hcase as [(_ & p & Hp & Ha)|[? _]]; [|done]. exists out', p, key, pre, (b' :: pending input). by split_and!.
  - split; [|by intros o [= <-]]. intros Hr o [= <-]. by destruct Hcase as [[? _]|[_ ?]].
Qed.

(** On its own files [decrypt] gets as far as the records. *)
Lemma decrypt_start_ok env secret raw source b l key pre file : healthy raw → gives_key env secret key pre → b :: pending raw = pre ++ FORMAT_VERSION :: file → l = pending raw →
  bytes_ok l →
  ∃ by_p input, decrypt_start random_text pwhash_text env secret raw source [b] = Some (Ok (decryptor_new key, by_p, input, [FORMAT_VERSION])) ∧
    healthy input ∧ pending input = file.
Proof.
  intros Hh Hg E -> Hb. unfold decrypt_start. destruct secret as [k|given]; cbn [gives_key] in Hg.
  - destruct Hg as [-> ->]. injection E as -> <-. by eexists _, raw.
  - destruct Hg as (phrase & s & Eph & -> & Hs & Ek). unfold header_of in E. injection E as -> E. cbn [nth]. change (Z.eqb 0x50 CONTAINER_TYPE) with true. cbv iota.
    set (tail := [1; 1; 0; 0; 4; 0; 3; 0; 0; 0; 1] ++ s).
    assert (pending raw = tail ++ FORMAT_VERSION :: file) as Etail by (rewrite E; unfold tail; by rewrite <- app_assoc). clear E. rename Etail into E.
    assert (length tail = 27%nat) as Htl by (unfold tail; rewrite length_app, Hs; done).
    destruct (read_exact_spec raw (drop 1 (<[0%nat:=0x50]> (replicate PassphraseFile.HEADER_BYTES 0))) source) as (raw1 & rest & r & -> & Hh1 & Hr). cbn [mbind option_bind].
    change (length (drop 1 _)) with 27%nat in Hr.
    destruct r as [[]|e]; [|exfalso; apply Hr; split; [done|]; rewrite E, length_app, Htl; lia]. destruct Hr as (_ & -> & Ep). rewrite E, drop_app_length' in Ep by done.
    rewrite E, take_app_length' by done.
    assert (copy_at 1 tail (<[0%nat:=0x50]> (replicate PassphraseFile.HEADER_BYTES 0)) = header_of s) as ->.
    { change (<[0%nat:=0x50]> (replicate PassphraseFile.HEADER_BYTES 0)) with ([0x50] ++ replicate 27 0).
      rewrite <- (app_nil_r (replicate 27 0)), copy_at_app by (rewrite ?length_replicate; done || lia). by rewrite app_nil_r. }
    assert (array_ok SALT_BYTES s) as Hsa by (split; [done|]; rewrite E in Hb; apply Forall_app in Hb as [Hb _]; by apply Forall_app in Hb as [_ Hb]).
    rewrite parse_header_of by done. rewrite Eph. unfold open_stream. cbn [salt]. rewrite Ek. cbn [mbind option_bind result_bind].
    destruct (read_exact_spec raw1 [0x50] source) as (raw2 & first & r & -> & Hh2 & Hr). cbn [mbind option_bind]. cbn [length] in Hr. rewrite Ep in Hr. cbn [length] in Hr.
    destruct r as [[]|e]; [|exfalso; apply Hr; split; [auto|lia]]. destruct Hr as (_ & -> & Ep2). cbn [take drop] in *. rewrite take_0. rewrite drop_0 in Ep2.
    eexists _, raw2. split; [done|]. split; [auto|done].
Qed.

Lemma decrypt_run_ok env secret raw source out key pre file p :
  bytes_ok (pending raw) → length (pending raw) < 2 ^ 64 → array_ok 32 key → healthy raw → create env = Ok out → fresh out → sound out →
  gives_key env secret key pre → pending raw = pre ++ file → accepts (decryptor_new key) file p →
  ∃ out', run_secretstream_decrypt random_text pwhash_text env secret (Ok raw) source = Some (Some out', Ok tt) ∧ published out' = Some p.
Proof.
  intros Hb Hl Hk Hh Ec Hfr Hso Hg E Ha. destruct Ha as (header & recs & Ef & Hx). subst file.
  unfold run_secretstream_decrypt. destruct (read_exact_spec raw [0] source) as (raw1 & first & r & -> & Hh1 & Hr). cbn [mbind option_bind]. cbn [length] in Hr.
  assert (∃ b l, pending raw = b :: l) as (b & l & Eraw) by (destruct (pending raw); [by apply app_cons_not_nil in E|by eexists _, _]).
  rewrite Eraw in *. cbn [length] in *. destruct r as [[]|e]; [|exfalso; apply Hr; split; [done|lia]]. destruct Hr as (_ & -> & Ep). cbn [take drop] in *. rewrite take_0. rewrite drop_0 in Ep.
  apply Forall_cons in Hb as [Hb0 Hb].
  destruct (decrypt_start_ok env secret raw1 source b l key pre (header ++ recs)) as (by_p & input & -> & Hhi & Epi); [auto|done|by rewrite Ep|done|done|].
  cbn [mbind option_bind]. rewrite Ec.
  destruct (decrypt_body_spec key by_p input FORMAT_VERSION source out Hk) as (out' & r & -> & _ & _ & Hok).
  - rewrite Epi. assert (bytes_ok (pre ++ 2 :: header ++ recs)) as Hall by (rewrite <- E; by constructor).
    apply Forall_app in Hall as [_ Hall]. by apply Forall_cons in Hall as [_ ?].
  - rewrite Epi. apply (f_equal length) in E. rewrite length_app in E. cbn [length] in E. lia.
  - done.
  - cbn [mbind option_bind]. destruct (Hok p) as [-> Hp]; [done|done|rewrite Epi; exists header, recs; split; [done|exact Hx]|]. by exists out'.
Qed.
End commands.

(** ** Properties *)

(** C17. [encrypt] followed by [decrypt], for a key or a passphrase: if [encrypt] reports success its output is published, and
    any later [decrypt] with the same secret publishes the plaintext and reports success, however the reads of either side are
    cut up or interrupted; and [encrypt] reports success whenever it gets a key and neither its input nor its output fails. *)
Theorem cli_roundtrip {GE} (random_text : RandomError GE → string) `{Argon2Laws} (pwhash_text : PwHashError GE → string) `{Cpu} `{SubtleLaws} `{ZeroizeLaws}
    (env : Environment GE) secret input source out enc prefix :
  (∀ key, secret = SecretKey key → array_ok 32 key) → fill_ok (fill1 env) → fill_ok (fill2 env) → bytes_ok (pending input) → length (pending input) < 2 ^ 57 →
  create env = Ok out → fresh out → encrypt_start random_text pwhash_text env secret = Some (Ok (enc, prefix)) →
  ∃ out' r, run_secretstream_encrypt random_text pwhash_text env secret (Ok input) source = Some (Some out', r) ∧
    (healthy input → sound out → r = Ok tt) ∧
    (r = Ok tt → ∃ file, published out' = Some file ∧
      ∀ env' raw source' out2, try_reserve env' = try_reserve env → from_terminal env' = from_terminal env → create env' = Ok out2 → fresh out2 → sound out2 →
        pending raw = file → healthy raw →
        ∃ out3, run_secretstream_decrypt random_text pwhash_text env' secret (Ok raw) source' = Some (Some out3, Ok tt) ∧ published out3 = Some (pending input)).
Proof.
  intros Hsk Hf1 Hf2 Hb Hl Ec Hfr Es. destruct (encrypt_start_spec random_text pwhash_text env secret Hsk Hf1 Hf2) as (r & Er & Hr). rewrite Es in Er. injection Er as <-.
  destruct Hr as (key & header & pre & Hk & Hh & Eenc & Epre & Hg).
  destruct (encrypt_run random_text pwhash_text env secret input source out enc prefix key header pre Hk Hh Hb ltac:(lia) Hfr Ec Es Eenc Epre) as (out' & r & E & Hcase & Hok).
  exists out', r. split; [done|]. split; [done|]. intros Er. destruct Hcase as [(_ & recs & Hp & Hwf)|[? _]]; [|done].
  exists (pre ++ FORMAT_VERSION :: header ++ recs). split; [done|]. intros env' raw source' out2 Etr Eft Ec2 Hfr2 Hso2 Eraw Hhe.
  destruct (initial_subkey_spec key header Hk Hh) as [_ Hs]. destruct (wire_file_ok (start key header) (pending input) recs Hwf) as [Hrb Hrl]; [by split|done|cbn [start ses_counter]; lia|].
  assert (bytes_ok pre ∧ (length pre ≤ 28)%nat) as [Hpb Hpl].
  { destruct secret as [k|given]; cbn [gives_key] in Hg; [destruct Hg as [_ ->]; by split; [constructor|cbn; lia]|].
    destruct Hg as (phrase & s & Eph & -> & Hsl & Ek). assert (bytes_ok (header_of s)) as Hhs.
    { unfold encrypt_start in Es. rewrite Eph in Es. destruct (seal_stream_spec (try_reserve env) (fill1 env) (fill2 env) phrase Hf1 Hf2) as (r0 & Er0 & Hr0).
      rewrite Er0 in Es. cbn [mbind option_bind] in Es. destruct r0 as [[enc0 prefix0]|e0]; [|done]. injection Es as -> ->.
      destruct Hr0 as (k0 & fp & _ & _ & _ & _ & Epre0). rewrite Epre in Epre0. apply app_inj_1 in Epre0 as [-> _]; [|unfold header_of; rewrite !length_app, Hsl, (proj1 (Hf1 _)); done].
      apply Forall_app. split; [by_decision|apply (Hf1 SALT_BYTES)]. }
    split; [done|]. unfold header_of. rewrite length_app, Hsl. done. }
  apply (decrypt_run_ok random_text pwhash_text env' secret raw source' out2 key pre (FORMAT_VERSION :: header ++ recs)); try done.
  - rewrite Eraw. apply Forall_app. split; [done|]. apply Forall_cons. split; [by_decision|]. apply Forall_app. split; [apply Hh|done].
  - rewrite Eraw, length_app. cbn [length]. rewrite length_app, (proj1 Hh). lia.
  - destruct secret as [k|given]; cbn [gives_key] in *; [done|]. by rewrite Etr, Eft.
  - exists header, recs. split; [done|]. split; [apply Hh|exact Hwf].
Qed.

(** A concrete environment for the witnesses: an input that arrives byte by byte with an interruption in between. *)
Definition plain_output : Output := {| target := ToFile [0x74] [0x6F]; written := []; any := false; faults := []; published := None |}.

Definition plain_environment : Environment unit := {|
  try_reserve := λ _, true; fill1 := constant_fill 7; fill2 := constant_fill 8; from_terminal := Err PassphraseNoTerminal; create := Ok plain_output
|}.

Definition slow_reader (data : list Z) : Reader :=
  {| pending := data; schedule := [Give 0; Fail {| kind := Interrupted; text := "interrupted" |}; Give 1] |}.

Lemma cli_roundtrip_witness :
  let _ := plain_argon2 in let _ := plain_subtle in let _ := {| feature_available := false |} in let _ := plain_zeroize in
  let text := λ _ : RandomError unit, "random"%string in let pw := λ _ : PwHashError unit, "argon2"%string in let secret := SecretKey (seqZ 0 32) in
  ∃ out' file out3, run_secretstream_encrypt text pw plain_environment secret (Ok (slow_reader [1; 2; 3])) [] = Some (Some out', Ok tt) ∧ published out' = Some file ∧
    run_secretstream_decrypt text pw plain_environment secret (Ok (slow_reader file)) [] = Some (Some out3, Ok tt) ∧ published out3 = Some [1; 2; 3].
Proof.
  intros C S U Z text pw secret.
  assert (array_ok 32 (seqZ 0 32)) as Hk by by_decision. assert (byte_ok 7) as H7 by by_decision. assert (byte_ok 8) as H8 by by_decision.
  assert (∃ ep, encrypt_start text pw plain_environment secret = Some (Ok ep)) as [[enc prefix] Hs].
  { unfold encrypt_start, secret. destruct (encryptor_init_spec (fill1 plain_environment) (seqZ 0 32) Hk (constant_fill_ok 7 H7)) as ([ep|e] & Er & Hr).
    - exists ep. by rewrite Er.
    - exfalso. revert Er. unfold encryptor_init. destruct (push_init_spec (fill1 plain_environment) (seqZ 0 32) Hk (constant_fill_ok 7 H7) eq_refl) as (_ & -> & _). discriminate. }
  destruct (@cli_roundtrip unit text plain_argon2 plain_argon2_laws pw {| feature_available := false |} plain_subtle plain_subtle_laws plain_zeroize plain_zeroize_laws
    plain_environment secret (slow_reader [1; 2; 3]) [] plain_output enc prefix) as (out' & r & E & Hok & Hr).
  - by intros key [= <-].
  - by apply constant_fill_ok.
  - by apply constant_fill_ok.
  - by_decision.
  - by_decision.
  - reflexivity.
  - split; reflexivity.
  - exact Hs.
  - assert (∀ data, healthy (slow_reader data)) as Hh by (intros data; repeat constructor). assert (sound plain_output) as Ho by constructor.
    pose proof (Hok (Hh _) Ho) as Er. destruct (Hr Er) as (file & Hp & Hdec). rewrite Er in E.
    destruct (Hdec plain_environment (slow_reader file) [] plain_output eq_refl eq_refl eq_refl (conj eq_refl eq_refl) Ho eq_refl (Hh _)) as (out3 & Ed & Hp3).
    exists out', file, out3. exact (conj E (conj Hp (conj Ed Hp3))).
Defined.

(** C16. [decrypt] is all or nothing: for every input, also one that fails while it is read, every output, also one that fails
    while it is written, and every secret, it does not panic; when it reports an error nothing is published (no file appears at
    the output path), and if something had already gone to stdout the error says that the output there is incomplete; and when
    it reports success the input is a text that belongs to the secret and an authentic stream under its key, and what is
    published is exactly the plaintext of that stream. *)
Theorem decrypt_all_or_nothing {GE} (random_text : RandomError GE → string) `{Argon2Laws} (pwhash_text : PwHashError GE → string) `{Cpu} `{SubtleLaws} `{ZeroizeLaws}
    (env : Environment GE) secret raw source :
  bytes_ok (pending raw) → length (pending raw) < 2 ^ 64 → (∀ key, secret = SecretKey key → array_ok 32 key) → (∀ out, create env = Ok out → fresh out) →
  ∃ o r, run_secretstream_decrypt random_text pwhash_text env secret (Ok raw) source = Some (o, r) ∧
    (r = Ok tt → ∃ out' p key pre file, o = Some out' ∧ published out' = Some p ∧ gives_key env secret key pre ∧ pending raw = pre ++ file ∧ accepts (decryptor_new key) file p) ∧
    (r ≠ Ok tt → ∀ out', o = Some out' → published out' = None) ∧ (∀ out', o = Some out' → reports_incomplete out' r).
Proof. intros Hb Hl Hsk Hfr. exact (decrypt_run random_text pwhash_text env secret raw source Hb Hl Hsk Hfr). Qed.

Lemma decrypt_all_or_nothing_witness :
  let _ := plain_argon2 in let _ := plain_subtle in let _ := {| feature_available := false |} in let _ := plain_zeroize in
  let text := λ _ : RandomError unit, "random"%string in let pw := λ _ : PwHashError unit, "argon2"%string in let secret := SecretKey (seqZ 0 32) in
  ∃ o r, run_secretstream_decrypt text pw plain_environment secret (Ok (slow_reader [2; 0; 0])) [] = Some (o, r) ∧ (r ≠ Ok tt → ∀ out', o = Some out' → published out' = None).
Proof.
  intros C S U Z text pw secret.
  destruct (@decrypt_all_or_nothing unit text plain_argon2 plain_argon2_laws pw {| feature_available := false |} plain_subtle plain_subtle_laws plain_zeroize plain_zeroize_laws
    plain_environment secret (slow_reader [2; 0; 0]) []) as (o & r & E & _ & Hno & _).
  - by_decision.
  - by_decision.
  - intros key [= <-]. by_decision.
  - intros out [= <-]. split; reflexivity.
  - exists o, r. exact (conj E Hno).
Defined.
