(* ===== verification/Suggest.v ===== *)
(** The suggestions for a mistyped word ([uacrypt/src/lib.rs]: [suggest], [edit_distance]).  The distance is computed over three
    rows; it is proved to be the least number of edits, for a relation [edits] that says what an edit is. *)

From Stdlib Require Import Ascii.
From stdpp Require Import strings.
From S2P Require Import Prelude.
#[local] Open Scope nat_scope.

(** ** The distance *)

(** One cell: [cur[j]]. *)
Definition edit_cell (a b : list Z) (before_prev prev : list nat) (i : nat) (cur : list nat) (j : nat) : list nat :=
  let cost := if Z.eqb (nth (i - 1) a 0%Z) (nth (j - 1) b 0%Z) then 0 else 1 in
  let d := Nat.min (Nat.min (nth j prev 0 + 1) (nth (j - 1) cur 0 + 1)) (nth (j - 1) prev 0 + cost) in
  let d := if Nat.leb 2 i && Nat.leb 2 j && Z.eqb (nth (i - 1) a 0%Z) (nth (j - 2) b 0%Z) && Z.eqb (nth (i - 2) a 0%Z) (nth (j - 1) b 0%Z)
           then Nat.min d (nth (j - 2) before_prev 0 + 1) else d in
  <[j := d]> cur.

(** One row, and the two swaps. *)
Definition edit_row (a b : list Z) (rows : list nat * list nat * list nat) (i : nat) : list nat * list nat * list nat :=
  let '(before_prev, prev, cur) := rows in
  let cur := <[0 := i]> cur in
  let cur := foldl (edit_cell a b before_prev prev i) cur (seq 1 (length b)) in
  (prev, cur, before_prev).

Definition edit_distance (a b : string) : nat :=
  let a := ascii_bytes a in let b := ascii_bytes b in
  let before_prev := replicate (length b + 1) 0 in
  let prev := seq 0 (length b + 1) in
  let cur := replicate (length b + 1) 0 in
  let '(_, prev, _) := foldl (edit_row a b) (before_prev, prev, cur) (seq 1 (length a)) in
  nth (length b) prev 0.

(** ** Suggesting *)

Fixpoint trim_start_matches (c : Ascii.ascii) (s : string) : string :=
  match s with
  | String x rest => if Ascii.eqb x c then trim_start_matches c rest else s
  | EmptyString => EmptyString
  end.

(** [Iterator::min_by_key]: the first of the least. *)
Fixpoint min_by_key {A} (key : A → nat) (l : list A) : option A :=
  match l with
  | [] => None
  | x :: l => Some match min_by_key key l with Some y => if Nat.leb (key x) (key y) then x else y | None => x end
  end.

Definition suggest (input : string) (candidates : list string) : option string :=
  let limit := Nat.max (String.length (trim_start_matches "-"%char input) / 3) 1 in
  snd <$> min_by_key fst (List.filter (λ x, Nat.leb x.1 limit) (map (λ c, (edit_distance input c, c)) candidates)).

(** ** What an edit is *)

(** [edits a b n]: [n] edits make [b] from [a], each position being touched once: replace, delete or insert one element,
    or swap two neighbours. *)
Inductive edits {A} : list A → list A → nat → Prop :=
| edits_nil : edits [] [] 0
| edits_keep a b x n : edits a b n → edits (a ++ [x]) (b ++ [x]) n
| edits_replace a b x y n : edits a b n → edits (a ++ [x]) (b ++ [y]) (S n)
| edits_delete a b x n : edits a b n → edits (a ++ [x]) b (S n)
| edits_insert a b y n : edits a b n → edits a (b ++ [y]) (S n)
| edits_swap a b x y n : edits a b n → edits (a ++ [x] ++ [y]) (b ++ [y] ++ [x]) (S n).

Definition least {A} (a b : list A) (d : nat) : Prop := edits a b d ∧ ∀ n, edits a b n → d ≤ n.

Lemma edits_lengths {A} (a b : list A) n : edits a b n → length a ≤ length b + n ∧ length b ≤ length a + n.
Proof. induction 1; rewrite ?length_app in *; cbn [length] in *; lia. Qed.

Lemma least_nil_l {A} (b : list A) : least [] b (length b).
Proof.
  split; [|intros n H%edits_lengths; cbn in H; lia]. induction b as [|y b IH] using rev_ind; [constructor|]. rewrite length_app. cbn [length]. rewrite Nat.add_1_r. by constructor.
Qed.

Lemma least_nil_r {A} (a : list A) : least a [] (length a).
Proof.
  split; [|intros n H%edits_lengths; cbn in H; lia]. induction a as [|x a IH] using rev_ind; [constructor|]. rewrite length_app. cbn [length]. rewrite Nat.add_1_r. by constructor.
Qed.

(** The last step of an edit between two nonempty words. *)
Lemma edits_snoc_inv {A} (a b : list A) x y n : edits (a ++ [x]) (b ++ [y]) n →
  (x = y ∧ edits a b n) ∨
  (∃ m, n = S m ∧ (edits a b m ∨ edits a (b ++ [y]) m ∨ edits (a ++ [x]) b m ∨ ∃ a' b', a = a' ++ [y] ∧ b = b' ++ [x] ∧ edits a' b' m)).
Proof.
  intros H. remember (a ++ [x]) as ax eqn:Ea. remember (b ++ [y]) as byy eqn:Eb.
  destruct H as [|a0 b0 x0 n H|a0 b0 x0 y0 n H|a0 b0 x0 n H|a0 b0 y0 n H|a0 b0 x0 y0 n H].
  - by apply app_cons_not_nil in Ea.
  - apply app_inj_tail in Ea as [<- <-], Eb as [<- <-]. by left.
  - apply app_inj_tail in Ea as [<- <-], Eb as [<- <-]. right. exists n. auto.
  - apply app_inj_tail in Ea as [<- <-]. subst b0. right. exists n. auto.
  - apply app_inj_tail in Eb as [<- <-]. subst a0. right. exists n. auto.
  - rewrite app_assoc in Ea. rewrite app_assoc in Eb. apply app_inj_tail in Ea as [<- <-], Eb as [<- <-]. right. exists n. split; [done|]. right. right. right. by exists a0, b0.
Qed.

(** The recurrence: the distance of two words from the distances of their beginnings. *)
Lemma least_snoc {A} `{EqDecision A} (a b : list A) x y del ins rep (sw : option nat) :
  least a (b ++ [y]) del → least (a ++ [x]) b ins → least a b rep →
  (match sw with
   | Some s => ∃ a' b', a = a' ++ [y] ∧ b = b' ++ [x] ∧ least a' b' s
   | None => ¬ ∃ a' b', a = a' ++ [y] ∧ b = b' ++ [x]
   end) →
  let d := Nat.min (Nat.min (del + 1) (ins + 1)) (rep + (if decide (x = y) then 0 else 1)) in
  least (a ++ [x]) (b ++ [y]) (match sw with Some s => Nat.min d (S s) | None => d end).
Proof.
  intros [Hd Ld] [Hi Li] [Hr Lr] Hs. rewrite !(Nat.add_1_r del), !(Nat.add_1_r ins). intros d.
  assert (edits (a ++ [x]) (b ++ [y]) d) as Hdd.
  { unfold d. destruct (Nat.min_spec (Nat.min (S del) (S ins)) (rep + (if decide (x = y) then 0 else 1))) as [[_ ->]|[_ ->]].
    - destruct (Nat.min_spec (S del) (S ins)) as [[_ ->]|[_ ->]]; by constructor.
    - destruct (decide (x = y)) as [->|]; [rewrite Nat.add_0_r|rewrite Nat.add_1_r]; by constructor. }
  assert (∀ n, edits (a ++ [x]) (b ++ [y]) n → d ≤ n ∨ ∃ a' b' m, a = a' ++ [y] ∧ b = b' ++ [x] ∧ edits a' b' m ∧ n = S m) as Hlow.
  { intros n [[-> H]|(m & -> & [H|[H|[H|(a' & b' & ? & ? & H)]]])]%edits_snoc_inv; unfold d.
    - apply Lr in H. left. rewrite decide_True by done. lia.
    - apply Lr in H. left. destruct (decide (x = y)); lia.
    - apply Ld in H. left. lia.
    - apply Li in H. left. lia.
    - right. by exists a', b', m. }
  destruct sw as [s|].
  - destruct Hs as (a' & b' & -> & -> & [Hs Ls]). split.
    + destruct (Nat.min_spec d (S s)) as [[_ ->]|[_ ->]]; [done|]. rewrite <- !app_assoc. by constructor.
    + intros n [?|(a2 & b2 & m & E1 & E2 & H & ->)]%Hlow; [lia|]. apply app_inj_tail in E1 as [<- _], E2 as [<- _]. apply Ls in H. lia.
  - split; [done|]. intros n [?|(a2 & b2 & m & E1 & E2 & _)]%Hlow; [done|]. exfalso. apply Hs. by exists a2, b2.
Qed.

(** ** The table *)

Lemma lookup_nth (l : list Z) i : i < length l → l !! i = Some (nth i l 0%Z).
Proof. intros Hi. destruct (nth_lookup_or_length l i 0%Z) as [E|?]; [done|lia]. Qed.

Lemma take_snoc_nth i (l : list Z) : i < length l → take (S i) l = take i l ++ [nth i l 0%Z].
Proof. intros Hi. apply take_S_r. by apply lookup_nth. Qed.

Lemma take_snoc_inv i (l l' : list Z) y : i ≤ length l → take i l = l' ++ [y] ↔ ∃ i', i = S i' ∧ l' = take i' l ∧ nth i' l 0%Z = y.
Proof.
  intros Hi. split.
  - destruct i as [|i]; [intros E; by apply app_cons_not_nil in E|]. rewrite take_snoc_nth by lia. intros [<- <-]%app_inj_tail. by exists i.
  - intros (i' & -> & -> & <-). apply take_snoc_nth. lia.
Qed.

Lemma nth_insert {A} (l : list A) i j x d : i < length l → nth j (<[i := x]> l) d = if decide (j = i) then x else nth j l d.
Proof.
  intros Hi. rewrite !nth_lookup. destruct (decide (j = i)) as [->|Hne]; [by rewrite list_lookup_insert_eq|by rewrite list_lookup_insert_ne].
Qed.

Section table.
Variables a b : list Z.

(** The first [m + 1] cells of row [i]. *)
Definition row_ok (i : nat) (row : list nat) (m : nat) : Prop :=
  length row = length b + 1 ∧ ∀ j, j ≤ m → least (take i a) (take j b) (nth j row 0).

Lemma edit_cell_ok i j before_prev prev cur : S i ≤ length a → S j ≤ length b →
  (0 < i → row_ok (i - 1) before_prev (length b)) → row_ok i prev (length b) → row_ok (S i) cur j → row_ok (S i) (edit_cell a b before_prev prev (S i) cur (S j)) (S j).
Proof.
  intros Hi Hj Hbp [Hlp Hp] [Hlc Hc]. unfold edit_cell. cbv zeta. cbn [Nat.sub]. rewrite !Nat.sub_0_r.
  set (x := nth i a 0%Z). set (y := nth j b 0%Z).
  replace (if Z.eqb x y then 0 else 1) with (if decide (x = y) then 0 else 1) by (destruct (decide (x = y)), (Z.eqb_spec x y); congruence).
  set (d := Nat.min (Nat.min (nth (S j) prev 0 + 1) _) _). set (swapped := andb _ _). split; [by rewrite length_insert|].
  intros j' Hj'. destruct (decide (j' = S j)) as [->|Hne].
  2:{ rewrite nth_insert, decide_False by lia. apply Hc. lia. }
  rewrite nth_insert, decide_True by lia. rewrite !take_snoc_nth by lia. fold x y.
  assert (least (take i a) (take j b ++ [y]) (nth (S j) prev 0)) as Ld by (unfold y; rewrite <- take_snoc_nth by lia; apply Hp; lia).
  assert (least (take i a ++ [x]) (take j b) (nth j cur 0)) as Li by (unfold x; rewrite <- take_snoc_nth by lia; apply Hc; lia).
  pose proof (Hp j ltac:(lia)) as Lr. pose proof (least_snoc _ _ x y _ _ _ (if swapped then Some (nth (j - 1) before_prev 0) else None) Ld Li Lr) as Hsn.
  cbv zeta in Hsn. fold d in Hsn. destruct swapped eqn:Esw; [rewrite Nat.add_1_r|]; apply Hsn.
  - unfold swapped in Esw. apply andb_prop in Esw as [[[Hi2 Hj2]%andb_prop Exy]%andb_prop Eyx]. apply Nat.leb_le in Hi2, Hj2. apply Z.eqb_eq in Exy, Eyx.
    exists (take (i - 1) a), (take (j - 1) b). split; [|split; [|apply Hbp; lia]]; apply take_snoc_inv; try lia.
    + exists (i - 1). split_and!; [lia|done|exact Eyx].
    + exists (j - 1). split_and!; [lia|done|symmetry; exact Exy].
  - intros (a' & b' & (i' & -> & _ & E1)%take_snoc_inv & (j'' & -> & _ & E2)%take_snoc_inv); [|lia..].
    revert Esw. unfold swapped. cbn [Nat.sub Nat.leb andb]. rewrite !Nat.sub_0_r. fold x y. rewrite E1, E2, !Z.eqb_refl. done.
Qed.

Lemma edit_row_ok i before_prev prev cur : S i ≤ length a → length cur = length b + 1 →
  (0 < i → row_ok (i - 1) before_prev (length b)) → row_ok i prev (length b) →
  row_ok (S i) (foldl (edit_cell a b before_prev prev (S i)) (<[0 := S i]> cur) (seq 1 (length b))) (length b).
Proof.
  intros Hi Hl Hbp Hp. assert (∀ k, k ≤ length b → row_ok (S i) (foldl (edit_cell a b before_prev prev (S i)) (<[0 := S i]> cur) (seq 1 k)) k) as H; [|by apply H].
  induction k as [|k IH]; intros Hk.
  - cbn [seq foldl]. split; [by rewrite length_insert|]. intros j ->%Nat.le_0_r. rewrite nth_insert, decide_True by lia. rewrite take_0.
    rewrite <- (length_take_le a (S i) Hi) at 2. apply least_nil_r.
  - rewrite seq_S, foldl_app. cbn [foldl]. apply edit_cell_ok; [done|lia|done|done|]. apply IH. lia.
Qed.

Lemma edit_rows_ok k : k ≤ length a → ∃ before_prev prev cur,
  foldl (edit_row a b) (replicate (length b + 1) 0, seq 0 (length b + 1), replicate (length b + 1) 0) (seq 1 k) = (before_prev, prev, cur) ∧
  length cur = length b + 1 ∧ length before_prev = length b + 1 ∧ (0 < k → row_ok (k - 1) before_prev (length b)) ∧ row_ok k prev (length b).
Proof.
  induction k as [|k IH]; intros Hk.
  - eexists _, _, _. split; [reflexivity|]. rewrite !length_replicate. split; [done|]. split; [done|]. split; [lia|]. split; [apply length_seq|].
    intros j Hj. rewrite seq_nth by lia. rewrite take_0. cbn [Nat.add]. rewrite <- (length_take_le b j Hj) at 2. apply least_nil_l.
  - destruct IH as (bp & prev & cur & E & Hc & Hb & Hbp & Hp); [lia|]. rewrite seq_S, foldl_app, E. cbn [foldl edit_row].
    eexists _, _, _. split; [reflexivity|]. split; [done|]. split; [apply Hp|]. split; [intros _; by rewrite Nat.sub_succ, Nat.sub_0_r|].
    apply edit_row_ok; [lia|done|done|done].
Qed.
End table.

Lemma edit_distance_spec a b : least (ascii_bytes a) (ascii_bytes b) (edit_distance a b).
Proof.
  unfold edit_distance. destruct (edit_rows_ok (ascii_bytes a) (ascii_bytes b) (length (ascii_bytes a)) (le_n _)) as (bp & prev & cur & -> & _ & _ & _ & [_ Hp]).
  specialize (Hp _ (le_n _)). by rewrite !firstn_all in Hp.
Qed.

(** ** Suggestions *)

Lemma min_by_key_spec {A} (key : A → nat) l :
  match min_by_key key l with
  | None => l = []
  | Some x => ∃ pre post, l = pre ++ x :: post ∧ Forall (λ y, key x < key y) pre ∧ Forall (λ y, key x ≤ key y) post
  end.
Proof.
  induction l as [|y l IH]; [done|]. cbn [min_by_key]. destruct (min_by_key key l) as [x|] eqn:E.
  - destruct IH as (pre & post & -> & Hpre & Hpost). destruct (Nat.leb_spec (key y) (key x)) as [Hle|Hlt].
    + exists [], (pre ++ x :: post). split; [done|]. split; [done|]. apply Forall_app. split; [eapply Forall_impl; [exact Hpre|]; cbn; lia|].
      constructor; [done|]. eapply Forall_impl; [exact Hpost|]; cbn; lia.
    + exists (y :: pre), post. split; [done|]. split; [by constructor|done].
  - subst. by exists [], [].
Qed.

(** How far a suggestion may be: an edit for each three characters, at least one. *)
Definition limit (input : string) : nat := Nat.max (String.length (trim_start_matches "-"%char input) / 3) 1.

Lemma filter_pairs limit input candidates pre post d x :
  List.filter (λ x, Nat.leb x.1 limit) (map (λ c, (edit_distance input c, c)) candidates) = pre ++ (d, x) :: post →
  ∃ pre' post', candidates = pre' ++ x :: post' ∧ d = edit_distance input x ∧ d ≤ limit ∧
    pre = List.filter (λ x, Nat.leb x.1 limit) (map (λ c, (edit_distance input c, c)) pre') ∧
    post = List.filter (λ x, Nat.leb x.1 limit) (map (λ c, (edit_distance input c, c)) post').
Proof.
  revert pre. induction candidates as [|c cs IH]; intros pre; cbn [map List.filter fst]; [intros E; by apply app_cons_not_nil in E|].
  destruct (Nat.leb_spec (edit_distance input c) limit) as [Hle|Hgt].
  - destruct pre as [|p pre]; cbn [app].
    + intros [= <- <- <-]. by exists [], cs.
    + intros [= <- E]. destruct (IH _ E) as (pre' & post' & -> & -> & Hl & -> & ->). exists (c :: pre'), post'. cbn [app map List.filter fst].
      destruct (Nat.leb_spec (edit_distance input c) limit); [done|lia].
  - intros E. destruct (IH _ E) as (pre' & post' & -> & -> & Hl & -> & ->). exists (c :: pre'), post'. cbn [app map List.filter fst].
    destruct (Nat.leb_spec (edit_distance input c) limit); [lia|done].
Qed.

Lemma filter_bound input (l : nat) cs (P : nat → Prop) :
  Forall (λ y : nat * string, P y.1) (List.filter (λ x, Nat.leb x.1 l) (map (λ c, (edit_distance input c, c)) cs)) → (∀ n, l < n → P n) →
  Forall (λ c, P (edit_distance input c)) cs.
Proof.
  intros Hf Hl. induction cs as [|c cs IH]; [done|]. cbn [map List.filter fst] in Hf.
  destruct (Nat.leb_spec (edit_distance input c) l) as [Hle|Hgt]; [apply Forall_cons in Hf as [? ?]; by constructor; [|apply IH]|constructor; auto].
Qed.

Lemma suggest_spec input candidates :
  match suggest input candidates with
  | Some c => ∃ pre post, candidates = pre ++ c :: post ∧ edit_distance input c ≤ limit input ∧
      Forall (λ c', edit_distance input c < edit_distance input c') pre ∧ Forall (λ c', edit_distance input c ≤ edit_distance input c') post
  | None => Forall (λ c, limit input < edit_distance input c) candidates
  end.
Proof.
  unfold suggest. change (Nat.max _ 1) with (limit input). set (l := List.filter _ _).
  pose proof (min_by_key_spec fst l) as Hm. destruct (min_by_key fst l) as [[d c]|]; cbn [fmap option_fmap option_map snd].
  - destruct Hm as (pre & post & E & Hpre & Hpost). destruct (filter_pairs _ _ _ _ _ _ _ E) as (pre' & post' & -> & -> & Hle & -> & ->).
    exists pre', post'. split; [done|]. split; [done|]. cbn [fst] in *. split.
    + apply (filter_bound input (limit input) pre' (λ n, edit_distance input c < n)); [exact Hpre|lia].
    + apply (filter_bound input (limit input) post' (λ n, edit_distance input c ≤ n)); [exact Hpost|lia].
  - apply (filter_bound input (limit input) candidates (λ n, limit input < n)); [|done]. fold l. by rewrite Hm.
Qed.

(** ** Properties *)

(** The distance of two words, computed over three rows, is the least number of edits that make one from the other, where an edit
    replaces, deletes or inserts one byte or swaps two neighbouring ones and no byte is edited twice. *)
Theorem edit_distance_exact (a b : string) :
  edits (ascii_bytes a) (ascii_bytes b) (edit_distance a b) ∧ ∀ n, edits (ascii_bytes a) (ascii_bytes b) n → edit_distance a b ≤ n.
Proof. apply edit_distance_spec. Qed.

(** The suggestion is the first of the closest candidates, if one is within the limit; there is none only when all are further
    away. *)
Theorem suggest_exact (input : string) (candidates : list string) :
  match suggest input candidates with
  | Some c => ∃ pre post, candidates = pre ++ c :: post ∧ edit_distance input c ≤ limit input ∧
      Forall (λ c', edit_distance input c < edit_distance input c') pre ∧ Forall (λ c', edit_distance input c ≤ edit_distance input c') post
  | None => Forall (λ c, limit input < edit_distance input c) candidates
  end.
Proof. apply suggest_spec. Qed.

Example edit_distance_transposed : edit_distance "encrpyt" "encrypt" = 1.
Proof. reflexivity. Qed.

Example suggest_flag : suggest "--kye" ["--in"; "--key"; "--out"]%string = Some "--key"%string.
Proof. reflexivity. Qed.
