(* ===== verification/CliArgs.v ===== *)
(** The command line ([uacrypt/src/lib.rs]): the scanner of flags, its typed accessors, and the arguments of each command.  Words are
    strings, a path is the bytes of one.  The flag tables are those of the source. *)

From Stdlib Require Import Ascii.
From stdpp Require Import strings gmap.
From S2P Require Import Prelude Keyfile CliError Suggest.
#[local] Open Scope Z_scope.
#[local] Open Scope uacrypt_scope.

#[local] Set Warnings "-clear-no-such-hyp".

#[local] Notation "x ←? r ; k" := (result_bind r (λ x, k)) (at level 20, r at level 100, k at level 200, right associativity).

(** ** Variants *)

Inductive KalynaVariant : Type := K128_128 | K128_256 | K256_256 | K256_512 | K512_512.

Module KalynaVariant.
Definition parse (s : string) : option KalynaVariant :=
  if String.eqb s "128-128" then Some K128_128
  else if String.eqb s "128-256" then Some K128_256
  else if String.eqb s "256-256" then Some K256_256
  else if String.eqb s "256-512" then Some K256_512
  else if String.eqb s "512-512" then Some K512_512
  else None.

Definition key_len (self : KalynaVariant) : nat :=
  match self with
  | K128_128 => 16
  | K128_256 | K256_256 => 32
  | K256_512 | K512_512 => 64
  end.

Definition block_len (self : KalynaVariant) : nat :=
  match self with
  | K128_128 | K128_256 => 16
  | K256_256 | K256_512 => 32
  | K512_512 => 64
  end.

Definition ccm_tag_len (self : KalynaVariant) : nat :=
  match self with
  | K128_128 | K128_256 | K256_256 => 16
  | K256_512 => 32
  | K512_512 => 64
  end.
End KalynaVariant.

Inductive HashBits : Type := B256 | B512.

Module HashBits.
Definition parse (s : string) : option HashBits :=
  if String.eqb s "256" then Some B256 else if String.eqb s "512" then Some B512 else None.
End HashBits.

Inductive Source : Type := Stdin | FromFile (p : path).
Inductive Sink : Type := Stdout | ToPath (p : path).

(** ** Scanning *)

Record ArgScanner : Type := { values : gmap string string; flags : gmap string bool }.

(** [str::split_once], at the first [c]. *)
Fixpoint split_once (c : ascii) (s : string) : option (string * string) :=
  match s with
  | EmptyString => None
  | String x rest => if Ascii.eqb x c then Some (EmptyString, rest) else '(n, v) ← split_once c rest; Some (String x n, v)
  end.

(** The name of a word, and the value behind its [=]. *)
Definition name_and_inline (token : string) : string * option string :=
  match split_once "="%char token with
  | Some (n, v) => if String.prefix "--" n then (n, Some v) else (token, None)
  | None => (token, None)
  end.

(** [flags.insert(flag, true)] and [values.insert(flag, value)], with the checks around them. *)
Definition insert_flag (self : ArgScanner) (flag : string) : result ArgScanner CliError :=
  if bool_decide (flags self !! flag = Some true) then Err (RepeatedFlag flag)
  else Ok {| values := values self; flags := <[flag := true]> (flags self) |}.

Definition insert_value (self : ArgScanner) (flag value : string) : result ArgScanner CliError :=
  if String.eqb value "" then Err (MissingValue flag)
  else match values self !! flag with
    | Some _ => Err (RepeatedFlag flag)
    | None => Ok {| values := <[flag := value]> (values self); flags := flags self |}
    end.

Section scan.
Variables value_flags bool_flags : list string.

(** The loop, on the words that are left. *)
Fixpoint scan_loop (args : list string) (self : ArgScanner) : result ArgScanner CliError :=
  match args with
  | [] => Ok self
  | token :: args =>
      let '(name, inline) := name_and_inline token in
      match List.find (λ f, String.eqb f name) bool_flags with
      | Some flag =>
          match inline with
          | Some _ => Err (FlagTakesNoValue flag)
          | None => match insert_flag self flag with Err e => Err e | Ok self => scan_loop args self end
          end
      | None =>
          match List.find (λ f, String.eqb f name) value_flags with
          | Some flag =>
              match inline with
              | Some v => match insert_value self flag v with Err e => Err e | Ok self => scan_loop args self end
              | None =>
                  let value := match args with v :: _ => if String.prefix "--" v then EmptyString else v | [] => EmptyString end in
                  match insert_value self flag value with
                  | Err e => Err e
                  | Ok self => match args with _ :: args => scan_loop args self | [] => Ok self end
                  end
              end
          | None =>
              if String.prefix "-" token then Err (UnknownFlag name (suggest name ((value_flags ++ bool_flags) ++ ["--help"%string])))
              else Err (UnexpectedArgument token)
          end
      end
  end.

Definition scan (args : list string) : result ArgScanner CliError :=
  scan_loop args {| values := ∅; flags := list_to_map (map (λ f, (f, false)) bool_flags) |}.
End scan.

(** ** The typed accessors *)

Definition path_of (s : string) : path := ascii_bytes s.
Definition is_dash (v : option string) : bool := match v with Some s => String.eqb s "-" | None => false end.

(** [&flag[2..]]. *)
Definition without_dashes (flag : string) : string := String.substring 2 (String.length flag - 2) flag.

Definition path_opt (self : ArgScanner) (flag : string) : result (option path) CliError :=
  let v := values self !! flag in
  if is_dash v then Err (StdioNotAccepted flag) else Ok (path_of <$> v).

Definition get_path (self : ArgScanner) (flag : string) : result path CliError :=
  p ←? path_opt self flag;
  match p with Some p => Ok p | None => Err (MissingFlag (without_dashes flag)) end.

Definition input (self : ArgScanner) (flag : string) : result Source CliError :=
  if is_dash (values self !! flag) then Ok Stdin else p ←? get_path self flag; Ok (FromFile p).

Definition output (self : ArgScanner) (flag : string) : result Sink CliError :=
  if is_dash (values self !! flag) then Ok Stdout else p ←? get_path self flag; Ok (ToPath p).

Definition secret_key_path (self : ArgScanner) (flag : string) : result path CliError :=
  if is_dash (values self !! flag) then Err SecretKeyToStdout else get_path self flag.

Definition bool_flag (self : ArgScanner) (flag : string) : bool := default false (flags self !! flag).

Definition output_and_force (self : ArgScanner) : result (Sink * bool) CliError :=
  out ←? output self "--out";
  let force := bool_flag self "--force" in
  if force && match out with Stdout => true | ToPath _ => false end then Err ForceWithStdout else Ok (out, force).

Definition variant {T} (self : ArgScanner) (parse : string → option T) : result T CliError :=
  match values self !! "--variant"%string with
  | None => Err (MissingFlag "variant")
  | Some v => match parse v with Some x => Ok x | None => Err (UnknownVariant v) end
  end.

(** [str::parse::<u32>]: an optional [+], then decimal digits; [None] on anything else and on overflow. *)
Definition digit (c : ascii) : option Z :=
  let x := Z.of_N (Ascii.N_of_ascii c) - 0x30 in if Z.leb 0 x && Z.leb x 9 then Some x else None.

Fixpoint parse_digits (acc : Z) (s : string) : option Z :=
  match s with
  | EmptyString => Some acc
  | String c s =>
      d ← digit c;
      let acc := acc * 10 + d in
      if Z.ltb acc (2 ^ 32) then parse_digits acc s else None
  end.

Definition parse_u32 (s : string) : option Z :=
  let digits := match s with String "+"%char rest => rest | _ => s end in
  match digits with EmptyString => None | _ => parse_digits 0 digits end.

Definition iterations (self : ArgScanner) : result Z CliError :=
  match values self !! "--iterations"%string with
  | Some v => match parse_u32 v with Some n => Ok n | None => Err (InvalidIterations v) end
  | None => Ok 1
  end.

Definition key_kind (self : ArgScanner) : result KeyKind CliError :=
  match values self !! "--kind"%string with
  | None => Err (MissingFlag "kind")
  | Some v => match parse_name v with Some k => Ok k | None => Err (UnknownKeyKind v (suggest v (map name ALL_KINDS))) end
  end.

(** ** The tables of flags *)

Module Flags.
Record Flags : Type := { values : list string; bools : list string; hidden : list string; choices : list (string * list string) }.

(** [Flags::visible]. *)
Definition visible (self : Flags) : list string := List.filter (λ f, negb (existsb (String.eqb f) (hidden self))) (values self ++ bools self).
End Flags.

#[local] Open Scope string_scope.

Definition KALYNA_VARIANTS : list string := ["128-128"; "128-256"; "256-256"; "256-512"; "512-512"].
Definition BIT_VARIANTS : list string := ["256"; "512"].
Definition KEY_KINDS : list string :=
  ["symmetric"; "sign163-secret"; "sign163-public"; "sign257-secret"; "sign257-public"; "box256-secret"; "box256-public"; "box384-secret"; "box384-public";
   "box512-secret"; "box512-public"].

Definition NO_FLAGS : Flags.Flags := {| Flags.values := []; Flags.bools := []; Flags.hidden := []; Flags.choices := [] |}.
Definition OUT_ONLY_FLAGS : Flags.Flags := {| Flags.values := ["--out"]; Flags.bools := []; Flags.hidden := []; Flags.choices := [] |}.
Definition PUBKEY_FLAGS : Flags.Flags := {| Flags.values := ["--key"; "--out"]; Flags.bools := []; Flags.hidden := []; Flags.choices := [] |}.
Definition ENCRYPT_FLAGS : Flags.Flags :=
  {| Flags.values := ["--key"; "--passphrase-file"; "--in"; "--out"]; Flags.bools := ["--passphrase"; "--force"]; Flags.hidden := []; Flags.choices := [] |}.
Definition DECRYPT_FLAGS : Flags.Flags :=
  {| Flags.values := Flags.values ENCRYPT_FLAGS; Flags.bools := Flags.bools ENCRYPT_FLAGS; Flags.hidden := ["--passphrase"]; Flags.choices := Flags.choices ENCRYPT_FLAGS |}.
Definition HASH_FLAGS : Flags.Flags := {| Flags.values := ["--in"; "--check"]; Flags.bools := []; Flags.hidden := []; Flags.choices := [] |}.
Definition SIGN_FLAGS : Flags.Flags :=
  {| Flags.values := ["--key"; "--in"; "--out"; "--iterations"]; Flags.bools := ["--force"]; Flags.hidden := ["--iterations"]; Flags.choices := [] |}.
Definition VERIFY_FLAGS : Flags.Flags :=
  {| Flags.values := ["--key"; "--in"; "--sig"; "--iterations"]; Flags.bools := []; Flags.hidden := ["--iterations"]; Flags.choices := [] |}.
Definition KEY_IMPORT_FLAGS : Flags.Flags :=
  {| Flags.values := ["--kind"; "--in"; "--out"]; Flags.bools := []; Flags.hidden := []; Flags.choices := [("--kind", KEY_KINDS)] |}.
Definition BLOCK_FLAGS : Flags.Flags :=
  {| Flags.values := ["--variant"; "--key"; "--in"; "--out"; "--iterations"]; Flags.bools := ["--raw-schedule"; "--force"]; Flags.hidden := [];
     Flags.choices := [("--variant", KALYNA_VARIANTS)] |}.
Definition KALYNA_AEAD_FLAGS : Flags.Flags :=
  {| Flags.values := ["--variant"; "--key"; "--nonce"; "--aad"; "--in"; "--out"; "--tag"; "--iterations"]; Flags.bools := ["--force"]; Flags.hidden := [];
     Flags.choices := [("--variant", KALYNA_VARIANTS)] |}.
Definition with_values (values : list string) (f : Flags.Flags) : Flags.Flags :=
  {| Flags.values := values; Flags.bools := Flags.bools f; Flags.hidden := Flags.hidden f; Flags.choices := Flags.choices f |}.
Definition GMAC_FLAGS : Flags.Flags := with_values ["--variant"; "--key"; "--in"; "--out"; "--tag"; "--iterations"] KALYNA_AEAD_FLAGS.
Definition KW_FLAGS : Flags.Flags := with_values ["--variant"; "--key"; "--in"; "--out"; "--iterations"] KALYNA_AEAD_FLAGS.
Definition XTS_FLAGS : Flags.Flags := with_values ["--variant"; "--key"; "--tweak"; "--in"; "--out"; "--iterations"] KALYNA_AEAD_FLAGS.
Definition DIGEST_FLAGS : Flags.Flags :=
  {| Flags.values := ["--variant"; "--in"; "--out"; "--iterations"]; Flags.bools := ["--force"]; Flags.hidden := []; Flags.choices := [("--variant", BIT_VARIANTS)] |}.
Definition STRUMOK_FLAGS : Flags.Flags :=
  {| Flags.values := ["--variant"; "--key"; "--iv"; "--in"; "--out"; "--iterations"]; Flags.bools := ["--raw-schedule"; "--force"]; Flags.hidden := [];
     Flags.choices := [("--variant", BIT_VARIANTS)] |}.

Definition scan_flags (f : Flags.Flags) (args : list string) : result ArgScanner CliError := scan (Flags.values f) (Flags.bools f) args.

(** ** The arguments of the commands *)

Record BlockArgs : Type := {
  block_variant : KalynaVariant; block_key_path : path; block_in_path : path; block_out_path : path; block_iterations : Z; block_raw_schedule : bool; block_force : bool
}.
Definition parse_block_args (args : list string) : result BlockArgs CliError :=
  scanner ←? scan_flags BLOCK_FLAGS args;
  v ←? variant scanner KalynaVariant.parse;
  key ←? get_path scanner "--key";
  i ←? get_path scanner "--in";
  o ←? get_path scanner "--out";
  n ←? iterations scanner;
  Ok {| block_variant := v; block_key_path := key; block_in_path := i; block_out_path := o; block_iterations := n;
        block_raw_schedule := bool_flag scanner "--raw-schedule"; block_force := bool_flag scanner "--force" |}.

(** [CcmArgs] and [GcmArgs] have the same fields and the same parser. *)
Record AeadArgs : Type := {
  aead_variant : KalynaVariant; aead_key_path : path; aead_nonce_path : path; aead_aad_path : option path; aead_in_path : path; aead_out_path : path;
  aead_tag_path : path; aead_iterations : Z; aead_force : bool
}.
Definition parse_ccm_args (args : list string) : result AeadArgs CliError :=
  scanner ←? scan_flags KALYNA_AEAD_FLAGS args;
  v ←? variant scanner KalynaVariant.parse;
  key ←? get_path scanner "--key";
  nonce ←? get_path scanner "--nonce";
  aad ←? path_opt scanner "--aad";
  i ←? get_path scanner "--in";
  o ←? get_path scanner "--out";
  tag ←? get_path scanner "--tag";
  n ←? iterations scanner;
  Ok {| aead_variant := v; aead_key_path := key; aead_nonce_path := nonce; aead_aad_path := aad; aead_in_path := i; aead_out_path := o; aead_tag_path := tag;
        aead_iterations := n; aead_force := bool_flag scanner "--force" |}.
Definition parse_gcm_args (args : list string) : result AeadArgs CliError := parse_ccm_args args.

Record GmacArgs : Type := {
  gmac_variant : KalynaVariant; gmac_key_path : path; gmac_in_path : path; gmac_out_path : option path; gmac_tag_path : option path; gmac_iterations : Z; gmac_force : bool
}.
Definition parse_gmac_args (args : list string) : result GmacArgs CliError :=
  scanner ←? scan_flags GMAC_FLAGS args;
  v ←? variant scanner KalynaVariant.parse;
  key ←? get_path scanner "--key";
  i ←? get_path scanner "--in";
  o ←? path_opt scanner "--out";
  tag ←? path_opt scanner "--tag";
  n ←? iterations scanner;
  Ok {| gmac_variant := v; gmac_key_path := key; gmac_in_path := i; gmac_out_path := o; gmac_tag_path := tag; gmac_iterations := n;
        gmac_force := bool_flag scanner "--force" |}.

Record KwArgs : Type := { kw_variant : KalynaVariant; kw_key_path : path; kw_in_path : path; kw_out_path : path; kw_iterations : Z; kw_force : bool }.
Definition parse_kw_args (args : list string) : result KwArgs CliError :=
  scanner ←? scan_flags KW_FLAGS args;
  v ←? variant scanner KalynaVariant.parse;
  key ←? get_path scanner "--key";
  i ←? get_path scanner "--in";
  o ←? get_path scanner "--out";
  n ←? iterations scanner;
  Ok {| kw_variant := v; kw_key_path := key; kw_in_path := i; kw_out_path := o; kw_iterations := n; kw_force := bool_flag scanner "--force" |}.

Record XtsArgs : Type := {
  xts_variant : KalynaVariant; xts_key_path : path; xts_tweak_path : path; xts_in_path : path; xts_out_path : path; xts_iterations : Z; xts_force : bool
}.
Definition parse_xts_args (args : list string) : result XtsArgs CliError :=
  scanner ←? scan_flags XTS_FLAGS args;
  v ←? variant scanner KalynaVariant.parse;
  key ←? get_path scanner "--key";
  tweak ←? get_path scanner "--tweak";
  i ←? get_path scanner "--in";
  o ←? get_path scanner "--out";
  n ←? iterations scanner;
  Ok {| xts_variant := v; xts_key_path := key; xts_tweak_path := tweak; xts_in_path := i; xts_out_path := o; xts_iterations := n; xts_force := bool_flag scanner "--force" |}.

Record DigestArgs : Type := { digest_variant : HashBits; digest_in_path : path; digest_out_path : path; digest_iterations : Z; digest_force : bool }.
Definition parse_digest_args (args : list string) : result DigestArgs CliError :=
  scanner ←? scan_flags DIGEST_FLAGS args;
  v ←? variant scanner HashBits.parse;
  i ←? get_path scanner "--in";
  o ←? get_path scanner "--out";
  n ←? iterations scanner;
  Ok {| digest_variant := v; digest_in_path := i; digest_out_path := o; digest_iterations := n; digest_force := bool_flag scanner "--force" |}.

Record StrumokArgs : Type := {
  strumok_variant : HashBits; strumok_key_path : path; strumok_iv_path : path; strumok_in_path : path; strumok_out_path : path; strumok_iterations : Z;
  strumok_raw_schedule : bool; strumok_force : bool
}.
Definition parse_strumok_args (args : list string) : result StrumokArgs CliError :=
  scanner ←? scan_flags STRUMOK_FLAGS args;
  v ←? variant scanner HashBits.parse;
  key ←? get_path scanner "--key";
  iv ←? get_path scanner "--iv";
  i ←? get_path scanner "--in";
  o ←? get_path scanner "--out";
  n ←? iterations scanner;
  Ok {| strumok_variant := v; strumok_key_path := key; strumok_iv_path := iv; strumok_in_path := i; strumok_out_path := o; strumok_iterations := n;
        strumok_raw_schedule := bool_flag scanner "--raw-schedule"; strumok_force := bool_flag scanner "--force" |}.

Inductive Credential : Type := Key (p : path) | PassphraseFromFile (p : path) | PassphraseTerminal.
Record SecretstreamArgs : Type := { credential : Credential; stream_in_path : Source; stream_out_path : Sink; stream_force : bool }.

Definition secretstream_args (scanner : ArgScanner) (c : Credential) : result SecretstreamArgs CliError :=
  i ←? input scanner "--in";
  out ←? output_and_force scanner;
  Ok {| credential := c; stream_in_path := i; stream_out_path := out.1; stream_force := out.2 |}.

Definition parse_encrypt_args (args : list string) : result SecretstreamArgs CliError :=
  scanner ←? scan_flags ENCRYPT_FLAGS args;
  key ←? path_opt scanner "--key";
  let passphrase := bool_flag scanner "--passphrase" in
  file ←? path_opt scanner "--passphrase-file";
  c ←? match key, passphrase, file with
       | Some key, false, None => Ok (Key key)
       | None, true, None => Ok PassphraseTerminal
       | None, false, Some file => Ok (PassphraseFromFile file)
       | None, false, None => Err (MissingOneOf "key" "passphrase")
       | Some _, true, _ => Err (ExclusiveFlags "key" "passphrase")
       | Some _, false, Some _ => Err (ExclusiveFlags "key" "passphrase-file")
       | None, true, Some _ => Err (ExclusiveFlags "passphrase" "passphrase-file")
       end;
  secretstream_args scanner c.

Definition parse_decrypt_args (args : list string) : result SecretstreamArgs CliError :=
  scanner ←? scan_flags DECRYPT_FLAGS args;
  if bool_flag scanner "--passphrase" then Err PassphraseFlagOnDecrypt
  else
    key ←? path_opt scanner "--key";
    file ←? path_opt scanner "--passphrase-file";
    c ←? match key, file with
         | Some key, None => Ok (Key key)
         | None, Some file => Ok (PassphraseFromFile file)
         | None, None => Ok PassphraseTerminal
         | Some _, Some _ => Err (ExclusiveFlags "key" "passphrase-file")
         end;
    secretstream_args scanner c.

Inductive HashArgs : Type := File (s : Source) | CheckList (list : Source).
Definition parse_hash_args (args : list string) : result HashArgs CliError :=
  scanner ←? scan_flags HASH_FLAGS args;
  let input_opt flag := match values scanner !! flag with Some _ => s ←? input scanner flag; Ok (Some s) | None => Ok None end in
  i ←? input_opt "--in";
  c ←? input_opt "--check";
  match i, c with
  | Some source, None => Ok (File source)
  | None, Some list => Ok (CheckList list)
  | Some _, Some _ => Err (ExclusiveFlags "in" "check")
  | None, None => Err (MissingOneOf "in" "check")
  end.

(** [KeygenArgs], [SignKeygenArgs] and [BoxKeygenArgs] are one path. *)
Definition parse_keygen_args (args : list string) : result path CliError :=
  scanner ←? scan_flags OUT_ONLY_FLAGS args; secret_key_path scanner "--out".
Definition parse_sign_keygen_args (args : list string) : result path CliError :=
  scanner ←? scan_flags OUT_ONLY_FLAGS args; secret_key_path scanner "--out".
Definition parse_box_keygen_args (args : list string) : result path CliError :=
  scanner ←? scan_flags OUT_ONLY_FLAGS args; secret_key_path scanner "--out".

Record PubkeyArgs : Type := { pubkey_key_path : path; pubkey_out_path : Sink }.
Definition parse_sign_pubkey_args (args : list string) : result PubkeyArgs CliError :=
  scanner ←? scan_flags PUBKEY_FLAGS args;
  key ←? get_path scanner "--key";
  o ←? output scanner "--out";
  Ok {| pubkey_key_path := key; pubkey_out_path := o |}.
Definition parse_box_pubkey_args (args : list string) : result PubkeyArgs CliError :=
  scanner ←? scan_flags PUBKEY_FLAGS args;
  key ←? get_path scanner "--key";
  o ←? output scanner "--out";
  Ok {| pubkey_key_path := key; pubkey_out_path := o |}.

Record KeyImportArgs : Type := { import_kind : KeyKind; import_in_path : path; import_out_path : Sink }.
Definition parse_key_import_args (args : list string) : result KeyImportArgs CliError :=
  scanner ←? scan_flags KEY_IMPORT_FLAGS args;
  kind ←? key_kind scanner;
  i ←? get_path scanner "--in";
  o ←? (if is_secret kind then p ←? secret_key_path scanner "--out"; Ok (ToPath p) else output scanner "--out");
  Ok {| import_kind := kind; import_in_path := i; import_out_path := o |}.

(** [SignArgs], [BoxSealArgs] and [BoxOpenArgs] have the same fields. *)
Record SignArgs : Type := { sign_key_path : path; sign_in_path : Source; sign_out_path : Sink; sign_iterations : Z; sign_force : bool }.
Definition parse_sign_args (args : list string) : result SignArgs CliError :=
  scanner ←? scan_flags SIGN_FLAGS args;
  key ←? get_path scanner "--key";
  i ←? input scanner "--in";
  out ←? output_and_force scanner;
  n ←? iterations scanner;
  Ok {| sign_key_path := key; sign_in_path := i; sign_out_path := out.1; sign_iterations := n; sign_force := out.2 |}.
Definition parse_box_seal_args (args : list string) : result SignArgs CliError := parse_sign_args args.
Definition parse_box_open_args (args : list string) : result SignArgs CliError := parse_sign_args args.

Record VerifyArgs : Type := { verify_key_path : path; verify_in_path : Source; verify_sig_path : path; verify_iterations : Z }.
Definition parse_verify_args (args : list string) : result VerifyArgs CliError :=
  scanner ←? scan_flags VERIFY_FLAGS args;
  key ←? get_path scanner "--key";
  i ←? input scanner "--in";
  sig ←? get_path scanner "--sig";
  n ←? iterations scanner;
  Ok {| verify_key_path := key; verify_in_path := i; verify_sig_path := sig; verify_iterations := n |}.

#[local] Close Scope string_scope.

(** ** What a command line means *)

(** A flag, a flag with its value in the next word, or both in one word. *)
Inductive Item : Type := Flag (f : string) | Separate (f v : string) | Inline (f v : string).

Definition item_name (i : Item) : string := match i with Flag f | Separate f _ | Inline f _ => f end.
Definition item_value (i : Item) : option string := match i with Flag _ => None | Separate _ v | Inline _ v => Some v end.
Definition words (i : Item) : list string :=
  match i with Flag f => [f] | Separate f v => [f; v] | Inline f v => [(f ++ String "=" v)%string] end.

(** A name has two dashes in front and no [=], and no name is both kinds of flag. *)
Definition flag_name (f : string) : Prop := String.prefix "--" f = true ∧ split_once "="%char f = None.
#[global] Instance flag_name_dec f : Decision (flag_name f).
Proof. unfold flag_name. apply _. Defined.
Definition tables_ok (value_flags bool_flags : list string) : Prop :=
  Forall flag_name (value_flags ++ bool_flags) ∧ Forall (λ f, f ∉ bool_flags) value_flags ∧ NoDup bool_flags.
#[global] Instance tables_ok_dec v b : Decision (tables_ok v b).
Proof. unfold tables_ok. apply _. Defined.

Lemma append_cons x (s t : string) : (String x s ++ t)%string = String x (s ++ t).
Proof. reflexivity. Qed.

Lemma split_once_app c n v : split_once c n = None → split_once c (n ++ String c v)%string = Some (n, v).
Proof.
  induction n as [|x n IH]; [change (EmptyString ++ String c v)%string with (String c v); cbn [split_once]; by rewrite Ascii.eqb_refl|].
  rewrite append_cons. cbn [split_once]. destruct (Ascii.eqb x c); [done|]. intros H. destruct (split_once c n) as [[? ?]|]; [done|]. by rewrite IH.
Qed.

Lemma split_once_inv c s n v : split_once c s = Some (n, v) → s = (n ++ String c v)%string.
Proof.
  revert n. induction s as [|x s IH]; intros n; cbn [split_once]; [done|]. destruct (Ascii.eqb_spec x c) as [->|]; [by intros [= <- <-]|].
  destruct (split_once c s) as [[n' v']|] eqn:E; cbn [mbind option_bind]; [|done]. intros [= <- <-]. rewrite append_cons. f_equal. by apply IH.
Qed.

Lemma split_once_prefix c s n v : split_once c s = Some (n, v) → split_once c n = None.
Proof.
  revert n. induction s as [|x s IH]; intros n; cbn [split_once]; [done|]. destruct (Ascii.eqb x c) eqn:E; [by intros [= <- <-]|].
  destruct (split_once c s) as [[n' v']|]; cbn [mbind option_bind]; [|done]. intros [= <- <-]. cbn [split_once]. by rewrite E, (IH n').
Qed.

Lemma name_plain f : flag_name f → name_and_inline f = (f, None).
Proof. intros [_ E]. unfold name_and_inline. by rewrite E. Qed.

Lemma name_inline f v : flag_name f → name_and_inline (f ++ String "=" v)%string = (f, Some v).
Proof. intros [Ep E]. unfold name_and_inline. by rewrite split_once_app, Ep. Qed.

(** What the name of a word says about the word. *)
Lemma name_inv token name inline : name_and_inline token = (name, inline) →
  match inline with Some v => token = (name ++ String "=" v)%string | None => token = name end.
Proof.
  unfold name_and_inline. destruct (split_once "="%char token) as [[n v]|] eqn:E; [|by intros [= <- <-]].
  destruct (String.prefix "--" n); intros [= <- <-]; [by apply split_once_inv|done].
Qed.

Lemma find_eqb name l : List.find (λ f, String.eqb f name) l = if decide (name ∈ l) then Some name else None.
Proof.
  induction l as [|f l IH]; [done|]. cbn [List.find]. destruct (String.eqb_spec f name) as [->|Hne].
  - by rewrite decide_True by left.
  - rewrite IH. apply decide_ext. rewrite elem_of_cons. split; [by right|]. by intros [->|?].
Qed.

Section scanning.
Variables value_flags bool_flags : list string.
Hypothesis Htables : tables_ok value_flags bool_flags.

Lemma value_name f : f ∈ value_flags → flag_name f.
Proof. intros Hf. destruct Htables as [Hn _]. rewrite Forall_forall in Hn. apply Hn. apply elem_of_app. by left. Qed.
Lemma bool_name f : f ∈ bool_flags → flag_name f.
Proof. intros Hf. destruct Htables as [Hn _]. rewrite Forall_forall in Hn. apply Hn. apply elem_of_app. by right. Qed.
Lemma value_not_bool f : f ∈ value_flags → f ∉ bool_flags.
Proof. intros Hf. destruct Htables as (_ & Hn & _). rewrite Forall_forall in Hn. by apply Hn. Qed.

(** An item of the tables; a value in a word of its own does not look like a flag. *)
Definition item_ok (i : Item) : Prop :=
  match i with
  | Flag f => f ∈ bool_flags
  | Separate f v => f ∈ value_flags ∧ v ≠ EmptyString ∧ String.prefix "--" v = false
  | Inline f v => f ∈ value_flags ∧ v ≠ EmptyString
  end.

Definition new_item (self : ArgScanner) (i : Item) : Prop :=
  match i with Flag f => flags self !! f ≠ Some true | Separate f _ | Inline f _ => values self !! f = None end.

#[global] Instance new_item_dec self i : Decision (new_item self i).
Proof. destruct i; cbn [new_item]; apply _. Defined.

Definition with_item (self : ArgScanner) (i : Item) : ArgScanner :=
  match i with
  | Flag f => {| values := values self; flags := <[f := true]> (flags self) |}
  | Separate f v | Inline f v => {| values := <[f := v]> (values self); flags := flags self |}
  end.

(** Why the scanner stops at a word, when it has seen these flags. *)
Inductive problem (seen : list string) : list string → CliError → Prop :=
| problem_takes_no_value f v rest : f ∈ bool_flags → problem seen ((f ++ String "=" v)%string :: rest) (FlagTakesNoValue f)
| problem_repeated i rest : item_ok i → item_name i ∈ seen → problem seen (words i ++ rest) (RepeatedFlag (item_name i))
| problem_no_value f rest : f ∈ value_flags → (∀ v rest', rest = v :: rest' → v = EmptyString ∨ String.prefix "--" v = true) → problem seen (f :: rest) (MissingValue f)
| problem_empty_value f rest : f ∈ value_flags → problem seen ((f ++ String "=" EmptyString)%string :: rest) (MissingValue f)
| problem_unknown token rest : (name_and_inline token).1 ∉ bool_flags → (name_and_inline token).1 ∉ value_flags → String.prefix "-" token = true →
    problem seen (token :: rest) (UnknownFlag (name_and_inline token).1 (suggest (name_and_inline token).1 ((value_flags ++ bool_flags) ++ ["--help"%string])))
| problem_unexpected token rest : (name_and_inline token).1 ∉ bool_flags → (name_and_inline token).1 ∉ value_flags → String.prefix "-" token = false →
    problem seen (token :: rest) (UnexpectedArgument token).

Lemma insert_flag_spec self f : insert_flag self f = if decide (new_item self (Flag f)) then Ok (with_item self (Flag f)) else Err (RepeatedFlag f).
Proof. unfold insert_flag, new_item, with_item. case_bool_decide; destruct (decide _); done. Qed.

Lemma insert_value_spec self i f v : i = Separate f v ∨ i = Inline f v → v ≠ EmptyString →
  insert_value self f v = if decide (values self !! f = None) then Ok (with_item self i) else Err (RepeatedFlag f).
Proof.
  intros Hi Hv. unfold insert_value. destruct (String.eqb_spec v EmptyString); [done|].
  assert (with_item self i = {| values := <[f := v]> (values self); flags := flags self |}) as -> by by destruct Hi as [-> | ->].
  by destruct (values self !! f); destruct (decide _).
Qed.

(** One turn of the loop. *)
Lemma scan_loop_item self i rest : item_ok i →
  scan_loop value_flags bool_flags (words i ++ rest) self =
    if decide (new_item self i) then scan_loop value_flags bool_flags rest (with_item self i) else Err (RepeatedFlag (item_name i)).
Proof.
  intros Hi. destruct i as [f|f v|f v]; cbn [item_ok words app scan_loop item_name] in *.
  - rewrite name_plain by by apply bool_name. rewrite find_eqb, decide_True by done. rewrite insert_flag_spec. by destruct (decide _).
  - destruct Hi as (Hf & Hv & Hp). rewrite name_plain by by apply value_name. rewrite !find_eqb, decide_False, decide_True by (done || by apply value_not_bool).
    rewrite Hp, (insert_value_spec self (Separate f v)) by auto. cbn [new_item]. by destruct (decide _).
  - destruct Hi as (Hf & Hv). rewrite name_inline by by apply value_name. rewrite !find_eqb, decide_False, decide_True by (done || by apply value_not_bool).
    rewrite (insert_value_spec self (Inline f v)) by auto. cbn [new_item]. by destruct (decide _).
Qed.

(** At the end of the words, an item starts or a problem is reported. *)
Lemma scan_loop_turn self args : args = [] ∨
  (∃ i rest, args = words i ++ rest ∧ item_ok i) ∨ (∃ e, scan_loop value_flags bool_flags args self = Err e ∧ ∀ seen, problem seen args e).
Proof.
  destruct args as [|token args]; [by left|right]. cbn [scan_loop]. destruct (name_and_inline token) as [name inline] eqn:E. pose proof (name_inv _ _ _ E) as Et.
  rewrite !find_eqb. destruct (decide (name ∈ bool_flags)) as [Hb|Hb].
  { destruct inline as [v|]; subst token; [right; eexists; split; [done|intros seen; by constructor]|]. left. by exists (Flag name), args. }
  destruct (decide (name ∈ value_flags)) as [Hv|Hv].
  - destruct inline as [v|]; subst token.
    + destruct (decide (v = EmptyString)) as [->|Hne]; [right; eexists; split; [done|intros seen; by constructor]|]. left. by exists (Inline name v), args.
    + destruct args as [|v args]; [right; eexists; split; [done|intros seen; by constructor]|].
      destruct (String.prefix "--" v) eqn:Ep; [right; eexists; split; [done|intros seen; constructor; [done|]; intros ? ? [= <- <-]; by right]|].
      destruct (decide (v = EmptyString)) as [->|Hne]; [right; eexists; split; [done|intros seen; constructor; [done|]; intros ? ? [= <- <-]; by left]|].
      left. by exists (Separate name v), args.
  - right. assert (name = (name_and_inline token).1) as En by by rewrite E. rewrite En in *.
    destruct (String.prefix "-" token) eqn:Ep; eexists; (split; [done|]); intros seen; by constructor.
Qed.

(** The state holds the flags that were seen. *)
Definition knows (self : ArgScanner) (seen : list string) : Prop := ∀ i, item_ok i → new_item self i ↔ item_name i ∉ seen.

Lemma knows_with_item self seen i : item_ok i → knows self seen → knows (with_item self i) (seen ++ [item_name i]).
Proof.
  intros Hi Hk j Hj. rewrite not_elem_of_app, <- (Hk j Hj), list_elem_of_singleton.
  destruct i as [f|f v|f v], j as [g|g w|g w]; cbn [item_ok new_item with_item item_name values flags] in *; destruct_and?;
    try (rewrite lookup_insert; destruct (decide (f = g)) as [->|Hne]; [split; [done|by intros [_ ?]]|split; [intros ?; split; [done|congruence]|by intros [? _]]]);
    (split; [intros Hn; split; [exact Hn|intros ->; by eapply value_not_bool]|by intros [Hn _]]).
Qed.

Lemma scan_loop_spec n : ∀ args self seen, (length args ≤ n)%nat → NoDup seen → knows self seen →
  match scan_loop value_flags bool_flags args self with
  | Ok self' => ∃ items, Forall item_ok items ∧ NoDup (seen ++ map item_name items) ∧ args = concat (map words items) ∧ self' = foldl with_item self items
  | Err e => ∃ items rest, Forall item_ok items ∧ NoDup (seen ++ map item_name items) ∧ args = concat (map words items) ++ rest ∧
      problem (seen ++ map item_name items) rest e
  end.
Proof.
  induction n as [|n IH]; intros args self seen Hn Hnd Hk; (destruct (scan_loop_turn self args) as [->|[(i & rest & -> & Hi)|(e & E & Hp)]];
    [exists []; by rewrite app_nil_r| |rewrite E; exists [], args; rewrite app_nil_r; by split_and!]).
  - destruct i; cbn in Hn; lia.
  - rewrite scan_loop_item by done. destruct (decide (new_item self i)) as [Hnew|Hold].
    + assert (NoDup (seen ++ [item_name i])) as Hnd2. { apply NoDup_app. split; [done|]. split; [|apply NoDup_singleton]. intros x Hx ->%list_elem_of_singleton. by apply (Hk i Hi). }
      specialize (IH rest (with_item self i) (seen ++ [item_name i])). rewrite length_app in Hn. assert (0 < length (words i))%nat by (destruct i; cbn; lia).
      specialize (IH ltac:(lia) Hnd2 (knows_with_item _ _ _ Hi Hk)). destruct (scan_loop _ _ rest _) as [self'|e].
      * destruct IH as (items & Hok & Hd & -> & ->). exists (i :: items). rewrite <- app_assoc in Hd. by split_and!; [constructor| | |].
      * destruct IH as (items & rest' & Hok & Hd & -> & Hp). exists (i :: items), rest'. rewrite <- app_assoc in Hd, Hp. cbn [map concat foldl]. rewrite <- app_assoc.
        by split_and!; [constructor| | |].
    + exists [], (words i ++ rest). rewrite app_nil_r. split_and!; [done..|]. constructor; [done|]. apply dec_stable. intros Hno. by apply Hold, Hk.
Qed.

Lemma scan_loop_complete items : ∀ self seen, Forall item_ok items → NoDup (seen ++ map item_name items) → knows self seen →
  scan_loop value_flags bool_flags (concat (map words items)) self = Ok (foldl with_item self items).
Proof.
  induction items as [|i items IH]; intros self seen; [done|]. intros [Hi Hok]%Forall_cons Hnd Hk. cbn [map concat foldl]. rewrite scan_loop_item by done.
  change (map item_name (i :: items)) with ([item_name i] ++ map item_name items) in Hnd. rewrite app_assoc in Hnd.
  rewrite decide_True; [by apply (IH _ (seen ++ [item_name i])); [| |apply knows_with_item]|]. apply Hk; [done|].
  apply NoDup_app in Hnd as [Hnd _]. apply NoDup_app in Hnd as (_ & Hd & _). intros Hin. apply (Hd _ Hin). by apply list_elem_of_singleton.
Qed.

(** Before the first word. *)
Definition no_words : ArgScanner := {| values := ∅; flags := list_to_map (map (λ f, (f, false)) bool_flags) |}.

Lemma knows_nothing : knows no_words [].
Proof.
  intros i Hi. split; [intros _; apply not_elem_of_nil|]. intros _. destruct i as [f|f v|f v]; cbn; [|apply lookup_empty..].
  intros H%elem_of_list_to_map_2. apply list_elem_of_fmap in H as (g & [=] & _).
Qed.

Lemma scan_spec args :
  (∀ s, scan value_flags bool_flags args = Ok s ↔
     ∃ items, Forall item_ok items ∧ NoDup (map item_name items) ∧ args = concat (map words items) ∧ s = foldl with_item no_words items) ∧
  (∀ e, scan value_flags bool_flags args = Err e →
     ∃ items rest, Forall item_ok items ∧ NoDup (map item_name items) ∧ args = concat (map words items) ++ rest ∧ problem (map item_name items) rest e).
Proof.
  unfold scan. fold no_words. pose proof (scan_loop_spec (length args) args no_words [] (le_n _) (NoDup_nil_2) knows_nothing) as H. cbn [app] in H. split.
  - intros s. split; [intros E; by rewrite E in H|]. intros (items & Hok & Hnd & -> & ->). by apply (scan_loop_complete items no_words []); [| |apply knows_nothing].
  - intros e E. by rewrite E in H.
Qed.
End scanning.

(** ** What the accessors read *)

(** The flags and values among the items. *)
Definition given (items : list Item) (f : string) : option string := i ← List.find (λ i, String.eqb (item_name i) f) items; item_value i.
Definition flagged (items : list Item) (f : string) : bool := existsb (λ i, match i with Flag g => String.eqb g f | _ => false end) items.

Lemma values_foldl items f : ∀ self, NoDup (map item_name items) →
  values (foldl with_item self items) !! f = match given items f with Some v => Some v | None => values self !! f end.
Proof.
  induction items as [|i items IH]; intros self; [done|]. cbn [map]. intros [Hi Hnd]%NoDup_cons. cbn [foldl]. rewrite IH by done. unfold given. cbn [List.find].
  destruct (String.eqb_spec (item_name i) f) as [<-|Hne].
  - assert (List.find (λ j, String.eqb (item_name j) (item_name i)) items = None) as ->.
    { destruct (List.find _ items) as [j|] eqn:E; [|done]. apply List.find_some in E as [Hj Hn%String.eqb_eq]. destruct Hi. rewrite <- Hn.
      apply list_elem_of_fmap_2. by apply list_elem_of_In. }
    cbn [mbind option_bind]. destruct i; cbn [item_name item_value with_item values]; [done|by rewrite lookup_insert_eq..].
  - destruct (List.find _ items) as [j|]; cbn [mbind option_bind]; [destruct (item_value j); [done|]|]; destruct i; cbn [item_name with_item values] in *; by rewrite ?lookup_insert_ne.
Qed.

Lemma flags_foldl items f : ∀ self, default false (flags (foldl with_item self items) !! f) = flagged items f || default false (flags self !! f).
Proof.
  induction items as [|i items IH]; intros self; [done|]. cbn [foldl flagged existsb]. rewrite IH. fold (flagged items f). destruct i as [g|g v|g v]; cbn [with_item flags]; [|done..].
  destruct (String.eqb_spec g f) as [->|Hne]; [rewrite lookup_insert_eq; cbn; by rewrite orb_true_r|by rewrite lookup_insert_ne].
Qed.

(** The words of a command, for a table of flags. *)
Record command_line (f : Flags.Flags) (args : list string) (items : list Item) : Prop := {
  items_ok : Forall (item_ok (Flags.values f) (Flags.bools f)) items;
  items_once : NoDup (map item_name items);
  items_words : args = concat (map words items)
}.

Definition all_tables : list Flags.Flags :=
  [OUT_ONLY_FLAGS; PUBKEY_FLAGS; ENCRYPT_FLAGS; DECRYPT_FLAGS; HASH_FLAGS; SIGN_FLAGS; VERIFY_FLAGS; KEY_IMPORT_FLAGS; BLOCK_FLAGS; KALYNA_AEAD_FLAGS; GMAC_FLAGS; KW_FLAGS;
   XTS_FLAGS; DIGEST_FLAGS; STRUMOK_FLAGS].

Lemma all_tables_ok f : f ∈ all_tables → tables_ok (Flags.values f) (Flags.bools f).
Proof.
  assert (Forall (λ f, tables_ok (Flags.values f) (Flags.bools f)) all_tables) as H by by_decision. rewrite Forall_forall in H. apply H.
Qed.

(** A scanner holds what was given. *)
Definition scanned (s : ArgScanner) (items : list Item) : Prop := (∀ f, values s !! f = given items f) ∧ (∀ f, bool_flag s f = flagged items f).

Lemma no_words_flag b f : default false (flags (no_words b) !! f) = false.
Proof.
  cbn. destruct (list_to_map (map (λ f, (f, false)) b) !! f) as [[]|] eqn:E; [|done..]. apply elem_of_list_to_map_2, list_elem_of_fmap in E as (g & [=] & _).
Qed.

Lemma scan_flags_spec f args : f ∈ all_tables →
  (∀ s, scan_flags f args = Ok s → ∃ items, command_line f args items ∧ scanned s items) ∧
  (∀ items, command_line f args items → ∃ s, scan_flags f args = Ok s ∧ scanned s items).
Proof.
  intros Hf. destruct (scan_spec _ _ (all_tables_ok f Hf) args) as [Hs _]. unfold scan_flags.
  assert (∀ items, NoDup (map item_name items) → scanned (foldl with_item (no_words (Flags.bools f)) items) items) as Hsc.
  { intros items Hnd. split; intros g.
    - rewrite values_foldl by done. cbn [no_words values]. rewrite lookup_empty. by destruct (given items g).
    - unfold bool_flag. rewrite flags_foldl, no_words_flag. apply orb_false_r. }
  split.
  - intros s (items & Hok & Hnd & E & ->)%Hs. exists items. split; [done|by apply Hsc].
  - intros items [Hok Hnd E]. eexists. split; [apply Hs; by exists items|by apply Hsc].
Qed.

(** The values of the accessors. *)
Definition path_is (items : list Item) (f : string) (p : path) : Prop := ∃ v, given items f = Some v ∧ v ≠ "-"%string ∧ p = path_of v.
Definition source_is (items : list Item) (f : string) (s : Source) : Prop :=
  match s with Stdin => given items f = Some "-"%string | FromFile p => path_is items f p end.
Definition sink_is (items : list Item) (f : string) (s : Sink) : Prop :=
  match s with Stdout => given items f = Some "-"%string | ToPath p => path_is items f p end.

Section accessors.
Variables (s : ArgScanner) (items : list Item).
Hypothesis Hs : scanned s items.

Lemma path_opt_spec f r : path_opt s f = Ok r ↔ match r with Some p => path_is items f p | None => given items f = None end.
Proof.
  unfold path_opt, path_is. rewrite (proj1 Hs f). destruct (given items f) as [v|]; cbn [is_dash fmap option_fmap option_map].
  - destruct (String.eqb_spec v "-") as [->|Hne]; destruct r as [p|]; (split; [try done; try (intros [= <-]; by exists v)|]); [by intros (? & [= <-] & ? & _)|done| |done].
    by intros (? & [= <-] & _ & ->).
  - destruct r; (split; [try done|]); [by intros (? & [=] & _)|done].
Qed.

Lemma get_path_spec f p : get_path s f = Ok p ↔ path_is items f p.
Proof.
  unfold get_path. pose proof (path_opt_spec f) as H. destruct (path_opt s f) as [r|e]; cbn [result_bind].
  - specialize (H r). destruct H as [H _]. specialize (H eq_refl). destruct r as [q|].
    + split; [by intros [= <-]|]. destruct H as (v & E & _ & ->). intros (w & Ew & _ & ->). congruence.
    + split; [done|]. intros (v & E & _). congruence.
  - split; [done|]. intros Hp. by apply (H (Some p)) in Hp.
Qed.

Lemma dash_spec f : is_dash (values s !! f) = bool_decide (given items f = Some "-"%string).
Proof. rewrite (proj1 Hs f). destruct (given items f) as [v|]; cbn [is_dash]; [|done]. destruct (String.eqb_spec v "-") as [->|]; case_bool_decide; congruence. Qed.

Lemma input_spec f r : input s f = Ok r ↔ source_is items f r.
Proof.
  unfold input. rewrite dash_spec. pose proof (get_path_spec f) as Hp. case_bool_decide as Hd.
  - destruct r as [|p]; cbn; [done|]. split; [done|]. intros (v & E & ? & _). congruence.
  - destruct (get_path s f) as [q|e]; cbn [result_bind]; destruct r as [|p]; cbn [source_is]; rewrite <- ?Hp; split; try done; by intros [= ->].
Qed.

Lemma sink_output_spec f r : output s f = Ok r ↔ sink_is items f r.
Proof.
  unfold output. rewrite dash_spec. pose proof (get_path_spec f) as Hp. case_bool_decide as Hd.
  - destruct r as [|p]; cbn; [done|]. split; [done|]. intros (v & E & ? & _). congruence.
  - destruct (get_path s f) as [q|e]; cbn [result_bind]; destruct r as [|p]; cbn [sink_is]; rewrite <- ?Hp; split; try done; by intros [= ->].
Qed.

Lemma output_and_force_spec out force : output_and_force s = Ok (out, force) ↔
  sink_is items "--out" out ∧ force = flagged items "--force" ∧ ¬ (force = true ∧ out = Stdout).
Proof.
  unfold output_and_force. pose proof (sink_output_spec "--out") as Ho. rewrite (proj2 Hs). destruct (output s "--out") as [o|e]; cbn [result_bind].
  - split.
    + destruct (flagged items "--force"), o; cbn [andb]; intros [= <- <-]; (split; [by apply Ho|]); (split; [done|]); by intros [? ?].
    + intros (Hr%Ho & -> & Hn). injection Hr as <-. destruct (flagged items "--force"), o; cbn [andb]; try done. by destruct Hn.
  - split; [done|]. by intros ([=]%Ho & _).
Qed.
End accessors.

(** ** Properties *)

(** C26. The scanner accepts exactly the lists of words that spell a sequence of flags of its table, each at most once, with a nonempty
    value in the same word or in the next one where the table asks for one, and it returns what they say; on every other list it
    returns the error of the first word at which that fails. *)
Theorem scan_exact (f : Flags.Flags) (args : list string) : f ∈ all_tables →
  let value_flags := Flags.values f in let bool_flags := Flags.bools f in
  (∀ s, scan value_flags bool_flags args = Ok s ↔
     ∃ items, Forall (item_ok value_flags bool_flags) items ∧ NoDup (map item_name items) ∧ args = concat (map words items) ∧ s = foldl with_item (no_words bool_flags) items) ∧
  (∀ e, scan value_flags bool_flags args = Err e →
     ∃ items rest, Forall (item_ok value_flags bool_flags) items ∧ NoDup (map item_name items) ∧ args = concat (map words items) ++ rest ∧
       problem value_flags bool_flags (map item_name items) rest e).
Proof. intros Hf. by apply scan_spec, all_tables_ok. Qed.

Lemma scan_exact_witness :
  ENCRYPT_FLAGS ∈ all_tables ∧ scan (Flags.values ENCRYPT_FLAGS) (Flags.bools ENCRYPT_FLAGS) ["--in=a"; "--force"; "--key"; "k"]%string =
    Ok (foldl with_item (no_words (Flags.bools ENCRYPT_FLAGS)) [Inline "--in" "a"; Flag "--force"; Separate "--key" "k"]).
Proof.
  assert (ENCRYPT_FLAGS ∈ all_tables) as Hf by (do 2 right; left). split; [exact Hf|].
  apply (proj1 (scan_exact ENCRYPT_FLAGS ["--in=a"; "--force"; "--key"; "k"]%string Hf)).
  exists [Inline "--in" "a"; Flag "--force"; Separate "--key" "k"]. split; [|split; [by_decision|split; reflexivity]].
  constructor; [split; [by_decision|discriminate]|]. constructor; [cbn [item_ok]; by_decision|]. constructor; [|constructor]. split; [by_decision|split; [discriminate|reflexivity]].
Defined.

(** The credential of [encrypt]: exactly one of the three ways to give it. *)
Definition encrypt_credential (items : list Item) (c : Credential) : Prop :=
  match c with
  | Key p => path_is items "--key" p ∧ flagged items "--passphrase" = false ∧ given items "--passphrase-file" = None
  | PassphraseFromFile p => given items "--key" = None ∧ flagged items "--passphrase" = false ∧ path_is items "--passphrase-file" p
  | PassphraseTerminal => given items "--key" = None ∧ flagged items "--passphrase" = true ∧ given items "--passphrase-file" = None
  end.
(** The credential of [decrypt]: a key, a passphrase file, or neither. *)
Definition decrypt_credential (items : list Item) (c : Credential) : Prop :=
  match c with
  | Key p => path_is items "--key" p ∧ given items "--passphrase-file" = None
  | PassphraseFromFile p => given items "--key" = None ∧ path_is items "--passphrase-file" p
  | PassphraseTerminal => given items "--key" = None ∧ given items "--passphrase-file" = None
  end.

Definition stream_files (items : list Item) (a : SecretstreamArgs) : Prop :=
  source_is items "--in" (stream_in_path a) ∧ sink_is items "--out" (stream_out_path a) ∧ stream_force a = flagged items "--force" ∧
  ¬ (stream_force a = true ∧ stream_out_path a = Stdout).

Lemma secretstream_args_spec s items c a : scanned s items → secretstream_args s c = Ok a ↔ credential a = c ∧ stream_files items a.
Proof.
  intros Hs. unfold secretstream_args, stream_files. pose proof (input_spec s items Hs "--in") as Hi. destruct (input s "--in") as [i|e]; cbn [result_bind].
  2:{ split; [done|]. by intros (_ & [=]%Hi & _). }
  pose proof (output_and_force_spec s items Hs) as Ho. destruct (output_and_force s) as [[o f]|e]; cbn [result_bind fst snd].
  2:{ split; [done|]. intros (_ & _ & H). by apply Ho in H as [=]. }
  destruct (Ho o f) as [Ho1 _]. specialize (Ho1 eq_refl). split.
  - intros [= <-]. cbn. split; [done|]. split; [by apply Hi|done].
  - destruct a as [c' i' o' f']. cbn. intros (-> & [= ->]%Hi & H). by apply Ho in H as [= -> ->].
Qed.

Lemma path_is_inj items f p q : path_is items f p → path_is items f q → p = q.
Proof. intros (v & E & _ & ->) (w & E' & _ & ->). congruence. Qed.
Lemma path_is_given items f p : path_is items f p → given items f ≠ None.
Proof. intros (v & E & _). congruence. Qed.

(** What [path_opt] returns is the only value of the option. *)
Lemma path_opt_cases s items f : scanned s items →
  match path_opt s f with
  | Ok (Some p) => path_is items f p ∧ given items f ≠ None ∧ ∀ q, path_is items f q ↔ q = p
  | Ok None => given items f = None ∧ ∀ q, ¬ path_is items f q
  | Err _ => given items f ≠ None ∧ ∀ q, ¬ path_is items f q
  end.
Proof.
  intros Hs. pose proof (path_opt_spec s items Hs f) as H. destruct (path_opt s f) as [[p|]|e].
  - destruct (H (Some p)) as [Hp _]. specialize (Hp eq_refl). split; [done|]. split; [by eapply path_is_given|]. intros q. split; [|by intros ->]. intros Hq. by eapply path_is_inj.
  - destruct (H None) as [Hn _]. specialize (Hn eq_refl). split; [done|]. by intros q ?%path_is_given.
  - split; [by intros [=]%(H None)|]. by intros q [=]%(H (Some q)).
Qed.

Lemma encrypt_args_spec s items a : scanned s items →
  (key ←? path_opt s "--key"; file ←? path_opt s "--passphrase-file";
   c ←? match key, bool_flag s "--passphrase", file with
        | Some key, false, None => Ok (Key key)
        | None, true, None => Ok PassphraseTerminal
        | None, false, Some file => Ok (PassphraseFromFile file)
        | None, false, None => Err (MissingOneOf "key" "passphrase")
        | Some _, true, _ => Err (ExclusiveFlags "key" "passphrase")
        | Some _, false, Some _ => Err (ExclusiveFlags "key" "passphrase-file")
        | None, true, Some _ => Err (ExclusiveFlags "passphrase" "passphrase-file")
        end;
   secretstream_args s c) = Ok a ↔ encrypt_credential items (credential a) ∧ stream_files items a.
Proof.
  intros Hs. pose proof (path_opt_cases s items "--key" Hs) as Hk. pose proof (path_opt_cases s items "--passphrase-file" Hs) as Hf. rewrite (proj2 Hs).
  destruct (path_opt s "--key") as [[k|]|e], (path_opt s "--passphrase-file") as [[p|]|e'], (flagged items "--passphrase") eqn:Eb; cbn [result_bind];
    rewrite ?(secretstream_args_spec s items) by done; destruct (credential a) as [q|q|]; cbn [encrypt_credential]; rewrite ?Eb; naive_solver.
Qed.

Lemma decrypt_args_spec s items a : scanned s items →
  (key ←? path_opt s "--key"; file ←? path_opt s "--passphrase-file";
   c ←? match key, file with
        | Some key, None => Ok (Key key)
        | None, Some file => Ok (PassphraseFromFile file)
        | None, None => Ok PassphraseTerminal
        | Some _, Some _ => Err (ExclusiveFlags "key" "passphrase-file")
        end;
   secretstream_args s c) = Ok a ↔ decrypt_credential items (credential a) ∧ stream_files items a.
Proof.
  intros Hs. pose proof (path_opt_cases s items "--key" Hs) as Hk. pose proof (path_opt_cases s items "--passphrase-file" Hs) as Hf.
  destruct (path_opt s "--key") as [[k|]|e], (path_opt s "--passphrase-file") as [[p|]|e']; cbn [result_bind];
    rewrite ?(secretstream_args_spec s items) by done; destruct (credential a) as [q|q|]; cbn [decrypt_credential]; naive_solver.
Qed.

(** [encrypt] takes exactly the command lines that give a credential in one of its three ways, an input and an output, and no
    [--force] with stdout; [decrypt] likewise, with its three, and never [--passphrase].  The arguments are what the words say. *)
Theorem stream_args_exact (args : list string) (a : SecretstreamArgs) :
  (parse_encrypt_args args = Ok a ↔ ∃ items, command_line ENCRYPT_FLAGS args items ∧ encrypt_credential items (credential a) ∧ stream_files items a) ∧
  (parse_decrypt_args args = Ok a ↔ ∃ items, command_line DECRYPT_FLAGS args items ∧ flagged items "--passphrase" = false ∧
     decrypt_credential items (credential a) ∧ stream_files items a).
Proof.
  destruct (scan_flags_spec ENCRYPT_FLAGS args ltac:(do 2 right; left)) as [He He']. destruct (scan_flags_spec DECRYPT_FLAGS args ltac:(do 3 right; left)) as [Hd Hd'].
  unfold parse_encrypt_args, parse_decrypt_args. split; split.
  - destruct (scan_flags ENCRYPT_FLAGS args) as [s|e]; cbn [result_bind]; [|done]. destruct (He s eq_refl) as (items & Hc & Hs).
    intros H%(encrypt_args_spec s items a Hs). by exists items.
  - intros (items & Hc & H). destruct (He' items Hc) as (s & -> & Hs). cbn [result_bind]. by apply (encrypt_args_spec s items a Hs).
  - destruct (scan_flags DECRYPT_FLAGS args) as [s|e]; cbn [result_bind]; [|done]. destruct (Hd s eq_refl) as (items & Hc & Hs). rewrite (proj2 Hs).
    destruct (flagged items "--passphrase") eqn:Ef; [done|]. intros H%(decrypt_args_spec s items a Hs). by exists items.
  - intros (items & Hc & Ef & H). destruct (Hd' items Hc) as (s & -> & Hs). cbn [result_bind]. rewrite (proj2 Hs), Ef. by apply (decrypt_args_spec s items a Hs).
Qed.

Example encrypt_with_key : parse_encrypt_args ["--key"; "k"; "--in=-"; "--out"; "o"; "--force"]%string =
  Ok {| credential := Key (ascii_bytes "k"); stream_in_path := Stdin; stream_out_path := ToPath (ascii_bytes "o"); stream_force := true |}.
Proof. reflexivity. Qed.

Example encrypt_two_credentials : parse_encrypt_args ["--key"; "k"; "--passphrase"; "--in"; "i"; "--out"; "o"]%string = Err (ExclusiveFlags "key" "passphrase").
Proof. reflexivity. Qed.

Example encrypt_mistyped : parse_encrypt_args ["--kye"; "k"]%string = Err (UnknownFlag "--kye" (Some "--key"%string)).
Proof. reflexivity. Qed.
