(* ===== verification/Utf8.v ===== *)
(** UTF-8 as the standard library of Rust validates it ([str::from_utf8], [str::chars], [char::is_control]), used by the text files that the
    command-line tool reads.  A character is its code point.  Decoding is proved to accept exactly the encodings of scalar values. *)

From S2P Require Import Prelude.
#[local] Open Scope Z_scope.
#[local] Open Scope uacrypt_scope.

Definition within (a b x : Z) : bool := Z.leb a x && Z.leb x b.

(** A Unicode scalar value: a code point that is not a surrogate. *)
Definition scalar (c : Z) : Prop := 0 ≤ c < 0xD800 ∨ 0xE000 ≤ c < 0x110000.

Definition encode_char (c : Z) : list Z :=
  if Z.ltb c 0x80 then [c]
  else if Z.ltb c 0x800 then [0xC0 + c / 64; 0x80 + c mod 64]
  else if Z.ltb c 0x10000 then [0xE0 + c / 4096; 0x80 + c / 64 mod 64; 0x80 + c mod 64]
  else [0xF0 + c / 262144; 0x80 + c / 4096 mod 64; 0x80 + c / 64 mod 64; 0x80 + c mod 64].
Definition encode_utf8 (cs : list Z) : list Z := concat (map encode_char cs).

Definition continuation (b : Z) : bool := within 0x80 0xBF b.

(** The second byte allowed after a lead byte of three or four. *)
Definition second3 (b0 b1 : Z) : bool :=
  if Z.eqb b0 0xE0 then within 0xA0 0xBF b1 else if Z.eqb b0 0xED then within 0x80 0x9F b1 else within 0xE1 0xEF b0 && continuation b1.
Definition second4 (b0 b1 : Z) : bool :=
  if Z.eqb b0 0xF0 then within 0x90 0xBF b1 else if Z.eqb b0 0xF4 then within 0x80 0x8F b1 else within 0xF1 0xF3 b0 && continuation b1.

(** The characters of a byte string, if it is well formed. *)
Fixpoint decode_utf8 (l : list Z) : option (list Z) :=
  match l with
  | [] => Some []
  | b0 :: l1 =>
      if Z.ltb b0 0x80 then cs ← decode_utf8 l1; Some (b0 :: cs)
      else
        match l1 with
        | [] => None
        | b1 :: l2 =>
            if within 0xC2 0xDF b0 && continuation b1 then cs ← decode_utf8 l2; Some ((b0 - 0xC0) * 64 + (b1 - 0x80) :: cs)
            else
              match l2 with
              | [] => None
              | b2 :: l3 =>
                  if second3 b0 b1 && continuation b2 then
                    cs ← decode_utf8 l3; Some ((b0 - 0xE0) * 4096 + (b1 - 0x80) * 64 + (b2 - 0x80) :: cs)
                  else
                    match l3 with
                    | [] => None
                    | b3 :: l4 =>
                        if second4 b0 b1 && continuation b2 && continuation b3 then
                          cs ← decode_utf8 l4; Some ((b0 - 0xF0) * 262144 + (b1 - 0x80) * 4096 + (b2 - 0x80) * 64 + (b3 - 0x80) :: cs)
                        else None
                    end
              end
        end
  end.

(** [char::is_control]: the category Cc. *)
Definition is_control (c : Z) : bool := Z.ltb c 0x20 || within 0x7F 0x9F c.

(** ** Decoding inverts encoding *)

Lemma within_true a b x : within a b x = true ↔ a ≤ x ≤ b.
Proof. unfold within. rewrite andb_true_iff, !Z.leb_le. done. Qed.

(** Decides the comparisons of the goal, given bounds that lia can use. *)
Ltac utf8_cases :=
  unfold second3, second4, continuation in *;
  repeat match goal with
  | |- context [Z.ltb ?a ?b] => destruct (Z.ltb_spec a b); try lia
  | |- context [Z.eqb ?a ?b] => destruct (Z.eqb_spec a b); try lia
  | |- context [within ?a ?b ?x] =>
      let H := fresh "Hw" in destruct (within a b x) eqn:H; [apply within_true in H; try lia|apply not_true_iff_false in H; rewrite within_true in H; try lia]; cbn [andb]
  end.

Ltac same_char c := match goal with |- _ ≫= (λ cs, Some (?x :: cs)) = _ => replace x with c by lia; reflexivity end.

Lemma decode_char c l : scalar c → decode_utf8 (encode_char c ++ l) = cs ← decode_utf8 l; Some (c :: cs).
Proof.
  unfold scalar, encode_char. intros Hc.
  pose proof (Z.div_mod c 64 ltac:(lia)) as E1. pose proof (Z.mod_pos_bound c 64 ltac:(lia)) as B1.
  pose proof (Z.div_mod (c / 64) 64 ltac:(lia)) as E2. pose proof (Z.mod_pos_bound (c / 64) 64 ltac:(lia)) as B2.
  pose proof (Z.div_mod (c / 4096) 64 ltac:(lia)) as E3. pose proof (Z.mod_pos_bound (c / 4096) 64 ltac:(lia)) as B3.
  rewrite (Z.div_div c 64 64) in E2 by lia. rewrite (Z.div_div c 4096 64) in E3 by lia. change (64 * 64) with 4096 in E2. change (4096 * 64) with 262144 in E3.
  destruct (Z.ltb_spec c 0x80); [|destruct (Z.ltb_spec c 0x800); [|destruct (Z.ltb_spec c 0x10000)]]; cbn [app decode_utf8].
  - utf8_cases. done.
  - utf8_cases. same_char c.
  - utf8_cases; same_char c.
  - utf8_cases; same_char c.
Qed.

Lemma decode_encode cs : Forall scalar cs → decode_utf8 (encode_utf8 cs) = Some cs.
Proof. induction 1 as [|c cs Hc _ IH]; [done|]. unfold encode_utf8. cbn [map concat]. rewrite decode_char by done. fold (encode_utf8 cs). by rewrite IH. Qed.

(** The encodings of two, three and four bytes from their fields. *)
Lemma encode_two b0 b1 : within 0xC2 0xDF b0 && continuation b1 = true → let c := (b0 - 0xC0) * 64 + (b1 - 0x80) in scalar c ∧ encode_char c = [b0; b1].
Proof.
  intros [H0%within_true H1%within_true]%andb_true_iff c. unfold scalar, encode_char. split; [lia|]. unfold c. utf8_cases. repeat f_equal; Z.to_euclidean_division_equations; lia.
Qed.

Lemma encode_three b0 b1 b2 : second3 b0 b1 && continuation b2 = true →
  let c := (b0 - 0xE0) * 4096 + (b1 - 0x80) * 64 + (b2 - 0x80) in scalar c ∧ encode_char c = [b0; b1; b2].
Proof.
  intros [H0 H1%within_true]%andb_true_iff c.
  assert (0xE0 ≤ b0 ≤ 0xEF ∧ 0x80 ≤ b1 ≤ 0xBF ∧ (b0 = 0xE0 → 0xA0 ≤ b1) ∧ (b0 = 0xED → b1 ≤ 0x9F)) as (Hb0 & Hb1 & Hlo & Hsu).
  { unfold second3 in H0. destruct (Z.eqb_spec b0 0xE0), (Z.eqb_spec b0 0xED); try (apply within_true in H0; lia); try lia.
    apply andb_true_iff in H0 as [H0%within_true H2%within_true]. lia. }
  unfold scalar, encode_char. split; [lia|]. unfold c. utf8_cases. repeat f_equal; Z.to_euclidean_division_equations; lia.
Qed.

Lemma encode_four b0 b1 b2 b3 : second4 b0 b1 && continuation b2 && continuation b3 = true →
  let c := (b0 - 0xF0) * 262144 + (b1 - 0x80) * 4096 + (b2 - 0x80) * 64 + (b3 - 0x80) in scalar c ∧ encode_char c = [b0; b1; b2; b3].
Proof.
  intros [[H0 H1%within_true]%andb_true_iff H2%within_true]%andb_true_iff c.
  assert (0xF0 ≤ b0 ≤ 0xF4 ∧ 0x80 ≤ b1 ≤ 0xBF ∧ (b0 = 0xF0 → 0x90 ≤ b1) ∧ (b0 = 0xF4 → b1 ≤ 0x8F)) as (Hb0 & Hb1 & Hlo & Hsu).
  { unfold second4 in H0. destruct (Z.eqb_spec b0 0xF0), (Z.eqb_spec b0 0xF4); try (apply within_true in H0; lia); try lia.
    apply andb_true_iff in H0 as [H0%within_true H3%within_true]. lia. }
  unfold scalar, encode_char. split; [lia|]. unfold c. utf8_cases. repeat f_equal; Z.to_euclidean_division_equations; lia.
Qed.

(** The first character of a well-formed string is encoded at its front. *)
Lemma decode_inv l cs : bytes_ok l → decode_utf8 l = Some cs →
  (l = [] ∧ cs = []) ∨ ∃ c cs' l', scalar c ∧ cs = c :: cs' ∧ l = encode_char c ++ l' ∧ decode_utf8 l' = Some cs'.
Proof.
  intros Hb. destruct l as [|b0 l1]; cbn [decode_utf8]; [intros [= <-]; by left|]. intros E. right. apply Forall_cons in Hb as [Hb0 _]. unfold byte_ok in Hb0.
  assert (∀ c l' x, scalar c ∧ encode_char c = x → (l1' ← decode_utf8 l'; Some (c :: l1')) = Some cs →
    ∃ c cs' l0, scalar c ∧ cs = c :: cs' ∧ x ++ l' = encode_char c ++ l0 ∧ decode_utf8 l0 = Some cs') as Hgo.
  { intros c l' x [Hs Hx]. destruct (decode_utf8 l') as [cs'|] eqn:Ed; [|done]. intros [= <-]. exists c, cs', l'. by rewrite Hx. }
  destruct (Z.ltb_spec b0 0x80); [apply (Hgo b0 l1 [b0]); [|done]; split; [left; lia|]; unfold encode_char; by utf8_cases|].
  destruct l1 as [|b1 l2]; [done|]. destruct (within 0xC2 0xDF b0 && continuation b1) eqn:E2; [eapply (Hgo _ l2 [b0; b1]); [by apply encode_two|exact E]|].
  destruct l2 as [|b2 l3]; [done|]. destruct (second3 b0 b1 && continuation b2) eqn:E3; [eapply (Hgo _ l3 [b0; b1; b2]); [by apply encode_three|exact E]|].
  destruct l3 as [|b3 l4]; [done|]. destruct (second4 b0 b1 && continuation b2 && continuation b3) eqn:E4; [eapply (Hgo _ l4 [b0; b1; b2; b3]); [by apply encode_four|exact E]|done].
Qed.

Lemma length_encode_char c : (0 < length (encode_char c))%nat.
Proof. unfold encode_char. repeat (case_match; cbn; [lia|]). cbn. lia. Qed.

Lemma decode_sound n : ∀ l cs, (length l ≤ n)%nat → bytes_ok l → decode_utf8 l = Some cs → Forall scalar cs ∧ l = encode_utf8 cs.
Proof.
  induction n as [|n IH]; intros l cs Hn Hb [[-> ->]|(c & cs' & l' & Hs & -> & -> & E)]%decode_inv; try done.
  - rewrite length_app in Hn. pose proof (length_encode_char c). lia.
  - rewrite length_app in Hn. pose proof (length_encode_char c). apply Forall_app in Hb as [_ Hb]. destruct (IH l' cs' ltac:(lia) Hb E) as [Hcs ->]. split; [by constructor|done].
Qed.

(** [str::from_utf8] accepts exactly the encodings of sequences of scalar values. *)
Lemma decode_utf8_exact l cs : bytes_ok l → decode_utf8 l = Some cs ↔ Forall scalar cs ∧ l = encode_utf8 cs.
Proof. intros Hb. split; [by apply (decode_sound (length l))|]. intros [Hs ->]. by apply decode_encode. Qed.

Lemma encode_app a b : encode_utf8 (a ++ b) = encode_utf8 a ++ encode_utf8 b.
Proof. unfold encode_utf8. by rewrite map_app, concat_app. Qed.

Lemma encode_char_bytes c : scalar c → bytes_ok (encode_char c).
Proof.
  unfold scalar, encode_char, byte_ok. intros Hc. repeat case_match; repeat apply Forall_cons_2; try apply Forall_nil_2; cbv beta;
    pose proof (Z.mod_pos_bound c 64 ltac:(lia)); pose proof (Z.mod_pos_bound (c / 64) 64 ltac:(lia)); pose proof (Z.mod_pos_bound (c / 4096) 64 ltac:(lia)); try lia;
    Z.to_euclidean_division_equations; lia.
Qed.

Lemma encode_bytes cs : Forall scalar cs → bytes_ok (encode_utf8 cs).
Proof. induction 1; [constructor|]. unfold encode_utf8. cbn [map concat]. apply Forall_app. split; [by apply encode_char_bytes|done]. Qed.
