(* ===== verification/PassphraseInput.v ===== *)
(** How the command-line tool gets a passphrase ([uacrypt/src/passphrase.rs]): from the one line of a file, or typed on the terminal.  The
    terminal is an argument: whether there is one, and the answers to the prompts.  An answer that is interrupted ends the process
    and is no case of the model. *)

From stdpp Require Import strings.
From S2P Require Import Prelude External Utf8 Keyfile CliError.
#[local] Open Scope Z_scope.
#[local] Open Scope uacrypt_scope.
#[local] Set Warnings "-clear-no-such-hyp".

Definition MAX_FILE_BYTES : nat := 1024.

Definition BOM : Z := 0xFEFF.
Definition is_line_end (c : Z) : bool := Z.eqb c 0x0A || Z.eqb c 0x0D.

(** On the characters of the text; the result is the bytes of what is left of it. *)
Definition parse_file (bytes : list Z) : result (list Z) FileProblem.FileProblem :=
  if Nat.ltb MAX_FILE_BYTES (length bytes) then Err FileProblem.TooLong
  else
    match decode_utf8 bytes with
    | None => Err FileProblem.NotUtf8
    | Some text =>
        let text := default text (strip_prefix [BOM] text) in
        let text := strip_newline text in
        if existsb is_line_end text then Err FileProblem.MoreThanOneLine
        else match text with [] => Err FileProblem.Empty | _ => Ok (encode_utf8 text) end
    end.

(** [contents] is what opening and reading the file gives. *)
Definition read_file (p : path) (contents : result (list Z) string) : result (list Z) CliError :=
  match contents with
  | Err message => Err (Io p message)
  | Ok bytes =>
      match parse_file (take (MAX_FILE_BYTES + 1) bytes) with
      | Ok passphrase => Ok passphrase
      | Err problem => Err (PassphraseFileInvalid p problem)
      end
  end.

Definition can_prompt (stderr_is_terminal windows : bool) (term_program : option string) : result unit CliError :=
  if negb stderr_is_terminal then Err PassphraseNoTerminal
  else if windows && bool_decide (term_program = Some "mintty"%string) then Err PassphraseMintty
  else Ok tt.

Definition ask (answer : result (list Z) string) : result (list Z) CliError :=
  match answer with Ok a => Ok a | Err message => Err (Io (ascii_bytes "<terminal>") message) end.

(** [first] and [second] are the answers to the two prompts; the second is used only when it is asked for. *)
Definition from_terminal `{Subtle} (stderr_is_terminal windows : bool) (term_program : option string) (first second : result (list Z) string) (confirm : bool) :
    result (list Z) CliError :=
  result_bind (can_prompt stderr_is_terminal windows term_program) (λ _,
  result_bind (ask first) (λ first,
  match first with
  | [] => Err PassphraseEmpty
  | _ =>
      if confirm then result_bind (ask second) (λ second, if negb (ct_eq_slice first second) then Err PassphraseMismatch else Ok first)
      else Ok first
  end)).

(** ** What a file holds *)

(** A passphrase: some characters, none of which ends a line. *)
Definition one_line (cs : list Z) : Prop := cs ≠ [] ∧ Forall scalar cs ∧ Forall (λ c, is_line_end c = false) cs.

Lemma existsb_none cs : existsb is_line_end cs = false ↔ Forall (λ c, is_line_end c = false) cs.
Proof.
  induction cs as [|c cs IH]; [done|]. cbn [existsb]. rewrite orb_false_iff, IH, Forall_cons. done.
Qed.

Lemma strip_bom (text : list Z) : (strip_prefix [BOM] text = None ∧ head text ≠ Some BOM) ∨ ∃ rest, text = BOM :: rest ∧ strip_prefix [BOM] text = Some rest.
Proof.
  unfold strip_prefix. destruct text as [|c text]; [by left|]. cbn [length take drop]. rewrite take_0, drop_0. case_bool_decide as E; [right|left].
  - injection E as ->. by exists text.
  - split; [done|]. cbn. congruence.
Qed.

Lemma line_break_scalar nl : line_break nl → Forall scalar nl ∧ encode_utf8 nl = nl.
Proof. intros [-> |[-> | ->]]; (split; [|done]); repeat constructor; lia. Qed.

Lemma one_line_snoc cs : one_line cs → ∃ l c, cs = l ++ [c] ∧ c ≠ 0x0A ∧ c ≠ 0x0D.
Proof.
  intros (Hne & _ & Hl). destruct cs as [|c l] using rev_ind; [done|]. exists l, c. split; [done|]. apply Forall_app in Hl as [_ [Hc _]%Forall_cons].
  unfold is_line_end in Hc. apply orb_false_iff in Hc as [H1%Z.eqb_neq H2%Z.eqb_neq]. done.
Qed.

(** The text of a file that is accepted: a byte-order mark or none, the passphrase, a line break or none. *)
Definition file_text (bom cs nl : list Z) : list Z := encode_utf8 bom ++ encode_utf8 cs ++ nl.

Lemma parse_file_spec bytes p : bytes_ok bytes →
  parse_file bytes = Ok p ↔
    (length bytes ≤ MAX_FILE_BYTES)%nat ∧
    ∃ bom cs nl, (bom = [BOM] ∨ bom = [] ∧ head cs ≠ Some BOM) ∧ one_line cs ∧ line_break nl ∧ p = encode_utf8 cs ∧ bytes = file_text bom cs nl.
Proof.
  intros Hb. unfold parse_file. destruct (Nat.ltb_spec MAX_FILE_BYTES (length bytes)) as [Hlt|Hle]; [split; [done|intros [? _]; lia]|]. split.
  - destruct (decode_utf8 bytes) as [text|] eqn:Ed; [|done]. apply decode_utf8_exact in Ed as [Hs ->]; [|done].
    remember (default text (strip_prefix [BOM] text)) as body eqn:Ebody. assert (∃ bom, text = bom ++ body ∧ (bom = [BOM] ∨ bom = [] ∧ head body ≠ Some BOM)) as (bom & -> & Hbom).
    { subst body. destruct (strip_bom text) as [[-> Hh]|(rest & -> & ->)]; [by exists []; auto|by exists [BOM]; auto]. }
    clear Ebody. destruct (strip_newline_inv body) as (nl & Eb & Hnl). set (cs := strip_newline body) in *. clearbody cs. subst body.
    destruct (existsb is_line_end cs) eqn:El; [done|]. apply existsb_none in El. destruct cs as [|c cs]; [done|]. intros [= <-]. split; [done|].
    apply Forall_app in Hs as [_ Hs]. apply Forall_app in Hs as [Hs _]. exists bom, (c :: cs), nl. split; [|split; [done|split; [exact Hnl|split; [done|]]]].
    + destruct Hbom as [->|[-> Hh]]; [by left|right]. by split.
    + unfold file_text. rewrite !encode_app. by rewrite (proj2 (line_break_scalar nl Hnl)).
  - intros (_ & bom & cs & nl & Hbom & Hcs & Hnl & -> & ->). destruct (line_break_scalar nl Hnl) as [Hns Hne].
    assert (decode_utf8 (file_text bom cs nl) = Some (bom ++ cs ++ nl)) as ->.
    { unfold file_text. rewrite <- Hne at 1. rewrite <- !encode_app. apply decode_encode. apply Forall_app. split; [|apply Forall_app; split; [apply Hcs|done]].
      destruct Hbom as [-> |[-> _]]; [constructor; [right; unfold BOM; lia|constructor]|constructor]. }
    assert (default (bom ++ cs ++ nl) (strip_prefix [BOM] (bom ++ cs ++ nl)) = cs ++ nl) as ->.
    { destruct (strip_bom (bom ++ cs ++ nl)) as [[-> Hh]|(rest & E & ->)]; cbn [default]; destruct Hbom as [-> |[-> Hc]]; cbn [app] in *; try done; [by injection E|].
      destruct Hcs as (Hcs & _). destruct cs as [|c cs]; [done|]. injection E as -> _. done. }
    destruct (one_line_snoc cs Hcs) as (l & c & -> & H1 & H2). rewrite strip_newline_line by done.
    destruct Hcs as (Hn & _ & Hf). rewrite (proj2 (existsb_none _) Hf). by destruct (l ++ [c]).
Qed.

(** ** Properties *)

(** A passphrase file is accepted exactly when it is at most 1024 bytes of UTF-8 that hold one nonempty line, with a byte-order
    mark in front of it or none and one line break behind it or none; the passphrase is the bytes of that line. *)
Theorem passphrase_text_exact (bytes p : list Z) : bytes_ok bytes →
  parse_file bytes = Ok p ↔
    (length bytes ≤ MAX_FILE_BYTES)%nat ∧
    ∃ bom cs nl, (bom = [BOM] ∨ bom = [] ∧ head cs ≠ Some BOM) ∧ one_line cs ∧ line_break nl ∧ p = encode_utf8 cs ∧ bytes = file_text bom cs nl.
Proof. apply parse_file_spec. Qed.

Lemma passphrase_text_exact_witness : parse_file ([0xEF; 0xBB; 0xBF; 0xD0; 0xBF; 0x20] ++ [0x0D; 0x0A]) = Ok [0xD0; 0xBF; 0x20].
Proof.
  apply (passphrase_text_exact ([0xEF; 0xBB; 0xBF; 0xD0; 0xBF; 0x20] ++ [0x0D; 0x0A])); [by_decision|]. split; [vm_compute; lia|].
  exists [BOM], [0x43F; 0x20], [0x0D; 0x0A]. split; [by left|]. split; [split; [done|split; [constructor; [left; lia|constructor; [left; lia|constructor]]|repeat constructor]]|].
  split; [right; by right|split; reflexivity].
Defined.

(** What is typed: a passphrase is returned only from a terminal that can be asked, it is not empty, and when it has to be confirmed
    the second answer is the same. *)
Theorem typed_passphrase `{SubtleLaws} (stderr_is_terminal windows : bool) (term_program : option string) (first second : result (list Z) string) (confirm : bool) (p : list Z) :
  from_terminal stderr_is_terminal windows term_program first second confirm = Ok p ↔
    stderr_is_terminal = true ∧ ¬ (windows = true ∧ term_program = Some "mintty"%string) ∧ first = Ok p ∧ p ≠ [] ∧ (confirm = true → second = Ok p).
Proof.
  unfold from_terminal, can_prompt, ask. destruct stderr_is_terminal; cbn [negb result_bind]; [|naive_solver].
  assert (windows && bool_decide (term_program = Some "mintty"%string) = bool_decide (windows = true ∧ term_program = Some "mintty"%string)) as ->.
  { destruct windows; cbn [andb]; repeat case_bool_decide; naive_solver. }
  case_bool_decide; cbn [result_bind]; [naive_solver|]. destruct first as [[|b f]|message]; cbn [result_bind]; [naive_solver| |naive_solver].
  destruct confirm; [|naive_solver]. destruct second as [s|message]; cbn [result_bind]; [|naive_solver].
  rewrite ct_eq_slice_spec. case_bool_decide; cbn [negb]; naive_solver.
Qed.
