(* ===== verification/HashCommand.v ===== *)
(** The command [hash] ([uacrypt/src/lib.rs]): the digest of a file read in pieces, the format of check lists, and the check of every file
    in one.  The file system is an argument: what is known of a path, and the reader that opening it gives.  The refusal of network
    paths, which is compiled for Windows only, is left out. *)

From stdpp Require Import strings.
From S2P Require Import Prelude Kupyna Utf8 Keyfile CliError CliStream CliArgs PassphraseInput.
#[local] Open Scope Z_scope.
#[local] Open Scope uacrypt_scope.

(** ** Hashing a file *)

Definition SIGN_STREAM_CHUNK_BYTES : nat := 8 * 1024.

Fixpoint hash_loop (fuel : nat) (input : Reader) (hasher : KupynaCore) (source : path) : option (result (list Z) CliError) :=
  match fuel with
  | O => None
  | S fuel =>
      let '(input, r) := read input SIGN_STREAM_CHUNK_BYTES in
      match r with
      | Err e => match kind e with Interrupted => hash_loop fuel input hasher source | _ => Some (Err (source_error source e)) end
      | Ok [] => digest ← hasher_finalize Kupyna256 hasher; Some (Ok digest)
      | Ok chunk => hasher ← hasher_update hasher chunk; hash_loop fuel input hasher source
      end
  end.

Definition hash_file_streamed (opened : result Reader CliError) (source : path) : option (result (list Z) CliError) :=
  match opened with
  | Err e => Some (Err e)
  | Ok input => hash_loop (S (length (schedule input) + length (pending input))) input (hasher_new Kupyna256) source
  end.

(** ** Check lists *)

Record CheckEntry : Type := { digest : list Z; entry_path : path }.
Inductive CheckListError : Type := Empty | Utf16 | Malformed (line : nat).

(** On the characters of the path. *)
Definition is_printable_path (p : list Z) : bool := negb (is_empty p) && negb (existsb is_control p).

Definition to_ascii_lowercase (c : Z) : Z := if within 0x41 0x5A c then c + 0x20 else c.

Definition parse_check_line (line : list Z) : option CheckEntry :=
  if Nat.ltb (length line) 64 then None
  else
    let hex := take 64 line in let rest := drop 64 line in
    p ← strip_prefix [0x20; 0x20] rest;
    chars ← decode_utf8 p;
    if negb (is_printable_path chars) then None
    else
      let lower := copy_at 0 (map to_ascii_lowercase hex) (replicate 64 0) in
      let '(digest, ok) := decode_hex lower (replicate 32 0) in
      if Z.eqb ok 1 then Some {| digest := digest; entry_path := p |} else None.

(** [text.split(|&b| b == b'\n')]. *)
Fixpoint split_lines (text : list Z) : list (list Z) :=
  match text with
  | [] => [[]]
  | b :: text =>
      if Z.eqb b 0x0A then [] :: split_lines text
      else match split_lines text with line :: lines => (b :: line) :: lines | [] => [[b]] end
  end.

Fixpoint collect_lines (index : nat) (lines : list (list Z)) : result (list CheckEntry) CheckListError :=
  match lines with
  | [] => Ok []
  | line :: lines =>
      match parse_check_line (default line (strip_suffix [0x0D] line)) with
      | None => Err (Malformed (index + 1))
      | Some entry => result_bind (collect_lines (S index) lines) (λ entries, Ok (entry :: entries))
      end
  end.

Definition starts_with (p l : list Z) : bool := bool_decide (take (length p) l = p).

Definition parse_check_list (text : list Z) : result (list CheckEntry) CheckListError :=
  if starts_with [0xFF; 0xFE] text || starts_with [0xFE; 0xFF] text then Err Utf16
  else
    let text := default text (strip_prefix [0xEF; 0xBB; 0xBF] text) in
    let text := default text (strip_suffix [0x0A] text) in
    match text with
    | [] => Err Empty
    | _ => collect_lines 0 (split_lines text)
    end.

(** [format!("{b:02x}")]. *)
Definition hex_char (n : Z) : Z := if Z.ltb n 10 then 0x30 + n else 0x61 + n - 10.
Definition hex_lower (bytes : list Z) : list Z := concat (map (λ b, [hex_char (b / 16); hex_char (b mod 16)]) bytes).

(** ** The command *)

Definition writeln (out : Output) (line : list Z) : Output * result unit CliError := write_all out (line ++ [0x0A]).

(** [hash --in]. *)
Definition run_hash_file (source : Source) (opened : result Reader CliError) (out : Output) : option (Output * result unit CliError) :=
  let shown := match source with
    | Stdin => Ok (ascii_bytes "-")
    | FromFile p => match decode_utf8 p with Some chars => if is_printable_path chars then Ok p else Err (HashPathUnprintable p) | None => Err (HashPathUnprintable p) end
    end in
  match shown with
  | Err e => Some (out, Err e)
  | Ok shown =>
      let label := match source with Stdin => ascii_bytes "<stdin>" | FromFile p => p end in
      r ← hash_file_streamed opened label;
      match r with
      | Err e => Some (out, Err e)
      | Ok digest =>
          let '(out, r) := writeln out (hex_lower digest ++ [0x20; 0x20] ++ shown) in
          match r with Err e => Some (out, Err e) | Ok _ => Some (publish out) end
      end
  end.

Definition HASH_CHECK_LIST_MAX_BYTES : nat := Z.to_nat (16 * 1024 * 1024).

(** [take(limit + 1).read_to_end]. *)
Definition read_check_list (opened : result Reader CliError) (label : path) : option (result (list Z) CliError) :=
  match opened with
  | Err e => Some (Err e)
  | Ok input =>
      '(_, text, r) ← fill_chunk input (replicate (HASH_CHECK_LIST_MAX_BYTES + 1) 0);
      Some (match r with
      | Err e => Err (source_error label e)
      | Ok n => if Nat.ltb HASH_CHECK_LIST_MAX_BYTES n then Err (HashCheckTooLarge label HASH_CHECK_LIST_MAX_BYTES) else Ok (take n text)
      end)
  end.

Section check.
Variables (metadata : path → result bool string) (opened : path → result Reader CliError) (display : CliError → string).

Definition REFUSED : string := "not a local regular file; a check list only names local files".

Definition check_list_entry_is_local_file (p : path) : result unit string :=
  match metadata p with
  | Ok true => Ok tt
  | Ok false => Err REFUSED
  | Err e => Err ("cannot read: " ++ e)%string
  end.

Definition STDIN_REFUSED : string := "-: FAILED (stdin is not read from a check list; hash it with `hash --in -`, or write ./- for a file named -)".

(** The line printed for an entry, and whether it failed. *)
Definition check_entry (entry : CheckEntry) : option (list Z * bool) :=
  let p := entry_path entry in
  if bool_decide (p = ascii_bytes "-") then Some (ascii_bytes STDIN_REFUSED, true)
  else
    match check_list_entry_is_local_file p with
    | Err reason => Some (p ++ ascii_bytes (": FAILED (" ++ reason ++ ")"), true)
    | Ok _ =>
        r ← hash_file_streamed (opened p) p;
        let status := match r with
          | Ok d => if bool_decide (d = digest entry) then "OK" else "FAILED"
          | Err (Io _ message) => ("FAILED (cannot read: " ++ message ++ ")")%string
          | Err e => ("FAILED (cannot read: " ++ display e ++ ")")%string
          end%string in
        Some (p ++ ascii_bytes (": " ++ status), negb (String.eqb status "OK"))
    end.

Fixpoint check_loop (entries : list CheckEntry) (out : Output) (failed : nat) : option (Output * result nat CliError) :=
  match entries with
  | [] => Some (out, Ok failed)
  | entry :: entries =>
      '(line, bad) ← check_entry entry;
      let '(out, r) := writeln out line in
      match r with
      | Err e => Some (out, Err e)
      | Ok _ => check_loop entries out (if (bad : bool) then S failed else failed)
      end
  end.

Definition run_hash_check (list : result Reader CliError) (label : path) (out : Output) : option (Output * result unit CliError) :=
  text ← read_check_list list label;
  match text with
  | Err e => Some (out, Err e)
  | Ok text =>
      match parse_check_list text with
      | Err Empty => Some (out, Err (HashCheckEmpty label))
      | Err Utf16 => Some (out, Err (HashCheckUtf16 label))
      | Err (Malformed line) => Some (out, Err (HashCheckMalformed label line))
      | Ok entries =>
          '(out, r) ← check_loop entries out 0;
          match r with
          | Err e => Some (out, Err e)
          | Ok failed =>
              let '(out, r) := publish out in
              match r with
              | Err e => Some (out, Err e)
              | Ok _ => Some (out, if Nat.ltb 0 failed then Err (HashCheckFailed failed (length entries)) else Ok tt)
              end
          end
      end
  end.
End check.

(** ** Hashing in pieces *)

Lemma hash_loop_spec fuel : ∀ input hasher m source, hasher_at Kupyna256 hasher m → bytes_ok (pending input) → length m + length (pending input) < 2 ^ 64 →
  (length (schedule input) + length (pending input) < fuel)%nat →
  ∃ r, hash_loop fuel input hasher source = Some r ∧
    match r with Ok d => d = kupyna_digest Kupyna256 (m ++ pending input) | Err e => ¬ healthy input ∧ ∃ message, e = Io source message end.
Proof.
  induction fuel as [|fuel IH]; intros input hasher m source Hat Hb Hl Hfuel; [lia|]. cbn [hash_loop].
  pose proof (read_spec input SIGN_STREAM_CHUNK_BYTES ltac:(unfold SIGN_STREAM_CHUNK_BYTES; lia)) as Hr. destruct (read input SIGN_STREAM_CHUNK_BYTES) as [input' [bytes|e]].
  - destruct Hr as (Hh & Hs & Eb & Ep & _ & Hnil). destruct bytes as [|b bytes].
    + rewrite (Hnil eq_refl), app_nil_r. destruct (finalize_digest Kupyna256 hasher m Hat) as [_ ->]; [lia|]. by eexists.
    + set (bs := b :: bytes) in *. assert (bytes_ok bs) as Hbs by (rewrite Eb; by apply Forall_take).
      assert (0 < length bs)%nat by (cbn; lia). assert (length bs ≤ length (pending input))%nat by (rewrite Eb, length_take; lia).
      destruct (update_at _ _ _ (variant_params Kupyna256) hasher m bs Hat Hbs) as (hasher' & E & Hat'). unfold hasher_update. rewrite E. cbn [mbind option_bind].
      destruct (IH input' hasher' (m ++ bs) source Hat') as (r & -> & Hres).
      * rewrite Ep. by apply Forall_drop.
      * rewrite Ep, length_app, length_drop. lia.
      * rewrite Ep, length_drop. lia.
      * exists r. split; [done|]. destruct r as [d|e]; [|split; [|apply Hres]; intros Hhe; by apply Hres, Hh]. rewrite Hres, Ep, <- app_assoc. rewrite Eb at 1. by rewrite take_drop.
  - destruct Hr as (Hh & Hs & Ep & Hk & Hsl). destruct (kind e) eqn:Ek.
    + destruct (IH input' hasher m source Hat) as (r & -> & Hres); [by rewrite Ep|by rewrite Ep|rewrite Ep; lia|]. exists r. split; [done|].
      rewrite Ep in Hres. destruct r as [d|e']; [done|]. split; [|apply Hres]. intros Hhe. by apply Hres, Hh.
    + eexists. split; [done|]. split; [|by eexists]. intros Hhe. specialize (Hk Hhe). congruence.
    + eexists. split; [done|]. split; [|by eexists]. intros Hhe. specialize (Hk Hhe). congruence.
Qed.

Lemma hash_file_spec input source : bytes_ok (pending input) → length (pending input) < 2 ^ 64 →
  ∃ r, hash_file_streamed (Ok input) source = Some r ∧
    match r with Ok d => d = kupyna_digest Kupyna256 (pending input) | Err e => ¬ healthy input ∧ ∃ message, e = Io source message end.
Proof.
  intros Hb Hl. unfold hash_file_streamed.
  destruct (hash_loop_spec (S (length (schedule input) + length (pending input))) input (hasher_new Kupyna256) [] source) as (r & -> & Hr); [apply core_new_at, variant_params|done|cbn; lia|lia|].
  by exists r.
Qed.

(** ** Lines *)

Lemma hex_char_digit n : 0 ≤ n < 16 → hex_char n = hex_digit n.
Proof.
  intros Hn. assert (∀ k, (k < 16)%nat → hex_char (Z.of_nat k) = hex_digit (Z.of_nat k)) as H by (intros k Hk; do 16 (destruct k as [|k]; [reflexivity|]); lia).
  rewrite <- (Z2Nat.id n) by lia. apply H. lia.
Qed.

Lemma hex_lower_eq bytes : bytes_ok bytes → hex_lower bytes = hex_of bytes.
Proof.
  unfold hex_lower, hex_of. induction 1 as [|b bytes Hb _ IH]; [done|]. cbn [map concat]. rewrite IH. unfold byte_ok, word_ok in Hb.
  rewrite Z.shiftr_div_pow2 by lia. change (Z.land b 15) with (Z.land b (Z.ones 4)). rewrite Z.land_ones by lia. change (2 ^ 4) with 16.
  rewrite !hex_char_digit; [done|apply Z.mod_pos_bound; lia|]. split; [apply Z.div_pos; lia|apply Z.div_lt_upper_bound; lia].
Qed.

(** The characters of a path that may stand in a check list. *)
Definition printable (p : path) : Prop := ∃ chars, chars ≠ [] ∧ Forall scalar chars ∧ Forall (λ c, is_control c = false) chars ∧ p = encode_utf8 chars.

Lemma existsb_control cs : existsb is_control cs = false ↔ Forall (λ c, is_control c = false) cs.
Proof. induction cs as [|c cs IH]; [done|]. cbn [existsb]. by rewrite orb_false_iff, IH, Forall_cons. Qed.

Lemma printable_spec p : bytes_ok p → printable p ↔ match decode_utf8 p with Some chars => is_printable_path chars = true | None => False end.
Proof.
  intros Hb. unfold is_printable_path. split.
  - intros (chars & Hn & Hs & Hc & ->). rewrite decode_encode by done. rewrite (proj2 (existsb_control _) Hc). by destruct chars.
  - destruct (decode_utf8 p) as [chars|] eqn:E; [|done]. apply decode_utf8_exact in E as [Hs ->]; [|done]. intros [H1 H2]%andb_true_iff. apply negb_true_iff, existsb_control in H2.
    exists chars. split; [by destruct chars|done].
Qed.

Lemma strip_prefix_spec p l r : strip_prefix p l = Some r ↔ l = p ++ r.
Proof.
  unfold strip_prefix. split.
  - case_bool_decide as E; [|done]. intros [= <-]. rewrite <- E at 1. by rewrite take_drop.
  - intros ->. by rewrite take_app_length, drop_app_length, bool_decide_eq_true_2.
Qed.

(** An accepted line: hex digits of either case, two spaces, the path. *)
Definition check_line (e : CheckEntry) (line : list Z) : Prop :=
  array_ok 32 (digest e) ∧ printable (entry_path e) ∧
  ∃ hex, length hex = 64%nat ∧ map to_ascii_lowercase hex = hex_of (digest e) ∧ line = hex ++ [0x20; 0x20] ++ entry_path e.

Lemma lowercase_ok l : bytes_ok l → bytes_ok (map to_ascii_lowercase l).
Proof. intros Hb. apply Forall_map. eapply Forall_impl; [exact Hb|]. intros c Hc. unfold to_ascii_lowercase, byte_ok, word_ok in *. destruct (within 65 90 c) eqn:E; [apply within_true in E|]; cbv beta; lia. Qed.

Lemma parse_check_line_spec line e : bytes_ok line → parse_check_line line = Some e ↔ check_line e line.
Proof.
  intros Hb. unfold parse_check_line, check_line. destruct (Nat.ltb_spec (length line) 64) as [Hlt|Hge].
  { split; [done|]. intros (_ & _ & hex & Hl & _ & ->). rewrite length_app in Hlt. lia. }
  assert (length (map to_ascii_lowercase (take 64 line)) = 64%nat) as Hml by (rewrite length_map, length_take; lia).
  assert (copy_at 0 (map to_ascii_lowercase (take 64 line)) (replicate 64 0) = map to_ascii_lowercase (take 64 line)) as Hlow by by apply copy_at_whole.
  split.
  - destruct (strip_prefix [0x20; 0x20] (drop 64 line)) as [p|] eqn:Ep; cbn [mbind option_bind]; [|done]. apply strip_prefix_spec in Ep.
    assert (bytes_ok p) as Hp. { assert (bytes_ok (drop 64 line)) as Hd by by apply Forall_drop. rewrite Ep in Hd. by apply Forall_app in Hd as [_ ?]. }
    pose proof (proj2 (printable_spec p Hp)) as Hpr. destruct (decode_utf8 p) as [chars|]; cbn [mbind option_bind]; [|done]. destruct (is_printable_path chars); cbn [negb]; [|done]. specialize (Hpr eq_refl).
    rewrite Hlow. unfold decode_hex. pose proof (decode_hex_sound (replicate 32 0) (map to_ascii_lowercase (take 64 line)) 1) as Hd.
    destruct (decode_hex_loop _ _ _) as [d ok]. destruct Hd as (Hdl & _ & Hd); [apply lowercase_ok; by apply Forall_take|by rewrite Hml|by right|].
    destruct (Z.eqb_spec ok 1) as [->|]; [|done]. intros [= <-]. cbn [digest entry_path]. destruct (Hd eq_refl) as (_ & Hdb & Ehex). rewrite length_replicate in Hdl.
    split; [by split|]. split; [done|]. exists (take 64 line). split; [rewrite length_take; lia|]. split; [done|]. by rewrite <- Ep, take_drop.
  - intros ([Hdl Hdb] & Hpr & hex & Hl & Ehex & ->). rewrite drop_app_length' by done. rewrite take_app_length' in Hml, Hlow |- * by done.
    rewrite (proj2 (strip_prefix_spec [0x20; 0x20] _ (entry_path e)) eq_refl). cbn [mbind option_bind].
    assert (bytes_ok (entry_path e)) as Hp. { apply Forall_app in Hb as [_ Hb]. by apply Forall_app in Hb as [_ ?]. }
    apply (printable_spec _ Hp) in Hpr. destruct (decode_utf8 (entry_path e)) as [chars|]; [|done]. cbn [mbind option_bind]. rewrite Hpr. cbn [negb]. rewrite Hlow, Ehex.
    unfold decode_hex. rewrite decode_hex_complete; [by destruct e|done|by rewrite length_replicate|by right].
Qed.

(** ** Lists *)

Definition no_newline (line : list Z) : Prop := 0x0A ∉ line.

Fixpoint join_lines (lines : list (list Z)) : list Z :=
  match lines with
  | [] => []
  | [line] => line
  | line :: lines => line ++ 0x0A :: join_lines lines
  end.

Lemma split_lines_cons text : ∃ line lines, split_lines text = line :: lines.
Proof. destruct text as [|b text]; cbn [split_lines]; [by eexists _, _|]. destruct (Z.eqb b 10); [by eexists _, _|]. destruct (split_lines text); by eexists _, _. Qed.

Lemma split_lines_join text : join_lines (split_lines text) = text ∧ Forall no_newline (split_lines text).
Proof.
  induction text as [|b text [IHj IHn]]; [split; [done|]; constructor; [apply not_elem_of_nil|constructor]|]. cbn [split_lines].
  destruct (split_lines_cons text) as (line & lines & E). rewrite E in *. destruct (Z.eqb_spec b 10) as [->|Hne].
  - split; [change (join_lines ([] :: line :: lines)) with (0x0A :: join_lines (line :: lines)); by rewrite IHj|]. constructor; [apply not_elem_of_nil|done].
  - apply Forall_cons in IHn as [Hl Hls]. split; [destruct lines; cbn [join_lines app] in *; by rewrite <- IHj|]. constructor; [|done].
    unfold no_newline. rewrite not_elem_of_cons. by split.
Qed.

Lemma split_lines_line line rest : no_newline line → split_lines (line ++ rest) =
  match split_lines rest with l :: lines => (line ++ l) :: lines | [] => [line] end.
Proof.
  intros Hn. induction line as [|b line IH]; cbn [app]; [by destruct (split_lines_cons rest) as (? & ? & ->)|]. apply not_elem_of_cons in Hn as [Hb Hn]. cbn [split_lines].
  destruct (Z.eqb_spec b 10); [congruence|]. rewrite IH by done. by destruct (split_lines_cons rest) as (? & ? & ->).
Qed.

Lemma split_join lines : lines ≠ [] → Forall no_newline lines → split_lines (join_lines lines) = lines.
Proof.
  intros Hne Hn. induction Hn as [|line lines Hl _ IH]; [done|]. destruct lines as [|line' lines].
  - cbn [join_lines]. rewrite <- (app_nil_r line) at 1. rewrite split_lines_line by done. cbn [split_lines]. by rewrite app_nil_r.
  - change (join_lines (line :: line' :: lines)) with (line ++ 0x0A :: join_lines (line' :: lines)). rewrite split_lines_line by done. cbn [split_lines]. rewrite Z.eqb_refl, app_nil_r.
    by rewrite IH.
Qed.

Lemma split_lines_bytes text : bytes_ok text → Forall (λ line, bytes_ok line) (split_lines text).
Proof.
  induction 1 as [|b text Hb _ IH]; cbn [split_lines]; [by repeat constructor|]. destruct (split_lines_cons text) as (line & lines & E). rewrite E in *.
  destruct (Z.eqb b 10); [by constructor|]. apply Forall_cons in IH as [Hl Hls]. by constructor; [constructor|].
Qed.

(** The line without a carriage return behind it. *)
Definition without_cr (line : list Z) : list Z := default line (strip_suffix [0x0D] line).

Lemma without_cr_bytes line : bytes_ok line → bytes_ok (without_cr line).
Proof.
  unfold without_cr. intros Hb. destruct (strip_suffix [13] line) as [r|] eqn:E; [|done]. apply strip_suffix_inv in E. subst. by apply Forall_app in Hb as [? _].
Qed.

(** The entries of the lines, or the first line that is not one. *)
Definition lines_result (index : nat) (lines : list (list Z)) (r : result (list CheckEntry) CheckListError) : Prop :=
  match r with
  | Ok entries => Forall2 (λ e line, check_line e (without_cr line)) entries lines
  | Err (Malformed n) => ∃ i line entries, n = (index + i + 1)%nat ∧ lines !! i = Some line ∧ (∀ e, ¬ check_line e (without_cr line)) ∧
      Forall2 (λ e line, check_line e (without_cr line)) entries (take i lines)
  | Err _ => False
  end.

Lemma collect_lines_spec lines : ∀ index, Forall (λ line, bytes_ok line) lines → lines_result index lines (collect_lines index lines).
Proof.
  induction lines as [|line lines IH]; intros index; [by constructor|]. intros [Hb Hbs]%Forall_cons. cbn [collect_lines]. fold (without_cr line).
  pose proof (λ e, parse_check_line_spec (without_cr line) e (without_cr_bytes _ Hb)) as Hl. destruct (parse_check_line (without_cr line)) as [e|].
  - specialize (IH (S index) Hbs). destruct (collect_lines (S index) lines) as [entries|[| |n]]; cbn [result_bind lines_result] in *; try done.
    + constructor; [by apply Hl|done].
    + destruct IH as (i & l & entries & -> & Hi & Hno & Hf). exists (S i), l, (e :: entries). split; [lia|]. split; [done|]. split; [done|]. cbn [take]. constructor; [by apply Hl|done].
  - exists 0%nat, line, []. split; [lia|]. split; [done|]. split; [|constructor]. intros e He. by apply Hl in He.
Qed.

(** What is left of a list without its byte-order mark and one line feed at its end. *)
Definition list_body (text : list Z) : list Z :=
  let text := default text (strip_prefix [0xEF; 0xBB; 0xBF] text) in default text (strip_suffix [0x0A] text).

Lemma list_body_bytes text : bytes_ok text → bytes_ok (list_body text).
Proof.
  intros Hb. unfold list_body. assert (bytes_ok (default text (strip_prefix [0xEF; 0xBB; 0xBF] text))) as H.
  { destruct (strip_prefix _ text) as [r|] eqn:E; [|done]. apply strip_prefix_spec in E. subst. by apply Forall_app in Hb as [_ ?]. }
  destruct (strip_suffix [10] _) as [r|] eqn:E; [|done]. apply strip_suffix_inv in E. cbn [default]. rewrite E in H. by apply Forall_app in H as [? _].
Qed.

Definition list_result (text : list Z) (r : result (list CheckEntry) CheckListError) : Prop :=
  match r with
  | Err Utf16 => ∃ rest, text = 0xFF :: 0xFE :: rest ∨ text = 0xFE :: 0xFF :: rest
  | Err Empty => list_body text = []
  | _ => lines_result 0 (split_lines (list_body text)) r
  end.

Lemma starts_with_spec p l : starts_with p l = true ↔ ∃ rest, l = p ++ rest.
Proof.
  unfold starts_with. rewrite bool_decide_eq_true. split; [intros E; exists (drop (length p) l); rewrite <- E at 1; by rewrite take_drop|intros [rest ->]; apply take_app_length].
Qed.

Lemma parse_check_list_spec text : bytes_ok text → list_result text (parse_check_list text).
Proof.
  intros Hb. unfold parse_check_list. destruct (starts_with [0xFF; 0xFE] text || starts_with [0xFE; 0xFF] text) eqn:E.
  - apply orb_true_iff in E as [[rest ->]%starts_with_spec|[rest ->]%starts_with_spec]; exists rest; auto.
  - fold (list_body text). pose proof (collect_lines_spec (split_lines (list_body text)) 0 (split_lines_bytes _ (list_body_bytes _ Hb))) as H.
    destruct (list_body text) as [|b body] eqn:Ebody; [exact Ebody|]. rewrite <- Ebody in *. unfold list_result. destruct (collect_lines 0 _) as [|[| |]]; done.
Qed.

(** ** What [hash] prints is a list *)

Lemma encode_char_high c : scalar c → Forall (λ b, b = c ∨ 0x80 ≤ b) (encode_char c).
Proof.
  unfold scalar, encode_char. intros Hc. repeat case_match; repeat apply Forall_cons_2; try apply Forall_nil_2; cbv beta; auto;
    right; Z.to_euclidean_division_equations; lia.
Qed.

Lemma printable_high p : printable p → p ≠ [] ∧ Forall (λ b, 0x20 ≤ b) p.
Proof.
  intros (cs & Hne & Hs & Hc & ->). split.
  - destruct cs as [|c cs]; [done|]. unfold encode_utf8. cbn [map concat]. pose proof (length_encode_char c). destruct (encode_char c); cbn in *; [lia|done].
  - clear Hne. induction Hs as [|c cs Hsc _ IH]; [constructor|]. apply Forall_cons in Hc as [Hc Hcs]. unfold encode_utf8. cbn [map concat]. apply Forall_app. split; [|by apply IH].
    eapply Forall_impl; [by apply encode_char_high|]. cbv beta. unfold is_control in Hc. apply orb_false_iff in Hc as [Hc%Z.ltb_ge _]. intros b [->|?]; lia.
Qed.

Lemma hex_of_digits bytes : bytes_ok bytes → Forall (λ c, 0x30 ≤ c ≤ 0x66) (hex_of bytes) ∧ map to_ascii_lowercase (hex_of bytes) = hex_of bytes.
Proof.
  intros Hb. rewrite <- hex_lower_eq by done.
  assert (∀ n, 0 ≤ n < 16 → 0x30 ≤ hex_char n ≤ 0x66 ∧ to_ascii_lowercase (hex_char n) = hex_char n) as Hd.
  { intros n Hn. unfold hex_char, to_ascii_lowercase. destruct (Z.ltb_spec n 10); (split; [lia|]); destruct (within _ _ _) eqn:E; try done; apply within_true in E; lia. }
  unfold hex_lower. induction Hb as [|b bytes Hb _ [IH1 IH2]]; [by split|]. unfold byte_ok, word_ok in Hb.
  destruct (Hd (b / 16)) as [H1 H2]; [split; [apply Z.div_pos; lia|apply Z.div_lt_upper_bound; lia]|]. destruct (Hd (b mod 16)) as [H3 H4]; [apply Z.mod_pos_bound; lia|].
  cbn [map concat app]. split; [by constructor; [|constructor]|]. by rewrite H2, H4, IH2.
Qed.

(** The line of an entry. *)
Definition entry_line (e : CheckEntry) : list Z := hex_lower (digest e) ++ [0x20; 0x20] ++ entry_path e.
Definition entry_ok (e : CheckEntry) : Prop := array_ok 32 (digest e) ∧ printable (entry_path e) ∧ bytes_ok (entry_path e).

Lemma entry_line_ok e : entry_ok e → check_line e (entry_line e) ∧ Forall (λ b, 0x20 ≤ b) (entry_line e) ∧ bytes_ok (entry_line e) ∧
  (∃ c rest, entry_line e = c :: rest ∧ 0x30 ≤ c ≤ 0x66) ∧ without_cr (entry_line e) = entry_line e.
Proof.
  intros ([Hl Hb] & Hp & Hpb). destruct (hex_of_digits _ Hb) as [Hd Hlow]. destruct (printable_high _ Hp) as [Hne Hhi]. unfold entry_line. rewrite hex_lower_eq by done.
  assert (Forall (λ b, 0x20 ≤ b) (hex_of (digest e) ++ [0x20; 0x20] ++ entry_path e)) as Hhigh.
  { apply Forall_app. split; [eapply Forall_impl; [exact Hd|]; cbv beta; lia|]. constructor; [lia|]. constructor; [lia|done]. }
  split; [split; [done|split; [done|]]; exists (hex_of (digest e)); by rewrite length_hex_of, Hl|]. split; [done|]. split; [|split].
  - apply Forall_app. split; [eapply Forall_impl; [exact Hd|]; unfold byte_ok, word_ok; cbv beta; lia|]. apply Forall_app. split; [by_decision|done].
  - destruct (hex_of (digest e)) as [|c rest] eqn:E; [apply (f_equal length) in E; rewrite length_hex_of, Hl in E; done|]. apply Forall_cons in Hd as [Hc _]. by exists c, (rest ++ [0x20; 0x20] ++ entry_path e).
  - unfold without_cr. destruct (strip_suffix [13] _) as [r|] eqn:E; [|done]. apply strip_suffix_inv in E. rewrite E in Hhigh. apply Forall_app in Hhigh as [_ [Hc _]%Forall_cons]. lia.
Qed.

Lemma concat_lines entries : entries ≠ [] → concat (map (λ e, entry_line e ++ [0x0A]) entries) = join_lines (map entry_line entries) ++ [0x0A].
Proof.
  induction entries as [|e entries IH]; [done|]. intros _. cbn [map concat]. destruct entries as [|e' entries]; [by rewrite app_nil_r|]. rewrite IH by done.
  change (join_lines (entry_line e :: map entry_line (e' :: entries))) with (entry_line e ++ 0x0A :: join_lines (map entry_line (e' :: entries))). by rewrite <- !app_assoc.
Qed.

Lemma parse_printed entries : entries ≠ [] → Forall entry_ok entries → parse_check_list (concat (map (λ e, entry_line e ++ [0x0A]) entries)) = Ok entries.
Proof.
  intros Hne Hok. rewrite concat_lines by done. set (lines := map entry_line entries).
  assert (Forall (λ line, bytes_ok line) lines ∧ Forall no_newline lines ∧ Forall (λ line, without_cr line = line) lines) as (Hb & Hn & Hcr).
  { unfold lines. split_and!; apply Forall_map; (eapply Forall_impl; [exact Hok|]); intros e He; destruct (entry_line_ok e He) as (_ & Hhi & Hbe & _ & Hc); try done.
    intros Hin. rewrite Forall_forall in Hhi. specialize (Hhi _ Hin). lia. }
  assert (∃ c rest, join_lines lines = c :: rest ∧ 0x30 ≤ c ≤ 0x66) as (c & rest & Ej & Hc).
  { destruct entries as [|e entries]; [done|]. apply Forall_cons in Hok as [He _]. destruct (entry_line_ok e He) as (_ & _ & _ & (c & rest & E & Hc) & _).
    unfold lines. cbn [map]. destruct (map entry_line entries); cbn [join_lines]; rewrite E; by eexists _, _. }
  assert (∀ p a, a < 0x30 ∨ 0x66 < a → starts_with (a :: p) (join_lines lines ++ [0x0A]) = false) as Hsw.
  { intros p a Ha. apply not_true_iff_false. rewrite starts_with_spec, Ej. intros (? & [= -> _]). lia. }
  unfold parse_check_list. cbv zeta. rewrite !Hsw by lia. cbn [orb].
  assert (strip_prefix [0xEF; 0xBB; 0xBF] (join_lines lines ++ [0x0A]) = None) as E1.
  { destruct (strip_prefix _ _) as [r|] eqn:E; [|done]. apply strip_prefix_spec in E. rewrite Ej in E. injection E as -> _. lia. }
  rewrite E1. cbn [from_option]. rewrite strip_suffix_app. cbn [from_option]. unfold id. rewrite split_join by (done || by destruct entries). rewrite Ej. cbv iota.
  clear Hsw Ej Hc E1. unfold lines. generalize 0%nat. clear Hne Hb Hn Hcr lines.
  induction Hok as [|e entries He _ IH]; intros index; [done|]. cbn [map collect_lines]. destruct (entry_line_ok e He) as (Hl & _ & Hbe & _ & Hc). fold (without_cr (entry_line e)). rewrite Hc.
  apply (parse_check_line_spec _ _ Hbe) in Hl. rewrite Hl, IH. done.
Qed.

(** ** Checking *)

Section checking.
Variables (metadata : path → result bool string) (opened : path → result Reader CliError) (display : CliError → string).
Hypothesis readers_ok : ∀ p r, opened p = Ok r → bytes_ok (pending r) ∧ length (pending r) < 2 ^ 64.

(** A file that is there, can be read, and has the digest of its entry. *)
Definition entry_good (e : CheckEntry) : Prop :=
  entry_path e ≠ ascii_bytes "-" ∧ metadata (entry_path e) = Ok true ∧
  ∃ r, opened (entry_path e) = Ok r ∧ hash_file_streamed (Ok r) (entry_path e) = Some (Ok (digest e)) ∧ digest e = kupyna_digest Kupyna256 (pending r).

Lemma check_entry_spec e : ∃ line bad, check_entry metadata opened display e = Some (line, bad) ∧ (bad = false ↔ entry_good e).
Proof.
  unfold check_entry, entry_good, check_list_entry_is_local_file. case_bool_decide as Hd; [by eexists _, _; split; [done|]; split; [|intros [? _]]|].
  destruct (metadata (entry_path e)) as [[]|m]; [|by eexists _, _; split; [done|]; split; [|intros (_ & [=] & _)]..].
  destruct (opened (entry_path e)) as [r|err] eqn:Eo.
  - destruct (readers_ok _ _ Eo) as [Hb Hl]. destruct (hash_file_spec r (entry_path e) Hb Hl) as (res & Er & Hr). rewrite Er. cbn [mbind option_bind]. eexists _, _. split; [done|].
    destruct res as [d|err].
    + destruct (decide (d = digest e)) as [Hdd|Hdd].
      * rewrite bool_decide_eq_true_2 by done. split; [|done]. intros _. split; [done|]. split; [done|]. exists r. rewrite <- Hdd. by rewrite Er.
      * rewrite bool_decide_eq_false_2 by done. split; [done|]. intros (_ & _ & r' & [= <-] & Er' & _). rewrite Er in Er'. by injection Er'.
    + destruct Hr as (_ & message & ->). split; [done|]. intros (_ & _ & r' & [= <-] & Er' & _). by rewrite Er in Er'.
  - cbn [hash_file_streamed mbind option_bind]. eexists _, _. split; [done|]. split; [by destruct err|]. by intros (_ & _ & r' & [=] & _).
Qed.

#[global] Instance entry_good_dec e : Decision (entry_good e).
Proof. destruct (check_entry metadata opened display e) as [[line []]|] eqn:E; [right|left|right]; destruct (check_entry_spec e) as (l & b & E' & H); rewrite E in E'; try done; injection E' as -> <-; by rewrite <- H. Defined.

(** How many entries fail. *)
Definition failures (entries : list CheckEntry) : nat := length (filter (λ e, ¬ entry_good e) entries).

Lemma check_loop_spec entries : ∀ out failed, ∃ out' r, check_loop metadata opened display entries out failed = Some (out', r) ∧
  (sound out → sound out' ∧ r = Ok (failed + failures entries)%nat) ∧ (∀ n, r = Ok n → n = (failed + failures entries)%nat).
Proof.
  induction entries as [|e entries IH]; intros out failed; cbn [check_loop].
  - eexists _, _. split; [done|]. unfold failures. cbn. rewrite Nat.add_0_r. split; [done|]. by intros n [= <-].
  - destruct (check_entry_spec e) as (line & bad & -> & Hbad). cbn [mbind option_bind]. unfold writeln. pose proof (write_all_spec out (line ++ [0x0A])) as Hw.
    destruct (write_all out _) as [out1 r]. destruct Hw as ((_ & _ & Hso & _) & Hok & _). destruct r as [[]|err].
    + destruct (IH out1 (if (bad : bool) then S failed else failed)) as (out' & r & -> & H1 & H2). eexists _, _. split; [done|].
      assert ((if bad then S failed else failed) + failures entries = failed + failures (e :: entries))%nat as Ef.
      { unfold failures. rewrite filter_cons. destruct bad; case_decide as Hd; cbn [length]; try lia; exfalso; first [by apply Hbad in Hd|apply Hd; by apply Hbad]. }
      rewrite Ef in H1, H2. split; [intros Hs; apply H1; by apply Hso|done].
    + eexists _, _. split; [done|]. split; [|done]. intros Hs. by specialize (Hok Hs).
Qed.

(** The list is read whole, up to the limit. *)
Lemma read_check_list_spec input label : ∃ r, read_check_list (Ok input) label = Some r ∧
  match r with
  | Ok text => text = pending input ∧ length text ≤ HASH_CHECK_LIST_MAX_BYTES
  | Err _ => ¬ healthy input ∨ HASH_CHECK_LIST_MAX_BYTES < length (pending input)
  end.
Proof.
  unfold read_check_list. destruct (fill_chunk_spec input (replicate (HASH_CHECK_LIST_MAX_BYTES + 1) 0)) as (input' & text & res & -> & _ & Hl & Hres).
  cbn [mbind option_bind]. rewrite length_replicate in *. destruct res as [n|e]; [|eexists; split; [done|by left]]. destruct Hres as (En & -> & _).
  destruct (Nat.ltb_spec HASH_CHECK_LIST_MAX_BYTES n) as [Hlt|Hge]; (eexists; split; [done|]); [right; lia|].
  assert (n = length (pending input)) as -> by lia. rewrite firstn_all, copy_at_0 by (rewrite length_replicate; lia). rewrite take_app_length. split; [done|lia].
Qed.

Lemma run_hash_check_spec input label out : ∃ out' r, run_hash_check metadata opened display (Ok input) label out = Some (out', r) ∧
  (r = Ok tt → ∃ entries, parse_check_list (pending input) = Ok entries ∧ Forall entry_good entries) ∧
  (healthy input → length (pending input) ≤ HASH_CHECK_LIST_MAX_BYTES → sound out → ∀ entries, parse_check_list (pending input) = Ok entries →
     r = if Nat.ltb 0 (failures entries) then Err (HashCheckFailed (failures entries) (length entries)) else Ok tt).
Proof.
  unfold run_hash_check. destruct (read_check_list_spec input label) as (r & -> & Hr). cbn [mbind option_bind].
  destruct r as [text|e]; [|eexists _, _; split; [done|]; split; [done|]; intros Hh Hl; destruct Hr; [done|lia]]. destruct Hr as [-> Hle].
  destruct (parse_check_list (pending input)) as [entries|[| |n]]; try (eexists _, _; split; [done|]; by split).
  destruct (check_loop_spec entries out 0) as (out1 & r & -> & Hok & Hn). cbn [mbind option_bind Nat.add] in *.
  destruct r as [failed|e]; [|eexists _, _; split; [done|]; split; [done|]; intros _ _ Hs; by destruct (Hok Hs) as [_ [=]]].
  specialize (Hn failed eq_refl) as ->. destruct (publish out1) as [out2 r] eqn:Ep. destruct r as [[]|e].
  - eexists _, _. split; [done|]. split; [|by intros _ _ _ ? [= <-]]. destruct (Nat.ltb_spec 0 (failures entries)) as [?|Hz]; [done|]. intros _. exists entries. split; [done|].
    unfold failures in Hz. apply Nat.le_0_r, nil_length_inv in Hz. apply Forall_forall. intros e He. destruct (decide (entry_good e)) as [|Hbad]; [done|].
    exfalso. assert (e ∈ filter (λ e, ¬ entry_good e) entries) as Hin by by apply list_elem_of_filter. rewrite Hz in Hin. by apply not_elem_of_nil in Hin.
  - eexists _, _. split; [done|]. split; [done|]. intros _ _ Hs. destruct (Hok Hs) as [Hs1 _]. revert Ep Hs1. unfold publish, sound, next_fault.
    destruct (faults out1) as [|[m|] [|[m'|] fs]]; cbn; destruct (target out1); cbn; try (by intros [=]); intros _ Hf; repeat apply Forall_cons in Hf as [? Hf]; done.
Qed.
End checking.

(** ** Properties *)

(** A file or stream is hashed as a whole, however its reads are cut up or interrupted: a digest that is returned is that of all of
    it, a read that fails is reported for the path, and nothing else makes the command fail. *)
Theorem hash_streamed_exact (input : Reader) (source : path) : bytes_ok (pending input) → length (pending input) < 2 ^ 64 →
  ∃ r, hash_file_streamed (Ok input) source = Some r ∧
    match r with Ok d => d = kupyna_digest Kupyna256 (pending input) | Err e => ¬ healthy input ∧ ∃ message, e = Io source message end.
Proof. apply hash_file_spec. Qed.

Lemma hash_streamed_exact_witness :
  hash_file_streamed (Ok (slow_reader [1; 2; 3])) [] = Some (Ok (kupyna_digest Kupyna256 [1; 2; 3])).
Proof.
  destruct (hash_streamed_exact (slow_reader [1; 2; 3]) [] ltac:(by_decision) ltac:(by_decision)) as (r & E & Hr). rewrite E. destruct r as [d|e]; [by rewrite Hr|].
  exfalso. apply (proj1 Hr). repeat constructor.
Defined.

(** A check list is accepted exactly when it is lines of 64 hex digits, two spaces and a printable path, the last with or without
    its line feed; otherwise the error names the first line that is not one, or says that the list is empty or in UTF-16. *)
Theorem check_list_exact (text : list Z) : bytes_ok text → list_result text (parse_check_list text).
Proof. apply parse_check_list_spec. Qed.

Lemma check_list_exact_witness : bytes_ok (ascii_bytes "no list") ∧ list_result (ascii_bytes "no list") (parse_check_list (ascii_bytes "no list")).
Proof. assert (bytes_ok (ascii_bytes "no list")) as H by by_decision. exact (conj H (check_list_exact _ H)). Defined.

(** What [hash] prints for some files is a check list that says the same. *)
Theorem check_list_roundtrip (entries : list CheckEntry) : entries ≠ [] → Forall entry_ok entries →
  parse_check_list (concat (map (λ e, entry_line e ++ [0x0A]) entries)) = Ok entries.
Proof. apply parse_printed. Qed.

(** C22. [hash --check] reports success only when every entry of the list names a file that is there, can be read to its end, and has
    the digest of the entry, whatever happens to the output; and when the list can be read and the output works, the result is success or
    the number of the entries that fail, out of how many. *)
Theorem hash_check_exact (metadata : path → result bool string) (opened : path → result Reader CliError) (display : CliError → string) (input : Reader) (label : path) (out : Output)
    (readers_ok : ∀ p r, opened p = Ok r → bytes_ok (pending r) ∧ length (pending r) < 2 ^ 64) :
  ∃ out' r, run_hash_check metadata opened display (Ok input) label out = Some (out', r) ∧
  (r = Ok tt → ∃ entries, parse_check_list (pending input) = Ok entries ∧ Forall (entry_good metadata opened) entries) ∧
  (healthy input → length (pending input) ≤ HASH_CHECK_LIST_MAX_BYTES → sound out → ∀ entries, parse_check_list (pending input) = Ok entries →
     ∃ good bad, entries ≡ₚ good ++ bad ∧ Forall (entry_good metadata opened) good ∧ Forall (λ e, ¬ entry_good metadata opened e) bad ∧
       r = if Nat.ltb 0 (length bad) then Err (HashCheckFailed (length bad) (length entries)) else Ok tt).
Proof.
  destruct (run_hash_check_spec metadata opened display readers_ok input label out) as (out' & r & E & H1 & H2). exists out', r. split; [done|]. split; [done|].
  intros Hh Hl Hs entries Ep. pose proof (entry_good_dec metadata opened display readers_ok) as D.
  exists (filter (entry_good metadata opened) entries), (filter (λ e, ¬ entry_good metadata opened e) entries).
  split; [symmetry; apply filter_app_complement|]. split; [apply Forall_forall; by intros e [? _]%list_elem_of_filter|]. split; [apply Forall_forall; by intros e [? _]%list_elem_of_filter|].
  rewrite (H2 Hh Hl Hs entries Ep). unfold failures. erewrite list_filter_iff; [reflexivity|done].
Qed.

(** One file [a] with three bytes, and a list with its digest and the digest of a file that is not there. *)
Definition one_file_metadata (p : path) : result bool string := if bool_decide (p = [0x61]) then Ok true else Err "no such file"%string.
Definition one_file_opened (p : path) : result Reader CliError := if bool_decide (p = [0x61]) then Ok (slow_reader [1; 2; 3]) else Err (Io p "no such file").

Lemma hash_check_exact_witness : ∃ out' r,
  run_hash_check one_file_metadata one_file_opened (λ _, EmptyString) (Ok (slow_reader [0x61])) [] plain_output = Some (out', r) ∧
  (r = Ok tt → ∃ entries, parse_check_list [0x61] = Ok entries ∧ Forall (entry_good one_file_metadata one_file_opened) entries).
Proof.
  assert (∀ p r, one_file_opened p = Ok r → bytes_ok (pending r) ∧ length (pending r) < 2 ^ 64) as H.
  { intros p r. unfold one_file_opened. destruct (bool_decide (p = [0x61])); [|discriminate]. intros [= <-]. split; by_decision. }
  destruct (hash_check_exact one_file_metadata one_file_opened (λ _, EmptyString) (slow_reader [0x61]) [] plain_output H) as (out' & r & E & Hr & _).
  exists out', r. exact (conj E Hr).
Defined.
