(* ===== verification/KeyCommands.v ===== *)
(** The commands that make and convert key files ([uacrypt/src/lib.rs]): key generation for every kind, the public key of a secret one,
    and the import of raw keys; with the readers that the commands which use a key share.  A key file is read through [Keyfile.v] and
    its bytes are checked by the constructor of the key type.

    What creating and writing the new file gives is an argument, and so are the calls of the random source.  [None] stands for a
    panic, or for a loop of the key generation that is still running when its fuel is spent. *)

From stdpp Require Import strings.
From S2P Require Import Prelude External Randombytes BinaryCurve Limb Modular Gf4145 Scalar4145 Curve4145 Signature4145 CryptoSign.
From S2P Require Import Fp9041 Edwards Curve9041 Encryption9041 CryptoBox Keyfile CliError CliStream CliArgs HashCommand.
#[local] Open Scope Z_scope.
#[local] Open Scope uacrypt_scope.

(** ** Reading keys *)

(** The errors of [keyfile::read_key] name the path and the command. *)
Definition read_key_error (p : path) (command : string) (e : ReadError string) : CliError :=
  match e with
  | Keyfile.Io message => Io p message
  | Keyfile.KeyFileNotTyped => KeyFileNotTyped p
  | Keyfile.KeyFileMalformed kind => KeyFileMalformed p kind
  | Keyfile.KeyCheckMismatch kind => KeyCheckMismatch p kind
  | Keyfile.KeyKindMismatch found expected => KeyKindMismatch p command found expected
  end.

Definition read_key_file `{Subtle} (p : path) (command : string) (file : result (list Z) string) (expected : list KeyKind) :
    option (result (KeyKind * list Z) CliError) :=
  r ← read_key file expected;
  Some (match r with Ok found => Ok found | Err e => Err (read_key_error p command e) end).

(** [copy_from_slice] panics when the lengths differ. *)
Definition key_array (n : nat) (key : list Z) : option (list Z) :=
  let out := replicate n 0 in
  if Nat.eqb (length out) (length key) then Some (copy_at 0 key out) else None.

(** [key.ok_or(error)]. *)
Definition ok_or {A} (key : option A) (e : CliError) : result A CliError :=
  match key with Some k => Ok k | None => Err e end.

Inductive AnySigningKey : Type := SigningM163 (k : SigningKey) | SigningM257 (k : SigningKey).
Inductive AnyVerifyingKey : Type := VerifyingM163 (k : VerifyingKey) | VerifyingM257 (k : VerifyingKey).
Inductive AnyBoxSecret : Type := SecretL256 (k : CryptoBox.SecretKey) | SecretL384 (k : CryptoBox.SecretKey) | SecretL512 (k : CryptoBox.SecretKey).
Inductive AnyBoxPublic : Type := PublicL256 (k : Point) | PublicL384 (k : Point) | PublicL512 (k : Point).

Section reading.
Context `{Subtle}.

Definition read_signing_key (p : path) (command : string) (file : result (list Z) string) : option (result AnySigningKey CliError) :=
  r ← read_key_file p command file [Sign163Secret; Sign257Secret];
  match r with
  | Err e => Some (Err e)
  | Ok (kind, bytes) =>
      key ← (if bool_decide (kind = Sign163Secret) then d ← key_array 21 bytes; Some (SigningM163 <$> key_from_bytes Fb163 d)
             else d ← key_array 33 bytes; Some (SigningM257 <$> key_from_bytes Fb257 d));
      Some (ok_or key SignKeyInvalid)
  end.

Definition read_verifying_key (p : path) (file : result (list Z) string) : option (result AnyVerifyingKey CliError) :=
  r ← read_key_file p "verify" file [Sign163Public; Sign257Public];
  match r with
  | Err e => Some (Err e)
  | Ok (kind, bytes) =>
      if bool_decide (kind = Sign163Public) then q ← key_array 42 bytes; Some (Ok (VerifyingM163 (from_uncompressed_bytes Fb163 q)))
      else q ← key_array 66 bytes; Some (Ok (VerifyingM257 (from_uncompressed_bytes Fb257 q)))
  end.

Definition read_box_secret_key (p : path) (command : string) (file : result (list Z) string) : option (result AnyBoxSecret CliError) :=
  r ← read_key_file p command file [Box256Secret; Box384Secret; Box512Secret];
  match r with
  | Err e => Some (Err e)
  | Ok (kind, bytes) =>
      key ← match kind with
        | Box256Secret => e ← key_array 32 bytes; Some (SecretL256 <$> secret_from_bytes Fp256 e)
        | Box384Secret => e ← key_array 48 bytes; Some (SecretL384 <$> secret_from_bytes Fp384 e)
        | _ => e ← key_array 64 bytes; Some (SecretL512 <$> secret_from_bytes Fp512 e)
        end;
      Some (ok_or key BoxKeyInvalid)
  end.

Definition read_box_public_key (p : path) (command : string) (file : result (list Z) string) : option (result AnyBoxPublic CliError) :=
  r ← read_key_file p command file [Box256Public; Box384Public; Box512Public];
  match r with
  | Err e => Some (Err e)
  | Ok (kind, bytes) =>
      key ← match kind with
        | Box256Public => q ← key_array 32 bytes; Some (PublicL256 <$> public_from_bytes Fp256 q)
        | Box384Public => q ← key_array 48 bytes; Some (PublicL384 <$> public_from_bytes Fp384 q)
        | _ => q ← key_array 64 bytes; Some (PublicL512 <$> public_from_bytes Fp512 q)
        end;
      Some (ok_or key BoxKeyInvalid)
  end.
End reading.

(** ** Writing a new key file *)

Inductive CreateNew : Type := Created | AlreadyExists | CreateFailed (message : string).

(** What the operating system answers: creating the file, and writing and syncing it (or writing and flushing stdout). *)
Record KeyOutput : Type := { create_private_new : CreateNew; write_and_sync : result unit string }.

(** What a command leaves at the path (or sent to stdout as a whole), and its result. *)
Definition key_outcome : Type := option (list Z) * result unit CliError.

Definition write_new_key_file (env : KeyOutput) (p : path) (bytes : list Z) : key_outcome :=
  match create_private_new env with
  | AlreadyExists => (None, Err (KeyFileExists p))
  | CreateFailed message => (None, Err (Io p message))
  | Created => match write_and_sync env with Err message => (None, Err (Io p message)) | Ok _ => (Some bytes, Ok tt) end
  end.

Definition write_key_output (env : KeyOutput) (sink : Sink) (line : list Z) : key_outcome :=
  match sink with
  | ToPath p => write_new_key_file env p line
  | Stdout => match write_and_sync env with Err message => (None, Err (stdout_error message)) | Ok _ => (Some line, Ok tt) end
  end.

(** ** Key generation *)

Section keygen.
Context {GE : Type} (random_text : RandomError GE → string).

Definition write_generated (kind : KeyKind) (key : result (list Z) (RandomError GE)) (env : KeyOutput) (p : path) : option key_outcome :=
  match key with
  | Err e => Some (None, Err (Random (random_text e)))
  | Ok bytes => line ← encode kind bytes; Some (write_new_key_file env p line)
  end.

Definition run_keygen_command (fill : fill_call GE) (env : KeyOutput) (p : path) : option key_outcome :=
  write_generated Symmetric (generate_key fill) env p.

Definition run_sign_keygen_command (fuel : nat) (calls : nat → fill_call GE) (env : KeyOutput) (p : path) : option key_outcome :=
  r ← generate Fb163 fuel calls;
  write_generated Sign163Secret (result_bind r (λ k, Ok (key_to_bytes Fb163 k))) env p.

Definition run_sign_keygen257_command (fuel : nat) (calls : nat → fill_call GE) (env : KeyOutput) (p : path) : option key_outcome :=
  r ← generate Fb257 fuel calls;
  write_generated Sign257Secret (result_bind r (λ k, Ok (key_to_bytes Fb257 k))) env p.

Definition run_box_keygen_command (fuel : nat) (calls : nat → fill_call GE) (env : KeyOutput) (p : path) : option key_outcome :=
  r ← secret_generate Fp256 fuel calls;
  write_generated Box256Secret (result_bind r (λ k, Ok (secret_to_bytes k))) env p.

Definition run_box384_keygen_command (fuel : nat) (calls : nat → fill_call GE) (env : KeyOutput) (p : path) : option key_outcome :=
  r ← secret_generate Fp384 fuel calls;
  write_generated Box384Secret (result_bind r (λ k, Ok (secret_to_bytes k))) env p.

Definition run_box512_keygen_command (fuel : nat) (calls : nat → fill_call GE) (env : KeyOutput) (p : path) : option key_outcome :=
  r ← secret_generate Fp512 fuel calls;
  write_generated Box512Secret (result_bind r (λ k, Ok (secret_to_bytes k))) env p.
End keygen.

(** ** Public keys *)

Definition verifying_key_line (fa : bool) (self : AnySigningKey) : option (list Z) :=
  match self with
  | SigningM163 k => encode Sign163Public (to_uncompressed_bytes Fb163 (verifying_key fa Fb163 k))
  | SigningM257 k => encode Sign257Public (to_uncompressed_bytes Fb257 (verifying_key fa Fb257 k))
  end.

Definition public_key_line (self : AnyBoxSecret) : option (list Z) :=
  match self with
  | SecretL256 k => encode Box256Public (public_to_bytes Fp256 (public_key k))
  | SecretL384 k => encode Box384Public (public_to_bytes Fp384 (public_key k))
  | SecretL512 k => encode Box512Public (public_to_bytes Fp512 (public_key k))
  end.

Section pubkey.
Context `{Subtle}.

Definition run_sign_pubkey_command (fa : bool) (args : PubkeyArgs) (file : result (list Z) string) (env : KeyOutput) : option key_outcome :=
  r ← read_signing_key (pubkey_key_path args) "sign-pubkey" file;
  match r with
  | Err e => Some (None, Err e)
  | Ok key => line ← verifying_key_line fa key; Some (write_key_output env (pubkey_out_path args) line)
  end.

Definition run_box_pubkey_command (args : PubkeyArgs) (file : result (list Z) string) (env : KeyOutput) : option key_outcome :=
  r ← read_box_secret_key (pubkey_key_path args) "box-pubkey" file;
  match r with
  | Err e => Some (None, Err e)
  | Ok key => line ← public_key_line key; Some (write_key_output env (pubkey_out_path args) line)
  end.
End pubkey.

(** ** Import *)

(** The length of a raw key file, and the curve byte in front of a verifying key. *)
Definition raw_key_layout (kind : KeyKind) : LengthOf.LengthOf * nat * option Z :=
  match kind with
  | Symmetric => (LengthOf.Key, 32%nat, None)
  | Sign163Secret | Sign257Secret => (LengthOf.SigningKey, key_len kind, None)
  | Sign163Public => (LengthOf.VerifyingKey, 43%nat, Some (to_byte M163))
  | Sign257Public => (LengthOf.VerifyingKey, 67%nat, Some (to_byte M257))
  | Box256Secret => (LengthOf.BoxSecretKey, 32%nat, None)
  | Box256Public => (LengthOf.BoxPublicKey, 32%nat, None)
  | Box384Secret => (LengthOf.Box384SecretKey, 48%nat, None)
  | Box384Public => (LengthOf.Box384PublicKey, 48%nat, None)
  | Box512Secret => (LengthOf.Box512SecretKey, 64%nat, None)
  | Box512Public => (LengthOf.Box512PublicKey, 64%nat, None)
  end.

Definition read_exact_file (p : path) (file : result (list Z) string) (what : LengthOf.LengthOf) (expected_len : nat) : result (list Z) CliError :=
  match file with
  | Err message => Err (Io p message)
  | Ok bytes => if negb (Nat.eqb (length bytes) expected_len) then Err (WrongLength what expected_len (length bytes)) else Ok bytes
  end.

(** [keyfile::check_hex]. *)
Definition check_hex (kind : KeyKind) (key : list Z) : option (list Z) :=
  check ← check_value kind key;
  Some (hex_lower check).

(** The check value of a secret key's public key. *)
Definition validate_secret {K} (key : option K) (e : CliError) (public_kind : KeyKind) (public : K → list Z) : option (result (option (list Z)) CliError) :=
  match key with
  | None => Some (Err e)
  | Some sk => check ← check_hex public_kind (public sk); Some (Ok (Some check))
  end.

Definition validate_public {K} (key : option K) : option (result (option (list Z)) CliError) :=
  Some (match key with None => Err BoxKeyInvalid | Some _ => Ok None end).

Definition validate_imported_key (fa : bool) (kind : KeyKind) (key : list Z) : option (result (option (list Z)) CliError) :=
  match kind with
  | Symmetric | Sign163Public | Sign257Public => Some (Ok None)
  | Sign163Secret =>
      d ← key_array 21 key;
      validate_secret (key_from_bytes Fb163 d) SignKeyInvalid Sign163Public (λ sk, to_uncompressed_bytes Fb163 (verifying_key fa Fb163 sk))
  | Sign257Secret =>
      d ← key_array 33 key;
      validate_secret (key_from_bytes Fb257 d) SignKeyInvalid Sign257Public (λ sk, to_uncompressed_bytes Fb257 (verifying_key fa Fb257 sk))
  | Box256Secret => e ← key_array 32 key; validate_secret (secret_from_bytes Fp256 e) BoxKeyInvalid Box256Public (λ sk, public_to_bytes Fp256 (public_key sk))
  | Box256Public => q ← key_array 32 key; validate_public (public_from_bytes Fp256 q)
  | Box384Secret => e ← key_array 48 key; validate_secret (secret_from_bytes Fp384 e) BoxKeyInvalid Box384Public (λ sk, public_to_bytes Fp384 (public_key sk))
  | Box384Public => q ← key_array 48 key; validate_public (public_from_bytes Fp384 q)
  | Box512Secret => e ← key_array 64 key; validate_secret (secret_from_bytes Fp512 e) BoxKeyInvalid Box512Public (λ sk, public_to_bytes Fp512 (public_key sk))
  | Box512Public => q ← key_array 64 key; validate_public (public_from_bytes Fp512 q)
  end.

Definition run_key_import_command (fa : bool) (args : KeyImportArgs) (file : result (list Z) string) (env : KeyOutput) : option key_outcome :=
  let kind := import_kind args in
  let '(what, len, curve_byte) := raw_key_layout kind in
  match read_exact_file (import_in_path args) file what len with
  | Err e => Some (None, Err e)
  | Ok raw =>
      let key := match curve_byte with
        | Some expected => if negb (Z.eqb (raw.[0]) expected) then Err (KeyImportCurveByte (import_in_path args) kind (raw.[0])) else Ok (drop 1 raw)
        | None => Ok raw
        end in
      match key with
      | Err e => Some (None, Err e)
      | Ok key =>
          r ← validate_imported_key fa kind key;
          match r with
          | Err e => Some (None, Err e)
          | Ok _ => line ← encode kind key; Some (write_key_output env (import_out_path args) line)
          end
      end
  end.

(** ** Key arrays *)

Lemma key_array_spec n key : length key = n → key_array n key = Some key.
Proof.
  intros Hl. unfold key_array. cbv zeta. rewrite length_replicate, Hl, Nat.eqb_refl. f_equal. apply copy_at_whole. by rewrite length_replicate.
Qed.

(** ** One text over the curve *)

Definition sign_secret_kind (F : fb) : KeyKind := match F with Fb163 => Sign163Secret | Fb257 => Sign257Secret end.
Definition sign_public_kind (F : fb) : KeyKind := match F with Fb163 => Sign163Public | Fb257 => Sign257Public end.
Definition box_secret_kind (F : fp) : KeyKind := match F with Fp256 => Box256Secret | Fp384 => Box384Secret | Fp512 => Box512Secret end.
Definition box_public_kind (F : fp) : KeyKind := match F with Fp256 => Box256Public | Fp384 => Box384Public | Fp512 => Box512Public end.
Definition any_signing (F : fb) : SigningKey → AnySigningKey := match F with Fb163 => SigningM163 | Fb257 => SigningM257 end.
Definition any_verifying (F : fb) : VerifyingKey → AnyVerifyingKey := match F with Fb163 => VerifyingM163 | Fb257 => VerifyingM257 end.
Definition any_secret (F : fp) : CryptoBox.SecretKey → AnyBoxSecret := match F with Fp256 => SecretL256 | Fp384 => SecretL384 | Fp512 => SecretL512 end.
Definition any_public (F : fp) : Point → AnyBoxPublic := match F with Fp256 => PublicL256 | Fp384 => PublicL384 | Fp512 => PublicL512 end.

Lemma sign_key_lengths F : key_len (sign_secret_kind F) = fb_bytes F ∧ key_len (sign_public_kind F) = (2 * fb_bytes F)%nat.
Proof. by destruct F. Qed.

Lemma box_key_lengths F : key_len (box_secret_kind F) = bytes_of F ∧ key_len (box_public_kind F) = bytes_of F.
Proof. by destruct F. Qed.

(** ** Reading *)

(** A file with the line of this key, with or without a line break behind it. *)
Definition key_file (contents : list Z) (kind : KeyKind) (key : list Z) : Prop :=
  array_ok (key_len kind) key ∧ ∃ nl, line_break nl ∧ contents = line_of kind key ++ nl.

Lemma key_file_line kind key : array_ok (key_len kind) key → key_file (line_of kind key ++ [0x0A]) kind key.
Proof. intros Hk. split; [done|]. exists [0x0A]. split; [unfold line_break; auto|done]. Qed.

Lemma key_file_bytes contents kind key : key_file contents kind key → bytes_ok contents.
Proof. intros [Hk (nl & Hnl & ->)]. apply Forall_app. split; [by apply line_of_ok|]. destruct Hnl as [-> |[-> | ->]]; by_decision. Qed.

Lemma key_file_unique contents kind key kind' key' : key_file contents kind key → key_file contents kind' key' → kind = kind' ∧ key = key'.
Proof.
  intros Hf Hf'. pose proof (key_file_bytes _ _ _ Hf) as Hb. unfold key_file in Hf, Hf'.
  apply (@decode_exact plain_subtle plain_subtle_laws contents kind key Hb) in Hf. apply (@decode_exact plain_subtle plain_subtle_laws contents kind' key' Hb) in Hf'.
  rewrite Hf in Hf'. by injection Hf'.
Qed.

Section read.
Context `{SubtleLaws}.

Lemma read_key_file_spec p command contents expected : bytes_ok contents →
  ∃ r, read_key_file p command (Ok contents) expected = Some r ∧
    match r with
    | Ok (kind, key) => kind ∈ expected ∧ key_file contents kind key
    | Err _ => ∀ kind key, kind ∈ expected → ¬ key_file contents kind key
    end.
Proof.
  intros Hb. unfold read_key_file. assert (∃ r, read_key (IoError := string) (Ok contents) expected = Some r) as [r Er].
  { unfold read_key. destruct (decode_spec (take (MAX_KEY_FILE_BYTES + 1) contents)) as (r & -> & _); [by apply Forall_take|]. cbn [mbind option_bind]. by eexists. }
  rewrite Er. cbn [mbind option_bind]. eexists. split; [done|]. destruct r as [[kind key]|e].
  - by apply (read_key_exact_lemma (IoError := string) contents expected kind key Hb).
  - intros kind key Hin Hf. assert (read_key (IoError := string) (Ok contents) expected = Some (Ok (kind, key))) as E by (by apply read_key_exact_lemma). congruence.
Qed.

(** A command that takes the kinds of an index, and makes a key of the bytes in a way that depends on it. *)
Lemma read_kinds_spec {A K} (kinds : A → KeyKind) (all : list A) (parse : A → list Z → option K) p command contents :
  (∀ a b, kinds a = kinds b → a = b) → (∀ a, a ∈ all) → bytes_ok contents →
  ∃ r, read_key_file p command (Ok contents) (map kinds all) = Some r ∧
    match r with
    | Ok (kind, key) => ∃ a, kind = kinds a ∧ length key = key_len (kinds a) ∧
        ∀ k, parse a key = Some k ↔ ∃ a' key', key_file contents (kinds a') key' ∧ parse a' key' = Some k
    | Err _ => ∀ a key, ¬ key_file contents (kinds a) key
    end.
Proof.
  intros Hinj Hall Hb. destruct (read_key_file_spec p command contents (map kinds all) Hb) as (r & -> & Hr). eexists. split; [done|]. destruct r as [[kind key]|e].
  - destruct Hr as [(a & -> & _)%list_elem_of_fmap Hf]. exists a. split; [done|]. split; [apply Hf|]. intros k. split; [by exists a, key|].
    intros (a' & key' & Hf' & Hp). destruct (key_file_unique _ _ _ _ _ Hf Hf') as [E <-]. by rewrite (Hinj _ _ E).
  - intros a key. apply Hr, list_elem_of_fmap. by exists a.
Qed.

Lemma ok_or_spec {A} (key : option A) e k : ok_or key e = Ok k ↔ key = Some k.
Proof. destruct key; cbn; split; congruence. Qed.

(** Each reader accepts exactly the lines of its kinds whose bytes make a key, and returns that key. *)
Lemma signing_key_file p command contents : bytes_ok contents →
  ∃ r, read_signing_key p command (Ok contents) = Some r ∧
    ∀ k, r = Ok k ↔ ∃ F key, key_file contents (sign_secret_kind F) key ∧ any_signing F <$> key_from_bytes F key = Some k.
Proof.
  intros Hb. unfold read_signing_key.
  destruct (read_kinds_spec sign_secret_kind [Fb163; Fb257] (λ F key, any_signing F <$> key_from_bytes F key) p command contents) as (r & Er & Hr); [by intros [] []|intros []; repeat constructor|done|].
  change [Sign163Secret; Sign257Secret] with (map sign_secret_kind [Fb163; Fb257]). rewrite Er. cbn [mbind option_bind]. destruct r as [[kind key]|e].
  - destruct Hr as (F & -> & Hl & Hr). exists (ok_or (any_signing F <$> key_from_bytes F key) SignKeyInvalid). split; [|intros k; by rewrite ok_or_spec].
    destruct F; cbn [sign_secret_kind key_len] in *; rewrite (key_array_spec _ _ Hl); reflexivity.
  - eexists. split; [done|]. intros k. split; [done|]. intros (F & key & Hf & _). by destruct (Hr F key).
Qed.

Lemma verifying_key_file p contents : bytes_ok contents →
  ∃ r, read_verifying_key p (Ok contents) = Some r ∧
    ∀ k, r = Ok k ↔ ∃ F key, key_file contents (sign_public_kind F) key ∧ Some (any_verifying F (from_uncompressed_bytes F key)) = Some k.
Proof.
  intros Hb. unfold read_verifying_key.
  destruct (read_kinds_spec sign_public_kind [Fb163; Fb257] (λ F key, Some (any_verifying F (from_uncompressed_bytes F key))) p "verify" contents) as (r & Er & Hr);
    [by intros [] []|intros []; repeat constructor|done|].
  change [Sign163Public; Sign257Public] with (map sign_public_kind [Fb163; Fb257]). rewrite Er. cbn [mbind option_bind]. destruct r as [[kind key]|e].
  - destruct Hr as (F & -> & Hl & Hr). exists (Ok (any_verifying F (from_uncompressed_bytes F key))). split; [|intros k; rewrite <- Hr; split; congruence].
    destruct F; cbn [sign_public_kind key_len] in *; rewrite (key_array_spec _ _ Hl); reflexivity.
  - eexists. split; [done|]. intros k. split; [done|]. intros (F & key & Hf & _). by destruct (Hr F key).
Qed.

Lemma box_secret_file p command contents : bytes_ok contents →
  ∃ r, read_box_secret_key p command (Ok contents) = Some r ∧
    ∀ k, r = Ok k ↔ ∃ F key, key_file contents (box_secret_kind F) key ∧ any_secret F <$> secret_from_bytes F key = Some k.
Proof.
  intros Hb. unfold read_box_secret_key.
  destruct (read_kinds_spec box_secret_kind [Fp256; Fp384; Fp512] (λ F key, any_secret F <$> secret_from_bytes F key) p command contents) as (r & Er & Hr); [by intros [] []|intros []; repeat constructor|done|].
  change [Box256Secret; Box384Secret; Box512Secret] with (map box_secret_kind [Fp256; Fp384; Fp512]). rewrite Er. cbn [mbind option_bind]. destruct r as [[kind key]|e].
  - destruct Hr as (F & -> & Hl & Hr). exists (ok_or (any_secret F <$> secret_from_bytes F key) BoxKeyInvalid). split; [|intros k; by rewrite ok_or_spec].
    destruct F; cbn [box_secret_kind key_len] in *; rewrite (key_array_spec _ _ Hl); reflexivity.
  - eexists. split; [done|]. intros k. split; [done|]. intros (F & key & Hf & _). by destruct (Hr F key).
Qed.

Lemma box_public_file p command contents : bytes_ok contents →
  ∃ r, read_box_public_key p command (Ok contents) = Some r ∧
    ∀ k, r = Ok k ↔ ∃ F key, key_file contents (box_public_kind F) key ∧ any_public F <$> public_from_bytes F key = Some k.
Proof.
  intros Hb. unfold read_box_public_key.
  destruct (read_kinds_spec box_public_kind [Fp256; Fp384; Fp512] (λ F key, any_public F <$> public_from_bytes F key) p command contents) as (r & Er & Hr); [by intros [] []|intros []; repeat constructor|done|].
  change [Box256Public; Box384Public; Box512Public] with (map box_public_kind [Fp256; Fp384; Fp512]). rewrite Er. cbn [mbind option_bind]. destruct r as [[kind key]|e].
  - destruct Hr as (F & -> & Hl & Hr). exists (ok_or (any_public F <$> public_from_bytes F key) BoxKeyInvalid). split; [|intros k; by rewrite ok_or_spec].
    destruct F; cbn [box_public_kind key_len] in *; rewrite (key_array_spec _ _ Hl); reflexivity.
  - eexists. split; [done|]. intros k. split; [done|]. intros (F & key & Hf & _). by destruct (Hr F key).
Qed.
End read.

(** ** Writing *)

(** The output can be made. *)
Definition output_works (env : KeyOutput) (sink : Sink) : Prop :=
  write_and_sync env = Ok tt ∧ match sink with ToPath _ => create_private_new env = Created | Stdout => True end.

(** The file appears exactly when the command succeeds, and holds the line; it succeeds when the output can be made. *)
Lemma write_key_output_spec env sink line : let '(o, r) := write_key_output env sink line in
  (r = Ok tt ↔ output_works env sink) ∧ (r = Ok tt → o = Some line) ∧ (r ≠ Ok tt → o = None).
Proof.
  unfold write_key_output, write_new_key_file, output_works. destruct sink as [|p], (create_private_new env), (write_and_sync env) as [[]|m]; cbn;
    (split; [split; [done || by split|done || by intros [? ?]]|by split]).
Qed.

(** ** Import *)

(** What a raw key file has in front of the key. *)
Definition raw_prefix (kind : KeyKind) : list Z := match raw_key_layout kind with (_, _, Some b) => [b] | (_, _, None) => [] end.

(** The bytes are a key of this kind, as the constructor of the key type decides. *)
Definition key_accepted (kind : KeyKind) (key : list Z) : Prop :=
  match kind with
  | Symmetric | Sign163Public | Sign257Public => True
  | Sign163Secret => 0 < from_be_bytes key < order_val Fb163
  | Sign257Secret => 0 < from_be_bytes key < order_val Fb257
  | Box256Secret => 1 < from_be_bytes key < n_of Fp256 - 1
  | Box384Secret => 1 < from_be_bytes key < n_of Fp384 - 1
  | Box512Secret => 1 < from_be_bytes key < n_of Fp512 - 1
  | Box256Public => public_from_bytes Fp256 key ≠ None
  | Box384Public => public_from_bytes Fp384 key ≠ None
  | Box512Public => public_from_bytes Fp512 key ≠ None
  end.

Lemma signing_bytes F key : array_ok (fb_bytes F) key →
  match key_from_bytes F key with
  | Some d => 0 < from_be_bytes key < order_val F ∧ sc_ok F d ∧ limbs_val d = from_be_bytes key
  | None => ¬ 0 < from_be_bytes key < order_val F
  end.
Proof.
  intros Hk. unfold key_from_bytes. rewrite from_candidate_bytes_ok by done. case_decide as Hr; [|done].
  destruct (sc_from_be_bytes_ok F key) as [H1 H2]; [apply Hk|by rewrite (proj1 Hk)|]. split; [done|]. split; [|done]. split; [done|]. lia.
Qed.

Lemma secret_bytes F key : array_ok (bytes_of F) key →
  match secret_from_bytes F key with
  | Some d => 1 < from_be_bytes key < n_of F - 1 ∧ is_valid_scalar F key = true ∧ d = from_valid_scalar F key
  | None => ¬ 1 < from_be_bytes key < n_of F - 1
  end.
Proof.
  intros Hk. unfold secret_from_bytes. pose proof (is_valid_scalar_spec F key Hk) as Hs. destruct (is_valid_scalar F key).
  - split; [by apply Hs|done].
  - intros H. by apply Hs in H.
Qed.

Lemma check_hex_some kind key : array_ok (key_len kind) key → ∃ c, check_hex kind key = Some c.
Proof.
  intros [Hl Hb]. unfold check_hex. destruct (check_value_spec kind key Hb) as [-> _]; [rewrite Hl; apply key_len_small|]. cbn [mbind option_bind]. by eexists.
Qed.

Lemma validate_signing fa F key e : array_ok (fb_bytes F) key →
  ∃ r, validate_secret (key_from_bytes F key) e (sign_public_kind F) (λ sk, to_uncompressed_bytes F (verifying_key fa F sk)) = Some r ∧
    ((∃ c, r = Ok c) ↔ 0 < from_be_bytes key < order_val F).
Proof.
  intros Hk. pose proof (signing_bytes F key Hk) as Hs. unfold validate_secret. destruct (key_from_bytes F key) as [d|].
  - destruct Hs as (Hr & Hd & Hv). destruct (verifying_key_bytes fa F d Hd ltac:(lia)) as [Ha _]. rewrite <- (proj2 (sign_key_lengths F)) in Ha.
    destruct (check_hex_some _ _ Ha) as [c ->]. cbn [mbind option_bind]. eexists. split; [done|]. split; [done|]. intros _. by eexists.
  - eexists. split; [done|]. split; [by intros [c [=]]|done].
Qed.

Lemma validate_box_secret F key e : Z.prime (p_of F) → array_ok (bytes_of F) key →
  ∃ r, validate_secret (secret_from_bytes F key) e (box_public_kind F) (λ sk, public_to_bytes F (public_key sk)) = Some r ∧
    ((∃ c, r = Ok c) ↔ 1 < from_be_bytes key < n_of F - 1).
Proof.
  intros Hp Hk. pose proof (secret_bytes F key Hk) as Hs. unfold validate_secret. destruct (secret_from_bytes F key) as [d|].
  - destruct Hs as (Hr & Hd & ->). pose proof (public_to_bytes_ok F _ (public_ok F key Hp)) as Ha. rewrite public_len, <- (proj2 (box_key_lengths F)) in Ha.
    destruct (check_hex_some _ _ Ha) as [c ->]. cbn [mbind option_bind]. eexists. split; [done|]. split; [done|]. intros _. by eexists.
  - eexists. split; [done|]. split; [by intros [c [=]]|done].
Qed.

Lemma validate_box_public {K} (q : option K) : ∃ r, validate_public q = Some r ∧ ((∃ c, r = Ok c) ↔ q ≠ None).
Proof. unfold validate_public. eexists. split; [done|]. destruct q; (split; [by intros [c [=]]|done || by eexists]). Qed.

Lemma validate_spec fa kind key : (∀ F, kind = box_secret_kind F → Z.prime (p_of F)) → array_ok (key_len kind) key →
  ∃ r, validate_imported_key fa kind key = Some r ∧ ((∃ c, r = Ok c) ↔ key_accepted kind key).
Proof.
  intros Hp Hk. pose proof (proj1 Hk) as Hl. unfold validate_imported_key, key_accepted.
  destruct kind; cbn [key_len] in *; rewrite ?(key_array_spec _ _ Hl); cbn [mbind option_bind].
  1, 3, 5: eexists; split; [done|]; split; [done|]; intros _; by eexists.
  - exact (validate_signing fa Fb163 key _ Hk).
  - exact (validate_signing fa Fb257 key _ Hk).
  - exact (validate_box_secret Fp256 key _ (Hp Fp256 eq_refl) Hk).
  - apply validate_box_public.
  - exact (validate_box_secret Fp384 key _ (Hp Fp384 eq_refl) Hk).
  - apply validate_box_public.
  - exact (validate_box_secret Fp512 key _ (Hp Fp512 eq_refl) Hk).
  - apply validate_box_public.
Qed.

(** The reader of the commands that use this kind of key accepts the file. *)
Definition read_by_its_commands `{Subtle} (kind : KeyKind) (contents : list Z) : Prop :=
  ∀ p command,
  match kind with
  | Symmetric => ∃ key, read_key_file p command (Ok contents) [Symmetric] = Some (Ok (Symmetric, key))
  | Sign163Secret | Sign257Secret => ∃ k, read_signing_key p command (Ok contents) = Some (Ok k)
  | Sign163Public | Sign257Public => ∃ k, read_verifying_key p (Ok contents) = Some (Ok k)
  | Box256Secret | Box384Secret | Box512Secret => ∃ k, read_box_secret_key p command (Ok contents) = Some (Ok k)
  | Box256Public | Box384Public | Box512Public => ∃ k, read_box_public_key p command (Ok contents) = Some (Ok k)
  end.

Section commands.
Context `{SubtleLaws}.

Lemma read_signing_accepted F p command key : array_ok (fb_bytes F) key → 0 < from_be_bytes key < order_val F →
  ∃ k, read_signing_key p command (Ok (line_of (sign_secret_kind F) key ++ [0x0A])) = Some (Ok k).
Proof.
  intros Hk Hr. pose proof (signing_bytes F key Hk) as Hs. destruct (key_from_bytes F key) as [d|] eqn:Ed; [|done].
  assert (array_ok (key_len (sign_secret_kind F)) key) as Hk' by (by rewrite (proj1 (sign_key_lengths F))). pose proof (key_file_line _ _ Hk') as Hf.
  destruct (signing_key_file p command _ (key_file_bytes _ _ _ Hf)) as (r & -> & Hrd). exists (any_signing F d). f_equal. apply Hrd. exists F, key. by rewrite Ed.
Qed.

Lemma read_verifying_accepted F p key : array_ok (2 * fb_bytes F) key →
  ∃ k, read_verifying_key p (Ok (line_of (sign_public_kind F) key ++ [0x0A])) = Some (Ok k).
Proof.
  intros Hk. assert (array_ok (key_len (sign_public_kind F)) key) as Hk' by (by rewrite (proj2 (sign_key_lengths F))). pose proof (key_file_line _ _ Hk') as Hf.
  destruct (verifying_key_file p _ (key_file_bytes _ _ _ Hf)) as (r & -> & Hrd). exists (any_verifying F (from_uncompressed_bytes F key)). f_equal. apply Hrd. by exists F, key.
Qed.

Lemma read_secret_accepted F p command key : array_ok (bytes_of F) key → 1 < from_be_bytes key < n_of F - 1 →
  ∃ k, read_box_secret_key p command (Ok (line_of (box_secret_kind F) key ++ [0x0A])) = Some (Ok k).
Proof.
  intros Hk Hr. pose proof (secret_bytes F key Hk) as Hs. destruct (secret_from_bytes F key) as [d|] eqn:Ed; [|done].
  assert (array_ok (key_len (box_secret_kind F)) key) as Hk' by (by rewrite (proj1 (box_key_lengths F))). pose proof (key_file_line _ _ Hk') as Hf.
  destruct (box_secret_file p command _ (key_file_bytes _ _ _ Hf)) as (r & -> & Hrd). exists (any_secret F d). f_equal. apply Hrd. exists F, key. by rewrite Ed.
Qed.

Lemma read_public_accepted F p command key : array_ok (bytes_of F) key → public_from_bytes F key ≠ None →
  ∃ k, read_box_public_key p command (Ok (line_of (box_public_kind F) key ++ [0x0A])) = Some (Ok k).
Proof.
  intros Hk Hr. destruct (public_from_bytes F key) as [q|] eqn:Eq; [|done].
  assert (array_ok (key_len (box_public_kind F)) key) as Hk' by (by rewrite (proj2 (box_key_lengths F))). pose proof (key_file_line _ _ Hk') as Hf.
  destruct (box_public_file p command _ (key_file_bytes _ _ _ Hf)) as (r & -> & Hrd). exists (any_public F q). f_equal. apply Hrd. exists F, key. by rewrite Eq.
Qed.

(** A line whose bytes are a key of its kind is read. *)
Lemma accepted_is_read kind key : array_ok (key_len kind) key → key_accepted kind key → read_by_its_commands kind (line_of kind key ++ [0x0A]).
Proof.
  intros Hk Ha p command. destruct kind; cbn [key_accepted] in Ha.
  - exists key. pose proof (key_file_line _ _ Hk) as Hf. destruct (read_key_file_spec p command _ [Symmetric] (key_file_bytes _ _ _ Hf)) as ([[kind' key']|e] & -> & Hr).
    + destruct Hr as [_ Hf']. by destruct (key_file_unique _ _ _ _ _ Hf Hf') as [<- <-].
    + by destruct (Hr Symmetric key); [by_decision|].
  - by apply (read_signing_accepted Fb163).
  - by apply (read_verifying_accepted Fb163).
  - by apply (read_signing_accepted Fb257).
  - by apply (read_verifying_accepted Fb257).
  - by apply (read_secret_accepted Fp256).
  - by apply (read_public_accepted Fp256).
  - by apply (read_secret_accepted Fp384).
  - by apply (read_public_accepted Fp384).
  - by apply (read_secret_accepted Fp512).
  - by apply (read_public_accepted Fp512).
Qed.

Lemma raw_layout_length kind : (raw_key_layout kind).1.2 = (length (raw_prefix kind) + key_len kind)%nat.
Proof. by destruct kind. Qed.

(** A raw file of the right length splits into the curve byte, if there is one, and a key. *)
Lemma import_run fa args raw env : bytes_ok raw → (∀ F, import_kind args = box_secret_kind F → Z.prime (p_of F)) →
  ∃ o r, run_key_import_command fa args (Ok raw) env = Some (o, r) ∧
    ((∃ key, raw = raw_prefix (import_kind args) ++ key ∧ array_ok (key_len (import_kind args)) key ∧ key_accepted (import_kind args) key ∧
        (o, r) = write_key_output env (import_out_path args) (line_of (import_kind args) key ++ [0x0A])) ∨
     (r ≠ Ok tt ∧ o = None ∧ ∀ key, raw = raw_prefix (import_kind args) ++ key → array_ok (key_len (import_kind args)) key → ¬ key_accepted (import_kind args) key)).
Proof.
  intros Hb Hp. unfold run_key_import_command. cbv zeta. set (kind := import_kind args) in *. pose proof (raw_layout_length kind) as Hlay. unfold raw_prefix in *.
  destruct (raw_key_layout kind) as [[what len] curve]. cbn [fst snd] in Hlay. unfold read_exact_file.
  destruct (Nat.eqb_spec (length raw) len) as [Hl|Hl]; cbn [negb].
  2:{ eexists _, _. split; [done|]. right. split; [done|]. split; [done|]. intros key -> [Hkl _]. exfalso. apply Hl. by rewrite length_app, Hkl. }
  assert (∀ key, raw = (match curve with Some b => [b] | None => [] end) ++ key → array_ok (key_len kind) key →
    ∃ o r, (r ← validate_imported_key fa kind key; match r with Err e => Some (None, Err e) | Ok _ => line ← encode kind key; Some (write_key_output env (import_out_path args) line) end) = Some (o, r) ∧
    ((∃ key, raw = (match curve with Some b => [b] | None => [] end) ++ key ∧ array_ok (key_len kind) key ∧ key_accepted kind key ∧ (o, r) = write_key_output env (import_out_path args) (line_of kind key ++ [0x0A])) ∨
     (r ≠ Ok tt ∧ o = None ∧ ∀ key, raw = (match curve with Some b => [b] | None => [] end) ++ key → array_ok (key_len kind) key → ¬ key_accepted kind key))) as Hrun.
  { intros key Eraw Hk. destruct (validate_spec fa kind key Hp Hk) as (r & -> & Hv). cbn [mbind option_bind]. destruct r as [c|e].
    - rewrite encode_spec; [|apply Hk|rewrite (proj1 Hk); apply key_len_small]. cbn [mbind option_bind].
      destruct (write_key_output env (import_out_path args) (line_of kind key ++ [0x0A])) as [o r] eqn:Ew. exists o, r. split; [done|]. left. exists key. rewrite Ew. split_and!; try done. apply Hv. by eexists.
    - eexists _, _. split; [done|]. right. split; [done|]. split; [done|]. intros key' E _ Ha. rewrite Eraw in E. apply app_inv_head in E as <-. apply Hv in Ha as [c [=]]. }
  destruct curve as [b|]; cbn [app length] in *.
  - destruct raw as [|c raw]; [cbn in Hl; lia|]. cbn [nth drop]. rewrite drop_0. cbn [length] in Hl. apply Forall_cons in Hb as [_ Hb]. destruct (Z.eqb_spec c b) as [->|Hc]; cbn [negb].
    + apply Hrun; [done|]. split; [lia|done].
    + eexists _, _. split; [done|]. right. split; [done|]. split; [done|]. by intros key [= E _].
  - apply Hrun; [done|]. split; [lia|done].
Qed.

(** A generated key makes a file. *)
Lemma write_generated_spec {GE} (random_text : RandomError GE → string) kind key env p : array_ok (key_len kind) key →
  write_generated random_text kind (Ok key) env p = Some (write_new_key_file env p (line_of kind key ++ [0x0A])).
Proof.
  intros [Hl Hb]. unfold write_generated. rewrite encode_spec by (done || (rewrite Hl; apply key_len_small)). done.
Qed.
End commands.

(** ** Generated keys *)

Section generated.
Context {GE : Type} (random_text : RandomError GE → string).

(** The commands that generate a key, each with the kind that it makes. *)
Definition keygen_commands (fuel : nat) (calls : nat → fill_call GE) (env : KeyOutput) (p : path) : list (KeyKind * option key_outcome) :=
  [(Symmetric, run_keygen_command random_text (calls O) env p);
   (Sign163Secret, run_sign_keygen_command random_text fuel calls env p);
   (Sign257Secret, run_sign_keygen257_command random_text fuel calls env p);
   (Box256Secret, run_box_keygen_command random_text fuel calls env p);
   (Box384Secret, run_box384_keygen_command random_text fuel calls env p);
   (Box512Secret, run_box512_keygen_command random_text fuel calls env p)].

(** The key that a string from the generator stands for: the signing keys take its low bits. *)
Definition drawn_key (kind : KeyKind) (bytes : list Z) : list Z :=
  match kind with
  | Sign163Secret => to_be_bytes 21 (from_be_bytes bytes mod 2 ^ 163)
  | Sign257Secret => to_be_bytes 33 (from_be_bytes bytes mod 2 ^ 256)
  | _ => bytes
  end.

(** A call that succeeds with a string that is not a key of this kind. *)
Definition candidate_rejected (kind : KeyKind) (call : fill_call GE) : Prop :=
  ∃ bytes, call (replicate (key_len kind) 0) = (bytes, Ok tt) ∧ ¬ key_accepted kind (drawn_key kind bytes).

(** What a generated key comes from: the first call that fails or gives a key. *)
Definition drawn (kind : KeyKind) (fuel : nat) (calls : nat → fill_call GE) (key : option (result (list Z) (RandomError GE))) : Prop :=
  match key with
  | None => ∀ i, (i < fuel)%nat → candidate_rejected kind (calls i)
  | Some r => ∃ i, (∀ j, (j < i)%nat → candidate_rejected kind (calls j)) ∧
      match calls i (replicate (key_len kind) 0) with
      | (_, Err e) => r = Err (RandomError_new e)
      | (bytes, Ok _) => r = Ok (drawn_key kind bytes) ∧ array_ok (key_len kind) (drawn_key kind bytes) ∧ key_accepted kind (drawn_key kind bytes)
      end
  end.

Lemma symmetric_drawn fuel calls : (∀ i, fill_ok (calls i)) → drawn Symmetric fuel calls (Some (generate_key (calls O))).
Proof.
  intros Hc. exists O. split; [lia|]. pose proof (Hc O 32%nat) as H32. unfold generate_key, randombytes_buf. cbn [key_len].
  by destruct (calls O (replicate 32 0)) as [bytes [[]|e]].
Qed.

(** The number that a signing key takes from a string, as bytes. *)
Lemma sign_drawn_key F bytes d : sc_ok F d → limbs_val d = from_be_bytes bytes mod 2 ^ candidate_bits F → drawn_key (sign_secret_kind F) bytes = sc_to_be_bytes F d.
Proof.
  intros Hd E. destruct (sc_to_be_bytes_val F d Hd) as [[Hl Hb] Ev]. rewrite <- (to_from_be_bytes _ Hb), Ev, Hl, E. by destruct F.
Qed.

Lemma sign_rejected F call : fill_ok call → rejected F call → candidate_rejected (sign_secret_kind F) call.
Proof.
  intros Hc (bytes & Ec & Hr). exists bytes. rewrite (proj1 (sign_key_lengths F)). split; [done|]. intros Ha. apply Hr.
  assert (from_be_bytes (drawn_key (sign_secret_kind F) bytes) = from_be_bytes bytes mod 2 ^ candidate_bits F) as <-; [|by destruct F].
  destruct F; apply from_to_be_bytes; unfold word_ok; cbn [candidate_bits]; pose proof (Z.mod_pos_bound (from_be_bytes bytes) (2 ^ 163)); pose proof (Z.mod_pos_bound (from_be_bytes bytes) (2 ^ 256)); lia.
Qed.

Lemma sign_drawn F fuel calls : (∀ i, fill_ok (calls i)) →
  drawn (sign_secret_kind F) fuel calls (r ← generate F fuel calls; Some (result_bind r (λ k, Ok (key_to_bytes F k)))).
Proof.
  intros Hc. pose proof (generate_outcome F fuel calls (λ i, Hc i (fb_bytes F))) as Hg. unfold drawn. rewrite (proj1 (sign_key_lengths F)).
  assert (∀ i, (∀ j, (j < i)%nat → rejected F (calls j)) → ∀ j, (j < i)%nat → candidate_rejected (sign_secret_kind F) (calls j)) as Hrej by (intros i Hj j Hlt; by apply sign_rejected, Hj).
  destruct (generate F fuel calls) as [[d|[e]]|]; cbn [mbind option_bind result_bind]; [| |by apply Hrej].
  - destruct Hg as (i & bytes & _ & Hj & Ec & Hd & H0 & E). exists i. split; [by apply Hrej|]. rewrite Ec, (sign_drawn_key F bytes d Hd E). destruct (sc_to_be_bytes_val F d Hd) as [Ha Ev].
    split; [done|]. split; [done|]. pose proof Hd as [_ Hlt]. destruct F; cbn [sign_secret_kind key_accepted]; rewrite Ev; lia.
  - destruct Hg as (i & _ & Hj & Ee). exists i. split; [by apply Hrej|]. destruct (calls i (replicate (fb_bytes F) 0)) as [bytes r]. cbn [snd] in Ee. by subst r.
Qed.

Lemma box_drawn F fuel calls : (∀ i, fill_ok (calls i)) →
  drawn (box_secret_kind F) fuel calls (r ← secret_generate F fuel calls; Some (result_bind r (λ k, Ok (secret_to_bytes k)))).
Proof.
  intros Hc. pose proof (random_valid_scalar_drawn F fuel calls) as Hg. unfold secret_generate, drawn. rewrite (proj1 (box_key_lengths F)).
  assert (∀ bytes, drawn_key (box_secret_kind F) bytes = bytes ∧ (array_ok (bytes_of F) bytes → is_valid_scalar F bytes = true ↔ key_accepted (box_secret_kind F) bytes)) as Hkey.
  { intros bytes. split; [by destruct F|]. intros Ha. rewrite (is_valid_scalar_spec F bytes Ha). by destruct F. }
  assert (∀ j, scalar_rejected F (calls j) → candidate_rejected (box_secret_kind F) (calls j)) as Hrej.
  { intros j [E Hv]. pose proof (Hc j (bytes_of F)) as Ha. unfold candidate_rejected. rewrite (proj1 (box_key_lengths F)). destruct (calls j (replicate (bytes_of F) 0)) as [bytes r]. cbn [fst snd] in *. subst r. exists bytes.
    destruct (Hkey bytes) as [-> Hk]. split; [done|]. intros H. apply Hk in H; [congruence|done]. }
  destruct (random_valid_scalar F fuel calls) as [[r calls']|]; cbn [mbind option_bind]; [|by intros i Hi; apply Hrej, Hg].
  destruct Hg as (i & Hj & Hi). exists i. split; [by intros j Hlt; apply Hrej, Hj|]. pose proof (Hc i (bytes_of F)) as Ha. destruct (calls i (replicate (bytes_of F) 0)) as [bytes [u|e]]; cbn [fst] in Ha.
  - destruct Hi as [-> Hv], (Hkey bytes) as [-> Hk]. split; [done|]. split; [done|by apply Hk].
  - by rewrite Hi.
Qed.

(** What a generating command does: the key, or the failure of its generator; and the file it makes. *)
Definition keygen_outcome `{Subtle} (fuel : nat) (calls : nat → fill_call GE) (env : KeyOutput) (p : path) (kind : KeyKind) (outcome : option key_outcome) : Prop :=
  match outcome with
  | None => ∀ i, (i < fuel)%nat → candidate_rejected kind (calls i)
  | Some outcome => ∃ i, (∀ j, (j < i)%nat → candidate_rejected kind (calls j)) ∧
      match calls i (replicate (key_len kind) 0) with
      | (_, Err e) => outcome = (None, Err (Random (random_text (RandomError_new e))))
      | (bytes, Ok _) =>
          let line := line_of kind (drawn_key kind bytes) ++ [0x0A] in
          key_accepted kind (drawn_key kind bytes) ∧ read_by_its_commands kind line ∧
          outcome = match create_private_new env, write_and_sync env with
            | Created, Ok _ => (Some line, Ok tt)
            | AlreadyExists, _ => (None, Err (KeyFileExists p))
            | Created, Err message | CreateFailed message, _ => (None, Err (Io p message))
            end
      end
  end.

Lemma drawn_outcome `{SubtleLaws} fuel calls env p kind key :
  drawn kind fuel calls key → keygen_outcome fuel calls env p kind (r ← key; write_generated random_text kind r env p).
Proof.
  destruct key as [r|]; [|done]. intros (i & Hj & Hi). cbn [mbind option_bind]. unfold keygen_outcome. destruct (calls i (replicate (key_len kind) 0)) as [bytes [u|e]] eqn:Ec.
  - destruct Hi as (-> & Ha & Hk). rewrite write_generated_spec by done. exists i. split; [done|]. rewrite Ec. split; [done|]. split; [by apply accepted_is_read|].
    unfold write_new_key_file. by destruct (create_private_new env), (write_and_sync env).
  - subst r. cbn [write_generated]. exists i. by rewrite Ec.
Qed.
End generated.

(** ** Properties *)

(** C34. Every generating command takes the first string of the random source that is a key of its kind, the signing keys in the low bits of the string, and
    makes a key file of it: the file is new, holds the line of this key, is read by the commands that use the key, and appears only when the command succeeds;
    a failure of the source, or of the file, is reported as such.  The command is still running only when every string that it drew was out of range. *)
Theorem keygen_exact {GE} (random_text : RandomError GE → string) `{SubtleLaws} (fuel : nat) (calls : nat → fill_call GE) (env : KeyOutput) (p : path) :
  (∀ i, fill_ok (calls i)) →
  Forall (λ '(kind, outcome),
    match outcome with
    | None => ∀ i, (i < fuel)%nat → candidate_rejected kind (calls i)
    | Some outcome => ∃ i, (∀ j, (j < i)%nat → candidate_rejected kind (calls j)) ∧
        match calls i (replicate (key_len kind) 0) with
        | (_, Err e) => outcome = (None, Err (Random (random_text (RandomError_new e))))
        | (bytes, Ok _) =>
            let line := line_of kind (drawn_key kind bytes) ++ [0x0A] in
            key_accepted kind (drawn_key kind bytes) ∧ read_by_its_commands kind line ∧
            outcome = match create_private_new env, write_and_sync env with
              | Created, Ok _ => (Some line, Ok tt)
              | AlreadyExists, _ => (None, Err (KeyFileExists p))
              | Created, Err message | CreateFailed message, _ => (None, Err (Io p message))
              end
        end
    end) (keygen_commands random_text fuel calls env p).
Proof.
  intros Hc. change (Forall (λ '(kind, outcome), keygen_outcome random_text fuel calls env p kind outcome) (keygen_commands random_text fuel calls env p)).
  assert (∀ F, keygen_outcome random_text fuel calls env p (sign_secret_kind F) (r ← generate F fuel calls; write_generated random_text (sign_secret_kind F) (result_bind r (λ k, Ok (key_to_bytes F k))) env p)) as Hsign.
  { intros F. pose proof (drawn_outcome random_text fuel calls env p _ _ (sign_drawn F fuel calls Hc)) as Hd. by destruct (generate F fuel calls). }
  assert (∀ F, keygen_outcome random_text fuel calls env p (box_secret_kind F) (r ← secret_generate F fuel calls; write_generated random_text (box_secret_kind F) (result_bind r (λ k, Ok (secret_to_bytes k))) env p)) as Hbox.
  { intros F. pose proof (drawn_outcome random_text fuel calls env p _ _ (box_drawn F fuel calls Hc)) as Hd. by destruct (secret_generate F fuel calls). }
  unfold keygen_commands. repeat apply Forall_cons_2; [|apply (Hsign Fb163)|apply (Hsign Fb257)|apply (Hbox Fp256)|apply (Hbox Fp384)|apply (Hbox Fp512)|constructor].
  exact (drawn_outcome random_text fuel calls env p _ _ (symmetric_drawn fuel calls Hc)).
Qed.

Definition plain_key_output : KeyOutput := {| create_private_new := Created; write_and_sync := Ok tt |}.

Lemma keygen_exact_witness : let _ := plain_subtle in let text := λ _ : RandomError unit, "random"%string in
  let line := line_of Symmetric (replicate 32 1) ++ [0x0A] in
  read_by_its_commands Symmetric line ∧ run_keygen_command text (constant_fill 1) plain_key_output [0x61] = Some (Some line, Ok tt).
Proof.
  intros S text line. assert (byte_ok 1) as H1 by by_decision.
  pose proof (@keygen_exact unit text plain_subtle plain_subtle_laws 1 (λ _, constant_fill 1) plain_key_output [0x61] (λ _, constant_fill_ok 1 H1)) as H.
  apply Forall_cons in H as [H _]. cbv beta iota in H. destruct (run_keygen_command text (constant_fill 1) plain_key_output [0x61]) as [outcome|].
  - destruct H as (i & _ & H). destruct H as (_ & Hr & E). split; [exact Hr|]. by rewrite E.
  - exfalso. destruct (H O (Nat.lt_0_succ 0)) as (bytes & _ & Hn). exact (Hn I).
Defined.

(** C33. [key-import] writes exactly the keys that the commands which use them accept: it never panics; it succeeds when the raw file is
    the curve byte of its kind, if that has one, and a key of the right length that is valid for its kind, and the output can be made;
    the file that it then writes is read by every command that takes that kind, and in every other case no file appears. *)
Theorem key_import_exact `{SubtleLaws} (fa : bool) (args : KeyImportArgs) (raw : list Z) (env : KeyOutput) :
  bytes_ok raw → (∀ F, import_kind args = box_secret_kind F → Z.prime (p_of F)) → let kind := import_kind args in
  ∃ o r, run_key_import_command fa args (Ok raw) env = Some (o, r) ∧
    (r = Ok tt ↔ output_works env (import_out_path args) ∧ ∃ key, raw = raw_prefix kind ++ key ∧ array_ok (key_len kind) key ∧ key_accepted kind key) ∧
    (r = Ok tt → ∃ key, raw = raw_prefix kind ++ key ∧ o = Some (line_of kind key ++ [0x0A]) ∧ read_by_its_commands kind (line_of kind key ++ [0x0A])) ∧
    (r ≠ Ok tt → o = None).
Proof.
  intros Hb Hp kind. destruct (import_run fa args raw env Hb Hp) as (o & r & E & Hr). exists o, r. split; [done|].
  destruct Hr as [(key & Eraw & Hk & Ha & Ew)|(Hne & -> & Hno)].
  - pose proof (write_key_output_spec env (import_out_path args) (line_of kind key ++ [0x0A])) as Hw. fold kind in Ew, Eraw, Hk, Ha. rewrite <- Ew in Hw. destruct Hw as (Hw1 & Hw2 & Hw3).
    split; [rewrite Hw1; split; [intros ?; split; [done|by exists key]|by intros [? _]]|]. split; [|done].
    intros Er. exists key. split; [done|]. split; [by apply Hw2|]. by apply accepted_is_read.
  - split; [split; [done|]; intros [_ (key & E1 & E2 & E3)]; by destruct (Hno key)|]. by split.
Qed.

Lemma key_import_exact_witness : let _ := plain_subtle in let args := {| import_kind := Sign163Secret; import_in_path := [0x61]; import_out_path := Stdout |} in
  ∃ o, run_key_import_command true args (Ok (replicate 20 0 ++ [5])) plain_key_output = Some (o, Ok tt) ∧
    ∃ key, replicate 20 0 ++ [5] = key ∧ o = Some (line_of Sign163Secret key ++ [0x0A]) ∧ read_by_its_commands Sign163Secret (line_of Sign163Secret key ++ [0x0A]).
Proof.
  intros S args. destruct (@key_import_exact plain_subtle plain_subtle_laws true args (replicate 20 0 ++ [5]) plain_key_output) as (o & r & E & Hr & Hok & _).
  - by_decision.
  - intros F. by destruct F.
  - assert (r = Ok tt) as Er.
    { apply Hr. split; [by split|]. exists (replicate 20 0 ++ [5]). split; [done|]. split; [by_decision|]. split; by vm_compute. }
    rewrite Er in E. exists o. exact (conj E (Hok Er)).
Defined.
