(* ===== verification/SignCommand.v ===== *)
(** The commands [sign] and [verify] ([uacrypt/src/lib.rs]): a detached signature of a file or stream, under a key of either curve.  The
    message is hashed in pieces ([HashCommand.v]), the key files are read as in [KeyCommands.v], and the output appears as in
    [CliStream.v].  The timing of the runs asked for with [--iterations] is left out, the runs are not.

    [None] stands for a panic, or for the signing loop that is still running when its fuel is spent; the theorems say when. *)

From stdpp Require Import strings.
From S2P Require Import Prelude External Kupyna BinaryCurve Limb Modular Gf4145 Scalar4145 Curve4145 Signature4145 CryptoSign.
From S2P Require Import Keyfile CliError CliStream CliArgs HashCommand KeyCommands.
#[local] Open Scope Z_scope.
#[local] Open Scope uacrypt_scope.

(** The label of a source in its errors. *)
Definition source_label (source : Source) : path := match source with Stdin => ascii_bytes "<stdin>" | FromFile p => p end.

(** [args.iterations.max(1)] runs, the first of them before the loop. *)
Definition further_runs (iterations : Z) : nat := Z.to_nat (Z.max iterations 1 - 1).

(** ** [sign] *)

(** [r || s]. *)
Definition any_sign_digest (fa : bool) (fuel : nat) (self : AnySigningKey) (digest : list Z) : option (list Z) :=
  match self with
  | SigningM163 k => sig ← sign_digest fa Fb163 fuel k digest; Some (to_bytes Fb163 sig)
  | SigningM257 k => sig ← sign_digest fa Fb257 fuel k digest; Some (to_bytes Fb257 sig)
  end.

Fixpoint sign_again (fa : bool) (fuel n : nat) (self : AnySigningKey) (digest sig : list Z) : option (list Z) :=
  match n with
  | O => Some sig
  | S n => sig ← any_sign_digest fa fuel self digest; sign_again fa fuel n self digest sig
  end.

(** [checked] and [created] are what the checks of the output path and its reservation give. *)
Definition run_sign_command `{Subtle} (fa : bool) (fuel : nat) (args : SignArgs) (key_file : result (list Z) string) (checked : result unit CliError)
    (created : result Output CliError) (opened : result Reader CliError) : option outcome :=
  r ← read_signing_key (sign_key_path args) "sign" key_file;
  match r with
  | Err e => Some (None, Err e)
  | Ok signing_key =>
      match checked with
      | Err e => Some (None, Err e)
      | Ok _ =>
          match created with
          | Err e => Some (None, Err e)
          | Ok out =>
              r ← hash_file_streamed opened (source_label (sign_in_path args));
              match r with
              | Err e => Some (Some out, Err e)
              | Ok digest =>
                  sig ← any_sign_digest fa fuel signing_key digest;
                  sig ← sign_again fa fuel (further_runs (sign_iterations args)) signing_key digest sig;
                  let '(out, written) := write_all out sig in
                  let '(out, r) := finish_output out written in
                  Some (Some out, r)
              end
          end
      end
  end.

(** ** [verify] *)

Definition MAX_SIGNATURE_BYTES : nat := 66.

Definition signature_len (self : AnyVerifyingKey) : nat := match self with VerifyingM163 _ => 42 | VerifyingM257 _ => MAX_SIGNATURE_BYTES end.

(** [arr.copy_from_slice(sig_bytes)] behind the check of the length. *)
Definition any_verify_digest (fa small_tables : bool) (self : AnyVerifyingKey) (digest sig_bytes : list Z) : result bool CliError :=
  match self with
  | VerifyingM163 k =>
      if negb (Nat.eqb (length sig_bytes) 42) then Err (WrongLength LengthOf.Signature 42 (length sig_bytes))
      else
        let arr := copy_at 0 sig_bytes (replicate 42 0) in
        Ok (verify_digest fa Fb163 small_tables k digest (from_bytes Fb163 arr))
  | VerifyingM257 k =>
      if negb (Nat.eqb (length sig_bytes) 66) then Err (WrongLength LengthOf.Signature 66 (length sig_bytes))
      else
        let arr := copy_at 0 sig_bytes (replicate 66 0) in
        Ok (verify_digest fa Fb257 small_tables k digest (from_bytes Fb257 arr))
  end.

Fixpoint verify_again (fa small_tables : bool) (n : nat) (self : AnyVerifyingKey) (digest sig_bytes : list Z) (ok : bool) : result bool CliError :=
  match n with
  | O => Ok ok
  | S n => result_bind (any_verify_digest fa small_tables self digest sig_bytes) (λ ok, verify_again fa small_tables n self digest sig_bytes ok)
  end.

(** [sig_file] is what reading the whole signature file gives, [metadata_len] what the file system says of its length. *)
Definition run_verify_command `{Subtle} (fa small_tables : bool) (args : VerifyArgs) (key_file sig_file : result (list Z) string) (metadata_len : option nat)
    (opened : result Reader CliError) : option (result unit CliError) :=
  r ← read_verifying_key (verify_key_path args) key_file;
  match r with
  | Err e => Some (Err e)
  | Ok verifying_key =>
      match sig_file with
      | Err message => Some (Err (Io (verify_sig_path args) message))
      | Ok contents =>
          let sig_bytes := take (MAX_SIGNATURE_BYTES + 1) contents in
          if Nat.ltb MAX_SIGNATURE_BYTES (length sig_bytes) then
            let actual := match metadata_len with Some len => if Nat.ltb MAX_SIGNATURE_BYTES len then len else length sig_bytes | None => length sig_bytes end in
            Some (Err (WrongLength LengthOf.Signature (signature_len verifying_key) actual))
          else
            r ← hash_file_streamed opened (source_label (verify_in_path args));
            match r with
            | Err e => Some (Err e)
            | Ok digest =>
                let ok := any_verify_digest fa small_tables verifying_key digest sig_bytes in
                let ok := result_bind ok (λ ok, verify_again fa small_tables (further_runs (verify_iterations args)) verifying_key digest sig_bytes ok) in
                Some (match ok with
                | Err e => Err e
                | Ok true => Ok tt
                | Ok false => Err SignVerifyFailed
                end)
            end
      end
  end.

(** ** One text over the curve *)

Lemma any_sign_digest_eq fa fuel F d digest : any_sign_digest fa fuel (any_signing F d) digest = (sig ← sign_digest fa F fuel d digest; Some (to_bytes F sig)).
Proof. by destruct F. Qed.

(** Signing is deterministic, so the further runs change nothing. *)
Lemma sign_again_eq fa fuel n self digest sig : any_sign_digest fa fuel self digest = Some sig → sign_again fa fuel n self digest sig = Some sig.
Proof. intros E. induction n as [|n IH]; [done|]. cbn [sign_again]. by rewrite E. Qed.

Lemma any_verify_digest_eq fa small_tables F k digest sig_bytes :
  any_verify_digest fa small_tables (any_verifying F k) digest sig_bytes =
  if decide (length sig_bytes = 2 * fb_bytes F)%nat then Ok (verify_digest fa F small_tables k digest (from_bytes F sig_bytes))
  else Err (WrongLength LengthOf.Signature (2 * fb_bytes F) (length sig_bytes)).
Proof.
  destruct F; cbn [any_verifying any_verify_digest]; [destruct (Nat.eqb_spec (length sig_bytes) 42) as [Hl|Hl]|destruct (Nat.eqb_spec (length sig_bytes) 66) as [Hl|Hl]]; cbn [negb];
    first [rewrite decide_False by done; reflexivity | rewrite decide_True by done; rewrite copy_at_whole by (by rewrite length_replicate); reflexivity].
Qed.

Lemma verify_again_eq fa small_tables n self digest sig_bytes ok :
  any_verify_digest fa small_tables self digest sig_bytes = Ok ok → verify_again fa small_tables n self digest sig_bytes ok = Ok ok.
Proof. intros E. induction n as [|n IH]; [done|]. cbn [verify_again]. by rewrite E. Qed.

(** ** What [verify] accepts *)

(** The signature equation of the standard, for the bytes of a key, a message and a signature. *)
Definition standard_signature (F : fb) (key message sig : list Z) : Prop :=
  let r := from_be_bytes (take (fb_bytes F) sig) in let s := from_be_bytes (drop (fb_bytes F) sig) in
  (0 < r < order_val F ∧ 0 < s < order_val F) ∧ ∃ p, key_point F (from_uncompressed_bytes F key) p ∧
    ∃ x y, badd (curve_a F) (bmul (curve_a F) (Z.to_nat s) (base F)) (bmul (curve_a F) (Z.to_nat r) (Some p)) = Some (x, y) ∧
      digest_value F (kupyna_digest Kupyna256 message) (proj1_sig x) = r.

Lemma verify_digest_standard fa small_tables F key sig message :
  array_ok (2 * fb_bytes F) key → array_ok (2 * fb_bytes F) sig → bytes_ok message → length message < 2 ^ 64 →
  verify_digest fa F small_tables (from_uncompressed_bytes F key) (kupyna_digest Kupyna256 message) (from_bytes F sig) = true ↔ standard_signature F key message sig.
Proof.
  intros Hk Hs Hm Hl. destruct (verify_received fa small_tables F key sig message Hk Hs Hm Hl) as (_ & _ & b & Ev & Hb).
  unfold verify_message in Ev. rewrite (digest_spec Kupyna256 message Hm Hl) in Ev. injection Ev as Ev. rewrite Ev. exact Hb.
Qed.

Section verify.
Context `{SubtleLaws} (fa small_tables : bool).

Definition signature_file (F : fb) (key_bytes sig : list Z) (key : list Z) : Prop :=
  key_file key_bytes (sign_public_kind F) key ∧ length sig = (2 * fb_bytes F)%nat.

Lemma read_verifying_error p file e : read_verifying_key p file = Some (Err e) → e ≠ SignVerifyFailed.
Proof.
  unfold read_verifying_key, read_key_file. destruct (read_key file _) as [[[kind key]|e']|]; cbn [mbind option_bind]; [|intros [= <-]; by destruct e'|done].
  destruct (bool_decide _); destruct (key_array _ key); done.
Qed.

Lemma verify_run args key_bytes sig metadata_len input : bytes_ok key_bytes → bytes_ok sig → bytes_ok (pending input) → length (pending input) < 2 ^ 64 →
  ∃ r, run_verify_command fa small_tables args (Ok key_bytes) (Ok sig) metadata_len (Ok input) = Some r ∧
    ((∃ F key, signature_file F key_bytes sig key ∧
        r = if verify_digest fa F small_tables (from_uncompressed_bytes F key) (kupyna_digest Kupyna256 (pending input)) (from_bytes F sig) then Ok tt else Err SignVerifyFailed) ∨
     (r ≠ Ok tt ∧ r ≠ Err SignVerifyFailed ∧ (healthy input → ∀ F key, ¬ signature_file F key_bytes sig key))).
Proof.
  intros Hkb Hsb Hb Hl. unfold run_verify_command. destruct (verifying_key_file (verify_key_path args) key_bytes Hkb) as (r & Er & Hr). rewrite Er. cbn [mbind option_bind].
  destruct r as [k|e].
  2:{ eexists. split; [done|]. right. split; [done|]. split; [intros [= ->]; by apply read_verifying_error in Er|]. intros _ F key [Hf _]. by assert (Err e = Ok (any_verifying F (from_uncompressed_bytes F key))) as [=] by (apply Hr; by exists F, key). }
  destruct (proj1 (Hr k) eq_refl) as (F & key & Hf & [= <-]).
  assert (∀ F' key', signature_file F' key_bytes sig key' → F' = F ∧ length sig = (2 * fb_bytes F)%nat) as Hsame.
  { intros F' key' [Hf' Hs]. destruct (key_file_unique _ _ _ _ _ Hf Hf') as [E _]. assert (F' = F) as -> by (by destruct F, F'). done. }
  destruct (Nat.ltb_spec MAX_SIGNATURE_BYTES (length (take (MAX_SIGNATURE_BYTES + 1) sig))) as [Hlong|Hshort]; rewrite length_take in *; unfold MAX_SIGNATURE_BYTES in *.
  - eexists. split; [done|]. right. split; [done|]. split; [done|]. intros _ F' key' Hs. destruct (Hsame F' key' Hs) as [_ E]. rewrite E in Hlong. destruct F; cbn in Hlong; lia.
  - rewrite take_ge by lia. destruct (hash_file_spec input (source_label (verify_in_path args)) Hb Hl) as (rh & -> & Hh). cbn [mbind option_bind]. destruct rh as [digest|e].
    2:{ eexists. split; [done|]. right. destruct Hh as (Hh & m & ->). split; [done|]. split; [done|]. by intros ?. }
    subst digest. rewrite any_verify_digest_eq. case_decide as Hs; cbn [result_bind].
    + rewrite (verify_again_eq fa small_tables _ _ _ _ _) by (rewrite any_verify_digest_eq; by rewrite decide_True). eexists. split; [done|]. left. exists F, key. split; [by split|].
      by destruct (verify_digest _ _ _ _ _ _).
    + eexists. split; [done|]. right. split; [done|]. split; [done|]. intros _ F' key' Hs'. by destruct (Hsame F' key' Hs') as [_ E].
Qed.
End verify.

(** ** What [sign] publishes *)

Section sign.
Context `{SubtleLaws} (fa : bool) (fuel : nat).

(** [sign] with a valid key: what happens after its output is reserved. *)
Lemma sign_run args key_bytes F key d out input : key_file key_bytes (sign_secret_kind F) key → key_from_bytes F key = Some d →
  bytes_ok (pending input) → length (pending input) < 2 ^ 64 → fresh out →
  match run_sign_command fa fuel args (Ok key_bytes) (Ok tt) (Ok out) (Ok input) with
  | None => sign_digest fa F fuel d (kupyna_digest Kupyna256 (pending input)) = None
  | Some (o, r) => ∃ out', o = Some out' ∧ (healthy input → sound out → r = Ok tt) ∧ (r ≠ Ok tt → published out' = None) ∧
      (r = Ok tt → ∃ sig, sign_digest fa F fuel d (kupyna_digest Kupyna256 (pending input)) = Some sig ∧ published out' = Some (to_bytes F sig))
  end.
Proof.
  intros Hf Hd Hb Hl [Hw0 Hp0]. unfold run_sign_command. destruct (signing_key_file (sign_key_path args) "sign" key_bytes (key_file_bytes _ _ _ Hf)) as (r & -> & Hr). cbn [mbind option_bind].
  assert (r = Ok (any_signing F d)) as -> by (apply Hr; exists F, key; by rewrite Hd).
  destruct (hash_file_spec input (source_label (sign_in_path args)) Hb Hl) as (rh & -> & Hh). cbn [mbind option_bind]. destruct rh as [digest|e].
  2:{ exists out. split; [done|]. split; [by destruct Hh|]. by split. }
  subst digest. pose proof (any_sign_digest_eq fa fuel F d (kupyna_digest Kupyna256 (pending input))) as Es. rewrite Es. destruct (sign_digest fa F fuel d _) as [sig|]; cbn [mbind option_bind] in *; [|done].
  rewrite (sign_again_eq _ _ _ _ _ _ Es). cbn [mbind option_bind]. pose proof (write_all_spec out (to_bytes F sig)) as Hw. destruct (write_all out _) as [out1 w]. destruct Hw as ((_ & Hp1 & Hso & _) & Hok & Hwr).
  pose proof (finish_output_spec out1 w) as Hfin. destruct (finish_output out1 w) as [out2 r]. destruct Hfin as (Hf1 & Hf2 & _).
  exists out2. split; [done|]. rewrite Hp1, Hp0 in Hf1. destruct (Hf1 eq_refl) as [(Hr1 & Hr2 & Hp2)|[Hr1 Hp2]].
  - split; [done|]. split; [done|]. intros _. exists sig. split; [done|]. by rewrite Hp2, Hwr, Hw0.
  - split; [|done]. intros _ Hs. apply Hf2; [by apply Hso|by apply Hok].
Qed.
End sign.

(** ** Properties *)

(** C21. [verify] never panics, whatever the key file, the signature file, and however the input is delivered.  It succeeds only when
    the key file is the line of a verifying key, the signature has the length of its curve and satisfies the equation of the standard
    for the whole of the input; it always does so when moreover the input can be read; and a failed verification is reported only for
    a signature of the right length, under a key, that does not satisfy the equation. *)
Theorem verify_command_exact `{SubtleLaws} (fa small_tables : bool) (args : VerifyArgs) (key_bytes sig : list Z) (metadata_len : option nat) (input : Reader) :
  bytes_ok key_bytes → bytes_ok sig → bytes_ok (pending input) → length (pending input) < 2 ^ 64 →
  ∃ r, run_verify_command fa small_tables args (Ok key_bytes) (Ok sig) metadata_len (Ok input) = Some r ∧
    (r = Ok tt → ∃ F key, signature_file F key_bytes sig key ∧ standard_signature F key (pending input) sig) ∧
    (∀ F key, healthy input → signature_file F key_bytes sig key → standard_signature F key (pending input) sig → r = Ok tt) ∧
    (r = Err SignVerifyFailed → ∃ F key, signature_file F key_bytes sig key ∧ ¬ standard_signature F key (pending input) sig).
Proof.
  intros Hkb Hsb Hb Hl. destruct (verify_run fa small_tables args key_bytes sig metadata_len input Hkb Hsb Hb Hl) as (r & E & Hr). exists r. split; [done|].
  destruct Hr as [(F & key & Hf & ->)|(H1 & H2 & H3)].
  - assert (∀ F key, signature_file F key_bytes sig key → verify_digest fa F small_tables (from_uncompressed_bytes F key) (kupyna_digest Kupyna256 (pending input)) (from_bytes F sig) = true ↔
      standard_signature F key (pending input) sig) as Hv.
    { intros F' key' [[Hk _] Hs]. rewrite (proj2 (sign_key_lengths F')) in Hk. by apply verify_digest_standard. }
    specialize (Hv F key Hf) as Hv'. split; [intros Er; exists F, key; split; [done|]; apply Hv'; by destruct (verify_digest _ _ _ _ _ _)|]. split.
    + intros F' key' _ [Hf' _] Hst. destruct Hf as [Hf _]. destruct (key_file_unique _ _ _ _ _ Hf' Hf) as [EF <-]. assert (F' = F) as -> by (by destruct F, F'). apply Hv' in Hst. by rewrite Hst.
    + intros Er. exists F, key. split; [done|]. intros Hst. apply Hv' in Hst. by rewrite Hst in Er.
  - split; [done|]. split; [|done]. intros F key Hh Hf. by destruct (H3 Hh F key).
Qed.

Lemma verify_command_exact_witness : let _ := plain_subtle in
  let args := {| verify_key_path := [0x61]; verify_in_path := Stdin; verify_sig_path := [0x62]; verify_iterations := 1 |} in
  ∃ r, run_verify_command true false args (Ok (ascii_bytes "no key")) (Ok [1; 2; 3]) None (Ok (slow_reader [1; 2; 3])) = Some r ∧
    (r = Ok tt → ∃ F key, signature_file F (ascii_bytes "no key") [1; 2; 3] key ∧ standard_signature F key [1; 2; 3] [1; 2; 3]).
Proof.
  intros S args. destruct (@verify_command_exact plain_subtle plain_subtle_laws true false args (ascii_bytes "no key") [1; 2; 3] None (slow_reader [1; 2; 3])) as (r & E & Hr & _);
    [by_decision..|]. exists r. exact (conj E Hr).
Defined.

(** C20. The commands fit together: for the key file of a valid signing key, [sign] never publishes anything but a signature that [verify]
    accepts, in any build, under the line that [sign-pubkey] writes for that key file, on any input with the same data that can be
    read; it publishes nothing when it reports an error; it succeeds when its input and its output do; and it is still running only
    when the nonces of all the counters so far were unusable. *)
Theorem sign_verify_commands `{SubtleLaws} (fa fa' fa'' small_tables : bool) (fuel : nat) (args : SignArgs) (F : fb) (key key_bytes : list Z) (out : Output) (input : Reader) :
  key_file key_bytes (sign_secret_kind F) key → 0 < from_be_bytes key < order_val F →
  bytes_ok (pending input) → length (pending input) < 2 ^ 64 → fresh out →
  match run_sign_command fa fuel args (Ok key_bytes) (Ok tt) (Ok out) (Ok input) with
  | None => ∃ d, key_from_bytes F key = Some d ∧ ∀ c, 0 ≤ c < (fuel `min` 256)%nat → attempt F (limbs_val d) (kupyna_digest Kupyna256 (pending input)) c = None
  | Some (o, r) => ∃ out', o = Some out' ∧ (healthy input → sound out → r = Ok tt) ∧ (r ≠ Ok tt → published out' = None) ∧
      (r = Ok tt → ∃ sig line, published out' = Some sig ∧
        (∀ pargs env, output_works env (pubkey_out_path pargs) → run_sign_pubkey_command fa' pargs (Ok key_bytes) env = Some (Some line, Ok tt)) ∧
        ∀ vargs metadata_len input', pending input' = pending input → healthy input' →
          run_verify_command fa'' small_tables vargs (Ok line) (Ok sig) metadata_len (Ok input') = Some (Ok tt))
  end.
Proof.
  intros Hf Hr Hb Hl Hfr. pose proof Hf as [Hk _]. rewrite (proj1 (sign_key_lengths F)) in Hk. pose proof (signing_bytes F key Hk) as Hs. destruct (key_from_bytes F key) as [d|] eqn:Ed; [|done].
  destruct Hs as (_ & Hd & Hv). assert (0 < limbs_val d) as Hpos by lia. pose proof (kupyna_digest_ok Kupyna256 (pending input) Hb) as Hh.
  pose proof (sign_run fa fuel args key_bytes F key d out input Hf Ed Hb Hl Hfr) as Hrun. destruct (run_sign_command _ _ _ _ _ _ _) as [[o r]|].
  2:{ exists d. split; [done|]. intros c Hc. rewrite sign_digest_eq in Hrun by done. apply (proj1 (head_omap_none _ _) Hrun), elem_of_seqZ. lia. }
  destruct Hrun as (out' & -> & H1 & H2 & H3). exists out'. split; [done|]. split; [done|]. split; [done|]. intros Er. destruct (H3 Er) as (sig & Esig & Hp).
  destruct (verifying_key_bytes fa' F d Hd Hpos) as [Hpk Ebytes]. set (public := to_uncompressed_bytes F (verifying_key fa' F d)) in *.
  destruct (sign_digest_verifies fa fa' fa'' small_tables F fuel d _ sig Hd Hpos Hh Esig) as [Hsl Hver].
  assert (array_ok (key_len (sign_public_kind F)) public) as Hpk' by (by rewrite (proj2 (sign_key_lengths F))). pose proof (key_file_line _ _ Hpk') as Hpf.
  exists (to_bytes F sig), (line_of (sign_public_kind F) public ++ [0x0A]). split; [done|]. split.
  - intros pargs env Hw. unfold run_sign_pubkey_command. destruct (signing_key_file (pubkey_key_path pargs) "sign-pubkey" key_bytes (key_file_bytes _ _ _ Hf)) as (rk & -> & Hrk). cbn [mbind option_bind].
    assert (rk = Ok (any_signing F d)) as -> by (apply Hrk; exists F, key; rewrite Ed; exact (conj Hf eq_refl)).
    assert (verifying_key_line fa' (any_signing F d) = Some (line_of (sign_public_kind F) public ++ [0x0A])) as ->.
    { rewrite <- encode_spec; [by destruct F|apply Hpk'|rewrite (proj1 Hpk'); apply key_len_small]. }
    cbn [mbind option_bind]. f_equal. pose proof (write_key_output_spec env (pubkey_out_path pargs) (line_of (sign_public_kind F) public ++ [0x0A])) as Ho.
    destruct (write_key_output _ _ _) as [o2 r2]. destruct Ho as (Ho1 & Ho2 & _). apply Ho1 in Hw as ->. by rewrite Ho2.
  - intros vargs metadata_len input' Ep Hhe.
    destruct (verify_run fa'' small_tables vargs (line_of (sign_public_kind F) public ++ [0x0A]) (to_bytes F sig) metadata_len input') as (r2 & -> & Hr2);
      [by eapply key_file_bytes|apply Hsl|by rewrite Ep|by rewrite Ep|].
    assert (signature_file F (line_of (sign_public_kind F) public ++ [0x0A]) (to_bytes F sig) public) as Hsf by (split; [done|apply Hsl]).
    destruct Hr2 as [(F' & key' & [Hf' _] & ->)|(_ & _ & Hno)]; [|by destruct (Hno Hhe F public)].
    destruct (key_file_unique _ _ _ _ _ Hf' Hpf) as [EF ->]. assert (F' = F) as -> by (by destruct F, F'). by rewrite Ep, Ebytes, Hver.
Qed.

Lemma sign_verify_commands_witness : let _ := plain_subtle in
  let args := {| sign_key_path := [0x61]; sign_in_path := Stdin; sign_out_path := Stdout; sign_iterations := 1; sign_force := false |} in
  let key := replicate 20 0 ++ [5] in let key_bytes := line_of Sign163Secret key ++ [0x0A] in
  match run_sign_command true 256 args (Ok key_bytes) (Ok tt) (Ok plain_output) (Ok (slow_reader [1; 2; 3])) with
  | None => ∃ d, key_from_bytes Fb163 key = Some d ∧ ∀ c, 0 ≤ c < (256 `min` 256)%nat → attempt Fb163 (limbs_val d) (kupyna_digest Kupyna256 [1; 2; 3]) c = None
  | Some (o, r) => r = Ok tt
  end.
Proof.
  intros S args key key_bytes. assert (array_ok 21 key) as Hk by by_decision.
  pose proof (@sign_verify_commands plain_subtle plain_subtle_laws true false true true 256 args Fb163 key key_bytes plain_output (slow_reader [1; 2; 3]) (key_file_line Sign163Secret key Hk)) as H.
  assert (fresh plain_output) as Hfr by (split; reflexivity).
  specialize (H ltac:(split; by vm_compute) ltac:(by_decision) ltac:(by_decision) Hfr).
  destruct (run_sign_command true 256 args (Ok key_bytes) (Ok tt) (Ok plain_output) (Ok (slow_reader [1; 2; 3]))) as [[o r]|].
  - destruct H as (out' & _ & H & _). apply H; repeat constructor.
  - exact H.
Defined.
