(* ===== verification/BoxCommand.v ===== *)
(** The commands [box-seal] and [box-open] ([uacrypt/src/lib.rs]): a file or stream encrypted to a public key of any size, record by record
    as in [CliStream.v], with the encrypted seed of [CryptoBox.v] in front.  The key files are read as in [KeyCommands.v].  With
    [--iterations] the whole input is sealed or opened in memory, that many times; the timing of the runs is left out.

    [None] stands for a panic, or for the search of an ephemeral scalar that is still running when its fuel is spent. *)

From stdpp Require Import strings.
From S2P Require Import Prelude External BlockCipher Stream Kalyna Ghash Randombytes Secretstream SecretstreamFile.
From S2P Require Import Limb Modular Primes Fp9041 Edwards Curve9041 Message9041 Encryption9041 CryptoBox Keyfile CliError CliStream CliArgs HashCommand KeyCommands SignCommand.
#[local] Open Scope Z_scope.
#[local] Open Scope uacrypt_scope.

(** ** Keys of any size *)

Definition curve_label (self : AnyBoxSecret) : string :=
  match self with
  | SecretL256 _ => "l(p)=256"
  | SecretL384 _ => "l(p)=384"
  | SecretL512 _ => "l(p)=512"
  end.

Definition box_open_error (curve : string) (e : OpenError) : CliError :=
  match e with
  | CryptoBox.Truncated => BoxOpenTruncated curve
  | CryptoBox.InvalidCiphertext => BoxOpenFailed curve
  | CryptoBox.UnsupportedVersion => BoxOpenUnsupportedVersion
  end.

Definition map_open_error {A} (curve : string) (r : option (result A OpenError)) : option (result A CliError) :=
  r ← r;
  Some (match r with Ok a => Ok a | Err e => Err (box_open_error curve e) end).

Section box.
Context {GE : Type} (random_text : RandomError GE → string).
Context `{Cpu} `{Subtle} `{Zeroize}.

Definition any_open (self : AnyBoxSecret) (sealed : list Z) : option (result (list Z) CliError) :=
  let curve := curve_label self in
  match self with
  | SecretL256 k => map_open_error curve (CryptoBox.open (E := GE) Fp256 sealed k)
  | SecretL384 k => map_open_error curve (CryptoBox.open (E := GE) Fp384 sealed k)
  | SecretL512 k => map_open_error curve (CryptoBox.open (E := GE) Fp512 sealed k)
  end.

Definition open_stream_prefix_len (self : AnyBoxSecret) : nat :=
  match self with
  | SecretL256 _ => PREFIX_LEN Fp256
  | SecretL384 _ => PREFIX_LEN Fp384
  | SecretL512 _ => PREFIX_LEN Fp512
  end.

Definition any_open_stream (self : AnyBoxSecret) (prefix : list Z) : option (result FileDecryptor CliError) :=
  let curve := curve_label self in
  match self with
  | SecretL256 k => p ← key_array (PREFIX_LEN Fp256) prefix; map_open_error curve (CryptoBox.open_stream Fp256 p k)
  | SecretL384 k => p ← key_array (PREFIX_LEN Fp384) prefix; map_open_error curve (CryptoBox.open_stream Fp384 p k)
  | SecretL512 k => p ← key_array (PREFIX_LEN Fp512) prefix; map_open_error curve (CryptoBox.open_stream Fp512 p k)
  end.

(** A stream-file error inside a box. *)
Definition stream_error (self : AnyBoxSecret) (err : CliError) : CliError :=
  match err with
  | SecretstreamTruncated => BoxOpenTruncated (curve_label self)
  | SecretstreamVerifyFailed | SecretstreamUnsupportedVersion _ | SecretstreamChunkTooLarge | SecretstreamBadChunkLength | SecretstreamUnknownTag
  | SecretstreamTrailingData => BoxOpenFailed (curve_label self)
  | other => other
  end.

(** The text of a [SealError] is that of the random source's error. *)
Definition map_seal_error {A} (r : option (result A (SealError GE) * generator_calls GE)) : option (result A CliError * generator_calls GE) :=
  '(r, calls) ← r;
  Some (match r with Ok a => Ok a | Err (CryptoBox.Random e) => Err (CliError.Random (random_text e)) end, calls).

Definition any_seal (fuel : nat) (calls : generator_calls GE) (self : AnyBoxPublic) (message : list Z) : option (result (list Z) CliError * generator_calls GE) :=
  match self with
  | PublicL256 k => map_seal_error (CryptoBox.seal Fp256 fuel calls message k)
  | PublicL384 k => map_seal_error (CryptoBox.seal Fp384 fuel calls message k)
  | PublicL512 k => map_seal_error (CryptoBox.seal Fp512 fuel calls message k)
  end.

Definition any_seal_stream (fuel : nat) (calls : generator_calls GE) (self : AnyBoxPublic) : option (result (FileEncryptor * list Z) CliError * generator_calls GE) :=
  match self with
  | PublicL256 k => map_seal_error (CryptoBox.seal_stream Fp256 fuel calls k)
  | PublicL384 k => map_seal_error (CryptoBox.seal_stream Fp384 fuel calls k)
  | PublicL512 k => map_seal_error (CryptoBox.seal_stream Fp512 fuel calls k)
  end.

(** ** The surroundings of a command *)

(** What its calls of the file system give: the key file, the check of the output path against it, the check and the reservation of the
    output, the opened input and the same input read as a whole. *)
Record BoxFiles : Type := {
  box_key_file : result (list Z) string;
  check_against : result unit CliError;
  precheck : result unit CliError;
  created : result Output CliError;
  opened : result Reader CliError;
  read_all : result (list Z) CliError
}.

(** ** [box-seal] *)

(** The loop [for _ in 1..args.iterations]. *)
Fixpoint seal_again (fuel n : nat) (calls : generator_calls GE) (public : AnyBoxPublic) (message sealed : list Z) : option (result (list Z) CliError) :=
  match n with
  | O => Some (Ok sealed)
  | S n =>
      '(r, calls) ← any_seal fuel calls public message;
      match r with
      | Err e => Some (Err e)
      | Ok sealed => seal_again fuel n calls public message sealed
      end
  end.

Definition run_box_seal_benchmark (fuel : nat) (calls : generator_calls GE) (public : AnyBoxPublic) (args : SignArgs) (files : BoxFiles) : option outcome :=
  match created files with
  | Err e => Some (None, Err e)
  | Ok out =>
      match read_all files with
      | Err e => Some (Some out, Err e)
      | Ok message =>
          '(r, calls) ← any_seal fuel calls public message;
          r ← match r with
            | Err e => Some (Err e)
            | Ok sealed => seal_again fuel (Z.to_nat (sign_iterations args - 1)) calls public message sealed
            end;
          match r with
          | Err e => Some (Some out, Err e)
          | Ok sealed =>
              let '(out, written) := write_all out sealed in
              let '(out, r) := finish_output out written in
              Some (Some out, r)
          end
      end
  end.

Definition run_box_seal_command (fuel : nat) (calls : generator_calls GE) (args : SignArgs) (files : BoxFiles) : option outcome :=
  r ← read_box_public_key (sign_key_path args) "box-seal" (box_key_file files);
  match r with
  | Err e => Some (None, Err e)
  | Ok public =>
      match check_against files with
      | Err e => Some (None, Err e)
      | Ok _ =>
          if Z.ltb 1 (sign_iterations args) then run_box_seal_benchmark fuel calls public args files
          else
            match precheck files with
            | Err e => Some (None, Err e)
            | Ok _ =>
                match opened files with
                | Err e => Some (None, Err e)
                | Ok input =>
                    match created files with
                    | Err e => Some (None, Err e)
                    | Ok out =>
                        '(r, _) ← any_seal_stream fuel calls public;
                        '(out, result) ← match r with
                          | Err e => Some (out, Err e : result unit CliError)
                          | Ok (enc, prefix) =>
                              let '(out, r) := write_all out prefix in
                              match r with
                              | Err e => Some (out, Err e)
                              | Ok _ =>
                                  '(_, _, out, r) ← write_stream_records random_text enc input (source_label (sign_in_path args)) out;
                                  Some (out, r)
                              end
                          end;
                        let '(out, r) := finish_output out result in
                        Some (Some out, r)
                    end
                end
            end
      end
  end.

(** ** [box-open] *)

Fixpoint open_again (n : nat) (secret : AnyBoxSecret) (sealed plaintext : list Z) : option (result (list Z) CliError) :=
  match n with
  | O => Some (Ok plaintext)
  | S n =>
      r ← any_open secret sealed;
      match r with
      | Err e => Some (Err e)
      | Ok plaintext => open_again n secret sealed plaintext
      end
  end.

Definition run_box_open_benchmark (secret : AnyBoxSecret) (args : SignArgs) (files : BoxFiles) : option outcome :=
  match created files with
  | Err e => Some (None, Err e)
  | Ok out =>
      match read_all files with
      | Err e => Some (Some out, Err e)
      | Ok sealed =>
          r ← any_open secret sealed;
          r ← match r with
            | Err e => Some (Err e)
            | Ok plaintext => open_again (Z.to_nat (sign_iterations args - 1)) secret sealed plaintext
            end;
          match r with
          | Err e => Some (Some out, Err e)
          | Ok plaintext =>
              let '(out, written) := write_all out plaintext in
              let '(out, r) := finish_output out written in
              Some (Some out, r)
          end
      end
  end.

(** What [box-open] reads before it reserves the output: the format version and the rest of the prefix. *)
Definition box_open_start (secret : AnyBoxSecret) (raw : Reader) (source : path) : option (result (FileDecryptor * Reader) CliError) :=
  let prefix := replicate (open_stream_prefix_len secret) 0 in
  '(raw, bytes, r) ← fill_chunk raw (take 1 prefix);
  let prefix := copy_at 0 bytes prefix in
  match r with
  | Err e => Some (Err (source_error source e))
  | Ok got =>
      if Nat.eqb got 0 then Some (Err (BoxOpenTruncated (curve_label secret)))
      else if negb (Z.eqb (prefix.[0]) CryptoBox.FORMAT_VERSION) then Some (Err BoxOpenUnsupportedVersion)
      else
        '(raw, bytes, r) ← fill_chunk raw (drop 1 prefix);
        let prefix := copy_at 1 bytes prefix in
        match r with
        | Err e => Some (Err (source_error source e))
        | Ok got =>
            if Nat.ltb got (length prefix - 1) then Some (Err (BoxOpenTruncated (curve_label secret)))
            else
              dec ← any_open_stream secret prefix;
              Some (result_bind dec (λ dec, Ok (dec, raw)))
        end
  end.

Definition run_box_open_command (args : SignArgs) (files : BoxFiles) : option outcome :=
  r ← read_box_secret_key (sign_key_path args) "box-open" (box_key_file files);
  match r with
  | Err e => Some (None, Err e)
  | Ok secret =>
      match check_against files with
      | Err e => Some (None, Err e)
      | Ok _ =>
          if Z.ltb 1 (sign_iterations args) then run_box_open_benchmark secret args files
          else
            match precheck files with
            | Err e => Some (None, Err e)
            | Ok _ =>
                match opened files with
                | Err e => Some (None, Err e)
                | Ok raw =>
                    let source := source_label (sign_in_path args) in
                    start ← box_open_start secret raw source;
                    match start with
                    | Err e => Some (None, Err e)
                    | Ok (dec, input) =>
                        match created files with
                        | Err e => Some (None, Err e)
                        | Ok out =>
                            '(_, _, out, result) ← decrypt_stream_records random_text dec input source out;
                            let result : Prelude.result unit CliError := match result with Ok _ => Ok tt | Err e => Err (stream_error secret e) end in
                            let '(out, r) := finish_output out result in
                            Some (Some out, r)
                        end
                    end
                end
            end
      end
  end.
End box.

(** ** One text over the size *)

Definition size_label (F : fp) : string := match F with Fp256 => "l(p)=256" | Fp384 => "l(p)=384" | Fp512 => "l(p)=512" end.

Section sizes.
Context {GE : Type} (random_text : RandomError GE → string).

Lemma curve_label_eq F k : curve_label (any_secret F k) = size_label F.
Proof. by destruct F. Qed.

Lemma any_open_eq `{Cpu} `{Subtle} `{Zeroize} F k sealed : any_open (GE := GE) (any_secret F k) sealed = map_open_error (size_label F) (CryptoBox.open (E := GE) F sealed k).
Proof. by destruct F. Qed.

Lemma prefix_len_eq F k : open_stream_prefix_len (any_secret F k) = PREFIX_LEN F.
Proof. by destruct F. Qed.

Lemma any_open_stream_eq `{Subtle} F k prefix : length prefix = PREFIX_LEN F →
  any_open_stream (any_secret F k) prefix = map_open_error (size_label F) (CryptoBox.open_stream F prefix k).
Proof. intros Hl. destruct F; unfold any_open_stream, any_secret; by rewrite (key_array_spec _ _ Hl). Qed.

Lemma any_seal_eq `{Cpu} F fuel calls q message : any_seal random_text fuel calls (any_public F q) message = map_seal_error random_text (CryptoBox.seal F fuel calls message q).
Proof. by destruct F. Qed.

Lemma any_seal_stream_eq F fuel calls q : any_seal_stream random_text fuel calls (any_public F q) = map_seal_error random_text (CryptoBox.seal_stream F fuel calls q).
Proof. by destruct F. Qed.
End sizes.

(** ** The part in front of the records *)

Section opens.
Context {GE : Type} `{Cpu} `{SubtleLaws} `{ZeroizeLaws} (F : fp) (e : list Z) (He : array_ok (bytes_of F) e) (Hp : Z.prime (p_of F)).
#[local] Abbreviation secret := (from_valid_scalar F e).
#[local] Abbreviation box_key := (context_key F (public_key secret)).

(** What [open_stream] makes of a prefix: the decryptor of the key of every box that starts with it, or a refusal of them all. *)
Lemma open_stream_spec kem : array_ok (KEM_CIPHERTEXT_LEN F) kem →
  ∃ r, CryptoBox.open_stream F (CryptoBox.FORMAT_VERSION :: kem) secret = Some r ∧
    match r with
    | Ok dec => ∃ key, array_ok 32 key ∧ dec = decryptor_new key ∧ ∀ rest pt, box_contains F e (CryptoBox.FORMAT_VERSION :: kem ++ rest) pt ↔ accepts dec rest pt
    | Err _ => ∀ rest pt, ¬ box_contains F e (CryptoBox.FORMAT_VERSION :: kem ++ rest) pt
    end.
Proof.
  intros Hk. unfold CryptoBox.open_stream. cbn [nth negb drop]. rewrite Z.eqb_refl, drop_0. cbn [negb].
  rewrite copy_at_whole by (rewrite length_replicate; apply Hk).
  destruct (decapsulate_ok F e He Hp kem Hk) as (r & -> & Hr). cbn [mbind option_bind].
  assert (∀ kem' m header recs rest, CryptoBox.FORMAT_VERSION :: kem ++ rest = CryptoBox.FORMAT_VERSION :: kem' ++ Secretstream.FORMAT_VERSION :: header ++ recs → length kem' = KEM_CIPHERTEXT_LEN F →
    kem' = kem ∧ rest = Secretstream.FORMAT_VERSION :: header ++ recs ∧ m = m :> list Z) as Hsplit.
  { intros kem' m header recs rest [= E] Hl. apply app_inj_1 in E as [-> ->]; [done|]. by rewrite Hl, (proj1 Hk). }
  destruct Hr as [(m & Hd & Hs & ->)|[-> Hno]]; cbn [result_bind].
  - destruct (box_key_ok F e Hp _ _ Hs Hk) as [_ Hkey]. eexists. split; [done|]. exists (box_key (recovered_seed F m) kem). split; [done|]. split; [done|]. intros rest pt. unfold accepts. cbn [state decryptor_new]. split.
    + intros (kem' & m' & header & recs & E & Hkl & Hd' & Hhl & Hw). destruct (Hsplit kem' m' header recs rest E Hkl) as (-> & -> & _). rewrite Hd in Hd'. injection Hd' as <-. exists header, recs. done.
    + intros (header & recs & -> & Hhl & Hw). exists kem, m, header, recs. split_and!; (done || apply Hk).
  - eexists. split; [done|]. intros rest pt (kem' & m' & header & recs & E & Hkl & Hd' & _). destruct (Hsplit kem' m' header recs rest E Hkl) as (-> & _ & _). by apply Hno in Hd'.
Qed.

Lemma box_contains_prefix sealed pt : box_contains F e sealed pt → ∃ kem rest, sealed = CryptoBox.FORMAT_VERSION :: kem ++ rest ∧ length kem = KEM_CIPHERTEXT_LEN F.
Proof. intros (kem & m & header & recs & -> & Hk & _). by exists kem, (Secretstream.FORMAT_VERSION :: header ++ recs). Qed.

(** The same for what [box-open] reads. *)
Lemma box_open_start_spec raw source : bytes_ok (pending raw) →
  ∃ r, box_open_start (any_secret F secret) raw source = Some r ∧
    match r with
    | Ok (dec, input) => ∃ key, array_ok 32 key ∧ dec = decryptor_new key ∧ bytes_ok (pending input) ∧ (length (pending input) ≤ length (pending raw))%nat ∧ (healthy raw → healthy input) ∧
        ∀ pt, box_contains F e (pending raw) pt ↔ accepts dec (pending input) pt
    | Err _ => healthy raw → ∀ pt, ¬ box_contains F e (pending raw) pt
    end.
Proof.
  intros Hb. unfold box_open_start. rewrite prefix_len_eq, curve_label_eq. cbv zeta. unfold PREFIX_LEN. set (n := KEM_CIPHERTEXT_LEN F) in *. change (1 + n)%nat with (S n). cbn [replicate take]. rewrite take_0.
  destruct (fill_chunk_spec raw [0]) as (raw1 & bytes & r & -> & Hh1 & Hl1 & Hr). cbn [mbind option_bind]. cbn [length] in *. destruct r as [got|err]; [|by eexists; split; [done|]; intros ?].
  destruct Hr as (Eg & -> & Ep1). destruct (pending raw) as [|v rest] eqn:Epr.
  { cbn in Eg. subst got. cbn [Nat.eqb]. eexists. split; [done|]. by intros _ pt (kem & rest & [=] & _)%box_contains_prefix. }
  assert (got = 1%nat) as -> by (cbn in Eg; lia). cbn [Nat.eqb take drop] in *. rewrite drop_0 in Ep1. rewrite take_0.
  change (copy_at 0 (copy_at 0 [v] [0]) (0 :: replicate n 0)) with (v :: replicate n 0). cbn [nth].
  destruct (Z.eqb_spec v CryptoBox.FORMAT_VERSION) as [->|Hv]; cbn [negb].
  2:{ eexists. split; [done|]. by intros _ pt (kem & rest' & [= E _] & _)%box_contains_prefix. }
  cbn [drop]. rewrite drop_0. apply Forall_cons in Hb as [_ Hb].
  destruct (fill_chunk_spec raw1 (replicate n 0)) as (raw2 & bytes & r & -> & Hh2 & Hl2 & Hr). cbn [mbind option_bind]. rewrite length_replicate in *. destruct r as [got|err].
  2:{ eexists. split; [done|]. intros Hh. by destruct Hr; apply Hh1. }
  destruct Hr as (Eg2 & Ebytes & Ep2). rewrite Ep1 in *.
  assert (copy_at 1 bytes (CryptoBox.FORMAT_VERSION :: replicate n 0) = CryptoBox.FORMAT_VERSION :: bytes) as ->.
  { change (CryptoBox.FORMAT_VERSION :: replicate n 0) with ([CryptoBox.FORMAT_VERSION] ++ replicate n 0). rewrite <- (app_nil_r (replicate n 0)), copy_at_app by (rewrite ?length_replicate; done). by rewrite app_nil_r. }
  cbn [length]. rewrite Hl2. replace (S n - 1)%nat with n by lia. destruct (Nat.ltb_spec got n) as [Hlt|Hge].
  { eexists. split; [done|]. intros _ pt (kem & rest' & [= ->] & Hk)%box_contains_prefix. fold n in Hk. rewrite length_app in Eg2. lia. }
  assert (got = n ∧ (n ≤ length rest)%nat) as [-> Hle] by lia. assert (bytes = take n rest) as ->.
  { rewrite Ebytes. apply copy_at_whole. rewrite length_take, length_replicate. lia. }
  assert (array_ok n (take n rest)) as Hk by (split; [rewrite length_take; lia|by apply Forall_take]).
  rewrite any_open_stream_eq by (cbn [length]; by rewrite (proj1 Hk)). destruct (open_stream_spec (take n rest) Hk) as (r & -> & Hr). unfold map_open_error. cbn [mbind option_bind].
  eexists. split; [done|]. destruct r as [dec|err]; cbn [result_bind].
  - destruct Hr as (key & Hkey & Edec & Hacc). exists key. rewrite Ep2. split; [done|]. split; [done|]. split; [by apply Forall_drop|]. split; [rewrite length_drop; cbn; lia|]. split; [auto|].
    intros pt. rewrite <- Hacc. by rewrite take_drop.
  - intros _ pt. specialize (Hr (drop n rest) pt). by rewrite take_drop in Hr.
Qed.
End opens.

(** ** The end of an output *)

(** A whole result is written and published, or nothing is. *)
Lemma write_and_finish out bytes : fresh out → let '(out1, w) := write_all out bytes in let '(out2, r) := finish_output out1 w in
  ((r = Ok tt ∧ published out2 = Some bytes) ∨ (r ≠ Ok tt ∧ published out2 = None)) ∧ (sound out → r = Ok tt) ∧ reports_incomplete out2 r.
Proof.
  intros [Hw0 Hp0]. pose proof (write_all_spec out bytes) as Hw. destruct (write_all out bytes) as [out1 w]. destruct Hw as ((_ & Hp1 & Hso & Hmk) & Hok & Hwr).
  pose proof (finish_output_spec out1 w) as Hf. destruct (finish_output out1 w) as [out2 r]. destruct Hf as (Hf1 & Hf2 & Hf3). split; [|split].
  - destruct Hf1 as [(Hr & Hw & Hp)|?]; [congruence| |by right]. left. split; [done|]. by rewrite Hp, Hwr, Hw0.
  - intros Hs. apply Hf2; [by apply Hso|by apply Hok].
  - apply Hf3, Hmk. by left.
Qed.

(** An output to which nothing was written has nothing to report. *)
Lemma fresh_incomplete out r : fresh out → reports_incomplete out r.
Proof. intros [Hw _] _ Hne. by rewrite Hw in Hne. Qed.

(** ** Opening *)

Section open_run.
Context {GE : Type} (random_text : RandomError GE → string) `{Cpu} `{SubtleLaws} `{ZeroizeLaws}.

(** The whole of the input, as the benchmark reads it. *)
Definition reads_whole (files : BoxFiles) (raw : Reader) : Prop :=
  match read_all files with Ok data => data = pending raw | Err _ => ¬ healthy raw end.

(** What a command that opens leaves behind: [contains] says which plaintexts are authentic. *)
Definition opens_to (contains : list Z → Prop) (files : BoxFiles) (raw : Reader) (res : outcome) : Prop :=
  let '(o, r) := res in
  (r = Ok tt → ∃ out' pt, o = Some out' ∧ published out' = Some pt ∧ contains pt) ∧
  (r ≠ Ok tt → ∀ out', o = Some out' → published out' = None) ∧ (∀ out', o = Some out' → reports_incomplete out' r) ∧
  ∀ pt out, contains pt → healthy raw → created files = Ok out → sound out → r = Ok tt ∧ ∃ out', o = Some out' ∧ published out' = Some pt.

Lemma opens_nothing contains files raw e : (∀ pt, healthy raw → ¬ contains pt) ∨ (∀ out, created files ≠ Ok out) → opens_to contains files raw (None, Err e).
Proof.
  intros Hno. split; [done|]. split; [done|]. split; [done|]. intros pt out Hc Hh Hcr. destruct Hno as [Hno|Hno]; [by destruct (Hno pt Hh)|by destruct (Hno out)].
Qed.

Lemma open_again_eq n secret sealed pt : any_open (GE := GE) secret sealed = Some (Ok pt) → open_again (GE := GE) n secret sealed pt = Some (Ok pt).
Proof. intros E. induction n as [|n IH]; [done|]. cbn [open_again]. by rewrite E. Qed.

Lemma open_benchmark_run F e args files raw : Z.prime (p_of F) → array_ok (bytes_of F) e → bytes_ok (pending raw) → length (pending raw) < 2 ^ 64 →
  (∀ out, created files = Ok out → fresh out) → reads_whole files raw →
  ∃ res, run_box_open_benchmark (GE := GE) (any_secret F (from_valid_scalar F e)) args files = Some res ∧ opens_to (box_contains F e (pending raw)) files raw res.
Proof.
  intros Hp He Hb Hl Hfr Hwh. unfold run_box_open_benchmark, reads_whole in *. destruct (created files) as [out|err] eqn:Ecr.
  2:{ eexists. split; [done|]. apply opens_nothing. right. by rewrite Ecr. }
  specialize (Hfr out eq_refl). destruct (read_all files) as [sealed|err].
  2:{ eexists. split; [done|]. split; [done|]. split; [intros _ out' [= <-]; apply Hfr|]. split; [intros out' [= <-]; by apply fresh_incomplete|]. intros pt out' _ Hh. done. }
  subst sealed. pose proof (any_open_eq (GE := GE) F (from_valid_scalar F e) (pending raw)) as Ea.
  destruct (sealed_box_open_spec (E := GE) F e He Hp (pending raw) Hb Hl) as (r & Er & Hr). rewrite Er in Ea. unfold map_open_error in Ea. cbn [mbind option_bind] in Ea. rewrite Ea. cbn [mbind option_bind].
  destruct r as [pt|err].
  - rewrite (open_again_eq _ _ _ _ Ea). cbn [mbind option_bind]. pose proof (write_and_finish out pt Hfr) as Hw. destruct (write_all out pt) as [out1 w], (finish_output out1 w) as [out2 r].
    destruct Hw as (Hcase & Hso & Hinc). pose proof (proj1 (Hr pt) eq_refl) as Hc. eexists. split; [done|]. split; [|split; [|split]].
    + intros Hok. destruct Hcase as [[_ Hpub]|[? _]]; [|done]. by exists out2, pt.
    + intros Hne out' [= <-]. by destruct Hcase as [[? _]|[_ ?]].
    + by intros out' [= <-].
    + intros pt' out' Hc' _ Ecr' Hs. rewrite Ecr in Ecr'. injection Ecr' as <-. apply Hr in Hc' as [= <-]. destruct Hcase as [[Hok Hpub]|[Hne _]]; [split; [done|]; by exists out2|].
      by destruct Hne; apply Hso.
  - eexists. split; [done|]. split; [done|]. split; [intros _ out' [= <-]; apply Hfr|]. split; [intros out' [= <-]; by apply fresh_incomplete|].
    intros pt out' Hc. by apply Hr in Hc.
Qed.

Lemma stream_error_ok secret (result : Prelude.result unit CliError) :
  match result with Ok _ => Ok tt | Err e => Err (stream_error secret e) end = Ok tt ↔ result = Ok tt.
Proof. destruct result as [[]|e]; split; congruence. Qed.

(** The records: nothing is published unless all of them are authentic. *)
Lemma open_records_run F k key input source out contains files raw : array_ok 32 key → bytes_ok (pending input) → length (pending input) < 2 ^ 64 → fresh out → created files = Ok out →
  (healthy raw → healthy input) → (∀ pt, contains pt ↔ accepts (decryptor_new key) (pending input) pt) →
  ∃ res, ('(_, _, out, result) ← decrypt_stream_records random_text (decryptor_new key) input source out;
          let result : Prelude.result unit CliError := match result with Ok _ => Ok tt | Err e => Err (stream_error (any_secret F k) e) end in
          let '(out, r) := finish_output out result in
          Some (Some out, r)) = Some res ∧ opens_to contains files raw res.
Proof.
  intros Hk Hb Hl [Hw0 Hp0] Ecr Hh Hacc. unfold decrypt_stream_records.
  destruct (decrypt_loop_spec random_text key (S (length (pending input))) Hk (decryptor_new key) input source out (replicate CHUNK_BYTES 0) (replicate MAX_RECORD_BYTES 0))
    as (d' & in' & out1 & res & -> & (_ & Hpub & Hso & Hmk) & A1 & A2); [split; [apply length_replicate|done]|done|apply length_replicate|apply length_replicate|lia|lia|].
  cbn [mbind option_bind]. rewrite Hw0 in A1, A2.
  match goal with |- context [finish_output out1 ?x] => set (res' := x) end. assert (res' = Ok tt ↔ res = Ok tt) as Hres' by apply stream_error_ok.
  pose proof (finish_output_spec out1 res') as Hf. destruct (finish_output out1 res') as [out2 r]. destruct Hf as (Hf1 & Hf2 & Hf3). rewrite Hpub in Hf1. specialize (Hf1 Hp0).
  eexists. split; [done|]. split; [|split; [|split]].
  - intros Hok. destruct Hf1 as [(_ & Hr' & Hp)|[? _]]; [|done]. destruct (A1 (proj1 Hres' Hr')) as (p & E & Ha). exists out2, p. split; [done|]. split; [by rewrite Hp, E|by apply Hacc].
  - intros Hne out' [= <-]. by destruct Hf1 as [(? & _)|[_ ?]].
  - intros out' [= <-]. apply Hf3, Hmk. by left.
  - intros pt out' Hc Hhe Ecr' Hs. rewrite Ecr in Ecr'. injection Ecr' as <-. apply Hacc in Hc. destruct (A2 pt (Hh Hhe) Hs Hc) as [Er E].
    assert (r = Ok tt) as Hr by (apply Hf2; [by apply Hso|by apply Hres']). split; [done|]. exists out2. split; [done|]. destruct Hf1 as [(_ & _ & Hp)|[? _]]; [by rewrite Hp, E|done].
Qed.

(** [box-open], with the key that its key file holds. *)
Lemma box_open_run args files key_bytes raw F e : box_key_file files = Ok key_bytes → key_file key_bytes (box_secret_kind F) e → is_valid_scalar F e = true → Z.prime (p_of F) →
  check_against files = Ok tt → precheck files = Ok tt ∨ 1 < sign_iterations args → opened files = Ok raw → bytes_ok (pending raw) → length (pending raw) < 2 ^ 64 →
  (∀ out, created files = Ok out → fresh out) → reads_whole files raw →
  ∃ res, run_box_open_command random_text args files = Some res ∧ opens_to (box_contains F e (pending raw)) files raw res.
Proof.
  intros Ek Hf Hv Hp Ech Epre Eop Hb Hl Hfr Hwh. pose proof (proj1 Hf) as He. rewrite (proj1 (box_key_lengths F)) in He. unfold run_box_open_command. rewrite Ek.
  destruct (box_secret_file (sign_key_path args) "box-open" key_bytes (key_file_bytes _ _ _ Hf)) as (r & -> & Hr). cbn [mbind option_bind].
  assert (r = Ok (any_secret F (from_valid_scalar F e))) as ->. { apply Hr. exists F, e. split; [exact Hf|]. unfold secret_from_bytes. by rewrite Hv. }
  rewrite Ech, Eop. destruct (Z.ltb_spec 1 (sign_iterations args)); [by apply open_benchmark_run|]. destruct Epre as [->|?]; [|lia].
  destruct (box_open_start_spec F e He Hp raw (source_label (sign_in_path args)) Hb) as (start & -> & Hstart). cbn [mbind option_bind].
  destruct start as [[dec input]|err].
  2:{ eexists. split; [done|]. apply opens_nothing. left. intros pt Hh. by apply Hstart. }
  destruct Hstart as (key & Hkey & -> & Hib & Hil & Hh & Hacc). destruct (created files) as [out|err] eqn:Ecr.
  - apply open_records_run; try done; [lia|by apply Hfr].
  - eexists. split; [done|]. apply opens_nothing. right. by rewrite Ecr.
Qed.
End open_run.

(** ** Sealing *)

Section seal_run.
Context {GE : Type} (random_text : RandomError GE → string) `{Cpu} `{SubtleLaws} `{ZeroizeLaws}.
Context (F : fp) (Hp : Z.prime (p_of F)).

(** The calls that are left after some of them. *)
Definition rest_of_calls (calls calls' : generator_calls GE) : Prop := ∃ k, ∀ i, calls' i = calls (k + i)%nat.

Lemma rest_ok calls calls' : rest_of_calls calls calls' → (∀ i, fill_ok (calls i)) → ∀ i, fill_ok (calls' i).
Proof. intros [k Hk] Hc i. by rewrite Hk. Qed.

Lemma rest_later (calls : generator_calls GE) calls' : rest_of_calls calls calls' → rest_of_calls calls (later calls').
Proof. intros [k Hk]. exists (S k). intros i. unfold later. rewrite Hk. f_equal. lia. Qed.

Lemma rest_trans calls calls' calls'' : rest_of_calls calls calls' → rest_of_calls calls' calls'' → rest_of_calls calls calls''.
Proof. intros [k Hk] [k' Hk']. exists (k + k')%nat. intros i. rewrite Hk', Hk. f_equal. lia. Qed.

(** What starts a box for a usable key. *)
Lemma seal_stream_usable fuel calls q : (∀ i, fill_ok (calls i)) → point_ok F q → is_usable_recipient F q = true →
  match CryptoBox.seal_stream F fuel calls q with
  | None => ∀ i, (i < fuel)%nat → scalar_rejected F (calls (S i))
  | Some (Err (CryptoBox.Random (RandomError_new err)), _) => call_failed calls err
  | Some (Ok (enc, prefix), calls') => rest_of_calls calls calls' ∧ ∃ seed kem header, seed_encrypted F q seed kem ∧ array_ok 32 header ∧
      enc = {| enc_push := to_push (start (context_key F q seed kem) header) |} ∧ prefix = CryptoBox.FORMAT_VERSION :: kem ++ Secretstream.FORMAT_VERSION :: header
  end.
Proof.
  intros Hc Hq Hu. unfold CryptoBox.seal_stream. pose proof (encapsulate_usable F Hp fuel calls q Hc Hq Hu) as Hen.
  destruct (encapsulate F fuel calls q CryptoBox.FORMAT_VERSION) as [[[[kem key]|[err]] calls']|]; cbn [mbind option_bind]; [|done|done].
  destruct Hen as (Hrest & seed & Henc & ->). pose proof Henc as (Hs & [Hkl Hkb] & _). destruct (context_key_ok F q seed kem Hq Hs (conj Hkl Hkb)) as [_ Hkey].
  pose proof (rest_ok _ _ Hrest Hc) as Hc'. destruct (encryptor_init_spec (calls' O) _ Hkey (Hc' O)) as (r & Er & Hr).
  destruct ((calls' O) (replicate 32 0)).2 as [[]|err] eqn:Eh.
  - rewrite Er. cbn [mbind option_bind]. destruct r as [[enc prefix]|e].
    + destruct Hr as (header & Hh & -> & ->). rewrite (CryptoBox.prefix_built F) by (done || (cbn [length]; by rewrite (proj1 Hh))). split; [by apply rest_later|]. by exists seed, kem, header.
    + exfalso. destruct (push_init_spec (calls' O) _ Hkey (Hc' O) Eh) as (_ & Ei & _). revert Er. unfold encryptor_init. rewrite Ei. cbn [mbind option_bind]. discriminate.
  - rewrite (encryptor_init_fails _ _ err Eh). cbn [mbind option_bind]. destruct Hrest as [k Hk]. exists (k + 0)%nat, 32%nat. by rewrite <- Hk.
Qed.

Lemma seal_calls fuel calls q message sealed calls' : (∀ i, fill_ok (calls i)) → point_ok F q → is_usable_recipient F q = true →
  CryptoBox.seal F fuel calls message q = Some (Ok sealed, calls') → rest_of_calls calls calls'.
Proof.
  intros Hc Hq Hu. unfold CryptoBox.seal. pose proof (seal_stream_usable fuel calls q Hc Hq Hu) as Hs.
  destruct (CryptoBox.seal_stream F fuel calls q) as [[[[enc prefix]|err] calls1]|]; cbn [mbind option_bind]; [|done|done].
  destruct (seal_all _ _ _) as [[enc' [out|e]]|]; cbn [mbind option_bind]; [|done|done]. intros [= _ <-]. by destruct Hs.
Qed.
End seal_run.

Section seal_commands.
Context {GE : Type} (random_text : RandomError GE → string) `{Cpu} `{SubtleLaws} `{ZeroizeLaws}.
Context (F : fp) (Hp : Z.prime (p_of F)) (Hn : Z.prime (n_of F)) (e : list Z) (He : array_ok (bytes_of F) e) (Hv : is_valid_scalar F e = true).
Context (fuel : nat) (calls0 : generator_calls GE) (Hc0 : ∀ i, fill_ok (calls0 i)).

(** A box with this message for the holder of the scalar. *)
Definition boxed (message sealed : list Z) : Prop := box_contains F e sealed message ∧ bytes_ok sealed ∧ length sealed < 2 ^ 64.

(** Why sealing may give nothing: the source failed, or every candidate for an ephemeral scalar was out of range. *)
Definition source_failed : Prop := ∃ err, call_failed calls0 err.
Definition source_rejected : Prop := ∃ k, ∀ i, (i < fuel)%nat → scalar_rejected F (calls0 (k + i)%nat).

Lemma call_failed_later calls err : rest_of_calls calls0 calls → call_failed calls err → source_failed.
Proof. intros [k Hk] (i & n & E). exists err, (k + i)%nat, n. by rewrite <- Hk. Qed.

Lemma rejected_later calls : rest_of_calls calls0 calls → (∀ i, (i < fuel)%nat → scalar_rejected F (calls (S i))) → source_rejected.
Proof. intros [k Hk] Hr. exists (k + 1)%nat. intros i Hi. replace (k + 1 + i)%nat with (k + S i)%nat by lia. rewrite <- Hk. by apply Hr. Qed.

Context (q : Point) (Hq : recipient_of F e q).

Lemma recipient_usable : is_usable_recipient F q = true.
Proof. destruct Hq as (_ & _ & Hm). by apply (key_usable F Hp Hn e q He Hv). Qed.

Lemma any_seal_spec calls message : rest_of_calls calls0 calls → bytes_ok message → length message < 2 ^ 57 →
  match any_seal random_text fuel calls (any_public F q) message with
  | None => source_rejected
  | Some (Err _, _) => source_failed
  | Some (Ok sealed, calls') => rest_of_calls calls0 calls' ∧ boxed message sealed
  end.
Proof.
  intros Hrest Hb Hl. pose proof (rest_ok _ _ Hrest Hc0) as Hc. rewrite any_seal_eq. unfold map_seal_error.
  pose proof (seal_usable F Hp fuel calls message q Hc (proj1 Hq) recipient_usable Hb ltac:(lia)) as Hs.
  pose proof (seal_calls F Hp fuel calls q message) as Hsc.
  destruct (CryptoBox.seal F fuel calls message q) as [[[sealed|[[err]]] calls']|]; cbn [mbind option_bind]; [|by eapply call_failed_later|by eapply rejected_later].
  split; [eapply rest_trans; [exact Hrest|by eapply Hsc; [|apply Hq|apply recipient_usable|]]|]. destruct Hs as (seed & kem & header & recs & Henc & Hhl & -> & Hw & Hsb & Hsl & _).
  split; [|done]. by apply (seal_contains F e He Hp Hv Hn q message seed).
Qed.

Lemma seal_again_spec n message : bytes_ok message → length message < 2 ^ 57 → ∀ calls sealed, rest_of_calls calls0 calls → boxed message sealed →
  match seal_again random_text fuel n calls (any_public F q) message sealed with
  | None => source_rejected
  | Some (Err _) => source_failed
  | Some (Ok sealed) => boxed message sealed
  end.
Proof.
  intros Hb Hl. induction n as [|n IH]; intros calls sealed Hrest Hs; [done|]. cbn [seal_again]. pose proof (any_seal_spec calls message Hrest Hb Hl) as Ha.
  destruct (any_seal random_text fuel calls (any_public F q) message) as [[[sealed'|err] calls']|]; cbn [mbind option_bind]; [|done|done]. destruct Ha as [Hrest' Hs']. by apply IH.
Qed.

(** What a command that seals leaves behind. *)
Definition seals_to (input : Reader) (out : Output) (res : option outcome) : Prop :=
  match res with
  | None => source_rejected
  | Some (o, r) => ∃ out', o = Some out' ∧ (r = Ok tt → ∃ sealed, published out' = Some sealed ∧ boxed (pending input) sealed) ∧
      (r ≠ Ok tt → published out' = None) ∧ (healthy input → sound out → r = Ok tt ∨ source_failed)
  end.

Lemma seal_benchmark_run args files input out : created files = Ok out → fresh out → reads_whole files input → bytes_ok (pending input) → length (pending input) < 2 ^ 57 →
  seals_to input out (run_box_seal_benchmark random_text fuel calls0 (any_public F q) args files).
Proof.
  intros Ecr Hfr Hwh Hb Hl. unfold run_box_seal_benchmark, reads_whole in *. rewrite Ecr. assert (rest_of_calls calls0 calls0) as Hrest by by exists O.
  destruct (read_all files) as [message|err]; [|exists out; split; [done|]; split; [done|]; split; [intros _; apply Hfr|done]]. subst message.
  pose proof (any_seal_spec calls0 (pending input) Hrest Hb Hl) as Ha. destruct (any_seal random_text fuel calls0 (any_public F q) (pending input)) as [[[sealed|err] calls']|]; cbn [mbind option_bind]; [| |done].
  2:{ exists out. split; [done|]. split; [done|]. split; [intros _; apply Hfr|]. by right. }
  destruct Ha as [Hrest' Hs]. pose proof (seal_again_spec (Z.to_nat (sign_iterations args - 1)) (pending input) Hb Hl calls' sealed Hrest' Hs) as Hag.
  destruct (seal_again _ _ _ _ _ _ _) as [[sealed'|err]|]; cbn [mbind option_bind]; [| |done].
  2:{ exists out. split; [done|]. split; [done|]. split; [intros _; apply Hfr|]. by right. }
  pose proof (write_and_finish out sealed' Hfr) as Hw. destruct (write_all out sealed') as [out1 w], (finish_output out1 w) as [out2 r]. destruct Hw as (Hcase & Hso & _).
  exists out2. split; [done|]. split; [|split; [by destruct Hcase as [[? _]|[_ ?]]|by auto]].
  intros Hok. destruct Hcase as [[_ Hpub]|[? _]]; [|done]. by exists sealed'.
Qed.

Lemma seal_records_run input source out : fresh out → bytes_ok (pending input) → length (pending input) < 2 ^ 57 →
  seals_to input out (
    '(r, _) ← any_seal_stream random_text fuel calls0 (any_public F q);
    '(out, result) ← match r with
      | Err e => Some (out, Err e : result unit CliError)
      | Ok (enc, prefix) =>
          let '(out, r) := write_all out prefix in
          match r with
          | Err e => Some (out, Err e)
          | Ok _ => '(_, _, out, r) ← write_stream_records random_text enc input source out; Some (out, r)
          end
      end;
    let '(out, r) := finish_output out result in
    Some (Some out, r)).
Proof.
  intros [Hw0 Hp0] Hb Hl. rewrite any_seal_stream_eq. unfold map_seal_error. assert (rest_of_calls calls0 calls0) as Hrest by by exists O.
  pose proof (seal_stream_usable F Hp fuel calls0 q Hc0 (proj1 Hq) recipient_usable) as Hs.
  destruct (CryptoBox.seal_stream F fuel calls0 q) as [[[[enc prefix]|[[err]]] calls']|]; cbn [mbind option_bind]; [| |by eapply rejected_later].
  2:{ pose proof (finish_output_spec out (Err (CliError.Random (random_text (RandomError_new err))))) as Hf. destruct (finish_output out _) as [out2 r]. destruct Hf as (Hf & _ & _).
      exists out2. split; [done|]. destruct (Hf Hp0) as [(_ & ? & _)|[Hne Hpub]]; [done|]. split; [done|]. split; [done|]. intros _ _. right. by eapply call_failed_later. }
  destruct Hs as (_ & seed & kem & header & Henc & Hh & -> & ->). pose proof Henc as (Hsl & Hkem & _).
  destruct (context_key_ok F q seed kem (proj1 Hq) Hsl Hkem) as [_ Hkey]. set (key := context_key F q seed kem) in *.
  destruct (initial_subkey_spec key header Hkey Hh) as [_ Hss].
  pose proof (write_all_spec out (CryptoBox.FORMAT_VERSION :: kem ++ Secretstream.FORMAT_VERSION :: header)) as Hw. destruct (write_all out _) as [out1 r1]. destruct Hw as ((_ & Hp1 & Hso1 & _) & Hok1 & Hwr1).
  destruct r1 as [[]|err].
  - destruct (write_stream_records_spec random_text (start key header) input source out1) as (enc' & in' & out2 & res & -> & (_ & Hp2 & Hso2 & _) & Hok2 & Hw2); [by split|done|cbn [start ses_counter]; lia|done|].
    cbn [mbind option_bind]. pose proof (finish_output_spec out2 res) as Hf. destruct (finish_output out2 res) as [out3 r]. destruct Hf as (Hf1 & Hf2 & _). rewrite Hp2, Hp1, Hp0 in Hf1.
    exists out3. split; [done|]. split; [|split; [by destruct (Hf1 eq_refl) as [(? & _)|[_ ?]]|]].
    + intros Hr. destruct (Hf1 eq_refl) as [(_ & Hres & Hpub)|[? _]]; [|done]. destruct (Hw2 Hres) as (recs & Ew & Hwf). rewrite Hwr1, Hw0 in Ew by done. rewrite Hpub, Ew.
      exists (CryptoBox.FORMAT_VERSION :: kem ++ Secretstream.FORMAT_VERSION :: header ++ recs). split; [cbn [app]; by rewrite <- app_assoc|].
      destruct (wire_file_ok (start key header) (pending input) recs Hwf) as [Hrb Hrl]; [by split|done|cbn [start ses_counter]; lia|]. split; [by apply (seal_contains F e He Hp Hv Hn q _ seed); [| |apply Hh|]|]. split.
      * apply Forall_cons. split; [by_decision|]. apply Forall_app. split; [apply Hkem|]. apply Forall_cons. split; [by_decision|]. apply Forall_app. split; [apply Hh|done].
      * cbn [length]. rewrite length_app. cbn [length]. rewrite length_app, (proj1 Hh), (proj1 Hkem). assert (KEM_CIPHERTEXT_LEN F ≤ 256)%nat by (destruct F; cbn; lia). lia.
    + intros Hhe Hs. left. apply Hf2; [by apply Hso2, Hso1|]. apply Hok2; [done|by apply Hso1].
  - cbn [mbind option_bind]. pose proof (finish_output_spec out1 (Err err)) as Hf. destruct (finish_output out1 _) as [out2 r]. destruct Hf as (Hf & _ & _). rewrite Hp1, Hp0 in Hf.
    exists out2. split; [done|]. destruct (Hf eq_refl) as [(_ & ? & _)|[Hne Hpub]]; [done|]. split; [done|]. split; [done|]. intros _ Hs. by specialize (Hok1 Hs).
Qed.

(** [box-seal] to the public key of a valid scalar. *)
Lemma box_seal_run args files key_bytes input out : box_key_file files = Ok key_bytes → key_file key_bytes (box_public_kind F) (public_to_bytes F (CryptoBox.public_key (from_valid_scalar F e))) →
  public_from_bytes F (public_to_bytes F (CryptoBox.public_key (from_valid_scalar F e))) = Some q →
  check_against files = Ok tt → precheck files = Ok tt → opened files = Ok input → created files = Ok out → fresh out → reads_whole files input →
  bytes_ok (pending input) → length (pending input) < 2 ^ 57 →
  seals_to input out (run_box_seal_command random_text fuel calls0 args files).
Proof.
  intros Ek Hf Eq Ech Epre Eop Ecr Hfr Hwh Hb Hl. unfold run_box_seal_command. rewrite Ek.
  destruct (box_public_file (sign_key_path args) "box-seal" key_bytes (key_file_bytes _ _ _ Hf)) as (r & -> & Hr). cbn [mbind option_bind].
  assert (r = Ok (any_public F q)) as ->. { apply Hr. eexists F, _. split; [exact Hf|]. by rewrite Eq. }
  rewrite Ech, Epre, Eop, Ecr. destruct (1 <? sign_iterations args); [by apply seal_benchmark_run|by apply seal_records_run].
Qed.
End seal_commands.

(** [box-pubkey] writes the line of the public key. *)
Lemma box_pubkey_run `{SubtleLaws} F e args key_bytes env : Z.prime (p_of F) → key_file key_bytes (box_secret_kind F) e → is_valid_scalar F e = true →
  let public := public_to_bytes F (CryptoBox.public_key (from_valid_scalar F e)) in
  array_ok (key_len (box_public_kind F)) public ∧
  run_box_pubkey_command args (Ok key_bytes) env = Some (write_key_output env (pubkey_out_path args) (line_of (box_public_kind F) public ++ [0x0A])).
Proof.
  intros Hp Hf Hv public. pose proof (public_to_bytes_ok F _ (public_ok F e Hp)) as Hpk. fold public in Hpk. rewrite public_len, <- (proj2 (box_key_lengths F)) in Hpk. split; [done|].
  unfold run_box_pubkey_command. destruct (box_secret_file (pubkey_key_path args) "box-pubkey" key_bytes (key_file_bytes _ _ _ Hf)) as (r & -> & Hr). cbn [mbind option_bind].
  assert (r = Ok (any_secret F (from_valid_scalar F e))) as ->. { apply Hr. exists F, e. split; [exact Hf|]. unfold secret_from_bytes. by rewrite Hv. }
  assert (public_key_line (any_secret F (from_valid_scalar F e)) = Some (line_of (box_public_kind F) public ++ [0x0A])) as ->; [|done].
  rewrite <- encode_spec; [by destruct F|apply Hpk|rewrite (proj1 Hpk); apply key_len_small].
Qed.

(** ** Properties *)

(** C19. [box-open] is all or nothing, for every key file, every input (also one that fails while it is read), every output (also one that
    fails while it is written), and with or without [--iterations]: it does not panic; when it reports success, its key file is the line
    of a valid secret key, the input is a box for that key, and what is published is the message in it; when it reports an
    error nothing is published, and if something had gone to stdout the error says that the output there is incomplete. *)
Theorem box_open_all_or_nothing {GE} (random_text : RandomError GE → string) `{Cpu} `{SubtleLaws} `{ZeroizeLaws} (args : SignArgs) (files : BoxFiles) (key_bytes : list Z) (raw : Reader) :
  box_key_file files = Ok key_bytes → bytes_ok key_bytes → (∀ F e, key_file key_bytes (box_secret_kind F) e → Z.prime (p_of F)) →
  opened files = Ok raw → bytes_ok (pending raw) → length (pending raw) < 2 ^ 64 → (∀ out, created files = Ok out → fresh out) → reads_whole files raw →
  ∃ o r, run_box_open_command random_text args files = Some (o, r) ∧
    (r = Ok tt → ∃ F e out' pt, key_file key_bytes (box_secret_kind F) e ∧ 1 < from_be_bytes e < n_of F - 1 ∧ o = Some out' ∧ published out' = Some pt ∧ box_contains F e (pending raw) pt) ∧
    (r ≠ Ok tt → ∀ out', o = Some out' → published out' = None) ∧ (∀ out', o = Some out' → reports_incomplete out' r).
Proof.
  intros Ek Hkb Hp Eop Hb Hl Hfr Hwh.
  assert ((∃ err, run_box_open_command random_text args files = Some (None, Err err)) ∨
    ∃ F e, key_file key_bytes (box_secret_kind F) e ∧ is_valid_scalar F e = true ∧ check_against files = Ok tt ∧ (precheck files = Ok tt ∨ 1 < sign_iterations args)) as [[err E]|(F & e & Hf & Hv & Ech & Epre)].
  { unfold run_box_open_command. rewrite Ek. destruct (box_secret_file (sign_key_path args) "box-open" key_bytes Hkb) as (r & -> & Hr). cbn [mbind option_bind].
    destruct r as [k|err]; [|left; by eexists]. destruct (proj1 (Hr k) eq_refl) as (F & e & Hf & Hk). destruct (check_against files) as [[]|err]; [|left; by eexists].
    assert (is_valid_scalar F e = true) as Hv by (unfold secret_from_bytes in Hk; by destruct (is_valid_scalar F e)).
    destruct (Z.ltb_spec 1 (sign_iterations args)); [right; exists F, e; auto|]. destruct (precheck files) as [[]|err]; [right; exists F, e; auto|left; by eexists]. }
  - exists None, (Err err). split; [done|]. by split_and!.
  - pose proof (proj1 Hf) as He. rewrite (proj1 (box_key_lengths F)) in He.
    destruct (box_open_run random_text args files key_bytes raw F e Ek Hf Hv (Hp F e Hf) Ech Epre Eop Hb Hl Hfr Hwh) as ([o r] & E & S1 & S2 & S3 & _). exists o, r. split; [done|]. split; [|done].
    intros Hok. destruct (S1 Hok) as (out' & pt & Eo & Hpub & Hc). exists F, e, out', pt. split; [done|]. split; [|done]. by apply is_valid_scalar_spec.
Qed.

Definition plain_files (key_bytes : list Z) (data : list Z) : BoxFiles := {|
  box_key_file := Ok key_bytes; check_against := Ok tt; precheck := Ok tt; created := Ok plain_output; opened := Ok (slow_reader data); read_all := Ok data
|}.

Definition plain_args : SignArgs := {| sign_key_path := [0x61]; sign_in_path := Stdin; sign_out_path := Stdout; sign_iterations := 1; sign_force := false |}.

Lemma box_open_all_or_nothing_witness : let _ := plain_subtle in let _ := {| feature_available := false |} in let _ := plain_zeroize in
  let text := λ _ : RandomError unit, "random"%string in let key_bytes := line_of Box256Secret (replicate 31 0 ++ [5]) ++ [0x0A] in
  ∃ o r, run_box_open_command text plain_args (plain_files key_bytes [3; 0; 0]) = Some (o, r) ∧ (r ≠ Ok tt → ∀ out', o = Some out' → published out' = None).
Proof.
  intros S U Z text key_bytes. assert (array_ok (key_len Box256Secret) (replicate 31 0 ++ [5])) as Hk by by_decision. pose proof (key_file_line Box256Secret _ Hk) as Hf.
  destruct (@box_open_all_or_nothing unit text U plain_subtle plain_subtle_laws plain_zeroize plain_zeroize_laws plain_args (plain_files key_bytes [3; 0; 0]) key_bytes (slow_reader [3; 0; 0]))
    as (o & r & E & _ & Hno & _).
  - reflexivity.
  - exact (key_file_bytes _ _ _ Hf).
  - intros F e Hf'. destruct (key_file_unique _ _ _ _ _ Hf Hf') as [EF _]. destruct F; [exact prime_256|discriminate EF|discriminate EF].
  - reflexivity.
  - by_decision.
  - by_decision.
  - intros out [= <-]. split; reflexivity.
  - reflexivity.
  - exists o, r. exact (conj E Hno).
Defined.

(** C18. The commands fit together: what [box-seal] publishes, to the line that [box-pubkey] writes for a secret key, is opened by [box-open]
    with the file of that key to exactly the data that was sealed, over any schedule of reads that does not fail, and with or
    without [--iterations] on either side.  [box-seal] publishes nothing when it reports an error; it succeeds when its input, its output and
    the random source do; and it is still running only when every candidate for an ephemeral scalar was out of range. *)
Theorem box_commands_roundtrip {GE} (random_text : RandomError GE → string) `{Cpu} `{SubtleLaws} `{ZeroizeLaws} (F : fp) (e : list Z) (fuel : nat) (calls : generator_calls GE)
    (pargs : PubkeyArgs) (env : KeyOutput) (args : SignArgs) (files : BoxFiles) (secret_bytes public_bytes : list Z) (input : Reader) (out : Output) :
  Z.prime (p_of F) → Z.prime (n_of F) → key_file secret_bytes (box_secret_kind F) e → 1 < from_be_bytes e < n_of F - 1 → (∀ i, fill_ok (calls i)) →
  run_box_pubkey_command pargs (Ok secret_bytes) env = Some (Some public_bytes, Ok tt) →
  box_key_file files = Ok public_bytes → check_against files = Ok tt → precheck files = Ok tt → opened files = Ok input → created files = Ok out → fresh out → reads_whole files input →
  bytes_ok (pending input) → length (pending input) < 2 ^ 57 →
  match run_box_seal_command random_text fuel calls args files with
  | None => source_rejected F fuel calls
  | Some (o, r) => ∃ out', o = Some out' ∧ (r ≠ Ok tt → published out' = None) ∧ (healthy input → sound out → r = Ok tt ∨ source_failed calls) ∧
      (r = Ok tt → ∃ sealed, published out' = Some sealed ∧
        ∀ args' files' raw out2, box_key_file files' = Ok secret_bytes → check_against files' = Ok tt → precheck files' = Ok tt → opened files' = Ok raw → pending raw = sealed →
          healthy raw → reads_whole files' raw → created files' = Ok out2 → fresh out2 → sound out2 →
          ∃ out3, run_box_open_command random_text args' files' = Some (Some out3, Ok tt) ∧ published out3 = Some (pending input))
  end.
Proof.
  intros Hp Hn Hf Hr Hc Epk Ek Ech Epre Eop Ecr Hfr Hwh Hb Hl. pose proof (proj1 Hf) as He. rewrite (proj1 (box_key_lengths F)) in He. apply (is_valid_scalar_spec F e He) in Hr as Hv.
  destruct (box_pubkey_run F e pargs secret_bytes env Hp Hf Hv) as [Hpk Erun]. rewrite Erun in Epk. set (public := public_to_bytes F (CryptoBox.public_key (from_valid_scalar F e))) in *.
  assert (public_bytes = line_of (box_public_kind F) public ++ [0x0A]) as Eline.
  { pose proof (write_key_output_spec env (pubkey_out_path pargs) (line_of (box_public_kind F) public ++ [0x0A])) as Hw. injection Epk as Epk. rewrite Epk in Hw. destruct Hw as (_ & Hw & _). specialize (Hw eq_refl). congruence. }
  destruct (public_key_received F e Hp Hn He Hv) as (q & Eq & _). pose proof (received_recipient F e He Hp Hv Hn q Eq) as Hq.
  pose proof (key_file_line _ _ Hpk) as Hpf. rewrite <- Eline in Hpf.
  pose proof (box_seal_run random_text F Hp Hn e He Hv fuel calls Hc q Hq args files public_bytes input out Ek Hpf Eq Ech Epre Eop Ecr Hfr Hwh Hb Hl) as Hs.
  destruct (run_box_seal_command random_text fuel calls args files) as [[o r]|]; [|exact Hs]. destruct Hs as (out' & Eo & S1 & S2 & S3). exists out'. split; [exact Eo|]. split; [exact S2|]. split; [exact S3|].
  intros Hok. destruct (S1 Hok) as (sealed & Hpub & Hbox & Hsb & Hsl). exists sealed. split; [exact Hpub|].
  intros args' files' raw out2 Ek' Ech' Epre' Eop' Eraw Hhe Hwh' Ecr' Hfr' Hso'.
  destruct (box_open_run random_text args' files' secret_bytes raw F e Ek' Hf Hv Hp Ech' (or_introl Epre') Eop') as ([o2 r2] & E & _ & _ & _ & Hcomp);
    [by rewrite Eraw|by rewrite Eraw|intros out0 E0; rewrite Ecr' in E0; by injection E0 as <-|exact Hwh'|].
  rewrite Eraw in Hcomp. destruct (Hcomp (pending input) out2 Hbox Hhe Ecr' Hso') as [-> (out3 & -> & Hp3)]. exists out3. split; [exact E|exact Hp3].
Qed.

Lemma box_commands_roundtrip_witness : let _ := plain_subtle in let _ := {| feature_available := false |} in let _ := plain_zeroize in
  let text := λ _ : RandomError unit, "random"%string in let calls : generator_calls unit := λ _, constant_fill 1 in
  let e := replicate 31 0 ++ [5] in let secret_bytes := line_of Box256Secret e ++ [0x0A] in
  let public_bytes := line_of Box256Public (public_to_bytes Fp256 (CryptoBox.public_key (from_valid_scalar Fp256 e))) ++ [0x0A] in
  match run_box_seal_command text 1 calls plain_args (plain_files public_bytes [1; 2; 3]) with
  | None => source_rejected Fp256 1 calls
  | Some (o, r) => ∃ out', o = Some out' ∧ (r ≠ Ok tt → published out' = None)
  end.
Proof.
  intros S U Z text calls e secret_bytes public_bytes. assert (array_ok (key_len Box256Secret) e) as Hk by by_decision. pose proof (key_file_line Box256Secret _ Hk) as Hf. fold secret_bytes in Hf.
  assert (array_ok (bytes_of Fp256) e) as He by by_decision. assert (1 < from_be_bytes e < n_of Fp256 - 1) as Hr by (split; by vm_compute).
  pose proof (proj2 (is_valid_scalar_spec Fp256 e He) Hr) as Hv. set (pargs := {| pubkey_key_path := [0x61]; pubkey_out_path := Stdout |}).
  destruct (@box_pubkey_run plain_subtle plain_subtle_laws Fp256 e pargs secret_bytes plain_key_output prime_256 Hf Hv) as [_ Epk].
  pose proof (@box_commands_roundtrip unit text U plain_subtle plain_subtle_laws plain_zeroize plain_zeroize_laws Fp256 e 1 calls pargs plain_key_output plain_args
    (plain_files public_bytes [1; 2; 3]) secret_bytes public_bytes (slow_reader [1; 2; 3]) plain_output prime_256 n_of_256 Hf Hr) as H.
  assert (byte_ok 1) as H1 by by_decision.
  specialize (H (λ _, constant_fill_ok 1 H1) Epk eq_refl eq_refl eq_refl eq_refl eq_refl (conj eq_refl eq_refl) eq_refl ltac:(by_decision) ltac:(by_decision)).
  destruct (run_box_seal_command text 1 calls plain_args (plain_files public_bytes [1; 2; 3])) as [[o r]|]; [|exact H]. destruct H as (out' & Eo & Hno & _). exists out'. exact (conj Eo Hno).
Defined.
