(* ===== verification/HazmatCommand.v ===== *)
(** The commands of [uacrypt hazmat] ([uacrypt/src/lib.rs]): one block, the modes CCM, GCM, GMAC, KW and XTS, the digest and the stream
    cipher, from files to files.  A command is given what its calls of the file system answer: the contents of each file it reads, the
    check of the output paths and the reservation of each output.  The timing that [--iterations] asks for is left out, the runs are not.

    [None] stands for a panic; the theorems show that there is none. *)

From stdpp Require Import strings.
From S2P Require Import Prelude External BlockCipher Stream Kalyna Ctr Ghash Gmac Gcm Ccm Kw Xts Kupyna Strumok Randombytes.
From S2P Require Import Keyfile CliError CliStream CliArgs HashCommand KeyCommands.
#[local] Open Scope Z_scope.
#[local] Open Scope uacrypt_scope.
#[local] Set Warnings "-clear-no-such-hyp".

(** ** Shared by the commands *)

Definition cipher_of (v : KalynaVariant) : Kalyna.variant :=
  match v with
  | K128_128 => Kalyna128_128
  | K128_256 => Kalyna128_256
  | K256_256 => Kalyna256_256
  | K256_512 => Kalyna256_512
  | K512_512 => Kalyna512_512
  end.

(** [std::fs::read] with its error. *)
Definition read_file (p : path) (file : result (list Z) string) : result (list Z) CliError :=
  match file with
  | Ok contents => Ok contents
  | Err message => Err (Io p message)
  end.

(** [OutputFile::write_all_and_commit]. *)
Definition write_all_and_commit (out : Output) (bytes : list Z) : Output * result unit CliError :=
  let '(out, r) := write_all out bytes in
  match r with
  | Err e => (out, Err e)
  | Ok _ => publish out
  end.

(** [args.iterations.max(1)]. *)
Definition iteration_count (iterations : Z) : nat := Z.to_nat (Z.max iterations 1).

(** [for _ in 0..iterations], with an early return on an error. *)
Fixpoint runs {S} (n : nat) (f : S → result S CliError) (s : S) : result S CliError :=
  match n with
  | O => Ok s
  | S n => result_bind (f s) (runs n f)
  end.

(** What the calls of the file system answer. *)
Record HazmatFiles : Type := {
  key_contents : result (list Z) string;
  second_contents : result (list Z) string;  (* the tweak, the initialisation vector, the nonce of a decryption *)
  aad_contents : result (list Z) string;
  tag_contents : result (list Z) string;
  in_contents : result (list Z) string;
  in_opened : result Reader CliError;
  outputs_checked : result unit CliError;
  out_created : result Output CliError;
  nonce_created : result Output CliError;
  tag_created : result Output CliError
}.

(** An error ends a command; the outputs that are open are dropped. *)
Definition or_fail {A B} (outs : B) (r : result A CliError) (k : A → option (B * result unit CliError)) : option (B * result unit CliError) :=
  match r with
  | Err e => Some (outs, Err e)
  | Ok a => k a
  end.
#[local] Notation "x ←[ outs ] r ; k" := (or_fail outs r (λ x, k)) (at level 20, outs at level 200, r at level 100, k at level 200, right associativity).

(** ** [kalyna-block] *)

Definition run_block_op (cli_variant : KalynaVariant) (key block : list Z) (decrypt : bool) (iterations : nat) (raw_schedule : bool) : option (list Z) :=
  let v := cipher_of cli_variant in
  key_arr ← key_array (key_bytes_of v) key;
  block_arr ← key_array (block_bytes_of v) block;
  let out := replicate (block_bytes_of v) 0 in
  if raw_schedule then
    Nat.iter iterations (λ out, _ ← out; if decrypt then kalyna_decrypt v key_arr block_arr else kalyna_encrypt v key_arr block_arr) (Some out)
  else
    expanded ← expanded_key_new v key_arr;
    Some (Nat.iter iterations (λ _, if decrypt then expanded_decrypt_block expanded block_arr else expanded_encrypt_block expanded block_arr) out).

Definition run_block_command (decrypt : bool) (args : BlockArgs) (files : HazmatFiles) : option outcome :=
  key ←[None] read_exact_file (block_key_path args) (key_contents files) LengthOf.Key (KalynaVariant.key_len (block_variant args));
  _ ←[None] outputs_checked files;
  out ←[None] out_created files;
  input ←[Some out] read_exact_file (block_in_path args) (in_contents files) LengthOf.InputBlock (KalynaVariant.block_len (block_variant args));
  output ← run_block_op (block_variant args) key input decrypt (iteration_count (block_iterations args)) (block_raw_schedule args);
  let '(out, r) := write_all_and_commit out output in
  Some (Some out, r).

(** ** [kalyna-kw] *)

Definition from_kw_error (e : KwError) : CliError :=
  match e with
  | Kw.InvalidLength => KwInvalidLength
  | Kw.ChecksumMismatch => KwChecksumMismatch
  end.

Definition run_kw_variant `{Subtle} (v : Kalyna.variant) (unwrap : bool) (iterations : nat) (key input : list Z) : option (result (list Z) CliError) :=
  key_arr ← key_array (key_bytes_of v) key;
  cipher ← expanded_key_new v key_arr;
  let bb := block_bytes_of v in
  let once (out : list Z) : result (list Z) CliError :=
    if unwrap then
      let '(out, r) := unwrap_with_cipher cipher input out in
      match r with Ok _ => Ok out | Err e => Err (from_kw_error e) end
    else
      let '(out, r) := wrap_with_cipher cipher input out in
      match r with Ok _ => Ok out | Err _ => Err KwInvalidLength end in
  Some (
    if unwrap then
      if Nat.ltb (length input) bb then Err KwInvalidLength
      else runs iterations once (replicate (length input - bb) 0)
    else runs iterations once (replicate (length input + bb) 0)).

Definition run_kw_command `{Subtle} (unwrap : bool) (args : KwArgs) (files : HazmatFiles) : option outcome :=
  key ←[None] read_exact_file (kw_key_path args) (key_contents files) LengthOf.Key (KalynaVariant.key_len (kw_variant args));
  _ ←[None] outputs_checked files;
  out ←[None] out_created files;
  input ←[Some out] read_file (kw_in_path args) (in_contents files);
  r ← run_kw_variant (cipher_of (kw_variant args)) unwrap (iteration_count (kw_iterations args)) key input;
  output ←[Some out] r;
  let '(out, r) := write_all_and_commit out output in
  Some (Some out, r).

(** ** [kalyna-xts] *)

Definition run_xts_variant (v : Kalyna.variant) (decrypt : bool) (iterations : nat) (key tweak input : list Z) : option (result (list Z) CliError) :=
  key_arr ← key_array (key_bytes_of v) key;
  tweak_arr ← key_array (block_bytes_of v) tweak;
  cipher ← Xts.new (K := ExpandedKey v) key_arr;
  let once (_ : list Z) : result (list Z) CliError :=
    let '(buf, r) := if decrypt then decrypt_in_place cipher tweak_arr input else encrypt_in_place cipher tweak_arr input in
    match r with Ok _ => Ok buf | Err _ => Err XtsInvalidLength end in
  Some (runs iterations once input).

Definition run_xts_command (decrypt : bool) (args : XtsArgs) (files : HazmatFiles) : option outcome :=
  key ←[None] read_exact_file (xts_key_path args) (key_contents files) LengthOf.Key (KalynaVariant.key_len (xts_variant args));
  tweak ←[None] read_exact_file (xts_tweak_path args) (second_contents files) LengthOf.Tweak (KalynaVariant.block_len (xts_variant args));
  _ ←[None] outputs_checked files;
  out ←[None] out_created files;
  input ←[Some out] read_file (xts_in_path args) (in_contents files);
  r ← run_xts_variant (cipher_of (xts_variant args)) decrypt (iteration_count (xts_iterations args)) key tweak input;
  output ←[Some out] r;
  let '(out, r) := write_all_and_commit out output in
  Some (Some out, r).

(** ** [kalyna-gmac] *)

Definition run_gmac_variant `{Cpu} `{Subtle} (v : Kalyna.variant) (tag_in : option (list Z)) (iterations : nat) (key message : list Z) : option (result (list Z) CliError) :=
  key_arr ← key_array (key_bytes_of v) key;
  cipher ← expanded_key_new v key_arr;
  let once (tag : list Z) : result (list Z) CliError :=
    match tag_in with
    | Some tag_in => match verify_with_cipher cipher message tag_in with Ok _ => Ok tag | Err e => Err (from_gmac_error e) end
    | None => match mac_with_cipher cipher message with Ok tag => Ok tag | Err e => Err (from_gmac_error e) end
    end in
  Some (runs iterations once (replicate (block_bytes_of v) 0)).

(** The reservation of the output of [compute]. *)
Definition gmac_output (args : GmacArgs) (files : HazmatFiles) : result Output CliError :=
  match gmac_out_path args with
  | None => Err (MissingFlag "out")
  | Some _ => result_bind (outputs_checked files) (λ _, out_created files)
  end.

Definition run_gmac_command `{Cpu} `{Subtle} (verify : bool) (args : GmacArgs) (files : HazmatFiles) : option outcome :=
  key ←[None] read_exact_file (gmac_key_path args) (key_contents files) LengthOf.Key (KalynaVariant.key_len (gmac_variant args));
  tag_out ←[None] (if verify then Ok None else result_bind (gmac_output args files) (λ out, Ok (Some out)));
  message ←[tag_out] read_file (gmac_in_path args) (in_contents files);
  tag_in ←[tag_out]
    (if verify then
       match gmac_tag_path args with
       | None => Err (MissingFlag "tag")
       | Some p => result_bind (read_file p (tag_contents files)) (λ tag, Ok (Some tag))
       end
     else Ok None);
  r ← run_gmac_variant (cipher_of (gmac_variant args)) tag_in (iteration_count (gmac_iterations args)) key message;
  tag ←[tag_out] r;
  match tag_out with
  | Some out => let '(out, r) := write_all_and_commit out tag in Some (Some out, r)
  | None => Some (None, Ok tt)
  end.

(** ** [kalyna-ccm] and [kalyna-gcm] *)

(** The outputs [--out], [--tag] and [--nonce]. *)
Record AeadOutputs : Type := { ciphertext_out : option Output; tag_out : option Output; nonce_out : option Output }.
Definition no_outputs : AeadOutputs := {| ciphertext_out := None; tag_out := None; nonce_out := None |}.

(** All up front, so a failure drops every one. *)
Definition reserve_aead_outputs (decrypt : bool) (files : HazmatFiles) : result (Output * option Output * option Output) CliError :=
  result_bind (outputs_checked files) (λ _,
  result_bind (out_created files) (λ out,
  if decrypt then Ok (out, None, None)
  else
    result_bind (nonce_created files) (λ nonce,
    result_bind (tag_created files) (λ tag, Ok (out, Some nonce, Some tag))))).

Section aead.
Context {GE : Type} (random_text : RandomError GE → string).

Definition aead_nonce (decrypt : bool) (args : AeadArgs) (files : HazmatFiles) (fill : fill_call GE) : result (list Z) CliError :=
  if decrypt then read_exact_file (aead_nonce_path args) (second_contents files) LengthOf.Nonce (KalynaVariant.block_len (aead_variant args))
  else
    let '(generated, r) := randombytes_buf fill (replicate (KalynaVariant.block_len (aead_variant args)) 0) in
    match r with
    | Ok _ => Ok generated
    | Err e => Err (CliError.Random (random_text e))
    end.

Definition aead_aad (args : AeadArgs) (files : HazmatFiles) : result (list Z) CliError :=
  match aead_aad_path args with
  | Some p => read_file p (aad_contents files)
  | None => Ok []
  end.

Definition run_ccm_variant `{Subtle} `{Zeroize} (v : Kalyna.variant) (tag_len : nat) (decrypt : bool) (iterations : nat) (args : AeadArgs) (files : HazmatFiles) (key nonce aad input : list Z) :
    option (result (list Z * option (list Z)) CliError) :=
  key_arr ← key_array (key_bytes_of v) key;
  nonce_arr ← key_array (block_bytes_of v) nonce;
  cipher ← Ccm.new (K := ExpandedKey v) key_arr;
  if decrypt then
    match read_exact_file (aead_tag_path args) (tag_contents files) LengthOf.Tag tag_len with
    | Err e => Some (Err e)
    | Ok tag_in =>
        tag_arr ← key_array tag_len tag_in;
        Some (runs iterations (λ s,
          let '(buf, r) := open_in_place cipher nonce_arr aad input tag_arr in
          match r with Ok _ => Ok (buf, None) | Err e => Err (from_ccm_error e) end) (input, None))
    end
  else
    Some (runs iterations (λ s,
      let '(buf, r) := seal_in_place cipher nonce_arr aad input in
      match r with Ok tag => Ok (buf, Some tag) | Err e => Err (from_ccm_error e) end) (input, None)).

Definition run_gcm_variant `{Cpu} `{Subtle} (v : Kalyna.variant) (decrypt : bool) (iterations : nat) (args : AeadArgs) (files : HazmatFiles) (key nonce aad input : list Z) :
    option (result (list Z * option (list Z)) CliError) :=
  key_arr ← key_array (key_bytes_of v) key;
  nonce_arr ← key_array (block_bytes_of v) nonce;
  cipher ← Gcm.new (K := ExpandedKey v) key_arr;
  let buf := replicate (length input) 0 in
  let tag_out := replicate (block_bytes_of v) 0 in
  if decrypt then
    match read_exact_file (aead_tag_path args) (tag_contents files) LengthOf.Tag (block_bytes_of v) with
    | Err e => Some (Err e)
    | Ok tag_in =>
        let r := runs iterations (λ '(buf, tag_out),
          let '(buf, r) := Gcm.decrypt cipher nonce_arr aad input tag_in buf in
          match r with Ok _ => Ok (buf, tag_out) | Err e => Err (from_gcm_error e) end) (buf, tag_out) in
        Some (result_bind r (λ '(buf, _), Ok (buf, None)))
    end
  else
    let r := runs iterations (λ '(buf, tag_out),
      let '(buf, r) := Gcm.encrypt cipher nonce_arr aad input buf in
      match r with Ok tag => Ok (buf, tag) | Err e => Err (from_gcm_error e) end) (buf, tag_out) in
    Some (result_bind r (λ '(buf, tag_out), Ok (buf, Some tag_out))).

(** The ends of both commands: the text first, then the tag, then the nonce. *)
Definition write_aead_outputs (out : Output) (output : list Z) (tag : option (list Z)) (tag_out : option Output) (nonce : list Z) (nonce_out : option Output) :
    AeadOutputs * result unit CliError :=
  let '(out, r) := write_all_and_commit out output in
  match r with
  | Err e => ({| ciphertext_out := Some out; tag_out := tag_out; nonce_out := nonce_out |}, Err e)
  | Ok _ =>
      let '(tag_out, r) := match tag, tag_out with
        | Some tag, Some o => let '(o, r) := write_all_and_commit o tag in (Some o, r)
        | _, _ => (tag_out, Ok tt)
        end in
      match r with
      | Err e => ({| ciphertext_out := Some out; tag_out := tag_out; nonce_out := nonce_out |}, Err e)
      | Ok _ =>
          let '(nonce_out, r) := match nonce_out with
            | Some o => let '(o, r) := write_all_and_commit o nonce in (Some o, r)
            | None => (None, Ok tt)
            end in
          ({| ciphertext_out := Some out; tag_out := tag_out; nonce_out := nonce_out |}, r)
      end
  end.

(** The two commands are the same text around their variants. *)
Definition run_aead_command (run_variant : bool → nat → AeadArgs → HazmatFiles → list Z → list Z → list Z → list Z → option (result (list Z * option (list Z)) CliError))
    (decrypt : bool) (args : AeadArgs) (files : HazmatFiles) (fill : fill_call GE) : option (AeadOutputs * result unit CliError) :=
  key ←[no_outputs] read_exact_file (aead_key_path args) (key_contents files) LengthOf.Key (KalynaVariant.key_len (aead_variant args));
  reservation ←[no_outputs] reserve_aead_outputs decrypt files;
  let '(out, nonce_out, tag_out) := reservation in
  let reserved := {| ciphertext_out := Some out; tag_out := tag_out; nonce_out := nonce_out |} in
  nonce ←[reserved] aead_nonce decrypt args files fill;
  aad ←[reserved] aead_aad args files;
  input ←[reserved] read_file (aead_in_path args) (in_contents files);
  r ← run_variant decrypt (iteration_count (aead_iterations args)) args files key nonce aad input;
  result ←[reserved] r;
  let '(output, tag) := result in
  Some (write_aead_outputs out output tag tag_out nonce nonce_out).

Definition run_ccm_command `{Subtle} `{Zeroize} (decrypt : bool) (args : AeadArgs) (files : HazmatFiles) (fill : fill_call GE) : option (AeadOutputs * result unit CliError) :=
  run_aead_command (run_ccm_variant (cipher_of (aead_variant args)) (KalynaVariant.ccm_tag_len (aead_variant args))) decrypt args files fill.

Definition run_gcm_command `{Cpu} `{Subtle} (decrypt : bool) (args : AeadArgs) (files : HazmatFiles) (fill : fill_call GE) : option (AeadOutputs * result unit CliError) :=
  run_aead_command (run_gcm_variant (cipher_of (aead_variant args))) decrypt args files fill.
End aead.

(** ** [kupyna-digest] *)

Definition hash_of (v : HashBits) : kupyna := match v with B256 => Kupyna256 | B512 => Kupyna512 end.

Definition DIGEST_STREAM_CHUNK_BYTES : nat := 8 * 1024.
Definition DIGEST_BENCH_CHUNK_BYTES : nat := Z.to_nat (1024 * 1024).

(** Every error of a read ends the command, an interruption too. *)
Fixpoint digest_loop (v : kupyna) (fuel : nat) (file : Reader) (hasher : KupynaCore) (in_path : path) : option (result (list Z) CliError) :=
  match fuel with
  | O => None
  | S fuel =>
      let '(file, r) := read file DIGEST_STREAM_CHUNK_BYTES in
      match r with
      | Err e => Some (Err (Io in_path (text e)))
      | Ok [] => digest ← hasher_finalize v hasher; Some (Ok digest)
      | Ok chunk => hasher ← hasher_update hasher chunk; digest_loop v fuel file hasher in_path
      end
  end.

Definition stream_from_disk (v : kupyna) (opened : result Reader CliError) (in_path : path) : option (result (list Z) CliError) :=
  match opened with
  | Err e => Some (Err e)
  | Ok file => digest_loop v (S (length (pending file))) file (hasher_new v) in_path
  end.

(** [slice::chunks]. *)
Definition chunks {A} (n : nat) (l : list A) : list (list A) := chunks_exact n l ++ match remainder n l with [] => [] | r => [r] end.

Definition bench_in_memory (v : kupyna) (iterations : nat) (message : list Z) : option (list Z) :=
  out ← Nat.iter iterations (λ out, _ ← out; hasher ← updates (hasher_new v) (chunks DIGEST_BENCH_CHUNK_BYTES message); digest ← hasher_finalize v hasher; Some (Some digest)) (Some None);
  out.

Definition run_digest_command (args : DigestArgs) (files : HazmatFiles) : option outcome :=
  out ←[None] out_created files;
  let iterations := iteration_count (digest_iterations args) in
  let v := hash_of (digest_variant args) in
  r ← (if Nat.leb iterations 1 then stream_from_disk v (in_opened files) (digest_in_path args)
       else match read_file (digest_in_path args) (in_contents files) with
         | Err e => Some (Err e)
         | Ok message => digest ← bench_in_memory v iterations message; Some (Ok digest)
         end);
  digest ←[Some out] r;
  let '(out, r) := write_all_and_commit out digest in
  Some (Some out, r).

(** ** [strumok-crypt] *)

Definition strumok_of (v : HashBits) : strumok := match v with B256 => Strumok256 | B512 => Strumok512 end.

Definition STRUMOK_STREAM_CHUNK_BYTES : nat := 8 * 1024.

Fixpoint strumok_loop (fuel : nat) (in_file : Reader) (cipher : Core) (in_path : path) (out : Output) : option (Output * result unit CliError) :=
  match fuel with
  | O => None
  | S fuel =>
      let '(in_file, r) := read in_file STRUMOK_STREAM_CHUNK_BYTES in
      match r with
      | Err e => Some (out, Err (Io in_path (text e)))
      | Ok [] => Some (out, Ok tt)
      | Ok chunk =>
          let '(cipher, chunk) := Strumok.apply_keystream cipher chunk in
          let '(out, r) := write_all out chunk in
          match r with
          | Err e => Some (out, Err e)
          | Ok _ => strumok_loop fuel in_file cipher in_path out
          end
      end
  end.

Definition run_strumok_stream (v : strumok) (args : StrumokArgs) (key iv : list Z) (opened : result Reader CliError) (out : Output) : option outcome :=
  key_arr ← key_array (strumok_key_bytes v) key;
  iv_arr ← key_array 32 iv;
  in_file ←[Some out] opened;
  '(out, r) ← strumok_loop (S (length (pending in_file))) in_file (strumok_new v key_arr iv_arr) (strumok_in_path args) out;
  _ ←[Some out] r;
  let '(out, r) := publish out in
  Some (Some out, r).

Definition run_strumok_variant (v : strumok) (raw_schedule : bool) (iterations : nat) (key iv input : list Z) : option (list Z) :=
  key_arr ← key_array (strumok_key_bytes v) key;
  iv_arr ← key_array 32 iv;
  Some (
    if raw_schedule then Nat.iter iterations (λ _, (Strumok.apply_keystream (strumok_new v key_arr iv_arr) input).2) input
    else (Nat.iter iterations (λ '(cipher, buf), Strumok.apply_keystream cipher buf) (strumok_new v key_arr iv_arr, input)).2).

Definition run_strumok_command (args : StrumokArgs) (files : HazmatFiles) : option outcome :=
  let v := strumok_of (strumok_variant args) in
  key ←[None] read_exact_file (strumok_key_path args) (key_contents files) LengthOf.Key (strumok_key_bytes v);
  iv ←[None] read_exact_file (strumok_iv_path args) (second_contents files) LengthOf.Iv 32;
  _ ←[None] outputs_checked files;
  out ←[None] out_created files;
  let iterations := iteration_count (strumok_iterations args) in
  if Nat.leb iterations 1 then run_strumok_stream v args key iv (in_opened files) out
  else
    input ←[Some out] read_file (strumok_in_path args) (in_contents files);
    output ← run_strumok_variant v (strumok_raw_schedule args) iterations key iv input;
    let '(out, r) := write_all_and_commit out output in
    Some (Some out, r).

(** ** Lemmas shared by the commands *)

Lemma cipher_key_len v : KalynaVariant.key_len v = key_bytes_of (cipher_of v).
Proof. by destruct v. Qed.
Lemma cipher_block_len v : KalynaVariant.block_len v = block_bytes_of (cipher_of v).
Proof. by destruct v. Qed.
Lemma cipher_tag_len v : KalynaVariant.ccm_tag_len v = ccm_q (ExpandedKey (cipher_of v)).
Proof. by destruct v. Qed.

Lemma iteration_count_pos n : (0 < iteration_count n)%nat.
Proof. unfold iteration_count. lia. Qed.

(** Runs that all give the same are one run. *)
Lemma runs_same {S} (I : S → Prop) (f : S → result S CliError) r : (∀ s, I s → f s = r) → (∀ s, r = Ok s → I s) → ∀ n s, (0 < n)%nat → I s → runs n f s = r.
Proof.
  intros Hf Hr. assert (∀ n s, I s → r = Ok s → runs n f s = r) as Hok.
  { induction n as [|n IH]; intros s Hs Er; cbn [runs]; [done|]. rewrite Hf by done. rewrite Er at 1. cbn [result_bind]. by apply IH. }
  intros [|n] s Hn Hs; [lia|]. cbn [runs]. rewrite Hf by done. destruct r as [s'|e]; cbn [result_bind]; [|done]. apply Hok; [by apply Hr|done].
Qed.

(** The same for a run that may panic. *)
Lemma iter_same {A} (f : A → option A) (x : option A) : ∀ n a, (∀ b, f b = x) → (0 < n)%nat → x ≠ None → Nat.iter n (λ out, b ← out; f b) (Some a) = x.
Proof.
  intros n a Hf Hn Hx. assert (∀ n, Nat.iter n (λ out, b ← out; f b) x = x) as Hst.
  { induction n0 as [|n0 IH]; [done|]. cbn. unfold Nat.iter in IH. rewrite IH. destruct x as [b|]; [apply Hf|done]. }
  destruct n as [|n]; [lia|]. rewrite Nat.iter_succ_r. cbn. rewrite Hf. apply Hst.
Qed.

Lemma iter_const {A} (x : A) : ∀ n a, (0 < n)%nat → Nat.iter n (λ _, x) a = x.
Proof. intros [|n] a Hn; [lia|done]. Qed.

Lemma publish_spec out : let '(out', r) := publish out in
  (published out = None → (r = Ok tt ∧ published out' = Some (written out)) ∨ (r ≠ Ok tt ∧ published out' = None)) ∧ (sound out → r = Ok tt).
Proof.
  pose proof (finish_output_spec out (Ok tt)) as H. unfold finish_output in H. destruct (publish out) as [out' r]. unfold sound in *.
  destruct (target out').
  - destruct H as (H1 & H2 & _). split; [intros Hp; destruct (H1 Hp) as [(? & _ & ?)|?]; tauto|auto].
  - destruct r as [[]|e]; [destruct H as (H1 & H2 & _); split; [intros Hp; destruct (H1 Hp) as [(? & _ & ?)|?]; tauto|auto]|].
    destruct (any out'); destruct H as (H1 & H2 & _); (split; [intros Hp; destruct (H1 Hp) as [(? & _ & ?)|[? ?]]; [done|by right]|intros Hs; by specialize (H2 Hs eq_refl)]).
Qed.

(** Writing the whole result either publishes it or, after a failure, nothing. *)
Definition publishes (bytes : list Z) (out out' : Output) (r : result unit CliError) : Prop :=
  (r = Ok tt ∧ published out' = Some bytes ∨ r ≠ Ok tt ∧ published out' = None) ∧ (sound out → r = Ok tt).

Lemma write_all_and_commit_spec out bytes : fresh out → let '(out', r) := write_all_and_commit out bytes in publishes bytes out out' r.
Proof.
  intros [Hw Hp]. unfold write_all_and_commit, publishes. pose proof (write_all_spec out bytes) as H. destruct (write_all out bytes) as [out1 r1].
  destruct H as ((_ & Hp1 & Hs1 & _) & Hr1 & Hw1). rewrite Hp in Hp1. destruct r1 as [[]|e].
  - pose proof (publish_spec out1) as H. destruct (publish out1) as [out2 r2]. destruct H as [H1 H2]. specialize (Hw1 eq_refl). rewrite Hw in Hw1. cbn [app] in Hw1. rewrite Hw1 in H1. split; [auto|]. intros Hs. by apply H2, Hs1.
  - split; [by right|]. intros Hs. by specialize (Hr1 Hs).
Qed.

(** How a command with one output ends, when its computation gives [computed]. *)
Definition ends_with (out : Output) (computed : result (list Z) CliError) (res : option outcome) : Prop :=
  ∃ out' r, res = Some (Some out', r) ∧
    match computed with
    | Ok bytes => publishes bytes out out' r
    | Err e => r = Err e ∧ published out' = None
    end.

Lemma ends_ok out bytes : fresh out → ends_with out (Ok bytes) (let '(out, r) := write_all_and_commit out bytes in Some (Some out, r)).
Proof. intros Hf. pose proof (write_all_and_commit_spec out bytes Hf) as H. destruct (write_all_and_commit out bytes) as [out' r]. by exists out', r. Qed.

Lemma ends_err out e : fresh out → ends_with out (Err e) (Some (Some out, Err e)).
Proof. intros [_ Hp]. by exists out, (Err e). Qed.

Lemma ends_write out r : fresh out → ends_with out r (or_fail (Some out) r (λ bytes, let '(out, r) := write_all_and_commit out bytes in Some (Some out, r))).
Proof. intros Hf. destruct r as [bytes|e]; [by apply ends_ok|by apply ends_err]. Qed.

(** What a finished command published. *)
Lemma ends_published out computed res bytes : ends_with out computed res → (∃ out', res = Some (Some out', Ok tt) ∧ published out' = Some bytes) → computed = Ok bytes.
Proof.
  intros (o & r & -> & H) (out' & [= <- ->] & Hp). destruct computed as [b|e]; [|by destruct H]. destruct H as [[[_ Hb]|[? _]] _]; [|done]. by rewrite Hb in Hp; injection Hp as ->.
Qed.

Lemma ends_succeeds out bytes res : ends_with out (Ok bytes) res → sound out → ∃ out', res = Some (Some out', Ok tt) ∧ published out' = Some bytes.
Proof. intros (o & r & -> & H & Hs) Hso. specialize (Hs Hso) as ->. destruct H as [[_ Hp]|[? _]]; [|done]. by exists o. Qed.

Lemma read_exact_ok p bytes what n : length bytes = n → read_exact_file p (Ok bytes) what n = Ok bytes.
Proof. intros Hl. unfold read_exact_file. by rewrite Hl, Nat.eqb_refl. Qed.

Lemma read_exact_bad p bytes what n : length bytes ≠ n → read_exact_file p (Ok bytes) what n = Err (WrongLength what n (length bytes)).
Proof. intros Hl. unfold read_exact_file. by apply Nat.eqb_neq in Hl as ->. Qed.

(** What the command is given when the key and the outputs are fine. *)
Record ready (files : HazmatFiles) (v : Kalyna.variant) (key : list Z) (out : Output) : Prop := {
  ready_key : key_contents files = Ok key;
  ready_key_ok : array_ok (key_bytes_of v) key;
  ready_checked : outputs_checked files = Ok tt;
  ready_out : out_created files = Ok out;
  ready_fresh : fresh out
}.

Lemma cipher_expanded v key : array_ok (key_bytes_of v) key → ∃ k : ExpandedKey v, expanded_key_new v key = Some k ∧ key_ok k.
Proof. intros Hk. exact (expanded_new_ok (K := ExpandedKey v) key Hk). Qed.

Lemma ready_expanded files v key out : ready files v key out → ∃ k, expanded_key_new v key = Some k ∧ key_ok k.
Proof. intros Hr. exact (cipher_expanded v key (ready_key_ok _ _ _ _ Hr)). Qed.

(** ** The commands with one output *)

(** What [kalyna-block] computes, for both schedules and any number of runs. *)
Definition block_result {v : Kalyna.variant} (k : ExpandedKey v) (decrypt : bool) (input : list Z) : result (list Z) CliError :=
  if Nat.eqb (length input) (block_bytes_of v) then Ok (if decrypt then decrypt_block k input else encrypt_block k input)
  else Err (WrongLength LengthOf.InputBlock (block_bytes_of v) (length input)).

Lemma run_block_op_spec v key block decrypt n raw k : array_ok (key_bytes_of (cipher_of v)) key → length block = block_bytes_of (cipher_of v) → (0 < n)%nat →
  expanded_key_new (cipher_of v) key = Some k → run_block_op v key block decrypt n raw = Some (if decrypt then decrypt_block k block else encrypt_block k block).
Proof.
  intros Hk Hb Hn He. unfold run_block_op. rewrite (key_array_spec _ _ (proj1 Hk)). cbn [mbind option_bind]. rewrite (key_array_spec _ _ Hb). cbn [mbind option_bind]. destruct raw; [|rewrite He; cbn [mbind option_bind]].
  - rewrite (iter_same (λ _, if decrypt then kalyna_decrypt (cipher_of v) key block else kalyna_encrypt (cipher_of v) key block) (Some (if decrypt then decrypt_block k block else encrypt_block k block))); [done| |done|done].
    intros _. destruct decrypt; [by apply kalyna_decrypt_expanded|by apply kalyna_encrypt_expanded].
  - f_equal. rewrite iter_const by done. by destruct decrypt.
Qed.

Lemma block_command_spec decrypt args files key out input v (k : ExpandedKey (cipher_of v)) : block_variant args = v → ready files (cipher_of v) key out → in_contents files = Ok input →
  expanded_key_new (cipher_of v) key = Some k → ends_with out (block_result k decrypt input) (run_block_command decrypt args files).
Proof.
  intros <- [Ek Hk Ec Eo Hf] Ei He. unfold run_block_command. rewrite Ek, cipher_key_len, (read_exact_ok _ _ _ _ (proj1 Hk)). cbn [or_fail]. rewrite Ec. cbn [or_fail]. rewrite Eo. cbn [or_fail]. rewrite Ei, cipher_block_len.
  unfold block_result. destruct (Nat.eqb_spec (length input) (block_bytes_of (cipher_of (block_variant args)))) as [Hl|Hl].
  - rewrite read_exact_ok by done. cbn [or_fail]. rewrite (run_block_op_spec _ _ _ _ _ _ k Hk Hl (iteration_count_pos _) He). cbn [mbind option_bind]. by apply ends_ok.
  - rewrite read_exact_bad by done. cbn [or_fail]. by apply ends_err.
Qed.

(** What [kalyna-kw] computes. *)
Definition kw_result `{Subtle} {v : Kalyna.variant} (k : ExpandedKey v) (unwrap : bool) (input : list Z) : result (list Z) CliError :=
  if unwrap then
    if Nat.ltb (length input) (block_bytes_of v) then Err KwInvalidLength
    else let '(out, r) := unwrap_with_cipher k input (replicate (length input - block_bytes_of v) 0) in match r with Ok _ => Ok out | Err e => Err (from_kw_error e) end
  else let '(out, r) := wrap_with_cipher k input (replicate (length input + block_bytes_of v) 0) in match r with Ok _ => Ok out | Err _ => Err KwInvalidLength end.

(** Neither direction looks at what its buffer holds. *)
Lemma unwrap_buffer {K} `{BlockCipherLaws K} `{SubtleLaws} (k : K) ct out out' : key_ok k → bytes_ok ct → length out = length out' →
  match unwrap_with_cipher k ct out, unwrap_with_cipher k ct out' with
  | (o, Ok _), (o', Ok _) => o = o' ∧ length o = length out
  | (_, Err e), (_, Err e') => e = e'
  | _, _ => False
  end.
Proof.
  intros Hk Hb Hl. destruct (Nat.ltb (length ct) (2 * BlockCipher.block_bytes K) || negb (Nat.eqb (length ct mod BlockCipher.block_bytes K) 0) || Nat.ltb MAX_R (length ct / BlockCipher.block_bytes K - 1)
    || negb (Nat.eqb (length out) (length ct - BlockCipher.block_bytes K))) eqn:Hg.
  { assert (∀ o, length o = length out → unwrap_with_cipher k ct o = (o, Err Kw.InvalidLength)) as E by (intros o Ho; unfold unwrap_with_cipher; by rewrite Ho, Hg). by rewrite !E. }
  rewrite !orb_false_iff, !negb_false_iff, !Nat.eqb_eq, !Nat.ltb_ge in Hg. destruct Hg as (((H1' & H2') & H3') & H4').
  pose proof (block_bytes_pos (K := K)) as Hp. pose proof (aligned_length (BlockCipher.block_bytes K) ct H2') as Hal.
  set (r := (length ct / BlockCipher.block_bytes K - 1)%nat) in *. assert (2 ≤ length ct / BlockCipher.block_bytes K)%nat as Hq by (apply Nat.div_le_lower_bound; lia).
  assert (length ct = (r + 1) * BlockCipher.block_bytes K)%nat as Hal' by (rewrite Hal; f_equal; lia).
  rewrite (unwrap_spec k Hk ct out r), (unwrap_spec k Hk ct out' r); [|lia|exact (conj Hal' Hb)|lia|lia|exact (conj Hal' Hb)|lia].
  case_decide; [|done]. split; [done|]. destruct half_spec as [H8 Hh].
  destruct (kw_encipher_inverse k Hk (2 * (r + 1)) ct ltac:(lia)) as (_ & _ & [Hdl _] & _); [split; [rewrite Hal'; nia|done]|]. rewrite length_take, Hdl. nia.
Qed.

Lemma wrap_buffer {K} `{BlockCipherLaws K} (k : K) pt out out' : key_ok k → bytes_ok pt → length out = length out' →
  match wrap_with_cipher k pt out, wrap_with_cipher k pt out' with
  | (o, Ok _), (o', Ok _) => o = o' ∧ length o = length out
  | (_, Err e), (_, Err e') => e = e'
  | _, _ => False
  end.
Proof.
  intros Hk Hb Hl. destruct (decide (wrap_sizes (BlockCipher.block_bytes K) pt out)) as [(Hne & Hm & Hr & Ho)|Hv].
  2:{ assert (¬ wrap_sizes (BlockCipher.block_bytes K) pt out') as Hv' by (unfold wrap_sizes in *; by rewrite <- Hl). by rewrite !wrap_refused. }
  pose proof (block_bytes_pos (K := K)) as Hp. pose proof (aligned_length _ _ Hm) as Hal. set (r := (length pt / BlockCipher.block_bytes K)%nat) in *.
  assert (1 ≤ r)%nat as Hr1 by (destruct r; [|lia]; by apply nil_length_inv in Hal).
  rewrite (wrap_spec k Hk pt out r), (wrap_spec k Hk pt out' r); [|unfold MAX_R; lia|exact (conj Hal Hb)|lia|unfold MAX_R; lia|exact (conj Hal Hb)|lia].
  split; [done|]. destruct half_spec as [H8 Hh].
  assert (array_ok ((2 * (r + 1)) * (BlockCipher.block_bytes K / 2)) (pt ++ replicate (BlockCipher.block_bytes K) 0)) as Hx.
  { split; [rewrite length_app, length_replicate, Hal; nia|]. apply Forall_app. split; [done|]. apply Forall_replicate, byte_ok_0. }
  destruct (kw_encipher_inverse k Hk (2 * (r + 1)) _ ltac:(lia) Hx) as ([Hdl _] & _). rewrite Hdl, Ho, Hal. nia.
Qed.

Lemma kw_variant_spec `{SubtleLaws} v unwrap n key input k : array_ok (key_bytes_of v) key → bytes_ok input → (0 < n)%nat → expanded_key_new v key = Some k → key_ok k →
  run_kw_variant v unwrap n key input = Some (kw_result k unwrap input).
Proof.
  intros Hk Hb Hn He Hok. unfold run_kw_variant, kw_result. rewrite (key_array_spec _ _ (proj1 Hk)). cbn [mbind option_bind]. rewrite He. cbn [mbind option_bind]. f_equal. destruct unwrap.
  - destruct (Nat.ltb_spec (length input) (block_bytes_of v)) as [Hl|Hl]; [done|]. set (z := replicate (length input - block_bytes_of v) 0).
    apply (runs_same (λ s, length s = length z)); [|..|done|done].
    + intros s Hs. pose proof (unwrap_buffer k input s z Hok Hb Hs) as Hu. destruct (unwrap_with_cipher k input s) as [o [[]|e]], (unwrap_with_cipher k input z) as [o' [[]|e']]; naive_solver.
    + intros s. pose proof (unwrap_buffer k input z z Hok Hb eq_refl) as Hu. destruct (unwrap_with_cipher k input z) as [o' [[]|e']]; [|done]. intros [= <-]. by destruct Hu.
  - set (z := replicate (length input + block_bytes_of v) 0). apply (runs_same (λ s, length s = length z)); [|..|done|done].
    + intros s Hs. pose proof (wrap_buffer k input s z Hok Hb Hs) as Hu. destruct (wrap_with_cipher k input s) as [o [[]|e]], (wrap_with_cipher k input z) as [o' [[]|e']]; naive_solver.
    + intros s. pose proof (wrap_buffer k input z z Hok Hb eq_refl) as Hu. destruct (wrap_with_cipher k input z) as [o' [[]|e']]; [|done]. intros [= <-]. by destruct Hu.
Qed.

Lemma kw_command_spec `{SubtleLaws} unwrap args files key out input v (k : ExpandedKey (cipher_of v)) : kw_variant args = v → ready files (cipher_of v) key out → in_contents files = Ok input → bytes_ok input →
  expanded_key_new (cipher_of v) key = Some k → key_ok k → ends_with out (kw_result k unwrap input) (run_kw_command unwrap args files).
Proof.
  intros <- [Ek Hk Ec Eo Hf] Ei Hb He Hok. unfold run_kw_command. rewrite Ek, cipher_key_len, (read_exact_ok _ _ _ _ (proj1 Hk)). cbn [or_fail]. rewrite Ec. cbn [or_fail]. rewrite Eo. cbn [or_fail]. rewrite Ei. cbn [read_file or_fail].
  rewrite (kw_variant_spec _ _ _ _ _ k Hk Hb (iteration_count_pos _) He Hok). cbn [mbind option_bind]. by apply ends_write.
Qed.

(** What [kalyna-xts] computes. *)
Definition xts_result {v : Kalyna.variant} (k : Xts (ExpandedKey v)) (decrypt : bool) (tweak input : list Z) : result (list Z) CliError :=
  let '(buf, r) := if decrypt then decrypt_in_place k tweak input else encrypt_in_place k tweak input in
  match r with Ok _ => Ok buf | Err _ => Err XtsInvalidLength end.

Lemma xts_command_spec decrypt args files key tweak out input v (k : Xts (ExpandedKey (cipher_of v))) : xts_variant args = v → ready files (cipher_of v) key out → second_contents files = Ok tweak → length tweak = block_bytes_of (cipher_of v) →
  in_contents files = Ok input → Xts.new (K := ExpandedKey (cipher_of v)) key = Some k → ends_with out (xts_result k decrypt tweak input) (run_xts_command decrypt args files).
Proof.
  intros <- [Ek Hk Ec Eo Hf] Et Hl Ei He. unfold run_xts_command. rewrite Ek, cipher_key_len, (read_exact_ok _ _ _ _ (proj1 Hk)). cbn [or_fail]. rewrite Et, cipher_block_len, (read_exact_ok _ _ _ _ Hl). cbn [or_fail].
  rewrite Ec. cbn [or_fail]. rewrite Eo. cbn [or_fail]. rewrite Ei. cbn [read_file or_fail].
  unfold run_xts_variant. rewrite (key_array_spec _ _ (proj1 Hk)). cbn [mbind option_bind]. rewrite (key_array_spec _ _ Hl). cbn [mbind option_bind]. rewrite He. cbn [mbind option_bind].
  rewrite (runs_same (λ _, True) _ (xts_result k decrypt tweak input)); [by apply ends_write|done|done|apply iteration_count_pos|done].
Qed.

(** Both modes undo themselves. *)
Lemma kw_result_roundtrip `{SubtleLaws} {v : Kalyna.variant} (k : ExpandedKey v) input wrapped : key_ok k → bytes_ok input → kw_result k false input = Ok wrapped →
  bytes_ok wrapped ∧ kw_result k true wrapped = Ok input.
Proof.
  intros Hk Hb Ew. unfold kw_result in *. destruct (decide (wrap_sizes (block_bytes_of v) input (replicate (length input + block_bytes_of v) 0))) as [Hv|Hv]; [|by rewrite (wrap_refused k input) in Ew by exact Hv].
  pose proof (wrap_unwrap k input (replicate (length input + block_bytes_of v) 0) Hk Hb) as Hw. cbn [BlockCipher.block_bytes kalyna_cipher] in Hw. destruct (Hw Hv) as (ct & E & [Hl Hcb] & Hu). rewrite E in Ew. injection Ew as <-. split; [done|].
  destruct (Nat.ltb_spec (length ct) (block_bytes_of v)); [lia|]. rewrite Hu; [done|]. rewrite length_replicate. lia.
Qed.

Lemma xts_new {v : Kalyna.variant} (k : ExpandedKey v) key : expanded_key_new v key = Some k → Xts.new (K := ExpandedKey v) key = Some {| Xts.key := k |}.
Proof. intros He. unfold Xts.new. cbn [expanded_new kalyna_cipher]. by rewrite He. Qed.

Lemma xts_result_roundtrip {v : Kalyna.variant} (k : Xts (ExpandedKey v)) key tweak input ct : array_ok (key_bytes_of v) key → Xts.new (K := ExpandedKey v) key = Some k → array_ok (block_bytes_of v) tweak → bytes_ok input →
  xts_result k false tweak input = Ok ct → xts_result k true tweak ct = Ok input.
Proof.
  intros Hkey En Ht Hb Ew. unfold xts_result in *. pose proof (xts_roundtrip (K := ExpandedKey v) key tweak input) as Hr. pose proof (xts_is_mode (K := ExpandedKey v) key tweak input) as Hm.
  cbn [BlockCipher.block_bytes key_bytes kalyna_cipher] in Hr, Hm. destruct (decide (block_bytes_of v ≤ length input)%nat) as [Hl|Hl].
  - destruct (Hr Hkey Ht Hb Hl) as (self & ct' & pt' & En' & E1 & _ & E2 & _). rewrite En in En'. injection En' as <-. rewrite E1 in Ew. injection Ew as <-. by rewrite E2.
  - destruct (Hm Hkey Ht Hb) as (self & En' & Hx). rewrite En in En'. injection En' as <-. destruct Hx as [Hx _]. by rewrite Hx in Ew.
Qed.

(** ** GMAC *)

(** What [compute] and [verify] compute; the buffer of [verify] is not written anywhere. *)
Definition gmac_result `{Cpu} {v : Kalyna.variant} (k : ExpandedKey v) (message : list Z) : result (list Z) CliError :=
  if decide (message = []) then Err (EmptyInput "kalyna-gmac")
  else if decide (8 * length message < 2 ^ 64) then Ok (gmac_spec k message) else Err GmacVerifyFailed.

Definition gmac_accepts `{Cpu} {v : Kalyna.variant} (k : ExpandedKey v) (message tag : list Z) : result unit CliError :=
  if decide (8 ≤ length tag ≤ block_bytes_of v)%nat then
    result_bind (gmac_result k message) (λ full, if decide (tag = take (length tag) full) then Ok tt else Err GmacVerifyFailed)
  else Err GmacVerifyFailed.

Lemma mac_result `{Cpu} {v} (k : ExpandedKey v) message : key_ok k → bytes_ok message →
  match mac_with_cipher k message with Ok tag => Ok tag | Err e => Err (from_gmac_error e) end = gmac_result k message.
Proof. intros Hk Hm. rewrite mac_spec by done. unfold gmac_result. by repeat case_decide. Qed.

Lemma verify_result `{Cpu} `{SubtleLaws} {v} (k : ExpandedKey v) message tag : key_ok k → bytes_ok message →
  match verify_with_cipher k message tag with Ok _ => Ok tt | Err e => Err (from_gmac_error e) end = gmac_accepts k message tag.
Proof.
  intros Hk Hm. unfold verify_with_cipher, gmac_accepts. rewrite <- mac_result by done. cbn [BlockCipher.block_bytes kalyna_cipher].
  destruct (Nat.leb_spec 8 (length tag)), (Nat.leb_spec (length tag) (block_bytes_of v)); cbn [negb andb]; [rewrite decide_True by lia|rewrite decide_False by lia; done..].
  destruct (mac_with_cipher k message) as [full|e]; cbn [result_bind]; [|done]. rewrite ct_eq_slice_spec. case_bool_decide as E; [by rewrite decide_True|]. rewrite decide_False; [done|]. intros E2. by apply E.
Qed.

Lemma gmac_variant_spec `{Cpu} `{SubtleLaws} v tag_in n key message k : array_ok (key_bytes_of v) key → bytes_ok message → (0 < n)%nat → expanded_key_new v key = Some k → key_ok k →
  ∃ r, run_gmac_variant v tag_in n key message = Some r ∧
    match tag_in with
    | None => r = gmac_result k message
    | Some tag => match r with Ok _ => Ok tt | Err e => Err e end = gmac_accepts k message tag
    end.
Proof.
  intros Hk Hb Hn He Hok. unfold run_gmac_variant. rewrite (key_array_spec _ _ (proj1 Hk)). cbn [mbind option_bind]. rewrite He. cbn [mbind option_bind]. eexists. split; [done|]. destruct tag_in as [tag|].
  - rewrite <- verify_result by done. set (z := replicate (block_bytes_of v) 0).
    rewrite (runs_same (λ s, s = z) _ (match verify_with_cipher k message tag with Ok _ => Ok z | Err e => Err (from_gmac_error e) end)); [by destruct (verify_with_cipher k message tag)|by intros s ->| |done|done].
    intros s. destruct (verify_with_cipher k message tag); [by intros [= <-]|done].
  - apply (runs_same (λ _, True)); [|done|done|done]. intros s _. by apply mac_result.
Qed.

(** The command up to the computation. *)
Lemma gmac_compute_spec `{Cpu} `{SubtleLaws} args files key out message k p : ready files (cipher_of (gmac_variant args)) key out → gmac_out_path args = Some p → in_contents files = Ok message → bytes_ok message →
  expanded_key_new (cipher_of (gmac_variant args)) key = Some k → key_ok k → ends_with out (gmac_result k message) (run_gmac_command false args files).
Proof.
  intros [Ek Hk Ec Eo Hf] Ep Ei Hb He Hok. unfold run_gmac_command. rewrite Ek, cipher_key_len, (read_exact_ok _ _ _ _ (proj1 Hk)). cbn [or_fail]. unfold gmac_output. rewrite Ep, Ec. cbn [result_bind]. rewrite Eo. cbn [result_bind or_fail].
  rewrite Ei. cbn [read_file or_fail]. destruct (gmac_variant_spec (cipher_of (gmac_variant args)) None _ _ _ k Hk Hb (iteration_count_pos (gmac_iterations args)) He Hok) as (r & -> & ->). cbn [mbind option_bind].
  by apply ends_write.
Qed.

Lemma gmac_verify_spec `{Cpu} `{SubtleLaws} args files key message tag k p : key_contents files = Ok key → array_ok (key_bytes_of (cipher_of (gmac_variant args))) key → gmac_tag_path args = Some p → in_contents files = Ok message → bytes_ok message →
  tag_contents files = Ok tag → expanded_key_new (cipher_of (gmac_variant args)) key = Some k → key_ok k → run_gmac_command true args files = Some (None, gmac_accepts k message tag).
Proof.
  intros Ek Hk Ep Ei Hb Et He Hok. unfold run_gmac_command. rewrite Ek, cipher_key_len, (read_exact_ok _ _ _ _ (proj1 Hk)). cbn [or_fail]. rewrite Ei. cbn [read_file or_fail]. rewrite Ep, Et. cbn [read_file result_bind or_fail].
  destruct (gmac_variant_spec (cipher_of (gmac_variant args)) (Some tag) _ _ _ k Hk Hb (iteration_count_pos (gmac_iterations args)) He Hok) as (r & -> & Hr). cbn [mbind option_bind]. rewrite <- Hr. by destruct r.
Qed.

(** ** The digest and the stream cipher *)

(** A file whose reads all succeed; an interruption is an error here. *)
Definition uninterrupted (file : Reader) : Prop := Forall (λ ev, match ev with Give _ => True | Fail _ => False end) (schedule file).

Lemma read_uninterrupted file n : uninterrupted file → let '(file', r) := read file n in uninterrupted file' ∧ ∃ bytes, r = Ok bytes.
Proof. unfold uninterrupted, read. destruct (schedule file) as [|[k|e] evs]; cbn [deliver schedule]; [by intros; split; [|eexists]|intros [_ ?]%Forall_cons; by split; [|eexists]|by intros [[] _]%Forall_cons]. Qed.

(** A call of [read], for the loops that end at its first error. *)
Lemma read_turn file n : (0 < n)%nat → let '(file', r) := read file n in
  (uninterrupted file → uninterrupted file') ∧
  match r with
  | Ok bytes => pending file = bytes ++ pending file' ∧ (length bytes ≤ n)%nat ∧ (bytes = [] → pending file = [])
  | Err _ => ¬ uninterrupted file
  end.
Proof.
  intros Hn. pose proof (read_spec file n Hn) as H. pose proof (read_uninterrupted file n) as Hu. destruct (read file n) as [file' [bytes|e]]; (split; [by intros ?; apply Hu|]).
  - destruct H as (_ & _ & E & Ep & Hl & Hnil). split; [|done]. rewrite Ep. rewrite E at 1. by rewrite take_drop.
  - intros Hun. by destruct (Hu Hun) as [_ [? ?]].
Qed.

Lemma digest_loop_spec v in_path fuel : ∀ file hasher m, hasher_at v hasher m → bytes_ok (pending file) → length m + length (pending file) < 2 ^ 64 → (length (pending file) < fuel)%nat →
  ∃ r, digest_loop v fuel file hasher in_path = Some r ∧
    match r with Ok d => d = kupyna_digest v (m ++ pending file) | Err e => ¬ uninterrupted file ∧ ∃ message, e = Io in_path message end.
Proof.
  induction fuel as [|fuel IH]; intros file hasher m Hat Hb Hl Hfuel; [lia|]. cbn [digest_loop].
  pose proof (read_turn file DIGEST_STREAM_CHUNK_BYTES ltac:(unfold DIGEST_STREAM_CHUNK_BYTES; lia)) as Hr. destruct (read file DIGEST_STREAM_CHUNK_BYTES) as [file' [bytes|e]]; destruct Hr as [Hu Hr].
  2:{ eexists. split; [done|]. split; [done|]. by eexists. }
  destruct Hr as (Ep & _ & Hnil). destruct bytes as [|b bytes].
  - rewrite (Hnil eq_refl), app_nil_r. destruct (finalize_digest v hasher m Hat) as [_ ->]; [lia|]. by eexists.
  - set (bs := b :: bytes) in *. rewrite Ep in Hb, Hl, Hfuel. apply Forall_app in Hb as [Hbs Hb']. rewrite length_app in Hl, Hfuel. assert (0 < length bs)%nat by (cbn; lia).
    destruct (update_at _ _ _ (variant_params v) hasher m bs Hat Hbs) as (hasher' & E & Hat'). unfold hasher_update. rewrite E. cbn [mbind option_bind].
    destruct (IH file' hasher' (m ++ bs) Hat' Hb' ltac:(rewrite length_app; lia) ltac:(lia)) as (r & -> & Hres). exists r. split; [done|].
    destruct r as [d|e]; [by rewrite Hres, Ep, app_assoc|]. split; [|apply Hres]. intros Hun. by apply Hres, Hu.
Qed.

Lemma concat_chunks {A} n (l : list A) : concat (chunks n l) = l.
Proof. unfold chunks. rewrite concat_app. rewrite <- (concat_chunks_exact n l) at 3. f_equal. destruct (remainder n l); [done|]. cbn [concat]. by rewrite app_nil_r. Qed.

Lemma bench_digest v n message : bytes_ok message → length message < 2 ^ 64 → (0 < n)%nat → bench_in_memory v n message = Some (kupyna_digest v message).
Proof.
  intros Hb Hl Hn. unfold bench_in_memory. set (cs := chunks DIGEST_BENCH_CHUNK_BYTES message). assert (concat cs = message) as Ec by apply concat_chunks.
  pose proof (updates_digest v cs) as Hu. rewrite Ec in Hu. assert (Forall (Forall (word_ok 8)) cs) as Hcs.
  { apply Forall_concat. by rewrite Ec. }
  rewrite (iter_same (λ _, hasher ← updates (hasher_new v) cs; digest ← hasher_finalize v hasher; Some (Some digest)) (Some (Some (kupyna_digest v message)))); [done| |done|done].
  intros _. specialize (Hu Hcs Hl). destruct (updates (hasher_new v) cs) as [core|]; [|done]. cbn [mbind option_bind] in *. by rewrite Hu.
Qed.

Lemma strumok_loop_spec key iv in_path fuel : ∀ file cipher p out, strumok_at (init_spec key iv) cipher p → bytes_ok (pending file) → (length (pending file) < fuel)%nat →
  ∃ out' r, strumok_loop fuel file cipher in_path out = Some (out', r) ∧ continues out out' ∧ (uninterrupted file → sound out → r = Ok tt) ∧
    (r = Ok tt → written out' = written out ++ xor_keystream (strumok_keystream (init_spec key iv)) p (pending file)).
Proof.
  induction fuel as [|fuel IH]; intros file cipher p out Hat Hb Hfuel; [lia|]. cbn [strumok_loop].
  pose proof (read_turn file STRUMOK_STREAM_CHUNK_BYTES ltac:(unfold STRUMOK_STREAM_CHUNK_BYTES; lia)) as Hr. destruct (read file STRUMOK_STREAM_CHUNK_BYTES) as [file' [bytes|e]]; destruct Hr as [Hu Hr].
  2:{ eexists out, _. split; [done|]. split; [done|]. by split. }
  destruct Hr as (Ep & _ & Hnil). destruct bytes as [|b bytes].
  - rewrite (Hnil eq_refl). eexists out, _. split; [done|]. split; [done|]. split; [done|]. by rewrite app_nil_r.
  - set (bs := b :: bytes) in *. rewrite Ep in Hb, Hfuel. apply Forall_app in Hb as [Hbs Hb']. rewrite length_app in Hfuel. assert (0 < length bs)%nat by (cbn; lia).
    destruct (strumok_stream (init_spec key iv) cipher p bs Hat Hbs) as [Hat' Ebs]. destruct (Strumok.apply_keystream cipher bs) as [cipher' chunk]. cbn [fst snd] in Hat', Ebs.
    pose proof (write_all_spec out chunk) as Hw. destruct (write_all out chunk) as [out1 r1]. destruct Hw as (Hc & Hs & Hw). destruct r1 as [[]|e].
    + destruct (IH file' cipher' (p + length bs)%nat out1 Hat' Hb' ltac:(lia)) as (out' & r & -> & Hc' & Hr1 & Hr2). exists out', r. split; [done|].
      split; [by eapply continues_trans|]. split; [intros Hun Hso; by apply Hr1; [apply Hu|apply Hc]|]. intros Er. rewrite (Hr2 Er), (Hw eq_refl), Ep, Ebs, xor_keystream_app. by rewrite app_assoc.
    + eexists out1, _. split; [done|]. split; [done|]. split; [|done]. intros _ Hso. by specialize (Hs Hso).
Qed.

(** How [kupyna-digest] ends. *)
Lemma digest_command_spec args files out file : out_created files = Ok out → fresh out → in_opened files = Ok file → in_contents files = Ok (pending file) → bytes_ok (pending file) → length (pending file) < 2 ^ 64 →
  ∃ out' r, run_digest_command args files = Some (Some out', r) ∧ (r = Ok tt → published out' = Some (kupyna_digest (hash_of (digest_variant args)) (pending file))) ∧
    (r ≠ Ok tt → published out' = None) ∧ (uninterrupted file → sound out → r = Ok tt).
Proof.
  intros Eo Hf Eop Ec Hb Hl. unfold run_digest_command. rewrite Eo. cbn [or_fail]. set (v := hash_of (digest_variant args)).
  assert (∀ r : result (list Z) CliError, match r with Ok d => d = kupyna_digest v (pending file) | Err _ => ¬ uninterrupted file end →
    ∃ out' r', or_fail (Some out) r (λ digest, let '(out, r) := write_all_and_commit out digest in Some (Some out, r)) = Some (Some out', r') ∧
      (r' = Ok tt → published out' = Some (kupyna_digest v (pending file))) ∧ (r' ≠ Ok tt → published out' = None) ∧ (uninterrupted file → sound out → r' = Ok tt)) as Hend.
  { intros r Hr. destruct (ends_write out r Hf) as (out' & r' & -> & H). exists out', r'. split; [done|]. destruct r as [d|e].
    - subst d. destruct H as [H Hs]. split; [intros ->; by destruct H as [[_ ?]|[? _]]|]. split; [by destruct H as [[-> _]|[_ ?]]|auto].
    - destruct H as [-> Hp]. by split. }
  rewrite Eop, Ec. cbn [read_file stream_from_disk]. destruct (Nat.leb_spec (iteration_count (digest_iterations args)) 1) as [Hi|Hi].
  - destruct (digest_loop_spec v (digest_in_path args) (S (length (pending file))) file (hasher_new v) []) as (r & -> & Hr); [apply core_new_at, variant_params|done|cbn; lia|lia|]. cbn [mbind option_bind].
    apply Hend. destruct r; [done|apply Hr].
  - rewrite (bench_digest v _ (pending file) Hb Hl (iteration_count_pos _)). cbn [mbind option_bind]. by apply Hend.
Qed.

(** What [strumok-crypt] computes: the keystream once, or with a cached schedule one stretch of it after the other. *)
Definition strumok_text (args : StrumokArgs) (key iv input : list Z) : list Z :=
  let ks := strumok_keystream (init_spec key iv) in
  let n := iteration_count (strumok_iterations args) in
  if Nat.leb n 1 || strumok_raw_schedule args then xor_keystream ks 0 input
  else foldl (λ buf i, xor_keystream ks (i * length input) buf) input (seq 0 n).

Lemma strumok_cached key iv n input : bytes_ok input →
  let '(cipher, buf) := Nat.iter n (λ '(cipher, buf), Strumok.apply_keystream cipher buf) (core_new key iv, input) in
  buf = foldl (λ buf i, xor_keystream (strumok_keystream (init_spec key iv)) (i * length input) buf) input (seq 0 n) ∧
  strumok_at (init_spec key iv) cipher (n * length input) ∧ bytes_ok buf ∧ length buf = length input.
Proof.
  intros Hb. induction n as [|n IH]; [split_and!; try done; apply strumok_core_at|]. cbn [Nat.iter nat_rect] in *. unfold Nat.iter in IH. destruct (nat_rect _ _ _ n) as [cipher buf]. destruct IH as (E & Hat & Hbb & Hl).
  destruct (strumok_stream (init_spec key iv) cipher _ buf Hat Hbb) as [Hat' Eb]. destruct (Strumok.apply_keystream cipher buf) as [cipher' buf']. cbn [fst snd] in *.
  rewrite seq_S, foldl_app. cbn [foldl Nat.add]. rewrite <- E, Eb. split_and!; [done| | |by rewrite length_xor_keystream].
  - rewrite Hl in Hat'. by replace (S n * length input)%nat with (n * length input + length input)%nat by lia.
  - apply xor_keystream_ok; [done|]. intros i. apply strumok_keystream_ok.
Qed.

Lemma strumok_variant_spec v args n key iv input : length key = strumok_key_bytes v → length iv = 32%nat → bytes_ok input → n = iteration_count (strumok_iterations args) → (1 < n)%nat →
  run_strumok_variant v (strumok_raw_schedule args) n key iv input = Some (strumok_text args key iv input).
Proof.
  intros Hk Hi Hb En Hn. unfold run_strumok_variant, strumok_text. rewrite (key_array_spec _ _ Hk). cbn [mbind option_bind]. rewrite (key_array_spec _ _ Hi). cbn [mbind option_bind]. f_equal. rewrite <- En.
  destruct (Nat.leb_spec n 1); [lia|]. cbn [orb]. unfold strumok_new. destruct (strumok_raw_schedule args).
  - rewrite iter_const by lia. by destruct (strumok_stream (init_spec key iv) (core_new key iv) 0%nat input (strumok_core_at key iv) Hb).
  - pose proof (strumok_cached key iv n input Hb) as Hc. destruct (Nat.iter n _ _) as [cipher buf]. by destruct Hc.
Qed.

(** How [strumok-crypt] ends. *)
Lemma strumok_command_spec args files key iv out file : key_contents files = Ok key → length key = strumok_key_bytes (strumok_of (strumok_variant args)) → second_contents files = Ok iv → length iv = 32%nat →
  outputs_checked files = Ok tt → out_created files = Ok out → fresh out → in_opened files = Ok file → in_contents files = Ok (pending file) → bytes_ok (pending file) →
  ∃ out' r, run_strumok_command args files = Some (Some out', r) ∧ (r = Ok tt → published out' = Some (strumok_text args key iv (pending file))) ∧
    (r ≠ Ok tt → published out' = None) ∧ (uninterrupted file → sound out → r = Ok tt).
Proof.
  intros Ek Hk Ei Hi Ec Eo Hf Eop Ein Hb. unfold run_strumok_command. rewrite Ek, (read_exact_ok _ _ _ _ Hk). cbn [or_fail]. rewrite Ei, (read_exact_ok _ _ _ _ Hi). cbn [or_fail]. rewrite Ec. cbn [or_fail]. rewrite Eo. cbn [or_fail].
  set (n := iteration_count (strumok_iterations args)). pose proof (iteration_count_pos (strumok_iterations args)) as Hpos. destruct (Nat.leb_spec n 1) as [Hn|Hn].
  - unfold run_strumok_stream. rewrite (key_array_spec _ _ Hk). cbn [mbind option_bind]. rewrite (key_array_spec _ _ Hi). cbn [mbind option_bind]. rewrite Eop. cbn [or_fail].
    destruct (strumok_loop_spec key iv (strumok_in_path args) (S (length (pending file))) file (strumok_new (strumok_of (strumok_variant args)) key iv) 0%nat out) as (out1 & r & -> & (_ & Hp & Hs & _) & Hr1 & Hr2); [apply strumok_core_at|done|lia|].
    cbn [mbind option_bind]. destruct Hf as [Hw Hp0]. rewrite Hp0 in Hp. destruct r as [[]|e]; cbn [or_fail].
    + pose proof (publish_spec out1) as Hpub. destruct (publish out1) as [out2 r2]. destruct Hpub as [H1 H2]. exists out2, r2. split; [done|]. specialize (Hr2 eq_refl). rewrite Hw in Hr2. cbn [app] in Hr2.
      assert (strumok_text args key iv (pending file) = written out1) as -> by (unfold strumok_text; fold n; rewrite (proj2 (Nat.leb_le n 1) Hn); by rewrite Hr2).
      specialize (H1 Hp). split; [intros ->; by destruct H1 as [[_ ?]|[? _]]|]. split; [by destruct H1 as [[-> _]|[_ ?]]|]. intros _ Hso. by apply H2, Hs.
    + exists out1, (Err e). split; [done|]. split; [done|]. split; [done|]. intros Hu Hso. by specialize (Hr1 Hu Hso).
  - rewrite Ein. cbn [read_file or_fail]. rewrite (strumok_variant_spec _ args n key iv (pending file) Hk Hi Hb eq_refl Hn). cbn [mbind option_bind].
    pose proof (write_all_and_commit_spec out (strumok_text args key iv (pending file)) Hf) as Hw. destruct (write_all_and_commit _ _) as [out' r]. destruct Hw as [Hw Hs]. exists out', r. split; [done|]. split; [intros ->; by destruct Hw as [[_ ?]|[? _]]|]. split; [by destruct Hw as [[-> _]|[_ ?]]|auto].
Qed.

(** ** The authenticated modes *)

Inductive AeadMode : Type := ModeCcm | ModeGcm.

Section modes.
Context `{Cpu} `{SubtleLaws} `{ZeroizeLaws}.

(** The tag length of a mode and variant. *)
Definition tag_size (m : AeadMode) (v : Kalyna.variant) : nat := match m with ModeCcm => ccm_q (ExpandedKey v) | ModeGcm => block_bytes_of v end.

(** Sealing and opening of a whole text, with the errors of the tool. *)
Definition seal_value (m : AeadMode) {v : Kalyna.variant} (k : ExpandedKey v) (nonce aad pt : list Z) : result (list Z * list Z) CliError :=
  match m with
  | ModeCcm => let '(buf, r) := seal_in_place k nonce aad pt in match r with Ok tag => Ok (buf, tag) | Err e => Err (from_ccm_error e) end
  | ModeGcm => let '(buf, r) := Gcm.encrypt k nonce aad pt (replicate (length pt) 0) in match r with Ok tag => Ok (buf, tag) | Err e => Err (from_gcm_error e) end
  end.

Definition open_value (m : AeadMode) {v : Kalyna.variant} (k : ExpandedKey v) (nonce aad ct tag : list Z) : result (list Z) CliError :=
  match m with
  | ModeCcm => let '(buf, r) := open_in_place k nonce aad ct tag in match r with Ok _ => Ok buf | Err e => Err (from_ccm_error e) end
  | ModeGcm => let '(buf, r) := Gcm.decrypt k nonce aad ct tag (replicate (length ct) 0) in match r with Ok _ => Ok buf | Err e => Err (from_gcm_error e) end
  end.

Section key.
Context {v : Kalyna.variant} (k : ExpandedKey v) (Hk : key_ok k) (nonce aad : list Z) (Hn : array_ok (block_bytes_of v) nonce) (Ha : bytes_ok aad).

(** The keystream of a mode. *)
Definition mode_keystream (m : AeadMode) : nat → Z := match m with ModeCcm => ccm_keystream k nonce | ModeGcm => gcm_keystream k nonce end.
Definition mode_tag (m : AeadMode) (pt ct : list Z) : list Z := match m with ModeCcm => ccm_tag k nonce aad pt | ModeGcm => gcm_tag k aad ct end.
Definition mode_error (m : AeadMode) (text : list Z) : option CliError :=
  match m with
  | ModeCcm => from_ccm_error <$> ccm_error aad text
  | ModeGcm => from_gcm_error <$> Gcm.input_error aad text (replicate (length text) 0)
  end.

Lemma mode_keystream_ok m i : byte_ok (mode_keystream m i).
Proof using All.
  destruct m; cbn [mode_keystream]; apply nth_byte_ok, (encrypt_block_ok k); try done; [apply Ctr.counter_ok|apply counter_block_ok]; by apply (encrypt_block_ok k).
Qed.

Lemma mode_error_length m a b : length a = length b → mode_error m a = mode_error m b.
Proof.
  intros Hl. destruct m; cbn [mode_error]; f_equal.
  - unfold ccm_error. rewrite Hl. by destruct a, b.
  - unfold Gcm.input_error. rewrite !length_replicate, Hl. assert (a = [] ↔ b = []) as E by (by destruct a, b). repeat case_decide; (done || tauto).
Qed.

Lemma seal_value_spec m pt : bytes_ok pt → seal_value m k nonce aad pt =
  match mode_error m pt with Some e => Err e | None => let ct := xor_keystream (mode_keystream m) 0 pt in Ok (ct, mode_tag m pt ct) end.
Proof using All.
  intros Hp. destruct m; cbn [seal_value mode_error mode_keystream mode_tag].
  - rewrite (seal_spec k Hk nonce aad pt Hn Ha Hp). by destruct (ccm_error aad pt).
  - rewrite (Gcm.encrypt_spec k nonce aad pt _ Hk Hn Ha Hp). by destruct (Gcm.input_error _ _ _).
Qed.

Lemma open_value_spec m ct tag : bytes_ok ct → length tag = tag_size m v → open_value m k nonce aad ct tag =
  match mode_error m ct with
  | Some e => Err e
  | None => let pt := xor_keystream (mode_keystream m) 0 ct in if decide (tag = mode_tag m pt ct) then Ok pt else Err (match m with ModeCcm => CcmVerifyFailed | ModeGcm => GcmVerifyFailed end)
  end.
Proof using All.
  intros Hc Ht. destruct m; cbn [open_value mode_error mode_keystream mode_tag tag_size] in *.
  - rewrite (open_spec k Hk nonce aad ct tag Hn Ha Hc Ht). destruct (ccm_error aad ct); [done|]. cbn [option_map fmap option_fmap]. by case_decide.
  - rewrite (Gcm.decrypt_spec k nonce aad ct tag _ Hk Hn Ha Hc). cbn [BlockCipher.block_bytes kalyna_cipher]. rewrite Ht.
    pose proof (block_bytes_valid (K := ExpandedKey v)) as Hbb. cbn [BlockCipher.block_bytes kalyna_cipher] in Hbb.
    rewrite decide_True by lia. destruct (Gcm.input_error _ _ _); [done|]. cbn [fmap option_fmap option_map].
    assert (take (block_bytes_of v) (gcm_tag k aad ct) = gcm_tag k aad ct) as Eg; [|rewrite Eg; by case_decide].
    apply take_ge. destruct (gcm_tag_ok k aad ct Hk Ha Hc) as [Hl _]. cbn [BlockCipher.block_bytes kalyna_cipher] in Hl. lia.
Qed.

(** What was sealed opens, and nothing else does. *)
Lemma seal_value_ok m pt ct tag : bytes_ok pt → seal_value m k nonce aad pt = Ok (ct, tag) → array_ok (length pt) ct ∧ length tag = tag_size m v ∧ open_value m k nonce aad ct tag = Ok pt.
Proof using All.
  intros Hp. rewrite seal_value_spec by done. destruct (mode_error m pt) eqn:He; [done|]. cbv zeta. intros [= <- <-].
  set (ct := xor_keystream (mode_keystream m) 0 pt) in *. assert (array_ok (length pt) ct) as Hc by (split; [apply length_xor_keystream|apply xor_keystream_ok; [done|apply mode_keystream_ok]]).
  assert (length (mode_tag m pt ct) = tag_size m v) as Hl.
  { destruct m; cbn [mode_tag tag_size].
    - unfold mode_error in He. destruct (ccm_error aad pt) eqn:Ee; [done|]. apply ccm_no_error in Ee as (_ & Hlb & Hla). unfold ccm_tag. rewrite length_xor_keystream.
      by destruct (ccm_mac_prefix k Hk nonce aad pt Hn Ha Hp Hla Hlb) as [[Hm _] _].
    - by destruct (gcm_tag_ok k aad ct Hk Ha (proj2 Hc)) as [Hl _]. }
  split; [done|]. split; [done|]. rewrite open_value_spec by (done || apply Hc). rewrite (mode_error_length m ct pt) by apply Hc. rewrite He. cbv zeta.
  assert (xor_keystream (mode_keystream m) 0 ct = pt) as -> by (unfold ct; apply xor_keystream_involutive). by rewrite decide_True.
Qed.

Lemma open_value_exact m ct tag : bytes_ok ct → length tag = tag_size m v →
  match open_value m k nonce aad ct tag with
  | Ok pt => bytes_ok pt ∧ seal_value m k nonce aad pt = Ok (ct, tag)
  | Err _ => ∀ pt, bytes_ok pt → seal_value m k nonce aad pt ≠ Ok (ct, tag)
  end.
Proof using All.
  intros Hc Ht. destruct (open_value m k nonce aad ct tag) as [pt|e] eqn:Eo.
  - rewrite open_value_spec in Eo by done. destruct (mode_error m ct) eqn:He; [done|]. cbv zeta in Eo. case_decide as Et; [|done]. injection Eo as Epm. symmetry in Epm.
    assert (bytes_ok pt) as Hp by (rewrite Epm; apply xor_keystream_ok; [done|apply mode_keystream_ok]). split; [done|]. rewrite seal_value_spec by done.
    rewrite (mode_error_length m pt ct) by (rewrite Epm; apply length_xor_keystream). rewrite He. cbv zeta.
    assert (xor_keystream (mode_keystream m) 0 pt = ct) as -> by (rewrite Epm; apply xor_keystream_involutive). by rewrite Et, <- Epm.
  - intros pt Hp Es. destruct (seal_value_ok m pt ct tag Hp Es) as (_ & _ & E). congruence.
Qed.
End key.
End modes.

(** ** The authenticated commands *)

Section aead_commands.
Context `{Cpu} `{SubtleLaws} `{ZeroizeLaws} {GE : Type} (random_text : RandomError GE → string).

Definition mode_variant (m : AeadMode) (v : Kalyna.variant) :=
  match m with ModeCcm => run_ccm_variant v (ccm_q (ExpandedKey v)) | ModeGcm => run_gcm_variant v end.

(** The command of a mode. *)
Definition run_aead (m : AeadMode) (decrypt : bool) (args : AeadArgs) (files : HazmatFiles) (fill : fill_call GE) : option (AeadOutputs * result unit CliError) :=
  match m with ModeCcm => run_ccm_command random_text decrypt args files fill | ModeGcm => run_gcm_command random_text decrypt args files fill end.

Lemma run_aead_eq m decrypt args files fill : run_aead m decrypt args files fill = run_aead_command random_text (mode_variant m (cipher_of (aead_variant args))) decrypt args files fill.
Proof. destruct m; [|done]. unfold run_aead, run_ccm_command. by rewrite cipher_tag_len. Qed.

Section key.
Context {v : Kalyna.variant} (k : ExpandedKey v) (key : list Z) (Hkey : array_ok (key_bytes_of v) key) (He : expanded_key_new v key = Some k) (Hk : key_ok k).
Context (nonce aad : list Z) (Hn : array_ok (block_bytes_of v) nonce) (Ha : bytes_ok aad).

(** Neither direction of GCM looks at what its buffer holds. *)
Lemma gcm_encrypt_buffer pt out : bytes_ok pt → length out = length pt →
  (let '(buf, r) := Gcm.encrypt k nonce aad pt out in match r with Ok tag => Ok (buf, tag) | Err e => Err (from_gcm_error e) end) = seal_value ModeGcm k nonce aad pt.
Proof using All.
  intros Hp Hl. cbn [seal_value]. rewrite !(Gcm.encrypt_spec k nonce aad pt _ Hk Hn Ha Hp). unfold Gcm.input_error. rewrite length_replicate, Hl. by repeat case_decide.
Qed.

Lemma gcm_decrypt_buffer ct tag out : bytes_ok ct → length out = length ct →
  (let '(buf, r) := Gcm.decrypt k nonce aad ct tag out in match r with Ok _ => Ok buf | Err e => Err (from_gcm_error e) end) = open_value ModeGcm k nonce aad ct tag.
Proof using All.
  intros Hc Hl. cbn [open_value]. rewrite !(Gcm.decrypt_spec k nonce aad ct tag _ Hk Hn Ha Hc). unfold Gcm.input_error. rewrite length_replicate, Hl. by repeat case_decide.
Qed.

Lemma seal_value_length m pt ct tag : bytes_ok pt → seal_value m k nonce aad pt = Ok (ct, tag) → length ct = length pt.
Proof using All. intros Hp Es. by destruct (seal_value_ok k Hk nonce aad Hn Ha m pt ct tag Hp Es) as [[Hl _] _]. Qed.

Lemma variant_seal m n args files input : bytes_ok input → (0 < n)%nat →
  mode_variant m v false n args files key nonce aad input = Some (result_bind (seal_value m k nonce aad input) (λ '(ct, tag), Ok (ct, Some tag))).
Proof using All.
  intros Hi Hpos. destruct m; cbn [mode_variant]; unfold run_ccm_variant, run_gcm_variant, Ccm.new, Gcm.new; cbn [expanded_new kalyna_cipher];
    rewrite (key_array_spec _ _ (proj1 Hkey)); cbn [mbind option_bind]; rewrite (key_array_spec _ _ (proj1 Hn)); cbn [mbind option_bind]; rewrite He; cbn [mbind option_bind]; f_equal.
  - rewrite (runs_same (λ _, True) _ (result_bind (seal_value ModeCcm k nonce aad input) (λ '(ct, tag), Ok (ct, Some tag)))); [done| |done|done|done].
    intros s _. cbn [seal_value]. by destruct (seal_in_place k nonce aad input) as [buf [tag|e]].
  - rewrite (runs_same (λ s, length s.1 = length input) _ (seal_value ModeGcm k nonce aad input)); [by destruct (seal_value ModeGcm k nonce aad input) as [[ct tag]|e]| | |done|apply length_replicate].
    + intros [buf tag] Hl. by apply gcm_encrypt_buffer.
    + intros [ct tag] Es. by eapply seal_value_length.
Qed.

Lemma open_value_length m ct tag pt : bytes_ok ct → length tag = tag_size m v → open_value m k nonce aad ct tag = Ok pt → length pt = length ct.
Proof using All.
  intros Hc Ht Eo. pose proof (open_value_exact k Hk nonce aad Hn Ha m ct tag Hc Ht) as Hx. rewrite Eo in Hx. destruct Hx as [Hp Es]. symmetry. by eapply seal_value_length.
Qed.

Lemma variant_open m n args files input tag : bytes_ok input → (0 < n)%nat → tag_contents files = Ok tag →
  mode_variant m v true n args files key nonce aad input =
    Some (if decide (length tag = tag_size m v) then result_bind (open_value m k nonce aad input tag) (λ pt, Ok (pt, None)) else Err (WrongLength LengthOf.Tag (tag_size m v) (length tag))).
Proof using All.
  intros Hi Hpos Et. destruct m; cbn [mode_variant tag_size]; unfold run_ccm_variant, run_gcm_variant, Ccm.new, Gcm.new; cbn [expanded_new kalyna_cipher];
    rewrite (key_array_spec _ _ (proj1 Hkey)); cbn [mbind option_bind]; rewrite (key_array_spec _ _ (proj1 Hn)); cbn [mbind option_bind]; rewrite He; cbn [mbind option_bind]; rewrite Et;
    (case_decide as Hl; [rewrite read_exact_ok by done|by rewrite read_exact_bad]).
  - rewrite (key_array_spec _ _ Hl). cbn [mbind option_bind]. f_equal.
    rewrite (runs_same (λ _, True) _ (result_bind (open_value ModeCcm k nonce aad input tag) (λ pt, Ok (pt, None)))); [done| |done|done|done].
    intros s _. cbn [open_value]. by destruct (open_in_place k nonce aad input tag) as [buf [[]|e]].
  - f_equal. set (z := replicate (block_bytes_of v) 0).
    rewrite (runs_same (λ s, length s.1 = length input ∧ s.2 = z) _ (result_bind (open_value ModeGcm k nonce aad input tag) (λ pt, Ok (pt, z)))); [by destruct (open_value ModeGcm k nonce aad input tag)| | |done|by split; [apply length_replicate|]].
    + intros [buf z'] [Hb Ez]. cbn [fst snd] in *. subst z'. rewrite <- (gcm_decrypt_buffer input tag buf Hi Hb). by destruct (Gcm.decrypt k nonce aad input tag buf) as [b [[]|e]].
    + intros s Es. destruct (open_value ModeGcm k nonce aad input tag) as [pt|e] eqn:Eo; [|done]. injection Es as <-. split; [|done]. by apply (open_value_length ModeGcm input tag pt Hi Hl).
Qed.
End key.

(** What is left of three outputs that are committed one after the other. *)
Definition wrote (ct tag nonce : list Z) (o t n : Output) (r : result unit CliError) : Prop :=
  r = Ok tt ∧ published o = Some ct ∧ published t = Some tag ∧ published n = Some nonce ∨
  r ≠ Ok tt ∧ published n = None ∧ (published o = None ∧ published t = None ∨ published o = Some ct ∧ (published t = None ∨ published t = Some tag)).

Lemma write_aead_outputs_spec out ct tag to nonce no : fresh out → fresh to → fresh no →
  ∃ o t n r, write_aead_outputs out ct (Some tag) (Some to) nonce (Some no) = ({| ciphertext_out := Some o; tag_out := Some t; nonce_out := Some n |}, r) ∧
    wrote ct tag nonce o t n r ∧ (sound out → sound to → sound no → r = Ok tt).
Proof.
  intros Hf Hft Hfn. unfold write_aead_outputs, wrote. pose proof (write_all_and_commit_spec out ct Hf) as H1'. destruct (write_all_and_commit out ct) as [o r]. destruct H1' as [Ho Hso]. pose proof (proj2 Hft) as Hpt. pose proof (proj2 Hfn) as Hpn.
  destruct r as [[]|e].
  2:{ exists o, to, no, (Err e). split; [done|]. destruct Ho as [[? _]|[_ Ho]]; [done|]. split; [right; split_and!; auto|]. intros Hs. by specialize (Hso Hs). }
  destruct Ho as [[_ Ho]|[? _]]; [|done]. pose proof (write_all_and_commit_spec to tag Hft) as H2'. destruct (write_all_and_commit to tag) as [t r]. destruct H2' as [Hto Hst].
  destruct r as [[]|e].
  2:{ exists o, t, no, (Err e). split; [done|]. destruct Hto as [[? _]|[_ Hto]]; [done|]. split; [right; split_and!; auto|]. intros _ Hs. by specialize (Hst Hs). }
  destruct Hto as [[_ Hto]|[? _]]; [|done]. pose proof (write_all_and_commit_spec no nonce Hfn) as H3'. destruct (write_all_and_commit no nonce) as [n r]. destruct H3' as [Hno Hsn].
  exists o, t, n, r. split; [done|]. split; [|auto]. destruct Hno as [[-> Hno]|[Hr Hno]]; [by left|right; split_and!; auto].
Qed.

(** The seal direction of a command, from the files to the outputs. *)
Lemma aead_seal_run m args files fill key out no to v (k : ExpandedKey (cipher_of v)) aad pt : aead_variant args = v → ready files (cipher_of v) key out → nonce_created files = Ok no → fresh no → tag_created files = Ok to → fresh to →
  aead_aad args files = Ok aad → bytes_ok aad → in_contents files = Ok pt → bytes_ok pt → fill_ok fill → expanded_key_new (cipher_of v) key = Some k → key_ok k →
  let nonce := (fill (replicate (KalynaVariant.block_len (aead_variant args)) 0)).1 in
  array_ok (block_bytes_of (cipher_of v)) nonce ∧
  ∃ o t n r, run_aead m false args files fill = Some ({| ciphertext_out := Some o; tag_out := Some t; nonce_out := Some n |}, r) ∧
    match (fill (replicate (KalynaVariant.block_len (aead_variant args)) 0)).2, seal_value m k nonce aad pt with
    | Ok _, Ok (ct, tag) => wrote ct tag nonce o t n r ∧ (sound out → sound to → sound no → r = Ok tt)
    | Ok _, Err e => r = Err e ∧ published o = None ∧ published t = None ∧ published n = None
    | Err e, _ => r = Err (CliError.Random (random_text (RandomError_new e))) ∧ published o = None ∧ published t = None ∧ published n = None
    end.
Proof.
  intros <- [Ek Hkey Ec Eo Hf] En Hfn Et Hft Eaad Ha Ei Hp Hfill He Hk nonce. pose proof (Hfill (KalynaVariant.block_len (aead_variant args))) as Hn. fold nonce in Hn. rewrite cipher_block_len in Hn. split; [exact Hn|].
  rewrite run_aead_eq. unfold run_aead_command. rewrite Ek, cipher_key_len, (read_exact_ok _ _ _ _ (proj1 Hkey)). cbn [or_fail]. unfold reserve_aead_outputs. rewrite Ec. cbn [result_bind]. rewrite Eo. cbn [result_bind]. rewrite En. cbn [result_bind]. rewrite Et. cbn [result_bind or_fail].
  unfold aead_nonce, randombytes_buf. subst nonce. destruct (fill (replicate (KalynaVariant.block_len (aead_variant args)) 0)) as [nonce fr]. cbn [fst snd] in *. pose proof (proj2 Hf). pose proof (proj2 Hfn). pose proof (proj2 Hft). destruct fr as [[]|e]; cbn [or_fail].
  2:{ exists out, to, no. by eexists. }
  rewrite Eaad. cbn [or_fail]. rewrite Ei. cbn [read_file or_fail]. rewrite (variant_seal k key Hkey He Hk nonce aad Hn Ha m _ args files pt Hp (iteration_count_pos _)). cbn [mbind option_bind].
  destruct (seal_value m k nonce aad pt) as [[ct tag]|e]; cbn [result_bind or_fail].
  - destruct (write_aead_outputs_spec out ct tag to nonce no Hf Hft Hfn) as (o & t & n & r & -> & Hw & Hs). by exists o, t, n, r.
  - exists out, to, no. by eexists.
Qed.

(** The open direction. *)
Lemma aead_open_run m args files fill key out v (k : ExpandedKey (cipher_of v)) nonce aad ct tag : aead_variant args = v → ready files (cipher_of v) key out → second_contents files = Ok nonce → array_ok (block_bytes_of (cipher_of v)) nonce →
  aead_aad args files = Ok aad → bytes_ok aad → in_contents files = Ok ct → bytes_ok ct → tag_contents files = Ok tag → expanded_key_new (cipher_of v) key = Some k → key_ok k →
  ∃ o r, run_aead m true args files fill = Some ({| ciphertext_out := Some o; tag_out := None; nonce_out := None |}, r) ∧
    match (if decide (length tag = tag_size m (cipher_of v)) then open_value m k nonce aad ct tag else Err (WrongLength LengthOf.Tag (tag_size m (cipher_of v)) (length tag))) with
    | Ok pt => publishes pt out o r
    | Err e => r = Err e ∧ published o = None
    end.
Proof.
  intros <- [Ek Hkey Ec Eo Hf] En Hn Eaad Ha Ei Hc Et He Hk. rewrite run_aead_eq. unfold run_aead_command. rewrite Ek, cipher_key_len, (read_exact_ok _ _ _ _ (proj1 Hkey)). cbn [or_fail]. unfold reserve_aead_outputs. rewrite Ec. cbn [result_bind]. rewrite Eo. cbn [result_bind or_fail].
  unfold aead_nonce. rewrite En, cipher_block_len, (read_exact_ok _ _ _ _ (proj1 Hn)). cbn [or_fail]. rewrite Eaad. cbn [or_fail]. rewrite Ei. cbn [read_file or_fail].
  rewrite (variant_open k key Hkey He Hk nonce aad Hn Ha m _ args files ct tag Hc (iteration_count_pos _) Et). cbn [mbind option_bind]. pose proof (proj2 Hf).
  case_decide as Hl; [|cbn [or_fail]; exists out; by eexists]. destruct (open_value m k nonce aad ct tag) as [pt|e]; cbn [result_bind or_fail]; [|exists out; by eexists].
  unfold write_aead_outputs. pose proof (write_all_and_commit_spec out pt Hf) as Hw. destruct (write_all_and_commit out pt) as [o r]. exists o, r. split; [by destruct r as [[]|]|done].
Qed.
End aead_commands.

(** ** The properties *)

Definition three_outputs (o t n : Output) : AeadOutputs := {| ciphertext_out := Some o; tag_out := Some t; nonce_out := Some n |}.
Definition one_output (o : Output) : AeadOutputs := {| ciphertext_out := Some o; tag_out := None; nonce_out := None |}.

(** C29. [kalyna-ccm encrypt] and [kalyna-gcm encrypt], then [decrypt].  An encryption succeeds when nothing fails around it and its input is in
    the limits of the mode; when it succeeds its three outputs hold the ciphertext, the tag and the nonce it drew, and every decryption
    given them under the same key and associated data puts out the plaintext; when it fails no nonce is put out, and without the
    nonce the other outputs, which may be there already, are of no use. *)
Theorem aead_commands_roundtrip `{Cpu} `{SubtleLaws} `{ZeroizeLaws} {GE : Type} (random_text : RandomError GE → string) (m : AeadMode) (args : AeadArgs) (files : HazmatFiles) (fill : fill_call GE)
    (key aad pt : list Z) (out no to : Output) :
  ready files (cipher_of (aead_variant args)) key out → nonce_created files = Ok no → fresh no → tag_created files = Ok to → fresh to →
  aead_aad args files = Ok aad → bytes_ok aad → in_contents files = Ok pt → bytes_ok pt → fill_ok fill →
  ∃ o t n r, run_aead random_text m false args files fill = Some (three_outputs o t n, r) ∧
    (sound out → sound to → sound no → (fill (replicate (KalynaVariant.block_len (aead_variant args)) 0)).2 = Ok tt → mode_error aad m pt = None → r = Ok tt) ∧
    (r ≠ Ok tt → published n = None) ∧
    (r = Ok tt → ∃ ct tag, published o = Some ct ∧ published t = Some tag ∧ published n = Some (fill (replicate (KalynaVariant.block_len (aead_variant args)) 0)).1 ∧
      ∀ args' files' fill' out', aead_variant args' = aead_variant args → ready files' (cipher_of (aead_variant args)) key out' → sound out' →
        second_contents files' = Ok (fill (replicate (KalynaVariant.block_len (aead_variant args)) 0)).1 → tag_contents files' = Ok tag → in_contents files' = Ok ct → aead_aad args' files' = Ok aad →
        ∃ o', run_aead random_text m true args' files' fill' = Some (one_output o', Ok tt) ∧ published o' = Some pt).
Proof.
  intros Hr En Hfn Et Hft Eaad Ha Ei Hp Hfill. destruct (ready_expanded _ _ _ _ Hr) as (k & He & Hk).
  destruct (aead_seal_run random_text m args files fill key out no to _ k aad pt eq_refl Hr En Hfn Et Hft Eaad Ha Ei Hp Hfill He Hk) as (Hn & o & t & n & r & E & Hres).
  exists o, t, n, r. split; [exact E|]. set (nonce := (fill _).1) in *. set (fr := (fill _).2) in *. destruct fr as [[]|e]; [|destruct Hres as (-> & _ & _ & Hpn); by split_and!].
  destruct (seal_value m k nonce aad pt) as [[ct tag]|e] eqn:Es.
  2:{ destruct Hres as (-> & _ & _ & Hpn). split_and!; try done. intros _ _ _ _ Hme. rewrite (seal_value_spec k Hk nonce aad Hn Ha m pt Hp), Hme in Es. done. }
  destruct Hres as [Hw Hs]. split; [auto|]. split; [by intros Hne; destruct Hw as [[? _]|(_ & ? & _)]|]. intros ->. destruct Hw as [(_ & Ho & Hto & Hno)|[? _]]; [|done].
  exists ct, tag. split_and!; try done. intros args' files' fill' out' Ev Hr' Hso En' Et' Ei' Eaad'.
  destruct (seal_value_ok k Hk nonce aad Hn Ha m pt ct tag Hp Es) as ([_ Hc] & Hl & Eop).
  destruct (aead_open_run random_text m args' files' fill' key out' _ k nonce aad ct tag Ev Hr' En' Hn Eaad' Ha Ei' Hc Et' He Hk) as (o' & r' & E' & Hres').
  rewrite decide_True, Eop in Hres' by done. destruct Hres' as [Hpub Hok]. specialize (Hok Hso) as ->. exists o'. split; [exact E'|]. by destruct Hpub as [[_ ?]|[? _]].
Qed.

(** C30. [kalyna-ccm decrypt] and [kalyna-gcm decrypt] on any files: what they put out is exactly the plaintext whose encryption gives this
    ciphertext and tag; when there is none they fail with the error of the tag's length, of the input's, or of the verification, and put out
    nothing. *)
Theorem aead_decrypt_exact `{Cpu} `{SubtleLaws} `{ZeroizeLaws} {GE : Type} (random_text : RandomError GE → string) (m : AeadMode) (args : AeadArgs) (files : HazmatFiles) (fill : fill_call GE)
    (key nonce aad ct tag : list Z) (out : Output) :
  let v := cipher_of (aead_variant args) in
  ready files v key out → second_contents files = Ok nonce → array_ok (block_bytes_of v) nonce → aead_aad args files = Ok aad → bytes_ok aad → in_contents files = Ok ct → bytes_ok ct → tag_contents files = Ok tag →
  ∃ k o r, expanded_key_new v key = Some k ∧ run_aead random_text m true args files fill = Some (one_output o, r) ∧
    (∀ pt, bytes_ok pt → seal_value m k nonce aad pt = Ok (ct, tag) → publishes pt out o r) ∧
    ((∀ pt, bytes_ok pt → seal_value m k nonce aad pt ≠ Ok (ct, tag)) → published o = None ∧
      r = Err (if decide (length tag = tag_size m v) then default (match m with ModeCcm => CcmVerifyFailed | ModeGcm => GcmVerifyFailed end) (mode_error aad m ct)
               else WrongLength LengthOf.Tag (tag_size m v) (length tag))).
Proof.
  intros v Hr En Hn Eaad Ha Ei Hc Et. destruct (ready_expanded _ _ _ _ Hr) as (k & He & Hk). exists k.
  destruct (aead_open_run random_text m args files fill key out _ k nonce aad ct tag eq_refl Hr En Hn Eaad Ha Ei Hc Et He Hk) as (o & r & E & Hres). fold v in Hres. exists o, r. split; [exact He|]. split; [exact E|]. split.
  - intros pt Hp Es. destruct (seal_value_ok k Hk nonce aad Hn Ha m pt ct tag Hp Es) as (_ & Hl & Eo). rewrite decide_True, Eo in Hres by done. done.
  - intros Hno. destruct (decide (length tag = tag_size m v)) as [Hl|Hl]; [|by destruct Hres].
    pose proof (open_value_exact k Hk nonce aad Hn Ha m ct tag Hc Hl) as Hx. rewrite (open_value_spec k Hk nonce aad Hn Ha m ct tag Hc Hl) in *. destruct (mode_error aad m ct) as [e|]; [by destruct Hres|].
    cbv zeta in *. case_decide; [|by destruct Hres]. destruct Hx as [Hp Es]. by destruct (Hno _ Hp).
Qed.

(** The commands without a tag, under one key: [kalyna-block] gives the block cipher for either schedule and any number of runs, and refuses
    other lengths; [kalyna-kw] and [kalyna-xts] undo themselves on every input they accept. *)
Theorem cipher_commands_roundtrip `{SubtleLaws} (v : KalynaVariant) (key input : list Z) : array_ok (key_bytes_of (cipher_of v)) key → bytes_ok input →
  (∃ k, expanded_key_new (cipher_of v) key = Some k ∧ ∀ (decrypt : bool) args files out, block_variant args = v → ready files (cipher_of v) key out → in_contents files = Ok input →
    ends_with out (if decide (length input = block_bytes_of (cipher_of v)) then Ok (if decrypt then decrypt_block k input else encrypt_block k input)
                   else Err (WrongLength LengthOf.InputBlock (block_bytes_of (cipher_of v)) (length input))) (run_block_command decrypt args files)) ∧
  (∀ args files out wrapped, kw_variant args = v → ready files (cipher_of v) key out → in_contents files = Ok input →
    (∃ out1, run_kw_command false args files = Some (Some out1, Ok tt) ∧ published out1 = Some wrapped) →
    ∀ args' files' out', kw_variant args' = v → ready files' (cipher_of v) key out' → sound out' → in_contents files' = Ok wrapped →
      ∃ out2, run_kw_command true args' files' = Some (Some out2, Ok tt) ∧ published out2 = Some input) ∧
  (∀ tweak args files out ct, array_ok (block_bytes_of (cipher_of v)) tweak → xts_variant args = v → ready files (cipher_of v) key out → second_contents files = Ok tweak → in_contents files = Ok input →
    (∃ out1, run_xts_command false args files = Some (Some out1, Ok tt) ∧ published out1 = Some ct) →
    ∀ args' files' out', xts_variant args' = v → ready files' (cipher_of v) key out' → sound out' → second_contents files' = Ok tweak → in_contents files' = Ok ct →
      ∃ out2, run_xts_command true args' files' = Some (Some out2, Ok tt) ∧ published out2 = Some input).
Proof.
  intros Hkey Hb. destruct (cipher_expanded (cipher_of v) key Hkey) as (k & He & Hk). split; [|split].
  - exists k. split; [exact He|]. intros decrypt args files out Ev Hr Ei. pose proof (block_command_spec decrypt args files key out input v k Ev Hr Ei He) as Hs. unfold block_result in Hs.
    destruct (Nat.eqb_spec (length input) (block_bytes_of (cipher_of v))); case_decide; (done || exact Hs).
  - intros args files out wrapped Ev0 Hr Ei Hpub args' files' out' Ev Hr' Hso Ei'.
    destruct (kw_result_roundtrip k input wrapped Hk Hb) as [Hwb Eu]; [by apply (ends_published _ _ _ _ (kw_command_spec false args files key out input v k Ev0 Hr Ei Hb He Hk) Hpub)|].
    apply (ends_succeeds out'); [|done]. rewrite <- Eu. by apply (kw_command_spec true args' files' key out' wrapped v k).
  - intros tweak args files out ct Ht Ev0 Hr Et Ei Hpub args' files' out' Ev Hr' Hso Et' Ei'. pose proof (xts_new k key He) as En.
    pose proof (ends_published _ _ _ _ (xts_command_spec false args files key tweak out input v _ Ev0 Hr Et (proj1 Ht) Ei En) Hpub) as Ew.
    apply (ends_succeeds out'); [|done]. rewrite <- (xts_result_roundtrip _ key tweak input ct Hkey En Ht Hb Ew). by apply (xts_command_spec true args' files' key tweak out' ct v _ Ev Hr' Et' (proj1 Ht)).
Qed.

(** [kalyna-gmac compute] puts out the MAC, and [verify] accepts exactly its prefixes of 8 bytes and more: the length of the tag file is not checked
    against the block, unlike that of [kalyna-gcm]. *)
Theorem gmac_commands_exact `{Cpu} `{SubtleLaws} (args : GmacArgs) (files : HazmatFiles) (key message : list Z) (out : Output) (p q : path) :
  let v := cipher_of (gmac_variant args) in
  ready files v key out → gmac_out_path args = Some p → gmac_tag_path args = Some q → in_contents files = Ok message → bytes_ok message → message ≠ [] → 8 * length message < 2 ^ 64 →
  ∃ k, expanded_key_new v key = Some k ∧ ends_with out (Ok (gmac_spec k message)) (run_gmac_command false args files) ∧
    ∀ tag, tag_contents files = Ok tag →
      run_gmac_command true args files = Some (None, if decide (8 ≤ length tag ≤ block_bytes_of v ∧ tag = take (length tag) (gmac_spec k message))%nat then Ok tt else Err GmacVerifyFailed).
Proof.
  intros v Hr Ep Eq Ei Hb Hne Hl. subst v. destruct (ready_expanded _ _ _ _ Hr) as (k & He & Hk). exists k. split; [exact He|].
  assert (gmac_result k message = Ok (gmac_spec k message)) as Eg by (unfold gmac_result; by rewrite decide_False, decide_True). split.
  - rewrite <- Eg. by apply (gmac_compute_spec args files key out message k p).
  - intros tag Et. rewrite (gmac_verify_spec args files key message tag k q (ready_key _ _ _ _ Hr) (ready_key_ok _ _ _ _ Hr) Eq Ei Hb Et He Hk). do 2 f_equal. unfold gmac_accepts. rewrite Eg. cbn [result_bind].
    repeat case_decide; (done || tauto).
Qed.

(** [kupyna-digest], read from disk or repeated in memory: a digest that is put out is the hash of the whole file. *)
Theorem digest_command_exact (args : DigestArgs) (files : HazmatFiles) (out : Output) (file : Reader) :
  out_created files = Ok out → fresh out → in_opened files = Ok file → in_contents files = Ok (pending file) → bytes_ok (pending file) → length (pending file) < 2 ^ 64 →
  ∃ out' r, run_digest_command args files = Some (Some out', r) ∧ (r = Ok tt → published out' = Some (kupyna_digest (hash_of (digest_variant args)) (pending file))) ∧
    (r ≠ Ok tt → published out' = None) ∧ (uninterrupted file → sound out → r = Ok tt).
Proof. apply digest_command_spec. Qed.

(** [strumok-crypt]: what is put out is the file under the keystream of key and initialisation vector - streamed, or repeated in memory with a
    schedule started afresh; the cached schedule of a benchmark goes on through the keystream.  Without [--iterations] the command takes
    back what it put out. *)
Theorem strumok_command_exact (args : StrumokArgs) (files : HazmatFiles) (key iv : list Z) (out : Output) (file : Reader) :
  let started (files : HazmatFiles) (out : Output) (file : Reader) : Prop :=
    key_contents files = Ok key ∧ second_contents files = Ok iv ∧ outputs_checked files = Ok tt ∧ out_created files = Ok out ∧ fresh out ∧ in_opened files = Ok file ∧ in_contents files = Ok (pending file) in
  length key = strumok_key_bytes (strumok_of (strumok_variant args)) → length iv = 32%nat → started files out file → bytes_ok (pending file) →
  ∃ out' r, run_strumok_command args files = Some (Some out', r) ∧ (r ≠ Ok tt → published out' = None) ∧ (uninterrupted file → sound out → r = Ok tt) ∧
    (r = Ok tt → published out' = Some (strumok_text args key iv (pending file)) ∧
      (strumok_iterations args ≤ 1 → ∀ files' out2 file', started files' out2 file' → published out' = Some (pending file') → uninterrupted file' → sound out2 →
        ∃ out3, run_strumok_command args files' = Some (Some out3, Ok tt) ∧ published out3 = Some (pending file))).
Proof.
  intros started Hk Hi (Ek & Ei & Ec & Eo & Hf & Eop & Ein) Hb.
  destruct (strumok_command_spec args files key iv out file Ek Hk Ei Hi Ec Eo Hf Eop Ein Hb) as (out' & r & E & H1 & H2 & H3). exists out', r. split; [exact E|]. split; [exact H2|]. split; [exact H3|].
  intros Er. specialize (H1 Er). split; [exact H1|]. intros Hn files' out2 file' (Ek' & Ei' & Ec' & Eo' & Hf' & Eop' & Ein') Hp Hu Hso. rewrite H1 in Hp. injection Hp as Hp.
  assert (∀ x, strumok_text args key iv x = xor_keystream (strumok_keystream (init_spec key iv)) 0 x) as Ht.
  { intros x. unfold strumok_text, iteration_count. destruct (Nat.leb_spec (Z.to_nat (Z.max (strumok_iterations args) 1)) 1); [done|lia]. }
  rewrite Ht in Hp. assert (bytes_ok (pending file')) as Hb' by (rewrite <- Hp; apply xor_keystream_ok; [done|apply strumok_keystream_ok]).
  destruct (strumok_command_spec args files' key iv out2 file' Ek' Hk Ei' Hi Ec' Eo' Hf' Eop' Ein' Hb') as (out3 & r3 & E3 & P1 & _ & P3). exists out3. rewrite (P3 Hu Hso) in *. split; [exact E3|].
  rewrite (P1 eq_refl), Ht, <- Hp. by rewrite xor_keystream_involutive.
Qed.

(** ** Examples *)

(** A key, a nonce or vector, and a text; [out] for every output. *)
Definition example_files (key second tag input : list Z) (out : Output) : HazmatFiles := {|
  key_contents := Ok key; second_contents := Ok second; aad_contents := Ok [9]; tag_contents := Ok tag; in_contents := Ok input;
  in_opened := Ok {| pending := input; schedule := [Give 1; Give 0] |}; outputs_checked := Ok tt; out_created := Ok out; nonce_created := Ok out; tag_created := Ok out
|}.
Definition example_output (faults : list (option string)) : Output := {| target := ToFile [0x74] [0x6F]; written := []; any := false; faults := faults; published := None |}.
Definition example_aead : AeadArgs := {| aead_variant := K128_128; aead_key_path := [0x6B]; aead_nonce_path := [0x6E]; aead_aad_path := Some [0x61]; aead_in_path := [0x69]; aead_out_path := [0x6F];
  aead_tag_path := [0x74]; aead_iterations := 2; aead_force := false |}.

Definition example_block : BlockArgs :=
  {| block_variant := K128_128; block_key_path := [0x6B]; block_in_path := [0x69]; block_out_path := [0x6F]; block_iterations := 3; block_raw_schedule := true; block_force := false |}.

Lemma example_ready v key second tag input faults : array_ok (key_bytes_of v) key → ready (example_files key second tag input (example_output faults)) v key (example_output faults).
Proof. intros Hk. by split. Qed.

(** When the tag cannot be written the ciphertext is there already. *)
Example partial_outputs :
  let '(outs, r) := write_aead_outputs (example_output []) [1; 2] (Some [3]) (Some (example_output [Some "disk full"%string])) [4] (Some (example_output [])) in
  r = Err (Io [0x74] "disk full") ∧ published <$> ciphertext_out outs = Some (Some [1; 2]) ∧ published <$> tag_out outs = Some None ∧ published <$> nonce_out outs = Some None.
Proof. by vm_compute. Qed.

Lemma aead_commands_roundtrip_witness : let _ := plain_subtle in let _ := {| feature_available := false |} in let _ := plain_zeroize in
  ∃ o t n r, run_aead (λ _ : RandomError unit, EmptyString) ModeGcm false example_aead (example_files (seqZ 0 16) [] [] [1; 2; 3] (example_output [])) (constant_fill 7) = Some (three_outputs o t n, r) ∧
    r = Ok tt ∧ published n = Some (replicate 16 7).
Proof.
  intros S U Z. assert (array_ok (key_bytes_of Kalyna128_128) (seqZ 0 16)) as Hk by by_decision. assert (byte_ok 7) as H7 by by_decision.
  destruct (@aead_commands_roundtrip U S plain_subtle_laws Z plain_zeroize_laws unit (λ _, EmptyString) ModeGcm example_aead (example_files (seqZ 0 16) [] [] [1; 2; 3] (example_output [])) (constant_fill 7)
    (seqZ 0 16) [9] [1; 2; 3] (example_output []) (example_output []) (example_output []) (example_ready Kalyna128_128 _ _ _ _ _ Hk) eq_refl (conj eq_refl eq_refl) eq_refl (conj eq_refl eq_refl) eq_refl
    ltac:(by_decision) eq_refl ltac:(by_decision) (constant_fill_ok 7 H7)) as (o & t & n & r & E & Hok & _ & Hpub).
  exists o, t, n, r. split; [exact E|]. assert (r = Ok tt) as Er by (apply Hok; [constructor|constructor|constructor|reflexivity|reflexivity]). split; [exact Er|].
  destruct (Hpub Er) as (ct & tag & _ & _ & Hn & _). exact Hn.
Defined.

Lemma aead_decrypt_exact_witness : let _ := plain_subtle in let _ := {| feature_available := false |} in let _ := plain_zeroize in
  ∃ k o r, expanded_key_new Kalyna128_128 (seqZ 0 16) = Some k ∧
    run_aead (λ _ : RandomError unit, EmptyString) ModeCcm true example_aead (example_files (seqZ 0 16) (seqZ 0 16) [1; 2] [1; 2; 3] (example_output [])) (constant_fill 7) = Some (one_output o, r) ∧
    ((∀ pt, bytes_ok pt → seal_value ModeCcm k (seqZ 0 16) [9] pt ≠ Ok ([1; 2; 3], [1; 2])) → published o = None ∧ r = Err (WrongLength LengthOf.Tag 16 2)).
Proof.
  intros S U Z. assert (array_ok (key_bytes_of Kalyna128_128) (seqZ 0 16)) as Hk by by_decision.
  destruct (@aead_decrypt_exact U S plain_subtle_laws Z plain_zeroize_laws unit (λ _, EmptyString) ModeCcm example_aead (example_files (seqZ 0 16) (seqZ 0 16) [1; 2] [1; 2; 3] (example_output [])) (constant_fill 7)
    (seqZ 0 16) (seqZ 0 16) [9] [1; 2; 3] [1; 2] (example_output []) (example_ready Kalyna128_128 _ _ _ _ _ Hk) eq_refl ltac:(by_decision) eq_refl ltac:(by_decision) eq_refl ltac:(by_decision) eq_refl)
    as (k & o & r & He & E & _ & Hno).
  exists k, o, r. exact (conj He (conj E Hno)).
Defined.

Lemma cipher_commands_roundtrip_witness : let _ := plain_subtle in
  ∃ k, expanded_key_new Kalyna128_128 (seqZ 0 16) = Some k ∧
    ends_with (example_output []) (Ok (decrypt_block k (seqZ 5 16)))
      (run_block_command true example_block (example_files (seqZ 0 16) [] [] (seqZ 5 16) (example_output []))).
Proof.
  intros S. assert (array_ok (key_bytes_of Kalyna128_128) (seqZ 0 16)) as Hk by by_decision.
  destruct (@cipher_commands_roundtrip S plain_subtle_laws K128_128 (seqZ 0 16) (seqZ 5 16) Hk ltac:(by_decision)) as ((k & He & Hb) & _). exists k. split; [exact He|].
  exact (Hb true example_block _ (example_output []) eq_refl (example_ready Kalyna128_128 _ _ _ _ _ Hk) eq_refl).
Defined.

Lemma gmac_commands_exact_witness : let _ := plain_subtle in let _ := {| feature_available := false |} in
  let args := {| gmac_variant := K128_128; gmac_key_path := [0x6B]; gmac_in_path := [0x69]; gmac_out_path := Some [0x6F]; gmac_tag_path := Some [0x74]; gmac_iterations := 1; gmac_force := false |} in
  ∃ k, expanded_key_new Kalyna128_128 (seqZ 0 16) = Some k ∧
    ends_with (example_output []) (Ok (gmac_spec k [1; 2])) (run_gmac_command false args (example_files (seqZ 0 16) [] [5] [1; 2] (example_output []))) ∧
    run_gmac_command true args (example_files (seqZ 0 16) [] [5] [1; 2] (example_output [])) = Some (None, Err GmacVerifyFailed).
Proof.
  intros S U args. assert (array_ok (key_bytes_of Kalyna128_128) (seqZ 0 16)) as Hk by by_decision. assert ([1; 2] ≠ []) as Hne by discriminate.
  destruct (@gmac_commands_exact U S plain_subtle_laws args (example_files (seqZ 0 16) [] [5] [1; 2] (example_output [])) (seqZ 0 16) [1; 2] (example_output []) [0x6F] [0x74]
    (example_ready Kalyna128_128 _ _ _ _ _ Hk) eq_refl eq_refl eq_refl ltac:(by_decision) Hne ltac:(by_decision)) as (k & He & Hc & Hv).
  exists k. split; [exact He|]. split; [exact Hc|]. specialize (Hv [5] eq_refl). rewrite decide_False in Hv by (intros [[Hl _] _]; cbn in Hl; lia). exact Hv.
Defined.

Lemma digest_command_exact_witness : let args := {| digest_variant := B512; digest_in_path := [0x69]; digest_out_path := [0x6F]; digest_iterations := 1; digest_force := false |} in
  ∃ out' r, run_digest_command args (example_files [] [] [] [1; 2; 3] (example_output [])) = Some (Some out', r) ∧ r = Ok tt ∧ published out' = Some (kupyna_digest Kupyna512 [1; 2; 3]).
Proof.
  intros args. destruct (digest_command_exact args (example_files [] [] [] [1; 2; 3] (example_output [])) (example_output []) {| pending := [1; 2; 3]; schedule := [Give 1; Give 0] |}
    eq_refl (conj eq_refl eq_refl) eq_refl eq_refl ltac:(by_decision) ltac:(by_decision)) as (out' & r & E & Hp & _ & Hok).
  exists out', r. split; [exact E|]. assert (r = Ok tt) as Er by (apply Hok; [repeat constructor|constructor]). exact (conj Er (Hp Er)).
Defined.

Lemma strumok_command_exact_witness :
  let args := {| strumok_variant := B256; strumok_key_path := [0x6B]; strumok_iv_path := [0x76]; strumok_in_path := [0x69]; strumok_out_path := [0x6F]; strumok_iterations := 1; strumok_raw_schedule := false;
                 strumok_force := false |} in
  ∃ out' r, run_strumok_command args (example_files (seqZ 0 32) (seqZ 9 32) [] [1; 2; 3] (example_output [])) = Some (Some out', r) ∧ r = Ok tt ∧
    published out' = Some (strumok_text args (seqZ 0 32) (seqZ 9 32) [1; 2; 3]).
Proof.
  intros args. destruct (strumok_command_exact args (example_files (seqZ 0 32) (seqZ 9 32) [] [1; 2; 3] (example_output [])) (seqZ 0 32) (seqZ 9 32) (example_output []) {| pending := [1; 2; 3]; schedule := [Give 1; Give 0] |}
    eq_refl eq_refl ltac:(repeat split) ltac:(by_decision)) as (out' & r & E & _ & Hok & Hp).
  exists out', r. split; [exact E|]. assert (r = Ok tt) as Er by (apply Hok; [repeat constructor|constructor]). split; [exact Er|]. exact (proj1 (Hp Er)).
Defined.
