(* ===== verification/Dispatch.v ===== *)
(** The dispatch of the command-line tool ([run] of [uacrypt/src/lib.rs], with the entries of [completions.rs] and [manpage.rs]): which command a
    command line names, with which arguments, or which error it is.  A command is a value of [Action], to be run by the definitions of the
    other files; the texts of the help pages, of the completion scripts and of the manual page are left out.  The lines that [run] prints
    on stderr before a command are part of its result. *)

From stdpp Require Import strings gmap.
From S2P Require Import Prelude Suggest Keyfile CliError CliArgs.
#[local] Open Scope Z_scope.
#[local] Open Scope uacrypt_scope.
#[local] Set Warnings "-clear-no-such-hyp".

(** ** The tables *)

Record Command : Type := { cmd_name : string; subcommands : list string; cmd_flags : Flags.Flags }.

Definition command (name : string) (flags : Flags.Flags) : Command := {| cmd_name := name; subcommands := []; cmd_flags := flags |}.
Definition with_subcommands (subs : list string) (c : Command) : Command := {| cmd_name := cmd_name c; subcommands := subs; cmd_flags := cmd_flags c |}.

#[local] Open Scope string_scope.

Definition SHELLS : list string := ["bash"; "zsh"; "fish"; "powershell"].
Definition ENCRYPT_DECRYPT : list string := ["encrypt"; "decrypt"].

Definition HAZMAT_NAMES : list string :=
  ["kalyna-block"; "kalyna-ccm"; "kalyna-gcm"; "kalyna-gmac"; "kalyna-kw"; "kalyna-xts"; "kupyna-digest"; "strumok-crypt"].

Definition COMMANDS : list Command := [
  command "keygen" OUT_ONLY_FLAGS;
  command "encrypt" ENCRYPT_FLAGS;
  command "decrypt" DECRYPT_FLAGS;
  command "hash" HASH_FLAGS;
  command "sign-keygen" OUT_ONLY_FLAGS;
  command "sign-pubkey" PUBKEY_FLAGS;
  command "sign" SIGN_FLAGS;
  command "verify" VERIFY_FLAGS;
  command "sign-keygen257" OUT_ONLY_FLAGS;
  command "box-keygen" OUT_ONLY_FLAGS;
  command "box-pubkey" PUBKEY_FLAGS;
  command "box-seal" SIGN_FLAGS;
  command "box-open" SIGN_FLAGS;
  command "box-keygen384" OUT_ONLY_FLAGS;
  command "box-keygen512" OUT_ONLY_FLAGS;
  command "key-import" KEY_IMPORT_FLAGS;
  with_subcommands HAZMAT_NAMES (command "hazmat" NO_FLAGS);
  with_subcommands SHELLS (command "completions" NO_FLAGS);
  command "man" NO_FLAGS
].

Definition HAZMAT_COMMANDS : list Command := [
  with_subcommands ENCRYPT_DECRYPT (command "kalyna-block" BLOCK_FLAGS);
  with_subcommands ENCRYPT_DECRYPT (command "kalyna-ccm" KALYNA_AEAD_FLAGS);
  with_subcommands ENCRYPT_DECRYPT (command "kalyna-gcm" KALYNA_AEAD_FLAGS);
  with_subcommands ["compute"; "verify"] (command "kalyna-gmac" GMAC_FLAGS);
  with_subcommands ["wrap"; "unwrap"] (command "kalyna-kw" KW_FLAGS);
  with_subcommands ENCRYPT_DECRYPT (command "kalyna-xts" XTS_FLAGS);
  command "kupyna-digest" DIGEST_FLAGS;
  command "strumok-crypt" STRUMOK_FLAGS
].

Definition HAZMAT_MOVED : list string :=
  ["hazmat kalyna-block"; "hazmat kalyna-ccm"; "hazmat kalyna-gcm"; "hazmat kalyna-gmac"; "hazmat kalyna-kw"; "hazmat kalyna-xts"; "hazmat kupyna-digest";
   "hazmat strumok-crypt"].

Definition REMOVED_COMMANDS : list (string * string) :=
  [("sign-pubkey257", "sign-pubkey"); ("sign257", "sign"); ("box-pubkey512", "box-pubkey"); ("box-seal512", "box-seal"); ("box-open512", "box-open")].

(** ** What a command line asks for *)

Inductive Action : Type :=
| PrintHelp (command : string)  (* the help text of a command; of the tool for the empty name *)
| PrintVersion
| Keygen (out_path : path) | Encrypt (args : SecretstreamArgs) | Decrypt (args : SecretstreamArgs) | Hash (args : HashArgs)
| SignKeygen (out_path : path) | SignKeygen257 (out_path : path) | SignPubkey (args : PubkeyArgs) | Sign (args : SignArgs) | Verify (args : VerifyArgs)
| BoxKeygen (out_path : path) | BoxKeygen384 (out_path : path) | BoxKeygen512 (out_path : path) | BoxPubkey (args : PubkeyArgs) | BoxSeal (args : SignArgs)
| BoxOpen (args : SignArgs) | KeyImport (args : KeyImportArgs)
| Block (decrypt : bool) (args : BlockArgs) | Ccm (decrypt : bool) (args : AeadArgs) | Gcm (decrypt : bool) (args : AeadArgs)
| Gmac (verify : bool) (args : GmacArgs) | Kw (unwrap : bool) (args : KwArgs) | Xts (decrypt : bool) (args : XtsArgs)
| Digest (args : DigestArgs) | StrumokCrypt (args : StrumokArgs)
| PrintScript (shell : string) | PrintPage.

Definition is_help_flag (s : string) : bool := String.eqb s "--help" || String.eqb s "-h".
Definition is_version_flag (s : string) : bool := String.eqb s "--version" || String.eqb s "-V".

Definition find_command (command : string) (table : list Command) : option Command := List.find (λ c, String.eqb (cmd_name c) command) table.

(** Whose help text is printed. *)
Definition command_help (command : string) : option string := cmd_name <$> find_command command COMMANDS.
Definition print_command_help (command : string) : Action :=
  PrintHelp (match command_help command with
  | Some n => n
  | None => match find_command command HAZMAT_COMMANDS with Some c => cmd_name c | None => "" end
  end).

Fixpoint position (s : string) (l : list string) : option nat :=
  match l with
  | [] => None
  | x :: l => if String.eqb x s then Some O else S <$> position s l
  end.

Definition unknown_command (command : string) : CliError :=
  if String.eqb command "kalyna-cmac" then RemovedForgeableCmac
  else
    match List.find (λ n, String.eqb n command) HAZMAT_NAMES with
    | Some name => MovedToHazmat name
    | None =>
        match List.find (λ e, String.eqb (fst e) command) REMOVED_COMMANDS with
        | Some (_, replacement) => RemovedCommand command replacement
        | None =>
            let names := (map cmd_name COMMANDS ++ ["help"])%list in
            let moved := near ← suggest command HAZMAT_NAMES; i ← position near HAZMAT_NAMES; HAZMAT_MOVED !! i in
            UnknownCommand command (match suggest command names with Some s => Some s | None => moved end)
        end
    end.

Definition unknown_subcommand (cmd other : string) (choices : list string) : CliError := UnknownCommand (cmd ++ " " ++ other) (suggest other choices).

Definition hazmat_warning (name : string) : string :=
  let instead :=
    if String.eqb name "kupyna-digest" then "use 'hash' for file digests"
    else if String.eqb name "kalyna-gmac" then "use 'sign'/'verify' to authenticate files"
    else if String.eqb name "kalyna-kw" then "use 'encrypt' or 'box-seal' to protect keys and files"
    else "use 'encrypt' for files" in
  "uacrypt: warning: 'hazmat " ++ name ++ "' is a low-level primitive with no misuse protection - " ++ instead.

Definition asks_help (rest : list string) : bool := existsb is_help_flag rest.

(** [run(&parse(rest)?)]. *)
Definition parsed {T} (parse : list string → result T CliError) (run : T → Action) (rest : list string) : result Action CliError :=
  result_bind (parse rest) (λ a, Ok (run a)).

Definition dispatch_simple {T} (cmd : string) (rest : list string) (parse : list string → result T CliError) (run : T → Action) : result Action CliError :=
  if asks_help rest then Ok (print_command_help cmd) else parsed parse run rest.

Definition dispatch_sign_command (cmd : string) (rest : list string) : result Action CliError :=
  if asks_help rest then Ok (print_command_help cmd)
  else if String.eqb cmd "sign-keygen" then parsed parse_sign_keygen_args SignKeygen rest
  else if String.eqb cmd "sign-keygen257" then parsed parse_sign_keygen_args SignKeygen257 rest
  else if String.eqb cmd "sign-pubkey" then parsed parse_sign_pubkey_args SignPubkey rest
  else if String.eqb cmd "sign" then parsed parse_sign_args Sign rest
  else parsed parse_verify_args Verify rest.

Definition dispatch_box_command (cmd : string) (rest : list string) : result Action CliError :=
  if asks_help rest then Ok (print_command_help cmd)
  else if String.eqb cmd "box-keygen" then parsed parse_box_keygen_args BoxKeygen rest
  else if String.eqb cmd "box-keygen384" then parsed parse_box_keygen_args BoxKeygen384 rest
  else if String.eqb cmd "box-keygen512" then parsed parse_box_keygen_args BoxKeygen512 rest
  else if String.eqb cmd "box-pubkey" then parsed parse_box_pubkey_args BoxPubkey rest
  else if String.eqb cmd "box-seal" then parsed parse_box_seal_args BoxSeal rest
  else parsed parse_box_open_args BoxOpen rest.

(** The two-word commands: [first] and [second] select the direction. *)
Definition dispatch_direction {T} (cmd first second : string) (rest : list string) (parse : list string → result T CliError) (run : bool → T → Action) : result Action CliError :=
  match rest with
  | [] => Err (MissingSubcommand (first ++ "|" ++ second))
  | sub :: rest =>
      if String.eqb sub first then parsed parse (run false) rest
      else if String.eqb sub second then parsed parse (run true) rest
      else Err (unknown_subcommand cmd sub [first; second])
  end.

Definition dispatch_kalyna_mode (cmd : string) (rest : list string) : result Action CliError :=
  if asks_help rest then Ok (print_command_help cmd)
  else if String.eqb cmd "kalyna-gcm" then dispatch_direction "kalyna-gcm" "encrypt" "decrypt" rest parse_gcm_args Gcm
  else if String.eqb cmd "kalyna-gmac" then dispatch_direction "kalyna-gmac" "compute" "verify" rest parse_gmac_args Gmac
  else if String.eqb cmd "kalyna-kw" then dispatch_direction "kalyna-kw" "wrap" "unwrap" rest parse_kw_args Kw
  else dispatch_direction "kalyna-xts" "encrypt" "decrypt" rest parse_xts_args Xts.

Definition run_hazmat_command (args : list string) : list string * result Action CliError :=
  match args with
  | [] => ([], Ok (print_command_help "hazmat"))
  | cmd :: rest =>
      if is_help_flag cmd then ([], Ok (print_command_help "hazmat"))
      else
        let stderr := if existsb (String.eqb cmd) HAZMAT_NAMES && negb (asks_help rest) then [hazmat_warning cmd] else [] in
        (stderr,
          if String.eqb cmd "kalyna-block" then
            if asks_help rest then Ok (print_command_help "kalyna-block") else dispatch_direction "kalyna-block" "encrypt" "decrypt" rest parse_block_args Block
          else if String.eqb cmd "kalyna-ccm" then
            if asks_help rest then Ok (print_command_help "kalyna-ccm") else dispatch_direction "kalyna-ccm" "encrypt" "decrypt" rest parse_ccm_args Ccm
          else if existsb (String.eqb cmd) ["kalyna-gcm"; "kalyna-gmac"; "kalyna-kw"; "kalyna-xts"] then dispatch_kalyna_mode cmd rest
          else if String.eqb cmd "kupyna-digest" then dispatch_simple "kupyna-digest" rest parse_digest_args Digest
          else if String.eqb cmd "strumok-crypt" then dispatch_simple "strumok-crypt" rest parse_strumok_args StrumokCrypt
          else if String.eqb cmd "kalyna-cmac" then Err RemovedForgeableCmac
          else Err (unknown_subcommand "hazmat" cmd HAZMAT_NAMES))
  end.

Definition run_help_command (rest : list string) : result Action CliError :=
  match rest with
  | [] => Ok (print_command_help "")
  | [cmd] =>
      if is_help_flag cmd || String.eqb cmd "help" then Ok (print_command_help "")
      else match command_help cmd with Some n => Ok (PrintHelp n) | None => Err (unknown_command cmd) end
  | _ :: extra :: _ => Err (UnexpectedArgument extra)
  end.

(** [completions.rs]; [script] knows the [SHELLS]. *)
Definition run_completions_command (rest : list string) : result Action CliError :=
  if asks_help rest then Ok (print_command_help "completions")
  else
    match rest with
    | [] => Err (MissingSubcommand "bash|zsh|fish|powershell")
    | [shell] => if existsb (String.eqb shell) SHELLS then Ok (PrintScript shell) else Err (unknown_subcommand "completions" shell SHELLS)
    | _ :: extra :: _ => Err (UnexpectedArgument extra)
    end.

(** [manpage.rs]. *)
Definition run_man_command (rest : list string) : result Action CliError :=
  if asks_help rest then Ok (print_command_help "man")
  else match rest with [] => Ok PrintPage | extra :: _ => Err (UnexpectedArgument extra) end.

Definition run (args : list string) : list string * result Action CliError :=
  match args with
  | [] => ([], Ok (print_command_help ""))
  | cmd :: rest =>
      if is_help_flag cmd then ([], Ok (print_command_help ""))
      else if is_version_flag cmd then ([], Ok PrintVersion)
      else if String.eqb cmd "hazmat" then run_hazmat_command rest
      else ([],
        if String.eqb cmd "hash" then dispatch_simple "hash" rest parse_hash_args Hash
        else if String.eqb cmd "keygen" then dispatch_simple "keygen" rest parse_keygen_args Keygen
        else if String.eqb cmd "encrypt" then dispatch_simple "encrypt" rest parse_encrypt_args Encrypt
        else if String.eqb cmd "decrypt" then dispatch_simple "decrypt" rest parse_decrypt_args Decrypt
        else if existsb (String.eqb cmd) ["sign-keygen"; "sign-keygen257"; "sign-pubkey"; "sign"; "verify"] then dispatch_sign_command cmd rest
        else if String.eqb cmd "box-keygen384" then dispatch_box_command cmd rest
        else if existsb (String.eqb cmd) ["box-keygen"; "box-keygen512"; "box-pubkey"; "box-seal"; "box-open"] then dispatch_box_command cmd rest
        else if String.eqb cmd "key-import" then dispatch_simple "key-import" rest parse_key_import_args KeyImport
        else if String.eqb cmd "help" then run_help_command rest
        else if String.eqb cmd "completions" then run_completions_command rest
        else if String.eqb cmd "man" then run_man_command rest
        else Err (unknown_command cmd))
  end.

#[local] Close Scope string_scope.

(** ** Usage errors *)

(** All errors of a result are usage errors. *)
Definition usage {A} (r : result A CliError) : Prop := match r with Ok _ => True | Err e => exit_code e = USAGE end.

Lemma usage_bind {A B} (r : result A CliError) (f : A → result B CliError) : usage r → (∀ a, usage (f a)) → usage (result_bind r f).
Proof. destruct r; cbn; auto. Qed.

#[local] Ltac usage_step :=
  match goal with
  | |- usage (result_bind _ _) => apply usage_bind; [|intros ?]
  | |- usage (if ?b then _ else _) => destruct b
  | |- usage (match ?x with _ => _ end) => destruct x
  | |- usage (Ok _) => exact I
  | |- usage (Err _) => reflexivity
  end.
#[local] Ltac usage := repeat (usage_step || (progress cbv zeta) || (solve [eauto 2])).

Lemma usage_insert_flag s f : usage (insert_flag s f).
Proof. unfold insert_flag. usage. Qed.
Lemma usage_insert_value s f v : usage (insert_value s f v).
Proof. unfold insert_value. usage. Qed.

Lemma usage_scan_loop vs bs n : ∀ args self, (length args ≤ n)%nat → usage (scan_loop vs bs args self).
Proof.
  induction n as [|n IH]; intros [|token args] self Hl; cbn [scan_loop length] in *; try exact I; [lia|]. destruct (name_and_inline token) as [name inline].
  destruct (List.find _ bs) as [flag|].
  { destruct inline; [reflexivity|]. pose proof (usage_insert_flag self flag) as Hi. destruct (insert_flag self flag); [apply IH; lia|exact Hi]. }
  destruct (List.find _ vs) as [flag|]; [|by destruct (String.prefix "-" token)]. destruct inline as [v|].
  { pose proof (usage_insert_value self flag v) as Hi. destruct (insert_value self flag v); [apply IH; lia|exact Hi]. }
  match goal with |- usage (match insert_value self flag ?v with _ => _ end) => pose proof (usage_insert_value self flag v) as Hi; destruct (insert_value self flag v) end; [|exact Hi].
  destruct args; [exact I|]. cbn [length] in Hl. apply IH. lia.
Qed.

Lemma usage_scan f args : usage (scan_flags f args).
Proof. unfold scan_flags, scan. by eapply usage_scan_loop. Qed.

Lemma usage_path_opt s f : usage (path_opt s f).
Proof. unfold path_opt. usage. Qed.
#[local] Hint Resolve usage_scan usage_path_opt : core.
Lemma usage_get_path s f : usage (get_path s f).
Proof. unfold get_path. usage. Qed.
#[local] Hint Resolve usage_get_path : core.
Lemma usage_input s f : usage (input s f).
Proof. unfold input. usage. Qed.
Lemma usage_output s f : usage (output s f).
Proof. unfold output. usage. Qed.
#[local] Hint Resolve usage_input usage_output : core.
Lemma usage_secret_key_path s f : usage (secret_key_path s f).
Proof. unfold secret_key_path. usage. Qed.
Lemma usage_output_and_force s : usage (output_and_force s).
Proof. unfold output_and_force. usage. Qed.
Lemma usage_variant {T} s (parse : string → option T) : usage (variant s parse).
Proof. unfold variant. usage. Qed.
Lemma usage_iterations s : usage (iterations s).
Proof. unfold iterations. usage. Qed.
Lemma usage_key_kind s : usage (key_kind s).
Proof. unfold key_kind. usage. Qed.
#[local] Hint Resolve usage_secret_key_path usage_output_and_force usage_variant usage_iterations usage_key_kind : core.
Lemma usage_stream_args s c : usage (secretstream_args s c).
Proof. unfold secretstream_args. usage. Qed.
#[local] Hint Resolve usage_stream_args : core.

(** Every parser takes its words through the scanner of its table, and fails with usage errors only. *)
Definition parser_of {T} (f : Flags.Flags) (parse : list string → result T CliError) : Prop :=
  ∀ args, usage (parse args) ∧ ∀ a, parse args = Ok a → ∃ scanner, scan_flags f args = Ok scanner.

Lemma parser_bind {T} f (k : ArgScanner → result T CliError) : (∀ s, usage (k s)) → parser_of f (λ args, result_bind (scan_flags f args) k).
Proof.
  intros Hk args. split; [by apply usage_bind|]. intros a. destruct (scan_flags f args) as [s|e]; [by exists s|done].
Qed.

#[local] Ltac parser := apply parser_bind; intros ?; usage.

Lemma block_parser : parser_of BLOCK_FLAGS parse_block_args. Proof. parser. Qed.
Lemma ccm_parser : parser_of KALYNA_AEAD_FLAGS parse_ccm_args. Proof. parser. Qed.
Lemma gcm_parser : parser_of KALYNA_AEAD_FLAGS parse_gcm_args. Proof. exact ccm_parser. Qed.
Lemma gmac_parser : parser_of GMAC_FLAGS parse_gmac_args. Proof. parser. Qed.
Lemma kw_parser : parser_of KW_FLAGS parse_kw_args. Proof. parser. Qed.
Lemma xts_parser : parser_of XTS_FLAGS parse_xts_args. Proof. parser. Qed.
Lemma digest_parser : parser_of DIGEST_FLAGS parse_digest_args. Proof. parser. Qed.
Lemma strumok_parser : parser_of STRUMOK_FLAGS parse_strumok_args. Proof. parser. Qed.
Lemma encrypt_parser : parser_of ENCRYPT_FLAGS parse_encrypt_args. Proof. parser. Qed.
Lemma decrypt_parser : parser_of DECRYPT_FLAGS parse_decrypt_args. Proof. parser. Qed.
Lemma hash_parser : parser_of HASH_FLAGS parse_hash_args. Proof. parser. Qed.
Lemma keygen_parser : parser_of OUT_ONLY_FLAGS parse_keygen_args. Proof. parser. Qed.
Lemma sign_keygen_parser : parser_of OUT_ONLY_FLAGS parse_sign_keygen_args. Proof. parser. Qed.
Lemma box_keygen_parser : parser_of OUT_ONLY_FLAGS parse_box_keygen_args. Proof. parser. Qed.
Lemma sign_pubkey_parser : parser_of PUBKEY_FLAGS parse_sign_pubkey_args. Proof. parser. Qed.
Lemma box_pubkey_parser : parser_of PUBKEY_FLAGS parse_box_pubkey_args. Proof. parser. Qed.
Lemma key_import_parser : parser_of KEY_IMPORT_FLAGS parse_key_import_args. Proof. parser. Qed.
Lemma sign_parser : parser_of SIGN_FLAGS parse_sign_args. Proof. parser. Qed.
Lemma box_seal_parser : parser_of SIGN_FLAGS parse_box_seal_args. Proof. exact sign_parser. Qed.
Lemma box_open_parser : parser_of SIGN_FLAGS parse_box_open_args. Proof. exact sign_parser. Qed.
Lemma verify_parser : parser_of VERIFY_FLAGS parse_verify_args. Proof. parser. Qed.

(** ** What a command line does *)

(** Texts that are printed about the tool itself. *)
Definition harmless (a : Action) : bool := match a with PrintHelp _ | PrintVersion => true | _ => false end.

(** The words after the name of a command: those its flags take, behind one of its subcommands if it has some; [completions] is
    only its subcommand. *)
Definition words_of (c : Command) (rest : list string) : Prop :=
  match subcommands c with
  | [] => ∃ s, scan_flags (cmd_flags c) rest = Ok s
  | _ => ∃ sub words s, sub ∈ subcommands c ∧ rest = sub :: words ∧ scan_flags (cmd_flags c) words = Ok s
  end.

(** A command of the tables, with its words and the warning it prints. *)
Definition names_command (args stderr : list string) : Prop :=
  (∃ c rest, c ∈ COMMANDS ∧ args = cmd_name c :: rest ∧ stderr = [] ∧ words_of c rest) ∨
  (∃ c rest, c ∈ HAZMAT_COMMANDS ∧ args = "hazmat"%string :: cmd_name c :: rest ∧ stderr = [hazmat_warning (cmd_name c)] ∧ words_of c rest).

#[local] Open Scope string_scope.

(** What every command means: the words that name it, and what the words behind them ask for. *)
Definition meanings : list (list string * (list string → result Action CliError)) := [
  (["keygen"], parsed parse_keygen_args Keygen);
  (["encrypt"], parsed parse_encrypt_args Encrypt);
  (["decrypt"], parsed parse_decrypt_args Decrypt);
  (["hash"], parsed parse_hash_args Hash);
  (["sign-keygen"], parsed parse_sign_keygen_args SignKeygen);
  (["sign-keygen257"], parsed parse_sign_keygen_args SignKeygen257);
  (["sign-pubkey"], parsed parse_sign_pubkey_args SignPubkey);
  (["sign"], parsed parse_sign_args Sign);
  (["verify"], parsed parse_verify_args Verify);
  (["box-keygen"], parsed parse_box_keygen_args BoxKeygen);
  (["box-keygen384"], parsed parse_box_keygen_args BoxKeygen384);
  (["box-keygen512"], parsed parse_box_keygen_args BoxKeygen512);
  (["box-pubkey"], parsed parse_box_pubkey_args BoxPubkey);
  (["box-seal"], parsed parse_box_seal_args BoxSeal);
  (["box-open"], parsed parse_box_open_args BoxOpen);
  (["key-import"], parsed parse_key_import_args KeyImport);
  (["man"], λ rest, match rest with [] => Ok PrintPage | extra :: _ => Err (UnexpectedArgument extra) end);
  (["completions"; "bash"], λ rest, match rest with [] => Ok (PrintScript "bash") | extra :: _ => Err (UnexpectedArgument extra) end);
  (["completions"; "zsh"], λ rest, match rest with [] => Ok (PrintScript "zsh") | extra :: _ => Err (UnexpectedArgument extra) end);
  (["completions"; "fish"], λ rest, match rest with [] => Ok (PrintScript "fish") | extra :: _ => Err (UnexpectedArgument extra) end);
  (["completions"; "powershell"], λ rest, match rest with [] => Ok (PrintScript "powershell") | extra :: _ => Err (UnexpectedArgument extra) end);
  (["hazmat"; "kalyna-block"; "encrypt"], parsed parse_block_args (Block false));
  (["hazmat"; "kalyna-block"; "decrypt"], parsed parse_block_args (Block true));
  (["hazmat"; "kalyna-ccm"; "encrypt"], parsed parse_ccm_args (Ccm false));
  (["hazmat"; "kalyna-ccm"; "decrypt"], parsed parse_ccm_args (Ccm true));
  (["hazmat"; "kalyna-gcm"; "encrypt"], parsed parse_gcm_args (Gcm false));
  (["hazmat"; "kalyna-gcm"; "decrypt"], parsed parse_gcm_args (Gcm true));
  (["hazmat"; "kalyna-gmac"; "compute"], parsed parse_gmac_args (Gmac false));
  (["hazmat"; "kalyna-gmac"; "verify"], parsed parse_gmac_args (Gmac true));
  (["hazmat"; "kalyna-kw"; "wrap"], parsed parse_kw_args (Kw false));
  (["hazmat"; "kalyna-kw"; "unwrap"], parsed parse_kw_args (Kw true));
  (["hazmat"; "kalyna-xts"; "encrypt"], parsed parse_xts_args (Xts false));
  (["hazmat"; "kalyna-xts"; "decrypt"], parsed parse_xts_args (Xts true));
  (["hazmat"; "kupyna-digest"], parsed parse_digest_args Digest);
  (["hazmat"; "strumok-crypt"], parsed parse_strumok_args StrumokCrypt)
].

(** The command whose help the words lead to, and the warning they print. *)
Definition named (words : list string) : string :=
  match words with
  | [] => ""
  | [c] => c
  | first :: c :: _ => if String.eqb first "hazmat" then c else first
  end.
Definition warning (words : list string) : list string :=
  match words with
  | first :: c :: _ => if String.eqb first "hazmat" then [hazmat_warning c] else []
  | _ => []
  end.

#[local] Close Scope string_scope.

(** The action is what a command of the table asks for. *)
Definition means (args : list string) (a : Action) : Prop :=
  ∃ words ask rest, (words, ask) ∈ meanings ∧ args = (words ++ rest)%list ∧ ask rest = Ok a.

Definition well_dispatched (args : list string) (out : list string * result Action CliError) : Prop :=
  usage out.2 ∧ ∀ a, out.2 = Ok a → harmless a = true ∨ asks_help args = false ∧ names_command args out.1 ∧ means args a.

Lemma dispatched_harmless args stderr a : harmless a = true → well_dispatched args (stderr, Ok a).
Proof. intros Ha. split; [exact I|]. intros a' [= <-]. by left. Qed.

Lemma dispatched_err args stderr e : exit_code e = USAGE → well_dispatched args (stderr, Err e).
Proof. by split. Qed.

Lemma parsed_spec {T} f (parse : list string → result T CliError) (run : T → Action) rest : parser_of f parse →
  usage (parsed parse run rest) ∧ ∀ a, parsed parse run rest = Ok a → ∃ s, scan_flags f rest = Ok s.
Proof.
  intros Hp. destruct (Hp rest) as [Hu Hs]. unfold parsed. split; [by apply usage_bind|]. intros a. destruct (parse rest) as [x|e] eqn:E; [|done]. intros _. by eapply Hs.
Qed.

(** A command without subcommands. *)
Lemma dispatched_simple {T} c (parse : list string → result T CliError) (run : T → Action) h rest : c ∈ COMMANDS → ([cmd_name c], parsed parse run) ∈ meanings → subcommands c = [] → parser_of (cmd_flags c) parse → is_help_flag (cmd_name c) = false →
  well_dispatched (cmd_name c :: rest) ([], if asks_help rest then Ok (PrintHelp h) else parsed parse run rest).
Proof.
  intros Hc Hm Hs Hp Hh. destruct (asks_help rest) eqn:Ea; [by apply dispatched_harmless|]. destruct (parsed_spec _ _ run rest Hp) as [Hu Hsc]. split; [exact Hu|].
  intros a E. right. split; [unfold asks_help; cbn [existsb]; by rewrite Hh|]. split; [|by eexists _, _, rest]. left. exists c, rest. split_and!; try done. unfold words_of. rewrite Hs. by eapply Hsc.
Qed.

Definition hazmat_stderr (name : string) (rest : list string) : list string := if negb (asks_help rest) then [hazmat_warning name] else [].

(** The same for a low-level command. *)
Lemma dispatched_hazmat {T} c (parse : list string → result T CliError) (run : T → Action) h rest : c ∈ HAZMAT_COMMANDS → (["hazmat"%string; cmd_name c], parsed parse run) ∈ meanings → subcommands c = [] → parser_of (cmd_flags c) parse → is_help_flag (cmd_name c) = false →
  well_dispatched ("hazmat"%string :: cmd_name c :: rest) (hazmat_stderr (cmd_name c) rest, if asks_help rest then Ok (PrintHelp h) else parsed parse run rest).
Proof.
  intros Hc Hm Hs Hp Hh. unfold hazmat_stderr. destruct (asks_help rest) eqn:Ea; [by apply dispatched_harmless|]. destruct (parsed_spec _ _ run rest Hp) as [Hu Hsc]. split; [exact Hu|].
  intros a E. right. split; [unfold asks_help in *; cbn [existsb] in *; by rewrite Hh|]. split; [|by eexists _, _, rest]. right. exists c, rest. split_and!; try done. unfold words_of. rewrite Hs. by eapply Hsc.
Qed.

(** And for one with two directions. *)
Lemma dispatched_direction {T} c first second (parse : list string → result T CliError) (run : bool → T → Action) h rest : c ∈ HAZMAT_COMMANDS →
  (["hazmat"%string; cmd_name c; first], parsed parse (run false)) ∈ meanings → (["hazmat"%string; cmd_name c; second], parsed parse (run true)) ∈ meanings →
  subcommands c = [first; second] → parser_of (cmd_flags c) parse → is_help_flag (cmd_name c) = false →
  well_dispatched ("hazmat"%string :: cmd_name c :: rest) (hazmat_stderr (cmd_name c) rest, if asks_help rest then Ok (PrintHelp h) else dispatch_direction (cmd_name c) first second rest parse run).
Proof.
  intros Hc Hm1 Hm2 Hs Hp Hh. unfold hazmat_stderr. destruct (asks_help rest) eqn:Ea; [by apply dispatched_harmless|]. unfold dispatch_direction. destruct rest as [|sub words]; [by apply dispatched_err|].
  assert (∀ b, sub ∈ [first; second] → (["hazmat"%string; cmd_name c; sub], parsed parse (run b)) ∈ meanings → well_dispatched ("hazmat"%string :: cmd_name c :: sub :: words) (if negb false then [hazmat_warning (cmd_name c)] else [], parsed parse (run b) words)) as Hdir.
  { intros b Hsub Hm. destruct (parsed_spec _ _ (run b) words Hp) as [Hu Hsc]. split; [exact Hu|]. intros a E. right. split; [unfold asks_help in *; cbn [existsb] in *; by rewrite Hh|].
    split; [|by eexists _, _, words]. right. exists c, (sub :: words). split_and!; try done.
    unfold words_of. rewrite Hs. destruct (Hsc a E) as [s Es]. by exists sub, words, s. }
  destruct (String.eqb_spec sub first) as [->|_]; [apply Hdir; [apply list_elem_of_here|done]|]. destruct (String.eqb_spec sub second) as [->|_]; [apply Hdir; [apply list_elem_of_further, list_elem_of_here|done]|]. by apply dispatched_err.
Qed.

#[local] Ltac in_table := unfold COMMANDS, HAZMAT_COMMANDS, meanings; repeat first [by apply list_elem_of_here | apply list_elem_of_further].

Lemma dispatched_completions rest : well_dispatched ("completions"%string :: rest) ([], run_completions_command rest).
Proof.
  unfold run_completions_command. destruct (asks_help rest) eqn:Ea; [by apply dispatched_harmless|]. destruct rest as [|shell [|]]; [by apply dispatched_err| |by apply dispatched_err].
  destruct (existsb _ SHELLS) eqn:Es; [|by apply dispatched_err]. apply existsb_exists in Es as (x & Hx & Ex). apply String.eqb_eq in Ex as ->.
  split; [exact I|]. intros a Eok. right. split; [exact Ea|]. split.
  - left. exists (with_subcommands SHELLS (command "completions" NO_FLAGS)), [x]. split_and!; [in_table|done|done|].
    exists x, []. eexists. split_and!; [by apply list_elem_of_In|done|done].
  - injection Eok as <-. destruct Hx as [<-|[<-|[<-|[<-|[]]]]]; match goal with |- means [?c; ?x] _ => eexists [c; x], _, []; (split; [in_table|done]) end.
Qed.

Lemma dispatched_man rest : well_dispatched ("man"%string :: rest) ([], run_man_command rest).
Proof.
  unfold run_man_command. destruct (asks_help rest) eqn:Ea; [by apply dispatched_harmless|]. destruct rest as [|x rest]; [|by apply dispatched_err]. split; [exact I|]. intros a [= <-]. right. split; [done|].
  split; [|eexists ["man"%string], _, []; split; [in_table|done]]. left. exists (command "man" NO_FLAGS), []. split_and!; [in_table|done|done|]. by eexists.
Qed.

Lemma unknown_command_usage cmd : exit_code (unknown_command cmd) = USAGE.
Proof. unfold unknown_command. destruct (String.eqb cmd _); [done|]. destruct (List.find _ HAZMAT_NAMES); [done|]. by destruct (List.find _ REMOVED_COMMANDS) as [[]|]. Qed.

Lemma dispatched_help rest : well_dispatched ("help"%string :: rest) ([], run_help_command rest).
Proof.
  unfold run_help_command. destruct rest as [|cmd [|]]; [by apply dispatched_harmless| |by apply dispatched_err]. destruct (is_help_flag cmd || _); [by apply dispatched_harmless|].
  destruct (command_help cmd); [by apply dispatched_harmless|]. apply dispatched_err, unknown_command_usage.
Qed.

Lemma existsb_names cmd names : existsb (String.eqb cmd) names = true → In cmd names.
Proof. intros (x & Hx & ->%String.eqb_eq)%existsb_exists. done. Qed.

Lemma dispatched_hazmat_words rest : well_dispatched ("hazmat"%string :: rest) (run_hazmat_command rest).
Proof.
  unfold run_hazmat_command. destruct rest as [|cmd rest]; [by apply dispatched_harmless|]. destruct (is_help_flag cmd) eqn:Eh; [by apply dispatched_harmless|].
  destruct (String.eqb_spec cmd "kalyna-block") as [->|_].
  { apply (dispatched_direction (with_subcommands ENCRYPT_DECRYPT (command "kalyna-block" BLOCK_FLAGS))); [in_table|in_table|in_table|done|apply block_parser|done]. }
  destruct (String.eqb_spec cmd "kalyna-ccm") as [->|_].
  { apply (dispatched_direction (with_subcommands ENCRYPT_DECRYPT (command "kalyna-ccm" KALYNA_AEAD_FLAGS))); [in_table|in_table|in_table|done|apply ccm_parser|done]. }
  destruct (existsb (String.eqb cmd) ["kalyna-gcm"; "kalyna-gmac"; "kalyna-kw"; "kalyna-xts"]%string) eqn:Em.
  { apply existsb_names in Em. destruct Em as [<-|[<-|[<-|[<-|[]]]]].
    - apply (dispatched_direction (with_subcommands ENCRYPT_DECRYPT (command "kalyna-gcm" KALYNA_AEAD_FLAGS)) "encrypt" "decrypt" parse_gcm_args Gcm "kalyna-gcm"); [in_table|in_table|in_table|done|apply gcm_parser|done].
    - apply (dispatched_direction (with_subcommands ["compute"; "verify"]%string (command "kalyna-gmac" GMAC_FLAGS)) "compute" "verify" parse_gmac_args Gmac "kalyna-gmac"); [in_table|in_table|in_table|done|apply gmac_parser|done].
    - apply (dispatched_direction (with_subcommands ["wrap"; "unwrap"]%string (command "kalyna-kw" KW_FLAGS)) "wrap" "unwrap" parse_kw_args Kw "kalyna-kw"); [in_table|in_table|in_table|done|apply kw_parser|done].
    - apply (dispatched_direction (with_subcommands ENCRYPT_DECRYPT (command "kalyna-xts" XTS_FLAGS)) "encrypt" "decrypt" parse_xts_args Xts "kalyna-xts"); [in_table|in_table|in_table|done|apply xts_parser|done]. }
  destruct (String.eqb_spec cmd "kupyna-digest") as [->|_].
  { apply (dispatched_hazmat (command "kupyna-digest" DIGEST_FLAGS)); [in_table|in_table|done|apply digest_parser|done]. }
  destruct (String.eqb_spec cmd "strumok-crypt") as [->|_].
  { apply (dispatched_hazmat (command "strumok-crypt" STRUMOK_FLAGS)); [in_table|in_table|done|apply strumok_parser|done]. }
  destruct (String.eqb cmd "kalyna-cmac"); by apply dispatched_err.
Qed.

Lemma run_well_dispatched args : well_dispatched args (run args).
Proof.
  unfold run. destruct args as [|cmd rest]; [by apply dispatched_harmless|]. destruct (is_help_flag cmd) eqn:Eh; [by apply dispatched_harmless|]. destruct (is_version_flag cmd); [by apply dispatched_harmless|].
  destruct (String.eqb_spec cmd "hazmat") as [->|_]; [apply dispatched_hazmat_words|].
  destruct (String.eqb_spec cmd "hash") as [->|_]; [apply (dispatched_simple (command "hash" HASH_FLAGS)); [in_table|in_table|done|apply hash_parser|done]|].
  destruct (String.eqb_spec cmd "keygen") as [->|_]; [apply (dispatched_simple (command "keygen" OUT_ONLY_FLAGS)); [in_table|in_table|done|apply keygen_parser|done]|].
  destruct (String.eqb_spec cmd "encrypt") as [->|_]; [apply (dispatched_simple (command "encrypt" ENCRYPT_FLAGS)); [in_table|in_table|done|apply encrypt_parser|done]|].
  destruct (String.eqb_spec cmd "decrypt") as [->|_]; [apply (dispatched_simple (command "decrypt" DECRYPT_FLAGS)); [in_table|in_table|done|apply decrypt_parser|done]|].
  destruct (existsb (String.eqb cmd) ["sign-keygen"; "sign-keygen257"; "sign-pubkey"; "sign"; "verify"]%string) eqn:Es.
  { apply existsb_names in Es. destruct Es as [<-|[<-|[<-|[<-|[<-|[]]]]]].
    - apply (dispatched_simple (command "sign-keygen" OUT_ONLY_FLAGS) parse_sign_keygen_args SignKeygen "sign-keygen"); [in_table|in_table|done|apply sign_keygen_parser|done].
    - apply (dispatched_simple (command "sign-keygen257" OUT_ONLY_FLAGS) parse_sign_keygen_args SignKeygen257 "sign-keygen257"); [in_table|in_table|done|apply sign_keygen_parser|done].
    - apply (dispatched_simple (command "sign-pubkey" PUBKEY_FLAGS) parse_sign_pubkey_args SignPubkey "sign-pubkey"); [in_table|in_table|done|apply sign_pubkey_parser|done].
    - apply (dispatched_simple (command "sign" SIGN_FLAGS) parse_sign_args Sign "sign"); [in_table|in_table|done|apply sign_parser|done].
    - apply (dispatched_simple (command "verify" VERIFY_FLAGS) parse_verify_args Verify "verify"); [in_table|in_table|done|apply verify_parser|done]. }
  destruct (String.eqb_spec cmd "box-keygen384") as [->|_].
  { apply (dispatched_simple (command "box-keygen384" OUT_ONLY_FLAGS) parse_box_keygen_args BoxKeygen384 "box-keygen384"); [in_table|in_table|done|apply box_keygen_parser|done]. }
  destruct (existsb (String.eqb cmd) ["box-keygen"; "box-keygen512"; "box-pubkey"; "box-seal"; "box-open"]%string) eqn:Eb.
  { apply existsb_names in Eb. destruct Eb as [<-|[<-|[<-|[<-|[<-|[]]]]]].
    - apply (dispatched_simple (command "box-keygen" OUT_ONLY_FLAGS) parse_box_keygen_args BoxKeygen "box-keygen"); [in_table|in_table|done|apply box_keygen_parser|done].
    - apply (dispatched_simple (command "box-keygen512" OUT_ONLY_FLAGS) parse_box_keygen_args BoxKeygen512 "box-keygen512"); [in_table|in_table|done|apply box_keygen_parser|done].
    - apply (dispatched_simple (command "box-pubkey" PUBKEY_FLAGS) parse_box_pubkey_args BoxPubkey "box-pubkey"); [in_table|in_table|done|apply box_pubkey_parser|done].
    - apply (dispatched_simple (command "box-seal" SIGN_FLAGS) parse_box_seal_args BoxSeal "box-seal"); [in_table|in_table|done|apply box_seal_parser|done].
    - apply (dispatched_simple (command "box-open" SIGN_FLAGS) parse_box_open_args BoxOpen "box-open"); [in_table|in_table|done|apply box_open_parser|done]. }
  destruct (String.eqb_spec cmd "key-import") as [->|_]; [apply (dispatched_simple (command "key-import" KEY_IMPORT_FLAGS)); [in_table|in_table|done|apply key_import_parser|done]|].
  destruct (String.eqb_spec cmd "help") as [->|_]; [apply dispatched_help|].
  destruct (String.eqb_spec cmd "completions") as [->|_]; [apply dispatched_completions|].
  destruct (String.eqb_spec cmd "man") as [->|_]; [apply dispatched_man|]. apply dispatched_err, unknown_command_usage.
Qed.

(** ** Unknown words *)

(** The words that [run] knows. *)
Definition known_words : list string := (["--help"; "-h"; "--version"; "-V"; "help"]%string ++ map cmd_name COMMANDS)%list.

Lemma run_unknown cmd rest : cmd ∉ known_words → run (cmd :: rest) = ([], Err (unknown_command cmd)).
Proof.
  intros Hn. assert (∀ n, n ∈ known_words → String.eqb cmd n = false) as He by (intros n Hin; apply String.eqb_neq; congruence).
  unfold run, is_help_flag, is_version_flag. cbn [existsb]. repeat rewrite He by (unfold known_words, COMMANDS; cbn [app map command with_subcommands cmd_name]; repeat first [by apply list_elem_of_here | apply list_elem_of_further]). done.
Qed.

(** A suggestion is one of the candidates. *)
Lemma suggest_in s candidates c : suggest s candidates = Some c → c ∈ candidates.
Proof. intros E. pose proof (suggest_spec s candidates) as H. rewrite E in H. destruct H as (pre & post & -> & _). set_solver. Qed.

(** What is suggested can be typed: its words, asked for help, print the help text of a command. *)
Definition leads_somewhere (s : string) : Prop := ∃ words n, s = String.concat " " words ∧ (run (words ++ ["--help"%string])%list).2 = Ok (PrintHelp n).

Lemma commands_lead n : n ∈ (map cmd_name COMMANDS ++ ["help"%string])%list → leads_somewhere n.
Proof. intros Hn. exists [n]. apply list_elem_of_In in Hn. cbn in Hn. repeat destruct Hn as [<-|Hn]; try done; eexists; (split; [reflexivity|vm_compute; reflexivity]). Qed.

Lemma moved_leads i s : HAZMAT_MOVED !! i = Some s → leads_somewhere s.
Proof.
  intros E. exists (["hazmat"; default ""%string (HAZMAT_NAMES !! i)])%string. do 8 (destruct i as [|i]; [injection E as <-; eexists; split; [reflexivity|vm_compute; reflexivity]|]). done.
Qed.

Lemma find_in {A} (f : A → bool) l x : List.find f l = Some x → x ∈ l.
Proof. intros E. apply list_elem_of_In. by eapply List.find_some. Qed.

Lemma unknown_command_spec cmd : match unknown_command cmd with
  | UnknownCommand shown s => shown = cmd ∧ match s with Some s => leads_somewhere s | None => True end
  | MovedToHazmat name => name = cmd ∧ name ∈ HAZMAT_NAMES
  | RemovedCommand old new => old = cmd ∧ leads_somewhere new
  | RemovedForgeableCmac => cmd = "kalyna-cmac"%string
  | _ => False
  end.
Proof.
  unfold unknown_command. destruct (String.eqb_spec cmd "kalyna-cmac") as [->|_]; [done|].
  destruct (List.find _ HAZMAT_NAMES) as [name|] eqn:E1; [pose proof (List.find_some _ _ E1) as [Hin ->%String.eqb_eq]; split; [done|by apply list_elem_of_In]|].
  destruct (List.find _ REMOVED_COMMANDS) as [[old new]|] eqn:E2.
  { split; [done|]. apply List.find_some in E2 as [Hin _]. apply commands_lead, list_elem_of_In. cbn in Hin |- *. repeat destruct Hin as [[= <- <-]|Hin]; tauto. }
  cbv zeta. split; [done|]. destruct (suggest cmd (map cmd_name COMMANDS ++ ["help"%string])%list) as [s|] eqn:Es; [by apply commands_lead, (suggest_in cmd)|].
  destruct (suggest cmd HAZMAT_NAMES) as [near|]; cbn [mbind option_bind]; [|done]. destruct (position near HAZMAT_NAMES) as [i|]; cbn [mbind option_bind]; [|done].
  destruct (HAZMAT_MOVED !! i) as [s|] eqn:Ei; [by eapply moved_leads|done].
Qed.

(** ** The properties *)

(** The words of a command, and then anything. *)
Lemma run_meaning words ask rest : (words, ask) ∈ meanings →
  run (words ++ rest)%list = if asks_help rest then ([], Ok (PrintHelp (named words))) else (warning words, ask rest).
Proof.
  intros Hin. apply list_elem_of_In in Hin. unfold meanings in Hin. cbn [In] in Hin.
  repeat (destruct Hin as [[= <- <-]|Hin]; [by (unfold run, run_hazmat_command, dispatch_simple, dispatch_sign_command, dispatch_box_command, dispatch_kalyna_mode, run_completions_command, run_man_command, asks_help;
    cbn; destruct (existsb is_help_flag rest); [|destruct rest])|]). done.
Qed.

(** C31. Every command line, whatever its words.  An error it ends in is a usage error, with exit status 2, and comes before any command runs;
    a command that runs is the one of the tables that the first words name, with the arguments that its parser reads from the other words,
    which the scanner took with exactly the flags the table gives it; and a command line with [--help] or [-h] anywhere runs no command at
    all.  Conversely, after the words that name a command, a request for help prints its help, and without one the outcome is what its
    parser makes of the other words, its errors included, behind the warning that the low-level commands print and only they. *)
Theorem dispatch_exact (args : list string) :
  (let '(stderr, r) := run args in
   match r with
   | Err e => exit_code e = USAGE
   | Ok a => harmless a = true ∨ asks_help args = false ∧ names_command args stderr ∧ means args a
   end) ∧
  ∀ words ask rest, (words, ask) ∈ meanings → args = (words ++ rest)%list →
    run args = if asks_help rest then ([], Ok (PrintHelp (named words))) else (warning words, ask rest).
Proof.
  split; [destruct (run_well_dispatched args) as [Hu Ha]; destruct (run args) as [stderr [a|e]]; [by apply Ha|exact Hu]|].
  intros words ask rest Hin ->. by apply run_meaning.
Qed.

Lemma dispatch_exact_witness :
  run ["encrypt"; "--in"; "x"; "--help"] = ([], Ok (PrintHelp (named ["encrypt"]))) ∧
  run ["encrypt"; "--in"; "x"] = ([], parsed parse_encrypt_args Encrypt ["--in"; "x"]).
Proof.
  assert ((["encrypt"], parsed parse_encrypt_args Encrypt) ∈ meanings) as Hm by (unfold meanings; repeat (left; reflexivity) || right).
  split; [exact (proj2 (dispatch_exact _) _ _ ["--in"; "x"; "--help"] Hm eq_refl)|exact (proj2 (dispatch_exact _) _ _ ["--in"; "x"] Hm eq_refl)].
Defined.

(** A first word that is not in the tables gives an error that quotes it, and whatever the error suggests - a near miss, the new place of a low-level
    command, the replacement of a removed one - is a command the tool has. *)
Theorem unknown_command_exact (cmd : string) (rest : list string) :
  cmd ∉ known_words →
  ∃ e, run (cmd :: rest) = ([], Err e) ∧
    match e with
    | UnknownCommand shown s => shown = cmd ∧ match s with Some s => leads_somewhere s | None => True end
    | MovedToHazmat name => name = cmd ∧ name ∈ HAZMAT_NAMES
    | RemovedCommand old new => old = cmd ∧ leads_somewhere new
    | RemovedForgeableCmac => cmd = "kalyna-cmac"%string
    | _ => False
    end.
Proof. intros Hn. exists (unknown_command cmd). split; [by apply run_unknown|apply unknown_command_spec]. Qed.

Lemma unknown_command_exact_witness : ("encrpyt"%string ∉ known_words) ∧
  ∃ e, run ["encrpyt"; "--in"; "f"]%string = ([], Err e) ∧
    match e with
    | UnknownCommand shown s => shown = "encrpyt"%string ∧ match s with Some s => leads_somewhere s | None => True end
    | MovedToHazmat name => name = "encrpyt"%string ∧ name ∈ HAZMAT_NAMES
    | RemovedCommand old new => old = "encrpyt"%string ∧ leads_somewhere new
    | RemovedForgeableCmac => "encrpyt"%string = "kalyna-cmac"%string
    | _ => False
    end.
Proof.
  assert ("encrpyt"%string ∉ known_words) as H by by_decision. split; [exact H|]. exact (unknown_command_exact "encrpyt" ["--in"; "f"]%string H).
Defined.

Example run_examples :
  run ["encrpyt"]%string = ([], Err (UnknownCommand "encrpyt" (Some "encrypt"%string))) ∧
  run ["kalyna-blokc"]%string = ([], Err (UnknownCommand "kalyna-blokc" (Some "hazmat kalyna-block"%string))) ∧
  run ["sign257"]%string = ([], Err (RemovedCommand "sign257" "sign")) ∧
  run ["encrypt"; "--key"; "-h"]%string = ([], Ok (PrintHelp "encrypt")) ∧
  (run ["hazmat"; "kalyna-kw"; "wrap"; "--variant"; "128-128"; "--key"; "k"; "--in"; "i"; "--out"; "o"]%string).1 =
    ["uacrypt: warning: 'hazmat kalyna-kw' is a low-level primitive with no misuse protection - use 'encrypt' or 'box-seal' to protect keys and files"]%string ∧
  run ["completions"; "bash"; "x"]%string = ([], Err (UnexpectedArgument "x")).
Proof. by vm_compute. Qed.
