(* ===== verification/OutputFile.v ===== *)
(** The output files of the command-line tool ([OutputFile] of [uacrypt/src/lib.rs]): a result is written to a private temporary file
    beside the output path and renamed onto it at the end; without [--force] the path is first reserved by an empty placeholder; a
    command that fails removes both; and a key file is never replaced.

    The file system is a map from paths to nodes; another process does not change it while the command runs.  A call of the
    operating system may fail: the file system has a schedule of the failures of its next calls.  It also keeps the maps after each
    call, which are the states that an interruption can leave behind.  The table of files that a signal handler removes
    ([cleanup]) and the permissions are left out. *)

From stdpp Require Import strings gmap.
From S2P Require Import Prelude Randombytes Keyfile CliError CliStream HashCommand.
#[local] Open Scope Z_scope.
#[local] Open Scope uacrypt_scope.

(** ** The file system *)

Inductive Node : Type := Regular (contents : list Z) | Symlink (target : path) | Directory.

(** A failure of a call: its text, and how many bytes were written before it. *)
Definition fault : Type := option (string * nat).

(** [fs_faults] are the failures of the next calls, apart from the removals, whose failures are [stuck]. *)
Record FileSystem : Type := { nodes : gmap path Node; fs_faults : list fault; stuck : list bool; history : list (gmap path Node) }.

(** A call takes the next entry of the schedule, and leaves a map. *)
Definition take_fault (fs : FileSystem) : fault * list fault := match fs_faults fs with [] => (None, []) | f :: faults => (f, faults) end.
Definition after_call (fs : FileSystem) (m : gmap path Node) : FileSystem := {| nodes := m; fs_faults := (take_fault fs).2; stuck := stuck fs; history := m :: history fs |}.

(** An error of a call: whether it says that the path exists already, and its text. *)
Record OsError : Type := { already_exists : bool; message : string }.

Section calls.
(** The text of the errors that the calls themselves find. *)
Context (os_text : string).

(** [OpenOptions::create_new]: it never follows a link. *)
Definition create_private_new (fs : FileSystem) (p : path) : FileSystem * result unit OsError :=
  match (take_fault fs).1 with
  | Some (text, _) => (after_call fs (nodes fs), Err {| already_exists := false; message := text |})
  | None =>
      match nodes fs !! p with
      | Some _ => (after_call fs (nodes fs), Err {| already_exists := true; message := os_text |})
      | None => (after_call fs (<[p := Regular []]> (nodes fs)), Ok tt)
      end
  end.

(** Following links, as far as the operating system does. *)
Fixpoint resolve (fuel : nat) (m : gmap path Node) (p : path) : option Node :=
  match fuel with
  | O => None
  | S fuel => match m !! p with Some (Symlink target) => resolve fuel m target | other => other end
  end.

Definition is_dir (fs : FileSystem) (p : path) : FileSystem * bool :=
  let r := match (take_fault fs).1 with
    | Some _ => false
    | None => match resolve 40 (nodes fs) p with Some Directory => true | _ => false end
    end in
  (after_call fs (nodes fs), r).

(** [symlink_metadata(path).is_ok_and(|meta| meta.is_file())]. *)
Definition is_regular (fs : FileSystem) (p : path) : FileSystem * bool :=
  let r := match (take_fault fs).1 with
    | Some _ => false
    | None => match nodes fs !! p with Some (Regular _) => true | _ => false end
    end in
  (after_call fs (nodes fs), r).

(** [File::open(path)] and [take(limit).read_to_end]. *)
Definition read_start (fs : FileSystem) (p : path) (limit : nat) : FileSystem * result (list Z) string :=
  let r := match (take_fault fs).1 with
    | Some (text, _) => Err text
    | None => match resolve 40 (nodes fs) p with Some (Regular contents) => Ok (take limit contents) | _ => Err os_text end
    end in
  (after_call fs (nodes fs), r).

(** [write_all] to an open file at [p]. *)
Definition append (m : gmap path Node) (p : path) (bytes : list Z) : gmap path Node :=
  match m !! p with Some (Regular contents) => <[p := Regular (contents ++ bytes)]> m | _ => m end.

Definition file_write_all (fs : FileSystem) (p : path) (bytes : list Z) : FileSystem * result unit string :=
  match (take_fault fs).1 with
  | Some (text, n) => (after_call fs (append (nodes fs) p (take n bytes)), Err text)
  | None => (after_call fs (append (nodes fs) p bytes), Ok tt)
  end.

Definition sync_all (fs : FileSystem) : FileSystem * result unit string :=
  (after_call fs (nodes fs), match (take_fault fs).1 with Some (text, _) => Err text | None => Ok tt end).

(** [std::fs::rename]: it replaces anything but a directory, at once. *)
Definition rename (fs : FileSystem) (from to : path) : FileSystem * result unit string :=
  match (take_fault fs).1, nodes fs !! from, nodes fs !! to with
  | Some (text, _), _, _ => (after_call fs (nodes fs), Err text)
  | None, None, _ | None, _, Some Directory => (after_call fs (nodes fs), Err os_text)
  | None, Some node, _ => (after_call fs (<[to := node]> (delete from (nodes fs))), Ok tt)
  end.

(** [std::fs::remove_file], whose result is ignored. *)
Definition remove_file (fs : FileSystem) (p : path) : FileSystem :=
  let '(fails, rest) := match stuck fs with [] => (false, []) | b :: rest => (b, rest) end in
  let m := match nodes fs !! p with
    | Some (Regular _ | Symlink _) => if (fails : bool) then nodes fs else delete p (nodes fs)
    | _ => nodes fs
    end in
  {| nodes := m; fs_faults := fs_faults fs; stuck := rest; history := m :: history fs |}.
End calls.

(** ** Output files *)

Definition SNIFF_LEN : nat := 28.

Section outputs.
Context (os_text : string).
#[local] Abbreviation create_private_new := (create_private_new os_text).
#[local] Abbreviation read_start := (read_start os_text).
#[local] Abbreviation rename := (rename os_text).

Definition refuse_key_file (fs : FileSystem) (p : path) : FileSystem * result unit CliError :=
  let '(fs, regular) := is_regular fs p in
  if negb regular then (fs, Ok tt)
  else
    let '(fs, r) := read_start fs p SNIFF_LEN in
    match r with
    | Err text => (fs, Err (OutputUncheckable p text))
    | Ok head => match sniff_kind head with Some kind => (fs, Err (OutputIsKeyFile p kind)) | None => (fs, Ok tt) end
    end.

Section temp.
Context {GE : Type} (random_text : RandomError GE → string).

Definition temp_path_beside (fill : fill_call GE) (out_path : path) : result path CliError :=
  let '(suffix, r) := randombytes_buf fill (replicate 8 0) in
  match r with
  | Err e => Err (Random (random_text e))
  | Ok _ => Ok (out_path ++ ascii_bytes ".uacrypt-tmp-" ++ hex_lower suffix)
  end.
End temp.

Record OutputFile : Type := { out_path : path; tmp_path : option path; placeholder : bool; committed : bool }.

(** [Drop]. *)
Definition drop_output (fs : FileSystem) (self : OutputFile) : FileSystem :=
  if committed self then fs
  else
    let fs := match tmp_path self with Some tmp => remove_file fs tmp | None => fs end in
    if placeholder self then remove_file fs (out_path self) else fs.

Section output.
Context {GE : Type} (random_text : RandomError GE → string).

(** The part of [create] up to the reservation; [same_as_input] only shapes the error message. *)
Definition reserve (fs : FileSystem) (p : path) (same_as_input force : bool) : FileSystem * result OutputFile CliError :=
  let output := {| out_path := p; tmp_path := None; placeholder := false; committed := false |} in
  if force then
    let '(fs, r) := refuse_key_file fs p in
    (fs, result_bind r (λ _, Ok output))
  else
    let '(fs, r) := create_private_new fs p in
    match r with
    | Ok _ => (fs, Ok {| out_path := p; tmp_path := None; placeholder := true; committed := false |})
    | Err e =>
        let '(fs, dir) := is_dir fs p in
        if dir then (fs, Err (Io p "is a directory"))
        else if already_exists e then
          let '(fs, r) := refuse_key_file fs p in
          (fs, result_bind r (λ _, Err (OutputExists p same_as_input)))
        else (fs, Err (Io p (message e)))
    end.

Definition create (fs : FileSystem) (fill : fill_call GE) (p : path) (same_as_input force : bool) : FileSystem * result OutputFile CliError :=
  let '(fs, r) := reserve fs p same_as_input force in
  match r with
  | Err e => (fs, Err e)
  | Ok output =>
      match temp_path_beside random_text fill p with
      | Err e => (drop_output fs output, Err e)
      | Ok tmp =>
          let '(fs, r) := create_private_new fs tmp in
          match r with
          | Err e => (drop_output fs output, Err (Io tmp (message e)))
          | Ok _ => (fs, Ok {| out_path := out_path output; tmp_path := Some tmp; placeholder := placeholder output; committed := false |})
          end
      end
  end.

(** [tmp_path()]. *)
Definition written_path (self : OutputFile) : path := default (out_path self) (tmp_path self).

(** Consumes the output: it ends committed or dropped. *)
Definition commit (fs : FileSystem) (self : OutputFile) : FileSystem * result unit CliError :=
  let '(fs, r) := sync_all fs in
  match r with
  | Err text => (drop_output fs self, Err (Io (written_path self) text))
  | Ok _ =>
      let '(fs, r) := match tmp_path self with Some tmp => rename fs tmp (out_path self) | None => (fs, Ok tt) end in
      match r with
      | Err text => (drop_output fs self, Err (Io (out_path self) text))
      | Ok _ => (fs, Ok tt)
      end
  end.

Definition write_output (fs : FileSystem) (self : OutputFile) (bytes : list Z) : FileSystem * result unit CliError :=
  let '(fs, r) := file_write_all fs (written_path self) bytes in
  (fs, match r with Ok _ => Ok tt | Err text => Err (Io (written_path self) text) end).

Definition write_all_and_commit (fs : FileSystem) (self : OutputFile) (bytes : list Z) : FileSystem * result unit CliError :=
  let '(fs, r) := write_output fs self bytes in
  match r with
  | Err e => (drop_output fs self, Err e)
  | Ok _ => commit fs self
  end.

(** A command that writes its output piece by piece, and may give up between two pieces with an error of its own. *)
Fixpoint write_chunks (fs : FileSystem) (self : OutputFile) (chunks : list (list Z)) (res : result unit CliError) : FileSystem * result unit CliError :=
  match chunks with
  | [] => match res with Ok _ => commit fs self | Err e => (drop_output fs self, Err e) end
  | chunk :: chunks =>
      let '(fs, r) := write_output fs self chunk in
      match r with
      | Err e => (drop_output fs self, Err e)
      | Ok _ => write_chunks fs self chunks res
      end
  end.

Definition produce (fs : FileSystem) (fill : fill_call GE) (p : path) (same_as_input force : bool) (chunks : list (list Z)) (res : result unit CliError) :
    FileSystem * result unit CliError :=
  let '(fs, r) := create fs fill p same_as_input force in
  match r with
  | Err e => (fs, Err e)
  | Ok output => write_chunks fs output chunks res
  end.
End output.
End outputs.

(** ** Steps of the file system *)

Definition is_ok {A E} (r : result A E) : bool := match r with Ok _ => true | Err _ => false end.


(** The removals that are left succeed. *)
Definition removable (fs : FileSystem) : Prop := Forall (λ b, b = false) (stuck fs).

(** From [fs] to [fs'] all the states in between, the last included, are [I]. *)
Definition evolves (I : gmap path Node → Prop) (fs fs' : FileSystem) : Prop :=
  (∃ h, history fs' = h ++ history fs ∧ Forall I h) ∧ (removable fs → removable fs').

Section steps.
Context (I : gmap path Node → Prop).

Lemma evolves_refl fs : evolves I fs fs.
Proof. split; [|done]. by exists []. Qed.

Lemma evolves_trans fs fs' fs'' : evolves I fs fs' → evolves I fs' fs'' → evolves I fs fs''.
Proof.
  intros [(h & E & Hh) Hr] [(h' & E' & Hh') Hr']. split; [|auto]. exists (h' ++ h). rewrite E', E, app_assoc. split; [done|]. by apply Forall_app.
Qed.

Lemma evolves_call fs m : I m → evolves I fs (after_call fs m).
Proof. intros Hm. split; [|done]. exists [m]. split; [done|]. by constructor. Qed.

Lemma evolves_weaken (J : gmap path Node → Prop) fs fs' : (∀ m, I m → J m) → evolves I fs fs' → evolves J fs fs'.
Proof. intros HIJ [(h & E & Hh) Hr]. split; [|done]. exists h. split; [done|]. by eapply Forall_impl. Qed.
End steps.

(** A removal takes the node away, if it works. *)
Lemma remove_file_spec I fs p contents : nodes fs !! p = Some (Regular contents) → I (nodes fs) → I (delete p (nodes fs)) →
  evolves I fs (remove_file fs p) ∧ (nodes (remove_file fs p) = nodes fs ∨ nodes (remove_file fs p) = delete p (nodes fs)) ∧
  (removable fs → nodes (remove_file fs p) = delete p (nodes fs)).
Proof.
  intros Hp H1 H2. unfold remove_file, removable, evolves. rewrite Hp. destruct (stuck fs) as [|[] rest] eqn:Es; cbn [nodes history stuck];
    (split; [split; [eexists [_]; split; [done|by constructor]|unfold removable; rewrite ?Es; cbn; intros H; by inversion H]|]); (split; [auto|]); try done.
  intros H. by inversion H.
Qed.

(** ** The states of an output *)

Section states.
Context (m0 : gmap path Node) (p tmp : path).

(** Nothing that was there is changed; the output path may hold an empty placeholder, and the temporary path anything, where nothing was. *)
Definition intact (m : gmap path Node) : Prop :=
  (∀ q, q ≠ p → q ≠ tmp → m !! q = m0 !! q) ∧ (m0 !! tmp ≠ None → m !! tmp = m0 !! tmp) ∧ (m !! p = m0 !! p ∨ m0 !! p = None ∧ m !! p = Some (Regular [])).

(** The states an interruption can leave: the old one, up to leftovers, or the new one. *)
Definition interruptible (final : list Z) (m : gmap path Node) : Prop := intact m ∨ m = <[p := Regular final]> m0.

(** The map once the path is reserved, and with the temporary file. *)
Definition reserved (force : bool) : gmap path Node := if force then m0 else <[p := Regular []]> m0.
Definition writing (force : bool) (w : list Z) : gmap path Node := <[tmp := Regular w]> (reserved force).

Context (Htmp : tmp ≠ p) (force : bool) (Hfree : force = false → m0 !! p = None).

Lemma intact_refl : intact m0.
Proof. split; [done|]. split; [done|]. by left. Qed.

Lemma intact_reserved : intact (reserved force).
Proof.
  unfold reserved. destruct force; [apply intact_refl|]. split; [intros q Hq _; by apply lookup_insert_ne|]. split; [intros _; by apply lookup_insert_ne|]. right. split; [by apply Hfree|apply lookup_insert_eq].
Qed.

Lemma intact_writing w : m0 !! tmp = None → intact (writing force w).
Proof.
  intros Hn. destruct intact_reserved as (H1 & _ & H3). unfold writing. split; [intros q Hq Hqt; rewrite lookup_insert_ne by done; by apply H1|].
  split; [by rewrite Hn|]. by rewrite lookup_insert_ne.
Qed.

Lemma reserved_tmp : m0 !! tmp = None → reserved force !! tmp = None.
Proof. intros Hn. unfold reserved. destruct force; [done|]. by rewrite lookup_insert_ne. Qed.

Lemma delete_writing w : m0 !! tmp = None → delete tmp (writing force w) = reserved force.
Proof. intros Hn. apply delete_insert_id. by apply reserved_tmp. Qed.

Lemma unreserve : force = false → delete p (reserved force) = m0.
Proof. intros E. unfold reserved. rewrite E. apply delete_insert_id. by apply Hfree. Qed.

(** The rename gives the final map. *)
Lemma renamed w : m0 !! tmp = None → <[p := Regular w]> (delete tmp (writing force w)) = <[p := Regular w]> m0.
Proof. intros Hn. rewrite delete_writing by done. unfold reserved. destruct force; [done|]. apply insert_insert_eq. Qed.
End states.

(** ** The operations *)

Section operations.
Context (os_text : string) {GE : Type} (random_text : RandomError GE → string).
Context (m0 : gmap path Node) (p : path) (fill : fill_call GE) (Hfill : fill_ok fill) (final : list Z).

(** The name that [temp_path_beside] draws. *)
Definition temp_name : path := p ++ ascii_bytes ".uacrypt-tmp-" ++ hex_lower (fill (replicate 8 0)).1.

Lemma temp_name_other : temp_name ≠ p.
Proof. intros E. apply (f_equal length) in E. unfold temp_name in E. rewrite !length_app in E. cbn [ascii_bytes length] in E. change (length (ascii_bytes ".uacrypt-tmp-")) with 13%nat in E. lia. Qed.

#[local] Abbreviation fine := (interruptible m0 p temp_name final).

(** What the check for a key file may do: it changes nothing, and finds a key file that is there when the first call works. *)
Lemma refuse_key_file_spec fs : fine (nodes fs) → let '(fs', r) := refuse_key_file os_text fs p in
  evolves fine fs fs' ∧ nodes fs' = nodes fs ∧
  (∀ contents kind, nodes fs !! p = Some (Regular contents) → sniff_kind (take SNIFF_LEN contents) = Some kind → (take_fault fs).1 = None → r ≠ Ok tt).
Proof.
  intros Hf. unfold refuse_key_file, is_regular. set (fs1 := after_call fs (nodes fs)).
  assert (evolves fine fs fs1) as H1 by by apply evolves_call. destruct (take_fault fs).1 as [f|] eqn:E0; [split; [done|]; split; [done|]; by intros|].
  destruct (nodes fs !! p) as [[contents|target|]|] eqn:Ep; cbn [negb]; try (split; [done|]; split; [done|]; by intros).
  unfold read_start. set (fs2 := after_call fs1 (nodes fs1)). assert (evolves fine fs fs2) as H2 by (eapply evolves_trans; [exact H1|by apply evolves_call]).
  destruct (take_fault fs1).1 as [[text n]|]; [split; [done|]; split; [done|]; by intros|].
  assert (resolve 40 (nodes fs1) p = Some (Regular contents)) as -> by (cbn [resolve]; change (nodes fs1) with (nodes fs); by rewrite Ep).
  destruct (sniff_kind (take SNIFF_LEN contents)) as [kind|] eqn:Es; (split; [done|]; split; [done|]); [done|]. intros contents' kind [= <-] Es'. congruence.
Qed.

Lemma reserve_spec fs same force : nodes fs = m0 → let '(fs', r) := reserve os_text fs p same force in
  match r with
  | Ok o => o = {| out_path := p; tmp_path := None; placeholder := negb force; committed := false |} ∧ (force = false → m0 !! p = None) ∧ evolves fine fs fs' ∧ nodes fs' = reserved m0 p force
  | Err _ => evolves fine fs fs' ∧ nodes fs' = m0
  end ∧
  (∀ contents kind, m0 !! p = Some (Regular contents) → sniff_kind (take SNIFF_LEN contents) = Some kind → (take_fault fs).1 = None → ∃ e, r = Err e).
Proof.
  intros Hn. assert (fine m0) as Hm0 by (left; apply intact_refl). unfold reserve. destruct force.
  - pose proof (refuse_key_file_spec fs) as Hk. rewrite Hn in Hk. specialize (Hk Hm0). destruct (refuse_key_file os_text fs p) as [fs1 [[]|e]]; destruct Hk as (He & Hn1 & Hk); cbn [result_bind negb reserved].
    + split; [by split_and!|]. intros contents kind E1 E2 E3. by destruct (Hk contents kind E1 E2 E3).
    + split; [done|]. intros. by eexists.
  - unfold create_private_new. rewrite Hn. destruct (take_fault fs).1 as [[text n]|] eqn:E0.
    + cbn [already_exists message]. unfold is_dir. set (fs1 := after_call fs m0). set (fs2 := after_call fs1 (nodes fs1)).
      assert (evolves fine fs fs2 ∧ nodes fs2 = m0) as H2 by (split; [eapply evolves_trans; by apply evolves_call|done]).
      match goal with |- context [if ?b then _ else _] => destruct b end; (split; [done|]; intros; by eexists).
    + destruct (m0 !! p) as [node|] eqn:Ep.
      * cbn [already_exists message]. unfold is_dir. set (fs1 := after_call fs m0). set (fs2 := after_call fs1 (nodes fs1)).
        assert (evolves fine fs fs2 ∧ nodes fs2 = m0) as [He2 Hn2] by (split; [eapply evolves_trans; by apply evolves_call|done]).
        match goal with |- context [if ?b then _ else _] => destruct b end; [split; [done|]; intros; by eexists|].
        pose proof (refuse_key_file_spec fs2) as Hk. rewrite Hn2 in Hk. specialize (Hk Hm0). destruct (refuse_key_file os_text fs2 p) as [fs3 r]. destruct Hk as (He & Hn3 & _).
        destruct r as [[]|e]; cbn [result_bind]; (split; [split; [by eapply evolves_trans|done]|intros; by eexists]).
      * split; [|done]. split; [done|]. split; [done|]. split; [|done]. apply evolves_call. left. apply (intact_reserved m0 p temp_name temp_name_other false). done.
Qed.

(** Dropping an output restores the map, if the removals work, and in any case harms nothing. *)
Lemma drop_reserved_spec fs force : (force = false → m0 !! p = None) → nodes fs = reserved m0 p force →
  let fs' := drop_output fs {| out_path := p; tmp_path := None; placeholder := negb force; committed := false |} in
  evolves fine fs fs' ∧ intact m0 p temp_name (nodes fs') ∧ (removable fs → nodes fs' = m0).
Proof.
  intros Hfree Hn. pose proof (intact_reserved m0 p temp_name temp_name_other force Hfree) as Hi. unfold drop_output. cbn [committed tmp_path placeholder out_path].
  destruct force; cbn [negb].
  - split; [apply evolves_refl|]. rewrite Hn. by split.
  - assert (nodes fs !! p = Some (Regular [])) as Hp by (rewrite Hn; apply lookup_insert_eq). assert (delete p (nodes fs) = m0) as Hd by (rewrite Hn; by apply (unreserve m0 p false)).
    destruct (remove_file_spec fine fs p [] Hp) as (He & Hor & Hr); [rewrite Hn; by left|rewrite Hd; left; apply intact_refl|]. rewrite Hd in *. split; [done|]. split; [|done].
    destruct Hor as [-> | ->]; [by rewrite Hn|apply intact_refl].
Qed.

Lemma drop_writing_spec fs force w : m0 !! temp_name = None → (force = false → m0 !! p = None) → nodes fs = writing m0 p temp_name force w →
  let fs' := drop_output fs {| out_path := p; tmp_path := Some temp_name; placeholder := negb force; committed := false |} in
  evolves fine fs fs' ∧ intact m0 p temp_name (nodes fs') ∧ (removable fs → nodes fs' = m0).
Proof.
  intros Ht Hfree Hn. pose proof (intact_writing m0 p temp_name temp_name_other force Hfree w Ht) as Hw. pose proof (intact_reserved m0 p temp_name temp_name_other force Hfree) as Hi.
  unfold drop_output. cbn [committed tmp_path placeholder out_path].
  assert (nodes fs !! temp_name = Some (Regular w)) as Hp by (rewrite Hn; apply lookup_insert_eq).
  assert (delete temp_name (nodes fs) = reserved m0 p force) as Hd by (rewrite Hn; by apply (delete_writing m0 p temp_name temp_name_other force)).
  destruct (remove_file_spec fine fs temp_name w Hp) as (He & Hor & Hr); [rewrite Hn; by left|rewrite Hd; by left|]. rewrite Hd in *. set (fs1 := remove_file fs temp_name) in *.
  destruct force; cbn [negb] in *.
  - split; [done|]. split; [|done]. destruct Hor as [-> | ->]; [by rewrite Hn|apply intact_refl].
  - assert (nodes fs1 !! p = Some (Regular [])) as Hp1.
    { destruct Hor as [-> | ->]; [rewrite Hn; unfold writing; rewrite lookup_insert_ne by apply temp_name_other|]; apply lookup_insert_eq. }
    assert (intact m0 p temp_name (nodes fs1) ∧ intact m0 p temp_name (delete p (nodes fs1))) as [Hi1 Hi2].
    { destruct Hor as [E|E]; rewrite E.
      - rewrite Hn. split; [done|]. unfold writing. rewrite delete_insert_ne by (intros E'; by apply temp_name_other). rewrite (unreserve m0 p false Hfree eq_refl).
        apply (intact_writing m0 p temp_name temp_name_other true); done.
      - rewrite (unreserve m0 p false Hfree eq_refl). split; [done|apply intact_refl]. }
    destruct (remove_file_spec fine fs1 p [] Hp1) as (He1 & Hor1 & Hr1); [by left|by left|]. split; [by eapply evolves_trans|]. split; [by destruct Hor1 as [-> | ->]|].
    intros Hrem. rewrite Hr1 by by apply He. rewrite (Hr Hrem). by apply (unreserve m0 p false Hfree).
Qed.

Definition opened_output (force : bool) : OutputFile := {| out_path := p; tmp_path := Some temp_name; placeholder := negb force; committed := false |}.

Lemma create_spec fs same force : nodes fs = m0 → let '(fs', r) := create os_text random_text fs fill p same force in
  match r with
  | Ok o => o = opened_output force ∧ m0 !! temp_name = None ∧ (force = false → m0 !! p = None) ∧ evolves fine fs fs' ∧ nodes fs' = writing m0 p temp_name force []
  | Err _ => evolves fine fs fs' ∧ intact m0 p temp_name (nodes fs') ∧ (removable fs → nodes fs' = m0)
  end ∧
  (∀ contents kind, m0 !! p = Some (Regular contents) → sniff_kind (take SNIFF_LEN contents) = Some kind → (take_fault fs).1 = None → ∃ e, r = Err e).
Proof.
  intros Hn. unfold create. pose proof (reserve_spec fs same force Hn) as Hr. destruct (reserve os_text fs p same force) as [fs1 [o|e]].
  2:{ destruct Hr as ((He & Hn1) & Hk). split; [|intros; by eexists]. split; [done|]. rewrite Hn1. split; [apply intact_refl|done]. }
  destruct Hr as ((-> & Hfree & He & Hn1) & Hk). cbn [out_path placeholder].
  assert (∀ fs2, evolves fine fs1 fs2 → nodes fs2 = reserved m0 p force →
    evolves fine fs (drop_output fs2 {| out_path := p; tmp_path := None; placeholder := negb force; committed := false |}) ∧
    intact m0 p temp_name (nodes (drop_output fs2 {| out_path := p; tmp_path := None; placeholder := negb force; committed := false |})) ∧
    (removable fs → nodes (drop_output fs2 {| out_path := p; tmp_path := None; placeholder := negb force; committed := false |}) = m0)) as Hdrop.
  { intros fs2 He2 Hn2. destruct (drop_reserved_spec fs2 force Hfree Hn2) as (H1 & H2 & H3). pose proof (evolves_trans _ _ _ _ He He2) as He3.
    split; [by eapply evolves_trans|]. split; [done|]. intros Hrem. apply H3, He3, Hrem. }
  unfold temp_path_beside, randombytes_buf. destruct (fill (replicate 8 0)) as [suffix rr] eqn:Ef. destruct rr as [[]|err].
  2:{ split; [|intros; by eexists]. apply Hdrop; [apply evolves_refl|done]. }
  assert (p ++ ascii_bytes ".uacrypt-tmp-" ++ hex_lower suffix = temp_name) as -> by (unfold temp_name; by rewrite Ef).
  unfold create_private_new. destruct (take_fault fs1).1 as [[text n]|].
  { split; [|intros; by eexists]. apply Hdrop; [|done]. apply evolves_call. rewrite Hn1. left. by apply (intact_reserved m0 p temp_name temp_name_other force). }
  destruct (nodes fs1 !! temp_name) as [node|] eqn:Et.
  { split; [|intros; by eexists]. apply Hdrop; [|done]. apply evolves_call. rewrite Hn1. left. by apply (intact_reserved m0 p temp_name temp_name_other force). }
  assert (m0 !! temp_name = None) as Ht. { revert Et. rewrite Hn1. unfold reserved. destruct force; [done|]. by rewrite lookup_insert_ne by (intros E; by apply temp_name_other). }
  split; [|intros contents kind E1 E2 E3; by destruct (Hk contents kind E1 E2 E3)]. split; [done|]. split; [done|]. split; [done|]. rewrite Hn1. split; [|done]. eapply evolves_trans; [exact He|]. apply evolves_call. left.
  by apply (intact_writing m0 p temp_name temp_name_other force).
Qed.
(** Writing appends, whole or in part. *)
Lemma write_output_spec fs force w bytes : m0 !! temp_name = None → (force = false → m0 !! p = None) → nodes fs = writing m0 p temp_name force w →
  let '(fs', r) := write_output fs (opened_output force) bytes in
  evolves fine fs fs' ∧ ∃ w', nodes fs' = writing m0 p temp_name force w' ∧ (r = Ok tt → w' = w ++ bytes).
Proof.
  intros Ht Hfree Hn. unfold write_output, file_write_all.
  assert (∀ bs, append (nodes fs) temp_name bs = writing m0 p temp_name force (w ++ bs)) as Ha by (intros bs; unfold append; rewrite Hn; unfold writing; by rewrite lookup_insert_eq, insert_insert_eq).
  assert (∀ w', fine (writing m0 p temp_name force w')) as Hw by (intros w'; left; by apply (intact_writing m0 p temp_name temp_name_other force)).
  change (written_path (opened_output force)) with temp_name. destruct (take_fault fs).1 as [[text n]|]; rewrite Ha; (split; [by apply evolves_call|]); eexists; by split.
Qed.

(** Committing publishes, or fails and drops the output. *)
Lemma commit_spec fs force w : m0 !! temp_name = None → (force = false → m0 !! p = None) → nodes fs = writing m0 p temp_name force w → final = w →
  let '(fs', r) := commit os_text fs (opened_output force) in
  evolves fine fs fs' ∧ if is_ok r then nodes fs' = <[p := Regular final]> m0 else intact m0 p temp_name (nodes fs') ∧ (removable fs → nodes fs' = m0).
Proof.
  intros Ht Hfree Hn Hw. unfold commit, sync_all. assert (fine (nodes fs)) as Hf by (rewrite Hn; left; by apply (intact_writing m0 p temp_name temp_name_other force)).
  set (fs1 := after_call fs (nodes fs)). assert (evolves fine fs fs1) as He by by apply evolves_call.
  assert (∀ fs2, evolves fine fs fs2 → nodes fs2 = nodes fs → evolves fine fs (drop_output fs2 (opened_output force)) ∧
    intact m0 p temp_name (nodes (drop_output fs2 (opened_output force))) ∧ (removable fs → nodes (drop_output fs2 (opened_output force)) = m0)) as Hdrop.
  { intros fs2 He2 Hn2. destruct (drop_writing_spec fs2 force w Ht Hfree) as (H1 & H2 & H3); [by rewrite Hn2|]. split; [by eapply evolves_trans|]. split; [done|]. intros Hr. by apply H3, He2. }
  destruct (take_fault fs).1 as [[text n]|]; [by apply Hdrop|]. cbn [opened_output tmp_path out_path]. unfold rename. change (nodes fs1) with (nodes fs).
  assert (evolves fine fs (after_call fs1 (nodes fs))) as He1 by (eapply evolves_trans; [exact He|by apply evolves_call]).
  destruct (take_fault fs1).1 as [[text n]|]; [by apply Hdrop|]. assert (nodes fs !! temp_name = Some (Regular w)) as -> by (rewrite Hn; apply lookup_insert_eq).
  assert (<[p := Regular w]> (delete temp_name (nodes fs)) = <[p := Regular final]> m0) as E by (rewrite Hn, Hw; apply (renamed m0 p temp_name temp_name_other force); done).
  assert (evolves fine fs (after_call fs1 (<[p := Regular w]> (delete temp_name (nodes fs))))) as Hok by (eapply evolves_trans; [exact He|apply evolves_call; by right]).
  destruct (nodes fs !! p) as [[contents|target|]|]; first [by apply Hdrop|by split].
Qed.

Lemma write_chunks_spec chunks res : ∀ fs force w, m0 !! temp_name = None → (force = false → m0 !! p = None) → nodes fs = writing m0 p temp_name force w → final = w ++ concat chunks →
  let '(fs', r) := write_chunks os_text fs (opened_output force) chunks res in
  evolves fine fs fs' ∧ if is_ok r then res = Ok tt ∧ nodes fs' = <[p := Regular final]> m0 else intact m0 p temp_name (nodes fs') ∧ (removable fs → nodes fs' = m0).
Proof.
  induction chunks as [|chunk chunks IH]; intros fs force w Ht Hfree Hn Hw; cbn [write_chunks concat] in *.
  - rewrite app_nil_r in Hw. destruct res as [[]|e].
    + pose proof (commit_spec fs force w Ht Hfree Hn Hw) as Hc. destruct (commit os_text fs (opened_output force)) as [fs' [[]|e]]; cbn [is_ok] in *; [|done]. destruct Hc as [He Hn']. by split.
    + cbn [is_ok]. by apply (drop_writing_spec fs force w).
  - pose proof (write_output_spec fs force w chunk Ht Hfree Hn) as Ho. destruct (write_output fs (opened_output force) chunk) as [fs1 r]. destruct Ho as (He & w' & Hn1 & Hr).
    destruct r as [[]|e].
    + specialize (Hr eq_refl). specialize (IH fs1 force w' Ht Hfree Hn1). destruct (write_chunks os_text fs1 (opened_output force) chunks res) as [fs2 r].
      destruct IH as (He2 & H2); [by rewrite Hr, <- app_assoc|]. split; [by eapply evolves_trans|]. destruct (is_ok r); [done|]. destruct H2 as [H2 H3]. split; [done|]. intros Hrem. by apply H3, He.
    + cbn [is_ok]. destruct (drop_writing_spec fs1 force w' Ht Hfree Hn1) as (H1 & H2 & H3). split; [by eapply evolves_trans|]. split; [done|]. intros Hrem. by apply H3, He.
Qed.

Lemma produce_spec fs same force chunks res : nodes fs = m0 → final = concat chunks →
  let '(fs', r) := produce os_text random_text fs fill p same force chunks res in
  evolves fine fs fs' ∧
  (if is_ok r then res = Ok tt ∧ (force = false → m0 !! p = None) ∧ nodes fs' = <[p := Regular final]> m0
   else intact m0 p temp_name (nodes fs') ∧ (removable fs → nodes fs' = m0)) ∧
  (∀ contents kind, m0 !! p = Some (Regular contents) → sniff_kind (take SNIFF_LEN contents) = Some kind → (take_fault fs).1 = None → is_ok r = false).
Proof.
  intros Hn Hw. unfold produce. pose proof (create_spec fs same force Hn) as Hc. destruct (create os_text random_text fs fill p same force) as [fs1 [o|e]].
  2:{ destruct Hc as ((He & Hi & Hr) & _). cbn [is_ok]. by split_and!. }
  destruct Hc as ((-> & Ht & Hfree & He & Hn1) & Hk).
  pose proof (write_chunks_spec chunks res fs1 force [] Ht Hfree Hn1 Hw) as Hs. destruct (write_chunks os_text fs1 (opened_output force) chunks res) as [fs2 r].
  destruct Hs as (He2 & Hs). split; [by eapply evolves_trans|]. split.
  - destruct (is_ok r); [by destruct Hs|]. destruct Hs as [H1 H2]. split; [done|]. intros Hrem. by apply H2, He.
  - intros contents kind E1 E2 E3. by destruct (Hk contents kind E1 E2 E3).
Qed.
End operations.

(** ** The output of the streaming commands *)

(** The same writes to an [Output], which knows only what is written and what is published. *)
Fixpoint stream_chunks (out : Output) (chunks : list (list Z)) (res : result unit CliError) : Output * result unit CliError :=
  match chunks with
  | [] => finish_output out res
  | chunk :: chunks =>
      let '(out, r) := write_all out chunk in
      match r with
      | Err e => finish_output out (Err e)
      | Ok _ => stream_chunks out chunks res
      end
  end.

Section refinement.
Context (os_text : string) {GE : Type} (m0 : gmap path Node) (p : path) (fill : fill_call GE) (force : bool).
#[local] Abbreviation tmp := (temp_name p fill).
Context (Ht : m0 !! tmp = None) (Hfree : force = false → m0 !! p = None) (Hdir : m0 !! p ≠ Some Directory).

(** The file system shows the output. *)
Definition shows (fs : FileSystem) (out : Output) : Prop :=
  nodes fs = writing m0 p tmp force (written out) ∧ target out = ToFile tmp p ∧ faults out = map (option_map fst) (fs_faults fs).

Definition opened : OutputFile := opened_output p fill force.

Lemma next_fault_shows fs out : shows fs out → next_fault out = (option_map fst (take_fault fs).1, map (option_map fst) (take_fault fs).2).
Proof. intros (_ & _ & E). unfold next_fault, take_fault. rewrite E. by destruct (fs_faults fs). Qed.

Lemma write_shows fs out bytes : shows fs out → let '(fs', r) := write_output fs opened bytes in let '(out', r') := write_all out bytes in r = r' ∧ (r = Ok tt → shows fs' out') ∧ target out' = ToFile tmp p ∧ published out' = published out.
Proof.
  intros Hs. pose proof (next_fault_shows _ _ Hs) as En. destruct Hs as (Hn & Hg & Hf). unfold write_output, file_write_all, write_all. rewrite En.
  change (written_path opened) with tmp.
  destruct (take_fault fs) as [[[text n]|] rest] eqn:E; cbn [fst snd option_map target published write_error]; unfold write_error; rewrite Hg; (split; [done|]); (split; [intros Hr|done]); [done|].
  split_and!; cbn [nodes after_call written faults target]; [|done|cbn [after_call fs_faults]; by rewrite E]. unfold append. rewrite Hn. unfold writing. by rewrite lookup_insert_eq, insert_insert_eq.
Qed.

(** The drop after a failure, as the map that is left. *)
Lemma drop_shows fs w : nodes fs = writing m0 p tmp force w → removable fs → nodes (drop_output fs opened) = m0.
Proof. intros Hn. by apply (drop_writing_spec m0 p fill [] fs force w Ht Hfree Hn). Qed.

Definition published_map (out : Output) : gmap path Node := match published out with Some bytes => <[p := Regular bytes]> m0 | None => m0 end.

Lemma commit_shows fs out : shows fs out → removable fs → let '(fs', r) := commit os_text fs opened in let '(out', r') := finish_output out (Ok tt) in
  r = r' ∧ nodes fs' = published_map out'.
Proof.
  intros Hs Hrem. pose proof (next_fault_shows _ _ Hs) as En. destruct Hs as (Hn & Hg & Hf). pose proof (drop_shows _ _ Hn) as Hd.
  unfold commit, sync_all, finish_output, publish. rewrite En. destruct (take_fault fs) as [[[text n]|] rest] eqn:E; cbn [fst snd option_map target].
  { rewrite Hg. unfold write_error. rewrite Hg. split; [done|]. by apply (drop_shows (after_call fs (nodes fs)) (written out)). }
  rewrite Hg. cbn [next_fault faults opened opened_output tmp_path out_path]. unfold rename.
  assert (next_fault {| target := target out; written := written out; any := any out; faults := map (option_map fst) rest; published := None |} =
    (option_map fst (take_fault (after_call fs (nodes fs))).1, map (option_map fst) (take_fault (after_call fs (nodes fs))).2)) as E2.
  { unfold next_fault, take_fault at 1 2. cbn [faults after_call fs_faults]. rewrite E. cbn [snd]. by destruct rest. }
  rewrite Hg in E2. rewrite E2. destruct (take_fault (after_call fs (nodes fs))) as [[[text n]|] rest2]; cbn [fst snd option_map target].
  { split; [done|]. apply (drop_shows (after_call _ _) (written out)); done. }
  change (nodes (after_call fs (nodes fs))) with (nodes fs). assert (nodes fs !! tmp = Some (Regular (written out))) as -> by (rewrite Hn; apply lookup_insert_eq).
  assert (nodes fs !! p ≠ Some Directory) as Hnd.
  { rewrite Hn. unfold writing, reserved. rewrite lookup_insert_ne by apply temp_name_other. destruct force; [done|]. by rewrite lookup_insert_eq. }
  assert (<[p := Regular (written out)]> (delete tmp (nodes fs)) = <[p := Regular (written out)]> m0) as Em by (rewrite Hn; apply (renamed m0 p tmp (temp_name_other p fill) force); done).
  destruct (nodes fs !! p) as [[contents|target'|]|]; try done; by split.
Qed.

Lemma chunks_show chunks res : ∀ fs out, shows fs out → removable fs → published out = None →
  let '(fs', r) := write_chunks os_text fs opened chunks res in let '(out', r') := stream_chunks out chunks res in r = r' ∧ nodes fs' = published_map out'.
Proof.
  assert (∀ out (e : CliError), target out = ToFile tmp p → finish_output out (Err e) = (out, Err e)) as Hfin by (intros out e Hg; unfold finish_output; by rewrite Hg).
  induction chunks as [|chunk chunks IH]; intros fs out Hs Hrem Hp; cbn [write_chunks stream_chunks].
  - destruct res as [[]|e]; [by apply commit_shows|]. destruct Hs as (Hn & Hg & _). rewrite Hfin by done. split; [done|]. unfold published_map. rewrite Hp. by eapply drop_shows.
  - pose proof (write_shows fs out chunk Hs) as Hw. pose proof Hs as (Hn & _). pose proof (write_output_spec m0 p fill [] fs force (written out) chunk Ht Hfree Hn) as Hw2.
    change (opened_output p fill force) with opened in Hw2. destruct (write_output fs opened chunk) as [fs1 r]. destruct (write_all out chunk) as [out1 r1].
    destruct Hw as (<- & H1 & Hg1 & Hp1). destruct Hw2 as ((_ & Hrem1) & w' & Hn1 & _). rewrite Hp in Hp1.
    destruct r as [[]|e]; [by apply IH; auto|]. rewrite Hfin by done. split; [done|]. unfold published_map. rewrite Hp1. eapply drop_shows; [done|by apply Hrem1].
Qed.
End refinement.

(** ** Without failures of the operating system *)

(** The temporary name is drawn and free, and the output path is free or may be replaced. *)
Definition openable {GE} (fs : FileSystem) (fill : fill_call GE) (p : path) (force : bool) : Prop :=
  (fill (replicate 8 0)).2 = Ok tt ∧ nodes fs !! temp_name p fill = None ∧
  if force then nodes fs !! p ≠ Some Directory ∧ ∀ contents, nodes fs !! p = Some (Regular contents) → sniff_kind (take SNIFF_LEN contents) = None
  else nodes fs !! p = None.

Lemma openable_free {GE} fs (fill : fill_call GE) p force : openable fs fill p force → force = false → nodes fs !! p = None.
Proof. intros (_ & _ & H) ->. done. Qed.

Lemma openable_not_dir {GE} fs (fill : fill_call GE) p force : openable fs fill p force → nodes fs !! p ≠ Some Directory.
Proof. intros (_ & _ & H). destruct force; [by destruct H|congruence]. Qed.

Lemma no_fault fs : fs_faults fs = [] → take_fault fs = (None, []).
Proof. unfold take_fault. by intros ->. Qed.

Lemma create_succeeds (os_text : string) {GE : Type} (random_text : RandomError GE → string) fs fill p same force : fs_faults fs = [] → openable fs fill p force →
  ∃ fs', create os_text random_text fs fill p same force = (fs', Ok (opened_output p fill force)) ∧ fs_faults fs' = [].
Proof.
  intros Hf Ho. unfold create.
  assert (∃ fs', reserve os_text fs p same force = (fs', Ok {| out_path := p; tmp_path := None; placeholder := negb force; committed := false |}) ∧ fs_faults fs' = [] ∧ nodes fs' !! temp_name p fill = None)
    as (fs1 & -> & Hf1 & Ht1).
  { destruct Ho as (_ & Ht & Hp). unfold reserve. destruct force.
    - destruct Hp as [Hp Hk]. unfold refuse_key_file, is_regular, read_start. rewrite no_fault by done. cbn [fst]. destruct (nodes fs !! p) as [[contents|target|]|] eqn:Ep; cbn [negb]; try (eexists; split; [reflexivity|]; split; [cbn [after_call fs_faults]; by rewrite no_fault|exact Ht]).
      rewrite no_fault by (cbn [after_call fs_faults]; by rewrite no_fault). cbn [fst resolve nodes after_call]. rewrite Ep, (Hk contents eq_refl). eexists. split; [reflexivity|]. split; [|exact Ht].
      cbn [after_call fs_faults]. rewrite no_fault; [done|]. cbn [after_call fs_faults]. by rewrite no_fault.
    - unfold create_private_new. rewrite no_fault by done. cbn [fst]. rewrite Hp. eexists. split; [reflexivity|]. split; [cbn [after_call fs_faults]; by rewrite no_fault|].
      cbn [nodes after_call]. rewrite lookup_insert_ne by (intros E; by apply (temp_name_other p fill)). exact Ht. }
  cbn [out_path placeholder]. unfold temp_path_beside, randombytes_buf. destruct Ho as (Hfill & _). unfold temp_name in Ht1. destruct (fill (replicate 8 0)) as [suffix r] eqn:E. cbn [snd fst] in *. rewrite Hfill.
  unfold create_private_new. rewrite no_fault by done. cbn [fst]. rewrite Ht1. eexists. split; [unfold opened_output, temp_name; rewrite E; reflexivity|]. cbn [after_call fs_faults]. by rewrite no_fault.
Qed.

Lemma write_output_succeeds {GE} fs p (fill : fill_call GE) force bytes : fs_faults fs = [] → ∃ fs', write_output fs (opened_output p fill force) bytes = (fs', Ok tt) ∧ fs_faults fs' = [].
Proof. intros Hf. unfold write_output, file_write_all. rewrite no_fault by done. eexists. split; [reflexivity|]. cbn [after_call fs_faults]. by rewrite no_fault. Qed.

Lemma commit_succeeds (os_text : string) {GE : Type} fs p (fill : fill_call GE) force m0 w : fs_faults fs = [] → (force = false → m0 !! p = None) → m0 !! p ≠ Some Directory → nodes fs = writing m0 p (temp_name p fill) force w →
  (commit os_text fs (opened_output p fill force)).2 = Ok tt.
Proof.
  intros Hf Hfree Hdir Hn. unfold commit, sync_all, rename. rewrite no_fault by done. cbn [fst opened_output tmp_path out_path]. rewrite no_fault by (cbn [after_call fs_faults]; by rewrite no_fault). cbn [fst nodes after_call].
  rewrite Hn. unfold writing, reserved. rewrite lookup_insert_eq, lookup_insert_ne by apply temp_name_other. destruct force; [|by rewrite lookup_insert_eq]. by destruct (m0 !! p) as [[]|].
Qed.

Lemma write_chunks_succeeds (os_text : string) {GE : Type} p (fill : fill_call GE) force m0 chunks res : m0 !! temp_name p fill = None → (force = false → m0 !! p = None) → m0 !! p ≠ Some Directory →
  ∀ fs w, fs_faults fs = [] → nodes fs = writing m0 p (temp_name p fill) force w → (write_chunks os_text fs (opened_output p fill force) chunks res).2 = res.
Proof.
  intros Ht Hfree Hdir. induction chunks as [|chunk chunks IH]; intros fs w Hf Hn; cbn [write_chunks].
  - destruct res as [[]|e]; [by eapply commit_succeeds|done].
  - pose proof (write_output_spec m0 p fill [] fs force w chunk Ht Hfree Hn) as Hw. destruct (write_output_succeeds fs p fill force chunk Hf) as (fs1 & E & Hf1). rewrite E in *.
    destruct Hw as (_ & w' & Hn1 & _). by eapply IH.
Qed.

(** ** The properties *)

(** C27. The output of a command, whatever calls of the operating system fail and wherever it is interrupted.  Every state on the way holds
    what was there before, up to the temporary file and the empty placeholder, or has exactly the complete output at the output path; a
    success means that the complete output is there, that the command itself succeeded and that nothing was replaced without [--force]; a
    failure leaves what was there, and when removals work nothing else; and a file that starts like a key file is refused, if the look at
    the path works. *)
Theorem output_file_atomic (os_text : string) {GE : Type} (random_text : RandomError GE → string) (fs : FileSystem) (fill : fill_call GE) (p : path) (same force : bool)
    (chunks : list (list Z)) (res : result unit CliError) :
  let '(fs', r) := produce os_text random_text fs fill p same force chunks res in
  evolves (interruptible (nodes fs) p (temp_name p fill) (concat chunks)) fs fs' ∧
  (if is_ok r then res = Ok tt ∧ (force = false → nodes fs !! p = None) ∧ nodes fs' = <[p := Regular (concat chunks)]> (nodes fs)
   else intact (nodes fs) p (temp_name p fill) (nodes fs') ∧ (removable fs → nodes fs' = nodes fs)) ∧
  (∀ contents kind, nodes fs !! p = Some (Regular contents) → sniff_kind (take SNIFF_LEN contents) = Some kind → (take_fault fs).1 = None → is_ok r = false).
Proof. by apply produce_spec. Qed.

(** A command whose output can be opened and that meets no failure ends as it decides itself, and on success its output is all there. *)
Theorem output_file_succeeds (os_text : string) {GE : Type} (random_text : RandomError GE → string) (fs : FileSystem) (fill : fill_call GE) (p : path) (same force : bool)
    (chunks : list (list Z)) (res : result unit CliError) :
  fs_faults fs = [] → openable fs fill p force →
  let '(fs', r) := produce os_text random_text fs fill p same force chunks res in
  r = res ∧ (res = Ok tt → nodes fs' = <[p := Regular (concat chunks)]> (nodes fs)).
Proof.
  intros Hf Ho. pose proof (produce_spec os_text random_text (nodes fs) p fill (concat chunks) fs same force chunks res eq_refl eq_refl) as Hp. revert Hp. unfold produce.
  pose proof (create_spec os_text random_text (nodes fs) p fill (concat chunks) fs same force eq_refl) as Hc. destruct (create_succeeds os_text random_text fs fill p same force Hf Ho) as (fs1 & E & Hf1). rewrite E in *.
  destruct Hc as ((_ & Ht & Hfree & _ & Hn1) & _). pose proof (write_chunks_succeeds os_text p fill force (nodes fs) chunks res Ht Hfree (openable_not_dir _ _ _ _ Ho) fs1 [] Hf1 Hn1) as Hr.
  destruct (write_chunks os_text fs1 (opened_output p fill force) chunks res) as [fs2 r]. cbn [snd] in Hr. subst r. intros (_ & Hok & _). split; [done|]. intros ->. by apply Hok.
Qed.

(** C28. An opened file is an [Output] of the streaming commands: for the same failures the same writes and end give the same result, and the
    file system ends with exactly what the [Output] published, or as it was. *)
Theorem output_file_refines (os_text : string) {GE : Type} (fill : fill_call GE) (p : path) (force : bool) (m0 : gmap path Node) (fs : FileSystem) (chunks : list (list Z)) (res : result unit CliError) :
  m0 !! temp_name p fill = None → (force = false → m0 !! p = None) → m0 !! p ≠ Some Directory → nodes fs = writing m0 p (temp_name p fill) force [] → removable fs →
  let '(fs', r) := write_chunks os_text fs (opened_output p fill force) chunks res in
  let '(out, r') := stream_chunks {| target := ToFile (temp_name p fill) p; written := []; any := false; faults := map (option_map fst) (fs_faults fs); published := None |} chunks res in
  r = r' ∧ nodes fs' = match published out with Some bytes => <[p := Regular bytes]> m0 | None => m0 end.
Proof. intros Ht Hfree Hdir Hn Hrem. by apply (chunks_show os_text m0 p fill force Ht Hfree Hdir chunks res fs). Qed.

(** ** Examples *)

Definition example_fill : fill_call unit := λ buf, (replicate (length buf) 171, Ok tt).
Definition example_path : path := ascii_bytes "out".
Definition example_fs (faults : list fault) : FileSystem := {| nodes := {[ ascii_bytes "in" := Regular [1]; ascii_bytes "key" := Symlink (ascii_bytes "out") ]}; fs_faults := faults; stuck := []; history := [] |}.

(** Two pieces; the second write stops after one byte, or nothing fails; and the states on the way. *)
Example produce_examples :
  (produce "" (λ _, EmptyString) (example_fs []) example_fill example_path false false [[1; 2]; [3; 4]] (Ok tt)).2 = Ok tt ∧
  (produce "" (λ _, EmptyString) (example_fs [None; None; None; Some ("full"%string, 1%nat)]) example_fill example_path false false [[1; 2]; [3; 4]] (Ok tt)).2 =
    Err (Io (ascii_bytes "out.uacrypt-tmp-abababababababab") "full") ∧
  map (λ m : gmap path Node, m !! ascii_bytes "out.uacrypt-tmp-abababababababab")
    (history (produce "" (λ _, EmptyString) (example_fs [None; None; None; Some ("full"%string, 1%nat)]) example_fill example_path false false [[1; 2]; [3; 4]] (Ok tt)).1) =
    [None; None; Some (Regular [1; 2; 3]); Some (Regular [1; 2]); Some (Regular []); None] ∧
  (produce "" (λ _, EmptyString) (example_fs []) example_fill (ascii_bytes "key") false false [] (Ok tt)).2 = Err (OutputExists (ascii_bytes "key") false).
Proof. by vm_compute. Qed.

Lemma output_file_succeeds_witness :
  fs_faults (example_fs []) = [] ∧ openable (example_fs []) example_fill example_path false ∧
  let '(fs', r) := produce "" (λ _, EmptyString) (example_fs []) example_fill example_path false false [[1; 2]; [3; 4]] (Ok tt) in
  r = Ok tt ∧ (Ok tt = Ok (E := CliError) tt → nodes fs' = <[example_path := Regular [1; 2; 3; 4]]> (nodes (example_fs []))).
Proof.
  assert (openable (example_fs []) example_fill example_path false) as Ho by by vm_compute. split; [reflexivity|]. split; [exact Ho|].
  exact (output_file_succeeds "" (λ _, EmptyString) (example_fs []) example_fill example_path false false [[1; 2]; [3; 4]] (Ok tt) eq_refl Ho).
Defined.

Lemma output_file_refines_witness :
  let m0 := nodes (example_fs []) in
  let fs := {| nodes := writing m0 example_path (temp_name example_path example_fill) false []; fs_faults := [None; Some ("full"%string, 1%nat)]; stuck := []; history := [] |} in
  let '(fs', r) := write_chunks "" fs (opened_output example_path example_fill false) [[1; 2]; [3; 4]] (Ok tt) in
  let '(out, r') := stream_chunks {| target := ToFile (temp_name example_path example_fill) example_path; written := []; any := false; faults := [None; Some "full"%string]; published := None |} [[1; 2]; [3; 4]] (Ok tt) in
  r = r' ∧ nodes fs' = match published out with Some bytes => <[example_path := Regular bytes]> m0 | None => m0 end.
Proof.
  intros m0 fs. apply (output_file_refines "" example_fill example_path false m0 fs [[1; 2]; [3; 4]] (Ok tt)); [by vm_compute|by vm_compute|by vm_compute|reflexivity|constructor].
Defined.
