(* ===== verification/CAbi.v ===== *)
(** The boundary of the C interface ([crates/dstu-core-capi/src/util.rs], [error.rs]): the caller's memory as bytes at addresses, the
    objects behind opaque handles, the conversions of pointers to slices, and the wrappers that catch a panic.

    A function of the interface is a computation over the world of its caller.  It returns, panics, or does something that Rust does not
    define: it reads or writes bytes that are not the caller's, follows a handle that is not alive, or holds an exclusive reference to
    bytes that another live reference covers.  The theorems of the files that use this one show that a caller who keeps to the
    documented contract sees only the first. *)

From stdpp Require Import gmap.
From S2P Require Import Prelude Randombytes.

(** ** Status codes *)

Inductive DstuStatus : Type :=
| DSTU_OK
| DSTU_ERR_RANDOM
| DSTU_ERR_TAG_MISMATCH
| DSTU_ERR_TRUNCATED
| DSTU_ERR_INVALID_LENGTH
| DSTU_ERR_BUFFER_TOO_SMALL
| DSTU_ERR_UNKNOWN_TAG
| DSTU_ERR_FINALIZED
| DSTU_ERR_SELFTEST_FAILED
| DSTU_ERR_HASH_ERROR
| DSTU_ERR_INVALID_KEY
| DSTU_ERR_NULL_POINTER
| DSTU_ERR_PANIC
| DSTU_ERR_UNSUPPORTED_VERSION
| DSTU_ERR_INVALID_ARGUMENT
| DSTU_ERR_CHUNK_TOO_LARGE
| DSTU_ERR_BAD_CHUNK_LENGTH
| DSTU_ERR_TRAILING_DATA
| DSTU_ERR_UNSUPPORTED_PARAMS
| DSTU_ERR_OUT_OF_MEMORY.

#[global] Instance DstuStatus_eq_dec : EqDecision DstuStatus.
Proof. solve_decision. Defined.

(** ** Memory *)

Abbreviation addr := Z (only parsing).
Definition NULL : addr := 0.
Definition is_null (p : addr) : bool := Z.eqb p NULL.

(** The bytes that the caller may read and write. *)
Abbreviation memory := (gmap Z Z) (only parsing).

Definition load (m : memory) (p : addr) (n : nat) : option (list Z) := mapM (λ a, m !! a) (seqZ p n).
Definition store (m : memory) (p : addr) (bytes : list Z) : memory := map_seqZ p bytes ∪ m.

(** ** Computations *)

Record World (Obj : Type) : Type := { mem : memory; objects : gmap addr Obj; next_object : addr }.
Arguments mem {_} _.
Arguments objects {_} _.
Arguments next_object {_} _.

Inductive outcome (Obj A : Type) : Type :=
| Returned (a : A) (w : World Obj)
| Panicked (w : World Obj)
| Undefined.
Arguments Returned {_ _} _ _.
Arguments Panicked {_ _} _.
Arguments Undefined {_ _}.

Definition M (Obj A : Type) : Type := World Obj → outcome Obj A.

#[global] Instance M_ret {Obj} : MRet (M Obj) := λ A a w, Returned a w.
#[global] Instance M_bind {Obj} : MBind (M Obj) := λ A B f m w,
  match m w with
  | Returned a w => f a w
  | Panicked w => Panicked w
  | Undefined => Undefined
  end.

(** A handle type is one of the types of objects. *)
Class HandleType (Obj T : Type) : Type := { into_obj : T → Obj; from_obj : Obj → option T }.
Class HandleTypeLaws (Obj T : Type) `{HandleType Obj T} : Prop := { from_into_obj (x : T) : from_obj (into_obj x) = Some x }.

(** An interface with one type of handle, and with one more. *)
#[global] Instance handle_self {T} : HandleType T T | 10 := {| into_obj := id; from_obj := Some |}.
#[global] Instance handle_self_laws {T} : HandleTypeLaws T T | 10.
Proof. by split. Qed.
#[global] Instance handle_left {T U} : HandleType (T + U) T | 1 := {| into_obj := inl; from_obj := λ o, match o with inl x => Some x | inr _ => None end |}.
#[global] Instance handle_left_laws {T U} : HandleTypeLaws (T + U) T | 1.
Proof. by split. Qed.
#[global] Instance handle_right {T U V} `{HandleType V U} : HandleType (T + V) U | 2 :=
  {| into_obj := λ x, inr (into_obj x); from_obj := λ o, match o with inl _ => None | inr x => from_obj x end |}.
#[global] Instance handle_right_laws {T U V} `{HandleTypeLaws V U} : HandleTypeLaws (T + V) U | 2.
Proof. split. intros x. cbn. apply from_into_obj. Qed.

Section operations.
Context {Obj : Type}.

Definition undefined {A} : M Obj A := λ _, Undefined.
Definition panic {A} : M Obj A := λ w, Panicked w.

(** The library's functions: [None] is a panic. *)
Definition library {A} (r : option A) : M Obj A := match r with Some a => mret a | None => panic end.

Definition set_mem (w : World Obj) (m : memory) : World Obj := {| mem := m; objects := objects w; next_object := next_object w |}.
Definition set_objects (w : World Obj) (os : gmap addr Obj) : World Obj := {| mem := mem w; objects := os; next_object := next_object w |}.

(** ** Slices *)

Record Slice : Type := { s_ptr : addr; s_len : Z }.

(** What Rust demands of the memory behind a slice. *)
Definition in_address_space (p : addr) (len : Z) : bool := Z.ltb 0 p && Z.leb (p + len) (2 ^ 64 - 1) && Z.leb len (2 ^ 63 - 1).

(** [slice::from_raw_parts], [from_raw_parts_mut]. *)
Definition from_raw_parts (p : addr) (len : Z) : M Obj Slice := λ w,
  if in_address_space p len then
    match load (mem w) p (Z.to_nat len) with
    | Some _ => Returned {| s_ptr := p; s_len := len |} w
    | None => Undefined
    end
  else Undefined.

Definition empty_slice : Slice := {| s_ptr := 1; s_len := 0 |}.

Definition slice_from_raw (p : addr) (len : Z) : M Obj (option Slice) :=
  if Z.eqb len 0 then mret (Some empty_slice)
  else if is_null p then mret None
  else s ← from_raw_parts p len; mret (Some s).

Definition slice_from_raw_mut (p : addr) (len : Z) : M Obj (option Slice) := slice_from_raw p len.

Definition share_byte (s t : Slice) : bool :=
  Z.ltb 0 (s_len s) && Z.ltb 0 (s_len t) && Z.ltb (s_ptr s) (s_ptr t + s_len t) && Z.ltb (s_ptr t) (s_ptr s + s_len s).

(** The references that are live together: an exclusive one shares no byte with another. *)
Fixpoint aliased (shared exclusive : list Slice) : bool :=
  match exclusive with
  | [] => false
  | s :: exclusive => existsb (share_byte s) shared || existsb (share_byte s) exclusive || aliased shared exclusive
  end.

Definition live (shared exclusive : list Slice) : M Obj () := if aliased shared exclusive then undefined else mret tt.

Definition get (s : Slice) : M Obj (list Z) := λ w,
  match load (mem w) (s_ptr s) (Z.to_nat (s_len s)) with
  | Some bytes => Returned bytes w
  | None => Undefined
  end.

(** The bytes of an exclusive slice after it was lent. *)
Definition put (s : Slice) (bytes : list Z) : M Obj () := λ w, Returned tt (set_mem w (store (mem w) (s_ptr s) bytes)).

(** [s[..bytes.len()].copy_from_slice(bytes)]: the index panics when it is out of range. *)
Definition copy_prefix (s : Slice) (bytes : list Z) : M Obj () := if Z.ltb (s_len s) (length bytes) then panic else put s bytes.

(** [s.copy_from_slice(bytes)]. *)
Definition copy_from_slice (s : Slice) (bytes : list Z) : M Obj () := if Z.eqb (s_len s) (length bytes) then put s bytes else panic.

(** The array behind a pointer that is not null. *)
Definition read_array (p : addr) (n : nat) : M Obj (list Z) := s ← from_raw_parts p n; get s.
Definition write_array (p : addr) (n : nat) (bytes : list Z) : M Obj () := s ← from_raw_parts p n; copy_from_slice s bytes.

(** [*p = value] for an integer of [n] bytes, which is aligned. *)
Definition write_int (n : nat) (p : addr) (value : Z) : M Obj () :=
  if Z.eqb (p mod n) 0 then s ← from_raw_parts p n; put s (to_le_bytes n value) else undefined.
Definition write_usize (p : addr) (value : Z) : M Obj () := write_int 8 p value.
Definition write_ptr (p : addr) (value : addr) : M Obj () := write_int 8 p value.

Definition saturating_add (w a b : Z) : Z := Z.min (a + b) (2 ^ w - 1).

Definition overlaps (a : addr) (a_len : Z) (b : addr) (b_len : Z) : bool :=
  if is_null a || is_null b || Z.eqb a_len 0 || Z.eqb b_len 0 then false
  else Z.ltb a (saturating_add 64 b b_len) && Z.ltb b (saturating_add 64 a a_len).

(** ** Panics *)

Definition catch_unwind {A} (f : M Obj A) : M Obj (option A) := λ w,
  match f w with
  | Returned a w => Returned (Some a) w
  | Panicked w => Returned None w
  | Undefined => Undefined
  end.

Definition guard_status (f : M Obj DstuStatus) : M Obj DstuStatus := r ← catch_unwind f; mret (default DSTU_ERR_PANIC r).
Definition guard_ptr (f : M Obj addr) : M Obj addr := r ← catch_unwind f; mret (default NULL r).
Definition guard_bool (f : M Obj bool) : M Obj bool := r ← catch_unwind f; mret (default false r).
Definition guard_usize (f : M Obj Z) : M Obj Z := r ← catch_unwind f; mret (default 0 r).
Definition guard_void (f : M Obj ()) : M Obj () := r ← catch_unwind f; mret tt.

Definition dstu_memzero (buf : addr) (len : Z) : M Obj () :=
  guard_void (
    if is_null buf || Z.eqb len 0 then mret tt
    else s ← from_raw_parts buf len; put s (replicate (Z.to_nat len) 0)).

(** ** Handles *)

Section handles.
Context {T : Type} `{HandleType Obj T}.

(** [&*p]. *)
Definition deref (p : addr) : M Obj T := λ w,
  match objects w !! p ≫= from_obj with
  | Some x => Returned x w
  | None => Undefined
  end.

(** An assignment through [&mut *p]. *)
Definition assign (p : addr) (x : T) : M Obj () := λ w, Returned tt (set_objects w (<[p := into_obj x]> (objects w))).

(** [Box::into_raw(Box::new(x))]. *)
Definition box_into_raw (x : T) : M Obj addr := λ w,
  Returned (next_object w) {| mem := mem w; objects := <[next_object w := into_obj x]> (objects w); next_object := next_object w + 1 |}.

(** [drop(Box::from_raw(p))]. *)
Definition drop_box (p : addr) : M Obj () := λ w,
  match deref p w with
  | Returned _ w => Returned tt (set_objects w (delete p (objects w)))
  | Panicked w => Panicked w
  | Undefined => Undefined
  end.

(** Every [dstu_*_free]. *)
Definition free (p : addr) : M Obj () := guard_void (if negb (is_null p) then drop_box p else mret tt).
End handles.
End operations.

(** ** Memory lemmas *)

Lemma load_nil m p : load m p 0 = Some [].
Proof. done. Qed.

Lemma load_cons m p n : load m p (S n) = (b ← m !! p; l ← load m (p + 1) n; Some (b :: l)).
Proof.
  unfold load. rewrite seqZ_cons by lia. rewrite Nat2Z.inj_succ, Z.pred_succ. done.
Qed.

Lemma load_lookup m p n bytes : load m p n = Some bytes ↔ length bytes = n ∧ ∀ (i : nat) b, bytes !! i = Some b → m !! (p + i) = Some b.
Proof.
  revert p bytes. induction n as [|n IH]; intros p bytes.
  { rewrite load_nil. split; [intros [= <-]; done|]. intros [Hl _]. by destruct bytes. }
  rewrite load_cons. split.
  - intros E. destruct (m !! p) as [b|] eqn:Eb; [|done]. cbn [mbind option_bind] in E. destruct (load m (p + 1) n) as [l|] eqn:El; [|done]. injection E as <-.
    apply IH in El as [Hl Hi]. split; [cbn; by rewrite Hl|]. intros [|i] b'; cbn; [intros [= <-]; by rewrite Z.add_0_r|]. intros E. rewrite <- (Hi i b' E). f_equal. lia.
  - intros [Hl Hi]. destruct bytes as [|b bytes]; [done|]. pose proof (Hi 0%nat b eq_refl) as E0. rewrite Z.add_0_r in E0. rewrite E0. cbn [mbind option_bind].
    rewrite (proj2 (IH (p + 1) bytes)); [done|]. split; [by injection Hl|]. intros i b' E. rewrite <- (Hi (S i) b' E). f_equal. lia.
Qed.

Lemma store_lookup m p bytes a : store m p bytes !! a = if decide (p ≤ a < p + length bytes) then bytes !! Z.to_nat (a - p) else m !! a.
Proof.
  unfold store. destruct (decide (p ≤ a < p + length bytes)) as [Ha|Ha].
  - rewrite lookup_union_l'.
    + rewrite lookup_map_seqZ, option_guard_True by lia. done.
    + rewrite lookup_map_seqZ, option_guard_True by lia. apply lookup_lt_is_Some_2. lia.
  - apply lookup_union_r. rewrite lookup_map_seqZ. destruct (decide (p ≤ a)); [|by rewrite option_guard_False]. rewrite option_guard_True by done. apply lookup_ge_None_2. lia.
Qed.

(** The range from [p] of [n] bytes and the range from [q] of [k] have no common address. *)
Definition apart (p : addr) (n : Z) (q : addr) (k : Z) : Prop := ∀ a, ¬ (p ≤ a < p + n ∧ q ≤ a < q + k).

Lemma apart_iff p n q k : apart p n q k ↔ n ≤ 0 ∨ k ≤ 0 ∨ p + n ≤ q ∨ q + k ≤ p.
Proof.
  split; [|intros Hc a; lia]. intros Ha. destruct (decide (0 < n)); [|lia]. destruct (decide (0 < k)); [|lia].
  specialize (Ha (Z.max p q)). lia.
Qed.

Lemma load_store_same m p bytes : load (store m p bytes) p (length bytes) = Some bytes.
Proof.
  apply load_lookup. split; [done|]. intros i b E. pose proof (lookup_lt_Some _ _ _ E). rewrite store_lookup, decide_True by lia. rewrite <- E. f_equal. lia.
Qed.

Lemma load_store_apart m p n q bytes loaded :
  apart p n q (length bytes) → load m p (Z.to_nat n) = Some loaded → load (store m q bytes) p (Z.to_nat n) = Some loaded.
Proof.
  rewrite !load_lookup. intros Ha [Hl Hi]. split; [done|]. intros i b E. rewrite store_lookup, decide_False; [by apply Hi|].
  pose proof (lookup_lt_Some _ _ _ E). specialize (Ha (p + i)). lia.
Qed.

Lemma store_nil m p : store m p [] = m.
Proof. unfold store. cbn. apply (left_id_L ∅ (∪)). Qed.

(** The part of a buffer that is written. *)
Lemma store_same_domain m p bytes loaded q :
  load m p (length bytes) = Some loaded → is_Some (store m p bytes !! q) ↔ is_Some (m !! q).
Proof.
  intros E. apply load_lookup in E as [Hl Hi]. rewrite store_lookup. case_decide as Hq; [|done].
  assert (Z.to_nat (q - p) < length bytes)%nat as Hlt by lia. split; intros _; [|by apply lookup_lt_is_Some_2].
  destruct (lookup_lt_is_Some_2 loaded (Z.to_nat (q - p))) as [b Eb]; [lia|]. exists b. rewrite <- (Hi _ _ Eb). f_equal. lia.
Qed.

Definition memory_ok (m : memory) : Prop := map_Forall (λ _ b, byte_ok b) m.

Lemma store_ok m p bytes : memory_ok m → bytes_ok bytes → memory_ok (store m p bytes).
Proof.
  intros Hm Hb a b. rewrite store_lookup. case_decide; [|by apply Hm]. intros E. rewrite Forall_lookup in Hb. by eapply Hb.
Qed.

Lemma load_ok m p n bytes : memory_ok m → load m p n = Some bytes → bytes_ok bytes.
Proof. intros Hm E. apply load_lookup in E as [_ Hi]. apply Forall_lookup. intros i b Eb. eapply Hm, Hi, Eb. Qed.

(** Buffers: the bytes [bytes] lie at [p], as Rust demands of a slice. *)
Definition buffer (m : memory) (p : addr) (bytes : list Z) : Prop :=
  (bytes = [] ∨ in_address_space p (length bytes) = true) ∧ load m p (length bytes) = Some bytes.

(** An argument that the documentation of a function calls valid when it is not null. *)
Definition valid_arg (m : memory) (p : addr) (n : Z) : Prop :=
  word_ok 64 p ∧ word_ok 64 n ∧ (p = NULL ∨ ∃ bytes, n = length bytes ∧ buffer m p bytes).

(** The same for a pointer to an aligned integer. *)
Definition valid_cell (m : memory) (n : nat) (p : addr) : Prop := valid_arg m p n ∧ (p mod n = 0).

Lemma in_address_space_spec p n : in_address_space p n = true ↔ 0 < p ∧ p + n ≤ 2 ^ 64 - 1 ∧ n ≤ 2 ^ 63 - 1.
Proof. unfold in_address_space. rewrite !andb_true_iff, Z.ltb_lt, !Z.leb_le. tauto. Qed.

Lemma buffer_length m p bytes : buffer m p bytes → length bytes ≤ 2 ^ 63 - 1.
Proof. intros [[->|H] _]; [done|]. apply in_address_space_spec in H. lia. Qed.

Lemma buffer_not_null m p bytes : buffer m p bytes → bytes ≠ [] → p ≠ NULL.
Proof. intros [[->|H] _] Hn; [done|]. apply in_address_space_spec in H. unfold NULL. lia. Qed.

Lemma buffer_null m bytes : buffer m NULL bytes → bytes = [].
Proof. intros Hb. destruct bytes; [done|]. by destruct (buffer_not_null _ _ _ Hb). Qed.

Lemma buffer_store_same m p bytes new : buffer m p bytes → length new = length bytes → buffer (store m p new) p new.
Proof.
  intros [H _] Hl. split; [|apply load_store_same]. destruct H as [->|H]; [left; by destruct new|right; by rewrite Hl].
Qed.

Lemma buffer_store_apart m p bytes q new : buffer m p bytes → apart p (length bytes) q (length new) → buffer (store m q new) p bytes.
Proof. intros [H E] Ha. split; [done|]. rewrite <- (Nat2Z.id (length bytes)) in *. apply load_store_apart; by rewrite ?Nat2Z.id in *. Qed.

Lemma buffer_prefix m p bytes n : buffer m p bytes → buffer m p (take n bytes).
Proof.
  intros [H E]. apply load_lookup in E as [_ Hi]. split.
  - destruct H as [->|H]; [left; by destruct n|]. right. apply in_address_space_spec in H. apply in_address_space_spec. rewrite length_take. lia.
  - apply load_lookup. split; [done|]. intros i b Eb. apply Hi. apply lookup_take_Some in Eb. tauto.
Qed.

Lemma buffer_ok m p bytes : memory_ok m → buffer m p bytes → bytes_ok bytes.
Proof. intros Hm [_ E]. by eapply load_ok. Qed.

Lemma buffer_unique m p b1 b2 : buffer m p b1 → buffer m p b2 → length b1 = length b2 → b1 = b2.
Proof. intros [_ E1] [_ E2] Hl. rewrite Hl in E1. congruence. Qed.

(** ** The test for overlapping arguments *)

Lemma overlaps_shares p n q k :
  0 ≤ n → 0 ≤ k → (n = 0 ∨ in_address_space p n = true) → (k = 0 ∨ in_address_space q k = true) →
  overlaps p n q k = share_byte {| s_ptr := p; s_len := n |} {| s_ptr := q; s_len := k |}.
Proof.
  rewrite !in_address_space_spec. intros Hn0 Hk0 Hn Hk. unfold overlaps, share_byte, is_null, NULL, saturating_add. cbn [s_ptr s_len].
  destruct (Z.eqb_spec p 0), (Z.eqb_spec q 0), (Z.eqb_spec n 0), (Z.eqb_spec k 0); cbn [orb];
    repeat match goal with |- context [Z.ltb ?x ?y] => destruct (Z.ltb_spec x y) end; cbn [andb]; try done; lia.
Qed.

(** The slice that [slice_from_raw] makes. *)
Definition slice_at (p : addr) (n : Z) : Slice := if Z.eqb n 0 then empty_slice else {| s_ptr := p; s_len := n |}.

Lemma slice_at_len p n : s_len (slice_at p n) = n.
Proof. unfold slice_at. by destruct (Z.eqb_spec n 0). Qed.

Lemma valid_arg_space m p n : valid_arg m p n → 0 ≤ n ∧ (p = NULL ∨ n = 0 ∨ in_address_space p n = true).
Proof.
  intros (Hp & Hn & H). split; [apply Hn|]. destruct H as [->|(bytes & -> & [[->|H] _])]; auto.
Qed.

Lemma share_byte_slices p n q k : 0 ≤ n → 0 ≤ k → share_byte (slice_at p n) (slice_at q k) = share_byte {| s_ptr := p; s_len := n |} {| s_ptr := q; s_len := k |}.
Proof.
  intros Hn Hk. unfold slice_at. destruct (Z.eqb_spec n 0) as [->|]; [done|]. destruct (Z.eqb_spec k 0) as [->|]; [|done].
  unfold share_byte, empty_slice. cbn [s_len s_ptr]. by rewrite !andb_false_r.
Qed.

Lemma share_byte_spec p n q k : 0 ≤ n → 0 ≤ k → share_byte (slice_at p n) (slice_at q k) = false ↔ apart p n q k.
Proof.
  intros Hn Hk. rewrite share_byte_slices, apart_iff by done. unfold share_byte. cbn [s_ptr s_len].
  repeat match goal with |- context [Z.ltb ?x ?y] => destruct (Z.ltb_spec x y) end; cbn [andb]; split; try done; intros; lia.
Qed.

Lemma overlaps_apart m p n q k : valid_arg m p n → valid_arg m q k → p ≠ NULL ∨ n = 0 → q ≠ NULL ∨ k = 0 → overlaps p n q k = false ↔ apart p n q k.
Proof.
  intros Hp Hq Hp0 Hq0. apply valid_arg_space in Hp as [Hn Hp], Hq as [Hk Hq]. rewrite overlaps_shares by (done || tauto).
  rewrite <- share_byte_slices by done. by apply share_byte_spec.
Qed.

(** ** Total correctness *)

Section logic.
Context {Obj : Type}.
Implicit Types w : World Obj.

(** The computation returns, and [Q] holds of its result and the world after it. *)
Definition total {A} (m : M Obj A) (w : World Obj) (Q : A → World Obj → Prop) : Prop :=
  match m w with
  | Returned a w => Q a w
  | Panicked _ | Undefined => False
  end.

Lemma total_returned {A} (m : M Obj A) w Q : total m w Q ↔ ∃ a w', m w = Returned a w' ∧ Q a w'.
Proof. unfold total. split; [destruct (m w); naive_solver|]. by intros (a & w' & -> & H). Qed.

Lemma total_ret {A} (a : A) w Q : Q a w → total (mret a) w Q.
Proof. done. Qed.

Lemma total_bind {A B} (m : M Obj A) (f : A → M Obj B) w Q : total m w (λ a w, total (f a) w Q) → total (m ≫= f) w Q.
Proof. unfold total, mbind, M_bind. by destruct (m w). Qed.

Lemma total_mono {A} (m : M Obj A) w (Q R : A → World Obj → Prop) : total m w Q → (∀ a w, Q a w → R a w) → total m w R.
Proof. unfold total. destruct (m w); auto. Qed.

Lemma total_if {A} (b : bool) (m1 m2 : M Obj A) w Q : (b = true → total m1 w Q) → (b = false → total m2 w Q) → total (if b then m1 else m2) w Q.
Proof. destruct b; auto. Qed.

Lemma total_catch {A B} (m : M Obj A) (f : option A → M Obj B) w Q : total m w (λ a w, total (f (Some a)) w Q) → total (catch_unwind m ≫= f) w Q.
Proof. unfold total, mbind, M_bind, catch_unwind. by destruct (m w). Qed.

Lemma total_guard_status (m : M Obj DstuStatus) w Q : total m w Q → total (guard_status m) w Q.
Proof. intros H. by apply (total_catch m (λ r, mret (default DSTU_ERR_PANIC r))). Qed.
Lemma total_guard_ptr (m : M Obj Z) w Q : total m w Q → total (guard_ptr m) w Q.
Proof. intros H. by apply (total_catch m (λ r, mret (default NULL r))). Qed.
Lemma total_guard_bool (m : M Obj bool) w Q : total m w Q → total (guard_bool m) w Q.
Proof. intros H. by apply (total_catch m (λ r, mret (default false r))). Qed.
Lemma total_guard_usize (m : M Obj Z) w Q : total m w Q → total (guard_usize m) w Q.
Proof. intros H. by apply (total_catch m (λ r, mret (default 0 r))). Qed.
Lemma total_guard_void (m : M Obj ()) w (Q : () → World Obj → Prop) : total m w Q → total (guard_void m) w Q.
Proof. intros H. apply (total_catch m (λ _, mret tt)). eapply total_mono; [exact H|]. by intros [] w'. Qed.

Lemma total_library {A} (r : option A) a w Q : r = Some a → Q a w → total (library r) w Q.
Proof. by intros ->. Qed.

Lemma total_from_raw_parts p bytes w Q : bytes ≠ [] → buffer (mem w) p bytes → Q (slice_at p (length bytes)) w → total (from_raw_parts p (length bytes)) w Q.
Proof.
  intros Hne [[->|Hs] Hl] HQ; [done|]. unfold total, from_raw_parts. rewrite Hs, Nat2Z.id, Hl. unfold slice_at in HQ.
  destruct (Z.eqb_spec (length bytes) 0); [by destruct bytes|done].
Qed.

Lemma total_slice p n w Q :
  valid_arg (mem w) p n → (n ≠ 0 → p = NULL → Q None w) → (∀ bytes, n = length bytes → buffer (mem w) p bytes → Q (Some (slice_at p n)) w) →
  total (slice_from_raw p n) w Q.
Proof.
  intros (Hp & Hn & H) HN HS. unfold slice_from_raw. destruct (Z.eqb_spec n 0) as [->|Hn0].
  { apply (HS []); [done|]. split; [by left|done]. }
  destruct (Z.eqb_spec p NULL) as [->|Hp0].
  { unfold is_null. cbn [Z.eqb]. by apply total_ret, HN. }
  unfold is_null. rewrite (proj2 (Z.eqb_neq p NULL)) by done. destruct H as [->|(bytes & -> & Hb)]; [done|].
  apply total_bind, total_from_raw_parts; [by intros ->|done|]. apply total_ret. by apply (HS bytes).
Qed.

Lemma total_get p bytes w Q : buffer (mem w) p bytes → Q bytes w → total (get (slice_at p (length bytes))) w Q.
Proof.
  intros [_ Hl] HQ. unfold total, get, slice_at. destruct (Z.eqb_spec (length bytes) 0) as [E|E].
  - by destruct bytes.
  - cbn [s_ptr s_len]. by rewrite Nat2Z.id, Hl.
Qed.

Lemma total_put p n bytes w (Q : () → World Obj → Prop) : length bytes = n → Q tt (set_mem w (store (mem w) p bytes)) → total (put (slice_at p n) bytes) w Q.
Proof.
  intros <- HQ. unfold total, put, slice_at. destruct (Z.eqb_spec (length bytes) 0) as [E|E]; [|done]. destruct bytes; [|done]. by rewrite store_nil in *.
Qed.

Lemma total_copy_prefix p (n : nat) bytes w (Q : () → World Obj → Prop) :
  (length bytes ≤ n)%nat → Q tt (set_mem w (store (mem w) p bytes)) → total (copy_prefix (slice_at p n) bytes) w Q.
Proof.
  intros Hl HQ. unfold copy_prefix. rewrite slice_at_len. destruct (Z.ltb_spec n (length bytes)); [lia|]. unfold total, put, slice_at.
  destruct (Z.eqb_spec n 0) as [E|E]; [|done]. destruct bytes; [|cbn in *; lia]. by rewrite store_nil in *.
Qed.

Lemma total_copy_from_slice p n bytes w (Q : () → World Obj → Prop) :
  length bytes = n → Q tt (set_mem w (store (mem w) p bytes)) → total (copy_from_slice (slice_at p n) bytes) w Q.
Proof. intros <- HQ. unfold copy_from_slice. rewrite slice_at_len, Z.eqb_refl. by apply total_put. Qed.

Lemma total_live shared exclusive w (Q : () → World Obj → Prop) : aliased shared exclusive = false → Q tt w → total (live shared exclusive) w Q.
Proof. intros E HQ. unfold live. by rewrite E. Qed.

Lemma total_read_array p bytes n w Q : length bytes = n → (n ≠ 0)%nat → buffer (mem w) p bytes → Q bytes w → total (read_array p n) w Q.
Proof. intros <- Hn Hb HQ. apply total_bind, total_from_raw_parts; [by destruct bytes|done|]. by apply total_get. Qed.

Lemma total_write_array p old bytes n w (Q : () → World Obj → Prop) :
  length old = n → length bytes = n → (n ≠ 0)%nat → buffer (mem w) p old → Q tt (set_mem w (store (mem w) p bytes)) → total (write_array p n bytes) w Q.
Proof.
  intros Ho Hl Hn Hb HQ. apply total_bind. rewrite <- Ho. apply total_from_raw_parts; [by destruct old; subst n|done|]. apply total_copy_from_slice; [congruence|done].
Qed.

Lemma total_write_int (n : nat) p value w (Q : () → World Obj → Prop) :
  (n ≠ 0)%nat → valid_cell (mem w) n p → p ≠ NULL → Q tt (set_mem w (store (mem w) p (to_le_bytes n value))) → total (write_int n p value) w Q.
Proof.
  intros Hn [(_ & _ & [->|(old & Hl & Hb)]) Ha] Hp HQ; [done|]. assert (n = length old) as -> by lia. unfold write_int. rewrite Ha. cbn [Z.eqb].
  apply total_bind, total_from_raw_parts; [by destruct old|done|]. apply total_put; [by rewrite length_to_le_bytes|done].
Qed.

Context {T : Type} `{HandleTypeLaws Obj T}.

(** [p] leads to a live object. *)
Definition handle w (p : addr) (x : T) : Prop := p ≠ NULL ∧ objects w !! p = Some (into_obj x).

Lemma total_deref p x w Q : handle w p x → Q x w → total (deref p) w Q.
Proof. intros [_ E] HQ. unfold total, deref. rewrite E. cbn [mbind option_bind]. by rewrite from_into_obj. Qed.

Lemma total_assign p (x : T) w (Q : () → World Obj → Prop) : Q tt (set_objects w (<[p := into_obj x]> (objects w))) → total (assign p x) w Q.
Proof. done. Qed.

Lemma total_box (x : T) w Q : Q (next_object w) {| mem := mem w; objects := <[next_object w := into_obj x]> (objects w); next_object := next_object w + 1 |} → total (box_into_raw x) w Q.
Proof. done. Qed.

Lemma total_free p x w (Q : () → World Obj → Prop) : handle w p x → Q tt (set_objects w (delete p (objects w))) → total (free (T := T) p) w Q.
Proof.
  intros Hh HQ. apply total_guard_void. unfold is_null. rewrite (proj2 (Z.eqb_neq p NULL)) by apply Hh. cbn [negb]. unfold drop_box.
  pose proof (total_deref p x w (λ _ w', w' = w) Hh eq_refl) as Hd. unfold total in *. destruct (deref p w); [by subst|done|done].
Qed.
End logic.

(** Two ranges that a caller passes overlap for [overlaps] exactly when they share a byte; a null pointer or an empty range shares none. *)
Theorem overlaps_exact (a : addr) (a_len : Z) (b : addr) (b_len : Z) :
  word_ok 64 a → word_ok 64 b → 0 ≤ a_len → 0 ≤ b_len → (a = NULL ∨ a_len = 0 ∨ in_address_space a a_len = true) → (b = NULL ∨ b_len = 0 ∨ in_address_space b b_len = true) →
  overlaps a a_len b b_len = true ↔ a ≠ NULL ∧ b ≠ NULL ∧ ∃ x, a ≤ x < a + a_len ∧ b ≤ x < b + b_len.
Proof.
  intros Ha0 Hb0 Hn Hk Ha Hb. destruct (decide (a = NULL)) as [->|Hna]; [by split; [|tauto]|].
  destruct (decide (b = NULL)) as [->|Hnb]; [unfold overlaps; rewrite orb_true_r; cbn; by split; [|tauto]|].
  rewrite overlaps_shares by (done || tauto). rewrite <- share_byte_slices, <- not_false_iff_true, share_byte_spec by done. rewrite apart_iff. split.
  - intros Hc. do 2 (split; [done|]). exists (Z.max a b). lia.
  - intros (_ & _ & x & Hx) Hc. lia.
Qed.

Lemma overlaps_exact_witness :
  in_address_space 4096 10 = true ∧ (overlaps 4096 10 4105 4 = true ↔ 4096 ≠ NULL ∧ 4105 ≠ NULL ∧ ∃ x, 4096 ≤ x < 4096 + 10 ∧ 4105 ≤ x < 4105 + 4).
Proof. split; [reflexivity|]. apply (overlaps_exact 4096 10 4105 4); [by_decision|by_decision|done|done|by right; right|by right; right]. Defined.

(** Writing into a buffer keeps every argument valid. *)
Lemma load_domain m m' p n old : (∀ q, is_Some (m !! q) → is_Some (m' !! q)) → load m p n = Some old → ∃ new, load m' p n = Some new.
Proof.
  intros Hd. revert p old. induction n as [|n IH]; intros p old; [by exists []|]. rewrite !load_cons. destruct (m !! p) as [b|] eqn:Eb; [|done]. cbn [mbind option_bind].
  destruct (load m (p + 1) n) as [l|] eqn:El; [|done]. intros _. destruct (IH (p + 1) l El) as [l' El']. destruct (Hd p) as [b' Eb']; [by eexists|].
  exists (b' :: l'). by rewrite Eb', El'.
Qed.

Lemma buffer_domain m m' p old : (∀ q, is_Some (m !! q) → is_Some (m' !! q)) → buffer m p old → ∃ new, length new = length old ∧ buffer m' p new.
Proof.
  intros Hd [Hs Hl]. destruct (load_domain _ m' _ _ _ Hd Hl) as [new En]. pose proof (proj1 (proj1 (load_lookup _ _ _ _) En)) as Hn. exists new. split; [done|].
  split; [destruct Hs as [->|Hs]; [left; by destruct new|right; by rewrite Hn]|by rewrite Hn].
Qed.

Lemma valid_arg_domain m m' p n : (∀ q, is_Some (m !! q) → is_Some (m' !! q)) → valid_arg m p n → valid_arg m' p n.
Proof.
  intros Hd (Hp & Hn & H). split; [done|]. split; [done|]. destruct H as [->|(old & -> & Hb)]; [by left|]. right.
  destruct (buffer_domain _ m' _ _ Hd Hb) as (new & Hl & Hb'). exists new. by rewrite Hl.
Qed.

Lemma valid_cell_domain m m' n p : (∀ q, is_Some (m !! q) → is_Some (m' !! q)) → valid_cell m n p → valid_cell m' n p.
Proof. intros Hd [H1 H2]. split; [by eapply valid_arg_domain|done]. Qed.

Lemma store_domain m p bytes q : is_Some (m !! q) → is_Some (store m p bytes !! q).
Proof. intros H. rewrite store_lookup. case_decide; [apply lookup_lt_is_Some_2; lia|done]. Qed.

(** A valid argument that is not null holds bytes. *)
Lemma valid_arg_bytes m p n : valid_arg m p n → p ≠ NULL → ∃ bytes, n = length bytes ∧ buffer m p bytes.
Proof. intros (_ & _ & [->|H]) Hp; [done|exact H]. Qed.

#[export] Hint Resolve store_domain : uacrypt.

(** Two slices that a function holds together. *)
Lemma aliased_pair m p n q k : valid_arg m p n → valid_arg m q k → (p = NULL → n = 0) → (q = NULL → k = 0) → overlaps p n q k = false → aliased [slice_at p n] [slice_at q k] = false.
Proof.
  intros Hp Hq Hp0 Hq0 Ho. cbn. rewrite !orb_false_r. apply share_byte_spec; [by eapply proj1, valid_arg_space|by eapply proj1, valid_arg_space|].
  assert (apart p n q k) as Ha; [|intros a Hx; apply (Ha a); tauto].
  apply (overlaps_apart m); [done|done|destruct (decide (p = NULL)); auto|destruct (decide (q = NULL)); auto|done].
Qed.

(** Steps of a computation: [cstep] applies the rule of the first operation. *)
Ltac cstep :=
  cbv beta;
  lazymatch goal with
  | |- total (mret _) _ _ => apply total_ret
  | |- total (mbind _ _) _ _ => apply total_bind
  | |- total (guard_status _) _ _ => apply total_guard_status
  | |- total (guard_ptr _) _ _ => apply total_guard_ptr
  | |- total (guard_bool _) _ _ => apply total_guard_bool
  | |- total (guard_usize _) _ _ => apply total_guard_usize
  | |- total (guard_void _) _ _ => apply total_guard_void
  | |- total (assign _ _) _ _ => apply total_assign
  | |- total (box_into_raw _) _ _ => apply total_box
  | |- total (if _ then _ else _) _ _ => apply total_if
  end.

(** Writing back what was read. *)
Lemma store_same m p bytes : load m p (length bytes) = Some bytes → store m p bytes = m.
Proof.
  intros E. apply load_lookup in E as [_ Hi]. apply map_eq. intros a. rewrite store_lookup. case_decide as Ha; [|done].
  destruct (lookup_lt_is_Some_2 bytes (Z.to_nat (a - p))) as [b Eb]; [lia|]. rewrite Eb, <- (Hi _ _ Eb). f_equal. lia.
Qed.

Lemma set_mem_same {Obj} (w : World Obj) : set_mem w (mem w) = w.
Proof. by destruct w. Qed.

Lemma set_objects_same {Obj T} `{HandleType Obj T} (w : World Obj) p (x : T) : handle w p x → set_objects w (<[p := into_obj x]> (objects w)) = w.
Proof. intros [_ E]. destruct w as [m os nx]. unfold set_objects. cbn in *. by rewrite insert_id. Qed.

(** A part of what was stored. *)
Lemma buffer_part p (before bytes after : list Z) :
  in_address_space p (length (before ++ bytes ++ after)) = true → buffer (store ∅ p (before ++ bytes ++ after)) (p + length before) bytes.
Proof.
  rewrite in_address_space_spec, !length_app. intros Hs. split; [right; apply in_address_space_spec; lia|]. apply load_lookup. split; [done|]. intros i b E.
  pose proof (lookup_lt_Some _ _ _ E). rewrite store_lookup, decide_True by (rewrite !length_app; lia).
  replace (Z.to_nat (p + length before + i - p)) with (length before + i)%nat by lia. rewrite lookup_app_r by lia. rewrite lookup_app_l by lia. rewrite <- E. f_equal. lia.
Qed.
