(* ===== verification/CPrimitives.v ===== *)
(** The C interface of the one-shot functions ([crates/dstu-core-capi/src/auth.rs], [kdf.rs], [generichash.rs], [stream.rs],
    [secretbox.rs], [randombytes.rs]) over the boundary of [CAbi.v]: keys behind handles, authentication, subkeys, hashing, and the
    sealing of whole messages into the caller's buffers. *)

From stdpp Require Import gmap.
From S2P Require Import Prelude External Randombytes Tables Stream Kalyna Ghash Kupyna KupynaKmac Strumok CryptoAuth CryptoStream CryptoSecretbox CAbi.
#[local] Open Scope Z_scope.
#[local] Open Scope uacrypt_scope.

(** An early return out of a [let ... else]. *)
#[local] Notation "x ←? m 'else' e ; k" := (mbind (λ o, match o with Some x => k | None => mret e end) m)
  (at level 20, m at level 100, e at level 200, k at level 200, right associativity).

(** ** Keys *)

(** The four handles of 32-byte keys, [AuthKey] of [auth.rs] and so on, and the two hashers. *)
Record DstuAuthKey : Type := { auth_key : list Z }.
Record DstuKdfMasterKey : Type := { kdf_key : list Z }.
Record DstuStreamKey : Type := { stream_key : list Z }.
Record DstuSecretboxKey : Type := { secretbox_key : list Z }.
Record DstuKupyna256Hasher : Type := { hasher256 : option KupynaCore }.
Record DstuKupyna512Hasher : Type := { hasher512 : option KupynaCore }.

Section keys.
Context {Obj T : Type} `{HandleType Obj T} (wrap_key : list Z → T) (key_of : T → list Z).

Definition key_generate {GE} (fill : fill_call GE) (out : addr) : M Obj DstuStatus :=
  guard_status (
    if is_null out then mret DSTU_ERR_NULL_POINTER
    else
      match generate_key fill with
      | Ok key => p ← box_into_raw (wrap_key key); _ ← write_ptr out p; mret DSTU_OK
      | Err _ => mret DSTU_ERR_RANDOM
      end).

Definition key_from_bytes (key : addr) : M Obj addr :=
  guard_ptr (
    if is_null key then mret NULL
    else bytes ← read_array key 32; box_into_raw (wrap_key bytes)).

Definition key_bytes (key out : addr) : M Obj () :=
  guard_void (
    if is_null key || is_null out then mret tt
    else self ← deref key; write_array out 32 (key_of self)).
End keys.

(** ** Functions *)

Section functions.
Context {Obj : Type} `{Cpu} `{Subtle} {GE : Type}.

Section auth.
Context `{HandleType Obj DstuAuthKey}.

Definition dstu_auth_key_generate : fill_call GE → addr → M Obj DstuStatus := key_generate Build_DstuAuthKey.
Definition dstu_auth_key_from_bytes : addr → M Obj addr := key_from_bytes Build_DstuAuthKey.
Definition dstu_auth_key_bytes : addr → addr → M Obj () := key_bytes auth_key.
Definition dstu_auth_key_free : addr → M Obj () := free (T := DstuAuthKey).

Definition dstu_auth (key message : addr) (message_len : Z) (tag_out : addr) : M Obj () :=
  guard_void (
    if overlaps message message_len tag_out 32 then mret tt
    else if is_null key || is_null tag_out then mret tt
    else
      message ←? slice_from_raw message message_len else tt;
      self ← deref key;
      message ← get message;
      tag ← library (auth (auth_key self) message);
      write_array tag_out 32 tag).

Definition dstu_auth_verify (key message : addr) (message_len : Z) (tag : addr) : M Obj DstuStatus :=
  guard_status (
    if is_null key || is_null tag then mret DSTU_ERR_NULL_POINTER
    else
      message ←? slice_from_raw message message_len else DSTU_ERR_NULL_POINTER;
      tag_bytes ← read_array tag 32;
      self ← deref key;
      message ← get message;
      r ← library (auth_verify (auth_key self) message tag_bytes);
      match r with
      | Ok _ => mret DSTU_OK
      | Err _ => mret DSTU_ERR_TAG_MISMATCH
      end).
End auth.

Section kdf.
Context `{HandleType Obj DstuKdfMasterKey}.

Definition dstu_kdf_master_key_generate : fill_call GE → addr → M Obj DstuStatus := key_generate Build_DstuKdfMasterKey.
Definition dstu_kdf_master_key_from_bytes : addr → M Obj addr := key_from_bytes Build_DstuKdfMasterKey.
Definition dstu_kdf_master_key_bytes : addr → addr → M Obj () := key_bytes kdf_key.
Definition dstu_kdf_master_key_free : addr → M Obj () := free (T := DstuKdfMasterKey).

Definition dstu_kdf_derive_subkey (key : addr) (subkey_id : Z) (context out : addr) : M Obj () :=
  guard_void (
    if overlaps context 8 out 32 then mret tt
    else if is_null key || is_null context || is_null out then mret tt
    else
      self ← deref key;
      ctx ← read_array context 8;
      subkey ← library (master_derive_subkey (kdf_key self) subkey_id ctx);
      write_array out 32 subkey).
End kdf.

(** Both sizes of each function of [generichash.rs] are one text. *)
Section generichash.
Context (v : kupyna).

Definition generichash (message : addr) (message_len : Z) (out : addr) : M Obj () :=
  guard_void (
    if overlaps message message_len out (digest_bytes v) then mret tt
    else if is_null out then mret tt
    else
      message ←? slice_from_raw message message_len else tt;
      message ← get message;
      digest ← library (Kupyna.digest v message);
      write_array out (digest_bytes v) digest).

Context {T : Type} `{HandleType Obj T} (wrap_hasher : option KupynaCore → T) (hasher_of : T → option KupynaCore).

Definition new_hasher : M Obj addr := guard_ptr (box_into_raw (wrap_hasher (Some (Kupyna.hasher_new v)))).

Definition update_hasher (hasher data : addr) (len : Z) : M Obj () :=
  guard_void (
    if is_null hasher then mret tt
    else
      data ←? slice_from_raw data len else tt;
      self ← deref hasher;
      match hasher_of self with
      | Some inner => data ← get data; inner ← library (Kupyna.update inner data); assign hasher (wrap_hasher (Some inner))
      | None => mret tt
      end).

Definition finalize_hasher (hasher out : addr) : M Obj DstuStatus :=
  guard_status (
    if is_null hasher || is_null out then mret DSTU_ERR_NULL_POINTER
    else
      self ← deref hasher;
      match hasher_of self with
      | None => mret DSTU_ERR_FINALIZED
      | Some inner =>
          _ ← assign hasher (wrap_hasher None);
          digest ← library (Kupyna.hasher_finalize v inner);
          _ ← write_array out (digest_bytes v) digest;
          mret DSTU_OK
      end).
End generichash.

Definition dstu_generichash_256 : addr → Z → addr → M Obj () := generichash Kupyna256.
Definition dstu_generichash_512 : addr → Z → addr → M Obj () := generichash Kupyna512.

Section kupyna256.
Context `{HandleType Obj DstuKupyna256Hasher}.
Definition dstu_kupyna256_hasher_new : M Obj addr := new_hasher Kupyna256 Build_DstuKupyna256Hasher.
Definition dstu_kupyna256_hasher_update : addr → addr → Z → M Obj () := update_hasher Build_DstuKupyna256Hasher hasher256.
Definition dstu_kupyna256_hasher_finalize : addr → addr → M Obj DstuStatus := finalize_hasher Kupyna256 Build_DstuKupyna256Hasher hasher256.
Definition dstu_kupyna256_hasher_free : addr → M Obj () := free (T := DstuKupyna256Hasher).
End kupyna256.

Section kupyna512.
Context `{HandleType Obj DstuKupyna512Hasher}.
Definition dstu_kupyna512_hasher_new : M Obj addr := new_hasher Kupyna512 Build_DstuKupyna512Hasher.
Definition dstu_kupyna512_hasher_update : addr → addr → Z → M Obj () := update_hasher Build_DstuKupyna512Hasher hasher512.
Definition dstu_kupyna512_hasher_finalize : addr → addr → M Obj DstuStatus := finalize_hasher Kupyna512 Build_DstuKupyna512Hasher hasher512.
Definition dstu_kupyna512_hasher_free : addr → M Obj () := free (T := DstuKupyna512Hasher).
End kupyna512.

(** The sealing functions of [stream.rs] and [secretbox.rs] are one text around the call of the library, and so are the opening ones. *)
Definition seal_into {T} `{HandleType Obj T} (overhead : Z) (seal : T → list Z → option (result (list Z) DstuStatus))
    (key plaintext : addr) (plaintext_len : Z) (sealed_out : addr) (sealed_out_cap : Z) (sealed_len_out : addr) : M Obj DstuStatus :=
  guard_status (
    if overlaps plaintext plaintext_len sealed_out sealed_out_cap then mret DSTU_ERR_INVALID_ARGUMENT
    else if is_null key || is_null sealed_len_out then mret DSTU_ERR_NULL_POINTER
    else
      plaintext ←? slice_from_raw plaintext plaintext_len else DSTU_ERR_NULL_POINTER;
      let required := wrapping_add 64 plaintext_len overhead in
      if Z.ltb sealed_out_cap required then mret DSTU_ERR_BUFFER_TOO_SMALL
      else
        sealed_out ←? slice_from_raw_mut sealed_out sealed_out_cap else DSTU_ERR_NULL_POINTER;
        self ← deref key;
        _ ← live [plaintext] [sealed_out];
        plaintext ← get plaintext;
        r ← library (seal self plaintext);
        match r with
        | Ok sealed => _ ← copy_prefix sealed_out sealed; _ ← write_usize sealed_len_out (length sealed); mret DSTU_OK
        | Err e => mret e
        end).

Definition open_into {T} `{HandleType Obj T} (overhead : Z) (open : T → list Z → option (result (list Z) DstuStatus))
    (key sealed : addr) (sealed_len : Z) (plaintext_out : addr) (plaintext_out_cap : Z) (plaintext_len_out : addr) : M Obj DstuStatus :=
  guard_status (
    if overlaps sealed sealed_len plaintext_out plaintext_out_cap then mret DSTU_ERR_INVALID_ARGUMENT
    else if is_null key || is_null plaintext_len_out then mret DSTU_ERR_NULL_POINTER
    else
      sealed ←? slice_from_raw sealed sealed_len else DSTU_ERR_NULL_POINTER;
      if Z.ltb sealed_len overhead then mret DSTU_ERR_TRUNCATED
      else
        let required := sealed_len - overhead in
        if Z.ltb plaintext_out_cap required then mret DSTU_ERR_BUFFER_TOO_SMALL
        else
          plaintext_out ←? slice_from_raw_mut plaintext_out plaintext_out_cap else DSTU_ERR_NULL_POINTER;
          self ← deref key;
          _ ← live [sealed] [plaintext_out];
          sealed ← get sealed;
          r ← library (open self sealed);
          match r with
          | Ok plaintext => _ ← copy_prefix plaintext_out plaintext; _ ← write_usize plaintext_len_out (length plaintext); mret DSTU_OK
          | Err DSTU_ERR_TAG_MISMATCH => _ ← put plaintext_out (replicate (Z.to_nat (s_len plaintext_out)) 0); mret DSTU_ERR_TAG_MISMATCH
          | Err e => mret e
          end).

Section stream.
Context `{HandleType Obj DstuStreamKey} (fill : fill_call GE).

Definition dstu_stream_key_generate : addr → M Obj DstuStatus := key_generate Build_DstuStreamKey fill.
Definition dstu_stream_key_from_bytes : addr → M Obj addr := key_from_bytes Build_DstuStreamKey.
Definition dstu_stream_key_bytes : addr → addr → M Obj () := key_bytes stream_key.
Definition dstu_stream_key_free : addr → M Obj () := free (T := DstuStreamKey).

(** [None] is the [unreachable!] of the match. *)
Definition stream_seal (self : DstuStreamKey) (plaintext : list Z) : option (result (list Z) DstuStatus) :=
  match stream_encrypt fill (stream_key self) plaintext with
  | Ok sealed => Some (Ok sealed)
  | Err (CryptoStream.Random _) => Some (Err DSTU_ERR_RANDOM)
  | Err CryptoStream.Truncated => None
  end.
Definition stream_open (self : DstuStreamKey) (sealed : list Z) : option (result (list Z) DstuStatus) :=
  match stream_decrypt (GetrandomError := GE) (stream_key self) sealed with
  | Ok plaintext => Some (Ok plaintext)
  | Err _ => None
  end.

Definition dstu_stream_encrypt : addr → addr → Z → addr → Z → addr → M Obj DstuStatus := seal_into 32 stream_seal.
Definition dstu_stream_decrypt : addr → addr → Z → addr → Z → addr → M Obj DstuStatus := open_into 32 stream_open.
End stream.

Section secretbox.
Context `{HandleType Obj DstuSecretboxKey} (fill : fill_call GE).

Definition dstu_secretbox_key_generate : addr → M Obj DstuStatus := key_generate Build_DstuSecretboxKey fill.
Definition dstu_secretbox_key_from_bytes : addr → M Obj addr := key_from_bytes Build_DstuSecretboxKey.
Definition dstu_secretbox_key_bytes : addr → addr → M Obj () := key_bytes secretbox_key.
Definition dstu_secretbox_key_free : addr → M Obj () := free (T := DstuSecretboxKey).

Definition secretbox_seal (self : DstuSecretboxKey) (plaintext : list Z) : option (result (list Z) DstuStatus) :=
  r ← box_seal fill (secretbox_key self) plaintext;
  match r with
  | Ok sealed => Some (Ok sealed)
  | Err (CryptoSecretbox.Random _) => Some (Err DSTU_ERR_RANDOM)
  | Err _ => None
  end.
Definition secretbox_open (self : DstuSecretboxKey) (sealed : list Z) : option (result (list Z) DstuStatus) :=
  r ← box_open (GetrandomError := GE) (secretbox_key self) sealed;
  match r with
  | Ok plaintext => Some (Ok plaintext)
  | Err CryptoSecretbox.TagMismatch => Some (Err DSTU_ERR_TAG_MISMATCH)
  | Err CryptoSecretbox.UnsupportedVersion => Some (Err DSTU_ERR_UNSUPPORTED_VERSION)
  | Err _ => None
  end.

Definition dstu_secretbox_seal : addr → addr → Z → addr → Z → addr → M Obj DstuStatus := seal_into 49 secretbox_seal.
Definition dstu_secretbox_open : addr → addr → Z → addr → Z → addr → M Obj DstuStatus := open_into 49 secretbox_open.
End secretbox.

Definition dstu_randombytes_buf (fill : fill_call GE) (buf : addr) (len : Z) : M Obj DstuStatus :=
  guard_status (
    slice ←? slice_from_raw_mut buf len else DSTU_ERR_NULL_POINTER;
    bytes ← get slice;
    let '(bytes, r) := randombytes_buf fill bytes in
    _ ← put slice bytes;
    match r with
    | Ok _ => mret DSTU_OK
    | Err _ => mret DSTU_ERR_RANDOM
    end).
End functions.

(** ** Sealing and opening *)

Section sealing.
Context {Obj T : Type} `{HandleTypeLaws Obj T} (overhead : nat) (Hov : 0 < overhead < 2 ^ 62).
Implicit Types w : World Obj.

(** What a call may be given: buffers and a cell that are valid or null, and a live key or null. *)
Record call_args (w : World Obj) (key : addr) (self : T) (p : addr) (n : Z) (out : addr) (cap : Z) (len_out : addr) : Prop := {
  args_memory : memory_ok (mem w);
  args_input : valid_arg (mem w) p n;
  args_output : valid_arg (mem w) out cap;
  args_len : valid_cell (mem w) 8 len_out;
  args_key : key = NULL ∨ handle w key self
}.

(** The world after a call that wrote [bytes] and their length. *)
Definition wrote_to (w : World Obj) (out : addr) (bytes : list Z) (len_out : addr) : World Obj :=
  set_mem w (store (store (mem w) out bytes) len_out (to_le_bytes 8 (length bytes))).

(** What a status that is not [DSTU_OK] tells about the arguments; the rest are statuses of the library. *)
Definition refusal (key p : addr) (n : Z) (out : addr) (cap : Z) (len_out : addr) (status : DstuStatus) : Prop :=
  match status with
  | DSTU_ERR_INVALID_ARGUMENT => ¬ apart p n out cap
  | DSTU_ERR_NULL_POINTER => key = NULL ∨ len_out = NULL ∨ out = NULL ∨ p = NULL ∧ n ≠ 0
  | DSTU_ERR_BUFFER_TOO_SMALL => cap < n + overhead
  | _ => False
  end.

(** The outcome of a call that seals. *)
Definition seal_outcome (seal : T → list Z → option (result (list Z) DstuStatus)) (key : addr) (self : T) (p : addr) (n : Z) (out : addr) (cap : Z) (len_out : addr) w
    (status : DstuStatus) w' : Prop :=
  (status ≠ DSTU_OK → w' = w) ∧
  (status = DSTU_OK → ∃ data sealed, buffer (mem w) p data ∧ n = length data ∧ seal self data = Some (Ok sealed) ∧ w' = wrote_to w out sealed len_out ∧
    out ≠ NULL ∧ n + overhead ≤ cap) ∧
  (status ≠ DSTU_OK → refusal key p n out cap len_out status ∨ ∃ data, buffer (mem w) p data ∧ n = length data ∧ seal self data = Some (Err status)) ∧
  (∀ data, buffer (mem w) p data → n = length data → apart p n out cap → key ≠ NULL → len_out ≠ NULL → out ≠ NULL → n + overhead ≤ cap →
    ∃ r, seal self data = Some r ∧ status = match r with Ok _ => DSTU_OK | Err e => e end).

(** A refusal excludes what the last part asks for. *)
Lemma seal_refused seal key (self : T) p n out cap len_out w status :
  status ≠ DSTU_OK → refusal key p n out cap len_out status → total (mret status) w (seal_outcome seal key self p n out cap len_out w).
Proof.
  intros Hst Hr. apply total_ret. split_and!; [done|done|by left|]. intros data Hd -> Ha Hk0 Hl0 Ho0 Hcap. exfalso. destruct status; cbn in Hr; try done; [lia|].
  destruct Hr as [?|[?|[?|[-> Hn]]]]; try done. by rewrite (buffer_null _ _ Hd) in Hn.
Qed.

Lemma overlaps_not_apart m p n out cap : valid_arg m p n → valid_arg m out cap → overlaps p n out cap = true → ¬ apart p n out cap.
Proof.
  intros Hi Ho Hlap Ha. assert (p ≠ NULL ∧ out ≠ NULL) as [Hp0 Ho0].
  { unfold overlaps, is_null in Hlap. destruct (Z.eqb_spec p NULL), (Z.eqb_spec out NULL); done. }
  apply (overlaps_apart m p n out cap Hi Ho) in Ha; [congruence|by left|by left].
Qed.

Lemma seal_into_spec seal key self p n out cap len_out w :
  call_args w key self p n out cap len_out →
  (∀ data, buffer (mem w) p data → n = length data → bytes_ok data → ∃ r, seal self data = Some r ∧ match r with Ok sealed => length sealed = (length data + overhead)%nat | Err e => e ≠ DSTU_OK end) →
  total (seal_into overhead seal key p n out cap len_out) w (seal_outcome seal key self p n out cap len_out w).
Proof.
  intros [Hm Hi Ho Hc Hk] Hs. apply total_guard_status. cstep.
  { intros Hov'. apply seal_refused; [done|]. by eapply overlaps_not_apart. }
  intros Hov'. cstep.
  { rewrite orb_true_iff. unfold is_null. rewrite !Z.eqb_eq. intros Hn. apply seal_refused; [done|]. cbn. tauto. }
  rewrite orb_false_iff. unfold is_null at 1 2. rewrite !Z.eqb_neq. intros [Hk0 Hl0]. destruct Hk as [->|Hk]; [done|].
  apply total_bind, total_slice; [done|intros; apply seal_refused; [done|cbn; tauto]|].
  intros data -> Hd. cbv zeta.
  pose proof (buffer_length _ _ _ Hd) as Hlen. assert (wrapping_add 64 (length data) overhead = length data + overhead) as ->. { unfold wrapping_add. rewrite wrap_id; [done|lia|]. unfold word_ok. lia. }
  cstep; [intros Hcap%Z.ltb_lt; by apply seal_refused|].
  intros Hcap%Z.ltb_ge. apply total_bind, total_slice; [done|intros; apply seal_refused; [done|cbn; tauto]|].
  intros old -> Hold. apply total_bind, (total_deref key self); [done|]. apply total_bind, total_live.
  { apply (aliased_pair (mem w)); try done; [|]; intros ->; [by rewrite (buffer_null _ _ Hd)|by rewrite (buffer_null _ _ Hold)]. }
  apply total_bind, total_get; [done|]. destruct (Hs data Hd eq_refl (buffer_ok _ _ _ Hm Hd)) as (r & Er & Hr).
  apply total_bind, (total_library _ r); [done|]. destruct r as [sealed|e].
  - apply total_bind, total_copy_prefix; [lia|]. apply total_bind, total_write_int; [done| |done|].
    { eapply valid_cell_domain; [|exact Hc]. intros q. apply store_domain. }
    apply total_ret. split_and!; [done| |done|].
    + intros _. exists data, sealed. split_and!; [done..| |done]. intros ->. rewrite (buffer_null _ _ Hold) in Hcap. cbn in Hcap. lia.
    + intros data' Hd' Hl' _ _ _ _ _. rewrite (buffer_unique _ _ _ _ Hd' Hd) by lia. by exists (Ok sealed).
  - apply total_ret. split_and!; [done|by intros ->|intros _; right; by exists data|]. intros data' Hd' Hl' _ _ _ _ _. rewrite (buffer_unique _ _ _ _ Hd' Hd) by lia. by exists (Err e).
Qed.
End sealing.

Section opening.
Context {Obj T : Type} `{HandleTypeLaws Obj T} (overhead : nat).
Implicit Types w : World Obj.

Lemma open_into_spec open key self p n out cap len_out w :
  call_args w key self p n out cap len_out →
  (∀ data, buffer (mem w) p data → n = length data → bytes_ok data → (overhead ≤ length data)%nat →
    ∃ r, open self data = Some r ∧ match r with Ok plain => (length plain + overhead)%nat = length data | Err e => e ≠ DSTU_OK end) →
  total (open_into overhead open key p n out cap len_out) w (λ status w',
    (status ≠ DSTU_OK → w' = if decide (status = DSTU_ERR_TAG_MISMATCH) then set_mem w (store (mem w) out (replicate (Z.to_nat cap) 0)) else w) ∧
    (status = DSTU_OK → ∃ data plain, buffer (mem w) p data ∧ n = length data ∧ open self data = Some (Ok plain) ∧ w' = wrote_to w out plain len_out) ∧
    (∀ data, buffer (mem w) p data → n = length data → apart p n out cap → key ≠ NULL → len_out ≠ NULL → (out = NULL → cap = 0) → overhead ≤ n ≤ cap + overhead →
      ∃ r, open self data = Some r ∧ status = match r with Ok _ => DSTU_OK | Err e => e end)).
Proof.
  intros [Hm Hi Ho Hc Hk] Hs. apply total_guard_status. cstep.
  { intros Hov'. apply total_ret. split_and!; try done. intros data Hd -> Ha Hk0 Hl0 Ho0 Hcap. exfalso.
    apply (overlaps_apart _ p _ out cap Hi Ho) in Ha; [congruence| |].
    - destruct data; [by right|left]. by eapply buffer_not_null.
    - destruct (decide (out = NULL)); auto. }
  intros Hov'. cstep.
  { rewrite orb_true_iff. unfold is_null. rewrite !Z.eqb_eq. intros Hn. apply total_ret. split_and!; try done. intros; by destruct Hn. }
  rewrite orb_false_iff. unfold is_null at 1 2. rewrite !Z.eqb_neq. intros [Hk0 Hl0]. destruct Hk as [->|Hk]; [done|].
  apply total_bind, total_slice; [done| |].
  { intros Hn0 ->. apply total_ret. split_and!; try done. intros data Hd -> _ _ _ _ _. by rewrite (buffer_null _ _ Hd) in Hn0. }
  intros data -> Hd. cbv zeta. cstep.
  { intros Hcap%Z.ltb_lt. apply total_ret. split_and!; try done. intros; lia. }
  intros Hmin%Z.ltb_ge. cstep.
  { intros Hcap%Z.ltb_lt. apply total_ret. split_and!; try done. intros; lia. }
  intros Hcap%Z.ltb_ge. apply total_bind, total_slice; [done| |].
  { intros Hn0 ->. apply total_ret. split_and!; try done. intros data' _ _ _ _ _ Hz. by destruct (Hn0 (Hz eq_refl)). }
  intros old -> Hold. apply total_bind, (total_deref key self); [done|]. apply total_bind, total_live.
  { apply (aliased_pair (mem w)); try done; [|]; intros ->; [by rewrite (buffer_null _ _ Hd)|by rewrite (buffer_null _ _ Hold)]. }
  apply total_bind, total_get; [done|]. destruct (Hs data Hd eq_refl (buffer_ok _ _ _ Hm Hd)) as (r & Er & Hr); [lia|].
  apply total_bind, (total_library _ r); [done|].
  assert (∀ data' : list Z, buffer (mem w) p data' → Z.of_nat (length data) = length data' → data' = data) as Huniq.
  { intros data' Hd' Hl'. apply (buffer_unique _ _ _ _ Hd' Hd). lia. }
  destruct r as [plain|e].
  - apply total_bind, total_copy_prefix; [lia|]. apply total_bind, total_write_int; [done| |done|].
    { eapply valid_cell_domain; [|exact Hc]. intros q. apply store_domain. }
    apply total_ret. split_and!; [done| |].
    + intros _. exists data, plain. split_and!; done.
    + intros data' Hd' Hl' _ _ _ _ _. rewrite (Huniq data') by done. by exists (Ok plain).
  - assert (∀ st w', st = e → w' = (if decide (st = DSTU_ERR_TAG_MISMATCH) then set_mem w (store (mem w) out (replicate (Z.to_nat (length old)) 0)) else w) →
      (st ≠ DSTU_OK → w' = if decide (st = DSTU_ERR_TAG_MISMATCH) then set_mem w (store (mem w) out (replicate (Z.to_nat (length old)) 0)) else w) ∧
      (st = DSTU_OK → ∃ d plain, buffer (mem w) p d ∧ Z.of_nat (length data) = length d ∧ open self d = Some (Ok plain) ∧ w' = wrote_to w out plain len_out) ∧
      (∀ d, buffer (mem w) p d → Z.of_nat (length data) = length d → apart p (length data) out (length old) → key ≠ NULL → len_out ≠ NULL →
        (out = NULL → Z.of_nat (length old) = 0) → overhead ≤ length data ≤ length old + overhead → ∃ r, open self d = Some r ∧ st = match r with Ok _ => DSTU_OK | Err e => e end)) as Hend.
    { intros st w' -> ->. split_and!; [done|by intros ->|]. intros d Hd' Hl' _ _ _ _ _. rewrite (Huniq d) by done. by exists (Err e). }
    destruct e; try (apply total_ret, Hend; by rewrite ?decide_False).
    apply total_bind, total_put; [rewrite length_replicate, slice_at_len; lia|]. rewrite slice_at_len. by apply total_ret, Hend.
Qed.
End opening.

(** ** Round trips through memory *)

(** The promise of a pair of functions that seal and open under the same key. *)
Record seals {T : Type} (overhead : nat) (seal open : T → list Z → option (result (list Z) DstuStatus)) (self : T) : Prop := {
  seal_returns data : bytes_ok data → length data < 2 ^ 60 → ∃ r, seal self data = Some r ∧
    match r with Ok sealed => length sealed = (length data + overhead)%nat ∧ open self sealed = Some (Ok data) | Err e => e ≠ DSTU_OK end;
  open_returns sealed : bytes_ok sealed → (overhead ≤ length sealed)%nat → length sealed < 2 ^ 60 + overhead → ∃ r, open self sealed = Some r ∧
    match r with Ok data => (length data + overhead)%nat = length sealed | Err e => e ≠ DSTU_OK end
}.

(** After [wrote_to]: the bytes and their length are there, and nothing else has changed. *)
Definition delivered (m m' : memory) (out : addr) (bytes : list Z) (len_out : addr) : Prop :=
  buffer m' out bytes ∧ load m' len_out 8 = Some (to_le_bytes 8 (length bytes)) ∧
  ∀ a, ¬ (out ≤ a < out + length bytes) → ¬ (len_out ≤ a < len_out + 8) → m' !! a = m !! a.

Lemma wrote_to_delivered {Obj} (w : World Obj) out old bytes len_out :
  buffer (mem w) out old → (length bytes ≤ length old)%nat → apart out (length bytes) len_out 8 → delivered (mem w) (mem (wrote_to w out bytes len_out)) out bytes len_out.
Proof.
  intros Ho Hl Ha. unfold wrote_to. cbn [mem set_mem]. split_and!.
  - apply buffer_store_apart; [|by rewrite length_to_le_bytes]. apply (buffer_store_same _ _ (take (length bytes) old)); [by apply buffer_prefix|].
    rewrite length_take. lia.
  - pose proof (load_store_same (store (mem w) out bytes) len_out (to_le_bytes 8 (length bytes))) as E. by rewrite length_to_le_bytes in E.
  - intros a Hna Hnl. rewrite store_lookup, decide_False by (rewrite length_to_le_bytes; lia). by rewrite store_lookup, decide_False.
Qed.

Section roundtrip.
Context {Obj T : Type} `{HandleTypeLaws Obj T} (overhead : nat) (Hov : 0 < overhead < 2 ^ 62).
Context (seal open : T → list Z → option (result (list Z) DstuStatus)) (self : T) (Hseals : seals overhead seal open self).
Implicit Types w : World Obj.

Lemma open_call_delivers key q sealed data dst cap len_out w :
  call_args w key self q (length sealed) dst cap len_out → buffer (mem w) q sealed → open self sealed = Some (Ok data) → (length data + overhead)%nat = length sealed →
  length data < 2 ^ 60 → apart q (length sealed) dst cap → key ≠ NULL → len_out ≠ NULL → dst ≠ NULL → length data ≤ cap → apart dst (length data) len_out 8 →
  total (open_into overhead open key q (length sealed) dst cap len_out) w (λ st w', st = DSTU_OK ∧ objects w' = objects w ∧ delivered (mem w) (mem w') dst data len_out).
Proof.
  intros Hargs Hb Eo Hl Hd Ha Hk0 Hl0 Hd0 Hcap Hal. destruct (valid_arg_bytes _ _ _ (args_output _ _ _ _ _ _ _ _ Hargs) Hd0) as (old & -> & Hold).
  eapply total_mono; [apply (open_into_spec overhead open key self); [exact Hargs|]|].
  { intros s Hs Hsl Hsb Hmin. apply (open_returns _ _ _ _ Hseals); [done|done|lia]. }
  intros st w' (_ & Hok & Hall). destruct (Hall sealed Hb eq_refl Ha Hk0 Hl0 ltac:(done)) as (r & Er & ->); [lia|]. rewrite Eo in Er. injection Er as <-.
  destruct (Hok eq_refl) as (s & plain & Hs & Hsl & Ep & ->). rewrite (buffer_unique _ _ _ _ Hs Hb) in Ep by lia. rewrite Eo in Ep. injection Ep as <-.
  split; [done|]. split; [done|]. apply (wrote_to_delivered _ _ old); [done|lia|done].
Qed.

Lemma sealed_calls_roundtrip key p n out cap len_out w :
  call_args w key self p n out cap len_out → n < 2 ^ 60 → apart out (n + overhead) len_out 8 →
  total (seal_into overhead seal key p n out cap len_out) w (λ st w',
    objects w' = objects w ∧ (st ≠ DSTU_OK → w' = w) ∧
    (st ≠ DSTU_OK → refusal overhead key p n out cap len_out st ∨ ∃ data, buffer (mem w) p data ∧ n = length data ∧ seal self data = Some (Err st)) ∧
    (∀ data, buffer (mem w) p data → n = length data → apart p n out cap → key ≠ NULL → len_out ≠ NULL → out ≠ NULL → n + overhead ≤ cap →
      ∃ r, seal self data = Some r ∧ st = match r with Ok _ => DSTU_OK | Err e => e end) ∧
    (st = DSTU_OK → ∃ data sealed, buffer (mem w) p data ∧ n = length data ∧ seal self data = Some (Ok sealed) ∧ delivered (mem w) (mem w') out sealed len_out ∧
      ∀ w1 key1 q dst cap1 len1,
        call_args w1 key1 self q (length sealed) dst cap1 len1 → buffer (mem w1) q sealed → apart q (length sealed) dst cap1 →
        key1 ≠ NULL → len1 ≠ NULL → dst ≠ NULL → n ≤ cap1 → apart dst n len1 8 →
        total (open_into overhead open key1 q (length sealed) dst cap1 len1) w1 (λ st w2,
          st = DSTU_OK ∧ objects w2 = objects w1 ∧ delivered (mem w1) (mem w2) dst data len1))).
Proof.
  intros Hargs Hn Hal. eapply total_mono; [apply (seal_into_spec overhead Hov seal key self); [exact Hargs|]|].
  { intros data Hd -> Hb. destruct (seal_returns _ _ _ _ Hseals data Hb ltac:(lia)) as (r & Er & Hr). exists r. split; [done|]. destruct r; [apply Hr|done]. }
  intros st w' (Herr & Hok & Hwhy & Hall). split; [destruct (decide (st = DSTU_OK)) as [Hst|Hst]; [destruct (Hok Hst) as (? & ? & _ & _ & _ & -> & _); done|by rewrite (Herr Hst)]|].
  split; [done|]. split; [done|]. split; [done|]. intros Hst. destruct (Hok Hst) as (data & sealed & Hd & -> & Es & -> & Ho0 & Hc0). exists data, sealed. split; [done|]. split; [done|]. split; [done|].
  pose proof (buffer_ok _ _ _ (args_memory _ _ _ _ _ _ _ _ Hargs) Hd) as Hb. destruct (seal_returns _ _ _ _ Hseals data Hb ltac:(lia)) as (r & Er & Hr).
  rewrite Es in Er. injection Er as <-. destruct Hr as [Hl Eo]. split.
  - destruct (valid_arg_bytes _ _ _ (args_output _ _ _ _ _ _ _ _ Hargs) Ho0) as (old & -> & Hold). apply (wrote_to_delivered _ _ old); [done|lia|]. by replace (Z.of_nat (length sealed)) with (length data + overhead) by lia.
  - intros w1 key1 q dst cap1 len1 Ha1 Hq Hap Hk Hl0 Hd0 Hc Hal1. apply open_call_delivers; try done; lia.
Qed.
End roundtrip.

(** ** The sealing functions of the library *)

Section instances.
Context {GE : Type} (fill : fill_call GE) (Hfill : fill_ok fill).

Lemma secretbox_seals `{Cpu} `{SubtleLaws} (self : DstuSecretboxKey) : array_ok 32 (secretbox_key self) → seals 49 (secretbox_seal fill) (secretbox_open (GE := GE)) self.
Proof.
  intros Hk. destruct self as [key]. cbn [secretbox_key] in Hk. split.
  - intros pt Hp Hl. unfold secretbox_seal. cbn [secretbox_key]. rewrite box_seal_spec by (done || lia). cbn [mbind option_bind]. pose proof (Hfill 32%nat) as Hn.
    destruct (fill (replicate 32 0)) as [nonce [[]|e]]; cbn [fst snd] in *; eexists; (split; [reflexivity|]); cbv zeta; [|done].
    destruct (box_ok key nonce pt Hk Hn Hp) as (Hcb & Hcl & _ & Hinv). destruct (box_parts key nonce _ Hk Hn Hcb) as (Hbb & Hbl & Hb0 & Hb1 & Hb2 & Hb3). rewrite Hcl in Hbl.
    split; [lia|]. unfold secretbox_open. cbn [secretbox_key]. rewrite box_open_spec by (done || lia). rewrite decide_False by lia. rewrite decide_True by done. cbv zeta.
    rewrite Hb1, Hb2, Hb3, decide_True by done. by rewrite Hinv.
  - intros sealed Hs Hmin Hl. unfold secretbox_open. cbn [secretbox_key]. rewrite box_open_spec by (done || lia). rewrite decide_False by lia. cbn [mbind option_bind].
    repeat case_decide; eexists; (split; [reflexivity|]); cbv zeta; try done.
    assert (array_ok 32 (slice 1 33 sealed)) as Hn by (unfold slice; split; [rewrite length_take, length_drop; lia|by apply Forall_take, Forall_drop]).
    assert (bytes_ok (slice 33 (length sealed - 16) sealed)) as Hc by (by apply Forall_take, Forall_drop).
    destruct (box_ok key _ _ Hk Hn Hc) as (_ & -> & _ & _). unfold slice. rewrite length_take, length_drop. lia.
Qed.

(** Only the random source makes the library fail. *)
Lemma secretbox_seal_status `{Cpu} (self : DstuSecretboxKey) data r : array_ok 32 (secretbox_key self) → bytes_ok data → length data < 2 ^ 60 → secretbox_seal fill self data = Some r →
  match r with Ok _ => (fill (replicate 32 0)).2 = Ok tt | Err e => e = DSTU_ERR_RANDOM ∧ ∃ e, (fill (replicate 32 0)).2 = Err e end.
Proof.
  destruct self as [key]. cbn [secretbox_key]. intros Hk Hp Hl. unfold secretbox_seal. cbn [secretbox_key]. rewrite box_seal_spec by (done || lia). cbn [mbind option_bind].
  destruct (fill (replicate 32 0)) as [nonce [[]|e]]; cbn [fst snd]; cbv zeta; intros [= <-]; [done|]. split; [done|by exists e].
Qed.

Lemma stream_seals (self : DstuStreamKey) : seals 32 (stream_seal fill) (stream_open (GE := GE)) self.
Proof.
  assert (∀ sealed, bytes_ok sealed → (32 ≤ length sealed)%nat → stream_open (GE := GE) self sealed = Some (Ok (xor_keystream (strumok_keystream (init_spec (stream_key self) (take 32 sealed))) 0 (drop 32 sealed)))) as Hopen.
  { intros sealed Hs Hl. unfold stream_open, stream_decrypt, IV_LEN. destruct (Nat.ltb_spec (length sealed) 32); [lia|].
    pose proof (one_call (stream_key self) (take 32 sealed) (drop 32 sealed) (Forall_drop _ _ _ Hs)) as E. destruct (Strumok.apply_keystream _ _) as [c buf]. cbn [snd] in E. by rewrite E. }
  split.
  - intros pt Hp Hl. unfold stream_seal, stream_encrypt, randombytes_buf, IV_LEN. destruct (Hfill 32%nat) as [Hil Hib]. destruct (fill (replicate 32 0)) as [iv [[]|e]]; cbn [fst snd] in *; [|by eexists].
    pose proof (one_call (stream_key self) iv pt Hp) as E. destruct (Strumok.apply_keystream _ _) as [c buf]. cbn [snd] in E. subst buf. eexists. split; [reflexivity|]. cbv beta iota.
    split; [rewrite length_app, length_xor_keystream; lia|]. rewrite Hopen.
    + rewrite take_app_length', drop_app_length' by done. by rewrite xor_keystream_involutive.
    + apply Forall_app. split; [done|]. apply xor_keystream_ok; [done|]. intros. apply strumok_keystream_ok.
    + rewrite length_app. lia.
  - intros sealed Hs Hmin _. eexists. split; [by apply Hopen|]. cbv beta iota. rewrite length_xor_keystream, length_drop. lia.
Qed.
End instances.

(** C23. A caller of [dstu_secretbox_seal] passes pointers that are valid or null, and buffers that may overlap; only the place for the
    length has to lie apart from the sealed message.  The call returns, with nothing undefined and without the status of a panic, and its
    status tells its cause: a shared byte, a null pointer, an output that is too short, or a failing random source; unless it is [DSTU_OK]
    the world is as it was.  When the buffers are apart, nothing is null and the output has room, only the random source can make the
    call fail.  On [DSTU_OK] the sealed message and its length, and nothing else, are written, and wherever these bytes lie later,
    [dstu_secretbox_open] under the same key delivers the plaintext. *)
Theorem secretbox_calls_roundtrip {Obj GE : Type} `{Cpu} `{SubtleLaws} `{HandleTypeLaws Obj DstuSecretboxKey} (fill : fill_call GE) (self : DstuSecretboxKey)
    (key p : addr) (n : Z) (out : addr) (cap : Z) (len_out : addr) (w : World Obj) :
  fill_ok fill → array_ok 32 (secretbox_key self) → call_args w key self p n out cap len_out → n < 2 ^ 60 → apart out (n + 49) len_out 8 →
  total (dstu_secretbox_seal fill key p n out cap len_out) w (λ st w',
    objects w' = objects w ∧ (st ≠ DSTU_OK → w' = w) ∧
    match st with
    | DSTU_OK => (fill (replicate 32 0)).2 = Ok tt
    | DSTU_ERR_INVALID_ARGUMENT => ¬ apart p n out cap
    | DSTU_ERR_NULL_POINTER => key = NULL ∨ len_out = NULL ∨ out = NULL ∨ p = NULL ∧ n ≠ 0
    | DSTU_ERR_BUFFER_TOO_SMALL => cap < n + 49
    | DSTU_ERR_RANDOM => ∃ e, (fill (replicate 32 0)).2 = Err e
    | _ => False
    end ∧
    (∀ data, buffer (mem w) p data → n = length data → apart p n out cap → key ≠ NULL → len_out ≠ NULL → out ≠ NULL → n + 49 ≤ cap →
      ∃ r, secretbox_seal fill self data = Some r ∧ st = match r with Ok _ => DSTU_OK | Err e => e end) ∧
    (st = DSTU_OK → ∃ data sealed, buffer (mem w) p data ∧ n = length data ∧ secretbox_seal fill self data = Some (Ok sealed) ∧ delivered (mem w) (mem w') out sealed len_out ∧
      ∀ w1 key1 q dst cap1 len1,
        call_args w1 key1 self q (length sealed) dst cap1 len1 → buffer (mem w1) q sealed → apart q (length sealed) dst cap1 →
        key1 ≠ NULL → len1 ≠ NULL → dst ≠ NULL → n ≤ cap1 → apart dst n len1 8 →
        total (dstu_secretbox_open (GE := GE) key1 q (length sealed) dst cap1 len1) w1 (λ st w2,
          st = DSTU_OK ∧ objects w2 = objects w1 ∧ delivered (mem w1) (mem w2) dst data len1))).
Proof.
  intros Hf Hk Hargs Hn Hal. pose proof (sealed_calls_roundtrip (Obj := Obj) 49 ltac:(done) _ _ self (secretbox_seals fill Hf self Hk) key p n out cap len_out w Hargs Hn) as Hr.
  change (Z.of_nat 49) with 49 in Hr. eapply total_mono; [exact (Hr Hal)|]. intros st w' (Hob & Herr & Hwhy & Hall & Hok). split_and!; [done|done| |done|done].
  assert (∀ data, buffer (mem w) p data → n = length data → ∀ r, secretbox_seal fill self data = Some r →
    match r with Ok _ => (fill (replicate 32 0)).2 = Ok tt | Err e => e = DSTU_ERR_RANDOM ∧ ∃ e, (fill (replicate 32 0)).2 = Err e end) as Hseal.
  { intros data Hd -> r. apply secretbox_seal_status; [done|done|by apply (buffer_ok _ _ _ (args_memory _ _ _ _ _ _ _ _ Hargs) Hd)|done]. }
  destruct (decide (st = DSTU_OK)) as [->|Hst].
  - destruct (Hok eq_refl) as (data & sealed & Hd & Hl & Es & _). exact (Hseal data Hd Hl _ Es).
  - destruct (Hwhy Hst) as [Hr1|(data & Hd & Hl & Es)]; [by destruct st|]. by destruct (Hseal data Hd Hl _ Es) as [-> ?].
Qed.

(** A memory of 128 bytes at 4096 and one key. *)
Definition example_world {Obj T} `{HandleType Obj T} (self : T) (bytes : list Z) : World Obj :=
  {| mem := store ∅ 4096 (bytes ++ replicate (128 - length bytes) 0); objects := {[ 1 := into_obj self ]}; next_object := 2 |}.

Lemma example_handle {Obj T} `{HandleType Obj T} (self : T) bytes : handle (example_world self bytes) 1 self.
Proof. split; [done|]. apply lookup_singleton_eq. Qed.

Lemma example_memory {Obj T} `{HandleType Obj T} (self : T) bytes : bytes_ok bytes → memory_ok (mem (example_world self bytes)).
Proof. intros Hb. apply store_ok; [apply map_Forall_empty|]. apply Forall_app. split; [done|]. by apply Forall_replicate. Qed.

Lemma secretbox_calls_roundtrip_witness :
  let _ := plain_subtle in
  let _ := {| feature_available := false |} in
  let self := {| secretbox_key := seqZ 0 32 |} in
  let w : World DstuSecretboxKey := example_world self [1; 2; 3] in
  call_args w 1 self 4096 3 4112 64 4200 ∧ total (dstu_secretbox_seal (GE := unit) (constant_fill 9) 1 4096 3 4112 64 4200) w (λ st w', st = DSTU_OK ∧ objects w' = objects w).
Proof.
  intros ? ? self w.
  assert (call_args w 1 self 4096 3 4112 64 4200) as Hargs.
  { split; [by apply example_memory; by_decision| | | |right; by apply example_handle].
    - split; [by_decision|]. split; [by_decision|]. right. exists [1; 2; 3]. split; [done|]. split; [by right|reflexivity].
    - split; [by_decision|]. split; [by_decision|]. right. exists (replicate 64 0). split; [done|]. split; [by right|reflexivity].
    - split; [|done]. split; [by_decision|]. split; [by_decision|]. right. exists (replicate 8 0). split; [done|]. split; [by right|reflexivity]. }
  split; [exact Hargs|].
  eapply total_mono; [refine (@secretbox_calls_roundtrip DstuSecretboxKey unit _ plain_subtle plain_subtle_laws _ _ (constant_fill 9) self 1 4096 3 4112 64 4200 w (constant_fill_ok 9 _) _ Hargs _ _); [by_decision|by_decision|done|intros a Ha; lia]|].
  intros st w' (Ho & _ & _ & Hst & _). split; [|exact Ho].
  destruct (Hst [1; 2; 3]) as (r & Er & ->); [split; [by right|reflexivity]|done|intros a Ha; lia|done|done|done|done|].
  unfold secretbox_seal in Er. rewrite (box_seal_spec (constant_fill 9)) in Er; [|by_decision|by apply constant_fill_ok; by_decision|by_decision|done]. cbn [constant_fill snd mbind option_bind] in Er. cbv zeta iota in Er. by injection Er as <-.
Defined.

(** ** Hashing in pieces *)

Section hashing.
Context {Obj T : Type} `{HandleTypeLaws Obj T} (v : kupyna) (wrap_hasher : option KupynaCore → T) (hasher_of : T → option KupynaCore).
Context (Hof : ∀ o, hasher_of (wrap_hasher o) = o).
Implicit Types w : World Obj.

Fixpoint update_calls (hasher : addr) (calls : list (addr * Z)) : M Obj () :=
  match calls with
  | [] => mret tt
  | (data, len) :: calls => _ ← update_hasher wrap_hasher hasher_of hasher data len; update_calls hasher calls
  end.

(** What a call adds to the message: the bytes at the pointer; a null pointer adds nothing. *)
Definition chunk_of (m : memory) (call : addr * Z) : list Z := if is_null call.1 then [] else default [] (load m call.1 (Z.to_nat call.2)).

Lemma chunk_of_buffer m p data : buffer m p data → chunk_of m (p, Z.of_nat (length data)) = data.
Proof.
  intros Hb. unfold chunk_of, is_null. cbn [fst snd]. destruct (Z.eqb_spec p NULL) as [->|Hp]; [by rewrite (buffer_null _ _ Hb)|].
  rewrite Nat2Z.id. by destruct Hb as [_ ->].
Qed.

Lemma chunk_of_null m n : chunk_of m (NULL, n) = [].
Proof. done. Qed.

Definition with_hasher (w : World Obj) (hasher : addr) (o : option KupynaCore) : World Obj := set_objects w (<[hasher := into_obj (wrap_hasher o)]> (objects w)).

Lemma with_hasher_twice w hasher o o' : with_hasher (with_hasher w hasher o) hasher o' = with_hasher w hasher o'.
Proof. unfold with_hasher. destruct w as [m os nx]. cbn. by rewrite insert_insert_eq. Qed.

Lemma with_hasher_handle w hasher o : hasher ≠ NULL → handle (with_hasher w hasher o) hasher (wrap_hasher o).
Proof. intros Hn. split; [done|]. apply lookup_insert_eq. Qed.

Lemma update_hasher_spec hasher core m call w :
  hasher ≠ NULL → memory_ok (mem w) → hasher_at v core m → valid_arg (mem w) call.1 call.2 →
  total (update_hasher wrap_hasher hasher_of hasher call.1 call.2) (with_hasher w hasher (Some core)) (λ _ w',
    ∃ core', hasher_at v core' (m ++ chunk_of (mem w) call) ∧ w' = with_hasher w hasher (Some core')).
Proof.
  destruct call as [p n]. cbn [fst snd]. intros Hn Hm Hat Hp. apply total_guard_void. cstep; [unfold is_null; by intros ->%Z.eqb_eq|]. intros _. apply total_bind, total_slice; [done| |].
  - intros _ ->. apply total_ret. exists core. by rewrite chunk_of_null, app_nil_r.
  - intros data -> Hb. change (mem (with_hasher w hasher (Some core))) with (mem w) in Hb. rewrite (chunk_of_buffer _ _ _ Hb). apply total_bind, (total_deref hasher (wrap_hasher (Some core))); [by apply with_hasher_handle|]. rewrite Hof.
    apply total_bind, total_get; [done|]. pose proof (buffer_ok _ _ _ Hm Hb) as Hbytes.
    destruct (update_at _ _ _ (variant_params v) core m data Hat Hbytes) as (core' & Eu & Hat').
    apply total_bind, (total_library _ core'); [done|]. apply total_assign. exists core'. split; [done|]. apply with_hasher_twice.
Qed.

Lemma update_calls_spec hasher calls : ∀ core m w,
  hasher ≠ NULL → memory_ok (mem w) → hasher_at v core m → Forall (λ c, valid_arg (mem w) c.1 c.2) calls →
  total (update_calls hasher calls) (with_hasher w hasher (Some core)) (λ _ w',
    ∃ core', hasher_at v core' (m ++ concat (map (chunk_of (mem w)) calls)) ∧ w' = with_hasher w hasher (Some core')).
Proof.
  induction calls as [|[p n] calls IH]; intros core m w Hn Hm Hat Hf.
  - apply total_ret. exists core. by rewrite app_nil_r.
  - apply Forall_cons in Hf as [Hc Hf]. apply total_bind. eapply total_mono; [by apply (update_hasher_spec hasher core m (p, n) w)|].
    intros [] w' (core' & Hat' & ->). eapply total_mono; [by apply IH|]. intros [] w' (core2 & Hat2 & ->). exists core2. by rewrite <- app_assoc in Hat2.
Qed.
End hashing.

(** A hasher made by [dstu_kupyna256_hasher_new] or its twin takes any sequence of [update] calls on valid or null pointers, and [finalize] writes the
    Kupyna digest of the concatenated pieces, and nothing else; a second [finalize] reports that the hasher is finalized and writes nothing. *)
Theorem hasher_calls_exact {Obj T : Type} `{HandleTypeLaws Obj T} (v : kupyna) (wrap_hasher : option KupynaCore → T) (hasher_of : T → option KupynaCore)
    (calls : list (addr * Z)) (out : addr) (w : World Obj) :
  (∀ o, hasher_of (wrap_hasher o) = o) → memory_ok (mem w) → next_object w ≠ NULL → Forall (λ c, valid_arg (mem w) c.1 c.2) calls →
  length (concat (map (chunk_of (mem w)) calls)) < 2 ^ 64 → valid_arg (mem w) out (digest_bytes v) → out ≠ NULL →
  total (hasher ← new_hasher v wrap_hasher;
         _ ← update_calls wrap_hasher hasher_of hasher calls;
         first ← finalize_hasher v wrap_hasher hasher_of hasher out;
         second ← finalize_hasher v wrap_hasher hasher_of hasher out;
         mret (first, second)) w (λ '(first, second) w',
    first = DSTU_OK ∧ second = DSTU_ERR_FINALIZED ∧ mem w' = store (mem w) out (kupyna_digest v (concat (map (chunk_of (mem w)) calls)))).
Proof.
  intros Hof Hm Hnx Hcalls Hlen Ho Ho0. destruct (valid_arg_bytes _ _ _ Ho Ho0) as (old & Hl & Hold). apply total_bind, total_guard_ptr, total_box.
  set (h := next_object w) in *. apply total_bind.
  change {| mem := mem w; objects := <[h := into_obj (wrap_hasher (Some (Kupyna.hasher_new v)))]> (objects w); next_object := h + 1 |}
    with (with_hasher wrap_hasher {| mem := mem w; objects := objects w; next_object := h + 1 |} h (Some (Kupyna.hasher_new v))).
  set (w1 := {| mem := mem w; objects := objects w; next_object := h + 1 |}).
  eapply total_mono; [apply (update_calls_spec v wrap_hasher hasher_of Hof h calls _ [] w1); [done|done|apply core_new_at, variant_params|done]|].
  intros [] w' (core & Hat & ->). cbn [app] in Hat. set (m := concat _) in *. change (mem w1) with (mem w) in *.
  destruct (finalize_digest v core m Hat Hlen) as [_ Efin]. pose proof (kupyna_digest_ok v m (at_bytes _ _ _ _ _ Hat)) as [Hdl _].
  assert (digest_bytes v ≠ 0)%nat as Hd0 by (by destruct v).
  apply total_bind, total_guard_status. cstep; [unfold is_null; rewrite orb_true_iff, !Z.eqb_eq; by intros [?|?]|]. intros _.
  apply total_bind, (total_deref h (wrap_hasher (Some core))); [by apply with_hasher_handle|]. rewrite Hof. apply total_bind, total_assign.
  apply total_bind, (total_library _ (kupyna_digest v m)); [done|].
  apply total_bind, (total_write_array out old); [lia|done|done|done|]. apply total_ret.
  apply total_bind, total_guard_status. cstep; [unfold is_null; rewrite orb_true_iff, !Z.eqb_eq; by intros [?|?]|]. intros _.
  apply total_bind, (total_deref h (wrap_hasher None)); [split; [done|]; apply lookup_insert_eq|]. rewrite Hof. by do 2 apply total_ret.
Qed.

Lemma hasher_calls_exact_witness :
  let w : World DstuKupyna256Hasher := {| mem := mem (example_world tt [1; 2; 3] : World ()); objects := ∅; next_object := 1 |} in
  memory_ok (mem w) ∧
  total (hasher ← dstu_kupyna256_hasher_new;
         _ ← update_calls Build_DstuKupyna256Hasher hasher256 hasher [(4096, 2); (NULL, 7); (4098, 1)];
         first ← dstu_kupyna256_hasher_finalize hasher 4112;
         second ← dstu_kupyna256_hasher_finalize hasher 4112;
         mret (first, second)) w (λ '(first, second) w', first = DSTU_OK ∧ second = DSTU_ERR_FINALIZED ∧ mem w' = store (mem w) 4112 (kupyna_digest Kupyna256 [1; 2; 3])).
Proof.
  intros w. assert (memory_ok (mem w)) as Hm by (apply example_memory; by_decision). split; [exact Hm|].
  refine (hasher_calls_exact (Obj := DstuKupyna256Hasher) Kupyna256 Build_DstuKupyna256Hasher hasher256 [(4096, 2); (NULL, 7); (4098, 1)] 4112 w _ Hm _ _ _ _ _); [done|done| |by_decision| |done].
  - apply Forall_cons. split; [split; [by_decision|]; split; [by_decision|]; right; exists [1; 2]; (split; [done|]; split; [by right|reflexivity])|].
    apply Forall_cons. split; [split; [by_decision|]; split; [by_decision|by left]|].
    apply Forall_cons. split; [|by apply Forall_nil]. split; [by_decision|]. split; [by_decision|]. right. exists [3]. split; [done|]. split; [by right|reflexivity].
  - split; [by_decision|]. split; [by_decision|]. right. exists (replicate 32 0). split; [done|]. split; [by right|reflexivity].
Defined.

(** ** Authentication *)

(** On valid or null pointers [dstu_auth_verify] changes nothing and returns; the status is [DSTU_OK] exactly when the 32 bytes at [tag] are the KMAC of the message
    under the key.  [dstu_auth] writes exactly this tag, when its arguments do not overlap and none is null. *)
Theorem auth_calls_exact {Obj : Type} `{SubtleLaws} `{HandleTypeLaws Obj DstuAuthKey} (self : DstuAuthKey) (key p : addr) (n : Z) (tag : addr) (w : World Obj) :
  array_ok 32 (auth_key self) → memory_ok (mem w) → (key = NULL ∨ handle w key self) → valid_arg (mem w) p n → n < 2 ^ 60 → valid_arg (mem w) tag 32 →
  total (dstu_auth_verify key p n tag) w (λ st w', w' = w ∧
    (st = DSTU_OK ↔ key ≠ NULL ∧ tag ≠ NULL ∧ ∃ message, n = length message ∧ buffer (mem w) p message ∧ buffer (mem w) tag (kmac_spec Kupyna256 (auth_key self) message))) ∧
  total (dstu_auth key p n tag) w (λ _ w',
    w' = w ∧ (overlaps p n tag 32 = true ∨ key = NULL ∨ tag = NULL ∨ p = NULL ∧ n ≠ 0) ∨
    ∃ message, n = length message ∧ buffer (mem w) p message ∧ w' = set_mem w (store (mem w) tag (kmac_spec Kupyna256 (auth_key self) message))).
Proof.
  intros Hk Hm Hkey Hp Hn Ht.
  assert (∀ message, n = length message → buffer (mem w) p message → bytes_ok message ∧ countable message) as Hmsg.
  { intros message -> Hb. split; [by eapply buffer_ok|]. unfold countable. lia. }
  split.
  - apply total_guard_status. cstep.
    { rewrite orb_true_iff. unfold is_null. rewrite !Z.eqb_eq. intros Hn0. apply total_ret. split; [done|]. split; [done|]. intros (? & ? & _). by destruct Hn0. }
    rewrite orb_false_iff. unfold is_null. rewrite !Z.eqb_neq. intros [Hk0 Ht0]. destruct Hkey as [->|Hkey]; [done|].
    apply total_bind, total_slice; [done| |].
    { intros Hn0 ->. apply total_ret. split; [done|]. split; [done|]. intros (_ & _ & message & -> & Hb & _). by rewrite (buffer_null _ _ Hb) in Hn0. }
    intros message -> Hb. destruct (Hmsg message eq_refl Hb) as [Hbytes Hc]. destruct (valid_arg_bytes _ _ _ Ht Ht0) as (old & Hl & Hold).
    apply total_bind, (total_read_array tag old); [lia|done|done|]. apply total_bind, (total_deref key self); [done|]. apply total_bind, total_get; [done|].
    destruct (mac_256 (auth_key self) message Hk Hbytes Hc) as [Emac [Hml _]].
    apply total_bind, (total_library _ (if decide (old = kmac_spec Kupyna256 (auth_key self) message) then Ok tt else Err CryptoAuth.TagMismatch)).
    { unfold auth_verify, KupynaKmac.verify. rewrite Emac. cbn [mbind option_bind result_bind]. rewrite ct_eq_slice_spec. case_bool_decide; case_decide; congruence. }
    case_decide as Eo; apply total_ret; (split; [done|]); (split; [|try done]).
    + intros _. split; [done|]. split; [done|]. exists message. by rewrite <- Eo.
    + done.
    + intros (_ & _ & message' & Hl' & Hb' & Htag). exfalso. apply Eo. rewrite (buffer_unique _ _ _ _ Hb' Hb) in Htag by lia. apply (buffer_unique _ _ _ _ Hold Htag). lia.
  - apply total_guard_void. cstep; [intros Ho; apply total_ret; left; auto|]. intros _. cstep.
    { rewrite orb_true_iff. unfold is_null. rewrite !Z.eqb_eq. intros Hn0. apply total_ret. left. split; [done|]. tauto. }
    rewrite orb_false_iff. unfold is_null. rewrite !Z.eqb_neq. intros [Hk0 Ht0]. destruct Hkey as [->|Hkey]; [done|].
    apply total_bind, total_slice; [done|intros Hn0 Hp0; apply total_ret; left; split; [done|tauto]|].
    intros message -> Hb. destruct (Hmsg message eq_refl Hb) as [Hbytes Hc]. destruct (valid_arg_bytes _ _ _ Ht Ht0) as (old & Hl & Hold).
    apply total_bind, (total_deref key self); [done|]. apply total_bind, total_get; [done|].
    apply total_bind, (total_library _ (kmac_spec Kupyna256 (auth_key self) message)); [by apply auth_spec|].
    destruct (mac_256 (auth_key self) message Hk Hbytes Hc) as [_ [Hml _]].
    apply (total_write_array tag old); [lia|done|done|done|]. right. by exists message.
Qed.

Lemma auth_calls_exact_witness :
  let _ := plain_subtle in
  let self := {| auth_key := seqZ 0 32 |} in
  let w : World DstuAuthKey := example_world self [1; 2; 3] in
  memory_ok (mem w) ∧
  total (dstu_auth_verify 1 4096 3 4112) w (λ st w', w' = w ∧
    (st = DSTU_OK ↔ 1 ≠ NULL ∧ 4112 ≠ NULL ∧ ∃ message, 3 = length message ∧ buffer (mem w) 4096 message ∧ buffer (mem w) 4112 (kmac_spec Kupyna256 (seqZ 0 32) message))) ∧
  total (dstu_auth 1 4096 3 4112) w (λ _ w',
    w' = w ∧ (overlaps 4096 3 4112 32 = true ∨ 1 = NULL ∨ 4112 = NULL ∨ 4096 = NULL ∧ 3 ≠ 0) ∨
    ∃ message, 3 = length message ∧ buffer (mem w) 4096 message ∧ w' = set_mem w (store (mem w) 4112 (kmac_spec Kupyna256 (seqZ 0 32) message))).
Proof.
  intros ? self w. assert (memory_ok (mem w)) as Hm by (apply example_memory; by_decision). split; [exact Hm|].
  refine (@auth_calls_exact DstuAuthKey plain_subtle plain_subtle_laws _ _ self 1 4096 3 4112 w _ Hm _ _ _ _); [by_decision|right; apply example_handle| |done|].
  - split; [by_decision|]. split; [by_decision|]. right. exists [1; 2; 3]. split; [done|]. split; [by right|reflexivity].
  - split; [by_decision|]. split; [by_decision|]. right. exists (replicate 32 0). split; [done|]. split; [by right|reflexivity].
Defined.
