(* ===== verification/CSecretstream.v ===== *)
(** The C interface of the streams ([crates/dstu-core-capi/src/secretstream.rs]): the push and pull states and the file codec behind
    handles.  A file decryptor keeps the first error it met; here it keeps the error itself, where the source keeps its text. *)

From stdpp Require Import gmap.
From S2P Require Import Prelude External Randombytes Stream Kalyna Ghash Secretstream SecretstreamFile CAbi CPrimitives.
#[local] Open Scope Z_scope.
#[local] Open Scope uacrypt_scope.

#[local] Notation "x ←? m 'else' e ; k" := (mbind (λ o, match o with Some x => k | None => mret e end) m)
  (at level 20, m at level 100, e at level 200, k at level 200, right associativity).

(** ** Chunk tags *)

Inductive DstuTag : Type := DSTU_TAG_MESSAGE | DSTU_TAG_PUSH | DSTU_TAG_REKEY | DSTU_TAG_FINAL.

(** [self as u32]. *)
Definition tag_number (self : DstuTag) : Z :=
  match self with DSTU_TAG_MESSAGE => 0 | DSTU_TAG_PUSH => 1 | DSTU_TAG_REKEY => 2 | DSTU_TAG_FINAL => 3 end.

Definition core_from_raw (tag : Z) : option Tag :=
  if Z.eqb tag (tag_number DSTU_TAG_MESSAGE) then Some Message
  else if Z.eqb tag (tag_number DSTU_TAG_PUSH) then Some Push
  else if Z.eqb tag (tag_number DSTU_TAG_REKEY) then Some Rekey
  else if Z.eqb tag (tag_number DSTU_TAG_FINAL) then Some Final
  else None.

Definition from_core (tag : Tag) : DstuTag :=
  match tag with Message => DSTU_TAG_MESSAGE | Push => DSTU_TAG_PUSH | Rekey => DSTU_TAG_REKEY | Final => DSTU_TAG_FINAL end.

(** ** Handles *)

Record DstuSecretstreamKey : Type := { secretstream_key : list Z }.
Record DstuPushState : Type := { push_state : PushState }.
Record DstuPullState : Type := { pull_state : PullState }.
Record DstuFileEncryptor : Type := { encryptor : FileEncryptor }.
Record DstuFileDecryptor {GE : Type} : Type := { inner : FileDecryptor; last_error : option (FileError GE) }.
Arguments DstuFileDecryptor : clear implicits.

Section functions.
Context {Obj : Type} `{Cpu} `{Subtle} `{Zeroize} {GE : Type} (fill : fill_call GE).
Context `{!HandleType Obj DstuSecretstreamKey} `{!HandleType Obj DstuPushState} `{!HandleType Obj DstuPullState}.
Context `{!HandleType Obj DstuFileEncryptor} `{!HandleType Obj (DstuFileDecryptor GE)}.

Definition dstu_secretstream_key_generate : addr → M Obj DstuStatus := key_generate Build_DstuSecretstreamKey fill.
Definition dstu_secretstream_key_from_bytes : addr → M Obj addr := key_from_bytes Build_DstuSecretstreamKey.
Definition dstu_secretstream_key_bytes : addr → addr → M Obj () := key_bytes secretstream_key.
Definition dstu_secretstream_key_free : addr → M Obj () := free (T := DstuSecretstreamKey).

(** ** Push *)

(** The match of [push_init]; [None] is its [unreachable!]. *)
Definition push_init_status (r : result (PushState * list Z) (SecretstreamError GE)) : option (result (PushState * list Z) DstuStatus) :=
  match r with
  | Ok x => Some (Ok x)
  | Err (Secretstream.Random _) => Some (Err DSTU_ERR_RANDOM)
  | Err _ => None
  end.

Definition dstu_secretstream_push_init (key out header_out : addr) : M Obj DstuStatus :=
  guard_status (
    if is_null key || is_null out || is_null header_out then mret DSTU_ERR_NULL_POINTER
    else
      key ← deref (T := DstuSecretstreamKey) key;
      r ← library (push_init fill (secretstream_key key) ≫= push_init_status);
      match r with
      | Err e => mret e
      | Ok (state, header) =>
          _ ← write_array header_out 32 header;
          p ← box_into_raw {| push_state := state |};
          _ ← write_ptr out p;
          mret DSTU_OK
      end).

Definition dstu_secretstream_push_is_finalized (state : addr) : M Obj bool :=
  guard_bool (if is_null state then mret false else self ← deref state; mret (finalized (push_state self))).

(** The match of [push]. *)
Definition push_status (e : SecretstreamError GE) : option DstuStatus :=
  match e with
  | Secretstream.InvalidLength => Some DSTU_ERR_INVALID_LENGTH
  | StreamFinalized | Secretstream.CounterExhausted => Some DSTU_ERR_FINALIZED
  | _ => None
  end.

Definition dstu_secretstream_push (state : addr) (tag : Z) (plaintext : addr) (plaintext_len : Z) (ciphertext_out : addr) (ciphertext_out_len : Z)
    (tag_out : addr) : M Obj DstuStatus :=
  guard_status (
    if overlaps plaintext plaintext_len ciphertext_out ciphertext_out_len || overlaps plaintext plaintext_len tag_out 16
       || overlaps ciphertext_out ciphertext_out_len tag_out 16 then mret DSTU_ERR_INVALID_ARGUMENT
    else if is_null state || is_null tag_out then mret DSTU_ERR_NULL_POINTER
    else
      plaintext ←? slice_from_raw plaintext plaintext_len else DSTU_ERR_NULL_POINTER;
      ciphertext_out ←? slice_from_raw_mut ciphertext_out ciphertext_out_len else DSTU_ERR_NULL_POINTER;
      self ← deref state;
      match core_from_raw tag with
      | None => mret DSTU_ERR_INVALID_ARGUMENT
      | Some tag =>
          _ ← live [plaintext] [ciphertext_out];
          data ← get plaintext;
          buf ← get ciphertext_out;
          '(self, buf, r) ← library (push (push_state self) tag data buf);
          _ ← assign state {| push_state := self |};
          _ ← put ciphertext_out buf;
          match r with
          | Ok full_tag => _ ← write_array tag_out 16 full_tag; mret DSTU_OK
          | Err e => library (push_status e)
          end
      end).

Definition dstu_secretstream_push_free : addr → M Obj () := free (T := DstuPushState).

(** ** Pull *)

Definition dstu_secretstream_pull_init (key header : addr) : M Obj addr :=
  guard_ptr (
    if is_null key || is_null header then mret NULL
    else
      key ← deref (T := DstuSecretstreamKey) key;
      header_bytes ← read_array header 32;
      state ← library (pull_init (secretstream_key key) header_bytes);
      box_into_raw {| pull_state := state |}).

Definition dstu_secretstream_pull_is_finalized (state : addr) : M Obj bool :=
  guard_bool (if is_null state then mret false else self ← deref state; mret (pull_finalized (pull_state self))).

(** The match of [pull]. *)
Definition pull_status (e : SecretstreamError GE) : option DstuStatus :=
  match e with
  | Secretstream.UnknownTag => Some DSTU_ERR_UNKNOWN_TAG
  | Secretstream.InvalidLength => Some DSTU_ERR_INVALID_LENGTH
  | StreamFinalized | Secretstream.CounterExhausted => Some DSTU_ERR_FINALIZED
  | Secretstream.TagMismatch => Some DSTU_ERR_TAG_MISMATCH
  | Secretstream.Random _ => None
  end.

Definition dstu_secretstream_pull (state : addr) (tag_byte : Z) (ciphertext : addr) (ciphertext_len : Z) (auth_tag : addr) (plaintext_out : addr)
    (plaintext_out_len : Z) (tag_out : addr) : M Obj DstuStatus :=
  guard_status (
    if overlaps ciphertext ciphertext_len plaintext_out plaintext_out_len || overlaps auth_tag 16 plaintext_out plaintext_out_len then
      mret DSTU_ERR_INVALID_ARGUMENT
    else if is_null state || is_null auth_tag || is_null tag_out then mret DSTU_ERR_NULL_POINTER
    else
      ciphertext ←? slice_from_raw ciphertext ciphertext_len else DSTU_ERR_NULL_POINTER;
      plaintext_out ←? slice_from_raw_mut plaintext_out plaintext_out_len else DSTU_ERR_NULL_POINTER;
      auth_tag ← from_raw_parts auth_tag 16;
      self ← deref state;
      _ ← live [ciphertext; auth_tag] [plaintext_out];
      data ← get ciphertext;
      auth ← get auth_tag;
      buf ← get plaintext_out;
      '(self, buf, r) ← library (pull (pull_state self) tag_byte data auth buf);
      _ ← assign state {| pull_state := self |};
      _ ← put plaintext_out buf;
      match r with
      | Ok tag => _ ← write_int 4 tag_out (tag_number (from_core tag)); mret DSTU_OK
      | Err e => library (pull_status e)
      end).

Definition dstu_secretstream_pull_free : addr → M Obj () := free (T := DstuPullState).

(** ** The file codec *)

Definition file_status (err : FileError GE) : DstuStatus :=
  match err with
  | UnsupportedVersion _ => DSTU_ERR_UNSUPPORTED_VERSION
  | Truncated => DSTU_ERR_TRUNCATED
  | ChunkTooLarge _ => DSTU_ERR_CHUNK_TOO_LARGE
  | BadChunkLength _ => DSTU_ERR_BAD_CHUNK_LENGTH
  | SecretstreamFile.UnknownTag => DSTU_ERR_UNKNOWN_TAG
  | TrailingData => DSTU_ERR_TRAILING_DATA
  | Auth => DSTU_ERR_TAG_MISMATCH
  | Finished | SecretstreamFile.CounterExhausted => DSTU_ERR_FINALIZED
  | SecretstreamFile.InvalidLength => DSTU_ERR_INVALID_LENGTH
  | SecretstreamFile.Random _ => DSTU_ERR_RANDOM
  end.

Definition dstu_secretstream_file_encryptor_new (key prefix_out out : addr) : M Obj DstuStatus :=
  guard_status (
    if is_null key || is_null prefix_out || is_null out then mret DSTU_ERR_NULL_POINTER
    else
      key ← deref (T := DstuSecretstreamKey) key;
      r ← library (encryptor_init fill (secretstream_key key));
      match r with
      | Ok (enc, prefix) =>
          _ ← write_array prefix_out (length prefix) prefix;
          p ← box_into_raw {| encryptor := enc |};
          _ ← write_ptr out p;
          mret DSTU_OK
      | Err e => mret (file_status e)
      end).

(** The record is the part [..MAX_RECORD_BYTES] of the buffer. *)
Definition dstu_secretstream_file_encryptor_seal_chunk (enc chunk : addr) (chunk_len : Z) (record_out : addr) (record_out_cap : Z) : M Obj DstuStatus :=
  guard_status (
    if overlaps chunk chunk_len record_out record_out_cap then mret DSTU_ERR_INVALID_ARGUMENT
    else if is_null enc then mret DSTU_ERR_NULL_POINTER
    else
      chunk ←? slice_from_raw chunk chunk_len else DSTU_ERR_NULL_POINTER;
      record_out ←? slice_from_raw_mut record_out record_out_cap else DSTU_ERR_NULL_POINTER;
      if negb (Z.eqb (s_len chunk) CHUNK_BYTES) then mret DSTU_ERR_INVALID_LENGTH
      else if Z.ltb (s_len record_out) MAX_RECORD_BYTES then mret DSTU_ERR_BUFFER_TOO_SMALL
      else
        let record_out := {| s_ptr := s_ptr record_out; s_len := MAX_RECORD_BYTES |} in
        self ← deref enc;
        _ ← live [chunk] [record_out];
        data ← get chunk;
        record ← get record_out;
        '(self, record, r) ← library (seal_chunk (encryptor self) data record);
        _ ← assign enc {| encryptor := self |};
        _ ← put record_out record;
        match r with
        | Ok _ => mret DSTU_OK
        | Err e => mret (file_status e)
        end).

Definition dstu_secretstream_file_encryptor_seal_final (enc last : addr) (last_len : Z) (record_out : addr) (record_out_cap : Z) (record_len : addr) :
    M Obj DstuStatus :=
  guard_status (
    if overlaps last last_len record_out record_out_cap then mret DSTU_ERR_INVALID_ARGUMENT
    else if is_null enc || is_null record_len then mret DSTU_ERR_NULL_POINTER
    else
      last ←? slice_from_raw last last_len else DSTU_ERR_NULL_POINTER;
      record_out ←? slice_from_raw_mut record_out record_out_cap else DSTU_ERR_NULL_POINTER;
      if Z.ltb CHUNK_BYTES (s_len last) then mret DSTU_ERR_INVALID_LENGTH
      else if Z.ltb (s_len record_out) (s_len last + RECORD_OVERHEAD_BYTES) then mret DSTU_ERR_BUFFER_TOO_SMALL
      else
        self ← deref enc;
        _ ← live [last] [record_out];
        data ← get last;
        record ← get record_out;
        '(self, record, r) ← library (seal_final (encryptor self) data record);
        _ ← assign enc {| encryptor := self |};
        _ ← put record_out record;
        match r with
        | Ok n => _ ← write_usize record_len (n : nat); mret DSTU_OK
        | Err e => mret (file_status e)
        end).

Definition dstu_secretstream_file_encryptor_free : addr → M Obj () := free (T := DstuFileEncryptor).

Definition is_invalid_length (e : FileError GE) : bool := match e with SecretstreamFile.InvalidLength => true | _ => false end.

(** [DstuFileDecryptor::record], on the handle [dec] with the decryptor after the call. *)
Definition record_result (dec : addr) (self : DstuFileDecryptor GE) (result : result nat (FileError GE)) (len_out : addr) : M Obj DstuStatus :=
  match result with
  | Ok n => _ ← assign dec self; _ ← write_usize len_out n; mret DSTU_OK
  | Err e =>
      let kept := match last_error self with None => if is_invalid_length e then None else Some e | Some e0 => Some e0 end in
      _ ← assign dec {| inner := inner self; last_error := kept |};
      mret (file_status e)
  end.

Definition dstu_secretstream_file_decryptor_new (key : addr) : M Obj addr :=
  guard_ptr (
    if is_null key then mret NULL
    else
      key ← deref (T := DstuSecretstreamKey) key;
      box_into_raw ({| inner := decryptor_new (secretstream_key key); last_error := None |} : DstuFileDecryptor GE)).

Definition dstu_secretstream_file_decryptor_next_len (dec : addr) : M Obj Z :=
  guard_usize (if is_null dec then mret 0 else self ← deref (T := DstuFileDecryptor GE) dec; mret (next_len (inner self) : Z)).

Definition dstu_secretstream_file_decryptor_feed (dec input : addr) (input_len : Z) (plaintext_out : addr) (plaintext_out_cap : Z) (plaintext_len : addr) :
    M Obj DstuStatus :=
  guard_status (
    if overlaps input input_len plaintext_out plaintext_out_cap then mret DSTU_ERR_INVALID_ARGUMENT
    else if is_null dec || is_null plaintext_len then mret DSTU_ERR_NULL_POINTER
    else
      input ←? slice_from_raw input input_len else DSTU_ERR_NULL_POINTER;
      plaintext_out ←? slice_from_raw_mut plaintext_out plaintext_out_cap else DSTU_ERR_NULL_POINTER;
      if Z.ltb (s_len plaintext_out) CHUNK_BYTES then mret DSTU_ERR_BUFFER_TOO_SMALL
      else
        self ← deref (T := DstuFileDecryptor GE) dec;
        _ ← live [input] [plaintext_out];
        data ← get input;
        buf ← get plaintext_out;
        '(new, buf, result) ← library (SecretstreamFile.feed (inner self) data buf);
        _ ← put plaintext_out buf;
        record_result dec {| inner := new; last_error := last_error self |} result plaintext_len).

Definition dstu_secretstream_file_decryptor_finish (dec plaintext_out : addr) (plaintext_out_cap : Z) (plaintext_len : addr) : M Obj DstuStatus :=
  guard_status (
    if is_null dec || is_null plaintext_len then mret DSTU_ERR_NULL_POINTER
    else
      plaintext_out ←? slice_from_raw_mut plaintext_out plaintext_out_cap else DSTU_ERR_NULL_POINTER;
      if Z.ltb (s_len plaintext_out) CHUNK_BYTES then mret DSTU_ERR_BUFFER_TOO_SMALL
      else
        self ← deref (T := DstuFileDecryptor GE) dec;
        buf ← get plaintext_out;
        let '(new, buf, result) := SecretstreamFile.finish (inner self) buf in
        _ ← put plaintext_out buf;
        record_result dec {| inner := new; last_error := last_error self |} result plaintext_len).

(** The error whose text the returned pointer leads to; [None] is NULL. *)
Definition dstu_secretstream_file_decryptor_last_error (dec : addr) : M Obj (option (FileError GE)) :=
  r ← catch_unwind (if is_null dec then mret None else self ← deref (T := DstuFileDecryptor GE) dec; mret (last_error self));
  mret (default None r).

Definition dstu_secretstream_file_decryptor_free : addr → M Obj () := free (T := DstuFileDecryptor GE).
End functions.

(** ** Chunks *)

Lemma core_from_raw_spec n tag : core_from_raw n = Some tag ↔ n = to_byte tag.
Proof.
  unfold core_from_raw, tag_number. split.
  - repeat match goal with |- context [Z.eqb ?x ?y] => destruct (Z.eqb_spec x y) as [->|] end; try done; by intros [= <-].
  - intros ->. by destruct tag.
Qed.

Section chunks.
Context {Obj GE : Type} `{Cpu} `{SubtleLaws} `{!HandleType Obj DstuPushState} `{!HandleTypeLaws Obj DstuPushState}.
Context `{!HandleType Obj DstuPullState} `{!HandleTypeLaws Obj DstuPullState}.
Implicit Types w : World Obj.

(** The arguments of a call of [push]: pointers that are valid or null, and a state that is in session [s]. *)
Record push_args (w : World Obj) (state : addr) (s : Session) (plaintext : addr) (plaintext_len : Z) (ciphertext_out : addr) (ciphertext_out_len : Z) (tag_out : addr) : Prop := {
  push_memory : memory_ok (mem w);
  push_session : session_ok s;
  push_handle : state = NULL ∨ handle w state {| push_state := to_push s |};
  push_plaintext : valid_arg (mem w) plaintext plaintext_len;
  push_short : plaintext_len < 2 ^ 60;
  push_ciphertext : valid_arg (mem w) ciphertext_out ciphertext_out_len;
  push_tag : valid_arg (mem w) tag_out 16
}.

(** What makes a call go through: no null pointer, no common bytes, matching lengths, a known tag, and a session that is open. *)
Record push_allowed (w : World Obj) (state : addr) (s : Session) (raw : Z) (p : addr) (n : Z) (out : addr) (cap : Z) (tag_out : addr) (tag : Tag) (data : list Z) : Prop := {
  allowed_tag : raw = to_byte tag;
  allowed_data : buffer (mem w) p data ∧ n = length data;
  allowed_length : cap = n;
  allowed_open : ses_finalized s = false ∧ ses_counter s + 1 < 2 ^ 64;
  allowed_pointers : state ≠ NULL ∧ tag_out ≠ NULL ∧ (out = NULL → n = 0);
  allowed_apart : apart p n out cap ∧ apart p n tag_out 16 ∧ apart out cap tag_out 16
}.

(** The world after a chunk. *)
Definition pushed w (state : addr) (s : Session) (tag : Tag) (data : list Z) (ciphertext_out tag_out : addr) : World Obj :=
  let ct := chunk_xor s data in
  set_mem (set_objects w (<[state := into_obj {| push_state := to_push (advance s tag) |}]> (objects w)))
    (store (store (mem w) ciphertext_out ct) tag_out (chunk_tag s (to_byte tag) ct)).

Definition push_outcome w (state : addr) (s : Session) (raw : Z) (p : addr) (n : Z) (out : addr) (cap : Z) (tag_out : addr) (st : DstuStatus) (w' : World Obj) : Prop :=
  (∃ tag data, push_allowed w state s raw p n out cap tag_out tag data ∧ st = DSTU_OK ∧ w' = pushed w state s tag data out tag_out) ∨
  (∀ tag data, ¬ push_allowed w state s raw p n out cap tag_out tag data) ∧ st ≠ DSTU_OK ∧ st ≠ DSTU_ERR_PANIC ∧ w' = w.

Lemma overlaps_apart_args m p n q k : valid_arg m p n → valid_arg m q k → (p = NULL → n = 0) → (q = NULL → k = 0) → overlaps p n q k = false ↔ apart p n q k.
Proof. intros Hp Hq Hp0 Hq0. apply (overlaps_apart m); try done; [destruct (decide (p = NULL))|destruct (decide (q = NULL))]; auto. Qed.

(** The three tests of a call that is allowed. *)
Lemma allowed_overlaps w state s raw p n out cap tag_out tag data :
  push_args w state s p n out cap tag_out → push_allowed w state s raw p n out cap tag_out tag data →
  overlaps p n out cap = false ∧ overlaps p n tag_out 16 = false ∧ overlaps out cap tag_out 16 = false.
Proof.
  intros [_ _ _ Hp _ Ho Ht] [_ [Hd Hn] -> _ (_ & Ht0 & Ho0) (Ha1 & Ha2 & Ha3)].
  assert (p = NULL → n = 0) as Hp0 by (intros ->; by rewrite (buffer_null _ _ Hd) in Hn). split_and!; by apply (overlaps_apart_args (mem w)).
Qed.

(** The end of a call that [push] refuses. *)
Lemma push_refused w state s raw p n out (old : list Z) tag_out e :
  handle w state {| push_state := to_push s |} → buffer (mem w) out old → e ≠ DSTU_OK → e ≠ DSTU_ERR_PANIC → (∀ tag data, ¬ push_allowed w state s raw p n out (length old) tag_out tag data) →
  total (_ ← assign state {| push_state := to_push s |}; _ ← put (slice_at out (length old)) old; mret e) w (push_outcome w state s raw p n out (length old) tag_out).
Proof.
  intros Hst Hold He Hpa Hno. apply total_bind, total_assign. rewrite set_objects_same by done. apply total_bind, total_put; [done|].
  rewrite store_same by apply Hold. rewrite set_mem_same. apply total_ret. by right.
Qed.

(** The end of a call that [push] accepts. *)
Lemma push_accepted w state s p (data : list Z) out (old : list Z) tag_out tag :
  push_args w state s p (length data) out (length old) tag_out → tag_out ≠ NULL → buffer (mem w) p data → length old = length data →
  push_allowed w state s (to_byte tag) p (length data) out (length old) tag_out tag data →
  total (_ ← assign state {| push_state := to_push (advance s tag) |}; _ ← put (slice_at out (length old)) (chunk_xor s data);
         _ ← write_array tag_out 16 (chunk_tag s (to_byte tag) (chunk_xor s data)); mret DSTU_OK) w (push_outcome w state s (to_byte tag) p (length data) out (length old) tag_out).
Proof.
  intros [Hm Hs _ _ _ _ Ht] Ht0 Hd Hlen Hall. pose proof (buffer_ok _ _ _ Hm Hd) as Hb.
  destruct (chunk_tag_ok s (to_byte tag) (chunk_xor s data) Hs (to_byte_ok tag) (chunk_xor_ok s data Hs Hb)) as [Htl _].
  assert (length (chunk_xor s data) = length data) as Hxl by apply length_xor_keystream.
  apply total_bind, total_assign, total_bind, total_put; [by rewrite Hxl, Hlen|]. destruct (valid_arg_bytes _ _ _ Ht Ht0) as (oldtag & Hol & Hot).
  destruct (buffer_domain (mem w) (store (mem w) out (chunk_xor s data)) tag_out oldtag) as (oldtag' & Hol' & Hot'); [intros q; apply store_domain|done|].
  apply total_bind, (total_write_array tag_out oldtag'); [lia|done|done|done|]. apply total_ret. left. by exists tag, data.
Qed.

Lemma push_call_spec w state s raw p n out cap tag_out :
  push_args w state s p n out cap tag_out →
  total (dstu_secretstream_push (GE := GE) state raw p n out cap tag_out) w (push_outcome w state s raw p n out cap tag_out).
Proof.
  intros Hargs. pose proof (allowed_overlaps w state s raw p n out cap tag_out) as Hov. destruct (Hargs) as [Hm Hs Hst Hp Hn Ho Ht]. apply total_guard_status. cstep.
  { rewrite !orb_true_iff. intros Hany. apply total_ret. right. split; [|done]. intros tag data Hall. destruct (Hov _ _ Hargs Hall) as (E1 & E2 & E3). rewrite E1, E2, E3 in Hany. by destruct Hany as [[?|?]|?]. }
  rewrite !orb_false_iff. intros [[Hov1 Hov2] Hov3]. cstep.
  { rewrite orb_true_iff. unfold is_null. rewrite !Z.eqb_eq. intros Hn0. apply total_ret. right. split; [|done]. intros tag data [_ _ _ _ (? & ? & _) _]. by destruct Hn0. }
  rewrite orb_false_iff. unfold is_null. rewrite !Z.eqb_neq. intros [Hs0 Ht0]. destruct Hst as [->|Hst]; [done|].
  apply total_bind, total_slice; [done| |].
  { intros Hn0 ->. apply total_ret. right. split; [|done]. intros tag data [_ [Hd ->] _ _ _ _]. by rewrite (buffer_null _ _ Hd) in Hn0. }
  intros data -> Hd. apply total_bind, total_slice; [done| |].
  { intros Hn0 ->. apply total_ret. right. split; [|done]. intros tag data' [_ _ -> _ (_ & _ & Hz) _]. by apply Hn0, Hz. }
  intros old -> Hold. apply total_bind, (total_deref state {| push_state := to_push s |}); [done|].
  destruct (core_from_raw raw) as [tag|] eqn:Eraw.
  2:{ apply total_ret. right. split; [|done]. intros tag data' [Hraw _ _ _ _ _]. apply core_from_raw_spec in Hraw. congruence. }
  apply core_from_raw_spec in Eraw as ->. assert (out = NULL → Z.of_nat (length old) = 0) as Ho0 by (intros ->; by rewrite (buffer_null _ _ Hold)).
  assert (p = NULL → Z.of_nat (length data) = 0) as Hp0 by (intros ->; by rewrite (buffer_null _ _ Hd)).
  apply total_bind, total_live; [by apply (aliased_pair (mem w))|]. apply total_bind, total_get; [done|]. apply total_bind, total_get; [done|].
  pose proof (buffer_ok _ _ _ Hm Hd) as Hb. apply total_bind. eapply total_library; [apply push_spec; [done|done|lia]|].
  destruct (ses_finalized s) eqn:Hf; [apply push_refused; try done; intros tag' data' [_ _ _ [? _] _ _]; congruence|].
  case_decide as Hl; [apply push_refused; try done; intros tag' data' [_ _ ? _ _ _]; lia|].
  case_decide as Hc; [|apply push_refused; try done; intros tag' data' [_ _ _ [_ ?] _ _]; done].
  assert (length old = length data) as Hlen by lia. apply push_accepted; try done. split; try done; [by rewrite Hlen|by rewrite <- Hlen|].
  split_and!; apply (overlaps_apart_args (mem w)); try done; by intros ->.
Qed.
End chunks.

Section pulling.
Context {Obj GE : Type} `{Cpu} `{SubtleLaws} `{!HandleType Obj DstuPullState} `{!HandleTypeLaws Obj DstuPullState}.
Implicit Types w : World Obj.

Record pull_args (w : World Obj) (state : addr) (s : Session) (p : addr) (n : Z) (auth_tag out : addr) (cap : Z) (tag_out : addr) : Prop := {
  pull_memory : memory_ok (mem w);
  pull_session : session_ok s;
  pull_handle : state = NULL ∨ handle w state {| pull_state := to_pull s |};
  pull_ciphertext : valid_arg (mem w) p n;
  pull_short : n < 2 ^ 60;
  pull_auth : valid_arg (mem w) auth_tag 16;
  pull_plaintext : valid_arg (mem w) out cap;
  pull_tag : valid_cell (mem w) 4 tag_out
}.

(** What makes a call reach the verification of the tag [auth]. *)
Record pull_allowed (w : World Obj) (state : addr) (s : Session) (raw : Z) (p : addr) (n : Z) (auth_tag out : addr) (cap : Z) (tag_out : addr)
    (tag : Tag) (ct auth : list Z) : Prop := {
  reached_tag : from_byte raw = Some tag;
  reached_data : buffer (mem w) p ct ∧ n = length ct;
  reached_auth : buffer (mem w) auth_tag auth ∧ length auth = 16%nat;
  reached_length : cap = n;
  reached_open : ses_finalized s = false ∧ ses_counter s + 1 < 2 ^ 64;
  reached_pointers : state ≠ NULL ∧ auth_tag ≠ NULL ∧ tag_out ≠ NULL ∧ (out = NULL → n = 0);
  reached_apart : apart p n out cap ∧ apart auth_tag 16 out cap
}.

Definition pulled w (state : addr) (s : Session) (tag : Tag) (ct : list Z) (out tag_out : addr) : World Obj :=
  set_mem (set_objects w (<[state := into_obj {| pull_state := to_pull (advance s tag) |}]> (objects w)))
    (store (store (mem w) out (chunk_xor s ct)) tag_out (to_le_bytes 4 (tag_number (from_core tag)))).

Definition pull_outcome w (state : addr) (s : Session) (raw : Z) (p : addr) (n : Z) (auth_tag out : addr) (cap : Z) (tag_out : addr) (st : DstuStatus) (w' : World Obj) : Prop :=
  (∃ tag ct auth, pull_allowed w state s raw p n auth_tag out cap tag_out tag ct auth ∧
    if decide (auth = chunk_tag s raw ct) then st = DSTU_OK ∧ w' = pulled w state s tag ct out tag_out
    else st = DSTU_ERR_TAG_MISMATCH ∧ w' = set_mem w (store (mem w) out (replicate (length ct) 0))) ∨
  (∀ tag ct auth, ¬ pull_allowed w state s raw p n auth_tag out cap tag_out tag ct auth) ∧ st ≠ DSTU_OK ∧ st ≠ DSTU_ERR_TAG_MISMATCH ∧ st ≠ DSTU_ERR_PANIC ∧ w' = w.

Lemma reached_overlaps w state s raw p n auth_tag out cap tag_out tag ct auth :
  pull_args w state s p n auth_tag out cap tag_out → pull_allowed w state s raw p n auth_tag out cap tag_out tag ct auth →
  overlaps p n out cap = false ∧ overlaps auth_tag 16 out cap = false.
Proof.
  intros [_ _ _ Hp _ Ht Ho _] [_ [Hd Hn] _ -> _ (_ & Ht0 & _ & Ho0) (Ha1 & Ha2)].
  assert (p = NULL → n = 0) as Hp0 by (intros ->; by rewrite (buffer_null _ _ Hd) in Hn). split; by apply (overlaps_apart_args (mem w)).
Qed.

(** The end of a call that [pull] refuses before the verification. *)
Lemma pull_refused w state s raw p n auth_tag out (old : list Z) tag_out e :
  handle w state {| pull_state := to_pull s |} → buffer (mem w) out old → e ≠ DSTU_OK → e ≠ DSTU_ERR_TAG_MISMATCH → e ≠ DSTU_ERR_PANIC →
  (∀ tag ct auth, ¬ pull_allowed w state s raw p n auth_tag out (length old) tag_out tag ct auth) →
  total (_ ← assign state {| pull_state := to_pull s |}; _ ← put (slice_at out (length old)) old; mret e) w (pull_outcome w state s raw p n auth_tag out (length old) tag_out).
Proof.
  intros Hst Hold He He' Hpa Hno. apply total_bind, total_assign. rewrite set_objects_same by done. apply total_bind, total_put; [done|].
  rewrite store_same by apply Hold. rewrite set_mem_same. apply total_ret. by right.
Qed.

(** The two ends of a call that reaches the verification. *)
Lemma pull_verified w state s raw p ct auth_tag auth out (old : list Z) tag_out tag :
  pull_args w state s p (length ct) auth_tag out (length old) tag_out → handle w state {| pull_state := to_pull s |} → length old = length ct → tag_out ≠ NULL →
  pull_allowed w state s raw p (length ct) auth_tag out (length old) tag_out tag ct auth →
  total (let '(self, buf, r) := if decide (auth = chunk_tag s raw ct) then (to_pull (advance s tag), chunk_xor s ct, Ok tag) else (to_pull s, replicate (length old) 0, Err Secretstream.TagMismatch) in
         _ ← assign state {| pull_state := self |}; _ ← put (slice_at out (length old)) buf;
         match r with
         | Ok tag => _ ← write_int 4 tag_out (tag_number (from_core tag)); mret DSTU_OK
         | Err e => library (pull_status (GE := GE) e)
         end) w (pull_outcome w state s raw p (length ct) auth_tag out (length old) tag_out).
Proof.
  intros [_ _ _ _ _ _ _ Ht] Hst Hlen Ht0 Hall. assert (length (chunk_xor s ct) = length ct) as Hxl by apply length_xor_keystream.
  destruct (decide (auth = chunk_tag s raw ct)) as [Ha|Ha].
  - apply total_bind, total_assign, total_bind, total_put; [by rewrite Hxl, Hlen|]. apply total_bind, total_write_int; [done| |done|].
    { eapply valid_cell_domain; [|exact Ht]. intros q. apply store_domain. }
    apply total_ret. left. exists tag, ct, auth. split; [done|]. by rewrite decide_True.
  - apply total_bind, total_assign. rewrite set_objects_same by done. apply total_bind, total_put; [by rewrite length_replicate|]. apply total_ret.
    left. exists tag, ct, auth. split; [done|]. rewrite decide_False by done. by rewrite Hlen.
Qed.

Lemma pull_call_spec w state s raw p n auth_tag out cap tag_out :
  pull_args w state s p n auth_tag out cap tag_out →
  total (dstu_secretstream_pull (GE := GE) state raw p n auth_tag out cap tag_out) w (pull_outcome w state s raw p n auth_tag out cap tag_out).
Proof.
  intros Hargs. pose proof (reached_overlaps w state s raw p n auth_tag out cap tag_out) as Hov. destruct (Hargs) as [Hm Hs Hst Hp Hn Ha Ho Ht]. apply total_guard_status. cstep.
  { rewrite orb_true_iff. intros Hany. apply total_ret. right. split; [|done]. intros tag ct auth Hall. destruct (Hov _ _ _ Hargs Hall) as (E1 & E2). rewrite E1, E2 in Hany. by destruct Hany. }
  rewrite orb_false_iff. intros [Hov1 Hov2]. cstep.
  { rewrite !orb_true_iff. unfold is_null. rewrite !Z.eqb_eq. intros Hn0. apply total_ret. right. split; [|done]. intros tag ct auth [_ _ _ _ _ (? & ? & ? & _) _]. by destruct Hn0 as [[?|?]|?]. }
  rewrite !orb_false_iff. unfold is_null. rewrite !Z.eqb_neq. intros [[Hs0 Ha0] Ht0]. destruct Hst as [->|Hst]; [done|].
  apply total_bind, total_slice; [done| |].
  { intros Hn0 ->. apply total_ret. right. split; [|done]. intros tag ct auth [_ [Hd ->] _ _ _ _ _]. by rewrite (buffer_null _ _ Hd) in Hn0. }
  intros ct -> Hd. apply total_bind, total_slice; [done| |].
  { intros Hn0 ->. apply total_ret. right. split; [|done]. intros tag ct' auth [_ _ _ -> _ (_ & _ & _ & Hz) _]. by apply Hn0, Hz. }
  intros old -> Hold. destruct (valid_arg_bytes _ _ _ Ha Ha0) as (auth & Hal & Hauth). rewrite Hal. apply total_bind, total_from_raw_parts; [by destruct auth|done|].
  apply total_bind, (total_deref state {| pull_state := to_pull s |}); [done|].
  assert (out = NULL → Z.of_nat (length old) = 0) as Ho0 by (intros ->; by rewrite (buffer_null _ _ Hold)).
  assert (p = NULL → Z.of_nat (length ct) = 0) as Hp0 by (intros ->; by rewrite (buffer_null _ _ Hd)). apply total_bind, total_live.
  { pose proof (aliased_pair (mem w) _ _ _ _ Hp Ho Hp0 Ho0 Hov1) as E1. rewrite Hal in Ha, Hov2. pose proof (aliased_pair (mem w) _ _ _ _ Ha Ho ltac:(done) Ho0 Hov2) as E2.
    cbn in E1, E2 |- *. rewrite !orb_false_r in *. by rewrite E1, E2. }
  apply total_bind, total_get; [done|]. apply total_bind, total_get; [done|]. apply total_bind, total_get; [done|].
  pose proof (buffer_ok _ _ _ Hm Hd) as Hb. apply total_bind. eapply total_library; [apply pull_spec; [done|done|lia]|].
  destruct (ses_finalized s) eqn:Hf; [apply pull_refused; try done; intros tag ct' auth' [_ _ _ _ [? _] _ _]; congruence|].
  destruct (from_byte raw) as [tag|] eqn:Eraw; [|apply pull_refused; try done; intros tag ct' auth' [? _ _ _ _ _ _]; congruence].
  case_decide as Hl; [|apply pull_refused; try done; intros tag' ct' auth' [_ _ _ ? _ _ _]; apply Hl; unfold TAG_LEN; lia].
  case_decide as Hc; [|apply pull_refused; try done; intros tag' ct' auth' [_ _ _ _ [_ ?] _ _]; done].
  destruct Hl as [Hlen _]. apply (pull_verified w state s raw p ct auth_tag auth out old tag_out tag); try done. split; try done; [split; [done|lia]|by rewrite Hlen|split_and!; try done; by rewrite <- Hlen|].
  split; apply (overlaps_apart_args (mem w)); try done; by intros ->.
Qed.
End pulling.

(** ** The file decryptor *)

Section decryptor.
Context {GE : Type} `{Cpu} `{SubtleLaws} `{ZeroizeLaws}.

(** The decryptors that calls lead to. *)
Record dec_sane (d : FileDecryptor) : Prop := {
  sane_key : array_ok 32 (key d);
  sane_final : array_ok CHUNK_BYTES (final_plaintext d);
  sane_pull p : dec_pull d = Some p → session_ok (of_pull p);
  sane_body b len : state d = RecordBody b len → (len ≤ CHUNK_BYTES)%nat;
  sane_len : (final_len d ≤ CHUNK_BYTES)%nat;
  sane_done : state d = Done → wiped d
}.

Lemma new_sane k : array_ok 32 k → dec_sane (decryptor_new k).
Proof. intros Hk. split; cbn; try done; [|lia]. split; [apply length_replicate|by apply Forall_replicate]. Qed.

Lemma fail_sane d : dec_sane d → dec_sane (fail d).
Proof.
  intros [[Hk _] [Hf _] _ _ _ _]. split; cbn; try done; [| |lia|by intros _; apply fail_wiped].
  - rewrite zeroize_spec, Hk. split; [apply length_replicate|by apply Forall_replicate].
  - rewrite zeroize_spec, Hf. split; [apply length_replicate|by apply Forall_replicate].
Qed.

(** A chunk pulled into a buffer of its length. *)
Lemma pull_sane p b ct auth out :
  session_ok (of_pull p) → bytes_ok ct → length ct < 2 ^ 60 → bytes_ok out →
  ∃ p' out' r, pull (GetrandomError := GE) p b ct auth out = Some (p', out', r) ∧ session_ok (of_pull p') ∧ length out' = length out ∧ bytes_ok out'.
Proof.
  intros Hs Hc Hl Hb. pose proof (pull_spec (GetrandomError := GE) (of_pull p) b ct auth out Hs Hc ltac:(lia)) as E. rewrite to_of_pull in E. rewrite E.
  destruct (ses_finalized _); [eexists _, _, _; split; [reflexivity|]; done|]. destruct (from_byte b) as [tag|]; [|eexists _, _, _; split; [reflexivity|]; done].
  case_decide as Hd; [|eexists _, _, _; split; [reflexivity|]; done]. case_decide as Hcn; [|eexists _, _, _; split; [reflexivity|]; done]. destruct Hd as [Ho _]. case_decide.
  - eexists _, _, _. split; [reflexivity|]. split; [by apply session_advance|]. split; [unfold chunk_xor; by rewrite length_xor_keystream|by apply chunk_xor_ok].
  - eexists _, _, _. split; [reflexivity|]. split; [done|]. split; [apply length_replicate|by apply Forall_replicate].
Qed.

Lemma copy_at_0_ok (src l : list Z) n : array_ok n l → (length src ≤ n)%nat → bytes_ok src → array_ok n (copy_at 0 src l).
Proof.
  intros [Hl Hb] Hs Hsb. rewrite copy_at_0 by lia. split; [rewrite length_app, length_drop; lia|]. apply Forall_app. split; [done|by apply Forall_drop].
Qed.

(** One turn of the reader, on the length it asks for. *)
Lemma step_sane d input out :
  dec_sane d → bytes_ok input → length input = next_len d → array_ok (length out) out → (CHUNK_BYTES ≤ length out)%nat →
  ∃ d' out' r, SecretstreamFile.step (GetrandomError := GE) d input out = Some (d', out', r) ∧ array_ok (length out) out' ∧
    match r with Ok _ => dec_sane d' | Err _ => dec_sane (fail d') end.
Proof.
  intros Hd Hb Hl Ho Hc. pose proof (fail_sane d Hd) as Hfail. destruct (Hd) as [Hk Hf Hp Hbody Hlen Hdone]. pose proof chunk_bytes_Z as HZ. unfold SecretstreamFile.step, next_len in *. cbv zeta.
  destruct (state d) as [| | |b len| |] eqn:Est; [..|eexists _, _, _; split; [reflexivity|]; done|eexists _, _, _; split; [reflexivity|]; done].
  - destruct (negb _); eexists _, _, _; (split; [reflexivity|]); (split; [done|]); [done|]. by split.
  - assert (array_ok 32 (copy_at 0 input (replicate HEADER_BYTES 0))) as Hh.
    { apply copy_at_0_ok; [split; [apply length_replicate|by apply Forall_replicate]|by rewrite Hl|done]. }
    unfold pull_init. destruct (initial_subkey_spec (key d) _ Hk Hh) as [-> Hok]. set (subkey := ses_subkey _) in *. clearbody subkey. cbn [mbind option_bind]. eexists _, _, _. split; [reflexivity|]. split; [done|]. split; cbn; try done.
    + rewrite zeroize_spec, (proj1 Hk). split; [apply length_replicate|by apply Forall_replicate].
    + intros p [= <-]. split; cbn; [exact Hok|by_decision].
  - destruct (Nat.ltb_spec CHUNK_BYTES (Z.to_nat (from_le_bytes [input.[1]; input.[2]; input.[3]; input.[4]]))) as [Hlt|Hge]; [eexists _, _, _; split; [reflexivity|]; done|].
    destruct (from_byte _) as [tag|]; [|eexists _, _, _; split; [reflexivity|]; done]. destruct (_ && _); [eexists _, _, _; split; [reflexivity|]; done|]. eexists _, _, _. split; [reflexivity|]. split; [done|].
    split; cbn; try done. by intros b' len' [= <- <-].
  - destruct (dec_pull d) as [p|] eqn:Ep; [|eexists _, _, _; split; [reflexivity|]; done]. specialize (Hbody _ _ eq_refl).
    assert (bytes_ok (take len input) ∧ length (take len input) < 2 ^ 60) as [Hcb Hcl] by (split; [by apply Forall_take|rewrite length_take; lia]).
    destruct (Z.eqb _ _).
    + destruct (pull_sane p b (take len input) (drop len input) (take len (final_plaintext d)) (Hp p eq_refl) Hcb Hcl (Forall_take _ _ _ (proj2 Hf))) as (p' & out' & r & -> & Hs' & Hol & Hob).
      cbn [mbind option_bind]. rewrite length_take in Hol. assert (array_ok CHUNK_BYTES (copy_at 0 out' (final_plaintext d))) as Hfin by (apply copy_at_0_ok; [done|rewrite Hol; lia|done]).
      destruct r as [t|e]; (eexists _, _, _; split; [reflexivity|]; split; [done|]).
      * split; cbn; try done. by intros p0 [= <-].
      * split; cbn; try done; [by rewrite zeroize_spec, (proj1 Hk); split; [apply length_replicate|by apply Forall_replicate]|by rewrite zeroize_spec, (proj1 Hfin); split; [apply length_replicate|by apply Forall_replicate]|lia|by intros _; apply fail_wiped].
    + destruct (pull_sane p b (take len input) (drop len input) (take len out) (Hp p eq_refl) Hcb Hcl (Forall_take _ _ _ (proj2 Ho))) as (p' & out' & r & -> & Hs' & Hol & Hob).
      cbn [mbind option_bind]. rewrite length_take in Hol. assert (array_ok (length out) (copy_at 0 out' out)) as Hout by (apply copy_at_0_ok; [done|rewrite Hol; lia|done]).
      destruct r as [t|e]; (eexists _, _, _; split; [reflexivity|]; split; [done|]).
      * split; cbn; try done. by intros p0 [= <-].
      * split; cbn; try done; [by rewrite zeroize_spec, (proj1 Hk); split; [apply length_replicate|by apply Forall_replicate]|by rewrite zeroize_spec, (proj1 Hf); split; [apply length_replicate|by apply Forall_replicate]|lia|by intros _; apply fail_wiped].
Qed.
End decryptor.

Section calls.
Context {GE : Type} `{Cpu} `{SubtleLaws} `{ZeroizeLaws}.

(** A result of the reader: only a call that was refused leaves a decryptor that goes on after an error. *)
Definition reader_step (d d' : FileDecryptor) (out out' : list Z) (r : result nat (FileError GE)) : Prop :=
  dec_sane d' ∧ array_ok (length out) out' ∧
  match r with
  | Ok _ => ¬ wiped d
  | Err e => wiped d' ∨ d' = d ∧ out' = out ∧ e = SecretstreamFile.InvalidLength
  end.

Lemma wiped_done d : wiped d → state d = Done.
Proof. by intros []. Qed.

Lemma feed_sane d input out :
  dec_sane d → bytes_ok input → array_ok (length out) out → ∃ d' out' r, SecretstreamFile.feed (GetrandomError := GE) d input out = Some (d', out', r) ∧ reader_step d d' out out' r.
Proof.
  intros Hd Hb Ho. unfold SecretstreamFile.feed. destruct (is_done (state d)) eqn:Edone.
  { eexists _, _, _. split; [reflexivity|]. split; [done|]. split; [done|]. left. apply (sane_done _ Hd). by destruct (state d). }
  destruct (Nat.eqb_spec (length input) (next_len d)) as [Hl|]; cbn [negb orb]; [|eexists _, _, _; split; [reflexivity|]; split; [done|]; split; [done|]; by right].
  destruct (Nat.ltb_spec (length out) CHUNK_BYTES); [eexists _, _, _; split; [reflexivity|]; split; [done|]; split; [done|]; by right|].
  destruct (step_sane (GE := GE) d input out Hd Hb Hl Ho) as (d' & out' & r & -> & Ho' & Hr); [done|]. cbn [mbind option_bind]. eexists _, _, _. split; [reflexivity|].
  destruct r as [n|e]; (split; [done|]); (split; [done|]).
  - intros Hw. by rewrite (wiped_done _ Hw) in Edone.
  - left. apply fail_wiped.
Qed.

Lemma finish_sane d out :
  dec_sane d → array_ok (length out) out → let '(d', out', r) := SecretstreamFile.finish (GetrandomError := GE) d out in reader_step d d' out out' r.
Proof.
  intros Hd Ho. unfold SecretstreamFile.finish. destruct (is_done (state d)) eqn:Edone.
  { split; [done|]. split; [done|]. left. apply (sane_done _ Hd). by destruct (state d). }
  destruct (Nat.ltb_spec (length out) CHUNK_BYTES); [split; [done|]; split; [done|]; by right|]. pose proof (fail_sane d Hd) as Hf.
  destruct (state d) eqn:Est; try (split; [done|]; split; [done|]; left; apply fail_wiped).
  split; [done|]. split; [|intros Hw; by rewrite (wiped_done _ Hw) in Est]. pose proof (sane_final _ Hd) as [Hfl Hfb]. pose proof (sane_len _ Hd).
  apply copy_at_0_ok; [done|rewrite length_take; lia|by apply Forall_take].
Qed.

(** What the handle keeps after a call: the error it had, or else the error of this call, unless that is a wrong length. *)
Definition keep_error (e err : option (FileError GE)) : option (FileError GE) :=
  match e, err with
  | None, Some err => if is_invalid_length err then None else Some err
  | _, _ => e
  end.

(** The first error of a sequence of calls that is not a wrong length. *)
Fixpoint first_error (errs : list (option (FileError GE))) : option (FileError GE) :=
  match errs with
  | [] => None
  | (None | Some SecretstreamFile.InvalidLength) :: errs => first_error errs
  | Some e :: _ => Some e
  end.

Lemma keep_errors errs : ∀ e, foldl keep_error e errs = match e with Some e => Some e | None => first_error errs end.
Proof. induction errs as [|err errs IH]; intros [e|]; cbn [foldl]; [done..|by rewrite IH|]. rewrite IH. by destruct err as [[]|]. Qed.

Definition handle_sane (self : DstuFileDecryptor GE) : Prop := dec_sane (inner self) ∧ (is_Some (last_error self) → wiped (inner self)).

Definition result_status (r : result nat (FileError GE)) : DstuStatus := match r with Ok _ => DSTU_OK | Err e => file_status e end.
Definition result_error (r : result nat (FileError GE)) : option (FileError GE) := match r with Ok _ => None | Err e => Some e end.

Lemma reader_step_handle d d' e old buf r : handle_sane {| inner := d; last_error := e |} → reader_step d d' old buf r →
  handle_sane {| inner := d'; last_error := keep_error e (result_error r) |} ∧ (is_Some e → result_status r ≠ DSTU_OK).
Proof.
  intros [Hd He] (Hd' & _ & Hr). cbn in *. destruct r as [n|err]; cbn [result_error result_status]; (split; [split; [done|]|]).
  - cbn. unfold keep_error. destruct e as [e|]; [|by intros []]. intros _. by destruct Hr; apply He.
  - intros Hs. by destruct Hr; apply He.
  - cbn. intros Hs. destruct Hr as [Hw|(-> & _ & ->)]; [done|]. unfold keep_error in Hs. destruct e; [by apply He|by destruct Hs].
  - by destruct err.
Qed.

(** *** What calls do *)

(** The arguments of a call. *)
Inductive reader_call : Type :=
| Feed (input : addr) (input_len : Z) (out : addr) (cap : Z) (len_out : addr)
| Finish (out : addr) (cap : Z) (len_out : addr).

Definition call_valid (m : memory) (c : reader_call) : Prop :=
  match c with
  | Feed input input_len out cap len_out => valid_arg m input input_len ∧ valid_arg m out cap ∧ valid_cell m 8 len_out
  | Finish out cap len_out => valid_arg m out cap ∧ valid_cell m 8 len_out
  end.

(** Why a call does not reach the reader. *)
Definition call_refused (c : reader_call) (st : DstuStatus) : Prop :=
  match st, c with
  | DSTU_ERR_INVALID_ARGUMENT, Feed input input_len out cap _ => ¬ apart input input_len out cap
  | DSTU_ERR_NULL_POINTER, Feed input input_len out cap len_out => len_out = NULL ∨ input = NULL ∧ input_len ≠ 0 ∨ out = NULL ∧ cap ≠ 0
  | DSTU_ERR_NULL_POINTER, Finish out cap len_out => len_out = NULL ∨ out = NULL ∧ cap ≠ 0
  | DSTU_ERR_BUFFER_TOO_SMALL, (Feed _ _ _ cap _ | Finish _ cap _) => cap < CHUNK_BYTES
  | _, _ => False
  end.

(** The memory after the reader has answered. *)
Definition answered (m : memory) (out : addr) (buf : list Z) (len_out : addr) (r : result nat (FileError GE)) : memory :=
  let m1 := store m out buf in
  match r with Ok n => store m1 len_out (to_le_bytes 8 n) | Err _ => m1 end.

(** One call on the decryptor [d] in memory [m]: it is refused, or it is a call of the reader on the bytes of its buffers.  The status is that of the reader's result. *)
Inductive reader_event (m : memory) (d : FileDecryptor) : reader_call → DstuStatus → option (FileError GE) → memory → FileDecryptor → Prop :=
| event_refused c st : call_refused c st → reader_event m d c st None m d
| event_fed input out len_out data old d' buf r :
    buffer m input data → buffer m out old → SecretstreamFile.feed (GetrandomError := GE) d data old = Some (d', buf, r) →
    reader_event m d (Feed input (length data) out (length old) len_out) (result_status r) (result_error r) (answered m out buf len_out r) d'
| event_finished out len_out old d' buf r :
    buffer m out old → SecretstreamFile.finish (GetrandomError := GE) d old = (d', buf, r) →
    reader_event m d (Finish out (length old) len_out) (result_status r) (result_error r) (answered m out buf len_out r) d'.

(** A sequence of calls, with their statuses and the errors of the reader. *)
Inductive reader_run : memory → FileDecryptor → list reader_call → list DstuStatus → list (option (FileError GE)) → memory → FileDecryptor → Prop :=
| run_done m d : reader_run m d [] [] [] m d
| run_call m d c st err m1 d1 calls sts errs m2 d2 :
    reader_event m d c st err m1 d1 → reader_run m1 d1 calls sts errs m2 d2 → reader_run m d (c :: calls) (st :: sts) (err :: errs) m2 d2.

Lemma event_no_panic m d c st err m' d' : reader_event m d c st err m' d' → st ≠ DSTU_ERR_PANIC.
Proof. intros [c' st' Hr|? ? ? ? ? ? ? r|? ? ? ? ? r]; [by destruct st', c'|by destruct r as [|[]]..]. Qed.

Lemma run_no_panic m d calls sts errs m' d' : reader_run m d calls sts errs m' d' → Forall (λ st, st ≠ DSTU_ERR_PANIC) sts.
Proof. induction 1; constructor; [by eapply event_no_panic|done]. Qed.

Lemma answered_ok m out buf len_out r : memory_ok m → bytes_ok buf →
  memory_ok (answered m out buf len_out r) ∧ ∀ q, is_Some (m !! q) → is_Some (answered m out buf len_out r !! q).
Proof.
  intros Hm Hb. unfold answered. cbv zeta. assert (memory_ok (store m out buf)) as Hm1 by (by apply store_ok).
  destruct r; (split; [|intros q Hq; by repeat apply store_domain]); [|done]. apply store_ok; [done|apply to_le_bytes_ok].
Qed.

(** What a call keeps. *)
Lemma event_sane m d c st err m' d' e :
  memory_ok m → handle_sane {| inner := d; last_error := e |} → reader_event m d c st err m' d' →
  memory_ok m' ∧ (∀ q, is_Some (m !! q) → is_Some (m' !! q)) ∧ handle_sane {| inner := d'; last_error := keep_error e err |} ∧ (is_Some e → st ≠ DSTU_OK).
Proof.
  intros Hm Hs [c' st' Hr|input out len_out data old d1 buf r Hd Ho Ef|out len_out old d1 buf r Ho Ef]; pose proof (proj1 Hs) as Hd0.
  - split; [done|]. split; [done|]. unfold keep_error. split; [by destruct e|]. intros _ ->. by destruct c'.
  - pose proof (buffer_ok _ _ _ Hm Ho) as Hob. destruct (feed_sane d data old Hd0 (buffer_ok _ _ _ Hm Hd) (conj eq_refl Hob)) as (d2 & buf2 & r2 & E & Hstep).
    rewrite Ef in E. injection E as <- <- <-. destruct (answered_ok m out buf len_out r Hm (proj2 (proj1 (proj2 Hstep)))). split; [done|]. split; [done|]. by eapply reader_step_handle.
  - pose proof (buffer_ok _ _ _ Hm Ho) as Hob. pose proof (finish_sane d old Hd0 (conj eq_refl Hob)) as Hstep. rewrite Ef in Hstep.
    destruct (answered_ok m out buf len_out r Hm (proj2 (proj1 (proj2 Hstep)))). split; [done|]. split; [done|]. by eapply reader_step_handle.
Qed.

(** *** The calls of the interface *)

Context {Obj : Type} `{!HandleType Obj (DstuFileDecryptor GE)} `{!HandleTypeLaws Obj (DstuFileDecryptor GE)}.
Implicit Types w : World Obj.

Definition reader_outcome w (dec : addr) (self : DstuFileDecryptor GE) (c : reader_call) (st : DstuStatus) w' : Prop :=
  ∃ err d', reader_event (mem w) (inner self) c st err (mem w') d' ∧ handle w' dec {| inner := d'; last_error := keep_error (last_error self) err |}.

Lemma reader_refused w dec (self : DstuFileDecryptor GE) c st : handle w dec self → call_refused c st → total (mret st) w (reader_outcome w dec self c).
Proof. intros Hh Hr. apply total_ret. exists None, (inner self). split; [by constructor|]. unfold keep_error. by destruct self as [d []]. Qed.

(** The common end of both calls. *)
Lemma record_result_spec w dec (self : DstuFileDecryptor GE) c d' out len_out (old buf : list Z) r :
  length buf = length old → dec ≠ NULL → valid_cell (mem w) 8 len_out → len_out ≠ NULL →
  reader_event (mem w) (inner self) c (result_status r) (result_error r) (answered (mem w) out buf len_out r) d' →
  total (_ ← put (slice_at out (length old)) buf; record_result dec {| inner := d'; last_error := last_error self |} r len_out) w (reader_outcome w dec self c).
Proof.
  intros Hbl Hd0 Hlen Hl0 Hev. apply total_bind, total_put; [by rewrite Hbl|]. unfold record_result. destruct r as [n|e].
  - apply total_bind, total_assign, total_bind, total_write_int; [done| |done|].
    { eapply valid_cell_domain; [|exact Hlen]. intros q. apply store_domain. }
    apply total_ret. eexists _, d'. split; [exact Hev|]. split; [done|]. cbn [result_error]. unfold keep_error. destruct self as [d []]; apply lookup_insert_eq.
  - apply total_bind, total_assign, total_ret. eexists _, d'. split; [exact Hev|]. split; [done|]. cbn [result_error]. unfold keep_error. destruct self as [d []]; apply lookup_insert_eq.
Qed.

Definition make_call (dec : addr) (c : reader_call) : M Obj DstuStatus :=
  match c with
  | Feed input input_len out cap len_out => dstu_secretstream_file_decryptor_feed (GE := GE) dec input input_len out cap len_out
  | Finish out cap len_out => dstu_secretstream_file_decryptor_finish (GE := GE) dec out cap len_out
  end.

Lemma make_call_spec w dec (self : DstuFileDecryptor GE) c :
  memory_ok (mem w) → handle w dec self → dec_sane (inner self) → call_valid (mem w) c → total (make_call dec c) w (reader_outcome w dec self c).
Proof.
  intros Hm Hh Hd. pose proof (proj1 Hh) as Hd0. destruct c as [input input_len out cap len_out|out cap len_out].
  - intros (Hi & Ho & Hl). apply total_guard_status. cstep; [intros Hov; apply reader_refused; [done|by eapply overlaps_not_apart]|]. intros Hov. cstep.
    { rewrite orb_true_iff. unfold is_null. rewrite !Z.eqb_eq. intros [?|?]; [done|]. apply reader_refused; [done|by left]. }
    rewrite orb_false_iff. unfold is_null. rewrite !Z.eqb_neq. intros [_ Hl0]. apply total_bind, total_slice; [done|intros; apply reader_refused; [done|cbn; tauto]|].
    intros data -> Hdata. apply total_bind, total_slice; [done|intros; apply reader_refused; [done|cbn; tauto]|]. intros old -> Hold.
    cstep; [rewrite slice_at_len; intros Hc%Z.ltb_lt; by apply reader_refused|]. intros _. apply total_bind, (total_deref dec self); [done|].
    assert (out = NULL → Z.of_nat (length old) = 0) as Ho0 by (intros ->; by rewrite (buffer_null _ _ Hold)).
    assert (input = NULL → Z.of_nat (length data) = 0) as Hi0 by (intros ->; by rewrite (buffer_null _ _ Hdata)).
    apply total_bind, total_live; [by apply (aliased_pair (mem w))|]. apply total_bind, total_get; [done|]. apply total_bind, total_get; [done|].
    pose proof (buffer_ok _ _ _ Hm Hold) as Hob. destruct (feed_sane (inner self) data old Hd (buffer_ok _ _ _ Hm Hdata) (conj eq_refl Hob)) as (d' & buf & r & Ef & _ & [Hbl _] & _).
    apply total_bind. eapply total_library; [exact Ef|]. apply record_result_spec; try done. by constructor.
  - intros (Ho & Hl). apply total_guard_status. cstep.
    { rewrite orb_true_iff. unfold is_null. rewrite !Z.eqb_eq. intros [?|?]; [done|]. apply reader_refused; [done|by left]. }
    rewrite orb_false_iff. unfold is_null. rewrite !Z.eqb_neq. intros [_ Hl0]. apply total_bind, total_slice; [done|intros; apply reader_refused; [done|cbn; tauto]|].
    intros old -> Hold. cstep; [rewrite slice_at_len; intros Hc%Z.ltb_lt; by apply reader_refused|]. intros _. apply total_bind, (total_deref dec self); [done|]. apply total_bind, total_get; [done|].
    pose proof (buffer_ok _ _ _ Hm Hold) as Hob. pose proof (finish_sane (inner self) old Hd (conj eq_refl Hob)) as Hstep.
    destruct (SecretstreamFile.finish (inner self) old) as [[d' buf] r] eqn:Ef. destruct Hstep as (_ & [Hbl _] & _). apply record_result_spec; try done. by constructor.
Qed.

Fixpoint make_calls (dec : addr) (calls : list reader_call) : M Obj (list DstuStatus) :=
  match calls with
  | [] => mret []
  | c :: calls => st ← make_call dec c; rest ← make_calls dec calls; mret (st :: rest)
  end.

Lemma call_valid_domain m m' c : (∀ q, is_Some (m !! q) → is_Some (m' !! q)) → call_valid m c → call_valid m' c.
Proof. destruct c; cbn; intuition eauto using valid_arg_domain, valid_cell_domain. Qed.

Lemma make_calls_effect dec calls : ∀ w (self : DstuFileDecryptor GE),
  memory_ok (mem w) → handle w dec self → handle_sane self → Forall (call_valid (mem w)) calls →
  total (make_calls dec calls) w (λ sts w', memory_ok (mem w') ∧ (∀ q, is_Some (mem w !! q) → is_Some (mem w' !! q)) ∧
    (is_Some (last_error self) → Forall (λ st, st ≠ DSTU_OK) sts) ∧
    ∃ errs d', reader_run (mem w) (inner self) calls sts errs (mem w') d' ∧
      let self' := {| inner := d'; last_error := foldl keep_error (last_error self) errs |} in handle w' dec self' ∧ handle_sane self').
Proof.
  induction calls as [|c calls IH]; intros w [d e] Hm Hh Hs Hc.
  { apply total_ret. split; [done|]. split; [done|]. split; [done|]. exists [], d. split; [constructor|]. by split. }
  apply Forall_cons in Hc as [Hc Hcs]. apply total_bind. eapply total_mono; [apply (make_call_spec w dec _ c Hm Hh (proj1 Hs) Hc)|]. intros st w1 (err & d1 & Hev & Hh1).
  destruct (event_sane _ _ _ _ _ _ _ e Hm Hs Hev) as (Hm1 & Hd1 & Hs1 & Hst).
  apply total_bind. eapply total_mono; [apply (IH w1 _ Hm1 Hh1 Hs1)|].
  { eapply Forall_impl; [exact Hcs|]. intros c' Hc'. by eapply call_valid_domain. }
  intros sts w2 (Hm2 & Hd2 & Hsts & errs & d2 & Hrun & Hh2 & Hs2). apply total_ret. split; [done|]. split; [auto|]. split.
  - intros He. apply Forall_cons. split; [by apply Hst|]. apply Hsts. cbn in He |- *. destruct He as [e' ->]. by exists e'.
  - exists (err :: errs), d2. split; [by econstructor|]. by split.
Qed.
End calls.

(** ** Properties *)

Lemma tag_number_core tag : tag_number (from_core tag) = to_byte tag.
Proof. by destruct tag. Qed.

(** On valid or null pointers [dstu_secretstream_pull] returns, and does one of three things.  When the pointers are not null, nothing is shared, the lengths match, the tag byte is
    known and the session is open, the authentication tag decides: the plaintext and the chunk's tag are written and the session advances, or the output is zeroed and the session stays.
    In every other case an error is reported and nothing at all has changed. *)
Theorem pull_call_exact {Obj GE : Type} `{Cpu} `{SubtleLaws} `{HandleTypeLaws Obj DstuPullState} (w : World Obj) (state : addr) (s : Session) (raw : Z) (p : addr) (n : Z)
    (auth_tag out : addr) (cap : Z) (tag_out : addr) :
  pull_args w state s p n auth_tag out cap tag_out →
  total (dstu_secretstream_pull (GE := GE) state raw p n auth_tag out cap tag_out) w (λ st w',
    (∃ tag ct auth, pull_allowed w state s raw p n auth_tag out cap tag_out tag ct auth ∧
      if decide (auth = chunk_tag s raw ct) then st = DSTU_OK ∧ w' = pulled w state s tag ct out tag_out
      else st = DSTU_ERR_TAG_MISMATCH ∧ w' = set_mem w (store (mem w) out (replicate (length ct) 0))) ∨
    (∀ tag ct auth, ¬ pull_allowed w state s raw p n auth_tag out cap tag_out tag ct auth) ∧ st ≠ DSTU_OK ∧ st ≠ DSTU_ERR_TAG_MISMATCH ∧ st ≠ DSTU_ERR_PANIC ∧ w' = w).
Proof. apply pull_call_spec. Qed.

Section delivery.
Context {Obj : Type} `{Cpu} `{SubtleLaws} `{!HandleType Obj DstuPushState} `{!HandleTypeLaws Obj DstuPushState} `{!HandleType Obj DstuPullState} `{!HandleTypeLaws Obj DstuPullState}.
Implicit Types w : World Obj.

(** What an accepted [push] leaves behind. *)
Lemma pushed_delivers w state s raw p n out cap tag_out tag data :
  push_args w state s p n out cap tag_out → push_allowed w state s raw p n out cap tag_out tag data →
  let w' := pushed w state s tag data out tag_out in
  let ct := chunk_xor s data in
  handle w' state {| push_state := to_push (advance s tag) |} ∧ buffer (mem w') out ct ∧ buffer (mem w') tag_out (chunk_tag s (to_byte tag) ct).
Proof.
  intros [Hm Hs _ _ _ Ho Ht] [_ [Hd Hn] Hcap _ (Hs0 & Ht0 & Ho0) (_ & _ & Ha)] w' ct. pose proof (buffer_ok _ _ _ Hm Hd) as Hb.
  destruct (chunk_tag_ok s (to_byte tag) ct Hs (to_byte_ok tag) (chunk_xor_ok s data Hs Hb)) as [Htl _]. assert (length ct = length data) as Hxl by apply length_xor_keystream.
  destruct (valid_arg_bytes _ _ _ Ht Ht0) as (oldtag & Hol & Hot). split; [split; [done|apply lookup_insert_eq]|].
  assert (∃ old, length old = length ct ∧ buffer (mem w) out old) as (old & Hl & Hold).
  { destruct Ho as (_ & _ & [Hz|(old & Hl & Hold)]); [|exists old; split; [lia|done]]. exists []. split; [|by split; [left|]]. cbn. specialize (Ho0 Hz). lia. }
  unfold w', pushed. cbn [mem set_mem]. fold ct. split.
  - apply buffer_store_apart; [by apply (buffer_store_same _ _ old)|]. rewrite Htl, Hxl. unfold TAG_LEN. by rewrite <- Hn, <- Hcap.
  - destruct (buffer_domain (mem w) (store (mem w) out ct) tag_out oldtag) as (oldtag' & Hol' & Hot'); [intros q; apply store_domain|done|].
    apply (buffer_store_same _ _ oldtag'); [done|]. rewrite Htl. unfold TAG_LEN. lia.
Qed.

(** What an accepted [pull] leaves behind. *)
Lemma pulled_delivers w state s tag ct out tag_out old :
  buffer (mem w) out old → length old = length ct → apart out (length ct) tag_out 4 → state ≠ NULL →
  let w' := pulled w state s tag ct out tag_out in
  handle w' state {| pull_state := to_pull (advance s tag) |} ∧ buffer (mem w') out (chunk_xor s ct) ∧ load (mem w') tag_out 4 = Some (to_le_bytes 4 (to_byte tag)).
Proof.
  intros Hold Hl Ha Hs0 w'. assert (length (chunk_xor s ct) = length ct) as Hxl by apply length_xor_keystream. split; [split; [done|apply lookup_insert_eq]|].
  unfold w', pulled. cbn [mem set_mem]. rewrite tag_number_core. split.
  - apply buffer_store_apart; [apply (buffer_store_same _ _ old); [done|lia]|]. by rewrite Hxl, length_to_le_bytes.
  - pose proof (load_store_same (store (mem w) out (chunk_xor s ct)) tag_out (to_le_bytes 4 (to_byte tag))) as E. by rewrite length_to_le_bytes in E.
Qed.
End delivery.

(** C24. [dstu_secretstream_push] goes through exactly when its pointers are not null, nothing is shared, the lengths match, the tag is known and the session is open; else it reports an error that is
    not a panic and changes nothing.  What it wrote, wherever it lies later, is what [dstu_secretstream_pull] in the same session takes: the plaintext arrives, with the chunk's tag, and both sides are in the
    same next session. *)
Theorem stream_calls_roundtrip {Obj GE : Type} `{Cpu} `{SubtleLaws} `{!HandleType Obj DstuPushState} `{!HandleTypeLaws Obj DstuPushState} `{!HandleType Obj DstuPullState} `{!HandleTypeLaws Obj DstuPullState}
    (w : World Obj) (state : addr) (s : Session) (raw : Z) (p : addr) (n : Z) (out : addr) (cap : Z) (tag_out : addr) :
  push_args w state s p n out cap tag_out →
  total (dstu_secretstream_push (GE := GE) state raw p n out cap tag_out) w (λ st w',
    (∀ tag data, ¬ push_allowed w state s raw p n out cap tag_out tag data) ∧ st ≠ DSTU_OK ∧ st ≠ DSTU_ERR_PANIC ∧ w' = w ∨
    ∃ tag data ct auth, push_allowed w state s raw p n out cap tag_out tag data ∧ st = DSTU_OK ∧
      handle w' state {| push_state := to_push (advance s tag) |} ∧ length ct = length data ∧ buffer (mem w') out ct ∧ buffer (mem w') tag_out auth ∧
      ∀ w1 receiver q a dst cap1 tag1 old,
        pull_args w1 receiver s q (length ct) a dst cap1 tag1 → buffer (mem w1) dst old → cap1 = length old →
        pull_allowed w1 receiver s (to_byte tag) q (length ct) a dst cap1 tag1 tag ct auth → apart dst (length data) tag1 4 →
        total (dstu_secretstream_pull (GE := GE) receiver (to_byte tag) q (length ct) a dst cap1 tag1) w1 (λ st w2,
          st = DSTU_OK ∧ handle w2 receiver {| pull_state := to_pull (advance s tag) |} ∧ buffer (mem w2) dst data ∧ load (mem w2) tag1 4 = Some (to_le_bytes 4 (to_byte tag)))).
Proof.
  intros Hargs. eapply total_mono; [by apply push_call_spec|]. intros st w' [(tag & data & Hall & -> & ->)|(Hno & Hst & Hpa & ->)]; [right|by left].
  destruct (pushed_delivers _ _ _ _ _ _ _ _ _ _ _ Hargs Hall) as (Hh & Hct & Hauth). exists tag, data, (chunk_xor s data), (chunk_tag s (to_byte tag) (chunk_xor s data)).
  assert (length (chunk_xor s data) = length data) as Hxl by apply length_xor_keystream. do 6 (split; [done|]).
  intros w1 receiver q a dst cap1 tag1 old Hargs1 Hold -> Hall1 Hap. eapply total_mono; [by apply pull_call_spec|].
  intros st w2 [(tag' & ct' & auth' & [Et [Hq Hql] [Ha Hal] _ _ _ _] & Hres)|(Hno & _)]; [|by destruct (Hno _ _ _ Hall1)].
  destruct Hall1 as [Et1 [Hq1 _] [Ha1 Hal1] Hlen1 _ (Hr0 & _) _]. rewrite Et1 in Et. injection Et as <-.
  rewrite (buffer_unique _ _ _ _ Hq Hq1) in Hres by lia. rewrite (buffer_unique _ _ _ _ Ha Ha1) in Hres by lia. rewrite decide_True in Hres by done. destruct Hres as [-> ->]. split; [done|].
  pose proof (pulled_delivers w1 receiver s tag (chunk_xor s data) dst tag1 old Hold ltac:(lia) ltac:(by rewrite Hxl) Hr0) as Hp. by rewrite chunk_xor_involutive in Hp.
Qed.

(** C25. A file decryptor made by [dstu_secretstream_file_decryptor_new] takes any sequence of [feed] and [finish] calls on valid or null pointers.  Each call either is refused for its pointers or its
    capacity, with nothing changed, or is the call of the library's reader on the bytes of its buffers, with the status of that result; none reports a panic.  The error that the handle shows is the
    first one that the reader met, a wrong length apart; once there is one it stays, and every later call fails. *)
Theorem first_error_kept {Obj GE : Type} `{Cpu} `{SubtleLaws} `{ZeroizeLaws} `{!HandleType Obj DstuSecretstreamKey} `{!HandleTypeLaws Obj DstuSecretstreamKey} `{!HandleType Obj (DstuFileDecryptor GE)}
    `{!HandleTypeLaws Obj (DstuFileDecryptor GE)} (w : World Obj) (key : addr) (k : DstuSecretstreamKey) (before after : list reader_call) :
  memory_ok (mem w) → next_object w ≠ NULL → handle w key k → array_ok 32 (secretstream_key k) → Forall (call_valid (mem w)) before → Forall (call_valid (mem w)) after →
  total (dec ← dstu_secretstream_file_decryptor_new (GE := GE) key;
         statuses ← make_calls (GE := GE) dec before;
         error ← dstu_secretstream_file_decryptor_last_error dec;
         later ← make_calls (GE := GE) dec after;
         final ← dstu_secretstream_file_decryptor_last_error dec;
         mret (statuses, error, later, final)) w (λ '(statuses, error, later, final) w',
    ∃ errors errors' m d d',
      reader_run (mem w) (decryptor_new (secretstream_key k)) before statuses errors m d ∧ reader_run m d after later errors' (mem w') d' ∧
      error = first_error errors ∧ final = first_error (errors ++ errors') ∧
      Forall (λ st, st ≠ DSTU_ERR_PANIC) (statuses ++ later) ∧
      ∀ e, error = Some e → final = Some e ∧ Forall (λ st, st ≠ DSTU_OK) later).
Proof.
  intros Hm Hnx Hkey Hk Hb Ha.
  assert (∀ (w : World Obj) dec self (Q : option (FileError GE) → World Obj → Prop), handle w dec self → Q (last_error self) w → total (dstu_secretstream_file_decryptor_last_error dec) w Q) as Hlast.
  { intros w1 dec self Q Hh HQ. apply total_catch. cstep; [unfold is_null; intros ->%Z.eqb_eq; by destruct Hh|]. intros _. apply total_bind, (total_deref dec self); [done|]. by apply total_ret, total_ret. }
  apply total_bind, total_guard_ptr. cstep; [unfold is_null; intros ->%Z.eqb_eq; by destruct Hkey|]. intros _. apply total_bind, (total_deref key k); [done|]. apply total_box.
  set (dec := next_object w) in *. set (self := {| inner := decryptor_new (secretstream_key k); last_error := None |} : DstuFileDecryptor GE). set (w0 := {| mem := mem w |}).
  assert (handle w0 dec self) as Hh by (split; [done|apply lookup_insert_eq]). assert (handle_sane self) as Hs by (split; [by apply new_sane|by intros []]).
  apply total_bind. eapply total_mono; [by apply (make_calls_effect dec before w0 self)|]. intros sts w1 (Hm1 & Hd1 & _ & errs & d1 & Hr1 & Hh1 & Hs1).
  apply total_bind, (Hlast _ _ _ _ Hh1), total_bind. eapply total_mono; [apply (make_calls_effect dec after w1 _ Hm1 Hh1 Hs1)|].
  { eapply Forall_impl; [exact Ha|]. intros c Hc. by eapply call_valid_domain. }
  intros later w2 (_ & _ & Hl2 & errs' & d2 & Hr2 & Hh2 & _). apply total_bind, (Hlast _ _ _ _ Hh2), total_ret. cbn [last_error inner self] in *. rewrite <- foldl_app in *. rewrite !keep_errors in *.
  exists errs, errs', (mem w1), d1, d2. split_and!; [done..|apply Forall_app; split; by eapply run_no_panic|].
  intros e He. split; [|apply Hl2; by exists e]. rewrite <- (keep_errors _ None), foldl_app, keep_errors, (keep_errors errs None), He. done.
Qed.

(** ** Witnesses *)

Definition example_session : Session := {| ses_subkey := seqZ 0 32; ses_counter := 0; ses_finalized := false |}.

Lemma pull_call_exact_witness :
  let _ := plain_subtle in let _ := {| feature_available := false |} in
  let w : World DstuPullState := example_world {| pull_state := to_pull example_session |} [1; 2; 3] in
  pull_args w 1 example_session 4096 3 4112 4128 3 4132 ∧ pull_allowed w 1 example_session 0 4096 3 4112 4128 3 4132 Message [1; 2; 3] (replicate 16 0) ∧
  total (dstu_secretstream_pull (GE := unit) 1 0 4096 3 4112 4128 3 4132) w (λ st _, st = DSTU_OK ∨ st = DSTU_ERR_TAG_MISMATCH).
Proof.
  intros ? ? w.
  assert (pull_args w 1 example_session 4096 3 4112 4128 3 4132) as Hargs.
  { split; [by apply example_memory; by_decision|by_decision|right; by apply example_handle| |done| | |].
    - split; [by_decision|]. split; [by_decision|]. right. exists [1; 2; 3]. split; [done|]. split; [by right|reflexivity].
    - split; [by_decision|]. split; [by_decision|]. right. exists (replicate 16 0). split; [done|]. split; [by right|reflexivity].
    - split; [by_decision|]. split; [by_decision|]. right. exists [0; 0; 0]. split; [done|]. split; [by right|reflexivity].
    - split; [|done]. split; [by_decision|]. split; [by_decision|]. right. exists (replicate 4 0). split; [done|]. split; [by right|reflexivity]. }
  assert (pull_allowed w 1 example_session 0 4096 3 4112 4128 3 4132 Message [1; 2; 3] (replicate 16 0)) as Hall.
  { split; try done; [split; [split; [by right|reflexivity]|done]|split; [split; [by right|reflexivity]|done]|]. split; intros a Ha; lia. }
  split; [exact Hargs|]. split; [exact Hall|].
  eapply total_mono; [exact (@pull_call_exact DstuPullState unit _ plain_subtle plain_subtle_laws _ _ w 1 example_session 0 4096 3 4112 4128 3 4132 Hargs)|].
  intros st w' [(tag & ct & auth & _ & Hd)|(Hno & _)]; [|by destruct (Hno _ _ _ Hall)]. case_decide; destruct Hd as [-> _]; auto.
Defined.

Lemma stream_calls_roundtrip_witness :
  let _ := plain_subtle in let _ := {| feature_available := false |} in
  let w : World (DstuPushState + DstuPullState) := example_world {| push_state := to_push example_session |} [1; 2; 3] in
  push_args w 1 example_session 4096 3 4112 3 4120 ∧ push_allowed w 1 example_session 2 4096 3 4112 3 4120 Rekey [1; 2; 3] ∧
  total (dstu_secretstream_push (GE := unit) 1 2 4096 3 4112 3 4120) w (λ st w', st = DSTU_OK ∧ handle w' 1 {| push_state := to_push (advance example_session Rekey) |}).
Proof.
  intros ? ? w.
  assert (push_args w 1 example_session 4096 3 4112 3 4120) as Hargs.
  { split; [by apply example_memory; by_decision|by_decision|right; by apply example_handle| |done| |].
    - split; [by_decision|]. split; [by_decision|]. right. exists [1; 2; 3]. split; [done|]. split; [by right|reflexivity].
    - split; [by_decision|]. split; [by_decision|]. right. exists [0; 0; 0]. split; [done|]. split; [by right|reflexivity].
    - split; [by_decision|]. split; [by_decision|]. right. exists (replicate 16 0). split; [done|]. split; [by right|reflexivity]. }
  assert (push_allowed w 1 example_session 2 4096 3 4112 3 4120 Rekey [1; 2; 3]) as Hall.
  { split; try done; [split; [split; [by right|reflexivity]|done]|]. split_and!; intros a Ha; lia. }
  split; [exact Hargs|]. split; [exact Hall|].
  eapply total_mono; [exact (@stream_calls_roundtrip (DstuPushState + DstuPullState) unit _ plain_subtle plain_subtle_laws _ _ _ _ w 1 example_session 2 4096 3 4112 3 4120 Hargs)|].
  intros st w' [(Hno & _)|(tag & data & ct & auth & Hall' & -> & Hh & _)]; [by destruct (Hno _ _ Hall)|]. split; [done|].
  destruct Hall' as [Et _ _ _ _ _]. assert (tag = Rekey) as -> by (by destruct tag). exact Hh.
Defined.

(** A version byte that the reader does not know. *)
Definition example_file_memory : memory := store ∅ 4096 ([3] ++ replicate 7 0 ++ replicate 8 0 ++ replicate CHUNK_BYTES 0).

Lemma first_error_kept_witness :
  let _ := plain_subtle in let _ := {| feature_available := false |} in let _ := plain_zeroize in
  let w : World (DstuSecretstreamKey + DstuFileDecryptor unit) :=
    {| mem := example_file_memory; objects := {[ 1 := inl {| secretstream_key := seqZ 0 32 |} ]}; next_object := 2 |} in
  memory_ok (mem w) ∧ Forall (call_valid (mem w)) [Feed 4096 1 4112 8192 4104] ∧ Forall (call_valid (mem w)) [Finish 4112 8192 4104] ∧
  total (dec ← dstu_secretstream_file_decryptor_new (GE := unit) 1;
         statuses ← make_calls (GE := unit) dec [Feed 4096 1 4112 8192 4104];
         error ← dstu_secretstream_file_decryptor_last_error dec;
         later ← make_calls (GE := unit) dec [Finish 4112 8192 4104];
         final ← dstu_secretstream_file_decryptor_last_error dec;
         mret (statuses, error, later, final)) w (λ '(statuses, error, later, final) w',
    ∃ errors errors' m d d',
      reader_run (mem w) (decryptor_new (seqZ 0 32)) [Feed 4096 1 4112 8192 4104] statuses errors m d ∧ reader_run m d [Finish 4112 8192 4104] later errors' (mem w') d' ∧
      error = first_error errors ∧ final = first_error (errors ++ errors') ∧
      Forall (λ st, st ≠ DSTU_ERR_PANIC) (statuses ++ later) ∧
      ∀ e, error = Some e → final = Some e ∧ Forall (λ st, st ≠ DSTU_OK) later).
Proof.
  intros ? ? ? w. pose proof chunk_bytes_Z as HZ. assert (memory_ok (mem w)) as Hm.
  { apply store_ok; [apply map_Forall_empty|]. apply Forall_app. split; [by_decision|]. apply Forall_app. split; [by_decision|]. apply Forall_app. split; [by_decision|]. by apply Forall_replicate. }
  assert (in_address_space 4096 (length ([3] ++ replicate 7 0 ++ replicate 8 0 ++ replicate CHUNK_BYTES 0)) = true) as Hs.
  { apply in_address_space_spec. rewrite !length_app, !length_replicate. cbn [length]. lia. }
  assert (valid_arg (mem w) 4096 1 ∧ valid_arg (mem w) 4112 8192 ∧ valid_cell (mem w) 8 4104) as (H1 & H2 & H3).
  { split_and!; [..|split; [|done]]; (split; [by_decision|]; split; [by_decision|]; right).
    - exists [3]. split; [done|]. exact (buffer_part 4096 [] [3] _ Hs).
    - exists (replicate CHUNK_BYTES 0). rewrite length_replicate. split; [lia|]. pose proof (buffer_part 4096 ([3] ++ replicate 7 0 ++ replicate 8 0) (replicate CHUNK_BYTES 0) []) as Hp.
      rewrite app_nil_r, <- !app_assoc in Hp. exact (Hp Hs).
    - exists (replicate 8 0). split; [done|]. pose proof (buffer_part 4096 ([3] ++ replicate 7 0) (replicate 8 0) (replicate CHUNK_BYTES 0)) as Hp. rewrite <- !app_assoc in Hp. exact (Hp Hs). }
  assert (Forall (call_valid (mem w)) [Feed 4096 1 4112 8192 4104]) as Hb by (apply Forall_singleton; cbn [call_valid]; auto).
  assert (Forall (call_valid (mem w)) [Finish 4112 8192 4104]) as Ha by (apply Forall_singleton; cbn [call_valid]; auto).
  split; [exact Hm|]. split; [exact Hb|]. split; [exact Ha|].
  refine (@first_error_kept (DstuSecretstreamKey + DstuFileDecryptor unit) unit _ plain_subtle plain_subtle_laws plain_zeroize plain_zeroize_laws _ _ _ _ w 1 {| secretstream_key := seqZ 0 32 |} _ _ Hm _ _ _ Hb Ha); [done|split; [done|reflexivity]|by_decision].
Defined.
